(* ===== verification/_CoqProject ===== *)
-Q . S2P
Prelude.v
Text.v
Core.v
Finance.v
Identity.v
Registry.v
Capability.v
Authority.v
Ports.v
Coordination.v
Leases.v
Singleton.v
Vmm.v
VmmStore.v
VmmService.v
VmmRuns.v
Federation.v
FederationService.v
Realtime.v
Listener.v
Journals.v
Placement.v
Values.v
BTree.v
Bytes.v
Floats.v
Json.v
Capsule.v
CapsuleCodec.v
Envelope.v
CapsuleQuery.v
Sealed.v
Records.v
Catalog.v
Queries.v
Memory.v
Engine.v
MemoryLaws.v
Stores.v
AutoCommit.v
LeaseStorage.v
StorageAdapter.v
ConsensusLog.v
FinanceLedger.v
Consensus.v
Meter.v
Grants.v
GrantRecords.v
Authentication.v
PublicAction.v
GuestData.v
Workloads.v
Guest.v
FinanceHelpers.v
FinanceHolds.v
FinancePools.v
FinanceWallets.v
FinanceMarket.v
FinanceBooks.v
FinanceSteps.v
FinancePoolSteps.v
FinanceWalletSteps.v
FinanceAudit.v
FinanceActions.v
FinanceLines.v
FinanceRetries.v
FinanceReconciled.v
