(* ===== verification/Prelude.v ===== *)
(** * Verification of the Aseman control plane

    Aseman is a Rust system that hosts creatures' workloads on nodes: it meters and bills them,
    authenticates and authorizes what they ask for, keeps them in the state that was asked for,
    runs singleton jobs on one replica at a time, exchanges requests with other nodes, keeps durable
    event streams, and stores all of it as sealed, chained records behind one storage engine.  Its
    crates are layered: [aseman-domain] holds the rules as pure functions and state machines,
    [aseman-ports] the traits through which everything else is reached, [aseman-application] the use
    cases over the ports, [aseman-capsule] the ports' implementations on storage, [aseman-storage]
    the engine and its reference provider, [aseman-contracts] the capsule format.  This library
    models the rules, the storage stack from the bytes of a capsule to the transactions of a
    service, and the use cases whose correctness depends on how they interleave or on the books they
    keep, and proves what makes them correct.  Paths below are under [src/crates/].

    ** Parts and files

    Foundations:
    - [Prelude] (this file): results, options, machine integers, automation, lemmas on lists.
      [Text]: strings as lists of code points, UTF-8 lengths, splitting, trimming, decimal text.
      [Bytes]: UTF-8 decoding, big-endian integers.  [BTree]: ordered maps.  [Json]: JSON values and
      the document operations ([aseman-contracts/src/documents.rs]).  [Floats]: IEEE doubles as bits,
      casts, half precision.  [Ports]: the ports' error type ([aseman-ports/src/lib.rs]).

    Domain rules ([aseman-domain/src]):
    - [Core] ([lib.rs]): UUIDs (the [uuid] crate is the class [UuidText] with the laws
      [UuidTextLaws], and [HexUuid] an instance), states, generations, bindings, money.
    - [Finance] ([finance.rs]): metering, pricing, journal records, holds, refunds, enforcement,
      reconciliation.
    - [Identity] ([identity.rs]): subjects, key purposes, credential windows, key epochs.
    - [Registry], [Authority] ([authority.rs]) and [Capability] ([capability.rs]): the action
      registry, the policy evaluator, capability chains, delegation, revocation.
    - [Listener] ([listener.rs]), [Journals] ([operations.rs], [bootstrap.rs]), [Placement]
      ([volume.rs], [agent.rs]): listener handoff, resumable plans, moves and the worker agent.
    - [Values] ([blob.rs], [program.rs], [creature.rs], [guest.rs], [gateway.rs], [store.rs],
      [store_permissions.rs], [signal_tags.rs]): validated values and their text forms.

    Services over the ports:
    - [Coordination] ([aseman-domain/src/coordination.rs]): lease rules.  [Leases]: the coordination
      ports as classes with what they promise ([aseman-ports/src/coordination.rs]) and the storage
      adapter ([aseman-capsule/src/coordination.rs]), a transaction at a time.  [Singleton]: the
      client ([aseman-application/src/singleton.rs]) and any number of replicas of it.
    - [Vmm] ([aseman-domain/src/vmm.rs]): lifecycle rules.  [VmmStore] ([aseman-capsule/src/vmm.rs]):
      the service's tables.  [VmmService] ([aseman-application/src/vmm.rs]): every use case as a
      program of port calls.  [VmmRuns]: those programs alone and interleaved.
    - [Federation] ([aseman-domain/src/federation.rs]): envelopes and descriptors.
      [FederationService] ([aseman-capsule/src/federation.rs], [aseman-application/src/federation.rs]):
      the envelope guard, the directory, sending and serving.
    - [Realtime] ([aseman-domain/src/realtime.rs], [aseman-capsule/src/realtime.rs]): event log,
      checkpoints, outbox.
    - [Consensus] ([aseman-domain/src/consensus.rs], [aseman-application/src/consensus.rs]): epochs,
      finalizations, handover, and submission of financial records over the provider's port.

    Access, workloads and guests:
    - [Grants] ([aseman-application/src/capability.rs], [aseman-capsule/src/capability.rs]): the grant
      port [GrantStore] with its promises [GrantSpec], loading chains, authorizing, issuing,
      delegating and revoking.  [GrantRecords]: the fields that a grant is stored as.
    - [Authentication] ([aseman-application/src/identity.rs], [aseman-capsule/src/identity.rs]): proofs,
      key rotation and revocation, challenges, enrollment and introductions over the directory, the
      replay guard and the challenges, the class [IdentityStore] with its promises [IdentitySpec].
    - [PublicAction] ([aseman-application/src/public_action.rs]): authentication, authorization, audit,
      execution and the idempotency of mutations, served whole and call by call.
    - [Meter] ([aseman-application/src/meter.rs], [aseman-capsule/src/metering.rs]): the metering pass
      over the VMM client and the usage, pricing and ledger tables.
    - [Workloads] ([aseman-application/src/lib.rs], [aseman-capsule/src/workload.rs]): desired workloads
      and guest database bindings, and changing a desired state.
    - [GuestData] ([aseman-capsule/src/guest_kv.rs]): the pairs and documents of guests on the storage
      of the node.  [Guest] ([aseman-application/src/guest.rs], [guest_call.rs]): the guest gateway,
      host calls and provisioning.

    Finance:
    - [FinanceLedger]: the ledger port and its adapter ([aseman-ports/src/finance_ledger.rs],
      [aseman-capsule/src/finance.rs], [token_lock.rs]).  A [World] is what one action's transaction
      sees, [tx] the monad of actions whose writes are discarded on failure; the clock, identifiers
      and SHA-256 are the class [Platform] with [PlatformLaws].
    - [FinanceHelpers], [FinanceHolds], [FinancePools], [FinanceWallets], [FinanceMarket],
      [FinanceAudit] ([aseman-application/src/finance/]): every use case.  [FinanceActions]
      ([apps/aseman-node/src/actions/finance.rs]): their dispatch, and runs of any number of requests.
    - [FinanceBooks], [FinanceSteps], [FinancePoolSteps], [FinanceWalletSteps]: what each does to the
      books.  [FinanceLines], [FinanceRetries], [FinanceReconciled]: settlement lines, idempotency
      keys, and the reconciliation report.

    Storage:
    - [Capsule], [Envelope], [CapsuleQuery] ([aseman-contracts/src/capsule.rs]): capsule values and
      their deterministic CBOR, sealed envelopes, definitions and query validation.  [CapsuleCodec]
      and [Sealed] hold their theorems.  SHA-256 is the class [Sha256] with [Sha256Laws].
    - [Records], [Catalog], [Queries] ([aseman-storage/src/value.rs], [codec.rs], [schema.rs],
      [query.rs], [eval.rs]): rows, models, sealing of records, filters and orderings.  Case folding
      is the class [Lowercase].
    - [Engine] ([engine.rs], [provider.rs]): the record operations over a provider's transaction, the
      class [CapsuleTransaction], whose promises are [ProviderSpec].  [Memory] ([memory.rs]): the
      reference provider; [MemoryLaws]: it keeps the promises.  [Stores]: the engine's operations as
      map operations, from the promises alone.  [ConsensusLog]: the consensus logs of the provider.
    - [AutoCommit], [StorageAdapter] ([aseman-capsule/src/auto.rs], [storage_adapter.rs], and the
      parts of [aseman-storage/src/client.rs] and [typed.rs] they use): services that use one
      transaction per call, access by access.  [LeaseStorage]: the coordination adapter in the same
      detail.

    ** How the code is modelled

    A Rust enum is an inductive type with its variants, a struct a record with its fields (prefixed
    to keep projections apart), a function a definition of the same name, a method of [T] the
    definition [T_name] where the name alone would clash.  [Result] is [result], [?] is [let?].
    Integers are [Z]; [checked_], [saturating_] and [wrapping] operations are written out at their
    width.  Unchecked arithmetic wraps, as in the release profile, which does not enable overflow
    checks; a debug build panics at the same places.  In the storage stack a panic is the [None] of
    an outer option.  A [HashMap] or [BTreeMap] is a [gmap], or an ordered list of members where the
    code depends on the order.

    A method that changes state takes and returns it.  The adapters under the services (leases, VMM,
    federation, realtime, the finance ledger) are records of tables with one function per port
    method, records kept as values where the adapter keeps their JSON.  A query that names no limit
    returns the first [DEFAULT_ROWS] rows ([first_rows]).

    A transaction ([AutoCommit::decide]) looks, decides, writes and commits.  The adapters document it
    as one step; the engine's transactions promise less: each access sees what is committed then, an
    update reads the row again, and a commit checks the revisions that its writes saw, not what was
    looked up before them ([MemoryLaws.commit_saw_what_it_read]).  Claims and nonces that are created
    ([create] fails when the record exists), and revisions that are put at the revision that was read,
    are exclusive all the same.  Where a call looks and then updates, the look and the write are steps
    of their own in the transition systems of [VmmRuns] ([access_step]) and [Singleton] ([step]), and
    the theorems name the condition they need of a run: no other write of the same row between the
    two ([calm_run], [lands]).  The storage adapter does not enforce it.  [VmmRuns], [LeaseStorage] and
    [AutoCommit] have the runs in which it fails, and what then happens.

    Where several actors share state there is a transition system on top: [Singleton.step],
    [FederationService.dest_step], [VmmRuns.vmm_step], [VmmRuns.access_step], [Listener.broker_step],
    [MemoryLaws.store_step], [AutoCommit.service_step], [Grants.grants_step],
    [Authentication.identity_step], [PublicAction.mutations_step], [Meter.meter_step],
    [Workloads.desires_step]; their steps include failures, lost replies, crashes and clocks that move
    as they like, as far as the code meets them.

    Code outside the repository and third-party crates are parameters: the uuid text form, SHA-256,
    case folding, signatures and key decoding ([IdentityVerifier]), JSON text ([JsonText]), the policy
    port, the transport, the VMM backends and the client of the manager, the ordering service, and what
    executes public actions and host calls.
    What a theorem needs of one is a hypothesis with a concrete instance in its witness.

    ** What the theorems show

    - Money: whatever sequence of finance requests is served, wealth changes by the mints, payment
      adjustments and payouts that succeeded and nothing else, the books stay balanced, documents move along their lifecycle, a request is applied once under its key, and the reconciliation report finds
      no drift exactly when there is none.  Settlement lines are accepted as a reference in unbounded
      integers says, a price is exact up to rounding; every journal record balances, refunds cancel,
      holds are spent once, metering telescopes.
    - Authority: the evaluator decides exactly the declarative rule; a capability chain authorizes
      nothing that one of its links does not; delegation attenuates; revocation reaches exactly the
      descendants (the closure loop has fuel for one pass per grant and one more, and is proved to
      stop within it).  Whatever sequence of use cases runs, what a grant authorizes was issued at a
      root and delegated link by link, a revocation is final for everything below it, and the
      revocation reports exactly the descendants (its loop carries fuel for one turn more than the code's
      own limit on the closure, proved to be enough).  A grant reads back as it was stored.
    - Identity: subjects have one spelling, freshness and key rotation are exact.  An accepted proof
      was checked against a key of the directory that its subject registered and that stood at the
      time, it is accepted once when the calls that record its nonce follow one another, and a subject
      that was introduced cannot introduce others.
    - Public actions: the effect of a request is that of an execution that the policy permitted and
      the audit recorded, and a mutation under one key executes at most once however handlers
      interleave, fail and crash.
    - Metering: every journal record is the exact price of one recorded interval and the entries add up
      to the journal, an account's balance is what they say as long as it has no more entries than a
      query returns, no usage is measured
      twice, none is lost while the store answers, and a backlog of payable intervals is settled.  The
      page loop of a pass carries fuel and the theorems hold for every amount; the page scan of
      [unsettled] is given one page more than there are rows, proved to be enough.
    - Workloads and guests: desired states are recorded in strictly increasing generations, each
      allowed by the policy and commanded at most once; a signed guest request reaches the pairs of
      the creature of the workload that signed it and no other; creatures that share the table of
      pairs do not notice each other.
    - Coordination: the adapter decides by the rules; from the ports' promises, in runs without
      a write of a row between the look and the write of another call on it, two replicas
      never hold one name and a fenced destination never accepts an older holder's effect.  The
      provider's clock stays below a horizon from which adding a time to live cannot wrap.
    - VMM: under every interleaving on the same condition workloads evolve by allowed changes only and
      operations settle once; the executor, alone and before the deadline, converges against an
      obedient backend within two attempts; the event log
      has no silent gap; idempotency keys answer one request.  The page loops of the service carry
      fuel; the safety theorems hold for every amount of it, and reading all pages is proved to
      need at most one page more than there are records.
    - Federation: the destination decides for itself, executes at most once, and understands what
      the source meant; forwarding is bounded by the hop limit.
    - Realtime: streams are dense and readers miss nothing; published entries stay published.
    - Capsules: the decoder accepts the encodings of valid values and nothing else, and gives back
      the value; sealed envelopes are read exactly; the hash of the newest revision fixes the whole
      history behind it.  The decoder recurses on the nesting levels that are left, from the code's own
      limit; [normalize] shifts a half-precision mantissa at most ten times.
    - Storage: a commit is atomic and saw what it read, concurrent transactions keep histories chained
      and unique indexes unique; each engine operation changes one entry of the live records as a map
      operation would; filters are three-valued SQL; a walk over pages ends ([all_rows] carries a bound
      on pages, proved to be enough).  Query validation accepts exactly what the definition allows;
      the catalog is closed under its references; a consensus log is an ordered map.
    - Services on storage: one claim of an idempotency key wins, a recorded nonce is refused, accepted
      finalizations extend one order.  [alone] and [interleave] carry the number of accesses; their
      uses are closed terms that finish within it.
    - Listeners, journals, bootstrap, placement, the agent, and validated values: the invariants of
      each, and round trips.

    Behaviour that contradicts a comment or a contract is stated as it is and recorded: the lifetime
    subtractions that wrap ([Identity.credential_freshness], [Federation.envelope_accepted]), the
    legacy id that two references share ([Values.legacy_id_collides]), sequences that restart after
    a purge and claims that take over live ones ([Realtime.purged_stream_restarts],
    [Realtime.claim_takes_over_live_claims]), an answer replaced by a late completion
    ([VmmStore.late_completion_replaces_answer]), a pool whose opening makes unearned
    money withdrawable ([FinanceReconciled.open_pool_unbacked]), envelopes that cannot be read or sealed
    ([Sealed.null_body_is_unreadable], [Sealed.seal_panics]), an ordering with cycles
    ([Queries.order_cycles]), log batches that are applied in part
    ([ConsensusLog.reversed_range_splits_batch], [ConsensusLog.fresh_open_forgets]), a filter that
    matches nothing ([StorageAdapter.id_filter_matches_nothing]), and calls that run into each other
    between a look and a write ([AutoCommit.Kinds.nonce_accepted_twice],
    [AutoCommit.Kinds.challenge_consumed_twice], [AutoCommit.Kinds.completed_claim_released],
    [LeaseStorage.LeaseCalls.lease_granted_twice], [LeaseStorage.LeaseCalls.fence_moves_back],
    [VmmRuns.stale_write_wins], [VmmRuns.stale_finish_wins]), a balance that leaves entries out
    ([Meter.balance_falls_behind]), usage that is lost, measured twice or held up ([Meter.MeterUse.failed_interval_is_lost],
    [Meter.MeterUse.same_end_measured_twice], [Meter.MeterUse.unpriced_interval_blocks]), and a deleted
    workload that is recorded as running ([Workloads.DesireUse.deleted_workload_revives]).

    ** What is not modelled

    - The RocksDB and PostgreSQL providers: database drivers.  What they owe the engine is
      [ProviderSpec].
    - The rest of the generated client: one module of the same shape per model, of which those that
      the modelled adapters use are here.
    - The node's transports, sessions and workload hosting, the HTTP modules, the administration
      tools, configuration, filesystem, module supervision, telemetry and build tasks: I/O and glue.
    - The runtimes (virtual machines and bindings) and the hashgraph consensus: ports of external
      systems, reached through the ports modelled here.
    - The creature, program and store use cases and the storage of the audit stream: reading and
      writing of records through the engine that is modelled, with few rules of their own; the
      diagnostics and the classification of session routes. *)

From Stdlib Require Export ZArith Lia ZifyBool ZifyN ZifyNat.
From stdpp Require Export base tactics decidable countable pretty list list_numbers gmap strings sets numbers sorting.

Open Scope Z_scope.

(** ** Results: Rust's [Result] *)

Inductive result (A E : Type) : Type :=
| Ok (a : A)
| Err (e : E).
Arguments Ok {A E} a.
Arguments Err {A E} e.

#[export] Instance result_eq_dec {A E} `{EqDecision A, EqDecision E} : EqDecision (result A E).
Proof. solve_decision. Defined.

(** [e?] followed by the rest of the function. *)
Notation "'let?' x ':=' e 'in' k" :=
  (match e with Ok x => k | Err err => Err err end)
  (at level 200, x pattern, e at level 100, k at level 200, right associativity).

Definition ok_or {A E} (o : option A) (e : E) : result A E :=
  match o with Some a => Ok a | None => Err e end.

Definition map_err {A E F} (f : E → F) (r : result A E) : result A F :=
  match r with Ok a => Ok a | Err e => Err (f e) end.

Definition result_map {A B E} (f : A → B) (r : result A E) : result B E :=
  match r with Ok a => Ok (f a) | Err e => Err e end.

Definition is_ok {A E} (r : result A E) : bool :=
  match r with Ok _ => true | Err _ => false end.

Definition is_Ok {A E} (r : result A E) : Prop := ∃ a, r = Ok a.

(** ** Options: the combinators the code uses *)

Definition is_some {A} (o : option A) : bool := match o with Some _ => true | None => false end.
Definition is_none {A} (o : option A) : bool := negb (is_some o).
(** [Option::is_none_or]. *)
Definition is_none_or {A} (f : A → bool) (o : option A) : bool :=
  match o with None => true | Some a => f a end.
(** [Option::is_some_and]. *)
Definition is_some_and {A} (f : A → bool) (o : option A) : bool :=
  match o with None => false | Some a => f a end.

(** ** Machine integers

    A [w]-bit integer is a [Z] in its range.  Unchecked [+]/[-]/[*] are the wrap-around of
    the release profile ([Cargo.toml] does not enable [overflow-checks]). *)

Notation u8 := Z (only parsing).
Notation u16 := Z (only parsing).
Notation u32 := Z (only parsing).
Notation u64 := Z (only parsing).
Notation usize := Z (only parsing).
Notation i64 := Z (only parsing).
Notation i128 := Z (only parsing).

Definition u8_max : Z := 2 ^ 8 - 1.
Definition u32_max : Z := 2 ^ 32 - 1.
Definition u64_max : Z := 2 ^ 64 - 1.
Definition i64_min : Z := - 2 ^ 63.
Definition i64_max : Z := 2 ^ 63 - 1.
Definition i128_min : Z := - 2 ^ 127.
Definition i128_max : Z := 2 ^ 127 - 1.

Definition in_u32 (z : Z) : Prop := 0 ≤ z ≤ u32_max.
Definition in_u64 (z : Z) : Prop := 0 ≤ z ≤ u64_max.
Definition in_i64 (z : Z) : Prop := i64_min ≤ z ≤ i64_max.
#[export] Instance in_u32_dec z : Decision (in_u32 z). Proof. unfold in_u32. apply _. Defined.
#[export] Instance in_u64_dec z : Decision (in_u64 z). Proof. unfold in_u64. apply _. Defined.
#[export] Instance in_i64_dec z : Decision (in_i64 z). Proof. unfold in_i64. apply _. Defined.

Definition checked (lo hi z : Z) : option Z :=
  if bool_decide (lo ≤ z ≤ hi) then Some z else None.
Definition saturate (lo hi z : Z) : Z := Z.max lo (Z.min hi z).

Definition checked_add_u64 (a b : u64) : option u64 := checked 0 u64_max (a + b).
Definition checked_sub_u64 (a b : u64) : option u64 := checked 0 u64_max (a - b).
Definition checked_mul_u64 (a b : u64) : option u64 := checked 0 u64_max (a * b).
Definition checked_add_i64 (a b : i64) : option i64 := checked i64_min i64_max (a + b).
Definition checked_sub_i64 (a b : i64) : option i64 := checked i64_min i64_max (a - b).
Definition checked_neg_i64 (a : i64) : option i64 := checked i64_min i64_max (- a).
Definition checked_add_i128 (a b : i128) : option i128 := checked i128_min i128_max (a + b).
Definition saturating_add_i64 (a b : i64) : i64 := saturate i64_min i64_max (a + b).
Definition saturating_sub_i64 (a b : i64) : i64 := saturate i64_min i64_max (a - b).
Definition saturating_add_u32 (a b : u32) : u32 := saturate 0 u32_max (a + b).
Definition wrap_u64 (z : Z) : u64 := z mod 2 ^ 64.
Definition wrap_i64 (z : Z) : i64 := (z + 2 ^ 63) mod 2 ^ 64 - 2 ^ 63.
(** [i64::try_from] of a [u64]. *)
Definition i64_try_from (z : u64) : option i64 := checked i64_min i64_max z.
(** [u64::try_from] of an [i64]. *)
Definition u64_try_from (z : i64) : option u64 := checked 0 u64_max z.
(** [u64::div_ceil]. *)
Definition div_ceil (a b : u64) : u64 := - ((- a) / b).

(** ** Development tactics and hint databases *)

Create HintDb aseman discriminated.
Create HintDb ints discriminated.
#[export] Hint Unfold in_u32 in_u64 in_i64 u8_max u32_max u64_max i64_min i64_max : ints.

(** Turn boolean tests in the context and the goal into propositions. *)
Ltac unbool :=
  repeat match goal with
  | H : context [bool_decide _ = true] |- _ => rewrite bool_decide_eq_true in H
  | H : context [bool_decide _ = false] |- _ => rewrite bool_decide_eq_false in H
  | H : context [andb _ _ = true] |- _ => rewrite andb_true_iff in H
  | H : context [andb _ _ = false] |- _ => rewrite andb_false_iff in H
  | H : context [orb _ _ = true] |- _ => rewrite orb_true_iff in H
  | H : context [orb _ _ = false] |- _ => rewrite orb_false_iff in H
  | H : context [negb _ = true] |- _ => rewrite negb_true_iff in H
  | H : context [negb _ = false] |- _ => rewrite negb_false_iff in H
  | H : context [Z.ltb _ _ = true] |- _ => rewrite Z.ltb_lt in H
  | H : context [Z.ltb _ _ = false] |- _ => rewrite Z.ltb_ge in H
  | H : context [Z.leb _ _ = true] |- _ => rewrite Z.leb_le in H
  | H : context [Z.leb _ _ = false] |- _ => rewrite Z.leb_gt in H
  | H : context [Z.eqb _ _ = true] |- _ => rewrite Z.eqb_eq in H
  | H : context [Z.eqb _ _ = false] |- _ => rewrite Z.eqb_neq in H
  | |- context [bool_decide _ = true] => rewrite bool_decide_eq_true
  | |- context [bool_decide _ = false] => rewrite bool_decide_eq_false
  | |- context [andb _ _ = true] => rewrite andb_true_iff
  | |- context [andb _ _ = false] => rewrite andb_false_iff
  | |- context [orb _ _ = true] => rewrite orb_true_iff
  | |- context [orb _ _ = false] => rewrite orb_false_iff
  | |- context [negb _ = true] => rewrite negb_true_iff
  | |- context [negb _ = false] => rewrite negb_false_iff
  | |- context [Z.ltb _ _ = true] => rewrite Z.ltb_lt
  | |- context [Z.ltb _ _ = false] => rewrite Z.ltb_ge
  | |- context [Z.leb _ _ = true] => rewrite Z.leb_le
  | |- context [Z.leb _ _ = false] => rewrite Z.leb_gt
  | |- context [Z.eqb _ _ = true] => rewrite Z.eqb_eq
  | |- context [Z.eqb _ _ = false] => rewrite Z.eqb_neq
  end.

(** Case analysis on the guards of a function, with the impossible branches closed. *)
Ltac guards := repeat (case_match; simplify_eq/=); unbool.

(** Arithmetic with the width constants written out. *)
Ltac ilia :=
  unfold in_u32, in_u64, in_i64, u8_max, u32_max, u64_max, i64_min, i64_max in *; lia.

(** ** Integer lemmas *)

Lemma checked_Some lo hi z r : checked lo hi z = Some r ↔ r = z ∧ lo ≤ z ≤ hi.
Proof. unfold checked. case_bool_decide; naive_solver. Qed.

Lemma checked_None lo hi z : checked lo hi z = None ↔ ¬ (lo ≤ z ≤ hi).
Proof. unfold checked. case_bool_decide; naive_solver. Qed.

Lemma checked_in lo hi z : lo ≤ z ≤ hi → checked lo hi z = Some z.
Proof. intros. by apply checked_Some. Qed.

Lemma wrap_i64_id z : in_i64 z → wrap_i64 z = z.
Proof. intros. unfold wrap_i64. rewrite Z.mod_small; ilia. Qed.

(** For an ordered window, the wrapped lifetime passes a non-negative bound exactly when the
    lifetime does or the subtraction overflows. *)
Lemma wrapped_lifetime issued expires bound :
  in_i64 issued → in_i64 expires → issued < expires → 0 ≤ bound →
  wrap_i64 (expires - issued) ≤ bound ↔ expires - issued ≤ bound ∨ i64_max < expires - issued.
Proof.
  intros Hi He Hlt Hb. destruct (decide (expires - issued ≤ i64_max)) as [Hs|Hs].
  - rewrite wrap_i64_id by ilia. lia.
  - assert (wrap_i64 (expires - issued) = expires - issued - 2 ^ 64) as ->.
    { unfold wrap_i64.
      replace (expires - issued + 2 ^ 63) with (expires - issued - 2 ^ 63 + 1 * 2 ^ 64) by lia.
      rewrite Z.mod_add, Z.mod_small by ilia. lia. }
    ilia.
Qed.

Lemma wrap_u64_id z : in_u64 z → wrap_u64 z = z.
Proof. intros. unfold wrap_u64. rewrite Z.mod_small; ilia. Qed.

Lemma saturate_id lo hi z : lo ≤ z ≤ hi → saturate lo hi z = z.
Proof. unfold saturate. lia. Qed.

Lemma saturate_bounds lo hi z : lo ≤ hi → lo ≤ saturate lo hi z ≤ hi.
Proof. unfold saturate. lia. Qed.

(** [div_ceil] is the least integer whose product covers the dividend. *)
Lemma div_ceil_spec a b : 0 < b → a ≤ div_ceil a b * b < a + b.
Proof.
  intros Hb. unfold div_ceil. pose proof (Z.div_mod (- a) b ltac:(lia)).
  pose proof (Z.mod_pos_bound (- a) b Hb). lia.
Qed.

Lemma div_ceil_nonneg a b : 0 < b → 0 ≤ a → 0 ≤ div_ceil a b.
Proof. intros Hb Ha. pose proof (div_ceil_spec a b Hb). nia. Qed.

Lemma div_ceil_pos a b : 0 < b → 0 < a → 0 < div_ceil a b.
Proof. intros Hb Ha. pose proof (div_ceil_spec a b Hb). nia. Qed.

(** ** List lemmas *)

(** Rust's [Iterator::find] with a boolean test. *)
Definition find {A} (f : A → bool) (l : list A) : option A := List.find f l.

Lemma find_Some {A} (f : A → bool) l x : find f l = Some x → x ∈ l ∧ f x = true.
Proof. intros H. apply List.find_some in H as [??]. by rewrite list_elem_of_In. Qed.

Lemma find_None {A} (f : A → bool) l : find f l = None ↔ ∀ x, x ∈ l → f x = false.
Proof.
  split.
  - intros H x Hx. apply (List.find_none f l H x). by apply list_elem_of_In.
  - induction l as [|y l IH]; intros H; simpl; [done|].
    rewrite H by set_solver. apply IH. set_solver.
Qed.

Lemma find_app_skip {A} (f : A → bool) l k :
  (∀ x, x ∈ l → f x = false) → find f (l ++ k) = find f k.
Proof.
  unfold find. induction l as [|x l IH]; intros Hl; simpl; [done|].
  rewrite Hl by (by left). apply IH. intros. apply Hl. by right.
Qed.

Lemma find_is_some {A} (f : A → bool) l : is_some (find f l) = existsb f l.
Proof. induction l as [|x l IH]; simpl; [done|]. by destruct (f x). Qed.

Lemma forallb_spec {A} (f : A → bool) l : forallb f l = true ↔ ∀ x, x ∈ l → f x = true.
Proof. rewrite forallb_forall. by setoid_rewrite list_elem_of_In. Qed.

Lemma existsb_spec {A} (f : A → bool) l : existsb f l = true ↔ ∃ x, x ∈ l ∧ f x = true.
Proof. rewrite existsb_exists. by setoid_rewrite list_elem_of_In. Qed.

(** The sum of a list of integers. *)
Definition sum_Z (l : list Z) : Z := foldr Z.add 0 l.

Lemma sum_Z_app l k : sum_Z (l ++ k) = sum_Z l + sum_Z k.
Proof. induction l; simpl; lia. Qed.

Lemma sum_Z_opp l : sum_Z (Z.opp <$> l) = - sum_Z l.
Proof. induction l; csimpl; lia. Qed.

(** [Iterator::max] on integers. *)
Definition max_Z (l : list Z) : option Z :=
  foldl (λ best x, Some (match best with None => x | Some b => Z.max b x end)) None l.

Lemma max_Z_None l : max_Z l = None ↔ l = [].
Proof.
  split; [|by intros ->]. destruct l as [|z l]; [done|]. unfold max_Z. simpl. intros H. exfalso.
  revert z H. induction l as [|y l IH]; simpl; intros w; [done|]. apply IH.
Qed.

Lemma max_Z_snoc l y :
  max_Z (l ++ [y]) = Some (match max_Z l with None => y | Some b => Z.max b y end).
Proof. unfold max_Z. by rewrite foldl_snoc. Qed.

Lemma max_Z_Some l m : max_Z l = Some m ↔ m ∈ l ∧ ∀ x, x ∈ l → x ≤ m.
Proof.
  revert m. induction l as [|y l IH] using rev_ind; intros m.
  - split; [done|]. intros [Hm _]. by apply not_elem_of_nil in Hm.
  - rewrite max_Z_snoc. destruct (max_Z l) as [b|] eqn:E.
    + destruct (proj1 (IH b) eq_refl) as [Hb Hmax]. split.
      * intros [= <-]. split; [destruct (Z.max_spec b y) as [[_ ->]|[_ ->]]; set_solver|].
        intros x [Hx| ->%list_elem_of_singleton]%elem_of_app; [apply Hmax in Hx|]; lia.
      * intros [Hm Hle]. f_equal. apply Z.le_antisymm; [apply Z.max_lub; apply Hle; set_solver|].
        apply elem_of_app in Hm as [Hm| ->%list_elem_of_singleton]; [apply Hmax in Hm|]; lia.
    + apply max_Z_None in E as ->. simpl. split.
      * intros [= ->]. split; [by left|]. intros x ->%list_elem_of_singleton. lia.
      * intros [->%list_elem_of_singleton _]. done.
Qed.

Lemma filter_all {A} (P : A → Prop) `{∀ x, Decision (P x)} (l : list A) :
  (∀ x, x ∈ l → P x) → filter P l = l.
Proof.
  induction l as [|x l IH]; intros Hl; [done|].
  rewrite filter_cons_True by (apply Hl; by left). f_equal. apply IH. intros. apply Hl. by right.
Qed.

Lemma filter_none {A} (P : A → Prop) `{∀ x, Decision (P x)} (l : list A) :
  (∀ x, x ∈ l → ¬ P x) → filter P l = [].
Proof.
  induction l as [|x l IH]; intros Hl; [done|].
  rewrite filter_cons_False by (apply Hl; by left). apply IH. intros. apply Hl. by right.
Qed.

(** Filtering on a projection commutes with taking it. *)
Lemma fmap_filter {A B} (f : A → B) (P : B → Prop) `{∀ x, Decision (P x)} (l : list A) :
  f <$> filter (λ a, P (f a)) l = filter P (f <$> l).
Proof.
  induction l as [|x l IH]; [done|]. csimpl. rewrite !filter_cons.
  case_decide; csimpl; by rewrite IH.
Qed.

(** Keys that do not repeat determine their values. *)
Lemma NoDup_fst_inj {K V} (l : list (K * V)) k a b :
  NoDup l.*1 → (k, a) ∈ l → (k, b) ∈ l → a = b.
Proof.
  intros Hnd Ha Hb. apply list_elem_of_lookup in Ha as [i Hi], Hb as [j Hj].
  assert (i = j) as ->; [|congruence].
  eapply (NoDup_lookup (l.*1)); [done|rewrite list_lookup_fmap, Hi|rewrite list_lookup_fmap, Hj]; done.
Qed.

Lemma StronglySorted_filter {A} (R : relation A) (P : A → Prop) `{∀ x, Decision (P x)} l :
  StronglySorted R l → StronglySorted R (filter P l).
Proof.
  induction 1 as [|x l Hl IH Hx]; [constructor|]. rewrite filter_cons.
  case_decide; [|done]. constructor; [done|]. rewrite Forall_forall in *.
  intros y [_ Hy]%list_elem_of_filter. auto.
Qed.

Lemma seqZ_sorted m n : StronglySorted Z.le (seqZ m n).
Proof.
  destruct (decide (0 ≤ n)); [|by rewrite seqZ_nil by lia; constructor].
  revert m. pattern n. apply natlike_ind; [|clear n l; intros n Hn IH m|done].
  - intros m. rewrite seqZ_nil by lia. constructor.
  - rewrite seqZ_cons by lia. constructor.
    + replace (Z.pred (Z.succ n)) with n by lia. apply IH.
    + apply Forall_forall. intros x Hx%elem_of_seqZ. lia.
Qed.

Lemma StronglySorted_fmap_inv {A B} (f : A → B) (R : relation B) (Q : relation A) l :
  (∀ x y, R (f x) (f y) → Q x y) → StronglySorted R (f <$> l) → StronglySorted Q l.
Proof.
  intros HR. induction l as [|x l IH]; csimpl; [constructor|]. inversion 1 as [|? ? Hl Hx]; subst.
  constructor; [auto|]. rewrite Forall_fmap in Hx. eapply Forall_impl; [exact Hx|]. simpl. auto.
Qed.

Lemma StronglySorted_snoc {A} (R : relation A) l x :
  StronglySorted R (l ++ [x]) ↔ StronglySorted R l ∧ Forall (λ y, R y x) l.
Proof.
  induction l as [|y l IH]; cbn.
  { split; [by split; constructor|intros _; repeat constructor]. }
  rewrite Forall_cons. split.
  - inversion 1 as [|? ? H1 H2]; subst. apply IH in H1 as [? ?]. rewrite Forall_app, Forall_singleton in H2.
    destruct H2. split_and!; [by constructor|done|done].
  - intros [Hs [Hx Hl]]. inversion Hs; subst. constructor; [by apply IH|]. by rewrite Forall_app, Forall_singleton.
Qed.

Lemma StronglySorted_lookup_lt {A} (R : relation A) l i j x y :
  StronglySorted R l → l !! i = Some x → l !! j = Some y → (i < j)%nat → R x y.
Proof.
  intros Hs. revert i j. induction Hs as [|z l _ IH Hz]; intros [|i] [|j] Hi Hj Hlt; cbn in *; try done; try lia.
  - injection Hi as ->. rewrite Forall_forall in Hz. apply Hz. by eapply list_elem_of_lookup_2.
  - apply (IH i j); [done|done|lia].
Qed.

Lemma filter_agree {A} (P Q : A → Prop) `{∀ x, Decision (P x), ∀ x, Decision (Q x)} (l : list A) :
  (∀ x, x ∈ l → P x ↔ Q x) → filter P l = filter Q l.
Proof.
  induction l as [|x l IH]; intros E; [done|]. rewrite !filter_cons, IH by set_solver.
  by rewrite (decide_ext (P x) (Q x)) by (apply E; set_solver).
Qed.

Lemma size_list_to_set_le `{Countable A} (l : list A) :
  (size (list_to_set l : gset A) ≤ length l)%nat.
Proof.
  induction l as [|x l IH]; [done|]. simpl.
  rewrite size_union_alt, size_singleton. simpl. etrans; [|apply le_n_S, IH].
  apply le_n_S, subseteq_size. set_solver.
Qed.

(** ** Sums over finite maps *)

Definition msum `{Countable K} {V} (f : K → V → Z) (m : gmap K V) : Z :=
  map_fold (λ k v acc, f k v + acc) 0 m.

Lemma msum_empty `{Countable K} {V} (f : K → V → Z) : msum f ∅ = 0.
Proof. apply map_fold_empty. Qed.

Lemma msum_insert_new `{Countable K} {V} (f : K → V → Z) m k v :
  m !! k = None → msum f (<[k := v]> m) = f k v + msum f m.
Proof.
  intros Hk. unfold msum. apply (map_fold_insert_L (λ k v acc, f k v + acc)); [|done].
  intros. lia.
Qed.

(** The value a key contributes to a sum. *)
Definition mterm `{Countable K} {V} (f : K → V → Z) (m : gmap K V) (k : K) : Z :=
  match m !! k with Some v => f k v | None => 0 end.

Lemma msum_delete `{Countable K} {V} (f : K → V → Z) m k :
  msum f (delete k m) = msum f m - mterm f m k.
Proof.
  unfold mterm. destruct (m !! k) as [v|] eqn:E; [|rewrite delete_id by done; lia].
  rewrite <- (insert_delete_id m k v) at 2 by done.
  rewrite msum_insert_new by apply lookup_delete_eq. lia.
Qed.

Lemma msum_insert `{Countable K} {V} (f : K → V → Z) m k v :
  msum f (<[k := v]> m) = msum f m - mterm f m k + f k v.
Proof.
  rewrite <- insert_delete_eq, msum_insert_new by apply lookup_delete_eq.
  rewrite msum_delete. lia.
Qed.

Lemma msum_ext `{Countable K} {V} (f g : K → V → Z) m :
  (∀ k v, m !! k = Some v → f k v = g k v) → msum f m = msum g m.
Proof.
  induction m as [|k v m Hk IH] using map_ind; intros Hfg; [done|].
  rewrite !msum_insert_new by done. rewrite IH.
  - rewrite (Hfg k v) by apply lookup_insert_eq. done.
  - intros k' v' Hm. apply Hfg. rewrite lookup_insert_ne; [done|congruence].
Qed.

Lemma msum_nonneg `{Countable K} {V} (f : K → V → Z) m :
  (∀ k v, m !! k = Some v → 0 ≤ f k v) → 0 ≤ msum f m.
Proof.
  induction m as [|k v m Hk IH] using map_ind; intros Hf; [done|].
  rewrite msum_insert_new by done.
  assert (0 ≤ f k v) by (apply Hf, lookup_insert_eq).
  enough (0 ≤ msum f m) by lia. apply IH. intros k' v' Hm. apply Hf.
  rewrite lookup_insert_ne; [done|congruence].
Qed.

Lemma msum_zero `{Countable K} {V} (f : K → V → Z) m :
  (∀ k v, m !! k = Some v → f k v = 0) → msum f m = 0.
Proof.
  intros Hf. rewrite (msum_ext f (λ _ _, 0) m) by done. clear Hf.
  induction m as [|k v m Hk IH] using map_ind; [done|]. rewrite msum_insert_new by done. lia.
Qed.

Lemma msum_list `{Countable K} {V} (f : K → V → Z) m :
  msum f m = sum_Z ((λ kv, f kv.1 kv.2) <$> map_to_list m).
Proof.
  unfold msum. rewrite map_fold_foldr. unfold sum_Z.
  induction (map_to_list m) as [|[k v] l IH]; cbn; [done|]. by rewrite IH.
Qed.

Lemma sum_Z_perm l k : l ≡ₚ k → sum_Z l = sum_Z k.
Proof. unfold sum_Z. induction 1; cbn; lia. Qed.

(** Reachability: the reflexive transitive closure of a step relation, with the
    invariant rule every state machine of the development uses. *)
Lemma rtc_invariant {S} (R : relation S) (I : S → Prop) s s' :
  (∀ x y, I x → R x y → I y) → I s → rtc R s s' → I s'.
Proof. intros Hstep Hs Hr. induction Hr; eauto. Qed.
