(* ===== verification/Text.v ===== *)
(** Rust text as the repository uses it: a [str] is its sequence of Unicode scalar values,
    [len] its UTF-8 length in bytes, and the [core::str] and [core::fmt] operations that the
    components call are definitions on that sequence, with the laws the components share. *)

From S2P Require Import Prelude.
From Stdlib Require Export Ascii.

Open Scope Z_scope.

Notation char := N (only parsing).
Notation str := (list N).

(** A string literal of the source (all of them are ASCII). *)
Fixpoint lit (s : string) : str :=
  match s with
  | EmptyString => []
  | String a s => N_of_ascii a :: lit s
  end.
Arguments lit s%_string.

Definition chr (a : ascii) : char := N_of_ascii a.
Arguments chr a%_char.

(** ** UTF-8 *)

Definition utf8_width (c : char) : Z :=
  if (c <? 128)%N then 1 else if (c <? 2048)%N then 2 else if (c <? 65536)%N then 3 else 4.

(** The encoded bytes of one scalar value. *)
Definition utf8_bytes (c : char) : list N :=
  if (c <? 128)%N then [c]
  else if (c <? 2048)%N then [192 + c / 64; 128 + c mod 64]%N
  else if (c <? 65536)%N then [224 + c / 4096; 128 + c / 64 mod 64; 128 + c mod 64]%N
  else [240 + c / 262144; 128 + c / 4096 mod 64; 128 + c / 64 mod 64; 128 + c mod 64]%N.

(** [str::bytes]. *)
Definition bytes (s : str) : list N := s ≫= utf8_bytes.

(** [str::len], in bytes. *)
Definition len (s : str) : usize := sum_Z (utf8_width <$> s).

Definition is_empty {A} (s : list A) : bool := match s with [] => true | _ => false end.

(** ** Character classes *)

Definition is_ascii_digit (c : N) : bool := ((48 <=? c) && (c <=? 57))%N.
Definition is_ascii_alphanumeric (c : N) : bool :=
  is_ascii_digit c || ((65 <=? c) && (c <=? 90))%N || ((97 <=? c) && (c <=? 122))%N.
Definition is_ascii_hexdigit (c : N) : bool :=
  is_ascii_digit c || ((65 <=? c) && (c <=? 70))%N || ((97 <=? c) && (c <=? 102))%N.

(** [char::is_whitespace]: the Unicode [White_Space] property. *)
Definition is_whitespace (c : char) : bool :=
  ((9 <=? c) && (c <=? 13))%N || (c =? 32)%N || (c =? 133)%N || (c =? 160)%N || (c =? 5760)%N
  || ((8192 <=? c) && (c <=? 8202))%N || (c =? 8232)%N || (c =? 8233)%N || (c =? 8239)%N
  || (c =? 8287)%N || (c =? 12288)%N.

(** ** Searching and splitting *)

Definition contains_char (c : char) (s : str) : bool := existsb (N.eqb c) s.
Definition starts_with_char (c : char) (s : str) : bool :=
  match s with [] => false | x :: _ => (x =? c)%N end.

(** [str::strip_prefix] with a string pattern. *)
Fixpoint strip_prefix (p s : str) : option str :=
  match p, s with
  | [], _ => Some s
  | _, [] => None
  | a :: p, b :: s => if (a =? b)%N then strip_prefix p s else None
  end.

(** [str::contains] with a string pattern. *)
Fixpoint contains_str (p s : str) : bool :=
  is_some (strip_prefix p s) || match s with [] => false | _ :: s => contains_str p s end.

(** [str::split] with a [char] pattern: always at least one part. *)
Fixpoint split (c : char) (s : str) : list str :=
  match s with
  | [] => [[]]
  | x :: s =>
      if (x =? c)%N then [] :: split c s
      else match split c s with
           | part :: parts => (x :: part) :: parts
           | [] => [[x]]
           end
  end.

(** [str::split_once] with a [char] pattern: around the first occurrence. *)
Fixpoint split_once (c : char) (s : str) : option (str * str) :=
  match s with
  | [] => None
  | x :: s =>
      if (x =? c)%N then Some ([], s)
      else match split_once c s with
           | Some (l, r) => Some (x :: l, r)
           | None => None
           end
  end.

Fixpoint drop_while {A} (f : A → bool) (l : list A) : list A :=
  match l with
  | [] => []
  | x :: l' => if f x then drop_while f l' else l
  end.

(** [str::trim]. *)
Definition trim (s : str) : str :=
  rev (drop_while is_whitespace (rev (drop_while is_whitespace s))).

(** [<[S]>::join]. *)
Fixpoint join (sep : str) (parts : list str) : str :=
  match parts with
  | [] => []
  | [p] => p
  | p :: ps => p ++ sep ++ join sep ps
  end.

(** [Ord for str]: UTF-8 preserves the order of scalar values, so byte order is the
    lexicographic order of the sequence. *)
Fixpoint str_leb (s t : str) : bool :=
  match s, t with
  | [], _ => true
  | _ :: _, [] => false
  | a :: s, b :: t => (a <? b)%N || ((a =? b)%N && str_leb s t)
  end.

Definition str_le (s t : str) : Prop := str_leb s t = true.
#[export] Instance str_le_dec : RelDecision str_le.
Proof. intros s t. unfold str_le. apply _. Defined.

(** The iteration order of a [BTreeSet<String>]. *)
Definition btree_iter (s : gset str) : list str :=
  merge_sort str_le (elements s).

(** The decimal [Display] of an integer. *)
Definition show (z : Z) : str := lit (pretty z).

(** [digest.strip_prefix("sha256:").is_some_and(|hex| ...)]: the check that the federation,
    realtime and consensus rules make of a digest. *)
Definition is_sha256_digest (s : str) : bool :=
  is_some_and (λ hex, (len hex =? 64) && forallb is_ascii_hexdigit (bytes hex))
    (strip_prefix (lit "sha256:") s).

(** ** Laws *)

Lemma len_nil : len [] = 0.
Proof. done. Qed.

Lemma len_cons c s : len (c :: s) = utf8_width c + len s.
Proof. done. Qed.

Lemma len_app s t : len (s ++ t) = len s + len t.
Proof. unfold len. by rewrite fmap_app, sum_Z_app. Qed.

Lemma utf8_width_bounds c : 1 ≤ utf8_width c ≤ 4.
Proof. unfold utf8_width. repeat case_match; lia. Qed.

(** [len] is the number of encoded bytes. *)
Lemma len_bytes s : len s = Z.of_nat (length (bytes s)).
Proof.
  induction s as [|c s IH]; [done|].
  rewrite len_cons, IH. unfold bytes. csimpl. rewrite length_app, Nat2Z.inj_add.
  f_equal. unfold utf8_width, utf8_bytes. by repeat case_match.
Qed.

Lemma len_nonneg s : 0 ≤ len s.
Proof. rewrite len_bytes. lia. Qed.

Lemma is_empty_true {A} (s : list A) : is_empty s = true ↔ s = [].
Proof. by destruct s. Qed.

Lemma is_empty_false {A} (s : list A) : is_empty s = false ↔ s ≠ [].
Proof. by destruct s. Qed.

Lemma contains_char_true c s : contains_char c s = true ↔ c ∈ s.
Proof.
  unfold contains_char. rewrite existsb_spec. split.
  - intros (x & Hx & ->%N.eqb_eq). done.
  - intros. exists c. by rewrite N.eqb_refl.
Qed.

Lemma contains_char_false c s : contains_char c s = false ↔ c ∉ s.
Proof. rewrite <-contains_char_true. by destruct (contains_char c s). Qed.

Lemma strip_prefix_Some p s r : strip_prefix p s = Some r ↔ s = p ++ r.
Proof.
  revert s. induction p as [|a p IH]; intros s; simpl; [naive_solver|].
  destruct s as [|b s]; [naive_solver|]. destruct (N.eqb_spec a b); naive_solver.
Qed.

Lemma contains_str_true p s : contains_str p s = true ↔ ∃ l r, s = l ++ p ++ r.
Proof.
  split.
  - induction s as [|x s IH]; simpl; intros [H|H]%orb_true_iff.
    + destruct (strip_prefix p []) as [r|] eqn:E; [|done].
      apply strip_prefix_Some in E. by exists [], r.
    + done.
    + destruct (strip_prefix p (x :: s)) as [r|] eqn:E; [|done].
      apply strip_prefix_Some in E. by exists [], r.
    + destruct (IH H) as (l & r & ->). by exists (x :: l), r.
  - intros (l & r & ->). induction l as [|x l IH]; simpl.
    + assert (strip_prefix p (p ++ r) = Some r) as E by by apply strip_prefix_Some.
      destruct (p ++ r) eqn:Hp; simpl in *; by rewrite E.
    + rewrite IH. apply orb_true_r.
Qed.

Lemma split_ne_nil c s : split c s ≠ [].
Proof. induction s as [|x s IH]; simpl; repeat case_match; done. Qed.

(** No part of a split holds the separator. *)
Lemma split_free c s p : p ∈ split c s → c ∉ p.
Proof.
  revert p. induction s as [|x s IH]; simpl; intros p.
  - intros ->%list_elem_of_singleton. apply not_elem_of_nil.
  - destruct (N.eqb_spec x c) as [->|Hx].
    + intros [->|Hp]%elem_of_cons; [apply not_elem_of_nil|eauto].
    + destruct (split c s) as [|q qs] eqn:E; [by destruct (split_ne_nil c s)|].
      intros [->|Hp]%elem_of_cons; [|apply IH; by right].
      rewrite not_elem_of_cons. split; [done|]. apply IH. by left.
Qed.

Lemma join_cons sep p ps : ps ≠ [] → join sep (p :: ps) = p ++ sep ++ join sep ps.
Proof. by destruct ps. Qed.

(** Splitting and joining on a character are inverse. *)
Lemma join_split c s : join [c] (split c s) = s.
Proof.
  induction s as [|x s IH]; simpl; [done|].
  destruct (N.eqb_spec x c) as [->|Hx].
  - rewrite join_cons by apply split_ne_nil. simpl. by rewrite IH.
  - pose proof (split_ne_nil c s). destruct (split c s) as [|q qs]; [done|].
    destruct qs; simpl in *; by rewrite IH.
Qed.

Lemma split_app_free c p s : c ∉ p → split c (p ++ c :: s) = p :: split c s.
Proof.
  induction p as [|x p IH]; intros Hp; simpl.
  - by rewrite N.eqb_refl.
  - rewrite not_elem_of_cons in Hp. destruct Hp as [Hne Hp].
    destruct (N.eqb_spec x c); [congruence|]. by rewrite IH.
Qed.

Lemma split_no_sep c p : c ∉ p → split c p = [p].
Proof.
  induction p as [|x p IH]; intros Hp; simpl; [done|].
  rewrite not_elem_of_cons in Hp. destruct Hp as [Hne Hp].
  destruct (N.eqb_spec x c); [congruence|]. by rewrite IH.
Qed.

Lemma split_join c ps : ps ≠ [] → (∀ p, p ∈ ps → c ∉ p) → split c (join [c] ps) = ps.
Proof.
  induction ps as [|p ps IH]; intros Hne Hp; [done|].
  destruct ps as [|q qs].
  - apply split_no_sep. apply Hp. by left.
  - rewrite join_cons by done. simpl app. rewrite split_app_free by (apply Hp; by left).
    f_equal. apply IH; [done|]. intros. apply Hp. by right.
Qed.

Lemma split_once_Some c s l r : split_once c s = Some (l, r) ↔ s = l ++ c :: r ∧ c ∉ l.
Proof.
  revert l r. induction s as [|x s IH]; intros l r; simpl.
  - split; [done|]. intros [H _]. by destruct l.
  - destruct (N.eqb_spec x c) as [->|Hx].
    { split; [intros [= <- <-]; split; [done|apply not_elem_of_nil]|].
      intros [H Hl]. destruct l as [|y l]; [naive_solver|].
      rewrite not_elem_of_cons in Hl. naive_solver. }
    split.
    + destruct (split_once c s) as [[l' r']|] eqn:E; [|done]. intros [= <- <-].
      destruct (proj1 (IH l' r') eq_refl) as [-> Hl]. split; [done|].
      by rewrite not_elem_of_cons.
    + intros [H Hl]. destruct l as [|y l]; [naive_solver|].
      rewrite not_elem_of_cons in Hl. injection H as <- H.
      by rewrite (proj2 (IH l r)) by naive_solver.
Qed.

Lemma split_once_app c l r : c ∉ l → split_once c (l ++ c :: r) = Some (l, r).
Proof. intros. by apply split_once_Some. Qed.

(** Two texts [l ++ c :: r] with [c] outside [l] agree only part by part. *)
Lemma sep_inj (c : char) (l r l' r' : str) :
  c ∉ l → c ∉ l' → l ++ c :: r = l' ++ c :: r' → l = l' ∧ r = r'.
Proof.
  intros Hl Hl' H. apply (split_once_app c l r) in Hl. rewrite H, split_once_app in Hl by done.
  naive_solver.
Qed.

Lemma drop_while_none {A} (f : A → bool) l :
  (∀ x, x ∈ l → f x = false) → drop_while f l = l.
Proof. intros H. destruct l as [|x l]; simpl; [done|]. by rewrite H by set_solver. Qed.

Lemma drop_while_head {A} (f : A → bool) l x l' : drop_while f l = x :: l' → f x = false.
Proof. induction l as [|y l IH]; simpl; [done|]. destruct (f y) eqn:E; naive_solver. Qed.

Lemma drop_while_suffix {A} (f : A → bool) l : drop_while f l `suffix_of` l.
Proof.
  induction l as [|y l IH]; simpl; [done|]. case_match; [|done]. by apply suffix_cons_r.
Qed.

(** Trimming text without white space changes nothing. *)
Lemma trim_none s : (∀ c, c ∈ s → is_whitespace c = false) → trim s = s.
Proof.
  intros H. unfold trim. rewrite (drop_while_none _ s) by done.
  rewrite drop_while_none; [apply rev_involutive|].
  intros c Hc. apply H. by rewrite list_elem_of_In, in_rev, <-list_elem_of_In.
Qed.

Lemma elem_of_btree_iter (x : str) (s : gset str) : x ∈ btree_iter s ↔ x ∈ s.
Proof. unfold btree_iter. by rewrite merge_sort_Permutation, elem_of_elements. Qed.

#[export] Instance lit_inj : Inj (=) (=) lit.
Proof.
  intros s. induction s as [|a s IH]; intros [|b t]; simpl; intros H; simplify_eq; [done|].
  f_equal; [|by apply IH]. rewrite <-(ascii_N_embedding a), <-(ascii_N_embedding b). by f_equal.
Qed.

(** ** Decimal text *)

#[export] Instance show_inj : Inj (=) (=) show.
Proof. intros x y H. unfold show in H. by apply (inj lit), (inj pretty) in H. Qed.

Lemma pretty_N_go_digits x s c :
  c ∈ lit (pretty_N_go x s) → is_ascii_digit c = true ∨ c ∈ lit s.
Proof.
  revert s. induction (N.lt_wf_0 x) as [x _ IH]; intros s Hc.
  destruct (decide (x = 0)%N) as [->|Hx]; [by rewrite pretty_N_go_0 in Hc; right|].
  rewrite pretty_N_go_step in Hc by lia.
  apply IH in Hc; [|apply N.div_lt; lia].
  destruct Hc as [Hc|Hc]; [by left|]. simpl in Hc. apply elem_of_cons in Hc as [->|Hc]; [|by right].
  left. unfold pretty_N_char. repeat case_match; done.
Qed.

Lemma show_chars z c : c ∈ show z → is_ascii_digit c = true ∨ c = chr "-".
Proof.
  unfold show, pretty, pretty_Z, pretty, pretty_N. intros H.
  destruct z; simpl in H.
  - apply list_elem_of_singleton in H as ->. by left.
  - apply pretty_N_go_digits in H as [H|H]; [by left|by apply not_elem_of_nil in H].
  - apply elem_of_cons in H as [->|H]; [by right|].
    apply pretty_N_go_digits in H as [H|H]; [by left|by apply not_elem_of_nil in H].
Qed.

(** Decimal text holds no colon, so it is a separable part of a [:]-joined key. *)
Lemma show_no_colon z : chr ":" ∉ show z.
Proof. intros [H|H]%show_chars; done. Qed.
