(* ===== verification/Core.v ===== *)
(** The shared domain values of [crates/aseman-domain/src/lib.rs]: UUID identities,
    workload and operation states, generations, guest database bindings and [Money].

    The [uuid] crate is third-party: its text form is the interface [UuidText], and what the
    repository relies on is [UuidTextLaws].  [HexUuid] is a concrete instance, so every theorem
    that assumes the laws can be evaluated. *)

From S2P Require Import Prelude Text.

Open Scope Z_scope.

(** ** UUIDs *)

Notation Uuid := N (only parsing).

Definition is_uuid (u : Uuid) : Prop := (u < 2 ^ 128)%N.

Class UuidText := {
  (** [Uuid::hyphenated] and [Display]. *)
  uuid_text : Uuid → str;
  (** [Uuid::parse_str]. *)
  uuid_parse_str : str → option Uuid;
}.

Class UuidTextLaws `{UuidText} : Prop := {
  uuid_parse_text u : is_uuid u → uuid_parse_str (uuid_text u) = Some u;
  uuid_text_no_colon u : chr ":" ∉ uuid_text u;
  uuid_text_len u : len (uuid_text u) = 36;
}.

Lemma uuid_text_inj `{UuidTextLaws} u v :
  is_uuid u → is_uuid v → uuid_text u = uuid_text v → u = v.
Proof. intros Hu Hv E. apply uuid_parse_text in Hu, Hv. rewrite E in Hu. congruence. Qed.

(** Rows in key order: a UUID column is kept as the UUID, and the order of the fixed-width text is
    the order of the values. *)
Definition key_le {V} (p q : Uuid * V) : Prop := (p.1 ≤ q.1)%N.
#[export] Instance key_le_dec {V} : RelDecision (@key_le V).
Proof. intros p q. unfold key_le. apply _. Defined.
#[export] Instance key_le_total {V} : Total (@key_le V).
Proof. intros p q. unfold key_le. lia. Qed.
#[export] Instance key_le_trans {V} : Transitive (@key_le V).
Proof. intros p q r. unfold key_le. lia. Qed.

(** The lowercase hyphenated form of a 128-bit value, and the parser of that form. *)
Module HexUuid.
Fixpoint nibbles (k : nat) (u : N) : list N :=
  match k with O => [] | S k => nibbles k (u / 16) ++ [(u mod 16)%N] end.

Definition value (ds : list N) : N := fold_left (λ acc d, acc * 16 + d)%N ds 0%N.

Definition hex (d : N) : N := if (d <? 10)%N then (48 + d)%N else (87 + d)%N.

Definition unhex (c : N) : option N :=
  if is_ascii_digit c then Some (c - 48)%N
  else if ((97 <=? c) && (c <=? 102))%N then Some (c - 87)%N
  else if ((65 <=? c) && (c <=? 70))%N then Some (c - 55)%N
  else None.

Definition hyphenate (h : list N) : str :=
  take 8 h ++ [chr "-"] ++ take 4 (drop 8 h) ++ [chr "-"] ++ take 4 (drop 12 h)
    ++ [chr "-"] ++ take 4 (drop 16 h) ++ [chr "-"] ++ drop 20 h.

Definition unhyphenate (s : str) : list N :=
  take 8 s ++ take 4 (drop 9 s) ++ take 4 (drop 14 s) ++ take 4 (drop 19 s) ++ drop 24 s.

Definition text (u : Uuid) : str := hyphenate (hex <$> nibbles 32 u).

Definition parse (s : str) : option Uuid :=
  let h := unhyphenate s in
  if bool_decide (length h = 32%nat) && bool_decide (hyphenate h = s)
  then value <$> mapM unhex h else None.

#[export] Instance hex_uuid_text : UuidText := {| uuid_text := text; uuid_parse_str := parse |}.

Lemma length_nibbles k u : length (nibbles k u) = k.
Proof. revert u. induction k; intros; simpl; [done|]. rewrite length_app, IHk. simpl. lia. Qed.

Lemma nibbles_lt k u d : d ∈ nibbles k u → (d < 16)%N.
Proof.
  revert u. induction k as [|k IH]; simpl; intros u; [by intros ?%not_elem_of_nil|].
  rewrite elem_of_app, list_elem_of_singleton. intros [H| ->]; [eauto|]. by apply N.mod_lt.
Qed.

Lemma value_snoc ds d : value (ds ++ [d]) = (value ds * 16 + d)%N.
Proof. unfold value. by rewrite fold_left_app. Qed.

Lemma value_nibbles k u : (u < 16 ^ N.of_nat k)%N → value (nibbles k u) = u.
Proof.
  revert u. induction k as [|k IH]; intros u Hu; simpl; [simpl in Hu; unfold value; simpl; lia|].
  rewrite value_snoc, IH.
  - pose proof (N.div_mod' u 16). lia.
  - apply N.Div0.div_lt_upper_bound. rewrite Nat2N.inj_succ, N.pow_succ_r' in Hu. lia.
Qed.

Lemma unhex_hex d : (d < 16)%N → unhex (hex d) = Some d.
Proof.
  intros Hd. destruct d as [|p]; [done|].
  do 4 (destruct p as [p|p|]; try done); lia.
Qed.

Lemma hex_not_colon d : (d < 16)%N → hex d ≠ chr ":".
Proof. intros Hd. unfold hex. change (chr ":") with 58%N. case_match; lia. Qed.

Lemma mapM_unhex ds : (∀ d, d ∈ ds → (d < 16)%N) → mapM unhex (hex <$> ds) = Some ds.
Proof.
  intros H. apply mapM_Some_2. induction ds as [|d ds IH]; csimpl; constructor.
  - apply unhex_hex, H. by left.
  - apply IH. set_solver.
Qed.

Lemma unhyphenate_hyphenate h : length h = 32%nat → unhyphenate (hyphenate h) = h.
Proof. intros H. do 32 (destruct h as [|? h]; [done|]). by destruct h. Qed.

Lemma length_hyphenate h : length h = 32%nat → length (hyphenate h) = 36%nat.
Proof. intros H. do 32 (destruct h as [|? h]; [done|]). by destruct h. Qed.

Lemma elem_of_hyphenate c h : c ∈ hyphenate h → c = chr "-" ∨ c ∈ h.
Proof.
  assert (∀ n, take n h ⊆ h ∧ drop n h ⊆ h) as Hs.
  { intros n. rewrite <-(take_drop n h) at 2 4. set_solver. }
  assert (∀ n m, take n (drop m h) ⊆ h) as Hs'.
  { intros n m. etrans; [|apply (Hs m)]. rewrite <-(take_drop n (drop m h)) at 2. set_solver. }
  unfold hyphenate. rewrite !elem_of_app, !list_elem_of_singleton.
  pose proof (Hs 8%nat). pose proof (Hs 20%nat). set_solver.
Qed.

Lemma text_chars u c : c ∈ text u → c ≠ chr ":" ∧ utf8_width c = 1.
Proof.
  intros [->|Hc]%elem_of_hyphenate; [done|].
  apply list_elem_of_fmap in Hc as (d & -> & Hd%nibbles_lt).
  split; [by apply hex_not_colon|]. unfold utf8_width, hex.
  repeat case_match; unbool; rewrite ?N.ltb_ge, ?N.ltb_lt in *; lia.
Qed.

#[export] Instance hex_uuid_laws : UuidTextLaws.
Proof.
  split.
  - intros u Hu. unfold uuid_parse_str, uuid_text; simpl. unfold parse, text.
    rewrite unhyphenate_hyphenate by by rewrite length_fmap, length_nibbles.
    rewrite length_fmap, length_nibbles, !bool_decide_true by done. cbn [andb].
    rewrite mapM_unhex by apply nibbles_lt. cbn [fmap option_fmap option_map].
    by rewrite value_nibbles.
  - intros u Hc. by apply text_chars in Hc as [].
  - intros u. simpl. assert (∀ s, (∀ c, c ∈ s → utf8_width c = 1) → len s = Z.of_nat (length s)).
    { induction s as [|c s IH]; intros Hs; [done|]. rewrite len_cons, Hs, IH by set_solver. simpl. lia. }
    rewrite H by (intros c Hc; by apply text_chars in Hc as []).
    unfold text. rewrite length_hyphenate; [done|]. by rewrite length_fmap, length_nibbles.
Qed.
End HexUuid.

(** ** Workload and operation states *)

Inductive DesiredWorkloadState := DStopped | DRunning | DPaused | DDeleted.
Inductive ObservedWorkloadState :=
| OUnknown | OPending | ORunning | OPaused | OStopped | OFailed | OLost.
Inductive OperationState := OpPending | OpRunning | OpSucceeded | OpFailed | OpCancelled.

#[export] Instance DesiredWorkloadState_eq_dec : EqDecision DesiredWorkloadState.
Proof. solve_decision. Defined.
#[export] Instance ObservedWorkloadState_eq_dec : EqDecision ObservedWorkloadState.
Proof. solve_decision. Defined.
#[export] Instance OperationState_eq_dec : EqDecision OperationState.
Proof. solve_decision. Defined.

(** ** Errors *)

Inductive DomainError :=
| GenerationOverflow
| InvalidGeneration
| InvalidBindingField (field : str)
| InvalidMoneyScale (scale : u8)
| MoneyScaleMismatch
| MoneyOverflow.

(** ** Generations *)

Record Generation := MkGeneration { Generation_get : u64 }.
#[export] Instance Generation_eq_dec : EqDecision Generation.
Proof. solve_decision. Defined.

Definition Generation_INITIAL : Generation := MkGeneration 1.

Definition Generation_next (self : Generation) : result Generation DomainError :=
  ok_or (MkGeneration <$> checked_add_u64 (Generation_get self) 1) GenerationOverflow.

Definition Generation_from_stored (value : u64) : result Generation DomainError :=
  ok_or (if 1 <=? value then Some (MkGeneration value) else None) InvalidGeneration.

(** [TryFrom<u64>], the deserialization of a generation. *)
Definition Generation_try_from (value : u64) : result Generation DomainError :=
  Generation_from_stored value.

(** [From<Generation> for u64]. *)
Definition Generation_into_u64 (generation : Generation) : u64 := Generation_get generation.

(** A generation the type lets exist: at least 1, and a [u64]. *)
Definition valid_generation (g : Generation) : Prop := 1 ≤ Generation_get g ≤ u64_max.

Record DesiredWorkload := {
  dw_id : Uuid;
  dw_creature_id : Uuid;
  dw_program_id : Uuid;
  dw_name : str;
  dw_runtime : str;
  dw_generation : Generation;
  dw_state : DesiredWorkloadState;
}.

(** ** Guest database bindings *)

Inductive BindingStatus := BindingDisabled | BindingActive.

Record CreatureDatabaseBinding := {
  binding_creature_id : Uuid;
  binding_provider_id : str;
  binding_database : str;
  binding_role : str;
  binding_generation : Generation;
  binding_status : BindingStatus;
}.

(** One iteration of the field loop of [CreatureDatabaseBinding::new]: whether it returns. *)
Definition binding_field_invalid (value : str) : bool :=
  is_empty value || (128 <? len value)
  || negb (forallb (λ b, is_ascii_alphanumeric b || (b =? chr "_")%N || (b =? chr "-")%N)
             (bytes value)).

Fixpoint binding_fields_check (fields : list (str * str)) : result unit DomainError :=
  match fields with
  | [] => Ok tt
  | (field, value) :: fields =>
      if binding_field_invalid value then Err (InvalidBindingField field)
      else binding_fields_check fields
  end.

Definition CreatureDatabaseBinding_new (creature_id : Uuid) (provider_id database role : str)
    : result CreatureDatabaseBinding DomainError :=
  let? _ := binding_fields_check
    [(lit "provider_id", provider_id); (lit "database", database); (lit "role", role)] in
  Ok {| binding_creature_id := creature_id;
        binding_provider_id := provider_id;
        binding_database := database;
        binding_role := role;
        binding_generation := Generation_INITIAL;
        binding_status := BindingDisabled |}.

(** ** Money *)

Record Money := MkMoney { money_minor_units : i128; money_scale : u8 }.

Definition Money_new (minor_units : i128) (scale : u8) : result Money DomainError :=
  if 18 <? scale then Err (InvalidMoneyScale scale) else Ok (MkMoney minor_units scale).

Definition Money_checked_add (self other : Money) : result Money DomainError :=
  if negb (money_scale self =? money_scale other) then Err MoneyScaleMismatch
  else
    let? minor_units :=
      ok_or (checked_add_i128 (money_minor_units self) (money_minor_units other)) MoneyOverflow in
    Ok (MkMoney minor_units (money_scale self)).

(** ** Properties *)

Lemma Generation_next_Ok g g' :
  Generation_next g = Ok g' ↔
  Generation_get g' = Generation_get g + 1 ∧ 0 ≤ Generation_get g + 1 ≤ u64_max.
Proof.
  unfold Generation_next, checked_add_u64. destruct g as [g], g' as [g']; simpl.
  destruct (checked _ _ _) as [z|] eqn:E; simpl.
  - apply checked_Some in E. naive_solver.
  - apply checked_None in E. split; [done|]. lia.
Qed.

Lemma Generation_next_valid g g' :
  valid_generation g → Generation_next g = Ok g' → valid_generation g'.
Proof. unfold valid_generation. rewrite Generation_next_Ok. lia. Qed.

(** What the binding constructor accepts as a name: a non-empty token of at most 128 bytes in
    [A-Za-z0-9_-], which no provider syntax can interpret as more than one name. *)
Definition plain_name (s : str) : Prop :=
  s ≠ [] ∧ len s ≤ 128 ∧
  ∀ c, c ∈ s → is_ascii_alphanumeric c = true ∨ c = chr "_" ∨ c = chr "-".

Definition plain_byte (b : N) : bool :=
  is_ascii_alphanumeric b || (b =? chr "_")%N || (b =? chr "-")%N.

Lemma plain_byte_ascii b : plain_byte b = true → (b < 128)%N.
Proof.
  unfold plain_byte, is_ascii_alphanumeric, is_ascii_digit.
  change (chr "_") with 95%N. change (chr "-") with 45%N. lia.
Qed.

Lemma plain_byte_spec b :
  plain_byte b = true ↔ is_ascii_alphanumeric b = true ∨ b = chr "_" ∨ b = chr "-".
Proof. unfold plain_byte. rewrite !orb_true_iff, !N.eqb_eq. naive_solver. Qed.

(** A multi-byte scalar value has a byte outside ASCII. *)
Lemma utf8_bytes_ascii c :
  (∀ b, b ∈ utf8_bytes c → (b < 128)%N) → utf8_bytes c = [c].
Proof.
  unfold utf8_bytes. intros H. repeat case_match; [done|exfalso..].
  all: match type of H with ∀ b, b ∈ ?x :: _ → _ => specialize (H x (list_elem_of_here _ _)) end.
  all: lia.
Qed.

Lemma plain_bytes_chars s :
  forallb plain_byte (bytes s) = true ↔ ∀ c, c ∈ s → plain_byte c = true.
Proof.
  rewrite forallb_spec. unfold bytes. setoid_rewrite list_elem_of_bind. split.
  - intros H c Hc. assert (utf8_bytes c = [c]) as E.
    { apply utf8_bytes_ascii. intros b Hb. apply plain_byte_ascii. eauto. }
    apply H. exists c. split; [rewrite E; by left|done].
  - intros H b (c & Hb & Hc). assert (utf8_bytes c = [c]) as E.
    { unfold utf8_bytes. pose proof (plain_byte_ascii c (H c Hc)). by case_match; [|lia]. }
    rewrite E in Hb. apply list_elem_of_singleton in Hb as ->. eauto.
Qed.

Lemma binding_field_valid s : binding_field_invalid s = false ↔ plain_name s.
Proof.
  unfold binding_field_invalid, plain_name. rewrite !orb_false_iff, negb_false_iff.
  rewrite is_empty_false, Z.ltb_ge. fold plain_byte.
  rewrite plain_bytes_chars. setoid_rewrite plain_byte_spec. tauto.
Qed.
