(* ===== verification/Finance.v ===== *)
(** Metering, pricing and the ledger rules: [crates/aseman-domain/src/finance.rs].

    A [BTreeMap<Dimension, _>] is a [gmap] iterated in the declared order of the dimensions
    ([entries]).  The theorems: a settlement key identifies its triple, a charge is the sum of
    its lines and never undercharges, every record the module builds balances, refunds cancel
    what they refund, and enforcement only escalates. *)

From S2P Require Import Prelude Text Core.

Open Scope Z_scope.

(** ** Errors and amounts *)

Inductive Dimension :=
| CpuMillis | MemoryMibSeconds | StorageMibSeconds | DiskReadBytes | DiskWriteBytes
| NetworkIngressBytes | NetworkEgressBytes | AcceleratorMillis.

Inductive FinanceError :=
| Overflow
| DifferentWorkloads
| FinanceOutOfOrder
| UnpricedDimension (d : Dimension)
| Unbalanced
| ZeroRate (d : Dimension)
| UnbillableDimension (d : Dimension)
| HoldClosed
| CaptureExceedsHold.

#[export] Instance Dimension_eq_dec : EqDecision Dimension.
Proof. solve_decision. Defined.
#[export] Instance FinanceError_eq_dec : EqDecision FinanceError.
Proof. solve_decision. Defined.

(** The derived [Ord]: declaration order. *)
Definition Dimension_order : list Dimension :=
  [CpuMillis; MemoryMibSeconds; StorageMibSeconds; DiskReadBytes; DiskWriteBytes;
   NetworkIngressBytes; NetworkEgressBytes; AcceleratorMillis].

Definition Dimension_rank (d : Dimension) : nat :=
  match d with
  | CpuMillis => 0 | MemoryMibSeconds => 1 | StorageMibSeconds => 2 | DiskReadBytes => 3
  | DiskWriteBytes => 4 | NetworkIngressBytes => 5 | NetworkEgressBytes => 6
  | AcceleratorMillis => 7
  end.

#[export] Program Instance Dimension_countable : Countable Dimension :=
  inj_countable Dimension_rank (λ n, Dimension_order !! n) _.
Next Obligation. by intros []. Qed.

(** Iterating a [BTreeMap<Dimension, V>]. *)
Definition entries {V} (m : gmap Dimension V) : list (Dimension * V) :=
  omap (λ d, (d,.) <$> m !! d) Dimension_order.

Record Minor := MkMinor { minor : i64 }.
#[export] Instance Minor_eq_dec : EqDecision Minor.
Proof. solve_decision. Defined.

Definition Minor_checked_add (self other : Minor) : result Minor FinanceError :=
  ok_or (MkMinor <$> checked_add_i64 (minor self) (minor other)) Overflow.

Definition Minor_checked_sub (self other : Minor) : result Minor FinanceError :=
  ok_or (MkMinor <$> checked_sub_i64 (minor self) (minor other)) Overflow.

Definition billable (self : Dimension) : bool :=
  match self with NetworkIngressBytes => false | _ => true end.

(** ** Usage *)

Record UsageSample := {
  us_workload_id : Uuid;
  us_provider_sample_id : str;
  us_provider : str;
  us_collected_at_millis : i64;
  us_cumulative : gmap Dimension u64;
}.

Record UsageInterval := {
  ui_workload_id : Uuid;
  ui_interval_start_millis : i64;
  ui_interval_end_millis : i64;
  ui_provider_sample_id : str;
  ui_deltas : gmap Dimension u64;
}.

Definition settlement_key `{UuidText} (self : UsageInterval) : str :=
  uuid_text (ui_workload_id self) ++ chr ":" :: show (ui_interval_start_millis self)
    ++ chr ":" :: ui_provider_sample_id self.

(** The delta of one counter: [now.checked_sub(before)], or [now] itself after a reset. *)
Definition counter_delta (before now : u64) : u64 :=
  default now (checked_sub_u64 now before).

Definition interval_between (previous current : UsageSample)
    : result UsageInterval FinanceError :=
  if negb (bool_decide (us_workload_id previous = us_workload_id current))
  then Err DifferentWorkloads
  else if us_collected_at_millis current <=? us_collected_at_millis previous
  then Err FinanceOutOfOrder
  else Ok {|
    ui_workload_id := us_workload_id current;
    ui_interval_start_millis := us_collected_at_millis previous;
    ui_interval_end_millis := us_collected_at_millis current;
    ui_provider_sample_id := us_provider_sample_id current;
    ui_deltas := foldl (λ deltas '(dimension, now),
        let before := default 0 (us_cumulative previous !! dimension) in
        <[dimension := counter_delta before now]> deltas)
      ∅ (entries (us_cumulative current)) |}.

(** ** Pricing *)

Definition PRICE_SCALE : u64 := 1000000000.

Record PriceList := {
  pl_version : str;
  pl_effective_from_millis : i64;
  pl_rates : gmap Dimension u64;
}.

Definition PriceList_validate (self : PriceList) : result unit FinanceError :=
  foldl (λ acc '(dimension, rate),
      let? _ := acc in
      if rate =? 0 then Err (ZeroRate dimension)
      else if negb (billable dimension) then Err (UnbillableDimension dimension)
      else Ok tt)
    (Ok tt) (entries (pl_rates self)).

Record Charge := {
  ch_settlement_key : str;
  ch_workload_id : Uuid;
  ch_amount : Minor;
  ch_price_version : str;
  ch_lines : gmap Dimension Minor;
}.

(** The body of [price]'s loop for one dimension: [None] is a [continue], or a cost of zero,
    which adds no line. *)
Definition price_line (prices : PriceList) (dimension : Dimension) (amount : u64)
    : result (option Minor) FinanceError :=
  if negb (billable dimension) then Ok None
  else if amount =? 0 then Ok None
  else
    let? rate := ok_or (pl_rates prices !! dimension) (UnpricedDimension dimension) in
    let? cost := ok_or ((λ product, div_ceil product PRICE_SCALE) <$> checked_mul_u64 amount rate)
                   Overflow in
    let? cost := ok_or (MkMinor <$> i64_try_from cost) Overflow in
    Ok (if 0 <? minor cost then Some cost else None).

Fixpoint price_loop (prices : PriceList) (deltas : list (Dimension * u64))
    (lines : gmap Dimension Minor) (total : Minor)
    : result (gmap Dimension Minor * Minor) FinanceError :=
  match deltas with
  | [] => Ok (lines, total)
  | (dimension, amount) :: deltas =>
      let? line := price_line prices dimension amount in
      match line with
      | None => price_loop prices deltas lines total
      | Some cost =>
          let? total := Minor_checked_add total cost in
          price_loop prices deltas (<[dimension := cost]> lines) total
      end
  end.

Definition price `{UuidText} (interval : UsageInterval) (prices : PriceList)
    : result Charge FinanceError :=
  let? r := price_loop prices (entries (ui_deltas interval)) ∅ (MkMinor 0) in
  Ok {| ch_settlement_key := settlement_key interval;
        ch_workload_id := ui_workload_id interval;
        ch_amount := r.2;
        ch_price_version := pl_version prices;
        ch_lines := r.1 |}.

(** [Iterator::max_by_key]: the last of the maximal elements. *)
Definition max_by_key {A} (key : A → Z) (l : list A) : option A :=
  foldl (λ best x, match best with
                   | None => Some x
                   | Some b => if key b <=? key x then Some x else Some b
                   end) None l.

Definition price_list_at (lists : list PriceList) (at_millis : i64) : option PriceList :=
  max_by_key pl_effective_from_millis
    (filter (λ list, pl_effective_from_millis list <= at_millis) lists).

(** ** The journal *)

Record Entry := { e_account : str; e_amount : Minor }.

Record JournalRecord := {
  jr_idempotency_key : str;
  jr_at_millis : i64;
  jr_entries : list Entry;
  jr_price_version : option str;
}.

(** [try_fold] with [checked_add]. *)
Fixpoint sum_checked (total : i64) (entries : list Entry) : option i64 :=
  match entries with
  | [] => Some total
  | entry :: entries =>
      match checked_add_i64 total (minor (e_amount entry)) with
      | Some total => sum_checked total entries
      | None => None
      end
  end.

Definition balances (self : JournalRecord) : bool :=
  bool_decide (sum_checked 0 (jr_entries self) = Some 0).

(** The last step of every constructor: refuse a record that does not balance. *)
Definition balanced_or (record : JournalRecord) : result JournalRecord FinanceError :=
  if negb (balances record) then Err Unbalanced else Ok record.

Definition settle (charge : Charge) (wallet revenue : str) (at_millis : i64)
    : result JournalRecord FinanceError :=
  let? negated := ok_or (checked_neg_i64 (minor (ch_amount charge))) Overflow in
  balanced_or {|
    jr_idempotency_key := ch_settlement_key charge;
    jr_at_millis := at_millis;
    jr_entries := [ {| e_account := wallet; e_amount := MkMinor negated |};
                    {| e_account := revenue; e_amount := ch_amount charge |} ];
    jr_price_version := Some (ch_price_version charge) |}.

Inductive HoldState := Held | Captured | Released.
#[export] Instance HoldState_eq_dec : EqDecision HoldState.
Proof. solve_decision. Defined.

Record Hold := {
  hold_idempotency_key : str;
  hold_account : str;
  hold_amount : Minor;
  hold_state : HoldState;
}.

Definition open (self : Hold) : bool :=
  match hold_state self with Held => true | _ => false end.

Definition capture (hold : Hold) (amount : Minor) (revenue : str) (at_millis : i64)
    : result JournalRecord FinanceError :=
  if negb (open hold) then Err HoldClosed
  else if (minor amount <? 0) || (minor (hold_amount hold) <? minor amount)
  then Err CaptureExceedsHold
  else
    let? negated := ok_or (checked_neg_i64 (minor amount)) Overflow in
    balanced_or {|
      jr_idempotency_key := lit "capture:" ++ hold_idempotency_key hold;
      jr_at_millis := at_millis;
      jr_entries := [ {| e_account := hold_account hold; e_amount := MkMinor negated |};
                      {| e_account := revenue; e_amount := amount |} ];
      jr_price_version := None |}.

Fixpoint negate_entries (es : list Entry) : result (list Entry) FinanceError :=
  match es with
  | [] => Ok []
  | entry :: es =>
      let? negated := ok_or (checked_neg_i64 (minor (e_amount entry))) Overflow in
      let? rest := negate_entries es in
      Ok ({| e_account := e_account entry; e_amount := MkMinor negated |} :: rest)
  end.

Definition refund (settled : JournalRecord) (reason : str) (at_millis : i64)
    : result JournalRecord FinanceError :=
  let? entries := negate_entries (jr_entries settled) in
  balanced_or {|
    jr_idempotency_key :=
      lit "refund:" ++ jr_idempotency_key settled ++ chr ":" :: reason;
    jr_at_millis := at_millis;
    jr_entries := entries;
    jr_price_version := jr_price_version settled |}.

(** ** Enforcement *)

Inductive Enforcement := NoEnforcement | Notify | Pause | Stop.

Record EnforcementPolicy := { grace_millis : i64; pause_millis : i64 }.

Definition enforcement (balance : Minor) (negative_for_millis : i64) (policy : EnforcementPolicy)
    : Enforcement :=
  if 0 <=? minor balance then NoEnforcement
  else if negative_for_millis <? grace_millis policy then Notify
  else if negative_for_millis <? saturating_add_i64 (grace_millis policy) (pause_millis policy)
  then Pause
  else Stop.

(** ** Reconciliation *)

Inductive Discrepancy :=
| Unsettled (key : str)
| Unexplained (key : str)
| UnknownPrice (key version : str)
| Mispriced (key : str) (settled recomputed : Minor).

Definition corrective_entry (discrepancy : Discrepancy) (wallet revenue : str) (at_millis : i64)
    : result (option JournalRecord) FinanceError :=
  match discrepancy with
  | Unsettled _ => Ok None
  | Unexplained _ => Ok None
  | UnknownPrice _ _ => Ok None
  | Mispriced key settled recomputed =>
      let? difference := Minor_checked_sub recomputed settled in
      if minor difference =? 0 then Ok None
      else
        let? negated := ok_or (checked_neg_i64 (minor difference)) Overflow in
        let? record := balanced_or {|
          jr_idempotency_key := lit "correction:" ++ key;
          jr_at_millis := at_millis;
          jr_entries := [ {| e_account := wallet; e_amount := MkMinor negated |};
                          {| e_account := revenue; e_amount := difference |} ];
          jr_price_version := None |} in
        Ok (Some record)
  end.

(** ** Lemmas: dimension maps *)

Lemma elem_of_Dimension_order d : d ∈ Dimension_order.
Proof. unfold Dimension_order. destruct d; set_solver. Qed.

Lemma elem_of_entries {V} (m : gmap Dimension V) d v : (d, v) ∈ entries m ↔ m !! d = Some v.
Proof.
  unfold entries. rewrite list_elem_of_omap. split.
  - intros (d' & _ & H). destruct (m !! d') eqn:E; simplify_eq/=. done.
  - intros H. exists d. rewrite H. split; [apply elem_of_Dimension_order|done].
Qed.

Lemma entries_keys {V} (m : gmap Dimension V) :
  (entries m).*1 = filter (λ d, is_Some (m !! d)) Dimension_order.
Proof.
  unfold entries. generalize Dimension_order. intros l. induction l as [|d l IH]; [done|].
  csimpl. destruct (m !! d) as [v|] eqn:E; simpl.
  - rewrite filter_cons_True by done. f_equal. apply IH.
  - rewrite filter_cons_False by (rewrite E; by intros []). apply IH.
Qed.

Lemma NoDup_entries {V} (m : gmap Dimension V) : NoDup (entries m).*1.
Proof. rewrite entries_keys. apply NoDup_filter, (bool_decide_unpack _). vm_compute. done. Qed.

Lemma length_entries {V} (m : gmap Dimension V) : (length (entries m) ≤ 8)%nat.
Proof.
  rewrite <-(length_fmap fst), entries_keys.
  etrans; [apply length_filter|]. done.
Qed.

(** ** Lemmas: the interval *)

Lemma insert_all_lookup {V W} (f : Dimension → V → W) (l : list (Dimension * V)) (m : gmap Dimension W) d :
  NoDup l.*1 →
  foldl (λ acc '(k, v), <[k := f k v]> acc) m l !! d =
    match (list_to_map l : gmap Dimension V) !! d with
    | Some v => Some (f d v)
    | None => m !! d
    end.
Proof.
  revert m. induction l as [|[k v] l IH]; intros m Hnd; simpl; [by rewrite lookup_empty|].
  csimpl in *. apply NoDup_cons in Hnd as [Hk Hnd]. rewrite IH by done.
  destruct (decide (k = d)) as [->|Hne].
  - rewrite (not_elem_of_list_to_map_1 l) by done. by rewrite !lookup_insert_eq.
  - by rewrite !lookup_insert_ne by done.
Qed.

Lemma list_to_map_entries {V} (m : gmap Dimension V) : list_to_map (entries m) = m.
Proof.
  apply map_eq. intros d. apply option_eq. intros v.
  rewrite <-elem_of_list_to_map by apply NoDup_entries. apply elem_of_entries.
Qed.

Lemma interval_between_deltas previous current interval d :
  interval_between previous current = Ok interval →
  ui_deltas interval !! d =
    counter_delta (default 0 (us_cumulative previous !! d)) <$> us_cumulative current !! d.
Proof.
  unfold interval_between. intros H. guards.
  rewrite (insert_all_lookup (λ k v, counter_delta (default 0 (us_cumulative previous !! k)) v))
    by apply NoDup_entries.
  rewrite list_to_map_entries. by destruct (us_cumulative current !! d).
Qed.

(** ** Lemmas: pricing *)

(** What one dimension of an interval owes, as the contract states it: the exact cost
    [amount * rate / PRICE_SCALE] rounded up; nothing for an unbillable or unused one. *)
Definition line_cost (prices : PriceList) (d : Dimension) (amount : u64) : Z :=
  if billable d && negb (amount =? 0)
  then div_ceil (amount * default 0 (pl_rates prices !! d)) PRICE_SCALE else 0.

Definition interval_cost (prices : PriceList) (l : list (Dimension * u64)) : Z :=
  sum_Z ((λ '(d, a), line_cost prices d a) <$> l).

(** The dimension can be priced: it is not billed, or its rate is published and the product
    fits 64 bits. *)
Definition priceable (prices : PriceList) (d : Dimension) (amount : u64) : Prop :=
  billable d = true → amount ≠ 0 →
  ∃ rate, pl_rates prices !! d = Some rate ∧ amount * rate ≤ u64_max.

#[export] Instance priceable_dec prices d amount : Decision (priceable prices d amount).
Proof.
  destruct (billable d) eqn:Hb; [|left; unfold priceable; congruence].
  destruct (decide (amount = 0)); [left; by intros ??|].
  destruct (pl_rates prices !! d) as [r|] eqn:Er.
  - destruct (decide (amount * r ≤ u64_max)); [left; intros _ _; eauto|].
    right. intros Hp. destruct (Hp Hb) as (r' & Hr' & ?); [done|]. by simplify_eq.
  - right. intros Hp. destruct (Hp Hb) as (r' & Hr' & ?); [done|]. congruence.
Defined.

Definition wf_counts (m : gmap Dimension u64) : Prop := ∀ d v, m !! d = Some v → in_u64 v.

(** The most one line can cost: the ceiling of [u64::MAX / PRICE_SCALE]. *)
Definition max_line : Z := 18446744074.

Lemma line_cost_bounds prices d a :
  wf_counts (pl_rates prices) → in_u64 a → priceable prices d a →
  0 ≤ line_cost prices d a ≤ max_line.
Proof.
  intros Hr Ha Hp. unfold line_cost, max_line. destruct (billable d) eqn:Hb; simpl; [|lia].
  destruct (Z.eqb_spec a 0); simpl; [lia|].
  destruct (Hp Hb) as (r & Hrate & Hle); [done|]. rewrite Hrate. simpl.
  pose proof (Hr d r Hrate). pose proof (div_ceil_spec (a * r) PRICE_SCALE ltac:(done)).
  unfold PRICE_SCALE in *. assert (0 ≤ a * r) by (apply Z.mul_nonneg_nonneg; ilia). ilia.
Qed.

Lemma price_line_ok prices d a :
  wf_counts (pl_rates prices) → in_u64 a → priceable prices d a →
  price_line prices d a =
    Ok (if 0 <? line_cost prices d a then Some (MkMinor (line_cost prices d a)) else None).
Proof.
  intros Hr Ha Hp. pose proof (line_cost_bounds prices d a Hr Ha Hp) as Hc.
  unfold price_line. unfold line_cost in *. destruct (billable d) eqn:Hb; simpl in *; [|done].
  destruct (Z.eqb_spec a 0) as [->|Hne]; simpl in *; [done|].
  destruct (Hp Hb Hne) as (r & Hrate & Hle). rewrite Hrate in *. simpl in *.
  unfold checked_mul_u64. rewrite checked_in; simpl.
  2: { pose proof (Hr d r Hrate). split; [apply Z.mul_nonneg_nonneg; ilia|done]. }
  unfold i64_try_from. rewrite checked_in; [done|]. unfold max_line in Hc. ilia.
Qed.

Lemma price_line_err prices d a :
  in_u64 a → ¬ priceable prices d a → ∃ e, price_line prices d a = Err e.
Proof.
  intros Ha Hp. unfold price_line, priceable in *.
  destruct (billable d) eqn:Hb; simpl; [|naive_solver].
  destruct (Z.eqb_spec a 0) as [->|Hne]; simpl; [naive_solver|].
  destruct (pl_rates prices !! d) as [r|] eqn:Hrate; simpl; [|eauto].
  unfold checked_mul_u64. destruct (checked _ _ _) eqn:E; simpl; [|eauto].
  apply checked_Some in E as [_ [_ ?]]. destruct Hp. eauto.
Qed.

(** The loop adds up the line costs and records exactly the positive ones. *)
Lemma price_loop_ok prices l lines total :
  wf_counts (pl_rates prices) → NoDup l.*1 →
  (∀ d a, (d, a) ∈ l → in_u64 a ∧ priceable prices d a) →
  0 ≤ minor total → minor total + Z.of_nat (length l) * max_line ≤ i64_max →
  ∃ lines', price_loop prices l lines total =
              Ok (lines', MkMinor (minor total + interval_cost prices l)) ∧
    ∀ d, lines' !! d = match (list_to_map l : gmap Dimension Z) !! d with
                       | Some a => if 0 <? line_cost prices d a
                                   then Some (MkMinor (line_cost prices d a)) else lines !! d
                       | None => lines !! d
                       end.
Proof.
  intros Hr. revert lines total. induction l as [|[d a] l IH]; intros lines total Hnd Hl H0 Hmax.
  { exists lines. unfold interval_cost. simpl. destruct total; simpl.
    split; [do 3 f_equal; lia|]. intros. by rewrite lookup_empty. }
  csimpl in *. apply NoDup_cons in Hnd as [Hd Hnd].
  destruct (Hl d a ltac:(by left)) as [Ha Hp].
  pose proof (line_cost_bounds prices d a Hr Ha Hp) as Hc.
  rewrite price_line_ok by done. set (c := line_cost prices d a) in *.
  assert (∀ d' a', (d', a') ∈ l → in_u64 a' ∧ priceable prices d' a') as Hl'
    by (intros; apply Hl; by right).
  assert (0 ≤ max_line) by done.
  destruct (Z.ltb_spec 0 c) as [Hpos|Hzero].
  - unfold Minor_checked_add, checked_add_i64. simpl. rewrite checked_in by ilia. simpl.
    destruct (IH (<[d:=MkMinor c]> lines) (MkMinor (minor total + c)) Hnd Hl')
      as (lines' & E & Hlines); [simpl; lia..|].
    exists lines'. rewrite E. unfold interval_cost. csimpl. fold c. fold (interval_cost prices l).
    split; [do 3 f_equal; lia|]. intros d'. rewrite Hlines.
    destruct (decide (d = d')) as [<-|Hne].
    + rewrite not_elem_of_list_to_map_1 by done. rewrite !lookup_insert_eq.
      fold c. by destruct (Z.ltb_spec 0 c); [|lia].
    + by rewrite !lookup_insert_ne by done.
  - destruct (IH lines total Hnd Hl') as (lines' & E & Hlines); [lia..|].
    exists lines'. rewrite E. unfold interval_cost. csimpl. fold c. fold (interval_cost prices l).
    split; [do 3 f_equal; lia|]. intros d'. rewrite Hlines.
    destruct (decide (d = d')) as [<-|Hne].
    + rewrite not_elem_of_list_to_map_1 by done. rewrite lookup_insert_eq. fold c.
      by destruct (Z.ltb_spec 0 c); [lia|].
    + by rewrite lookup_insert_ne by done.
Qed.

Lemma price_loop_err prices l lines total d a :
  (d, a) ∈ l → in_u64 a → ¬ priceable prices d a → ∃ e, price_loop prices l lines total = Err e.
Proof.
  intros Hin Ha Hp. revert lines total.
  induction l as [|[d' a'] l IH]; intros lines total; [by apply not_elem_of_nil in Hin|].
  simpl. apply elem_of_cons in Hin as [[= <- <-]|Hin].
  - destruct (price_line_err prices d a Ha Hp) as [e ->]. eauto.
  - destruct (price_line prices d' a') as [[c|]|e]; [|by apply IH|eauto].
    destruct (Minor_checked_add total c); [by apply IH|eauto].
Qed.

(** ** Lemmas: the journal *)

Definition amounts (es : list Entry) : list Z := (λ e, minor (e_amount e)) <$> es.

(** What a record does to one account. *)
Definition effect (account : str) (es : list Entry) : Z :=
  sum_Z (amounts (filter (λ e, e_account e = account) es)).

Lemma sum_checked_sound total es r : sum_checked total es = Some r → r = total + sum_Z (amounts es).
Proof.
  revert total. induction es as [|e es IH]; intros total; csimpl; [intros; simplify_eq; lia|].
  destruct (checked_add_i64 _ _) as [t|] eqn:E; [|done].
  apply checked_Some in E as [-> _]. intros ->%IH. lia.
Qed.

Lemma balances_sum record : balances record = true → sum_Z (amounts (jr_entries record)) = 0.
Proof. unfold balances. intros H%bool_decide_eq_true%sum_checked_sound. lia. Qed.

Lemma balanced_or_Ok record r : balanced_or record = Ok r → r = record ∧ balances record = true.
Proof. unfold balanced_or. destruct (balances record); naive_solver. Qed.

(** The two-sided records every constructor builds. *)
Lemma two_sided_balances key t from to amount v :
  in_i64 amount → in_i64 (- amount) →
  balances {| jr_idempotency_key := key; jr_at_millis := t;
              jr_entries := [ {| e_account := from; e_amount := MkMinor (- amount) |};
                              {| e_account := to; e_amount := MkMinor amount |} ];
              jr_price_version := v |} = true.
Proof.
  intros H1 H2. unfold balances. apply bool_decide_eq_true. simpl.
  unfold checked_add_i64. rewrite checked_in by ilia. rewrite checked_in by ilia.
  f_equal. lia.
Qed.

Lemma checked_neg_Some a : in_i64 a → a ≠ i64_min → checked_neg_i64 a = Some (- a).
Proof. intros. unfold checked_neg_i64. apply checked_in. ilia. Qed.

Lemma settle_spec charge wallet revenue t :
  in_i64 (minor (ch_amount charge)) →
  settle charge wallet revenue t =
    if bool_decide (minor (ch_amount charge) = i64_min) then Err Overflow
    else Ok {| jr_idempotency_key := ch_settlement_key charge; jr_at_millis := t;
               jr_entries := [ {| e_account := wallet;
                                  e_amount := MkMinor (- minor (ch_amount charge)) |};
                               {| e_account := revenue; e_amount := ch_amount charge |} ];
               jr_price_version := Some (ch_price_version charge) |}.
Proof.
  intros Ha. unfold settle. destruct (ch_amount charge) as [a]; simpl in *. case_bool_decide.
  - subst. done.
  - rewrite checked_neg_Some by done. simpl. unfold balanced_or.
    rewrite two_sided_balances; [done|done|]. ilia.
Qed.

Lemma negate_entries_Ok es es' :
  negate_entries es = Ok es' →
  e_account <$> es' = e_account <$> es ∧ amounts es' = Z.opp <$> amounts es.
Proof.
  revert es'. induction es as [|e es IH]; intros es'; simpl; [by intros [= <-]|].
  unfold checked_neg_i64. destruct (checked _ _ _) as [n|] eqn:E; simpl; [|done].
  apply checked_Some in E as [-> _].
  destruct (negate_entries es) as [r|]; [|done]. intros [= <-].
  destruct (IH r eq_refl) as [H1 H2]. unfold amounts in *. csimpl. by rewrite H1, H2.
Qed.

Lemma negate_entries_involutive es es' :
  Forall in_i64 (amounts es) → negate_entries es = Ok es' → negate_entries es' = Ok es.
Proof.
  revert es'. induction es as [|[a [m]] es IH]; intros es' Hm; simpl; [by intros [= <-]|].
  apply Forall_cons in Hm as [Hm Hms]. simpl in Hm.
  unfold checked_neg_i64. destruct (checked _ _ (- m)) as [n|] eqn:E; simpl; [|done].
  destruct (negate_entries es) as [r|]; [|done]. intros [= <-]. simpl.
  apply checked_Some in E as [-> E]. unfold checked_neg_i64.
  rewrite checked_in by ilia. simpl. rewrite (IH r Hms eq_refl). by rewrite Z.opp_involutive.
Qed.

Lemma effect_opp account es es' :
  e_account <$> es' = e_account <$> es → amounts es' = Z.opp <$> amounts es →
  effect account es' = - effect account es.
Proof.
  revert es'. induction es as [|e es IH]; intros [|e' es']; csimpl; try done.
  intros [= Ha Has] [= Hm Hms]. specialize (IH es' Has Hms). unfold effect in *.
  rewrite !filter_cons. rewrite Ha. case_decide; csimpl; unfold amounts in *; csimpl; lia.
Qed.

(** ** Properties *)

(** The settlement identity is the triple (workload, interval start, provider sample): two
    intervals have the same settlement key only when all three agree, so collecting a sample
    twice cannot produce a second key and two different intervals never share one. *)
Theorem settlement_key_identity `{UuidTextLaws} (a b : UsageInterval) :
  is_uuid (ui_workload_id a) → is_uuid (ui_workload_id b) →
  settlement_key a = settlement_key b ↔
  ui_workload_id a = ui_workload_id b ∧
  ui_interval_start_millis a = ui_interval_start_millis b ∧
  ui_provider_sample_id a = ui_provider_sample_id b.
Proof.
  intros Ha Hb. unfold settlement_key. split; [|by intros (-> & -> & ->)].
  intros [E1 E2]%sep_inj; [|apply uuid_text_no_colon..].
  apply uuid_text_inj in E1; [|done..].
  apply sep_inj in E2 as [E2 E3]; [|apply show_no_colon..].
  by apply (inj show) in E2.
Qed.

(** C34. Pricing is total and exact up to one minor unit per line.  It succeeds exactly when every
    billable dimension that was used has a published rate whose product fits 64 bits (no running
    total can overflow); the charge then is the sum of the per-dimension costs, each rounded up,
    its lines are exactly the positive costs, and the amount covers the exact price and exceeds
    it by less than one minor unit per line. *)
Theorem price_exact `{UuidText} (interval : UsageInterval) (prices : PriceList) :
  wf_counts (ui_deltas interval) → wf_counts (pl_rates prices) →
  (is_Ok (price interval prices) ↔
     ∀ d a, ui_deltas interval !! d = Some a → priceable prices d a) ∧
  ∀ charge, price interval prices = Ok charge →
    minor (ch_amount charge) = interval_cost prices (entries (ui_deltas interval)) ∧
    (∀ d, ch_lines charge !! d =
       match ui_deltas interval !! d with
       | Some a => if 0 <? line_cost prices d a then Some (MkMinor (line_cost prices d a)) else None
       | None => None
       end) ∧
    (∀ d a r, ui_deltas interval !! d = Some a → billable d = true → a ≠ 0 →
       pl_rates prices !! d = Some r →
       a * r ≤ line_cost prices d a * PRICE_SCALE < a * r + PRICE_SCALE).
Proof.
  intros Hd Hr.
  assert ((∀ d a, ui_deltas interval !! d = Some a → priceable prices d a) →
          ∃ lines, price_loop prices (entries (ui_deltas interval)) ∅ (MkMinor 0) =
                     Ok (lines, MkMinor (interval_cost prices (entries (ui_deltas interval)))) ∧
            ∀ d, lines !! d = match ui_deltas interval !! d with
              | Some a => if 0 <? line_cost prices d a
                          then Some (MkMinor (line_cost prices d a)) else None
              | None => None end) as Hok.
  { intros Hp. destruct (price_loop_ok prices (entries (ui_deltas interval)) ∅ (MkMinor 0) Hr)
      as (lines & E & Hlines).
    - apply NoDup_entries.
    - intros d a Hda%elem_of_entries. eauto.
    - done.
    - pose proof (length_entries (ui_deltas interval)). simpl. unfold max_line. ilia.
    - exists lines. rewrite E. split; [done|]. intros d. rewrite Hlines, list_to_map_entries.
      by rewrite lookup_empty. }
  assert (is_Ok (price interval prices) →
          ∀ d a, ui_deltas interval !! d = Some a → priceable prices d a) as Hconv.
  { intros [charge Hc] d a Hda. apply dec_stable. intros Hp.
    destruct (price_loop_err prices (entries (ui_deltas interval)) ∅ (MkMinor 0) d a) as [err E];
      [by apply elem_of_entries|eauto|done|].
    unfold price in Hc. by rewrite E in Hc. }
  split.
  - split; [done|]. intros Hp. destruct (Hok Hp) as (lines & E & _).
    unfold price. rewrite E. eexists. done.
  - intros charge Hc. destruct Hok as (lines & E & Hlines); [eapply Hconv; by eexists|].
    unfold price in Hc. rewrite E in Hc. injection Hc as <-. simpl. split_and!; [done..|].
    intros d a r _ Hb Ha0 Hrate. unfold line_cost. rewrite Hb, Hrate.
    destruct (Z.eqb_spec a 0); [done|]. simpl. by apply div_ceil_spec.
Qed.

(** The instances the witnesses of this file are evaluated on. *)
Definition sample_interval : UsageInterval := {|
  ui_workload_id := 7%N; ui_interval_start_millis := 1000; ui_interval_end_millis := 2000;
  ui_provider_sample_id := lit "s-1"; ui_deltas := {[ CpuMillis := 3 ]} |}.
Definition sample_prices : PriceList := {|
  pl_version := lit "v1"; pl_effective_from_millis := 0;
  pl_rates := {[ CpuMillis := 500000000 ]} |}.
Definition sample_settled : JournalRecord := {|
  jr_idempotency_key := lit "k"; jr_at_millis := 1;
  jr_entries := [ {| e_account := lit "wallet"; e_amount := MkMinor (-5) |};
                  {| e_account := lit "revenue"; e_amount := MkMinor 5 |} ];
  jr_price_version := None |}.

Lemma wf_counts_singleton d v : in_u64 v → wf_counts {[ d := v ]}.
Proof. intros Hv d' v' [-> ->]%lookup_singleton_Some. done. Qed.

Section key_witnesses.
#[local] Existing Instance HexUuid.hex_uuid_text.
#[local] Existing Instance HexUuid.hex_uuid_laws.

Lemma settlement_key_identity_witness :
  HexUuid.text 7 ++ chr ":" :: show 1000 ++ chr ":" :: lit "s-1" = settlement_key sample_interval ∧
  (settlement_key sample_interval = settlement_key sample_interval →
   ui_provider_sample_id sample_interval = lit "s-1").
Proof.
  split; [reflexivity|]. intros H.
  apply (settlement_key_identity sample_interval sample_interval) in H as (_ & _ & H);
    [exact H|reflexivity..].
Defined.

Lemma price_exact_witness :
  ∃ charge, price sample_interval sample_prices = Ok charge ∧ minor (ch_amount charge) = 2.
Proof.
  destruct (price_exact sample_interval sample_prices) as [_ H].
  - apply wf_counts_singleton. ilia.
  - apply wf_counts_singleton. ilia.
  - assert (∃ charge, price sample_interval sample_prices = Ok charge) as [charge Hc]
      by (eexists; reflexivity).
    exists charge. split; [exact Hc|]. etransitivity; [apply (proj1 (H charge Hc))|reflexivity].
Defined.

End key_witnesses.

(** No constructor of a journal record lets money appear or vanish: settling a charge,
    capturing a hold and correcting a mispriced settlement never fail with [Unbalanced], and
    every record they return sums to zero, debiting the first account by exactly what it credits
    to the revenue account. *)
Theorem journal_records_balance (charge : Charge) (hold : Hold) (amount settled recomputed : Minor)
    (key wallet revenue : str) (t : i64) :
  in_i64 (minor (ch_amount charge)) → in_i64 (minor amount) →
  in_i64 (minor settled) → in_i64 (minor recomputed) →
  let outcomes :=
    [ settle charge wallet revenue t; capture hold amount revenue t;
      match corrective_entry (Mispriced key settled recomputed) wallet revenue t with
      | Ok (Some r) => Ok r | Ok None => Err Overflow | Err e => Err e end ] in
  ∀ outcome, outcome ∈ outcomes →
    match outcome with
    | Ok r => sum_Z (amounts (jr_entries r)) = 0 ∧
              ∃ from a, jr_entries r = [ {| e_account := from; e_amount := MkMinor (- minor a) |};
                                         {| e_account := revenue; e_amount := a |} ]
    | Err e => e ≠ Unbalanced
    end.
Proof.
  intros Hc Ha Hs Hr outcomes outcome Hin.
  assert (∀ k from a v, in_i64 (minor a) →
    match (let? n := ok_or (checked_neg_i64 (minor a)) Overflow in
           balanced_or {| jr_idempotency_key := k; jr_at_millis := t;
             jr_entries := [ {| e_account := from; e_amount := MkMinor n |};
                             {| e_account := revenue; e_amount := a |} ];
             jr_price_version := v |}) with
    | Ok r => sum_Z (amounts (jr_entries r)) = 0 ∧
              ∃ from a, jr_entries r = [ {| e_account := from; e_amount := MkMinor (- minor a) |};
                                         {| e_account := revenue; e_amount := a |} ]
    | Err e => e ≠ Unbalanced
    end) as Hbuild.
  { intros k from [a] v Hin'; simpl in *. unfold checked_neg_i64.
    destruct (checked _ _ _) as [n|] eqn:E; [|done]. apply checked_Some in E as [-> E]. simpl.
    unfold balanced_or. rewrite two_sided_balances by done. simpl.
    split; [unfold amounts; csimpl; lia|]. by exists from, (MkMinor a). }
  unfold outcomes in Hin. set_unfold in Hin. destruct Hin as [->|[->|[->|[]]]].
  - apply (Hbuild _ wallet (ch_amount charge)). done.
  - unfold capture. destruct (negb _); [done|]. destruct (_ || _); [done|].
    by apply (Hbuild _ (hold_account hold) amount).
  - unfold corrective_entry, Minor_checked_sub, checked_sub_i64.
    destruct (checked _ _ _) as [d|] eqn:E; simpl; [|done]. apply checked_Some in E as [-> E].
    destruct (_ =? 0); [done|].
    specialize (Hbuild (lit "correction:" ++ key) wallet (MkMinor (minor recomputed - minor settled))
      None E). simpl in *. destruct (checked_neg_i64 _) as [n|]; simpl in *; [|done].
    by destruct (balanced_or _).
Qed.

Lemma journal_records_balance_witness :
  ∃ r, settle {| ch_settlement_key := []; ch_workload_id := 1%N; ch_amount := MkMinor 5;
                 ch_price_version := []; ch_lines := ∅ |} (lit "w") (lit "r") 9 = Ok r ∧
       sum_Z (amounts (jr_entries r)) = 0.
Proof.
  eexists. split; [reflexivity|].
  refine (proj1 (journal_records_balance
    {| ch_settlement_key := []; ch_workload_id := 1%N; ch_amount := MkMinor 5;
       ch_price_version := []; ch_lines := ∅ |}
    {| hold_idempotency_key := []; hold_account := []; hold_amount := MkMinor 0;
       hold_state := Held |} (MkMinor 0) (MkMinor 0) (MkMinor 0) [] (lit "w") (lit "r") 9
    _ _ _ _ (Ok _) (list_elem_of_here _ _))); vm_compute; split; congruence.
Defined.

(** A refund is the exact reversal of what it refunds: it keeps the price version, changes
    every account by the opposite of the settled record's effect, and refunding the refund
    restores the original entries. *)
Theorem refund_cancels (settled : JournalRecord) (reason : str) (t : i64) (r : JournalRecord) :
  Forall in_i64 (amounts (jr_entries settled)) →
  refund settled reason t = Ok r →
  (∀ account, effect account (jr_entries r) = - effect account (jr_entries settled)) ∧
  jr_price_version r = jr_price_version settled ∧
  (balances settled = true →
   ∀ reason' t', ∃ r', refund r reason' t' = Ok r' ∧ jr_entries r' = jr_entries settled).
Proof.
  intros Hi. unfold refund. destruct (negate_entries _) as [es|] eqn:E; [|done].
  intros [-> Hb]%balanced_or_Ok. simpl. split_and!; [|done|].
  - intros account. apply negate_entries_Ok in E as [H1 H2]. by apply effect_opp.
  - intros Hs reason' t'. apply negate_entries_involutive in E; [|done]. rewrite E.
    unfold balanced_or, balances in *; simpl in *. rewrite Hs. simpl. by eexists.
Qed.

Lemma refund_cancels_witness :
  ∃ r, refund sample_settled (lit "goodwill") 2 = Ok r ∧
       effect (lit "wallet") (jr_entries r) = 5.
Proof.
  assert (Forall in_i64 (amounts (jr_entries sample_settled))) as Hi
    by (repeat constructor; vm_compute; congruence).
  assert (∃ r, refund sample_settled (lit "goodwill") 2 = Ok r) as [r Hr]
    by (eexists; reflexivity).
  exists r. split; [exact Hr|].
  rewrite (proj1 (refund_cancels sample_settled (lit "goodwill") 2 r Hi Hr)). reflexivity.
Defined.

(** A reservation is a ceiling that is used once: [capture] succeeds exactly on an open hold
    for an amount between zero and what was held, the record debits the held account by that
    amount, and a captured or released hold never yields another record. *)
Theorem capture_spec (hold : Hold) (amount : Minor) (revenue : str) (t : i64) :
  in_i64 (minor amount) →
  (is_Ok (capture hold amount revenue t) ↔
     hold_state hold = Held ∧ 0 ≤ minor amount ≤ minor (hold_amount hold)) ∧
  (hold_state hold ≠ Held → capture hold amount revenue t = Err HoldClosed) ∧
  ∀ r, capture hold amount revenue t = Ok r → revenue ≠ hold_account hold →
    effect (hold_account hold) (jr_entries r) = - minor amount ∧
    effect revenue (jr_entries r) = minor amount.
Proof.
  intros Ha. unfold capture, open. destruct amount as [a]; simpl in *.
  destruct (decide (0 ≤ a ≤ minor (hold_amount hold))) as [Hr|Hr].
  - replace ((a <? 0) || (minor (hold_amount hold) <? a)) with false by lia.
    rewrite checked_neg_Some by ilia. simpl. unfold balanced_or.
    rewrite two_sided_balances by ilia. simpl.
    destruct (hold_state hold); simpl; split_and!.
    3: { intros r [= <-] Hne. unfold effect. simpl. rewrite !filter_cons, !filter_nil.
         repeat case_decide; simplify_eq/=; lia. }
    all: unfold is_Ok; naive_solver.
  - replace ((a <? 0) || (minor (hold_amount hold) <? a)) with true by lia.
    destruct (hold_state hold); simpl; unfold is_Ok; naive_solver.
Qed.

Lemma capture_spec_witness :
  ∃ r, capture {| hold_idempotency_key := lit "k"; hold_account := lit "a";
                  hold_amount := MkMinor 10; hold_state := Held |} (MkMinor 4) (lit "rev") 0 = Ok r
       ∧ effect (lit "a") (jr_entries r) = -4.
Proof.
  destruct (capture_spec {| hold_idempotency_key := lit "k"; hold_account := lit "a";
    hold_amount := MkMinor 10; hold_state := Held |} (MkMinor 4) (lit "rev") 0) as ([_ H1] & _ & H2).
  { vm_compute; split; congruence. }
  destruct H1 as [r Hr]; [vm_compute; split; [reflexivity|split; congruence]|].
  exists r. split; [exact Hr|]. apply (H2 r Hr). discriminate.
Defined.

Definition Enforcement_rank (e : Enforcement) : Z :=
  match e with NoEnforcement => 0 | Notify => 1 | Pause => 2 | Stop => 3 end.

(** Enforcement only escalates: a worse balance or a longer debt never yields a milder step,
    a non-negative balance clears every step, and nothing is stopped before both the grace and
    the pause window have passed. *)
Theorem enforcement_escalates (b1 b2 : Minor) (t1 t2 : i64) (policy : EnforcementPolicy) :
  minor b2 ≤ minor b1 → t1 ≤ t2 →
  Enforcement_rank (enforcement b1 t1 policy) ≤ Enforcement_rank (enforcement b2 t2 policy) ∧
  (0 ≤ minor b2 → enforcement b2 t2 policy = NoEnforcement) ∧
  (in_i64 (grace_millis policy + pause_millis policy) → enforcement b1 t1 policy = Stop →
     minor b1 < 0 ∧ grace_millis policy ≤ t1 ∧ grace_millis policy + pause_millis policy ≤ t1).
Proof.
  intros Hb Ht. unfold enforcement. split_and!.
  - repeat (case_match; unbool); simpl; lia.
  - intros ?. case_match; [done|]. unbool. lia.
  - intros Hi H. unfold saturating_add_i64 in H. rewrite saturate_id in H by ilia. guards. lia.
Qed.

Lemma enforcement_escalates_witness :
  enforcement (MkMinor (-1)) 5 {| grace_millis := 10; pause_millis := 10 |} = Notify ∧
  Enforcement_rank (enforcement (MkMinor (-1)) 5 {| grace_millis := 10; pause_millis := 10 |}) ≤
  Enforcement_rank (enforcement (MkMinor (-2)) 25 {| grace_millis := 10; pause_millis := 10 |}).
Proof.
  split; [reflexivity|]. apply (enforcement_escalates (MkMinor (-1)) (MkMinor (-2)) 5 25);
    simpl; lia.
Defined.

Lemma max_by_key_spec {A} (key : A → Z) l :
  match max_by_key key l with
  | None => l = []
  | Some b => b ∈ l ∧ ∀ x, x ∈ l → key x ≤ key b
  end.
Proof.
  unfold max_by_key. induction l as [|y l IH] using rev_ind; [done|].
  rewrite foldl_snoc. destruct (foldl _ None l) as [b|].
  - destruct IH as [Hb Hmax]. destruct (Z.leb_spec (key b) (key y)).
    + split; [set_solver|]. intros x [Hx| ->%list_elem_of_singleton]%elem_of_app; [|lia].
      specialize (Hmax x Hx). lia.
    + split; [set_solver|]. intros x [Hx| ->%list_elem_of_singleton]%elem_of_app; [|lia].
      by apply Hmax.
  - subst. split; [set_solver|]. intros x ->%list_elem_of_singleton. lia.
Qed.

(** The price list in force is the newest one that had taken effect: it is published, it is
    effective, no effective list is newer, and none is found only when none is effective. *)
Theorem price_list_at_newest (lists : list PriceList) (at_millis : i64) :
  match price_list_at lists at_millis with
  | Some list => list ∈ lists ∧ pl_effective_from_millis list ≤ at_millis ∧
      ∀ other, other ∈ lists → pl_effective_from_millis other ≤ at_millis →
        pl_effective_from_millis other ≤ pl_effective_from_millis list
  | None => ∀ other, other ∈ lists → at_millis < pl_effective_from_millis other
  end.
Proof.
  unfold price_list_at.
  pose proof (max_by_key_spec pl_effective_from_millis
    (filter (λ l, pl_effective_from_millis l <= at_millis) lists)) as H.
  destruct (max_by_key _ _) as [b|].
  - destruct H as [Hb Hmax]. apply list_elem_of_filter in Hb as [??].
    split_and!; [done..|]. intros other Ho Hle. apply Hmax. by apply list_elem_of_filter.
  - intros other Ho. apply Z.nle_gt. intros Hle.
    assert (other ∈ filter (λ l, pl_effective_from_millis l <= at_millis) lists) as Hin
      by by apply list_elem_of_filter.
    rewrite H in Hin. by apply not_elem_of_nil in Hin.
Qed.

(** The counter of a dimension, zero when the provider does not report it. *)
Definition counter (d : Dimension) (s : UsageSample) : Z := default 0 (us_cumulative s !! d).

(** The intervals of consecutive readings of one workload, as the meter derives them. *)
Fixpoint intervals_of (previous : UsageSample) (samples : list UsageSample)
    : result (list UsageInterval) FinanceError :=
  match samples with
  | [] => Ok []
  | current :: samples =>
      let? interval := interval_between previous current in
      let? rest := intervals_of current samples in
      Ok (interval :: rest)
  end.

Definition used (d : Dimension) (ivs : list UsageInterval) : Z :=
  sum_Z ((λ i, default 0 (ui_deltas i !! d)) <$> ivs).

Lemma counter_delta_monotone before now : 0 ≤ before ≤ now → now ≤ u64_max →
  counter_delta before now = now - before.
Proof. intros. unfold counter_delta, checked_sub_u64. by rewrite checked_in by lia. Qed.

Lemma counter_delta_le before now : 0 ≤ before → 0 ≤ now ≤ u64_max →
  0 ≤ counter_delta before now ≤ now.
Proof.
  intros. unfold counter_delta, checked_sub_u64. destruct (checked _ _ _) eqn:E; simpl; [|lia].
  apply checked_Some in E. lia.
Qed.

Lemma interval_delta d p c i :
  wf_counts (us_cumulative p) → wf_counts (us_cumulative c) → interval_between p c = Ok i →
  0 ≤ default 0 (ui_deltas i !! d) ≤ counter d c ∧
  (counter d p ≤ counter d c → default 0 (ui_deltas i !! d) = counter d c - counter d p).
Proof.
  intros Hp Hc H. rewrite (interval_between_deltas p c i d H). unfold counter.
  assert (0 ≤ default 0 (us_cumulative p !! d)).
  { destruct (us_cumulative p !! d) eqn:E; simpl; [apply Hp in E; ilia|lia]. }
  destruct (us_cumulative c !! d) as [v|] eqn:E; simpl; [|lia].
  apply Hc in E. split; [apply counter_delta_le; ilia|].
  intros. apply counter_delta_monotone; ilia.
Qed.

(** Metering is exact between restarts and never inflates a reading: over consecutive samples
    whose counter does not go back, the interval deltas add up to the last reading minus the
    first, and after a restart each delta is at most the new reading. *)
Theorem metering_telescopes (d : Dimension) (first : UsageSample) (samples : list UsageSample)
    (ivs : list UsageInterval) :
  Forall (λ s, wf_counts (us_cumulative s)) (first :: samples) →
  intervals_of first samples = Ok ivs →
  Forall2 (λ i s, 0 ≤ default 0 (ui_deltas i !! d) ≤ counter d s) ivs samples ∧
  (Sorted (λ a b, counter d a ≤ counter d b) (first :: samples) →
   used d ivs = counter d (List.last samples first) - counter d first).
Proof.
  revert first ivs. induction samples as [|c samples IH]; intros p ivs Hwf; simpl.
  { intros [= <-]. split; [constructor|]. intros _. unfold used. csimpl. lia. }
  rewrite !Forall_cons in Hwf. destruct Hwf as (Hp & Hc & Hs).
  destruct (interval_between p c) as [i|] eqn:Ei; [|done].
  destruct (intervals_of c samples) as [rest|] eqn:Er; [|done]. intros [= <-].
  destruct (IH c rest) as [IH1 IH2]; [by rewrite Forall_cons|done|].
  destruct (interval_delta d p c i Hp Hc Ei) as [Hle Heq].
  split; [by constructor|]. intros Hsort. inversion Hsort as [|? ? Hsort' Hhd]; subst.
  inversion Hhd; subst. unfold used in *. csimpl. rewrite IH2 by done.
  rewrite Heq by done.
  destruct samples as [|c' samples]; [simpl; lia|].
  change (List.last (c :: c' :: samples) p) with (List.last (c' :: samples) p).
  assert (List.last (c' :: samples) p = List.last (c' :: samples) c) as ->.
  { clear. revert c'. induction samples as [|x samples IH]; intros c'; [done|]. simpl in *. apply IH. }
  lia.
Qed.

Lemma metering_telescopes_witness :
  let sample t v := {| us_workload_id := 1%N; us_provider_sample_id := []; us_provider := [];
                       us_collected_at_millis := t; us_cumulative := {[ CpuMillis := v ]} |} in
  ∃ ivs, intervals_of (sample 1 10) [sample 2 15; sample 3 40] = Ok ivs ∧ used CpuMillis ivs = 30.
Proof.
  intros sample.
  assert (∃ ivs, intervals_of (sample 1 10) [sample 2 15; sample 3 40] = Ok ivs) as [ivs His]
    by (eexists; reflexivity).
  exists ivs. split; [exact His|].
  rewrite (proj2 (metering_telescopes CpuMillis (sample 1 10) [sample 2 15; sample 3 40] ivs
    ltac:(repeat (apply Forall_cons; split; [apply wf_counts_singleton; ilia|]); constructor) His)); [reflexivity|].
  repeat constructor; vm_compute; congruence.
Defined.
