(* ===== verification/Identity.v ===== *)
(** Identity rules: [crates/aseman-domain/src/identity.rs].  Subjects and their canonical text,
    key purposes and signature contexts, credential freshness, and key-epoch acceptance.

    The theorems: the subject text is canonical in both directions; an accepted credential is
    fresh, with the lifetime bound valid as long as the subtraction does not wrap (and a witness
    that it can); and at any instant the accepted epochs of a key are the current one and at most
    its immediate predecessor. *)

From S2P Require Import Prelude Text Core.

Open Scope Z_scope.

(** ** Subjects *)

Inductive SubjectKind := User | Creature | Node | Service | Workload | ModulePublisher.
#[export] Instance SubjectKind_eq_dec : EqDecision SubjectKind.
Proof. solve_decision. Defined.

Definition SubjectKind_ALL : list SubjectKind :=
  [User; Creature; Node; Service; Workload; ModulePublisher].

#[export] Program Instance SubjectKind_countable : Countable SubjectKind :=
  inj_countable (λ k, match k with User => 0 | Creature => 1 | Node => 2 | Service => 3
                              | Workload => 4 | ModulePublisher => 5 end)%nat
    (λ n, SubjectKind_ALL !! n) _.
Next Obligation. by intros []. Qed.

Definition SubjectKind_as_str (self : SubjectKind) : str :=
  match self with
  | User => lit "user"
  | Creature => lit "creature"
  | Node => lit "node"
  | Service => lit "service"
  | Workload => lit "workload"
  | ModulePublisher => lit "module_publisher"
  end.

Record Subject := { subject_kind : SubjectKind; subject_id : Uuid }.
#[export] Instance Subject_eq_dec : EqDecision Subject.
Proof. solve_decision. Defined.
#[export] Program Instance Subject_countable : Countable Subject :=
  inj_countable' (λ s, (subject_kind s, subject_id s))
    (λ p, {| subject_kind := p.1; subject_id := p.2 |}) _.
Next Obligation. by intros []. Qed.

(** ** Failure codes *)

Inductive AuthenticationError :=
| UnsupportedVersion | UnsupportedAlgorithm | Malformed | UnknownKey | KeySubjectMismatch
| KeyPurposeMismatch | LegacyKeyCannotSign | RevokedKey | EpochNotAccepted | AudienceMismatch
| NotYetValid | Expired | LifetimeTooLong | BodyDigestMismatch | BadSignature | Replayed.
#[export] Instance AuthenticationError_eq_dec : EqDecision AuthenticationError.
Proof. solve_decision. Defined.

Definition AuthenticationError_code (self : AuthenticationError) : str :=
  match self with
  | UnsupportedVersion => lit "unsupported_version"
  | UnsupportedAlgorithm => lit "unsupported_algorithm"
  | Malformed => lit "malformed"
  | UnknownKey => lit "unknown_key"
  | KeySubjectMismatch => lit "key_subject_mismatch"
  | KeyPurposeMismatch => lit "key_purpose_mismatch"
  | LegacyKeyCannotSign => lit "legacy_key_cannot_sign"
  | RevokedKey => lit "revoked_key"
  | EpochNotAccepted => lit "epoch_not_accepted"
  | AudienceMismatch => lit "audience_mismatch"
  | NotYetValid => lit "not_yet_valid"
  | Expired => lit "expired"
  | LifetimeTooLong => lit "lifetime_too_long"
  | BodyDigestMismatch => lit "body_digest_mismatch"
  | BadSignature => lit "bad_signature"
  | Replayed => lit "replayed"
  end.

(** [Display for Subject]. *)
Definition Subject_to_string `{UuidText} (self : Subject) : str :=
  SubjectKind_as_str (subject_kind self) ++ chr ":" :: uuid_text (subject_id self).

Definition Subject_from_str `{UuidText} (text : str) : result Subject AuthenticationError :=
  let? p := ok_or (split_once (chr ":") text) Malformed in
  let? kind := ok_or (find (λ candidate, bool_decide (SubjectKind_as_str candidate = p.1))
                        SubjectKind_ALL) Malformed in
  let? id := ok_or (uuid_parse_str p.2) Malformed in
  let subject := {| subject_kind := kind; subject_id := id |} in
  if negb (bool_decide (Subject_to_string subject = text)) then Err Malformed
  else Ok subject.

(** ** Key purposes and signature contexts *)

Inductive KeyPurpose :=
| PurposeAuthentication | PurposeDescriptor | PurposeTokenIssuing | PurposeIntroduction.
#[export] Instance KeyPurpose_eq_dec : EqDecision KeyPurpose.
Proof. solve_decision. Defined.

Inductive SignatureContext :=
| CtxRequest | CtxChallenge | CtxToken | CtxDescriptor | CtxRevocation | CtxIntroduction.
#[export] Instance SignatureContext_eq_dec : EqDecision SignatureContext.
Proof. solve_decision. Defined.

Definition KeyPurpose_as_str (self : KeyPurpose) : str :=
  match self with
  | PurposeAuthentication => lit "authentication"
  | PurposeDescriptor => lit "descriptor"
  | PurposeTokenIssuing => lit "token_issuing"
  | PurposeIntroduction => lit "introduction"
  end.

Definition signs (self : KeyPurpose) (context : SignatureContext) : bool :=
  match self, context with
  | PurposeAuthentication, (CtxRequest | CtxChallenge)
  | PurposeTokenIssuing, CtxToken
  | PurposeDescriptor, (CtxDescriptor | CtxRevocation)
  | PurposeIntroduction, CtxIntroduction => true
  | _, _ => false
  end.

Definition SignatureContext_as_str (self : SignatureContext) : str :=
  match self with
  | CtxRequest => lit "request"
  | CtxChallenge => lit "challenge"
  | CtxToken => lit "token"
  | CtxDescriptor => lit "descriptor"
  | CtxRevocation => lit "revocation"
  | CtxIntroduction => lit "introduction"
  end.

Definition issues_authority (self : SignatureContext) : bool :=
  match self with
  | CtxToken | CtxDescriptor | CtxRevocation | CtxIntroduction => true
  | _ => false
  end.

(** ** Freshness *)

Definition MIN_NONCE_BYTES : usize := 16.
Definition MAX_NONCE_BYTES : usize := 64.
Definition MAX_GUEST_CREDENTIAL_MILLIS : i64 := 5 * 60 * 1000.

Record FreshnessPolicy := { max_clock_skew_millis : i64; max_lifetime_millis : i64 }.

Definition FreshnessPolicy_GUEST : FreshnessPolicy :=
  {| max_clock_skew_millis := 30000; max_lifetime_millis := MAX_GUEST_CREDENTIAL_MILLIS |}.

Record CredentialWindow := {
  cw_issued_at_millis : i64;
  cw_not_before_millis : i64;
  cw_expires_at_millis : i64;
}.

Definition CredentialWindow_check (self : CredentialWindow) (now_millis : i64)
    (policy : FreshnessPolicy) : result unit AuthenticationError :=
  let skew := max_clock_skew_millis policy in
  if (cw_not_before_millis self <? cw_issued_at_millis self)
     || (cw_expires_at_millis self <=? cw_not_before_millis self) then Err Malformed
  else if max_lifetime_millis policy
            <? wrap_i64 (cw_expires_at_millis self - cw_issued_at_millis self)
  then Err LifetimeTooLong
  else if saturating_add_i64 now_millis skew <? cw_not_before_millis self then Err NotYetValid
  else if saturating_add_i64 (cw_expires_at_millis self) skew <=? now_millis then Err Expired
  else Ok tt.

Definition replay_retention_until (self : CredentialWindow) (policy : FreshnessPolicy) : i64 :=
  saturating_add_i64 (cw_expires_at_millis self) (max_clock_skew_millis policy).

(** ** Keys *)

Record KeyEpoch := {
  ke_subject : Subject;
  ke_purpose : KeyPurpose;
  ke_epoch : u32;
  ke_not_before_millis : i64;
  ke_expires_at_millis : option i64;
  ke_retired_at_millis : option i64;
  ke_revoked_at_millis : option i64;
  ke_legacy : bool;
}.

Record IdentityKey := { ik_key_id : str; ik_public_key : list u8; ik_epoch : KeyEpoch }.
Record KeyDescription := { kd_key_id : str; kd_legacy : bool }.
Record Challenge := {
  chal_nonce : list u8; chal_subject : Subject; chal_audience : str; chal_expires_at_millis : i64 }.
Record Introduction := {
  intro_subject : Subject; intro_public_key : list u8; intro_epoch : u32;
  intro_not_before_millis : i64; intro_expires_at_millis : option i64 }.
Record SignedProof := {
  proof_context : SignatureContext;
  proof_algorithm : str;
  proof_key_id : str;
  proof_key_epoch : u32;
  proof_subject : Subject;
  proof_audience : str;
  proof_window : CredentialWindow;
  proof_nonce : list u8;
  proof_request_id : str;
  proof_action : str;
  proof_resource : str;
  proof_body_digest : list u8;
  proof_signature : list u8;
}.

Record RotationPolicy := { overlap_millis : i64 }.
Definition RotationPolicy_DEFAULT : RotationPolicy := {| overlap_millis := 24 * 60 * 60 * 1000 |}.

(** The filter of [accept_epoch]'s [current]: started and not revoked at [now]. *)
Definition epoch_live (now_millis : i64) (candidate : KeyEpoch) : bool :=
  (ke_not_before_millis candidate <=? now_millis)
  && is_none_or (λ revoked, now_millis <? revoked) (ke_revoked_at_millis candidate).

Definition accept_epoch (epochs : list KeyEpoch) (epoch : u32) (context : SignatureContext)
    (now_millis : i64) (rotation : RotationPolicy) : result unit AuthenticationError :=
  let? key := ok_or (find (λ candidate, ke_epoch candidate =? epoch) epochs) UnknownKey in
  if negb (signs (ke_purpose key) context) then Err KeyPurposeMismatch
  else if is_some_and (λ revoked, revoked <=? now_millis) (ke_revoked_at_millis key)
  then Err RevokedKey
  else if ke_legacy key && issues_authority context then Err LegacyKeyCannotSign
  else if now_millis <? ke_not_before_millis key then Err NotYetValid
  else if is_some_and (λ expires, expires <=? now_millis) (ke_expires_at_millis key)
  then Err Expired
  else
    let? current := ok_or (max_Z (ke_epoch <$> filter (epoch_live now_millis) epochs))
                      EpochNotAccepted in
    let in_overlap := is_none_or
      (λ retired, now_millis <? saturating_add_i64 retired (overlap_millis rotation))
      (ke_retired_at_millis key) in
    if (epoch =? current) || ((saturating_add_u32 epoch 1 =? current) && in_overlap)
    then Ok tt else Err EpochNotAccepted.

(** ** Lemmas *)

Lemma SubjectKind_as_str_no_colon k : chr ":" ∉ SubjectKind_as_str k.
Proof. apply contains_char_false. by destruct k. Qed.

#[export] Instance SubjectKind_as_str_inj : Inj (=) (=) SubjectKind_as_str.
Proof. intros [] []; done. Qed.

Lemma elem_of_SubjectKind_ALL k : k ∈ SubjectKind_ALL.
Proof. unfold SubjectKind_ALL. destruct k; set_solver. Qed.

Lemma find_kind k :
  find (λ candidate, bool_decide (SubjectKind_as_str candidate = SubjectKind_as_str k))
    SubjectKind_ALL = Some k.
Proof. by destruct k. Qed.

(** Everything that [accept_epoch] established when it accepts. *)
Record epoch_accepted (epochs : list KeyEpoch) (epoch : u32) (context : SignatureContext)
    (now : i64) (rotation : RotationPolicy) (key : KeyEpoch) (current : u32) : Prop := {
  ea_key : key ∈ epochs ∧ ke_epoch key = epoch;
  ea_purpose : signs (ke_purpose key) context = true;
  ea_unrevoked : ∀ r, ke_revoked_at_millis key = Some r → now < r;
  ea_legacy : ke_legacy key = true → issues_authority context = false;
  ea_window : ke_not_before_millis key ≤ now ∧ ∀ e, ke_expires_at_millis key = Some e → now < e;
  ea_current : ∀ k, k ∈ epochs → epoch_live now k = true → ke_epoch k ≤ current;
  ea_current_live : ∃ k, k ∈ epochs ∧ epoch_live now k = true ∧ ke_epoch k = current;
  ea_epoch : epoch = current ∨
    (epoch + 1 = current ∧
     ∀ t, ke_retired_at_millis key = Some t →
       now < saturating_add_i64 t (overlap_millis rotation));
}.

Lemma accept_epoch_inv epochs epoch context now rotation :
  in_u32 epoch → accept_epoch epochs epoch context now rotation = Ok tt →
  ∃ key current, epoch_accepted epochs epoch context now rotation key current.
Proof.
  intros Hu. unfold accept_epoch.
  destruct (find _ epochs) as [key|] eqn:Hf; simpl; [|done].
  apply find_Some in Hf as [Hin Hep%Z.eqb_eq].
  destruct (signs _ _) eqn:Hs; simpl; [|done].
  destruct (is_some_and _ (ke_revoked_at_millis key)) eqn:Hr; [done|].
  destruct (ke_legacy key && _) eqn:Hl; [done|].
  destruct (Z.ltb_spec now (ke_not_before_millis key)); [done|].
  destruct (is_some_and _ (ke_expires_at_millis key)) eqn:He; [done|].
  destruct (max_Z _) as [current|] eqn:Hc; simpl; [|done].
  destruct (_ || _) eqn:Hcond; [intros _|done].
  apply max_Z_Some in Hc as [Hcin Hcmax].
  exists key, current. split; try done.
  - intros r Er. rewrite Er in Hr. simpl in Hr. lia.
  - intros El. rewrite El in Hl. by destruct (issues_authority context).
  - split; [done|]. intros e Ee. rewrite Ee in He. simpl in He. lia.
  - intros k Hk Hlive. apply Hcmax, list_elem_of_fmap. exists k. split; [done|].
    apply list_elem_of_filter. split; [by rewrite Hlive|done].
  - apply list_elem_of_fmap in Hcin as (k & -> & [Hlive Hk]%list_elem_of_filter).
    exists k. split_and!; [done| |done]. by destruct (epoch_live now k).
  - apply orb_true_iff in Hcond as [->%Z.eqb_eq|[E%Z.eqb_eq Ho]%andb_true_iff]; [by left|].
    unfold saturating_add_u32, saturate in E.
    destruct (decide (epoch = current)); [by left|right]. split; [ilia|].
    intros t Et. rewrite Et in Ho. simpl in Ho. lia.
Qed.

(** ** Properties *)

(** The subject text is canonical: every subject parses back from its own text, and whatever
    parses is exactly the canonical text of the subject it parsed to, so a subject has one
    spelling. *)
Theorem subject_text_canonical `{UuidTextLaws} :
  (∀ s, is_uuid (subject_id s) → Subject_from_str (Subject_to_string s) = Ok s) ∧
  (∀ text s, Subject_from_str text = Ok s → text = Subject_to_string s).
Proof.
  split.
  - intros [k u] Hu. unfold Subject_from_str, Subject_to_string. cbn [subject_kind subject_id].
    rewrite split_once_app by apply SubjectKind_as_str_no_colon. cbn [ok_or fst snd].
    rewrite find_kind. cbn [ok_or]. rewrite uuid_parse_text by done. cbn [ok_or].
    by rewrite bool_decide_true.
  - intros text s. unfold Subject_from_str.
    repeat (case_match; try discriminate). intros [= <-]. by unbool.
Qed.

(** Freshness, exactly: a credential passes at [now] iff its window is ordered, it starts at
    most one skew in the future, [now] is before the end of the period for which its nonce is
    remembered (so a credential that is still accepted is still in the replay store), and its
    lifetime is within the policy or exceeds [i64::MAX], where the subtraction wraps. *)
Theorem credential_freshness w now p :
  in_i64 (cw_issued_at_millis w) → in_i64 (cw_expires_at_millis w) → in_i64 now →
  in_i64 (cw_not_before_millis w) → 0 ≤ max_clock_skew_millis p → 0 ≤ max_lifetime_millis p →
  CredentialWindow_check w now p = Ok tt ↔
  cw_issued_at_millis w ≤ cw_not_before_millis w < cw_expires_at_millis w ∧
  (cw_expires_at_millis w - cw_issued_at_millis w ≤ max_lifetime_millis p ∨
   i64_max < cw_expires_at_millis w - cw_issued_at_millis w) ∧
  cw_not_before_millis w ≤ now + max_clock_skew_millis p ∧
  now < replay_retention_until w p.
Proof.
  intros Hi He Hn Hb Hs Hl. unfold CredentialWindow_check, replay_retention_until.
  set (r := saturating_add_i64 (cw_expires_at_millis w) _).
  destruct (_ || _) eqn:E1; unbool; [split; [done|lia]|].
  pose proof (wrapped_lifetime _ _ _ Hi He ltac:(lia) Hl) as Hw.
  destruct (Z.ltb_spec (max_lifetime_millis p)
    (wrap_i64 (cw_expires_at_millis w - cw_issued_at_millis w))); [split; [done|lia]|].
  destruct (Z.ltb_spec (saturating_add_i64 now (max_clock_skew_millis p))
    (cw_not_before_millis w)) as [Hs'|Hs'];
    unfold saturating_add_i64 at 1, saturate in Hs'; [split; [done|ilia]|].
  destruct (Z.leb_spec r now); [split; [done|lia]|]. split; [|done].
  intros _. split_and!; try lia; ilia.
Qed.

(** Key rotation: when a key epoch is accepted it is unrevoked, started, unexpired, of a
    purpose that signs the context, no legacy key where authority is issued, and either the newest
    live epoch or its immediate predecessor inside the overlap; so two epochs accepted at one
    instant are at most one apart. *)
Theorem epoch_rotation epochs e1 e2 c1 c2 now rotation :
  in_u32 e1 → in_u32 e2 →
  accept_epoch epochs e1 c1 now rotation = Ok tt →
  accept_epoch epochs e2 c2 now rotation = Ok tt →
  (∃ key current, epoch_accepted epochs e1 c1 now rotation key current) ∧ Z.abs (e1 - e2) ≤ 1.
Proof.
  intros H1 H2 A1 A2. apply accept_epoch_inv in A1 as (k1 & m1 & A1); [|done].
  apply accept_epoch_inv in A2 as (k2 & m2 & A2); [|done]. split; [eauto|].
  destruct (ea_current_live _ _ _ _ _ _ _ A1) as (x & Hx & Lx & <-).
  destruct (ea_current_live _ _ _ _ _ _ _ A2) as (y & Hy & Ly & <-).
  pose proof (ea_current _ _ _ _ _ _ _ A1 y Hy Ly).
  pose proof (ea_current _ _ _ _ _ _ _ A2 x Hx Lx).
  pose proof (ea_epoch _ _ _ _ _ _ _ A1). pose proof (ea_epoch _ _ _ _ _ _ _ A2). lia.
Qed.

Section witnesses.
#[local] Existing Instance HexUuid.hex_uuid_text.
#[local] Existing Instance HexUuid.hex_uuid_laws.

Lemma subject_text_canonical_witness :
  Subject_from_str (lit "workload:0190f1a2-7b3c-7d4e-8f00-112233445566") =
    Ok {| subject_kind := Workload; subject_id := 2081819677230521916970032418005472614%N |} ∧
  Subject_from_str (lit "workload:0190F1A2-7B3C-7D4E-8F00-112233445566") = Err Malformed ∧
  Subject_from_str (Subject_to_string {| subject_kind := Node; subject_id := 5%N |}) =
    Ok {| subject_kind := Node; subject_id := 5%N |}.
Proof.
  split; [vm_compute; reflexivity|]. split; [vm_compute; reflexivity|].
  apply (proj1 subject_text_canonical). reflexivity.
Defined.
End witnesses.

(** A window of more than [i64::MAX] milliseconds passes the five-minute guest policy. *)
Definition eternal_window : CredentialWindow :=
  {| cw_issued_at_millis := -2; cw_not_before_millis := -2; cw_expires_at_millis := i64_max |}.

Lemma credential_freshness_witness :
  CredentialWindow_check eternal_window 1700000000000 FreshnessPolicy_GUEST = Ok tt ∧
  (∃ e, CredentialWindow_check
    {| cw_issued_at_millis := 0; cw_not_before_millis := 0; cw_expires_at_millis := 300001 |}
    0 FreshnessPolicy_GUEST = Err e).
Proof.
  split; [|eexists; vm_compute; reflexivity].
  apply credential_freshness; vm_compute; try (split; discriminate); try discriminate.
  split_and!; try discriminate; try reflexivity. by right.
Defined.

Definition example_epoch (n not_before : Z) (retired : option Z) : KeyEpoch :=
  {| ke_subject := {| subject_kind := Node; subject_id := 1%N |};
     ke_purpose := PurposeAuthentication; ke_epoch := n; ke_not_before_millis := not_before;
     ke_expires_at_millis := None; ke_retired_at_millis := retired;
     ke_revoked_at_millis := None; ke_legacy := false |}.

Lemma epoch_rotation_witness :
  let epochs := [example_epoch 1 0 (Some 100); example_epoch 2 100 None] in
  Z.abs (1 - 2) ≤ 1 ∧ ∃ key current,
    epoch_accepted epochs 1 CtxRequest 150 RotationPolicy_DEFAULT key current.
Proof.
  intros epochs.
  destruct (epoch_rotation epochs 1 2 CtxRequest CtxChallenge 150 RotationPolicy_DEFAULT)
    as [H1 H2]; [by vm_compute..|]. done.
Defined.
