(* ===== verification/Registry.v ===== *)
(** The typed action registry: the data types of [crates/aseman-domain/src/authority.rs] that
    both the capability rules and the policy evaluator read. *)

From S2P Require Import Prelude Text Core Identity.

Open Scope Z_scope.

Inductive Condition :=
| Public | Authenticated | SelfResource | Owner | SameCreature | StoreRead | StoreSignal
| StoreManage | SecretGrantee | Counterparty | FinanceOperator | NodeAdmin | Granted | Never.
#[export] Instance Condition_eq_dec : EqDecision Condition.
Proof. solve_decision. Defined.

Definition Condition_ALL : list Condition :=
  [Public; Authenticated; SelfResource; Owner; SameCreature; StoreRead; StoreSignal; StoreManage;
   SecretGrantee; Counterparty; FinanceOperator; NodeAdmin; Granted; Never].

#[export] Program Instance Condition_countable : Countable Condition :=
  inj_countable (λ c, match c with
      | Public => 0 | Authenticated => 1 | SelfResource => 2 | Owner => 3 | SameCreature => 4
      | StoreRead => 5 | StoreSignal => 6 | StoreManage => 7 | SecretGrantee => 8
      | Counterparty => 9 | FinanceOperator => 10 | NodeAdmin => 11 | Granted => 12 | Never => 13
      end)%nat (λ n, Condition_ALL !! n) _.
Next Obligation. by intros []. Qed.

Definition Condition_as_str (self : Condition) : str :=
  match self with
  | Public => lit "public"
  | Authenticated => lit "authenticated"
  | SelfResource => lit "self"
  | Owner => lit "owner"
  | SameCreature => lit "same_creature"
  | StoreRead => lit "store_read"
  | StoreSignal => lit "store_signal"
  | StoreManage => lit "store_manage"
  | SecretGrantee => lit "secret_grantee"
  | Counterparty => lit "counterparty"
  | FinanceOperator => lit "finance_operator"
  | NodeAdmin => lit "node_admin"
  | Granted => lit "granted"
  | Never => lit "never"
  end.

Definition Condition_parse (text : str) : option Condition :=
  find (λ condition, bool_decide (Condition_as_str condition = text)) Condition_ALL.

Definition is_fact (self : Condition) : bool :=
  match self with Public | Authenticated | Granted | Never => false | _ => true end.

Inductive ActionClass := ClassRead | ClassWrite | ClassSecurity | ClassFinancial
| ClassAdministrative.
#[export] Instance ActionClass_eq_dec : EqDecision ActionClass.
Proof. solve_decision. Defined.

Record RegisteredAction := {
  ra_id : str;
  ra_resource : str;
  ra_class : ActionClass;
  ra_subjects : gset SubjectKind;
  ra_rule : list Condition;
  ra_delegable : bool;
}.

Record ActionRegistry := {
  registry_version : str;
  registry_actions : gmap str RegisteredAction;
}.

Record ResourceRef := { rr_kind : str; rr_id : str }.
#[export] Instance ResourceRef_eq_dec : EqDecision ResourceRef.
Proof. solve_decision. Defined.

Lemma Condition_parse_as_str c : Condition_parse (Condition_as_str c) = Some c.
Proof. by destruct c. Qed.
