(* ===== verification/Capability.v ===== *)
(** Capability grants: [crates/aseman-domain/src/capability.rs].  Delegation by intersection,
    chain validation, authorization by a chain and the revocation closure.

    The theorems: an accepted chain never amplifies, at any distance between its links; a
    delegated grant extends its parent's chain into a chain that is valid exactly while the
    parent chain and the new grant are live; a revoked link anywhere voids the chain; and the
    revocation closure is exactly the set of descendants, found by a loop that terminates. *)

From S2P Require Import Prelude Text Core Identity Registry.

Open Scope Z_scope.

(** ** Resource selectors *)

Inductive ResourceSelector :=
| Exact (kind id : str)
| AnyOfKind (kind : str).
#[export] Instance ResourceSelector_eq_dec : EqDecision ResourceSelector.
Proof. solve_decision. Defined.

Definition selector_kind (self : ResourceSelector) : str :=
  match self with Exact kind _ | AnyOfKind kind => kind end.

Definition covers (self : ResourceSelector) (kind id : str) : bool :=
  match self with
  | Exact own_kind own_id => bool_decide (own_kind = kind) && bool_decide (own_id = id)
  | AnyOfKind own_kind => bool_decide (own_kind = kind)
  end.

Definition intersect (self other : ResourceSelector) : option ResourceSelector :=
  match self, other with
  | AnyOfKind own, AnyOfKind theirs => if bool_decide (own = theirs) then Some self else None
  | AnyOfKind kind, Exact _ _ =>
      if bool_decide (selector_kind other = kind) then Some other else None
  | Exact _ _, AnyOfKind kind =>
      if bool_decide (selector_kind self = kind) then Some self else None
  | Exact _ _, Exact _ _ => if bool_decide (self = other) then Some self else None
  end.

Definition within (self outer : ResourceSelector) : bool :=
  bool_decide (intersect self outer = Some self).

(** ** Grants *)

Record Grant := {
  grant_id : Uuid;
  grant_subject : Subject;
  grant_issuer : Subject;
  grant_actions : gset str;
  grant_resource : ResourceSelector;
  grant_delegable_actions : gset str;
  grant_max_depth : u32;
  grant_parent : option Uuid;
  grant_not_before_millis : i64;
  grant_expires_at_millis : option i64;
  grant_revoked_at_millis : option i64;
  grant_policy_version : str;
}.

Definition live_at (self : Grant) (now_millis : i64) : bool :=
  (grant_not_before_millis self <=? now_millis)
  && is_none_or (λ expires, now_millis <? expires) (grant_expires_at_millis self)
  && is_none_or (λ revoked, now_millis <? revoked) (grant_revoked_at_millis self).

Inductive CapabilityError :=
| BrokenChain | NotLive | Amplifies | NotHolder | NothingDelegable | ResourceOutside
| DepthExhausted | CapSubjectNotAllowed | CapUnknownAction.

Definition attenuates (child parent : Grant) : bool :=
  bool_decide (grant_parent child = Some (grant_id parent))
  && bool_decide (grant_issuer child = grant_subject parent)
  && bool_decide (grant_actions child ⊆ grant_delegable_actions parent)
  && bool_decide (grant_delegable_actions child ⊆ grant_actions child)
  && within (grant_resource child) (grant_resource parent)
  && (grant_not_before_millis parent <=? grant_not_before_millis child)
  && match grant_expires_at_millis child, grant_expires_at_millis parent with
     | _, None => true
     | Some child_expiry, Some parent_expiry => child_expiry <=? parent_expiry
     | None, Some _ => false
     end
  && (1 <=? grant_max_depth parent)
  && (grant_max_depth child <? grant_max_depth parent).

(** The first loop of [check_chain]. *)
Fixpoint check_live (chain : list Grant) (now_millis : i64) : result unit CapabilityError :=
  match chain with
  | [] => Ok tt
  | grant :: chain =>
      if negb (live_at grant now_millis) then Err NotLive else check_live chain now_millis
  end.

(** The second loop of [check_chain], over [chain.windows(2)]. *)
Fixpoint check_links (chain : list Grant) : result unit CapabilityError :=
  match chain with
  | child :: (parent :: _) as rest =>
      if negb (bool_decide (grant_parent child = Some (grant_id parent))) then Err BrokenChain
      else if negb (attenuates child parent) then Err Amplifies
      else check_links rest
  | _ => Ok tt
  end.

Definition check_chain (chain : list Grant) (now_millis : i64) : result unit CapabilityError :=
  let? root := ok_or (last chain) BrokenChain in
  if is_some (grant_parent root)
     || negb (bool_decide (grant_delegable_actions root ⊆ grant_actions root))
  then Err BrokenChain
  else
    let? _ := check_live chain now_millis in
    check_links chain.

Definition chain_authorizes (chain : list Grant) (subject : Subject) (action kind id : str)
    (now_millis : i64) : bool :=
  is_some_and (λ grant,
      bool_decide (grant_subject grant = subject)
      && bool_decide (action ∈ grant_actions grant)
      && covers (grant_resource grant) kind id) (head chain)
  && is_ok (check_chain chain now_millis).

(** ** Delegation *)

Record DelegationRequest := {
  dr_id : Uuid;
  dr_subject : Subject;
  dr_actions : gset str;
  dr_resource : ResourceSelector;
  dr_delegable_actions : gset str;
  dr_max_depth : u32;
  dr_not_before_millis : i64;
  dr_expires_at_millis : option i64;
}.

(** The loop of [delegate] that collects the actions, over the ordered intersection. *)
Fixpoint delegated_actions (registry : ActionRegistry) (resource : ResourceSelector)
    (kind : SubjectKind) (candidates : list str) (actions : gset str)
    : result (gset str) CapabilityError :=
  match candidates with
  | [] => Ok actions
  | action :: candidates =>
      let? registered := ok_or (registry_actions registry !! action) CapUnknownAction in
      if negb (ra_delegable registered)
         || negb (bool_decide (ra_resource registered = selector_kind resource))
      then delegated_actions registry resource kind candidates actions
      else if negb (bool_decide (kind ∈ ra_subjects registered)) then Err CapSubjectNotAllowed
      else delegated_actions registry resource kind candidates ({[action]} ∪ actions)
  end.

Definition delegate (registry : ActionRegistry) (parent_chain : list Grant) (delegator : Subject)
    (request : DelegationRequest) (policy_version : str) (now_millis : i64)
    : result Grant CapabilityError :=
  let? _ := check_chain parent_chain now_millis in
  (* [&parent_chain[0]]: a checked chain is not empty *)
  let? parent := ok_or (head parent_chain) BrokenChain in
  if negb (bool_decide (grant_subject parent = delegator)) then Err NotHolder
  else if grant_max_depth parent =? 0 then Err DepthExhausted
  else
    let? resource := ok_or (intersect (dr_resource request) (grant_resource parent))
                       ResourceOutside in
    let? actions := delegated_actions registry resource (subject_kind (dr_subject request))
      (btree_iter (dr_actions request ∩ grant_delegable_actions parent)) ∅ in
    if bool_decide (actions = ∅) then Err NothingDelegable
    else
      let delegable_actions := dr_delegable_actions request ∩ actions in
      let expires_at_millis :=
        match dr_expires_at_millis request, grant_expires_at_millis parent with
        | Some requested, Some limit => Some (Z.min requested limit)
        | requested, None => requested
        | None, limit => limit
        end in
      Ok {| grant_id := dr_id request;
            grant_subject := dr_subject request;
            grant_issuer := delegator;
            grant_actions := actions;
            grant_resource := resource;
            grant_delegable_actions := delegable_actions;
            grant_max_depth := Z.min (dr_max_depth request) (grant_max_depth parent - 1);
            grant_parent := Some (grant_id parent);
            grant_not_before_millis :=
              Z.max (dr_not_before_millis request) (grant_not_before_millis parent);
            grant_expires_at_millis := expires_at_millis;
            grant_revoked_at_millis := None;
            grant_policy_version := policy_version |}.

(** ** Revocation closure *)

(** One pass of the [for] loop: a grant whose parent is already in the closure joins it. *)
Definition closure_pass (grants : list Grant) (closure : gset Uuid) : gset Uuid :=
  foldl (λ closure grant,
    if is_some_and (λ parent, bool_decide (parent ∈ closure)) (grant_parent grant)
    then {[grant_id grant]} ∪ closure else closure) closure grants.

(** The outer [loop], on fuel; [None] only when the fuel runs out. *)
Fixpoint closure_loop (fuel : nat) (grants : list Grant) (closure : gset Uuid)
    : option (gset Uuid) :=
  match fuel with
  | O => None
  | S fuel =>
      let next := closure_pass grants closure in
      if bool_decide (size next = size closure) then Some next
      else closure_loop fuel grants next
  end.

(** Every pass but the last adds a grant identity, so one pass more than there are grants is
    enough. *)
Definition revocation_closure (grants : list Grant) (revoked : Uuid) : option (gset Uuid) :=
  closure_loop (S (length grants)) grants {[revoked]}.

(** ** Lemmas *)

Lemma intersect_covers s t r kind id :
  intersect s t = Some r → covers r kind id = covers s kind id && covers t kind id.
Proof.
  destruct s, t; simpl; case_bool_decide; intros; simplify_eq/=;
    repeat case_bool_decide; naive_solver.
Qed.

Lemma intersect_within s t r : intersect s t = Some r → within r t = true.
Proof.
  unfold within. destruct s, t; simpl; case_bool_decide; intros; simplify_eq/=;
    by apply bool_decide_eq_true; rewrite bool_decide_true.
Qed.

Lemma within_covers s t kind id : within s t = true → covers s kind id = true → covers t kind id = true.
Proof.
  unfold within. intros H%bool_decide_eq_true Hs.
  apply (intersect_covers _ _ _ kind id) in H. rewrite Hs in H. by destruct (covers t kind id).
Qed.

Lemma within_refl s : within s s = true.
Proof. unfold within. destruct s; apply bool_decide_eq_true; simpl; by rewrite bool_decide_true. Qed.

(** What [attenuates] establishes between a link and its parent. *)
Record attenuated (c p : Grant) : Prop := {
  att_parent : grant_parent c = Some (grant_id p);
  att_issuer : grant_issuer c = grant_subject p;
  att_actions : grant_actions c ⊆ grant_delegable_actions p;
  att_delegable : grant_delegable_actions c ⊆ grant_actions c;
  att_resource : within (grant_resource c) (grant_resource p) = true;
  att_start : grant_not_before_millis p ≤ grant_not_before_millis c;
  att_expiry : ∀ e, grant_expires_at_millis p = Some e →
    ∃ e', grant_expires_at_millis c = Some e' ∧ e' ≤ e;
  att_depth : 1 ≤ grant_max_depth p ∧ grant_max_depth c < grant_max_depth p;
}.

Lemma attenuates_spec c p : attenuates c p = true ↔ attenuated c p.
Proof.
  unfold attenuates. rewrite !andb_true_iff, !bool_decide_eq_true, !Z.leb_le, !Z.ltb_lt. split.
  - intros [[[[[[[[? ?] ?] ?] ?] ?] He] ?] ?]. split; try done.
    intros e Ee. rewrite Ee in He. destruct (grant_expires_at_millis c) as [e'|]; [|done].
    exists e'. split; [done|lia].
  - intros []. split_and!; try done; [|lia..].
    destruct (grant_expires_at_millis p) as [e|]; [|by destruct (grant_expires_at_millis c)].
    destruct (att_expiry0 e eq_refl) as (e' & -> & ?). by apply Z.leb_le.
Qed.

Lemma check_live_spec chain now :
  check_live chain now = Ok tt ↔ ∀ g, g ∈ chain → live_at g now = true.
Proof.
  induction chain as [|g chain IH]; simpl; [set_solver|].
  destruct (live_at g now) eqn:E; simpl.
  - rewrite IH. set_solver.
  - split; [done|]. intros H. rewrite H in E by set_solver. done.
Qed.

Lemma check_links_spec chain :
  check_links chain = Ok tt ↔
  ∀ i c p, chain !! i = Some c → chain !! S i = Some p → attenuated c p.
Proof.
  induction chain as [|c [|p rest] IH]; [naive_solver..|].
  cbn [check_links]. split.
  - case_bool_decide as Hp; [cbn [negb]|done].
    destruct (attenuates c p) eqn:Ha; [cbn [negb]|done]. intros H [|i] c' p' Hc Hp'.
    + simplify_eq/=. by apply attenuates_spec.
    + eapply IH; eauto.
  - intros H. assert (attenuated c p) as Ha by by apply (H 0%nat).
    rewrite bool_decide_true by apply Ha. apply attenuates_spec in Ha. rewrite Ha. cbn [negb].
    apply IH. intros i c' p' ??. by apply (H (S i)).
Qed.

(** A chain is valid at an instant: a root with no parent, live links, attenuating pairs. *)
Definition root_ok (root : Grant) : Prop :=
  grant_parent root = None ∧ grant_delegable_actions root ⊆ grant_actions root.

Lemma check_chain_spec chain now :
  check_chain chain now = Ok tt ↔
  (∃ root, last chain = Some root ∧ root_ok root) ∧
  (∀ g, g ∈ chain → live_at g now = true) ∧
  (∀ i c p, chain !! i = Some c → chain !! S i = Some p → attenuated c p).
Proof.
  rewrite <-check_live_spec, <-check_links_spec. unfold check_chain, root_ok.
  destruct (last chain) as [root|]; simpl; [|naive_solver].
  destruct (grant_parent root) eqn:Hp; simpl; [naive_solver|].
  case_bool_decide; simpl; [|naive_solver].
  destruct (check_live chain now) as [[]|]; naive_solver.
Qed.

(** Links nest at any distance, not only pairwise. *)
Record nested (c p : Grant) (distance : Z) : Prop := {
  nest_actions : grant_actions c ⊆ grant_actions p;
  nest_delegable : grant_delegable_actions c ⊆ grant_delegable_actions p;
  nest_resource kind id : covers (grant_resource c) kind id = true →
    covers (grant_resource p) kind id = true;
  nest_start : grant_not_before_millis p ≤ grant_not_before_millis c;
  nest_expiry : ∀ e, grant_expires_at_millis p = Some e →
    ∃ e', grant_expires_at_millis c = Some e' ∧ e' ≤ e;
  nest_depth : grant_max_depth c + distance ≤ grant_max_depth p;
}.

Lemma nested_refl c : nested c c 0.
Proof. split; try done; [|lia]. intros e He. by exists e. Qed.

Lemma nested_cons c p q d :
  grant_delegable_actions p ⊆ grant_actions p →
  attenuated c p → nested p q d → nested c q (d + 1).
Proof.
  intros Hp [] []. split.
  - by etrans; [|etrans; [apply Hp|]].
  - etrans; [apply att_delegable0|]. by etrans.
  - intros kind id Hc. apply nest_resource0. by eapply within_covers.
  - lia.
  - intros e (e' & He' & ?)%nest_expiry0. apply att_expiry0 in He' as (e'' & -> & ?).
    exists e''. split; [done|lia].
  - lia.
Qed.

Lemma chain_delegable chain now i g :
  check_chain chain now = Ok tt → chain !! i = Some g →
  grant_delegable_actions g ⊆ grant_actions g.
Proof.
  rewrite check_chain_spec. intros ((root & Hl & Hr) & _ & Hlinks) Hi.
  destruct (chain !! S i) as [p|] eqn:Hp; [by eapply Hlinks|].
  rewrite last_lookup in Hl. apply lookup_lt_Some in Hi as Hlt. apply lookup_ge_None in Hp.
  replace (pred (length chain)) with i in Hl by lia. simplify_eq. apply Hr.
Qed.

Lemma chain_nested chain now i k c p :
  check_chain chain now = Ok tt → chain !! i = Some c → chain !! (i + k)%nat = Some p →
  nested c p (Z.of_nat k).
Proof.
  intros Hc. revert i c. induction k as [|k IH]; intros i c Hi Hk.
  - rewrite Nat.add_0_r in Hk. simplify_eq. apply nested_refl.
  - rewrite Nat.add_succ_r in Hk. destruct (chain !! S i) as [q|] eqn:Hq.
    + rewrite Nat2Z.inj_succ, <-Z.add_1_r. eapply nested_cons; [by eapply chain_delegable| |by eapply IH].
      apply check_chain_spec in Hc as (_ & _ & Hl). by eapply Hl.
    + apply lookup_ge_None in Hq. apply lookup_lt_Some in Hk. lia.
Qed.

Lemma delegated_actions_spec registry resource kind candidates acc actions :
  delegated_actions registry resource kind candidates acc = Ok actions →
  ∀ a, a ∈ actions → a ∈ acc ∨
    a ∈ candidates ∧ ∃ r, registry_actions registry !! a = Some r ∧ ra_delegable r = true ∧
      ra_resource r = selector_kind resource ∧ kind ∈ ra_subjects r.
Proof.
  revert acc. induction candidates as [|c candidates IH]; intros acc; simpl.
  - intros [= ->]. by left.
  - destruct (registry_actions registry !! c) as [r|] eqn:Hr; simpl; [|done].
    destruct (ra_delegable r) eqn:Hd; simpl; [|intros H a Ha; destruct (IH _ H a Ha); set_solver].
    case_bool_decide; simpl; [|intros H' a Ha; destruct (IH _ H' a Ha); set_solver].
    case_bool_decide; simpl; [|done]. intros H' a Ha.
    destruct (IH _ H' a Ha) as [[->%elem_of_singleton|?]%elem_of_union|[??]]; [|by left|].
    + right. split; [by left|]. by exists r.
    + right. split; [by right|done].
Qed.

Lemma check_chain_cons child chain parent now :
  head chain = Some parent → attenuated child parent →
  check_chain (child :: chain) now = Ok tt ↔
  check_chain chain now = Ok tt ∧ live_at child now = true.
Proof.
  intros Hh Ha. destruct chain as [|p chain]; [done|]. injection Hh as ->.
  rewrite !check_chain_spec, last_cons_cons. split.
  - intros (Hr & Hl & Hk). split; [split_and!|]; [done|set_solver| |apply Hl; by left].
    intros i c q ??. by apply (Hk (S i)).
  - intros ((Hr & Hl & Hk) & Hlive). split_and!; [done|set_solver|].
    intros [|i] c q Hc Hq; simplify_eq/=; [done|]. by eapply Hk.
Qed.

Lemma delegate_inv registry chain delegator request version now child :
  delegate registry chain delegator request version now = Ok child →
  check_chain chain now = Ok tt ∧ ∃ parent, head chain = Some parent ∧
    grant_subject parent = delegator ∧ grant_subject child = dr_subject request ∧
    grant_max_depth parent ≠ 0 ∧
    intersect (dr_resource request) (grant_resource parent) = Some (grant_resource child) ∧
    delegated_actions registry (grant_resource child) (subject_kind (dr_subject request))
      (btree_iter (dr_actions request ∩ grant_delegable_actions parent)) ∅
      = Ok (grant_actions child) ∧
    grant_actions child ≠ ∅ ∧
    (1 ≤ grant_max_depth parent → attenuated child parent).
Proof.
  unfold delegate. destruct (check_chain chain now) as [[]|]; [|done].
  destruct (head chain) as [parent|]; simpl; [|done]. case_bool_decide as Hd; simpl; [|done].
  destruct (Z.eqb_spec (grant_max_depth parent) 0); [done|].
  destruct (intersect _ _) as [resource|] eqn:Hr; simpl; [|done].
  destruct (delegated_actions _ _ _ _ _) as [actions|] eqn:Ha; [|done].
  case_bool_decide as He; [done|]. intros [= <-]. split; [done|]. exists parent.
  split_and!; try done. intros Hdepth. split; simpl; try done; try lia.
  - intros a Hin. destruct (delegated_actions_spec _ _ _ _ _ _ Ha a Hin) as [?|[Hc _]]; [set_solver|].
    apply elem_of_btree_iter in Hc. set_solver.
  - set_solver.
  - by eapply intersect_within.
  - intros e He'. rewrite He'. destruct (dr_expires_at_millis request) as [r|]; eexists;
      (split; [done|lia]).
Qed.

(** ** The descendants of a grant *)

Definition child_of (grants : list Grant) (p c : Uuid) : Prop :=
  ∃ g, g ∈ grants ∧ grant_parent g = Some p ∧ grant_id g = c.

(** Closed under children. *)
Definition closed_set (grants : list Grant) (D : Uuid → Prop) : Prop :=
  ∀ p c, D p → child_of grants p c → D c.

Definition closure_step (closure : gset Uuid) (grant : Grant) : gset Uuid :=
  if is_some_and (λ parent, bool_decide (parent ∈ closure)) (grant_parent grant)
  then {[grant_id grant]} ∪ closure else closure.

Lemma closure_step_incl c g : c ⊆ closure_step c g.
Proof. unfold closure_step. case_match; set_solver. Qed.

Lemma closure_pass_incl grants c : c ⊆ closure_pass grants c.
Proof.
  revert c. induction grants as [|g grants IH]; intros c; [done|].
  change (c ⊆ closure_pass grants (closure_step c g)). by etrans; [apply closure_step_incl|].
Qed.

Lemma closure_pass_least gs grants c (D : Uuid → Prop) :
  (∀ g, g ∈ gs → g ∈ grants) → set_Forall D c → closed_set grants D →
  set_Forall D (closure_pass gs c).
Proof.
  intros Hsub Hc HD. revert c Hc Hsub. induction gs as [|g gs IH]; intros c Hc Hsub; [done|].
  change (set_Forall D (closure_pass gs (closure_step c g))). apply IH; [|set_solver].
  unfold closure_step. destruct (grant_parent g) as [p|] eqn:Hp; simpl; [|done].
  case_bool_decide; [|done]. apply set_Forall_union; [|done].
  apply set_Forall_singleton, (HD p); [by apply Hc|]. exists g. set_solver.
Qed.

Lemma closure_pass_child gs c g p :
  g ∈ gs → grant_parent g = Some p → p ∈ c → grant_id g ∈ closure_pass gs c.
Proof.
  intros Hg Hp. revert c. induction gs as [|h gs IH]; intros c Hc; [by apply not_elem_of_nil in Hg|].
  change (grant_id g ∈ closure_pass gs (closure_step c h)).
  apply elem_of_cons in Hg as [->|Hg].
  - apply closure_pass_incl. unfold closure_step. rewrite Hp. simpl.
    rewrite bool_decide_true by done. set_solver.
  - apply IH; [done|]. by apply closure_step_incl.
Qed.

(** The ids of the grants bound the closure, so enough fuel is one more than their number. *)
Lemma closure_loop_spec fuel grants c (U : gset Uuid) :
  closed_set grants (.∈ U) → c ⊆ U → (size U < size c + fuel)%nat →
  ∃ r, closure_loop fuel grants c = Some r ∧ c ⊆ r ∧ closed_set grants (.∈ r) ∧
    ∀ D : Uuid → Prop, set_Forall D c → closed_set grants D → set_Forall D r.
Proof.
  intros HU. revert c. induction fuel as [|fuel IH]; intros c Hc Hf; simpl.
  { apply subseteq_size in Hc. lia. }
  pose proof (closure_pass_incl grants c) as Hi.
  case_bool_decide as Hs.
  - assert (closure_pass grants c = c) as E.
    { symmetry. apply leibniz_equiv, set_subseteq_size_equiv; [done|lia]. }
    rewrite E. exists c. split_and!; [done|done| |done].
    intros p x Hp (g & Hg & Hgp & <-). rewrite <-E. by eapply closure_pass_child.
  - apply subseteq_size in Hi as Hsz.
    destruct (IH (closure_pass grants c)) as (r & -> & Hr & Hcl & Hleast).
    + by apply (closure_pass_least grants grants c (.∈ U)).
    + lia.
    + exists r. split_and!; [done|by etrans|done|]. intros D HD HcD. apply Hleast; [|done].
      by apply (closure_pass_least grants grants).
Qed.

Lemma revocation_closure_spec grants revoked :
  ∃ closure, revocation_closure grants revoked = Some closure ∧
    ∀ id, id ∈ closure ↔ rtc (child_of grants) revoked id.
Proof.
  set (U := list_to_set (revoked :: (grant_id <$> grants)) : gset Uuid).
  assert (closed_set grants (.∈ U)) as HU.
  { intros p c _ (g & Hg & _ & <-). apply elem_of_list_to_set. right.
    by apply list_elem_of_fmap_2. }
  pose proof (size_list_to_set_le (revoked :: (grant_id <$> grants))) as Hsz.
  simpl in Hsz. rewrite length_fmap in Hsz.
  destruct (closure_loop_spec (S (length grants)) grants {[revoked]} U HU)
    as (r & Hr & H0 & Hclosed & Hleast);
    [unfold U; set_solver|rewrite size_singleton; simpl; unfold U; simpl; lia|].
  exists r. split; [done|]. intros id. split.
  - revert id. apply Hleast; [by apply set_Forall_singleton|].
    intros p c Hp Hc. by eapply rtc_r.
  - intros Hrtc. apply (rtc_invariant (child_of grants) (.∈ r)) with revoked; [|set_solver|done].
    intros x y Hx Hy. by eapply Hclosed.
Qed.

Lemma chain_child_of chain now i c p :
  check_chain chain now = Ok tt → chain !! i = Some c → chain !! S i = Some p →
  child_of chain (grant_id p) (grant_id c).
Proof.
  rewrite check_chain_spec. intros (_ & _ & Hl) Hc Hp. exists c.
  split; [by eapply list_elem_of_lookup_2|]. split; [|done]. by apply (Hl i).
Qed.

Lemma chain_descends grants chain now k p c :
  check_chain chain now = Ok tt → (∀ g, g ∈ chain → g ∈ grants) →
  chain !! 0%nat = Some c → chain !! k = Some p →
  rtc (child_of grants) (grant_id p) (grant_id c).
Proof.
  intros Hc Hsub H0. revert p. induction k as [|k IH]; intros p Hp; [simplify_eq; done|].
  destruct (chain !! k) as [q|] eqn:Hq.
  - eapply rtc_l; [|by apply IH].
    destruct (chain_child_of _ _ _ _ _ Hc Hq Hp) as (g & Hg & ? & ?). exists g. eauto.
  - apply lookup_ge_None in Hq. apply lookup_lt_Some in Hp. lia.
Qed.

(** ** Properties *)

(** C38. No amplification: whatever a chain authorizes, every link of it authorizes as well at
    that instant: the head's subject is the one asking, each link is live (inside its window and
    unrevoked), holds the action and covers the resource, and the depth budget of the root bounds
    the length of the chain. *)
Theorem chain_never_amplifies chain subject action kind id now :
  (∀ g, g ∈ chain → in_u32 (grant_max_depth g)) →
  chain_authorizes chain subject action kind id now = true →
  (∃ head root, chain !! 0%nat = Some head ∧ grant_subject head = subject ∧
    last chain = Some root ∧ grant_parent root = None ∧
    Z.of_nat (length chain) ≤ grant_max_depth root + 1) ∧
  ∀ g, g ∈ chain → live_at g now = true ∧ action ∈ grant_actions g ∧
    covers (grant_resource g) kind id = true.
Proof.
  intros Hu. unfold chain_authorizes. rewrite andb_true_iff. intros [Hh Hc].
  destruct (check_chain chain now) as [[]|] eqn:Hck; [clear Hc|done].
  destruct chain as [|h rest]; [done|]. simpl in Hh. unbool. destruct Hh as [[Hs Ha] Hcov].
  pose proof (λ k p, chain_nested (h :: rest) now 0 k h p Hck eq_refl) as Hn. split.
  - pose proof Hck as Hck'. apply check_chain_spec in Hck' as ((root & Hl & [Hr _]) & _ & _).
    exists h, root. split_and!; try done. rewrite last_lookup in Hl.
    destruct (Hn _ _ Hl) as [_ _ _ _ _ Hd]. pose proof (Hu h ltac:(by left)). simpl in *. ilia.
  - intros g Hg. apply check_chain_spec in Hck as (_ & Hlive & _).
    split; [by apply Hlive|]. apply list_elem_of_lookup_1 in Hg as [k Hk].
    destruct (Hn k g Hk). split; [set_solver|by apply nest_resource0].
Qed.

(** Delegation: a delegated grant holds only actions that were requested, that the parent
    may delegate and that the registry lets the new subject's class hold and delegate on that
    kind of resource; it covers the intersection of the requested and the parent's resources; and
    put on the parent's chain it is valid at exactly the instants when the parent's chain is and
    the new grant is live, so it never outlives or escapes its parent. *)
Theorem delegation_attenuates registry chain delegator request version now child :
  (∀ g, g ∈ chain → in_u32 (grant_max_depth g)) →
  delegate registry chain delegator request version now = Ok child →
  (∃ parent, head chain = Some parent ∧ grant_subject parent = delegator ∧
    (∀ a, a ∈ grant_actions child → a ∈ dr_actions request ∧ a ∈ grant_delegable_actions parent ∧
      ∃ r, registry_actions registry !! a = Some r ∧ ra_delegable r = true ∧
        ra_resource r = selector_kind (grant_resource child) ∧
        subject_kind (dr_subject request) ∈ ra_subjects r) ∧
    ∀ kind id, covers (grant_resource child) kind id =
      covers (dr_resource request) kind id && covers (grant_resource parent) kind id) ∧
  ∀ t, check_chain (child :: chain) t = Ok tt ↔
    check_chain chain t = Ok tt ∧ live_at child t = true.
Proof.
  intros Hu (Hc & parent & Hh & Hs & _ & Hd & Hr & Ha & _ & Hat)%delegate_inv.
  assert (parent ∈ chain) as Hin by (destruct chain; simplify_eq/=; by left).
  split.
  - exists parent. split_and!; [done..| |].
    + intros a [?|[Hin' ?]]%(delegated_actions_spec _ _ _ _ _ _ Ha); [set_solver|].
      apply elem_of_btree_iter, elem_of_intersection in Hin'. naive_solver.
    + intros. by apply intersect_covers.
  - intros t. apply check_chain_cons with parent; [done|]. apply Hat.
    pose proof (Hu parent Hin). ilia.
Qed.

(** Revocation: the closure of a revoked grant is computed (the loop stops within its
    fuel) and is exactly the grant and its descendants; so it names the head of every valid chain
    that the revoked grant is a link of, and once the revocation is recorded on a link the chain
    authorizes nothing. *)
Theorem revocation_reaches_descendants grants revoked :
  ∃ closure, revocation_closure grants revoked = Some closure ∧
    (∀ id, id ∈ closure ↔ rtc (child_of grants) revoked id) ∧
    (∀ chain now k g h, check_chain chain now = Ok tt → (∀ x, x ∈ chain → x ∈ grants) →
      chain !! k = Some g → grant_id g = revoked → head chain = Some h → grant_id h ∈ closure) ∧
    (∀ chain g r now subject action kind id, g ∈ chain → grant_revoked_at_millis g = Some r →
      r ≤ now → chain_authorizes chain subject action kind id now = false).
Proof.
  destruct (revocation_closure_spec grants revoked) as (r & Hr & Hid).
  exists r. split_and!; [done|done| |].
  - intros chain now k g h Hc Hsub Hk <- Hh. apply Hid.
    eapply chain_descends; [done|done|by rewrite <-head_lookup|done].
  - intros chain g rv now subject action kind id Hg Hrv Hle. unfold chain_authorizes.
    apply andb_false_iff. right. destruct (check_chain chain now) as [[]|] eqn:E; [|done].
    apply check_chain_spec in E as (_ & Hlive & _). apply Hlive in Hg.
    unfold live_at in Hg. rewrite Hrv in Hg. simpl in Hg. lia.
Qed.

(** ** Witnesses *)

Definition example_action (id : str) : RegisteredAction :=
  {| ra_id := id; ra_resource := lit "store"; ra_class := ClassRead;
     ra_subjects := {[User; Workload]}; ra_rule := [Owner; Granted]; ra_delegable := true |}.

Definition example_registry : ActionRegistry :=
  {| registry_version := lit "1";
     registry_actions := {[lit "store.read" := example_action (lit "store.read");
                           lit "store.write" := example_action (lit "store.write")]} |}.

Definition example_root : Grant :=
  {| grant_id := 1%N; grant_subject := {| subject_kind := User; subject_id := 7%N |};
     grant_issuer := {| subject_kind := Node; subject_id := 9%N |};
     grant_actions := {[lit "store.read"; lit "store.write"]};
     grant_resource := AnyOfKind (lit "store");
     grant_delegable_actions := {[lit "store.read"]}; grant_max_depth := 1;
     grant_parent := None; grant_not_before_millis := 0; grant_expires_at_millis := Some 1000;
     grant_revoked_at_millis := None; grant_policy_version := lit "1" |}.

Definition example_request : DelegationRequest :=
  {| dr_id := 2%N; dr_subject := {| subject_kind := Workload; subject_id := 8%N |};
     dr_actions := {[lit "store.read"; lit "store.write"]};
     dr_resource := Exact (lit "store") (lit "s1");
     dr_delegable_actions := {[lit "store.read"]}; dr_max_depth := 5;
     dr_not_before_millis := 10; dr_expires_at_millis := None |}.

Definition example_child : Grant :=
  {| grant_id := 2%N; grant_subject := {| subject_kind := Workload; subject_id := 8%N |};
     grant_issuer := {| subject_kind := User; subject_id := 7%N |};
     grant_actions := {[lit "store.read"]};
     grant_resource := Exact (lit "store") (lit "s1");
     grant_delegable_actions := {[lit "store.read"]}; grant_max_depth := 0;
     grant_parent := Some 1%N; grant_not_before_millis := 10;
     grant_expires_at_millis := Some 1000;
     grant_revoked_at_millis := None; grant_policy_version := lit "1" |}.

Lemma example_depths g : g ∈ [example_child; example_root] → in_u32 (grant_max_depth g).
Proof. rewrite !elem_of_cons, elem_of_nil. intros [->|[->|[]]]; vm_compute; split; discriminate. Qed.

Lemma delegation_attenuates_witness :
  delegate example_registry [example_root] {| subject_kind := User; subject_id := 7%N |}
    example_request (lit "1") 20 = Ok example_child ∧
  ∀ t, check_chain [example_child; example_root] t = Ok tt ↔
    check_chain [example_root] t = Ok tt ∧ live_at example_child t = true.
Proof.
  assert (delegate example_registry [example_root] {| subject_kind := User; subject_id := 7%N |}
    example_request (lit "1") 20 = Ok example_child) as E by (vm_compute; reflexivity).
  split; [exact E|].
  refine (proj2 (delegation_attenuates _ _ _ _ _ _ _ _ E)).
  intros g Hg. apply example_depths. by right.
Defined.

Lemma chain_never_amplifies_witness :
  lit "store.read" ∈ grant_actions example_child ∧ lit "store.read" ∈ grant_actions example_root.
Proof.
  destruct (chain_never_amplifies [example_child; example_root]
    {| subject_kind := Workload; subject_id := 8%N |} (lit "store.read") (lit "store") (lit "s1") 20
    example_depths ltac:(vm_compute; reflexivity)) as [_ H].
  destruct (H example_child) as (_ & ? & _); [by left|].
  destruct (H example_root) as (_ & ? & _); [by right; left|]. done.
Defined.

(** The closure holds the revoked grant and its child, and an unrelated grant stays out. *)
Example revocation_closure_example :
  revocation_closure [example_child; example_root] 1%N = Some {[1%N; 2%N]} ∧
  revocation_closure [example_child; example_root] 2%N = Some {[2%N]}.
Proof. split; vm_compute; reflexivity. Qed.
