(* ===== verification/Authority.v ===== *)
(** The policy evaluator: [crates/aseman-domain/src/authority.rs].

    The theorem: a decision allows exactly when the declarative rule [authorized] holds, the
    reason says so, the matched condition is the first of the rule that holds, and the named grant
    chain authorizes; everything unknown denies. *)

From S2P Require Import Prelude Text Core Identity Registry Capability.

Open Scope Z_scope.

Record PolicyRequest := {
  pr_subject : option Subject;
  pr_action : str;
  pr_resource : ResourceRef;
  pr_facts : gset Condition;
  pr_grants : list (list Grant);
  pr_at_millis : i64;
}.

Inductive DecisionReason :=
| Allowed | UnknownAction | ResourceMismatch | Forbidden | AuthenticationRequired
| SubjectNotAllowed | ConditionNotMet | ProviderError.
#[export] Instance DecisionReason_eq_dec : EqDecision DecisionReason.
Proof. solve_decision. Defined.

Definition DecisionReason_code (self : DecisionReason) : str :=
  match self with
  | Allowed => lit "allowed"
  | UnknownAction => lit "unknown_action"
  | ResourceMismatch => lit "resource_mismatch"
  | Forbidden => lit "forbidden"
  | AuthenticationRequired => lit "authentication_required"
  | SubjectNotAllowed => lit "subject_not_allowed"
  | ConditionNotMet => lit "condition_not_met"
  | ProviderError => lit "provider_error"
  end.

Record PolicyDecision := {
  pd_allowed : bool;
  pd_reason : DecisionReason;
  pd_matched : option Condition;
  pd_considered : list Condition;
  pd_grant_chain : list Uuid;
  pd_registry_version : str;
  pd_policy_version : str;
}.

Definition provider_error (registry_version policy_version : str) : PolicyDecision :=
  {| pd_allowed := false; pd_reason := ProviderError; pd_matched := None; pd_considered := [];
     pd_grant_chain := []; pd_registry_version := registry_version;
     pd_policy_version := policy_version |}.

Record AuditRecord := {
  audit_actor : str;
  audit_action : str;
  audit_target : str;
  audit_decision : str;
  audit_occurred_at_millis : i64;
  audit_details : str;
}.

Record AuditedDecision := { ad_record : AuditRecord; ad_sequence : u64 }.

(** The condition loop of [evaluate]: the first condition that allows, with the chain it used. *)
Fixpoint match_rule (request : PolicyRequest) (subject : Subject) (rule : list Condition)
    : option (Condition * list Uuid) :=
  match rule with
  | [] => None
  | condition :: rule =>
      match condition with
      | Public | Authenticated => Some (condition, [])
      | Never => match_rule request subject rule
      | Granted =>
          match find (λ chain, chain_authorizes chain subject (pr_action request)
                        (rr_kind (pr_resource request)) (rr_id (pr_resource request))
                        (pr_at_millis request)) (pr_grants request) with
          | Some chain => Some (condition, grant_id <$> chain)
          | None => match_rule request subject rule
          end
      | fact =>
          if bool_decide (fact ∈ pr_facts request) then Some (fact, [])
          else match_rule request subject rule
      end
  end.

Definition evaluate (registry : ActionRegistry) (request : PolicyRequest) (policy_version : str)
    : PolicyDecision :=
  let decide_ reason matched considered grant_chain :=
    {| pd_allowed := bool_decide (reason = Allowed); pd_reason := reason; pd_matched := matched;
       pd_considered := considered; pd_grant_chain := grant_chain;
       pd_registry_version := registry_version registry; pd_policy_version := policy_version |} in
  match registry_actions registry !! pr_action request with
  | None => decide_ UnknownAction None [] []
  | Some action =>
      let considered := ra_rule action in
      if negb (bool_decide (rr_kind (pr_resource request) = ra_resource action))
      then decide_ ResourceMismatch None considered []
      else if bool_decide (Never ∈ ra_rule action) then decide_ Forbidden None considered []
      else
        match pr_subject request with
        | None =>
            if bool_decide (Public ∈ ra_rule action)
            then decide_ Allowed (Some Public) considered []
            else decide_ AuthenticationRequired None considered []
        | Some subject =>
            if negb (bool_decide (subject_kind subject ∈ ra_subjects action))
            then decide_ SubjectNotAllowed None considered []
            else
              match match_rule request subject (ra_rule action) with
              | Some (condition, chain) => decide_ Allowed (Some condition) considered chain
              | None => decide_ ConditionNotMet None considered []
              end
        end
  end.

(** ** The declarative rule *)

(** What it takes for one condition to hold for an authenticated subject. *)
Definition condition_holds (request : PolicyRequest) (subject : Subject) (c : Condition) : Prop :=
  match c with
  | Public | Authenticated => True
  | Never => False
  | Granted => ∃ chain, chain ∈ pr_grants request ∧
      chain_authorizes chain subject (pr_action request) (rr_kind (pr_resource request))
        (rr_id (pr_resource request)) (pr_at_millis request) = true
  | fact => fact ∈ pr_facts request
  end.

Definition authorized (registry : ActionRegistry) (request : PolicyRequest) : Prop :=
  ∃ action, registry_actions registry !! pr_action request = Some action ∧
    rr_kind (pr_resource request) = ra_resource action ∧
    Never ∉ ra_rule action ∧
    match pr_subject request with
    | None => Public ∈ ra_rule action
    | Some subject => subject_kind subject ∈ ra_subjects action ∧
        ∃ c, c ∈ ra_rule action ∧ condition_holds request subject c
    end.

(** ** Lemmas *)

Lemma match_rule_Some request subject rule c chain :
  match_rule request subject rule = Some (c, chain) →
  c ∈ rule ∧ condition_holds request subject c ∧
  (chain = [] ∨ c = Granted ∧ ∃ g, g ∈ pr_grants request ∧ chain = grant_id <$> g ∧
     chain_authorizes g subject (pr_action request) (rr_kind (pr_resource request))
       (rr_id (pr_resource request)) (pr_at_millis request) = true).
Proof.
  induction rule as [|d rule IH]; [done|]. cbn [match_rule]. intros H.
  destruct d; try case_bool_decide; simplify_eq/=;
    try (split_and!; [by left|done|by left]);
    try (destruct (IH H) as (? & ? & ?); split_and!; [by right|done..]).
  destruct (find _ _) as [g|] eqn:Hf; simplify_eq.
  - apply find_Some in Hf as [Hg Ha]. split_and!; [by left|by exists g|]. right. eauto.
  - destruct (IH H) as (? & ? & ?). split_and!; [by right|done..].
Qed.

Lemma match_rule_None request subject rule :
  match_rule request subject rule = None → ∀ c, c ∈ rule → ¬ condition_holds request subject c.
Proof.
  induction rule as [|d rule IH]; [by intros _ c ?%not_elem_of_nil|].
  cbn [match_rule]. intros H c Hc.
  destruct d; try case_bool_decide; simplify_eq/=;
    try (apply elem_of_cons in Hc as [->|Hc]; [by cbn [condition_holds]; auto|by apply IH]).
  destruct (find _ _) as [g|] eqn:Hf; simplify_eq.
  apply elem_of_cons in Hc as [->|Hc]; [|by apply IH]. intros (g & Hg & Ha).
  rewrite find_None in Hf. rewrite (Hf g Hg) in Ha. done.
Qed.

(** ** Properties *)

(** C31. The evaluator decides the declarative rule: it allows exactly the authorized requests
    (so an unknown action, a foreign resource type, a forbidden action, an anonymous caller of a
    non-public action, a class the action does not list and a rule none of whose conditions hold
    all deny); an allowed decision names a condition of the rule that holds and, when it names a
    chain, one of the request's chains that authorizes the action. *)
Theorem evaluate_decides registry request version :
  let d := evaluate registry request version in
  (pd_allowed d = true ↔ authorized registry request) ∧
  (pd_allowed d = true ↔ pd_reason d = Allowed) ∧
  (pd_allowed d = true → ∃ c, pd_matched d = Some c ∧ c ∈ pd_considered d ∧
    match pr_subject request with
    | None => c = Public ∧ pd_grant_chain d = []
    | Some subject => condition_holds request subject c ∧
        (pd_grant_chain d ≠ [] → c = Granted ∧
         ∃ g, g ∈ pr_grants request ∧ pd_grant_chain d = grant_id <$> g ∧
           chain_authorizes g subject (pr_action request) (rr_kind (pr_resource request))
             (rr_id (pr_resource request)) (pr_at_millis request) = true)
    end).
Proof.
  unfold evaluate, authorized.
  destruct (registry_actions registry !! _) as [action|]; simpl; [|naive_solver].
  case_bool_decide; simpl; [|naive_solver]. case_bool_decide; simpl; [naive_solver|].
  destruct (pr_subject request) as [subject|].
  2:{ case_bool_decide; simpl; naive_solver. }
  case_bool_decide; simpl; [|naive_solver].
  destruct (match_rule _ _ _) as [[c chain]|] eqn:Hm; simpl.
  - apply match_rule_Some in Hm as (? & ? & ?). naive_solver.
  - pose proof (match_rule_None _ _ _ Hm). naive_solver.
Qed.

(** A store read by a grantee, allowed by its chain and denied without it. *)
Definition example_policy_request (grants : list (list Grant)) : PolicyRequest :=
  {| pr_subject := Some {| subject_kind := Workload; subject_id := 8%N |};
     pr_action := lit "store.read";
     pr_resource := {| rr_kind := lit "store"; rr_id := lit "s1" |};
     pr_facts := ∅; pr_grants := grants; pr_at_millis := 20 |}.

Example evaluate_example :
  pd_grant_chain (evaluate example_registry
    (example_policy_request [[example_child; example_root]]) (lit "1")) = [2%N; 1%N] ∧
  pd_reason (evaluate example_registry (example_policy_request []) (lit "1")) = ConditionNotMet.
Proof. split; vm_compute; reflexivity. Qed.
