(* ===== verification/Ports.v ===== *)
(** The error vocabulary of the ports: [crates/aseman-ports/src/lib.rs], and the conversion
    failures the adapters report through it; and the limit of queries that set none
    ([crates/aseman-storage/src/memory.rs]). *)

From S2P Require Import Prelude Text.

Open Scope Z_scope.

Inductive PortError :=
| PNotFound
| PConflict
| PDenied (message : str)
| PUnavailable (message : str)
| PDeadline
| PUnsupported (message : str)
| PRefused (message : str)
| PFailed (message : str).
#[export] Instance PortError_eq_dec : EqDecision PortError.
Proof. solve_decision. Defined.

Notation PortResult A := (result A PortError).

(** The [#[error]] texts. *)
Definition PortError_text (self : PortError) : str :=
  match self with
  | PNotFound => lit "not found"
  | PConflict => lit "revision conflict"
  | PDenied message => lit "operation denied: " ++ message
  | PUnavailable message => lit "dependency unavailable: " ++ message
  | PDeadline => lit "deadline exceeded"
  | PUnsupported message => lit "unsupported capability: " ++ message
  | PRefused message => lit "refused: " ++ message
  | PFailed message => message
  end.

(** [PortError::failed] of an error whose [Display] text is [message]. *)
Definition PortError_failed (message : str) : PortError := PFailed message.

(** The [Display] of [core::num::TryFromIntError]. *)
Definition try_from_int_error : str := lit "out of range integral type conversion attempted".

(** ** Queries without a limit *)

(** What a query that sets no limit answers at most: [DEFAULT_TAKE], the same in every provider. *)
Definition DEFAULT_ROWS : nat := Z.to_nat 10000.
(** The rows that such a query answers, of all that match, in the order of the query.  A query that asks
    for no order has that of the row ids, which are random; the order of the keys stands for it. *)
Definition first_rows {A} (rows : list A) : list A := take DEFAULT_ROWS rows.

Lemma first_rows_all {A} (rows : list A) : (length rows ≤ DEFAULT_ROWS)%nat → first_rows rows = rows.
Proof. unfold first_rows. apply take_ge. Qed.
Lemma first_rows_Forall {A} (P : A → Prop) (rows : list A) : Forall P rows → Forall P (first_rows rows).
Proof. apply Forall_take. Qed.
Lemma elem_of_first_rows {A} (rows : list A) x : x ∈ first_rows rows → x ∈ rows.
Proof. intros (i & Hi & _)%elem_of_take. by eapply list_elem_of_lookup_2. Qed.
