(* ===== verification/Coordination.v ===== *)
(** Fenced singleton coordination, the rules: [crates/aseman-domain/src/coordination.rs].

    The theorems: an acquisition is decided exactly as the row allows (an unexpired lease of
    another instance is never taken, a grant carries a token above every earlier one); and a
    holder that is told to work has more than the safety margin left. *)

From S2P Require Import Prelude Text.

Open Scope Z_scope.

Inductive CoordinationError :=
| InvalidName | InvalidToken | TokenOverflow | InvalidTtl | InvalidMargin.
#[export] Instance CoordinationError_eq_dec : EqDecision CoordinationError.
Proof. solve_decision. Defined.

(** The [#[error]] texts. *)
Definition CoordinationError_text (self : CoordinationError) : str :=
  match self with
  | InvalidName => lit "a lease name is 1 to 128 bytes"
  | InvalidToken => lit "a fencing token starts at 1"
  | TokenOverflow => lit "the fencing token counter is exhausted"
  | InvalidTtl => lit "a lease time to live is positive"
  | InvalidMargin => lit "a safety margin is positive"
  end.

Record LeaseName := MkLeaseName { LeaseName_as_str : str }.
#[export] Instance LeaseName_eq_dec : EqDecision LeaseName.
Proof. solve_decision. Defined.

Definition LeaseName_new (value : str) : result LeaseName CoordinationError :=
  if is_empty value || (128 <? len value) then Err InvalidName else Ok (MkLeaseName value).

Record FencingToken := MkFencingToken { FencingToken_get : u64 }.
#[export] Instance FencingToken_eq_dec : EqDecision FencingToken.
Proof. solve_decision. Defined.

Definition FencingToken_FIRST : FencingToken := MkFencingToken 1.

Definition FencingToken_from_stored (value : u64) : result FencingToken CoordinationError :=
  ok_or (if 1 <=? value then Some (MkFencingToken value) else None) InvalidToken.

Definition FencingToken_next (self : FencingToken) : result FencingToken CoordinationError :=
  ok_or (MkFencingToken <$> checked_add_u64 (FencingToken_get self) 1) TokenOverflow.

Record Lease := {
  lease_name : LeaseName;
  lease_instance : str;
  lease_token : FencingToken;
  lease_acquired_at_millis : i64;
  lease_expires_at_millis : i64;
}.
#[export] Instance Lease_eq_dec : EqDecision Lease.
Proof. solve_decision. Defined.

Record SafetyMargin := MkSafetyMargin { margin_millis : i64 }.

Definition SafetyMargin_new (millis : i64) : result SafetyMargin CoordinationError :=
  ok_or (if 0 <? millis then Some (MkSafetyMargin millis) else None) InvalidMargin.

Inductive LeaseStanding := StandingHeld | StandingRenew | StandingStop.
#[export] Instance LeaseStanding_eq_dec : EqDecision LeaseStanding.
Proof. solve_decision. Defined.

(** Rust's [i64] division truncates towards zero. *)
Definition standing (lease : Lease) (margin : SafetyMargin) (now_millis : i64) : LeaseStanding :=
  let deadline := saturating_sub_i64 (lease_expires_at_millis lease) (margin_millis margin) in
  if deadline <=? now_millis then StandingStop
  else
    let half := saturating_add_i64 (lease_acquired_at_millis lease)
      (Z.quot (saturating_sub_i64 deadline (lease_acquired_at_millis lease)) 2) in
    if half <=? now_millis then StandingRenew else StandingHeld.

Definition may_commit (token : FencingToken) (last_accepted : option FencingToken) : bool :=
  match last_accepted with
  | None => true
  | Some accepted => FencingToken_get accepted <=? FencingToken_get token
  end.

Inductive Acquisition :=
| AcqGranted (lease : Lease)
| AcqHeld (holder : str) (expires_at_millis : i64).
#[export] Instance Acquisition_eq_dec : EqDecision Acquisition.
Proof. solve_decision. Defined.

Definition plan_acquisition (name : LeaseName) (current : option Lease) (instance : str)
    (now_millis ttl_millis : i64) : result Acquisition CoordinationError :=
  if ttl_millis <=? 0 then Err InvalidTtl
  else
    let grant token :=
      Ok (AcqGranted
        {| lease_name := name; lease_instance := instance; lease_token := token;
           lease_acquired_at_millis := now_millis;
           lease_expires_at_millis := saturating_add_i64 now_millis ttl_millis |}) in
    match current with
    | Some lease =>
        if (now_millis <? lease_expires_at_millis lease)
           && negb (bool_decide (lease_instance lease = instance))
        then Ok (AcqHeld (lease_instance lease) (lease_expires_at_millis lease))
        else let? token := FencingToken_next (lease_token lease) in grant token
    | None => grant FencingToken_FIRST
    end.

Definition may_renew (current : option Lease) (held : Lease) (now_millis : i64) : bool :=
  is_some_and (λ lease,
    bool_decide (lease_instance lease = lease_instance held)
    && bool_decide (lease_token lease = lease_token held)
    && (now_millis <? lease_expires_at_millis lease)) current.

(** ** Lemmas *)

Lemma FencingToken_next_Ok t t' :
  FencingToken_next t = Ok t' ↔
  FencingToken_get t' = FencingToken_get t + 1 ∧ 0 ≤ FencingToken_get t + 1 ≤ u64_max.
Proof.
  unfold FencingToken_next, checked_add_u64. destruct t as [t], t' as [t']; simpl.
  destruct (checked _ _ _) as [z|] eqn:E; simpl.
  - apply checked_Some in E. naive_solver.
  - apply checked_None in E. split; [done|]. lia.
Qed.

(** The token a row leaves behind: 0 stands for a name that was never leased. *)
Definition row_token (current : option Lease) : u64 :=
  match current with Some l => FencingToken_get (lease_token l) | None => 0 end.

Lemma plan_acquisition_granted name current instance now ttl l :
  plan_acquisition name current instance now ttl = Ok (AcqGranted l) →
  0 < ttl ∧ lease_name l = name ∧ lease_instance l = instance ∧
  FencingToken_get (lease_token l) = row_token current + 1 ∧
  lease_acquired_at_millis l = now ∧
  lease_expires_at_millis l = saturating_add_i64 now ttl ∧
  ∀ c, current = Some c → lease_expires_at_millis c ≤ now ∨ lease_instance c = instance.
Proof.
  unfold plan_acquisition. destruct (Z.leb_spec ttl 0); [done|].
  destruct current as [c|]; [|intros [= <-]; simpl; split_and!; [lia|done..]].
  destruct (_ && _) eqn:E; [done|].
  destruct (FencingToken_next _) as [t|] eqn:Ht; [|done]. intros [= <-].
  apply FencingToken_next_Ok in Ht as [Ht _]. simpl. split_and!; try done.
  intros c' [= ->]. unbool. destruct E; [left; lia|right; done].
Qed.

(** ** Properties *)

(** Acquisition, on every branch: a non-positive time to live is refused; a lease that
    another instance holds and that has not expired is reported, with its holder, and never
    taken; everything else is granted at exactly the next token (the first one is 1) from [now]
    for the time to live, or refused when the token counter is exhausted. *)
Theorem acquisition_decided name current instance now ttl :
  (∀ c, current = Some c → in_u64 (FencingToken_get (lease_token c))) →
  plan_acquisition name current instance now ttl =
    if bool_decide (ttl ≤ 0) then Err InvalidTtl
    else match current with
    | Some c =>
        if bool_decide (now < lease_expires_at_millis c ∧ lease_instance c ≠ instance)
        then Ok (AcqHeld (lease_instance c) (lease_expires_at_millis c))
        else if bool_decide (FencingToken_get (lease_token c) = u64_max) then Err TokenOverflow
        else Ok (AcqGranted {| lease_name := name; lease_instance := instance;
               lease_token := MkFencingToken (row_token current + 1);
               lease_acquired_at_millis := now;
               lease_expires_at_millis := Z.min i64_max (Z.max i64_min (now + ttl)) |})
    | None => Ok (AcqGranted {| lease_name := name; lease_instance := instance;
               lease_token := MkFencingToken 1; lease_acquired_at_millis := now;
               lease_expires_at_millis := Z.min i64_max (Z.max i64_min (now + ttl)) |})
    end.
Proof.
  intros Hu. unfold plan_acquisition.
  assert (saturating_add_i64 now ttl = Z.min i64_max (Z.max i64_min (now + ttl))) as ->
    by (unfold saturating_add_i64, saturate; ilia).
  destruct (Z.leb_spec ttl 0); [by rewrite bool_decide_true by done|].
  rewrite bool_decide_false by lia. destruct current as [c|]; [|done].
  specialize (Hu c eq_refl). cbn [row_token].
  destruct (Z.ltb_spec now (lease_expires_at_millis c)); simpl.
  - destruct (decide (lease_instance c = instance)).
    + rewrite bool_decide_true by done. rewrite bool_decide_false by tauto. simpl.
      unfold FencingToken_next, checked_add_u64.
      case_bool_decide; [rewrite (proj2 (checked_None _ _ _)) by ilia; done|].
      rewrite checked_in by ilia. done.
    + rewrite bool_decide_false by done. rewrite bool_decide_true by tauto. done.
  - rewrite (bool_decide_false (_ ∧ _)) by lia.
    unfold FencingToken_next, checked_add_u64.
    case_bool_decide; [rewrite (proj2 (checked_None _ _ _)) by ilia; done|].
    rewrite checked_in by ilia. done.
Qed.

Definition example_lease (instance : str) (token acquired expires : Z) : Lease :=
  {| lease_name := MkLeaseName (lit "outbox"); lease_instance := instance;
     lease_token := MkFencingToken token; lease_acquired_at_millis := acquired;
     lease_expires_at_millis := expires |}.

Lemma acquisition_decided_witness :
  plan_acquisition (MkLeaseName (lit "outbox")) (Some (example_lease (lit "a") 4 0 100))
    (lit "b") 100 50 = Ok (AcqGranted (example_lease (lit "b") 5 100 150)) ∧
  plan_acquisition (MkLeaseName (lit "outbox")) (Some (example_lease (lit "a") 4 0 100))
    (lit "b") 99 50 = Ok (AcqHeld (lit "a") 100).
Proof.
  split; (rewrite acquisition_decided; [vm_compute; reflexivity|]);
    intros c [= <-]; vm_compute; split; discriminate.
Defined.

(** The safety margin: a holder is told to stop exactly when its lease has no more than the
    margin left (or would saturate), so one that is told to keep working or to renew still has
    more than the margin before the provider may hand the lease on. *)
Theorem standing_keeps_margin lease margin now :
  in_i64 (lease_expires_at_millis lease) → in_i64 now → 0 < margin_millis margin →
  (standing lease margin now ≠ StandingStop →
   now + margin_millis margin < lease_expires_at_millis lease) ∧
  (i64_min ≤ lease_expires_at_millis lease - margin_millis margin →
   now + margin_millis margin < lease_expires_at_millis lease →
   standing lease margin now ≠ StandingStop).
Proof.
  intros He Hn Hm. unfold standing. set (deadline := saturating_sub_i64 _ (margin_millis margin)).
  assert (deadline = Z.max i64_min (lease_expires_at_millis lease - margin_millis margin)) as Hd
    by (unfold deadline, saturating_sub_i64, saturate; ilia).
  destruct (Z.leb_spec deadline now).
  - split; [done|]. intros ??. exfalso. ilia.
  - split; [intros _; ilia|]. intros _ _. by destruct (_ <=? now).
Qed.

Lemma standing_keeps_margin_witness :
  standing (example_lease (lit "a") 1 0 100) (MkSafetyMargin 20) 79 ≠ StandingStop ∧
  79 + 20 < 100.
Proof.
  assert (standing (example_lease (lit "a") 1 0 100) (MkSafetyMargin 20) 79 ≠ StandingStop) as H
    by (vm_compute; discriminate).
  split; [exact H|].
  apply (proj1 (standing_keeps_margin (example_lease (lit "a") 1 0 100) (MkSafetyMargin 20) 79
    ltac:(vm_compute; split; discriminate) ltac:(vm_compute; split; discriminate)
    ltac:(reflexivity)) H).
Defined.
