(* ===== verification/Leases.v ===== *)
(** Fenced singleton coordination, the ports: the coordination and fence ports
    ([crates/aseman-ports/src/coordination.rs]) and their adapter on storage
    ([crates/aseman-capsule/src/coordination.rs]).

    The ports are classes in state-passing style ([CoordinationPort], [FencedDestination]) and
    what an implementation promises are [CoordinationSpec] and [FencedSpec], stated with the domain
    rules of [Coordination].  The storage adapter implements both and a call of it that
    nothing interrupts keeps the promises; the theorems about replicas in [Singleton] are proved from
    the promises, for calls whose row no other write changes between their look and their write.

    Here a call ([AutoCommit::decide]) is the function of the row it looks at and of the provider's
    clock, as the adapter's documentation has it.  [LeaseStorage] has the same transactions access by
    access, and shows where two of them on one row that run into each other differ from one after the
    other. *)

From S2P Require Import Prelude Text Ports Coordination.

Open Scope Z_scope.

(** ** The ports *)

Class CoordinationPort (S : Type) := {
  port_acquire : LeaseName → str → i64 → S → PortResult Acquisition * S;
  port_renew : Lease → i64 → S → PortResult (option Lease) * S;
  port_release : Lease → S → PortResult unit * S;
  port_read : LeaseName → S → PortResult (option Lease);
  port_now_millis : S → PortResult i64;
}.

Class FencedDestination (F : Type) := {
  fence_last_accepted : LeaseName → F → PortResult (option FencingToken);
  fence_accept : LeaseName → FencingToken → F → PortResult unit * F;
}.

(** The lease table after [name]'s lease became [l]. *)
Definition upd_lease (view : LeaseName → option Lease) (name : LeaseName) (l : Lease)
    : LeaseName → option Lease :=
  λ n, if decide (n = name) then Some l else view n.

(** The same lease with another expiry. *)
Definition with_expiry (l : Lease) (t : i64) : Lease :=
  {| lease_name := lease_name l; lease_instance := lease_instance l; lease_token := lease_token l;
     lease_acquired_at_millis := lease_acquired_at_millis l; lease_expires_at_millis := t |}.

(** The row is the holder's, at the holder's token. *)
Definition holds_row (row : option Lease) (held : Lease) : bool :=
  is_some_and (λ r, bool_decide (lease_instance r = lease_instance held)
                    && bool_decide (lease_token r = lease_token held)) row.

(** What an implementation of the coordination port promises: each operation decides by the
    domain rule on the row as it stands at the provider's clock, and changes only that row. *)
Class CoordinationSpec (S : Type) `{CoordinationPort S} := {
  lease_view : S → LeaseName → option Lease;
  lease_clock : S → i64;
  lease_wf : S → Prop;
  spec_wf s n l : lease_wf s → lease_view s n = Some l → lease_name l = n;
  spec_acquire s name instance ttl r s' :
    lease_wf s → port_acquire name instance ttl s = (r, s') →
    lease_wf s' ∧ lease_clock s' = lease_clock s ∧
    match r with
    | Ok (AcqGranted l) =>
        plan_acquisition name (lease_view s name) instance (lease_clock s) ttl = Ok (AcqGranted l) ∧
        ∀ n, lease_view s' n = upd_lease (lease_view s) name l n
    | Ok (AcqHeld h e) =>
        plan_acquisition name (lease_view s name) instance (lease_clock s) ttl = Ok (AcqHeld h e) ∧
        ∀ n, lease_view s' n = lease_view s n
    | Err _ => ∀ n, lease_view s' n = lease_view s n
    end;
  spec_renew s held ttl r s' :
    lease_wf s → port_renew held ttl s = (r, s') →
    lease_wf s' ∧ lease_clock s' = lease_clock s ∧
    match r with
    | Ok (Some l) =>
        may_renew (lease_view s (lease_name held)) held (lease_clock s) = true ∧ 0 < ttl ∧
        (∃ row, lease_view s (lease_name held) = Some row ∧
           l = with_expiry row (wrap_i64 (lease_clock s + ttl))) ∧
        ∀ n, lease_view s' n = upd_lease (lease_view s) (lease_name held) l n
    | Ok None =>
        may_renew (lease_view s (lease_name held)) held (lease_clock s) = false ∧
        ∀ n, lease_view s' n = lease_view s n
    | Err _ => ∀ n, lease_view s' n = lease_view s n
    end;
  spec_release s held r s' :
    lease_wf s → port_release held s = (r, s') →
    lease_wf s' ∧ lease_clock s' = lease_clock s ∧
    match r with
    | Ok _ =>
        match lease_view s (lease_name held) with
        | Some row =>
            if holds_row (Some row) held
            then ∀ n, lease_view s' n = upd_lease (lease_view s) (lease_name held)
                   (with_expiry row (Z.max (lease_acquired_at_millis row) (lease_clock s))) n
            else ∀ n, lease_view s' n = lease_view s n
        | None => ∀ n, lease_view s' n = lease_view s n
        end
    | Err _ => ∀ n, lease_view s' n = lease_view s n
    end;
  spec_now s t : port_now_millis s = Ok t → t = lease_clock s;
}.

(** What a fenced destination promises: it accepts by [may_commit] and remembers the token. *)
Class FencedSpec (F : Type) `{FencedDestination F} := {
  fence_view : F → LeaseName → option FencingToken;
  spec_accept f name token r f' :
    fence_accept name token f = (r, f') →
    match r with
    | Ok _ => may_commit token (fence_view f name) = true ∧
        ∀ n, fence_view f' n = if decide (n = name) then Some token else fence_view f n
    | Err _ => ∀ n, fence_view f' n = fence_view f n
    end;
}.

(** ** The storage adapter *)

(** A row of [core.coordination_lease]. *)
Record CoordinationLeaseRow := {
  cl_instance : str;
  cl_token : i64;
  cl_acquired_at_millis : i64;
  cl_expires_at_millis : i64;
}.

(** The two tables, the provider's clock, and the failure it answers with while unreachable. *)
Record CoordinationDb := {
  db_lease : gmap str CoordinationLeaseRow;
  db_fence : gmap str i64;
  db_now_millis : i64;
  db_failure : option PortError;
}.

Definition db_put_lease (db : CoordinationDb) (key : str) (row : CoordinationLeaseRow)
    : CoordinationDb :=
  {| db_lease := <[key := row]> (db_lease db); db_fence := db_fence db;
     db_now_millis := db_now_millis db; db_failure := db_failure db |}.

Definition db_put_fence (db : CoordinationDb) (key : str) (token : i64) : CoordinationDb :=
  {| db_lease := db_lease db; db_fence := <[key := token]> (db_fence db);
     db_now_millis := db_now_millis db; db_failure := db_failure db |}.

Definition token (value : i64) : PortResult FencingToken :=
  let? v := ok_or (u64_try_from value) (PortError_failed try_from_int_error) in
  map_err (λ e, PortError_failed (CoordinationError_text e)) (FencingToken_from_stored v).

Definition stored (token : FencingToken) : PortResult i64 :=
  ok_or (i64_try_from (FencingToken_get token)) (PortError_failed try_from_int_error).

Definition lease (name : LeaseName) (row : CoordinationLeaseRow) : PortResult Lease :=
  let? t := token (cl_token row) in
  Ok {| lease_name := name; lease_instance := cl_instance row; lease_token := t;
        lease_acquired_at_millis := cl_acquired_at_millis row;
        lease_expires_at_millis := cl_expires_at_millis row |}.

(** [Option::transpose] of a mapped row. *)
Definition transpose {A E} (o : option (result A E)) : result (option A) E :=
  match o with None => Ok None | Some (Ok a) => Ok (Some a) | Some (Err e) => Err e end.

Definition StorageCoordination_acquire (name : LeaseName) (instance : str) (ttl_millis : i64)
    (db : CoordinationDb) : PortResult Acquisition * CoordinationDb :=
  match db_failure db with
  | Some error => (Err error, db)
  | None =>
      let now := db_now_millis db in
      let current := db_lease db !! LeaseName_as_str name in
      match transpose (lease name <$> current) with
      | Err error => (Err error, db)
      | Ok current_lease =>
          match plan_acquisition name current_lease instance now ttl_millis with
          | Err error => (Err (PortError_failed (CoordinationError_text error)), db)
          | Ok (AcqHeld holder expires) => (Ok (AcqHeld holder expires), db)
          | Ok (AcqGranted granted) =>
              match stored (lease_token granted) with
              | Err error => (Err error, db)
              | Ok token =>
                  (* [update] and [create] write the same four columns *)
                  (Ok (AcqGranted granted),
                   db_put_lease db (LeaseName_as_str name)
                     {| cl_instance := lease_instance granted; cl_token := token;
                        cl_acquired_at_millis := lease_acquired_at_millis granted;
                        cl_expires_at_millis := lease_expires_at_millis granted |})
              end
          end
      end
  end.

Definition StorageCoordination_renew (held : Lease) (ttl_millis : i64) (db : CoordinationDb)
    : PortResult (option Lease) * CoordinationDb :=
  if ttl_millis <=? 0 then (Err (PDenied (lit "a lease time to live is positive")), db)
  else match stored (lease_token held) with
  | Err error => (Err error, db)
  | Ok held_token =>
      match db_failure db with
      | Some error => (Err error, db)
      | None =>
          let now := db_now_millis db in
          match db_lease db !! LeaseName_as_str (lease_name held) with
          | None => (Ok None, db)
          | Some row =>
              if negb (bool_decide (cl_instance row = lease_instance held))
                 || negb (cl_token row =? held_token) || (cl_expires_at_millis row <=? now)
              then (Ok None, db)
              else
                let renewed :=
                  {| cl_instance := cl_instance row; cl_token := cl_token row;
                     cl_acquired_at_millis := cl_acquired_at_millis row;
                     cl_expires_at_millis := wrap_i64 (now + ttl_millis) |} in
                match lease (lease_name held) renewed with
                | Err error => (Err error, db)
                | Ok l => (Ok (Some l), db_put_lease db (LeaseName_as_str (lease_name held)) renewed)
                end
          end
      end
  end.

Definition StorageCoordination_release (held : Lease) (db : CoordinationDb)
    : PortResult unit * CoordinationDb :=
  match stored (lease_token held) with
  | Err error => (Err error, db)
  | Ok held_token =>
      match db_failure db with
      | Some error => (Err error, db)
      | None =>
          let now := db_now_millis db in
          match db_lease db !! LeaseName_as_str (lease_name held) with
          | Some row =>
              if bool_decide (cl_instance row = lease_instance held)
                 && (cl_token row =? held_token)
              then (Ok tt, db_put_lease db (LeaseName_as_str (lease_name held))
                     {| cl_instance := cl_instance row; cl_token := cl_token row;
                        cl_acquired_at_millis := cl_acquired_at_millis row;
                        cl_expires_at_millis := Z.max (cl_acquired_at_millis row) now |})
              else (Ok tt, db)
          | None => (Ok tt, db)
          end
      end
  end.

Definition StorageCoordination_read (name : LeaseName) (db : CoordinationDb)
    : PortResult (option Lease) :=
  match db_failure db with
  | Some error => Err error
  | None => transpose (lease name <$> db_lease db !! LeaseName_as_str name)
  end.

Definition StorageCoordination_now_millis (db : CoordinationDb) : PortResult i64 :=
  match db_failure db with Some error => Err error | None => Ok (db_now_millis db) end.

Definition StorageCoordination_last_accepted (name : LeaseName) (db : CoordinationDb)
    : PortResult (option FencingToken) :=
  match db_failure db with
  | Some error => Err error
  | None => transpose (token <$> db_fence db !! LeaseName_as_str name)
  end.

Definition StorageCoordination_accept (name : LeaseName) (accepted : FencingToken)
    (db : CoordinationDb) : PortResult unit * CoordinationDb :=
  match stored accepted with
  | Err error => (Err error, db)
  | Ok accepted =>
      match db_failure db with
      | Some error => (Err error, db)
      | None =>
          match db_fence db !! LeaseName_as_str name with
          | Some row =>
              if accepted <? row then (Err PConflict, db)
              else (Ok tt, db_put_fence db (LeaseName_as_str name) accepted)
          | None => (Ok tt, db_put_fence db (LeaseName_as_str name) accepted)
          end
      end
  end.

#[export] Instance storage_coordination : CoordinationPort CoordinationDb := {|
  port_acquire := StorageCoordination_acquire;
  port_renew := StorageCoordination_renew;
  port_release := StorageCoordination_release;
  port_read := StorageCoordination_read;
  port_now_millis := StorageCoordination_now_millis;
|}.

#[export] Instance storage_fence : FencedDestination CoordinationDb := {|
  fence_last_accepted := StorageCoordination_last_accepted;
  fence_accept := StorageCoordination_accept;
|}.

(** ** The storage adapter keeps the promises *)

(** Rows hold tokens that were issued: at least 1. *)
Definition db_wf (db : CoordinationDb) : Prop :=
  map_Forall (λ _ row, 1 ≤ cl_token row ≤ i64_max) (db_lease db).

Definition row_lease (name : LeaseName) (row : CoordinationLeaseRow) : Lease :=
  {| lease_name := name; lease_instance := cl_instance row;
     lease_token := MkFencingToken (cl_token row);
     lease_acquired_at_millis := cl_acquired_at_millis row;
     lease_expires_at_millis := cl_expires_at_millis row |}.

Definition db_lease_view (db : CoordinationDb) (name : LeaseName) : option Lease :=
  row_lease name <$> db_lease db !! LeaseName_as_str name.

Definition db_fence_view (db : CoordinationDb) (name : LeaseName) : option FencingToken :=
  MkFencingToken <$> db_fence db !! LeaseName_as_str name.

Lemma lease_row name row :
  1 ≤ cl_token row ≤ i64_max → lease name row = Ok (row_lease name row).
Proof.
  intros Hr. unfold lease, token, u64_try_from. rewrite checked_in by ilia. simpl.
  unfold FencingToken_from_stored. destruct (Z.leb_spec 1 (cl_token row)); [done|lia].
Qed.

Lemma stored_Ok t v : stored t = Ok v ↔ v = FencingToken_get t ∧ in_i64 (FencingToken_get t).
Proof.
  unfold stored, i64_try_from. destruct (checked _ _ _) as [z|] eqn:E; simpl.
  - apply checked_Some in E as [-> ?]. split; [by intros [= <-]|]. by intros [-> _].
  - apply checked_None in E. split; [done|]. by intros [_ ?].
Qed.

Lemma view_put_lease db name row n :
  db_lease_view (db_put_lease db (LeaseName_as_str name) row) n =
  upd_lease (db_lease_view db) name (row_lease name row) n.
Proof.
  unfold db_lease_view, upd_lease; simpl. case_decide as E.
  - subst. by rewrite lookup_insert_eq.
  - rewrite lookup_insert_ne; [done|]. destruct n, name; simpl. congruence.
Qed.

Lemma db_wf_put db key row :
  db_wf db → 1 ≤ cl_token row ≤ i64_max → db_wf (db_put_lease db key row).
Proof. intros ??. by apply map_Forall_insert_2. Qed.

Lemma current_lease db name :
  db_wf db → transpose (lease name <$> db_lease db !! LeaseName_as_str name)
             = Ok (db_lease_view db name).
Proof.
  intros Hwf. unfold db_lease_view.
  destruct (db_lease db !! LeaseName_as_str name) as [row|] eqn:E; simpl; [|done].
  by rewrite lease_row by (by eapply Hwf).
Qed.

Lemma view_token_range db name l :
  db_wf db → db_lease_view db name = Some l → 1 ≤ FencingToken_get (lease_token l) ≤ i64_max.
Proof.
  intros Hwf. unfold db_lease_view.
  destruct (db_lease db !! LeaseName_as_str name) as [row|] eqn:E; simpl; [|done].
  intros [= <-]. simpl. by eapply Hwf.
Qed.

Lemma storage_acquire_ok db name instance ttl r db' :
  db_wf db → StorageCoordination_acquire name instance ttl db = (r, db') →
  db_wf db' ∧ db_now_millis db' = db_now_millis db ∧
  match r with
  | Ok (AcqGranted l) =>
      plan_acquisition name (db_lease_view db name) instance (db_now_millis db) ttl
        = Ok (AcqGranted l) ∧
      ∀ n, db_lease_view db' n = upd_lease (db_lease_view db) name l n
  | Ok (AcqHeld h e) =>
      plan_acquisition name (db_lease_view db name) instance (db_now_millis db) ttl
        = Ok (AcqHeld h e) ∧ ∀ n, db_lease_view db' n = db_lease_view db n
  | Err _ => ∀ n, db_lease_view db' n = db_lease_view db n
  end.
Proof.
  intros Hwf. unfold StorageCoordination_acquire. rewrite current_lease by done.
  destruct (db_failure db); [by intros [= <- <-]|].
  destruct (plan_acquisition _ _ _ _ _) as [[l|h e]|] eqn:Hp; [|by intros [= <- <-]..].
  destruct (stored (lease_token l)) as [t|] eqn:Hs; [|by intros [= <- <-]].
  intros [= <- <-]. apply stored_Ok in Hs as [-> Ht].
  apply plan_acquisition_granted in Hp as Hg.
  destruct Hg as (_ & Hname & _ & Htok & _).
  assert (1 ≤ FencingToken_get (lease_token l)) as H1.
  { rewrite Htok. unfold row_token. destruct (db_lease_view db name) as [c|] eqn:Hc; [|lia].
    apply view_token_range in Hc; [lia|done]. }
  split_and!; [apply db_wf_put; [done|simpl; ilia]|done|done|].
  intros n. rewrite view_put_lease. unfold upd_lease. case_decide; [|done].
  f_equal. destruct l as [ln li [lt] la le]; simpl in *. by subst.
Qed.

Lemma storage_renew_ok db held ttl r db' :
  db_wf db → StorageCoordination_renew held ttl db = (r, db') →
  db_wf db' ∧ db_now_millis db' = db_now_millis db ∧
  match r with
  | Ok (Some l) =>
      may_renew (db_lease_view db (lease_name held)) held (db_now_millis db) = true ∧ 0 < ttl ∧
      (∃ row, db_lease_view db (lease_name held) = Some row ∧
         l = with_expiry row (wrap_i64 (db_now_millis db + ttl))) ∧
      ∀ n, db_lease_view db' n = upd_lease (db_lease_view db) (lease_name held) l n
  | Ok None =>
      may_renew (db_lease_view db (lease_name held)) held (db_now_millis db) = false ∧
      ∀ n, db_lease_view db' n = db_lease_view db n
  | Err _ => ∀ n, db_lease_view db' n = db_lease_view db n
  end.
Proof.
  intros Hwf. unfold StorageCoordination_renew. destruct (Z.leb_spec ttl 0); [by intros [= <- <-]|].
  destruct (stored (lease_token held)) as [t|] eqn:Hs; [|by intros [= <- <-]].
  apply stored_Ok in Hs as [-> Ht]. destruct (db_failure db); [by intros [= <- <-]|].
  change (db_lease_view db (lease_name held)) with
    (row_lease (lease_name held) <$> db_lease db !! LeaseName_as_str (lease_name held)).
  destruct (db_lease db !! LeaseName_as_str (lease_name held)) as [row|] eqn:E; simpl;
    [|by intros [= <- <-]].
  assert (bool_decide (MkFencingToken (cl_token row) = lease_token held)
          = (cl_token row =? FencingToken_get (lease_token held))) as ->.
  { destruct (lease_token held) as [h]; simpl.
    destruct (Z.eqb_spec (cl_token row) h); case_bool_decide; naive_solver. }
  destruct (_ || _) eqn:G.
  - intros [= <- <-]. split_and!; [done..| |done].
    case_bool_decide; simpl in *; [|done]. destruct (_ =? _); simpl in *; [|done]. lia.
  - pose proof (Hwf _ _ E) as Hrow. rewrite lease_row by done. intros [= <- <-]. unbool.
    destruct G as [[Hi Hk] He]. split; [by apply db_wf_put|]. split; [done|].
    split; [by unbool|]. split; [lia|]. split; [by eexists|].
    intros n. by rewrite view_put_lease.
Qed.

Lemma storage_release_ok db held r db' :
  db_wf db → StorageCoordination_release held db = (r, db') →
  db_wf db' ∧ db_now_millis db' = db_now_millis db ∧
  match r with
  | Ok _ =>
      match db_lease_view db (lease_name held) with
      | Some row =>
          if holds_row (Some row) held
          then ∀ n, db_lease_view db' n = upd_lease (db_lease_view db) (lease_name held)
                 (with_expiry row (Z.max (lease_acquired_at_millis row) (db_now_millis db))) n
          else ∀ n, db_lease_view db' n = db_lease_view db n
      | None => ∀ n, db_lease_view db' n = db_lease_view db n
      end
  | Err _ => ∀ n, db_lease_view db' n = db_lease_view db n
  end.
Proof.
  intros Hwf. unfold StorageCoordination_release.
  destruct (stored (lease_token held)) as [t|] eqn:Hs; [|by intros [= <- <-]].
  apply stored_Ok in Hs as [-> Ht]. destruct (db_failure db); [by intros [= <- <-]|].
  change (db_lease_view db (lease_name held)) with
    (row_lease (lease_name held) <$> db_lease db !! LeaseName_as_str (lease_name held)).
  destruct (db_lease db !! LeaseName_as_str (lease_name held)) as [row|] eqn:E; simpl;
    [|by intros [= <- <-]].
  assert (bool_decide (MkFencingToken (cl_token row) = lease_token held)
          = (cl_token row =? FencingToken_get (lease_token held))) as ->.
  { destruct (lease_token held) as [h]; simpl.
    destruct (Z.eqb_spec (cl_token row) h); case_bool_decide; naive_solver. }
  destruct (_ && _) eqn:G; intros [= <- <-]; [|done]. split_and!; [|done|].
  - apply db_wf_put; [done|]. by apply (Hwf _ _ E).
  - intros n. by rewrite view_put_lease.
Qed.

#[export] Program Instance storage_coordination_spec : CoordinationSpec CoordinationDb := {|
  lease_view := db_lease_view; lease_clock := db_now_millis; lease_wf := db_wf;
  spec_acquire := storage_acquire_ok; spec_renew := storage_renew_ok;
  spec_release := storage_release_ok;
|}.
Next Obligation.
  intros s n l _. unfold db_lease_view. destruct (_ !! _); simpl; [|done]. by intros [= <-].
Qed.
Next Obligation.
  intros s t. simpl. unfold StorageCoordination_now_millis. by destruct (db_failure s); intros [= ->].
Qed.

Lemma storage_accept_ok db name t r db' :
  StorageCoordination_accept name t db = (r, db') →
  match r with
  | Ok _ => may_commit t (db_fence_view db name) = true ∧
      ∀ n, db_fence_view db' n = if decide (n = name) then Some t else db_fence_view db n
  | Err _ => ∀ n, db_fence_view db' n = db_fence_view db n
  end.
Proof.
  unfold StorageCoordination_accept.
  destruct (stored t) as [v|] eqn:Hs; [|by intros [= <- <-]].
  apply stored_Ok in Hs as [-> Ht]. destruct (db_failure db); [by intros [= <- <-]|].
  assert (∀ n, db_fence_view (db_put_fence db (LeaseName_as_str name) (FencingToken_get t)) n
    = if decide (n = name) then Some t else db_fence_view db n) as Hput.
  { intros n. unfold db_fence_view; simpl. case_decide as E.
    - subst. rewrite lookup_insert_eq. by destruct t.
    - rewrite lookup_insert_ne; [done|]. destruct n, name; simpl. congruence. }
  change (db_fence_view db name) with (MkFencingToken <$> db_fence db !! LeaseName_as_str name).
  destruct (db_fence db !! LeaseName_as_str name) as [row|]; simpl; [|by intros [= <- <-]].
  destruct (Z.ltb_spec (FencingToken_get t) row); intros [= <- <-]; [done|].
  split; [lia|done].
Qed.

#[export] Instance storage_fence_spec : FencedSpec CoordinationDb := {|
  fence_view := db_fence_view; spec_accept := storage_accept_ok;
|}.

(** ** The adapter decides by the rules *)

Section decides.
Context (db : CoordinationDb) (Hwf : db_wf db) (Hup : db_failure db = None).

Lemma storage_acquire_decides name instance ttl :
  0 < ttl → row_token (db_lease_view db name) < i64_max →
  ∃ a, plan_acquisition name (db_lease_view db name) instance (db_now_millis db) ttl = Ok a ∧
    (StorageCoordination_acquire name instance ttl db).1 = Ok a ∧
    match a with
    | AcqGranted l =>
        StorageCoordination_read name (StorageCoordination_acquire name instance ttl db).2
          = Ok (Some l)
    | AcqHeld _ _ => (StorageCoordination_acquire name instance ttl db).2 = db
    end.
Proof.
  intros Httl Htok.
  assert (∃ a, plan_acquisition name (db_lease_view db name) instance (db_now_millis db) ttl
            = Ok a) as [a Ha].
  { unfold plan_acquisition. destruct (Z.leb_spec ttl 0); [lia|].
    destruct (db_lease_view db name) as [c|] eqn:Hc; [|by eexists].
    case_match; [by eexists|]. apply view_token_range in Hc; [|done]. simpl in Htok.
    unfold FencingToken_next, checked_add_u64. rewrite checked_in by ilia. by eexists. }
  exists a. split; [done|]. unfold StorageCoordination_acquire.
  rewrite Hup, current_lease, Ha by done. destruct a as [l|h e]; [|done].
  apply plan_acquisition_granted in Ha as (_ & Hn & _ & Hk & _).
  assert (1 ≤ FencingToken_get (lease_token l)) as H1.
  { rewrite Hk. destruct (db_lease_view db name) as [c|] eqn:Hc; simpl; [|lia].
    apply view_token_range in Hc; [lia|done]. }
  assert (stored (lease_token l) = Ok (FencingToken_get (lease_token l))) as ->
    by (apply stored_Ok; split; [done|ilia]).
  split; [done|]. unfold StorageCoordination_read; simpl. rewrite Hup, lookup_insert_eq. simpl.
  rewrite lease_row by (simpl; ilia). destruct l as [ln li [lt] la le]; simpl in *. by subst.
Qed.

Lemma storage_renew_decides held ttl :
  0 < ttl → in_i64 (FencingToken_get (lease_token held)) →
  ∃ o, (StorageCoordination_renew held ttl db).1 = Ok o ∧
    is_some o = may_renew (db_lease_view db (lease_name held)) held (db_now_millis db).
Proof.
  intros Httl Hheld. destruct (StorageCoordination_renew held ttl db) as [r db'] eqn:E.
  pose proof (storage_renew_ok _ _ _ _ _ Hwf E) as (_ & _ & Hr).
  destruct r as [[l|]|e]; [exists (Some l)|exists None|exfalso]; simpl.
  - by destruct Hr as (-> & _).
  - by destruct Hr as (-> & _).
  - revert E. unfold StorageCoordination_renew. destruct (Z.leb_spec ttl 0); [lia|].
    rewrite (proj2 (stored_Ok _ (FencingToken_get (lease_token held)))) by done.
    rewrite Hup. destruct (_ !! _) as [row|] eqn:Hrow; [|done].
    rewrite lease_row by (simpl; by eapply (Hwf _ _ Hrow)). by destruct (_ || _).
Qed.

Lemma storage_accept_decides name t :
  1 ≤ FencingToken_get t ≤ i64_max →
  if may_commit t (db_fence_view db name)
  then (StorageCoordination_accept name t db).1 = Ok tt ∧
       StorageCoordination_last_accepted name (StorageCoordination_accept name t db).2 = Ok (Some t)
  else StorageCoordination_accept name t db = (Err PConflict, db).
Proof.
  intros Ht. unfold StorageCoordination_accept, StorageCoordination_last_accepted.
  rewrite (proj2 (stored_Ok t (FencingToken_get t))) by (split; [done|ilia]). rewrite Hup.
  change (db_fence_view db name) with (MkFencingToken <$> db_fence db !! LeaseName_as_str name).
  assert (∀ k, k = FencingToken_get t → transpose (token <$> Some k) = Ok (Some t)) as Hback.
  { intros k ->. simpl. unfold token, u64_try_from, FencingToken_from_stored.
    rewrite checked_in by ilia. simpl. destruct (Z.leb_spec 1 (FencingToken_get t)); [|lia].
    by destruct t. }
  destruct (db_fence db !! LeaseName_as_str name) as [f|] eqn:Hf; simpl.
  - destruct (Z.leb_spec f (FencingToken_get t)).
    + destruct (Z.ltb_spec (FencingToken_get t) f); [lia|]. simpl.
      rewrite Hup, lookup_insert_eq. auto.
    + destruct (Z.ltb_spec (FencingToken_get t) f); [done|lia].
  - rewrite Hup, lookup_insert_eq. auto.
Qed.

End decides.

(** ** Property *)

(** While the provider answers, the storage adapter decides exactly by the domain rules on
    the stored row: an acquisition's outcome is [plan_acquisition]'s and a granted lease reads
    back, a renewal lands exactly when [may_renew] says so, and a destination accepts exactly when
    [may_commit] says so and then remembers the token. *)
Theorem storage_adapter_decides db name instance ttl held t :
  db_wf db → db_failure db = None → 0 < ttl →
  row_token (db_lease_view db name) < i64_max →
  in_i64 (FencingToken_get (lease_token held)) → 1 ≤ FencingToken_get t ≤ i64_max →
  (∃ a, plan_acquisition name (db_lease_view db name) instance (db_now_millis db) ttl = Ok a ∧
     (port_acquire name instance ttl db).1 = Ok a ∧
     match a with
     | AcqGranted l => port_read name (port_acquire name instance ttl db).2 = Ok (Some l)
     | AcqHeld _ _ => (port_acquire name instance ttl db).2 = db
     end) ∧
  (∃ o, (port_renew held ttl db).1 = Ok o ∧
     is_some o = may_renew (db_lease_view db (lease_name held)) held (db_now_millis db)) ∧
  (if may_commit t (db_fence_view db name)
   then (fence_accept name t db).1 = Ok tt ∧
        fence_last_accepted name (fence_accept name t db).2 = Ok (Some t)
   else fence_accept name t db = (Err PConflict, db)).
Proof.
  intros Hwf Hup Httl Htok Hheld Ht. split_and!.
  - by apply storage_acquire_decides.
  - by apply storage_renew_decides.
  - by apply storage_accept_decides.
Qed.

(** A provider with nothing stored, and one where [a]'s lease of [outbox] has expired. *)
Definition example_db : CoordinationDb :=
  {| db_lease := ∅; db_fence := ∅; db_now_millis := 1000; db_failure := None |}.

Definition example_db2 : CoordinationDb :=
  {| db_lease := {[lit "outbox" := {| cl_instance := lit "a"; cl_token := 1;
       cl_acquired_at_millis := 1000; cl_expires_at_millis := 1100 |}]};
     db_fence := ∅; db_now_millis := 1200; db_failure := None |}.

Lemma storage_adapter_decides_witness :
  (port_acquire (MkLeaseName (lit "outbox")) (lit "b") 100 example_db2).1 =
    Ok (AcqGranted (example_lease (lit "b") 2 1200 1300)) ∧
  (fence_accept (MkLeaseName (lit "outbox")) (MkFencingToken 2) example_db2).1 = Ok tt.
Proof.
  destruct (storage_adapter_decides example_db2 (MkLeaseName (lit "outbox")) (lit "b") 100
    (example_lease (lit "a") 1 1000 1100) (MkFencingToken 2)) as ((a & Ha & Hacq & _) & _ & Hc).
  - apply map_Forall_singleton. vm_compute. split; discriminate.
  - reflexivity.
  - reflexivity.
  - reflexivity.
  - vm_compute. split; discriminate.
  - vm_compute. split; discriminate.
  - split; [|apply (proj1 Hc)]. rewrite Hacq. f_equal.
    vm_compute in Ha. injection Ha as <-. reflexivity.
Defined.
