(* ===== verification/Singleton.v ===== *)
(** Singleton work under a fenced lease: [crates/aseman-application/src/singleton.rs], and any
    number of replicas running it against one coordination provider and one fenced destination.

    The replicas interleave step by step: reading the provider's clock, looking at the row, deciding
    and writing it, committing an effect at the destination, finishing, resigning, crashing; replies
    get lost, the provider becomes unreachable and comes back, and its clock moves forward at any
    point.  A replica may hold its token across any of this, which is the paused holder that
    fencing is for.

    A port call is a transaction that looks and then writes, and other calls may commit in between.
    What the theorems need of the provider and the destination is that each call decides by the domain
    rules on what it saw ([CoordinationSpec], [FencedSpec]) and that no other write of the same row
    falls between its look and its write ([lands]).  The storage adapter keeps the first and does not
    enforce the second: [LeaseStorage] has the runs where two calls on one row overlap and both are
    granted.

    On these conditions: two replicas never hold unexpired leases of one name; a token is issued to
    one replica and tokens of a name rise; and a destination's accepted effects of a name never go
    back to an earlier holder. *)

From S2P Require Import Prelude Text Ports Coordination Leases.

Open Scope Z_scope.

Inductive Pass :=
| PassRan (token : FencingToken)
| PassStandby (holder : str)
| PassYielded.

(** The fields of [Singleton] but the port, which is the store argument of the operations. *)
Record Singleton := {
  sg_name : LeaseName;
  sg_instance : str;
  sg_ttl_millis : i64;
  sg_margin : SafetyMargin;
  sg_held : option Lease;
}.

Definition Singleton_new (name : LeaseName) (instance : str) (ttl_millis : i64)
    (margin : SafetyMargin) : Singleton :=
  {| sg_name := name; sg_instance := instance; sg_ttl_millis := ttl_millis; sg_margin := margin;
     sg_held := None |}.

Definition Singleton_lease (self : Singleton) : option Lease := sg_held self.

Definition set_held (self : Singleton) (held : option Lease) : Singleton :=
  {| sg_name := sg_name self; sg_instance := sg_instance self;
     sg_ttl_millis := sg_ttl_millis self; sg_margin := sg_margin self; sg_held := held |}.

Section client.
Context {S : Type} `{CoordinationPort S}.

Definition Singleton_acquire (self : Singleton) (s : S) : PortResult Pass * Singleton * S :=
  match port_acquire (sg_name self) (sg_instance self) (sg_ttl_millis self) s with
  | (Err error, s) => (Err error, self, s)
  | (Ok (AcqGranted lease), s) =>
      (Ok (PassRan (lease_token lease)), set_held self (Some lease), s)
  | (Ok (AcqHeld holder _), s) => (Ok (PassStandby holder), self, s)
  end.

(** [Singleton::standing] from the point where the provider answered [now]. *)
Definition Singleton_standing_at (self : Singleton) (now : i64) (s : S)
    : PortResult Pass * Singleton * S :=
  match sg_held self with
  | None => Singleton_acquire self s
  | Some lease =>
      match standing lease (sg_margin self) now with
      | StandingHeld => (Ok (PassRan (lease_token lease)), self, s)
      | StandingRenew =>
          match port_renew lease (sg_ttl_millis self) s with
          | (Err error, s) => (Err error, self, s)
          | (Ok (Some renewed), s) =>
              (Ok (PassRan (lease_token renewed)), set_held self (Some renewed), s)
          | (Ok None, s) => (Ok PassYielded, set_held self None, s)
          end
      | StandingStop =>
          (* the outcome of the release is ignored *)
          (Ok PassYielded, set_held self None, (port_release lease s).2)
      end
  end.

Definition Singleton_standing (self : Singleton) (s : S) : PortResult Pass * Singleton * S :=
  match port_now_millis s with
  | Err error => (Err error, set_held self None, s)
  | Ok now => Singleton_standing_at self now s
  end.

Definition Singleton_run {T} (self : Singleton) (work : FencingToken → T) (s : S)
    : PortResult (Pass * option T) * Singleton * S :=
  match Singleton_standing self s with
  | (Err error, self, s) => (Err error, self, s)
  | (Ok (PassRan token), self, s) => (Ok (PassRan token, Some (work token)), self, s)
  | (Ok other, self, s) => (Ok (other, None), self, s)
  end.

Definition Singleton_resign (self : Singleton) (s : S) : PortResult unit * Singleton * S :=
  match sg_held self with
  | Some lease => let (r, s) := port_release lease s in (r, set_held self None, s)
  | None => (Ok tt, self, s)
  end.

End client.

(** ** Replicas *)

Section system.
Context {S F : Type} `{CoordinationSpec S} `{FencedSpec F}.

(** One replica: its job, the clock reading of the pass it is in, the token of the work it is doing,
    and the store as the port call it is inside saw it. *)
Record Replica := {
  rep_job : Singleton;
  rep_sampled : option i64;
  rep_working : option FencingToken;
  rep_seen : option S;
}.

(** The provider's clock stays below [horizon], where adding a time to live cannot wrap. *)
Variable horizon : Z.

(** An issued token or an accepted effect. *)
Notation entry := (LeaseName * Z * str)%type.

(** The store, the destination, the replicas; and what was issued and accepted so far. *)
Record World := {
  w_store : S;
  w_dest : F;
  w_replicas : list Replica;
  w_issued : list entry;
  w_accepted : list entry;
}.

Definition put_replica (w : World) (i : nat) (r : Replica) : World :=
  {| w_store := w_store w; w_dest := w_dest w; w_replicas := <[i := r]> (w_replicas w);
     w_issued := w_issued w; w_accepted := w_accepted w |}.

(** The token that a port call issued for [name], seen in the lease row. *)
Definition issued_by (name : LeaseName) (s s' : S) : list entry :=
  match lease_view s' name with
  | Some l =>
      if row_token (lease_view s name) =? FencingToken_get (lease_token l) then []
      else [(name, FencingToken_get (lease_token l), lease_instance l)]
  | None => []
  end.

Definition put_store (w : World) (name : LeaseName) (s' : S) : World :=
  {| w_store := s'; w_dest := w_dest w; w_replicas := w_replicas w;
     w_issued := w_issued w ++ issued_by name (w_store w) s'; w_accepted := w_accepted w |}.

Definition idle (job : Singleton) : Replica :=
  {| rep_job := job; rep_sampled := None; rep_working := None; rep_seen := None |}.

(** A port call is a transaction that looks at the row of its name and writes it later.  A call that saw
    [s0], which alone it would have turned into [s1], writes when the store is [s] and leaves [s']: its
    own row as it decided it, at the clock of its look, and every other row as it now is.  The row it
    looked at must be as it was seen: no other write of it fell in between. *)
Record lands (name : LeaseName) (s0 s1 s s' : S) : Prop := {
  lands_calm : lease_view s name = lease_view s0 name;
  lands_wf : lease_wf s';
  lands_clock : lease_clock s' = lease_clock s;
  lands_own : lease_view s' name = lease_view s1 name;
  lands_others : ∀ n, n ≠ name → lease_view s' n = lease_view s n;
}.

Inductive step (w : World) : World → Prop :=
| StepProvider s' :
    (** time passes, the provider goes away or comes back *)
    lease_wf s' → (∀ n, lease_view s' n = lease_view (w_store w) n) →
    lease_clock (w_store w) ≤ lease_clock s' ≤ horizon →
    step w {| w_store := s'; w_dest := w_dest w; w_replicas := w_replicas w;
              w_issued := w_issued w; w_accepted := w_accepted w |}
| StepSample i job now :
    (** [run] begins: the provider's clock is read *)
    w_replicas w !! i = Some (idle job) → port_now_millis (w_store w) = Ok now →
    step w (put_replica w i
      {| rep_job := job; rep_sampled := Some now; rep_working := None; rep_seen := None |})
| StepSampleFailed i job error :
    (** the provider does not answer: the lease is dropped *)
    w_replicas w !! i = Some (idle job) → port_now_millis (w_store w) = Err error →
    step w (put_replica w i (idle (set_held job None)))
| StepLook i rep :
    (** a port call begins, or begins again after a conflict: its transaction looks at the row *)
    w_replicas w !! i = Some rep → rep_working rep = None →
    step w (put_replica w i
      {| rep_job := rep_job rep; rep_sampled := rep_sampled rep; rep_working := None;
         rep_seen := Some (w_store w) |})
| StepDecide i job now s0 r job' s1 s' :
    (** the decision and the end of its port call; work begins when the pass says so *)
    w_replicas w !! i =
      Some {| rep_job := job; rep_sampled := Some now; rep_working := None; rep_seen := Some s0 |} →
    Singleton_standing_at job now s0 = (r, job', s1) → lands (sg_name job) s0 s1 (w_store w) s' →
    step w (put_replica (put_store w (sg_name job) s') i
      {| rep_job := job'; rep_sampled := None;
         rep_working := match r with Ok (PassRan t) => Some t | _ => None end; rep_seen := None |})
| StepReplyLost i job now s0 r job' s1 s' :
    (** the port call committed but its answer was lost: [?] leaves the replica as it was *)
    w_replicas w !! i =
      Some {| rep_job := job; rep_sampled := Some now; rep_working := None; rep_seen := Some s0 |} →
    Singleton_standing_at job now s0 = (r, job', s1) → lands (sg_name job) s0 s1 (w_store w) s' →
    is_some_and (λ l, bool_decide (standing l (sg_margin job) now = StandingStop)) (sg_held job)
      = false →
    step w (put_replica (put_store w (sg_name job) s') i (idle job))
| StepCommit i job t f0 f1 f' :
    (** an effect of the work is offered to the destination, which accepts it, having looked at it
        when it was [f0]; the fence of the name is still as it was seen *)
    w_replicas w !! i =
      Some {| rep_job := job; rep_sampled := None; rep_working := Some t; rep_seen := None |} →
    fence_accept (sg_name job) t f0 = (Ok tt, f1) →
    fence_view f0 (sg_name job) = fence_view (w_dest w) (sg_name job) →
    fence_view f' (sg_name job) = fence_view f1 (sg_name job) →
    (∀ n, n ≠ sg_name job → fence_view f' n = fence_view (w_dest w) n) →
    step w {| w_store := w_store w; w_dest := f'; w_replicas := w_replicas w;
              w_issued := w_issued w;
              w_accepted := w_accepted w
                ++ [(sg_name job, FencingToken_get t, sg_instance job)] |}
| StepCommitRefused i job t error f' :
    w_replicas w !! i =
      Some {| rep_job := job; rep_sampled := None; rep_working := Some t; rep_seen := None |} →
    fence_accept (sg_name job) t (w_dest w) = (Err error, f') →
    step w {| w_store := w_store w; w_dest := f'; w_replicas := w_replicas w;
              w_issued := w_issued w; w_accepted := w_accepted w |}
| StepFinish i job t :
    w_replicas w !! i =
      Some {| rep_job := job; rep_sampled := None; rep_working := Some t; rep_seen := None |} →
    step w (put_replica w i (idle job))
| StepResign i job s0 r job' s1 s' :
    w_replicas w !! i =
      Some {| rep_job := job; rep_sampled := None; rep_working := None; rep_seen := Some s0 |} →
    Singleton_resign job s0 = (r, job', s1) → lands (sg_name job) s0 s1 (w_store w) s' →
    step w (put_replica (put_store w (sg_name job) s') i (idle job'))
| StepCrash i rep :
    (** a crashed replica comes back with its configuration and no lease *)
    w_replicas w !! i = Some rep →
    step w (put_replica w i (idle (set_held (rep_job rep) None))).

(** A deployment: every time to live fits below the horizon, and replicas of one name have
    different instances. *)
Definition deployed (reps : list Replica) : Prop :=
  (∀ i r, reps !! i = Some r → sg_ttl_millis (rep_job r) ≤ i64_max - horizon) ∧
  (∀ i j r r', reps !! i = Some r → reps !! j = Some r' → i ≠ j →
     sg_name (rep_job r) = sg_name (rep_job r') →
     sg_instance (rep_job r) ≠ sg_instance (rep_job r')).

(** A fresh deployment on a provider and a destination that hold nothing. *)
Record initial (w : World) : Prop := {
  init_wf : lease_wf (w_store w);
  init_empty : ∀ n, lease_view (w_store w) n = None;
  init_fence : ∀ n, fence_view (w_dest w) n = None;
  init_clock : 0 ≤ lease_clock (w_store w) ≤ horizon;
  init_deployed : deployed (w_replicas w);
  init_idle : ∀ i r, w_replicas w !! i = Some r → r = idle (set_held (rep_job r) None);
  init_issued : w_issued w = [];
  init_accepted : w_accepted w = [];
}.

Definition reachable (w : World) : Prop := ∃ w0, initial w0 ∧ rtc step w0 w.

(** ** The invariant *)

(** What a replica knows of its lease: it was issued to it, and the row is still the replica's
    with at least that expiry, or has moved on to a later token after that expiry. *)
Record lease_ok (s : S) (issued : list entry) (job : Singleton) (l : Lease) : Prop := {
  lo_name : lease_name l = sg_name job;
  lo_instance : lease_instance l = sg_instance job;
  lo_issued : (sg_name job, FencingToken_get (lease_token l), sg_instance job) ∈ issued;
  lo_expiry : lease_expires_at_millis l ≤ lease_clock s + sg_ttl_millis job;
  lo_row : ∃ row, lease_view s (sg_name job) = Some row ∧
    (lease_token row = lease_token l ∧ lease_instance row = sg_instance job ∧
       lease_expires_at_millis l ≤ lease_expires_at_millis row
     ∨ FencingToken_get (lease_token l) < FencingToken_get (lease_token row) ∧
       lease_expires_at_millis l ≤ lease_clock s);
}.

Record replica_ok (w : World) (r : Replica) : Prop := {
  ro_held : ∀ l, sg_held (rep_job r) = Some l → lease_ok (w_store w) (w_issued w) (rep_job r) l;
  ro_working : ∀ t, rep_working r = Some t →
    (sg_name (rep_job r), FencingToken_get t, sg_instance (rep_job r)) ∈ w_issued w;
  ro_seen : ∀ s0, rep_seen r = Some s0 →
    lease_wf s0 ∧ 0 ≤ lease_clock s0 ≤ lease_clock (w_store w) ∧
    ∀ l, sg_held (rep_job r) = Some l →
      lease_expires_at_millis l ≤ lease_clock s0 + sg_ttl_millis (rep_job r);
}.

(** Later entries of the same name have tokens that are above ([strict]) or not below. *)
Definition rising (R : Z → Z → Prop) (l : list entry) : Prop :=
  ∀ i j n t k t' k', (i < j)%nat → l !! i = Some (n, t, k) → l !! j = Some (n, t', k') → R t t'.

Record inv (w : World) : Prop := {
  inv_wf : lease_wf (w_store w);
  inv_clock : 0 ≤ lease_clock (w_store w) ≤ horizon;
  inv_deployed : deployed (w_replicas w);
  inv_replica : ∀ i r, w_replicas w !! i = Some r → replica_ok w r;
  inv_row : ∀ n row, lease_view (w_store w) n = Some row →
    (n, FencingToken_get (lease_token row), lease_instance row) ∈ w_issued w;
  inv_issued : ∀ n t k, (n, t, k) ∈ w_issued w → t ≤ row_token (lease_view (w_store w) n);
  inv_rising : rising Z.lt (w_issued w);
  inv_accepted : ∀ e, e ∈ w_accepted w → e ∈ w_issued w;
  inv_fence : ∀ n t k, (n, t, k) ∈ w_accepted w →
    ∃ f, fence_view (w_dest w) n = Some f ∧ t ≤ FencingToken_get f;
  inv_accepted_rising : rising Z.le (w_accepted w);
}.

(** ** What one port call of a replica can do to the store and to its lease, decided at clock [t] *)

Inductive effect (job : Singleton) (t : Z) (s s' : S) : option Lease → Prop :=
| EffNothing held :
    (∀ n, lease_view s' n = lease_view s n) → held = sg_held job ∨ held = None →
    effect job t s s' held
| EffGranted l held :
    sg_held job = None →
    plan_acquisition (sg_name job) (lease_view s (sg_name job)) (sg_instance job)
      t (sg_ttl_millis job) = Ok (AcqGranted l) →
    (∀ n, lease_view s' n = upd_lease (lease_view s) (sg_name job) l n) →
    held = Some l ∨ held = None →
    effect job t s s' held
| EffRenewed h row held :
    sg_held job = Some h → lease_view s (lease_name h) = Some row →
    holds_row (Some row) h = true → 0 < sg_ttl_millis job →
    (∀ n, lease_view s' n = upd_lease (lease_view s) (lease_name h)
       (with_expiry row (wrap_i64 (t + sg_ttl_millis job))) n) →
    held = Some (with_expiry row (wrap_i64 (t + sg_ttl_millis job))) ∨ held = Some h →
    effect job t s s' held
| EffReleased h row expiry :
    sg_held job = Some h → lease_view s (lease_name h) = Some row →
    holds_row (Some row) h = true →
    (∀ n, lease_view s' n = upd_lease (lease_view s) (lease_name h) (with_expiry row expiry) n) →
    effect job t s s' None.

Lemma may_renew_holds row held now : may_renew row held now = true → holds_row row held = true.
Proof. unfold may_renew, holds_row. destruct row; simpl; [|done]. unbool. tauto. Qed.

Lemma holds_row_spec row held :
  holds_row (Some row) held = true ↔
  lease_instance row = lease_instance held ∧ lease_token row = lease_token held.
Proof. unfold holds_row; simpl. by unbool. Qed.

Lemma release_effect job s l :
  lease_wf s → sg_held job = Some l →
  lease_wf (port_release l s).2 ∧ lease_clock (port_release l s).2 = lease_clock s ∧
  effect job (lease_clock s) s (port_release l s).2 None.
Proof.
  intros Hwf Hl. destruct (port_release l s) as [r s'] eqn:E.
  destruct (spec_release _ _ _ _ Hwf E) as (Hwf' & Hc & Hr). split_and!; [done..|]. simpl.
  destruct r as [[]|]; [|apply EffNothing; [done|by right]].
  destruct (lease_view s (lease_name l)) as [row|] eqn:Hv; [|apply EffNothing; [done|by right]].
  destruct (holds_row (Some row) l) eqn:Hh; [|apply EffNothing; [done|by right]].
  by eapply EffReleased.
Qed.

(** The decision of a pass, and the same decision whose answer was lost. *)
Lemma decide_effect job now s r job' s' :
  lease_wf s → Singleton_standing_at job now s = (r, job', s') →
  lease_wf s' ∧ lease_clock s' = lease_clock s ∧
  (∃ held, job' = set_held job held ∧ effect job (lease_clock s) s s' held ∧
     ∀ t, r = Ok (PassRan t) → ∃ l, held = Some l ∧ lease_token l = t) ∧
  (is_some_and (λ l, bool_decide (standing l (sg_margin job) now = StandingStop)) (sg_held job)
     = false → effect job (lease_clock s) s s' (sg_held job)).
Proof.
  intros Hwf. unfold Singleton_standing_at. destruct (sg_held job) as [l|] eqn:Hh.
  - assert (job = set_held job (Some l)) as Hjob by (destruct job; simpl in *; by subst).
    destruct (standing l (sg_margin job) now) eqn:Hs.
    + intros [= <- <- <-]. split_and!; [done..| |intros _; apply EffNothing; [done|by left]].
      exists (Some l). split_and!; [done|apply EffNothing; auto|]. intros t [= <-]. eauto.
    + destruct (port_renew l (sg_ttl_millis job) s) as [[[g|]|e] s1] eqn:E;
        intros [= <- <- <-]; destruct (spec_renew _ _ _ _ _ Hwf E) as (? & ? & Hr).
      * destruct Hr as (Hm & Httl & (row & Hrow & ->) & Hv).
        apply may_renew_holds in Hm. rewrite Hrow in Hm. split_and!; [done..| |].
        -- eexists. split_and!; [done|eapply EffRenewed; eauto|]. intros t [= <-]. eauto.
        -- intros _. eapply EffRenewed; eauto.
      * destruct Hr as [_ Hv]. split_and!; [done..| |intros _; apply EffNothing; auto].
        exists None. split_and!; [done|apply EffNothing; auto|done].
      * split_and!; [done..| |intros _; apply EffNothing; auto].
        exists (Some l). split_and!; [done|apply EffNothing; auto|done].
    + intros [= <- <- <-]. destruct (release_effect job s l Hwf Hh) as (? & ? & ?).
      split_and!; [done..| |]; [by exists None|].
      simpl. by rewrite bool_decide_true.
  - assert (job = set_held job None) as Hjob by (destruct job; simpl in *; by subst).
    unfold Singleton_acquire. destruct (port_acquire _ _ _ s) as [[[g|h e]|e] s1] eqn:E;
      intros [= <- <- <-]; destruct (spec_acquire _ _ _ _ _ _ Hwf E) as (? & ? & Hr).
    + destruct Hr as [Hp Hv]. split_and!; [done..| |].
      * exists (Some g). split_and!; [done|eapply EffGranted; eauto|]. intros t [= <-]. eauto.
      * intros _. eapply EffGranted; eauto.
    + destruct Hr as [_ Hv]. split_and!; [done..| |intros _; apply EffNothing; auto].
      exists None. split_and!; [done|apply EffNothing; auto|done].
    + split_and!; [done..| |intros _; apply EffNothing; auto].
      exists None. split_and!; [done|apply EffNothing; auto|done].
Qed.

Lemma resign_effect job s r job' s' :
  lease_wf s → Singleton_resign job s = (r, job', s') →
  lease_wf s' ∧ lease_clock s' = lease_clock s ∧ job' = set_held job None ∧
  effect job (lease_clock s) s s' None.
Proof.
  intros Hwf. unfold Singleton_resign. destruct (sg_held job) as [l|] eqn:Hh.
  - destruct (port_release l s) as [r1 s1] eqn:E. intros [= <- <- <-].
    destruct (release_effect job s l Hwf Hh) as (? & ? & ?). rewrite E in *. done.
  - intros [= <- <- <-]. split_and!; [done..| |apply EffNothing; auto].
    destruct job; simpl in *; by subst.
Qed.

(** What a call decides on what it saw is what it does to the store that it is written to. *)
Lemma lands_effect job t s0 s1 s s' held :
  (∀ h, sg_held job = Some h → lease_name h = sg_name job) →
  effect job t s0 s1 held → lands (sg_name job) s0 s1 s s' → effect job t s s' held.
Proof.
  intros Hname He [Hcalm _ _ Hown Hothers].
  assert (∀ l, (∀ n, lease_view s1 n = upd_lease (lease_view s0) (sg_name job) l n) →
    ∀ n, lease_view s' n = upd_lease (lease_view s) (sg_name job) l n) as Hupd.
  { intros l Hv n. unfold upd_lease. case_decide as E; [subst n|by apply Hothers].
    rewrite Hown, Hv. unfold upd_lease. by rewrite decide_True. }
  destruct He as [h Hv Hh|l h Hn Hp Hv Hh|h row h' Hh Hr Hold Hpos Hv Hh'|h row expiry Hh Hr Hold Hv].
  - apply EffNothing; [|done]. intros n. destruct (decide (n = sg_name job)) as [->|E]; [|by apply Hothers].
    by rewrite Hown, Hv.
  - eapply EffGranted; [done|by rewrite Hcalm|by apply Hupd|done].
  - rewrite (Hname h Hh) in Hr, Hv.
    eapply EffRenewed; [done|rewrite (Hname h Hh), Hcalm; exact Hr|done|done| |done].
    rewrite (Hname h Hh). by apply Hupd.
  - rewrite (Hname h Hh) in Hr, Hv. eapply EffReleased; [done|rewrite (Hname h Hh), Hcalm; exact Hr|done|].
    rewrite (Hname h Hh). by apply Hupd.
Qed.

(** A call that nothing interrupts lands as it is. *)
Lemma lands_alone job now s r job' s' :
  lease_wf s → (∀ h, sg_held job = Some h → lease_name h = sg_name job) →
  Singleton_standing_at job now s = (r, job', s') → lands (sg_name job) s s' s s'.
Proof.
  intros Hwf Hname Hd. destruct (decide_effect _ _ _ _ _ _ Hwf Hd) as (? & ? & (held & _ & He & _) & _).
  split; try done. intros n Hn.
  destruct He as [h Hv _|l h _ _ Hv _|h row h' Hh _ _ _ Hv _|h row expiry Hh _ _ Hv]; rewrite Hv; [done|..];
    unfold upd_lease; rewrite ?(Hname h Hh); by rewrite decide_False.
Qed.

(** The rows after a call that issued no token: the caller's own row may have another expiry. *)
Definition rows_kept (job : Singleton) (s s' : S) : Prop :=
  ∀ n, lease_view s' n = lease_view s n ∨
    n = sg_name job ∧ ∃ row t, lease_view s n = Some row ∧
      lease_instance row = sg_instance job ∧ lease_view s' n = Some (with_expiry row t).

(** The rows after a grant. *)
Definition row_granted (job : Singleton) (t : Z) (s s' : S) (l : Lease) : Prop :=
  plan_acquisition (sg_name job) (lease_view s (sg_name job)) (sg_instance job)
    t (sg_ttl_millis job) = Ok (AcqGranted l) ∧
  ∀ n, lease_view s' n = upd_lease (lease_view s) (sg_name job) l n.

Lemma effect_rows issued job t s s' held :
  (∀ l, sg_held job = Some l → lease_ok s issued job l) → effect job t s s' held →
  rows_kept job s s' ∨ ∃ l, row_granted job t s s' l.
Proof.
  intros Hok [h Hv _|l h Hn Hp Hv Hh|h row h' Hh Hr Hold _ Hv _|h row expiry Hh Hr Hold Hv].
  - left. intros n. by left.
  - right. by exists l.
  - left. destruct (Hok h Hh) as [Hname Hinst _ _ _]. intros n. rewrite Hv. unfold upd_lease.
    case_decide; [subst n|by left]. right. split; [done|]. eexists row, _.
    apply holds_row_spec in Hold as [? _]. split_and!; [done|congruence|done].
  - left. destruct (Hok h Hh) as [Hname Hinst _ _ _]. intros n. rewrite Hv. unfold upd_lease.
    case_decide; [subst n|by left]. right. split; [done|]. eexists row, _.
    apply holds_row_spec in Hold as [? _]. split_and!; [done|congruence|done].
Qed.

Lemma rows_kept_token job s s' n :
  rows_kept job s s' → row_token (lease_view s' n) = row_token (lease_view s n).
Proof. intros Hk. destruct (Hk n) as [->|(_ & row & t & -> & _ & ->)]; done. Qed.

Lemma rows_kept_issued job s s' : rows_kept job s s' → issued_by (sg_name job) s s' = [].
Proof.
  intros Hk. unfold issued_by. pose proof (rows_kept_token job s s' (sg_name job) Hk) as Ht.
  destruct (lease_view s' _) as [l|]; [|done]. simpl in Ht. by rewrite <-Ht, Z.eqb_refl.
Qed.

Lemma row_granted_spec job t s s' l :
  row_granted job t s s' l →
  0 < sg_ttl_millis job ∧ lease_name l = sg_name job ∧ lease_instance l = sg_instance job ∧
  FencingToken_get (lease_token l) = row_token (lease_view s (sg_name job)) + 1 ∧
  lease_expires_at_millis l = saturating_add_i64 t (sg_ttl_millis job) ∧
  (∀ c, lease_view s (sg_name job) = Some c →
     lease_expires_at_millis c ≤ t ∨ lease_instance c = sg_instance job) ∧
  lease_view s' (sg_name job) = Some l ∧
  issued_by (sg_name job) s s' =
    [(sg_name job, FencingToken_get (lease_token l), sg_instance job)].
Proof.
  intros [Hp Hv].
  apply plan_acquisition_granted in Hp as (? & ? & Hi & Ht & _ & ? & ?).
  assert (lease_view s' (sg_name job) = Some l) as Hl
    by (rewrite Hv; unfold upd_lease; by rewrite decide_True).
  split_and!; try done. unfold issued_by. rewrite Hl, Ht, Hi.
  destruct (Z.eqb_spec (row_token (lease_view s (sg_name job)))
    (row_token (lease_view s (sg_name job)) + 1)); [lia|done].
Qed.

Lemma lease_ok_mono s s' issued issued' job l :
  lease_ok s issued job l → lease_clock s ≤ lease_clock s' →
  lease_view s' (sg_name job) = lease_view s (sg_name job) →
  (∀ e, e ∈ issued → e ∈ issued') → lease_ok s' issued' job l.
Proof.
  intros [? ? ? ? (row & Hr & Hcase)] Hc Hv Hsub. split; try done; [by apply Hsub|lia|].
  exists row. rewrite Hv. split; [done|]. destruct Hcase as [?|[??]]; [by left|right; lia].
Qed.

(** Another replica's lease survives a call. *)
Lemma other_lease_ok issued issued' job t s s' other l :
  rows_kept job s s' ∨ (∃ g, row_granted job t s s' g) →
  lease_clock s' = lease_clock s → t ≤ lease_clock s → (∀ e, e ∈ issued → e ∈ issued') →
  (sg_name other = sg_name job → sg_instance other ≠ sg_instance job) →
  lease_ok s issued other l → lease_ok s' issued' other l.
Proof.
  intros Hrows Hc Hclk Hsub Hdiff Hl. destruct (decide (lease_view s' (sg_name other) =
    lease_view s (sg_name other))) as [E|E]; [eapply lease_ok_mono; eauto; lia|].
  destruct Hl as [? ? ? ? (row & Hr & Hcase)]. split; try done; [by apply Hsub|lia|].
  destruct Hrows as [Hk|[g Hg]].
  - destruct (Hk (sg_name other)) as [?|(Hn & row' & expiry & Hr' & Hi & ->)]; [done|].
    rewrite Hr in Hr'. injection Hr' as <-. eexists. split; [done|]. right. simpl.
    destruct Hcase as [(_ & Hi' & _)|]; [|lia]. exfalso. apply Hdiff; congruence.
  - apply row_granted_spec in Hg as Hs. destruct Hs as (_ & _ & _ & Ht & _ & Hexp & Hv & _).
    destruct (decide (sg_name other = sg_name job)) as [Hn|Hn].
    + rewrite Hn in *. exists g. split; [done|]. right. rewrite Hr in Ht. simpl in Ht.
      destruct Hcase as [(Htok & Hi' & Hle)|]; [|lia].
      destruct (Hexp row Hr) as [?|Hi]; [rewrite Htok in Ht; lia|].
      exfalso. apply (Hdiff eq_refl). congruence.
    + exfalso. apply E. destruct Hg as [_ Hg]. rewrite Hg. unfold upd_lease.
      by rewrite decide_False.
Qed.

(** The caller's own lease after a call. *)
Lemma own_lease_ok issued job t s s' held l :
  lease_wf s → lease_clock s' = lease_clock s → 0 ≤ t ≤ lease_clock s → lease_clock s ≤ horizon →
  sg_ttl_millis job ≤ i64_max - horizon →
  (∀ h, sg_held job = Some h → lease_ok s issued job h) →
  (∀ h, sg_held job = Some h → lease_expires_at_millis h ≤ t + sg_ttl_millis job) →
  effect job t s s' held → held = Some l →
  lease_ok s' (issued ++ issued_by (sg_name job) s s') (set_held job held) l.
Proof.
  intros Hwf Hc Ht Hclk Httl Hok Hseen He Hl.
  assert (∀ h, lease_ok s' (issued ++ issued_by (sg_name job) s s') job h →
               lease_ok s' (issued ++ issued_by (sg_name job) s s') (set_held job held) h) as Hset
    by (intros h []; by split).
  apply Hset. clear Hset.
  destruct He as [h Hv Hh|g h Hn Hp Hv Hh|h row h' Hh Hr Hold Hpos Hv Hh'|]; [| | |done].
  - destruct Hh as [->|?]; [|congruence]. eapply lease_ok_mono; [by apply Hok|lia|done|].
    intros e ?. apply elem_of_app. by left.
  - assert (row_granted job t s s' g) as Hg by done. destruct Hh as [->|?]; [|congruence].
    injection Hl as ->. apply row_granted_spec in Hg as (? & ? & ? & ? & Hexp & _ & Hv' & ->).
    unfold saturating_add_i64, saturate in Hexp. split; try done.
    + apply elem_of_app. right. by left.
    + ilia.
    + exists l. split; [done|]. left. split_and!; [done|done|lia].
  - pose proof (Hok h Hh) as [Hname Hinst Hiss Hexp _].
    specialize (Hseen h Hh). apply holds_row_spec in Hold as [Hi Htok].
    assert (wrap_i64 (t + sg_ttl_millis job) = t + sg_ttl_millis job) as Hw
      by (apply wrap_i64_id; ilia).
    rewrite Hw in *.
    assert (lease_view s' (sg_name job) = Some (with_expiry row (t + sg_ttl_millis job)))
      as Hv' by (rewrite Hv, Hname; unfold upd_lease; by rewrite decide_True).
    pose proof (spec_wf _ _ _ Hwf Hr) as Hrn.
    destruct Hh' as [-> | ->]; injection Hl as <-.
    + split; simpl; [congruence..|rewrite Htok; apply elem_of_app; by left|lia|].
      eexists. split; [done|]. left. simpl. split_and!; [done|congruence|lia].
    + split; try done; [apply elem_of_app; by left|lia|].
      eexists. split; [done|]. left. simpl. split_and!; [done|congruence|lia].
Qed.

Lemma rising_snoc R l n t k :
  rising R l → (∀ t' k', (n, t', k') ∈ l → R t' t) → rising R (l ++ [(n, t, k)]).
Proof.
  intros Hl Hlast i j n' t1 k1 t2 k2 Hij Hi Hj.
  destruct (decide (j < length l)%nat) as [Hlt|Hge].
  - rewrite lookup_app_l in Hi, Hj by lia. by eapply (Hl i j).
  - rewrite lookup_app_r in Hj by lia. apply list_lookup_singleton_Some in Hj as [? [= <- <- <-]].
    rewrite lookup_app_l in Hi by lia. apply (Hlast _ k1). by eapply list_elem_of_lookup_2.
Qed.

Lemma deployed_insert reps i r r' :
  reps !! i = Some r → sg_name (rep_job r') = sg_name (rep_job r) →
  sg_instance (rep_job r') = sg_instance (rep_job r) →
  sg_ttl_millis (rep_job r') = sg_ttl_millis (rep_job r) →
  deployed reps → deployed (<[i := r']> reps).
Proof.
  intros Hi Hn Hk Ht [H1' H2']. split.
  - intros j x [(<- & <- & _)|[_ Hx]]%list_lookup_insert_Some; [|eauto].
    rewrite Ht. eauto.
  - intros j k x y [(<- & <- & _)|[? Hx]]%list_lookup_insert_Some
      [(<- & <- & _)|[? Hy]]%list_lookup_insert_Some Hne; [done|..].
    + rewrite Hn, Hk. intros. by eapply (H2' i k).
    + rewrite Hn, Hk. intros. by eapply (H2' j i).
    + eauto.
Qed.

(** Replacing a replica that keeps its configuration and whose knowledge is right. *)
Lemma inv_put_replica w i r r' :
  inv w → w_replicas w !! i = Some r → (∃ held, rep_job r' = set_held (rep_job r) held) →
  replica_ok w r' → inv (put_replica w i r').
Proof.
  intros [] Hi [held Hj] Hr. split; try done; simpl.
  - eapply deployed_insert; eauto; by rewrite Hj.
  - intros j x [(<- & <- & _)|[_ Hx]]%list_lookup_insert_Some.
    + by destruct Hr.
    + by destruct (inv_replica0 _ _ Hx).
Qed.

(** The bookkeeping of issued tokens after a call. *)
Lemma issued_after w job t s' :
  inv w → rows_kept job (w_store w) s' ∨ (∃ g, row_granted job t (w_store w) s' g) →
  let issued := w_issued w ++ issued_by (sg_name job) (w_store w) s' in
  (∀ n row, lease_view s' n = Some row →
     (n, FencingToken_get (lease_token row), lease_instance row) ∈ issued) ∧
  (∀ n u k, (n, u, k) ∈ issued → u ≤ row_token (lease_view s' n)) ∧
  rising Z.lt issued.
Proof.
  intros [] [Hk|[g Hg]]; simpl.
  - rewrite (rows_kept_issued _ _ _ Hk), app_nil_r. split_and!; [|by setoid_rewrite (rows_kept_token _ _ _ _ Hk)|done].
    intros n row Hrow. destruct (Hk n) as [E|(_ & row' & expiry & Hr' & _ & E)]; rewrite E in Hrow; [by apply inv_row0|].
    injection Hrow as <-. simpl. by apply inv_row0.
  - apply row_granted_spec in Hg as Hs. destruct Hs as (_ & _ & Hi & Ht & _ & _ & Hv & ->).
    destruct Hg as [_ Hg].
    assert (∀ n, n ≠ sg_name job → lease_view s' n = lease_view (w_store w) n) as Hne
      by (intros; rewrite Hg; unfold upd_lease; by rewrite decide_False).
    split_and!.
    + intros n row Hrow. apply elem_of_app. destruct (decide (n = sg_name job)) as [->|Hn].
      * right. rewrite Hv in Hrow. injection Hrow as <-. rewrite Hi. by left.
      * left. rewrite Hne in Hrow by done. by apply inv_row0.
    + intros n u k [Hin|Hin]%elem_of_app.
      * apply inv_issued0 in Hin. destruct (decide (n = sg_name job)) as [->|Hn].
        -- rewrite Hv. simpl. lia.
        -- by rewrite Hne.
      * apply list_elem_of_singleton in Hin as [= -> -> ->]. rewrite Hv. simpl. lia.
    + apply rising_snoc; [done|]. intros t' k' Hin%inv_issued0. lia.
Qed.

(** A port call of one replica keeps the invariant. *)
Lemma inv_call w i rep s0 s1 held rep' s' :
  inv w → w_replicas w !! i = Some rep → rep_seen rep = Some s0 →
  effect (rep_job rep) (lease_clock s0) s0 s1 held → lands (sg_name (rep_job rep)) s0 s1 (w_store w) s' →
  rep_job rep' = set_held (rep_job rep) held → rep_seen rep' = None →
  (∀ t, rep_working rep' = Some t → ∃ l, held = Some l ∧ lease_token l = t) →
  inv (put_replica (put_store w (sg_name (rep_job rep)) s') i rep').
Proof.
  intros Hinv Hi Hseen He Hlands Hj Hs' Hw. pose proof Hinv as [].
  destruct (inv_replica0 _ _ Hi) as [Hheld _ Hs]. destruct (Hs s0 Hseen) as (_ & Hclk & Hexp).
  apply (lands_effect _ _ _ _ (w_store w) s') in He; [|intros h Hh; by apply Hheld in Hh as []|done].
  destruct Hlands as [_ Hwf Hc _ _].
  pose proof (effect_rows _ _ _ _ _ _ Hheld He) as Hrows.
  destruct (issued_after _ _ _ _ Hinv Hrows) as (Ha & Hb & Hd).
  assert (∀ l, held = Some l → lease_ok s' (w_issued w ++ issued_by (sg_name (rep_job rep))
            (w_store w) s') (set_held (rep_job rep) held) l) as Hown.
  { intros l Hl. eapply own_lease_ok; eauto; [apply inv_clock0|by apply inv_deployed0 in Hi]. }
  split; simpl; try done.
  - by rewrite Hc.
  - eapply deployed_insert; eauto; by rewrite Hj.
  - intros j x [(<- & <- & _)|[Hne Hx]]%list_lookup_insert_Some.
    + split; rewrite ?Hj, ?Hs'; simpl; [by apply Hown| |done].
      intros t (l & Hl & <-)%Hw. by destruct (Hown l Hl).
    + destruct (inv_replica0 _ _ Hx) as [Hxh Hxw Hxs]. split; simpl.
      * intros l Hl%Hxh. eapply other_lease_ok; [exact Hrows|done|apply Hclk| | |exact Hl].
        -- intros e ?. apply elem_of_app. by left.
        -- intros. by eapply (proj2 inv_deployed0 j i).
      * intros t Ht%Hxw. apply elem_of_app. by left.
      * by rewrite Hc.
  - intros e He'. apply elem_of_app. left. by apply inv_accepted0.
Qed.

Lemma inv_initial w : initial w → inv w.
Proof.
  intros []. split; try done; rewrite ?init_issued0, ?init_accepted0.
  - intros i r Hi. apply init_idle0 in Hi as ->. by split.
  - intros n row Hr. by rewrite init_empty0 in Hr.
  - by intros n t k ?%not_elem_of_nil.
  - intros ?????????. by rewrite lookup_nil.
  - by intros e ?%not_elem_of_nil.
  - by intros n t k ?%not_elem_of_nil.
  - intros ?????????. by rewrite lookup_nil.
Qed.

Lemma inv_commit w i job t f0 f1 f' :
  inv w →
  w_replicas w !! i =
    Some {| rep_job := job; rep_sampled := None; rep_working := Some t; rep_seen := None |} →
  fence_accept (sg_name job) t f0 = (Ok tt, f1) →
  fence_view f0 (sg_name job) = fence_view (w_dest w) (sg_name job) →
  fence_view f' (sg_name job) = fence_view f1 (sg_name job) →
  (∀ n, n ≠ sg_name job → fence_view f' n = fence_view (w_dest w) n) →
  inv {| w_store := w_store w; w_dest := f'; w_replicas := w_replicas w;
         w_issued := w_issued w;
         w_accepted := w_accepted w ++ [(sg_name job, FencingToken_get t, sg_instance job)] |}.
Proof.
  intros [] Hi Hf Hcalm Hown Hothers. apply spec_accept in Hf as [Hm Hf].
  rewrite Hcalm in Hm. rewrite Hf, decide_True in Hown by done.
  assert (∀ t' k', (sg_name job, t', k') ∈ w_accepted w → t' ≤ FencingToken_get t) as Hle.
  { intros t' k' (f & Hv & ?)%inv_fence0. rewrite Hv in Hm. simpl in Hm. lia. }
  split; simpl; try done.
  - intros j r Hr. by destruct (inv_replica0 _ _ Hr).
  - intros e [?| ->%list_elem_of_singleton]%elem_of_app; [eauto|].
    by apply (ro_working _ _ (inv_replica0 _ _ Hi)).
  - intros n t' k' Hin. destruct (decide (n = sg_name job)) as [->|E].
    + exists t. split; [done|].
      apply elem_of_app in Hin as [?|[= -> _]%list_elem_of_singleton]; [eauto|done].
    + rewrite Hothers by done.
      apply elem_of_app in Hin as [Hin|[= ? _ _]%list_elem_of_singleton]; [eauto|done].
  - by apply rising_snoc.
Qed.

Lemma inv_step w w' : inv w → step w w' → inv w'.
Proof.
  intros Hinv Hstep. destruct Hstep as
    [s' Hwf Hv Hc|i job now Hi _|i job error Hi _|i rep Hi Hidle|i job now s0 r job' s1 s' Hi Hd Hl
    |i job now s0 r job' s1 s' Hi Hd Hl Hn|i job t f0 f1 f' Hi Hf Hcalm Ho Hn|i job t error f' Hi Hf
    |i job t Hi|i job s0 r job' s1 s' Hi Hd Hl|i rep Hi].
  - destruct Hinv. split; simpl; try done; try setoid_rewrite Hv; try done; [lia|].
    intros i r Hr. destruct (inv_replica0 _ _ Hr) as [Hh Hw Hs]. split; simpl; [|done|].
    + intros l Hl%Hh. eapply lease_ok_mono; eauto; lia.
    + intros s0 (? & ? & ?)%Hs. split_and!; [done|lia..|done].
  - eapply inv_put_replica; eauto; simpl.
    + exists (sg_held job). by destruct job.
    + destruct (inv_replica _ Hinv _ _ Hi). by split.
  - eapply inv_put_replica; eauto; by split.
  - eapply inv_put_replica; eauto; simpl.
    + exists (sg_held (rep_job rep)). by destruct (rep_job rep).
    + destruct (inv_replica _ Hinv _ _ Hi) as [Hh _ _]. split; simpl; [done|done|].
      intros s0 [= <-]. split_and!; [apply Hinv|apply (inv_clock _ Hinv)|lia|].
      intros l Hl%Hh. apply Hl.
  - destruct (ro_seen _ _ (inv_replica _ Hinv _ _ Hi) s0 eq_refl) as (Hwf & _ & _).
    destruct (decide_effect _ _ _ _ _ _ Hwf Hd) as (? & ? & (held & -> & ? & Hr) & _).
    eapply (inv_call w i _ s0 s1 held _ s' Hinv Hi); [done..|]. simpl.
    intros t Ht. apply Hr. repeat case_match; naive_solver.
  - destruct (ro_seen _ _ (inv_replica _ Hinv _ _ Hi) s0 eq_refl) as (Hwf & _ & _).
    destruct (decide_effect _ _ _ _ _ _ Hwf Hd) as (? & ? & _ & He).
    eapply (inv_call w i _ s0 s1 (sg_held job) _ s' Hinv Hi); [done|by apply He|done| |done|done].
    by destruct job.
  - by eapply inv_commit.
  - destruct Hinv. apply spec_accept in Hf. split; simpl; try done.
    + intros j r Hr. by destruct (inv_replica0 _ _ Hr).
    + by setoid_rewrite Hf.
  - eapply inv_put_replica; eauto; simpl.
    + exists (sg_held job). by destruct job.
    + destruct (inv_replica _ Hinv _ _ Hi). by split.
  - destruct (ro_seen _ _ (inv_replica _ Hinv _ _ Hi) s0 eq_refl) as (Hwf & _ & _).
    destruct (resign_effect _ _ _ _ _ Hwf Hd) as (? & ? & -> & He).
    by eapply (inv_call w i _ s0 s1 None _ s' Hinv Hi).
  - eapply inv_put_replica; eauto; by split.
Qed.

Lemma reachable_inv w : reachable w → inv w.
Proof. intros (w0 & H0' & Hr). eapply rtc_invariant; [apply inv_step|by apply inv_initial|done]. Qed.

(** ** Properties *)

(** C3. Mutual exclusion, on a condition.  For every provider whose calls decide by the lease rules on
    the row they looked at, in every run of any number of replicas, through provider outages, lost
    replies, crashes, pauses, and other calls between the look and the write of a call, as long as no
    other write of the same row falls between the two: replicas of one name never both hold a lease
    that has not expired by the provider's clock.  The condition is on the run; the storage adapter
    does not enforce it, and without it two replicas can both be granted the lease
    ([LeaseStorage.LeaseCalls.lease_granted_twice]). *)
Theorem leases_exclude w i j ri rj li lj :
  reachable w → w_replicas w !! i = Some ri → w_replicas w !! j = Some rj → i ≠ j →
  sg_name (rep_job ri) = sg_name (rep_job rj) →
  sg_held (rep_job ri) = Some li → sg_held (rep_job rj) = Some lj →
  lease_expires_at_millis li ≤ lease_clock (w_store w) ∨
  lease_expires_at_millis lj ≤ lease_clock (w_store w).
Proof.
  intros Hinv%reachable_inv Hi Hj Hne Hn Hli Hlj.
  destruct (ro_held _ _ (inv_replica _ Hinv _ _ Hi) _ Hli) as [_ _ _ _ (row & Hr & Hci)].
  destruct (ro_held _ _ (inv_replica _ Hinv _ _ Hj) _ Hlj) as [_ _ _ _ (row' & Hr' & Hcj)].
  rewrite <-Hn, Hr in Hr'. injection Hr' as <-.
  destruct Hci as [(_ & Ei & _)|[_ ?]]; [|by left].
  destruct Hcj as [(_ & Ej & _)|[_ ?]]; [|by right].
  exfalso. apply (proj2 (inv_deployed _ Hinv) i j ri rj); congruence.
Qed.

(** C15. Fencing, on the same condition, for the lease rows and for the fences: no other write of a row
    falls between the look and the write of a call on it (the storage adapter does not enforce this:
    [LeaseStorage.LeaseCalls.lease_granted_twice] and [fence_moves_back]).  Then the tokens issued for a
    name rise strictly, so no token is issued twice; every effect a destination accepted carries a
    token that was issued to the replica that sent it; and the accepted tokens of a name never fall,
    so after an effect of a later holder no effect of an earlier one is accepted. *)
Theorem fencing_orders_effects w :
  reachable w →
  (∀ i j n t k t' k', (i < j)%nat → w_issued w !! i = Some (n, t, k) →
     w_issued w !! j = Some (n, t', k') → t < t') ∧
  (∀ e, e ∈ w_accepted w → e ∈ w_issued w) ∧
  (∀ i j n t k t' k', (i < j)%nat → w_accepted w !! i = Some (n, t, k) →
     w_accepted w !! j = Some (n, t', k') → t ≤ t' ∧ (t = t' → k = k')).
Proof.
  intros Hinv%reachable_inv. split_and!; [apply (inv_rising _ Hinv)|apply (inv_accepted _ Hinv)|].
  intros i j n t k t' k' Hij Hi Hj. split; [by eapply (inv_accepted_rising _ Hinv i j)|].
  intros <-.
  apply list_elem_of_lookup_2, (inv_accepted _ Hinv), list_elem_of_lookup in Hi as [a Ha].
  apply list_elem_of_lookup_2, (inv_accepted _ Hinv), list_elem_of_lookup in Hj as [b Hb].
  destruct (Nat.lt_trichotomy a b) as [Hlt|[<-|Hlt]]; [|congruence|].
  - pose proof (inv_rising _ Hinv a b n t k t k' Hlt Ha Hb). lia.
  - pose proof (inv_rising _ Hinv b a n t k' t k Hlt Hb Ha). lia.
Qed.

End system.

(** ** The adapter decides, it does not only refuse *)

(** ** Witnesses: two replicas, a takeover after expiry, a fenced effect *)

Definition example_job (instance : str) : Singleton :=
  Singleton_new (MkLeaseName (lit "outbox")) instance 100 (MkSafetyMargin 10).

Definition example_world : World (S := CoordinationDb) (F := CoordinationDb) :=
  {| w_store := example_db; w_dest := example_db;
     w_replicas := [idle (example_job (lit "a")); idle (example_job (lit "b"))];
     w_issued := []; w_accepted := [] |}.

Definition example_horizon : Z := 10 ^ 15.

Lemma example_initial : initial example_horizon example_world.
Proof.
  split; simpl; try done.
  - split.
    + intros [|[|i]] r Hr; simplify_eq/=; vm_compute; discriminate.
    + intros [|[|i]] [|[|j]] r r' Hr Hr' Hne _; simplify_eq/=; done.
  - intros [|[|i]] r Hr; simplify_eq/=; done.
Qed.

(** The run: [a] acquires at 1000 and pauses in its work; at 1200 its lease has expired and [b]
    acquires. *)
Definition example_takeover : World (S := CoordinationDb) (F := CoordinationDb) :=
  {| w_store := db_put_lease example_db2 (lit "outbox")
       {| cl_instance := lit "b"; cl_token := 2;
          cl_acquired_at_millis := 1200; cl_expires_at_millis := 1300 |};
     w_dest := example_db;
     w_replicas :=
       [{| rep_job := set_held (example_job (lit "a")) (Some (example_lease (lit "a") 1 1000 1100));
           rep_sampled := None; rep_working := Some (MkFencingToken 1); rep_seen := None |};
        {| rep_job := set_held (example_job (lit "b")) (Some (example_lease (lit "b") 2 1200 1300));
           rep_sampled := None; rep_working := Some (MkFencingToken 2); rep_seen := None |}];
     w_issued := [(MkLeaseName (lit "outbox"), 1, lit "a"); (MkLeaseName (lit "outbox"), 2, lit "b")];
     w_accepted := [] |}.

Lemma example_reachable : reachable example_horizon example_takeover.
Proof.
  exists example_world. split; [apply example_initial|].
  assert (∀ db job now r job' db', lease_wf db → sg_held job = None →
    Singleton_standing_at job now db = (r, job', db') → lands (sg_name job) db db' db db') as Hland.
  { intros ?????? Hwf Hno. apply lands_alone; [exact Hwf|]. rewrite Hno. discriminate. }
  assert (lease_wf example_db2) as Hwf2 by (apply map_Forall_singleton; by vm_compute).
  eapply rtc_l; [by eapply (StepSample _ _ 0%nat)|].
  eapply rtc_l; [by eapply (StepLook _ _ 0%nat)|].
  eapply rtc_l; [eapply (StepDecide _ _ 0%nat); [reflexivity|reflexivity|]|].
  { eapply (Hland _ _ 1000); [apply map_Forall_empty|reflexivity|reflexivity]. }
  eapply rtc_l; [by eapply (StepProvider _ _ example_db2)|].
  eapply rtc_l; [by eapply (StepSample _ _ 1%nat)|].
  eapply rtc_l; [by eapply (StepLook _ _ 1%nat)|].
  eapply rtc_l; [eapply (StepDecide _ _ 1%nat); [reflexivity|reflexivity|]|].
  { eapply (Hland _ _ 1200); [exact Hwf2|reflexivity|reflexivity]. }
  apply rtc_refl.
Qed.

Lemma leases_exclude_witness :
  lease_expires_at_millis (example_lease (lit "a") 1 1000 1100) ≤
    lease_clock (w_store example_takeover) ∨
  lease_expires_at_millis (example_lease (lit "b") 2 1200 1300) ≤
    lease_clock (w_store example_takeover).
Proof.
  by eapply (leases_exclude example_horizon example_takeover 0 1 _ _ _ _ example_reachable).
Defined.

Lemma fencing_orders_effects_witness :
  w_issued example_takeover !! 0%nat = Some (MkLeaseName (lit "outbox"), 1, lit "a") ∧
  w_issued example_takeover !! 1%nat = Some (MkLeaseName (lit "outbox"), 2, lit "b") ∧ 1 < 2.
Proof.
  split_and!; [reflexivity..|].
  by apply (proj1 (fencing_orders_effects example_horizon example_takeover example_reachable)
    0%nat 1%nat (MkLeaseName (lit "outbox")) 1 (lit "a") 2 (lit "b")); [lia|..].
Defined.
