(* ===== verification/Vmm.v ===== *)
(** VMM lifecycle rules: [crates/aseman-domain/src/vmm.rs].  Desired-state transitions, command
    freshness, observations, reconciliation, the operation state machine, runtime capabilities,
    and the records the VMM service keeps.

    The theorems: the desired machine is exactly the published table with [deleted] terminal, and
    an accepted change advances the generation by one; recorded observations rise strictly and
    never claim a generation nobody desired; reconciliation reaches its fixed point within two
    steps of any backend that does what it is told; an operation reaches a terminal state within
    two transitions and never leaves it. *)

From S2P Require Import Prelude Text Core.

Open Scope Z_scope.

(** ** Failures *)

Inductive VmmFailure :=
| VInvalidRequest | VUnauthenticated | VForbidden | VNotFound | VAlreadyExists
| VResourceVersionMismatch | VStaleGeneration | VInvalidTransition | VWorkloadDeleted
| VUnsupportedOperation | VIdempotencyKeyReused | VIdempotencyInProgress | VOperationFinished
| VPayloadTooLarge | VRateLimited | VDeadlineExceeded | VUnavailable | VBackendFailure
| VStaleObservation.
#[export] Instance VmmFailure_eq_dec : EqDecision VmmFailure.
Proof. solve_decision. Defined.

Definition VmmFailure_ALL : list VmmFailure :=
  [VInvalidRequest; VUnauthenticated; VForbidden; VNotFound; VAlreadyExists;
   VResourceVersionMismatch; VStaleGeneration; VInvalidTransition; VWorkloadDeleted;
   VUnsupportedOperation; VIdempotencyKeyReused; VIdempotencyInProgress; VOperationFinished;
   VPayloadTooLarge; VRateLimited; VDeadlineExceeded; VUnavailable; VBackendFailure;
   VStaleObservation].

Definition VmmFailure_as_str (self : VmmFailure) : str :=
  match self with
  | VInvalidRequest => lit "invalid_request"
  | VUnauthenticated => lit "unauthenticated"
  | VForbidden => lit "forbidden"
  | VNotFound => lit "not_found"
  | VAlreadyExists => lit "already_exists"
  | VResourceVersionMismatch => lit "resource_version_mismatch"
  | VStaleGeneration => lit "stale_generation"
  | VInvalidTransition => lit "invalid_transition"
  | VWorkloadDeleted => lit "workload_deleted"
  | VUnsupportedOperation => lit "unsupported_operation"
  | VIdempotencyKeyReused => lit "idempotency_key_reused"
  | VIdempotencyInProgress => lit "idempotency_in_progress"
  | VOperationFinished => lit "operation_finished"
  | VPayloadTooLarge => lit "payload_too_large"
  | VRateLimited => lit "rate_limited"
  | VDeadlineExceeded => lit "deadline_exceeded"
  | VUnavailable => lit "unavailable"
  | VBackendFailure => lit "backend_failure"
  | VStaleObservation => lit "stale_observation"
  end.

Definition retryable (self : VmmFailure) : bool :=
  match self with
  | VIdempotencyInProgress | VRateLimited | VDeadlineExceeded | VUnavailable | VBackendFailure =>
      true
  | _ => false
  end.

Inductive LifecycleError :=
| LDeleted | LInvalidTransition | LStaleGeneration | LStaleObservation | LFutureObservation
| LUnsupported | LOperationFinished.
#[export] Instance LifecycleError_eq_dec : EqDecision LifecycleError.
Proof. solve_decision. Defined.

(** The [#[error]] texts. *)
Definition LifecycleError_text (self : LifecycleError) : str :=
  match self with
  | LDeleted => lit "the workload is deleted"
  | LInvalidTransition => lit "the transition is not allowed"
  | LStaleGeneration => lit "the expected generation is stale"
  | LStaleObservation => lit "the observation is stale"
  | LFutureObservation => lit "the observation claims a generation that was never desired"
  | LUnsupported => lit "the runtime does not support this operation"
  | LOperationFinished => lit "the operation already finished"
  end.

Definition VmmFailure_from (error : LifecycleError) : VmmFailure :=
  match error with
  | LDeleted => VWorkloadDeleted
  | LInvalidTransition => VInvalidTransition
  | LStaleGeneration => VStaleGeneration
  | LStaleObservation | LFutureObservation => VStaleObservation
  | LUnsupported => VUnsupportedOperation
  | LOperationFinished => VOperationFinished
  end.

(** ** Desired state *)

Definition desired_transition (from to : DesiredWorkloadState) : result unit LifecycleError :=
  match from, to with
  | DDeleted, _ => Err LDeleted
  | current, next =>
      if bool_decide (current = next) then Ok tt
      else match current, next with
           | DRunning, DPaused | DPaused, DRunning | _, DStopped | DStopped, DRunning
           | _, DDeleted => Ok tt
           | _, _ => Err LInvalidTransition
           end
  end.

Definition desired_states : list DesiredWorkloadState := [DStopped; DRunning; DPaused; DDeleted].

Definition desired_transitions : list (DesiredWorkloadState * DesiredWorkloadState) :=
  List.filter (λ p, negb (bool_decide (p.1 = p.2)) && is_ok (desired_transition p.1 p.2))
    (desired_states ≫= λ from, (λ to, (from, to)) <$> desired_states).

Definition next_desired (current : DesiredWorkloadState)
    (current_generation expected_generation : Generation) (to : DesiredWorkloadState)
    : result Generation LifecycleError :=
  if negb (bool_decide (current_generation = expected_generation)) then Err LStaleGeneration
  else
    let? _ := desired_transition current to in
    map_err (λ _, LInvalidTransition) (Generation_next current_generation).

Inductive CommandFreshness := FreshApply | FreshReplay | FreshStale.
#[export] Instance CommandFreshness_eq_dec : EqDecision CommandFreshness.
Proof. solve_decision. Defined.

Definition command_freshness (applied : option Generation) (incoming : Generation)
    : CommandFreshness :=
  match applied with
  | Some applied =>
      if Generation_get incoming <? Generation_get applied then FreshStale
      else if bool_decide (incoming = applied) then FreshReplay
      else FreshApply
  | None => FreshApply
  end.

(** ** Observed state *)

Record Observation := {
  obs_state : ObservedWorkloadState;
  obs_generation : Generation;
  obs_sequence : u64;
  obs_reason : option str;
  obs_observed_at_millis : i64;
}.
#[export] Instance Observation_eq_dec : EqDecision Observation.
Proof. solve_decision. Defined.

(** The order of the pairs [(generation, sequence)]. *)
Definition obs_lt (a b : Observation) : Prop :=
  Generation_get (obs_generation a) < Generation_get (obs_generation b) ∨
  Generation_get (obs_generation a) = Generation_get (obs_generation b) ∧
  obs_sequence a < obs_sequence b.

(** [<=] on pairs of integers. *)
Definition pair_leb (a b : Z * Z) : bool :=
  (a.1 <? b.1) || ((a.1 =? b.1) && (a.2 <=? b.2)).

Definition accept_observation (desired_generation : Generation) (recorded : option Observation)
    (incoming : Observation) : result unit LifecycleError :=
  if Generation_get desired_generation <? Generation_get (obs_generation incoming)
  then Err LFutureObservation
  else match recorded with
  | Some recorded =>
      if pair_leb (Generation_get (obs_generation incoming), obs_sequence incoming)
           (Generation_get (obs_generation recorded), obs_sequence recorded)
      then Err LStaleObservation else Ok tt
  | None => Ok tt
  end.

Inductive ReconcileAction :=
| ActNone | ActStart | ActStop | ActPause | ActResume | ActDelete | ActRestart | ActAdopt.
#[export] Instance ReconcileAction_eq_dec : EqDecision ReconcileAction.
Proof. solve_decision. Defined.

Definition reconcile (desired : option (DesiredWorkloadState * Generation))
    (observed : option Observation) : ReconcileAction :=
  match desired with
  | None => if is_some observed then ActAdopt else ActNone
  | Some (desired, generation) =>
      let current := match observed with
        | Some o => if bool_decide (obs_generation o = generation) then Some o else None
        | None => None
        end in
      match desired, obs_state <$> observed, current with
      | DDeleted, None, _ => ActNone
      | DDeleted, Some (OStopped | OLost | OFailed), Some _ => ActNone
      | DDeleted, Some _, _ => ActDelete
      | DRunning, Some ORunning, Some _ => ActNone
      | DRunning, Some OPaused, _ => ActResume
      | DRunning, Some (OFailed | OLost), _ => ActRestart
      | DRunning, Some OPending, Some _ => ActNone
      | DRunning, _, _ => ActStart
      | DPaused, Some OPaused, Some _ => ActNone
      | DPaused, Some ORunning, _ => ActPause
      | DPaused, _, _ => ActStart
      | DStopped, (None | Some (OStopped | OFailed | OLost)), _ => ActNone
      | DStopped, _, _ => ActStop
      end
  end.

(** ** Operations *)

Definition operation_transition (from to : OperationState) : result unit LifecycleError :=
  match from, to with
  | (OpSucceeded | OpFailed | OpCancelled), _ => Err LOperationFinished
  | OpPending, (OpRunning | OpCancelled | OpFailed)
  | OpRunning, (OpSucceeded | OpFailed | OpCancelled) => Ok tt
  | _, _ => Err LInvalidTransition
  end.

Inductive OperationKind :=
| KCreate | KStart | KStop | KPause | KResume | KDelete | KRestart | KUpdateSpec | KInvoke | KExec
| KBuild | KSnapshot | KRestore | KCopyFiles.
#[export] Instance OperationKind_eq_dec : EqDecision OperationKind.
Proof. solve_decision. Defined.

(** ** Runtime capabilities *)

Record DeployConventions := {
  dc_entity_file_name : str;
  dc_accepts_extra_files : bool;
  dc_build_on_deploy : bool;
}.

Record RuntimeCapabilities := {
  rc_runtime : str;
  rc_invocation : bool;
  rc_long_running : bool;
  rc_pause : bool;
  rc_snapshot : bool;
  rc_exec : bool;
  rc_terminal : bool;
  rc_http_ingress : bool;
  rc_files : bool;
  rc_build : bool;
  rc_chain_transactions : bool;
  rc_execution_proofs : bool;
  rc_deploy : DeployConventions;
}.

Inductive WorkloadOperation :=
| WStart | WStop | WPause | WResume | WDelete | WInvoke | WInvokeChain | WVerifyExecution | WExec
| WTerminal | WHttpForward | WCopyFiles | WBuild | WSnapshot.
#[export] Instance WorkloadOperation_eq_dec : EqDecision WorkloadOperation.
Proof. solve_decision. Defined.

Definition RuntimeCapabilities_check (self : RuntimeCapabilities) (operation : WorkloadOperation)
    : result unit LifecycleError :=
  let supported := match operation with
    | WStart | WStop | WDelete => true
    | WPause | WResume => rc_pause self
    | WInvoke => rc_invocation self
    | WInvokeChain => rc_chain_transactions self
    | WVerifyExecution => rc_execution_proofs self
    | WExec => rc_exec self
    | WTerminal => rc_terminal self
    | WHttpForward => rc_http_ingress self
    | WCopyFiles => rc_files self
    | WBuild => rc_build self
    | WSnapshot => rc_snapshot self
    end in
  ok_or (if supported then Some tt else None) LUnsupported.

(** ** Records *)

Inductive ArtifactKind := ArtifactBlob | ArtifactOci.
Record Artifact := {
  artifact_kind : ArtifactKind; artifact_reference : str; artifact_digest : str }.
Record Resources := {
  res_vcpu_millis : u64;
  res_memory_mib : u64;
  res_disk_mib : option u64;
  res_invocation_timeout_millis : option u64;
}.
Inductive PortProtocol := ProtoHttp | ProtoTcp.
Record IngressPort := { ip_name : str; ip_port : u16; ip_protocol : PortProtocol }.
Record NetworkPolicy := { np_ingress : list IngressPort; np_egress_allow : list str }.
Record WriteOnlyCredential := MkWriteOnlyCredential { WriteOnlyCredential_expose : str }.
(** [Debug for WriteOnlyCredential]. *)
Definition WriteOnlyCredential_fmt (self : WriteOnlyCredential) : str :=
  lit "WriteOnlyCredential(<redacted>)".
Record Bootstrap := { boot_guest_api_url : str; boot_credential : option WriteOnlyCredential }.
Record WorkloadSpec := {
  spec_runtime : str;
  spec_artifact : Artifact;
  spec_entry : str;
  spec_resources : Resources;
  spec_network : NetworkPolicy;
  spec_environment : gmap str str;
  spec_bootstrap : Bootstrap;
}.

Definition redacted (self : WorkloadSpec) : WorkloadSpec :=
  {| spec_runtime := spec_runtime self; spec_artifact := spec_artifact self;
     spec_entry := spec_entry self; spec_resources := spec_resources self;
     spec_network := spec_network self; spec_environment := spec_environment self;
     spec_bootstrap := {| boot_guest_api_url := boot_guest_api_url (spec_bootstrap self);
                          boot_credential := None |} |}.

Record WorkloadLabels := {
  wl_creature_id : Uuid;
  wl_program_id : Uuid;
  wl_entity_id : str;
  wl_legacy_machine_id : option str;
  wl_legacy_vm_id : option str;
}.
Record DesiredStatus := { ds_state : DesiredWorkloadState; ds_generation : Generation }.
Record Endpoint := {
  ep_name : str; ep_protocol : PortProtocol; ep_address : str; ep_port : u16 }.
Record Usage := {
  usage_window_start_millis : i64;
  usage_window_end_millis : i64;
  usage_sequence : u64;
  usage_cpu_millis : u64;
  usage_memory_peak_bytes : u64;
  usage_network_rx_bytes : u64;
  usage_network_tx_bytes : u64;
  usage_storage_bytes : u64;
  usage_invocations : u64;
}.
Inductive LogStream := Stdout | Stderr | System | BuildLog.
Record LogRecord := {
  log_sequence : u64; log_at_millis : i64; log_stream : LogStream; log_line : str }.
Record OperationFailure := { of_code : VmmFailure; of_detail : str }.

Record WorkloadRecord := {
  wr_owner : str;
  wr_id : Uuid;
  wr_labels : WorkloadLabels;
  wr_spec : WorkloadSpec;
  wr_desired : DesiredStatus;
  wr_applied_generation : option Generation;
  wr_observed : option Observation;
  wr_resource_version : u64;
  wr_created_at_millis : i64;
  wr_updated_at_millis : i64;
}.

Record OperationRecord := {
  op_owner : str;
  op_id : Uuid;
  op_workload_id : option Uuid;
  op_kind : OperationKind;
  op_state : OperationState;
  op_generation : option Generation;
  op_request : option str;
  op_created_at_millis : i64;
  op_updated_at_millis : i64;
  op_deadline_millis : option i64;
  op_result : option str;
  op_error : option OperationFailure;
}.

Definition OperationRecord_transition (self : OperationRecord) (state : OperationState)
    (at_millis : i64) : result OperationRecord LifecycleError :=
  let? _ := operation_transition (op_state self) state in
  Ok {| op_owner := op_owner self; op_id := op_id self; op_workload_id := op_workload_id self;
        op_kind := op_kind self; op_state := state; op_generation := op_generation self;
        op_request := op_request self; op_created_at_millis := op_created_at_millis self;
        op_updated_at_millis := at_millis; op_deadline_millis := op_deadline_millis self;
        op_result := op_result self; op_error := op_error self |}.

Inductive WorkloadEventType := EvObserved | EvOperation | EvDeleted | EvResync.
Record WorkloadEventRecord := {
  ev_owner : str;
  ev_sequence : u64;
  ev_workload_id : Uuid;
  ev_at_millis : i64;
  ev_event_type : WorkloadEventType;
  ev_observation : option Observation;
  ev_operation : option Uuid;
}.

(** ** Lemmas *)

Lemma pair_leb_false a b :
  pair_leb a b = false ↔ b.1 < a.1 ∨ b.1 = a.1 ∧ b.2 < a.2.
Proof. unfold pair_leb. lia. Qed.

Lemma accept_observation_Ok desired recorded incoming :
  accept_observation desired recorded incoming = Ok tt ↔
  Generation_get (obs_generation incoming) ≤ Generation_get desired ∧
  ∀ r, recorded = Some r → obs_lt r incoming.
Proof.
  unfold accept_observation, obs_lt. destruct (Z.ltb_spec (Generation_get desired)
    (Generation_get (obs_generation incoming))); [split; [done|lia]|].
  destruct recorded as [r|]; [|naive_solver].
  destruct (pair_leb _ _) eqn:E; [|apply pair_leb_false in E; naive_solver].
  split; [done|]. intros [_ Hr]. specialize (Hr r eq_refl).
  assert (pair_leb (Generation_get (obs_generation incoming), obs_sequence incoming)
    (Generation_get (obs_generation r), obs_sequence r) = false) as E'
    by (apply pair_leb_false; simpl; lia). congruence.
Qed.

Lemma obs_lt_trans a b c : obs_lt a b → obs_lt b c → obs_lt a c.
Proof. unfold obs_lt. lia. Qed.

(** ** Properties *)

(** Desired state: [deleted] is terminal, every other state may be set again, stopped or
    deleted, pausing needs a running workload and running is reachable from stopped and paused;
    the published table lists exactly the allowed changes; and a change is accepted exactly when
    the caller names the current generation and the transition is allowed, and then the
    generation advances by one. *)
Theorem desired_state_machine current to cg eg :
  valid_generation cg → Generation_get cg < u64_max →
  ((current, to) ∈ desired_transitions ↔ current ≠ to ∧ desired_transition current to = Ok tt) ∧
  (desired_transition current to = Ok tt ↔
     current ≠ DDeleted ∧ (to = DPaused → current = DRunning ∨ current = DPaused)) ∧
  (∀ g, next_desired current cg eg to = Ok g ↔
     eg = cg ∧ desired_transition current to = Ok tt ∧ g = MkGeneration (Generation_get cg + 1)) ∧
  (next_desired current cg eg to = Err LStaleGeneration ↔ eg ≠ cg).
Proof.
  intros Hv Hmax. split_and!.
  - destruct current, to; vm_compute; split; try set_solver; try (intros [? ?]; done).
    all: intros H; exfalso; revert H; rewrite ?elem_of_cons, ?elem_of_nil; naive_solver.
  - destruct current, to; vm_compute; naive_solver.
  - intros g. unfold next_desired. case_bool_decide as E; simpl; [|naive_solver].
    destruct (desired_transition current to) as [[]|]; [|naive_solver].
    unfold Generation_next, checked_add_u64, valid_generation in *.
    rewrite checked_in by lia. simpl. naive_solver.
  - unfold next_desired. case_bool_decide as E; simpl; [|naive_solver].
    split; [|by intros []]. intros H _. revert H.
    destruct (desired_transition current to) as [[]|e] eqn:Et.
    + unfold Generation_next, checked_add_u64, valid_generation in *.
      by rewrite checked_in by lia.
    + destruct current, to; vm_compute in Et; naive_solver.
Qed.

Lemma desired_state_machine_witness :
  (DStopped, DRunning) ∈ desired_transitions ∧
  next_desired DRunning (MkGeneration 3) (MkGeneration 3) DPaused = Ok (MkGeneration 4).
Proof.
  destruct (desired_state_machine DRunning DPaused (MkGeneration 3) (MkGeneration 3))
    as (_ & _ & H & _); [split; discriminate|reflexivity|].
  split; [vm_compute; set_solver|]. by apply H.
Defined.

(** The observations that end up recorded out of a stream of reports, each judged against the
    desired generation at its time. *)
Fixpoint recorded_history (recorded : option Observation)
    (reports : list (Generation * Observation)) : list Observation :=
  match reports with
  | [] => []
  | (desired, o) :: reports =>
      match accept_observation desired recorded o with
      | Ok _ => o :: recorded_history (Some o) reports
      | Err _ => recorded_history recorded reports
      end
  end.

Lemma recorded_history_above r reports :
  Forall (obs_lt r) (recorded_history (Some r) reports) ∧
  Sorted.StronglySorted obs_lt (recorded_history (Some r) reports).
Proof.
  revert r. induction reports as [|[g o] reports IH]; intros r; simpl; [split; constructor|].
  destruct (accept_observation g (Some r) o) as [[]|] eqn:E; [|apply IH].
  apply accept_observation_Ok in E as [_ E]. specialize (E r eq_refl).
  destruct (IH o) as [Ha Hs]. split; [|by constructor]. constructor; [done|].
  eapply Forall_impl; [exact Ha|]. intros x Hx. by eapply obs_lt_trans.
Qed.

(** Observations: whatever is reported, in whatever order and with whatever repetition, the
    recorded history rises strictly in (generation, sequence); every recorded observation was
    reported against a desired generation at least its own; and a report is recorded exactly when
    it is not from the future and later than what is recorded. *)
Theorem observations_rise reports :
  Sorted.StronglySorted obs_lt (recorded_history None reports) ∧
  (∀ o, o ∈ recorded_history None reports → ∃ desired, (desired, o) ∈ reports ∧
     Generation_get (obs_generation o) ≤ Generation_get desired) ∧
  (∀ desired recorded o, accept_observation desired recorded o = Ok tt ↔
     Generation_get (obs_generation o) ≤ Generation_get desired ∧
     ∀ r, recorded = Some r → obs_lt r o).
Proof.
  split_and!; [|generalize (@None Observation)|apply accept_observation_Ok].
  - induction reports as [|[g o] reports IH]; simpl; [constructor|].
    destruct (accept_observation g None o); [|done].
    constructor; apply recorded_history_above.
  - induction reports as [|[g o] reports IH]; simpl; intros recorded x Hx;
      [by apply not_elem_of_nil in Hx|].
    destruct (accept_observation g recorded o) as [[]|] eqn:E.
    + apply elem_of_cons in Hx as [->|Hx].
      * apply accept_observation_Ok in E as [E _]. exists g. split; [by left|done].
      * destruct (IH _ _ Hx) as (d & ? & ?). exists d. split; [by right|done].
    + destruct (IH _ _ Hx) as (d & ? & ?). exists d. split; [by right|done].
Qed.

Example observations_rise_example :
  let o g s := {| obs_state := ORunning; obs_generation := MkGeneration g; obs_sequence := s;
                  obs_reason := None; obs_observed_at_millis := 0 |} in
  recorded_history None [(MkGeneration 1, o 1 2); (MkGeneration 1, o 1 1); (MkGeneration 1, o 2 1);
    (MkGeneration 2, o 2 1); (MkGeneration 2, o 1 9)] = [o 1 2; o 2 1].
Proof. reflexivity. Qed.

(** ** Reconciliation *)

(** A backend that does what it is told: the step's outcome at the desired generation.  The
    backends are provider code; this is the A504 contract of [VmmBackend::step]. *)
Definition obeys (backend : ReconcileAction → option Observation → option Observation)
    (generation : Generation) : Prop :=
  ∀ action o,
    let result := backend action o in
    match action with
    | ActStart | ActResume | ActRestart =>
        ∃ r, result = Some r ∧ obs_state r = ORunning ∧ obs_generation r = generation
    | ActPause => ∃ r, result = Some r ∧ obs_state r = OPaused ∧ obs_generation r = generation
    | ActStop => ∃ r, result = Some r ∧ obs_state r = OStopped ∧ obs_generation r = generation
    | ActDelete => result = None ∨
        ∃ r, result = Some r ∧ obs_state r = OStopped ∧ obs_generation r = generation
    | ActNone | ActAdopt => result = o
    end.

(** What it means that nothing is left to do. *)
Definition settled (desired : DesiredWorkloadState) (generation : Generation)
    (observed : option Observation) : Prop :=
  match desired, observed with
  | DRunning, Some o =>
      obs_generation o = generation ∧ (obs_state o = ORunning ∨ obs_state o = OPending)
  | DPaused, Some o => obs_generation o = generation ∧ obs_state o = OPaused
  | DStopped, Some o => obs_state o = OStopped ∨ obs_state o = OFailed ∨ obs_state o = OLost
  | DDeleted, Some o => obs_generation o = generation ∧
      (obs_state o = OStopped ∨ obs_state o = OFailed ∨ obs_state o = OLost)
  | (DStopped | DDeleted), None => True
  | (DRunning | DPaused), None => False
  end.

(** Reconciliation passes against a backend. *)
Fixpoint passes (n : nat) (backend : ReconcileAction → option Observation → option Observation)
    (desired : DesiredWorkloadState) (generation : Generation) (o : option Observation)
    : option Observation :=
  match n with
  | O => o
  | S n => passes n backend desired generation
             (backend (reconcile (Some (desired, generation)) o) o)
  end.

Lemma reconcile_settled d g o : reconcile (Some (d, g)) o = ActNone ↔ settled d g o.
Proof.
  unfold reconcile, settled. destruct o as [o|]; simpl.
  - destruct d; simpl; try case_bool_decide; destruct (obs_state o); naive_solver.
  - destruct d; naive_solver.
Qed.

(** The state a single obeyed step leads to. *)
Lemma reconcile_step backend d g o :
  obeys backend g → ¬ settled d g o →
  settled d g (backend (reconcile (Some (d, g)) o) o) ∨
  d = DPaused ∧ ∃ r, backend (reconcile (Some (d, g)) o) o = Some r ∧
    obs_state r = ORunning ∧ obs_generation r = g.
Proof.
  intros Hb Hn. rewrite <-reconcile_settled in Hn.
  specialize (Hb (reconcile (Some (d, g)) o) o).
  assert (reconcile (Some (d, g)) o ≠ ActAdopt) as Ha.
  { unfold reconcile. destruct o as [o|]; simpl; repeat case_match; done. }
  assert (match reconcile (Some (d, g)) o with
          | ActStart => d = DRunning ∨ d = DPaused | ActPause => d = DPaused
          | ActResume | ActRestart => d = DRunning
          | ActStop => d = DStopped | ActDelete => d = DDeleted | _ => True end) as Hd.
  { unfold reconcile. destruct o as [o|]; simpl; repeat (case_match; simplify_eq); auto. }
  destruct (reconcile (Some (d, g)) o) eqn:E; try done; simpl in Hb;
    [destruct Hd as [-> | ->]|subst d..].
  6: destruct Hb as [-> |Hb]; [by left|].
  all: destruct Hb as (r & -> & ? & ?); simpl; eauto 8.
Qed.

(** Reconciliation converges: nothing is left to do exactly when the observed state settles
    the desired one at its generation; from any observation, with any backend that does what a
    step asks, two passes reach such a state and further passes keep it. *)
Theorem reconcile_converges backend d g o n :
  obeys backend g → (2 ≤ n)%nat →
  (∀ o', reconcile (Some (d, g)) o' = ActNone ↔ settled d g o') ∧
  settled d g (passes n backend d g o) ∧
  reconcile (Some (d, g)) (passes n backend d g o) = ActNone.
Proof.
  intros Hb Hn.
  assert (∀ k x, settled d g x → settled d g (passes k backend d g x)) as Hstay.
  { induction k as [|k IH]; intros x Hx; cbn [passes]; [done|]. apply IH.
    pose proof (proj2 (reconcile_settled d g x) Hx) as E. rewrite E.
    specialize (Hb ActNone x). simpl in Hb. by rewrite Hb. }
  assert (settled d g (passes n backend d g o)) as Hs.
  { destruct n as [|[|n]]; [lia..|]. cbn [passes]. apply Hstay.
    set (o1 := backend (reconcile (Some (d, g)) o) o).
    assert (settled d g o1 ∨ ¬ settled d g o1) as [H1|H1].
    { rewrite <-reconcile_settled. destruct (decide (reconcile (Some (d, g)) o1 = ActNone)); auto. }
    { by apply (Hstay 1%nat o1). }
    destruct (reconcile_step backend d g o1 Hb H1) as [?|[-> _]]; [done|].
    assert (¬ settled DPaused g o) as H0.
    { intros H0. apply H1. by apply (Hstay 1%nat o). }
    destruct (reconcile_step backend DPaused g o Hb H0) as [?|[_ (r & Hr & Hst & Hg)]]; [done|].
    change (o1 = Some r) in Hr. rewrite Hr. unfold reconcile; simpl. rewrite Hst.
    destruct (Hb ActPause (Some r)) as (r' & -> & ? & ?). done. }
  split_and!; [apply reconcile_settled|done|by apply reconcile_settled].
Qed.

(** A concrete obedient backend. *)
Definition example_backend (generation : Generation) (action : ReconcileAction)
    (o : option Observation) : option Observation :=
  let at_state s := Some {| obs_state := s; obs_generation := generation; obs_sequence := 1;
                            obs_reason := None; obs_observed_at_millis := 0 |} in
  match action with
  | ActStart | ActResume | ActRestart => at_state ORunning
  | ActPause => at_state OPaused
  | ActStop => at_state OStopped
  | ActDelete => None
  | ActNone | ActAdopt => o
  end.

Lemma reconcile_converges_witness :
  settled DPaused (MkGeneration 2) (passes 2 (example_backend (MkGeneration 2)) DPaused
    (MkGeneration 2) None).
Proof.
  refine (proj1 (proj2 (reconcile_converges _ _ _ _ _ _ _))); [|apply le_n].
  intros [] o; simpl; eauto; try reflexivity.
Defined.

(** ** Operations *)

Definition op_step (s s' : OperationState) : Prop := operation_transition s s' = Ok tt.

Definition terminal (s : OperationState) : Prop :=
  s = OpSucceeded ∨ s = OpFailed ∨ s = OpCancelled.

(** The operation machine: an operation that starts pending takes at most two transitions
    and is terminal after the second; only a running operation succeeds; terminal states are
    exactly the ones with no transition, refused with [OperationFinished]; and recording a
    transition changes nothing but the state and the time. *)
Theorem operations_finish :
  (∀ n s, nsteps op_step n OpPending s → (n ≤ 2)%nat ∧ (n = 2%nat → terminal s)) ∧
  (∀ s, op_step s OpSucceeded → s = OpRunning) ∧
  (∀ s, terminal s ↔ ∀ s', operation_transition s s' = Err LOperationFinished) ∧
  (∀ op s t op', OperationRecord_transition op s t = Ok op' →
     op_step (op_state op) s ∧ op_state op' = s ∧ op_updated_at_millis op' = t ∧
     op_id op' = op_id op ∧ op_owner op' = op_owner op ∧ op_kind op' = op_kind op ∧
     op_generation op' = op_generation op ∧ op_request op' = op_request op ∧
     op_result op' = op_result op ∧ op_error op' = op_error op).
Proof.
  unfold op_step, terminal. split_and!.
  - intros n s H. inversion H as [|m ? x ? H1 H2]; subst; [split; [lia|done]|].
    inversion H2 as [|m' ? y ? H3 H4]; subst; [split; [lia|done]|].
    inversion H4 as [|m'' ? z ? H5 H6]; subst.
    + split; [lia|]. intros _. destruct x, s; naive_solver.
    + exfalso. destruct x, y, z; naive_solver.
  - intros []; naive_solver.
  - intros s. split; [intros [->|[->| ->]] []; done|].
    intros H. specialize (H OpPending). destruct s; naive_solver.
  - intros op s t op'. unfold OperationRecord_transition.
    destruct (operation_transition (op_state op) s) as [[]|]; [|done]. by intros [= <-].
Qed.
