(* ===== verification/VmmStore.v ===== *)
(** The stores of the VMM service: the ports of [crates/aseman-ports/src/vmm.rs] that the service
    keeps its state in, on storage ([crates/aseman-capsule/src/vmm.rs]).

    Four tables: workloads and operations with compare-and-set replacement and cursor pages,
    idempotency claims, and the event log with its two counters.  Records are kept as values where
    the adapter keeps their JSON, state columns as states and UUID columns as UUIDs; a transaction is
    one step, as the adapter's documentation has it.  A replacing call looks at the row and then updates
    it, and the update reads it again: [replace_workload_seen] and [replace_operation_seen] take what
    the look saw apart from the tables that the update meets.

    The theorems: reading page after page yields exactly the listing, each record once, within as
    many pages as it has records; a reader of the event log is told to list again or misses nothing;
    an idempotency key is claimed by one request at a time and answers with the stored response. *)

From S2P Require Import Prelude Text Core Ports Vmm.

Open Scope Z_scope.

(** ** Port values *)

Record Page (T : Type) := { page_items : list T; page_next_cursor : option str }.
Arguments page_items {T}.
Arguments page_next_cursor {T}.

Record WorkloadFilter := {
  wf_creature_id : option Uuid; wf_observed_state : option ObservedWorkloadState }.

Record OperationFilter := {
  of_workload_id : option Uuid; of_state : option OperationState }.

Record ReplayableResponse := {
  rr_status : u16; rr_body : list u8; rr_content_type : str; rr_location : option str }.

Inductive IdempotencyClaim :=
| ClaimClaimed | ClaimInProgress | ClaimCompleted (response : ReplayableResponse) | ClaimMismatch.

Record EventBatch := { eb_events : list WorkloadEventRecord; eb_resync : bool }.

(** ** Tables *)

Record VmmWorkloadRow := {
  vw_owner : str;
  vw_creature_id : Uuid;
  vw_observed_state : option ObservedWorkloadState;
  vw_resource_version : i64;
  vw_record : WorkloadRecord;
}.

Record VmmOperationRow := {
  vo_owner : str;
  vo_workload_id : option Uuid;
  vo_state : OperationState;
  vo_created_at_millis : i64;
  vo_record : OperationRecord;
}.

(** The columns that are read back; [owner] and [request_key] repeat the parts of the key. *)
Record VmmIdempotencyRow := {
  vi_digest : list u8;
  vi_claimed_at_millis : i64;
  vi_response_status : option i64;
  vi_response_body : option (list u8);
  vi_response_content_type : option str;
  vi_response_location : option str;
}.

Record VmmDb := {
  vd_workloads : gmap Uuid VmmWorkloadRow;
  vd_operations : gmap Uuid VmmOperationRow;
  vd_idempotency : gmap str VmmIdempotencyRow;
  vd_events : gmap Z WorkloadEventRecord;
  vd_counters : gmap str i64;
}.

Definition set_workloads (db : VmmDb) workloads : VmmDb :=
  {| vd_workloads := workloads; vd_operations := vd_operations db;
     vd_idempotency := vd_idempotency db; vd_events := vd_events db;
     vd_counters := vd_counters db |}.
Definition set_operations (db : VmmDb) operations : VmmDb :=
  {| vd_workloads := vd_workloads db; vd_operations := operations;
     vd_idempotency := vd_idempotency db; vd_events := vd_events db;
     vd_counters := vd_counters db |}.
Definition set_idempotency (db : VmmDb) claims : VmmDb :=
  {| vd_workloads := vd_workloads db; vd_operations := vd_operations db;
     vd_idempotency := claims; vd_events := vd_events db; vd_counters := vd_counters db |}.
Definition set_events (db : VmmDb) events counters : VmmDb :=
  {| vd_workloads := vd_workloads db; vd_operations := vd_operations db;
     vd_idempotency := vd_idempotency db; vd_events := events; vd_counters := counters |}.

Definition LAST_SEQUENCE : str := lit "vmm.event.last_sequence".
Definition TRUNCATED_THROUGH : str := lit "vmm.event.truncated_through".

Definition vmm_invalid : PortError := PFailed (lit "invalid storage request: " ++ try_from_int_error).
Definition vmm_signed (value : u64) : PortResult i64 := ok_or (i64_try_from value) vmm_invalid.

(** ** Pages *)

Definition cursor_key `{UuidText} (cursor : option str) : PortResult (option Uuid) :=
  match cursor with
  | None => Ok None
  | Some cursor =>
      match uuid_parse_str cursor with
      | Some id => Ok (Some id)
      | None => Err (PFailed (lit "invalid cursor"))
      end
  end.

Definition probe (limit : usize) : u64 := Z.max limit 1 + 1.

Definition page_of {T} (items : list T) (limit : usize) (key : T → str) : Page T :=
  let more := Z.max limit 1 <? Z.of_nat (length items) in
  let items := take (Z.to_nat (Z.max limit 1)) items in
  {| page_items := items; page_next_cursor := if more then key <$> last items else None |}.

(** ** Workloads *)

Definition VmmStore_workload (owner : str) (id : Uuid) (db : VmmDb) : option WorkloadRecord :=
  match vd_workloads db !! id with
  | Some row => if bool_decide (vw_owner row = owner) then Some (vw_record row) else None
  | None => None
  end.

(** The rows in key order. *)
Definition workload_rows (db : VmmDb) : list (Uuid * VmmWorkloadRow) :=
  merge_sort key_le (map_to_list (vd_workloads db)).

(** A condition on a column that is added only when the filter names a value. *)
Definition selected {A} (wanted column : option A) : Prop := wanted = None ∨ column = wanted.
#[export] Instance selected_dec `{EqDecision A} (wanted column : option A) :
  Decision (selected wanted column).
Proof. unfold selected. apply _. Defined.

(** [key().gt(after)], when a cursor was given. *)
Definition above (after : option Uuid) (key : Uuid) : Prop :=
  match after with Some after => (after < key)%N | None => True end.
#[export] Instance above_dec after key : Decision (above after key).
Proof. destruct after; simpl; apply _. Defined.

Definition VmmStore_workloads `{UuidText} (owner : str) (filter_ : WorkloadFilter)
    (cursor : option str) (limit : usize) (db : VmmDb) : PortResult (Page WorkloadRecord) :=
  let? after := cursor_key cursor in
  let rows := filter (λ p : Uuid * VmmWorkloadRow,
    vw_owner p.2 = owner ∧ above after p.1 ∧
    selected (wf_creature_id filter_) (Some (vw_creature_id p.2)) ∧
    selected (wf_observed_state filter_) (vw_observed_state p.2))
    (workload_rows db) in
  Ok (page_of ((λ p, vw_record p.2) <$> take (Z.to_nat (probe limit)) rows) limit
        (λ record, uuid_text (wr_id record))).

Definition VmmStore_all_workloads `{UuidText} (cursor : option str) (limit : usize) (db : VmmDb)
    : PortResult (Page WorkloadRecord) :=
  let? after := cursor_key cursor in
  let rows := filter (λ p : Uuid * VmmWorkloadRow, above after p.1) (workload_rows db) in
  Ok (page_of ((λ p, vw_record p.2) <$> take (Z.to_nat (probe limit)) rows) limit
        (λ record, uuid_text (wr_id record))).

(** The columns of a workload record. *)
Definition workload_row (record : WorkloadRecord) (owner : str) (version : i64) : VmmWorkloadRow :=
  {| vw_owner := owner; vw_creature_id := wl_creature_id (wr_labels record);
     vw_observed_state := obs_state <$> wr_observed record; vw_resource_version := version;
     vw_record := record |}.

Definition VmmStore_insert_workload (record : WorkloadRecord) (db : VmmDb)
    : PortResult unit * VmmDb :=
  match vmm_signed (wr_resource_version record) with
  | Err error => (Err error, db)
  | Ok version =>
      if is_some (vd_workloads db !! wr_id record) then (Err PConflict, db)
      else (Ok tt, set_workloads db
              (<[wr_id record := workload_row record (wr_owner record) version]> (vd_workloads db)))
  end.

(** The transaction of [replace_workload] looks at the row and then updates it, and the update looks
    again: [seen] is the row as the first look found it, [db] the store that the update writes to. *)
Definition replace_workload_seen (record : WorkloadRecord) (expected : u64) (seen : option VmmWorkloadRow)
    (db : VmmDb) : PortResult unit * VmmDb :=
  match ok_or (i64_try_from expected) (PortError_failed try_from_int_error) with
  | Err error => (Err error, db)
  | Ok expected =>
      match seen with
      | None => (Err PNotFound, db)
      | Some current =>
          if negb (bool_decide (vw_owner current = wr_owner record))
             || negb (vw_resource_version current =? expected) then (Err PConflict, db)
          else match vmm_signed (wr_resource_version record) with
          | Err error => (Err error, db)
          | Ok version =>
              (Ok tt, match vd_workloads db !! wr_id record with
                      | Some row => set_workloads db
                          (<[wr_id record := workload_row record (vw_owner row) version]> (vd_workloads db))
                      | None => db
                      end)
          end
      end
  end.

(** The call when nothing else writes the row between its look and its update. *)
Definition VmmStore_replace_workload (record : WorkloadRecord) (expected : u64) (db : VmmDb)
    : PortResult unit * VmmDb :=
  replace_workload_seen record expected (vd_workloads db !! wr_id record) db.

(** ** Operations *)

Definition VmmStore_operation (owner : str) (id : Uuid) (db : VmmDb) : option OperationRecord :=
  match vd_operations db !! id with
  | Some row => if bool_decide (vo_owner row = owner) then Some (vo_record row) else None
  | None => None
  end.

(** Newest first: by creation time, then by key, both descending. *)
Definition newer (p q : Uuid * VmmOperationRow) : Prop :=
  vo_created_at_millis q.2 < vo_created_at_millis p.2 ∨
  vo_created_at_millis q.2 = vo_created_at_millis p.2 ∧ (q.1 < p.1)%N.
#[export] Instance newer_dec p q : Decision (newer p q).
Proof. unfold newer. apply _. Defined.

Definition newer_eq (p q : Uuid * VmmOperationRow) : Prop := ¬ newer q p.
#[export] Instance newer_eq_dec : RelDecision newer_eq.
Proof. intros p q. unfold newer_eq. apply _. Defined.

Definition operation_rows (db : VmmDb) : list (Uuid * VmmOperationRow) :=
  merge_sort newer_eq (map_to_list (vd_operations db)).

Definition VmmStore_operations `{UuidText} (owner : str) (filter_ : OperationFilter)
    (cursor : option str) (limit : usize) (db : VmmDb) : PortResult (Page OperationRecord) :=
  let? after := cursor_key cursor in
  let matching := filter (λ p : Uuid * VmmOperationRow,
    vo_owner p.2 = owner ∧
    selected (of_workload_id filter_) (vo_workload_id p.2) ∧
    selected (of_state filter_) (Some (vo_state p.2))) (operation_rows db) in
  let rows := match after with
    | None => matching
    | Some after =>
        match vd_operations db !! after with
        | None => []
        | Some last => filter (λ p, newer (after, last) p) matching
        end
    end in
  Ok (page_of ((λ p, vo_record p.2) <$> take (Z.to_nat (probe limit)) rows) limit
        (λ record, uuid_text (op_id record))).

Definition VmmStore_insert_operation (record : OperationRecord) (db : VmmDb)
    : PortResult unit * VmmDb :=
  if is_some (vd_operations db !! op_id record) then (Err PConflict, db)
  else (Ok tt, set_operations db
    (<[op_id record :=
       {| vo_owner := op_owner record; vo_workload_id := op_workload_id record;
          vo_state := op_state record; vo_created_at_millis := op_created_at_millis record;
          vo_record := record |}]> (vd_operations db))).

(** [replace_operation] likewise. *)
Definition replace_operation_seen (record : OperationRecord) (expected : OperationState)
    (seen : option VmmOperationRow) (db : VmmDb) : PortResult unit * VmmDb :=
  match seen with
  | None => (Err PNotFound, db)
  | Some current =>
      if negb (bool_decide (vo_owner current = op_owner record))
         || negb (bool_decide (vo_state current = expected)) then (Err PConflict, db)
      else
        (Ok tt, match vd_operations db !! op_id record with
                | Some row => set_operations db
                    (<[op_id record :=
                       {| vo_owner := vo_owner row; vo_workload_id := vo_workload_id row;
                          vo_state := op_state record; vo_created_at_millis := vo_created_at_millis row;
                          vo_record := record |}]> (vd_operations db))
                | None => db
                end)
  end.

Definition VmmStore_replace_operation (record : OperationRecord) (expected : OperationState)
    (db : VmmDb) : PortResult unit * VmmDb :=
  replace_operation_seen record expected (vd_operations db !! op_id record) db.

(** Pending and running ones, oldest first. *)
Definition unfinished (state : OperationState) : bool :=
  match state with OpPending | OpRunning => true | _ => false end.

Definition VmmStore_unfinished_operations (limit : usize) (db : VmmDb) : list OperationRecord :=
  (λ p, vo_record p.2) <$> take (Z.to_nat (Z.max limit 1))
    (reverse (filter (λ p, unfinished (vo_state p.2) = true) (operation_rows db))).

(** ** Idempotency *)

Definition claim_key (owner key : str) : str := owner ++ 31%N :: key.

Definition VmmStore_claim (owner key : str) (digest : list u8) (now_millis claim_ttl_millis : i64)
    (db : VmmDb) : PortResult IdempotencyClaim * VmmDb :=
  let record := claim_key owner key in
  match vd_idempotency db !! record with
  | None =>
      (Ok ClaimClaimed, set_idempotency db (<[record :=
         {| vi_digest := digest; vi_claimed_at_millis := now_millis; vi_response_status := None;
            vi_response_body := None; vi_response_content_type := None;
            vi_response_location := None |}]> (vd_idempotency db)))
  | Some stored =>
      if negb (bool_decide (vi_digest stored = digest)) then (Ok ClaimMismatch, db)
      else match vi_response_status stored with
      | None =>
          if vi_claimed_at_millis stored <=? wrap_i64 (now_millis - claim_ttl_millis)
          then (Ok ClaimClaimed, set_idempotency db (<[record :=
                  {| vi_digest := vi_digest stored; vi_claimed_at_millis := now_millis;
                     vi_response_status := vi_response_status stored;
                     vi_response_body := vi_response_body stored;
                     vi_response_content_type := vi_response_content_type stored;
                     vi_response_location := vi_response_location stored |}]>
                  (vd_idempotency db)))
          else (Ok ClaimInProgress, db)
      | Some status =>
          match checked 0 65535 status with
          | None => (Err vmm_invalid, db)
          | Some status =>
              (Ok (ClaimCompleted
                 {| rr_status := status; rr_body := default [] (vi_response_body stored);
                    rr_content_type := default [] (vi_response_content_type stored);
                    rr_location := vi_response_location stored |}), db)
          end
      end
  end.

Definition VmmStore_complete (owner key : str) (response : ReplayableResponse) (db : VmmDb)
    : PortResult unit * VmmDb :=
  let record := claim_key owner key in
  match vd_idempotency db !! record with
  | None => (Err PNotFound, db)
  | Some stored =>
      (Ok tt, set_idempotency db (<[record :=
         {| vi_digest := vi_digest stored; vi_claimed_at_millis := vi_claimed_at_millis stored;
            vi_response_status := Some (rr_status response);
            vi_response_body := Some (rr_body response);
            vi_response_content_type := Some (rr_content_type response);
            vi_response_location := rr_location response |}]> (vd_idempotency db)))
  end.

Definition VmmStore_release (owner key : str) (db : VmmDb) : PortResult unit * VmmDb :=
  let record := claim_key owner key in
  if is_some_and (λ claim, is_none (vi_response_status claim)) (vd_idempotency db !! record)
  then (Ok tt, set_idempotency db (delete record (vd_idempotency db)))
  else (Ok tt, db).

Definition VmmStore_purge_before (cutoff_millis : i64) (db : VmmDb) : PortResult u64 * VmmDb :=
  let kept := filter (λ p : str * VmmIdempotencyRow, ¬ vi_claimed_at_millis p.2 < cutoff_millis)
                (vd_idempotency db) in
  (Ok (Z.of_nat (size (vd_idempotency db) - size kept)), set_idempotency db kept).

(** ** Events *)

Definition counter_value (db : VmmDb) (key : str) : i64 := default 0 (vd_counters db !! key).

(** The event with its sequence assigned. *)
Definition stamped (event : WorkloadEventRecord) (sequence : u64) : WorkloadEventRecord :=
  {| ev_owner := ev_owner event; ev_sequence := sequence;
     ev_workload_id := ev_workload_id event; ev_at_millis := ev_at_millis event;
     ev_event_type := ev_event_type event; ev_observation := ev_observation event;
     ev_operation := ev_operation event |}.

Definition VmmStore_append (event : WorkloadEventRecord) (db : VmmDb) : PortResult u64 * VmmDb :=
  let sequence := wrap_i64 (counter_value db LAST_SEQUENCE + 1) in
  match u64_try_from sequence with
  | None => (Err vmm_invalid, db)
  | Some assigned =>
      if is_some (vd_events db !! sequence) then (Err PConflict, db)
      else (Ok assigned, set_events db
        (<[sequence := stamped event assigned]> (vd_events db))
        (<[LAST_SEQUENCE := sequence]> (vd_counters db)))
  end.

(** The rows in sequence order. *)
Definition ev_le (p q : Z * WorkloadEventRecord) : Prop := p.1 ≤ q.1.
#[export] Instance ev_le_dec : RelDecision ev_le.
Proof. intros p q. unfold ev_le. apply _. Defined.

Definition event_rows (db : VmmDb) : list (Z * WorkloadEventRecord) :=
  merge_sort ev_le (map_to_list (vd_events db)).

(** The conditions of [events_after]. *)
Definition event_wanted (owner : str) (after : Z) (workload : option Uuid)
    (p : Z * WorkloadEventRecord) : Prop :=
  ev_owner p.2 = owner ∧ after < p.1 ∧ selected workload (Some (ev_workload_id p.2)).
#[export] Instance event_wanted_dec owner after workload p :
  Decision (event_wanted owner after workload p).
Proof. unfold event_wanted. apply _. Defined.

Definition VmmStore_events_after (owner : str) (after : u64) (workload : option Uuid)
    (limit : usize) (db : VmmDb) : PortResult EventBatch :=
  let? after := ok_or (i64_try_from after) (PortError_failed try_from_int_error) in
  if after <? counter_value db TRUNCATED_THROUGH then Ok {| eb_events := []; eb_resync := true |}
  else Ok {| eb_events := snd <$> take (Z.to_nat (Z.max limit 1))
               (filter (event_wanted owner after workload) (event_rows db));
             eb_resync := false |}.

Definition VmmStore_truncate_before (cutoff_millis : i64) (db : VmmDb) : PortResult u64 * VmmDb :=
  let expired := filter (λ p : Z * WorkloadEventRecord, ev_at_millis p.2 < cutoff_millis)
                   (event_rows db) in
  match last expired with
  | None => (Ok 0, db)
  | Some highest =>
      let counters := <[LAST_SEQUENCE := counter_value db LAST_SEQUENCE]> (vd_counters db) in
      let truncated := Z.max (counter_value db TRUNCATED_THROUGH) highest.1 in
      (Ok (Z.of_nat (length expired)),
       set_events db
         (filter (λ p : Z * WorkloadEventRecord, ¬ ev_at_millis p.2 < cutoff_millis)
            (vd_events db))
         (<[TRUNCATED_THROUGH := truncated]> counters))
  end.

(** ** The event log *)

#[export] Instance ev_le_total : Total ev_le.
Proof. intros p q. unfold ev_le. lia. Qed.
#[export] Instance ev_le_trans : Transitive ev_le.
Proof. intros p q r. unfold ev_le. lia. Qed.

(** What happens to a log: appends (one at a time, whoever makes them) and truncations.  The second
    component remembers every event that was ever appended. *)
Inductive LogChange := LogAppend (event : WorkloadEventRecord) | LogTruncate (cutoff_millis : i64).

Definition log_step (s : VmmDb * list (Z * WorkloadEventRecord)) (change : LogChange)
    : VmmDb * list (Z * WorkloadEventRecord) :=
  match change with
  | LogAppend event =>
      match VmmStore_append event s.1 with
      | (Ok sequence, db) => (db, s.2 ++ [(sequence, stamped event sequence)])
      | (Err _, db) => (db, s.2)
      end
  | LogTruncate cutoff_millis => ((VmmStore_truncate_before cutoff_millis s.1).2, s.2)
  end.

Definition log_run (db : VmmDb) (changes : list LogChange)
    : VmmDb * list (Z * WorkloadEventRecord) :=
  foldl log_step (db, []) changes.

(** The stored log against everything that was appended: it holds only appended events, and all of
    them above the truncation mark. *)
Record log_ok (db : VmmDb) (all : list (Z * WorkloadEventRecord)) : Prop := {
  log_dense : all.*1 = seqZ 1 (Z.of_nat (length all));
  log_last : counter_value db LAST_SEQUENCE = Z.of_nat (length all);
  log_mark : 0 ≤ counter_value db TRUNCATED_THROUGH ≤ Z.of_nat (length all);
  log_sound k e : vd_events db !! k = Some e → (k, e) ∈ all;
  log_kept k e : (k, e) ∈ all → counter_value db TRUNCATED_THROUGH < k →
    vd_events db !! k = Some e;
}.

Lemma log_range db all k e : log_ok db all → (k, e) ∈ all → 1 ≤ k ≤ Z.of_nat (length all).
Proof.
  intros Hs Hk. apply (list_elem_of_fmap_2 fst) in Hk. simpl in Hk. rewrite (log_dense _ _ Hs) in Hk.
  apply elem_of_seqZ in Hk. lia.
Qed.

Lemma log_nodup db all : log_ok db all → NoDup all.*1.
Proof. intros Hs. rewrite (log_dense _ _ Hs). apply NoDup_seqZ. Qed.

Lemma elem_of_event_rows db p : p ∈ event_rows db ↔ vd_events db !! p.1 = Some p.2.
Proof.
  unfold event_rows. rewrite merge_sort_Permutation. destruct p. by rewrite elem_of_map_to_list.
Qed.

Lemma log_append_ok s event :
  log_ok s.1 s.2 → Z.of_nat (length s.2) < i64_max →
  log_ok (log_step s (LogAppend event)).1 (log_step s (LogAppend event)).2.
Proof.
  intros Hs Hmax. destruct s as [db all]. simpl in *. unfold VmmStore_append.
  rewrite (log_last _ _ Hs). set (n := Z.of_nat (length all)) in *.
  assert (0 ≤ n) by lia. rewrite wrap_i64_id by ilia. unfold u64_try_from.
  rewrite checked_in by ilia.
  assert (vd_events db !! (n + 1) = None) as Hnone.
  { destruct (vd_events db !! (n + 1)) as [e|] eqn:E; [|done].
    apply (log_sound _ _ Hs) in E. apply (log_range _ _ _ _ Hs) in E. simpl in E. lia. }
  rewrite Hnone. simpl.
  assert (∀ db', counter_value (set_events db' (<[n + 1 := stamped event (n + 1)]> (vd_events db))
      (<[LAST_SEQUENCE := n + 1]> (vd_counters db))) TRUNCATED_THROUGH
      = counter_value db TRUNCATED_THROUGH) as Hmark.
  { intros db'. unfold counter_value. simpl. by rewrite lookup_insert_ne. }
  split; simpl; rewrite ?Hmark, ?length_app; simpl.
  - rewrite fmap_app. simpl. rewrite (log_dense _ _ Hs). simpl. fold n.
    rewrite Nat2Z.inj_add. change (Z.of_nat 1) with 1. fold n.
    rewrite seqZ_app by lia. simpl. by rewrite (Z.add_comm 1 n).
  - unfold counter_value. simpl. rewrite lookup_insert_eq. simpl. lia.
  - pose proof (log_mark _ _ Hs) as Hm. simpl in Hm. lia.
  - intros k e. rewrite lookup_insert_Some, elem_of_app, list_elem_of_singleton.
    intros [[<- <-]|[_ Hk]]; [by right|left; by apply (log_sound _ _ Hs)].
  - intros k e [Hk|[= -> ->]%list_elem_of_singleton]%elem_of_app Hlt.
    + pose proof (log_range _ _ _ _ Hs Hk) as Hr. simpl in Hr. rewrite lookup_insert_ne by lia.
      by apply (log_kept _ _ Hs).
    + by rewrite lookup_insert_eq.
Qed.

Lemma log_truncate_ok s cutoff :
  log_ok s.1 s.2 → log_ok (log_step s (LogTruncate cutoff)).1 (log_step s (LogTruncate cutoff)).2.
Proof.
  intros Hs. destruct s as [db all]. simpl in *. unfold VmmStore_truncate_before.
  destruct (last _) as [[h he]|] eqn:Hlast; [|done]. simpl.
  assert (StronglySorted ev_le (filter (λ p : Z * WorkloadEventRecord,
    ev_at_millis p.2 < cutoff) (event_rows db))) as Hsort.
  { apply StronglySorted_filter, (StronglySorted_merge_sort ev_le). }
  apply last_Some in Hlast as [before Hexp]. rewrite Hexp in Hsort.
  assert ((h, he) ∈ event_rows db ∧ ev_at_millis he < cutoff) as [Hin Hold].
  { assert ((h, he) ∈ before ++ [(h, he)]) as H by set_solver. rewrite <-Hexp in H.
    by apply list_elem_of_filter in H as [??]. }
  apply elem_of_event_rows in Hin. simpl in Hin. apply (log_sound _ _ Hs) in Hin.
  pose proof (log_range _ _ _ _ Hs Hin) as Hr. pose proof (log_mark _ _ Hs) as Hm. simpl in Hr, Hm.
  assert (∀ ev, counter_value (set_events db ev (<[TRUNCATED_THROUGH :=
      Z.max (counter_value db TRUNCATED_THROUGH) h]> (<[LAST_SEQUENCE :=
      counter_value db LAST_SEQUENCE]> (vd_counters db)))) TRUNCATED_THROUGH
      = Z.max (counter_value db TRUNCATED_THROUGH) h) as Hmark.
  { intros ev. unfold counter_value at 1. simpl. by rewrite lookup_insert_eq. }
  split; simpl; rewrite ?Hmark.
  - apply (log_dense _ _ Hs).
  - unfold counter_value at 1. simpl. rewrite lookup_insert_ne by done. rewrite lookup_insert_eq.
    apply (log_last _ _ Hs).
  - lia.
  - intros k e [Hk _]%map_lookup_filter_Some. by apply (log_sound _ _ Hs).
  - intros k e Hk Hlt. assert (vd_events db !! k = Some e) as Hke
      by (apply (log_kept _ _ Hs); simpl; [done|lia]).
    apply map_lookup_filter_Some. split; [done|]. simpl. intros Hexpired.
    assert ((k, e) ∈ before ++ [(h, he)]) as Hk'.
    { rewrite <-Hexp. apply list_elem_of_filter. split; [done|]. by apply elem_of_event_rows. }
    apply elem_of_app in Hk' as [Hk'|[= -> ->]%list_elem_of_singleton]; [|lia].
    apply (StronglySorted_app_1_elem_of ev_le _ _ _ (h, he) Hsort) in Hk'; [|by left].
    unfold ev_le in Hk'. simpl in Hk'. lia.
Qed.

Lemma log_run_ok db changes :
  vd_events db = ∅ → vd_counters db = ∅ → Z.of_nat (length changes) < i64_max →
  log_ok (log_run db changes).1 (log_run db changes).2 ∧
  (length (log_run db changes).2 ≤ length changes)%nat.
Proof.
  intros He Hc. induction changes as [|change changes IH] using rev_ind; intros Hlen.
  - split; [|done]. unfold log_run. simpl.
    split; simpl; unfold counter_value; rewrite ?He, ?Hc; simpl; try done.
    intros k e Hk. by apply not_elem_of_nil in Hk.
  - rewrite length_app in *. simpl in *. destruct IH as [IH Hle]; [lia|].
    unfold log_run in *. rewrite foldl_snoc. split.
    + destruct change; [apply log_append_ok; [done|lia]|by apply log_truncate_ok].
    + destruct change; simpl; [|lia]. unfold VmmStore_append.
      repeat case_match; simplify_eq/=; rewrite ?length_app; simpl; lia.
Qed.

Lemma log_rows_filter db all owner after workload :
  log_ok db all → counter_value db TRUNCATED_THROUGH ≤ after →
  filter (event_wanted owner after workload) (event_rows db)
    = filter (event_wanted owner after workload) all.
Proof.
  intros Hs Hafter. apply (StronglySorted_unique_strong ev_le).
  - intros p q [_ Hp]%list_elem_of_filter [_ Hq]%list_elem_of_filter Hle Hge.
    apply elem_of_event_rows, (log_sound _ _ Hs) in Hp. destruct p as [k e], q as [k' e'].
    assert (k = k') as <- by (unfold ev_le in *; simpl in *; lia). f_equal.
    by eapply (NoDup_fst_inj all); [by eapply log_nodup|..].
  - apply StronglySorted_filter, (StronglySorted_merge_sort ev_le).
  - apply StronglySorted_filter. apply (StronglySorted_fmap_inv fst Z.le); [done|].
    rewrite (log_dense _ _ Hs). apply seqZ_sorted.
  - apply NoDup_Permutation.
    + apply NoDup_filter. unfold event_rows. rewrite merge_sort_Permutation. apply NoDup_map_to_list.
    + apply NoDup_filter, (NoDup_fmap_1 fst). by eapply log_nodup.
    + intros [k e]. rewrite !list_elem_of_filter, elem_of_event_rows. simpl. split.
      * intros [? ?%(log_sound _ _ Hs)]. done.
      * intros [Hw Hk]. split; [done|]. apply (log_kept _ _ Hs); [done|].
        destruct Hw as (_ & ? & _). simpl in *. lia.
Qed.

(** ** Pages *)

(** Every row is stored under the id of its record. *)
Definition workloads_keyed (db : VmmDb) : Prop :=
  ∀ id row, vd_workloads db !! id = Some row → wr_id (vw_record row) = id ∧ is_uuid id.

Lemma elem_of_workload_rows db p : p ∈ workload_rows db ↔ vd_workloads db !! p.1 = Some p.2.
Proof.
  unfold workload_rows. rewrite merge_sort_Permutation. destruct p. by rewrite elem_of_map_to_list.
Qed.

Definition key_lt {V} (p q : Uuid * V) : Prop := (p.1 < q.1)%N.

Lemma workload_rows_sorted db : StronglySorted key_lt (workload_rows db).
Proof.
  assert (NoDup (workload_rows db).*1) as Hnd.
  { unfold workload_rows. rewrite merge_sort_Permutation. apply NoDup_fst_map_to_list. }
  assert (StronglySorted key_le (workload_rows db)) as Hs
    by apply (StronglySorted_merge_sort key_le).
  induction Hs as [|p l Hl IH Hp]; [constructor|]. apply NoDup_cons in Hnd as [Hni Hnd].
  constructor; [auto|]. rewrite Forall_forall in *. intros q Hq. specialize (Hp q Hq).
  unfold key_le, key_lt in *. assert (p.1 ≠ q.1); [|lia].
  intros E. apply Hni. rewrite E. by apply list_elem_of_fmap_2.
Qed.

(** The rows above the last row of a page are the rows after it. *)
Lemma above_last {V} (l k : list (Uuid * V)) (p : Uuid * V) :
  StronglySorted key_lt (l ++ p :: k) → filter (λ q, above (Some p.1) q.1) (l ++ p :: k) = k.
Proof.
  intros (Hl & _ & Hs)%StronglySorted_app. inversion Hs as [|? ? Hk Hp]; subst.
  rewrite Forall_forall in Hp. rewrite filter_app, filter_none; simpl.
  - rewrite filter_cons_False by (simpl; lia). by apply filter_all.
  - intros q Hq. specialize (Hl q p). unfold key_lt in Hl. assert (p ∈ p :: k) by by left.
    specialize (Hl Hq H). lia.
Qed.

(** Reading page after page until there is no next cursor; [None] when the fuel runs out. *)
Fixpoint all_pages `{UuidText} (fuel : nat) (cursor : option str) (limit : usize) (db : VmmDb)
    : option (PortResult (list WorkloadRecord)) :=
  match fuel with
  | O => None
  | S fuel =>
      match VmmStore_all_workloads cursor limit db with
      | Err error => Some (Err error)
      | Ok page =>
          match page_next_cursor page with
          | None => Some (Ok (page_items page))
          | Some next =>
              result_map (app (page_items page)) <$> all_pages fuel (Some next) limit db
          end
      end
  end.

(** A page of a longer list ends in the cursor of its last item. *)
Lemma page_of_rows {V T} (rows : list (Uuid * V)) (record : Uuid * V → T) limit (key : T → str) :
  let n := Z.to_nat (Z.max limit 1) in
  let page := page_of (record <$> take (Z.to_nat (probe limit)) rows) limit key in
  page_items page = record <$> take n rows ∧
  ((length rows ≤ n)%nat ∧ page_next_cursor page = None ∨
   ∃ l p, rows = l ++ p :: drop n rows ∧ take n rows = l ++ [p] ∧
     page_next_cursor page = Some (key (record p))).
Proof.
  set (n := Z.to_nat (Z.max limit 1)). assert (Z.max limit 1 = Z.of_nat n ∧ (1 ≤ n)%nat) as [En Hn]
    by (unfold n; lia). unfold page_of, probe. rewrite En. rewrite Z2Nat.inj_add, !Nat2Z.id by lia.
  change (Z.to_nat 1) with 1%nat. simpl. rewrite <-fmap_take, take_take, Nat.min_l by lia.
  split; [done|]. rewrite length_fmap, length_take.
  destruct (decide (length rows ≤ n)%nat) as [Hle|Hgt].
  - left. split; [done|]. destruct (Z.ltb_spec (Z.of_nat n) (Z.of_nat ((n + 1) `min` length rows)));
      [lia|done].
  - right. destruct (Z.ltb_spec (Z.of_nat n) (Z.of_nat ((n + 1) `min` length rows))); [|lia].
    destruct (last (take n rows)) as [p|] eqn:Hlast.
    + apply last_Some in Hlast as [l Hl]. exists l, p. split_and!; [|done|].
      * rewrite <-(take_drop n rows) at 1. rewrite Hl. by rewrite <-app_assoc.
      * rewrite Hl, fmap_app. simpl. by rewrite last_snoc.
    + apply last_None in Hlast. apply (f_equal length) in Hlast. rewrite length_take in Hlast.
      simpl in Hlast. lia.
Qed.

Lemma all_pages_from `{UuidTextLaws} fuel after limit db :
  workloads_keyed db →
  (length (filter (λ p : Uuid * VmmWorkloadRow, above after p.1) (workload_rows db)) < fuel)%nat →
  (∀ a, after = Some a → is_uuid a) →
  all_pages fuel (uuid_text <$> after) limit db = Some (Ok ((λ p, vw_record p.2) <$>
    filter (λ p : Uuid * VmmWorkloadRow, above after p.1) (workload_rows db))).
Proof.
  intros Hk. revert after. induction fuel as [|fuel IH]; intros after Hf Ha; [lia|].
  assert (cursor_key (uuid_text <$> after) = Ok after) as Hc.
  { destruct after as [a|]; simpl; [|done]. by rewrite uuid_parse_text by auto. }
  cbn [all_pages]. unfold VmmStore_all_workloads. rewrite Hc.
  set (rest := filter _ (workload_rows db)) in *.
  destruct (page_of_rows rest (λ p, vw_record p.2) limit (λ r, uuid_text (wr_id r)))
    as [-> [[Hle ->]|(l & p & Hrest & Htake & ->)]].
  - by rewrite take_ge.
  - assert (p ∈ rest) as Hp by (rewrite Hrest; set_solver).
    apply list_elem_of_filter in Hp as [Hab Hin%elem_of_workload_rows].
    destruct (Hk _ _ Hin) as [-> Hu].
    assert (filter (λ q : Uuid * VmmWorkloadRow, above (Some p.1) q.1) (workload_rows db)
      = drop (Z.to_nat (Z.max limit 1)) rest) as Hnext.
    { rewrite <-(list_filter_filter_l _ (λ q : Uuid * VmmWorkloadRow, above after q.1)).
      - fold rest. rewrite Hrest at 1. apply above_last. rewrite <-Hrest.
        apply StronglySorted_filter, workload_rows_sorted.
      - intros q. destruct after; simpl in *; [lia|done]. }
    specialize (IH (Some p.1)). rewrite Hnext in IH. cbn [fmap option_fmap option_map] in IH.
    rewrite IH; [| |by intros a [= <-]].
    + cbn [fmap option_fmap option_map result_map]. by rewrite <-fmap_app, take_drop.
    + rewrite Hrest, length_app in Hf. simpl in Hf. lia.
Qed.

(** ** Idempotency keys *)

(** Everything that happens to the claims. *)
Inductive KeyChange :=
| KeyClaim (owner key : str) (digest : list u8) (now_millis claim_ttl_millis : i64)
| KeyComplete (owner key : str) (response : ReplayableResponse)
| KeyRelease (owner key : str)
| KeyPurge (cutoff_millis : i64).

Definition key_step (db : VmmDb) (change : KeyChange) : VmmDb :=
  match change with
  | KeyClaim owner key digest now ttl => (VmmStore_claim owner key digest now ttl db).2
  | KeyComplete owner key response => (VmmStore_complete owner key response db).2
  | KeyRelease owner key => (VmmStore_release owner key db).2
  | KeyPurge cutoff => (VmmStore_purge_before cutoff db).2
  end.

(** What leaves a claim made at [now] under [record] alone: claims before it counts as abandoned,
    purges of older claims, and anything about other keys. *)
Definition leaves_claim (now : i64) (record : str) (change : KeyChange) : Prop :=
  match change with
  | KeyClaim owner key _ now' ttl =>
      claim_key owner key = record → wrap_i64 (now' - ttl) < now
  | KeyComplete owner key _ | KeyRelease owner key => claim_key owner key ≠ record
  | KeyPurge cutoff => cutoff ≤ now
  end.

(** What leaves a stored answer alone: everything but another completion and its purge. *)
Definition leaves_answer (now : i64) (record : str) (change : KeyChange) : Prop :=
  match change with
  | KeyClaim _ _ _ _ _ | KeyRelease _ _ => True
  | KeyComplete owner key _ => claim_key owner key ≠ record
  | KeyPurge cutoff => cutoff ≤ now
  end.

Lemma claim_key_inj o k o' k' :
  31%N ∉ o → 31%N ∉ o' → claim_key o k = claim_key o' k' → o = o' ∧ k = k'.
Proof. intros ?? E. by apply sep_inj in E. Qed.

(** A claim is a change of its own row only. *)
Lemma key_step_row db change record row :
  vd_idempotency db !! record = Some row →
  match vi_response_status row with
  | None => leaves_claim (vi_claimed_at_millis row) record change
  | Some _ => leaves_answer (vi_claimed_at_millis row) record change
  end →
  vd_idempotency (key_step db change) !! record = Some row.
Proof.
  intros Hrow Hleaves. destruct change as [o k d now ttl|o k r|o k|cutoff]; simpl in *.
  - unfold VmmStore_claim. destruct (decide (claim_key o k = record)) as [E|E].
    + rewrite E, Hrow. destruct (negb _); [done|].
      destruct (vi_response_status row) as [s|] eqn:Hs; simpl in Hleaves.
      * by destruct (checked _ _ _).
      * specialize (Hleaves E). destruct (Z.leb_spec (vi_claimed_at_millis row)
          (wrap_i64 (now - ttl))); [lia|done].
    + repeat case_match; simpl; rewrite ?lookup_insert_ne by done; done.
  - assert (claim_key o k ≠ record) by by destruct (vi_response_status row).
    unfold VmmStore_complete. destruct (_ !! claim_key o k); simpl; [|done].
    by rewrite lookup_insert_ne.
  - unfold VmmStore_release. destruct (decide (claim_key o k = record)) as [E|E].
    + rewrite E, Hrow. simpl. unfold is_none.
      destruct (vi_response_status row); simpl in *; [done|contradiction].
    + destruct (is_some_and _ _); simpl; [|done]. by rewrite lookup_delete_ne.
  - apply map_lookup_filter_Some. split; [done|]. simpl. destruct (vi_response_status row); lia.
Qed.

Lemma key_run_row db changes record row :
  vd_idempotency db !! record = Some row →
  Forall (λ change, match vi_response_status row with
    | None => leaves_claim (vi_claimed_at_millis row) record change
    | Some _ => leaves_answer (vi_claimed_at_millis row) record change
    end) changes →
  vd_idempotency (foldl key_step db changes) !! record = Some row.
Proof.
  intros Hrow Hall. revert db Hrow. induction Hall; intros db Hrow; simpl; [done|].
  apply IHHall. by apply key_step_row.
Qed.

Lemma claim_claimed db o k d now ttl :
  (VmmStore_claim o k d now ttl db).1 = Ok ClaimClaimed →
  ∃ row, vd_idempotency (VmmStore_claim o k d now ttl db).2 !! claim_key o k = Some row ∧
    vi_digest row = d ∧ vi_claimed_at_millis row = now ∧ vi_response_status row = None.
Proof.
  unfold VmmStore_claim. destruct (vd_idempotency db !! claim_key o k) as [row|] eqn:Hrow; simpl.
  - destruct (negb _) eqn:Hd; [done|]. apply negb_false_iff, bool_decide_eq_true in Hd.
    destruct (vi_response_status row) as [s|] eqn:Hs; [by destruct (checked _ _ _)|].
    destruct (_ <=? _); [|done]. intros _. eexists. split; [apply lookup_insert_eq|done].
  - intros _. eexists. split; [apply lookup_insert_eq|done].
Qed.

(** ** Properties *)

(** The event log has no silent gap: after any appends and truncations, the sequences handed
    out are 1, 2, 3 and so on; a reader at a position is told to list again exactly when the
    position is below the truncation mark, which an up-to-date reader's never is; and otherwise it
    gets the first events, up to its limit, of all that were ever appended for it above that
    position, in order. *)
Theorem event_log_complete db changes owner after workload limit :
  vd_events db = ∅ → vd_counters db = ∅ → Z.of_nat (length changes) < i64_max →
  0 ≤ after ≤ i64_max →
  let s := log_run db changes in
  s.2.*1 = seqZ 1 (Z.of_nat (length s.2)) ∧
  counter_value s.1 TRUNCATED_THROUGH ≤ Z.of_nat (length s.2) ∧
  VmmStore_events_after owner after workload limit s.1 = Ok
    (if after <? counter_value s.1 TRUNCATED_THROUGH
     then {| eb_events := []; eb_resync := true |}
     else {| eb_events := snd <$> take (Z.to_nat (Z.max limit 1))
               (filter (event_wanted owner after workload) s.2);
             eb_resync := false |}).
Proof.
  intros He Hc Hlen Ha s. destruct (log_run_ok _ _ He Hc Hlen) as [Hs _]. fold s in Hs.
  split_and!; [apply (log_dense _ _ Hs)|apply (log_mark _ _ Hs)|].
  unfold VmmStore_events_after, i64_try_from. rewrite checked_in by ilia. simpl.
  destruct (Z.ltb_spec after (counter_value s.1 TRUNCATED_THROUGH)); [done|].
  by rewrite (log_rows_filter _ _ _ _ _ Hs).
Qed.

(** Pages cover the listing: following the cursors from the first page reads every workload
    exactly once, in key order, and stops within one page more than there are workloads. *)
Theorem pages_cover `{UuidTextLaws} fuel limit db :
  workloads_keyed db → (size (vd_workloads db) < fuel)%nat →
  all_pages fuel None limit db = Some (Ok ((λ p, vw_record p.2) <$> workload_rows db)) ∧
  StronglySorted key_lt (workload_rows db) ∧
  (∀ id row, (id, row) ∈ workload_rows db ↔ vd_workloads db !! id = Some row).
Proof.
  intros Hk Hf. split_and!; [|apply workload_rows_sorted|intros; apply elem_of_workload_rows].
  assert (filter (λ p : Uuid * VmmWorkloadRow, above None p.1) (workload_rows db)
    = workload_rows db) as E by by apply filter_all.
  pose proof (all_pages_from fuel None limit db Hk) as Hpages. rewrite E in Hpages.
  apply Hpages; [|done]. unfold workload_rows. rewrite merge_sort_Permutation.
  by rewrite length_map_to_list.
Qed.

(** Idempotency keys: once a request has claimed its key, whatever else happens to the claims
    (short of its release, its completion or its expiry) every further request with that key is
    told that it is in progress, or that the key belongs to another request; completing it then
    succeeds, and from then on (until it is completed again or purged) the same request is always
    answered with exactly that response and any other one is refused. *)
Theorem idempotency_keys db o k d now ttl r changes changes' :
  (VmmStore_claim o k d now ttl db).1 = Ok ClaimClaimed → 0 ≤ rr_status r ≤ 65535 →
  Forall (leaves_claim now (claim_key o k)) changes →
  Forall (leaves_answer now (claim_key o k)) changes' →
  let claimed := foldl key_step (VmmStore_claim o k d now ttl db).2 changes in
  let answered := foldl key_step (VmmStore_complete o k r claimed).2 changes' in
  (∀ d' now' ttl', wrap_i64 (now' - ttl') < now →
     VmmStore_claim o k d' now' ttl' claimed
     = (Ok (if bool_decide (d' = d) then ClaimInProgress else ClaimMismatch), claimed)) ∧
  (VmmStore_complete o k r claimed).1 = Ok tt ∧
  (∀ d' now' ttl', VmmStore_claim o k d' now' ttl' answered
     = (Ok (if bool_decide (d' = d) then ClaimCompleted r else ClaimMismatch), answered)).
Proof.
  intros Hclaim Hr Hc Ha claimed answered.
  destruct (claim_claimed _ _ _ _ _ _ Hclaim) as (row & Hrow & Hd & Hnow & Hs).
  assert (vd_idempotency claimed !! claim_key o k = Some row) as Hrow1.
  { apply key_run_row; [done|]. by rewrite Hs, Hnow. }
  set (row' := {| vi_digest := d; vi_claimed_at_millis := now;
    vi_response_status := Some (rr_status r); vi_response_body := Some (rr_body r);
    vi_response_content_type := Some (rr_content_type r);
    vi_response_location := rr_location r |}).
  assert (vd_idempotency (VmmStore_complete o k r claimed).2 !! claim_key o k = Some row') as Hrow2.
  { unfold VmmStore_complete. rewrite Hrow1. simpl. rewrite lookup_insert_eq, Hd, Hnow. done. }
  assert (vd_idempotency answered !! claim_key o k = Some row') as Hrow3 by by apply key_run_row.
  split_and!.
  - intros d' now' ttl' Hlt. unfold VmmStore_claim. rewrite Hrow1, Hs, Hd, Hnow.
    destruct (Z.leb_spec now (wrap_i64 (now' - ttl'))); [lia|].
    repeat case_bool_decide; subst; done.
  - unfold VmmStore_complete. by rewrite Hrow1.
  - intros d' now' ttl'. unfold VmmStore_claim. rewrite Hrow3. simpl.
    rewrite checked_in by done. destruct r. repeat case_bool_decide; subst; done.
Qed.

(** ** Witnesses *)

Definition empty_vmm : VmmDb :=
  {| vd_workloads := ∅; vd_operations := ∅; vd_idempotency := ∅; vd_events := ∅;
     vd_counters := ∅ |}.

Definition example_event (at_millis : Z) : WorkloadEventRecord :=
  {| ev_owner := lit "node"; ev_sequence := 0; ev_workload_id := 7%N; ev_at_millis := at_millis;
     ev_event_type := EvOperation; ev_observation := None; ev_operation := None |}.

Lemma event_log_complete_witness :
  VmmStore_events_after (lit "node") 1 None 10
    (log_run empty_vmm [LogAppend (example_event 5); LogAppend (example_event 9);
                        LogTruncate 6; LogAppend (example_event 8)]).1
  = Ok {| eb_events := [stamped (example_event 9) 2; stamped (example_event 8) 3];
          eb_resync := false |}.
Proof.
  destruct (event_log_complete empty_vmm [LogAppend (example_event 5); LogAppend (example_event 9);
    LogTruncate 6; LogAppend (example_event 8)] (lit "node") 1 None 10) as (_ & _ & ->);
    [reflexivity|reflexivity|reflexivity|split; discriminate|].
  vm_compute. reflexivity.
Defined.

Definition example_spec : WorkloadSpec :=
  {| spec_runtime := lit "wasm";
     spec_artifact := {| artifact_kind := ArtifactBlob; artifact_reference := lit "a";
                         artifact_digest := lit "sha256:0" |};
     spec_entry := lit "main";
     spec_resources := {| res_vcpu_millis := 100; res_memory_mib := 64; res_disk_mib := None;
                          res_invocation_timeout_millis := None |};
     spec_network := {| np_ingress := []; np_egress_allow := [] |};
     spec_environment := ∅;
     spec_bootstrap := {| boot_guest_api_url := lit "http://guest"; boot_credential := None |} |}.

Definition example_labels : WorkloadLabels :=
  {| wl_creature_id := 1%N; wl_program_id := 2%N; wl_entity_id := lit "main";
     wl_legacy_machine_id := None; wl_legacy_vm_id := None |}.

Definition example_workload (id : Uuid) : WorkloadRecord :=
  {| wr_owner := lit "node"; wr_id := id; wr_labels := example_labels; wr_spec := example_spec;
     wr_desired := {| ds_state := DRunning; ds_generation := MkGeneration 1 |};
     wr_applied_generation := None; wr_observed := None; wr_resource_version := 1;
     wr_created_at_millis := 10; wr_updated_at_millis := 10 |}.

(** Three workloads, read two at a time. *)
Definition example_vmm : VmmDb :=
  foldl (λ db id, (VmmStore_insert_workload (example_workload id) db).2) empty_vmm [5; 3; 9]%N.

Section pages_witness.
Import HexUuid.

Lemma pages_cover_witness :
  all_pages 4 None 2 example_vmm = Some (Ok (example_workload <$> [3; 5; 9]%N)).
Proof.
  assert (workloads_keyed example_vmm) as Hk.
  { change (map_Forall (λ id row, wr_id (vw_record row) = id ∧ (id < 2 ^ 128)%N)
      (vd_workloads example_vmm)).
    apply (bool_decide_unpack _). vm_compute. exact I. }
  rewrite (proj1 (pages_cover 4 2 example_vmm Hk ltac:(vm_compute; lia))).
  vm_compute. reflexivity.
Defined.
End pages_witness.

Definition example_answer (status : Z) : ReplayableResponse :=
  {| rr_status := status; rr_body := [1; 2]; rr_content_type := lit "application/json";
     rr_location := None |}.

Lemma idempotency_keys_witness :
  (VmmStore_claim (lit "node") (lit "k") [1] 900 300
     (VmmStore_complete (lit "node") (lit "k") (example_answer 202)
        (VmmStore_claim (lit "node") (lit "k") [1] 100 300 empty_vmm).2).2).1
  = Ok (ClaimCompleted (example_answer 202)).
Proof.
  destruct (idempotency_keys empty_vmm (lit "node") (lit "k") [1] 100 300 (example_answer 202) [] [])
    as (_ & _ & H); [reflexivity|split; discriminate|constructor|constructor|].
  specialize (H [1] 900 300). cbn [foldl] in H. rewrite H. reflexivity.
Defined.

(** A slow request completes after its abandoned claim was taken over and answered: the stored
    response changes. *)
Example late_completion_replaces_answer :
  let db1 := (VmmStore_claim (lit "node") (lit "k") [1] 100 300 empty_vmm).2 in
  let db2 := (VmmStore_claim (lit "node") (lit "k") [1] 400 300 db1).2 in
  let db3 := (VmmStore_complete (lit "node") (lit "k") (example_answer 202) db2).2 in
  let db4 := (VmmStore_complete (lit "node") (lit "k") (example_answer 409) db3).2 in
  (VmmStore_claim (lit "node") (lit "k") [1] 400 300 db1).1 = Ok ClaimClaimed ∧
  (VmmStore_claim (lit "node") (lit "k") [1] 500 300 db3).1
    = Ok (ClaimCompleted (example_answer 202)) ∧
  (VmmStore_claim (lit "node") (lit "k") [1] 600 300 db4).1
    = Ok (ClaimCompleted (example_answer 409)).
Proof. vm_compute. done. Qed.
