(* ===== verification/VmmService.v ===== *)
(** The VMM service: [crates/aseman-application/src/vmm.rs], the whole of it.

    The service works through ports, and several instances of it (request handlers, the executor,
    the observer) work on the same stores at once.  A use case is therefore a program that makes
    calls ([prog]): a sequence of port calls, each with a continuation for its answer, in which
    anything may happen between two calls.  What the calls do, alone and interleaved, is in
    [VmmRuns].

    The two loops over pages take fuel; a program that runs out of it has not returned. *)

From S2P Require Import Prelude Text Core Ports Vmm VmmStore.

Open Scope Z_scope.

(** ** Calls *)

Record BackendDescription := {
  bd_name : str; bd_version : str; bd_contract : str; bd_runtimes : list RuntimeCapabilities }.

Inductive call :=
| CallWorkload (owner : str) (id : Uuid)
| CallWorkloads (owner : str) (filter_ : WorkloadFilter) (cursor : option str) (limit : usize)
| CallAllWorkloads (cursor : option str) (limit : usize)
| CallInsertWorkload (record : WorkloadRecord)
| CallReplaceWorkload (record : WorkloadRecord) (expected : u64)
| CallOperation (owner : str) (id : Uuid)
| CallOperations (owner : str) (filter_ : OperationFilter) (cursor : option str) (limit : usize)
| CallInsertOperation (record : OperationRecord)
| CallReplaceOperation (record : OperationRecord) (expected : OperationState)
| CallUnfinishedOperations (limit : usize)
| CallAppend (event : WorkloadEventRecord)
| CallDescribe
| CallStep (workload : WorkloadRecord) (action : ReconcileAction)
| CallObserveAll
| CallRun (workload : option WorkloadRecord) (operation : OperationRecord)
| CallForwardHttp (workload : WorkloadRecord) (request : str)
| CallPutFile (workload : WorkloadRecord) (path : str) (bytes : list u8)
| CallGetFile (workload : WorkloadRecord) (path : str)
| CallEndpoints (workload : WorkloadRecord)
| CallUsage (workload : WorkloadRecord)
| CallLogs (workload : WorkloadRecord) (after : u64) (limit : usize)
| CallVerify (runtime request : str)
| CallUnixMillis
| CallNewOperationId.

Definition answer (c : call) : Type :=
  match c with
  | CallWorkload _ _ => PortResult (option WorkloadRecord)
  | CallWorkloads _ _ _ _ | CallAllWorkloads _ _ => PortResult (Page WorkloadRecord)
  | CallInsertWorkload _ | CallReplaceWorkload _ _ => PortResult unit
  | CallOperation _ _ => PortResult (option OperationRecord)
  | CallOperations _ _ _ _ => PortResult (Page OperationRecord)
  | CallInsertOperation _ | CallReplaceOperation _ _ => PortResult unit
  | CallUnfinishedOperations _ => PortResult (list OperationRecord)
  | CallAppend _ => PortResult u64
  | CallDescribe => PortResult BackendDescription
  | CallStep _ _ => PortResult Observation
  | CallObserveAll => PortResult (list (Uuid * Observation))
  | CallRun _ _ | CallForwardHttp _ _ | CallVerify _ _ => PortResult str
  | CallPutFile _ _ _ => PortResult unit
  | CallGetFile _ _ => PortResult (list u8)
  | CallEndpoints _ => PortResult (list Endpoint)
  | CallUsage _ => PortResult Usage
  | CallLogs _ _ _ => PortResult (list LogRecord)
  | CallUnixMillis => i64
  | CallNewOperationId => Uuid
  end.

(** A program: it returned, it makes a call, or it is still in a page loop. *)
Inductive prog (A : Type) :=
| Ret (a : A)
| Call (c : call) (k : answer c → prog A)
| OutOfFuel.
Arguments Ret {A}.
Arguments Call {A}.
Arguments OutOfFuel {A}.

Fixpoint bind {A B} (p : prog A) (f : A → prog B) : prog B :=
  match p with
  | Ret a => f a
  | Call c k => Call c (λ a, bind (k a) f)
  | OutOfFuel => OutOfFuel
  end.

Definition ask (c : call) : prog (answer c) := Call c Ret.

Notation "'let*' x ':=' p 'in' q" := (bind p (λ x, q))
  (at level 200, x pattern, p at level 100, q at level 200, right associativity).

(** [p?]: an error returns from the function. *)
Notation "'let!' x ':=' p 'in' q" :=
  (bind p (λ r, match r with Ok x => q | Err error => Ret (Err error) end))
  (at level 200, x pattern, p at level 100, q at level 200, right associativity).

(** ** Errors *)

Record VmmError := {
  ve_failure : VmmFailure; ve_detail : str; ve_current_generation : option Generation }.

Definition VmmError_new (failure : VmmFailure) (detail : str) : VmmError :=
  {| ve_failure := failure; ve_detail := detail; ve_current_generation := None |}.

Definition VmmError_from_lifecycle (error : LifecycleError) : VmmError :=
  VmmError_new (VmmFailure_from error) (LifecycleError_text error).

Definition VmmError_from_port (error : PortError) : VmmError :=
  VmmError_new
    match error with
    | PNotFound => VNotFound
    | PConflict => VResourceVersionMismatch
    | PDenied _ => VForbidden
    | PUnavailable _ => VUnavailable
    | PDeadline => VDeadlineExceeded
    | PUnsupported _ => VUnsupportedOperation
    | PRefused _ => VInvalidRequest
    | PFailed _ => VBackendFailure
    end (PortError_text error).

Notation VmmResult A := (result A VmmError).

(** [?] on a port's answer and on a rule's. *)
Definition port {A} (p : prog (PortResult A)) : prog (VmmResult A) :=
  bind p (λ r, Ret (map_err VmmError_from_port r)).
Definition rule {A} (r : result A LifecycleError) : prog (VmmResult A) :=
  Ret (map_err VmmError_from_lifecycle r).
Definition refuse {A} (failure : VmmFailure) (detail : str) : prog (VmmResult A) :=
  Ret (Err (VmmError_new failure detail)).

(** ** The service *)

Definition CAS_ATTEMPTS : nat := 5.
Definition PAGE : usize := 200.

Inductive OperationTarget := TargetWorkload (id : Uuid) | TargetRuntime (runtime : str).

Record ObservationReport := {
  rep_recorded : usize; rep_lost : usize; rep_undesired : list Uuid }.

Record NewWorkload := {
  nw_id : Uuid; nw_labels : WorkloadLabels; nw_spec : WorkloadSpec; nw_desired : DesiredStatus }.

Inductive LifecycleCommand := CmdStart | CmdStop | CmdPause | CmdResume | CmdDelete.
#[export] Instance LifecycleCommand_eq_dec : EqDecision LifecycleCommand.
Proof. solve_decision. Defined.

Definition LifecycleCommand_kind (self : LifecycleCommand) : OperationKind :=
  match self with
  | CmdStart => KStart | CmdStop => KStop | CmdPause => KPause | CmdResume => KResume
  | CmdDelete => KDelete
  end.

Definition runtime (key : str) : prog (VmmResult RuntimeCapabilities) :=
  let! description := port (ask CallDescribe) in
  Ret (ok_or (find (λ r, bool_decide (rc_runtime r = key)) (bd_runtimes description))
    (VmmError_new VUnsupportedOperation (lit "runtime " ++ key ++ lit " is not offered"))).

Definition load (owner : str) (id : Uuid) : prog (VmmResult WorkloadRecord) :=
  let! found := port (ask (CallWorkload owner id)) in
  Ret (ok_or found (VmmError_new VNotFound (lit "no such workload"))).

Definition event (owner : str) (workload_id : Uuid) (event_type : WorkloadEventType)
    (observation : option Observation) (operation : option Uuid) : prog (VmmResult unit) :=
  let* now := ask CallUnixMillis in
  let! _ := port (ask (CallAppend
    {| ev_owner := owner; ev_sequence := 0; ev_workload_id := workload_id; ev_at_millis := now;
       ev_event_type := event_type; ev_observation := observation;
       ev_operation := operation |})) in
  Ret (Ok tt).

Definition new_operation (owner : str) (workload_id : option Uuid) (kind : OperationKind)
    (generation : option Generation) (request : option str) (deadline_millis : option i64)
    : prog (VmmResult OperationRecord) :=
  let* now := ask CallUnixMillis in
  let* id := ask CallNewOperationId in
  let operation :=
    {| op_owner := owner; op_id := id; op_workload_id := workload_id; op_kind := kind;
       op_state := OpPending; op_generation := generation; op_request := request;
       op_created_at_millis := now; op_updated_at_millis := now;
       op_deadline_millis := deadline_millis; op_result := None; op_error := None |} in
  let! _ := port (ask (CallInsertOperation operation)) in
  match workload_id with
  | Some workload_id =>
      let! _ := event owner workload_id EvOperation None (Some (op_id operation)) in
      Ret (Ok operation)
  | None => Ret (Ok operation)
  end.

Fixpoint operation_for (fuel : nat) (owner : str) (workload_id : Uuid) (generation : Generation)
    (cursor : option str) : prog (VmmResult OperationRecord) :=
  match fuel with
  | O => OutOfFuel
  | S fuel =>
      let! page := port (ask (CallOperations owner
        {| of_workload_id := Some workload_id; of_state := None |} cursor PAGE)) in
      match find (λ o, bool_decide (op_generation o = Some generation)) (page_items page) with
      | Some found => Ret (Ok found)
      | None =>
          match page_next_cursor page with
          | Some next => operation_for fuel owner workload_id generation (Some next)
          | None => refuse VNotFound (lit "no operation recorded for this generation")
          end
      end
  end.

Definition check_version (record : WorkloadRecord) (if_match : option u64) : VmmResult unit :=
  match if_match with
  | Some expected =>
      if negb (expected =? wr_resource_version record)
      then Err (VmmError_new VResourceVersionMismatch (lit "the resource version changed"))
      else Ok tt
  | None => Ok tt
  end.

Definition freshness (fuel : nat) (owner : str) (record : WorkloadRecord) (generation : Generation)
    : prog (VmmResult (option OperationRecord)) :=
  match command_freshness (Some (ds_generation (wr_desired record))) generation with
  | FreshApply => Ret (Ok None)
  | FreshReplay =>
      let! found := operation_for fuel owner (wr_id record) generation None in
      Ret (Ok (Some found))
  | FreshStale =>
      Ret (Err {| ve_failure := VStaleGeneration;
                  ve_detail := lit "a newer generation was applied";
                  ve_current_generation := Some (ds_generation (wr_desired record)) |})
  end.

Definition create (owner : str) (workload : NewWorkload) (deadline_millis : option i64)
    : prog (VmmResult OperationRecord) :=
  if negb (bool_decide (ds_state (nw_desired workload) = DStopped)
           || bool_decide (ds_state (nw_desired workload) = DRunning))
  then refuse VInvalidTransition (lit "a workload starts stopped or running")
  else
    let! runtime := runtime (spec_runtime (nw_spec workload)) in
    if negb (is_empty (np_ingress (spec_network (nw_spec workload)))) && negb (rc_http_ingress runtime)
    then refuse VUnsupportedOperation (lit "the runtime has no ingress")
    else
      let* now := ask CallUnixMillis in
      let record :=
        {| wr_owner := owner; wr_id := nw_id workload; wr_labels := nw_labels workload;
           wr_spec := nw_spec workload; wr_desired := nw_desired workload;
           wr_applied_generation := None; wr_observed := None; wr_resource_version := 1;
           wr_created_at_millis := now; wr_updated_at_millis := now |} in
      let* inserted := ask (CallInsertWorkload record) in
      match inserted with
      | Err PConflict => refuse VAlreadyExists (lit "the workload already exists")
      | Err error => Ret (Err (VmmError_from_port error))
      | Ok _ =>
          new_operation owner (Some (wr_id record)) KCreate
            (Some (ds_generation (wr_desired record))) None deadline_millis
      end.

(** The record with other desired values, or with an observation. *)
Definition with_desired (record : WorkloadRecord) (spec : WorkloadSpec) (desired : DesiredStatus)
    : WorkloadRecord :=
  {| wr_owner := wr_owner record; wr_id := wr_id record; wr_labels := wr_labels record;
     wr_spec := spec; wr_desired := desired;
     wr_applied_generation := wr_applied_generation record; wr_observed := wr_observed record;
     wr_resource_version := wr_resource_version record;
     wr_created_at_millis := wr_created_at_millis record;
     wr_updated_at_millis := wr_updated_at_millis record |}.

Definition with_observation (record : WorkloadRecord) (observation : Observation)
    (applied : option Generation) : WorkloadRecord :=
  {| wr_owner := wr_owner record; wr_id := wr_id record; wr_labels := wr_labels record;
     wr_spec := wr_spec record; wr_desired := wr_desired record;
     wr_applied_generation := if is_some applied then applied else wr_applied_generation record;
     wr_observed := Some observation; wr_resource_version := wr_resource_version record;
     wr_created_at_millis := wr_created_at_millis record;
     wr_updated_at_millis := wr_updated_at_millis record |}.

(** What [save] writes: the record at the next version. *)
Definition bumped (record : WorkloadRecord) (expected : u64) (now : i64) : WorkloadRecord :=
  {| wr_owner := wr_owner record; wr_id := wr_id record; wr_labels := wr_labels record;
     wr_spec := wr_spec record; wr_desired := wr_desired record;
     wr_applied_generation := wr_applied_generation record; wr_observed := wr_observed record;
     wr_resource_version := wrap_u64 (expected + 1);
     wr_created_at_millis := wr_created_at_millis record; wr_updated_at_millis := now |}.

(** [save] returns the record as it wrote it, where the code updates it in place. *)
Definition save (record : WorkloadRecord) (expected : u64) : prog (VmmResult WorkloadRecord) :=
  let* now := ask CallUnixMillis in
  let record := bumped record expected now in
  let* replaced := ask (CallReplaceWorkload record expected) in
  match replaced with
  | Err PConflict => refuse VResourceVersionMismatch (lit "the workload changed concurrently")
  | Err error => Ret (Err (VmmError_from_port error))
  | Ok _ => Ret (Ok record)
  end.

Definition command (fuel : nat) (owner : str) (id : Uuid) (command : LifecycleCommand)
    (generation : Generation) (if_match : option u64) (deadline_millis : option i64)
    : prog (VmmResult OperationRecord) :=
  let! record := load owner id in
  let! replay := freshness fuel owner record generation in
  match replay with
  | Some replay => Ret (Ok replay)
  | None =>
      let! _ := Ret (check_version record if_match) in
      let target := match command with
        | CmdStart | CmdResume => DRunning | CmdStop => DStopped | CmdPause => DPaused
        | CmdDelete => DDeleted
        end in
      if bool_decide (command = CmdResume)
         && negb (bool_decide (ds_state (wr_desired record) = DPaused))
      then refuse VInvalidTransition (lit "only a paused workload resumes")
      else
        let! _ := rule (desired_transition (ds_state (wr_desired record)) target) in
        let operation := match command with
          | CmdPause | CmdResume => WPause | CmdStart => WStart | CmdStop => WStop
          | CmdDelete => WDelete
          end in
        let! capabilities := runtime (spec_runtime (wr_spec record)) in
        let! _ := rule (RuntimeCapabilities_check capabilities operation) in
        let! _ := save (with_desired record (wr_spec record)
                          {| ds_state := target; ds_generation := generation |})
                    (wr_resource_version record) in
        new_operation owner (Some id) (LifecycleCommand_kind command) (Some generation) None
          deadline_millis
  end.

Definition update_spec (fuel : nat) (owner : str) (id : Uuid) (spec : WorkloadSpec)
    (generation : Generation) (if_match : option u64) (deadline_millis : option i64)
    : prog (VmmResult OperationRecord) :=
  let! record := load owner id in
  let! replay := freshness fuel owner record generation in
  match replay with
  | Some replay => Ret (Ok replay)
  | None =>
      let! _ := Ret (check_version record if_match) in
      if bool_decide (ds_state (wr_desired record) = DDeleted)
      then Ret (Err (VmmError_from_lifecycle LDeleted))
      else
        let! _ := runtime (spec_runtime spec) in
        let! _ := save (with_desired record spec
                          {| ds_state := ds_state (wr_desired record);
                             ds_generation := generation |})
                    (wr_resource_version record) in
        new_operation owner (Some id) KUpdateSpec (Some generation) None deadline_millis
  end.

Definition restore (fuel : nat) (owner : str) (id : Uuid) (generation : Generation)
    (request : str) (if_match : option u64) (deadline_millis : option i64)
    : prog (VmmResult OperationRecord) :=
  let! record := load owner id in
  let! replay := freshness fuel owner record generation in
  match replay with
  | Some replay => Ret (Ok replay)
  | None =>
      let! _ := Ret (check_version record if_match) in
      let! _ := rule (desired_transition (ds_state (wr_desired record)) DRunning) in
      let! capabilities := runtime (spec_runtime (wr_spec record)) in
      let! _ := rule (RuntimeCapabilities_check capabilities WSnapshot) in
      let! _ := save (with_desired record (wr_spec record)
                        {| ds_state := DRunning; ds_generation := generation |})
                  (wr_resource_version record) in
      new_operation owner (Some id) KRestore (Some generation) (Some request) deadline_millis
  end.

Definition submit (owner : str) (target : OperationTarget) (operation : WorkloadOperation)
    (request : str) (deadline_millis : option i64) : prog (VmmResult OperationRecord) :=
  let kind := match operation with
    | WInvoke | WInvokeChain => Some KInvoke
    | WExec => Some KExec
    | WBuild => Some KBuild
    | WSnapshot => Some KSnapshot
    | _ => None
    end in
  match kind with
  | None => refuse VInvalidRequest (lit "not a data-plane operation")
  | Some kind =>
      let! workload_id :=
        match target with
        | TargetRuntime key =>
            let! capabilities := runtime key in
            let! _ := rule (RuntimeCapabilities_check capabilities operation) in
            Ret (Ok None)
        | TargetWorkload id =>
            let! record := load owner id in
            let! capabilities := runtime (spec_runtime (wr_spec record)) in
            let! _ := rule (RuntimeCapabilities_check capabilities operation) in
            match ds_state (wr_desired record) with
            | DRunning => Ret (Ok (Some id))
            | DDeleted => Ret (Err (VmmError_from_lifecycle LDeleted))
            | DPaused | DStopped =>
                if bool_decide (operation = WSnapshot) then Ret (Ok (Some id))
                else refuse VInvalidTransition (lit "the workload is not desired running")
            end
        end in
      new_operation owner workload_id kind None (Some request) deadline_millis
  end.

(** ** Reads and operations *)

Definition workloads (owner : str) (filter_ : WorkloadFilter) (cursor : option str) (limit : usize)
    : prog (VmmResult (Page WorkloadRecord)) :=
  port (ask (CallWorkloads owner filter_ cursor (Z.max limit 1))).

Definition operation (owner : str) (id : Uuid) : prog (VmmResult OperationRecord) :=
  let! found := port (ask (CallOperation owner id)) in
  Ret (ok_or found (VmmError_new VNotFound (lit "no such operation"))).

Definition operations (owner : str) (filter_ : OperationFilter) (cursor : option str)
    (limit : usize) : prog (VmmResult (Page OperationRecord)) :=
  port (ask (CallOperations owner filter_ cursor (Z.max limit 1))).

(** The event of an operation that concerns a workload. *)
Definition operation_event (operation : OperationRecord) : prog (VmmResult unit) :=
  match op_workload_id operation with
  | Some workload_id =>
      event (op_owner operation) workload_id EvOperation None (Some (op_id operation))
  | None => Ret (Ok tt)
  end.

Fixpoint cancel_loop (attempts : nat) (owner : str) (id : Uuid) : prog (VmmResult OperationRecord) :=
  match attempts with
  | O => refuse VIdempotencyInProgress (lit "the operation keeps changing")
  | S attempts =>
      let! current := operation owner id in
      let* now := ask CallUnixMillis in
      let! cancelled := rule (OperationRecord_transition current OpCancelled now) in
      let* replaced := ask (CallReplaceOperation cancelled (op_state current)) in
      match replaced with
      | Ok _ =>
          match op_workload_id cancelled with
          | Some workload_id =>
              let! _ := event owner workload_id EvOperation None (Some id) in
              Ret (Ok cancelled)
          | None => Ret (Ok cancelled)
          end
      | Err PConflict => cancel_loop attempts owner id
      | Err error => Ret (Err (VmmError_from_port error))
      end
  end.

Definition cancel (owner : str) (id : Uuid) : prog (VmmResult OperationRecord) :=
  cancel_loop CAS_ATTEMPTS owner id.

Definition live (owner : str) (id : Uuid) (operation : WorkloadOperation)
    : prog (VmmResult WorkloadRecord) :=
  let! record := load owner id in
  if bool_decide (ds_state (wr_desired record) = DDeleted)
  then Ret (Err (VmmError_from_lifecycle LDeleted))
  else
    let! capabilities := runtime (spec_runtime (wr_spec record)) in
    let! _ := rule (RuntimeCapabilities_check capabilities operation) in
    Ret (Ok record).

Definition check_path (path : str) : VmmResult unit :=
  let valid :=
    negb (is_empty path) && (len path <=? 1024) && negb (starts_with_char (chr "/") path)
    && negb (contains_char (chr "\") path) && negb (contains_char 0%N path)
    && forallb (λ segment, negb (is_empty segment) && negb (bool_decide (segment = lit "."))
                           && negb (bool_decide (segment = lit ".."))) (split (chr "/") path) in
  if valid then Ok tt else Err (VmmError_new VInvalidRequest (lit "invalid file path")).

Definition forward_http (owner : str) (id : Uuid) (request : str) : prog (VmmResult str) :=
  let! record := live owner id WHttpForward in
  port (ask (CallForwardHttp record request)).

Definition put_file (owner : str) (id : Uuid) (path : str) (bytes : list u8)
    : prog (VmmResult unit) :=
  let! _ := Ret (check_path path) in
  let! record := live owner id WCopyFiles in
  port (ask (CallPutFile record path bytes)).

Definition get_file (owner : str) (id : Uuid) (path : str) : prog (VmmResult (list u8)) :=
  let! _ := Ret (check_path path) in
  let! record := live owner id WCopyFiles in
  port (ask (CallGetFile record path)).

Definition endpoints (owner : str) (id : Uuid) : prog (VmmResult (list Endpoint)) :=
  let! record := load owner id in
  port (ask (CallEndpoints record)).

Definition usage (owner : str) (id : Uuid) : prog (VmmResult Usage) :=
  let! record := load owner id in
  port (ask (CallUsage record)).

Definition logs (owner : str) (id : Uuid) (after : u64) (limit : usize)
    : prog (VmmResult (list LogRecord)) :=
  let! record := load owner id in
  port (ask (CallLogs record after (Z.max limit 1))).

Definition verify (key request : str) : prog (VmmResult str) :=
  let! capabilities := runtime key in
  let! _ := rule (RuntimeCapabilities_check capabilities WVerifyExecution) in
  port (ask (CallVerify key request)).

(** ** The executor *)

Definition with_result (operation : OperationRecord) (result : option str)
    (error : option OperationFailure) : OperationRecord :=
  {| op_owner := op_owner operation; op_id := op_id operation;
     op_workload_id := op_workload_id operation; op_kind := op_kind operation;
     op_state := op_state operation; op_generation := op_generation operation;
     op_request := op_request operation; op_created_at_millis := op_created_at_millis operation;
     op_updated_at_millis := op_updated_at_millis operation;
     op_deadline_millis := op_deadline_millis operation; op_result := result; op_error := error |}.

Definition finish (operation_ : OperationRecord) (outcome : VmmResult (option str))
    : prog (VmmResult OperationRecord) :=
  let* now := ask CallUnixMillis in
  let! finished :=
    match outcome with
    | Ok result =>
        let! moved := rule (OperationRecord_transition operation_ OpSucceeded now) in
        Ret (Ok (with_result moved result (op_error moved)))
    | Err error =>
        let! moved := rule (OperationRecord_transition operation_ OpFailed now) in
        Ret (Ok (with_result moved (op_result moved)
                   (Some {| of_code := ve_failure error; of_detail := ve_detail error |})))
    end in
  let* replaced := ask (CallReplaceOperation finished OpRunning) in
  match replaced with
  | Err PConflict => operation (op_owner finished) (op_id finished)
  | Err error => Ret (Err (VmmError_from_port error))
  | Ok _ =>
      let! _ := operation_event finished in
      Ret (Ok finished)
  end.

Fixpoint record_loop (attempts : nat) (owner : str) (id : Uuid) (observation : Observation)
    (applied : option Generation) : prog (VmmResult WorkloadRecord) :=
  match attempts with
  | O => refuse VUnavailable (lit "the workload keeps changing")
  | S attempts =>
      let! record := load owner id in
      let! _ := rule (accept_observation (ds_generation (wr_desired record)) (wr_observed record)
                        observation) in
      let* saved := save (with_observation record observation applied)
                      (wr_resource_version record) in
      match saved with
      | Ok record =>
          let! _ := event owner id EvObserved (Some observation) None in
          Ret (Ok record)
      | Err error =>
          if bool_decide (ve_failure error = VResourceVersionMismatch)
          then record_loop attempts owner id observation applied
          else Ret (Err error)
      end
  end.

Definition record_observation (owner : str) (id : Uuid) (observation : Observation)
    (applied : option Generation) : prog (VmmResult WorkloadRecord) :=
  record_loop CAS_ATTEMPTS owner id observation applied.

Definition converge (operation_ : OperationRecord) (record : WorkloadRecord)
    : prog (VmmResult bool) :=
  if is_some_and (λ generation, Generation_get generation
                    <? Generation_get (ds_generation (wr_desired record)))
       (op_generation operation_)
  then Ret (Err {| ve_failure := VStaleGeneration;
                   ve_detail := lit "superseded by a newer generation";
                   ve_current_generation := Some (ds_generation (wr_desired record)) |})
  else
    let desired := Some (ds_state (wr_desired record), ds_generation (wr_desired record)) in
    let action := reconcile desired (wr_observed record) in
    if bool_decide (action = ActNone) then Ret (Ok true)
    else
      let! observation := port (ask (CallStep record action)) in
      let! record := record_observation (op_owner operation_) (wr_id record) observation
                       (Some (ds_generation (wr_desired record))) in
      let converged := bool_decide (reconcile desired (wr_observed record) = ActNone) in
      if converged && bool_decide (ds_state (wr_desired record) = DDeleted)
      then
        let! _ := event (op_owner operation_) (wr_id record) EvDeleted None
                    (Some (op_id operation_)) in
        Ret (Ok converged)
      else Ret (Ok converged).

(** The part of [execute] that follows the move to [running]. *)
Definition attempt (operation_ : OperationRecord) (owner : str) : prog (VmmResult OperationRecord) :=
  let* expired :=
    match op_deadline_millis operation_ with
    | Some deadline => let* now := ask CallUnixMillis in Ret (deadline <=? now)
    | None => Ret false
    end in
  if expired : bool
  then finish operation_ (Err (VmmError_new VDeadlineExceeded (lit "the deadline passed")))
  else
    let! record :=
      match op_workload_id operation_ with
      | Some workload_id => let! record := load owner workload_id in Ret (Ok (Some record))
      | None => Ret (Ok None)
      end in
    match op_kind operation_ with
    | KInvoke | KExec | KBuild | KSnapshot =>
        let* outcome := port (ask (CallRun record operation_)) in
        finish operation_ (result_map Some outcome)
    | KCopyFiles => finish operation_ (Ok None)
    | _ =>
        match record with
        | None => finish operation_ (Err (VmmError_new VInvalidRequest (lit "no workload")))
        | Some record =>
            let converging (record : WorkloadRecord) :=
              let* outcome := converge operation_ record in
              match outcome with
              | Ok true => finish operation_ (Ok None)
              | Ok false => Ret (Ok operation_)
              | Err error =>
                  if retryable (ve_failure error) then Ret (Ok operation_)
                  else finish operation_ (Err error)
              end in
            if bool_decide (op_kind operation_ = KRestore)
               && negb (bool_decide (wr_applied_generation record = op_generation operation_))
            then
              let* restored := ask (CallRun (Some record) operation_) in
              match restored with
              | Err error => finish operation_ (Err (VmmError_from_port error))
              | Ok _ =>
                  let! record := load owner (wr_id record) in
                  converging record
              end
            else converging record
        end
    end.

Definition execute (id : Uuid) (owner : str) : prog (VmmResult OperationRecord) :=
  let! current := operation owner id in
  if bool_decide (op_state current = OpPending)
  then
    let* now := ask CallUnixMillis in
    let! moved := rule (OperationRecord_transition current OpRunning now) in
    let* replaced := ask (CallReplaceOperation moved OpPending) in
    match replaced with
    | Err PConflict => operation owner id
    | Err error => Ret (Err (VmmError_from_port error))
    | Ok _ =>
        if negb (bool_decide (op_state moved = OpRunning)) then Ret (Ok moved)
        else attempt moved owner
    end
  else if negb (bool_decide (op_state current = OpRunning)) then Ret (Ok current)
  else attempt current owner.

Fixpoint execute_each (operations : list OperationRecord) (finished : usize)
    : prog (VmmResult usize) :=
  match operations with
  | [] => Ret (Ok finished)
  | operation_ :: operations =>
      let! after := execute (op_id operation_) (op_owner operation_) in
      execute_each operations (if unfinished (op_state after) then finished else finished + 1)
  end.

Definition execute_pending (limit : usize) : prog (VmmResult usize) :=
  let! operations := port (ask (CallUnfinishedOperations (Z.max limit 1))) in
  execute_each operations 0.

(** ** The observer *)

Section each.
Context {T : Type} (visit : WorkloadRecord → T → prog (VmmResult T)).

(** [visit] closes over variables of the caller, which are threaded as [T]. *)
Fixpoint visit_items (records : list WorkloadRecord) (s : T) : prog (VmmResult T) :=
  match records with
  | [] => Ret (Ok s)
  | record :: records => let! s := visit record s in visit_items records s
  end.

Fixpoint each_workload (fuel : nat) (cursor : option str) (s : T) : prog (VmmResult T) :=
  match fuel with
  | O => OutOfFuel
  | S fuel =>
      let! page := port (ask (CallAllWorkloads cursor PAGE)) in
      let! s := visit_items (page_items page) s in
      match page_next_cursor page with
      | Some next => each_workload fuel (Some next) s
      | None => Ret (Ok s)
      end
  end.
End each.

(** What [observe] does with one workload: the remaining reports and the counts. *)
Definition observe_workload (record : WorkloadRecord)
    (s : gmap Uuid Observation * usize * usize)
    : prog (VmmResult (gmap Uuid Observation * usize * usize)) :=
  let '(reported, recorded, lost) := s in
  let record_it reported lost observation :=
    let* outcome := record_observation (wr_owner record) (wr_id record) observation None in
    match outcome with
    | Ok _ => Ret (Ok (reported, recorded + 1, lost))
    | Err error =>
        if bool_decide (ve_failure error = VStaleObservation) then Ret (Ok (reported, recorded, lost))
        else Ret (Err error)
    end in
  match reported !! wr_id record with
  | Some observation => record_it (delete (wr_id record) reported) lost observation
  | None =>
      match wr_observed record with
      | Some previous =>
          if (bool_decide (obs_state previous = OPending) || bool_decide (obs_state previous = ORunning)
              || bool_decide (obs_state previous = OPaused))
             && negb (bool_decide (ds_state (wr_desired record) = DDeleted))
          then
            let* now := ask CallUnixMillis in
            record_it reported (lost + 1)
              {| obs_state := OLost; obs_generation := obs_generation previous;
                 obs_sequence := wrap_u64 (obs_sequence previous + 1);
                 obs_reason := Some (lit "the backend no longer reports the instance");
                 obs_observed_at_millis := now |}
          else Ret (Ok s)
      | None => Ret (Ok s)
      end
  end.

Definition observe (fuel : nat) : prog (VmmResult ObservationReport) :=
  let! all := port (ask CallObserveAll) in
  let reported : gmap Uuid Observation := foldl (λ m p, <[p.1 := p.2]> m) ∅ all in
  let! (reported, recorded, lost) := each_workload observe_workload fuel None (reported, 0, 0) in
  Ret (Ok {| rep_recorded := recorded; rep_lost := lost;
             rep_undesired := (merge_sort key_le (map_to_list reported)).*1 |}).

Definition reconcile_workload (record : WorkloadRecord) (opened : usize) : prog (VmmResult usize) :=
  let action := reconcile (Some (ds_state (wr_desired record), ds_generation (wr_desired record)))
                  (wr_observed record) in
  let kind := match action with
    | ActNone | ActAdopt => None
    | ActStart => Some KStart | ActStop => Some KStop | ActPause => Some KPause
    | ActResume => Some KResume | ActDelete => Some KDelete | ActRestart => Some KRestart
    end in
  match kind with
  | None => Ret (Ok opened)
  | Some kind =>
      let! page := port (ask (CallOperations (wr_owner record)
        {| of_workload_id := Some (wr_id record); of_state := None |} None PAGE)) in
      if existsb (λ o, unfinished (op_state o) && is_some (op_generation o)) (page_items page)
      then Ret (Ok opened)
      else
        let! _ := new_operation (wr_owner record) (Some (wr_id record)) kind
                    (Some (ds_generation (wr_desired record))) None None in
        Ret (Ok (opened + 1))
  end.

Definition reconcile_all (fuel : nat) : prog (VmmResult usize) :=
  each_workload reconcile_workload fuel None 0.
