(* ===== verification/VmmRuns.v ===== *)
(** The VMM service at work: the programs of [VmmService] against the stores of [VmmStore].

    [vmm_step] interleaves any number of requests, executors and observers, one call at a time, with
    calls that fail, calls that take effect but whose reply is lost, crashes, clocks that read
    anything and backends that answer anything.  [access_step] splits the calls that replace a record
    into the look at the row and the write, with anything in between; a run is [calm] when no other
    write of the same row is.  [run] executes a program alone.

    The proofs follow one idea: every version of a record that was ever written is kept in a log,
    and a program is judged ([wp]) against any logs that extend what it has seen.  A compare-and-set
    on the version then says which record it replaces.

    The theorems: workloads evolve only by allowed changes and operations settle once, in every calm
    run ([stale_write_wins] and [stale_finish_wins] are what happens in others); and an executor that
    runs alone and in time, against a backend that does what it is told, converges. *)

From S2P Require Import Prelude Text Core Ports Vmm VmmStore VmmService.

Open Scope Z_scope.

(** ** Interleaving *)

(** What the storage adapter answers; the other calls go elsewhere. *)
Definition store_answer `{UuidText} (c : call) (db : VmmDb) : option (answer c * VmmDb) :=
  match c return option (answer c * VmmDb) with
  | CallWorkload owner id => Some (Ok (VmmStore_workload owner id db), db)
  | CallWorkloads owner filter_ cursor limit =>
      Some (VmmStore_workloads owner filter_ cursor limit db, db)
  | CallAllWorkloads cursor limit => Some (VmmStore_all_workloads cursor limit db, db)
  | CallInsertWorkload record => Some (VmmStore_insert_workload record db)
  | CallReplaceWorkload record expected => Some (VmmStore_replace_workload record expected db)
  | CallOperation owner id => Some (Ok (VmmStore_operation owner id db), db)
  | CallOperations owner filter_ cursor limit =>
      Some (VmmStore_operations owner filter_ cursor limit db, db)
  | CallInsertOperation record => Some (VmmStore_insert_operation record db)
  | CallReplaceOperation record expected => Some (VmmStore_replace_operation record expected db)
  | CallUnfinishedOperations limit => Some (Ok (VmmStore_unfinished_operations limit db), db)
  | CallAppend event => Some (VmmStore_append event db)
  | _ => None
  end.

(** An error is a possible answer of every port but the clock and the id generator. *)
Definition fails (c : call) (e : PortError) : answer c → Prop :=
  match c return answer c → Prop with
  | CallUnixMillis | CallNewOperationId => λ _, False
  | _ => λ a, a = Err e
  end.

(** One call; the flag says whether the store did what was asked. *)
Inductive performs `{UuidText} (c : call) (db : VmmDb) : answer c → VmmDb → bool → Prop :=
| PerformStore a db' : store_answer c db = Some (a, db') → performs c db a db' true
| PerformLostReply a db' e a' :
    store_answer c db = Some (a, db') → fails c e a' → performs c db a' db' true
| PerformDown a db' e a' :
    store_answer c db = Some (a, db') → fails c e a' → performs c db a' db false
| PerformOther a : store_answer c db = None → performs c db a db false.

(** What a call writes when it takes effect. *)
Definition written_workload (c : call) (db : VmmDb) : list WorkloadRecord :=
  match c with
  | CallInsertWorkload record =>
      if is_ok (VmmStore_insert_workload record db).1 then [record] else []
  | CallReplaceWorkload record expected =>
      if is_ok (VmmStore_replace_workload record expected db).1 then [record] else []
  | _ => []
  end.
Definition written_operation (c : call) (db : VmmDb) : list OperationRecord :=
  match c with
  | CallInsertOperation record =>
      if is_ok (VmmStore_insert_operation record db).1 then [record] else []
  | CallReplaceOperation record expected =>
      if is_ok (VmmStore_replace_operation record expected db).1 then [record] else []
  | _ => []
  end.

(** The stores, the requests in flight, and every record version that was ever written. *)
Record VmmWorld := {
  vmm_db : VmmDb;
  vmm_threads : list (prog unit);
  vmm_workload_log : list WorkloadRecord;
  vmm_operation_log : list OperationRecord;
}.

Definition discard {A} (p : prog A) : prog unit := bind p (λ _, Ret tt).

(** The entry points, with any arguments. *)
Inductive use_case : prog unit → Prop :=
| UseCreate owner w d : use_case (discard (create owner w d))
| UseCommand fuel owner id c g m d : use_case (discard (command fuel owner id c g m d))
| UseUpdateSpec fuel owner id spec g m d :
    use_case (discard (update_spec fuel owner id spec g m d))
| UseRestore fuel owner id g r m d : use_case (discard (restore fuel owner id g r m d))
| UseSubmit owner t op r d : use_case (discard (submit owner t op r d))
| UseWorkload owner id : use_case (discard (load owner id))
| UseWorkloads owner f c l : use_case (discard (workloads owner f c l))
| UseOperation owner id : use_case (discard (operation owner id))
| UseOperations owner f c l : use_case (discard (operations owner f c l))
| UseCancel owner id : use_case (discard (cancel owner id))
| UseForwardHttp owner id r : use_case (discard (forward_http owner id r))
| UsePutFile owner id p b : use_case (discard (put_file owner id p b))
| UseGetFile owner id p : use_case (discard (get_file owner id p))
| UseEndpoints owner id : use_case (discard (endpoints owner id))
| UseUsage owner id : use_case (discard (usage owner id))
| UseLogs owner id a l : use_case (discard (logs owner id a l))
| UseVerify k r : use_case (discard (verify k r))
| UseExecute id owner : use_case (discard (execute id owner))
| UseExecutePending limit : use_case (discard (execute_pending limit))
| UseObserve fuel : use_case (discard (observe fuel))
| UseReconcile fuel : use_case (discard (reconcile_all fuel)).

Inductive vmm_step `{UuidText} (w : VmmWorld) : VmmWorld → Prop :=
| VmmStart p :
    use_case p →
    vmm_step w {| vmm_db := vmm_db w; vmm_threads := vmm_threads w ++ [p];
                  vmm_workload_log := vmm_workload_log w;
                  vmm_operation_log := vmm_operation_log w |}
| VmmCall i c k a db' (applied : bool) :
    vmm_threads w !! i = Some (Call c k) →
    performs c (vmm_db w) a db' applied →
    vmm_step w
      {| vmm_db := db'; vmm_threads := <[i := k a]> (vmm_threads w);
         vmm_workload_log := vmm_workload_log w ++
           (if applied then written_workload c (vmm_db w) else []);
         vmm_operation_log := vmm_operation_log w ++
           (if applied then written_operation c (vmm_db w) else []) |}
| VmmCrash i p :
    vmm_threads w !! i = Some p →
    vmm_step w {| vmm_db := vmm_db w; vmm_threads := <[i := Ret tt]> (vmm_threads w);
                  vmm_workload_log := vmm_workload_log w;
                  vmm_operation_log := vmm_operation_log w |}.

Definition vmm_initial : VmmWorld :=
  {| vmm_db := empty_vmm; vmm_threads := []; vmm_workload_log := []; vmm_operation_log := [] |}.

Definition vmm_reachable `{UuidText} (w : VmmWorld) : Prop := rtc vmm_step vmm_initial w.

(** ** What the records of one workload, or one operation, may go through *)

Definition initial_workload (r : WorkloadRecord) : Prop :=
  wr_resource_version r = 1 ∧ wr_observed r = None ∧ wr_applied_generation r = None ∧
  (ds_state (wr_desired r) = DStopped ∨ ds_state (wr_desired r) = DRunning).

(** One change: either the node moved the desired state at a higher generation, or an observation
    was recorded. *)
Definition evolves (r r' : WorkloadRecord) : Prop :=
  wr_owner r' = wr_owner r ∧ wr_id r' = wr_id r ∧ wr_labels r' = wr_labels r ∧
  wr_created_at_millis r' = wr_created_at_millis r ∧
  wr_resource_version r' = wr_resource_version r + 1 ∧
  (Generation_get (ds_generation (wr_desired r)) < Generation_get (ds_generation (wr_desired r')) ∧
   desired_transition (ds_state (wr_desired r)) (ds_state (wr_desired r')) = Ok tt ∧
   wr_observed r' = wr_observed r ∧ wr_applied_generation r' = wr_applied_generation r
   ∨
   wr_desired r' = wr_desired r ∧ wr_spec r' = wr_spec r ∧
   ∃ o, wr_observed r' = Some o ∧
     accept_observation (ds_generation (wr_desired r)) (wr_observed r) o = Ok tt).

Definition same_operation (o o' : OperationRecord) : Prop :=
  op_owner o' = op_owner o ∧ op_id o' = op_id o ∧ op_workload_id o' = op_workload_id o ∧
  op_kind o' = op_kind o ∧ op_generation o' = op_generation o ∧ op_request o' = op_request o ∧
  op_created_at_millis o' = op_created_at_millis o ∧
  op_deadline_millis o' = op_deadline_millis o.

Definition op_evolves (o o' : OperationRecord) : Prop :=
  same_operation o o' ∧ op_step (op_state o) (op_state o').

(** A log of versions of many things: each new version follows from the latest of its thing, or
    starts it. *)
Section chains.
Context {R : Type} (key : R → Uuid) (start : R → Prop) (follows : R → R → Prop).

Definition history (log : list R) (id : Uuid) : list R := filter (λ r, key r = id) log.
Definition latest (log : list R) (id : Uuid) : option R := last (history log id).

Inductive chained : list R → Prop :=
| chained_nil : chained []
| chained_snoc log r :
    chained log →
    match latest log (key r) with None => start r | Some prev => follows prev r end →
    chained (log ++ [r]).
End chains.

Section history_lemmas.
Context {R : Type} {key : R → Uuid}.

Lemma elem_of_history log id r : r ∈ history key log id ↔ r ∈ log ∧ key r = id.
Proof. unfold history. rewrite list_elem_of_filter. tauto. Qed.

Lemma history_snoc log r id :
  history key (log ++ [r]) id = history key log id ++ (if decide (key r = id) then [r] else []).
Proof. unfold history. rewrite filter_app, filter_cons. by case_decide. Qed.

Lemma latest_snoc log r id :
  latest key (log ++ [r]) id = if decide (key r = id) then Some r else latest key log id.
Proof.
  unfold latest. rewrite history_snoc. case_decide; [apply last_snoc|by rewrite app_nil_r].
Qed.

Lemma latest_elem log id r : latest key log id = Some r → r ∈ log ∧ key r = id.
Proof.
  intros [l Hl]%last_Some. assert (r ∈ history key log id) as Hr by (rewrite Hl; set_solver).
  unfold history in Hr. by apply list_elem_of_filter in Hr as [??].
Qed.

End history_lemmas.

Section chain_lemmas.
Context {R : Type} {key : R → Uuid} {start : R → Prop} {follows : R → R → Prop}.

Lemma history_head log id r :
  chained key start follows log → history key log id !! 0%nat = Some r → start r.
Proof.
  induction 1 as [|log r' Hc IH Hr']; [done|]. rewrite history_snoc.
  destruct (history key log id) as [|a l] eqn:E; [|exact IH].
  case_decide; [|done]. simpl. intros [= <-]. subst. unfold latest in Hr'. by rewrite E in Hr'.
Qed.

Lemma history_step log id i a b :
  chained key start follows log →
  history key log id !! i = Some a → history key log id !! S i = Some b → follows a b.
Proof.
  induction 1 as [|log r Hc IH Hr]; [done|]. rewrite history_snoc.
  case_decide as E; [|by rewrite app_nil_r].
  intros Ha Hb. apply lookup_app_Some in Hb as [Hb|[Hlen Hb]].
  - apply IH; [|done]. rewrite lookup_app_l in Ha by (apply lookup_lt_Some in Hb; lia). done.
  - apply list_lookup_singleton_Some in Hb as [Hi <-].
    rewrite lookup_app_l in Ha by lia. unfold latest in Hr. rewrite E, last_lookup in Hr.
    replace (pred (length (history key log id))) with i in Hr by lia. by rewrite Ha in Hr.
Qed.

(** A transitive and reflexive consequence of [follows] relates any earlier version to any later. *)
Lemma history_rel (Q : R → R → Prop) log id i j a b :
  (∀ x, Q x x) → (∀ x y z, Q x y → follows y z → Q x z) →
  chained key start follows log → (i ≤ j)%nat →
  history key log id !! i = Some a → history key log id !! j = Some b → Q a b.
Proof.
  intros Hrefl Hstep Hc Hij Ha. revert b. induction Hij as [|j Hij IH]; intros b Hb; [by simplify_eq|].
  destruct (history key log id !! j) as [c|] eqn:Hc'; [|].
  - eapply Hstep; [by apply IH|]. by eapply history_step.
  - apply lookup_ge_None in Hc'. apply lookup_lt_Some in Hb. lia.
Qed.
End chain_lemmas.

(** ** The logs of a run *)

Notation workload_chain := (chained wr_id initial_workload evolves).
Notation operation_chain := (chained op_id (λ o, op_state o = OpPending) op_evolves).

Record logs_ok (wl : list WorkloadRecord) (ol : list OperationRecord) : Prop := {
  logs_workloads : workload_chain wl;
  logs_operations : operation_chain ol;
  logs_versions r : r ∈ wl → wr_resource_version r ≤ i64_max;
}.

Lemma version_index wl id i r :
  workload_chain wl → history wr_id wl id !! i = Some r →
  wr_resource_version r = Z.of_nat i + 1.
Proof.
  intros Hc. revert r. induction i as [|i IH]; intros r Hr.
  - by apply (history_head _ _ _ Hc) in Hr as [-> _].
  - destruct (history wr_id wl id !! i) as [p|] eqn:Hp.
    + destruct (history_step _ _ _ _ _ Hc Hp Hr) as (_ & _ & _ & _ & -> & _).
      rewrite (IH p) by done. lia.
    + apply lookup_ge_None in Hp. apply lookup_lt_Some in Hr. lia.
Qed.

(** A version of a workload is written once. *)
Lemma version_unique wl r r' :
  workload_chain wl → r ∈ wl → r' ∈ wl → wr_id r = wr_id r' →
  wr_resource_version r = wr_resource_version r' → r = r'.
Proof.
  intros Hc Hr Hr' Hid Hv.
  assert (∀ x, x ∈ wl → wr_id x = wr_id r' → ∃ i, history wr_id wl (wr_id r') !! i = Some x) as Hfind.
  { intros x Hx Hi. apply list_elem_of_lookup. by apply elem_of_history. }
  destruct (Hfind r Hr Hid) as [i Hi]. destruct (Hfind r' Hr' eq_refl) as [j Hj].
  pose proof (version_index _ _ _ _ Hc Hi). pose proof (version_index _ _ _ _ Hc Hj).
  replace i with j in Hi by lia. congruence.
Qed.

Lemma same_operation_refl o : same_operation o o.
Proof. unfold same_operation. tauto. Qed.

(** The identity of an operation never changes. *)
Lemma operation_identity ol o o' :
  operation_chain ol → o ∈ ol → o' ∈ ol → op_id o = op_id o' → same_operation o o'.
Proof.
  intros Hc Ho Ho' Hid.
  assert (∀ i j a b, (i ≤ j)%nat → history op_id ol (op_id o') !! i = Some a →
    history op_id ol (op_id o') !! j = Some b → same_operation a b) as Hle.
  { intros i j a b Hij Ha Hb.
    eapply history_rel; [apply same_operation_refl| |exact Hc|exact Hij|exact Ha|exact Hb].
    intros x y z Hxy [Hyz _]. unfold same_operation in *. intuition congruence. }
  assert (∀ x, x ∈ ol → op_id x = op_id o' → ∃ i, history op_id ol (op_id o') !! i = Some x) as Hfind.
  { intros x Hx Hi. apply list_elem_of_lookup. by apply elem_of_history. }
  destruct (Hfind o Ho Hid) as [i Hi]. destruct (Hfind o' Ho' eq_refl) as [j Hj].
  destruct (decide (i ≤ j)%nat); [by eapply (Hle i j)|].
  assert (same_operation o' o) as H by (eapply (Hle j i); [lia|done..]).
  unfold same_operation in *. intuition congruence.
Qed.

(** ** Programs that keep the logs *)

(** What a program may ask for, given the logs; and what it learns from an answer. *)
Definition allowed (c : call) (wl : list WorkloadRecord) (ol : list OperationRecord) : Prop :=
  match c with
  | CallInsertWorkload r => initial_workload r
  | CallReplaceWorkload r expected =>
      ∀ cur, latest wr_id wl (wr_id r) = Some cur → wr_resource_version cur = expected →
        evolves cur r
  | CallInsertOperation o => op_state o = OpPending
  | CallReplaceOperation o expected =>
      ∀ cur, latest op_id ol (op_id o) = Some cur → op_state cur = expected → op_evolves cur o
  | _ => True
  end.

Definition learns (c : call) (wl : list WorkloadRecord) (ol : list OperationRecord)
    : answer c → Prop :=
  match c return answer c → Prop with
  | CallWorkload owner id => λ a,
      match a with Ok (Some r) => r ∈ wl ∧ wr_id r = id ∧ wr_owner r = owner | _ => True end
  | CallOperation owner id => λ a,
      match a with Ok (Some o) => o ∈ ol ∧ op_id o = id ∧ op_owner o = owner | _ => True end
  | _ => λ _, True
  end.

(** [wp p wl ol Q]: from the logs [wl] and [ol], whatever others append meanwhile, [p] only asks for
    what is allowed, and returns with [Q]. *)
Fixpoint wp {A} (p : prog A) (wl : list WorkloadRecord) (ol : list OperationRecord)
    (Q : A → list WorkloadRecord → list OperationRecord → Prop) : Prop :=
  match p with
  | Ret a => Q a wl ol
  | OutOfFuel => True
  | Call c k =>
      ∀ wl' ol', wl `prefix_of` wl' → ol `prefix_of` ol' → logs_ok wl' ol' →
        allowed c wl' ol' ∧ ∀ a, learns c wl' ol' a → wp (k a) wl' ol' Q
  end.

Definition quiet {A} : A → list WorkloadRecord → list OperationRecord → Prop := λ _ _ _, True.

Lemma wp_mono {A} (p : prog A) wl ol (P Q : A → _ → _ → Prop) :
  (∀ a wl' ol', wl `prefix_of` wl' → ol `prefix_of` ol' → P a wl' ol' → Q a wl' ol') →
  wp p wl ol P → wp p wl ol Q.
Proof.
  revert wl ol. induction p as [a|c k IH|]; intros wl ol HPQ; simpl; [by apply HPQ| |done].
  intros Hp wl' ol' Hwl Hol Hok. destruct (Hp wl' ol' Hwl Hol Hok) as [Ha Hk]. split; [done|].
  intros a Hl. apply IH; [|auto]. intros b wl'' ol'' ??. apply HPQ; by etrans.
Qed.

Lemma wp_bind {A B} (p : prog A) (f : A → prog B) wl ol Q :
  wp p wl ol (λ a wl' ol', wp (f a) wl' ol' Q) → wp (bind p f) wl ol Q.
Proof.
  revert wl ol. induction p as [a|c k IH|]; intros wl ol; simpl; [done| |done].
  intros Hp wl' ol' Hwl Hol Hok. destruct (Hp wl' ol' Hwl Hol Hok) as [Ha Hk].
  split; [done|]. auto.
Qed.

Lemma wp_seq {A B} (P : A → _ → _ → Prop) (p : prog A) (f : A → prog B) wl ol Q :
  wp p wl ol P →
  (∀ a wl' ol', wl `prefix_of` wl' → ol `prefix_of` ol' → P a wl' ol' → wp (f a) wl' ol' Q) →
  wp (bind p f) wl ol Q.
Proof. intros Hp Hf. apply wp_bind. eapply wp_mono; [|exact Hp]. exact Hf. Qed.

(** A program that is at rest with some logs is so with longer ones. *)
Lemma wp_quiet_longer {A} (p : prog A) wl ol wl' ol' :
  wl `prefix_of` wl' → ol `prefix_of` ol' → wp p wl ol quiet → wp p wl' ol' quiet.
Proof.
  destruct p as [a|c k|]; simpl; [done| |done]. intros Hwl Hol Hp wl'' ol'' ??.
  apply Hp; by etrans.
Qed.

Lemma wp_ask (c : call) wl ol (Q : answer c → _ → _ → Prop) :
  (∀ wl' ol', wl `prefix_of` wl' → ol `prefix_of` ol' → logs_ok wl' ol' →
     allowed c wl' ol' ∧ ∀ a, learns c wl' ol' a → Q a wl' ol') →
  wp (ask c) wl ol Q.
Proof. done. Qed.

(** ** The stores hold the latest versions *)

Definition stored_row (r : WorkloadRecord) : VmmWorkloadRow :=
  workload_row r (wr_owner r) (wr_resource_version r).
Definition stored_operation (o : OperationRecord) : VmmOperationRow :=
  {| vo_owner := op_owner o; vo_workload_id := op_workload_id o; vo_state := op_state o;
     vo_created_at_millis := op_created_at_millis o; vo_record := o |}.

Record db_matches (db : VmmDb) (wl : list WorkloadRecord) (ol : list OperationRecord) : Prop := {
  matches_workloads id : vd_workloads db !! id = stored_row <$> latest wr_id wl id;
  matches_operations id : vd_operations db !! id = stored_operation <$> latest op_id ol id;
}.

(** A version that is appended to its chain and to its table. *)
Lemma push_workload db wl ol r :
  logs_ok wl ol → db_matches db wl ol → wr_resource_version r ≤ i64_max →
  match latest wr_id wl (wr_id r) with None => initial_workload r | Some cur => evolves cur r end →
  logs_ok (wl ++ [r]) ol ∧
  db_matches (set_workloads db (<[wr_id r := stored_row r]> (vd_workloads db))) (wl ++ [r]) ol.
Proof.
  intros [Hw Ho Hv] [Mw Mo] Hmax Hr. split; [split; [by constructor|done|]|split; [|done]].
  - intros x [Hx| ->%list_elem_of_singleton]%elem_of_app; auto.
  - intros id. simpl. rewrite latest_snoc. case_decide as E.
    + subst. by rewrite lookup_insert_eq.
    + by rewrite lookup_insert_ne.
Qed.

Lemma push_operation db wl ol o :
  logs_ok wl ol → db_matches db wl ol →
  match latest op_id ol (op_id o) with
  | None => op_state o = OpPending | Some cur => op_evolves cur o end →
  logs_ok wl (ol ++ [o]) ∧
  db_matches (set_operations db (<[op_id o := stored_operation o]> (vd_operations db)))
    wl (ol ++ [o]).
Proof.
  intros [Hw Ho Hv] [Mw Mo] Hr. split; [split; [done|by constructor|done]|split; [done|]].
  intros id. simpl. rewrite latest_snoc. case_decide as E.
  - subst. by rewrite lookup_insert_eq.
  - by rewrite lookup_insert_ne.
Qed.

Lemma insert_workload_keeps db wl ol r :
  logs_ok wl ol → db_matches db wl ol → initial_workload r →
  let w := if is_ok (VmmStore_insert_workload r db).1 then [r] else [] in
  logs_ok (wl ++ w) ol ∧ db_matches (VmmStore_insert_workload r db).2 (wl ++ w) ol.
Proof.
  intros Hl Hm Hr. unfold VmmStore_insert_workload, vmm_signed, i64_try_from.
  destruct Hr as [Hv Hr]. rewrite Hv, checked_in by ilia. simpl.
  rewrite (matches_workloads _ _ _ Hm).
  destruct (latest wr_id wl (wr_id r)) as [cur|] eqn:E; simpl; [by rewrite app_nil_r|].
  rewrite <-Hv. apply push_workload; [done|done|ilia|].
  rewrite E. by split.
Qed.

Lemma replace_workload_keeps db wl ol r expected :
  logs_ok wl ol → db_matches db wl ol → allowed (CallReplaceWorkload r expected) wl ol →
  let w := if is_ok (VmmStore_replace_workload r expected db).1 then [r] else [] in
  logs_ok (wl ++ w) ol ∧ db_matches (VmmStore_replace_workload r expected db).2 (wl ++ w) ol.
Proof.
  intros Hl Hm Hr. simpl in Hr. unfold VmmStore_replace_workload, replace_workload_seen, vmm_signed.
  destruct (ok_or (i64_try_from expected) _) as [e|] eqn:He; simpl; [|by rewrite app_nil_r].
  unfold i64_try_from in He. destruct (checked _ _ expected) eqn:Hc; [|done].
  apply checked_Some in Hc as [-> _]. injection He as <-.
  rewrite (matches_workloads _ _ _ Hm).
  destruct (latest wr_id wl (wr_id r)) as [cur|] eqn:E; simpl; [|by rewrite app_nil_r].
  destruct (_ || _) eqn:G; simpl; [by rewrite app_nil_r|].
  apply orb_false_iff in G as [G1 G2]. apply negb_false_iff, bool_decide_eq_true in G1.
  apply negb_false_iff, Z.eqb_eq in G2.
  destruct (ok_or (i64_try_from (wr_resource_version r)) _) as [v|] eqn:Hv; simpl;
    [|by rewrite app_nil_r].
  unfold i64_try_from in Hv. destruct (checked _ _ (wr_resource_version r)) eqn:Hc; [|done].
  apply checked_Some in Hc as [-> Hb]. injection Hv as <-. rewrite G1.
  apply push_workload; [done|done|lia|]. rewrite E. by apply Hr.
Qed.

Lemma insert_operation_keeps db wl ol o :
  logs_ok wl ol → db_matches db wl ol → op_state o = OpPending →
  let w := if is_ok (VmmStore_insert_operation o db).1 then [o] else [] in
  logs_ok wl (ol ++ w) ∧ db_matches (VmmStore_insert_operation o db).2 wl (ol ++ w).
Proof.
  intros Hl Hm Ho. unfold VmmStore_insert_operation. rewrite (matches_operations _ _ _ Hm).
  destruct (latest op_id ol (op_id o)) as [cur|] eqn:E; simpl; [by rewrite app_nil_r|].
  apply push_operation; [done|done|]. by rewrite E.
Qed.

Lemma replace_operation_keeps db wl ol o expected :
  logs_ok wl ol → db_matches db wl ol → allowed (CallReplaceOperation o expected) wl ol →
  let w := if is_ok (VmmStore_replace_operation o expected db).1 then [o] else [] in
  logs_ok wl (ol ++ w) ∧ db_matches (VmmStore_replace_operation o expected db).2 wl (ol ++ w).
Proof.
  intros Hl Hm Ho. simpl in Ho. unfold VmmStore_replace_operation, replace_operation_seen.
  rewrite (matches_operations _ _ _ Hm).
  destruct (latest op_id ol (op_id o)) as [cur|] eqn:E; simpl; [|by rewrite app_nil_r].
  destruct (_ || _) eqn:G; simpl; [by rewrite app_nil_r|].
  apply orb_false_iff in G as [_ G2]. apply negb_false_iff, bool_decide_eq_true in G2.
  pose proof (Ho cur eq_refl G2) as Hev.
  assert ({| vo_owner := op_owner cur; vo_workload_id := op_workload_id cur; vo_state := op_state o;
    vo_created_at_millis := op_created_at_millis cur; vo_record := o |} = stored_operation o) as ->.
  { destruct Hev as [(H1 & _ & H3 & _ & _ & _ & H7 & _) _]. unfold stored_operation.
    by rewrite H1, H3, H7. }
  apply push_operation; [done|done|]. by rewrite E.
Qed.

Lemma other_tables db db' wl ol :
  vd_workloads db' = vd_workloads db → vd_operations db' = vd_operations db →
  db_matches db wl ol → db_matches db' wl ol.
Proof. intros Hw Ho [Mw Mo]. split; intros id; [by rewrite Hw|by rewrite Ho]. Qed.

Lemma append_tables event db :
  vd_workloads (VmmStore_append event db).2 = vd_workloads db ∧
  vd_operations (VmmStore_append event db).2 = vd_operations db.
Proof. unfold VmmStore_append. repeat case_match; done. Qed.

(** A failed call teaches nothing. *)
Lemma fails_learns c e wl ol a : fails c e a → learns c wl ol a.
Proof. destruct c; simpl; try done; by intros ->. Qed.

(** A read learns what the logs hold. *)
Lemma read_learns `{UuidText} c db wl ol a db' :
  db_matches db wl ol → store_answer c db = Some (a, db') →
  learns c (wl ++ written_workload c db) (ol ++ written_operation c db) a.
Proof.
  intros Hm. destruct c; simpl; try done.
  - intros [= <- <-]. unfold VmmStore_workload. rewrite (matches_workloads _ _ _ Hm).
    destruct (latest wr_id wl id) as [r|] eqn:E; simpl; [|done].
    case_bool_decide; [|done]. apply latest_elem in E as [??]. rewrite app_nil_r. done.
  - intros [= <- <-]. unfold VmmStore_operation. rewrite (matches_operations _ _ _ Hm).
    destruct (latest op_id ol id) as [r|] eqn:E; simpl; [|done].
    case_bool_decide; [|done]. apply latest_elem in E as [??]. rewrite app_nil_r. done.
Qed.

Lemma store_keeps `{UuidText} c db wl ol a db' :
  logs_ok wl ol → db_matches db wl ol → allowed c wl ol → store_answer c db = Some (a, db') →
  logs_ok (wl ++ written_workload c db) (ol ++ written_operation c db) ∧
  db_matches db' (wl ++ written_workload c db) (ol ++ written_operation c db).
Proof.
  intros Hl Hm Hc Hs. destruct c as [| | |record|record expected| | |record|record expected| |ev| | | | | | | | | | | | |];
    simpl in *; try done; rewrite ?app_nil_r; try (injection Hs as _ <-; done).
  - injection Hs as Hs. pose proof (insert_workload_keeps db wl ol record Hl Hm Hc) as Hk.
    by rewrite Hs in Hk |- *.
  - injection Hs as Hs. pose proof (replace_workload_keeps db wl ol record expected Hl Hm Hc) as Hk.
    by rewrite Hs in Hk |- *.
  - injection Hs as Hs. pose proof (insert_operation_keeps db wl ol record Hl Hm Hc) as Hk.
    by rewrite Hs in Hk |- *.
  - injection Hs as Hs. pose proof (replace_operation_keeps db wl ol record expected Hl Hm Hc) as Hk.
    by rewrite Hs in Hk |- *.
  - injection Hs as Hs. destruct (append_tables ev db) as [E1 E2]. rewrite Hs in E1, E2.
    split; [done|]. by apply (other_tables db).
Qed.

Lemma performs_keeps `{UuidText} c db wl ol a db' (applied : bool) :
  logs_ok wl ol → db_matches db wl ol → allowed c wl ol → performs c db a db' applied →
  let wl' := wl ++ (if applied then written_workload c db else []) in
  let ol' := ol ++ (if applied then written_operation c db else []) in
  logs_ok wl' ol' ∧ db_matches db' wl' ol' ∧ learns c wl' ol' a.
Proof.
  intros Hl Hm Hc Hp. destruct Hp as [a db' Hs|a db' e a' Hs Hf|a db' e a' Hs Hf|a Hs]; simpl.
  - destruct (store_keeps _ _ _ _ _ _ Hl Hm Hc Hs). split_and!; [done..|]. by eapply read_learns.
  - destruct (store_keeps _ _ _ _ _ _ Hl Hm Hc Hs). split_and!; [done..|]. by eapply fails_learns.
  - rewrite !app_nil_r. split_and!; [done..|]. by eapply fails_learns.
  - rewrite !app_nil_r. split_and!; [done..|]. by destruct c.
Qed.

(** ** The invariant of a run *)

Record world_ok (w : VmmWorld) : Prop := {
  world_logs : logs_ok (vmm_workload_log w) (vmm_operation_log w);
  world_db : db_matches (vmm_db w) (vmm_workload_log w) (vmm_operation_log w);
  world_threads p : p ∈ vmm_threads w → wp p (vmm_workload_log w) (vmm_operation_log w) quiet;
}.

Lemma world_initial : world_ok vmm_initial.
Proof.
  split; [split; [constructor|constructor|]|split; done|]; simpl; intros ? Hx;
    by apply not_elem_of_nil in Hx.
Qed.

Lemma prefix_self {A} (l : list A) : l `prefix_of` l.
Proof. done. Qed.
Lemma prefix_grow {A} (l k : list A) : l `prefix_of` l ++ k.
Proof. by exists k. Qed.

Lemma elem_of_insert {A} (l : list A) i x y : y ∈ <[i := x]> l → y = x ∨ y ∈ l.
Proof.
  intros [j Hj]%list_elem_of_lookup. apply list_lookup_insert_Some in Hj as [(_ & -> & _)|[_ Hj]];
    [by left|right; by eapply list_elem_of_lookup_2].
Qed.

Section run_invariant.
Context `{UuidText} (Huse : ∀ p wl ol, use_case p → wp p wl ol quiet).

Lemma world_step w w' : world_ok w → vmm_step w w' → world_ok w'.
Proof.
  intros [Hl Hd Ht] Hs. destruct Hs as [p Hp|i c k a db' applied Hi Hp|i p Hi].
  - split; [done|done|]. simpl. intros q [Hq| ->%list_elem_of_singleton]%elem_of_app; auto.
  - assert (wp (Call c k) (vmm_workload_log w) (vmm_operation_log w) quiet) as Hc
      by (apply Ht; by eapply list_elem_of_lookup_2).
    simpl in Hc. destruct (Hc _ _ (prefix_self _) (prefix_self _) Hl) as [Hall _].
    destruct (performs_keeps _ _ _ _ _ _ _ Hl Hd Hall Hp) as (Hl' & Hd' & Hlearn).
    destruct (Hc _ _ (prefix_grow _ _) (prefix_grow _ _) Hl')
      as [_ Hk].
    split; [done|done|]. simpl. intros q [->|Hq]%elem_of_insert; [by apply Hk|].
    eapply wp_quiet_longer; [..|by apply Ht]; apply prefix_grow.
  - split; [done|done|]. simpl. intros q [->|Hq]%elem_of_insert; [done|auto].
Qed.

Lemma world_reachable w : vmm_reachable w → world_ok w.
Proof. intros Hr. by eapply rtc_invariant; [exact world_step|exact world_initial|]. Qed.
End run_invariant.

(** ** Every use case is allowed *)

Definition harmless (c : call) : Prop :=
  match c with
  | CallInsertWorkload _ | CallReplaceWorkload _ _ | CallInsertOperation _
  | CallReplaceOperation _ _ => False
  | _ => True
  end.

Lemma ask_quiet c wl ol : harmless c → wp (ask c) wl ol quiet.
Proof. intros Hc. apply wp_ask. intros wl' ol' _ _ _. by destruct c. Qed.

Lemma port_quiet {A} (p : prog (PortResult A)) wl ol : wp p wl ol quiet → wp (port p) wl ol quiet.
Proof. intros Hp. by eapply wp_seq; [exact Hp|]. Qed.

(** [?] in a program whose result does not matter. *)
Lemma wp_try {A B} (P : VmmResult A → _ → _ → Prop) (p : prog (VmmResult A))
    (q : A → prog (VmmResult B)) wl ol :
  wp p wl ol P →
  (∀ x wl' ol', wl `prefix_of` wl' → ol `prefix_of` ol' → P (Ok x) wl' ol' →
     wp (q x) wl' ol' quiet) →
  wp (bind p (λ r, match r with Ok x => q x | Err error => Ret (Err error) end)) wl ol quiet.
Proof. intros Hp Hq. eapply wp_seq; [exact Hp|]. intros [x|e] wl' ol' ???; [auto|done]. Qed.

(** Reading a record: what is returned is in the log. *)
Definition is_workload (id : Uuid) (owner : str) (r : VmmResult WorkloadRecord)
    (wl : list WorkloadRecord) (ol : list OperationRecord) : Prop :=
  match r with Ok x => x ∈ wl ∧ wr_id x = id ∧ wr_owner x = owner | Err _ => True end.
Definition is_operation (id : Uuid) (owner : str) (r : VmmResult OperationRecord)
    (wl : list WorkloadRecord) (ol : list OperationRecord) : Prop :=
  match r with Ok x => x ∈ ol ∧ op_id x = id ∧ op_owner x = owner | Err _ => True end.

Lemma load_reads owner id wl ol : wp (load owner id) wl ol (is_workload id owner).
Proof.
  simpl. intros wl' ol' _ _ _. split; [done|].
  intros [[r|]|e]; simpl; [|done..]. by intros (? & ? & ?).
Qed.

Lemma operation_reads owner id wl ol : wp (operation owner id) wl ol (is_operation id owner).
Proof.
  simpl. intros wl' ol' _ _ _. split; [done|].
  intros [[r|]|e]; simpl; [|done..]. by intros (? & ? & ?).
Qed.

Create HintDb vmm discriminated.
#[export] Hint Constants Opaque : vmm.
#[export] Hint Resolve load_reads operation_reads : vmm.

Lemma quiet_any {A} (p : prog A) wl ol P : wp p wl ol P → wp p wl ol quiet.
Proof. intros Hp. by eapply wp_mono; [|exact Hp]. Qed.

Lemma runtime_quiet key wl ol : wp (runtime key) wl ol quiet.
Proof. eapply (wp_try quiet); [by apply port_quiet, ask_quiet|]. done. Qed.

Lemma event_quiet owner id t o x wl ol : wp (event owner id t o x) wl ol quiet.
Proof.
  eapply (wp_seq quiet); [by apply ask_quiet|]. intros now wl' ol' _ _ _.
  eapply (wp_try quiet); [by apply port_quiet, ask_quiet|]. done.
Qed.

Lemma operation_event_quiet o wl ol : wp (operation_event o) wl ol quiet.
Proof. unfold operation_event. destruct (op_workload_id o); [apply event_quiet|done]. Qed.

Lemma new_operation_quiet owner id k g r d wl ol :
  wp (new_operation owner id k g r d) wl ol quiet.
Proof.
  eapply (wp_seq quiet); [by apply ask_quiet|]. intros now wl1 ol1 _ _ _.
  eapply (wp_seq quiet); [by apply ask_quiet|]. intros op wl2 ol2 _ _ _.
  eapply (wp_try quiet); [by apply port_quiet, wp_ask|]. intros _ wl3 ol3 _ _ _.
  destruct id; [|done]. by eapply (wp_try quiet); [apply event_quiet|].
Qed.

Lemma operation_for_quiet fuel owner id g cursor wl ol :
  wp (operation_for fuel owner id g cursor) wl ol quiet.
Proof.
  revert cursor wl ol. induction fuel as [|fuel IH]; intros cursor wl ol; [done|].
  cbn [operation_for]. eapply (wp_try quiet); [by apply port_quiet, ask_quiet|].
  intros page wl' ol' _ _ _. destruct (find _ _); [done|]. by destruct (page_next_cursor page).
Qed.

(** Only a higher generation is applied. *)
Lemma freshness_applies fuel owner record g wl ol :
  wp (freshness fuel owner record g) wl ol (λ r _ _, r = Ok None →
    Generation_get (ds_generation (wr_desired record)) < Generation_get g).
Proof.
  unfold freshness, command_freshness.
  destruct (Z.ltb_spec (Generation_get g) (Generation_get (ds_generation (wr_desired record))));
    [done|]. case_bool_decide as E.
  - apply wp_bind. eapply wp_mono; [|apply (operation_for_quiet fuel)]. intros [] ?????; done.
  - intros _. destruct g as [g], (ds_generation (wr_desired record)) as [g']; simpl in *.
    assert (g ≠ g') by congruence. lia.
Qed.

(** Versions count from one. *)
Lemma version_pos wl r : workload_chain wl → r ∈ wl → 1 ≤ wr_resource_version r.
Proof.
  intros Hc Hr. destruct (proj1 (list_elem_of_lookup (history wr_id wl (wr_id r)) r)) as [i Hi].
  { by apply elem_of_history. }
  rewrite (version_index _ _ _ _ Hc Hi). lia.
Qed.

(** Saving: the draft must follow the version that was read. *)
Lemma save_quiet r draft wl ol :
  r ∈ wl → wr_id draft = wr_id r →
  (∀ now, wrap_u64 (wr_resource_version r + 1) = wr_resource_version r + 1 →
     evolves r (bumped draft (wr_resource_version r) now)) →
  wp (save draft (wr_resource_version r)) wl ol quiet.
Proof.
  intros Hr Hid Hev. eapply (wp_seq quiet); [by apply ask_quiet|]. intros now wl1 ol1 H1 _ _.
  eapply (wp_seq quiet); [|by intros [?|[]]]. apply wp_ask. intros wl2 ol2 H2 _ Hl.
  split; [|done]. intros cur Hcur Hv. pose proof (logs_workloads _ _ Hl) as Hc.
  assert (r ∈ wl2) as Hr2.
  { destruct H1 as [k1 ->], H2 as [k2 ->]. set_solver. }
  simpl in Hcur. rewrite Hid in Hcur. apply latest_elem in Hcur as [Hcur Hci].
  assert (cur = r) as -> by by apply (version_unique wl2).
  apply Hev. apply wrap_u64_id. pose proof (version_pos _ _ Hc Hr2).
  pose proof (logs_versions _ _ Hl r Hr2). ilia.
Qed.

(** The two drafts the service saves. *)
Lemma desired_draft r spec state g now :
  Generation_get (ds_generation (wr_desired r)) < Generation_get g →
  desired_transition (ds_state (wr_desired r)) state = Ok tt →
  wrap_u64 (wr_resource_version r + 1) = wr_resource_version r + 1 →
  evolves r (bumped (with_desired r spec {| ds_state := state; ds_generation := g |})
               (wr_resource_version r) now).
Proof. intros Hg Ht Hw. unfold evolves; simpl. split_and!; try done. left. done. Qed.

Lemma observation_draft r o applied now :
  accept_observation (ds_generation (wr_desired r)) (wr_observed r) o = Ok tt →
  wrap_u64 (wr_resource_version r + 1) = wr_resource_version r + 1 →
  evolves r (bumped (with_observation r o applied) (wr_resource_version r) now).
Proof.
  intros Ho Hw. unfold evolves; simpl. split_and!; try done. right. split_and!; try done. eauto.
Qed.

(** Steps of a proof that a program is quiet: skip what cannot matter. *)
Ltac quiet_step :=
  lazymatch goal with
  | |- wp (if ?b then _ else _) _ _ _ => destruct b; [done|]
  | |- wp (bind (ask _) _) _ _ _ =>
      eapply (wp_seq quiet); [by apply ask_quiet|intros ? ? ? ? ? _]
  | |- wp (bind (port (ask _)) _) _ _ _ =>
      eapply (wp_try quiet); [by apply port_quiet, ask_quiet|intros ? ? ? ? ? _]
  | |- wp (bind (runtime _) _) _ _ _ =>
      eapply (wp_try quiet); [apply runtime_quiet|intros ? ? ? ? ? _]
  | |- wp (bind (rule ?r) _) _ _ _ =>
      let E := fresh "Hrule" in
      apply wp_bind; destruct r as [[]|] eqn:E; [|done]; cbn [rule map_err wp]
  | |- wp (bind (Ret (check_version ?r ?m)) _) _ _ _ =>
      apply wp_bind; destruct (check_version r m) as [[]|]; [|done]; cbn [wp]
  | |- wp (new_operation _ _ _ _ _ _) _ _ _ => apply new_operation_quiet
  end.

(** A command on a record that was read: fresh, then saved. *)
Lemma load_then {A} owner id (q : WorkloadRecord → prog (VmmResult A)) wl ol :
  (∀ record wl' ol', record ∈ wl' → wr_id record = id → wp (q record) wl' ol' quiet) →
  wp (bind (load owner id) (λ r, match r with Ok x => q x | Err error => Ret (Err error) end))
    wl ol quiet.
Proof.
  intros Hq. eapply (wp_try (is_workload id owner)); [apply load_reads|].
  intros record wl' ol' _ _ (? & ? & _). auto.
Qed.

Lemma fresh_then {A} fuel owner record g (f : OperationRecord → prog (VmmResult A))
    (q : prog (VmmResult A)) wl ol :
  (∀ o wl' ol', wp (f o) wl' ol' quiet) →
  (∀ wl' ol', wl `prefix_of` wl' →
     Generation_get (ds_generation (wr_desired record)) < Generation_get g →
     wp q wl' ol' quiet) →
  wp (bind (freshness fuel owner record g) (λ r, match r with
        | Ok replay => match replay with Some replay => f replay | None => q end
        | Err error => Ret (Err error) end)) wl ol quiet.
Proof.
  intros Hf Hq. eapply (wp_try _); [apply freshness_applies|].
  intros [o|] wl' ol' ? _ Hg; [apply Hf|]. by apply Hq; [|apply Hg].
Qed.

(** Membership in a log that has grown. *)
Lemma elem_of_longer {A} (x : A) l l' : x ∈ l → l `prefix_of` l' → x ∈ l'.
Proof. intros Hx [k ->]. set_solver. Qed.

Lemma create_quiet owner w d wl ol : wp (create owner w d) wl ol quiet.
Proof.
  unfold create. destruct (negb _) eqn:Hs; [done|].
  apply negb_false_iff, orb_true_iff in Hs. rewrite !bool_decide_eq_true in Hs.
  quiet_step. destruct (_ && _); [done|]. quiet_step.
  eapply (wp_seq quiet).
  - apply wp_ask. intros wl2 ol2 _ _ _. split; [|done]. done.
  - intros [[]|[]] wl2 ol2 _ _ _; try done. quiet_step.
Qed.

Lemma command_quiet fuel owner id c g m d wl ol :
  wp (command fuel owner id c g m d) wl ol quiet.
Proof.
  apply load_then. intros record wl1 ol1 Hr Hid. apply fresh_then; [done|].
  intros wl2 ol2 H2 Hg. quiet_step. quiet_step. quiet_step. quiet_step. quiet_step.
  eapply (wp_try quiet); [|intros; quiet_step].
  apply save_quiet; [|done|].
  - eapply elem_of_longer; [done|]. by etrans.
  - intros now. by apply desired_draft.
Qed.

Lemma update_spec_quiet fuel owner id spec g m d wl ol :
  wp (update_spec fuel owner id spec g m d) wl ol quiet.
Proof.
  apply load_then. intros record wl1 ol1 Hr Hid. apply fresh_then; [done|].
  intros wl2 ol2 H2 Hg. quiet_step. case_bool_decide as Hd; [done|]. quiet_step.
  eapply (wp_try quiet); [|intros; quiet_step].
  apply save_quiet; [|done|].
  - eapply elem_of_longer; [done|]. by etrans.
  - intros now. apply desired_draft; [done|]. by destruct (ds_state (wr_desired record)).
Qed.

Lemma restore_quiet fuel owner id g r m d wl ol :
  wp (restore fuel owner id g r m d) wl ol quiet.
Proof.
  apply load_then. intros record wl1 ol1 Hr Hid. apply fresh_then; [done|].
  intros wl2 ol2 H2 Hg. quiet_step. quiet_step. quiet_step. quiet_step.
  eapply (wp_try quiet); [|intros; quiet_step].
  apply save_quiet; [|done|].
  - eapply elem_of_longer; [done|]. by etrans.
  - intros now. by apply desired_draft.
Qed.

Lemma submit_quiet owner t op r d wl ol : wp (submit owner t op r d) wl ol quiet.
Proof.
  unfold submit. destruct (match op with WInvoke => _ | _ => _ end) as [kind|]; [|done].
  eapply (wp_try quiet); [|intros; quiet_step]. destruct t as [id|key].
  - apply load_then. intros record wl1 ol1 _ _. quiet_step. quiet_step.
    destruct (ds_state (wr_desired record)); try case_bool_decide; done.
  - quiet_step. by quiet_step.
Qed.

Lemma live_quiet owner id op wl ol : wp (live owner id op) wl ol quiet.
Proof.
  apply load_then. intros record wl1 ol1 _ _. case_bool_decide; [done|]. quiet_step. by quiet_step.
Qed.

(** Moving an operation that was read. *)
Lemma transition_evolves ol o moved cur o' state now :
  operation_chain ol → o ∈ ol → same_operation o moved →
  OperationRecord_transition moved state now = Ok o' →
  latest op_id ol (op_id o') = Some cur → op_step (op_state cur) state →
  op_evolves cur o'.
Proof.
  intros Hc Ho Hsame Ht Hcur Hstep. unfold OperationRecord_transition in Ht.
  destruct (operation_transition _ _); [|done]. injection Ht as <-. simpl in Hcur.
  apply latest_elem in Hcur as [Hcur Hid]. split; [|done].
  assert (same_operation o cur) as Hoc.
  { apply (operation_identity ol); [done..|]. rewrite Hid. symmetry. apply Hsame. }
  unfold same_operation in *; simpl. intuition congruence.
Qed.

Lemma replace_quiet ol0 o moved o' expected state now wl ol :
  o ∈ ol0 → ol0 `prefix_of` ol → same_operation o moved →
  OperationRecord_transition moved state now = Ok o' → op_step expected state →
  ∀ r e, wp (ask (CallReplaceOperation (with_result o' r e) expected)) wl ol quiet.
Proof.
  intros Ho Hp Hsame Ht Hstep r e. apply wp_ask. intros wl' ol' _ Hp' Hl. split; [|done].
  intros cur Hcur Hst.
  apply (transition_evolves ol' o moved cur o' state now); [apply (logs_operations _ _ Hl)| |done..|].
  - eapply elem_of_longer; [done|]. by etrans.
  - by rewrite Hst.
Qed.

Lemma with_result_id o : with_result o (op_result o) (op_error o) = o.
Proof. by destruct o. Qed.

Lemma finish_quiet o moved outcome wl ol :
  o ∈ ol → same_operation o moved → wp (finish moved outcome) wl ol quiet.
Proof.
  intros Ho Hsame. eapply (wp_seq quiet); [by apply ask_quiet|]. intros now wl1 ol1 _ H1 _.
  assert (∀ finished wl2 ol2, ol1 `prefix_of` ol2 →
    wp (ask (CallReplaceOperation finished OpRunning)) wl2 ol2 quiet →
    wp (let* replaced := ask (CallReplaceOperation finished OpRunning) in
        match replaced with
        | Err PConflict => operation (op_owner finished) (op_id finished)
        | Err error => Ret (Err (VmmError_from_port error))
        | Ok _ => let! _ := operation_event finished in Ret (Ok finished)
        end) wl2 ol2 quiet) as Hrest.
  { intros finished wl2 ol2 _ Hw. eapply (wp_seq quiet); [exact Hw|].
    intros [[]|[]] wl3 ol3 _ _ _; try done.
    - by eapply (wp_try quiet); [apply operation_event_quiet|].
    - eapply quiet_any, operation_reads. }
  destruct outcome as [result|error]; apply wp_bind;
    [destruct (OperationRecord_transition moved OpSucceeded now) as [f|] eqn:Ht
    |destruct (OperationRecord_transition moved OpFailed now) as [f|] eqn:Ht];
    cbn [rule map_err bind wp]; try done; apply Hrest; try done.
  - by eapply (replace_quiet ol o moved f OpRunning OpSucceeded now).
  - by eapply (replace_quiet ol o moved f OpRunning OpFailed now).
Qed.

Lemma cancel_quiet attempts owner id wl ol : wp (cancel_loop attempts owner id) wl ol quiet.
Proof.
  revert wl ol. induction attempts as [|attempts IH]; intros wl ol; [done|]. cbn [cancel_loop].
  eapply (wp_try (is_operation id owner)); [apply operation_reads|].
  intros o wl1 ol1 _ _ (Ho & _). quiet_step.
  apply wp_bind. destruct (OperationRecord_transition o OpCancelled a) as [o'|] eqn:Ht; [|done].
  cbn [rule map_err wp]. eapply (wp_seq quiet).
  - rewrite <-(with_result_id o').
    eapply (replace_quiet ol1 o o o' (op_state o) OpCancelled); [done| |apply same_operation_refl|done|].
    + done.
    + unfold OperationRecord_transition in Ht. unfold op_step.
      by destruct (operation_transition (op_state o) OpCancelled) as [[]|].
  - intros [[]|[]] wl3 ol3 _ _ _; try done.
    destruct (op_workload_id o'); [|done]. by eapply (wp_try quiet); [apply event_quiet|].
Qed.

Lemma record_quiet attempts owner id o applied wl ol :
  wp (record_loop attempts owner id o applied) wl ol quiet.
Proof.
  revert wl ol. induction attempts as [|attempts IH]; intros wl ol; [done|]. cbn [record_loop].
  apply load_then. intros record wl1 ol1 Hr _. quiet_step.
  eapply (wp_seq quiet).
  - apply save_quiet; [done..|]. intros now. by apply observation_draft.
  - intros [r|e] wl2 ol2 _ _ _; [by eapply (wp_try quiet); [apply event_quiet|]|].
    case_bool_decide; [apply IH|done].
Qed.

Lemma converge_quiet o record wl ol : wp (converge o record) wl ol quiet.
Proof.
  unfold converge. destruct (is_some_and _ _); [done|]. case_bool_decide; [done|].
  quiet_step. eapply (wp_try quiet); [apply record_quiet|]. intros r wl2 ol2 _ _ _.
  destruct (_ && _); [|done]. by eapply (wp_try quiet); [apply event_quiet|].
Qed.

Lemma attempt_quiet o moved owner wl ol :
  o ∈ ol → same_operation o moved → wp (attempt moved owner) wl ol quiet.
Proof.
  intros Ho Hsame.
  assert (∀ outcome wl' ol', ol `prefix_of` ol' → wp (finish moved outcome) wl' ol' quiet) as Hfin.
  { intros. eapply finish_quiet; [|done]. by eapply elem_of_longer. }
  assert (∀ record wl' ol', ol `prefix_of` ol' →
    wp (let* outcome := converge moved record in
        match outcome with
        | Ok true => finish moved (Ok None)
        | Ok false => Ret (Ok moved)
        | Err error => if retryable (ve_failure error) then Ret (Ok moved)
                       else finish moved (Err error)
        end) wl' ol' quiet) as Hconv.
  { intros record wl' ol' Hp. eapply (wp_seq quiet); [apply converge_quiet|].
    intros [[]|e] wl2 ol2 _ H2 _; [|done|destruct (retryable _); [done|]]; apply Hfin; by etrans. }
  eapply (wp_seq quiet).
  { destruct (op_deadline_millis moved); [|done]. by quiet_step. }
  intros expired wl1 ol1 _ H1 _. destruct expired; [by apply Hfin|].
  eapply (wp_try quiet).
  { destruct (op_workload_id moved); [|done]. by apply load_then. }
  intros record wl2 ol2 _ H2 _. assert (ol `prefix_of` ol2) as Hp by by etrans.
  destruct (op_kind moved).
  all: try (destruct record as [record|]; [|by apply Hfin]; cbn [bool_decide decide_rel andb];
    match goal with |- wp (if ?b then _ else _) _ _ _ => destruct b end; [|by apply Hconv];
    eapply (wp_seq quiet); [by apply ask_quiet|]; intros [a|e] wl3 ol3 _ H3 _;
      [|apply Hfin; by etrans];
    eapply (wp_try quiet); [eapply quiet_any, load_reads|]; intros r wl4 ol4 _ H4 _;
    apply Hconv; etrans; [exact Hp|]; by etrans).
  all: try by apply Hfin.
  all: eapply (wp_seq quiet); [by apply port_quiet, ask_quiet|];
    intros outcome wl3 ol3 _ H3 _; apply Hfin; by etrans.
Qed.

Lemma execute_quiet id owner wl ol : wp (execute id owner) wl ol quiet.
Proof.
  eapply (wp_try (is_operation id owner)); [apply operation_reads|].
  intros o wl1 ol1 _ _ (Ho & _). case_bool_decide as Hp.
  - quiet_step. apply wp_bind.
    destruct (OperationRecord_transition o OpRunning a) as [moved|] eqn:Ht; [|done].
    cbn [rule map_err wp]. eapply (wp_seq quiet).
    + rewrite <-(with_result_id moved).
      eapply (replace_quiet ol1 o o moved OpPending OpRunning); [done|done| |done|done].
      apply same_operation_refl.
    + intros [[]|[]] wl3 ol3 _ H3 _; try done; [|eapply quiet_any, operation_reads].
      destruct (negb _); [done|]. eapply attempt_quiet.
      * eapply elem_of_longer; [exact Ho|]. by etrans.
      * unfold OperationRecord_transition in Ht. destruct (operation_transition _ _); [|done].
        injection Ht as <-. unfold same_operation; simpl. tauto.
  - destruct (negb _); [done|]. by eapply attempt_quiet; [|apply same_operation_refl].
Qed.

Lemma execute_each_quiet os n wl ol : wp (execute_each os n) wl ol quiet.
Proof.
  revert n wl ol. induction os as [|o os IH]; intros n wl ol; [done|]. cbn [execute_each].
  eapply (wp_try quiet); [apply execute_quiet|]. auto.
Qed.

Lemma each_quiet {T} (visit : WorkloadRecord → T → prog (VmmResult T)) fuel cursor s wl ol :
  (∀ r s wl ol, wp (visit r s) wl ol quiet) → wp (each_workload visit fuel cursor s) wl ol quiet.
Proof.
  intros Hv. revert cursor s wl ol. induction fuel as [|fuel IH]; intros cursor s wl ol; [done|].
  cbn [each_workload]. quiet_step. eapply (wp_try quiet).
  - assert (∀ rs s wl ol, wp (visit_items visit rs s) wl ol quiet) as Hitems; [|apply Hitems].
    induction rs as [|r rs IHrs]; intros s' wl2 ol2; [done|]. cbn [visit_items].
    by eapply (wp_try quiet).
  - intros s' wl2 ol2 _ _ _. by destruct (page_next_cursor _).
Qed.

Lemma observe_workload_quiet r s wl ol : wp (observe_workload r s) wl ol quiet.
Proof.
  destruct s as [[reported recorded] lost]. unfold observe_workload.
  assert (∀ (rep : gmap Uuid Observation) (l : Z) o wl ol,
    wp (let* outcome := record_observation (wr_owner r) (wr_id r) o None in
        match outcome with
        | Ok _ => Ret (Ok (rep, recorded + 1, l))
        | Err error => if bool_decide (ve_failure error = VStaleObservation)
                       then Ret (Ok (rep, recorded, l)) else Ret (Err error)
        end) wl ol quiet) as Hrec.
  { intros. eapply (wp_seq quiet); [apply record_quiet|]. intros [x|e] ?????; [done|].
    by case_bool_decide. }
  destruct (reported !! wr_id r); [apply Hrec|]. destruct (wr_observed r) as [previous|]; [|done].
  destruct (_ && _); [|done]. quiet_step. apply Hrec.
Qed.

Lemma reconcile_workload_quiet r n wl ol : wp (reconcile_workload r n) wl ol quiet.
Proof.
  unfold reconcile_workload.
  destruct (match reconcile _ _ with ActNone => _ | _ => _ end) as [kind|]; [|done].
  quiet_step. destruct (existsb _ _); [done|]. by eapply (wp_try quiet); [apply new_operation_quiet|].
Qed.

Lemma use_case_quiet p wl ol : use_case p → wp p wl ol quiet.
Proof.
  assert (∀ A (q : prog A), wp q wl ol quiet → wp (discard q) wl ol quiet) as Hd.
  { intros A q Hq. by eapply (wp_seq quiet). }
  intros [owner w d|fuel owner id c g m d|fuel owner id spec g m d|fuel owner id g r m d
    |owner t op r d|owner id|owner f c l|owner id|owner f c l|owner id|owner id r|owner id path b
    |owner id path|owner id|owner id|owner id a l|k r|id owner|limit|fuel|fuel]; apply Hd.
  - apply create_quiet.
  - apply command_quiet.
  - apply update_spec_quiet.
  - apply restore_quiet.
  - apply submit_quiet.
  - eapply quiet_any, load_reads.
  - by apply port_quiet, ask_quiet.
  - eapply quiet_any, operation_reads.
  - by apply port_quiet, ask_quiet.
  - apply cancel_quiet.
  - eapply (wp_try quiet); [apply live_quiet|]. intros. by apply port_quiet, ask_quiet.
  - apply wp_bind. destruct (check_path path) as [[]|]; [|done]. cbn [wp].
    eapply (wp_try quiet); [apply live_quiet|]. intros. by apply port_quiet, ask_quiet.
  - apply wp_bind. destruct (check_path path) as [[]|]; [|done]. cbn [wp].
    eapply (wp_try quiet); [apply live_quiet|]. intros. by apply port_quiet, ask_quiet.
  - apply load_then. intros. by apply port_quiet, ask_quiet.
  - apply load_then. intros. by apply port_quiet, ask_quiet.
  - apply load_then. intros. by apply port_quiet, ask_quiet.
  - unfold verify. quiet_step. quiet_step. by apply port_quiet, ask_quiet.
  - apply execute_quiet.
  - unfold execute_pending. quiet_step. apply execute_each_quiet.
  - unfold observe. quiet_step. eapply (wp_try quiet); [|by intros [[]]].
    apply each_quiet. apply observe_workload_quiet.
  - apply each_quiet. apply reconcile_workload_quiet.
Qed.

(** ** Consequences *)

(** What any later version keeps of an earlier one. *)
Definition never_back (r r' : WorkloadRecord) : Prop :=
  Generation_get (ds_generation (wr_desired r)) ≤ Generation_get (ds_generation (wr_desired r')) ∧
  (ds_state (wr_desired r) = DDeleted → ds_state (wr_desired r') = DDeleted) ∧
  match wr_observed r with
  | Some o => ∃ o', wr_observed r' = Some o' ∧ (o = o' ∨ obs_lt o o')
  | None => True
  end.

Lemma never_back_refl r : never_back r r.
Proof. unfold never_back. split_and!; [lia|done|]. destruct (wr_observed r); eauto. Qed.

Lemma never_back_step r r' r'' : never_back r r' → evolves r' r'' → never_back r r''.
Proof.
  intros (Hg & Hd & Ho) (_ & _ & _ & _ & _ & [(Hg' & Ht & Ho' & _)|(Hd' & _ & o & Ho' & Ha)]).
  - split_and!; [lia| |by rewrite Ho'].
    intros E. rewrite (Hd E) in Ht. by destruct (ds_state (wr_desired r'')).
  - unfold never_back. rewrite Hd'. split_and!; [done|done|]. apply accept_observation_Ok in Ha as [_ Ha].
    destruct (wr_observed r) as [p|]; [|done]. destruct Ho as (q & Hq & Hpq). exists o.
    split; [done|right]. specialize (Ha q Hq). destruct Hpq as [->|Hpq]; [done|].
    by eapply obs_lt_trans.
Qed.

(** Nothing is observed of a generation that was never desired. *)
Definition observed_desired (r : WorkloadRecord) : Prop :=
  ∀ o, wr_observed r = Some o →
    Generation_get (obs_generation o) ≤ Generation_get (ds_generation (wr_desired r)).

Lemma history_observed wl id i r :
  workload_chain wl → history wr_id wl id !! i = Some r → observed_desired r.
Proof.
  intros Hc. revert r. induction i as [|i IH]; intros r Hr.
  - apply (history_head _ _ _ Hc) in Hr as (_ & Hr & _). intros o Ho. congruence.
  - destruct (history wr_id wl id !! i) as [p|] eqn:Hp.
    + destruct (history_step _ _ _ _ _ Hc Hp Hr)
        as (_ & _ & _ & _ & _ & [(Hg & _ & Ho & _)|(Hd & _ & o & Ho & Ha)]).
      * intros o. rewrite Ho. intros Hpo. specialize (IH p eq_refl o Hpo). lia.
      * intros o'. rewrite Ho, Hd. intros [= <-]. by apply accept_observation_Ok in Ha as [? _].
    + apply lookup_ge_None in Hp. apply lookup_lt_Some in Hr. lia.
Qed.

(** Each version of an operation is further along than the one before. *)
Definition progress (s : OperationState) : nat :=
  match s with OpPending => 0 | OpRunning => 1 | _ => 2 end.

Lemma history_progress ol id i o :
  operation_chain ol → history op_id ol id !! i = Some o → (i ≤ progress (op_state o))%nat.
Proof.
  intros Hc. revert o. induction i as [|i IH]; intros o Ho; [lia|].
  destruct (history op_id ol id !! i) as [p|] eqn:Hp.
  - destruct (history_step _ _ _ _ _ Hc Hp Ho) as [_ Hs]. specialize (IH p eq_refl).
    unfold op_step in Hs. destruct (op_state p), (op_state o); simpl in *; try done; lia.
  - apply lookup_ge_None in Hp. apply lookup_lt_Some in Ho. lia.
Qed.

(** ** Access by access

    A call that replaces a record is a transaction that looks at the row and then updates it, and what
    others commit in between is not noticed: the commit checks only the revision that the update saw.
    Here the look and the write of such a call are steps of their own, with anything between them; a
    call whose commit conflicts looks again.  A run is [calm] when no write of one of these rows falls
    between the look and the write of another call on it.  The storage adapter does not make it so
    ([stale_write_wins]). *)

Definition replaces (c : call) : bool :=
  match c with CallReplaceWorkload _ _ | CallReplaceOperation _ _ => true | _ => false end.

(** The row that a replacing call looks at is still as it was [seen]. *)
Definition undisturbed (c : call) (seen db : VmmDb) : Prop :=
  match c with
  | CallReplaceWorkload record _ => vd_workloads db !! wr_id record = vd_workloads seen !! wr_id record
  | CallReplaceOperation record _ => vd_operations db !! op_id record = vd_operations seen !! op_id record
  | _ => True
  end.

(** What the store answers to a call that looked at it when it was [seen]. *)
Definition seen_answer `{UuidText} (c : call) (seen db : VmmDb) : option (answer c * VmmDb) :=
  match c return option (answer c * VmmDb) with
  | CallReplaceWorkload record expected =>
      Some (replace_workload_seen record expected (vd_workloads seen !! wr_id record) db)
  | CallReplaceOperation record expected =>
      Some (replace_operation_seen record expected (vd_operations seen !! op_id record) db)
  | c => store_answer c db
  end.

Inductive performs_seen `{UuidText} (c : call) (seen db : VmmDb) : answer c → VmmDb → bool → Prop :=
| SeenStore a db' : seen_answer c seen db = Some (a, db') → performs_seen c seen db a db' true
| SeenLostReply a db' e a' :
    seen_answer c seen db = Some (a, db') → fails c e a' → performs_seen c seen db a' db' true
| SeenDown a db' e a' :
    seen_answer c seen db = Some (a, db') → fails c e a' → performs_seen c seen db a' db false.

Definition seen_workload (c : call) (seen db : VmmDb) : list WorkloadRecord :=
  match c with
  | CallReplaceWorkload record expected =>
      if is_ok (replace_workload_seen record expected (vd_workloads seen !! wr_id record) db).1 then [record] else []
  | _ => []
  end.
Definition seen_operation (c : call) (seen db : VmmDb) : list OperationRecord :=
  match c with
  | CallReplaceOperation record expected =>
      if is_ok (replace_operation_seen record expected (vd_operations seen !! op_id record) db).1 then [record] else []
  | _ => []
  end.

(** The world, and the store as each request that is inside a replacing call saw it. *)
Record AccessWorld := { ac_world : VmmWorld; ac_seen : gmap nat VmmDb }.

Inductive access_step `{UuidText} (calm : bool) (w : AccessWorld) : AccessWorld → Prop :=
| AccessLook i c k :
    vmm_threads (ac_world w) !! i = Some (Call c k) → replaces c = true →
    access_step calm w {| ac_world := ac_world w; ac_seen := <[i := vmm_db (ac_world w)]> (ac_seen w) |}
| AccessWrite i c k seen a db' (applied : bool) :
    vmm_threads (ac_world w) !! i = Some (Call c k) → replaces c = true → ac_seen w !! i = Some seen →
    (calm = true → undisturbed c seen (vmm_db (ac_world w))) →
    performs_seen c seen (vmm_db (ac_world w)) a db' applied →
    access_step calm w
      {| ac_world :=
           {| vmm_db := db'; vmm_threads := <[i := k a]> (vmm_threads (ac_world w));
              vmm_workload_log := vmm_workload_log (ac_world w) ++
                (if applied then seen_workload c seen (vmm_db (ac_world w)) else []);
              vmm_operation_log := vmm_operation_log (ac_world w) ++
                (if applied then seen_operation c seen (vmm_db (ac_world w)) else []) |};
         ac_seen := delete i (ac_seen w) |}
| AccessOther w' i :
    (** a request arrives, crashes, or makes a whole call *)
    vmm_step (ac_world w) w' → (∀ j, j ≠ i → j < length (vmm_threads (ac_world w)) → vmm_threads w' !! j = vmm_threads (ac_world w) !! j)%nat →
    access_step calm w {| ac_world := w'; ac_seen := delete i (ac_seen w) |}.

Definition access_initial : AccessWorld := {| ac_world := vmm_initial; ac_seen := ∅ |}.
Definition calm_run `{UuidText} (w : AccessWorld) : Prop := rtc (access_step true) access_initial w.

Lemma undisturbed_answer `{UuidText} c seen db :
  replaces c = true → undisturbed c seen db →
  seen_answer c seen db = store_answer c db ∧
  seen_workload c seen db = written_workload c db ∧ seen_operation c seen db = written_operation c db.
Proof.
  destruct c; try done; simpl; intros _ Hu; unfold VmmStore_replace_workload, VmmStore_replace_operation;
    by rewrite Hu.
Qed.

Lemma undisturbed_performs `{UuidText} c seen db a db' applied :
  replaces c = true → undisturbed c seen db → performs_seen c seen db a db' applied → performs c db a db' applied.
Proof.
  intros Hc Hu Hp. destruct (undisturbed_answer c seen db Hc Hu) as [Ha _]. destruct Hp; rewrite Ha in *.
  - by apply PerformStore.
  - by eapply PerformLostReply.
  - by eapply PerformDown.
Qed.

(** A calm run is a run of whole calls: the looks change nothing, and a write is its whole call. *)
Lemma calm_simulates `{UuidText} w w' : access_step true w w' → rtc vmm_step (ac_world w) (ac_world w').
Proof.
  intros [i c k Hi Hc|i c k seen a db' applied Hi Hc Hs Hu Hp|v i Hv _]; simpl; [done| |by apply rtc_once].
  specialize (Hu eq_refl). destruct (undisturbed_answer c seen _ Hc Hu) as (_ & -> & ->).
  apply rtc_once, VmmCall with (c := c); [done|]. by eapply undisturbed_performs.
Qed.

Lemma calm_reaches `{UuidText} w : calm_run w → vmm_reachable (ac_world w).
Proof.
  intros Hr. eapply (rtc_invariant _ (λ w, vmm_reachable (ac_world w))); [| |exact Hr].
  - intros x y Hx Hxy. unfold vmm_reachable in *. etrans; [exact Hx|by apply calm_simulates].
  - unfold vmm_reachable, access_initial. simpl. apply rtc_refl.
Qed.

(** A run of whole calls is calm. *)
Lemma whole_calls_calm `{UuidText} w : vmm_reachable w → ∃ seen, calm_run {| ac_world := w; ac_seen := seen |}.
Proof.
  intros Hr. eapply (rtc_invariant _ (λ w, ∃ seen, calm_run {| ac_world := w; ac_seen := seen |})); [| |exact Hr].
  - intros x y [seen Hx] Hxy.
    assert (∃ i, ∀ j, (j ≠ i → j < length (vmm_threads x) → vmm_threads y !! j = vmm_threads x !! j)%nat) as [i Hi].
    { destruct Hxy as [p Hp|i c k a db' applied Hi Hp|i p Hi]; simpl.
      - exists 0%nat. intros j _ Hj. by rewrite lookup_app_l.
      - exists i. intros j Hj _. by rewrite list_lookup_insert_ne.
      - exists i. intros j Hj _. by rewrite list_lookup_insert_ne. }
    exists (delete i seen). eapply rtc_r; [exact Hx|]. by apply (AccessOther true {| ac_world := x; ac_seen := seen |}).
  - exists ∅. apply rtc_refl.
Qed.

(** ** Properties *)


(** What holds of runs of whole calls. *)
Lemma workload_history `{UuidText} w id :
  vmm_reachable w →
  let h := history wr_id (vmm_workload_log w) id in
  vd_workloads (vmm_db w) !! id = stored_row <$> last h ∧
  (∀ r, h !! 0%nat = Some r → initial_workload r) ∧
  (∀ i r r', h !! i = Some r → h !! S i = Some r' → evolves r r') ∧
  (∀ i j r r', (i ≤ j)%nat → h !! i = Some r → h !! j = Some r' →
     wr_resource_version r' = Z.of_nat j + 1 ∧ never_back r r' ∧ observed_desired r').
Proof.
  intros Hr. pose proof (world_reachable use_case_quiet w Hr) as [Hl Hd _].
  pose proof (logs_workloads _ _ Hl) as Hc. split_and!.
  - apply (matches_workloads _ _ _ Hd).
  - intros r. by apply (history_head _ _ _ Hc).
  - intros i r r'. by apply (history_step _ _ _ _ _ Hc).
  - intros i j r r' Hij Hi Hj. split_and!; [by eapply version_index| |by eapply history_observed].
    eapply history_rel; [apply never_back_refl|apply never_back_step|exact Hc|exact Hij|done..].
Qed.

Lemma operation_history `{UuidText} w id :
  vmm_reachable w →
  let h := history op_id (vmm_operation_log w) id in
  vd_operations (vmm_db w) !! id = stored_operation <$> last h ∧
  (∀ o, h !! 0%nat = Some o → op_state o = OpPending) ∧
  (∀ i o o', h !! i = Some o → h !! S i = Some o' → op_evolves o o') ∧
  (length h ≤ 3)%nat ∧
  (∀ i o, h !! i = Some o → terminal (op_state o) → last h = Some o).
Proof.
  intros Hr. pose proof (world_reachable use_case_quiet w Hr) as [Hl Hd _].
  pose proof (logs_operations _ _ Hl) as Hc. set (h := history op_id (vmm_operation_log w) id).
  assert (∀ i o o', h !! i = Some o → h !! S i = Some o' → op_evolves o o') as Hstep.
  { intros i o o'. by apply (history_step _ _ _ _ _ Hc). }
  split_and!.
  - apply (matches_operations _ _ _ Hd).
  - intros o Ho. by apply (history_head _ _ _ Hc) in Ho.
  - done.
  - destruct (h !! 3%nat) as [o|] eqn:E; [|by apply lookup_ge_None in E].
    apply (history_progress _ _ _ _ Hc) in E. destruct (op_state o); simpl in E; lia.
  - intros i o Ho Ht. rewrite last_lookup. destruct (h !! S i) as [o'|] eqn:E.
    + destruct (Hstep _ _ _ Ho E) as [_ Hs]. unfold op_step in Hs.
      destruct Ht as [Ht|[Ht|Ht]]; rewrite Ht in Hs; by destruct (op_state o').
    + apply lookup_ge_None in E. pose proof (lookup_lt_Some _ _ _ Ho).
      by replace (pred (length h)) with i by lia.
Qed.

(** C1. Workloads evolve only as the rules allow, however many requests, executors and observers
    are under way, crash, or lose replies, and whatever runs between the look and the write of a
    replacing call, as long as no other write of the same row does (a condition on the run, which the
    storage adapter does not enforce: [stale_write_wins]).  The store holds the latest version of each
    workload; a workload starts at version 1, stopped or running and unobserved; each further version
    is one number higher and either moves the desired state by an allowed transition at a higher
    generation, touching nothing observed, or records one newer observation, touching nothing
    desired; so generations never fall, a deleted workload stays deleted, recorded observations
    rise, and none claims a generation that was not desired. *)
Theorem workloads_evolve `{UuidText} w id :
  calm_run w →
  let h := history wr_id (vmm_workload_log (ac_world w)) id in
  vd_workloads (vmm_db (ac_world w)) !! id = stored_row <$> last h ∧
  (∀ r, h !! 0%nat = Some r → initial_workload r) ∧
  (∀ i r r', h !! i = Some r → h !! S i = Some r' → evolves r r') ∧
  (∀ i j r r', (i ≤ j)%nat → h !! i = Some r → h !! j = Some r' →
     wr_resource_version r' = Z.of_nat j + 1 ∧ never_back r r' ∧ observed_desired r').
Proof. intros Hr. by apply workload_history, calm_reaches. Qed.

(** C26. Operations settle once: in the same runs, on the same condition (that no other write of an
    operation's row falls between the look and the write of a call that replaces it), every operation
    starts pending, keeps its identity and moves only by allowed transitions, is written at most three
    times, and what is written in a final state is the last: no result, failure or cancellation is
    ever replaced. *)
Theorem operations_settle `{UuidText} w id :
  calm_run w →
  let h := history op_id (vmm_operation_log (ac_world w)) id in
  vd_operations (vmm_db (ac_world w)) !! id = stored_operation <$> last h ∧
  (∀ o, h !! 0%nat = Some o → op_state o = OpPending) ∧
  (∀ i o o', h !! i = Some o → h !! S i = Some o' → op_evolves o o') ∧
  (length h ≤ 3)%nat ∧
  (∀ i o, h !! i = Some o → terminal (op_state o) → last h = Some o).
Proof. intros Hr. by apply operation_history, calm_reaches. Qed.

(** ** Running alone *)

Section alone.
Context `{UuidText} {E : Type} (respond : ∀ c : call, E → answer c * E).

(** A program on its own: the stores are the adapter, everything else is the environment's. *)
Fixpoint run {A} (p : prog A) (e : E) (db : VmmDb) : option A * E * VmmDb :=
  match p with
  | Ret a => (Some a, e, db)
  | OutOfFuel => (None, e, db)
  | Call c k =>
      match store_answer c db with
      | Some (a, db') => run (k a) e db'
      | None => let (a, e') := respond c e in run (k a) e' db
      end
  end.

Lemma run_bind {A B} (p : prog A) (f : A → prog B) e db :
  run (bind p f) e db =
    match run p e db with
    | (Some a, e', db') => run (f a) e' db'
    | (None, e', db') => (None, e', db')
    end.
Proof.
  revert e db. induction p as [a|c k IH|]; intros e db; simpl; [done| |done].
  destruct (store_answer c db) as [[a db']|]; [apply IH|]. destruct (respond c e). apply IH.
Qed.

(** A run alone is one of the interleavings. *)
Lemma run_reaches (p : prog unit) e db a e' db' i w :
  run p e db = (Some a, e', db') → vmm_db w = db → vmm_threads w !! i = Some p →
  ∃ wl ol, rtc vmm_step w {| vmm_db := db'; vmm_threads := <[i := Ret a]> (vmm_threads w);
                             vmm_workload_log := wl; vmm_operation_log := ol |}.
Proof.
  revert e db w. induction p as [b|c k IH|]; intros e db w Hrun Hdb Hi; simpl in Hrun; [|..|done].
  - simplify_eq. exists (vmm_workload_log w), (vmm_operation_log w).
    rewrite list_insert_id by done. by destruct w.
  - assert (∀ b db1 e1 applied, performs c db b db1 applied →
      run (k b) e1 db1 = (Some a, e', db') → ∃ wl ol, rtc vmm_step w
        {| vmm_db := db'; vmm_threads := <[i := Ret a]> (vmm_threads w);
           vmm_workload_log := wl; vmm_operation_log := ol |}) as Hgo.
    { intros b db1 e1 applied Hp Hk. rewrite <-Hdb in Hp.
      pose proof (VmmCall w i c k b db1 applied Hi Hp) as Hs.
      match type of Hs with vmm_step _ ?w1 => destruct (IH b e1 db1 w1 Hk) as (wl & ol & Hr) end.
      - done.
      - simpl. apply list_lookup_insert_eq. by eapply lookup_lt_Some.
      - exists wl, ol. eapply rtc_l; [exact Hs|]. simpl in Hr.
        by rewrite list_insert_insert_eq in Hr. }
    destruct (store_answer c db) as [[b db1]|] eqn:Hs.
    + eapply Hgo; [by apply PerformStore|done].
    + destruct (respond c e) as [b e1]. eapply Hgo; [by apply PerformOther|done].
Qed.

(** Room for [n] more events. *)
Definition room (db : VmmDb) (n : Z) : Prop :=
  0 ≤ counter_value db LAST_SEQUENCE ∧ counter_value db LAST_SEQUENCE + n ≤ i64_max ∧
  ∀ k, counter_value db LAST_SEQUENCE < k → vd_events db !! k = None.

Lemma room_less db n m : room db n → m ≤ n → room db m.
Proof. intros (? & ? & ?) ?. split_and!; [done|lia|done]. Qed.

Lemma run_event owner id t o x e db n :
  room db (n + 1) → 0 ≤ n →
  ∃ e' db', run (event owner id t o x) e db = (Some (Ok tt), e', db') ∧ room db' n ∧
    vd_workloads db' = vd_workloads db ∧ vd_operations db' = vd_operations db.
Proof.
  intros (H0 & Hmax & Hfree) Hn. simpl. destruct (respond CallUnixMillis e) as [now e1].
  unfold VmmStore_append. rewrite wrap_i64_id by ilia. unfold u64_try_from.
  rewrite checked_in by ilia. rewrite Hfree by lia. simpl. do 2 eexists.
  split; [reflexivity|]. split_and!; try done.
  set (last := counter_value db LAST_SEQUENCE) in *. unfold room, counter_value. simpl.
  rewrite lookup_insert_eq. simpl. split_and!; [lia|lia|].
  intros k Hk. rewrite lookup_insert_ne by lia. apply Hfree. lia.
Qed.

(** A stored workload, and a save of it. *)
Lemma run_load r e db :
  vd_workloads db !! wr_id r = Some (stored_row r) →
  run (load (wr_owner r) (wr_id r)) e db = (Some (Ok r), e, db).
Proof.
  intros Hr. simpl. unfold VmmStore_workload. rewrite Hr. simpl. by rewrite bool_decide_true.
Qed.

Lemma run_save r draft e db :
  vd_workloads db !! wr_id r = Some (stored_row r) → 1 ≤ wr_resource_version r < i64_max →
  wr_id draft = wr_id r → wr_owner draft = wr_owner r →
  ∃ now e', run (save draft (wr_resource_version r)) e db =
    (Some (Ok (bumped draft (wr_resource_version r) now)), e',
     set_workloads db (<[wr_id r := stored_row (bumped draft (wr_resource_version r) now)]>
       (vd_workloads db))).
Proof.
  intros Hr Hv Hid Ho. simpl. destruct (respond CallUnixMillis e) as [now e1].
  exists now, e1. unfold VmmStore_replace_workload, replace_workload_seen, vmm_signed, i64_try_from. simpl.
  rewrite checked_in by ilia. simpl. rewrite Hid, Hr. simpl.
  rewrite Ho, bool_decide_true, Z.eqb_refl by done. simpl.
  rewrite wrap_u64_id by ilia. rewrite checked_in by ilia. simpl. unfold stored_row. simpl.
  rewrite wrap_u64_id by ilia. by rewrite Ho.
Qed.

(** A stored operation, moved by compare-and-set. *)
Lemma run_replace o o' e db :
  vd_operations db !! op_id o = Some (stored_operation o) → same_operation o o' →
  run (ask (CallReplaceOperation o' (op_state o))) e db =
    (Some (Ok tt), e, set_operations db (<[op_id o := stored_operation o']> (vd_operations db))).
Proof.
  intros Ho (H1 & H2 & H3 & _ & _ & _ & H7 & _). simpl. unfold VmmStore_replace_operation, replace_operation_seen.
  rewrite H2, Ho. simpl. rewrite H1, !bool_decide_true by done. simpl. unfold stored_operation.
  by rewrite H1, H3, H7.
Qed.

Lemma run_record r o applied e db n :
  vd_workloads db !! wr_id r = Some (stored_row r) → 1 ≤ wr_resource_version r < i64_max →
  accept_observation (ds_generation (wr_desired r)) (wr_observed r) o = Ok tt →
  room db (n + 1) → 0 ≤ n →
  ∃ now e' db', let r' := bumped (with_observation r o applied) (wr_resource_version r) now in
    run (record_observation (wr_owner r) (wr_id r) o applied) e db = (Some (Ok r'), e', db') ∧
    vd_workloads db' = <[wr_id r := stored_row r']> (vd_workloads db) ∧
    vd_operations db' = vd_operations db ∧ room db' n.
Proof.
  intros Hr Hv Ha Hroom Hn. unfold record_observation, CAS_ATTEMPTS. cbn [record_loop].
  rewrite run_bind, run_load by done. rewrite Ha. cbn [rule map_err bind]. rewrite run_bind.
  destruct (run_save r (with_observation r o applied) e db Hr Hv) as (now & e1 & ->); [done..|].
  rewrite run_bind. match goal with |- context [run (event _ _ _ _ _) _ ?d] =>
    destruct (run_event (wr_owner r) (wr_id r) EvObserved (Some o) None e1 d n)
      as (e2 & db2 & -> & Hroom2 & Hw & Ho); [done..|] end.
  exists now, e2, db2. split_and!; done.
Qed.

Lemma run_finish o e db n :
  vd_operations db !! op_id o = Some (stored_operation o) → op_state o = OpRunning →
  room db (n + 1) → 0 ≤ n →
  ∃ o' e' db', run (finish o (Ok None)) e db = (Some (Ok o'), e', db') ∧
    op_state o' = OpSucceeded ∧ same_operation o o' ∧
    vd_operations db' !! op_id o = Some (stored_operation o') ∧
    vd_workloads db' = vd_workloads db ∧ room db' n.
Proof.
  intros Ho Hs Hroom Hn. unfold finish. rewrite run_bind. simpl run at 1.
  destruct (respond CallUnixMillis e) as [now e1]. unfold OperationRecord_transition. rewrite Hs.
  simpl operation_transition. cbn [rule map_err bind]. rewrite run_bind, <-Hs.
  rewrite (run_replace o) by (try done; unfold same_operation; simpl; tauto).
  unfold operation_event. cbn [with_result op_workload_id op_owner op_id].
  set (o' := with_result _ _ _). set (db1 := set_operations _ _).
  assert (op_state o' = OpSucceeded ∧ same_operation o o') as [Ho1 Ho2] by done.
  assert (vd_operations db1 !! op_id o = Some (stored_operation o')) as Hst
    by apply lookup_insert_eq.
  destruct (op_workload_id o) as [wid|].
  - rewrite run_bind. destruct (run_event (op_owner o) wid EvOperation None (Some (op_id o)) e1 db1 n)
      as (e2 & db2 & -> & Hroom2 & Hw & Hop); [done..|].
    exists o', e2, db2. split_and!; try done. by rewrite Hop.
  - simpl. exists o', e1, db1. split_and!; try done. eapply room_less; [exact Hroom|lia].
Qed.

(** What a step of each kind leads to. *)
Definition action_state (action : ReconcileAction) : option ObservedWorkloadState :=
  match action with
  | ActStart | ActResume | ActRestart => Some ORunning
  | ActPause => Some OPaused
  | ActStop | ActDelete => Some OStopped
  | ActNone | ActAdopt => None
  end.

(** A backend that does what a step asks of a workload and reports it as news, and restores what it is
    asked to. *)
Definition obedient : Prop :=
  (∀ r action s e, observed_desired r → action_state action = Some s →
    ∃ o e', respond (CallStep r action) e = (Ok o, e') ∧ obs_state o = s ∧
      obs_generation o = ds_generation (wr_desired r) ∧
      ∀ p, wr_observed r = Some p → obs_lt p o) ∧
  (∀ r o e, ∃ done e', respond (CallRun r o) e = (Ok done, e')).

(** The clock does not reach the deadline of the operation, if it has one. *)
Definition in_time (o : OperationRecord) : Prop :=
  ∀ deadline e, op_deadline_millis o = Some deadline → (respond CallUnixMillis e).1 < deadline.

(** Half way to paused: running at the desired generation. *)
Definition half_way (r : WorkloadRecord) : Prop :=
  ds_state (wr_desired r) = DPaused ∧ ∃ x, wr_observed r = Some x ∧
    obs_state x = ORunning ∧ obs_generation x = ds_generation (wr_desired r).

Lemma reconcile_action d g obs :
  reconcile (Some (d, g)) obs ≠ ActNone → ∃ s, action_state (reconcile (Some (d, g)) obs) = Some s.
Proof. unfold reconcile. destruct obs as [x|]; simpl; repeat case_match; simpl; eauto; done. Qed.

Lemma reconcile_after d g obs s o :
  action_state (reconcile (Some (d, g)) obs) = Some s → obs_state o = s → obs_generation o = g →
  reconcile (Some (d, g)) (Some o) = ActNone ∨
  d = DPaused ∧ s = ORunning ∧ reconcile (Some (d, g)) obs ≠ ActPause.
Proof.
  intros Ha Hs Hg.
  assert (∀ st, obs_state o = st → reconcile (Some (d, g)) (Some o) =
    reconcile (Some (d, g)) (Some {| obs_state := st; obs_generation := g; obs_sequence := 0;
      obs_reason := None; obs_observed_at_millis := 0 |})) as Hsame.
  { intros st Hst. unfold reconcile; simpl. rewrite Hst, Hg, !bool_decide_true by done.
    by destruct d, st. }
  rewrite (Hsame s Hs). clear Hsame. unfold reconcile in Ha |- *; simpl.
  rewrite bool_decide_true by done.
  destruct obs as [x|]; simpl in *; repeat (case_match; simplify_eq/=); auto.
Qed.

Definition lifecycle (kind : OperationKind) : Prop :=
  match kind with
  | KInvoke | KExec | KBuild | KSnapshot | KCopyFiles => False | _ => True end.

Lemma run_step r action o e e' db :
  respond (CallStep r action) e = (Ok o, e') →
  run (port (ask (CallStep r action))) e db = (Some (Ok o), e', db).
Proof. intros Hs. cbn [port ask bind run store_answer]. by rewrite Hs. Qed.

Lemma run_converge o r e db n :
  obedient → vd_workloads db !! wr_id r = Some (stored_row r) →
  1 ≤ wr_resource_version r < i64_max → op_owner o = wr_owner r →
  op_generation o = Some (ds_generation (wr_desired r)) → observed_desired r →
  room db (n + 2) → 0 ≤ n →
  ∃ b r' e' db', run (converge o r) e db = (Some (Ok b), e', db') ∧
    vd_workloads db' !! wr_id r = Some (stored_row r') ∧ vd_operations db' = vd_operations db ∧
    wr_id r' = wr_id r ∧ wr_owner r' = wr_owner r ∧ wr_desired r' = wr_desired r ∧
    1 ≤ wr_resource_version r' ≤ wr_resource_version r + 1 ∧ observed_desired r' ∧ room db' n ∧
    (if b then settled (ds_state (wr_desired r)) (ds_generation (wr_desired r)) (wr_observed r')
     else half_way r' ∧ ¬ half_way r).
Proof.
  intros Hob Hr Hv How Hgen Hod Hroom Hn. unfold converge. rewrite Hgen. cbn [is_some_and].
  rewrite Z.ltb_irrefl. set (d := ds_state (wr_desired r)) in *.
  set (g := ds_generation (wr_desired r)) in *. case_bool_decide as Hact.
  { exists true, r, e, db. split_and!; try done; [lia..|eapply room_less; [exact Hroom|lia]|].
    by apply reconcile_settled. }
  destruct (reconcile_action d g (wr_observed r) Hact) as [s Hs].
  destruct (proj1 Hob r (reconcile (Some (d, g)) (wr_observed r)) s e Hod Hs)
    as (ob & e1 & Hstep & Hst & Hog & Hlt).
  rewrite run_bind, (run_step _ _ _ _ _ _ Hstep), run_bind, How.
  destruct (run_record r ob (Some g) e1 db (n + 1)) as (now & e2 & db2 & -> & Hw & Ho & Hroom2);
    [done|done| |by replace (n + 1 + 1) with (n + 2) by lia|lia|].
  { apply accept_observation_Ok. split; [|done]. rewrite Hog. fold g. lia. }
  set (r' := bumped _ _ now) in *. cbn [wr_observed bumped with_observation].
  assert (wrap_u64 (wr_resource_version r + 1) = wr_resource_version r + 1) as Hwrap
    by (apply wrap_u64_id; ilia).
  assert (vd_workloads db2 !! wr_id r = Some (stored_row r')) as Hr'
    by (rewrite Hw; apply lookup_insert_eq).
  assert (observed_desired r') as Hod'.
  { intros x [= <-]. simpl. rewrite Hog. fold g. lia. }
  destruct (reconcile_after d g (wr_observed r) s ob Hs Hst Hog) as [Hdone|(Hd & Hrun & Hnp)].
  - rewrite (bool_decide_true _ Hdone). cbn [andb]. case_bool_decide as Hdel.
    + rewrite run_bind.
      destruct (run_event (wr_owner r) (wr_id r') EvDeleted None (Some (op_id o)) e2 db2 n)
        as (e3 & db3 & -> & Hroom3 & Hw3 & Ho3); [done..|].
      exists true, r', e3, db3. rewrite Hw3, Ho3. simpl. split_and!; try done; [lia..|].
      by apply reconcile_settled.
    + exists true, r', e2, db2. simpl.
      split_and!; try done; [lia..|eapply room_less; [exact Hroom2|lia]|]. by apply reconcile_settled.
  - rewrite bool_decide_false.
    2:{ intros Hc%reconcile_settled. unfold settled in Hc. rewrite Hd in Hc.
        destruct Hc as [_ Hc]. congruence. }
    exists false, r', e2, db2. simpl.
    split_and!; try done; [lia..|eapply room_less; [exact Hroom2|lia]| |].
    + split; [exact Hd|]. exists ob. split_and!; [done|congruence|done].
    + intros (_ & x & Hx & Hxs & Hxg). apply Hnp. unfold reconcile. rewrite Hx, Hd. simpl.
      by rewrite Hxs.
Qed.

(** A lifecycle operation and the workload it is for, both stored, with nothing else in the way. *)
Record in_hand (db : VmmDb) (o : OperationRecord) (r : WorkloadRecord) : Prop := {
  hand_workload : vd_workloads db !! wr_id r = Some (stored_row r);
  hand_operation : vd_operations db !! op_id o = Some (stored_operation o);
  hand_for : op_workload_id o = Some (wr_id r);
  hand_owner : op_owner o = wr_owner r;
  hand_generation : op_generation o = Some (ds_generation (wr_desired r));
  hand_deadline : in_time o;
  hand_kind : lifecycle (op_kind o);
  hand_observed : observed_desired r;
}.

(** What one attempt makes of it. *)
Definition attempted (db : VmmDb) (o : OperationRecord) (r : WorkloadRecord)
    (o' : OperationRecord) (r' : WorkloadRecord) : Prop :=
  in_hand db o' r' ∧ op_id o' = op_id o ∧ op_owner o' = op_owner o ∧
  wr_id r' = wr_id r ∧ wr_desired r' = wr_desired r ∧
  1 ≤ wr_resource_version r' ≤ wr_resource_version r + 1 ∧
  (op_state o' = OpSucceeded ∧
     settled (ds_state (wr_desired r)) (ds_generation (wr_desired r)) (wr_observed r') ∨
   op_state o' = OpRunning ∧ half_way r' ∧ ¬ half_way r).

Lemma run_deadline o e db :
  in_time o →
  ∃ e', run (match op_deadline_millis o with
             | Some deadline => let* now := ask CallUnixMillis in Ret (deadline <=? now)
             | None => Ret false
             end) e db = (Some false, e', db).
Proof.
  unfold in_time. intros Ht. destruct (op_deadline_millis o) as [deadline|]; [|by exists e].
  specialize (Ht deadline e eq_refl). simpl. destruct (respond CallUnixMillis e) as [now e']. exists e'.
  simpl in *. by rewrite (proj2 (Z.leb_gt deadline now)).
Qed.

Lemma run_attempt o r e db n :
  obedient → in_hand db o r → op_state o = OpRunning → 1 ≤ wr_resource_version r < i64_max →
  room db (n + 3) → 0 ≤ n →
  ∃ o' r' e' db', run (attempt o (op_owner o)) e db = (Some (Ok o'), e', db') ∧
    attempted db' o r o' r' ∧ room db' n.
Proof.
  intros Hob [Hr Ho Hfor How Hgen Hdl Hk Hod] Hs Hv Hroom Hn. unfold attempt. rewrite Hfor.
  destruct (run_deadline o e db Hdl) as [e0 He0].
  rewrite run_bind, He0, run_bind, run_bind, How, run_load by done. cbn [run]. clear e He0.
  match goal with |- context [run ?p e0 db] => assert (∃ e, run p e0 db = run (
    let* outcome := converge o r in
    match outcome with
    | Ok true => finish o (Ok None)
    | Ok false => Ret (Ok o)
    | Err error => if retryable (ve_failure error) then Ret (Ok o) else finish o (Err error)
    end) e db) as [e ->] end.
  { destruct (op_kind o); try done; try (by exists e0).
    rewrite (bool_decide_true (KRestore = KRestore)) by done.
    destruct (bool_decide (wr_applied_generation r = _)); [by exists e0|]. cbn [andb negb].
    destruct (proj2 Hob (Some r) o e0) as (restored & e1 & E1). exists e1.
    rewrite run_bind. cbn [ask run store_answer]. rewrite E1, run_bind, run_load by done. done. }
  rewrite run_bind.
  destruct (run_converge o r e db (n + 1)) as (b & r' & e1 & db1 & -> & Hr' & Hops & Hid & Hown & Hd
    & Hv' & Hod' & Hroom1 & Hb); [done..|by replace (n + 1 + 2) with (n + 3) by lia|lia|].
  assert (∀ o', op_workload_id o' = op_workload_id o → op_owner o' = op_owner o →
    op_generation o' = op_generation o → op_deadline_millis o' = op_deadline_millis o →
    op_kind o' = op_kind o → ∀ db', vd_workloads db' = vd_workloads db1 →
    vd_operations db' !! op_id o' = Some (stored_operation o') → in_hand db' o' r') as Hhand.
  { intros o' E1 E2 E3 E4 E5 db' Ew Eo.
    split; unfold in_time; rewrite ?Hid, ?Ew, ?E1, ?E2, ?E3, ?E4, ?E5, ?Hd, ?Hown; done. }
  destruct b.
  - destruct (run_finish o e1 db1 n) as (o' & e2 & db2 & -> & Hs' & Hsame & Ho' & Hw2 & Hroom2);
      [by rewrite Hops|done..|].
    destruct Hsame as (S1 & S2 & S3 & S4 & S5 & _ & _ & S8).
    exists o', r', e2, db2. split_and!; [done| |done].
    split_and!; try done; try lia; [|by left]. apply Hhand; try done. by rewrite S2.
  - exists o, r', e1, db1. simpl. split_and!; [done| |eapply room_less; [exact Hroom1|lia]].
    split_and!; try done; try lia; [|by right]. apply Hhand; try done. by rewrite Hops.
Qed.

Lemma run_operation o e db :
  vd_operations db !! op_id o = Some (stored_operation o) →
  run (operation (op_owner o) (op_id o)) e db = (Some (Ok o), e, db).
Proof.
  intros Ho. simpl. unfold VmmStore_operation. rewrite Ho. simpl. by rewrite bool_decide_true.
Qed.

Lemma run_execute o r e db n :
  obedient → in_hand db o r → unfinished (op_state o) = true → 1 ≤ wr_resource_version r < i64_max →
  room db (n + 3) → 0 ≤ n →
  ∃ o' r' e' db', run (execute (op_id o) (op_owner o)) e db = (Some (Ok o'), e', db') ∧
    attempted db' o r o' r' ∧ room db' n.
Proof.
  intros Hob Hh Hs Hv Hroom Hn. unfold execute.
  rewrite run_bind, run_operation by apply Hh. case_bool_decide as Hp.
  - rewrite run_bind. simpl run at 1. destruct (respond CallUnixMillis e) as [now e1].
    unfold OperationRecord_transition. rewrite Hp. simpl operation_transition.
    cbn [rule map_err bind]. rewrite run_bind, <-Hp.
    rewrite (run_replace o); [|apply Hh|unfold same_operation; simpl; tauto].
    cbn [op_state]. rewrite bool_decide_true by done. cbn [negb].
    match goal with |- context [run (attempt ?m _) _ ?d] =>
      destruct (run_attempt m r e1 d n) as (o' & r' & e' & db' & Hrun & Ha & Hroom') end; try done.
    + destruct Hh. split; try done. simpl. apply lookup_insert_eq.
    + exists o', r', e', db'. split_and!; [exact Hrun|exact Ha|done].
  - assert (op_state o = OpRunning) as Hr by by destruct (op_state o).
    rewrite bool_decide_true by done. cbn [negb].
    by apply run_attempt.
Qed.

(** An operation that has finished is returned as it is. *)
Lemma run_finished o e db :
  vd_operations db !! op_id o = Some (stored_operation o) → op_state o = OpSucceeded →
  run (execute (op_id o) (op_owner o)) e db = (Some (Ok o), e, db).
Proof.
  intros Ho Hs. unfold execute. rewrite run_bind, run_operation by done.
  by rewrite Hs, !bool_decide_false.
Qed.

(** C36. Executing converges.  An executor that runs alone, on a lifecycle operation of the current
    generation (a restore included) that has not finished and whose deadline, if it has one, the clock
    does not reach, with room for six events and two versions, against a backend that does what it is asked: two
    attempts succeed, and leave the workload in a state that settles what is desired; further
    attempts change nothing. *)
Theorem executor_converges o r e db :
  obedient → in_hand db o r → unfinished (op_state o) = true →
  1 ≤ wr_resource_version r → wr_resource_version r + 2 ≤ i64_max → room db 6 →
  ∃ o' r' e' db',
    run (let! _ := execute (op_id o) (op_owner o) in execute (op_id o) (op_owner o)) e db
      = (Some (Ok o'), e', db') ∧
    op_state o' = OpSucceeded ∧ vd_operations db' !! op_id o = Some (stored_operation o') ∧
    vd_workloads db' !! wr_id r = Some (stored_row r') ∧ wr_desired r' = wr_desired r ∧
    settled (ds_state (wr_desired r)) (ds_generation (wr_desired r)) (wr_observed r') ∧
    ∀ e'', run (execute (op_id o) (op_owner o)) e'' db' = (Some (Ok o'), e'', db').
Proof.
  intros Hob Hh Hs Hv1 Hv2 Hroom. rewrite run_bind.
  destruct (run_execute o r e db 3) as (o1 & r1 & e1 & db1 & -> & Ha & Hroom1); try done; [ilia|].
  destruct Ha as (Hh1 & Hid1 & How1 & Hwid1 & Hd1 & Hv & Hcase).
  rewrite <-Hid1, <-How1, <-Hwid1, <-Hd1 in *.
  destruct Hcase as [[Hs1 Hset]|(Hs1 & Hhalf & Hnot)].
  - exists o1, r1, e1, db1. rewrite run_finished by (try apply Hh1; done).
    split_and!; try done; try apply Hh1. intros e''. apply run_finished; [apply Hh1|done].
  - destruct (run_execute o1 r1 e1 db1 0) as (o2 & r2 & e2 & db2 & -> & Ha2 & _);
      [done|done|by rewrite Hs1|ilia|done|done|].
    destruct Ha2 as (Hh2 & Hid2 & How2 & Hwid2 & Hd2 & _ & [[Hs2 Hset]|(_ & _ & Hno)]); [|done].
    exists o2, r2, e2, db2. rewrite <-Hid2, <-How2, <-Hwid2 in *.
    split_and!; try done; try apply Hh2. intros e''. apply run_finished; [apply Hh2|done].
Qed.
End alone.

(** ** Witnesses *)

(** A clock that ticks (for a while), fresh operation ids, and a backend that obeys. *)
Record ExampleEnv := { env_now : Z; env_next : N }.

Definition example_runtime : RuntimeCapabilities :=
  {| rc_runtime := lit "wasm"; rc_invocation := true; rc_long_running := true; rc_pause := true;
     rc_snapshot := true; rc_exec := false; rc_terminal := false; rc_http_ingress := false;
     rc_files := false; rc_build := false; rc_chain_transactions := false;
     rc_execution_proofs := false;
     rc_deploy := {| dc_entity_file_name := lit "main"; dc_accepts_extra_files := false;
                     dc_build_on_deploy := false |} |}.

Definition example_step (r : WorkloadRecord) (action : ReconcileAction) : Observation :=
  {| obs_state := default OPending (action_state action);
     obs_generation := ds_generation (wr_desired r);
     obs_sequence := match wr_observed r with Some p => obs_sequence p + 1 | None => 1 end;
     obs_reason := None; obs_observed_at_millis := 0 |}.

Definition example_respond (c : call) (e : ExampleEnv) : answer c * ExampleEnv :=
  match c return answer c * ExampleEnv with
  | CallUnixMillis => (Z.min (env_now e) 1000000, {| env_now := env_now e + 1; env_next := env_next e |})
  | CallNewOperationId =>
      (env_next e, {| env_now := env_now e; env_next := (env_next e + 1)%N |})
  | CallDescribe => (Ok {| bd_name := lit "native"; bd_version := lit "1"; bd_contract := lit "1";
                           bd_runtimes := [example_runtime] |}, e)
  | CallStep r action => (Ok (example_step r action), e)
  | CallObserveAll => (Ok [], e)
  | CallRun _ _ | CallForwardHttp _ _ | CallVerify _ _ => (Ok [], e)
  | CallPutFile _ _ _ => (Ok tt, e)
  | CallGetFile _ _ | CallEndpoints _ | CallLogs _ _ _ => (Ok [], e)
  | CallUsage _ => (Err PNotFound, e)
  | CallWorkload _ _ => (Err PNotFound, e)
  | CallWorkloads _ _ _ _ | CallAllWorkloads _ _ => (Err PNotFound, e)
  | CallInsertWorkload _ | CallReplaceWorkload _ _ => (Err PNotFound, e)
  | CallOperation _ _ => (Err PNotFound, e)
  | CallOperations _ _ _ _ => (Err PNotFound, e)
  | CallInsertOperation _ | CallReplaceOperation _ _ => (Err PNotFound, e)
  | CallUnfinishedOperations _ => (Err PNotFound, e)
  | CallAppend _ => (Err PNotFound, e)
  end.

Section service_witnesses.
Import HexUuid.

Definition example_new : NewWorkload :=
  {| nw_id := 7%N; nw_labels := example_labels; nw_spec := example_spec;
     nw_desired := {| ds_state := DRunning; ds_generation := MkGeneration 1 |} |}.

(** A workload is created, its operation executed, and then it is told to pause. *)
Definition example_requests : list (prog unit) :=
  [discard (create (lit "node") example_new None);
   discard (execute 100%N (lit "node"));
   discard (command 3 (lit "node") 7%N CmdPause (MkGeneration 2) None None)].

Fixpoint run_all (ps : list (prog unit)) (e : ExampleEnv) (db : VmmDb)
    : option (ExampleEnv * VmmDb) :=
  match ps with
  | [] => Some (e, db)
  | p :: ps =>
      match run example_respond p e db with
      | (Some _, e, db) => run_all ps e db
      | _ => None
      end
  end.

Definition example_served : option (ExampleEnv * VmmDb) :=
  run_all example_requests {| env_now := 1000; env_next := 100%N |} empty_vmm.

Lemma run_all_reaches ps e db e' db' w :
  run_all ps e db = Some (e', db') → vmm_db w = db → Forall use_case ps →
  ∃ w', rtc vmm_step w w' ∧ vmm_db w' = db'.
Proof.
  revert e db w. induction ps as [|p ps IH]; intros e db w Hall Hdb Huse; simpl in Hall.
  { simplify_eq. by exists w. }
  apply Forall_cons in Huse as [Hp Huse].
  destruct (run example_respond p e db) as [[[a|] e1] db1] eqn:Hrun; [|done].
  pose proof (VmmStart w p Hp) as Hs.
  match type of Hs with vmm_step _ ?w1 =>
    destruct (run_reaches example_respond p e db a e1 db1 (length (vmm_threads w)) w1 Hrun)
      as (wl & ol & Hr) end; [done|simpl; by apply list_lookup_middle|].
  match type of Hr with rtc _ _ ?w2 =>
    destruct (IH e1 db1 w2 Hall eq_refl Huse) as (w' & Hw' & Hdb') end.
  exists w'. split; [|done]. eapply rtc_l; [exact Hs|]. by etrans.
Qed.

Lemma example_reachable_vmm : ∃ w e, vmm_reachable w ∧ example_served = Some (e, vmm_db w).
Proof.
  assert (is_some example_served = true) as Hs by (vm_compute; reflexivity).
  destruct example_served as [[e db]|] eqn:E; [|done].
  destruct (run_all_reaches _ _ _ _ _ vmm_initial E) as (w & Hw & Hdb); [done|repeat constructor|].
  exists w, e. split; [exact Hw|]. rewrite Hdb. reflexivity.
Qed.

(** After those requests: the third version of the workload, running and told to pause. *)
Lemma workloads_evolve_witness :
  ∃ w r, calm_run w ∧ last (history wr_id (vmm_workload_log (ac_world w)) 7%N) = Some r ∧
    ds_state (wr_desired r) = DPaused ∧ wr_resource_version r = 3 ∧
    obs_state <$> wr_observed r = Some ORunning.
Proof.
  destruct example_reachable_vmm as (w & e & [seen Hw]%whole_calls_calm & Hdb).
  destruct (workloads_evolve _ 7%N Hw) as (Hst & _). cbn [ac_world] in Hst.
  set (f row := let r := vw_record row in
    (ds_state (wr_desired r), wr_resource_version r, obs_state <$> wr_observed r)).
  assert ((λ s, f <$> vd_workloads s.2 !! 7%N) <$> example_served
    = Some (Some (DPaused, 3, Some ORunning))) as Hf by (vm_compute; reflexivity).
  rewrite Hdb in Hf. cbn [fmap option_fmap option_map snd] in Hf. injection Hf as Hf.
  rewrite Hst in Hf. destruct (last _) as [r|] eqn:El; [|discriminate].
  exists {| ac_world := w; ac_seen := seen |}, r. injection Hf as H1 H2 H3. split_and!; assumption.
Defined.

(** The operation that created it has succeeded. *)
Lemma operations_settle_witness :
  ∃ w o, calm_run w ∧ last (history op_id (vmm_operation_log (ac_world w)) 100%N) = Some o ∧
    op_state o = OpSucceeded ∧ (length (history op_id (vmm_operation_log (ac_world w)) 100%N) ≤ 3)%nat.
Proof.
  destruct example_reachable_vmm as (w & e & [seen Hw]%whole_calls_calm & Hdb).
  destruct (operations_settle _ 100%N Hw) as (Hst & _ & _ & Hlen & _). cbn [ac_world] in Hst, Hlen.
  assert ((λ s, op_state ∘ vo_record <$> vd_operations s.2 !! 100%N) <$> example_served
    = Some (Some OpSucceeded)) as Hf by (vm_compute; reflexivity).
  rewrite Hdb in Hf. cbn [fmap option_fmap option_map snd] in Hf. injection Hf as Hf.
  rewrite Hst in Hf. destruct (last _) as [o|] eqn:El; [|discriminate].
  exists {| ac_world := w; ac_seen := seen |}, o. injection Hf as H1. split_and!; assumption.
Defined.

(** Two writers that both saw version 1: the second to write wins over the first, and a workload that
    was deleted runs again. *)
Definition saved (state : DesiredWorkloadState) (generation : Z) : WorkloadRecord :=
  bumped (with_desired (example_workload 7%N) example_spec {| ds_state := state; ds_generation := MkGeneration generation |}) 1 20.
Example stale_write_wins :
  let db := (VmmStore_insert_workload (example_workload 7%N) empty_vmm).2 in
  let seen := vd_workloads db !! 7%N in
  let '(first, db1) := replace_workload_seen (saved DDeleted 3) 1 seen db in
  let '(second, db2) := replace_workload_seen (saved DStopped 2) 1 seen db1 in
  (first, second, vd_workloads db2 !! 7%N) = (Ok tt, Ok tt, Some (stored_row (saved DStopped 2)))
  ∧ (replace_workload_seen (saved DStopped 2) 1 (vd_workloads db1 !! 7%N) db1).1 = Err PConflict.
Proof. vm_compute. done. Qed.
(** And an operation that was cancelled succeeds. *)
Example stale_finish_wins :
  let running := {| op_owner := lit "node"; op_id := 100%N; op_workload_id := Some 7%N; op_kind := KPause; op_state := OpRunning;
                    op_generation := None; op_request := None; op_created_at_millis := 0; op_updated_at_millis := 0;
                    op_deadline_millis := None; op_result := None; op_error := None |} in
  let ended state := {| op_owner := lit "node"; op_id := 100%N; op_workload_id := Some 7%N; op_kind := KPause; op_state := state;
                        op_generation := None; op_request := None; op_created_at_millis := 0; op_updated_at_millis := 5;
                        op_deadline_millis := None; op_result := None; op_error := None |} in
  let db := (VmmStore_insert_operation running empty_vmm).2 in
  let seen := vd_operations db !! 100%N in
  let '(first, db1) := replace_operation_seen (ended OpCancelled) OpRunning seen db in
  let '(second, db2) := replace_operation_seen (ended OpSucceeded) OpRunning seen db1 in
  (first, second, vo_state <$> vd_operations db2 !! 100%N) = (Ok tt, Ok tt, Some OpSucceeded).
Proof. vm_compute. done. Qed.

(** Pausing an unobserved workload takes both attempts: start it, then pause it. *)
Definition example_pause : WorkloadRecord :=
  with_desired (example_workload 7%N) example_spec
    {| ds_state := DPaused; ds_generation := MkGeneration 2 |}.
Definition example_operation : OperationRecord :=
  {| op_owner := lit "node"; op_id := 100%N; op_workload_id := Some 7%N; op_kind := KPause;
     op_state := OpPending; op_generation := Some (MkGeneration 2); op_request := None;
     op_created_at_millis := 0; op_updated_at_millis := 0; op_deadline_millis := Some 2000000;
     op_result := None; op_error := None |}.
Definition example_in_hand : VmmDb :=
  (VmmStore_insert_operation example_operation
     (VmmStore_insert_workload example_pause empty_vmm).2).2.

Lemma example_obedient : obedient example_respond.
Proof.
  split; [|intros r o e; by exists [], e].
  intros r action s e Hod Ha. exists (example_step r action), e. split_and!; [done| |done|].
  - simpl. by rewrite Ha.
  - intros p Hp. specialize (Hod p Hp). unfold obs_lt, example_step. simpl. rewrite Hp. lia.
Qed.

Lemma executor_converges_witness :
  ∃ o e db,
    run example_respond (let! _ := execute 100%N (lit "node") in execute 100%N (lit "node"))
      {| env_now := 5; env_next := 0 |} example_in_hand = (Some (Ok o), e, db) ∧
    op_state o = OpSucceeded.
Proof.
  destruct (executor_converges example_respond example_operation example_pause
    {| env_now := 5; env_next := 0 |} example_in_hand example_obedient)
    as (o & r & e & db & Hrun & Hs & _).
  - split; try reflexivity; [|intros x Hx; discriminate]. intros deadline e [= <-]. cbn [example_respond fst]. lia.
  - reflexivity.
  - vm_compute. discriminate.
  - vm_compute. discriminate.
  - split_and!; [vm_compute; discriminate|vm_compute; discriminate|reflexivity].
  - exists o, e, db. split; [exact Hrun|exact Hs].
Defined.
End service_witnesses.
