(* ===== verification/Federation.v ===== *)
(** Federation rules: [crates/aseman-domain/src/federation.rs].  Descriptors, envelopes, the
    destination's acceptance check, forwarding and the descriptor caches.

    The theorems: acceptance is exactly the conjunction of its checks, with the lifetime
    subtraction's wrap-around made explicit; a forwarding chain is bounded by the hop limit and
    changes nothing else; a descriptor cache only moves forward. *)

From S2P Require Import Prelude Text Core.

Open Scope Z_scope.

Record NodeDescriptor := {
  nd_node_id : Uuid;
  nd_key_epoch : u32;
  nd_keys : list str;
  nd_federation_endpoint : str;
  nd_client_endpoint : str;
  nd_contracts : list str;
  nd_runtimes : list str;
  nd_sequence : u64;
  nd_expires_at_millis : i64;
  nd_revoked_epochs : list u32;
}.

Record WorkloadDescriptor := {
  wd_workload_id : Uuid;
  wd_home_node : Uuid;
  wd_home_endpoint : str;
  wd_public_key : str;
  wd_revision : u64;
  wd_expires_at_millis : i64;
}.

Record Envelope := {
  en_request_id : Uuid;
  en_source_node : Uuid;
  en_destination_node : Uuid;
  en_subject : str;
  en_target : str;
  en_action : str;
  en_payload_digest : str;
  en_issued_at_millis : i64;
  en_expires_at_millis : i64;
  en_nonce : str;
  en_hop_limit : u8;
  en_version : str;
}.
#[export] Instance Envelope_eq_dec : EqDecision Envelope.
Proof. solve_decision. Defined.

Inductive FederationReply :=
| ReplyExecuted (answer : str)
| ReplyReplayed (answer : str)
| ReplyRefused (reason : str).

Definition MAX_HOP_LIMIT : u8 := 4.
Definition MAX_LIFETIME_MILLIS : i64 := 60000.

Inductive FederationError :=
| FUnknownVersion | FWrongDestination | FSelfAddressed | FExpired | FLifetimeTooLong
| FHopLimitTooHigh | FHopLimitReached | FInvalidNonce | FReplayed | FInvalidDigest | FIncomplete.
#[export] Instance FederationError_eq_dec : EqDecision FederationError.
Proof. solve_decision. Defined.

(** The [#[error]] texts. *)
Definition FederationError_text (self : FederationError) : str :=
  match self with
  | FUnknownVersion => lit "unknown envelope version"
  | FWrongDestination => lit "this envelope is addressed to another node"
  | FSelfAddressed => lit "an envelope's source and destination are different nodes"
  | FExpired => lit "the envelope has expired"
  | FLifetimeTooLong => lit "an envelope may not be valid for that long"
  | FHopLimitTooHigh => lit "the hop limit is above the federation maximum"
  | FHopLimitReached => lit "the envelope may not be forwarded again"
  | FInvalidNonce => lit "the nonce is missing or too long"
  | FReplayed => lit "this envelope has already been seen"
  | FInvalidDigest => lit "the payload digest is not a sha256 digest"
  | FIncomplete => lit "the envelope names no subject, target, or action"
  end.

Definition accept (envelope : Envelope) (destination : Uuid) (now_millis : i64)
    (seen_nonce : bool) : result unit FederationError :=
  if negb (bool_decide (en_version envelope = lit "1")) then Err FUnknownVersion
  else if negb (bool_decide (en_destination_node envelope = destination))
  then Err FWrongDestination
  else if bool_decide (en_source_node envelope = en_destination_node envelope)
  then Err FSelfAddressed
  else if en_expires_at_millis envelope <=? en_issued_at_millis envelope then Err FExpired
  else if MAX_LIFETIME_MILLIS
            <? wrap_i64 (en_expires_at_millis envelope - en_issued_at_millis envelope)
  then Err FLifetimeTooLong
  else if en_expires_at_millis envelope <=? now_millis then Err FExpired
  else if MAX_HOP_LIMIT <? en_hop_limit envelope then Err FHopLimitTooHigh
  else if is_empty (en_nonce envelope) || (128 <? len (en_nonce envelope)) then Err FInvalidNonce
  else if seen_nonce then Err FReplayed
  else if negb (is_sha256_digest (en_payload_digest envelope)) then Err FInvalidDigest
  else if is_empty (en_action envelope) || is_empty (en_subject envelope)
          || is_empty (en_target envelope) then Err FIncomplete
  else Ok tt.

Definition forward (envelope : Envelope) : result Envelope FederationError :=
  if en_hop_limit envelope =? 0 then Err FHopLimitReached
  else Ok {| en_request_id := en_request_id envelope; en_source_node := en_source_node envelope;
             en_destination_node := en_destination_node envelope;
             en_subject := en_subject envelope; en_target := en_target envelope;
             en_action := en_action envelope; en_payload_digest := en_payload_digest envelope;
             en_issued_at_millis := en_issued_at_millis envelope;
             en_expires_at_millis := en_expires_at_millis envelope;
             en_nonce := en_nonce envelope; en_hop_limit := en_hop_limit envelope - 1;
             en_version := en_version envelope |}.

Definition accepts_node_descriptor (cached : option NodeDescriptor) (received : NodeDescriptor)
    : bool :=
  if existsb (Z.eqb (nd_key_epoch received)) (nd_revoked_epochs received) then false
  else is_none_or (λ cached, nd_sequence cached <? nd_sequence received) cached.

Definition accepts_workload_descriptor (cached : option WorkloadDescriptor)
    (received : WorkloadDescriptor) : bool :=
  is_none_or (λ cached, wd_revision cached <? wd_revision received) cached.

Definition descriptor_is_fresh (expires_at_millis now_millis : i64) : bool :=
  now_millis <? expires_at_millis.

(** ** Lemmas *)

(** What acceptance establishes. *)
Record acceptable (e : Envelope) (destination : Uuid) (now : i64) (seen : bool) : Prop := {
  ac_version : en_version e = lit "1";
  ac_destination : en_destination_node e = destination;
  ac_source : en_source_node e ≠ destination;
  ac_window : en_issued_at_millis e < en_expires_at_millis e ∧ now < en_expires_at_millis e;
  ac_lifetime : wrap_i64 (en_expires_at_millis e - en_issued_at_millis e) ≤ MAX_LIFETIME_MILLIS;
  ac_hops : en_hop_limit e ≤ MAX_HOP_LIMIT;
  ac_nonce : en_nonce e ≠ [] ∧ len (en_nonce e) ≤ 128 ∧ seen = false;
  ac_digest : is_sha256_digest (en_payload_digest e) = true;
  ac_complete : en_action e ≠ [] ∧ en_subject e ≠ [] ∧ en_target e ≠ [];
}.

Lemma accept_acceptable e destination now seen :
  accept e destination now seen = Ok tt ↔ acceptable e destination now seen.
Proof.
  unfold accept. split.
  - repeat case_match; try done. intros _.
    repeat match goal with H : _ = false |- _ => revert H end. unbool.
    rewrite !is_empty_false. intros. subst. split; naive_solver.
  - intros [-> <- Hs [??] ? ? (? & ? & ->) -> (Ha & Hb & Hc)].
    rewrite !bool_decide_true by done. rewrite bool_decide_false by done. simpl.
    destruct (Z.leb_spec (en_expires_at_millis e) (en_issued_at_millis e)); [lia|].
    destruct (Z.ltb_spec MAX_LIFETIME_MILLIS
      (wrap_i64 (en_expires_at_millis e - en_issued_at_millis e))); [lia|].
    destruct (Z.leb_spec (en_expires_at_millis e) now); [lia|].
    destruct (Z.ltb_spec MAX_HOP_LIMIT (en_hop_limit e)); [lia|].
    destruct (Z.ltb_spec 128 (len (en_nonce e))); [lia|].
    rewrite <-is_empty_false in *.
    repeat match goal with H : is_empty _ = false |- _ => rewrite H; clear H end. done.
Qed.

(** Forwarding [n] times. *)
Fixpoint forwards (n : nat) (e : Envelope) : result Envelope FederationError :=
  match n with
  | O => Ok e
  | S n => let? e' := forward e in forwards n e'
  end.

(** What forwarding may not touch. *)
Definition same_request (e e' : Envelope) : Prop :=
  en_request_id e' = en_request_id e ∧ en_source_node e' = en_source_node e ∧
  en_destination_node e' = en_destination_node e ∧ en_subject e' = en_subject e ∧
  en_target e' = en_target e ∧ en_action e' = en_action e ∧
  en_payload_digest e' = en_payload_digest e ∧
  en_issued_at_millis e' = en_issued_at_millis e ∧
  en_expires_at_millis e' = en_expires_at_millis e ∧ en_nonce e' = en_nonce e ∧
  en_version e' = en_version e.

(** ** Properties *)

(** Acceptance, exactly: an envelope passes iff it speaks version 1, is addressed here by
    another node, is unexpired, declares at most four hops, has a nonce that was not seen, a
    digest and a complete request, and its lifetime is at most a minute or exceeds [i64::MAX],
    where the subtraction wraps around. *)
Theorem envelope_accepted e destination now seen :
  in_i64 (en_issued_at_millis e) → in_i64 (en_expires_at_millis e) →
  accept e destination now seen = Ok tt ↔
  en_version e = lit "1" ∧ en_destination_node e = destination ∧
  en_source_node e ≠ destination ∧
  en_issued_at_millis e < en_expires_at_millis e ∧ now < en_expires_at_millis e ∧
  (en_expires_at_millis e - en_issued_at_millis e ≤ 60000 ∨
   i64_max < en_expires_at_millis e - en_issued_at_millis e) ∧
  en_hop_limit e ≤ 4 ∧ en_nonce e ≠ [] ∧ len (en_nonce e) ≤ 128 ∧ seen = false ∧
  is_sha256_digest (en_payload_digest e) = true ∧
  en_action e ≠ [] ∧ en_subject e ≠ [] ∧ en_target e ≠ [].
Proof.
  intros Hi He. rewrite accept_acceptable. split.
  - intros [? ? ? [??] Hl ? (? & ? & ?) ? (? & ? & ?)].
    apply wrapped_lifetime in Hl; [|done..]. split_and!; done.
  - intros (? & ? & ? & ? & ? & Hl & ? & ? & ? & ? & ? & ? & ? & ?). split; try done.
    by apply wrapped_lifetime.
Qed.

Definition example_envelope : Envelope :=
  {| en_request_id := 1%N; en_source_node := 2%N; en_destination_node := 3%N;
     en_subject := lit "workload:1"; en_target := lit "store:s1"; en_action := lit "store.read";
     en_payload_digest :=
       lit "sha256:0000000000000000000000000000000000000000000000000000000000000000";
     en_issued_at_millis := -2; en_expires_at_millis := i64_max; en_nonce := lit "n";
     en_hop_limit := 0; en_version := lit "1" |}.

(** The lifetime bound can be stepped over: this envelope is valid for ever. *)
Lemma envelope_accepted_witness :
  accept example_envelope 3%N 1700000000000 false = Ok tt.
Proof.
  apply envelope_accepted.
  - vm_compute. split; discriminate.
  - vm_compute. split; discriminate.
  - split_and!; try reflexivity; try discriminate; try (vm_compute; discriminate).
    right. reflexivity.
Defined.

(** Forwarding: an envelope can be forwarded exactly as many times as its hop limit says,
    each hop lowers the limit by one and leaves the request untouched; so an accepted envelope
    crosses at most four nodes. *)
Theorem forwarding_bounded n e :
  0 ≤ en_hop_limit e ≤ u8_max →
  match forwards n e with
  | Ok e' => Z.of_nat n ≤ en_hop_limit e ∧ en_hop_limit e' = en_hop_limit e - Z.of_nat n ∧
      same_request e e'
  | Err error => error = FHopLimitReached ∧ en_hop_limit e < Z.of_nat n
  end.
Proof.
  revert e. induction n as [|n IH]; intros e He; cbn [forwards].
  - split_and!; [lia..|]. by unfold same_request.
  - unfold forward. destruct (Z.eqb_spec (en_hop_limit e) 0); [split; [done|lia]|].
    match goal with |- context [forwards n ?x] => specialize (IH x) end. simpl in IH.
    destruct (forwards n _) as [e'|error]; destruct IH; [lia|..|lia|]; [|split; [done|lia]].
    split_and!; [lia..|]. unfold same_request in *. simpl in *. tauto.
Qed.

Lemma forwarding_bounded_witness :
  forwards 1 example_envelope = Err FHopLimitReached ∧ en_hop_limit example_envelope < 1.
Proof.
  assert (forwards 1 example_envelope = Err FHopLimitReached) as E by reflexivity.
  split; [exact E|].
  pose proof (forwarding_bounded 1 example_envelope ltac:(split; discriminate)) as H.
  rewrite E in H. exact (proj2 H).
Defined.
