(* ===== verification/FederationService.v ===== *)
(** Federation, the service: the envelope guard and descriptor directory on storage
    ([crates/aseman-capsule/src/federation.rs]) and the source and destination use cases
    ([crates/aseman-application/src/federation.rs]).

    The policy port, the transport, the clock and SHA-256 are parameters.  [serve]'s [execute] acts
    on a world of its own type [X], so "executed" is visible as a change of that world.

    The theorems: the destination decides (nothing runs unless the envelope is acceptable, the
    peer known and this node's own policy, with no facts and no grants from outside, allows it);
    an envelope is executed at most once whatever is replayed, purged or retried; and what a source
    sends is acceptable at the destination and means the same subject, action and target there. *)

From S2P Require Import Prelude Text Core Identity Registry Capability Authority Ports Federation.

Open Scope Z_scope.

(** ** Ports *)

Class EnvelopeGuard (S : Type) := {
  guard_remember_nonce : Envelope → S → PortResult bool * S;
  guard_forget_nonce : Envelope → S → PortResult unit * S;
  guard_recorded_answer : Uuid → S → PortResult (option str);
  guard_record_answer : Uuid → str → i64 → S → PortResult unit * S;
  guard_purge_expired : i64 → S → PortResult u64 * S;
}.

Class Directory (S : Type) := {
  dir_own_node : S → PortResult NodeDescriptor;
  dir_node : Uuid → i64 → S → PortResult (option NodeDescriptor);
  dir_record_node : NodeDescriptor → S → PortResult unit * S;
  dir_workload : Uuid → i64 → S → PortResult (option WorkloadDescriptor);
  dir_record_workload : WorkloadDescriptor → S → PortResult unit * S;
}.

(** ** The storage adapter *)

(** The four tables and the failure the provider answers with while unreachable.  A descriptor
    column holds the JSON text of the descriptor; the row is modelled with the descriptor itself,
    and UUID keys with the UUID. *)
Record FederationDb := {
  fd_own : Uuid;
  fd_nodes : gmap Uuid (i64 * i64 * NodeDescriptor);
  fd_workloads : gmap Uuid (i64 * i64 * WorkloadDescriptor);
  fd_nonces : gmap str i64;
  fd_answers : gmap Uuid (str * i64);
  fd_failure : option PortError;
}.

Definition fd_put_node (db : FederationDb) k v : FederationDb :=
  {| fd_own := fd_own db; fd_nodes := <[k := v]> (fd_nodes db); fd_workloads := fd_workloads db;
     fd_nonces := fd_nonces db; fd_answers := fd_answers db; fd_failure := fd_failure db |}.
Definition fd_put_workload (db : FederationDb) k v : FederationDb :=
  {| fd_own := fd_own db; fd_nodes := fd_nodes db; fd_workloads := <[k := v]> (fd_workloads db);
     fd_nonces := fd_nonces db; fd_answers := fd_answers db; fd_failure := fd_failure db |}.
Definition fd_set_nonces (db : FederationDb) nonces : FederationDb :=
  {| fd_own := fd_own db; fd_nodes := fd_nodes db; fd_workloads := fd_workloads db;
     fd_nonces := nonces; fd_answers := fd_answers db; fd_failure := fd_failure db |}.
Definition fd_set_answers (db : FederationDb) answers : FederationDb :=
  {| fd_own := fd_own db; fd_nodes := fd_nodes db; fd_workloads := fd_workloads db;
     fd_nonces := fd_nonces db; fd_answers := answers; fd_failure := fd_failure db |}.

(** [signed] through [StorageError::invalid] and [port]. *)
Definition signed (value : u64) : PortResult i64 :=
  ok_or (i64_try_from value)
    (PFailed (lit "invalid storage request: " ++ try_from_int_error)).

(** [row.filter(|row| now < row.expires_at_millis).map(decoded)]. *)
Definition fresh_row {A} (now_millis : i64) (row : option (i64 * i64 * A)) : option A :=
  match row with
  | Some (_, expires, a) => if now_millis <? expires then Some a else None
  | None => None
  end.

Definition StorageFederation_node (node_id : Uuid) (now_millis : i64) (db : FederationDb)
    : PortResult (option NodeDescriptor) :=
  match fd_failure db with
  | Some error => Err error
  | None => Ok (fresh_row now_millis (fd_nodes db !! node_id))
  end.

Definition StorageFederation_own_node (db : FederationDb) : PortResult NodeDescriptor :=
  let? found := StorageFederation_node (fd_own db) i64_min db in
  ok_or found PNotFound.

Definition StorageFederation_record_node (descriptor : NodeDescriptor) (db : FederationDb)
    : PortResult unit * FederationDb :=
  if existsb (Z.eqb (nd_key_epoch descriptor)) (nd_revoked_epochs descriptor)
  then (Err (PDenied (lit "the descriptor revokes its own key epoch")), db)
  else match fd_failure db with
  | Some error => (Err error, db)
  | None =>
      match signed (nd_sequence descriptor) with
      | Err error => (Err error, db)
      | Ok sequence =>
          match fd_nodes db !! nd_node_id descriptor with
          | Some (current, _, _) =>
              if sequence <=? current then (Err PConflict, db)
              else (Ok tt, fd_put_node db (nd_node_id descriptor)
                      (sequence, nd_expires_at_millis descriptor, descriptor))
          | None => (Ok tt, fd_put_node db (nd_node_id descriptor)
                      (sequence, nd_expires_at_millis descriptor, descriptor))
          end
      end
  end.

Definition StorageFederation_workload (workload_id : Uuid) (now_millis : i64) (db : FederationDb)
    : PortResult (option WorkloadDescriptor) :=
  match fd_failure db with
  | Some error => Err error
  | None => Ok (fresh_row now_millis (fd_workloads db !! workload_id))
  end.

Definition StorageFederation_record_workload (descriptor : WorkloadDescriptor)
    (db : FederationDb) : PortResult unit * FederationDb :=
  match fd_failure db with
  | Some error => (Err error, db)
  | None =>
      match signed (wd_revision descriptor) with
      | Err error => (Err error, db)
      | Ok revision =>
          match fd_workloads db !! wd_workload_id descriptor with
          | Some (current, _, _) =>
              if revision <=? current then (Err PConflict, db)
              else (Ok tt, fd_put_workload db (wd_workload_id descriptor)
                      (revision, wd_expires_at_millis descriptor, descriptor))
          | None => (Ok tt, fd_put_workload db (wd_workload_id descriptor)
                      (revision, wd_expires_at_millis descriptor, descriptor))
          end
      end
  end.

Definition nonce_key `{UuidText} (envelope : Envelope) : str :=
  uuid_text (en_source_node envelope) ++ lit "::" ++ en_nonce envelope.

Definition StorageFederation_remember_nonce `{UuidText} (envelope : Envelope) (db : FederationDb)
    : PortResult bool * FederationDb :=
  match fd_failure db with
  | Some error => (Err error, db)
  | None =>
      if is_some (fd_nonces db !! nonce_key envelope) then (Ok false, db)
      else (Ok true, fd_set_nonces db
              (<[nonce_key envelope := en_expires_at_millis envelope]> (fd_nonces db)))
  end.

Definition StorageFederation_forget_nonce `{UuidText} (envelope : Envelope) (db : FederationDb)
    : PortResult unit * FederationDb :=
  match fd_failure db with
  | Some error => (Err error, db)
  | None => (Ok tt, fd_set_nonces db (delete (nonce_key envelope) (fd_nonces db)))
  end.

Definition StorageFederation_recorded_answer (request_id : Uuid) (db : FederationDb)
    : PortResult (option str) :=
  match fd_failure db with
  | Some error => Err error
  | None => Ok (fst <$> fd_answers db !! request_id)
  end.

Definition StorageFederation_record_answer (request_id : Uuid) (answer : str)
    (expires_at_millis : i64) (db : FederationDb) : PortResult unit * FederationDb :=
  match fd_failure db with
  | Some error => (Err error, db)
  | None =>
      if is_none (fd_answers db !! request_id)
      then (Ok tt, fd_set_answers db (<[request_id := (answer, expires_at_millis)]> (fd_answers db)))
      else (Ok tt, db)
  end.

Definition StorageFederation_purge_expired (now_millis : i64) (db : FederationDb)
    : PortResult u64 * FederationDb :=
  match fd_failure db with
  | Some error => (Err error, db)
  | None =>
      let nonces := filter (λ p : str * i64, ¬ p.2 < now_millis) (fd_nonces db) in
      let answers := filter (λ p : Uuid * (str * i64), ¬ p.2.2 < now_millis) (fd_answers db) in
      (Ok (Z.of_nat (size (fd_nonces db) - size nonces)
           + Z.of_nat (size (fd_answers db) - size answers)),
       fd_set_answers (fd_set_nonces db nonces) answers)
  end.

#[export] Instance storage_guard `{UuidText} : EnvelopeGuard FederationDb := {|
  guard_remember_nonce := StorageFederation_remember_nonce;
  guard_forget_nonce := StorageFederation_forget_nonce;
  guard_recorded_answer := StorageFederation_recorded_answer;
  guard_record_answer := StorageFederation_record_answer;
  guard_purge_expired := StorageFederation_purge_expired;
|}.

#[export] Instance storage_directory : Directory FederationDb := {|
  dir_own_node := StorageFederation_own_node;
  dir_node := StorageFederation_node;
  dir_record_node := StorageFederation_record_node;
  dir_workload := StorageFederation_workload;
  dir_record_workload := StorageFederation_record_workload;
|}.

(** ** The use cases *)

Inductive Refusal :=
| RefusedEnvelope (error : FederationError)
| RefusedUnknownPeer
| RefusedDenied (reason : DecisionReason)
| RefusedUnknownSubject
| RefusedUnknownTarget.

Inductive Served :=
| ServedExecuted (answer : str)
| ServedReplayed (answer : str)
| ServedRefused (refusal : Refusal).

(** [{reason:?}], the derived [Debug]. *)
Definition DecisionReason_debug (self : DecisionReason) : str :=
  match self with
  | Allowed => lit "Allowed"
  | UnknownAction => lit "UnknownAction"
  | ResourceMismatch => lit "ResourceMismatch"
  | Forbidden => lit "Forbidden"
  | AuthenticationRequired => lit "AuthenticationRequired"
  | SubjectNotAllowed => lit "SubjectNotAllowed"
  | ConditionNotMet => lit "ConditionNotMet"
  | ProviderError => lit "ProviderError"
  end.

Definition Refusal_to_string (self : Refusal) : str :=
  match self with
  | RefusedEnvelope error => FederationError_text error
  | RefusedUnknownPeer => lit "the sending node is not known here"
  | RefusedDenied reason => lit "the destination denies this: " ++ DecisionReason_debug reason
  | RefusedUnknownSubject => lit "an envelope's subject must be a workload or a creature"
  | RefusedUnknownTarget => lit "an envelope's target must be kind:id"
  end.

Definition subject_of `{UuidText} (text : str) : option Subject :=
  match split_once (chr ":") text with
  | None => None
  | Some (kind, id) =>
      let kind :=
        if bool_decide (kind = lit "workload") then Some Workload
        else if bool_decide (kind = lit "creature") then Some Creature
        else None in
      match kind, uuid_parse_str id with
      | Some kind, Some id => Some {| subject_kind := kind; subject_id := id |}
      | _, _ => None
      end
  end.

(** The request that [serve] puts to this node's policy. *)
Definition federated_policy_request (subject : Subject) (envelope : Envelope) (kind id : str)
    (now : i64) : PolicyRequest :=
  {| pr_subject := Some subject; pr_action := en_action envelope;
     pr_resource := {| rr_kind := kind; rr_id := id |};
     pr_facts := ∅; pr_grants := []; pr_at_millis := now |}.

Definition serve `{UuidText} {S X} `{EnvelopeGuard S} `{Directory S}
    (policy : PolicyRequest → PortResult PolicyDecision) (node_id : Uuid) (now : i64)
    (execute : Envelope → X → PortResult str * X) (envelope : Envelope) (s : S) (x : X)
    : PortResult Served * S * X :=
  match guard_recorded_answer (en_request_id envelope) s with
  | Err error => (Err error, s, x)
  | Ok (Some answer) => (Ok (ServedReplayed answer), s, x)
  | Ok None =>
      match guard_remember_nonce envelope s with
      | (Err error, s) => (Err error, s, x)
      | (Ok remembered, s) =>
          let seen := negb remembered in
          match accept envelope node_id now seen with
          | Err error => (Ok (ServedRefused (RefusedEnvelope error)), s, x)
          | Ok _ =>
              match dir_node (en_source_node envelope) now s with
              | Err error => (Err error, s, x)
              | Ok None => (Ok (ServedRefused RefusedUnknownPeer), s, x)
              | Ok (Some _) =>
                  match subject_of (en_subject envelope) with
                  | None => (Ok (ServedRefused RefusedUnknownSubject), s, x)
                  | Some subject =>
                      match split_once (chr ":") (en_target envelope) with
                      | None => (Ok (ServedRefused RefusedUnknownTarget), s, x)
                      | Some (kind, id) =>
                          match policy (federated_policy_request subject envelope kind id now) with
                          | Err error => (Err error, s, x)
                          | Ok decision =>
                              if negb (pd_allowed decision)
                              then (Ok (ServedRefused (RefusedDenied (pd_reason decision))), s, x)
                              else
                                match execute envelope x with
                                | (Ok answer, x) =>
                                    match guard_record_answer (en_request_id envelope) answer
                                            (en_expires_at_millis envelope) s with
                                    | (Err error, s) => (Err error, s, x)
                                    | (Ok _, s) => (Ok (ServedExecuted answer), s, x)
                                    end
                                | (Err error, x) =>
                                    match guard_forget_nonce envelope s with
                                    | (Err error', s) => (Err error', s, x)
                                    | (Ok _, s) => (Err error, s, x)
                                    end
                                end
                          end
                      end
                  end
              end
          end
      end
  end.

Record FederatedAction := {
  fa_request_id : Uuid;
  fa_subject : Subject;
  fa_destination_node : Uuid;
  fa_target : ResourceRef;
  fa_action : str;
  fa_payload : list u8;
  fa_facts : gset Condition;
}.

(** The envelope that [send] builds; [sha256_hex] is the lowercase hex SHA-256. *)
Definition envelope_of `{UuidText} (sha256_hex : list u8 → str) (node_id : Uuid) (now : i64)
    (request : FederatedAction) : Envelope :=
  {| en_request_id := fa_request_id request;
     en_source_node := node_id;
     en_destination_node := fa_destination_node request;
     en_subject := Subject_to_string (fa_subject request);
     en_target := rr_kind (fa_target request) ++ chr ":" :: rr_id (fa_target request);
     en_action := fa_action request;
     en_payload_digest := lit "sha256:" ++ sha256_hex (fa_payload request);
     en_issued_at_millis := now;
     en_expires_at_millis := saturating_add_i64 now MAX_LIFETIME_MILLIS;
     en_nonce := uuid_text (fa_request_id request);
     en_hop_limit := 0;
     en_version := lit "1" |}.

Definition send `{UuidText} {S} `{Directory S} (sha256_hex : list u8 → str)
    (policy : PolicyRequest → PortResult PolicyDecision)
    (transport : NodeDescriptor → Envelope → list u8 → PortResult FederationReply)
    (node_id : Uuid) (now : i64) (request : FederatedAction) (s : S)
    : PortResult FederationReply :=
  if negb (match subject_kind (fa_subject request) with Workload | Creature => true | _ => false end)
  then Err (PDenied (lit "invalid federated subject"))
  else if bool_decide (fa_destination_node request = node_id)
  then Err (PDenied (lit "federation destination is this node"))
  else
    let? found := dir_node (fa_destination_node request) now s in
    let? destination := ok_or found PNotFound in
    let? decision := policy
      {| pr_subject := Some (fa_subject request); pr_action := fa_action request;
         pr_resource := fa_target request; pr_facts := fa_facts request; pr_grants := [];
         pr_at_millis := now |} in
    if negb (pd_allowed decision) then Err (PDenied (lit "source policy denied federation"))
    else transport destination (envelope_of sha256_hex node_id now request) (fa_payload request).

(** ** Lemmas *)

(** What has to hold for [execute] to run. *)
Record destination_allows `{UuidText} {S} `{Directory S}
    (policy : PolicyRequest → PortResult PolicyDecision) (node_id : Uuid) (now : i64)
    (e : Envelope) (s : S) : Prop := {
  da_envelope : acceptable e node_id now false;
  da_peer : ∃ d, dir_node (en_source_node e) now s = Ok (Some d);
  da_policy : ∃ subject kind id decision,
    subject_of (en_subject e) = Some subject ∧
    split_once (chr ":") (en_target e) = Some (kind, id) ∧
    policy (federated_policy_request subject e kind id now) = Ok decision ∧
    pd_allowed decision = true;
}.

Lemma serve_execute `{UuidText} {S X} `{EnvelopeGuard S} `{Directory S} policy node_id now
    (execute : Envelope → X → PortResult str * X) e (s : S) (x : X) r s' x' :
  serve policy node_id now execute e s x = (r, s', x') →
  (∃ a, r = Ok (ServedExecuted a)) ∨ x' ≠ x →
  ∃ s1, guard_recorded_answer (en_request_id e) s = Ok None ∧
    guard_remember_nonce e s = (Ok true, s1) ∧ destination_allows policy node_id now e s1 ∧
    x' = (execute e x).2.
Proof.
  intros Hs Hr. unfold serve in Hs.
  assert (∀ r0 s0, (r0, s0, x) = (r, s', x') → (∀ a, r0 ≠ Ok (ServedExecuted a)) → False) as Hno.
  { intros r0 s0 [= -> -> ->] Hn. destruct Hr as [[a Ha]|Hx]; [by apply (Hn a)|done]. }
  destruct (guard_recorded_answer (en_request_id e) s) as [[a|]|]; [exfalso; by eapply (Hno _ _ Hs)| |exfalso; by eapply (Hno _ _ Hs)].
  destruct (guard_remember_nonce e s) as [[remembered|] s1]; [|exfalso; by eapply (Hno _ _ Hs)].
  destruct (accept e node_id now (negb remembered)) as [[]|] eqn:Ha; [|exfalso; by eapply (Hno _ _ Hs)].
  apply accept_acceptable in Ha as Hac. pose proof (ac_nonce _ _ _ _ Hac) as (_ & _ & Hseen).
  destruct remembered; [|done]. simpl in Hac.
  destruct (dir_node (en_source_node e) now s1) as [[d|]|] eqn:Hd; [|exfalso; by eapply (Hno _ _ Hs)..].
  destruct (subject_of (en_subject e)) as [subject|] eqn:Hsub; [|exfalso; by eapply (Hno _ _ Hs)].
  destruct (split_once (chr ":") (en_target e)) as [[kind id]|] eqn:Ht; [|exfalso; by eapply (Hno _ _ Hs)].
  destruct (policy (federated_policy_request subject e kind id now)) as [decision|] eqn:Hp;
    [|exfalso; by eapply (Hno _ _ Hs)].
  destruct (pd_allowed decision) eqn:Hal; [|exfalso; by eapply (Hno _ _ Hs)]. simpl in Hs.
  exists s1. split_and!; [done|done| |].
  - split; [done|by eexists|by exists subject, kind, id, decision].
  - by destruct (execute e x) as [[a|] x1]; [destruct (guard_record_answer _ _ _ _) as [[[]|] s2]
      |destruct (guard_forget_nonce _ _) as [[[]|] s2]]; injection Hs as _ _ <-.
Qed.

(** An effect log: the envelopes whose execution succeeded. *)
Definition log_execute (outcome : PortResult str) (e : Envelope) (log : list Envelope)
    : PortResult str * list Envelope :=
  (outcome, if is_ok outcome then log ++ [e] else log).

Lemma serve_nonces `{UuidText} policy node_id now outcome e db log r db' log' :
  serve policy node_id now (log_execute outcome) e db log = (r, db', log') →
  (∀ k v, fd_nonces db !! k = Some v → fd_nonces db' !! k = Some v) ∧
  (log' = log ∨
   log' = log ++ [e] ∧ fd_nonces db !! nonce_key e = None ∧
   fd_nonces db' !! nonce_key e = Some (en_expires_at_millis e) ∧
   now < en_expires_at_millis e).
Proof.
  unfold serve, log_execute; cbn [guard_recorded_answer guard_remember_nonce guard_forget_nonce
    guard_record_answer storage_guard].
  unfold StorageFederation_recorded_answer.
  destruct (fd_failure db) as [f|] eqn:Hf; [by intros [= <- <- <-]; auto|].
  destruct (fst <$> fd_answers db !! en_request_id e); [by intros [= <- <- <-]; auto|].
  unfold StorageFederation_remember_nonce. rewrite Hf.
  destruct (fd_nonces db !! nonce_key e) as [v0|] eqn:Hk; cbn [is_some negb].
  { destruct (accept e node_id now true) as [[]|] eqn:Ha; [|by intros [= <- <- <-]; auto].
    apply accept_acceptable in Ha as []. naive_solver. }
  set (db1 := fd_set_nonces db _).
  assert (∀ k v, fd_nonces db !! k = Some v → fd_nonces db1 !! k = Some v) as Hkeep.
  { intros k v Hv. simpl. rewrite lookup_insert_ne; [done|]. intros <-. congruence. }
  assert (fd_nonces db1 !! nonce_key e = Some (en_expires_at_millis e)) as Hnew
    by (simpl; by rewrite lookup_insert_eq).
  destruct (accept e node_id now false) as [[]|] eqn:Ha; [|by intros [= <- <- <-]; auto].
  apply accept_acceptable in Ha as Hac. pose proof (ac_window _ _ _ _ Hac) as [_ Hexp].
  destruct (dir_node _ now db1) as [[d|]|]; [|by intros [= <- <- <-]; auto..].
  destruct (subject_of _); [|by intros [= <- <- <-]; auto].
  destruct (split_once _ _) as [[kind id]|]; [|by intros [= <- <- <-]; auto].
  destruct (policy _) as [decision|]; [|by intros [= <- <- <-]; auto].
  destruct (pd_allowed decision); [|by intros [= <- <- <-]; auto]. cbn [negb].
  destruct outcome as [a|error]; cbn [is_ok].
  - unfold StorageFederation_record_answer. change (fd_failure db1) with (fd_failure db).
    rewrite Hf. destruct (is_none _); intros [= <- <- <-]; (split; [done|]; right; done).
  - unfold StorageFederation_forget_nonce. change (fd_failure db1) with (fd_failure db).
    rewrite Hf. intros [= <- <- <-]. split; [|by left]. intros k v Hv. simpl.
    rewrite lookup_delete_ne; [by apply Hkeep|]. intros <-. congruence.
Qed.

(** ** Runs of a destination *)

(** What can happen to a destination: a request arrives (with the outcome its effect would have),
    the expired records are purged, time passes, the store fails or recovers. *)
Inductive FederationEvent :=
| EvServe (e : Envelope) (outcome : PortResult str)
| EvPurge
| EvTick (millis : Z)
| EvStore (failure : option PortError).

Record Destination := {
  dest_db : FederationDb;
  dest_now : i64;
  dest_log : list Envelope;
}.

Definition dest_step `{UuidText} (policy : PolicyRequest → PortResult PolicyDecision)
    (node_id : Uuid) (d : Destination) (ev : FederationEvent) : Destination :=
  match ev with
  | EvServe e outcome =>
      let '(_, db, log) :=
        serve policy node_id (dest_now d) (log_execute outcome) e (dest_db d) (dest_log d) in
      {| dest_db := db; dest_now := dest_now d; dest_log := log |}
  | EvPurge =>
      {| dest_db := (guard_purge_expired (dest_now d) (dest_db d)).2; dest_now := dest_now d;
         dest_log := dest_log d |}
  | EvTick millis =>
      {| dest_db := dest_db d; dest_now := dest_now d + Z.max 0 millis; dest_log := dest_log d |}
  | EvStore failure =>
      {| dest_db := {| fd_own := fd_own (dest_db d); fd_nodes := fd_nodes (dest_db d);
                       fd_workloads := fd_workloads (dest_db d);
                       fd_nonces := fd_nonces (dest_db d); fd_answers := fd_answers (dest_db d);
                       fd_failure := failure |};
         dest_now := dest_now d; dest_log := dest_log d |}
  end.

(** Every executed envelope's nonce is remembered until the envelope has expired. *)
Definition dest_inv `{UuidText} (d : Destination) : Prop :=
  NoDup (dest_log d) ∧
  ∀ e, e ∈ dest_log d →
    fd_nonces (dest_db d) !! nonce_key e = Some (en_expires_at_millis e) ∨
    en_expires_at_millis e < dest_now d.

Lemma dest_step_inv `{UuidText} policy node_id d ev :
  dest_inv d → dest_inv (dest_step policy node_id d ev).
Proof.
  intros [Hnd Hin]. destruct ev as [e outcome| |millis|failure]; simpl.
  - destruct (serve _ _ _ _ _ _ _) as [[r db'] log'] eqn:E.
    apply serve_nonces in E as [Hkeep [->|(-> & Hnone & Hnew & Hexp)]]; simpl.
    + split; [done|]. intros x Hx. destruct (Hin x Hx) as [Hn|?]; [left; by apply Hkeep|by right].
    + split; simpl.
      * apply NoDup_app. split; [done|]. split; [|apply NoDup_singleton].
        intros x Hx ->%list_elem_of_singleton. destruct (Hin e Hx) as [Hn|?]; [congruence|lia].
      * intros x [Hx| ->%list_elem_of_singleton]%elem_of_app; [|by left].
        destruct (Hin x Hx) as [Hn|?]; [left; by apply Hkeep|by right].
  - unfold StorageFederation_purge_expired. destruct (fd_failure (dest_db d)); simpl; [done|].
    split; [done|]. intros e He. simpl. destruct (Hin e He) as [Hn|?]; [|by right].
    destruct (decide (en_expires_at_millis e < dest_now d)); [by right|left].
    by apply map_lookup_filter_Some_2.
  - split; [done|]. intros e He. simpl. destruct (Hin e He); [by left|right; lia].
  - by split.
Qed.

Lemma remembered_nonce `{UuidText} e db db' :
  StorageFederation_remember_nonce e db = (Ok true, db') → fd_nonces db !! nonce_key e = None ∧ fd_nodes db' = fd_nodes db.
Proof.
  unfold StorageFederation_remember_nonce. destruct (fd_failure db); [done|].
  destruct (fd_nonces db !! nonce_key e); simpl; [done|]. by intros [= <-].
Qed.
Lemma known_node node now db d :
  StorageFederation_node node now db = Ok (Some d) →
  ∃ sequence expires, fd_nodes db !! node = Some (sequence, expires, d) ∧ now < expires.
Proof.
  unfold StorageFederation_node, fresh_row. destruct (fd_failure db); [done|].
  destruct (fd_nodes db !! node) as [[[sequence expires] a]|]; [|done]. destruct (Z.ltb_spec now expires); [|done].
  intros [= <-]. eauto.
Qed.

(** ** Properties *)

(** C30. The destination decides: whenever [serve] answers [Executed], or [execute] left any trace
    at all, the store that it was served from had no answer to the request and not its nonce, and
    knew the sending node by a descriptor that had not expired; the envelope was acceptable at this
    node's clock, the subject a workload or a creature, and this node's own evaluation, with no facts
    and no grants, allowed it.  So the action's rule, which does not forbid it and lists the subject's
    class, is met by [public] or [authenticated] alone: a grant never suffices, although the code
    comment says that an explicit one would. *)
Theorem destination_decides `{UuidText} {X} registry version node_id now
    (execute : Envelope → X → PortResult str * X) e (db : FederationDb) (x : X) r db' x' :
  serve (λ request, Ok (evaluate registry request version)) node_id now execute e db x
    = (r, db', x') →
  (∃ a, r = Ok (ServedExecuted a)) ∨ x' ≠ x →
  guard_recorded_answer (en_request_id e) db = Ok None ∧
  fd_nonces db !! nonce_key e = None ∧ acceptable e node_id now false ∧
  (∃ sequence expires d, fd_nodes db !! en_source_node e = Some (sequence, expires, d) ∧ now < expires) ∧
  ∃ subject kind id action,
    subject_of (en_subject e) = Some subject ∧
    (subject_kind subject = Workload ∨ subject_kind subject = Creature) ∧
    en_target e = kind ++ chr ":" :: id ∧
    registry_actions registry !! en_action e = Some action ∧ ra_resource action = kind ∧
    Never ∉ ra_rule action ∧ subject_kind subject ∈ ra_subjects action ∧
    (Public ∈ ra_rule action ∨ Authenticated ∈ ra_rule action).
Proof.
  intros Hs Hr. destruct (serve_execute _ _ _ _ _ _ _ _ _ _ Hs Hr)
    as (s1 & Hans & Hnonce & [Hac [d Hd] (subject & kind & id & decision & Hsub & Ht & Hp & Hal)] & _).
  apply remembered_nonce in Hnonce as [Hnew Hnodes]. apply known_node in Hd as (sequence & expires & Hd & Hlt).
  rewrite Hnodes in Hd. split_and!; [done|done|done|by exists sequence, expires, d|].
  injection Hp as <-.
  assert (authorized registry (federated_policy_request subject e kind id now)) as Hauth.
  { revert Hal. unfold evaluate, authorized.
    destruct (registry_actions registry !! _) as [action|]; simpl; [|done].
    case_bool_decide; simpl; [|done]. case_bool_decide; simpl; [done|].
    case_bool_decide; simpl; [|done].
    destruct (match_rule _ _ _) as [[c chain]|] eqn:Hm; simpl; [|done]. intros _.
    apply match_rule_Some in Hm as (? & ? & _). eauto 10. }
  destruct Hauth as (action & Hreg & Hkind & Hnever & Hclass & c & Hc & Hholds). simpl in *.
  exists subject, kind, id, action. split_and!; try done.
  - unfold subject_of in Hsub. repeat (case_match; simplify_eq/=); auto.
  - by apply split_once_Some in Ht as [-> _].
  - destruct c; simpl in Hholds; auto; try (by apply not_elem_of_empty in Hholds); [|done].
    destruct Hholds as (g & Hg & _). by apply not_elem_of_nil in Hg.
Qed.

(** C4. At most once: over any sequence of arrivals (repeated, reordered, with effects that
    succeed or fail), purges, delays and store outages, no envelope's effect succeeds twice at a
    destination. *)
Theorem executed_at_most_once `{UuidText} policy node_id db now events :
  NoDup (dest_log (foldl (dest_step policy node_id)
    {| dest_db := db; dest_now := now; dest_log := [] |} events)).
Proof.
  assert (∀ d, dest_inv d → dest_inv (foldl (dest_step policy node_id) d events)) as Hrun.
  { induction events as [|ev events IH]; intros d Hd; simpl; [done|].
    by apply IH, dest_step_inv. }
  apply Hrun. split; [constructor|]. by intros e ?%not_elem_of_nil.
Qed.

(** What is sent is what is served: an answer that [send] returns came from the transport of
    exactly the envelope built for the request, after the source's own policy allowed it; and that
    envelope passes the destination's acceptance for the minute it is valid and denotes there the
    same subject, target and action. *)
Theorem sent_request_denotes_itself `{UuidTextLaws} {S} `{Directory S} sha256_hex policy transport
    node_id now now' request (s : S) reply :
  (∀ p, is_sha256_digest (lit "sha256:" ++ sha256_hex p) = true) →
  is_uuid (subject_id (fa_subject request)) → fa_action request ≠ [] →
  chr ":" ∉ rr_kind (fa_target request) →
  i64_min ≤ now → now + MAX_LIFETIME_MILLIS ≤ i64_max → now ≤ now' < now + MAX_LIFETIME_MILLIS →
  send sha256_hex policy transport node_id now request s = Ok reply →
  let e := envelope_of sha256_hex node_id now request in
  (∃ d decision, dir_node (fa_destination_node request) now s = Ok (Some d) ∧
     transport d e (fa_payload request) = Ok reply ∧
     policy {| pr_subject := Some (fa_subject request); pr_action := fa_action request;
               pr_resource := fa_target request; pr_facts := fa_facts request; pr_grants := [];
               pr_at_millis := now |} = Ok decision ∧ pd_allowed decision = true) ∧
  accept e (fa_destination_node request) now' false = Ok tt ∧
  subject_of (en_subject e) = Some (fa_subject request) ∧
  split_once (chr ":") (en_target e) =
    Some (rr_kind (fa_target request), rr_id (fa_target request)) ∧
  en_action e = fa_action request.
Proof.
  intros Hsha Huuid Hact Hkind Hmin Hmax Hnow' Hsend e. unfold send in Hsend.
  assert (subject_kind (fa_subject request) = Workload ∨
          subject_kind (fa_subject request) = Creature) as Hsub.
  { destruct (subject_kind (fa_subject request)); simpl in Hsend; auto; done. }
  assert ((match subject_kind (fa_subject request) with Workload | Creature => true | _ => false end)
          = true) as Hb by by destruct Hsub as [-> | ->].
  rewrite Hb in Hsend. simpl in Hsend. case_bool_decide as Hdest; [done|].
  destruct (dir_node _ now s) as [[d|]|]; simpl in Hsend; [|done..].
  destruct (policy _) as [decision|] eqn:Hp; [|done].
  destruct (pd_allowed decision) eqn:Hal; simpl in Hsend; [|done].
  assert (len (uuid_text (fa_request_id request)) = 36) as Hlen by apply uuid_text_len.
  split_and!; [by exists d, decision| | |by apply split_once_app|done].
  - apply accept_acceptable.
    assert (saturating_add_i64 now MAX_LIFETIME_MILLIS = now + 60000) as Hexp.
    { unfold saturating_add_i64. apply saturate_id. unfold MAX_LIFETIME_MILLIS in *. ilia. }
    change MAX_LIFETIME_MILLIS with 60000 in *. split; simpl; try done;
      change MAX_LIFETIME_MILLIS with 60000 in *; rewrite ?Hexp.
    + lia.
    + rewrite wrap_i64_id by ilia. lia.
    + rewrite Hlen. split_and!; [|lia|done]. intros E. by rewrite E in Hlen.
    + by apply Hsha.
    + split_and!; [done| |].
      * unfold Subject_to_string. by intros [_ ?]%app_nil.
      * by intros [_ ?]%app_nil.
  - unfold subject_of, e; simpl. unfold Subject_to_string.
    rewrite split_once_app by apply SubjectKind_as_str_no_colon.
    rewrite uuid_parse_text by done. destruct (fa_subject request) as [k u]; simpl in *.
    by destruct Hsub as [-> | ->].
Qed.

(** ** Witnesses *)

Section witnesses.
#[local] Existing Instance HexUuid.hex_uuid_text.
#[local] Existing Instance HexUuid.hex_uuid_laws.

Definition example_peer (id : Uuid) : NodeDescriptor :=
  {| nd_node_id := id; nd_key_epoch := 1; nd_keys := []; nd_federation_endpoint := lit "https://b";
     nd_client_endpoint := lit "https://b"; nd_contracts := []; nd_runtimes := [];
     nd_sequence := 1; nd_expires_at_millis := 100000; nd_revoked_epochs := [] |}.

Definition example_fed_db (peer : Uuid) : FederationDb :=
  {| fd_own := 3%N; fd_nodes := {[peer := (1, 100000, example_peer peer)]}; fd_workloads := ∅;
     fd_nonces := ∅; fd_answers := ∅; fd_failure := None |}.

Definition example_fed_registry : ActionRegistry :=
  {| registry_version := lit "1";
     registry_actions := {[lit "store.read" :=
       {| ra_id := lit "store.read"; ra_resource := lit "store"; ra_class := ClassRead;
          ra_subjects := {[Workload]}; ra_rule := [Owner; Authenticated]; ra_delegable := true |}]} |}.

Definition example_fed_action : FederatedAction :=
  {| fa_request_id := 7%N; fa_subject := {| subject_kind := Workload; subject_id := 8%N |};
     fa_destination_node := 3%N;
     fa_target := {| rr_kind := lit "store"; rr_id := lit "s1" |};
     fa_action := lit "store.read"; fa_payload := []; fa_facts := ∅ |}.

(** A stand-in digest of the right shape. *)
Definition example_sha (p : list u8) : str :=
  lit "0000000000000000000000000000000000000000000000000000000000000000".

Definition example_fed_envelope : Envelope := envelope_of example_sha 2%N 1000 example_fed_action.

Lemma destination_decides_witness :
  is_Some (fd_nodes (example_fed_db 2%N) !! en_source_node example_fed_envelope) ∧
  ∃ subject, subject_of (en_subject example_fed_envelope) = Some subject ∧
    (subject_kind subject = Workload ∨ subject_kind subject = Creature).
Proof.
  assert (∃ r s' x', serve (λ request, Ok (evaluate example_fed_registry request (lit "1"))) 3%N 1500
    (log_execute (Ok (lit "done"))) example_fed_envelope (example_fed_db 2%N) []
    = (r, s', x') ∧ r = Ok (ServedExecuted (lit "done"))) as (r & s' & x' & E & Hr).
  { eexists _, _, _. split; [reflexivity|]. vm_compute. reflexivity. }
  destruct (destination_decides _ _ _ _ _ _ _ _ _ _ _ E ltac:(left; eexists; exact Hr))
    as (_ & _ & _ & (sequence & expires & d & Hd & _) & subject & _ & _ & _ & H1 & H2 & _).
  split; [rewrite Hd; by eexists|]. exists subject. split; assumption.
Defined.

Lemma sent_request_denotes_itself_witness :
  accept example_fed_envelope 3%N 1500 false = Ok tt ∧
  subject_of (en_subject example_fed_envelope) = Some (fa_subject example_fed_action).
Proof.
  destruct (sent_request_denotes_itself example_sha
    (λ request, Ok (evaluate example_fed_registry request (lit "1")))
    (λ _ _ _, Ok (ReplyExecuted (lit "done"))) 2%N 1000 1500 example_fed_action
    (example_fed_db 3%N) (ReplyExecuted (lit "done"))) as (_ & H1 & H2 & _).
  - intros p. vm_compute. reflexivity.
  - reflexivity.
  - discriminate.
  - apply contains_char_false. reflexivity.
  - vm_compute. discriminate.
  - vm_compute. discriminate.
  - vm_compute. split; [discriminate|reflexivity].
  - vm_compute. reflexivity.
  - split; [exact H1|exact H2].
Defined.

(** A replay, a retry and a purge around one execution. *)
Example executed_once_example :
  length (dest_log (foldl
    (dest_step (λ request, Ok (evaluate example_fed_registry request (lit "1"))) 3%N)
    {| dest_db := example_fed_db 2%N; dest_now := 1500; dest_log := [] |}
    [EvServe example_fed_envelope (Err PDeadline); EvServe example_fed_envelope (Ok (lit "a"));
     EvServe example_fed_envelope (Ok (lit "b")); EvTick 100000; EvPurge;
     EvServe example_fed_envelope (Ok (lit "c"))])) = 1%nat.
Proof. vm_compute. reflexivity. Qed.
End witnesses.
