(* ===== verification/Realtime.v ===== *)
(** Durable realtime events: the rules of [crates/aseman-domain/src/realtime.rs] and the event log,
    checkpoints and outbox on storage ([crates/aseman-capsule/src/realtime.rs]).

    The theorems: appends keep every stream dense, so a reader at a checkpoint gets exactly the
    following sequences in order; checkpoints never move back; an outbox entry is published only by
    the worker that claimed it, and once published is never claimed again.  Two behaviours that the
    rules' comments exclude are proved as well: after a purge empties a stream its sequences start
    over, and a claim takes over claims that have not expired. *)

From S2P Require Import Prelude Text Core Ports.

Open Scope Z_scope.

(** ** The rules *)

Inductive RetentionClass := Transient | Standard | Durable.
#[export] Instance RetentionClass_eq_dec : EqDecision RetentionClass.
Proof. solve_decision. Defined.

Definition RetentionClass_millis (self : RetentionClass) : option i64 :=
  match self with
  | Transient => Some (60 * 60 * 1000)
  | Standard => Some (7 * 24 * 60 * 60 * 1000)
  | Durable => None
  end.

Record Event := {
  event_id : Uuid;
  event_stream : str;
  event_creature_id : Uuid;
  event_kind : str;
  event_producer : str;
  event_sequence : u64;
  event_at_millis : i64;
  event_payload_digest : str;
  event_retention : RetentionClass;
  event_version : str;
  event_idempotency_key : option str;
}.

Record EventCheckpoint := {
  cp_consumer : str;
  cp_stream : str;
  cp_sequence : u64;
  cp_at_millis : i64;
}.

Inductive RealtimeError :=
| RtUnknownVersion | RtInvalidStream | RtInvalidDigest | RtOutOfOrder (expected : u64)
| RtCheckpointWentBackwards.

Definition accept_append (event : Event) (last : option u64) : result unit RealtimeError :=
  if negb (bool_decide (event_version event = lit "1")) then Err RtUnknownVersion
  else if is_empty (event_stream event) || (256 <? len (event_stream event))
  then Err RtInvalidStream
  else if negb (is_sha256_digest (event_payload_digest event)) then Err RtInvalidDigest
  else
    let expected := match last with None => 1 | Some last => wrap_u64 (last + 1) end in
    if negb (event_sequence event =? expected) then Err (RtOutOfOrder expected) else Ok tt.

Definition accept_checkpoint (current : option u64) (sequence : u64) : result unit RealtimeError :=
  match current with
  | Some current => if sequence <? current then Err RtCheckpointWentBackwards else Ok tt
  | None => Ok tt
  end.

Definition can_replay_from (oldest_kept : option u64) (sequence : u64) : bool :=
  is_none_or (λ oldest, oldest <=? wrap_u64 (sequence + 1)) oldest_kept.

Definition may_deliver (event : Event) (subscriber_creature : Uuid) : bool :=
  bool_decide (event_creature_id event = subscriber_creature).

Definition is_retained (event : Event) (now_millis : i64) : bool :=
  match RetentionClass_millis (event_retention event) with
  | None => true
  | Some window => now_millis <? saturating_add_i64 (event_at_millis event) window
  end.

(** ** The adapter *)

Definition MAX_ATTEMPTS : i64 := 8.
Definition TRANSIENT_MILLIS : i64 := 60 * 60 * 1000.
Definition STANDARD_MILLIS : i64 := 7 * 24 * 60 * 60 * 1000.

Definition retention_name (class : RetentionClass) : str :=
  match class with
  | Transient => lit "transient" | Standard => lit "standard" | Durable => lit "durable"
  end.

Definition retention_class (name : str) : RetentionClass :=
  if bool_decide (name = lit "transient") then Transient
  else if bool_decide (name = lit "durable") then Durable
  else Standard.

Record Publication := { pub_event : Event; pub_payload : list u8 }.

(** A row of [core.realtime_log_event]; its key is the event's UUID. *)
Record RealtimeLogEvent := {
  row_stream : str;
  row_sequence : i64;
  row_creature_id : Uuid;
  row_event_kind : str;
  row_producer : str;
  row_at_millis : i64;
  row_payload_digest : str;
  row_retention : str;
  row_version : str;
  row_idempotency_key : option str;
  row_payload : list u8;
}.

(** A row of [core.realtime_outbox_entry]. *)
Record RealtimeOutboxEntry := {
  ob_claimed_by : option str;
  ob_claimed_until_millis : option i64;
  ob_attempts : i64;
  ob_published : bool;
}.

(** The three tables and the failure the provider answers with while unreachable. *)
Record RealtimeDb := {
  rt_events : gmap Uuid RealtimeLogEvent;
  rt_outbox : gmap Uuid RealtimeOutboxEntry;
  rt_checkpoints : gmap str (u64 * EventCheckpoint);
  rt_failure : option PortError;
}.

Definition rt_set_events (db : RealtimeDb) events outbox : RealtimeDb :=
  {| rt_events := events; rt_outbox := outbox; rt_checkpoints := rt_checkpoints db;
     rt_failure := rt_failure db |}.

(** [StorageError::invalid] of a failed integer conversion, through [port]. *)
Definition invalid_conversion : PortError :=
  PFailed (lit "invalid storage request: " ++ try_from_int_error).

Definition rt_signed (value : u64) : PortResult i64 := ok_or (i64_try_from value) invalid_conversion.

Definition publication (key : Uuid) (row : RealtimeLogEvent) : PortResult Publication :=
  let? sequence := ok_or (u64_try_from (row_sequence row)) invalid_conversion in
  Ok {| pub_event :=
          {| event_id := key; event_stream := row_stream row;
             event_creature_id := row_creature_id row; event_kind := row_event_kind row;
             event_producer := row_producer row; event_sequence := sequence;
             event_at_millis := row_at_millis row; event_payload_digest := row_payload_digest row;
             event_retention := retention_class (row_retention row);
             event_version := row_version row; event_idempotency_key := row_idempotency_key row |};
        pub_payload := row_payload row |}.

(** The rows of a stream, and an order by sequence. *)
Definition in_stream (stream : str) (p : Uuid * RealtimeLogEvent) : Prop :=
  row_stream p.2 = stream.
#[export] Instance in_stream_dec stream p : Decision (in_stream stream p).
Proof. unfold in_stream. apply _. Defined.

Definition seq_le (p q : Uuid * RealtimeLogEvent) : Prop := row_sequence p.2 ≤ row_sequence q.2.
#[export] Instance seq_le_dec : RelDecision seq_le.
Proof. intros p q. unfold seq_le. apply _. Defined.

#[export] Instance seq_le_total : Total seq_le.
Proof. intros p q. unfold seq_le. lia. Qed.

Definition stream_rows (db : RealtimeDb) (stream : str) : list (Uuid * RealtimeLogEvent) :=
  merge_sort seq_le (filter (in_stream stream) (map_to_list (rt_events db))).

(** [find_first] in descending sequence order. *)
Definition last_sequence (db : RealtimeDb) (stream : str) : option i64 :=
  (λ p, row_sequence p.2) <$> last (stream_rows db stream).

(** A create whose key exists conflicts on every retry of [decide]. *)
Definition StorageRealtime_append (published : Publication) (db : RealtimeDb)
    : PortResult unit * RealtimeDb :=
  let event := pub_event published in
  match rt_failure db with
  | Some error => (Err error, db)
  | None =>
      match rt_signed (event_sequence event) with
      | Err error => (Err error, db)
      | Ok sequence =>
          let expected := match last_sequence db (event_stream event) with
            | None => 1 | Some last => wrap_i64 (last + 1) end in
          if negb (sequence =? expected) then (Err PConflict, db)
          else if is_some (rt_events db !! event_id event)
                  || is_some (rt_outbox db !! event_id event) then (Err PConflict, db)
          else (Ok tt, rt_set_events db
            (<[event_id event :=
               {| row_stream := event_stream event; row_sequence := sequence;
                  row_creature_id := event_creature_id event; row_event_kind := event_kind event;
                  row_producer := event_producer event; row_at_millis := event_at_millis event;
                  row_payload_digest := event_payload_digest event;
                  row_retention := retention_name (event_retention event);
                  row_version := event_version event;
                  row_idempotency_key := event_idempotency_key event;
                  row_payload := pub_payload published |}]> (rt_events db))
            (<[event_id event :=
               {| ob_claimed_by := None; ob_claimed_until_millis := None; ob_attempts := 0;
                  ob_published := false |}]> (rt_outbox db)))
      end
  end.

(** [.map(publication).collect()]. *)
Fixpoint publications (rows : list (Uuid * RealtimeLogEvent)) : PortResult (list Publication) :=
  match rows with
  | [] => Ok []
  | (key, row) :: rows =>
      let? p := publication key row in
      let? ps := publications rows in
      Ok (p :: ps)
  end.

Definition StorageRealtime_read (stream : str) (after : u64) (limit : usize) (db : RealtimeDb)
    : PortResult (list Publication) :=
  match rt_failure db with
  | Some error => Err error
  | None =>
      let? after := rt_signed after in
      publications (take (Z.to_nat (Z.max limit 1))
        (filter (λ p, after < row_sequence p.2) (stream_rows db stream)))
  end.

Definition StorageRealtime_bounds (stream : str) (db : RealtimeDb)
    : PortResult (option u64 * option u64) :=
  match rt_failure db with
  | Some error => Err error
  | None =>
      let edge (o : option (Uuid * RealtimeLogEvent)) :=
        match o with Some p => u64_try_from (row_sequence p.2) | None => None end in
      Ok (edge (last (stream_rows db stream)), edge (head (stream_rows db stream)))
  end.

(** The condition of the purge. *)
Definition expired_row (now_millis : i64) (row : RealtimeLogEvent) : bool :=
  (bool_decide (row_retention row = lit "transient")
     && (row_at_millis row <? wrap_i64 (now_millis - TRANSIENT_MILLIS)))
  || (bool_decide (row_retention row = lit "standard")
     && (row_at_millis row <? wrap_i64 (now_millis - STANDARD_MILLIS))).

(** Every expired event goes; the outbox entries go of those that the query named. *)
Definition StorageRealtime_purge_expired (now_millis : i64) (db : RealtimeDb)
    : PortResult u64 * RealtimeDb :=
  match rt_failure db with
  | Some error => (Err error, db)
  | None =>
      let expired := filter (λ p : Uuid * RealtimeLogEvent, expired_row now_millis p.2 = true)
                       (rt_events db) in
      let kept := filter (λ p : Uuid * RealtimeLogEvent, ¬ expired_row now_millis p.2 = true)
                    (rt_events db) in
      let ids := (first_rows (map_to_list expired)).*1 in
      (Ok (Z.of_nat (size expired)),
       rt_set_events db kept (filter (λ p, p.1 ∉ ids) (rt_outbox db)))
  end.

Definition checkpoint_key (consumer stream : str) : str := consumer ++ lit "::" ++ stream.

Definition StorageRealtime_checkpoint (consumer stream : str) (db : RealtimeDb)
    : PortResult (option EventCheckpoint) :=
  match rt_failure db with
  | Some error => Err error
  | None => Ok (snd <$> rt_checkpoints db !! checkpoint_key consumer stream)
  end.

Definition StorageRealtime_record (checkpoint : EventCheckpoint) (db : RealtimeDb)
    : PortResult unit * RealtimeDb :=
  let key := checkpoint_key (cp_consumer checkpoint) (cp_stream checkpoint) in
  match rt_failure db with
  | Some error => (Err error, db)
  | None =>
      match rt_signed (cp_sequence checkpoint) with
      | Err error => (Err error, db)
      | Ok sequence =>
          let put row := {| rt_events := rt_events db; rt_outbox := rt_outbox db;
                            rt_checkpoints := <[key := (sequence, row)]> (rt_checkpoints db);
                            rt_failure := rt_failure db |} in
          match rt_checkpoints db !! key with
          | Some (current, row) =>
              if sequence <? current then (Err PConflict, db)
              else
                (* the update writes the sequence and the time only *)
                (Ok tt, put {| cp_consumer := cp_consumer row; cp_stream := cp_stream row;
                               cp_sequence := sequence; cp_at_millis := cp_at_millis checkpoint |})
          | None => (Ok tt, put checkpoint)
          end
      end
  end.

(** *** The outbox *)

Definition claimable (until_millis : i64) (e : RealtimeOutboxEntry) : bool :=
  negb (ob_published e) && (ob_attempts e <? MAX_ATTEMPTS)
  && (is_none (ob_claimed_until_millis e)
      || is_some_and (λ u, u <? until_millis) (ob_claimed_until_millis e)).

(** The entries a claim takes: in key order, at most [limit]. *)
Definition claimed_entries (limit : usize) (until_millis : i64) (db : RealtimeDb)
    : list (Uuid * RealtimeOutboxEntry) :=
  take (Z.to_nat (Z.max limit 1))
    (merge_sort key_le
       (filter (λ p, claimable until_millis p.2 = true) (map_to_list (rt_outbox db)))).

Definition claim_entry (worker : str) (until_millis : i64) (e : RealtimeOutboxEntry)
    : RealtimeOutboxEntry :=
  {| ob_claimed_by := Some worker; ob_claimed_until_millis := Some until_millis;
     ob_attempts := wrap_i64 (ob_attempts e + 1); ob_published := ob_published e |}.

(** The events named by [ids], in sequence order. *)
Definition events (db : RealtimeDb) (ids : list Uuid) : PortResult (list Publication) :=
  publications (first_rows (merge_sort seq_le
    (filter (λ p, p.1 ∈ ids) (map_to_list (rt_events db))))).

Record Claim := { claim_events : list Publication; claim_until_millis : i64 }.

Definition StorageRealtime_claim (worker : str) (limit : usize) (until_millis : i64)
    (db : RealtimeDb) : PortResult Claim * RealtimeDb :=
  match rt_failure db with
  | Some error => (Err error, db)
  | None =>
      let entries := claimed_entries limit until_millis db in
      let outbox := foldl (λ m p, <[p.1 := claim_entry worker until_millis p.2]> m)
                      (rt_outbox db) entries in
      let db' := rt_set_events db (rt_events db) outbox in
      (match events db' (entries.*1) with
       | Ok es => Ok {| claim_events := es; claim_until_millis := until_millis |}
       | Err error => Err error
       end, db')
  end.

(** The loop of [complete]; [None] is the refusal, which rolls the transaction back. *)
Fixpoint complete_loop (worker : str) (ids : list Uuid) (outbox : gmap Uuid RealtimeOutboxEntry)
    : option (gmap Uuid RealtimeOutboxEntry) :=
  match ids with
  | [] => Some outbox
  | id :: ids =>
      match outbox !! id with
      | None => None
      | Some entry =>
          if ob_published entry || negb (bool_decide (ob_claimed_by entry = Some worker)) then None
          else complete_loop worker ids
                 (<[id := {| ob_claimed_by := None; ob_claimed_until_millis := None;
                             ob_attempts := ob_attempts entry; ob_published := true |}]> outbox)
      end
  end.

Definition StorageRealtime_complete (worker : str) (ids : list Uuid) (db : RealtimeDb)
    : PortResult unit * RealtimeDb :=
  if is_empty ids then (Ok tt, db)
  else match rt_failure db with
  | Some error => (Err error, db)
  | None =>
      match complete_loop worker ids (rt_outbox db) with
      | None => (Err PConflict, db)
      | Some outbox => (Ok tt, rt_set_events db (rt_events db) outbox)
      end
  end.

Definition release_entry (worker : str) (outbox : gmap Uuid RealtimeOutboxEntry) (id : Uuid)
    : gmap Uuid RealtimeOutboxEntry :=
  match outbox !! id with
  | Some entry =>
      if bool_decide (ob_claimed_by entry = Some worker)
      then <[id := {| ob_claimed_by := None; ob_claimed_until_millis := None;
                      ob_attempts := ob_attempts entry; ob_published := ob_published entry |}]> outbox
      else outbox
  | None => outbox
  end.

Definition StorageRealtime_release (worker : str) (ids : list Uuid) (db : RealtimeDb)
    : PortResult unit * RealtimeDb :=
  if is_empty ids then (Ok tt, db)
  else match rt_failure db with
  | Some error => (Err error, db)
  | None => (Ok tt, rt_set_events db (rt_events db) (foldl (release_entry worker) (rt_outbox db) ids))
  end.

Definition at_le (p q : Publication) : Prop :=
  event_at_millis (pub_event p) ≤ event_at_millis (pub_event q).
#[export] Instance at_le_dec : RelDecision at_le.
Proof. intros p q. unfold at_le. apply _. Defined.

Definition StorageRealtime_dead_letters (limit : usize) (db : RealtimeDb)
    : PortResult (list Publication) :=
  match rt_failure db with
  | Some error => Err error
  | None =>
      let ids := (first_rows (filter (λ p, negb (ob_published p.2) && (MAX_ATTEMPTS <=? ob_attempts p.2) = true)
                    (map_to_list (rt_outbox db)))).*1 in
      let? dead := events db ids in
      Ok (take (Z.to_nat (Z.max limit 1)) (merge_sort at_le dead))
  end.

(** ** Lemmas *)

Definition pseq (p : Uuid * RealtimeLogEvent) : Z := row_sequence p.2.

(** The sequences a stream holds, as a multiset. *)
Definition stream_seqs (db : RealtimeDb) (stream : str) : list Z :=
  pseq <$> filter (in_stream stream) (map_to_list (rt_events db)).

Definition dense_upto (db : RealtimeDb) (stream : str) (n : Z) : Prop :=
  stream_seqs db stream ≡ₚ seqZ 1 n ∧ 0 ≤ n ≤ i64_max.

Lemma stream_rows_sorted db stream : StronglySorted Z.le (pseq <$> stream_rows db stream).
Proof.
  assert (StronglySorted seq_le (stream_rows db stream)) as Hs.
  { unfold stream_rows. apply Sorted_StronglySorted; [intros ????; unfold seq_le in *; lia|].
    apply (Sorted_merge_sort seq_le). }
  induction Hs as [|p l Hl IH Hp]; csimpl; constructor; [done|].
  apply Forall_fmap. eapply Forall_impl; [exact Hp|]. done.
Qed.

Lemma rows_dense db stream n :
  dense_upto db stream n → pseq <$> stream_rows db stream = seqZ 1 n.
Proof.
  intros [Hd _]. apply (StronglySorted_unique Z.le);
    [apply stream_rows_sorted|apply seqZ_sorted|].
  rewrite <-Hd. unfold stream_rows, stream_seqs. by rewrite merge_sort_Permutation.
Qed.

Lemma last_sequence_dense db stream n :
  dense_upto db stream n → last_sequence db stream = if n =? 0 then None else Some n.
Proof.
  intros Hd. pose proof (rows_dense _ _ _ Hd) as Hr. destruct Hd as [_ Hn].
  unfold last_sequence. change (λ p : Uuid * RealtimeLogEvent, row_sequence p.2) with pseq.
  rewrite <-fmap_last, Hr. destruct (Z.eqb_spec n 0) as [->|]; [done|].
  rewrite last_lookup, length_seqZ.
  assert (seqZ 1 n !! pred (Z.to_nat n) = Some (1 + Z.of_nat (pred (Z.to_nat n)))) as ->
    by (apply lookup_seqZ; lia).
  f_equal. lia.
Qed.

Lemma append_dense db p r db' stream n :
  in_u64 (event_sequence (pub_event p)) → StorageRealtime_append p db = (r, db') →
  dense_upto db stream n → (∀ s, ∃ m, dense_upto db s m) →
  ∃ m, dense_upto db' stream m.
Proof.
  intros Hu Ha Hd Hall. unfold StorageRealtime_append in Ha.
  assert (∀ x y : PortResult unit * RealtimeDb, x = (r, db') → x.2 = db →
    ∃ m, dense_upto db' stream m) as Hsame by (intros x _ -> <-; eauto).
  destruct (rt_failure db); [by eapply Hsame|].
  destruct (rt_signed (event_sequence (pub_event p))) as [q|] eqn:Hq; [|by eapply Hsame].
  unfold rt_signed, i64_try_from in Hq.
  destruct (checked _ _ _) as [z|] eqn:Hz; simpl in Hq; [|done].
  apply checked_Some in Hz as [-> Hz]. injection Hq as <-.
  destruct (_ =? _) eqn:Hexp; [|by eapply Hsame]. cbn [negb] in Ha.
  destruct (is_some (rt_events db !! event_id (pub_event p))) eqn:Hfresh; [by eapply Hsame|].
  destruct (is_some (rt_outbox db !! event_id (pub_event p))); [by eapply Hsame|].
  injection Ha as <- <-. apply Z.eqb_eq in Hexp.
  assert (rt_events db !! event_id (pub_event p) = None) as Hnone
    by by destruct (rt_events db !! event_id (pub_event p)).
  unfold dense_upto, stream_seqs. simpl.
  destruct (decide (event_stream (pub_event p) = stream)) as [Hs|Hs].
  - exists (n + 1). rewrite Hs, (last_sequence_dense _ _ _ Hd) in Hexp.
    destruct Hd as [Hp Hn].
    assert (event_sequence (pub_event p) = n + 1) as Hseq.
    { destruct (Z.eqb_spec n 0); [lia|]. destruct (decide (n = i64_max)) as [->|].
      - exfalso. rewrite Hexp in Hu. vm_compute in Hu. by destruct Hu.
      - rewrite wrap_i64_id in Hexp by ilia. done. }
    split; [|ilia]. rewrite (map_to_list_insert _ _ _ Hnone), filter_cons_True by done.
    csimpl. unfold stream_seqs in Hp. rewrite Hp. unfold pseq at 1; simpl. rewrite Hseq.
    rewrite (seqZ_app 1 n 1) by lia. rewrite Permutation_app_comm.
    replace (1 + n) with (n + 1) by lia. done.
  - exists n. destruct Hd as [Hp Hn]. split; [|done].
    rewrite (map_to_list_insert _ _ _ Hnone), filter_cons_False by done. done.
Qed.

Lemma filter_seqZ_above after n :
  0 ≤ after ≤ n → filter (λ z, after < z) (seqZ 1 n) = seqZ (after + 1) (n - after).
Proof.
  intros Hn. replace n with (after + (n - after)) at 1 by lia. rewrite (seqZ_app 1) by lia.
  rewrite filter_app. replace (1 + after) with (after + 1) by lia.
  rewrite filter_none, filter_all; [done|..]; intros x Hx%elem_of_seqZ; lia.
Qed.

Lemma publications_Ok rows :
  (∀ p, p ∈ rows → 0 ≤ pseq p ≤ i64_max) →
  ∃ ps, publications rows = Ok ps ∧
    (λ p, event_sequence (pub_event p)) <$> ps = pseq <$> rows ∧
    (λ p, event_id (pub_event p)) <$> ps = rows.*1.
Proof.
  induction rows as [|[key row] rows IH]; intros Hr; [by exists []|]. cbn [publications].
  pose proof (Hr (key, row) ltac:(by left)) as H0. unfold pseq in H0. simpl in H0.
  unfold publication, u64_try_from. rewrite checked_in by ilia. cbn [ok_or].
  destruct IH as (ps & -> & Hs & Hk); [intros; apply Hr; by right|].
  eexists. split; [done|]. csimpl. by rewrite Hs, Hk.
Qed.

Lemma read_dense db stream n after limit :
  rt_failure db = None → dense_upto db stream n → 0 ≤ after ≤ n →
  ∃ ps, StorageRealtime_read stream after limit db = Ok ps ∧
    (λ p, event_sequence (pub_event p)) <$> ps =
      take (Z.to_nat (Z.max limit 1)) (seqZ (after + 1) (n - after)).
Proof.
  intros Hup Hd Ha. pose proof (rows_dense _ _ _ Hd) as Hr. destruct Hd as [_ Hn].
  unfold StorageRealtime_read, rt_signed, i64_try_from. rewrite Hup, checked_in by ilia. cbn [ok_or].
  set (rows := take _ _).
  assert (pseq <$> rows = take (Z.to_nat (Z.max limit 1)) (seqZ (after + 1) (n - after))) as Hrows.
  { unfold rows. rewrite fmap_take. f_equal. rewrite <-filter_seqZ_above, <-Hr by lia.
    apply (fmap_filter pseq (λ z, after < z)). }
  destruct (publications_Ok rows) as (ps & -> & Hs & _); [|exists ps; by rewrite Hs].
  intros p Hp. apply (list_elem_of_fmap_2 pseq) in Hp. rewrite Hrows in Hp.
  apply subseteq_take in Hp. apply elem_of_seqZ in Hp. lia.
Qed.

(** Appending a list of publications, whatever their results. *)
Definition append_all (ps : list Publication) (db : RealtimeDb) : RealtimeDb :=
  foldl (λ db p, (StorageRealtime_append p db).2) db ps.

Definition empty_realtime : RealtimeDb :=
  {| rt_events := ∅; rt_outbox := ∅; rt_checkpoints := ∅; rt_failure := None |}.

Lemma append_up p db : rt_failure (StorageRealtime_append p db).2 = rt_failure db.
Proof. unfold StorageRealtime_append. by repeat case_match. Qed.

Lemma append_all_dense ps db :
  (∀ p, p ∈ ps → in_u64 (event_sequence (pub_event p))) →
  (∀ s, ∃ n, dense_upto db s n) → ∀ s, ∃ n, dense_upto (append_all ps db) s n.
Proof.
  revert db. induction ps as [|p ps IH]; intros db Hu Hd; simpl; [done|].
  apply IH; [intros; apply Hu; by right|]. intros s. destruct (Hd s) as [n Hn].
  destruct (StorageRealtime_append p db) as [r db'] eqn:E.
  eapply append_dense; eauto. apply Hu. by left.
Qed.

(** ** Properties *)

(** C40. Streams are dense: whatever is appended to an event log (out of order, repeated, with
    colliding identities), every stream holds exactly the sequences 1 to [n], and a reader at any
    checkpoint within them gets exactly the sequences that follow, in order and without a gap, up
    to its limit. *)
Theorem streams_dense ps stream :
  (∀ p, p ∈ ps → in_u64 (event_sequence (pub_event p))) →
  let db := append_all ps empty_realtime in
  ∃ n, pseq <$> stream_rows db stream = seqZ 1 n ∧
    ∀ after limit, 0 ≤ after ≤ n → ∃ read,
      StorageRealtime_read stream after limit db = Ok read ∧
      (λ p, event_sequence (pub_event p)) <$> read =
        take (Z.to_nat (Z.max limit 1)) (seqZ (after + 1) (n - after)).
Proof.
  intros Hu db. destruct (append_all_dense ps empty_realtime Hu) with (s := stream) as [n Hn].
  { intros s. exists 0. split; [done|ilia]. }
  exists n. split; [by apply rows_dense|]. intros after limit Ha. apply read_dense; [|done|done].
  unfold db. assert (∀ db0, rt_failure (append_all ps db0) = rt_failure db0) as Hup; [|by rewrite Hup].
  clear. induction ps as [|p ps IH]; intros db0; simpl; [done|]. by rewrite IH, append_up.
Qed.

Definition example_publication (id : Uuid) (sequence at_millis : Z) : Publication :=
  {| pub_event :=
       {| event_id := id; event_stream := lit "s"; event_creature_id := 1%N; event_kind := lit "k";
          event_producer := lit "p"; event_sequence := sequence; event_at_millis := at_millis;
          event_payload_digest := lit "d"; event_retention := Transient; event_version := lit "1";
          event_idempotency_key := None |};
     pub_payload := [] |}.

Lemma streams_dense_witness :
  ∃ n, pseq <$> stream_rows (append_all [example_publication 1 1 0; example_publication 2 3 0;
    example_publication 3 2 0; example_publication 4 2 0] empty_realtime) (lit "s") = seqZ 1 n.
Proof.
  destruct (streams_dense [example_publication 1 1 0; example_publication 2 3 0;
    example_publication 3 2 0; example_publication 4 2 0] (lit "s")) as (n & Hn & _).
  - intros p Hp. rewrite !elem_of_cons, elem_of_nil in Hp.
    destruct Hp as [->|[->|[->|[->|[]]]]]; vm_compute; split; discriminate.
  - exists n. exact Hn.
Defined.

(** After a purge empties a stream, its sequences start over: the next event is number 1 again,
    and a consumer that had processed number 1 never sees it. *)
Theorem purged_stream_restarts :
  let first := example_publication 1 1 0 in
  let second := example_publication 2 1 4000000 in
  let db1 := (StorageRealtime_append first empty_realtime).2 in
  let db2 := (StorageRealtime_purge_expired 4000000 db1).2 in
  (StorageRealtime_append second db2).1 = Ok tt ∧
  StorageRealtime_read (lit "s") 1 10 (StorageRealtime_append second db2).2 = Ok [] ∧
  can_replay_from None 1 = true.
Proof. vm_compute. done. Qed.

(** A claim that ends later takes over one that has not ended: at no point did worker [a]'s claim
    until 1000 expire before worker [b] got the same event. *)
Theorem claim_takes_over_live_claims :
  let db1 := (StorageRealtime_append (example_publication 1 1 0) empty_realtime).2 in
  let (c1, db2) := StorageRealtime_claim (lit "a") 1 1000 db1 in
  let (c2, _) := StorageRealtime_claim (lit "b") 1 1001 db2 in
  c1 = Ok {| claim_events := [example_publication 1 1 0]; claim_until_millis := 1000 |} ∧
  c2 = Ok {| claim_events := [example_publication 1 1 0]; claim_until_millis := 1001 |}.
Proof. vm_compute. done. Qed.

(** ** The outbox *)

Lemma complete_loop_spec worker ids outbox outbox' :
  complete_loop worker ids outbox = Some outbox' →
  NoDup ids ∧
  (∀ id, id ∈ ids → ∃ e e', outbox !! id = Some e ∧ ob_published e = false ∧
     ob_claimed_by e = Some worker ∧ outbox' !! id = Some e' ∧ ob_published e' = true) ∧
  (∀ id, id ∉ ids → outbox' !! id = outbox !! id).
Proof.
  revert outbox. induction ids as [|id ids IH]; intros outbox; cbn [complete_loop].
  - intros [= ->]. split_and!; [constructor|by intros ? ?%not_elem_of_nil|done].
  - destruct (outbox !! id) as [e|] eqn:He; [|done].
    destruct (ob_published e) eqn:Hp; simpl; [done|]. case_bool_decide as Hw; simpl; [|done].
    intros Hl. apply IH in Hl as (Hnd & Hin & Hout).
    assert (id ∉ ids) as Hni.
    { intros Hid. destruct (Hin id Hid) as (x & _ & Hx & Hxp & _).
      rewrite lookup_insert_eq in Hx. injection Hx as <-. done. }
    split_and!; [by constructor| |].
    + intros x [->|Hx]%elem_of_cons.
      * eexists e, _. rewrite (Hout id Hni), lookup_insert_eq. split_and!; done.
      * destruct (Hin x Hx) as (y & y' & Hy & ?). exists y, y'.
        rewrite lookup_insert_ne in Hy by (intros ->; done). done.
    + intros x [Hne Hx]%not_elem_of_cons. by rewrite Hout, lookup_insert_ne.
Qed.

Lemma claim_fold_lookup worker until entries (m : gmap Uuid RealtimeOutboxEntry) id :
  foldl (λ m p, <[p.1 := claim_entry worker until p.2]> m) m entries !! id = m !! id ∨
  ∃ e, (id, e) ∈ entries ∧
    foldl (λ m p, <[p.1 := claim_entry worker until p.2]> m) m entries !! id
      = Some (claim_entry worker until e).
Proof.
  revert m. induction entries as [|[k e] entries IH]; intros m; simpl; [by left|].
  destruct (IH (<[k := claim_entry worker until e]> m)) as [->|(x & Hx & ->)].
  - destruct (decide (k = id)) as [->|]; [right|left; by rewrite lookup_insert_ne].
    exists e. rewrite lookup_insert_eq. split; [by left|done].
  - right. exists x. split; [by right|done].
Qed.

Lemma claimed_entries_spec limit until db id e :
  (id, e) ∈ claimed_entries limit until db →
  rt_outbox db !! id = Some e ∧ claimable until e = true.
Proof.
  intros He%subseteq_take. rewrite merge_sort_Permutation in He.
  apply list_elem_of_filter in He as [? He%elem_of_map_to_list]. done.
Qed.

Lemma release_entry_published worker outbox id k e :
  ob_published e = true → outbox !! k = Some e →
  ∃ e', release_entry worker outbox id !! k = Some e' ∧ ob_published e' = true.
Proof.
  intros Hp Hk. unfold release_entry. destruct (outbox !! id) as [x|] eqn:Hx; [|eauto].
  case_bool_decide; [|eauto]. destruct (decide (id = k)) as [->|].
  - rewrite lookup_insert_eq. eexists. split; [done|]. simpl. congruence.
  - rewrite lookup_insert_ne by done. eauto.
Qed.

(** The outbox: only the worker whose claim is recorded completes an entry, all of a batch or
    none of it, and never twice in one batch; an entry that is published stays published through
    every claim, completion and release, and is never claimed again. *)
Theorem outbox_published_final worker ids limit until db :
  (∀ db', StorageRealtime_complete worker ids db = (Ok tt, db') → ids ≠ [] →
     NoDup ids ∧ ∀ id, id ∈ ids → ∃ e e', rt_outbox db !! id = Some e ∧ ob_published e = false ∧
       ob_claimed_by e = Some worker ∧ rt_outbox db' !! id = Some e' ∧ ob_published e' = true) ∧
  (∀ error db', StorageRealtime_complete worker ids db = (Err error, db') → db' = db) ∧
  (∀ id e, rt_outbox db !! id = Some e → ob_published e = true →
     (∀ x, (id, x) ∉ claimed_entries limit until db) ∧
     ∀ db', db' = (StorageRealtime_claim worker limit until db).2 ∨
            db' = (StorageRealtime_complete worker ids db).2 ∨
            db' = (StorageRealtime_release worker ids db).2 →
       ∃ e', rt_outbox db' !! id = Some e' ∧ ob_published e' = true).
Proof.
  split_and!.
  - intros db' Hc Hne. unfold StorageRealtime_complete in Hc.
    destruct ids as [|i ids]; [done|]. cbn [is_empty] in Hc.
    destruct (rt_failure db); [done|].
    destruct (complete_loop worker (i :: ids) (rt_outbox db)) as [outbox|] eqn:El; [|done].
    injection Hc as <-. by apply complete_loop_spec in El as (? & ? & _).
  - intros error db'. unfold StorageRealtime_complete. repeat case_match; by intros [= _ <-].
  - intros id e He Hp.
    assert (∀ x, (id, x) ∉ claimed_entries limit until db) as Hnot.
    { intros x [Hx Hcl]%claimed_entries_spec. rewrite He in Hx. injection Hx as <-.
      unfold claimable in Hcl. by rewrite Hp in Hcl. }
    split; [done|]. intros db' [->|[->| ->]].
    + unfold StorageRealtime_claim. destruct (rt_failure db); simpl; [eauto|].
      destruct (claim_fold_lookup worker until (claimed_entries limit until db) (rt_outbox db) id)
        as [->|(x & Hx & _)]; [eauto|by apply Hnot in Hx].
    + unfold StorageRealtime_complete. destruct (is_empty ids); [eauto|].
      destruct (rt_failure db); [eauto|].
      destruct (complete_loop worker ids (rt_outbox db)) as [outbox|] eqn:El; simpl; [|eauto].
      apply complete_loop_spec in El as (_ & Hin & Hout).
      destruct (decide (id ∈ ids)) as [Hid|Hid]; [|rewrite Hout by done; eauto].
      destruct (Hin id Hid) as (x & x' & Hx & Hxp & _). rewrite He in Hx. injection Hx as <-.
      congruence.
    + unfold StorageRealtime_release. destruct (is_empty ids); [eauto|].
      destruct (rt_failure db); simpl; [eauto|]. clear Hnot.
      assert (∀ m, (∃ e, m !! id = Some e ∧ ob_published e = true) →
        ∃ e', foldl (release_entry worker) m ids !! id = Some e' ∧ ob_published e' = true) as Hf;
        [|apply Hf; eauto].
      induction ids as [|k ids IH]; intros m Hm; simpl; [done|]. apply IH.
      destruct Hm as (x & Hx & Hxp). by eapply release_entry_published.
Qed.
