(* ===== verification/Listener.v ===== *)
(** Listener handoff: [crates/aseman-domain/src/listener.rs].  A broker stages a bound candidate,
    directs new connections to it, drains its predecessor, and rolls back.

    The theorems: from an empty broker every reachable broker keeps its generations distinct and in
    handoff order with every binding in the phase of its place; a refused request changes nothing;
    traffic is never left without a listener except by rolling back the only one; and a rollback
    during the drain restores exactly the predecessor. *)

From S2P Require Import Prelude Text.

Open Scope Z_scope.

Inductive ListenerPhase := PhStaged | PhActive | PhDraining | PhRetired | PhFailed.
#[export] Instance ListenerPhase_eq_dec : EqDecision ListenerPhase.
Proof. solve_decision. Defined.

Record ListenerBinding := {
  lb_generation : u64;
  lb_endpoint : str;
  lb_phase : ListenerPhase;
}.
#[export] Instance ListenerBinding_eq_dec : EqDecision ListenerBinding.
Proof. solve_decision. Defined.

Record ListenerBroker := {
  br_active : option ListenerBinding;
  br_staged : option ListenerBinding;
  br_draining : option ListenerBinding;
  br_retired : list ListenerBinding;
}.

(** [ListenerBroker::default]. *)
Definition ListenerBroker_default : ListenerBroker :=
  {| br_active := None; br_staged := None; br_draining := None; br_retired := [] |}.

Inductive ListenerTransitionError :=
| LtEmptyEndpoint | LtStaleGeneration | LtCandidateExists | LtNotStaged (generation : u64)
| LtNotActive (generation : u64) | LtNotDraining (generation : u64) | LtDrainInProgress.

Definition with_phase (b : ListenerBinding) (phase : ListenerPhase) : ListenerBinding :=
  {| lb_generation := lb_generation b; lb_endpoint := lb_endpoint b; lb_phase := phase |}.

(** [Option::iter]. *)
Definition opt_list {A} (o : option A) : list A := match o with Some a => [a] | None => [] end.

(** The operations return the broker they leave behind, with the outcome. *)
Definition ListenerBroker_stage (self : ListenerBroker) (generation : u64) (endpoint : str)
    : result unit ListenerTransitionError * ListenerBroker :=
  if is_empty (trim endpoint) then (Err LtEmptyEndpoint, self)
  else if is_some_and (λ binding, (lb_generation binding =? generation)
                         && bool_decide (lb_endpoint binding = endpoint)) (br_staged self)
  then (Ok tt, self)
  else if is_some (br_staged self) then (Err LtCandidateExists, self)
  else
    let newest := default 0 (max_Z (lb_generation <$>
      opt_list (br_active self) ++ opt_list (br_draining self) ++ br_retired self)) in
    if (generation =? 0) || (generation <=? newest) then (Err LtStaleGeneration, self)
    else (Ok tt,
      {| br_active := br_active self;
         br_staged := Some {| lb_generation := generation; lb_endpoint := endpoint;
                              lb_phase := PhStaged |};
         br_draining := br_draining self; br_retired := br_retired self |}).

Definition ListenerBroker_fail_staged (self : ListenerBroker) (generation : u64)
    : result unit ListenerTransitionError * ListenerBroker :=
  match br_staged self with
  | None => (Err (LtNotStaged generation), self)
  | Some failed =>
      if negb (lb_generation failed =? generation) then (Err (LtNotStaged generation), self)
      else (Ok tt,
        {| br_active := br_active self; br_staged := None; br_draining := br_draining self;
           br_retired := br_retired self ++ [with_phase failed PhFailed] |})
  end.

Definition ListenerBroker_activate (self : ListenerBroker) (generation : u64)
    : result unit ListenerTransitionError * ListenerBroker :=
  if is_some_and (λ binding, lb_generation binding =? generation) (br_active self)
  then (Ok tt, self)
  else if is_some (br_draining self) then (Err LtDrainInProgress, self)
  else match br_staged self with
  | None => (Err (LtNotStaged generation), self)
  | Some candidate =>
      if negb (lb_generation candidate =? generation) then (Err (LtNotStaged generation), self)
      else (Ok tt,
        {| br_active := Some (with_phase candidate PhActive); br_staged := None;
           br_draining := (λ previous, with_phase previous PhDraining) <$> br_active self;
           br_retired := br_retired self |})
  end.

Definition ListenerBroker_finish_drain (self : ListenerBroker) (generation : u64)
    : result unit ListenerTransitionError * ListenerBroker :=
  match br_draining self with
  | None => (Err (LtNotDraining generation), self)
  | Some drained =>
      if negb (lb_generation drained =? generation) then (Err (LtNotDraining generation), self)
      else (Ok tt,
        {| br_active := br_active self; br_staged := br_staged self; br_draining := None;
           br_retired := br_retired self ++ [with_phase drained PhRetired] |})
  end.

Definition ListenerBroker_rollback (self : ListenerBroker) (generation : u64)
    : result unit ListenerTransitionError * ListenerBroker :=
  match br_active self with
  | None => (Err (LtNotActive generation), self)
  | Some failed =>
      if negb (lb_generation failed =? generation) then (Err (LtNotActive generation), self)
      else (Ok tt,
        {| br_active := (λ previous, with_phase previous PhActive) <$> br_draining self;
           br_staged := br_staged self; br_draining := None;
           br_retired := br_retired self ++ [with_phase failed PhFailed] |})
  end.

(** ** Reachable brokers *)

Inductive broker_step (b : ListenerBroker) : ListenerBroker → Prop :=
| BrStage g e : in_u64 g → broker_step b (ListenerBroker_stage b g e).2
| BrFail g : broker_step b (ListenerBroker_fail_staged b g).2
| BrActivate g : broker_step b (ListenerBroker_activate b g).2
| BrFinish g : broker_step b (ListenerBroker_finish_drain b g).2
| BrRollback g : broker_step b (ListenerBroker_rollback b g).2.

(** Every binding the broker knows. *)
Definition bindings (b : ListenerBroker) : list ListenerBinding :=
  opt_list (br_staged b) ++ opt_list (br_active b) ++ opt_list (br_draining b) ++ br_retired b.

Definition generations (b : ListenerBroker) : list Z := lb_generation <$> bindings b.

Record broker_ok (b : ListenerBroker) : Prop := {
  bo_distinct : NoDup (generations b);
  bo_staged : ∀ s, br_staged b = Some s → lb_phase s = PhStaged ∧ trim (lb_endpoint s) ≠ [] ∧
    0 < lb_generation s ∧
    ∀ x, x ∈ opt_list (br_active b) ++ opt_list (br_draining b) ++ br_retired b →
      lb_generation x < lb_generation s;
  bo_active : ∀ a, br_active b = Some a → lb_phase a = PhActive ∧ trim (lb_endpoint a) ≠ [] ∧
    0 < lb_generation a;
  bo_draining : ∀ d, br_draining b = Some d → lb_phase d = PhDraining ∧
    trim (lb_endpoint d) ≠ [] ∧ 0 < lb_generation d ∧
    ∃ a, br_active b = Some a ∧ lb_generation d < lb_generation a;
  bo_retired : ∀ r, r ∈ br_retired b → lb_phase r = PhRetired ∨ lb_phase r = PhFailed;
}.

Lemma newest_spec l g x :
  default 0 (max_Z (lb_generation <$> l)) < g → x ∈ l → lb_generation x < g.
Proof.
  intros Hg Hx. destruct (max_Z (lb_generation <$> l)) as [m|] eqn:E; simpl in Hg.
  - apply max_Z_Some in E as [_ Hmax]. specialize (Hmax (lb_generation x)).
    apply (list_elem_of_fmap_2 lb_generation) in Hx. apply Hmax in Hx. lia.
  - apply max_Z_None, fmap_nil_inv in E as ->. by apply not_elem_of_nil in Hx.
Qed.

(** Each operation keeps the invariant; moving bindings between the places of a broker permutes
    its generations. *)
Lemma stage_ok b g e : in_u64 g → broker_ok b → broker_ok (ListenerBroker_stage b g e).2.
Proof.
  intros Hu Hb. unfold ListenerBroker_stage. destruct (trim e) as [|c t] eqn:He; simpl; [done|].
  destruct (br_staged b) as [s|] eqn:Hs; simpl; [by case_match|].
  destruct (_ || _) eqn:Hg; [done|]. apply orb_false_iff in Hg as [H0 Hn].
  assert (∀ x, x ∈ opt_list (br_active b) ++ opt_list (br_draining b) ++ br_retired b →
    lb_generation x < g) as Hnew by (intros x; apply newest_spec; lia).
  destruct Hb as [Hd _ Ha Hdr Hr]. split; simpl; try done.
  - unfold generations, bindings in *; simpl in *. rewrite Hs in Hd. simpl in Hd.
    constructor; [|done]. intros (x & Hx & Hin)%list_elem_of_fmap. apply Hnew in Hin. lia.
  - intros x [= <-]; simpl. rewrite He. split_and!; [done|done| |done]. ilia.
Qed.

Lemma fail_ok b g : broker_ok b → broker_ok (ListenerBroker_fail_staged b g).2.
Proof.
  intros Hb. unfold ListenerBroker_fail_staged. destruct (br_staged b) as [s|] eqn:Hs; [|done].
  case_match; [done|]. destruct Hb as [Hd _ Ha Hdr Hr]. split; simpl; try done.
  - unfold generations, bindings in *; simpl in *. rewrite Hs in Hd.
    rewrite !app_assoc, fmap_app. simpl. rewrite Permutation_app_comm. simpl.
    by rewrite <-app_assoc.
  - intros r [?| ->%list_elem_of_singleton]%elem_of_app; [by apply Hr|by right].
Qed.

Lemma activate_ok b g : broker_ok b → broker_ok (ListenerBroker_activate b g).2.
Proof.
  intros Hb. unfold ListenerBroker_activate. case_match; [done|].
  destruct (br_draining b) as [d|] eqn:Hdr; simpl; [done|].
  destruct (br_staged b) as [s|] eqn:Hs; [|done]. case_match; [done|].
  destruct Hb as [Hd Hst Ha _ Hr]. destruct (Hst s Hs) as (_ & Hend & Hpos & Hmax).
  split; simpl; try done.
  - unfold generations, bindings in *; simpl in *. rewrite Hs, Hdr in Hd. simpl in Hd.
    by destruct (br_active b).
  - intros x [= <-]. done.
  - intros x. destruct (br_active b) as [a|] eqn:Hact; simpl; [|done]. intros [= <-].
    destruct (Ha a eq_refl) as (_ & ? & ?). simpl. split_and!; [done..|].
    eexists. split; [done|]. simpl. apply Hmax. by left.
Qed.

Lemma finish_ok b g : broker_ok b → broker_ok (ListenerBroker_finish_drain b g).2.
Proof.
  intros Hb. unfold ListenerBroker_finish_drain. destruct (br_draining b) as [d|] eqn:Hdr; [|done].
  case_match; [done|]. destruct Hb as [Hd Hst Ha _ Hr]. split; simpl; try done.
  - unfold generations, bindings in *; simpl in *. rewrite Hdr in Hd. revert Hd.
    rewrite !fmap_app. simpl. intros Hd. rewrite (Permutation_app_comm (lb_generation <$> br_retired b)).
    done.
  - intros s Hs. destruct (Hst s Hs) as (? & ? & ? & Hmax). split_and!; [done..|].
    intros x Hx. rewrite !elem_of_app, list_elem_of_singleton in Hx.
    destruct Hx as [Hx|[Hx| ->]].
    + apply Hmax. rewrite elem_of_app. by left.
    + apply Hmax. rewrite !elem_of_app. auto.
    + simpl. apply Hmax. rewrite Hdr, !elem_of_app. right. left. by left.
  - intros r [?| ->%list_elem_of_singleton]%elem_of_app; [by apply Hr|by left].
Qed.

Lemma rollback_ok b g : broker_ok b → broker_ok (ListenerBroker_rollback b g).2.
Proof.
  intros Hb. unfold ListenerBroker_rollback. destruct (br_active b) as [a|] eqn:Hact; [|done].
  case_match; [done|]. destruct Hb as [Hd Hst Ha Hdr Hr].
  assert (opt_list ((λ p, with_phase p PhActive) <$> br_draining b) =
    (λ p, with_phase p PhActive) <$> opt_list (br_draining b)) as Hopt by by destruct (br_draining b).
  split; simpl; try done.
  - unfold generations, bindings in *; simpl in *. rewrite Hact in Hd. revert Hd.
    rewrite Hopt, !fmap_app. simpl. intros Hd.
    assert (lb_generation <$> ((λ p, with_phase p PhActive) <$> opt_list (br_draining b)) =
      lb_generation <$> opt_list (br_draining b)) as -> by by destruct (br_draining b).
    rewrite (app_assoc _ _ [lb_generation a]), (Permutation_app_comm _ [lb_generation a]). done.
  - intros s Hs. destruct (Hst s Hs) as (? & ? & ? & Hmax). split_and!; [done..|].
    intros x Hx. rewrite Hopt, !elem_of_app, list_elem_of_singleton in Hx.
    destruct Hx as [(d & -> & Hin)%list_elem_of_fmap|[Hx| ->]].
    + simpl. apply Hmax. rewrite !elem_of_app. auto.
    + apply Hmax. rewrite !elem_of_app. auto.
    + simpl. apply Hmax. rewrite Hact, elem_of_app. left. by left.
  - intros x. destruct (br_draining b) as [d|] eqn:Ed; simpl; [|done]. intros [= <-].
    by destruct (Hdr d eq_refl) as (_ & ? & ? & _).
  - intros r [?| ->%list_elem_of_singleton]%elem_of_app; [by apply Hr|by right].
Qed.

Lemma broker_step_ok b b' : broker_ok b → broker_step b b' → broker_ok b'.
Proof.
  intros Hb Hs. destruct Hs; auto using stage_ok, fail_ok, activate_ok, finish_ok, rollback_ok.
Qed.

Lemma reachable_broker_ok b : rtc broker_step ListenerBroker_default b → broker_ok b.
Proof.
  apply rtc_invariant; [apply broker_step_ok|]. split; try done; [constructor|].
  by intros r ?%not_elem_of_nil.
Qed.

(** The operations other than the rollback keep an active listener. *)
Ltac keeps_active :=
  repeat case_match; simpl; intros Ha Hn; simplify_eq; by rewrite Hn in Ha.

(** ** Properties *)

(** Handoff: in every reachable broker the generations are distinct, each binding has the
    phase of its place, a staged candidate is newer than everything else and a draining listener is
    older than the active one that replaced it; no operation leaves a broker that has an active
    listener without one except the rollback of a listener with nothing to fall back to; and
    activating a candidate and rolling it back restores the previous listener as it was. *)
Theorem listener_handoff b :
  rtc broker_step ListenerBroker_default b →
  broker_ok b ∧
  (∀ b', broker_step b b' → is_some (br_active b) = true → br_active b' = None →
     br_draining b = None ∧ ∃ g, b' = (ListenerBroker_rollback b g).2) ∧
  (∀ g b1, ListenerBroker_activate b g = (Ok tt, b1) →
     (∀ a, br_active b = Some a → lb_generation a ≠ g) →
     (∃ s, br_staged b = Some s ∧ br_active b1 = Some (with_phase s PhActive) ∧
        lb_generation s = g) ∧
     ∃ b2, ListenerBroker_rollback b1 g = (Ok tt, b2) ∧ br_active b2 = br_active b).
Proof.
  intros Hr. pose proof (reachable_broker_ok b Hr) as Hb. split_and!; [done|..].
  - intros b' Hs Ha Hn. destruct Hs as [g e _|g|g|g|g].
    + exfalso. revert Ha Hn. unfold ListenerBroker_stage. keeps_active.
    + exfalso. revert Ha Hn. unfold ListenerBroker_fail_staged. keeps_active.
    + exfalso. revert Ha Hn. unfold ListenerBroker_activate. keeps_active.
    + exfalso. revert Ha Hn. unfold ListenerBroker_finish_drain. keeps_active.
    + split; [|by exists g]. revert Ha Hn. unfold ListenerBroker_rollback.
      repeat case_match; simpl; intros Ha Hn; simplify_eq/=; try (by rewrite Hn in Ha).
      by destruct (br_draining b).
  - intros g b1 Hact Hne. unfold ListenerBroker_activate in Hact.
    assert (is_some_and (λ binding, lb_generation binding =? g) (br_active b) = false) as E.
    { destruct (br_active b) as [a|]; [|done]. simpl. apply Z.eqb_neq. by apply Hne. }
    rewrite E in Hact. destruct (br_draining b); [done|]. simpl in Hact.
    destruct (br_staged b) as [s|] eqn:Hs; [|done].
    destruct (Z.eqb_spec (lb_generation s) g) as [Hg|]; [|done]. injection Hact as <-.
    split; [by exists s|]. unfold ListenerBroker_rollback; simpl. rewrite Hg, Z.eqb_refl. simpl.
    eexists. split; [done|]. simpl. destruct (br_active b) as [a|] eqn:Ha; [|done]. simpl.
    destruct (bo_active _ Hb a Ha) as [Hph _]. f_equal. destruct a; simpl in *. by subst.
Qed.

Lemma listener_handoff_witness :
  let b1 := (ListenerBroker_stage ListenerBroker_default 1 (lit "a")).2 in
  let b2 := (ListenerBroker_activate b1 1).2 in
  let b3 := (ListenerBroker_stage b2 2 (lit "b")).2 in
  broker_ok b3 ∧ ∃ b5, ListenerBroker_rollback (ListenerBroker_activate b3 2).2 2 = (Ok tt, b5) ∧
    br_active b5 = br_active b3.
Proof.
  intros b1 b2 b3.
  destruct (listener_handoff b3) as (H1 & _ & H2).
  - eapply rtc_l; [apply (BrStage _ 1 (lit "a")); vm_compute; split; discriminate|].
    eapply rtc_l; [apply (BrActivate _ 1)|].
    eapply rtc_l; [apply (BrStage _ 2 (lit "b")); vm_compute; split; discriminate|]. apply rtc_refl.
  - split; [exact H1|]. apply (H2 2 (ListenerBroker_activate b3 2).2 ltac:(vm_compute; reflexivity)).
    intros a [= <-]. discriminate.
Defined.
