(* ===== verification/Journals.v ===== *)
(** Resumable journals: administrative operations ([crates/aseman-domain/src/operations.rs]) and the
    bootstrap workflow ([crates/aseman-domain/src/bootstrap.rs]).  Both record, on disk, which steps
    of an ordered plan are done, and ask what is next.

    The shared argument ([Plan]) is about any plan without repetition; the theorems instantiate it
    for the five operation kinds and for the bootstrap: what is recorded as done is always a prefix
    of the plan, the next step is the one after it, a finished step is never accepted again, and
    exactly as many successes as the plan has steps complete it. *)

From S2P Require Import Prelude Text.

Open Scope Z_scope.

(** ** Plans *)

Section plan.
Context {A : Type} `{EqDecision A}.

(** The first step of the plan that is not done. *)
Definition next_of (steps done_ : list A) : option A :=
  find (λ step, negb (bool_decide (step ∈ done_))) steps.

Lemma next_of_take steps n : NoDup steps → next_of steps (take n steps) = steps !! n.
Proof.
  intros Hnd. unfold next_of.
  destruct (steps !! n) as [x|] eqn:Hx.
  - rewrite <-(take_drop n steps) at 1. rewrite find_app_skip.
    2:{ intros y Hy. by rewrite bool_decide_true. }
    rewrite (drop_S _ _ _ Hx). unfold find. simpl.
    rewrite bool_decide_false; [done|].
    intros Hin. apply list_elem_of_lookup in Hin as [i Hi].
    apply lookup_take_Some in Hi as [Hi Hlt].
    pose proof (NoDup_lookup _ _ _ _ Hnd Hi Hx). lia.
  - apply lookup_ge_None in Hx. rewrite take_ge by lia. apply find_None.
    intros y Hy. by rewrite bool_decide_true.
Qed.

(** Recording steps: the plan's driver offers steps in any order; each is accepted or refused. *)
Definition accepts (steps done_ : list A) (step : A) : bool :=
  negb (bool_decide (step ∈ done_)) && bool_decide (next_of steps done_ = Some step).

Lemma accepts_take steps n step :
  NoDup steps → accepts steps (take n steps) step = true ↔ steps !! n = Some step.
Proof.
  intros Hnd. unfold accepts. rewrite next_of_take by done. split.
  - intros [_ H]%andb_true_iff. by apply bool_decide_eq_true in H.
  - intros Hx. rewrite bool_decide_false, bool_decide_true; [done..|].
    intros Hin. apply list_elem_of_lookup in Hin as [i Hi].
    apply lookup_take_Some in Hi as [Hi Hlt]. pose proof (NoDup_lookup _ _ _ _ Hnd Hi Hx). lia.
Qed.

End plan.

(** ** Operation journals *)

Inductive JournalKind := JUpgrade | JBackup | JRestore | JDoctor | JSupportBundle.

Inductive OperationStep :=
| SPreflight | SVerifyArtifacts | SQuiesceWrites | SSnapshotStores | SCaptureCatalog
| SHashArtifacts | SSignManifest | SResumeWrites | SVerifyManifest | SPrepareTarget
| SRestoreStores | SApplyCatalog | SVerifyIntegrity | SDrainServices | SApplyUpgrade
| SMigrateSchema | SStartServices | SCheckConfiguration | SCheckDependencies | SCheckStorage
| SCheckRuntime | SCheckSecurity | SCollectDiagnostics | SRedactSecrets | SPackageBundle | SHealth.
#[export] Instance OperationStep_eq_dec : EqDecision OperationStep.
Proof. solve_decision. Defined.

Definition steps (self : JournalKind) : list OperationStep :=
  match self with
  | JUpgrade => [SPreflight; SVerifyArtifacts; SSnapshotStores; SDrainServices; SApplyUpgrade;
                 SMigrateSchema; SStartServices; SHealth]
  | JBackup => [SPreflight; SQuiesceWrites; SSnapshotStores; SCaptureCatalog; SHashArtifacts;
                SSignManifest; SResumeWrites; SVerifyIntegrity]
  | JRestore => [SPreflight; SVerifyManifest; SPrepareTarget; SRestoreStores; SApplyCatalog;
                 SVerifyIntegrity; SStartServices; SHealth]
  | JDoctor => [SCheckConfiguration; SCheckDependencies; SCheckStorage; SCheckRuntime;
                SCheckSecurity; SHealth]
  | JSupportBundle => [SCollectDiagnostics; SRedactSecrets; SPackageBundle; SVerifyIntegrity]
  end.

Record JournalFailure := { jf_step : OperationStep; jf_reason : str }.

Record OperationJournal := {
  jn_kind : JournalKind;
  jn_completed : list OperationStep;
  jn_failure : option JournalFailure;
}.

Inductive OperationJournalError :=
| JAlreadyCompleted (step : OperationStep)
| JOutOfOrder (expected : option OperationStep) (actual : OperationStep).

Definition OperationJournal_new (kind : JournalKind) : OperationJournal :=
  {| jn_kind := kind; jn_completed := []; jn_failure := None |}.

Definition OperationJournal_next (self : OperationJournal) : option OperationStep :=
  next_of (steps (jn_kind self)) (jn_completed self).

Definition OperationJournal_complete (self : OperationJournal) : bool :=
  is_none (OperationJournal_next self).

Definition require_next (self : OperationJournal) (step : OperationStep)
    : result unit OperationJournalError :=
  if bool_decide (step ∈ jn_completed self) then Err (JAlreadyCompleted step)
  else if negb (bool_decide (OperationJournal_next self = Some step))
  then Err (JOutOfOrder (OperationJournal_next self) step)
  else Ok tt.

Definition OperationJournal_succeed (self : OperationJournal) (step : OperationStep)
    : result OperationJournal OperationJournalError :=
  let? _ := require_next self step in
  Ok {| jn_kind := jn_kind self; jn_completed := jn_completed self ++ [step];
        jn_failure := None |}.

Definition OperationJournal_fail (self : OperationJournal) (step : OperationStep) (reason : str)
    : result OperationJournal OperationJournalError :=
  let? _ := require_next self step in
  Ok {| jn_kind := jn_kind self; jn_completed := jn_completed self;
        jn_failure := Some {| jf_step := step; jf_reason := reason |} |}.

(** ** Bootstrap *)

Inductive Stage :=
| StPreflight | StTopology | StArtifacts | StIdentity | StSchema | StServices | StHealth.
#[export] Instance Stage_eq_dec : EqDecision Stage.
Proof. solve_decision. Defined.

Definition Stage_ALL : list Stage :=
  [StPreflight; StTopology; StArtifacts; StIdentity; StSchema; StServices; StHealth].

Definition Stage_as_str (self : Stage) : str :=
  match self with
  | StPreflight => lit "preflight"
  | StTopology => lit "topology"
  | StArtifacts => lit "artifacts"
  | StIdentity => lit "identity"
  | StSchema => lit "schema"
  | StServices => lit "services"
  | StHealth => lit "health"
  end.

Definition rollback_is_destructive (self : Stage) : bool :=
  match self with StSchema | StServices | StHealth => true | _ => false end.

Inductive StageOutcome := StageDone | StageFailed (reason : str).

Record Progress := { pg_done : list Stage; pg_failed : option (Stage * str) }.

Inductive BootstrapError := BAlreadyDone (stage : Stage) | BOutOfOrder (stage : Stage).

Definition is_done (self : Progress) (stage : Stage) : bool := bool_decide (stage ∈ pg_done self).

Definition Progress_next (self : Progress) : option Stage :=
  find (λ stage, negb (is_done self stage)) Stage_ALL.

Definition Progress_record (self : Progress) (stage : Stage) (outcome : StageOutcome)
    : result Progress BootstrapError :=
  if is_done self stage then Err (BAlreadyDone stage)
  else if negb (bool_decide (Progress_next self = Some stage)) then Err (BOutOfOrder stage)
  else match outcome with
  | StageDone => Ok {| pg_done := pg_done self ++ [stage]; pg_failed := None |}
  | StageFailed reason => Ok {| pg_done := pg_done self; pg_failed := Some (stage, reason) |}
  end.

Definition Progress_complete (self : Progress) : bool := is_none (Progress_next self).

Inductive Rollback := Undo | RollForward.

Definition rollback (stage : Stage) : Rollback :=
  if rollback_is_destructive stage then RollForward else Undo.

Record Finding := { finding_check : str; finding_fatal : bool; finding_detail : str }.

Definition preflight_passed (findings : list Finding) : bool :=
  negb (existsb finding_fatal findings).

(** ** Lemmas *)

Lemma steps_nodup kind : NoDup (steps kind).
Proof. destruct kind; by apply (bool_decide_unpack _); vm_compute. Qed.

Lemma stages_nodup : NoDup Stage_ALL.
Proof. by apply (bool_decide_unpack _); vm_compute. Qed.

Lemma require_next_ok j n step :
  jn_completed j = take n (steps (jn_kind j)) →
  require_next j step = Ok tt ↔ steps (jn_kind j) !! n = Some step.
Proof.
  intros Hc. unfold require_next, OperationJournal_next. rewrite Hc.
  rewrite <-(accepts_take _ n step) by apply steps_nodup. unfold accepts.
  case_bool_decide; simpl; [done|]. by case_bool_decide.
Qed.

Lemma snoc_take {A} (l : list A) n x : l !! n = Some x → take n l ++ [x] = take (S n) l.
Proof. intros H. by rewrite (take_S_r _ _ _ H). Qed.

(** ** Runs *)

(** A driver reports successes and failures; refused reports leave the journal as it is. *)
Inductive JournalEvent := JSucceed (step : OperationStep) | JFail (step : OperationStep) (reason : str).

Definition journal_step (j : OperationJournal) (ev : JournalEvent) : OperationJournal :=
  match match ev with
        | JSucceed step => OperationJournal_succeed j step
        | JFail step reason => OperationJournal_fail j step reason
        end with
  | Ok j' => j'
  | Err _ => j
  end.

Definition journal_run (kind : JournalKind) (events : list JournalEvent) : OperationJournal :=
  foldl journal_step (OperationJournal_new kind) events.

Definition stage_step (p : Progress) (ev : Stage * StageOutcome) : Progress :=
  match Progress_record p ev.1 ev.2 with Ok p' => p' | Err _ => p end.

Definition bootstrap_run (events : list (Stage * StageOutcome)) : Progress :=
  foldl stage_step {| pg_done := []; pg_failed := None |} events.

Lemma journal_run_prefix kind events :
  jn_kind (journal_run kind events) = kind ∧
  ∃ n, (n ≤ length (steps kind))%nat ∧ jn_completed (journal_run kind events) = take n (steps kind).
Proof.
  unfold journal_run. induction events as [|ev events IH] using rev_ind; simpl.
  - split; [done|]. exists 0%nat. split; [lia|done].
  - rewrite foldl_app. simpl. destruct IH as [Hk (n & Hn & Hc)].
    set (j := foldl journal_step _ events) in *. rewrite <-Hk in Hc.
    destruct ev as [step|step reason]; simpl; unfold journal_step, OperationJournal_succeed,
      OperationJournal_fail;
      (destruct (require_next j step) as [[]|] eqn:E; simpl; [|rewrite Hk in Hc; eauto]).
    + apply (require_next_ok _ _ _ Hc) in E. split; [done|]. exists (S n).
      rewrite Hk in *. split; [apply lookup_lt_Some in E; lia|]. by rewrite Hc, snoc_take.
    + split; [done|]. rewrite Hk in Hc. eauto.
Qed.

(** ** Properties *)

(** Journals resume exactly: whatever a driver reports, in whatever order and however often,
    the completed steps of an operation are a prefix of its plan, the next step is the one that
    follows, the operation is complete exactly when the whole plan is done, and a report is
    accepted exactly for that next step, so no completed step is ever accepted again. *)
Theorem journals_resume kind events :
  let j := journal_run kind events in
  ∃ n, jn_completed j = take n (steps kind) ∧
    OperationJournal_next j = steps kind !! n ∧
    (OperationJournal_complete j = true ↔ jn_completed j = steps kind) ∧
    ∀ step, is_ok (OperationJournal_succeed j step) = true ↔ steps kind !! n = Some step.
Proof.
  intros j. destruct (journal_run_prefix kind events) as [Hk (n & Hn & Hc)].
  fold j in Hk, Hc. exists n.
  assert (OperationJournal_next j = steps kind !! n) as Hnext.
  { unfold OperationJournal_next. rewrite Hk, Hc. apply next_of_take, steps_nodup. }
  split_and!; [done|done| |].
  - unfold OperationJournal_complete. rewrite Hnext. split.
    + destruct (steps kind !! n) eqn:E; [done|]. apply lookup_ge_None in E. intros _.
      rewrite Hc. apply take_ge. lia.
    + intros E. rewrite Hc in E. apply (f_equal length) in E. rewrite length_take in E.
      assert (steps kind !! n = None) as -> by (apply lookup_ge_None; lia). done.
  - intros step. unfold OperationJournal_succeed.
    rewrite <-Hk in Hc |- *. pose proof (require_next_ok j n step Hc) as Hr.
    destruct (require_next j step) as [[]|]; simpl; [tauto|]. split; [done|].
    intros E. by apply Hr in E.
Qed.

Lemma bootstrap_run_prefix events :
  ∃ n, (n ≤ length Stage_ALL)%nat ∧ pg_done (bootstrap_run events) = take n Stage_ALL.
Proof.
  unfold bootstrap_run. induction events as [|[stage outcome] events IH] using rev_ind.
  - exists 0%nat. split; [simpl; lia|done].
  - rewrite foldl_app. cbn [foldl]. destruct IH as (n & Hn & Hc). set (p := foldl stage_step _ events) in *.
    unfold stage_step, Progress_record. cbn [fst snd].
    destruct (is_done p stage) eqn:Hd; [eauto|].
    assert (Progress_next p = Stage_ALL !! n) as Hnext.
    { unfold Progress_next, is_done. rewrite Hc. apply next_of_take, stages_nodup. }
    rewrite Hnext. case_bool_decide as E; simpl; [|eauto].
    destruct outcome; simpl; [|eauto]. exists (S n).
    split; [apply lookup_lt_Some in E; simpl in E; lia|]. by rewrite Hc, snoc_take.
Qed.

(** Bootstrap never repeats a stage: whatever is recorded, the finished stages are a prefix of
    the seven in order, resuming continues right after them, a finished stage is refused with
    [AlreadyDone] and a premature one with [OutOfOrder]; and a stage is undone only when undoing
    cannot destroy data, that is before the schema stage. *)
Theorem bootstrap_never_repeats events :
  let p := bootstrap_run events in
  ∃ n, pg_done p = take n Stage_ALL ∧ Progress_next p = Stage_ALL !! n ∧
    (∀ stage outcome, stage ∈ pg_done p →
       Progress_record p stage outcome = Err (BAlreadyDone stage)) ∧
    (∀ stage outcome, stage ∉ pg_done p → Progress_next p ≠ Some stage →
       Progress_record p stage outcome = Err (BOutOfOrder stage)) ∧
    (∀ i stage, Stage_ALL !! i = Some stage → rollback stage = Undo ↔ (i < 4)%nat).
Proof.
  intros p. destruct (bootstrap_run_prefix events) as (n & _ & Hc). fold p in Hc. exists n.
  assert (Progress_next p = Stage_ALL !! n) as Hnext.
  { unfold Progress_next, is_done. rewrite Hc. apply next_of_take, stages_nodup. }
  split_and!; [done|done|..].
  - intros stage outcome Hin. unfold Progress_record, is_done. by rewrite bool_decide_true.
  - intros stage outcome Hin Hne. unfold Progress_record, is_done. rewrite bool_decide_false by done.
    by rewrite bool_decide_false.
  - intros i stage Hi. do 7 (destruct i as [|i]; [simplify_eq/=; unfold rollback; simpl; split; intros; first [done|lia]|]). done.
Qed.

Example journal_example :
  jn_completed (journal_run JSupportBundle [JSucceed SRedactSecrets; JFail SCollectDiagnostics [];
    JSucceed SCollectDiagnostics; JSucceed SCollectDiagnostics; JSucceed SRedactSecrets])
  = [SCollectDiagnostics; SRedactSecrets].
Proof. reflexivity. Qed.
