(* ===== verification/Placement.v ===== *)
(** Stateful workload portability ([crates/aseman-domain/src/volume.rs]) and the worker agent's
    rules ([crates/aseman-domain/src/agent.rs]).

    The theorems: a planned move never loses data that must survive, and takes the strongest path
    any volume needs; the agent acts only under an unexpired grant for that very allocation, and an
    accepted allocation names a direct child of the agent's root. *)

From S2P Require Import Prelude Text Core.

Open Scope Z_scope.

(** ** Volumes *)

Inductive PortabilityTier := TierEphemeral | TierProviderLocal | TierPortableOffline
| TierSharedExternal.
#[export] Instance PortabilityTier_eq_dec : EqDecision PortabilityTier.
Proof. solve_decision. Defined.

Record Volume := {
  vol_name : str;
  vol_tier : PortabilityTier;
  vol_provider : str;
  vol_snapshot_format : option str;
}.

Record Placement := {
  pl_worker : str;
  pl_runtime : str;
  pl_provider : str;
  pl_architecture : str;
}.

Inductive MovePlan := MoveRecreate | MoveProviderSnapshot | MoveOfflineCopy | MoveReattach.
#[export] Instance MovePlan_eq_dec : EqDecision MovePlan.
Proof. solve_decision. Defined.

Inductive PortabilityError :=
| ArchitectureMismatch
| ProviderLocalVolume (name : str)
| NoSnapshotFormat (name : str).

Definition plan_rank (plan : MovePlan) : Z :=
  match plan with
  | MoveRecreate => 0 | MoveReattach => 1 | MoveProviderSnapshot => 2 | MoveOfflineCopy => 3
  end.

Definition strongest (l r : MovePlan) : MovePlan := if plan_rank r <=? plan_rank l then l else r.

(** The body of the loop of [plan_move]: what one volume requires. *)
Definition volume_requires (crosses_provider crosses_runtime : bool) (volume : Volume)
    : result MovePlan PortabilityError :=
  match vol_tier volume with
  | TierEphemeral => Ok MoveRecreate
  | TierProviderLocal =>
      if crosses_provider then Err (ProviderLocalVolume (vol_name volume))
      else Ok MoveProviderSnapshot
  | TierPortableOffline =>
      if crosses_runtime && is_none (vol_snapshot_format volume)
      then Err (NoSnapshotFormat (vol_name volume)) else Ok MoveOfflineCopy
  | TierSharedExternal => Ok MoveReattach
  end.

Fixpoint plan_volumes (crosses_provider crosses_runtime : bool) (volumes : list Volume)
    (plan : MovePlan) : result MovePlan PortabilityError :=
  match volumes with
  | [] => Ok plan
  | volume :: volumes =>
      let? required := volume_requires crosses_provider crosses_runtime volume in
      plan_volumes crosses_provider crosses_runtime volumes (strongest plan required)
  end.

Definition plan_move (volumes : list Volume) (from to : Placement)
    : result MovePlan PortabilityError :=
  if negb (bool_decide (pl_architecture from = pl_architecture to)) then Err ArchitectureMismatch
  else
    let crosses_provider := negb (bool_decide (pl_provider from = pl_provider to)) in
    let crosses_runtime := negb (bool_decide (pl_runtime from = pl_runtime to)) in
    plan_volumes crosses_provider crosses_runtime volumes MoveRecreate.

Definition recreation_is_lossless (volumes : list Volume) : bool :=
  forallb (λ volume, match vol_tier volume with
                     | TierSharedExternal | TierEphemeral => true | _ => false end) volumes.

(** ** The worker agent *)

Inductive AgentOperation :=
| AgCreate | AgStart | AgPause | AgResume | AgState | AgStop | AgDelete.
#[export] Instance AgentOperation_eq_dec : EqDecision AgentOperation.
Proof. solve_decision. Defined.
Definition AgentOperation_ALL : list AgentOperation :=
  [AgCreate; AgStart; AgPause; AgResume; AgState; AgStop; AgDelete].
#[export] Program Instance AgentOperation_countable : Countable AgentOperation :=
  inj_countable (λ o, match o with AgCreate => 0 | AgStart => 1 | AgPause => 2 | AgResume => 3
                              | AgState => 4 | AgStop => 5 | AgDelete => 6 end)%nat
    (λ n, AgentOperation_ALL !! n) _.
Next Obligation. by intros []. Qed.

(** Paths are their lists of components. *)
Notation path := (list str) (only parsing).

Record MachineProfile := {
  mp_name : str;
  mp_vcpu_count : u8;
  mp_memory_mib : u64;
  mp_kernel_image : path;
  mp_root_image : path;
  mp_network_profile : option str;
}.

Record AgentGrant := {
  ag_allocation : str;
  ag_profile : str;
  ag_expires_at_millis : i64;
  ag_operations : gset AgentOperation;
}.

Inductive MachineState := MCreated | MRunning | MPaused | MStopped | MFailed.
#[export] Instance MachineState_eq_dec : EqDecision MachineState.
Proof. solve_decision. Defined.

Definition allows (self : MachineState) (operation : AgentOperation) : bool :=
  match operation with
  | AgState | AgDelete | AgStop => true
  | AgCreate => false
  | AgStart => match self with MCreated | MStopped => true | _ => false end
  | AgPause => match self with MRunning => true | _ => false end
  | AgResume => match self with MPaused => true | _ => false end
  end.

Inductive AgentError :=
| AgWrongAllocation | AgExpired | AgNotGranted | AgUnknownProfile | AgNoKvm | AgDisabled
| AgEscapingPath | AgUnknownAllocation | AgWrongState.

Definition authorize (grant : AgentGrant) (allocation : str) (operation : AgentOperation)
    (now_millis : i64) : result unit AgentError :=
  if negb (bool_decide (ag_allocation grant = allocation)) then Err AgWrongAllocation
  else if ag_expires_at_millis grant <=? now_millis then Err AgExpired
  else if negb (bool_decide (operation ∈ ag_operations grant)) then Err AgNotGranted
  else Ok tt.

(** [Path::join] of a relative path: the components are appended; [PathBuf] splits on [/]. *)
Definition path_join (root : path) (relative : str) : path := root ++ split (chr "/") relative.

Definition allocation_directory (root : path) (allocation : str) : result path AgentError :=
  let plain := negb (is_empty allocation) && (len allocation <=? 128)
    && forallb (λ byte, is_ascii_alphanumeric byte || (byte =? chr "-")%N || (byte =? chr "_")%N)
         (bytes allocation) in
  if negb plain then Err AgEscapingPath else Ok (path_join root allocation).

(** ** Properties *)

(** What a volume's tier lets a move do with its data. *)
Definition survives (from to : Placement) (plan : MovePlan) (volume : Volume) : Prop :=
  match vol_tier volume with
  | TierEphemeral => True
  | TierSharedExternal => plan ≠ MoveRecreate
  | TierProviderLocal => pl_provider from = pl_provider to ∧
      (plan = MoveProviderSnapshot ∨ plan = MoveOfflineCopy)
  | TierPortableOffline => plan = MoveOfflineCopy ∧
      (pl_runtime from = pl_runtime to ∨ is_some (vol_snapshot_format volume) = true)
  end.

Lemma strongest_rank l r : plan_rank (strongest l r) = Z.max (plan_rank l) (plan_rank r).
Proof. unfold strongest. destruct (Z.leb_spec (plan_rank r) (plan_rank l)); lia. Qed.

Lemma plan_volumes_spec cp cr volumes plan plan' :
  plan_volumes cp cr volumes plan = Ok plan' →
  plan_rank plan ≤ plan_rank plan' ∧
  (∀ v, v ∈ volumes → ∃ r, volume_requires cp cr v = Ok r ∧ plan_rank r ≤ plan_rank plan') ∧
  (plan' = plan ∨ ∃ v r, v ∈ volumes ∧ volume_requires cp cr v = Ok r ∧ plan' = r).
Proof.
  revert plan. induction volumes as [|v volumes IH]; intros plan; cbn [plan_volumes].
  - intros [= ->]. split_and!; [lia|by intros ? ?%not_elem_of_nil|by left].
  - destruct (volume_requires cp cr v) as [r|] eqn:Hr; [|done].
    intros (Hle & Hall & Hex)%IH. rewrite strongest_rank in Hle. split_and!; [lia| |].
    + intros x [->|Hx]%elem_of_cons; [|by apply Hall]. exists r. split; [done|lia].
    + destruct Hex as [->|(x & q & Hx & Hq & ->)].
      * unfold strongest. case_match; [by left|]. right. exists v, r. split; [by left|done].
      * right. exists x, q. split; [by right|done].
Qed.

Lemma plan_volumes_err cp cr volumes plan :
  (∃ e, plan_volumes cp cr volumes plan = Err e) ↔
  ∃ v e, v ∈ volumes ∧ volume_requires cp cr v = Err e.
Proof.
  revert plan. induction volumes as [|v volumes IH]; intros plan; cbn [plan_volumes].
  - split; [by intros [e ?]|]. by intros (v & e & ?%not_elem_of_nil & _).
  - destruct (volume_requires cp cr v) as [r|e] eqn:Hr.
    + rewrite IH. split.
      * intros (x & e & ? & ?). exists x, e. split; [by right|done].
      * intros (x & e & [->|?]%elem_of_cons & ?); [congruence|]. eauto.
    + split; [|eauto]. intros _. exists v, e. split; [by left|done].
Qed.

(** No silent loss: a move is refused exactly when it crosses architectures, or a
    provider-local volume would leave its provider, or an offline-portable one without a snapshot
    format would cross runtimes; a plan that is given preserves every volume that must survive, and
    is no stronger than some attached volume needs. *)
Theorem moves_keep_data volumes from to :
  (∀ plan, plan_move volumes from to = Ok plan →
     pl_architecture from = pl_architecture to ∧
     (∀ v, v ∈ volumes → survives from to plan v) ∧
     (plan = MoveRecreate ∨ ∃ v, v ∈ volumes ∧
        (vol_tier v = TierSharedExternal ∧ plan = MoveReattach ∨
         vol_tier v = TierProviderLocal ∧ plan = MoveProviderSnapshot ∨
         vol_tier v = TierPortableOffline ∧ plan = MoveOfflineCopy))) ∧
  ((∃ e, plan_move volumes from to = Err e) ↔
     pl_architecture from ≠ pl_architecture to ∨
     ∃ v, v ∈ volumes ∧
       (vol_tier v = TierProviderLocal ∧ pl_provider from ≠ pl_provider to ∨
        vol_tier v = TierPortableOffline ∧ pl_runtime from ≠ pl_runtime to ∧
        vol_snapshot_format v = None)).
Proof.
  unfold plan_move. case_bool_decide as Ha; simpl; [|naive_solver].
  set (cp := negb (bool_decide (pl_provider from = pl_provider to))).
  set (cr := negb (bool_decide (pl_runtime from = pl_runtime to))). split.
  - intros plan (_ & Hall & Hex)%plan_volumes_spec. split_and!; [done| |].
    + intros v (r & Hr & Hle)%Hall. revert Hr. unfold volume_requires, survives, cp, cr.
      destruct (vol_tier v); repeat case_bool_decide; simpl; repeat case_match;
        intros; simplify_eq/=; destruct plan; simpl in Hle; try lia; auto;
        unfold is_none in *; destruct (vol_snapshot_format v); simpl in *; auto; done.
    + destruct Hex as [->|(v & r & Hv & Hr & ->)]; [by left|]. revert Hr. unfold volume_requires.
      destruct (vol_tier v) eqn:Et; repeat case_match; intros [= <-]; [by left|right..];
        exists v; auto 6.
  - rewrite plan_volumes_err. split.
    + intros (v & e & Hv & He). right. exists v. split; [done|]. revert He.
      unfold volume_requires, cp, cr. destruct (vol_tier v); repeat case_bool_decide; simpl; try done.
      * by left.
      * destruct (vol_snapshot_format v); [done|]. by right.
    + intros [?|(v & Hv & [[Ht Hp]|(Ht & Hp & Hs)])]; [done|..]; exists v; unfold volume_requires, cp, cr;
        rewrite Ht; rewrite bool_decide_false by done; simpl; [eauto|rewrite Hs; simpl; eauto].
Qed.

Lemma allocation_plain allocation :
  negb (is_empty allocation) && (len allocation <=? 128)
    && forallb (λ byte, is_ascii_alphanumeric byte || (byte =? chr "-")%N || (byte =? chr "_")%N)
         (bytes allocation) = true ↔ plain_name allocation.
Proof.
  rewrite <-binding_field_valid. unfold binding_field_invalid.
  assert (∀ l, forallb (λ byte, is_ascii_alphanumeric byte || (byte =? chr "-")%N
      || (byte =? chr "_")%N) l = forallb (λ b, is_ascii_alphanumeric b || (b =? chr "_")%N
      || (b =? chr "-")%N) l) as ->.
  { induction l as [|b l IH]; cbn [forallb]; [done|]. rewrite IH. f_equal.
    by rewrite <-!orb_assoc, (orb_comm (b =? chr "-")%N). }
  destruct (is_empty allocation); simpl; [split; done|].
  destruct (Z.leb_spec (len allocation) 128), (Z.ltb_spec 128 (len allocation)); try lia; simpl;
    destruct (forallb _ (bytes allocation)); simpl; split; done.
Qed.

(** The agent's authority: an operation is authorized exactly under an unexpired grant for
    that allocation which lists it; a machine is paused only while running and resumed only while
    paused; and an allocation gets a directory exactly when it is a plain name, and then the
    directory is the root extended by that one component, which is neither [.] nor [..]. *)
Theorem agent_stays_inside grant allocation operation now root :
  (authorize grant allocation operation now = Ok tt ↔
     ag_allocation grant = allocation ∧ now < ag_expires_at_millis grant ∧
     operation ∈ ag_operations grant) ∧
  (∀ state, (allows state AgPause = true ↔ state = MRunning) ∧
            (allows state AgResume = true ↔ state = MPaused)) ∧
  (∀ dir, allocation_directory root allocation = Ok dir ↔
     plain_name allocation ∧ dir = root ++ [allocation]) ∧
  (∀ dir, allocation_directory root allocation = Ok dir →
     allocation ≠ lit "." ∧ allocation ≠ lit ".." ∧ chr "/" ∉ allocation).
Proof.
  assert (∀ dir, allocation_directory root allocation = Ok dir ↔
     plain_name allocation ∧ dir = root ++ [allocation]) as Hdir.
  { intros dir. unfold allocation_directory. rewrite <-allocation_plain.
    destruct (_ && _ && _) eqn:E; simpl; [|split; [done|]; by intros [? _]].
    apply allocation_plain in E as (_ & _ & Hc). unfold path_join.
    rewrite split_no_sep by (intros Hs; by apply Hc in Hs as [?|[?|?]]).
    split; [by intros [= <-]|by intros [_ ->]]. }
  split_and!; [| |done|].
  - unfold authorize. case_bool_decide; simpl; [|naive_solver].
    destruct (Z.leb_spec (ag_expires_at_millis grant) now); [naive_solver lia|].
    case_bool_decide; naive_solver.
  - intros []; split; split; done.
  - intros dir [(_ & _ & Hc) _]%Hdir. split_and!.
    + intros ->. destruct (Hc (chr ".")) as [?|[?|?]]; [by left|done..].
    + intros ->. destruct (Hc (chr ".")) as [?|[?|?]]; [by left|done..].
    + intros Hs. by apply Hc in Hs as [?|[?|?]].
Qed.

Example moves_example :
  plan_move [{| vol_name := lit "cache"; vol_tier := TierEphemeral; vol_provider := lit "nomad";
                vol_snapshot_format := None |};
             {| vol_name := lit "data"; vol_tier := TierProviderLocal; vol_provider := lit "nomad";
                vol_snapshot_format := None |}]
    {| pl_worker := lit "a"; pl_runtime := lit "docker"; pl_provider := lit "nomad";
       pl_architecture := lit "x86_64" |}
    {| pl_worker := lit "b"; pl_runtime := lit "docker"; pl_provider := lit "native";
       pl_architecture := lit "x86_64" |} = Err (ProviderLocalVolume (lit "data")).
Proof. reflexivity. Qed.
