(* ===== verification/Values.v ===== *)
(** The remaining domain values: blob keys, programs and resource entities, creatures and their
    paging window, guest key/value limits, gateway routes, stores, store permissions and signal
    tags ([blob.rs], [program.rs], [creature.rs], [guest.rs], [gateway.rs], [store.rs],
    [store_permissions.rs] and [signal_tags.rs] of [crates/aseman-domain/src]).

    The theorems: a valid blob key stays inside its store, and every valid resource entity's data
    key is one; permissions and tags survive their text form; paging is the window it describes.
    The legacy identity of resource entities is shown not to be injective on valid references. *)

From S2P Require Import Prelude Text.

Open Scope Z_scope.

(** ** Blobs *)

Record BlobEvidence := {
  be_store_key : str;
  be_content_digest : list u8;
  be_size_bytes : u64;
  be_media_type : str;
}.

Definition key_segment (segment : str) : bool :=
  negb (is_empty segment) && negb (bool_decide (segment = lit "."))
  && negb (bool_decide (segment = lit "..")).

Definition valid_blob_key (key : str) : bool :=
  negb (is_empty key) && negb (starts_with_char (chr "/") key)
  && negb (contains_char (chr "\") key || contains_char 0%N key)
  && forallb key_segment (split (chr "/") key).

(** ** Programs *)

Record ProgramRecord := {
  prog_id : str; prog_machine_id : str; prog_runtime : str; prog_path : str; prog_comment : str }.

Definition DEFAULT_ALARM_ENTITY : str := lit "main".

Record ProgramAlarm := {
  alarm_store_id : str; alarm_fire_at_millis : i64; alarm_data : str; alarm_entity : str }.

Record VmResourceStore := {
  vrs_id : str; vrs_name : str; vrs_machine_id : str; vrs_metadata : str }.

Record EntityRecord := {
  ent_program_id : str; ent_entity_id : str; ent_entity_type : str; ent_image_name : str }.

Inductive ArtifactRole := RolePrimary | RoleDownloadable.

Definition ArtifactRole_as_str (self : ArtifactRole) : str :=
  match self with RolePrimary => lit "primary" | RoleDownloadable => lit "downloadable" end.

Record EntityArtifact := { ea_store_key : option str }.

Record ResourceEntityRef := {
  rer_store_id : str; rer_entity_type : str; rer_entity_id : str }.

Definition ResourceEntityRef_is_valid (self : ResourceEntityRef) : bool :=
  forallb (λ part, negb (contains_str (lit "::") part) && negb (contains_char (chr "/") part)
                   && valid_blob_key part)
    [rer_store_id self; rer_entity_type self; rer_entity_id self].

Definition legacy_id (self : ResourceEntityRef) : str :=
  rer_store_id self ++ lit "::" ++ rer_entity_type self ++ lit "::" ++ rer_entity_id self.

Definition data_key (self : ResourceEntityRef) : str :=
  lit "vm_stores/" ++ rer_store_id self ++ lit "/" ++ rer_entity_type self ++ lit "/"
    ++ rer_entity_id self ++ lit ".json".

Record VmResourceEntity := {
  vre_reference : ResourceEntityRef; vre_payload : str; vre_data_key : option str }.

(** ** Creatures *)

Definition HUMAN_CREATURE_TYPE : str := lit "human".
Definition HUMAN_OWNER : str := lit "free".
Definition BALANCE_CURRENCY : str := lit "ASE".
Definition BALANCE_SCALE : u8 := 0.

Record CreatureRecord := {
  cr_id : str;
  cr_creature_type : str;
  cr_username : str;
  cr_public_key : str;
  cr_chain_id : str;
  cr_subchain_id : str;
  cr_owner_id : str;
}.

Definition is_human (self : CreatureRecord) : bool :=
  bool_decide (cr_creature_type self = HUMAN_CREATURE_TYPE).

Inductive MetadataKind := MetadataCreature | MetadataUser.
Definition METADATA_ROOT : str := lit "metadata".

(** The loop of [legacy_page]; [index] is an [i64] that counts items. *)
Fixpoint legacy_page_loop {T} (items : list T) (offset : i64) (count : option i64) (index : i64)
    : list T :=
  match items with
  | [] => []
  | item :: items =>
      if index <? offset then legacy_page_loop items offset count (wrap_i64 (index + 1))
      else if is_some_and (λ count, saturating_add_i64 offset count <=? index) count then []
      else item :: legacy_page_loop items offset count (wrap_i64 (index + 1))
  end.

Definition legacy_page {T} (items : list T) (offset : i64) (count : option i64) : list T :=
  legacy_page_loop items offset count 0.

(** ** Guest key/value operations *)

Definition GUEST_DATA_ACTION : str := lit "guest_data.access".
Definition MAX_GUEST_KEY_BYTES : usize := 1024.
Definition MAX_GUEST_VALUE_BYTES : usize := 2 ^ 20.
Definition MAX_GUEST_LIST : u32 := 1000.

Inductive LegacyKvNamespace := NsDbOp | NsAppletDb | NsJson.

Definition LegacyKvNamespace_as_str (self : LegacyKvNamespace) : str :=
  match self with
  | NsDbOp => lit "dbop" | NsAppletDb => lit "applet_db" | NsJson => lit "json"
  end.

Inductive GuestKvOperation :=
| KvGet (namespace : LegacyKvNamespace) (key : str)
| KvPut (namespace : LegacyKvNamespace) (key value : str)
| KvDelete (namespace : LegacyKvNamespace) (key : str)
| KvList (namespace : LegacyKvNamespace) (prefix : str) (limit : u32)
| KvPutJson (key path data : str) (merge : bool)
| KvGetJson (key path : str)
| KvDeleteJson (key path : str)
| KvListJson (prefix : str) (limit : u32).

Definition GuestKvOperation_is_valid (self : GuestKvOperation) : bool :=
  let key_ok key := negb (is_empty key) && (len key <=? MAX_GUEST_KEY_BYTES) in
  match self with
  | KvGet _ key | KvDelete _ key => key_ok key
  | KvPut _ key value => key_ok key && (len value <=? MAX_GUEST_VALUE_BYTES)
  | KvList _ prefix limit | KvListJson prefix limit =>
      (len prefix <=? MAX_GUEST_KEY_BYTES) && ((1 <=? limit) && (limit <=? MAX_GUEST_LIST))
  | KvPutJson key path data _ =>
      key_ok key && (len path <=? MAX_GUEST_KEY_BYTES) && (len data <=? MAX_GUEST_VALUE_BYTES)
  | KvGetJson key path | KvDeleteJson key path =>
      key_ok key && (len path <=? MAX_GUEST_KEY_BYTES)
  end.

Inductive GuestKvOutcome :=
| KvValue (value : option str)
| KvWritten
| KvDeleted (existed : bool)
| KvListed (pairs : list (str * str))
| KvDocument (data : str)
| KvKeys (keys : list str).

(** ** Gateway routes and stores *)

Record GatewayRoute := {
  gr_creature_id : str; gr_path : str; gr_program_id : str; gr_entity_id : str; gr_runtime : str;
  gr_pinned_vm_id : str }.

Record StoreRecord := {
  st_id : str;
  st_persistent_history : bool;
  st_signal_count : i64;
  st_tag : str;
  st_parent_id : str;
  st_is_public : bool;
  st_member_count : i64;
}.

Record StoreSignal := {
  ss_id : str;
  ss_store_id : str;
  ss_sender_id : str;
  ss_data : str;
  ss_tags : list str;
  ss_time_millis : i64;
  ss_edited : bool;
}.

(** ** Store permissions *)

Definition PERM_READ : str := lit "read".
Definition PERM_SIGNAL : str := lit "signal".
Definition PERM_MANAGE : str := lit "manage".

Record StorePermissions := { perm_read : bool; perm_signal : bool; perm_manage : bool }.

Definition StorePermissions_default : StorePermissions :=
  {| perm_read := false; perm_signal := false; perm_manage := false |}.
Definition StorePermissions_owner : StorePermissions :=
  {| perm_read := true; perm_signal := true; perm_manage := true |}.
Definition StorePermissions_member : StorePermissions :=
  {| perm_read := true; perm_signal := true; perm_manage := false |}.
Definition StorePermissions_viewer : StorePermissions :=
  {| perm_read := true; perm_signal := false; perm_manage := false |}.

Definition StorePermissions_is_empty (self : StorePermissions) : bool :=
  negb (perm_read self) && negb (perm_signal self) && negb (perm_manage self).

(** One iteration of the loop of [parse]. *)
Definition parse_part (permissions : StorePermissions) (part : str) : StorePermissions :=
  let part := trim part in
  if bool_decide (part = PERM_READ)
  then {| perm_read := true; perm_signal := perm_signal permissions;
          perm_manage := perm_manage permissions |}
  else if bool_decide (part = PERM_SIGNAL)
  then {| perm_read := perm_read permissions; perm_signal := true;
          perm_manage := perm_manage permissions |}
  else if bool_decide (part = PERM_MANAGE)
  then {| perm_read := perm_read permissions; perm_signal := perm_signal permissions;
          perm_manage := true |}
  else permissions.

Definition StorePermissions_parse (raw : str) : StorePermissions :=
  foldl parse_part StorePermissions_default (split (chr ",") raw).

Definition StorePermissions_encode (self : StorePermissions) : str :=
  join (lit ",")
    ((if perm_read self then [PERM_READ] else [])
     ++ (if perm_signal self then [PERM_SIGNAL] else [])
     ++ (if perm_manage self then [PERM_MANAGE] else [])).

Definition StorePermissions_from_list (flags : list str) : StorePermissions :=
  StorePermissions_parse (join (lit ",") flags).

Definition legacy_access_link_key (store_id member_id : str) : str :=
  lit "onaccess::" ++ store_id ++ lit "::" ++ member_id.

(** ** Signal tags *)

Definition TAG_SEP : char := chr "|".
Definition MAX_TAG_LEN : usize := 128.
Definition MAX_TAGS : usize := 24.

Inductive SignalTagError :=
| TagEmpty
| TagTooLong (tag : str)
| TagUnsupportedCharacter (character : char) (tag : str)
| TagTooMany.

Definition is_tag_char (character : char) : bool :=
  is_ascii_alphanumeric character
  || existsb (N.eqb character)
       [chr "="; chr "@"; chr "."; chr ":"; chr "-"; chr "/"; chr "+"; chr "#"].

Definition validate_tag (tag : str) : result str SignalTagError :=
  let trimmed := trim tag in
  if is_empty trimmed then Err TagEmpty
  else if MAX_TAG_LEN <? len trimmed then Err (TagTooLong trimmed)
  else match find (λ value, negb (is_tag_char value)) trimmed with
  | Some character => Err (TagUnsupportedCharacter character trimmed)
  | None => Ok trimmed
  end.

Fixpoint validate_tags_loop (tags output : list str) : result (list str) SignalTagError :=
  match tags with
  | [] => Ok output
  | raw :: tags =>
      let? tag := validate_tag raw in
      validate_tags_loop tags (if bool_decide (tag ∈ output) then output else output ++ [tag])
  end.

Definition validate_tags (tags : list str) : result (list str) SignalTagError :=
  if MAX_TAGS <? Z.of_nat (length tags) then Err TagTooMany else validate_tags_loop tags [].

Definition encode_tags (tags : list str) : str :=
  if is_empty tags then [] else TAG_SEP :: (tags ≫= λ tag, tag ++ [TAG_SEP]).

Definition decode_tags (encoded : str) : list str :=
  List.filter (λ value, negb (is_empty value)) (split TAG_SEP encoded).

Record LogQuery := {
  lq_tags_all : list str;
  lq_tags_any : list str;
  lq_before_time : i64;
  lq_after_time : i64;
  lq_count : i64;
}.

Definition LogQuery_validated (self : LogQuery) : result LogQuery SignalTagError :=
  let? tags_all := validate_tags (lq_tags_all self) in
  let? tags_any := validate_tags (lq_tags_any self) in
  Ok {| lq_tags_all := tags_all; lq_tags_any := tags_any;
        lq_before_time := lq_before_time self; lq_after_time := lq_after_time self;
        lq_count := lq_count self |}.

(** ** Lemmas *)

Lemma is_tag_char_clean c : is_tag_char c = true → c ≠ TAG_SEP ∧ is_whitespace c = false.
Proof.
  unfold is_tag_char, is_ascii_alphanumeric, is_ascii_digit. simpl.
  intros H. split; [intros ->; done|].
  unfold is_whitespace. repeat (apply orb_true_iff in H as [H|H]);
    rewrite ?andb_true_iff, ?N.eqb_eq, ?N.leb_le in H; subst; simpl; try done; lia.
Qed.

(** A tag as it is stored. *)
Definition clean_tag (t : str) : Prop :=
  t ≠ [] ∧ len t ≤ MAX_TAG_LEN ∧ ∀ c, c ∈ t → is_tag_char c = true.

Lemma validate_tag_Ok raw t : validate_tag raw = Ok t ↔ t = trim raw ∧ clean_tag t.
Proof.
  unfold validate_tag, clean_tag. destruct (is_empty (trim raw)) eqn:He.
  - apply is_empty_true in He. split; [done|]. intros (-> & ? & _). done.
  - apply is_empty_false in He. destruct (Z.ltb_spec MAX_TAG_LEN (len (trim raw))).
    + split; [done|]. intros (-> & _ & ? & _). lia.
    + destruct (find _ (trim raw)) as [c|] eqn:Hf.
      * apply find_Some in Hf as [Hc Hn]. split; [done|]. intros (-> & _ & _ & Hall).
        by rewrite Hall in Hn.
      * rewrite find_None in Hf. split.
        -- intros [= <-]. split_and!; try done. intros c Hc. apply Hf in Hc.
           by destruct (is_tag_char c).
        -- by intros (-> & _).
Qed.

Lemma clean_tag_trim t : clean_tag t → trim t = t.
Proof. intros (_ & _ & Hc). apply trim_none. intros c Hin%Hc. by apply is_tag_char_clean. Qed.

Lemma clean_tag_no_sep t : clean_tag t → TAG_SEP ∉ t.
Proof. intros (_ & _ & Hc) Hin%Hc. by apply is_tag_char_clean in Hin as []. Qed.

Lemma validate_tags_loop_Ok tags output vs :
  validate_tags_loop tags output = Ok vs → Forall clean_tag output → NoDup output →
  Forall clean_tag vs ∧ NoDup vs ∧ (length vs ≤ length output + length tags)%nat ∧
  (∀ t, t ∈ vs ↔ t ∈ output ∨ t ∈ (trim <$> tags)).
Proof.
  revert output. induction tags as [|raw tags IH]; intros output; cbn [validate_tags_loop].
  - intros [= <-] Hc Hn. split_and!; [done|done|simpl; lia|]. intros t. rewrite elem_of_nil. tauto.
  - destruct (validate_tag raw) as [t|] eqn:Ht; [|done].
    apply validate_tag_Ok in Ht as [-> Hclean]. case_bool_decide as Hin; intros Hl Hc Hn.
    + destruct (IH _ Hl Hc Hn) as (? & ? & ? & Hiff). split_and!; [done|done|simpl; lia|].
      intros t. rewrite Hiff. csimpl. rewrite elem_of_cons. naive_solver.
    + destruct (IH _ Hl) as (? & ? & Hlen & Hiff).
      { apply Forall_app. split; [done|by constructor]. }
      { apply NoDup_app. split; [done|]. split; [|apply NoDup_singleton].
        intros x Hx ->%list_elem_of_singleton. done. }
      rewrite length_app in Hlen. simpl in Hlen. split_and!; [done|done|simpl; lia|].
      intros t. rewrite Hiff, elem_of_app, list_elem_of_singleton. csimpl. rewrite elem_of_cons. tauto.
Qed.

Lemma validate_tags_loop_clean tags output :
  Forall clean_tag tags → NoDup tags → (∀ t, t ∈ tags → t ∉ output) →
  validate_tags_loop tags output = Ok (output ++ tags).
Proof.
  revert output. induction tags as [|t tags IH]; intros output Hc Hn Hd; cbn [validate_tags_loop].
  - by rewrite app_nil_r.
  - apply Forall_cons in Hc as [Ht Hc]. apply NoDup_cons in Hn as [Hni Hn].
    rewrite (proj2 (validate_tag_Ok t t)) by (split; [by rewrite clean_tag_trim|done]).
    rewrite bool_decide_false by (apply Hd; by left). rewrite IH; [by rewrite <-app_assoc|done|done|].
    intros x Hx [?| ->%list_elem_of_singleton]%elem_of_app; [|done]. apply (Hd x); [by right|done].
Qed.

Lemma split_tags tags :
  (∀ t, t ∈ tags → TAG_SEP ∉ t) →
  split TAG_SEP (tags ≫= λ tag, tag ++ [TAG_SEP]) = tags ++ [[]].
Proof.
  induction tags as [|t tags IH]; intros Hs; [done|]. csimpl.
  rewrite <-app_assoc. simpl app at 2. rewrite split_app_free by (apply Hs; by left).
  rewrite IH; [done|]. intros. apply Hs. by right.
Qed.

Lemma filter_nonempty_id (l : list str) :
  (∀ t, t ∈ l → t ≠ []) → List.filter (λ value, negb (is_empty value)) l = l.
Proof.
  induction l as [|t l IH]; intros Hl; simpl; [done|].
  destruct t; [by destruct (Hl []); [left|]|]. simpl. f_equal. apply IH. intros. apply Hl. by right.
Qed.

Lemma decode_encode tags :
  Forall clean_tag tags → decode_tags (encode_tags tags) = tags.
Proof.
  intros Hc. unfold encode_tags. destruct (is_empty tags) eqn:He.
  { apply is_empty_true in He as ->. done. }
  rewrite Forall_forall in Hc. unfold decode_tags. cbn [split]. rewrite N.eqb_refl.
  rewrite split_tags by (intros t Ht%Hc; by apply clean_tag_no_sep). simpl.
  rewrite List.filter_app. simpl. rewrite app_nil_r. apply filter_nonempty_id.
  intros t Ht%Hc. by destruct Ht.
Qed.

Lemma distinct_words (w : str) :
  (w = PERM_READ → w ≠ PERM_SIGNAL) ∧ (w = PERM_READ → w ≠ PERM_MANAGE) ∧
  (w = PERM_SIGNAL → w ≠ PERM_MANAGE).
Proof. split_and!; intros ->; done. Qed.

(** The parse of a permission text is a set of words. *)
Lemma parse_fold parts p :
  perm_read (foldl parse_part p parts) = perm_read p || bool_decide (PERM_READ ∈ trim <$> parts) ∧
  perm_signal (foldl parse_part p parts)
    = perm_signal p || bool_decide (PERM_SIGNAL ∈ trim <$> parts) ∧
  perm_manage (foldl parse_part p parts)
    = perm_manage p || bool_decide (PERM_MANAGE ∈ trim <$> parts).
Proof.
  revert p. induction parts as [|part parts IH]; intros p.
  - by rewrite !orb_false_r.
  - cbn [foldl fmap list_fmap]. destruct (IH (parse_part p part)) as (-> & -> & ->).
    unfold parse_part. change (list_fmap str str trim parts) with (trim <$> parts).
    assert (∀ w, bool_decide (w ∈ trim part :: (trim <$> parts))
      = bool_decide (trim part = w) || bool_decide (w ∈ trim <$> parts)) as Hcons.
    { intros w. rewrite <-bool_decide_or. apply bool_decide_ext. rewrite elem_of_cons. naive_solver. }
    rewrite !Hcons. destruct (distinct_words (trim part)) as (? & ? & ?).
    repeat case_bool_decide; simpl; rewrite ?orb_true_r, ?orb_false_r; tauto.
Qed.

(** ** Properties *)

(** Signal tags: validation keeps exactly the trimmed tags, once each, at most 24, each a
    non-empty word of at most 128 bytes without the separator; it is idempotent; and validated tags
    survive their encoded form. *)
Theorem tags_round_trip tags vs :
  validate_tags tags = Ok vs →
  (∀ t, t ∈ vs ↔ t ∈ (trim <$> tags)) ∧ NoDup vs ∧ (length vs ≤ 24)%nat ∧
  Forall clean_tag vs ∧ (∀ t, t ∈ vs → TAG_SEP ∉ t) ∧
  validate_tags vs = Ok vs ∧ decode_tags (encode_tags vs) = vs.
Proof.
  unfold validate_tags. destruct (Z.ltb_spec MAX_TAGS (Z.of_nat (length tags))) as [|Hlen]; [done|].
  intros Hv. unfold MAX_TAGS in Hlen.
  destruct (validate_tags_loop_Ok _ _ _ Hv) as (Hc & Hn & Hl & Hiff); [constructor..|].
  simpl in Hl. rewrite (proj2 (Z.ltb_ge MAX_TAGS (Z.of_nat (length vs)))) by (unfold MAX_TAGS; lia).
  split_and!; [|done|lia|done| |by apply (validate_tags_loop_clean vs []); [..|set_solver]|by apply decode_encode].
  - intros t. rewrite Hiff, elem_of_nil. tauto.
  - intros t Ht. apply clean_tag_no_sep. by eapply Forall_forall in Hc.
Qed.

Lemma tags_round_trip_witness :
  decode_tags (encode_tags [lit "a=1"; lit "b"]) = [lit "a=1"; lit "b"].
Proof.
  assert (validate_tags [lit " a=1 "; lit "b"; lit "a=1"] = Ok [lit "a=1"; lit "b"]) as E
    by (vm_compute; reflexivity).
  apply (tags_round_trip _ _ E).
Defined.

(** Store permissions: a permission text grants exactly the words it lists between commas,
    whatever the order, the spaces, the repetitions and the unknown words around them (so absence
    denies), and every permission set survives its text form. *)
Theorem permissions_round_trip raw p :
  (perm_read (StorePermissions_parse raw) = true ↔ PERM_READ ∈ trim <$> split (chr ",") raw) ∧
  (perm_signal (StorePermissions_parse raw) = true ↔ PERM_SIGNAL ∈ trim <$> split (chr ",") raw) ∧
  (perm_manage (StorePermissions_parse raw) = true ↔ PERM_MANAGE ∈ trim <$> split (chr ",") raw) ∧
  StorePermissions_parse (StorePermissions_encode p) = p ∧
  (StorePermissions_is_empty p = true ↔ StorePermissions_encode p = []).
Proof.
  unfold StorePermissions_parse at 1 2 3.
  destruct (parse_fold (split (chr ",") raw) StorePermissions_default) as (-> & -> & ->).
  simpl. rewrite !bool_decide_eq_true. split_and!; try done.
  - by destruct p as [[] [] []].
  - by destruct p as [[] [] []].
Qed.

(** ** Blob keys *)

(** Resolving a relative path under a root the way a file system does. *)
Definition resolve (root : list str) (key : str) : list str :=
  foldl (λ p segment,
    if bool_decide (segment = lit "..") then take (length p - 1) p
    else if bool_decide (segment = lit ".") || is_empty segment then p
    else p ++ [segment]) root (split (chr "/") key).

Lemma resolve_segments root segments :
  forallb key_segment segments = true →
  foldl (λ p segment,
    if bool_decide (segment = lit "..") then take (length p - 1) p
    else if bool_decide (segment = lit ".") || is_empty segment then p
    else p ++ [segment]) root segments = root ++ segments.
Proof.
  revert root. induction segments as [|s segments IH]; intros root Hs; cbn [foldl].
  - by rewrite app_nil_r.
  - cbn [forallb] in Hs. apply andb_true_iff in Hs as [H1 H2]. unfold key_segment in H1.
    rewrite !andb_true_iff, !negb_true_iff in H1. destruct H1 as [[-> ->] ->]. simpl.
    rewrite IH by done. by rewrite <-app_assoc.
Qed.

Lemma key_part part :
  contains_char (chr "/") part = false → valid_blob_key part = true → key_segment part = true.
Proof.
  intros Hs%contains_char_false. unfold valid_blob_key. rewrite split_no_sep by done.
  cbn [forallb]. rewrite !andb_true_iff. tauto.
Qed.

Lemma contains_app c s t : contains_char c (s ++ t) = contains_char c s || contains_char c t.
Proof. unfold contains_char. apply existsb_app. Qed.

(** A dotted suffix keeps a segment a segment. *)
Lemma key_segment_json id : key_segment id = true → key_segment (id ++ lit ".json") = true.
Proof.
  unfold key_segment. rewrite !andb_true_iff, !negb_true_iff. intros _.
  assert (∀ w, (length w < 5)%nat → bool_decide (id ++ lit ".json" = w) = false) as Hne.
  { intros w Hw. apply bool_decide_eq_false. intros E. apply (f_equal length) in E.
    rewrite length_app in E. simpl in E. lia. }
  split; [split|]; [destruct id; done|apply Hne; simpl; lia|apply Hne; simpl; lia].
Qed.

Lemma data_key_segments r :
  ResourceEntityRef_is_valid r = true →
  split (chr "/") (data_key r) =
    [lit "vm_stores"; rer_store_id r; rer_entity_type r; rer_entity_id r ++ lit ".json"].
Proof.
  unfold ResourceEntityRef_is_valid. cbn [forallb]. rewrite !andb_true_iff, !negb_true_iff.
  intros ([[_ H1] _] & [[_ H2] _] & [[_ H3] _] & _).
  apply contains_char_false in H1, H2, H3.
  assert (data_key r = join [chr "/"]
    [lit "vm_stores"; rer_store_id r; rer_entity_type r; rer_entity_id r ++ lit ".json"]) as ->.
  { unfold data_key. cbn [join]. reflexivity. }
  apply split_join; [done|]. intros p Hp. rewrite !elem_of_cons, elem_of_nil in Hp.
  destruct Hp as [->|[->|[->|[->|[]]]]]; [|done|done|].
  - by apply contains_char_false.
  - rewrite elem_of_app. intros [?|?]; [done|]. by apply contains_char_false in H.
Qed.

(** Blob keys stay in their store: a valid key has no empty, [.] or [..] segment, so resolving
    it under any root appends its segments and nothing else, and different keys name different
    files; the data key of every valid resource entity is such a key, under [vm_stores], and names
    that entity only. *)
Theorem blob_keys_stay_inside root key key' :
  valid_blob_key key = true → valid_blob_key key' = true →
  resolve root key = root ++ split (chr "/") key ∧
  (resolve root key = resolve root key' → key = key') ∧
  (∀ r, ResourceEntityRef_is_valid r = true → valid_blob_key (data_key r) = true ∧
     resolve root (data_key r) = root ++
       [lit "vm_stores"; rer_store_id r; rer_entity_type r; rer_entity_id r ++ lit ".json"]) ∧
  (∀ r r', ResourceEntityRef_is_valid r = true → ResourceEntityRef_is_valid r' = true →
     data_key r = data_key r' → r = r').
Proof.
  assert (∀ k, valid_blob_key k = true → resolve root k = root ++ split (chr "/") k) as Hres.
  { intros k Hk. unfold valid_blob_key in Hk. rewrite !andb_true_iff in Hk.
    destruct Hk as [_ Hseg]. by apply resolve_segments. }
  assert (∀ r, ResourceEntityRef_is_valid r = true → valid_blob_key (data_key r) = true) as Hdata.
  { intros r Hr. pose proof (data_key_segments r Hr) as Hsplit.
    unfold ResourceEntityRef_is_valid in Hr. cbn [forallb] in Hr.
    rewrite !andb_true_iff, !negb_true_iff in Hr.
    destruct Hr as ([[_ S1] V1] & [[_ S2] V2] & [[_ S3] V3] & _).
    pose proof (key_part _ S1 V1) as K1. pose proof (key_part _ S2 V2) as K2.
    pose proof (key_part _ S3 V3) as K3.
    assert (∀ part, valid_blob_key part = true →
      contains_char (chr "\") part || contains_char 0%N part = false) as Hbs.
    { intros part. unfold valid_blob_key. rewrite !andb_true_iff, !negb_true_iff. tauto. }
    pose proof (Hbs _ V1) as B1. pose proof (Hbs _ V2) as B2. pose proof (Hbs _ V3) as B3.
    apply orb_false_iff in B1 as [B1 B1'], B2 as [B2 B2'], B3 as [B3 B3'].
    unfold valid_blob_key. rewrite Hsplit. rewrite !andb_true_iff, !negb_true_iff.
    split_and!; [done|done| |].
    - unfold data_key. rewrite !contains_app, B1, B1', B2, B2', B3, B3'. done.
    - cbn [forallb]. rewrite K1, K2, (key_segment_json _ K3). done. }
  intros Hk Hk'. split_and!.
  - by apply Hres.
  - rewrite !Hres by done. intros E%app_inv_head.
    by rewrite <-(join_split (chr "/") key), E, join_split.
  - intros r Hr. split; [by apply Hdata|]. rewrite Hres by by apply Hdata.
    by rewrite data_key_segments.
  - intros r r' Hr Hr' E. pose proof (data_key_segments r Hr) as H1.
    rewrite E, (data_key_segments r' Hr') in H1. injection H1 as E1 E2 E3.
    apply app_inv_tail in E3. destruct r, r'; simpl in *. by subst.
Qed.

Lemma blob_keys_stay_inside_witness :
  resolve [lit "var"; lit "blobs"] (lit "a/b") = [lit "var"; lit "blobs"; lit "a"; lit "b"].
Proof.
  rewrite (proj1 (blob_keys_stay_inside [lit "var"; lit "blobs"] (lit "a/b") (lit "c")
    ltac:(vm_compute; reflexivity) ltac:(vm_compute; reflexivity))).
  vm_compute. reflexivity.
Defined.

(** The legacy identity does split ambiguously: two valid references share one. *)
Theorem legacy_id_collides :
  ∃ r r', ResourceEntityRef_is_valid r = true ∧ ResourceEntityRef_is_valid r' = true ∧ r ≠ r' ∧
    legacy_id r = legacy_id r'.
Proof.
  exists {| rer_store_id := lit "a:"; rer_entity_type := lit "b"; rer_entity_id := lit "c" |},
    {| rer_store_id := lit "a"; rer_entity_type := lit ":b"; rer_entity_id := lit "c" |}.
  vm_compute. split_and!; try done.
Qed.
