(* ===== verification/BTree.v ===== *)
(** [BTreeMap<String, V>]: the list of its members in key order.  [jget], [jinsert] and [jremove]
    are total on any member list; the maps that the operations build are [ordered]. *)

From S2P Require Import Prelude Text.

Open Scope Z_scope.

(** ** Operations *)

Fixpoint jget {V} (k : str) (m : list (str * V)) : option V :=
  match m with
  | [] => None
  | (k', v) :: m => if bool_decide (k = k') then Some v else jget k m
  end.

(** [BTreeMap::insert]: replaces the member, or places it in key order. *)
Fixpoint jinsert {V} (k : str) (v : V) (m : list (str * V)) : list (str * V) :=
  match m with
  | [] => [(k, v)]
  | (k', v') :: m' =>
      if bool_decide (k = k') then (k, v) :: m'
      else if str_leb k k' then (k, v) :: m
      else (k', v') :: jinsert k v m'
  end.

(** [BTreeMap::remove]. *)
Definition jremove {V} (k : str) (m : list (str * V)) : list (str * V) := filter (λ kv, kv.1 ≠ k) m.

(** ** Laws *)

Lemma jget_cons {V} k k' (v : V) m : jget k ((k', v) :: m) = if bool_decide (k = k') then Some v else jget k m.
Proof. done. Qed.
Lemma jget_jinsert {V} k k' (v : V) m :
  jget k (jinsert k' v m) = if bool_decide (k = k') then Some v else jget k m.
Proof.
  induction m as [|[k0 v0] m IH]; cbn [jinsert jget]; [done|].
  destruct (decide (k' = k0)) as [->|Hk].
  - rewrite bool_decide_eq_true_2 by done. cbn [jget]. by case_bool_decide.
  - rewrite (bool_decide_eq_false_2 (k' = k0)) by done.
    destruct (str_leb k' k0); cbn [jget]; [done|].
    rewrite IH. repeat case_bool_decide; congruence.
Qed.

Lemma jinsert_elem {V} k (v : V) m k' v' : (k', v') ∈ jinsert k v m → (k' = k ∧ v' = v) ∨ (k', v') ∈ m.
Proof.
  induction m as [|[k0 v0] m IH]; cbn [jinsert].
  - intros [= -> ->]%list_elem_of_singleton. by left.
  - case_bool_decide; [|destruct (str_leb k k0)]; rewrite ?elem_of_cons; naive_solver.
Qed.
Lemma jget_jremove {V} k k' (m : list (str * V)) :
  jget k (jremove k' m) = if bool_decide (k = k') then None else jget k m.
Proof.
  unfold jremove. induction m as [|[k0 v0] m IH]; cbn [jget]; [by case_bool_decide|].
  destruct (decide (k0 ≠ k')) as [H|H%dec_stable].
  - rewrite filter_cons_True by done. cbn [jget]. rewrite IH.
    repeat case_bool_decide; congruence.
  - subst. rewrite filter_cons_False by tauto. rewrite IH. repeat case_bool_decide; congruence.
Qed.

(** ** Ordered maps

    A map that the operations build is ordered by its keys, so no key repeats. *)

Lemma str_leb_trans s t u : str_leb s t = true → str_leb t u = true → str_leb s u = true.
Proof.
  revert t u. induction s as [|a s IH]; intros [|b t] [|c u]; cbn; try done.
  rewrite !orb_true_iff, !andb_true_iff, !N.ltb_lt, !N.eqb_eq.
  intros [?|[-> ?]] [?|[-> ?]]; [left; lia|by left|by left|right; eauto].
Qed.
Lemma str_leb_total s t : str_leb s t = false → str_leb t s = true.
Proof.
  revert t. induction s as [|a s IH]; intros [|b t]; cbn; try done.
  rewrite orb_false_iff, andb_false_iff, orb_true_iff, andb_true_iff, N.ltb_ge, N.ltb_lt, N.eqb_eq,
    N.eqb_neq.
  intros [? [?|?%IH]]; [left; lia|]. destruct (N.lt_ge_cases b a); [by left|right; split; [lia|done]].
Qed.
Lemma str_leb_antisym s t : str_leb s t = true → str_leb t s = true → s = t.
Proof.
  revert t. induction s as [|a s IH]; intros [|b t]; cbn; try done.
  rewrite !orb_true_iff, !andb_true_iff, !N.ltb_lt, !N.eqb_eq.
  intros [?|[-> ?]] [?|[? ?]]; try lia. f_equal. auto.
Qed.

Definition str_lt (s t : str) : Prop := str_leb s t = true ∧ s ≠ t.
Definition ordered {V} (m : list (str * V)) : Prop := StronglySorted str_lt m.*1.

Lemma ordered_NoDup {V} (m : list (str * V)) : ordered m → NoDup m.*1.
Proof.
  unfold ordered. induction 1 as [|k l _ IH Hk]; constructor; [|done].
  intros Hin. rewrite Forall_forall in Hk. by destruct (Hk _ Hin).
Qed.

Lemma jinsert_ordered {V} k (v : V) m : ordered m → ordered (jinsert k v m).
Proof.
  unfold ordered. induction m as [|[k0 v0] m IH]; cbn [jinsert fmap list_fmap fst].
  - repeat constructor.
  - intros [Hs Hf]%StronglySorted_inv. destruct (decide (k = k0)) as [->|Hk].
    + rewrite bool_decide_eq_true_2 by done. by constructor.
    + rewrite bool_decide_eq_false_2 by done. destruct (str_leb k k0) eqn:E; cbn [fmap list_fmap fst].
      * repeat constructor; try done. eapply Forall_impl; [done|]. intros x [Hx Hne].
        split; [by eapply str_leb_trans|]. intros <-. by apply Hne, str_leb_antisym.
      * constructor; [auto|]. apply Forall_forall. intros x Hx. apply str_leb_total in E.
        assert (x = k ∨ x ∈ m.*1) as [->|Hin]; [|done|by rewrite Forall_forall in Hf; auto].
        clear -Hx. induction m as [|[k1 v1] m IH]; cbn [jinsert fmap list_fmap fst] in Hx;
          [set_solver|].
        case_bool_decide; [set_solver|]. destruct (str_leb k k1); set_solver.
Qed.

Lemma ordered_filter {V} (P : str * V → Prop) `{∀ kv, Decision (P kv)} (m : list (str * V)) :
  ordered m → ordered (filter P m).
Proof.
  unfold ordered. induction m as [|[k0 v0] m IH]; [done|]. cbn [fmap list_fmap fst].
  intros [Hs Hf]%StronglySorted_inv. rewrite filter_cons. case_decide; [|auto].
  constructor; [auto|]. rewrite Forall_forall in *. intros x Hx. apply Hf.
  apply list_elem_of_fmap in Hx as (kv & -> & [_ Hin]%list_elem_of_filter). by apply list_elem_of_fmap_2.
Qed.
Lemma jremove_ordered {V} k (m : list (str * V)) : ordered m → ordered (jremove k m).
Proof. apply ordered_filter. Qed.

(** An ordered map is determined by what it answers. *)
Lemma jget_elem {V} k (v : V) m : ordered m → jget k m = Some v ↔ (k, v) ∈ m.
Proof.
  unfold ordered. induction m as [|[k0 v0] m IH]; cbn [jget fmap list_fmap fst].
  - intros _. split; [done|by intros ?%elem_of_nil].
  - intros [Hs Hf]%StronglySorted_inv. rewrite elem_of_cons. case_bool_decide as Hk; [subst|].
    + split; [intros [= <-]; by left|]. intros [[= <-]|Hin]; [done|].
      rewrite Forall_forall in Hf. destruct (Hf k0) as [_ []]; [|done].
      apply list_elem_of_fmap. by exists (k0, v).
    + rewrite IH by done. split; [by right|]. intros [[= ? ?]|?]; done.
Qed.
Lemma jget_None {V} k (m : list (str * V)) : jget k m = None ↔ k ∉ m.*1.
Proof.
  induction m as [|[k0 v0] m IH]; cbn [jget fmap list_fmap fst]; [split; [by intros _ ?%elem_of_nil|done]|].
  rewrite not_elem_of_cons. case_bool_decide; [naive_solver|]. rewrite IH. naive_solver.
Qed.
Lemma ordered_ext {V} (m1 m2 : list (str * V)) :
  ordered m1 → ordered m2 → (∀ k, jget k m1 = jget k m2) → m1 = m2.
Proof.
  intros H1 H2 He.
  assert (∀ kv, kv ∈ m1 ↔ kv ∈ m2) as Hin by (intros [k v]; by rewrite <-!jget_elem, He by done).
  clear He. revert m2 H2 Hin. unfold ordered in *.
  induction m1 as [|[k1 v1] m1 IH]; intros [|[k2 v2] m2] H2 Hin; [done| | |].
  - destruct (Hin (k2, v2)) as [_ H]. by apply elem_of_nil in H; [|left].
  - destruct (Hin (k1, v1)) as [H _]. by apply elem_of_nil in H; [|left].
  - cbn in H1, H2. apply StronglySorted_inv in H1 as [S1 F1], H2 as [S2 F2].
    rewrite Forall_forall in F1, F2.
    assert (k1 = k2) as <-.
    { destruct (decide (k1 = k2)) as [|Hne]; [done|].
      assert ((k1, v1) ∈ m2) as I1.
      { destruct (Hin (k1, v1)) as [H _]. specialize (H ltac:(left)). apply elem_of_cons in H as [[= ? ?]|?]; done. }
      assert ((k2, v2) ∈ m1) as I2.
      { destruct (Hin (k2, v2)) as [_ H]. specialize (H ltac:(left)). apply elem_of_cons in H as [[= ? ?]|?]; congruence. }
      apply (list_elem_of_fmap_2 fst) in I1, I2. cbn in I1, I2.
      destruct (F1 _ I2) as [L1 _], (F2 _ I1) as [L2 _]. by destruct Hne; apply str_leb_antisym. }
    assert (v1 = v2) as <-.
    { destruct (Hin (k1, v1)) as [H _]. specialize (H ltac:(left)).
      apply elem_of_cons in H as [[= ?]|I1]; [done|]. apply (list_elem_of_fmap_2 fst) in I1.
      by destruct (F2 _ I1). }
    f_equal. apply IH; [done|done|]. intros kv. split; intros Hkv.
    + destruct (Hin kv) as [H _]. specialize (H ltac:(by right)). apply elem_of_cons in H as [->|?]; [|done].
      apply (list_elem_of_fmap_2 fst) in Hkv. by destruct (F1 _ Hkv).
    + destruct (Hin kv) as [_ H]. specialize (H ltac:(by right)). apply elem_of_cons in H as [->|?]; [|done].
      apply (list_elem_of_fmap_2 fst) in Hkv. by destruct (F2 _ Hkv).
Qed.

(** Inserting the members of an ordered map, in whatever order, builds it. *)
Lemma jget_insert_all {V} (l t : list (str * V)) k :
  NoDup l.*1 → jget k (foldl (λ m kv, jinsert kv.1 kv.2 m) t l) = match jget k l with Some v => Some v | None => jget k t end.
Proof.
  revert t. induction l as [|[k0 v0] l IH]; intros t; cbn [foldl jget fmap list_fmap fst snd]; [done|].
  intros [Hni Hnd]%NoDup_cons. rewrite IH, jget_jinsert by done. case_bool_decide as Hk; [subst k0|done].
  destruct (jget k l) as [v|] eqn:Hg; [|done]. exfalso. apply Hni. clear -Hg.
  induction l as [|[k1 v1] l IH]; cbn in *; [done|]. case_bool_decide; subst; [left|right; auto].
Qed.
Lemma insert_all_ordered {V} (l t : list (str * V)) :
  ordered t → ordered (foldl (λ m kv, jinsert kv.1 kv.2 m) t l).
Proof. revert t. induction l as [|kv l IH]; intros t Ht; cbn [foldl]; [done|]. by apply IH, jinsert_ordered. Qed.
Lemma insert_all_perm {V} (l m : list (str * V)) :
  ordered m → l ≡ₚ m → foldl (λ m kv, jinsert kv.1 kv.2 m) [] l = m.
Proof.
  intros Hm Hp. assert (NoDup l.*1) as Hnd by (rewrite Hp; by apply ordered_NoDup).
  apply ordered_ext; [by apply insert_all_ordered; constructor|done|]. intros k.
  rewrite jget_insert_all by done. cbn [jget].
  destruct (jget k m) as [v|] eqn:E.
  - apply jget_elem in E; [|done]. rewrite <-Hp in E. clear -E Hnd.
    induction l as [|[k0 v0] l IH]; [by apply elem_of_nil in E|]. cbn [jget fmap list_fmap fst] in *.
    apply NoDup_cons in Hnd as [Hni Hnd]. apply elem_of_cons in E as [[= -> ->]|E].
    + by rewrite bool_decide_eq_true_2.
    + rewrite bool_decide_eq_false_2; [auto|]. intros ->. destruct Hni. by apply (list_elem_of_fmap_2 fst) in E.
  - destruct (jget k l) as [v|] eqn:El; [|done]. exfalso.
    assert ((k, v) ∈ m) as Hin.
    { rewrite <-Hp. clear -El. induction l as [|[k0 v0] l IH]; cbn [jget] in El; [done|].
      case_bool_decide; [simplify_eq; left|right; auto]. }
    apply jget_elem in Hin; [congruence|done].
Qed.
