(* ===== verification/Bytes.v ===== *)
(** Bytes as the codecs use them: [from_utf8] of the standard library, the inverse of
    [str::as_bytes] on scalar values, and big-endian integers.  Byte strings compare
    lexicographically, by [str_leb]. *)

From S2P Require Import Prelude Text.

Open Scope Z_scope.

Notation byte := N (only parsing).

(** A [Vec<u8>] holds bytes. *)
Definition is_bytes (l : list byte) : Prop := Forall (λ b, (b < 256)%N) l.
#[export] Instance is_bytes_dec l : Decision (is_bytes l). Proof. unfold is_bytes. apply _. Defined.

(** A [char] is a Unicode scalar value; a [str] is a sequence of them. *)
Definition is_scalar (c : char) : Prop := (c < 55296 ∨ 57344 ≤ c < 1114112)%N.
#[export] Instance is_scalar_dec c : Decision (is_scalar c). Proof. unfold is_scalar. apply _. Defined.
Definition is_text (s : str) : Prop := Forall is_scalar s.
#[export] Instance is_text_dec s : Decision (is_text s). Proof. unfold is_text. apply _. Defined.

(** ** [core::str::from_utf8]

    The well-formed sequences of the Unicode standard: the first byte fixes the width, and bounds
    the second byte so that no scalar value is overlong, a surrogate or too large. *)

Definition within (lo hi b : byte) : bool := ((lo <=? b) && (b <=? hi))%N.
Definition continuation (b : byte) : bool := within 128 191 b.
(** The second byte of a sequence of three that starts with [b0]. *)
Definition second_of_three (b0 b1 : byte) : bool :=
  within (if (b0 =? 224)%N then 160 else 128) (if (b0 =? 237)%N then 159 else 191) b1.
(** The second byte of a sequence of four that starts with [b0]. *)
Definition second_of_four (b0 b1 : byte) : bool :=
  within (if (b0 =? 240)%N then 144 else 128) (if (b0 =? 244)%N then 143 else 191) b1.

Fixpoint from_utf8 (l : list byte) : option str :=
  match l with
  | [] => Some []
  | b0 :: l =>
      if (b0 <? 128)%N then cons b0 <$> from_utf8 l
      else match l with
           | [] => None
           | b1 :: l =>
               if within 194 223 b0 then
                 if continuation b1 then cons ((b0 - 192) * 64 + (b1 - 128))%N <$> from_utf8 l else None
               else match l with
                    | [] => None
                    | b2 :: l =>
                        if within 224 239 b0 then
                          if second_of_three b0 b1 && continuation b2 then
                            cons ((b0 - 224) * 4096 + (b1 - 128) * 64 + (b2 - 128))%N <$> from_utf8 l
                          else None
                        else match l with
                             | [] => None
                             | b3 :: l =>
                                 if within 240 244 b0 && second_of_four b0 b1 && continuation b2 && continuation b3 then
                                   cons ((b0 - 240) * 262144 + (b1 - 128) * 4096 + (b2 - 128) * 64 + (b3 - 128))%N
                                     <$> from_utf8 l
                                 else None
                             end
                    end
           end
  end.

(** ** Big-endian integers: [to_be_bytes] and [from_be_bytes] *)

Fixpoint be_bytes (n : nat) (v : N) : list byte :=
  match n with
  | O => []
  | S n => (v / 256 ^ N.of_nat n mod 256)%N :: be_bytes n v
  end.
Definition from_be (l : list byte) : N := foldl (λ a b, a * 256 + b)%N 0%N l.

(** ** Laws *)

Ltac nsolve := unfold continuation, second_of_three, second_of_four, within, is_scalar in *; zify; lia.

Lemma within_true lo hi b : within lo hi b = true ↔ (lo ≤ b ≤ hi)%N.
Proof. unfold within. lia. Qed.

Lemma from_utf8_1 c l : (c < 128)%N → from_utf8 (c :: l) = cons c <$> from_utf8 l.
Proof. intros H. cbn [from_utf8]. by rewrite (proj2 (N.ltb_lt _ _) H). Qed.

Lemma n_div_mod (c d : N) : d ≠ 0%N → ∃ q r, (c / d = q ∧ c mod d = r ∧ c = d * q + r ∧ r < d)%N.
Proof. intros Hd. exists (c / d)%N, (c mod d)%N. repeat split; [by apply N.div_mod|by apply N.mod_lt]. Qed.

Lemma from_utf8_char c l : is_scalar c → from_utf8 (utf8_bytes c ++ l) = cons c <$> from_utf8 l.
Proof.
  intros Hc. unfold utf8_bytes.
  destruct (N.ltb_spec c 128); [by apply from_utf8_1|].
  destruct (N.ltb_spec c 2048).
  { destruct (n_div_mod c 64) as (q & r & -> & -> & Hq & Hr); [done|]. cbn [app from_utf8].
    replace (192 + q <? 128)%N with false by lia. replace (within 194 223 (192 + q)) with true by nsolve.
    replace (continuation (128 + r)) with true by nsolve. do 2 f_equal. lia. }
  destruct (n_div_mod c 64) as (q & r & Eq & -> & Hq & Hr); [done|].
  destruct (n_div_mod q 64) as (q2 & r2 & Eq2 & E2 & Hq2 & Hr2); [done|].
  destruct (N.ltb_spec c 65536).
  { replace (c / 4096)%N with q2 by (rewrite <-Eq2, <-Eq, N.Div0.div_div; done). rewrite Eq, E2. cbn [app from_utf8].
    replace (224 + q2 <? 128)%N with false by lia. replace (within 194 223 (224 + q2)) with false by nsolve.
    replace (within 224 239 (224 + q2)) with true by nsolve.
    assert (second_of_three (224 + q2) (128 + r2) = true) as ->.
    { unfold second_of_three, within. destruct (N.eqb_spec (224 + q2) 224), (N.eqb_spec (224 + q2) 237); nsolve. }
    replace (continuation (128 + r)) with true by nsolve. cbn [andb]. do 2 f_equal. lia. }
  destruct (n_div_mod q2 64) as (q3 & r3 & Eq3 & E3 & Hq3 & Hr3); [done|].
  replace (c / 262144)%N with q3 by (rewrite <-Eq3, <-Eq2, <-Eq, !N.Div0.div_div; done).
  replace (c / 4096)%N with q2 by (rewrite <-Eq2, <-Eq, N.Div0.div_div; done). rewrite Eq, E2, E3. cbn [app from_utf8].
  replace (240 + q3 <? 128)%N with false by lia. replace (within 194 223 (240 + q3)) with false by nsolve.
  replace (within 224 239 (240 + q3)) with false by nsolve. replace (within 240 244 (240 + q3)) with true by nsolve.
  assert (second_of_four (240 + q3) (128 + r3) = true) as ->.
  { unfold second_of_four, within. destruct (N.eqb_spec (240 + q3) 240), (N.eqb_spec (240 + q3) 244); nsolve. }
  replace (continuation (128 + r)) with true by nsolve. replace (continuation (128 + r2)) with true by nsolve.
  cbn [andb]. do 2 f_equal. lia.
Qed.

(** Text survives the trip through its bytes. *)
Lemma from_utf8_bytes s : is_text s → from_utf8 (bytes s) = Some s.
Proof.
  induction 1 as [|c s Hc Hs IH]; [done|]. unfold bytes in *. csimpl. by rewrite from_utf8_char, IH.
Qed.

Lemma utf8_bytes_bytes c : is_scalar c → is_bytes (utf8_bytes c).
Proof.
  intros Hc. unfold is_bytes, utf8_bytes, is_scalar in *.
  repeat case_match; unbool; repeat constructor; zify; Z.to_euclidean_division_equations; lia.
Qed.
Lemma bytes_bytes s : is_text s → is_bytes (bytes s).
Proof.
  induction 1 as [|c s Hc Hs IH]; [constructor|]. unfold bytes. csimpl.
  apply Forall_app. split; [by apply utf8_bytes_bytes|done].
Qed.
Lemma bytes_inj s t : is_text s → is_text t → bytes s = bytes t → s = t.
Proof. intros Hs%from_utf8_bytes Ht%from_utf8_bytes E. rewrite E in Hs. congruence. Qed.

(** What [from_utf8] accepts is a sequence of scalar values. *)
Lemma from_utf8_text l s : from_utf8 l = Some s → is_text s.
Proof.
  remember (length l) as n eqn:Hn. revert l s Hn.
  induction n as [n IH] using lt_wf_ind. intros [|b0 l] s -> H; [simplify_eq/=; constructor|].
  assert (∀ l' c, (length l' < length (b0 :: l))%nat → is_scalar c → cons c <$> from_utf8 l' = Some s → is_text s) as Hcons.
  { intros l' c Hl Hc. rewrite fmap_Some. intros (s' & Hs & ->). constructor; [done|]. by eapply IH. }
  clear IH. cbn [from_utf8] in H.
  destruct (N.ltb_spec b0 128); [eapply (Hcons l); [cbn; lia| |done]; nsolve|].
  destruct l as [|b1 l]; [done|]. destruct (within 194 223 b0) eqn:?.
  { destruct (continuation b1) eqn:?; [|done]. eapply (Hcons l); [cbn; lia| |done]. nsolve. }
  destruct l as [|b2 l]; [done|]. destruct (within 224 239 b0) eqn:?.
  { destruct (_ && _) eqn:?; [|done]. eapply (Hcons l); [cbn; lia| |done]. unbool.
    unfold second_of_three in *. destruct (N.eqb_spec b0 224), (N.eqb_spec b0 237); nsolve. }
  destruct l as [|b3 l]; [done|]. destruct (_ && _) eqn:?; [|done]. eapply (Hcons l); [cbn; lia| |done]. unbool.
  unfold second_of_four in *. destruct (N.eqb_spec b0 240), (N.eqb_spec b0 244); nsolve.
Qed.

Lemma length_be_bytes n v : length (be_bytes n v) = n.
Proof. induction n; cbn; congruence. Qed.
Lemma be_bytes_bytes n v : is_bytes (be_bytes n v).
Proof. unfold is_bytes. induction n; cbn; constructor; [by apply N.mod_lt|done]. Qed.

Lemma from_be_app l m : from_be (l ++ m) = (from_be l * 256 ^ N.of_nat (length m) + from_be m)%N.
Proof.
  unfold from_be. rewrite foldl_app. generalize (foldl (λ a b, a * 256 + b)%N 0%N l) as a. intros a.
  assert (∀ a b, foldl (λ a b, a * 256 + b)%N (a + b)%N m
            = (a * 256 ^ N.of_nat (length m) + foldl (λ a b, a * 256 + b) b m))%N as H.
  { clear. induction m as [|c m IH]; intros a b; cbn [foldl length]; [cbn; lia|].
    replace ((a + b) * 256 + c)%N with (a * 256 + (b * 256 + c))%N by lia.
    rewrite IH, Nat2N.inj_succ, N.pow_succ_r'. lia. }
  rewrite <-(N.add_0_r a) at 1. by rewrite H.
Qed.
Lemma from_be_be_bytes n v : from_be (be_bytes n v) = (v mod 256 ^ N.of_nat n)%N.
Proof.
  induction n as [|n IH]; cbn [be_bytes]; [by rewrite N.mod_1_r|].
  change (?b :: ?l) with ([b] ++ l). rewrite from_be_app, IH, length_be_bytes. cbn [from_be foldl].
  rewrite Nat2N.inj_succ, N.pow_succ_r'. unfold from_be. cbn [foldl].
  set (p := (256 ^ N.of_nat n)%N). assert (p ≠ 0%N) by (subst p; apply N.pow_nonzero; done).
  rewrite (N.mul_comm 256 p), N.Div0.mod_mul_r. lia.
Qed.
Lemma from_be_be_bytes_small n v : (v < 256 ^ N.of_nat n)%N → from_be (be_bytes n v) = v.
Proof. intros. rewrite from_be_be_bytes. by apply N.mod_small. Qed.
Lemma from_be_lt l : is_bytes l → (from_be l < 256 ^ N.of_nat (length l))%N.
Proof.
  induction l as [|b l IH] using rev_ind; intros H; [cbn; lia|].
  apply Forall_app in H as [Hl Hb]. apply Forall_cons in Hb as [Hb _]. specialize (IH Hl).
  rewrite from_be_app, length_app, Nat.add_comm. cbn [length Nat.add].
  rewrite (Nat2N.inj_succ (length l)), N.pow_succ_r'. change (from_be [b]) with (0 * 256 + b)%N.
  change (256 ^ N.of_nat 1)%N with 256%N. lia.
Qed.
