(* ===== verification/Floats.v ===== *)
(** Floating point as the capsule codec uses it ([aseman-contracts/src/capsule.rs]).  A float is its
    bit pattern ([to_bits]); the casts between [f64] and [f32] and the comparison [==] are those of
    the language (IEEE 754, rounding to nearest, ties to even), and the half-precision conversions
    are the source's own. *)

From S2P Require Import Prelude.

Open Scope N_scope.

Notation f64 := N (only parsing).
Notation f32 := N (only parsing).
Notation f16 := N (only parsing).

(** ** The language's floats *)

Definition f64_exponent (v : f64) : N := N.land (N.shiftr v 52) 2047.
Definition f64_mantissa (v : f64) : N := N.land v (N.ones 52).
(** [f64::is_finite]. *)
Definition is_finite (v : f64) : bool := negb (f64_exponent v =? 2047).
Definition is_nan (v : f64) : bool := (f64_exponent v =? 2047) && negb (f64_mantissa v =? 0).
Definition is_zero (v : f64) : bool := N.land v (N.ones 63) =? 0.
(** [==] of [f64]: no NaN equals anything, and the two zeros are equal. *)
Definition f64_eq (a b : f64) : bool :=
  negb (is_nan a) && negb (is_nan b) && ((a =? b) || (is_zero a && is_zero b)).

(** [s] divided by [2 ^ k], rounded to nearest, ties to even. *)
Definition round_shift (s k : N) : N :=
  let q := N.shiftr s k in
  let rem := N.land s (N.ones k) in
  let half := N.shiftl 1 (k - 1) in
  if (half <? rem) || ((rem =? half) && N.odd q) then q + 1 else q.

(** [v as f32].  The significand of a double has 29 more bits; a result whose exponent is below the
    normal range loses one more bit for each step, and a carry out of the significand is a carry
    into the exponent. *)
Definition f64_as_f32 (v : f64) : f32 :=
  let sign := N.shiftl (N.land (N.shiftr v 63) 1) 31 in
  let e := f64_exponent v in
  let m := f64_mantissa v in
  if e =? 2047 then
    if m =? 0 then N.lor sign 2139095040
    else N.lor sign (N.lor 2143289344 (N.shiftr m 29))
  else
    let significand := if e =? 0 then m else m + 2 ^ 52 in
    let magnitude :=
      if 897 <=? e then N.shiftl (e - 897) 23 + round_shift significand 29
      else round_shift significand (29 + (897 - N.max e 1)) in
    N.lor sign (N.min magnitude 2139095040).

(** [v as f64], which is exact. *)
Definition f32_as_f64 (v : f32) : f64 :=
  let sign := N.shiftl (N.land (N.shiftr v 31) 1) 63 in
  let e := N.land (N.shiftr v 23) 255 in
  let m := N.land v (N.ones 23) in
  if e =? 255 then
    if m =? 0 then N.lor sign (N.shiftl 2047 52)
    else N.lor sign (N.lor (N.shiftl 4095 51) (N.shiftl m 29))
  else if e =? 0 then
    if m =? 0 then sign
    else
      (* m * 2 ^ -149 = 1.x * 2 ^ (log2 m - 149) *)
      let k := N.log2 m in
      N.lor sign (N.lor (N.shiftl (k + 874) 52) (N.shiftl (m - 2 ^ k) (52 - k)))
  else N.lor sign (N.lor (N.shiftl (e + 896) 52) (N.shiftl m 29)).

(** ** The source's half-precision conversions *)

Definition f32_to_f16_bits (bits : f32) : f16 :=
  let sign := N.land (N.shiftr bits 16) 32768 in
  let exponent := (Z.of_N (N.land (N.shiftr bits 23) 255) - 127 + 15)%Z in
  let mantissa := N.land bits 8388607 in
  if (exponent <=? 0)%Z then
    if (exponent <? -10)%Z then sign
    else
      let mantissa := N.lor mantissa 8388608 in
      let shift := Z.to_N (14 - exponent) in
      let half := N.shiftr mantissa shift mod 65536 in
      let remainder := N.land mantissa (N.shiftl 1 shift - 1) in
      let halfway := N.shiftl 1 (shift - 1) in
      let half :=
        if (halfway <? remainder) || ((remainder =? halfway) && (N.land half 1 =? 1))
        then (half + 1) mod 65536 else half in
      N.lor sign half
  else if (31 <=? exponent)%Z then N.lor sign 31744
  else
    let half := N.lor (N.lor sign (N.shiftl (Z.to_N exponent) 10 mod 65536)) (N.shiftr mantissa 13 mod 65536) in
    let remainder := N.land mantissa 8191 in
    if (4096 <? remainder) || ((remainder =? 4096) && (N.land half 1 =? 1))
    then (half + 1) mod 65536 else half.

(** The loop that normalizes a subnormal: [while mantissa & 0x400 == 0].  A nonzero mantissa of ten
    bits needs at most ten turns ([normalize_stops]). *)
Fixpoint normalize (turns : nat) (mantissa : N) (exponent : Z) : N * Z :=
  match turns with
  | O => (mantissa, exponent)
  | S turns =>
      if N.land mantissa 1024 =? 0 then normalize turns (N.shiftl mantissa 1) (exponent - 1)
      else (mantissa, exponent)
  end.

Definition f16_bits_to_f32 (bits : f16) : f32 :=
  let sign := N.shiftl (N.land bits 32768) 16 in
  let exponent := N.land (N.shiftr bits 10) 31 in
  let mantissa := N.land bits 1023 in
  if exponent =? 0 then
    if mantissa =? 0 then sign
    else
      let '(mantissa, exponent) := normalize 10 mantissa (-14)%Z in
      let mantissa := N.land mantissa 1023 in
      N.lor (N.lor sign (N.shiftl (Z.to_N (exponent + 127)) 23)) (N.shiftl mantissa 13)
  else if exponent =? 31 then N.lor (N.lor sign 2139095040) (N.shiftl mantissa 13)
  else N.lor (N.lor sign (N.shiftl (Z.to_N (Z.of_N exponent - 15 + 127)) 23)) (N.shiftl mantissa 13).

Definition exact_f16 (value : f64) : option f16 :=
  if negb (f64_eq (f32_as_f64 (f64_as_f32 value)) value) then None
  else
    let bits := f32_to_f16_bits (f64_as_f32 value) in
    if f64_eq (f32_as_f64 (f16_bits_to_f32 bits)) value then Some bits else None.

(** ** Fields of bit patterns *)

Lemma lor_add a b k : b < 2 ^ k → N.lor (N.shiftl a k) b = a * 2 ^ k + b.
Proof.
  intros Hb. assert (N.land (N.shiftl a k) b = 0) as Hd.
  { apply N.bits_inj. intros i. rewrite N.land_spec, N.bits_0.
    destruct (N.lt_ge_cases i k) as [Hi|Hi]; [by rewrite N.shiftl_spec_low|].
    rewrite <-(N.mod_small b (2 ^ k)), N.mod_pow2_bits_high by done. apply andb_false_r. }
  rewrite <-N.lxor_lor, <-N.add_nocarry_lxor by done. by rewrite N.shiftl_mul_pow2.
Qed.
Lemma lor_lt a b k : a < 2 ^ k → b < 2 ^ k → N.lor a b < 2 ^ k.
Proof.
  intros Ha Hb. rewrite <-(N.mod_small a (2 ^ k)), <-(N.mod_small b (2 ^ k)) by done.
  rewrite <-!N.land_ones, <-N.land_lor_distr_l, N.land_ones. apply N.mod_lt. by apply N.pow_nonzero.
Qed.
Lemma land_le a b : N.land a b ≤ b.
Proof. apply N.ldiff_le, N.bits_inj. intros i. rewrite N.ldiff_spec, N.land_spec, N.bits_0. by destruct (N.testbit a i), (N.testbit b i). Qed.

Lemma is_zero_cases v : v < 2 ^ 64 → is_zero v = true → v = 0 ∨ v = 2 ^ 63.
Proof.
  unfold is_zero. rewrite N.eqb_eq, N.land_ones. intros Hv Hz.
  change (2 ^ 64) with 18446744073709551616 in *. change (2 ^ 63) with 9223372036854775808 in *.
  zify; Z.to_euclidean_division_equations; lia.
Qed.

Lemma f64_eq_cases a b : f64_eq a b = true → a = b ∨ (is_zero a = true ∧ is_zero b = true).
Proof. unfold f64_eq. intros H. unbool. destruct H as [_ [?%N.eqb_eq|?]]; unbool; auto. Qed.
Lemma f64_eq_refl a : is_finite a = true → f64_eq a a = true.
Proof. unfold f64_eq, is_nan, is_finite. intros ->%negb_true_iff. by rewrite N.eqb_refl. Qed.

(** ** Ranges *)

Lemma f64_as_f32_lt v : f64_as_f32 v < 2 ^ 32.
Proof.
  unfold f64_as_f32.
  assert (N.shiftl (N.land (N.shiftr v 63) 1) 31 < 2 ^ 32) as Hs.
  { pose proof (land_le (N.shiftr v 63) 1). rewrite N.shiftl_mul_pow2. change (2 ^ 31) with 2147483648. change (2 ^ 32) with 4294967296. lia. }
  assert (f64_mantissa v < 2 ^ 52) as Hm.
  { unfold f64_mantissa. rewrite N.land_ones. by apply N.mod_lt. }
  destruct (_ =? 2047).
  - destruct (_ =? 0); repeat apply lor_lt; try done.
    rewrite N.shiftr_div_pow2. apply N.lt_trans with (2 ^ 23); [|done]. by apply N.Div0.div_lt_upper_bound.
  - cbv zeta. apply lor_lt; [done|]. apply N.le_lt_trans with 2139095040; [apply N.le_min_r|done].
Qed.

Lemma f32_as_f64_lt v : f32_as_f64 v < 2 ^ 64.
Proof.
  unfold f32_as_f64.
  assert (N.land (N.shiftr v 31) 1 ≤ 1) as Hs by apply land_le.
  assert (N.land (N.shiftr v 23) 255 ≤ 255) as He by apply land_le.
  assert (N.land v (N.ones 23) < 2 ^ 23) as Hm by (rewrite N.land_ones; by apply N.mod_lt).
  revert Hs He Hm. generalize (N.land (N.shiftr v 31) 1), (N.land (N.shiftr v 23) 255), (N.land v (N.ones 23)).
  intros s e m Hs He Hm. rewrite !N.shiftl_mul_pow2.
  assert (s * 2 ^ 63 < 2 ^ 64) by (change (2 ^ 64) with (2 * 2 ^ 63); nia).
  assert (m * 2 ^ 29 < 2 ^ 64) by (apply N.lt_trans with (2 ^ 23 * 2 ^ 29); [by apply N.mul_lt_mono_pos_r|done]).
  assert ((e + 896) * 2 ^ 52 < 2 ^ 64) by (change (2 ^ 64) with (4096 * 2 ^ 52); nia).
  repeat case_match; repeat apply lor_lt; try done.
  - assert (N.log2 m < 23) by (apply N.log2_lt_pow2; unbool; lia). change (2 ^ 64) with (4096 * 2 ^ 52). nia.
  - assert (N.log2 m < 23) by (apply N.log2_lt_pow2; unbool; lia).
    assert (m < 2 ^ (N.succ (N.log2 m))) as Hl by (apply N.log2_spec; unbool; lia).
    rewrite N.pow_succ_r' in Hl. apply N.lt_trans with (2 ^ 52); [|done].
    replace 52 with (N.log2 m + (52 - N.log2 m)) at 2 by lia. rewrite N.pow_add_r.
    apply N.mul_lt_mono_pos_r; [|lia]. assert (2 ^ (52 - N.log2 m) ≠ 0) by (by apply N.pow_nonzero). lia.
Qed.

Lemma f32_to_f16_bits_lt v : f32_to_f16_bits v < 2 ^ 16.
Proof.
  unfold f32_to_f16_bits.
  assert (N.land (N.shiftr v 16) 32768 < 2 ^ 16) by (eapply N.le_lt_trans; [apply land_le|done]).
  repeat case_match; repeat apply lor_lt; try done; by apply N.mod_lt.
Qed.

(** ** Exact conversions *)

(** A finite pattern of the narrower format, as sign, exponent and fraction. *)
Lemma split_fields v w k :
  ∃ s e m, v = s * 2 ^ (w + k) + e * 2 ^ k + m ∧ e < 2 ^ w ∧ m < 2 ^ k
    ∧ N.shiftr v (w + k) = s ∧ N.land (N.shiftr v k) (N.ones w) = e ∧ N.land v (N.ones k) = m.
Proof.
  assert (2 ^ w ≠ 0) by (by apply N.pow_nonzero). assert (2 ^ k ≠ 0) by (by apply N.pow_nonzero).
  exists (v / 2 ^ (w + k)), ((v / 2 ^ k) mod 2 ^ w), (v mod 2 ^ k).
  rewrite !N.land_ones, !N.shiftr_div_pow2. repeat split; try by apply N.mod_lt.
  rewrite (N.add_comm w k), N.pow_add_r, <-N.Div0.div_div.
  rewrite (N.div_mod v (2 ^ k)) at 1 by done. rewrite (N.div_mod (v / 2 ^ k) (2 ^ w)) at 1 by done. ring.
Qed.

Lemma round_shift_exact m k : round_shift (m * 2 ^ k) k = m.
Proof.
  unfold round_shift. assert (2 ^ k ≠ 0) by (by apply N.pow_nonzero).
  rewrite N.land_ones, N.Div0.mod_mul, N.shiftr_div_pow2, N.div_mul by done.
  assert (N.shiftl 1 (k - 1) ≠ 0) by (rewrite N.shiftl_1_l; by apply N.pow_nonzero).
  replace (N.shiftl 1 (k - 1) <? 0) with false by lia. by replace (0 =? N.shiftl 1 (k - 1)) with false by lia.
Qed.

Lemma pack_fields s e m w k :
  e < 2 ^ w → m < 2 ^ k →
  N.lor (N.shiftl s (w + k)) (N.lor (N.shiftl e k) m) = s * 2 ^ (w + k) + e * 2 ^ k + m
  ∧ N.shiftr (s * 2 ^ (w + k) + e * 2 ^ k + m) (w + k) = s
  ∧ N.land (N.shiftr (s * 2 ^ (w + k) + e * 2 ^ k + m) k) (N.ones w) = e
  ∧ N.land (s * 2 ^ (w + k) + e * 2 ^ k + m) (N.ones k) = m.
Proof.
  intros He Hm. assert (e * 2 ^ k + m < 2 ^ (w + k)) as Hem.
  { rewrite N.pow_add_r. nia. }
  rewrite lor_add, lor_add by (rewrite ?lor_add; done). rewrite !N.land_ones, !N.shiftr_div_pow2. repeat split.
  - lia.
  - rewrite <-N.add_assoc. rewrite N.div_add_l, N.div_small by (done || by apply N.pow_nonzero). lia.
  - rewrite N.pow_add_r, (N.mul_comm (2 ^ w)), N.mul_assoc.
    replace (s * 2 ^ k * 2 ^ w + e * 2 ^ k + m) with ((s * 2 ^ w + e) * 2 ^ k + m) by ring.
    rewrite N.div_add_l, (N.div_small m) by (done || by apply N.pow_nonzero).
    rewrite N.add_0_r, N.add_comm, N.Div0.mod_add. by apply N.mod_small.
  - rewrite N.pow_add_r. replace (s * (2 ^ w * 2 ^ k) + e * 2 ^ k + m) with (m + (s * 2 ^ w + e) * 2 ^ k) by ring.
    rewrite N.Div0.mod_add. by apply N.mod_small.
Qed.

Lemma land_pow2 v k : N.land v (N.shiftl 1 k) = N.shiftl (N.land (N.shiftr v k) 1) k.
Proof.
  apply N.bits_inj. intros i. rewrite N.land_spec. destruct (N.lt_ge_cases i k) as [Hi|Hi].
  - rewrite !N.shiftl_spec_low by done. apply andb_false_r.
  - by rewrite !N.shiftl_spec_high', N.land_spec, N.shiftr_spec', N.sub_add by done.
Qed.
Lemma land_bit s : s < 2 → N.land s 1 = s.
Proof. intros. change 1 with (N.ones 1). rewrite N.land_ones. by apply N.mod_small. Qed.

(** The cast to single precision of a finite double, by its fields. *)
Lemma f64_as_f32_fields s e m :
  s < 2 → e < 2047 → m < 2 ^ 52 →
  f64_as_f32 (N.lor (N.shiftl s 63) (N.lor (N.shiftl e 52) m)) =
  N.lor (N.shiftl s 31)
    (N.min (let significand := if e =? 0 then m else m + 2 ^ 52 in
            if 897 <=? e then N.shiftl (e - 897) 23 + round_shift significand 29
            else round_shift significand (29 + (897 - N.max e 1))) 2139095040).
Proof.
  intros Hs He Hm. destruct (pack_fields s e m 11 52) as (E0 & E1 & E2 & E3); [by apply N.lt_trans with 2047|done|].
  change (11 + 52) with 63 in *. change (N.ones 11) with 2047 in *.
  unfold f64_as_f32, f64_exponent, f64_mantissa. rewrite E0, E1, E2, E3, land_bit by done.
  by rewrite (proj2 (N.eqb_neq e 2047)) by lia.
Qed.

(** The cast to single precision undoes the cast from it. *)
Lemma f32_exact v :
  v < 2 ^ 32 → N.land (N.shiftr v 23) 255 ≠ 255 → f64_as_f32 (f32_as_f64 v) = v.
Proof.
  intros Hv He. destruct (split_fields v 8 23) as (s & e & m & Hvs & Hel & Hm & Es & Ee & Em).
  change (8 + 23) with 31 in *. change (N.ones 8) with 255 in *. rewrite Ee in He.
  change (2 ^ 8) with 256 in Hel.
  assert (s < 2) as Hs.
  { change (2 ^ 32) with (2 * 2 ^ 31) in Hv. assert (2 ^ 31 ≠ 0) by done. nia. }
  unfold f32_as_f64. rewrite Es, land_bit, Ee, Em by done. clear Es Ee Em. rewrite (proj2 (N.eqb_neq e 255)) by done.
  assert (e * 2 ^ 23 + m < 2139095040) as Hmag by (change (2 ^ 23) with 8388608 in *; nia).
  assert (N.lor (N.shiftl s 31) (e * 2 ^ 23 + m) = v) as Hr.
  { rewrite lor_add; [lia|]. by apply N.lt_trans with 2139095040. }
  destruct (N.eqb_spec e 0) as [->|He0]; [destruct (N.eqb_spec m 0) as [->|Hm0]|].
  - assert (s = 0 ∨ s = 1) as [-> | ->] by lia; by rewrite <-Hr.
  - assert (N.log2 m < 23) as Hk by (apply N.log2_lt_pow2; lia).
    destruct (N.log2_spec m) as [Hl Hu]; [lia|]. rewrite N.pow_succ_r' in Hu.
    assert (2 ^ 52 = 2 ^ N.log2 m * 2 ^ (52 - N.log2 m)) as Hp by (rewrite <-N.pow_add_r; f_equal; lia).
    rewrite (N.shiftl_mul_pow2 (m - _)).
    assert (2 ^ (52 - N.log2 m) ≠ 0) by (by apply N.pow_nonzero).
    rewrite f64_as_f32_fields by (lia || (rewrite Hp; nia)).
    rewrite (proj2 (N.eqb_neq _ 0)), (proj2 (N.leb_gt 897 _)) by lia. cbv zeta.
    replace (29 + (897 - N.max (N.log2 m + 874) 1)) with (52 - N.log2 m) by lia.
    rewrite Hp, <-N.mul_add_distr_r, N.sub_add, round_shift_exact by done.
    by rewrite N.min_l by lia.
  - rewrite (N.shiftl_mul_pow2 m). change (2 ^ 23) with 8388608 in *.
    rewrite f64_as_f32_fields by (lia || (change (2 ^ 29) with 536870912; change (2 ^ 52) with 4503599627370496; lia)).
    rewrite (proj2 (N.eqb_neq _ 0)), (proj2 (N.leb_le 897 _)) by lia. cbv zeta.
    change (2 ^ 52) with (2 ^ 23 * 2 ^ 29). rewrite <-N.mul_add_distr_r, round_shift_exact, (N.shiftl_mul_pow2 (_ - 897)).
    change (2 ^ 23) with 8388608. replace (N.min _ _) with (e * 8388608 + m) by lia. done.
Qed.

(** Ten turns normalize every subnormal, so the loop of the source ends where the model's does. *)
Lemma normalize_stops m e : 0 < m < 1024 → N.land (normalize 10 m e).1 1024 ≠ 0.
Proof.
  intros Hm. assert (∀ n e', (normalize n m e').1 = (normalize n m e).1) as He.
  { intros n. generalize m. induction n as [|n IH]; intros m' e'; [done|]. cbn [normalize].
    destruct (_ =? 0); [|done]. rewrite IH. symmetry. apply IH. }
  enough (forallb (λ m, negb (N.land (normalize 10 m 0).1 1024 =? 0)) (N.of_nat <$> seq 1 1023) = true) as H.
  { rewrite forallb_forall in H. rewrite <-(He _ 0%Z). specialize (H m). unbool. rewrite N.eqb_neq in H.
    apply H, list_elem_of_In, list_elem_of_fmap. exists (N.to_nat m). rewrite elem_of_seq. lia. }
  vm_compute. done.
Qed.

(** Finite patterns of the narrower formats. *)
Definition f32_finite (v : f32) : Prop := v < 2 ^ 32 ∧ N.land (N.shiftr v 23) 255 ≠ 255.
Definition f16_finite (h : f16) : Prop := h < 2 ^ 16 ∧ N.land (N.shiftr h 10) 31 ≠ 31.

#[export] Instance f32_finite_dec v : Decision (f32_finite v). Proof. unfold f32_finite. apply _. Defined.
#[export] Instance f16_finite_dec h : Decision (f16_finite h). Proof. unfold f16_finite. apply _. Defined.

(** The conversion to half precision undoes the conversion from it. *)
Lemma f16_exact h : f16_finite h →
  f32_finite (f16_bits_to_f32 h) ∧ f32_to_f16_bits (f16_bits_to_f32 h) = h.
Proof.
  intros [Hh He]. destruct (split_fields h 5 10) as (s & e & m & Hhs & Hel & Hm & Es & Ee & Em).
  change (5 + 10) with 15 in *. change (N.ones 5) with 31 in *. change (N.ones 10) with 1023 in *. rewrite Ee in He.
  change (2 ^ 5) with 32 in Hel. change (2 ^ 10) with 1024 in *. change (2 ^ 15) with 32768 in *.
  assert (s < 2) as Hs by (change (2 ^ 16) with 65536 in Hh; lia).
  destruct (N.eqb_spec e 0) as [->|He0].
  { rewrite Hhs. clear -Hs Hm.
    assert (forallb (λ m, forallb (λ s, let h := s * 32768 + 0 * 1024 + m in
              bool_decide (f32_finite (f16_bits_to_f32 h)) && (f32_to_f16_bits (f16_bits_to_f32 h) =? h)) [0; 1])
              (N.of_nat <$> seq 0 1024) = true) as H by (vm_compute; done).
    rewrite forallb_forall in H. specialize (H m). rewrite forallb_forall in H.
    specialize (H ltac:(apply list_elem_of_In, list_elem_of_fmap; exists (N.to_nat m); rewrite elem_of_seq; lia) s).
    cbv zeta in H. rewrite andb_true_iff, bool_decide_eq_true, N.eqb_eq in H. apply H. cbn. lia. }
  assert (m * 2 ^ 13 < 2 ^ 23) as Hm23 by (change (2 ^ 13) with 8192; change (2 ^ 23) with 8388608; lia).
  destruct (pack_fields s (e + 112) (m * 2 ^ 13) 8 23) as (E0 & E1 & E2 & E3); [change (2 ^ 8) with 256; lia|done|].
  change (8 + 23) with 31 in *. change (N.ones 8) with 255 in *. change (N.ones 23) with 8388607 in *.
  assert (f16_bits_to_f32 h = s * 2 ^ 31 + (e + 112) * 2 ^ 23 + m * 2 ^ 13) as ->.
  { unfold f16_bits_to_f32. change 32768 with (N.shiftl 1 15). rewrite land_pow2, N.shiftl_shiftl, Es, Ee, Em, land_bit by done.
    rewrite (proj2 (N.eqb_neq e 0)), (proj2 (N.eqb_neq e 31)) by done.
    replace (Z.to_N (Z.of_N e - 15 + 127)) with (e + 112) by lia.
    by rewrite <-E0, N.lor_assoc, (N.shiftl_mul_pow2 m). }
  split; [split; [|rewrite E2; lia]|].
  { change (2 ^ 31) with 2147483648; change (2 ^ 23) with 8388608; change (2 ^ 13) with 8192; change (2 ^ 32) with 4294967296; lia. }
  unfold f32_to_f16_bits. change 32768 with (N.shiftl 1 15). rewrite land_pow2, N.shiftr_shiftr.
  change (16 + 15) with 31. rewrite E1, E2, E3, land_bit by done.
  replace (Z.of_N (e + 112) - 127 + 15)%Z with (Z.of_N e) by lia.
  rewrite (proj2 (Z.leb_gt _ 0)), (proj2 (Z.leb_gt 31 _)), N2Z.id by lia.
  change 8191 with (N.ones 13). rewrite N.land_ones, N.Div0.mod_mul, (N.shiftr_div_pow2 _ 13), N.div_mul by done.
  change ((4096 <? 0) || _) with false. cbv iota zeta. rewrite !N.mod_small by (rewrite ?N.shiftl_mul_pow2; lia).
  destruct (pack_fields s e m 5 10) as (F0 & _); [done|done|].
  by rewrite <-N.lor_assoc, Hhs.
Qed.

Lemma f32_as_f64_fields v : f32_finite v →
  ∃ s e m, s < 2 ∧ e < 2047 ∧ m < 2 ^ 52 ∧ f32_as_f64 v = N.lor (N.shiftl s 63) (N.lor (N.shiftl e 52) m).
Proof.
  intros [_ He]. destruct (split_fields v 8 23) as (_ & e & m & _ & Hel & Hm & _ & Ee & Em).
  change (N.ones 8) with 255 in *. rewrite Ee in He. change (2 ^ 8) with 256 in Hel.
  assert (N.land (N.shiftr v 31) 1 < 2) as Hs by (pose proof (land_le (N.shiftr v 31) 1); lia).
  unfold f32_as_f64. rewrite Ee, Em. revert Hs. generalize (N.land (N.shiftr v 31) 1). intros s Hs.
  rewrite (proj2 (N.eqb_neq e 255)) by done.
  destruct (N.eqb_spec e 0) as [->|He0]; [destruct (N.eqb_spec m 0) as [->|Hm0]|].
  - exists s, 0, 0. by rewrite N.lor_0_r.
  - assert (N.log2 m < 23) as Hk by (apply N.log2_lt_pow2; lia).
    destruct (N.log2_spec m) as [Hl Hu]; [lia|]. rewrite N.pow_succ_r' in Hu.
    eexists s, _, _. repeat split; [done| |]; [lia|]. rewrite N.shiftl_mul_pow2.
    replace 52 with (N.log2 m + (52 - N.log2 m)) at 2 by lia. rewrite N.pow_add_r.
    assert (2 ^ (52 - N.log2 m) ≠ 0) by (by apply N.pow_nonzero). nia.
  - eexists s, _, _. repeat split; [done|lia|]. rewrite N.shiftl_mul_pow2.
    change (2 ^ 23) with 8388608 in *. change (2 ^ 29) with 536870912. change (2 ^ 52) with 4503599627370496. lia.
Qed.
Lemma f32_as_f64_finite v : f32_finite v → is_finite (f32_as_f64 v) = true.
Proof.
  intros (s & e & m & Hs & He & Hm & ->)%f32_as_f64_fields.
  destruct (pack_fields s e m 11 52) as (E0 & _ & E2 & _); [by apply N.lt_trans with 2047|done|].
  change (11 + 52) with 63 in *. change (N.ones 11) with 2047 in *.
  unfold is_finite, f64_exponent. rewrite E0, E2. lia.
Qed.

(** ** What the codec needs *)

(** [exact_f16] answers a half that converts back to the very same double, its sign included. *)
Lemma exact_f16_sound v h :
  v < 2 ^ 64 → exact_f16 v = Some h → h < 2 ^ 16 ∧ f32_as_f64 (f16_bits_to_f32 h) = v.
Proof.
  unfold exact_f16. intros Hv H. destruct (negb _); [done|].
  destruct (f64_eq (f32_as_f64 (f16_bits_to_f32 _)) v) eqn:E; [|done]. injection H as <-.
  split; [apply f32_to_f16_bits_lt|]. apply f64_eq_cases in E as [?|[_ Hz]]; [done|].
  apply is_zero_cases in Hz as [-> | ->]; [vm_compute; done..|done].
Qed.
(** It answers one for every double that a finite half converts to. *)
Lemma exact_f16_complete h : f16_finite h → exact_f16 (f32_as_f64 (f16_bits_to_f32 h)) = Some h.
Proof.
  intros [Hf Hh]%f16_exact. unfold exact_f16. pose proof (f32_as_f64_finite _ Hf) as Hfin.
  rewrite f32_exact, f64_eq_refl by (done || apply Hf). cbn [negb]. by rewrite Hh, f64_eq_refl.
Qed.
(** Single precision loses nothing where the comparison of [encode_float] says so. *)
Lemma f32_test_sound v :
  v < 2 ^ 64 → exact_f16 v = None → f64_eq (f32_as_f64 (f64_as_f32 v)) v = true → f32_as_f64 (f64_as_f32 v) = v.
Proof.
  intros Hv Hn [?|[_ Hz]]%f64_eq_cases; [done|].
  apply is_zero_cases in Hz as [-> | ->]; [by vm_compute in Hn..|done].
Qed.

(** ** Integers, order, and odd multiples of powers of two *)

(** [z as f64] of an integer: exact up to 53 bits, and rounded to nearest beyond. *)
Definition int_as_f64 (z : Z) : f64 :=
  let sign := if (z <? 0)%Z then 2 ^ 63 else 0 in
  let a := Z.abs_N z in
  let k := N.log2 a in
  if a =? 0 then 0
  else if k <=? 52 then sign + (N.shiftl (k + 1023) 52 + (N.shiftl a (52 - k) - 2 ^ 52))
  else sign + (N.shiftl (k + 1022) 52 + round_shift a (k - 52)).

(** The position of a number in the order of the numbers; the two zeros share one. *)
Definition f64_rank (v : f64) : Z :=
  let magnitude := Z.of_N (N.land v (N.ones 63)) in
  if N.testbit v 63 then (- magnitude)%Z else magnitude.
(** [f64::partial_cmp]. *)
Definition f64_partial_cmp (a b : f64) : option comparison :=
  if is_nan a || is_nan b then None else Some (Z.compare (f64_rank a) (f64_rank b)).

(** A finite double as [m * 2 ^ e] with [m] odd, or zero. *)
Definition f64_dyadic (v : f64) : Z * Z :=
  let e := f64_exponent v in
  let significand := Z.of_N (if e =? 0 then f64_mantissa v else f64_mantissa v + 2 ^ 52) in
  let twos := Z.log2 (Z.land significand (- significand)) in
  let m := Z.shiftr significand twos in
  if (significand =? 0)%Z then (0, 0)%Z
  else ((if N.testbit v 63 then - m else m), Z.of_N (N.max e 1) - 1075 + twos)%Z.
(** The double [m * 2 ^ e], for a pair that is one. *)
Definition f64_of_dyadic (m e : Z) : f64 :=
  let sign := if (m <? 0)%Z then 2 ^ 63 else 0 in
  let a := Z.abs_N m in
  let k := N.log2 a in
  if a =? 0 then 0
  else if (-1022 <=? Z.of_N k + e)%Z
  then sign + (N.shiftl (Z.to_N (Z.of_N k + e + 1023)) 52 + (N.shiftl a (52 - k) - 2 ^ 52))
  else sign + N.shiftl a (Z.to_N (e + 1074)).
(** The pair is the normal form of a double. *)
Definition is_double (m e : Z) : Prop := f64_dyadic (f64_of_dyadic m e) = (m, e) ∧ is_finite (f64_of_dyadic m e) = true
  ∧ f64_of_dyadic m e < 2 ^ 64.
#[export] Instance is_double_dec m e : Decision (is_double m e). Proof. unfold is_double. apply _. Defined.
