(* ===== verification/Json.v ===== *)
(** JSON documents as the finance family and the capsule documents use them: the values of
    [serde_json] (its default map, a [BTreeMap], so members are in key order), the accessors the
    code calls on them, and the document operations of [crates/aseman-contracts/src/documents.rs].

    A number is what [serde_json::Number] holds: an unsigned or a negative integer, or a finite
    [f64].  A finite [f64] is [m * 2 ^ e] with [m] odd, or zero, so equal doubles are equal
    values.  A map is the list of its members in key order; [jget] and [jinsert] are total on any
    list, and keep the order of an ordered one. *)

From S2P Require Import Prelude Text BTree.

Open Scope Z_scope.

(** ** Values *)

Inductive number :=
| PosInt (n : u64)
| NegInt (n : i64)
| Float (m e : Z).
#[export] Instance number_eq_dec : EqDecision number.
Proof. solve_decision. Defined.

Inductive value :=
| Null
| Bool (b : bool)
| Number (n : number)
| String_ (s : str)
| Array (items : list value)
| Object (members : list (str * value)).

Notation Map := (list (str * value)).

(** Induction through the items and the members. *)
Section value_induction.
Variables (P : value → Prop).
Hypotheses (Hnull : P Null) (Hbool : ∀ b, P (Bool b)) (Hnumber : ∀ n, P (Number n))
  (Hstring : ∀ s, P (String_ s)) (Harray : ∀ l, Forall P l → P (Array l))
  (Hobject : ∀ m, Forall (λ kv, P kv.2) m → P (Object m)).

Fixpoint value_induction (v : value) : P v :=
  match v with
  | Null => Hnull
  | Bool b => Hbool b
  | Number n => Hnumber n
  | String_ s => Hstring s
  | Array l =>
      Harray l ((fix go l : Forall P l :=
                   match l with
                   | [] => @List.Forall_nil _ _
                   | v :: l => @List.Forall_cons _ _ v l (value_induction v) (go l)
                   end) l)
  | Object m =>
      Hobject m ((fix go m : Forall (λ kv : str * value, P kv.2) m :=
                    match m with
                    | [] => @List.Forall_nil _ _
                    | kv :: m => @List.Forall_cons _ _ kv m (value_induction kv.2) (go m)
                    end) m)
  end.
End value_induction.

(** Equality of values ([PartialEq for Value]), as a decision procedure. *)
#[export] Instance value_eq_dec : EqDecision value.
Proof.
  unfold EqDecision, Decision.
  fix IH 1. intros v w.
  pose proof (λ l k : list value, @list_eq_dec value IH l k) as Hl.
  pose proof (λ m k : Map, @list_eq_dec (str * value) (@prod_eq_dec str _ value IH) m k) as Hm.
  destruct v, w; try (right; discriminate).
  - left. reflexivity.
  - destruct (decide (b = b0)) as [->|]; [left; reflexivity | right; congruence].
  - destruct (decide (n = n0)) as [->|]; [left; reflexivity | right; congruence].
  - destruct (decide (s = s0)) as [->|]; [left; reflexivity | right; congruence].
  - destruct (Hl items items0) as [->|]; [left; reflexivity | right; congruence].
  - destruct (Hm members members0) as [->|]; [left; reflexivity | right; congruence].
Defined.

(** [json!(n)] of an [i64]. *)
Definition jint (z : i64) : value :=
  Number (if 0 <=? z then PosInt z else NegInt z).

Definition jtext (s : str) : value := String_ s.

(** The map of a [json!] object literal. *)
Definition jobject (members : Map) : Map := foldl (λ m kv, jinsert kv.1 kv.2 m) [] members.

(** ** Accessors *)

Definition as_str (v : value) : option str := match v with String_ s => Some s | _ => None end.
Definition as_bool (v : value) : option bool := match v with Bool b => Some b | _ => None end.
Definition as_array (v : value) : option (list value) :=
  match v with Array l => Some l | _ => None end.
Definition as_object (v : value) : option Map := match v with Object m => Some m | _ => None end.

(** [Value::get] with a member name. *)
Definition member (k : str) (v : value) : option value := as_object v ≫= jget k.

(** [Number::as_i64] and [Value::as_i64]. *)
Definition number_as_i64 (n : number) : option i64 :=
  match n with
  | PosInt n => if n <=? i64_max then Some n else None
  | NegInt n => Some n
  | Float _ _ => None
  end.
Definition value_as_i64 (v : value) : option i64 :=
  match v with Number n => number_as_i64 n | _ => None end.

(** [number.as_f64().map(|f| f as i64)]: the cast drops the fraction and saturates; a [u64] above
    [i64::MAX] becomes a double of at least [2^63]. *)
Definition number_f64_as_i64 (n : number) : i64 :=
  match n with
  | PosInt n => saturate i64_min i64_max n
  | NegInt n => n
  | Float m e => saturate i64_min i64_max (if 0 <=? e then m * 2 ^ e else Z.quot m (2 ^ (- e)))
  end.

(** ** Documents *)

(** What a member becomes when [incoming] is merged over [existing]: objects merge member by
    member, and any other value replaces what was there. *)
Fixpoint merge_member (existing : option value) (incoming : value) : value :=
  match existing, incoming with
  | Some (Object target), Object source =>
      Object ((fix go (source target : Map) : Map :=
                 match source with
                 | [] => target
                 | (k, v) :: source => go source (jinsert k (merge_member (jget k target) v) target)
                 end) source target)
  | _, _ => incoming
  end.

Definition merge_objects (target source : Map) : Map :=
  foldl (λ target kv, jinsert kv.1 (merge_member (jget kv.1 target) kv.2) target) target source.

(** The walk of [document_object_at] down the members of a dotted path. *)
Fixpoint object_down (members : list str) (document : Map) : option Map :=
  match members with
  | [] => Some document
  | k :: members => jget k document ≫= λ v, as_object v ≫= object_down members
  end.

Definition document_object_at (root_path : str) (document : Map) (path : str) : option Map :=
  if bool_decide (path = root_path) then Some document
  else
    strip_prefix root_path path ≫= λ rest, strip_prefix (lit ".") rest ≫= λ rest,
    object_down (split (chr ".") rest) document.

(** ** Laws *)

Lemma jget_merge_objects k target source :
  NoDup source.*1 →
  jget k (merge_objects target source) =
  match jget k source with
  | Some v => Some (merge_member (jget k target) v)
  | None => jget k target
  end.
Proof.
  unfold merge_objects. revert target.
  induction source as [|[k0 v0] source IH]; intros target; cbn; [done|].
  intros [Hni Hnd]%NoDup_cons. rewrite IH by done. rewrite jget_jinsert.
  case_bool_decide as Hk; [subst k0|done].
  destruct (jget k source) as [v|] eqn:Hg; [|done].
  exfalso. apply Hni. clear -Hg. induction source as [|[k1 v1] source IH]; cbn in *; [done|].
  case_bool_decide; subst; [left|right; auto].
Qed.

Lemma merge_objects_ordered t m : ordered t → ordered (merge_objects t m).
Proof.
  unfold merge_objects. revert t. induction m as [|kv m IH]; intros t Ht; cbn [foldl]; [done|].
  apply IH. by apply jinsert_ordered.
Qed.
Lemma jobject_ordered m : ordered (jobject m).
Proof.
  unfold jobject. assert (ordered (@nil (str * value))) as H0 by constructor. revert H0. generalize (@nil (str * value)).
  induction m as [|kv m IH]; intros t Ht; cbn [foldl]; [done|]. apply IH. by apply jinsert_ordered.
Qed.

(** The integers the code writes are read back. *)
Lemma value_as_i64_int z : in_i64 z → value_as_i64 (jint z) = Some z.
Proof.
  intros ?. unfold jint, value_as_i64, number_as_i64.
  destruct (Z.leb_spec 0 z); [|done]. destruct (Z.leb_spec z i64_max); [done|]. ilia.
Qed.

#[global] Arguments lit : simpl never.
#[global] Arguments jget : simpl never.
#[global] Arguments jinsert : simpl never.
#[global] Arguments jobject : simpl never.
#[global] Arguments merge_objects : simpl never.
