(* ===== verification/Capsule.v ===== *)
(** Capsule values and their deterministic CBOR ([aseman-contracts/src/capsule.rs]): what may be
    encoded, the encoder, the decoder, and that they are inverse to each other.

    A [Vec<u8>] is a list of bytes, a [String] its scalar values, an [f64] its bits, and a
    [BTreeMap] its members in key order.  The decoder's state is the input from its offset on:
    the code reads its buffer and its offset only through [get(offset..end)] and the number of
    bytes that are left. *)

From S2P Require Import Prelude Text BTree Bytes Floats.

Open Scope Z_scope.

Definition ENCODING_VERSION : u16 := 1.
Definition DIGEST_ALGORITHM : str := lit "sha2-256".
Definition MAX_QUERY_LIMIT : u32 := 10000.
Definition MAX_QUERY_DEPTH : usize := 16.
Definition MAX_CAPSULE_BYTES : usize := 64 * 1024 * 1024.
Definition MAX_VALUE_DEPTH : usize := 64.
Definition MAX_COLLECTION_ITEMS : usize := 1000000.

Inductive CapsuleError :=
| Invalid (message : str)
| UnsupportedEncoding (version : u16)
| UnsupportedDigest (algorithm : str)
| NonCanonical (message : str)
| Truncated.
#[export] Instance CapsuleError_eq_dec : EqDecision CapsuleError. Proof. solve_decision. Defined.

Notation CapsuleResult A := (result A CapsuleError).

Definition invalid (message : str) : CapsuleError := Invalid message.

Inductive CapsuleValue :=
| CNull
| CBool (b : bool)
| CInteger (z : i64)
| CFloat (bits : f64)
| CBytes (l : list byte)
| CText (s : str)
| CArray (values : list CapsuleValue)
| CObject (values : list (str * CapsuleValue)).

(** Induction that reaches the members of arrays and objects. *)
Section value_rect.
Context (P : CapsuleValue → Prop).
Hypothesis (Hnull : P CNull) (Hbool : ∀ b, P (CBool b)) (Hint : ∀ z, P (CInteger z))
  (Hfloat : ∀ v, P (CFloat v)) (Hbytes : ∀ l, P (CBytes l)) (Htext : ∀ s, P (CText s))
  (Harray : ∀ values, Forall P values → P (CArray values))
  (Hobject : ∀ values, Forall (λ kv, P kv.2) values → P (CObject values)).
Fixpoint CapsuleValue_induction (v : CapsuleValue) : P v :=
  match v with
  | CNull => Hnull
  | CBool b => Hbool b
  | CInteger z => Hint z
  | CFloat b => Hfloat b
  | CBytes l => Hbytes l
  | CText s => Htext s
  | CArray values =>
      Harray values ((fix go l : Forall P l :=
        match l with [] => Forall_nil_2 P | v :: l => Forall_cons_2 P v l (CapsuleValue_induction v) (go l) end) values)
  | CObject values =>
      Hobject values ((fix go (l : list (str * CapsuleValue)) : Forall (λ kv, P kv.2) l :=
        match l with
        | [] => Forall_nil_2 _
        | kv :: l => Forall_cons_2 _ kv l (CapsuleValue_induction kv.2) (go l)
        end) values)
  end.
End value_rect.

(** ** Loops that stop at the first error *)

(** [for x in l { f(x)? }]. *)
Definition try_each {A E} (f : A → result unit E) : list A → result unit E :=
  fix go l := match l with [] => Ok tt | x :: l => let? _ := f x in go l end.

(** ** Validation *)

Fixpoint validate_value_at (value : CapsuleValue) (depth : usize) : CapsuleResult unit :=
  if MAX_VALUE_DEPTH <? depth then Err (invalid (lit "capsule value nesting exceeds the limit"))
  else match value with
  | CNull | CBool _ | CInteger _ | CBytes _ | CText _ => Ok tt
  | CFloat v => if is_finite v then Ok tt else Err (invalid (lit "non-finite floats are forbidden"))
  | CArray values =>
      if MAX_COLLECTION_ITEMS <? Z.of_nat (length values)
      then Err (invalid (lit "capsule array exceeds the item limit"))
      else try_each (λ value, validate_value_at value (depth + 1)) values
  | CObject values =>
      if MAX_COLLECTION_ITEMS <? Z.of_nat (length values)
      then Err (invalid (lit "capsule object exceeds the item limit"))
      else try_each (λ '(key, value),
             if is_empty key then Err (invalid (lit "object keys cannot be empty"))
             else validate_value_at value (depth + 1)) values
  end.

(** [validate_value(None)] is [Ok]: an absent body is valid. *)
Definition validate_value (value : option CapsuleValue) : CapsuleResult unit :=
  match value with None => Ok tt | Some value => validate_value_at value 0 end.

(** ** Encoding *)

Definition encode_head (major : u8) (value : N) : list byte :=
  let prefix := N.shiftl (Z.to_N major) 5 in
  if (value <=? 23)%N then [N.lor prefix (value mod 256)]
  else if (value <=? 255)%N then [N.lor prefix 24; value mod 256]%N
  else if (value <=? 65535)%N then N.lor prefix 25 :: be_bytes 2 (value mod 2 ^ 16)
  else if (value <=? 4294967295)%N then N.lor prefix 26 :: be_bytes 4 (value mod 2 ^ 32)
  else N.lor prefix 27 :: be_bytes 8 value.

Definition encode_float (value : f64) : CapsuleResult (list byte) :=
  if negb (is_finite value) then Err (invalid (lit "non-finite floats are forbidden"))
  else Ok match exact_f16 value with
          | Some bits => 249%N :: be_bytes 2 bits
          | None =>
              if f64_eq (f32_as_f64 (f64_as_f32 value)) value
              then 250%N :: be_bytes 4 (f64_as_f32 value)
              else 251%N :: be_bytes 8 value
          end.

Definition encode_text (s : str) : list byte := encode_head 3 (Z.to_N (len s)) ++ bytes s.

(** [entries.sort_by]: by the encoded key.  The keys of a map differ, so the sort is determined. *)
Definition entry_le {A} (a b : list byte * A) : Prop := str_leb a.1 b.1 = true.
#[export] Instance entry_le_dec {A} : RelDecision (@entry_le A).
Proof. intros a b. unfold entry_le. apply _. Defined.

(** The concatenation of what a loop writes. *)
Fixpoint emit {E} (l : list (result (list byte) E)) : result (list byte) E :=
  match l with
  | [] => Ok []
  | r :: l => let? e := r in let? rest := emit l in Ok (e ++ rest)
  end.

(** The bytes that [encode_into] appends.  An object's members are encoded before they are sorted:
    the only error, that of a float that is not finite, is the same whichever member has it. *)
Fixpoint encode_into (value : CapsuleValue) : CapsuleResult (list byte) :=
  match value with
  | CNull => Ok [246]%N
  | CBool false => Ok [244]%N
  | CBool true => Ok [245]%N
  | CInteger value =>
      if 0 <=? value then Ok (encode_head 0 (Z.to_N value)) else Ok (encode_head 1 (Z.to_N (-1 - value)))
  | CFloat value => encode_float value
  | CBytes value => Ok (encode_head 2 (N.of_nat (length value)) ++ value)
  | CText value => Ok (encode_text value)
  | CArray values =>
      let? items := emit (encode_into <$> values) in
      Ok (encode_head 4 (N.of_nat (length values)) ++ items)
  | CObject values =>
      let entries := (λ '(key, value), (encode_text key, encode_into value)) <$> values in
      let entries := merge_sort entry_le entries in
      let? items := emit ((λ '(key, value), let? e := value in Ok (key ++ e)) <$> entries) in
      Ok (encode_head 5 (N.of_nat (length entries)) ++ items)
  end.

Definition encode_value (value : CapsuleValue) : CapsuleResult (list byte) :=
  let? _ := validate_value (Some value) in
  encode_into value.

(** ** Decoding *)

Module Decoder.

Definition take (length : N) (input : list byte) : CapsuleResult (list byte * list byte) :=
  if (length <=? N.of_nat (List.length input))%N
  then Ok (list.take (N.to_nat length) input, drop (N.to_nat length) input)
  else Err Truncated.

Definition byte_ (input : list byte) : CapsuleResult (byte * list byte) :=
  let? (value, input) := take 1 input in
  match value with b :: _ => Ok (b, input) | [] => Err Truncated end.

(** [u16], [u32] and [u64]: big-endian integers of [width] bytes. *)
Definition be (width : N) (input : list byte) : CapsuleResult (N * list byte) :=
  let? (value, input) := take width input in Ok (from_be value, input).

Definition length_ (additional : N) (input : list byte) : CapsuleResult (N * list byte) :=
  if (additional <=? 23)%N then Ok (additional, input)
  else if (additional =? 24)%N then byte_ input
  else if (additional =? 25)%N then be 2 input
  else if (additional =? 26)%N then be 4 input
  else if (additional =? 27)%N then be 8 input
  else Err (NonCanonical (lit "indefinite lengths are forbidden")).

(** A [usize] is 64 bits wide, so the conversion does not fail. *)
Definition collection_length (additional : N) (input : list byte) : CapsuleResult (nat * list byte) :=
  let? (length, input) := length_ additional input in
  if (Z.to_N MAX_COLLECTION_ITEMS <? length)%N || (N.of_nat (List.length input) <? length)%N
  then Err (NonCanonical (lit "collection exceeds the item or input bound"))
  else Ok (N.to_nat length, input).

(** [for _ in 0..length { values.push(value()?) }]. *)
Definition values_loop (value : list byte → CapsuleResult (CapsuleValue * list byte)) :
    nat → list byte → CapsuleResult (list CapsuleValue * list byte) :=
  fix go length input :=
    match length with
    | O => Ok ([], input)
    | S length =>
        let? (v, input) := value input in
        let? (values, input) := go length input in
        Ok (v :: values, input)
    end.

(** The loop over the members of an object, with the map built so far. *)
Definition members_loop (value : list byte → CapsuleResult (CapsuleValue * list byte)) :
    nat → list (str * CapsuleValue) → list byte → CapsuleResult (list (str * CapsuleValue) * list byte) :=
  fix go length values input :=
    match length with
    | O => Ok (values, input)
    | S length =>
        let? (key, input) := value input in
        match key with
        | CText key =>
            let? (v, input) := value input in
            if is_some (jget key values) then Err (NonCanonical (lit "duplicate map key"))
            else go length (jinsert key v values) input
        | _ => Err (invalid (lit "capsule map keys must be text"))
        end
    end.

(** [value(depth)], with [levels] the number of depths left: [depth] is [65 - levels], so that no
    level is left exactly where [depth > MAX_VALUE_DEPTH]. *)
Fixpoint value (levels : nat) (input : list byte) : CapsuleResult (CapsuleValue * list byte) :=
  match levels with
  | O => Err (NonCanonical (lit "capsule nesting exceeds the limit"))
  | S levels =>
      let? (initial, input) := byte_ input in
      let major := N.shiftr initial 5 in
      let additional := N.land initial 31 in
      match major with
      | 0%N =>
          let? (v, input) := length_ additional input in
          let? v := ok_or (i64_try_from (Z.of_N v)) (invalid (lit "integer overflow")) in
          Ok (CInteger v, input)
      | 1%N =>
          let? (v, input) := length_ additional input in
          let? v := ok_or (i64_try_from (-1 - Z.of_N v)) (invalid (lit "integer overflow")) in
          Ok (CInteger v, input)
      | 2%N =>
          let? (length, input) := length_ additional input in
          let? (v, input) := take length input in
          Ok (CBytes v, input)
      | 3%N =>
          let? (length, input) := length_ additional input in
          let? (v, input) := take length input in
          let? text := ok_or (from_utf8 v) (invalid (lit "CBOR text is not UTF-8")) in
          Ok (CText text, input)
      | 4%N =>
          let? (length, input) := collection_length additional input in
          let? (values, input) := values_loop (value levels) length input in
          Ok (CArray values, input)
      | 5%N =>
          let? (length, input) := collection_length additional input in
          let? (values, input) := members_loop (value levels) length [] input in
          Ok (CObject values, input)
      | 7%N =>
          match additional with
          | 20%N => Ok (CBool false, input)
          | 21%N => Ok (CBool true, input)
          | 22%N => Ok (CNull, input)
          | 25%N => let? (bits, input) := be 2 input in Ok (CFloat (f32_as_f64 (f16_bits_to_f32 bits)), input)
          | 26%N => let? (bits, input) := be 4 input in Ok (CFloat (f32_as_f64 bits), input)
          | 27%N => let? (bits, input) := be 8 input in Ok (CFloat bits, input)
          | _ => Err (NonCanonical (lit "unsupported simple value"))
          end
      | _ => Err (NonCanonical (lit "unsupported CBOR major type"))
      end
  end.

End Decoder.

Definition decode_canonical_value (input : list byte) : CapsuleResult CapsuleValue :=
  if MAX_CAPSULE_BYTES <? Z.of_nat (length input)
  then Err (NonCanonical (lit "capsule exceeds the byte limit"))
  else
    let? (value, rest) := Decoder.value (S (Z.to_nat MAX_VALUE_DEPTH)) input in
    if negb (is_empty rest) then Err (NonCanonical (lit "trailing bytes"))
    else
      let? encoded := encode_value value in
      if bool_decide (encoded ≠ input)
      then Err (NonCanonical (lit "value does not use the preferred encoding"))
      else Ok value.
