(* ===== verification/CapsuleCodec.v ===== *)
(** The capsule codec is exact: the decoder accepts the encodings of valid values and nothing
    else, and every value comes back as it went in. *)

From S2P Require Import Prelude Text BTree Bytes Floats Capsule.

Open Scope Z_scope.

(** ** Values of the source's type

    What the Rust types guarantee of a value: its integers, bytes and bit patterns are in range, its
    text is made of scalar values and its objects are maps. *)

Inductive value_wf : CapsuleValue → Prop :=
| wf_null : value_wf CNull
| wf_bool b : value_wf (CBool b)
| wf_integer z : in_i64 z → value_wf (CInteger z)
| wf_float v : (v < 2 ^ 64)%N → value_wf (CFloat v)
| wf_bytes l : is_bytes l → value_wf (CBytes l)
| wf_text s : is_text s → value_wf (CText s)
| wf_array values : Forall value_wf values → value_wf (CArray values)
| wf_object values :
    ordered values → Forall (λ kv : str * CapsuleValue, is_text kv.1 ∧ value_wf kv.2) values → value_wf (CObject values).

(** ** Heads *)

Lemma take_app l n rest : n = N.of_nat (length l) → Decoder.take n (l ++ rest) = Ok (l, rest).
Proof.
  intros ->. unfold Decoder.take. rewrite (proj2 (N.leb_le _ _)) by (rewrite length_app; lia).
  rewrite Nat2N.id. by rewrite take_app_length, drop_app_length.
Qed.
Lemma be_app w n rest :
  (n < 256 ^ w)%N → Decoder.be w (be_bytes (N.to_nat w) n ++ rest) = Ok (n, rest).
Proof.
  intros Hn. unfold Decoder.be. rewrite take_app by (rewrite length_be_bytes; lia).
  by rewrite from_be_be_bytes_small by (by rewrite N2Nat.id).
Qed.
Lemma byte_cons b rest : Decoder.byte_ (b :: rest) = Ok (b, rest).
Proof. unfold Decoder.byte_. change (b :: rest) with ([b] ++ rest). by rewrite take_app. Qed.

Lemma initial_byte (major : Z) (a : N) :
  0 ≤ major < 8 → (a < 32)%N →
  N.shiftr (N.lor (N.shiftl (Z.to_N major) 5) a) 5 = Z.to_N major
  ∧ N.land (N.lor (N.shiftl (Z.to_N major) 5) a) 31 = a.
Proof.
  intros Hm Ha. rewrite lor_add by done. change 31%N with (N.ones 5).
  rewrite N.land_ones, N.shiftr_div_pow2. change (2 ^ 5)%N with 32%N.
  split; zify; Z.to_euclidean_division_equations; lia.
Qed.

(** The decoder reads back the head that the encoder wrote. *)
Lemma head_decodes (major : Z) n rest :
  0 ≤ major < 8 → (n < 2 ^ 64)%N →
  ∃ initial tail, encode_head major n = initial :: tail ∧ N.shiftr initial 5 = Z.to_N major
    ∧ Decoder.length_ (N.land initial 31) (tail ++ rest) = Ok (n, rest).
Proof.
  intros Hm Hn. unfold encode_head.
  destruct (N.leb_spec n 23);
    [|destruct (N.leb_spec n 255); [|destruct (N.leb_spec n 65535); [|destruct (N.leb_spec n 4294967295)]]];
    eexists _, _; (split; [done|]).
  - rewrite N.mod_small by lia. destruct (initial_byte major n) as [-> ->]; [done|lia|].
    unfold Decoder.length_. by rewrite (proj2 (N.leb_le _ _)).
  - destruct (initial_byte major 24) as [-> ->]; [done|done|]. rewrite N.mod_small by lia. split; [done|]. apply byte_cons.
  - destruct (initial_byte major 25) as [-> ->]; [done|done|]. rewrite N.mod_small by lia. split; [done|].
    apply (be_app 2). lia.
  - destruct (initial_byte major 26) as [-> ->]; [done|done|]. rewrite N.mod_small by lia. split; [done|].
    apply (be_app 4). lia.
  - destruct (initial_byte major 27) as [-> ->]; [done|done|]. split; [done|]. by apply (be_app 8).
Qed.

Lemma head_nonempty major n : (1 ≤ length (encode_head major n))%nat.
Proof. unfold encode_head. repeat case_match; cbn; lia. Qed.

(** ** Validation and encoding *)

Lemma try_each_Ok {A E} (f : A → result unit E) l : try_each f l = Ok tt ↔ Forall (λ x, f x = Ok tt) l.
Proof.
  induction l as [|x l IH]; cbn; [split; constructor|]. destruct (f x) as [[]|e] eqn:E1.
  - rewrite IH, Forall_cons. naive_solver.
  - rewrite Forall_cons. split; [done|]. intros [? _]. congruence.
Qed.
Lemma emit_Ok {E} (l : list (result (list byte) E)) out :
  emit l = Ok out ↔ ∃ parts, l = Ok <$> parts ∧ out = concat parts.
Proof.
  revert out. induction l as [|r l IH]; intros out; cbn.
  - split; [intros [= <-]; by exists []|]. intros ([|] & ? & ->); done.
  - split.
    + destruct r as [e|]; [|done]. destruct (emit l) as [rest|]; [|done]. intros [= <-].
      destruct (proj1 (IH rest) eq_refl) as (parts & -> & ->). by exists (e :: parts).
    + intros ([|e parts] & Hl & ->); [done|]. injection Hl as -> ->.
      by rewrite (proj2 (IH (concat parts)) ltac:(by exists parts)).
Qed.
Lemma emit_total {E} (l : list (result (list byte) E)) : Forall is_Ok l → is_Ok (emit l).
Proof. induction 1 as [|r l [e ->] _ [rest IH]]; cbn; [by eexists|]. rewrite IH. by eexists. Qed.

(** The members of an object in the order of their encoded keys. *)
Definition wire_order (values : list (str * CapsuleValue)) : list (list byte * CapsuleResult (list byte)) :=
  merge_sort entry_le ((λ '(key, value), (encode_text key, encode_into value)) <$> values).

Lemma wire_order_perm values :
  ∃ sorted, sorted ≡ₚ values ∧ wire_order values = (λ '(key, value), (encode_text key, encode_into value)) <$> sorted.
Proof.
  unfold wire_order. set (f := λ '(key, value), (encode_text key, encode_into value)).
  pose proof (merge_sort_Permutation entry_le (f <$> values)) as Hp.
  destruct (Permutation_map_inv f values Hp) as (sorted & Hs & Hps). by exists sorted.
Qed.

(** A valid value is encoded. *)
Lemma encode_into_total v depth : validate_value_at v depth = Ok tt → is_Ok (encode_into v).
Proof.
  revert depth. induction v as [| | |v| | |values IH|values IH] using CapsuleValue_induction;
    intros depth; cbn [validate_value_at encode_into]; destruct (_ <? depth); try done; try by eexists.
  - intros _. destruct b; by eexists.
  - intros _. destruct (0 <=? z); by eexists.
  - unfold encode_float. destruct (is_finite v); [|done]. by eexists.
  - destruct (_ <? _); [done|]. rewrite try_each_Ok. intros Hv.
    destruct (emit_total (encode_into <$> values)) as [out ->]; [|by eexists].
    apply Forall_fmap. rewrite Forall_forall in *. intros x Hx. eapply IH; [done|]. by apply Hv.
  - destruct (_ <? _); [done|]. rewrite try_each_Ok. intros Hv. fold (wire_order values).
    destruct (wire_order_perm values) as (sorted & Hp & ->). rewrite <-Hp in Hv, IH.
    match goal with |- is_Ok (match ?e with _ => _ end) => assert (is_Ok e) as [out ->]; [|by eexists] end.
    apply emit_total. rewrite !Forall_fmap. rewrite Forall_forall in *. intros [k x] Hx. specialize (Hv _ Hx). cbn in *.
    destruct (is_empty k); [done|]. destruct (IH (k, x) Hx (depth + 1) Hv) as [e He]. cbn in He. rewrite He. by eexists.
Qed.

Lemma Ok_inj {A E} (a b : A) : @Ok A E a = Ok b → a = b.
Proof. by intros [=]. Qed.

Lemma encode_into_nonempty v e : encode_into v = Ok e → (1 ≤ length e)%nat.
Proof.
  destruct v as [|[]|z|v|l|s|values|values]; cbn [encode_into]; intros H; simplify_eq/=; try lia.
  - destruct (0 <=? z); simplify_eq; apply head_nonempty.
  - unfold encode_float in H. destruct (negb _); [done|]. apply Ok_inj in H. rewrite <-H.
    destruct (exact_f16 v); [|destruct (f64_eq _ _)]; cbn [length]; lia.
  - rewrite length_app. pose proof (head_nonempty 2 (N.of_nat (length l))). lia.
  - unfold encode_text. rewrite length_app. pose proof (head_nonempty 3 (Z.to_N (len s))). lia.
  - destruct (emit _); simplify_eq. rewrite length_app. pose proof (head_nonempty 4 (N.of_nat (length values))). lia.
  - destruct (emit _); simplify_eq. rewrite length_app.
    match goal with |- context [encode_head 5 ?n] => pose proof (head_nonempty 5 n) end. lia.
Qed.

(** ** Decoding what was encoded *)

(** [value] reads [v] from [e], whatever follows. *)
Definition reads (value : list byte → CapsuleResult (CapsuleValue * list byte)) (v : CapsuleValue) (e : list byte) : Prop :=
  ∀ rest, value (e ++ rest) = Ok (v, rest).

Lemma values_loop_reads value values parts rest :
  Forall2 (reads value) values parts →
  Decoder.values_loop value (length values) (concat parts ++ rest) = Ok (values, rest).
Proof.
  induction 1 as [|v e values parts Hv _ IH]; [done|]. cbn. rewrite <-app_assoc, Hv. by rewrite IH.
Qed.

Lemma members_loop_reads value (members : list (str * CapsuleValue)) keys parts acc rest :
  Forall2 (λ kv e, reads value (CText kv.1) e) members keys → Forall2 (λ kv, reads value kv.2) members parts →
  NoDup members.*1 → (∀ k, k ∈ members.*1 → jget k acc = None) →
  Decoder.members_loop value (length members) acc (concat (zip_with app keys parts) ++ rest)
  = Ok (foldl (λ m kv, jinsert kv.1 kv.2 m) acc members, rest).
Proof.
  intros Hk. revert parts acc. induction Hk as [|[k v] e members keys Hk _ IH]; intros parts acc Hp; inversion Hp as [|?? ? parts' Hv Hvs]; subst; [done|].
  cbn [fmap list_fmap fst snd] in *. intros [Hni Hnd]%NoDup_cons Hacc. cbn. rewrite <-!app_assoc, Hk, Hv.
  rewrite (Hacc k) by left. cbn [is_some]. apply IH; [done|done|]. intros k' Hk'. rewrite jget_jinsert.
  rewrite bool_decide_eq_false_2 by (intros ->; done). apply Hacc. by right.
Qed.

Lemma collection_reads (major : Z) n rest :
  0 ≤ major < 8 → Z.of_nat n ≤ MAX_COLLECTION_ITEMS → (n ≤ length rest)%nat →
  ∃ initial tail, encode_head major (N.of_nat n) = initial :: tail ∧ N.shiftr initial 5 = Z.to_N major
    ∧ Decoder.collection_length (N.land initial 31) (tail ++ rest) = Ok (n, rest).
Proof.
  intros Hm Hn Hr. unfold MAX_COLLECTION_ITEMS in *. destruct (head_decodes major (N.of_nat n) rest) as (i & t & -> & Hs & Hl); [done|lia|].
  exists i, t. split; [done|]. split; [done|]. unfold Decoder.collection_length. rewrite Hl.
  unfold MAX_COLLECTION_ITEMS. rewrite (proj2 (N.ltb_ge _ _)) by lia. rewrite (proj2 (N.ltb_ge _ (N.of_nat n))) by lia.
  by rewrite Nat2N.id.
Qed.

Lemma text_reads levels s :
  is_text s → (Z.to_N (len s) < 2 ^ 64)%N → reads (Decoder.value (S levels)) (CText s) (encode_text s).
Proof.
  intros Hs Hl rest. unfold encode_text. rewrite <-app_assoc.
  destruct (head_decodes 3 (Z.to_N (len s)) (bytes s ++ rest)) as (i & t & -> & Hi & Ht); [done|done|].
  cbn [app Decoder.value]. rewrite byte_cons, Hi, Ht. cbn.
  rewrite take_app by (rewrite len_bytes; lia). by rewrite from_utf8_bytes.
Qed.

Lemma float_reads levels v e :
  (v < 2 ^ 64)%N → encode_float v = Ok e → reads (Decoder.value (S levels)) (CFloat v) e.
Proof.
  unfold encode_float. intros Hv He rest. destruct (negb (is_finite v)); [done|]. apply Ok_inj in He. rewrite <-He. clear He.
  destruct (exact_f16 v) as [h|] eqn:Eh; [|destruct (f64_eq _ v) eqn:E32]; cbn [app Decoder.value]; rewrite byte_cons.
  - destruct (exact_f16_sound v h Hv Eh) as [Hh Hf].
    change (N.shiftr 249 5) with 7%N. change (N.land 249 31) with 25%N. cbv iota zeta.
    change 2%nat with (N.to_nat 2). rewrite be_app by done. by rewrite Hf.
  - change (N.shiftr 250 5) with 7%N. change (N.land 250 31) with 26%N. cbv iota zeta.
    change 4%nat with (N.to_nat 4). rewrite be_app by apply f64_as_f32_lt. by rewrite f32_test_sound.
  - change (N.shiftr 251 5) with 7%N. change (N.land 251 31) with 27%N. cbv iota zeta.
    change 8%nat with (N.to_nat 8). by rewrite be_app.
Qed.

Lemma fmap_Ok_Forall2 {A B E} (f : A → result B E) l parts :
  f <$> l = Ok <$> parts → Forall2 (λ x p, f x = Ok p) l parts.
Proof.
  revert parts. induction l as [|x l IH]; intros [|p parts] H; try done.
  injection H as Hx Hl. constructor; [done|]. by apply IH.
Qed.

Lemma concat_elem_length {A} (e : list A) parts : e ∈ parts → (length e ≤ length (concat parts))%nat.
Proof.
  induction parts as [|p parts IH]; [by intros ?%elem_of_nil|]. cbn. rewrite length_app.
  intros [->|?]%elem_of_cons; [lia|]. specialize (IH ltac:(done)). lia.
Qed.

(** What an object writes: its members in some order, each as its key and its value. *)
Lemma encode_object_parts values e :
  encode_into (CObject values) = Ok e →
  ∃ sorted parts, sorted ≡ₚ values ∧ Forall2 (λ kv p, encode_into kv.2 = Ok p) sorted parts
    ∧ e = encode_head 5 (N.of_nat (length sorted)) ++ concat (zip_with app (encode_text <$> sorted.*1) parts).
Proof.
  cbn [encode_into]. fold (wire_order values). destruct (wire_order_perm values) as (sorted & Hp & ->).
  destruct (emit _) as [items|] eqn:Ee; [|done]. intros <-%Ok_inj. apply emit_Ok in Ee as (all & Ha & ->).
  rewrite length_fmap. exists sorted.
  assert (∃ parts, Forall2 (λ kv p, encode_into kv.2 = Ok p) sorted parts
            ∧ all = zip_with app (encode_text <$> sorted.*1) parts) as (parts & Hparts & ->); [|by exists parts].
  clear Hp. revert all Ha. induction sorted as [|[k v] sorted IH]; intros [|p all] Ha; try done; [by exists []|].
  cbn in Ha. injection Ha as Hv Ha. destruct (encode_into v) as [e|] eqn:Ev; [|done]. apply Ok_inj in Hv.
  destruct (IH all Ha) as (parts & Hf & ->). exists (e :: parts). subst p. split; [by constructor|done].
Qed.

Lemma integer_reads levels z e :
  in_i64 z → encode_into (CInteger z) = Ok e → reads (Decoder.value (S levels)) (CInteger z) e.
Proof.
  intros Hz He rest. cbn [encode_into] in He. destruct (Z.leb_spec 0 z); apply Ok_inj in He as <-.
  - destruct (head_decodes 0 (Z.to_N z) rest) as (i & t & -> & Hi & Ht); [done|ilia|].
    cbn [app Decoder.value]. rewrite byte_cons, Hi, Ht. cbn. rewrite Z2N.id by done.
    unfold i64_try_from. by rewrite checked_in.
  - destruct (head_decodes 1 (Z.to_N (-1 - z)) rest) as (i & t & -> & Hi & Ht); [done|ilia|].
    cbn [app Decoder.value]. rewrite byte_cons, Hi, Ht. cbn. rewrite Z2N.id by lia.
    replace (-1 - (-1 - z)) with z by lia. unfold i64_try_from. by rewrite checked_in.
Qed.
Lemma bytes_reads levels l e :
  encode_into (CBytes l) = Ok e → Z.of_nat (length e) < 2 ^ 64 → reads (Decoder.value (S levels)) (CBytes l) e.
Proof.
  intros <-%Ok_inj Hlen rest. rewrite length_app in Hlen.
  destruct (head_decodes 2 (N.of_nat (length l)) (l ++ rest)) as (i & t & E & Hi & Ht); [done|lia|].
  rewrite <-app_assoc, E. cbn [app Decoder.value]. rewrite byte_cons, Hi, Ht. cbn. by rewrite take_app.
Qed.

Lemma Forall2_reads {A} (P : A → list byte → Prop) (f : A → CapsuleResult (list byte)) l parts :
  Forall2 (λ x p, f x = Ok p) l parts → (∀ x p, x ∈ l → p ∈ parts → f x = Ok p → P x p) → Forall2 P l parts.
Proof.
  induction 1 as [|x p l parts Hx _ IH]; intros HP; constructor.
  - apply HP; [left|left|done].
  - apply IH. intros y q Hy Hq. apply HP; by right.
Qed.

Lemma array_reads levels values parts :
  Z.of_nat (length values) ≤ MAX_COLLECTION_ITEMS →
  Forall2 (λ v p, encode_into v = Ok p) values parts → Forall2 (reads (Decoder.value levels)) values parts →
  reads (Decoder.value (S levels)) (CArray values) (encode_head 4 (N.of_nat (length values)) ++ concat parts).
Proof.
  intros Hn Hp Hr rest. rewrite <-app_assoc.
  destruct (collection_reads 4 (length values) (concat parts ++ rest)) as (i & t & -> & Hi & Ht); [done|done| |].
  { clear Hn Hr. induction Hp as [|v p values parts Hv _ IH]; cbn; [lia|]. apply encode_into_nonempty in Hv.
    rewrite !length_app in *. lia. }
  cbn [app Decoder.value]. rewrite byte_cons, Hi, Ht. cbn. by rewrite values_loop_reads.
Qed.
Lemma object_reads levels values sorted parts :
  Z.of_nat (length values) ≤ MAX_COLLECTION_ITEMS → ordered values → sorted ≡ₚ values →
  Forall2 (λ kv p, encode_into kv.2 = Ok p) sorted parts → Forall2 (λ kv, reads (Decoder.value levels) kv.2) sorted parts →
  Forall2 (λ kv e, reads (Decoder.value levels) (CText kv.1) e) sorted (encode_text <$> sorted.*1) →
  reads (Decoder.value (S levels)) (CObject values)
    (encode_head 5 (N.of_nat (length sorted)) ++ concat (zip_with app (encode_text <$> sorted.*1) parts)).
Proof.
  intros Hn Ho Hs Hp Hr Hk rest. rewrite <-app_assoc.
  destruct (collection_reads 5 (length sorted) (concat (zip_with app (encode_text <$> sorted.*1) parts) ++ rest))
    as (i & t & -> & Hi & Ht); [done|by rewrite Hs| |].
  { clear Hs Hr Hk. induction Hp as [|kv p sorted parts Hv _ IH]; cbn; [lia|]. apply encode_into_nonempty in Hv.
    rewrite !length_app in *. lia. }
  cbn [app Decoder.value]. rewrite byte_cons, Hi, Ht. cbn.
  rewrite members_loop_reads; [|done..|by rewrite Hs; apply ordered_NoDup|done].
  by rewrite (insert_all_perm sorted values).
Qed.

Lemma object_members levels sorted parts :
  Forall2 (λ kv p, encode_into kv.2 = Ok p) sorted parts →
  (∀ e, e ∈ zip_with app (encode_text <$> sorted.*1) parts → Z.of_nat (length e) < 2 ^ 64) →
  (∀ kv, kv ∈ sorted → is_text kv.1 ∧ levels ≠ O ∧ ∀ p, encode_into kv.2 = Ok p → Z.of_nat (length p) < 2 ^ 64 →
     reads (Decoder.value levels) kv.2 p) →
  Forall2 (λ kv, reads (Decoder.value levels) kv.2) sorted parts
  ∧ Forall2 (λ kv e, reads (Decoder.value levels) (CText kv.1) e) sorted (encode_text <$> sorted.*1).
Proof.
  induction 1 as [|[k v] p sorted parts Hv _ IH]; intros Hlen Hr; [by split|].
  destruct IH as [IH1 IH2]; [intros; apply Hlen; by right|intros; apply Hr; by right|].
  destruct (Hr (k, v)) as (Hk & Hl & Hrv); [left|]. specialize (Hlen _ ltac:(left)). rewrite length_app in Hlen.
  cbn in *. split; constructor; [apply Hrv; [done|lia]|done| |done].
  destruct levels; [done|]. apply text_reads; [done|]. rewrite len_bytes.
  unfold encode_text in Hlen. rewrite length_app in Hlen. lia.
Qed.

(** The decoder reads back every valid value from what the encoder wrote. *)
Lemma value_reads v : value_wf v → ∀ depth levels e,
  validate_value_at v depth = Ok tt → Z.of_nat levels = MAX_VALUE_DEPTH + 1 - depth →
  encode_into v = Ok e → Z.of_nat (length e) < 2 ^ 64 → reads (Decoder.value levels) v e.
Proof.
  induction v as [|b|z|v|l|s|values IH|values IH] using CapsuleValue_induction;
    intros Hwf depth levels e Hval Hlev He Hlen; inversion Hwf as [| | | | | |? Hm|? Ho Hm]; subst;
    (destruct levels as [|levels]; [cbn in Hval; rewrite (proj2 (Z.ltb_lt _ _)) in Hval by lia; done|]).
  - intros rest. apply Ok_inj in He as <-. cbn [app Decoder.value]. by rewrite byte_cons.
  - intros rest. destruct b; apply Ok_inj in He as <-; cbn [app Decoder.value]; by rewrite byte_cons.
  - by apply integer_reads.
  - by apply float_reads.
  - by apply bytes_reads.
  - apply Ok_inj in He as <-. apply text_reads; [done|]. rewrite len_bytes.
    unfold encode_text in Hlen. rewrite length_app in Hlen. lia.
  - cbn [encode_into] in He. destruct (emit _) as [items|] eqn:Ei; [|done]. apply Ok_inj in He as <-.
    apply emit_Ok in Ei as (parts & Hp%fmap_Ok_Forall2 & ->). cbn [validate_value_at] in Hval.
    destruct (_ <? depth); [done|]. destruct (Z.ltb_spec MAX_COLLECTION_ITEMS (Z.of_nat (length values))); [done|].
    rewrite try_each_Ok in Hval. rewrite length_app in Hlen. rewrite Forall_forall in Hval, IH, Hm.
    apply array_reads; [done|done|]. eapply Forall2_reads; [done|]. intros x p Hx Hpin Hxp.
    eapply (IH x Hx); [by apply Hm|by apply Hval|lia|done|]. pose proof (concat_elem_length p parts Hpin). lia.
  - apply encode_object_parts in He as (sorted & parts & Hs & Hp & ->). cbn [validate_value_at] in Hval.
    destruct (_ <? depth); [done|]. destruct (Z.ltb_spec MAX_COLLECTION_ITEMS (Z.of_nat (length values))); [done|].
    rewrite try_each_Ok in Hval. rewrite length_app in Hlen. rewrite <-Hs in Hval, IH, Hm.
    rewrite Forall_forall in Hval, IH, Hm.
    assert (∀ e, e ∈ zip_with app (encode_text <$> sorted.*1) parts → Z.of_nat (length e) < 2 ^ 64) as Hall.
    { intros e Hin%concat_elem_length. lia. }
    destruct (object_members levels sorted parts Hp Hall) as [Hr Hk]; [|by apply object_reads].
    intros [k x] Hx. specialize (Hval _ Hx). destruct (Hm _ Hx) as [Hk Hw]. cbn in Hval. destruct (is_empty k); [done|].
    split; [done|]. split; [|intros p Hxp Hpl; by eapply (IH _ Hx); [|done|lia|..]].
    intros ->. assert (depth = MAX_VALUE_DEPTH) as -> by lia. by destruct x.
Qed.

(** ** What the decoder builds *)

Lemma take_bytes n input v rest : is_bytes input → Decoder.take n input = Ok (v, rest) → is_bytes v ∧ is_bytes rest.
Proof.
  unfold Decoder.take. intros Hb H. destruct (_ <=? _)%N; [|done]. simplify_eq.
  split; [by apply Forall_take|by apply Forall_drop].
Qed.
Lemma be_bounds w input n rest :
  is_bytes input → Decoder.be w input = Ok (n, rest) → (n < 256 ^ w)%N ∧ is_bytes rest.
Proof.
  unfold Decoder.be. intros Hb H. destruct (Decoder.take w input) as [[v input']|] eqn:E; [|done]. injection H as <- <-.
  destruct (take_bytes _ _ _ _ Hb E) as [Hv Hi]. split; [|done]. apply from_be_lt in Hv.
  unfold Decoder.take in E. destruct (N.leb_spec w (N.of_nat (length input))); [|done]. injection E as <- <-.
  by rewrite length_take, Nat.min_l, N2Nat.id in Hv by lia.
Qed.
Lemma byte_bytes input b rest : is_bytes input → Decoder.byte_ input = Ok (b, rest) → (b < 256)%N ∧ is_bytes rest.
Proof.
  unfold Decoder.byte_. intros Hb H. destruct (Decoder.take 1 input) as [[v input']|] eqn:E; [|done].
  destruct (take_bytes _ _ _ _ Hb E) as [Hv Hi]. destruct v as [|c v]; [done|]. injection H as <- <-.
  by apply Forall_cons in Hv as [? _].
Qed.
Lemma length_bytes a input n rest : is_bytes input → Decoder.length_ a input = Ok (n, rest) → is_bytes rest.
Proof.
  unfold Decoder.length_. intros Hb. repeat destruct (_ <=? _)%N; repeat destruct (_ =? _)%N; intros H; try done;
    first [by simplify_eq | by apply byte_bytes in H as [??] | by apply be_bounds in H as [??]].
Qed.
Lemma collection_bytes a input n rest :
  is_bytes input → Decoder.collection_length a input = Ok (n, rest) → is_bytes rest.
Proof.
  unfold Decoder.collection_length. intros Hb. destruct (Decoder.length_ a input) as [[m input']|] eqn:E; [|done].
  apply length_bytes in E; [|done]. destruct (_ || _); [done|]. by intros [= _ <-].
Qed.

(** A reader that builds values of the type from bytes. *)
Definition sound (value : list byte → CapsuleResult (CapsuleValue * list byte)) : Prop :=
  ∀ input v rest, is_bytes input → value input = Ok (v, rest) → value_wf v ∧ is_bytes rest.

Lemma values_loop_sound value n input values rest :
  sound value → is_bytes input → Decoder.values_loop value n input = Ok (values, rest) →
  Forall value_wf values ∧ is_bytes rest.
Proof.
  intros Hv. revert input values rest. induction n as [|n IH]; intros input values rest Hb; cbn.
  - intros [= <- <-]. by split; [constructor|].
  - destruct (value input) as [[v input1]|] eqn:E; [|done]. destruct (Hv _ _ _ Hb E) as [Hw Hb1].
    destruct (Decoder.values_loop value n input1) as [[vs input2]|] eqn:E2; [|done]. intros [= <- <-].
    destruct (IH _ _ _ Hb1 E2). by split; [constructor|].
Qed.

Definition members_wf (m : list (str * CapsuleValue)) : Prop :=
  ordered m ∧ Forall (λ kv : str * CapsuleValue, is_text kv.1 ∧ value_wf kv.2) m.
Lemma members_wf_nil : members_wf [].
Proof. split; constructor. Qed.
Lemma members_wf_insert k v m : is_text k → value_wf v → members_wf m → members_wf (jinsert k v m).
Proof.
  intros Hk Hv [Ho Hm]. split; [by apply jinsert_ordered|].
  induction m as [|[k' v'] m IH]; cbn [jinsert]; [by apply Forall_singleton|].
  apply Forall_cons in Hm as [Hh Hm]. apply StronglySorted_inv in Ho as [Ho _]. specialize (IH Ho Hm).
  repeat case_match; by rewrite ?Forall_cons.
Qed.
Lemma members_loop_sound value n acc input values rest :
  sound value → is_bytes input → members_wf acc → Decoder.members_loop value n acc input = Ok (values, rest) →
  members_wf values ∧ is_bytes rest.
Proof.
  intros Hv. revert acc input values rest. induction n as [|n IH]; intros acc input values rest Hb Ha; cbn.
  - by intros [= <- <-].
  - destruct (value input) as [[k input1]|] eqn:E; [|done]. destruct (Hv _ _ _ Hb E) as [Hk Hb1].
    destruct k as [| | | | |k| |]; try done. destruct (value input1) as [[v input2]|] eqn:E2; [|done].
    destruct (Hv _ _ _ Hb1 E2) as [Hw Hb2]. destruct (is_some _); [done|]. apply IH; [done|].
    apply members_wf_insert; [by inversion Hk|done|done].
Qed.

Lemma integer_sound z (input : list byte) v rest :
  is_bytes input →
  (let? z := ok_or (i64_try_from z) (invalid (lit "integer overflow")) in Ok (CInteger z, input)) = Ok (v, rest) →
  value_wf v ∧ is_bytes rest.
Proof.
  intros Hb H. destruct (i64_try_from z) as [z'|] eqn:Ez; [|done]. injection H as <- <-.
  apply checked_Some in Ez as [-> ?]. split; [by constructor|done].
Qed.

(** One case per major type: the head is read, then the payload. *)
Lemma value_sound levels : sound (Decoder.value levels).
Proof.
  induction levels as [|levels IH]; intros input v rest Hb H; cbn [Decoder.value] in H; [done|].
  destruct (Decoder.byte_ input) as [[b input1]|] eqn:E1; [|done]. destruct (byte_bytes _ _ _ Hb E1) as [_ Hb1].
  revert H. generalize (N.land b 31) as a. intros a. clear E1. cbv zeta. intros H.
  destruct (N.shiftr b 5) as [|[[[]|[]|]|[[]|[]|]|]]; try done.
  - destruct (Decoder.length_ a input1) as [[n input2]|] eqn:El; [|done].
    apply length_bytes in El; [|done]. by eapply integer_sound.
  - repeat (destruct a as [|a]; [done|]); repeat (destruct a as [a|a|]; try done);
      try (injection H as <- <-; by repeat constructor);
      destruct (Decoder.be _ input1) as [[bits input2]|] eqn:Ef; try done; injection H as <- <-;
      apply be_bounds in Ef as [??]; try done; split; try done; constructor; [done|apply f32_as_f64_lt..].
  - destruct (Decoder.collection_length a input1) as [[n input2]|] eqn:El; [|done]. apply collection_bytes in El; [|done].
    destruct (Decoder.members_loop _ n [] input2) as [[vs input3]|] eqn:Et; [|done]. injection H as <- <-.
    destruct (members_loop_sound _ _ _ _ _ _ IH El members_wf_nil Et) as [[??] ?]. split; [by constructor|done].
  - destruct (Decoder.length_ a input1) as [[n input2]|] eqn:El; [|done]. apply length_bytes in El; [|done].
    destruct (Decoder.take n input2) as [[l input3]|] eqn:Et; [|done]. destruct (take_bytes _ _ _ _ El Et).
    destruct (from_utf8 l) as [s|] eqn:Es; [|done]. injection H as <- <-. split; [|done].
    constructor. by eapply from_utf8_text.
  - destruct (Decoder.collection_length a input1) as [[n input2]|] eqn:El; [|done]. apply collection_bytes in El; [|done].
    destruct (Decoder.values_loop _ n input2) as [[vs input3]|] eqn:Et; [|done]. injection H as <- <-.
    destruct (values_loop_sound _ _ _ _ _ IH El Et). split; [by constructor|done].
  - destruct (Decoder.length_ a input1) as [[n input2]|] eqn:El; [|done]. apply length_bytes in El; [|done].
    destruct (Decoder.take n input2) as [[l input3]|] eqn:Et; [|done]. destruct (take_bytes _ _ _ _ El Et).
    injection H as <- <-. split; [by constructor|done].
  - destruct (Decoder.length_ a input1) as [[n input2]|] eqn:El; [|done].
    apply length_bytes in El; [|done]. by eapply integer_sound.
Qed.

(** ** The codec *)

Lemma encode_value_Ok v e : encode_value v = Ok e ↔ validate_value_at v 0 = Ok tt ∧ encode_into v = Ok e.
Proof. unfold encode_value, validate_value. destruct (validate_value_at v 0) as [[]|]; naive_solver. Qed.

Lemma decode_encoded v e :
  value_wf v → encode_value v = Ok e → Z.of_nat (length e) ≤ MAX_CAPSULE_BYTES → decode_canonical_value e = Ok v.
Proof.
  intros Hw He Hl. pose proof He as He'. apply encode_value_Ok in He' as [Hv Hi]. unfold decode_canonical_value.
  rewrite (proj2 (Z.ltb_ge _ _)) by done.
  pose proof (value_reads v Hw 0 (S (Z.to_nat MAX_VALUE_DEPTH)) e Hv ltac:(done) Hi) as Hr.
  specialize (Hr ltac:(unfold MAX_CAPSULE_BYTES in Hl; lia) []). rewrite app_nil_r in Hr. rewrite Hr. cbn [is_empty negb].
  by rewrite He, bool_decide_eq_false_2 by auto.
Qed.
Lemma decoded_encodes b v :
  decode_canonical_value b = Ok v → encode_value v = Ok b ∧ Z.of_nat (length b) ≤ MAX_CAPSULE_BYTES.
Proof.
  unfold decode_canonical_value. destruct (Z.ltb_spec MAX_CAPSULE_BYTES (Z.of_nat (length b))); [done|].
  destruct (Decoder.value _ b) as [[x rest]|]; [|done]. destruct (negb _); [done|].
  destruct (encode_value x) as [e|] eqn:E; [|done]. case_bool_decide as Hne; [done|]. intros [= <-].
  by subst b.
Qed.
Lemma decoded_wf b v : is_bytes b → decode_canonical_value b = Ok v → value_wf v.
Proof.
  unfold decode_canonical_value. intros Hb. destruct (_ <? _); [done|].
  destruct (Decoder.value _ b) as [[x rest]|] eqn:E; [|done]. destruct (value_sound _ _ _ _ Hb E) as [Hw _].
  destruct (negb _); [done|]. destruct (encode_value x); [|done]. case_bool_decide; [done|]. by intros [= <-].
Qed.

(** C22. The decoder accepts exactly the encodings.  A byte string decodes to a value if and only if the
    value is one of the type, passes validation and encodes to that very string, which is no longer
    than the byte limit.  So every valid value comes back bit for bit, floats and signed zeros
    included, no two strings decode to one value, and no two values share a string. *)
Theorem codec_is_exact b v : is_bytes b →
  decode_canonical_value b = Ok v ↔
  value_wf v ∧ encode_value v = Ok b ∧ Z.of_nat (length b) ≤ MAX_CAPSULE_BYTES.
Proof.
  intros Hb. split.
  - intros H. split; [by eapply decoded_wf|by apply decoded_encodes].
  - intros (Hw & He & Hl). by apply decode_encoded.
Qed.

Lemma codec_is_exact_witness :
  is_bytes [249; 62; 0]%N ∧
  (decode_canonical_value [249; 62; 0]%N = Ok (CFloat 4609434218613702656) ↔
   value_wf (CFloat 4609434218613702656) ∧ encode_value (CFloat 4609434218613702656) = Ok [249; 62; 0]%N
   ∧ Z.of_nat (length [249; 62; 0]%N) ≤ MAX_CAPSULE_BYTES).
Proof.
  assert (is_bytes [249; 62; 0]%N) as Hb by (apply (bool_decide_unpack _); vm_compute; exact I).
  split; [exact Hb|]. apply (codec_is_exact [249; 62; 0]%N (CFloat 4609434218613702656) Hb).
Defined.
