(* ===== verification/Envelope.v ===== *)
(** Capsule envelopes ([aseman-contracts/src/capsule.rs]): sealing, verification, their canonical
    bytes, and what the integrity hash protects.

    SHA-256 is code of the [sha2] crate: the class [Sha256], of which the theorems need that a digest
    has 32 bytes.  A panic is [None]: [integer] panics on a revision above [i64::MAX]. *)

From S2P Require Import Prelude Text BTree Bytes Floats Capsule CapsuleCodec.

Open Scope Z_scope.

Class Sha256 := sha2 : list byte → list byte.
Class Sha256Laws `{Sha256} := {
  sha2_length : ∀ l, length (sha2 l) = 32%nat;
  sha2_bytes : ∀ l, is_bytes (sha2 l);
}.

(** [b"ASEMAN-CAPSULE-INTEGRITY-V1\0"]. *)
Definition INTEGRITY_DOMAIN : list byte := lit "ASEMAN-CAPSULE-INTEGRITY-V1" ++ [0%N].

(** ** Data *)

Inductive StorageClass :=
| SCore | SGuestData | STelemetry | SAudit | SFinance | SOutbox | SRealtime | SModule (name : str).
#[export] Instance StorageClass_eq_dec : EqDecision StorageClass. Proof. solve_decision. Defined.

Inductive OwnerScope :=
| OGlobal | ONode (id : list byte) | OCreature (id : list byte) | OModule (name : str).
#[export] Instance OwnerScope_eq_dec : EqDecision OwnerScope. Proof. solve_decision. Defined.

Record CapsuleDigest := { dg_algorithm : str; dg_bytes : list byte }.
#[export] Instance CapsuleDigest_eq_dec : EqDecision CapsuleDigest. Proof. solve_decision. Defined.

Record CapsuleRelationship := { rl_name : str; rl_target_kind : str; rl_target_id : list byte }.
#[export] Instance CapsuleRelationship_eq_dec : EqDecision CapsuleRelationship. Proof. solve_decision. Defined.

Record CapsuleEnvelope := {
  ce_encoding_version : u16;
  ce_id : list byte;
  ce_kind : str;
  ce_storage_class : StorageClass;
  ce_owner_scope : OwnerScope;
  ce_schema_version : u32;
  ce_revision : u64;
  ce_created_at_micros : i64;
  ce_updated_at_micros : i64;
  ce_previous_integrity : option CapsuleDigest;
  ce_integrity_hash : CapsuleDigest;
  ce_tombstone : bool;
  ce_relationships : list CapsuleRelationship;
  ce_body : option CapsuleValue;
}.

Definition with_integrity (e : CapsuleEnvelope) (hash : CapsuleDigest) : CapsuleEnvelope := {|
  ce_encoding_version := ce_encoding_version e; ce_id := ce_id e; ce_kind := ce_kind e;
  ce_storage_class := ce_storage_class e; ce_owner_scope := ce_owner_scope e;
  ce_schema_version := ce_schema_version e; ce_revision := ce_revision e;
  ce_created_at_micros := ce_created_at_micros e; ce_updated_at_micros := ce_updated_at_micros e;
  ce_previous_integrity := ce_previous_integrity e; ce_integrity_hash := hash;
  ce_tombstone := ce_tombstone e; ce_relationships := ce_relationships e; ce_body := ce_body e |}.

(** ** Validation *)

Definition validate_token (label value : str) : CapsuleResult unit :=
  if is_empty value || (128 <? len value)
     || negb (forallb (λ b, is_ascii_alphanumeric b || (b =? 46)%N || (b =? 95)%N || (b =? 45)%N) (bytes value))
  then Err (invalid (label ++ lit " is not a safe token"))
  else Ok tt.

Definition validate_digest (digest : CapsuleDigest) : CapsuleResult unit :=
  if bool_decide (dg_algorithm digest ≠ DIGEST_ALGORITHM) then Err (UnsupportedDigest (dg_algorithm digest))
  else if negb (Z.of_nat (length (dg_bytes digest)) =? 32)
  then Err (invalid (lit "sha2-256 digest must be 32 bytes"))
  else Ok tt.

(** The loop over the relationships, with the names it has seen. *)
Fixpoint validate_relationships (seen : gset str) (l : list CapsuleRelationship) : CapsuleResult unit :=
  match l with
  | [] => Ok tt
  | r :: l =>
      let? _ := validate_token (lit "relationship name") (rl_name r) in
      let? _ := validate_token (lit "relationship target kind") (rl_target_kind r) in
      if bool_decide (rl_name r ∈ seen) then Err (Invalid (lit "relationship names must be unique"))
      else validate_relationships ({[rl_name r]} ∪ seen) l
  end.

Definition validate_structure (self : CapsuleEnvelope) (validate_current_integrity : bool) : CapsuleResult unit :=
  let? _ := validate_token (lit "kind") (ce_kind self) in
  if negb (ce_encoding_version self =? ENCODING_VERSION) then Err (UnsupportedEncoding (ce_encoding_version self))
  else if (ce_schema_version self =? 0) || (ce_revision self =? 0)
  then Err (Invalid (lit "schema_version and revision start at one"))
  else if ce_updated_at_micros self <? ce_created_at_micros self
  then Err (Invalid (lit "updated_at precedes created_at"))
  else if negb (Bool.eqb (ce_tombstone self) (is_none (ce_body self)))
  then Err (Invalid (lit "tombstones have no body and live revisions require a body"))
  else if negb (Bool.eqb (ce_revision self =? 1) (is_none (ce_previous_integrity self)))
  then Err (Invalid (lit "only the first revision omits previous_integrity"))
  else
    let? _ := if validate_current_integrity then validate_digest (ce_integrity_hash self) else Ok tt in
    let? _ := match ce_previous_integrity self with Some previous => validate_digest previous | None => Ok tt end in
    let? _ := validate_relationships ∅ (ce_relationships self) in
    validate_value (ce_body self).

(** ** As a value *)

(** [BTreeMap::from]. *)
Definition btree_from {V} (l : list (str * V)) : list (str * V) := foldl (λ m kv, jinsert kv.1 kv.2 m) [] l.

(** [i64::try_from(value).expect(..)]. *)
Definition integer (value : Z) : option CapsuleValue := CInteger <$> checked i64_min i64_max value.
Definition option_value (value : option CapsuleValue) : CapsuleValue := default CNull value.

Definition digest_value (digest : CapsuleDigest) : CapsuleValue :=
  CObject (btree_from [(lit "algorithm", CText (dg_algorithm digest)); (lit "bytes", CBytes (dg_bytes digest))]).
Definition relationship_value (r : CapsuleRelationship) : CapsuleValue :=
  CObject (btree_from [(lit "name", CText (rl_name r)); (lit "target_id", CBytes (rl_target_id r));
    (lit "target_kind", CText (rl_target_kind r))]).
Definition storage_class_value (class : StorageClass) : CapsuleValue :=
  let '(kind, name) :=
    match class with
    | SCore => (lit "core", None)
    | SGuestData => (lit "guest_data", None)
    | STelemetry => (lit "telemetry", None)
    | SAudit => (lit "audit", None)
    | SFinance => (lit "finance", None)
    | SOutbox => (lit "outbox", None)
    | SRealtime => (lit "realtime", None)
    | SModule name => (lit "module", Some name)
    end in
  CObject (btree_from [(lit "name", option_value (CText <$> name)); (lit "type", CText kind)]).
Definition owner_value (owner : OwnerScope) : CapsuleValue :=
  let '(kind, id) :=
    match owner with
    | OGlobal => (lit "global", CNull)
    | ONode id => (lit "node", CBytes id)
    | OCreature id => (lit "creature", CBytes id)
    | OModule name => (lit "module", CText name)
    end in
  CObject (btree_from [(lit "id", id); (lit "type", CText kind)]).

Definition as_value (self : CapsuleEnvelope) (include_integrity : bool) : option CapsuleValue :=
  match integer (ce_created_at_micros self), integer (ce_encoding_version self), integer (ce_revision self),
        integer (ce_schema_version self), integer (ce_updated_at_micros self) with
  | Some created, Some encoding, Some revision, Some schema, Some updated =>
      let map := btree_from [
        (lit "body", option_value (ce_body self));
        (lit "created_at_micros", created);
        (lit "encoding_version", encoding);
        (lit "id", CBytes (ce_id self));
        (lit "kind", CText (ce_kind self));
        (lit "owner_scope", owner_value (ce_owner_scope self));
        (lit "previous_integrity", option_value (digest_value <$> ce_previous_integrity self));
        (lit "relationships", CArray (relationship_value <$> ce_relationships self));
        (lit "revision", revision);
        (lit "schema_version", schema);
        (lit "storage_class", storage_class_value (ce_storage_class self));
        (lit "tombstone", CBool (ce_tombstone self));
        (lit "updated_at_micros", updated)] in
      Some (CObject (if include_integrity
                     then jinsert (lit "integrity_hash") (digest_value (ce_integrity_hash self)) map else map))
  | _, _, _, _, _ => None
  end.

(** ** From a value *)

Notation Members := (list (str * CapsuleValue)) (only parsing).

(** [take] removes the member from the map it is given. *)
Definition take (map : Members) (key : str) : CapsuleResult (CapsuleValue * Members) :=
  match jget key map with
  | Some v => Ok (v, jremove key map)
  | None => Err (invalid (lit "missing " ++ key))
  end.
Definition take_text (map : Members) (key : str) : CapsuleResult (str * Members) :=
  let? (v, map) := take map key in
  match v with CText value => Ok (value, map) | _ => Err (invalid (key ++ lit " must be text")) end.
Definition take_i64 (map : Members) (key : str) : CapsuleResult (i64 * Members) :=
  let? (v, map) := take map key in
  match v with CInteger value => Ok (value, map) | _ => Err (invalid (key ++ lit " must be an integer")) end.
Definition take_u64 (map : Members) (key : str) : CapsuleResult (u64 * Members) :=
  let? (v, map) := take_i64 map key in
  let? v := ok_or (u64_try_from v) (invalid (key ++ lit " must be non-negative")) in
  Ok (v, map).
Definition take_bool (map : Members) (key : str) : CapsuleResult (bool * Members) :=
  let? (v, map) := take map key in
  match v with CBool value => Ok (value, map) | _ => Err (invalid (key ++ lit " must be a boolean")) end.
(** [Vec<u8>::try_into::<[u8; N]>]. *)
Definition fixed_bytes (n : nat) (value : list byte) : option (list byte) :=
  if bool_decide (length value = n) then Some value else None.
Definition take_fixed_bytes (n : nat) (map : Members) (key : str) : CapsuleResult (list byte * Members) :=
  let? (v, map) := take map key in
  match v with
  | CBytes value =>
      let? value := ok_or (fixed_bytes n value) (invalid (key ++ lit " has the wrong length")) in Ok (value, map)
  | _ => Err (invalid (key ++ lit " must be bytes"))
  end.

Definition into_object (value : CapsuleValue) (label : str) : CapsuleResult Members :=
  match value with CObject value => Ok value | _ => Err (invalid (label ++ lit " must be an object")) end.
Definition into_array (value : CapsuleValue) (label : str) : CapsuleResult (list CapsuleValue) :=
  match value with CArray value => Ok value | _ => Err (invalid (label ++ lit " must be an array")) end.
Definition reject_unknown (map : Members) (allowed : list str) : CapsuleResult unit :=
  if existsb (λ key, negb (bool_decide (key ∈ allowed))) map.*1
  then Err (invalid (lit "object contains an unknown field"))
  else Ok tt.
Definition parse_optional {T} (value : CapsuleValue) (parse : CapsuleValue → CapsuleResult T) : CapsuleResult (option T) :=
  match value with
  | CNull => Ok None
  | value => result_map Some (parse value)
  end.

Definition parse_digest (value : CapsuleValue) : CapsuleResult CapsuleDigest :=
  let? map := into_object value (lit "digest") in
  let? _ := reject_unknown map [lit "algorithm"; lit "bytes"] in
  let? (algorithm, map) := take_text map (lit "algorithm") in
  let? (bytes, map) := take map (lit "bytes") in
  let? bytes := match bytes with CBytes value => Ok value | _ => Err (invalid (lit "digest bytes must be bytes")) end in
  let digest := {| dg_algorithm := algorithm; dg_bytes := bytes |} in
  let? _ := validate_digest digest in
  Ok digest.

Definition parse_relationship (value : CapsuleValue) : CapsuleResult CapsuleRelationship :=
  let? map := into_object value (lit "relationship") in
  let? _ := reject_unknown map [lit "name"; lit "target_id"; lit "target_kind"] in
  let? (name, map) := take_text map (lit "name") in
  let? (target_kind, map) := take_text map (lit "target_kind") in
  let? (target_id, map) := take_fixed_bytes 16 map (lit "target_id") in
  Ok {| rl_name := name; rl_target_kind := target_kind; rl_target_id := target_id |}.

Definition parse_storage_class (value : CapsuleValue) : CapsuleResult StorageClass :=
  let? map := into_object value (lit "storage_class") in
  let? _ := reject_unknown map [lit "name"; lit "type"] in
  let? (name, map) := take map (lit "name") in
  let? name := parse_optional name (λ value,
    match value with CText value => Ok value | _ => Err (invalid (lit "storage class name must be text")) end) in
  let? (kind, map) := take_text map (lit "type") in
  match name with
  | None =>
      if bool_decide (kind = lit "core") then Ok SCore
      else if bool_decide (kind = lit "guest_data") then Ok SGuestData
      else if bool_decide (kind = lit "telemetry") then Ok STelemetry
      else if bool_decide (kind = lit "audit") then Ok SAudit
      else if bool_decide (kind = lit "finance") then Ok SFinance
      else if bool_decide (kind = lit "outbox") then Ok SOutbox
      else if bool_decide (kind = lit "realtime") then Ok SRealtime
      else Err (invalid (lit "invalid storage class"))
  | Some name =>
      if bool_decide (kind = lit "module") then Ok (SModule name) else Err (invalid (lit "invalid storage class"))
  end.

Definition parse_owner (value : CapsuleValue) : CapsuleResult OwnerScope :=
  let? map := into_object value (lit "owner_scope") in
  let? _ := reject_unknown map [lit "id"; lit "type"] in
  let? (kind, map) := take_text map (lit "type") in
  let? (id, map) := take map (lit "id") in
  match id with
  | CNull => if bool_decide (kind = lit "global") then Ok OGlobal else Err (invalid (lit "invalid owner scope"))
  | CBytes value =>
      if bool_decide (kind = lit "node") then
        let? id := ok_or (fixed_bytes 16 value) (invalid (lit "node owner ID length")) in Ok (ONode id)
      else if bool_decide (kind = lit "creature") then
        let? id := ok_or (fixed_bytes 16 value) (invalid (lit "creature owner ID length")) in Ok (OCreature id)
      else Err (invalid (lit "invalid owner scope"))
  | CText value => if bool_decide (kind = lit "module") then Ok (OModule value) else Err (invalid (lit "invalid owner scope"))
  | _ => Err (invalid (lit "invalid owner scope"))
  end.

(** [.map(f).collect::<Result<_, _>>()]. *)
Fixpoint try_map {A B} (f : A → CapsuleResult B) (l : list A) : CapsuleResult (list B) :=
  match l with
  | [] => Ok []
  | x :: l => let? y := f x in let? ys := try_map f l in Ok (y :: ys)
  end.

Definition envelope_fields : list str :=
  [lit "body"; lit "created_at_micros"; lit "encoding_version"; lit "id"; lit "integrity_hash"; lit "kind";
   lit "owner_scope"; lit "previous_integrity"; lit "relationships"; lit "revision"; lit "schema_version";
   lit "storage_class"; lit "tombstone"; lit "updated_at_micros"].

Definition from_value (value : CapsuleValue) : CapsuleResult CapsuleEnvelope :=
  let? map := into_object value (lit "capsule envelope") in
  let? _ := reject_unknown map envelope_fields in
  let? (encoding_version, map) := take_u64 map (lit "encoding_version") in
  let? encoding_version := ok_or (checked 0 65535 encoding_version) (invalid (lit "encoding_version overflow")) in
  let? (id, map) := take_fixed_bytes 16 map (lit "id") in
  let? (kind, map) := take_text map (lit "kind") in
  let? (class, map) := take map (lit "storage_class") in
  let? storage_class := parse_storage_class class in
  let? (owner, map) := take map (lit "owner_scope") in
  let? owner_scope := parse_owner owner in
  let? (schema_version, map) := take_u64 map (lit "schema_version") in
  let? schema_version := ok_or (checked 0 u32_max schema_version) (invalid (lit "schema_version overflow")) in
  let? (revision, map) := take_u64 map (lit "revision") in
  let? (created, map) := take_i64 map (lit "created_at_micros") in
  let? (updated, map) := take_i64 map (lit "updated_at_micros") in
  let? (previous, map) := take map (lit "previous_integrity") in
  let? previous := parse_optional previous parse_digest in
  let? (integrity, map) := take map (lit "integrity_hash") in
  let? integrity := parse_digest integrity in
  let? (tombstone, map) := take_bool map (lit "tombstone") in
  let? (relationships, map) := take map (lit "relationships") in
  let? relationships := into_array relationships (lit "relationships") in
  let? relationships := try_map parse_relationship relationships in
  let? (body, map) := take map (lit "body") in
  let? body := parse_optional body Ok in
  Ok {| ce_encoding_version := encoding_version; ce_id := id; ce_kind := kind; ce_storage_class := storage_class;
        ce_owner_scope := owner_scope; ce_schema_version := schema_version; ce_revision := revision;
        ce_created_at_micros := created; ce_updated_at_micros := updated; ce_previous_integrity := previous;
        ce_integrity_hash := integrity; ce_tombstone := tombstone; ce_relationships := relationships;
        ce_body := body |}.

(** ** Sealing, verifying, reading and writing *)

Section envelope.
Context `{Sha256}.

(** What is hashed. *)
Definition integrity_input (encoded : list byte) : list byte :=
  INTEGRITY_DOMAIN ++ be_bytes 2 (Z.to_N ENCODING_VERSION) ++ bytes DIGEST_ALGORITHM ++ [0%N] ++ encoded.

Definition compute_integrity (self : CapsuleEnvelope) : option (CapsuleResult CapsuleDigest) :=
  if negb (ce_encoding_version self =? ENCODING_VERSION) then Some (Err (UnsupportedEncoding (ce_encoding_version self)))
  else
    value ← as_value self false;
    Some (let? encoded := encode_value value in
          Ok {| dg_algorithm := DIGEST_ALGORITHM; dg_bytes := sha2 (integrity_input encoded) |}).

Definition seal (self : CapsuleEnvelope) : option (CapsuleResult CapsuleEnvelope) :=
  match validate_structure self false with
  | Err e => Some (Err e)
  | Ok _ => result_map (with_integrity self) <$> compute_integrity self
  end.

Definition verify (self : CapsuleEnvelope) : option (CapsuleResult unit) :=
  match validate_structure self true with
  | Err e => Some (Err e)
  | Ok _ =>
      expected ← compute_integrity self;
      Some (let? expected := expected in
            if bool_decide (expected ≠ ce_integrity_hash self) then Err (Invalid (lit "integrity hash mismatch"))
            else Ok tt)
  end.

Definition canonical_bytes (self : CapsuleEnvelope) : option (CapsuleResult (list byte)) :=
  verified ← verify self;
  match verified with
  | Err e => Some (Err e)
  | Ok _ => value ← as_value self true; Some (encode_value value)
  end.

Definition from_canonical_bytes (input : list byte) : option (CapsuleResult CapsuleEnvelope) :=
  match (let? value := decode_canonical_value input in from_value value) with
  | Err e => Some (Err e)
  | Ok envelope => result_map (λ _, envelope) <$> verify envelope
  end.

End envelope.
