(* ===== verification/CapsuleQuery.v ===== *)
(** Capsule definitions, capabilities and queries ([aseman-contracts/src/capsule.rs]): what a kind
    declares, what a provider must offer to store it, and which queries may be asked of it.

    Sets are the lists of their elements in the order of insertion, maps the lists of their members
    by name. *)

From S2P Require Import Prelude Text BTree Bytes Floats Capsule CapsuleCodec Envelope.

Open Scope Z_scope.

(** ** Definitions *)

Inductive ConsistencyProfile := Serializable | Snapshot | AppendLinearizable | ReadCommitted | Eventual.
#[export] Instance ConsistencyProfile_eq_dec : EqDecision ConsistencyProfile. Proof. solve_decision. Defined.

Inductive QueryFieldType := QBool | QInteger | QFloat | QBytes | QText | QTimestampMicros | QCapsuleId.
#[export] Instance QueryFieldType_eq_dec : EqDecision QueryFieldType. Proof. solve_decision. Defined.

Record FieldDefinition := { fd_type : QueryFieldType; fd_searchable : bool; fd_sortable : bool; fd_nullable : bool }.
Record IndexDefinition := { ix_name : str; ix_fields : list str; ix_unique : bool }.
Record RelationshipDefinition := { rd_target_kind : str; rd_required : bool }.

Record CapsuleDefinition := {
  cd_kind : str;
  cd_schema_version : Z;
  cd_storage_class : StorageClass;
  cd_consistency : ConsistencyProfile;
  cd_required_fields : list str;
  cd_fields : list (str * FieldDefinition);
  cd_indexes : list IndexDefinition;
  cd_relationships : list (str * RelationshipDefinition);
}.

(** The loop of [validate] over the indexes, with the names it has seen. *)
Fixpoint validate_indexes (fields : list (str * FieldDefinition)) (seen : list str) (l : list IndexDefinition) : CapsuleResult unit :=
  match l with
  | [] => Ok tt
  | index :: l =>
      let? _ := validate_token (lit "index name") (ix_name index) in
      if bool_decide (ix_name index ∈ seen) || is_empty (ix_fields index)
      then Err (invalid (lit "index names must be unique and contain fields"))
      else
        let? _ := try_each (λ field, if is_some (jget field fields) then Ok tt
                                     else Err (invalid (lit "index references an undeclared field"))) (ix_fields index) in
        validate_indexes fields (ix_name index :: seen) l
  end.

(** [CapsuleDefinition::validate]. *)
Definition definition_validate (self : CapsuleDefinition) : CapsuleResult unit :=
  let? _ := validate_token (lit "capsule kind") (cd_kind self) in
  if (cd_schema_version self =? 0) || is_empty (cd_fields self)
  then Err (invalid (lit "definition version and fields are required"))
  else
    let? _ := try_each (λ required,
        let? field := ok_or (jget required (cd_fields self)) (invalid (lit "required field is not declared")) in
        if fd_nullable field then Err (invalid (lit "required fields cannot be nullable")) else Ok tt)
      (cd_required_fields self) in
    let? _ := validate_indexes (cd_fields self) [] (cd_indexes self) in
    try_each (λ '(name, relationship),
        let? _ := validate_token (lit "relationship name") name in
        validate_token (lit "relationship target kind") (rd_target_kind relationship)) (cd_relationships self).

(** ** Capabilities *)

Inductive StorageCapability :=
| TransactionsSingleCapsule | TransactionsMultiCapsule | RelationshipsForeignKeys | QueriesRange | QueriesFullText
| QueriesRelationshipTraversal | IndexesUnique | EventsChangeStream | ConsistencyLinearizable | ConsistencySnapshot
| ConsistencyReadCommitted | ConsistencyEventual | AppendOnlyVerifiable | GuestDatabaseIsolatedRoles
| GuestDatabaseCatalogIsolation | GuestDatabaseSchemaManagement | GuestDatabaseSafeRoleAssumption.
#[export] Instance StorageCapability_eq_dec : EqDecision StorageCapability. Proof. solve_decision. Defined.

Definition wire_name (c : StorageCapability) : str :=
  match c with
  | TransactionsSingleCapsule => lit "transactions.single_capsule"
  | TransactionsMultiCapsule => lit "transactions.multi_capsule"
  | RelationshipsForeignKeys => lit "relationships.foreign_keys"
  | QueriesRange => lit "queries.range"
  | QueriesFullText => lit "queries.full_text"
  | QueriesRelationshipTraversal => lit "queries.relationship_traversal"
  | IndexesUnique => lit "indexes.unique"
  | EventsChangeStream => lit "events.change_stream"
  | ConsistencyLinearizable => lit "consistency.linearizable"
  | ConsistencySnapshot => lit "consistency.snapshot"
  | ConsistencyReadCommitted => lit "consistency.read_committed"
  | ConsistencyEventual => lit "consistency.eventual"
  | AppendOnlyVerifiable => lit "append_only.verifiable"
  | GuestDatabaseIsolatedRoles => lit "guest_database.isolated_roles"
  | GuestDatabaseCatalogIsolation => lit "guest_database.catalog_isolation"
  | GuestDatabaseSchemaManagement => lit "guest_database.schema_management"
  | GuestDatabaseSafeRoleAssumption => lit "guest_database.safe_role_assumption"
  end.

Record ProviderCapabilities := {
  pc_provider_id : str; pc_capabilities : list StorageCapability; pc_max_query_limit : Z; pc_max_transaction_capsules : Z }.
Record CapabilityReport := { cr_compatible : bool; cr_missing : list StorageCapability }.

Definition consistency_capability (c : ConsistencyProfile) : StorageCapability :=
  match c with
  | Serializable | AppendLinearizable => ConsistencyLinearizable
  | Snapshot => ConsistencySnapshot
  | ReadCommitted => ConsistencyReadCommitted
  | Eventual => ConsistencyEventual
  end.

Definition required_capabilities (definition : CapsuleDefinition) : list StorageCapability :=
  [TransactionsSingleCapsule; consistency_capability (cd_consistency definition)]
  ++ (if bool_decide (cd_consistency definition = AppendLinearizable) then [AppendOnlyVerifiable] else [])
  ++ (if negb (is_empty (cd_relationships definition)) then [RelationshipsForeignKeys] else [])
  ++ (if existsb ix_unique (cd_indexes definition) then [IndexesUnique] else [])
  ++ (if bool_decide (cd_storage_class definition = SGuestData)
      then [GuestDatabaseIsolatedRoles; GuestDatabaseCatalogIsolation; GuestDatabaseSchemaManagement; GuestDatabaseSafeRoleAssumption]
      else []).

Definition negotiate_capabilities (definition : CapsuleDefinition) (provider : ProviderCapabilities) : CapsuleResult CapabilityReport :=
  let? _ := definition_validate definition in
  let? _ := validate_token (lit "provider_id") (pc_provider_id provider) in
  if (pc_max_query_limit provider =? 0) || (pc_max_transaction_capsules provider =? 0)
  then Err (invalid (lit "provider limits must be positive"))
  else
    let missing := filter (λ c, c ∉ pc_capabilities provider) (required_capabilities definition) in
    Ok {| cr_compatible := is_empty missing; cr_missing := missing |}.

(** ** Queries *)

Inductive ComparisonOperator := Equal | NotEqual | LessThan | LessOrEqual | GreaterThan | GreaterOrEqual.

Inductive QueryPredicate :=
| PCompare (field : str) (operator : ComparisonOperator) (value : CapsuleValue)
| PAnd (predicates : list QueryPredicate)
| POr (predicates : list QueryPredicate)
| PNot (predicate : QueryPredicate)
| PRelationshipExists (relationship : str).

Inductive QueryAggregate :=
| QCount (alias : str)
| QSum (field alias : str)
| QMinimum (field alias : str)
| QMaximum (field alias : str).

Record RelationshipTraversal := { rt_relationship : str; rt_target_kind : str; rt_projection : list str; rt_limit : Z }.
Record QueryCursor := {
  qc_version : Z; qc_kind : str; qc_query_digest : CapsuleDigest; qc_position : list byte; qc_expires_at_micros : i64;
  qc_signature : list byte }.
Inductive SortDirection := Ascending | Descending.
Record QuerySort := { qs_field : str; qs_direction : SortDirection }.
Record CapsuleQuery := {
  q_kind : str;
  q_predicate : option QueryPredicate;
  q_projection : list str;
  q_sort : list QuerySort;
  q_aggregates : list QueryAggregate;
  q_traversals : list RelationshipTraversal;
  q_limit : Z;
  q_cursor : option QueryCursor;
}.

Definition require_field (definition : CapsuleDefinition) (name : str) : CapsuleResult FieldDefinition :=
  ok_or (jget name (cd_fields definition)) (invalid (lit "query references an undeclared field")).

Definition field_accepts_value (field : FieldDefinition) (value : CapsuleValue) : bool :=
  match value with
  | CNull => fd_nullable field
  | _ =>
      match fd_type field, value with
      | QBool, CBool _ => true
      | (QInteger | QTimestampMicros), CInteger _ => true
      | QFloat, (CFloat _ | CInteger _) => true
      | (QBytes | QCapsuleId), CBytes _ => true
      | QText, CText _ => true
      | _, _ => false
      end
      && (negb (bool_decide (fd_type field = QCapsuleId))
          || match value with CBytes l => Z.of_nat (length l) =? 16 | _ => false end)
  end.

(** A leaf of a predicate. *)
Definition validate_compare (definition : CapsuleDefinition) (field : str) (value : CapsuleValue) : CapsuleResult unit :=
  let? field := require_field definition field in
  if negb (fd_searchable field) then Err (invalid (lit "query field is not searchable"))
  else
    let? _ := validate_value (Some value) in
    if negb (field_accepts_value field value) then Err (invalid (lit "query value does not match the declared field type")) else Ok tt.

Fixpoint validate_predicate (definition : CapsuleDefinition) (predicate : QueryPredicate) (depth : usize) : CapsuleResult unit :=
  if MAX_QUERY_DEPTH <? depth then Err (invalid (lit "query predicate nesting exceeds the limit"))
  else match predicate with
  | PCompare field _ value => validate_compare definition field value
  | PAnd predicates | POr predicates =>
      if is_empty predicates || (64 <? Z.of_nat (length predicates)) then Err (invalid (lit "boolean predicate width is invalid"))
      else try_each (λ child, validate_predicate definition child (depth + 1)) predicates
  | PNot predicate => validate_predicate definition predicate (depth + 1)
  | PRelationshipExists relationship =>
      if is_some (jget relationship (cd_relationships definition)) then Ok tt
      else Err (invalid (lit "query references an undeclared relationship"))
  end.

Definition validate_sort (definition : CapsuleDefinition) (sort : QuerySort) : CapsuleResult unit :=
  let? field := require_field definition (qs_field sort) in
  if negb (fd_sortable field) then Err (invalid (lit "query sort field is not sortable")) else Ok tt.

Definition is_numeric (t : QueryFieldType) : bool := match t with QInteger | QFloat => true | _ => false end.

Definition validate_aggregate (definition : CapsuleDefinition) (aggregate : QueryAggregate) : CapsuleResult unit :=
  let? (field, alias) :=
    match aggregate with
    | QCount alias => Ok (None, alias)
    | QSum field alias =>
        let? field := require_field definition field in
        if negb (fd_searchable field) || negb (is_numeric (fd_type field))
        then Err (invalid (lit "sum requires a searchable numeric field")) else Ok (None, alias)
    | QMinimum field alias | QMaximum field alias => Ok (Some field, alias)
    end in
  let? _ := validate_token (lit "aggregate alias") alias in
  match field with
  | Some field =>
      let? field := require_field definition field in
      if negb (fd_searchable field) then Err (invalid (lit "aggregate field is not searchable")) else Ok tt
  | None => Ok tt
  end.

Definition validate_traversal (definition : CapsuleDefinition) (traversal : RelationshipTraversal) : CapsuleResult unit :=
  if (rt_limit traversal =? 0) || (MAX_QUERY_LIMIT <? rt_limit traversal)
  then Err (invalid (lit "relationship traversal limit is invalid"))
  else
    let? relationship := ok_or (jget (rt_relationship traversal) (cd_relationships definition))
      (invalid (lit "query references an undeclared relationship")) in
    if bool_decide (rd_target_kind relationship ≠ rt_target_kind traversal)
    then Err (invalid (lit "relationship target kind does not match")) else Ok tt.

Definition validate_cursor (query : CapsuleQuery) (cursor : QueryCursor) : CapsuleResult unit :=
  if negb (qc_version cursor =? 1) || bool_decide (qc_kind cursor ≠ q_kind query)
     || (qc_expires_at_micros cursor <=? 0) || is_empty (qc_signature cursor)
  then Err (invalid (lit "query cursor binding is invalid"))
  else validate_digest (qc_query_digest cursor).

(** [CapsuleQuery::validate]. *)
Definition query_validate (self : CapsuleQuery) (definition : CapsuleDefinition) : CapsuleResult unit :=
  let? _ := definition_validate definition in
  if bool_decide (q_kind self ≠ cd_kind definition) || (q_limit self =? 0) || (MAX_QUERY_LIMIT <? q_limit self)
  then Err (invalid (lit "query kind or limit is invalid"))
  else
    let? _ := try_each (λ field, let? _ := require_field definition field in Ok tt) (q_projection self) in
    let? _ := try_each (validate_sort definition) (q_sort self) in
    let? _ := try_each (validate_aggregate definition) (q_aggregates self) in
    let? _ := try_each (validate_traversal definition) (q_traversals self) in
    let? _ := match q_cursor self with Some cursor => validate_cursor self cursor | None => Ok tt end in
    match q_predicate self with Some predicate => validate_predicate definition predicate 1 | None => Ok tt end.

Definition validate_with_registry (self : CapsuleQuery) (definitions : list (str * CapsuleDefinition)) : CapsuleResult unit :=
  let? definition := ok_or (jget (q_kind self) definitions) (invalid (lit "query kind is not registered")) in
  let? _ := query_validate self definition in
  try_each (λ traversal,
    let? target := ok_or (jget (rt_target_kind traversal) definitions) (invalid (lit "relationship target kind is not registered")) in
    let? _ := definition_validate target in
    try_each (λ field, let? _ := require_field target field in Ok tt) (rt_projection traversal)) (q_traversals self).

(** ** What acceptance means *)

Section predicate_rect.
Context (P : QueryPredicate → Prop).
Context (Hcompare : ∀ field operator value, P (PCompare field operator value)).
Context (Hand : ∀ l, Forall P l → P (PAnd l)) (Hor : ∀ l, Forall P l → P (POr l)).
Context (Hnot : ∀ p, P p → P (PNot p)) (Hexists : ∀ relationship, P (PRelationshipExists relationship)).
Fixpoint QueryPredicate_induction (p : QueryPredicate) : P p :=
  let all := fix all (l : list QueryPredicate) : Forall P l :=
    match l with [] => Forall_nil_2 P | p :: l => Forall_cons_2 P p l (QueryPredicate_induction p) (all l) end in
  match p with
  | PCompare field operator value => Hcompare field operator value
  | PAnd l => Hand l (all l)
  | POr l => Hor l (all l)
  | PNot p => Hnot p (QueryPredicate_induction p)
  | PRelationshipExists relationship => Hexists relationship
  end.
End predicate_rect.

(** How deep a predicate nests, the widths of its connectives, and its leaves. *)
Fixpoint height (p : QueryPredicate) : Z :=
  match p with
  | PCompare _ _ _ | PRelationshipExists _ => 1
  | PAnd l | POr l => 1 + foldr Z.max 0 (height <$> l)
  | PNot p => 1 + height p
  end.
Fixpoint widths (p : QueryPredicate) : list nat :=
  match p with
  | PCompare _ _ _ | PRelationshipExists _ => []
  | PAnd l | POr l => length l :: concat (widths <$> l)
  | PNot p => widths p
  end.
Fixpoint leaves (p : QueryPredicate) : list QueryPredicate :=
  match p with
  | PCompare _ _ _ | PRelationshipExists _ => [p]
  | PAnd l | POr l => concat (leaves <$> l)
  | PNot p => leaves p
  end.

(** A leaf that the definition can answer: a comparison of a searchable field with a value of its
    type, or a declared relationship. *)
Definition answerable (definition : CapsuleDefinition) (leaf : QueryPredicate) : Prop :=
  match leaf with
  | PCompare field _ value =>
      ∃ f, jget field (cd_fields definition) = Some f ∧ fd_searchable f = true ∧ field_accepts_value f value = true
           ∧ validate_value (Some value) = Ok tt
  | PRelationshipExists relationship => is_Some (jget relationship (cd_relationships definition))
  | _ => False
  end.

Lemma validate_compare_Ok definition field operator value :
  validate_compare definition field value = Ok tt ↔ answerable definition (PCompare field operator value).
Proof.
  unfold validate_compare, require_field, answerable.
  destruct (jget field (cd_fields definition)) as [f|]; cbn [ok_or]; [|split; [done|by intros (? & ? & _)]].
  split.
  - destruct (fd_searchable f) eqn:Es; cbn [negb]; [|done]. destruct (validate_value (Some value)) as [[]|]; [|done].
    destruct (field_accepts_value f value) eqn:Ea; cbn [negb]; [|done]. intros _. by exists f.
  - intros (g & [= <-] & -> & -> & ->). done.
Qed.

Lemma height_pos p : 1 ≤ height p.
Proof.
  assert (∀ l, 0 ≤ foldr Z.max 0 (height <$> l)) as Hl by (induction l; cbn; lia).
  induction p as [|l _|l _|p IH|] using QueryPredicate_induction; cbn [height]; try specialize (Hl l); lia.
Qed.
Lemma foldr_max_le (l : list Z) b : 0 ≤ b → foldr Z.max 0 l ≤ b ↔ Forall (λ x, x ≤ b) l.
Proof. intros Hb. induction l as [|x l IH]; cbn; [split; [constructor|lia]|]. rewrite Forall_cons, <-IH. lia. Qed.

Notation accepted definition p depth :=
  (depth + height p - 1 ≤ MAX_QUERY_DEPTH ∧ Forall (λ w, (1 ≤ w ≤ 64)%nat) (widths p) ∧ Forall (answerable definition) (leaves p)).

Lemma validate_all definition l depth :
  0 ≤ depth → depth ≤ MAX_QUERY_DEPTH → Forall (λ p, ∀ d, 0 ≤ d → validate_predicate definition p d = Ok tt ↔ accepted definition p d) l →
  (if is_empty l || (64 <? Z.of_nat (length l)) then Err (invalid (lit "boolean predicate width is invalid"))
   else try_each (λ child, validate_predicate definition child (depth + 1)) l) = Ok tt ↔
  depth + (1 + foldr Z.max 0 (height <$> l)) - 1 ≤ MAX_QUERY_DEPTH
  ∧ Forall (λ w, (1 ≤ w ≤ 64)%nat) (length l :: concat (widths <$> l)) ∧ Forall (answerable definition) (concat (leaves <$> l)).
Proof.
  intros H0 Hd IH. rewrite Forall_cons, !Forall_concat, !Forall_fmap.
  assert (depth + (1 + foldr Z.max 0 (height <$> l)) - 1 ≤ MAX_QUERY_DEPTH ↔ depth + foldr Z.max 0 (height <$> l) ≤ MAX_QUERY_DEPTH) as -> by lia.
  destruct (is_empty l || _) eqn:Hw.
  - split; [done|]. intros (_ & [Hl _] & _). destruct l; cbn in Hw, Hl; [lia|]. apply Z.ltb_lt in Hw. lia.
  - apply orb_false_iff in Hw as [He Hw%Z.ltb_ge]. rewrite try_each_Ok.
    assert ((1 ≤ length l ≤ 64)%nat) as Hlen by (destruct l; cbn in *; [done|lia]).
    assert (depth + foldr Z.max 0 (height <$> l) ≤ MAX_QUERY_DEPTH ↔ Forall (λ p, depth + 1 + height p - 1 ≤ MAX_QUERY_DEPTH) l) as ->.
    { transitivity (foldr Z.max 0 (height <$> l) ≤ MAX_QUERY_DEPTH - depth); [lia|].
      rewrite foldr_max_le, Forall_fmap, !Forall_forall by lia. split; intros Hp p Hin; specialize (Hp p Hin); cbn in *; lia. }
    rewrite !Forall_forall in *. split.
    + intros Hv. split; [|split; [split; [done|]|]]; intros p Hp; apply (IH p Hp (depth + 1)); (lia || by apply Hv).
    + intros (Hh & [_ Hws] & Hls) p Hp. apply (IH p Hp); [lia|]. split; [by apply Hh|]. split; [by apply Hws|by apply Hls].
Qed.

Lemma validate_predicate_Ok definition p depth : 0 ≤ depth →
  validate_predicate definition p depth = Ok tt ↔ accepted definition p depth.
Proof.
  revert depth. induction p as [field operator value|l IH|l IH|p IH|relationship] using QueryPredicate_induction; intros depth H0;
    match goal with |- context [height ?p] => pose proof (height_pos p) as Hpos end;
    cbn [validate_predicate height widths leaves] in *; destruct (Z.ltb_spec MAX_QUERY_DEPTH depth) as [Hd|Hd];
    try (split; [done|]; intros [Hh _]; lia).
  - rewrite (validate_compare_Ok _ _ operator), Forall_singleton. split; [intros; split; [lia|]; by split|by intros (_ & _ & ?)].
  - by apply validate_all.
  - by apply validate_all.
  - rewrite IH by lia. split; intros (Hh & Hr); (split; [lia|done]).
  - rewrite Forall_singleton. cbn [answerable]. destruct (jget relationship _) as [r|]; cbn [is_some].
    + split; [intros _; split; [lia|]; split; [constructor|by eexists]|done].
    + split; [done|]. by intros (_ & _ & [? ?]).
Qed.

(** Every field that a query names. *)
Definition query_fields (query : CapsuleQuery) : list str :=
  q_projection query ++ (qs_field <$> q_sort query)
  ++ omap (λ a, match a with QCount _ => None | QSum f _ | QMinimum f _ | QMaximum f _ => Some f end) (q_aggregates query)
  ++ omap (λ p, match p with PCompare f _ _ => Some f | _ => None end) (match q_predicate query with Some p => leaves p | None => [] end).

Lemma require_field_Ok definition name : is_Ok (require_field definition name) → is_Some (jget name (cd_fields definition)).
Proof. unfold require_field. intros [f Hf]. destruct (jget name _); [by eexists|done]. Qed.

Lemma aggregate_declared definition a f :
  validate_aggregate definition a = Ok tt →
  match a with QCount _ => None | QSum f _ | QMinimum f _ | QMaximum f _ => Some f end = Some f →
  is_Some (jget f (cd_fields definition)).
Proof.
  intros Hv Ha. apply require_field_Ok. unfold validate_aggregate in Hv.
  destruct a as [alias|g alias|g alias|g alias]; [done|injection Ha as ->..].
  - destruct (require_field definition f); [by eexists|done].
  - destruct (validate_token _ _); [|done]. destruct (require_field definition f); [by eexists|done].
  - destruct (validate_token _ _); [|done]. destruct (require_field definition f); [by eexists|done].
Qed.

(** An accepted query can be answered.  The predicate is accepted exactly when it nests at most
    sixteen levels deep, each of its connectives has between one and sixty-four operands, and each
    comparison is of a searchable field with a value of its declared type; and when the whole query
    is accepted, it is for the kind of the definition, asks for between one and ten thousand rows,
    and every field that it projects, sorts by, aggregates or compares is declared. *)
Theorem accepted_queries definition query :
  (∀ p, validate_predicate definition p 1 = Ok tt ↔
     height p ≤ MAX_QUERY_DEPTH ∧ Forall (λ w, (1 ≤ w ≤ 64)%nat) (widths p) ∧ Forall (answerable definition) (leaves p))
  ∧ (query_validate query definition = Ok tt →
     definition_validate definition = Ok tt ∧ q_kind query = cd_kind definition
     ∧ q_limit query ≠ 0 ∧ q_limit query ≤ MAX_QUERY_LIMIT
     ∧ ∀ f, f ∈ query_fields query → is_Some (jget f (cd_fields definition))).
Proof.
  assert (∀ p, validate_predicate definition p 1 = Ok tt ↔
     height p ≤ MAX_QUERY_DEPTH ∧ Forall (λ w, (1 ≤ w ≤ 64)%nat) (widths p) ∧ Forall (answerable definition) (leaves p)) as Hp.
  { intros p. rewrite validate_predicate_Ok by done. by replace (1 + height p - 1) with (height p) by lia. }
  split; [done|]. unfold query_validate. destruct (definition_validate definition) as [[]|]; [|done].
  case_bool_decide as Hk; [done|]. cbn [orb].
  destruct (Z.eqb_spec (q_limit query) 0); [done|]. destruct (Z.ltb_spec MAX_QUERY_LIMIT (q_limit query)); [done|]. cbn [orb].
  destruct (try_each _ (q_projection query)) as [[]|] eqn:E1; [|done]. destruct (try_each _ (q_sort query)) as [[]|] eqn:E2; [|done].
  destruct (try_each _ (q_aggregates query)) as [[]|] eqn:E3; [|done]. destruct (try_each _ (q_traversals query)) as [[]|]; [|done].
  destruct (match q_cursor query with Some _ => _ | None => _ end) as [[]|]; [|done]. intros Hpred.
  split; [done|]. split; [done|]. split; [done|]. split; [done|].
  apply try_each_Ok in E1, E2, E3. rewrite Forall_forall in E1. rewrite Forall_forall in E2. rewrite Forall_forall in E3. unfold query_fields.
  intros f [Hf|[Hf|[Hf|Hf]%elem_of_app]%elem_of_app]%elem_of_app.
  - apply require_field_Ok. specialize (E1 f Hf). destruct (require_field definition f); [by eexists|done].
  - apply list_elem_of_fmap in Hf as (o & -> & Ho). apply require_field_Ok. specialize (E2 o Ho). unfold validate_sort in E2.
    destruct (require_field definition (qs_field o)); [by eexists|done].
  - apply list_elem_of_omap in Hf as (a & Ha & Hf). by eapply aggregate_declared; [apply E3|].
  - apply list_elem_of_omap in Hf as (leaf & Hin & Hf). destruct (q_predicate query) as [p|]; [|by apply elem_of_nil in Hin].
    apply Hp in Hpred as (_ & _ & Hl). rewrite Forall_forall in Hl. specialize (Hl leaf Hin).
    destruct leaf; try done. injection Hf as ->. destruct Hl as (fd & Hfd & _). by eexists.
Qed.

(** A provider is compatible exactly when it offers all that the kind needs; a kind that asks for
    serializable records is never placed on a provider without linearizable ones. *)
Lemma negotiation_exact definition provider report :
  negotiate_capabilities definition provider = Ok report →
  (cr_compatible report = true ↔ required_capabilities definition ⊆ pc_capabilities provider)
  ∧ (cr_compatible report = true → cd_consistency definition = Serializable → ConsistencyLinearizable ∈ pc_capabilities provider).
Proof.
  unfold negotiate_capabilities. destruct (definition_validate definition); [|done]. destruct (validate_token _ _); [|done].
  destruct (_ || _); [done|]. intros [= <-]. cbn [cr_compatible].
  assert (is_empty (filter (λ c, c ∉ pc_capabilities provider) (required_capabilities definition)) = true
    ↔ required_capabilities definition ⊆ pc_capabilities provider) as Hc.
  { destruct (filter _ _) as [|c l] eqn:Ef; cbn.
    - split; [|done]. intros _ c Hc. destruct (decide (c ∈ pc_capabilities provider)) as [|Hn]; [done|].
      assert (c ∈ filter (λ c, c ∉ pc_capabilities provider) (required_capabilities definition)) as Hin by (by apply list_elem_of_filter).
      rewrite Ef in Hin. by apply elem_of_nil in Hin.
    - split; [done|]. intros Hs. assert (c ∈ filter (λ c, c ∉ pc_capabilities provider) (required_capabilities definition)) as Hin by (rewrite Ef; left).
      apply list_elem_of_filter in Hin as [Hn Hin]. by apply Hs in Hin. }
  split; [done|]. intros Hy%Hc Hs. apply Hy. unfold required_capabilities. rewrite Hs. right. left.
Qed.
