(* ===== verification/Sealed.v ===== *)
(** Sealed envelopes: reading and writing them are inverse, and the integrity hash identifies an
    envelope and the history behind it. *)

From S2P Require Import Prelude Text BTree Bytes Floats Capsule CapsuleCodec Envelope.

Open Scope Z_scope.

(** ** Envelopes of the source's type *)

Definition is_id (l : list byte) : Prop := is_bytes l ∧ length l = 16%nat.
Definition digest_wf (d : CapsuleDigest) : Prop := is_text (dg_algorithm d) ∧ is_bytes (dg_bytes d).
Definition class_wf (c : StorageClass) : Prop := match c with SModule name => is_text name | _ => True end.
Definition owner_wf (o : OwnerScope) : Prop :=
  match o with OGlobal => True | ONode id | OCreature id => is_id id | OModule name => is_text name end.
Definition relationship_wf (r : CapsuleRelationship) : Prop :=
  is_text (rl_name r) ∧ is_text (rl_target_kind r) ∧ is_id (rl_target_id r).
Definition option_wf {A} (P : A → Prop) (o : option A) : Prop := match o with Some a => P a | None => True end.

Record envelope_wf (e : CapsuleEnvelope) : Prop := {
  ew_encoding : 0 ≤ ce_encoding_version e ≤ 65535;
  ew_id : is_id (ce_id e);
  ew_kind : is_text (ce_kind e);
  ew_class : class_wf (ce_storage_class e);
  ew_owner : owner_wf (ce_owner_scope e);
  ew_schema : in_u32 (ce_schema_version e);
  ew_revision : in_u64 (ce_revision e);
  ew_created : in_i64 (ce_created_at_micros e);
  ew_updated : in_i64 (ce_updated_at_micros e);
  ew_previous : option_wf digest_wf (ce_previous_integrity e);
  ew_integrity : digest_wf (ce_integrity_hash e);
  ew_relationships : Forall relationship_wf (ce_relationships e);
  ew_body : option_wf value_wf (ce_body e);
}.

(** ** The members of an envelope *)

Definition envelope_members (e : CapsuleEnvelope) : list (str * CapsuleValue) := [
  (lit "body", option_value (ce_body e));
  (lit "created_at_micros", CInteger (ce_created_at_micros e));
  (lit "encoding_version", CInteger (ce_encoding_version e));
  (lit "id", CBytes (ce_id e));
  (lit "integrity_hash", digest_value (ce_integrity_hash e));
  (lit "kind", CText (ce_kind e));
  (lit "owner_scope", owner_value (ce_owner_scope e));
  (lit "previous_integrity", option_value (digest_value <$> ce_previous_integrity e));
  (lit "relationships", CArray (relationship_value <$> ce_relationships e));
  (lit "revision", CInteger (ce_revision e));
  (lit "schema_version", CInteger (ce_schema_version e));
  (lit "storage_class", storage_class_value (ce_storage_class e));
  (lit "tombstone", CBool (ce_tombstone e));
  (lit "updated_at_micros", CInteger (ce_updated_at_micros e))].

(** An envelope of the type has a value exactly when its revision fits an [i64]; else [integer]
    panics. *)
Lemma as_value_members e include : envelope_wf e →
  as_value e include =
  if bool_decide (ce_revision e ≤ i64_max)
  then Some (CObject (if include then envelope_members e else jremove (lit "integrity_hash") (envelope_members e)))
  else None.
Proof.
  intros [He _ _ _ _ Hs Hr Hc Hu _ _ _ _]. unfold as_value, integer.
  rewrite (checked_in _ _ (ce_created_at_micros e)), (checked_in _ _ (ce_encoding_version e)),
    (checked_in _ _ (ce_schema_version e)), (checked_in _ _ (ce_updated_at_micros e)) by ilia.
  unfold checked. destruct (decide (ce_revision e ≤ i64_max)) as [Hle|Hgt].
  - rewrite !bool_decide_eq_true_2 by ilia. by destruct include.
  - rewrite !bool_decide_eq_false_2 by ilia. done.
Qed.

Lemma fixed_bytes_id l : is_id l → fixed_bytes 16 l = Some l.
Proof. intros [_ Hl]. unfold fixed_bytes. by rewrite bool_decide_eq_true_2. Qed.

Lemma parse_digest_value d : parse_digest (digest_value d) = let? _ := validate_digest d in Ok d.
Proof. by destruct d. Qed.
Lemma parse_relationship_value r : relationship_wf r → parse_relationship (relationship_value r) = Ok r.
Proof. intros (_ & _ & Hid%fixed_bytes_id). destruct r. cbn in Hid. lazy -[fixed_bytes]. by rewrite Hid. Qed.
Lemma parse_storage_class_value c : parse_storage_class (storage_class_value c) = Ok c.
Proof. by destruct c. Qed.
Lemma parse_owner_value o : owner_wf o → parse_owner (owner_value o) = Ok o.
Proof. intros Ho. destruct o; try done; apply fixed_bytes_id in Ho; lazy -[fixed_bytes]; by rewrite Ho. Qed.
Lemma try_map_Ok {A B} (f : A → CapsuleResult B) (g : B → A) l :
  Forall (λ y, f (g y) = Ok y) l → try_map f (g <$> l) = Ok l.
Proof. induction 1 as [|y l Hy _ IH]; [done|]. cbn. by rewrite Hy, IH. Qed.

Lemma take_Ok m k v m' : take m k = Ok (v, m') ↔ jget k m = Some v ∧ m' = jremove k m.
Proof. unfold take. destruct (jget k m); naive_solver. Qed.

Lemma from_value_eval (b o p i c : CapsuleValue) rs ev id kind class owner schema rev created updated prev integ (tomb : bool) rels body :
  u64_try_from ev = Some ev → checked 0 65535 ev = Some ev → fixed_bytes 16 id = Some id →
  parse_storage_class c = Ok class → parse_owner o = Ok owner →
  u64_try_from schema = Some schema → checked 0 u32_max schema = Some schema → u64_try_from rev = Some rev →
  parse_optional p parse_digest = Ok prev → parse_digest i = Ok integ →
  try_map parse_relationship rs = Ok rels → parse_optional b Ok = Ok body →
  from_value (CObject [
    (lit "body", b); (lit "created_at_micros", CInteger created); (lit "encoding_version", CInteger ev);
    (lit "id", CBytes id); (lit "integrity_hash", i); (lit "kind", CText kind); (lit "owner_scope", o);
    (lit "previous_integrity", p); (lit "relationships", CArray rs); (lit "revision", CInteger rev);
    (lit "schema_version", CInteger schema); (lit "storage_class", c); (lit "tombstone", CBool tomb);
    (lit "updated_at_micros", CInteger updated)])
  = Ok (Build_CapsuleEnvelope ev id kind class owner schema rev created updated prev integ tomb rels body).
Proof.
  intros E1 E2 E3 E4 E5 E6 E7 E8 E9 E10 E11 E12.
  lazy -[parse_storage_class parse_owner parse_optional parse_digest try_map parse_relationship fixed_bytes
    u64_try_from checked u32_max].
  by repeat (first [rewrite E1|rewrite E2|rewrite E3|rewrite E4|rewrite E5|rewrite E6|rewrite E7|rewrite E8|rewrite E9
    |rewrite E10|rewrite E11|rewrite E12]; cbv iota beta).
Qed.

(** Reading the value of an envelope gives the envelope. *)
Lemma from_members e :
  envelope_wf e → ce_revision e ≤ i64_max → ce_body e ≠ Some CNull →
  validate_digest (ce_integrity_hash e) = Ok tt →
  match ce_previous_integrity e with Some d => validate_digest d | None => Ok tt end = Ok tt →
  from_value (CObject (envelope_members e)) = Ok e.
Proof.
  intros Hwf Hr Hb Hi Hp. destruct e as [ev id kind class owner schema rev created updated prev integ tomb rels body].
  destruct Hwf as [He Hid _ _ Ho Hs Hrev _ _ _ _ Hrel _]. cbn in * |-.
  apply from_value_eval; try (apply checked_in; ilia).
  - by apply fixed_bytes_id.
  - apply parse_storage_class_value.
  - by apply parse_owner_value.
  - destruct prev as [d|]; [|done]. cbn [fmap option_fmap option_map option_value default].
    change (result_map Some (parse_digest (digest_value d)) = Ok (Some d)). by rewrite parse_digest_value, Hp.
  - cbn [ce_integrity_hash]. by rewrite parse_digest_value, Hi.
  - apply try_map_Ok. eapply Forall_impl; [done|]. apply parse_relationship_value.
  - by destruct body as [[]|].
Qed.

(** ** What is read was written *)

Lemma jget_jremove_Some {V} k k' (m : list (str * V)) v : jget k (jremove k' m) = Some v → jget k m = Some v.
Proof. rewrite jget_jremove. by case_bool_decide. Qed.

Lemma take_text_Ok m k s m' : take_text m k = Ok (s, m') → jget k m = Some (CText s) ∧ m' = jremove k m.
Proof. unfold take_text, take. destruct (jget k m) as [[]|]; naive_solver. Qed.
Lemma take_i64_Ok m k z m' : take_i64 m k = Ok (z, m') → jget k m = Some (CInteger z) ∧ m' = jremove k m.
Proof. unfold take_i64, take. destruct (jget k m) as [[]|]; naive_solver. Qed.
Lemma take_u64_Ok m k z m' : take_u64 m k = Ok (z, m') → jget k m = Some (CInteger z) ∧ m' = jremove k m ∧ in_u64 z.
Proof.
  unfold take_u64. destruct (take_i64 m k) as [[y m1]|] eqn:E; [|done]. apply take_i64_Ok in E as [Hg ->].
  destruct (u64_try_from y) as [y'|] eqn:Ey; [|done]. apply checked_Some in Ey as [-> ?]. by intros [= <- <-].
Qed.
Lemma take_bool_Ok m k b m' : take_bool m k = Ok (b, m') → jget k m = Some (CBool b) ∧ m' = jremove k m.
Proof. unfold take_bool, take. destruct (jget k m) as [[]|]; naive_solver. Qed.
Lemma fixed_bytes_Some n l r : fixed_bytes n l = Some r → r = l ∧ length l = n.
Proof. unfold fixed_bytes. case_bool_decide; naive_solver. Qed.
Lemma take_fixed_bytes_Ok n m k l m' :
  take_fixed_bytes n m k = Ok (l, m') → jget k m = Some (CBytes l) ∧ m' = jremove k m ∧ length l = n.
Proof.
  unfold take_fixed_bytes, take. destruct (jget k m) as [[| | | |l'| | |]|]; try done.
  destruct (fixed_bytes n l') as [r|] eqn:E; [|done]. apply fixed_bytes_Some in E as [-> ?]. by intros [= <- <-].
Qed.
Lemma into_object_Ok v label m : into_object v label = Ok m → v = CObject m.
Proof. destruct v; naive_solver. Qed.
Lemma into_array_Ok v label l : into_array v label = Ok l → v = CArray l.
Proof. destruct v; naive_solver. Qed.

(** A map that holds the given members and no key beyond them is the given map. *)
Lemma object_ext m M :
  ordered m → ordered M → reject_unknown m M.*1 = Ok tt → Forall (λ kv, jget kv.1 m = Some kv.2) M → m = M.
Proof.
  intros Hm HM Hr Hall. rewrite Forall_forall in Hall. apply ordered_ext; [done|done|]. intros k.
  destruct (jget k M) as [v|] eqn:E.
  - apply jget_elem in E; [|done]. by apply (Hall (k, v)).
  - destruct (jget k m) as [v|] eqn:Em; [|done]. exfalso. unfold reject_unknown in Hr.
    destruct (existsb _ _) eqn:Hx; [done|]. apply jget_elem in Em; [|done].
    assert (k ∈ M.*1) as Hk.
    { apply dec_stable. intros Hn. rewrite <-not_true_iff_false, existsb_spec in Hx. apply Hx. exists k.
      split; [by apply (list_elem_of_fmap_2 fst) in Em|]. by rewrite bool_decide_eq_false_2. }
    apply list_elem_of_fmap in Hk as ([k' v'] & -> & Hin). apply jget_elem in Hin; [|done]. cbn in *. congruence.
Qed.

(** The first step of [H : (let? x := r in k) = Ok _] succeeded. *)
Ltac unlet H :=
  let E := fresh "E" in
  match type of H with
  | (match ?r with Ok _ => _ | Err _ => _ end) = Ok _ => destruct r as [?|] eqn:E; [|discriminate H]
  | (match ?p with pair _ _ => _ end) = Ok _ => destruct p as [??]
  end.
Ltac untake :=
  repeat match goal with
  | u : unit |- _ => destruct u
  | E : take _ _ = Ok (_, _) |- _ => apply take_Ok in E as [E ->]
  | E : take_text _ _ = Ok (_, _) |- _ => apply take_text_Ok in E as [E ->]
  | E : take_i64 _ _ = Ok (_, _) |- _ => apply take_i64_Ok in E as [E ->]
  | E : take_u64 _ _ = Ok (_, _) |- _ => apply take_u64_Ok in E as (E & -> & ?)
  | E : take_bool _ _ = Ok (_, _) |- _ => apply take_bool_Ok in E as [E ->]
  | E : take_fixed_bytes _ _ _ = Ok (_, _) |- _ => apply take_fixed_bytes_Ok in E as (E & -> & ?)
  | E : jget _ (jremove _ _) = Some _ |- _ => apply jget_jremove_Some in E
  | E : into_object _ _ = Ok _ |- _ => apply into_object_Ok in E as ->
  | E : into_array _ _ = Ok _ |- _ => apply into_array_Ok in E as ->
  end.

Lemma member_wf m k v : value_wf (CObject m) → jget k m = Some v → value_wf v.
Proof.
  intros Hw Hg. inversion Hw as [| | | | | | |? Ho Hm]; subst. apply jget_elem in Hg; [|done].
  rewrite Forall_forall in Hm. by destruct (Hm _ Hg).
Qed.
Lemma object_ordered m : value_wf (CObject m) → ordered m.
Proof. by inversion 1. Qed.

Ltac ordered_lit := repeat constructor; done.

Lemma parse_digest_inv v d : value_wf v → parse_digest v = Ok d →
  v = digest_value d ∧ digest_wf d ∧ validate_digest d = Ok tt.
Proof.
  intros Hw H. unfold parse_digest in H. repeat unlet H. untake. injection H as <-. destruct c; try discriminate E3.
  apply Ok_inj in E3 as ->. pose proof (object_ordered _ Hw) as Ho.
  apply (member_wf _ _ _ Hw) in E1 as W1, E2 as W2. inversion W1; inversion W2; subst.
  split; [|done]. unfold digest_value. f_equal.
  apply object_ext; [done|ordered_lit|done|]. by repeat constructor.
Qed.
Lemma parse_relationship_inv v r : value_wf v → parse_relationship v = Ok r →
  v = relationship_value r ∧ relationship_wf r.
Proof.
  intros Hw H. unfold parse_relationship in H. repeat unlet H. untake. injection H as <-.
  pose proof (object_ordered _ Hw) as Ho.
  apply (member_wf _ _ _ Hw) in E1 as W1, E2 as W2, E3 as W3. inversion W1; inversion W2; inversion W3; subst.
  split; [|done]. unfold relationship_value. f_equal.
  apply object_ext; [done|ordered_lit|done|]. by repeat constructor.
Qed.
Lemma try_map_inv {A B} (f : A → CapsuleResult B) (g : B → A) (P : A → Prop) (Q : B → Prop) l r :
  (∀ x y, P x → f x = Ok y → x = g y ∧ Q y) → Forall P l → try_map f l = Ok r → l = g <$> r ∧ Forall Q r.
Proof.
  intros Hf Hl. revert r. induction Hl as [|x l Hx _ IH]; intros r H; cbn in H; [by simplify_eq|].
  unlet H. unlet H. injection H as <-. destruct (IH _ eq_refl) as [-> ?]. destruct (Hf _ _ Hx E) as [-> ?].
  split; [done|by constructor].
Qed.
Ltac kinds H :=
  repeat match type of H with
  | context [bool_decide (?l = ?k)] => destruct (bool_decide_reflect (l = k)) as [-> |_]
  end.
Lemma parse_storage_class_inv v c : value_wf v → parse_storage_class v = Ok c → v = storage_class_value c ∧ class_wf c.
Proof.
  intros Hw H. unfold parse_storage_class in H. repeat unlet H. untake.
  pose proof (object_ordered _ Hw) as Ho. apply (member_wf _ _ _ Hw) in E1 as W1.
  assert (storage_class_value c = CObject [(lit "name", c0); (lit "type", CText l0)] ∧ class_wf c) as [-> ?].
  { destruct c0; try discriminate E2; apply Ok_inj in E2 as <-;
      kinds H; try discriminate H;
      apply Ok_inj in H as <-; split; try done. by inversion W1. }
  split; [|done]. f_equal. apply object_ext; [done|ordered_lit|done|]. by repeat constructor.
Qed.
Lemma parse_owner_inv v o : value_wf v → parse_owner v = Ok o → v = owner_value o ∧ owner_wf o.
Proof.
  intros Hw H. unfold parse_owner in H. repeat unlet H. untake.
  pose proof (object_ordered _ Hw) as Ho. apply (member_wf _ _ _ Hw) in E2 as W2.
  assert (owner_value o = CObject [(lit "id", c); (lit "type", CText l)] ∧ owner_wf o) as [-> ?].
  { destruct c; try discriminate H;
      kinds H; try discriminate H;
      try (destruct (fixed_bytes 16 l0) as [r|] eqn:Er; [|discriminate H]; apply fixed_bytes_Some in Er as [-> ?]);
      apply Ok_inj in H as <-; split; try done; by inversion W2. }
  split; [|done]. f_equal. apply object_ext; [done|ordered_lit|done|]. by repeat constructor.
Qed.
Lemma parse_optional_inv {T} v (parse : CapsuleValue → CapsuleResult T) (o : option T) :
  parse_optional v parse = Ok o →
  (v = CNull ∧ o = None) ∨ (∃ t, v ≠ CNull ∧ parse v = Ok t ∧ o = Some t).
Proof.
  intros H. destruct v; [left; by apply Ok_inj in H|right..];
    (cbn in H; destruct (parse _) as [t|] eqn:E; [|discriminate H]; apply Ok_inj in H as <-; by exists t).
Qed.

(** A value that is read as an envelope is the value of that envelope. *)
Lemma from_value_inv v e : value_wf v → from_value v = Ok e →
  v = CObject (envelope_members e) ∧ envelope_wf e ∧ ce_revision e ≤ i64_max ∧ ce_body e ≠ Some CNull.
Proof.
  intros Hw H. unfold from_value in H. do 60 (try unlet H). untake. apply Ok_inj in H.
  pose proof (object_ordered _ Hw) as Ho. pose proof (λ k v, member_wf a k v Hw) as Hm.
  apply Hm in E1 as W1, E3 as W3, E4 as W4, E5 as W5, E7 as W7, E11 as W11, E12 as W12, E13 as W13, E14 as W14, E16 as W16, E19 as W19, E22 as W22.
  destruct (checked 0 65535 z) as [?|] eqn:Ez; [|done]. apply checked_Some in Ez as [-> ?]. apply Ok_inj in E2 as <-.
  destruct (checked 0 u32_max z0) as [?|] eqn:Ez; [|done]. apply checked_Some in Ez as [-> ?]. apply Ok_inj in E10 as <-.
  apply parse_storage_class_inv in E6 as [-> ?]; [|done]. apply parse_owner_inv in E8 as [-> ?]; [|done].
  apply parse_digest_inv in E17 as (-> & ? & ?); [|done].
  assert (c1 = option_value (digest_value <$> a5) ∧ option_wf digest_wf a5) as [-> ?].
  { apply parse_optional_inv in E15 as [[-> ->]|(d & _ & Ed & ->)]; [done|]. by apply parse_digest_inv in Ed as (-> & ? & ?). }
  assert (c4 = option_value a9 ∧ option_wf value_wf a9 ∧ a9 ≠ Some CNull) as (-> & ? & ?).
  { apply parse_optional_inv in E23 as [[-> ->]|(d & Hn & Ed & ->)]; [done|]. apply Ok_inj in Ed as <-.
    split; [done|]. split; [done|]. congruence. }
  assert (a7 = relationship_value <$> a8 ∧ Forall relationship_wf a8) as [-> ?].
  { eapply try_map_inv; [apply parse_relationship_inv| |done]. by inversion W19. }
  inversion W3; inversion W4; inversion W11; inversion W12; inversion W13; subst.
  split; [|split; [by constructor|split; [cbn [ce_revision]; ilia|done]]].
  f_equal. apply object_ext; [done|ordered_lit|done|]. unfold envelope_members.
  repeat (constructor; [assumption|]). constructor.
Qed.

(** ** The value of an envelope is of the type *)

Lemma lit_text s : is_text (lit s).
Proof.
  unfold is_text. induction s as [|a s IH]; cbn [lit]; constructor; [|done].
  left. pose proof (N_ascii_bounded a). lia.
Qed.
Lemma object_wf m :
  ordered m → Forall (λ kv : str * CapsuleValue, is_text kv.1 ∧ value_wf kv.2) m → value_wf (CObject m).
Proof. by constructor. Qed.
Ltac object_lit := apply object_wf; [ordered_lit|repeat (apply Forall_cons; split; [split; [apply lit_text|cbn [snd]]|]); [..|apply Forall_nil_2]].

Lemma digest_value_wf d : digest_wf d → value_wf (digest_value d).
Proof. intros [??]. unfold digest_value. object_lit; by constructor. Qed.
Lemma relationship_value_wf r : relationship_wf r → value_wf (relationship_value r).
Proof. intros (? & ? & [??]). unfold relationship_value. object_lit; by constructor. Qed.
Lemma class_value_wf c : class_wf c → value_wf (storage_class_value c).
Proof. intros Hc. destruct c; unfold storage_class_value; object_lit; constructor; try done; apply lit_text. Qed.
Lemma owner_value_wf o : owner_wf o → value_wf (owner_value o).
Proof. intros Ho. destruct o; unfold owner_value; object_lit; constructor; try done; try apply lit_text; by destruct Ho. Qed.

Lemma envelope_value_wf e : envelope_wf e → ce_revision e ≤ i64_max → value_wf (CObject (envelope_members e)).
Proof.
  intros [He [Hid _] Hk Hc Ho Hs Hr Hcr Hu Hp Hi Hrel Hb] Hmax. unfold envelope_members. object_lit.
  - destruct (ce_body e); [done|constructor].
  - by constructor.
  - constructor. ilia.
  - by constructor.
  - by apply digest_value_wf.
  - by constructor.
  - by apply owner_value_wf.
  - destruct (ce_previous_integrity e); [by apply digest_value_wf|constructor].
  - constructor. apply Forall_fmap. eapply Forall_impl; [done|]. apply relationship_value_wf.
  - constructor. ilia.
  - constructor. ilia.
  - by apply class_value_wf.
  - constructor.
  - by constructor.
Qed.
Lemma hashed_value_wf e : envelope_wf e → ce_revision e ≤ i64_max →
  value_wf (CObject (jremove (lit "integrity_hash") (envelope_members e))).
Proof.
  intros Hw Hr. pose proof (envelope_value_wf e Hw Hr) as Hv. inversion Hv as [| | | | | | |? Ho Hm]; subst.
  apply object_wf.
  - by apply jremove_ordered.
  - unfold jremove. rewrite Forall_forall in *. intros kv [_ Hin]%list_elem_of_filter. by apply Hm.
Qed.

(** ** Reading and writing *)

Section sealed.
Context `{Sha256Laws}.

Lemma verify_structure e : verify e = Some (Ok tt) → validate_structure e true = Ok tt.
Proof. unfold verify. by destruct (validate_structure e true) as [[]|]. Qed.

(** The digests of a structurally valid envelope are valid. *)
Lemma structure_digests e : validate_structure e true = Ok tt →
  validate_digest (ce_integrity_hash e) = Ok tt
  ∧ match ce_previous_integrity e with Some d => validate_digest d | None => Ok tt end = Ok tt.
Proof.
  unfold validate_structure. destruct (validate_token _ _); [|done].
  repeat match goal with |- (if ?b then _ else _) = _ → _ => destruct b; [done|] end.
  destruct (validate_digest (ce_integrity_hash e)) as [[]|]; [|done].
  destruct (match ce_previous_integrity e with Some d => _ | None => _ end) as [[]|]; [|done]. done.
Qed.

Lemma canonical_bytes_Ok e b : envelope_wf e →
  canonical_bytes e = Some (Ok b) ↔
  verify e = Some (Ok tt) ∧ ce_revision e ≤ i64_max ∧ encode_value (CObject (envelope_members e)) = Ok b.
Proof.
  intros Hw. unfold canonical_bytes. destruct (verify e) as [[[]|]|]; cbn [mbind option_bind];
    [|split; [done|by intros [? _]]..].
  rewrite (as_value_members e true Hw). case_bool_decide; cbn [mbind option_bind].
  - split; [by intros [= ->]|]. by intros (_ & _ & ->).
  - split; [done|]. by intros (_ & ? & _).
Qed.

(** A verified envelope has a revision that an [i64] holds. *)
Lemma verified_i64 e : verify e = Some (Ok tt) → ce_revision e ≤ i64_max.
Proof.
  unfold verify, compute_integrity, as_value, integer. destruct (validate_structure e true); [|done]. destruct (negb _); [done|].
  destruct (checked _ _ (ce_revision e)) as [r|] eqn:E; [apply checked_Some in E as [_ ?]; intros _; lia|].
  by destruct (checked _ _ (ce_created_at_micros e)), (checked _ _ (ce_encoding_version e)).
Qed.

Lemma read_inv b e : is_bytes b → from_canonical_bytes b = Some (Ok e) →
  decode_canonical_value b = Ok (CObject (envelope_members e)) ∧ envelope_wf e ∧ ce_body e ≠ Some CNull ∧ verify e = Some (Ok tt).
Proof.
  unfold from_canonical_bytes. intros Hb. destruct (decode_canonical_value b) as [v|] eqn:Ed; [|done].
  destruct (from_value v) as [e'|] eqn:Ev; [|done]. intros Hr.
  destruct (verify e') as [[[]|]|] eqn:Evf; simplify_eq/=.
  pose proof (decoded_wf _ _ Hb Ed) as Hv. by apply from_value_inv in Ev as (-> & ? & ? & ?).
Qed.

(** C24. Envelopes are read exactly as they were written.  A byte string is read as an envelope if and
    only if the envelope is one of the type, has a body other than a bare null, and its canonical
    bytes, which exist only when its structure and its integrity hash verify, are that very string
    and within the byte limit. *)
Theorem envelopes_read_exactly b e : is_bytes b →
  from_canonical_bytes b = Some (Ok e) ↔
  envelope_wf e ∧ ce_body e ≠ Some CNull ∧ canonical_bytes e = Some (Ok b)
  ∧ Z.of_nat (length b) ≤ MAX_CAPSULE_BYTES.
Proof.
  intros Hb. split.
  - intros (Hd & Hw & Hn & Hv)%read_inv; [|done]. apply decoded_encodes in Hd as [He Hl].
    rewrite canonical_bytes_Ok by done. pose proof (verified_i64 e Hv). tauto.
  - intros (Hw & Hn & Hc & Hl). apply canonical_bytes_Ok in Hc as (Hvf & Hrev & Hen); [|done].
    unfold from_canonical_bytes. rewrite (decode_encoded (CObject (envelope_members e)) b); [|by apply envelope_value_wf|done|done].
    destruct (structure_digests _ (verify_structure _ Hvf)) as [Hi Hp].
    by rewrite from_members, Hvf.
Qed.

(** ** What the integrity hash protects *)

Lemma digest_value_inj d1 d2 : digest_value d1 = digest_value d2 → d1 = d2.
Proof. destruct d1, d2. lazy. intros [= -> ->]. done. Qed.
Lemma relationship_value_inj r1 r2 : relationship_value r1 = relationship_value r2 → r1 = r2.
Proof. destruct r1, r2. lazy. intros [= -> -> ->]. done. Qed.
Lemma class_value_inj c1 c2 : storage_class_value c1 = storage_class_value c2 → c1 = c2.
Proof. destruct c1, c2; lazy; by intros [=]; subst. Qed.
Lemma owner_value_inj o1 o2 : owner_value o1 = owner_value o2 → o1 = o2.
Proof. destruct o1, o2; lazy; by intros [=]; subst. Qed.
Lemma option_digest_inj (d1 d2 : option CapsuleDigest) :
  option_value (digest_value <$> d1) = option_value (digest_value <$> d2) → d1 = d2.
Proof. destruct d1, d2; cbn [fmap option_fmap option_map option_value default]; [|done..]. by intros ->%digest_value_inj. Qed.

(** The hashed value determines the envelope, but for the hash itself and whether a null body is
    there; the tombstone flag of a valid structure settles the latter. *)
Lemma hashed_members_inj e1 e2 :
  jremove (lit "integrity_hash") (envelope_members e1) = jremove (lit "integrity_hash") (envelope_members e2) →
  is_none (ce_body e1) = ce_tombstone e1 → is_none (ce_body e2) = ce_tombstone e2 →
  ce_integrity_hash e1 = ce_integrity_hash e2 → e1 = e2.
Proof.
  intros Hm H1 H2 Hh. assert (∀ k, jget k (jremove (lit "integrity_hash") (envelope_members e1))
    = jget k (jremove (lit "integrity_hash") (envelope_members e2))) as Hk by (intros; by rewrite Hm). clear Hm.
  destruct e1 as [ev1 id1 kind1 class1 owner1 schema1 rev1 created1 updated1 prev1 integ1 tomb1 rels1 body1],
    e2 as [ev2 id2 kind2 class2 owner2 schema2 rev2 created2 updated2 prev2 integ2 tomb2 rels2 body2].
  cbn [ce_body ce_tombstone ce_integrity_hash] in *.
  pose proof (Hk (lit "body")) as E1. pose proof (Hk (lit "created_at_micros")) as E2.
  pose proof (Hk (lit "encoding_version")) as E3. pose proof (Hk (lit "id")) as E4. pose proof (Hk (lit "kind")) as E5.
  pose proof (Hk (lit "owner_scope")) as E6. pose proof (Hk (lit "previous_integrity")) as E7.
  pose proof (Hk (lit "relationships")) as E8. pose proof (Hk (lit "revision")) as E9.
  pose proof (Hk (lit "schema_version")) as E10. pose proof (Hk (lit "storage_class")) as E11.
  pose proof (Hk (lit "tombstone")) as E12. pose proof (Hk (lit "updated_at_micros")) as E13. clear Hk.
  change (Some (option_value body1) = Some (option_value body2)) in E1.
  change (Some (CInteger created1) = Some (CInteger created2)) in E2.
  change (Some (CInteger ev1) = Some (CInteger ev2)) in E3.
  change (Some (CBytes id1) = Some (CBytes id2)) in E4.
  change (Some (CText kind1) = Some (CText kind2)) in E5.
  change (Some (owner_value owner1) = Some (owner_value owner2)) in E6.
  change (Some (option_value (digest_value <$> prev1)) = Some (option_value (digest_value <$> prev2))) in E7.
  change (Some (CArray (relationship_value <$> rels1)) = Some (CArray (relationship_value <$> rels2))) in E8.
  change (Some (CInteger rev1) = Some (CInteger rev2)) in E9.
  change (Some (CInteger schema1) = Some (CInteger schema2)) in E10.
  change (Some (storage_class_value class1) = Some (storage_class_value class2)) in E11.
  change (Some (CBool tomb1) = Some (CBool tomb2)) in E12.
  change (Some (CInteger updated1) = Some (CInteger updated2)) in E13.
  injection E2 as ->. injection E3 as ->. injection E4 as ->. injection E5 as ->. injection E9 as ->. injection E10 as ->.
  injection E12 as ->. injection E13 as ->. subst integ2.
  assert (∀ A (x y : A), Some x = Some y → x = y) as Hs by (by intros ? ? ? [= ->]).
  apply Hs in E1, E6, E7, E8, E11. apply owner_value_inj in E6 as ->. apply option_digest_inj in E7 as ->.
  apply class_value_inj in E11 as ->. assert (rels1 = rels2) as ->.
  { assert (relationship_value <$> rels1 = relationship_value <$> rels2) as Hf by congruence.
    eapply list_fmap_eq_inj; [|exact Hf]. exact relationship_value_inj. }
  f_equal. destruct body1, body2; cbn in *; congruence.
Qed.

(** What is hashed of an envelope. *)
Definition hashed (e : CapsuleEnvelope) (b : list byte) : Prop :=
  ∃ v, as_value e false = Some v ∧ encode_value v = Ok b.

Lemma verify_Ok e : verify e = Some (Ok tt) ↔
  validate_structure e true = Ok tt
  ∧ ∃ b, hashed e b ∧ ce_integrity_hash e = {| dg_algorithm := DIGEST_ALGORITHM; dg_bytes := sha2 (integrity_input b) |}.
Proof.
  unfold verify, compute_integrity, hashed. split.
  - destruct (validate_structure e true) as [[]|] eqn:Es; [|done]. destruct (negb _); [done|].
    destruct (as_value e false) as [v|]; [|done]. cbn [mbind option_bind].
    destruct (encode_value v) as [b|] eqn:Eb; [|done]. case_bool_decide as Hne; [done|]. intros _.
    split; [done|]. exists b. split; [by exists v|]. by subst.
  - intros [Hs (b & (v & Hv & Hb) & Hh)]. rewrite Hs. unfold validate_structure in Hs.
    destruct (validate_token _ _); [|done]. destruct (negb (ce_encoding_version e =? _)); [done|].
    rewrite Hv. cbn [mbind option_bind]. rewrite Hb. rewrite bool_decide_eq_false_2; [done|]. intros Hne. by apply Hne.
Qed.

Lemma structure_tombstone e i : validate_structure e i = Ok tt → is_none (ce_body e) = ce_tombstone e.
Proof.
  unfold validate_structure. destruct (validate_token _ _); [|done].
  repeat match goal with |- (if ?b then _ else _) = _ → _ => destruct b eqn:?; [done|] end.
  intros _. unbool. symmetry. by apply Bool.eqb_prop.
Qed.
Lemma structure_previous e i : validate_structure e i = Ok tt → ce_previous_integrity e = None ↔ ce_revision e = 1.
Proof.
  unfold validate_structure. destruct (validate_token _ _); [|done].
  repeat match goal with |- (if ?b then _ else _) = _ → _ => destruct b eqn:?; [done|] end.
  intros _. match goal with H : negb (Bool.eqb (ce_revision e =? 1) _) = false |- _ =>
    apply negb_false_iff, Bool.eqb_prop in H as He end.
  rewrite <-Z.eqb_eq, He. by destruct (ce_previous_integrity e).
Qed.

(** Two envelopes whose hashed bytes differ and have the same hash. *)
Definition collision (e1 e2 : CapsuleEnvelope) : Prop :=
  ∃ b1 b2, hashed e1 b1 ∧ hashed e2 b2 ∧ b1 ≠ b2 ∧ sha2 (integrity_input b1) = sha2 (integrity_input b2).

(** The encoder's output is a [Vec], which holds fewer than [2 ^ 63] bytes. *)
Definition in_memory (e : CapsuleEnvelope) : Prop := ∀ b, hashed e b → Z.of_nat (length b) < 2 ^ 63.

Lemma CObject_inj m1 m2 : CObject m1 = CObject m2 → m1 = m2.
Proof. by intros [=]. Qed.

(** The hash identifies the envelope. *)
Lemma hash_identifies e1 e2 :
  envelope_wf e1 → envelope_wf e2 → in_memory e1 → verify e1 = Some (Ok tt) → verify e2 = Some (Ok tt) →
  ce_integrity_hash e1 = ce_integrity_hash e2 → e1 = e2 ∨ collision e1 e2.
Proof.
  intros W1 W2 M1 V1 V2 Hh. apply verify_Ok in V1 as (S1 & b1 & H1 & E1), V2 as (S2 & b2 & H2 & E2).
  assert (sha2 (integrity_input b1) = sha2 (integrity_input b2)) as Hsha by congruence.
  destruct (decide (b1 = b2)) as [<-|Hne]; [left|right; by exists b1, b2].
  pose proof (M1 _ H1) as Hlen. destruct H1 as (v1 & A1 & B1), H2 as (v2 & A2 & B2).
  rewrite as_value_members in A1, A2 by done.
  destruct (bool_decide_reflect (ce_revision e1 ≤ i64_max)); [|done]. destruct (bool_decide_reflect (ce_revision e2 ≤ i64_max)); [|done].
  injection A1 as <-. injection A2 as <-.
  apply encode_value_Ok in B1 as [V1 B1], B2 as [V2 B2].
  pose proof (value_reads _ (hashed_value_wf e1 W1 ltac:(done)) 0 65 _ V1 eq_refl B1 ltac:(lia) []) as R1.
  pose proof (value_reads _ (hashed_value_wf e2 W2 ltac:(done)) 0 65 _ V2 eq_refl B2 ltac:(lia) []) as R2.
  rewrite R1 in R2. apply Ok_inj, (f_equal fst), CObject_inj in R2.
  apply hashed_members_inj; [done|by eapply structure_tombstone..|done].
Qed.

(** ** Histories

    The revisions of a record, newest first: each is verified and carries the hash of the one before
    it, down to the first, which carries none. *)

Fixpoint linked (h : list CapsuleEnvelope) : Prop :=
  match h with
  | [] => False
  | e :: h' =>
      verify e = Some (Ok tt)
      ∧ match h' with
        | [] => ce_revision e = 1
        | e' :: _ => ce_previous_integrity e = Some (ce_integrity_hash e') ∧ ce_revision e = ce_revision e' + 1 ∧ linked h'
        end
  end.

Definition history_wf (h : list CapsuleEnvelope) : Prop := Forall (λ e, envelope_wf e ∧ in_memory e) h.

(** C19. The newest hash protects the whole history.  Two histories whose newest revisions have the
    same integrity hash are the same history, revision by revision and field by field, or two of
    their revisions exhibit a collision of SHA-256: nothing in the past of a record can be changed,
    dropped or inserted under an unchanged head. *)
Theorem head_hash_protects_history h1 h2 e1 e2 :
  linked (e1 :: h1) → linked (e2 :: h2) → history_wf (e1 :: h1) → history_wf (e2 :: h2) →
  ce_integrity_hash e1 = ce_integrity_hash e2 →
  e1 :: h1 = e2 :: h2 ∨ ∃ x1 x2, x1 ∈ e1 :: h1 ∧ x2 ∈ e2 :: h2 ∧ collision x1 x2.
Proof.
  revert e1 e2 h2. induction h1 as [|p1 h1 IH]; intros e1 e2 h2 L1 L2 [[W1 M1] F1]%Forall_cons [[W2 M2] F2]%Forall_cons Hh;
    pose proof (proj1 L1) as V1; pose proof (proj1 L2) as V2;
    (destruct (hash_identifies e1 e2) as [<-|Hc]; [done..| |right; exists e1, e2; split; [left|split; [left|done]]]);
    pose proof (structure_previous e1 true (verify_structure _ V1)) as Hprev.
  - destruct h2 as [|p2 h2]; [by left|]. destruct L1 as [_ R1], L2 as (_ & P2 & _).
    apply Hprev in R1. congruence.
  - destruct L1 as (_ & P1 & R1 & L1). destruct h2 as [|p2 h2].
    + destruct L2 as [_ R2]. apply Hprev in R2. congruence.
    + destruct L2 as (_ & P2 & _ & L2). destruct (IH p1 p2 h2 L1 L2 F1 F2) as [->|(x1 & x2 & H1 & H2 & Hc)];
        [congruence|by left|]. right. exists x1, x2. split; [by right|]. split; [by right|done].
Qed.

(** ** Sealing *)

Lemma structure_with_integrity e d :
  validate_structure e false = Ok tt → validate_digest d = Ok tt → validate_structure (with_integrity e d) true = Ok tt.
Proof.
  unfold validate_structure. cbn [with_integrity ce_kind ce_encoding_version ce_schema_version ce_revision
    ce_updated_at_micros ce_created_at_micros ce_tombstone ce_body ce_previous_integrity ce_integrity_hash ce_relationships].
  intros Hs Hd. destruct (validate_token _ _); [|done].
  repeat match goal with H : (if ?b then _ else _) = _ |- _ => destruct b; [done|] end. by rewrite Hd.
Qed.
Lemma sealed_digest_valid b :
  validate_digest {| dg_algorithm := DIGEST_ALGORITHM; dg_bytes := sha2 (integrity_input b) |} = Ok tt.
Proof. unfold validate_digest. cbn [dg_algorithm dg_bytes]. rewrite sha2_length. done. Qed.

(** Sealing computes the hash and changes nothing else, and what it answers verifies. *)
Lemma sealed_verified e e' : seal e = Some (Ok e') →
  e' = with_integrity e (ce_integrity_hash e') ∧ verify e' = Some (Ok tt).
Proof.
  unfold seal, compute_integrity. destruct (validate_structure e false) as [[]|] eqn:Es; [|done].
  destruct (negb _); [done|]. destruct (as_value e false) as [v|] eqn:Ev; [|done]. cbn [mbind option_bind fmap option_fmap option_map].
  destruct (encode_value v) as [b|] eqn:Eb; [|done]. cbn [result_map]. intros [= <-].
  split; [done|]. apply verify_Ok. split; [apply structure_with_integrity; [done|apply sealed_digest_valid]|].
  exists b. split; [by exists v|done].
Qed.
Lemma sealed_wf e e' : envelope_wf e → seal e = Some (Ok e') → envelope_wf e'.
Proof.
  intros Hw [-> Hv]%sealed_verified. apply verify_Ok in Hv as (_ & b & _ & Hh). cbn [with_integrity ce_integrity_hash] in Hh.
  rewrite Hh. destruct Hw. constructor; try done. split; [by apply lit_text|apply sha2_bytes].
Qed.

(** Sealing a structurally valid envelope panics exactly on a revision that no [i64] holds. *)
Lemma seal_panics e : envelope_wf e → validate_structure e false = Ok tt →
  seal e = None ↔ i64_max < ce_revision e.
Proof.
  intros Hw Hs. unfold seal, compute_integrity. rewrite Hs. rewrite as_value_members by done.
  unfold validate_structure in Hs. destruct (validate_token _ _); [|done].
  destruct (negb (ce_encoding_version e =? _)); [done|].
  destruct (bool_decide_reflect (ce_revision e ≤ i64_max)); cbn [mbind option_bind fmap option_fmap option_map];
    (split; [|done || lia]); [done|lia].
Qed.

(** A live envelope whose body is a bare null is lost.  Validation and sealing accept it, and its
    canonical bytes exist, but they are the bytes of an envelope without a body: reading them back
    answers an error, since a live revision requires a body. *)
Theorem null_body_is_unreadable e b :
  envelope_wf e → ce_body e = Some CNull → canonical_bytes e = Some (Ok b) → is_bytes b →
  ∀ e', from_canonical_bytes b ≠ Some (Ok e').
Proof.
  intros Hw Hn Hc Hb e' Hr. apply canonical_bytes_Ok in Hc as (Hv & _ & He); [|done].
  apply read_inv in Hr as (Hd & Hw' & Hn' & Hv'); [|done]. apply decoded_encodes in Hd as [He' Hl].
  assert (decode_canonical_value b = Ok (CObject (envelope_members e))) as D1
    by (apply decode_encoded; auto using envelope_value_wf, verified_i64).
  assert (decode_canonical_value b = Ok (CObject (envelope_members e'))) as D2
    by (apply decode_encoded; auto using envelope_value_wf, verified_i64).
  rewrite D1 in D2. apply Ok_inj, CObject_inj in D2.
  pose proof (f_equal (jget (lit "body")) D2) as Eb. pose proof (f_equal (jget (lit "tombstone")) D2) as Et.
  change (Some (option_value (ce_body e)) = Some (option_value (ce_body e'))) in Eb.
  change (Some (CBool (ce_tombstone e)) = Some (CBool (ce_tombstone e'))) in Et. injection Et as Et.
  apply verify_structure, structure_tombstone in Hv, Hv'. rewrite Hn in Eb, Hv. cbn in Eb, Hv.
  destruct (ce_body e') as [v|]; cbn in *; congruence.
Qed.

End sealed.

(** ** The repository's fixture

    The envelope of the unit tests ([unsealed]) and the canonical bytes and integrity hash of
    [contracts/capsule/fixtures/canonical-v1.json].  The hash function of the instance answers the
    fixture's hash, which is the SHA-256 of [integrity_input] of the envelope. *)

Module Fixture.

Definition integrity : list byte := [
  7; 45; 253; 246; 63; 94; 85; 227; 118; 237; 82; 127; 213; 130; 34; 114; 123; 46; 130; 31; 231; 38; 119; 62;
  156; 91; 50; 146; 196; 212; 115; 119]%N.
Definition canonical : list byte := [
  174; 98; 105; 100; 80; 1; 1; 1; 1; 1; 1; 1; 1; 1; 1; 1; 1; 1; 1; 1; 1; 100; 98; 111; 100; 121; 162; 100; 110;
  97; 109; 101; 100; 100; 101; 109; 111; 102; 119; 101; 105; 103; 104; 116; 249; 62; 0; 100; 107; 105; 110;
  100; 108; 99; 111; 114; 101; 46; 112; 114; 111; 103; 114; 97; 109; 104; 114; 101; 118; 105; 115; 105; 111;
  110; 1; 105; 116; 111; 109; 98; 115; 116; 111; 110; 101; 244; 107; 111; 119; 110; 101; 114; 95; 115; 99; 111;
  112; 101; 162; 98; 105; 100; 80; 2; 2; 2; 2; 2; 2; 2; 2; 2; 2; 2; 2; 2; 2; 2; 2; 100; 116; 121; 112; 101;
  104; 99; 114; 101; 97; 116; 117; 114; 101; 109; 114; 101; 108; 97; 116; 105; 111; 110; 115; 104; 105; 112;
  115; 129; 163; 100; 110; 97; 109; 101; 104; 99; 114; 101; 97; 116; 117; 114; 101; 105; 116; 97; 114; 103;
  101; 116; 95; 105; 100; 80; 2; 2; 2; 2; 2; 2; 2; 2; 2; 2; 2; 2; 2; 2; 2; 2; 107; 116; 97; 114; 103; 101; 116;
  95; 107; 105; 110; 100; 109; 99; 111; 114; 101; 46; 99; 114; 101; 97; 116; 117; 114; 101; 109; 115; 116; 111;
  114; 97; 103; 101; 95; 99; 108; 97; 115; 115; 162; 100; 110; 97; 109; 101; 246; 100; 116; 121; 112; 101; 100;
  99; 111; 114; 101; 110; 105; 110; 116; 101; 103; 114; 105; 116; 121; 95; 104; 97; 115; 104; 162; 101; 98;
  121; 116; 101; 115; 88; 32; 7; 45; 253; 246; 63; 94; 85; 227; 118; 237; 82; 127; 213; 130; 34; 114; 123; 46;
  130; 31; 231; 38; 119; 62; 156; 91; 50; 146; 196; 212; 115; 119; 105; 97; 108; 103; 111; 114; 105; 116; 104;
  109; 104; 115; 104; 97; 50; 45; 50; 53; 54; 110; 115; 99; 104; 101; 109; 97; 95; 118; 101; 114; 115; 105;
  111; 110; 1; 112; 101; 110; 99; 111; 100; 105; 110; 103; 95; 118; 101; 114; 115; 105; 111; 110; 1; 113; 99;
  114; 101; 97; 116; 101; 100; 95; 97; 116; 95; 109; 105; 99; 114; 111; 115; 27; 0; 6; 10; 36; 24; 30; 64; 0;
  113; 117; 112; 100; 97; 116; 101; 100; 95; 97; 116; 95; 109; 105; 99; 114; 111; 115; 27; 0; 6; 10; 36; 24;
  30; 64; 0; 114; 112; 114; 101; 118; 105; 111; 117; 115; 95; 105; 110; 116; 101; 103; 114; 105; 116; 121; 246]%N.

Definition unsealed : CapsuleEnvelope := {|
  ce_encoding_version := ENCODING_VERSION; ce_id := repeat 1%N 16; ce_kind := lit "core.program";
  ce_storage_class := SCore; ce_owner_scope := OCreature (repeat 2%N 16); ce_schema_version := 1; ce_revision := 1;
  ce_created_at_micros := 1700000000000000; ce_updated_at_micros := 1700000000000000;
  ce_previous_integrity := None;
  ce_integrity_hash := {| dg_algorithm := DIGEST_ALGORITHM; dg_bytes := repeat 0%N 32 |};
  ce_tombstone := false;
  ce_relationships := [{| rl_name := lit "creature"; rl_target_kind := lit "core.creature"; rl_target_id := repeat 2%N 16 |}];
  ce_body := Some (CObject [(lit "name", CText (lit "demo")); (lit "weight", CFloat 4609434218613702656)]) |}.

#[export] Instance fixture_sha2 : Sha256 := λ _, integrity.
#[export] Instance fixture_laws : Sha256Laws.
Proof. split; intros; [done|]. by apply (bool_decide_unpack _). Qed.

Definition sealed : CapsuleEnvelope :=
  with_integrity unsealed {| dg_algorithm := DIGEST_ALGORITHM; dg_bytes := integrity |}.

(** The model writes the repository's bytes and reads them back. *)
Example fixture_matches :
  seal unsealed = Some (Ok sealed) ∧ canonical_bytes sealed = Some (Ok canonical)
  ∧ from_canonical_bytes canonical = Some (Ok sealed).
Proof. vm_compute. done. Qed.

(** The invalid vectors of [invalid-cbor-v1.json] are refused. *)
Example invalid_vectors :
  Forall (λ b, ¬ is_Ok (decode_canonical_value b))
    [[24; 1]; [159; 255]; [1; 1]; [249; 124; 0]; [162; 97; 97; 1; 97; 97; 2]; [162; 97; 98; 1; 97; 97; 2]; [97; 255]]%N.
Proof. repeat constructor; intros [v Hv]; by vm_compute in Hv. Qed.

Lemma envelopes_read_exactly_witness :
  is_bytes canonical ∧
  (from_canonical_bytes canonical = Some (Ok sealed) ↔
   envelope_wf sealed ∧ ce_body sealed ≠ Some CNull ∧ canonical_bytes sealed = Some (Ok canonical)
   ∧ Z.of_nat (length canonical) ≤ MAX_CAPSULE_BYTES).
Proof.
  assert (is_bytes canonical) as Hb by (apply (bool_decide_unpack _); vm_compute; exact I).
  split; [exact Hb|]. apply (envelopes_read_exactly canonical sealed Hb).
Defined.

Lemma fixture_wf : envelope_wf sealed.
Proof. apply (read_inv canonical); [by apply (bool_decide_unpack _)|vm_compute; done]. Qed.

(** The fixture's record, deleted, and a record that holds a bare null. *)
Definition deleted : CapsuleEnvelope := {|
  ce_encoding_version := ENCODING_VERSION; ce_id := repeat 1%N 16; ce_kind := lit "core.program";
  ce_storage_class := SCore; ce_owner_scope := OCreature (repeat 2%N 16); ce_schema_version := 1; ce_revision := 2;
  ce_created_at_micros := 1700000000000000; ce_updated_at_micros := 1700000000000001;
  ce_previous_integrity := Some (ce_integrity_hash sealed); ce_integrity_hash := ce_integrity_hash sealed;
  ce_tombstone := true; ce_relationships := ce_relationships sealed; ce_body := None |}.
Definition null_body : CapsuleEnvelope := {|
  ce_encoding_version := ENCODING_VERSION; ce_id := repeat 1%N 16; ce_kind := lit "core.program";
  ce_storage_class := SCore; ce_owner_scope := OGlobal; ce_schema_version := 1; ce_revision := 1;
  ce_created_at_micros := 0; ce_updated_at_micros := 0; ce_previous_integrity := None;
  ce_integrity_hash := ce_integrity_hash sealed; ce_tombstone := false; ce_relationships := []; ce_body := Some CNull |}.

Lemma deleted_wf : envelope_wf deleted.
Proof.
  destruct fixture_wf. constructor; try done; cbn; split; try done; by apply (bool_decide_unpack _).
Qed.
Lemma null_body_wf : envelope_wf null_body.
Proof. destruct fixture_wf. constructor; try done; cbn; constructor. Qed.

Lemma in_memory_check e :
  match as_value e false with
  | Some v => match encode_value v with Ok b => bool_decide (Z.of_nat (length b) < 2 ^ 63) | Err _ => true end
  | None => true
  end = true → in_memory e.
Proof. intros Hc b (v & Hv & Hb). rewrite Hv, Hb in Hc. by apply bool_decide_eq_true in Hc. Qed.

Lemma head_hash_protects_history_witness :
  ∃ h, linked h ∧ history_wf h
  ∧ (h = h ∨ ∃ x1 x2, x1 ∈ h ∧ x2 ∈ h ∧ collision x1 x2).
Proof.
  assert (linked [deleted; sealed]) as L by (vm_compute; done).
  assert (history_wf [deleted; sealed]) as W.
  { apply Forall_cons; split; [split; [exact deleted_wf|]|apply Forall_singleton; split; [exact fixture_wf|]];
      apply in_memory_check; vm_compute; exact eq_refl. }
  exists [deleted; sealed]. split; [exact L|]. split; [exact W|].
  apply (head_hash_protects_history [sealed] [sealed] deleted deleted L L W W eq_refl).
Defined.

Lemma null_body_is_unreadable_witness :
  ∃ b, canonical_bytes null_body = Some (Ok b) ∧ ∀ e', from_canonical_bytes b ≠ Some (Ok e').
Proof.
  pose (b := match canonical_bytes null_body with Some (Ok b) => b | _ => [] end).
  exists b. split; [vm_compute; done|].
  apply (null_body_is_unreadable null_body b null_body_wf eq_refl); [vm_compute; done|by apply (bool_decide_unpack _)].
Defined.

End Fixture.
