(* ===== verification/Records.v ===== *)
(** Records and sealed capsules ([aseman-storage/src/]: [value.rs], [schema.rs], [codec.rs]): a
    record's fields are the body of a capsule, its relations the capsule's relationships, and every
    write is a new sealed revision chained to the one before it.

    Records hold JSON documents; they are the values of [Json], in which equal doubles, the two
    zeros among them, are equal.  A revision above [i64::MAX] makes sealing panic ([None]). *)

From S2P Require Import Prelude Text BTree Bytes Floats Json Capsule CapsuleCodec Envelope Sealed.

Open Scope Z_scope.

(** ** Errors *)

Inductive StorageError :=
| SInvalid (message : str)
| SConflict (message : str)
| SNotFound (message : str)
| SUnsupported (message : str)
| SUnavailable (message : str).
#[export] Instance StorageError_eq_dec : EqDecision StorageError. Proof. solve_decision. Defined.
Notation StorageResult A := (result A StorageError).

(** [Display for CapsuleError]. *)
Definition capsule_error_text (e : CapsuleError) : str :=
  match e with
  | Invalid m => lit "invalid capsule: " ++ m
  | UnsupportedEncoding v => lit "unsupported capsule encoding version: " ++ show v
  | UnsupportedDigest a => lit "unsupported capsule digest algorithm: " ++ a
  | NonCanonical m => lit "capsule CBOR is not deterministic: " ++ m
  | Truncated => lit "capsule CBOR is truncated"
  end.

(** ** Values *)

Notation Id := (list byte) (only parsing).

Inductive Value :=
| VNull
| VBool (b : bool)
| VInt (z : i64)
| VFloat (v : f64)
| VText (s : str)
| VBytes (l : list byte)
| VJson (j : Json.value)
| VId (id : Id).
#[export] Instance Value_eq_dec : EqDecision Value. Proof. solve_decision. Defined.

Definition is_null (v : Value) : bool := match v with VNull => true | _ => false end.
Definition value_as_text (v : Value) : option str := match v with VText s => Some s | _ => None end.

(** A record's fields and relations, by name. *)
Notation Data := (list (str * Value)).

Record Row := {
  row_id : Id;
  row_revision : u64;
  row_created_at_micros : i64;
  row_updated_at_micros : i64;
  row_data : Data;
}.
#[export] Instance Row_eq_dec : EqDecision Row. Proof. solve_decision. Defined.

(** [Row::get]: a field, or [Null] when absent. *)
Definition row_get (row : Row) (field : str) : Value := default VNull (jget field (row_data row)).

(** ** Models *)

Inductive FieldType :=
| FText | FInteger | FFloat | FBool | FBytes | FTimestampMicros | FCapsuleId | FDocument.
#[export] Instance FieldType_eq_dec : EqDecision FieldType. Proof. solve_decision. Defined.

Definition FieldType_parse (name : str) : StorageResult FieldType :=
  if bool_decide (name = lit "text") then Ok FText
  else if bool_decide (name = lit "integer") then Ok FInteger
  else if bool_decide (name = lit "float") then Ok FFloat
  else if bool_decide (name = lit "bool") then Ok FBool
  else if bool_decide (name = lit "bytes") then Ok FBytes
  else if bool_decide (name = lit "timestamp_micros") then Ok FTimestampMicros
  else if bool_decide (name = lit "capsule_id") then Ok FCapsuleId
  else if bool_decide (name = lit "document") then Ok FDocument
  else Err (SInvalid (lit "unknown field type " ++ name)).
Definition FieldType_name (t : FieldType) : str :=
  match t with
  | FText => lit "text"
  | FInteger => lit "integer"
  | FFloat => lit "float"
  | FBool => lit "bool"
  | FBytes => lit "bytes"
  | FTimestampMicros => lit "timestamp_micros"
  | FCapsuleId => lit "capsule_id"
  | FDocument => lit "document"
  end.

Inductive ModelScope := ScopeGlobal | ScopeNode | ScopeCreature.
#[export] Instance ModelScope_eq_dec : EqDecision ModelScope. Proof. solve_decision. Defined.

Record Model := {
  m_name : str;
  m_storage_class : str;
  m_owner_scope : ModelScope;
  m_owner : option str;
  m_key_family : option str;
  m_fields : list (str * FieldType);
  m_required : list str;
  m_unique : list (list str);
  m_range_indexes : list (list str);
  m_relations : list (str * str);
  m_append_only : bool;
}.

Definition contains_key {V} (m : list (str * V)) (k : str) : bool := is_some (jget k m).

(** [Model::has]. *)
Definition model_has (self : Model) (name : str) : bool :=
  contains_key (m_fields self) name || contains_key (m_relations self) name.

Definition model_invalid (self : Model) (message : str) : StorageError := SInvalid (m_name self ++ lit ": " ++ message).

(** [Model::validate]. *)
Definition model_validate (self : Model) : StorageResult unit :=
  if existsb (contains_key (m_relations self)) (m_fields self).*1
  then Err (model_invalid self (lit "a name is both a field and a relation"))
  else if existsb (λ field, negb (contains_key (m_fields self) field)) (m_required self)
  then Err (model_invalid self (lit "a required field is undeclared"))
  else if existsb (λ index, is_empty index || existsb (λ field, negb (model_has self field)) index)
            (m_unique self ++ m_range_indexes self)
  then Err (model_invalid self (lit "an index names an undeclared field"))
  else if is_some_and (λ owner, negb (contains_key (m_relations self) owner)) (m_owner self)
  then Err (model_invalid self (lit "the owner is not a relation"))
  else if is_some (m_key_family self)
          && (negb (bool_decide (jget (lit "key") (m_fields self) = Some FText))
              || negb (existsb (λ index, bool_decide (index = [lit "key"])) (m_unique self)))
  then Err (model_invalid self (lit "a keyed model needs a unique text field `key`"))
  else Ok tt.

(** ** Checking a record against its model *)

(** [matches!] of a field's type and a value that is not null. *)
Definition field_matches (field_type : FieldType) (value : Value) : bool :=
  match field_type, value with
  | FText, VText _ => true
  | (FInteger | FTimestampMicros), VInt _ => true
  | FFloat, (VFloat _ | VInt _) => true
  | FBool, VBool _ => true
  | FBytes, VBytes _ => true
  | FCapsuleId, VId _ => true
  | FDocument, VJson (Json.Object _) => true
  | _, _ => false
  end.

Definition validate_member (model : Model) (member : str * Value) : StorageResult unit :=
  let '(name, value) := member in
  if is_null value then Ok tt
  else if contains_key (m_relations model) name then
    match value with
    | VId _ => Ok tt
    | _ => Err (model_invalid model (lit "relation " ++ name ++ lit " takes an id"))
    end
  else match jget name (m_fields model) with
  | None => Err (model_invalid model (lit "unknown field " ++ name))
  | Some field_type =>
      if field_matches field_type value then Ok tt
      else Err (model_invalid model (lit "field " ++ name ++ lit " takes a " ++ FieldType_name field_type ++ lit " value"))
  end.

(** [codec::validate]. *)
Definition validate (model : Model) (data : Data) (complete : bool) : StorageResult unit :=
  let? _ := try_each (validate_member model) data in
  match (if complete then find (λ field, is_none_or is_null (jget field data)) (m_required model) else None) with
  | Some missing => Err (model_invalid model (lit "required field " ++ missing ++ lit " is missing"))
  | None => Ok tt
  end.

(** ** Values and capsule values *)

(** [number.as_f64()]; every number has one. *)
Definition number_as_f64 (n : Json.number) : f64 :=
  match n with
  | Json.PosInt z | Json.NegInt z => int_as_f64 z
  | Json.Float m e => f64_of_dyadic m e
  end.

Fixpoint json_capsule (json : Json.value) : CapsuleValue :=
  match json with
  | Json.Null => CNull
  | Json.Bool b => CBool b
  | Json.Number n => match number_as_i64 n with Some z => CInteger z | None => CFloat (number_as_f64 n) end
  | Json.String_ s => CText s
  | Json.Array items => CArray (json_capsule <$> items)
  | Json.Object map => CObject ((λ '(key, value), (key, json_capsule value)) <$> map)
  end.

(** [format!("{byte:02x}")]. *)
Definition hex_digit (n : N) : char := if (n <? 10)%N then (48 + n)%N else (87 + n)%N.
Definition hex_bytes (l : list byte) : str := l ≫= λ b, [hex_digit (b / 16)%N; hex_digit (b mod 16)%N].

Fixpoint capsule_json (value : CapsuleValue) : Json.value :=
  match value with
  | CNull => Json.Null
  | CBool b => Json.Bool b
  | CInteger z => jint z
  | CFloat v => if is_finite v then let '(m, e) := f64_dyadic v in Json.Number (Json.Float m e) else Json.Null
  | CText s => Json.String_ s
  | CBytes l => Json.Object [(lit "$bytes", Json.String_ (hex_bytes l))]
  | CArray items => Json.Array (capsule_json <$> items)
  | CObject map => Json.Object ((λ '(key, value), (key, capsule_json value)) <$> map)
  end.

Definition capsule_value (value : Value) : CapsuleValue :=
  match value with
  | VNull => CNull
  | VBool b => CBool b
  | VInt z => CInteger z
  | VFloat v => CFloat v
  | VText s => CText s
  | VBytes l => CBytes l
  | VId id => CBytes id
  | VJson json => json_capsule json
  end.

Definition record_value (field_type : FieldType) (value : CapsuleValue) : Value :=
  match value with
  | CNull => VNull
  | _ =>
      match field_type, value with
      | FCapsuleId, CBytes l => if bool_decide (length l = 16%nat) then VId l else VBytes l
      | FDocument, _ => VJson (capsule_json value)
      | _, CBool b => VBool b
      | _, CInteger z => VInt z
      | _, CFloat v => VFloat v
      | _, CText s => VText s
      | _, CBytes l => VBytes l
      | _, _ => VJson (capsule_json value)
      end
  end.

(** ** Records and capsules *)

Definition storage_class (model : Model) : StorageResult StorageClass :=
  let class := m_storage_class model in
  if bool_decide (class = lit "core") then Ok SCore
  else if bool_decide (class = lit "guest_data") then Ok SGuestData
  else if bool_decide (class = lit "telemetry") then Ok STelemetry
  else if bool_decide (class = lit "audit") then Ok SAudit
  else if bool_decide (class = lit "finance") then Ok SFinance
  else if bool_decide (class = lit "outbox") then Ok SOutbox
  else if bool_decide (class = lit "realtime") then Ok SRealtime
  else Err (model_invalid model (lit "storage class " ++ class)).

Definition owner (model : Model) (data : Data) : OwnerScope :=
  match m_owner_scope model, m_owner model with
  | ScopeCreature, Some relation =>
      match jget relation data with Some (VId id) => OCreature id | _ => OGlobal end
  | _, _ => OGlobal
  end.

Definition placeholder : CapsuleDigest := {| dg_algorithm := DIGEST_ALGORITHM; dg_bytes := repeat 0%N 32 |}.

(** The loop of [encode] over the members: the body and the relationships built so far. *)
Fixpoint encode_members (model : Model) (data : Data)
    (body : list (str * CapsuleValue)) (relationships : list CapsuleRelationship)
    : StorageResult (list (str * CapsuleValue) * list CapsuleRelationship) :=
  match data with
  | [] => Ok (body, relationships)
  | (name, value) :: data =>
      if is_null value then encode_members model data body relationships
      else match jget name (m_relations model) with
      | Some target =>
          match value with
          | VId target_id =>
              encode_members model data body
                (relationships ++ [{| rl_name := name; rl_target_kind := target; rl_target_id := target_id |}])
          | _ => Err (model_invalid model (lit "relation " ++ name ++ lit " takes an id"))
          end
      | None => encode_members model data (jinsert name (capsule_value value) body) relationships
      end
  end.

Section codec.
Context `{Sha256}.

(** [.seal().map_err(|error| invalid(model, error))]. *)
Definition seal_for (model : Model) (capsule : CapsuleEnvelope) : option (StorageResult CapsuleEnvelope) :=
  map_err (λ e, model_invalid model (capsule_error_text e)) <$> seal capsule.

Definition encode (model : Model) (id : Id) (previous : option CapsuleEnvelope) (now_micros : i64) (data : Data)
    : option (StorageResult CapsuleEnvelope) :=
  match encode_members model data [] [] with
  | Err e => Some (Err e)
  | Ok (body, relationships) =>
      let created := match previous with Some p => ce_created_at_micros p | None => now_micros end in
      match storage_class model with
      | Err e => Some (Err e)
      | Ok class =>
          seal_for model {|
            ce_encoding_version := ENCODING_VERSION; ce_id := id; ce_kind := m_name model;
            ce_storage_class := class; ce_owner_scope := owner model data; ce_schema_version := 1;
            ce_revision := match previous with Some p => wrap_u64 (ce_revision p + 1) | None => 1 end;
            ce_created_at_micros := created; ce_updated_at_micros := Z.max now_micros created;
            ce_previous_integrity := ce_integrity_hash <$> previous; ce_integrity_hash := placeholder;
            ce_tombstone := false; ce_relationships := relationships; ce_body := Some (CObject body) |}
      end
  end.

Definition tombstone (model : Model) (previous : CapsuleEnvelope) (now_micros : i64) : option (StorageResult CapsuleEnvelope) :=
  seal_for model {|
    ce_encoding_version := ce_encoding_version previous; ce_id := ce_id previous; ce_kind := ce_kind previous;
    ce_storage_class := ce_storage_class previous; ce_owner_scope := ce_owner_scope previous;
    ce_schema_version := ce_schema_version previous; ce_revision := wrap_u64 (ce_revision previous + 1);
    ce_created_at_micros := ce_created_at_micros previous;
    ce_updated_at_micros := Z.max now_micros (ce_updated_at_micros previous);
    ce_previous_integrity := Some (ce_integrity_hash previous); ce_integrity_hash := placeholder;
    ce_tombstone := true; ce_relationships := ce_relationships previous; ce_body := None |}.

End codec.

(** The fields that [decode] takes from the body, then the relations it takes from the relationships. *)
Definition decode_fields (model : Model) (body : list (str * CapsuleValue)) : Data :=
  foldl (λ data '(name, value),
    match jget name (m_fields model) with
    | Some field_type => jinsert name (record_value field_type value) data
    | None => data
    end) [] body.
Definition decode_relations (model : Model) (data : Data) (relationships : list CapsuleRelationship) : Data :=
  foldl (λ data r, if contains_key (m_relations model) (rl_name r) then jinsert (rl_name r) (VId (rl_target_id r)) data else data)
    data relationships.

(** [codec::decode], which does not fail. *)
Definition decode (model : Model) (capsule : CapsuleEnvelope) : Row :=
  let data := match ce_body capsule with Some (CObject body) => decode_fields model body | _ => [] end in
  {| row_id := ce_id capsule; row_revision := ce_revision capsule;
     row_created_at_micros := ce_created_at_micros capsule; row_updated_at_micros := ce_updated_at_micros capsule;
     row_data := decode_relations model data (ce_relationships capsule) |}.

(** ** Documents survive

    [serde_json] keeps an integer as [u64] or as a negative [i64], and a float as a finite double.
    A document holds what a capsule can: integers up to [i64::MAX]. *)

Definition number_ok (n : Json.number) : Prop :=
  match n with
  | Json.PosInt z => 0 ≤ z ≤ i64_max
  | Json.NegInt z => i64_min ≤ z < 0
  | Json.Float m e => is_double m e
  end.
Inductive json_ok : Json.value → Prop :=
| ok_null : json_ok Json.Null
| ok_bool b : json_ok (Json.Bool b)
| ok_number n : number_ok n → json_ok (Json.Number n)
| ok_string s : is_text s → json_ok (Json.String_ s)
| ok_array items : Forall json_ok items → json_ok (Json.Array items)
| ok_object map :
    ordered map → Forall (λ kv : str * Json.value, is_text kv.1 ∧ json_ok kv.2) map → json_ok (Json.Object map).

Lemma json_round_trip j : json_ok j → capsule_json (json_capsule j) = j.
Proof.
  induction j as [|b|n|s|items IH|map IH] using Json.value_induction; intros Hj; inversion Hj as [| |? Hn| |? Hf|? _ Hf]; subst; try done.
  - destruct n as [z|z|m e]; cbn in *.
    + rewrite (proj2 (Z.leb_le z i64_max)) by lia. cbn. unfold jint. by rewrite (proj2 (Z.leb_le 0 z)) by lia.
    + unfold jint. by rewrite (proj2 (Z.leb_gt 0 z)) by lia.
    + destruct Hn as (Hd & Hfin & _). by rewrite Hfin, Hd.
  - cbn. f_equal. rewrite <-list_fmap_compose. rewrite <-(list_fmap_id items) at 2. apply list_fmap_ext.
    intros i x Hx%list_elem_of_lookup_2. rewrite Forall_forall in *. by apply IH; [|apply Hf].
  - cbn. f_equal. rewrite <-list_fmap_compose. rewrite <-(list_fmap_id map) at 2. apply list_fmap_ext.
    intros i [k x] Hx%list_elem_of_lookup_2. rewrite Forall_forall in *. cbn. f_equal.
    apply (IH _ Hx). by apply (Hf _ Hx).
Qed.

(** A value of a record, as the Rust type and its field have it. *)
Definition value_ok (v : Value) : Prop :=
  match v with
  | VNull | VBool _ => True
  | VInt z => in_i64 z
  | VFloat v => (v < 2 ^ 64)%N
  | VText s => is_text s
  | VBytes l => is_bytes l
  | VJson j => json_ok j
  | VId id => is_id id
  end.

Lemma record_value_round_trip field_type v :
  value_ok v → is_null v = false → field_matches field_type v = true →
  record_value field_type (capsule_value v) = v.
Proof.
  intros Hv Hn Hm. destruct field_type, v as [| | | | | |j|id]; try done; cbn in *.
  - destruct Hv as [_ Hl]. by rewrite bool_decide_eq_true_2.
  - destruct j as [| | | | |m]; try done.
    change (VJson (capsule_json (json_capsule (Json.Object m))) = VJson (Json.Object m)). by rewrite json_round_trip.
Qed.

(** ** Encoding and decoding a record *)

(** What [encode] puts in the body, and where the relations go. *)
Definition stored_field (model : Model) (name : str) (v : Value) : bool :=
  negb (is_null v) && negb (contains_key (m_relations model) name).

Lemma encode_members_body model data body rels body' rels' k :
  NoDup data.*1 → (∀ k, k ∈ data.*1 → jget k body = None) →
  encode_members model data body rels = Ok (body', rels') →
  jget k body' = match jget k data with
                 | Some v => if stored_field model k v then Some (capsule_value v) else None
                 | None => jget k body
                 end.
Proof.
  unfold stored_field, contains_key. revert body rels.
  induction data as [|[name v] data IH]; intros body rels; cbn [fmap list_fmap fst jget encode_members].
  - intros _ _ H. by simplify_eq.
  - intros [Hni Hnd]%NoDup_cons Hb. assert (jget name body = None) as Hname by (apply Hb; left).
    assert (∀ k', k' ∈ data.*1 → jget k' body = None) as Hb' by (intros; apply Hb; by right).
    assert (jget name data = None) as Hd by (by apply jget_None).
    assert (∀ w k', k' ∈ data.*1 → jget k' (jinsert name w body) = None) as Hins.
    { intros w k' Hk'. rewrite jget_jinsert, bool_decide_eq_false_2; [auto|]. by intros ->. }
    rewrite jget_cons. case_bool_decide as Hk; [subst k|].
    + destruct (is_null v); [intros H; by rewrite (IH _ _ Hnd Hb' H), Hd, Hname|].
      destruct (jget name (m_relations model)) as [t|] eqn:Hr; cbn [is_some negb andb].
      * destruct v; try done. intros H. by rewrite (IH _ _ Hnd Hb' H), Hd, Hname.
      * intros H. rewrite (IH _ _ Hnd (Hins _) H). by rewrite Hd, jget_jinsert, bool_decide_eq_true_2.
    + destruct (is_null v); [intros H; by rewrite (IH _ _ Hnd Hb' H)|].
      destruct (jget name (m_relations model)) as [t|] eqn:Hr.
      * destruct v; try done. intros H. by rewrite (IH _ _ Hnd Hb' H).
      * intros H. rewrite (IH _ _ Hnd (Hins _) H). by rewrite jget_jinsert, bool_decide_eq_false_2.
Qed.

Lemma encode_members_relations model data body rels body' rels' :
  encode_members model data body rels = Ok (body', rels') →
  rels' = rels ++ omap (λ '(name, v), match jget name (m_relations model), v with
                                      | Some target, VId id => Some {| rl_name := name; rl_target_kind := target; rl_target_id := id |}
                                      | _, _ => None
                                      end) data.
Proof.
  revert body rels. induction data as [|[name v] data IH]; intros body rels; cbn [encode_members omap list_omap].
  - intros H. simplify_eq. by rewrite app_nil_r.
  - destruct v; cbn [is_null]; try (intros H%IH; by destruct (jget name (m_relations model)));
      destruct (jget name (m_relations model)) as [t|]; try done; intros H%IH; rewrite H; by rewrite <-?app_assoc.
Qed.

Lemma encode_members_ordered model data body rels body' rels' :
  ordered body → encode_members model data body rels = Ok (body', rels') → ordered body'.
Proof.
  revert body rels. induction data as [|[name v] data IH]; intros body rels Ho; cbn [encode_members]; [by intros [= <- <-]|].
  destruct (is_null v); [by apply IH|]. destruct (jget name (m_relations model)); [destruct v; try done; by apply IH|].
  by apply IH, jinsert_ordered.
Qed.

Lemma decode_fields_get model body k :
  NoDup body.*1 →
  jget k (decode_fields model body) =
  match jget k body, jget k (m_fields model) with
  | Some cv, Some field_type => Some (record_value field_type cv)
  | _, _ => None
  end.
Proof.
  intros Hnd. unfold decode_fields.
  assert (∀ acc, jget k (foldl (λ data '(name, value),
      match jget name (m_fields model) with
      | Some field_type => jinsert name (record_value field_type value) data
      | None => data
      end) acc body)
    = match jget k body, jget k (m_fields model) with
      | Some cv, Some field_type => Some (record_value field_type cv)
      | _, _ => jget k acc
      end) as Hg; [|rewrite Hg; by repeat case_match].
  induction body as [|[name cv] body IH]; intros acc; cbn [foldl]; [done|].
  apply NoDup_cons in Hnd as [Hni Hnd]. rewrite (IH Hnd), jget_cons. clear IH.
  destruct (jget name (m_fields model)) as [ft|] eqn:Ef; case_bool_decide as Hk; subst.
  - rewrite (proj2 (jget_None name body) Hni), Ef, jget_jinsert. by rewrite bool_decide_eq_true_2.
  - rewrite jget_jinsert, bool_decide_eq_false_2 by done. done.
  - by rewrite (proj2 (jget_None name body) Hni), Ef.
  - done.
Qed.
Lemma decode_fields_ordered model body : ordered (decode_fields model body).
Proof.
  unfold decode_fields. assert (@ordered Value []) as H by constructor. revert H. generalize (@nil (str * Value)).
  induction body as [|[name cv] body IH]; intros acc Ho; cbn [foldl]; [done|]. apply IH.
  destruct (jget name (m_fields model)); [by apply jinsert_ordered|done].
Qed.

Lemma decode_relations_ordered model data rels : ordered data → ordered (decode_relations model data rels).
Proof.
  unfold decode_relations. revert data. induction rels as [|r rels IH]; intros data Ho; cbn [foldl]; [done|].
  apply IH. destruct (contains_key _ _); [by apply jinsert_ordered|done].
Qed.
Lemma decode_relations_get model data rels k :
  NoDup (rl_name <$> rels) →
  jget k (decode_relations model data rels) =
  match find (λ r, bool_decide (rl_name r = k)) rels with
  | Some r => if contains_key (m_relations model) k then Some (VId (rl_target_id r)) else jget k data
  | None => jget k data
  end.
Proof.
  unfold decode_relations, find. revert data. induction rels as [|r rels IH]; intros data; cbn [foldl List.find fmap list_fmap]; [done|].
  intros [Hni Hnd]%NoDup_cons. rewrite (IH _ Hnd). clear IH. case_bool_decide as Hk.
  - subst k. destruct (List.find _ rels) as [r'|] eqn:Ef.
    { apply find_some in Ef as [Hin Hn%bool_decide_eq_true]. destruct Hni. rewrite <-Hn.
      apply list_elem_of_fmap_2. by apply list_elem_of_In. }
    destruct (contains_key _ _); [|done]. by rewrite jget_jinsert, bool_decide_eq_true_2.
  - destruct (contains_key (m_relations model) (rl_name r)); [|done].
    by rewrite jget_jinsert, bool_decide_eq_false_2.
Qed.

(** The relation that [encode] stores for a name. *)
Lemma relations_find model data k :
  NoDup data.*1 →
  let rels := omap (λ '(name, v), match jget name (m_relations model), v with
                                  | Some target, VId id => Some {| rl_name := name; rl_target_kind := target; rl_target_id := id |}
                                  | _, _ => None
                                  end) data in
  NoDup (rl_name <$> rels) ∧ (∀ n, n ∈ rl_name <$> rels → n ∈ data.*1) ∧
  find (λ r, bool_decide (rl_name r = k)) rels =
  match jget k data, jget k (m_relations model) with
  | Some (VId id), Some target => Some {| rl_name := k; rl_target_kind := target; rl_target_id := id |}
  | _, _ => None
  end.
Proof.
  intros Hnd rels. subst rels. induction data as [|[name v] data IH]; cbn [omap list_omap fmap list_fmap fst].
  { split; [constructor|]. split; [by intros ? ?%elem_of_nil|done]. }
  apply NoDup_cons in Hnd as [Hni Hnd]. destruct (IH Hnd) as (I1 & I2 & I3). clear IH. rewrite jget_cons.
  pose proof (proj2 (jget_None name data) Hni) as Hnk.
  destruct (jget name (m_relations model)) as [t|] eqn:Er; [destruct v as [| | | | | | |id]|];
    try (split; [done|]; split; [intros n Hn; right; by apply I2|]; rewrite I3; case_bool_decide; [subst|done];
         rewrite Hnk, ?Er; by repeat case_match).
  cbn [fmap list_fmap rl_name]. split; [apply NoDup_cons; split; [|done]; by intros ?%I2|].
  split; [intros n [->|Hn]%elem_of_cons; [left|right; by apply I2]|].
  unfold find in *. cbn [List.find rl_name]. destruct (decide (name = k)) as [->|Hne].
  - by rewrite !bool_decide_eq_true_2, Er by done.
  - by rewrite !bool_decide_eq_false_2 by congruence.
Qed.

(** ** The record round trip *)

Definition data_ok (data : Data) : Prop := ordered data ∧ Forall (λ kv : str * Value, value_ok kv.2) data.

(** The members that a record keeps. *)
Definition kept (data : Data) : Data := filter (λ kv, is_null kv.2 = false) data.

Lemma kept_get data k : ordered data →
  jget k (kept data) = match jget k data with Some v => if is_null v then None else Some v | None => None end.
Proof.
  intros Ho. assert (ordered (kept data)) as Hk by by apply ordered_filter.
  destruct (jget k (kept data)) as [v|] eqn:E.
  - apply jget_elem in E; [|done]. apply list_elem_of_filter in E as [Hn Hin]. cbn in Hn.
    apply jget_elem in Hin; [|done]. by rewrite Hin, Hn.
  - destruct (jget k data) as [v|] eqn:Ed; [|done]. destruct (is_null v) eqn:Hn; [done|].
    apply jget_elem in Ed; [|done]. assert ((k, v) ∈ kept data) as Hin by (by apply list_elem_of_filter).
    apply jget_elem in Hin; [congruence|done].
Qed.

Lemma validate_member_inv model data complete k v :
  ordered data → validate model data complete = Ok tt → jget k data = Some v → is_null v = false →
  match jget k (m_relations model) with
  | Some _ => ∃ id, v = VId id
  | None => ∃ field_type, jget k (m_fields model) = Some field_type ∧ field_matches field_type v = true
  end.
Proof.
  unfold validate. intros Ho Hv Hk Hn. destruct (try_each _ _) as [[]|] eqn:Et; [|done].
  apply try_each_Ok in Et. rewrite Forall_forall in Et. apply jget_elem in Hk; [|done]. specialize (Et _ Hk).
  unfold validate_member, contains_key in Et. rewrite Hn in Et. destruct (jget k (m_relations model)) as [t|]; cbn [is_some] in Et.
  - destruct v; try done. by eexists.
  - destruct (jget k (m_fields model)) as [ft|]; [|done]. exists ft. split; [done|]. by destruct (field_matches ft v).
Qed.

Lemma decode_encoded_members model data complete body rels :
  data_ok data → validate model data complete = Ok tt → encode_members model data [] [] = Ok (body, rels) →
  decode_relations model (decode_fields model body) rels = kept data.
Proof.
  intros [Ho Hok] Hv He. pose proof (ordered_NoDup _ Ho) as Hnd.
  assert (ordered body) as Hob by (eapply encode_members_ordered; [|exact He]; constructor).
  apply ordered_ext; [apply decode_relations_ordered, decode_fields_ordered|by apply ordered_filter|]. intros k.
  pose proof (encode_members_body _ _ [] _ _ _ k Hnd (λ _ _, eq_refl) He) as Hb.
  apply encode_members_relations in He. cbn [app] in He. subst rels.
  destruct (relations_find model data k Hnd) as (Hr1 & _ & Hr2).
  rewrite decode_relations_get, Hr2, decode_fields_get, Hb, kept_get by (done || by apply ordered_NoDup).
  unfold stored_field, contains_key. clear Hb Hr1 Hr2.
  destruct (jget k data) as [v|] eqn:Ek; [|done].
  destruct (is_null v) eqn:Hn; [destruct v; done|]. cbn [negb andb].
  pose proof (validate_member_inv model data complete k v Ho Hv Ek Hn) as Hm.
  destruct (jget k (m_relations model)) as [t|]; cbn [is_some negb].
  - destruct Hm as [id ->]. done.
  - destruct Hm as (ft & -> & Hft). rewrite record_value_round_trip; [by destruct v| |done|done].
    rewrite Forall_forall in Hok. apply jget_elem in Ek; [|done]. by apply (Hok (k, v)).
Qed.

Section codec_laws.
Context `{Sha256Laws}.

Lemma seal_for_inv model e c : seal_for model e = Some (Ok c) →
  seal e = Some (Ok c) ∧ c = with_integrity e (ce_integrity_hash c) ∧ verify c = Some (Ok tt).
Proof.
  unfold seal_for. destruct (seal e) as [[c'|]|] eqn:Es; [|done..]. cbn. intros [= ->].
  split; [done|]. by apply sealed_verified in Es.
Qed.

Lemma record_decode_encode model id previous now data complete capsule :
  data_ok data → validate model data complete = Ok tt →
  encode model id previous now data = Some (Ok capsule) →
  decode model capsule = {|
    row_id := id;
    row_revision := match previous with Some p => wrap_u64 (ce_revision p + 1) | None => 1 end;
    row_created_at_micros := match previous with Some p => ce_created_at_micros p | None => now end;
    row_updated_at_micros := Z.max now (match previous with Some p => ce_created_at_micros p | None => now end);
    row_data := kept data |}.
Proof.
  intros Hd Hv He. unfold encode in He. destruct (encode_members model data [] []) as [[body rels]|] eqn:Em; [|done].
  destruct (storage_class model) as [class|]; [|done]. apply seal_for_inv in He as (_ & -> & Hver).
  unfold decode. cbn [with_integrity ce_body ce_id ce_revision ce_created_at_micros ce_updated_at_micros ce_relationships].
  f_equal. by eapply decode_encoded_members.
Qed.

(** Every write extends the history.  What [encode] and [tombstone] seal after a revision is
    verified, carries its hash and the next number, and so continues its history. *)
Theorem writes_extend_history model id previous h now data capsule :
  linked (previous :: h) → in_u64 (ce_revision previous) →
  encode model id (Some previous) now data = Some (Ok capsule) ∨ tombstone model previous now = Some (Ok capsule) →
  linked (capsule :: previous :: h).
Proof.
  intros Hl Hr Hc. pose proof (verified_i64 previous (proj1 Hl)) as Hmax.
  assert (wrap_u64 (ce_revision previous + 1) = ce_revision previous + 1) as Hw by (apply wrap_u64_id; ilia).
  enough (verify capsule = Some (Ok tt) ∧ ce_previous_integrity capsule = Some (ce_integrity_hash previous)
          ∧ ce_revision capsule = ce_revision previous + 1) as (? & ? & ?) by (split; [done|]; split; [done|]; by split).
  destruct Hc as [Hc|Hc].
  - unfold encode in Hc. destruct (encode_members model data [] []) as [[body rels]|]; [|done].
    destruct (storage_class model); [|done]. apply seal_for_inv in Hc as (_ & -> & ?). by split.
  - apply seal_for_inv in Hc as (_ & -> & ?). by split.
Qed.

End codec_laws.
