(* ===== verification/Catalog.v ===== *)
(** The model catalog ([aseman-storage/src/schema.rs], [Schema::parse]): logical models and registries
    become checked models.  The JSON that [serde] decodes is the argument, already decoded: the
    definitions of the logical schemas and the rows of the registries, each in order. *)

From S2P Require Import Prelude Text BTree Bytes Floats Json Capsule CapsuleCodec Envelope Sealed Records.

Open Scope Z_scope.

Record LogicalModel := {
  lm_kind : str;
  lm_fields : list (str * str);
  lm_required : list str;
  lm_unique_indexes : list (list str);
  lm_range_indexes : list (list str);
  lm_relationships : list (str * str);
  lm_mutation_policy : option str;
  lm_key_family : option str;
  lm_owner : option str;
}.
Record RegistryKind := { rk_kind : str; rk_storage_class : str; rk_owner_scope : str }.

(** [collect::<BTreeSet<_>>()]. *)
Definition sorted_set (l : list str) : list str := (foldl (λ m k, jinsert k tt m) [] l).*1.

Definition placement (registries : list RegistryKind) : list (str * (str * str)) :=
  foldl (λ m k, jinsert (rk_kind k) (rk_storage_class k, rk_owner_scope k) m) [] registries.

Definition owner_scope_parse (name : str) : StorageResult ModelScope :=
  if bool_decide (name = lit "global") then Ok ScopeGlobal
  else if bool_decide (name = lit "node") then Ok ScopeNode
  else if bool_decide (name = lit "creature") then Ok ScopeCreature
  else Err (SInvalid (lit "owner scope " ++ name)).

Fixpoint parse_fields (fields : list (str * str)) : StorageResult (list (str * FieldType)) :=
  match fields with
  | [] => Ok []
  | (name, kind) :: fields =>
      let? kind := FieldType_parse kind in
      let? fields := parse_fields fields in
      Ok ((name, kind) :: fields)
  end.

(** One turn of the loop over the definitions. *)
Definition parse_model (placement : list (str * (str * str))) (definition : LogicalModel) : StorageResult Model :=
  let? (storage_class, owner_scope) := ok_or (jget (lm_kind definition) placement)
    (SInvalid (lm_kind definition ++ lit " has no registry row")) in
  let? owner_scope := owner_scope_parse owner_scope in
  let? fields := parse_fields (lm_fields definition) in
  let owner :=
    match lm_owner definition with
    | Some owner => Some owner
    | None =>
        if bool_decide (owner_scope = ScopeCreature) && contains_key (lm_relationships definition) (lit "creature")
        then Some (lit "creature") else None
    end in
  let model := {|
    m_name := lm_kind definition; m_storage_class := storage_class; m_owner_scope := owner_scope; m_owner := owner;
    m_key_family := lm_key_family definition; m_fields := fields; m_required := sorted_set (lm_required definition);
    m_unique := lm_unique_indexes definition; m_range_indexes := lm_range_indexes definition;
    m_relations := lm_relationships definition;
    m_append_only := bool_decide (lm_mutation_policy definition = Some (lit "append_only")) |} in
  let? _ := model_validate model in
  Ok model.

Fixpoint parse_models (placement : list (str * (str * str))) (models : list (str * Model)) (definitions : list LogicalModel)
    : StorageResult (list (str * Model)) :=
  match definitions with
  | [] => Ok models
  | definition :: definitions =>
      let? model := parse_model placement definition in
      parse_models placement (jinsert (lm_kind definition) model models) definitions
  end.

(** The last loop: relations lead to models of the catalog. *)
Definition check_relations (models : list (str * Model)) (model : Model) : StorageResult unit :=
  try_each (λ target, if contains_key models target then Ok tt
                      else Err (SInvalid (m_name model ++ lit " relates to unknown model " ++ target))) (m_relations model).*2.

(** [Schema::parse]. *)
Definition parse (logical : list LogicalModel) (registries : list RegistryKind) : StorageResult (list (str * Model)) :=
  let? models := parse_models (placement registries) [] logical in
  let? _ := try_each (check_relations models) models.*2 in
  Ok models.

(** ** What a catalog promises *)

Lemma parse_model_name placement definition model :
  parse_model placement definition = Ok model → m_name model = lm_kind definition ∧ model_validate model = Ok tt.
Proof.
  unfold parse_model. destruct (ok_or _ _) as [[class scope]|]; [|done]. destruct (owner_scope_parse scope); [|done].
  destruct (parse_fields _); [|done]. destruct (model_validate _) as [[]|] eqn:Hv; [|done]. intros H%Ok_inj. by subst model.
Qed.

Definition catalog_ok (models : list (str * Model)) : Prop :=
  ordered models ∧ ∀ name model, jget name models = Some model → m_name model = name ∧ model_validate model = Ok tt.

Lemma parse_models_ok placement models definitions models' :
  catalog_ok models → parse_models placement models definitions = Ok models' →
  catalog_ok models' ∧ ∀ d, d ∈ definitions → is_Some (jget (lm_kind d) models').
Proof.
  revert models. assert (∀ ds models models' n, parse_models placement models ds = Ok models' → is_Some (jget n models) → is_Some (jget n models')) as Hkeep.
  { clear. induction ds as [|d ds IH]; intros models models' n; cbn [parse_models]; [by intros <-%Ok_inj|].
    destruct (parse_model placement d) as [model|]; [|done]. intros Hp Hn. eapply IH; [exact Hp|]. rewrite jget_jinsert.
    case_bool_decide; [by eexists|done]. }
  induction definitions as [|d ds IH]; intros models [Ho Hm]; cbn [parse_models].
  - intros <-%Ok_inj. split; [done|]. by intros d ?%elem_of_nil.
  - destruct (parse_model placement d) as [model|] eqn:Hd; [|done]. intros Hp.
    pose proof (parse_model_name _ _ _ Hd) as [Hn Hv].
    destruct (IH (jinsert (lm_kind d) model models)) as [Hok Hin]; [|done|].
    + split; [by apply jinsert_ordered|]. intros name m. rewrite jget_jinsert. case_bool_decide; [|apply Hm]. intros [= <-]. by subst.
    + split; [done|]. intros d' [->|Hd']%elem_of_cons; [|by apply Hin]. eapply Hkeep; [exact Hp|].
      rewrite jget_jinsert, bool_decide_eq_true_2 by done. by eexists.
Qed.

(** A catalog that parses is closed and checked.  It has a model for every definition, each model
    is under its own name and passes the model checks: required fields and indexes are declared, the
    owner is a relation, a keyed model has a unique text key; and every relation of every model
    leads to a model of the catalog. *)
Theorem catalog_is_closed logical registries models :
  parse logical registries = Ok models →
  (∀ d, d ∈ logical → is_Some (jget (lm_kind d) models))
  ∧ ∀ name model, jget name models = Some model →
      m_name model = name ∧ model_validate model = Ok tt
      ∧ ∀ relation target, (relation, target) ∈ m_relations model → is_Some (jget target models).
Proof.
  unfold parse. destruct (parse_models _ [] logical) as [ms|] eqn:Hp; [|done].
  apply parse_models_ok in Hp as [[Ho Hok] Hin]; [|split; [constructor|done]].
  destruct (try_each _ _) as [[]|] eqn:Hr; [|done]. intros <-%Ok_inj. split; [done|].
  intros name model Hm. destruct (Hok _ _ Hm) as [Hn Hv]. split; [done|]. split; [done|]. intros relation target Hrel.
  apply try_each_Ok in Hr. rewrite Forall_forall in Hr. apply jget_elem in Hm; [|done].
  assert (model ∈ ms.*2) as Hin2 by (apply list_elem_of_fmap; by exists (name, model)).
  specialize (Hr model Hin2). unfold check_relations in Hr. apply try_each_Ok in Hr. rewrite Forall_forall in Hr.
  assert (target ∈ (m_relations model).*2) as Ht by (apply list_elem_of_fmap; by exists (relation, target)).
  specialize (Hr target Ht). unfold contains_key in Hr. destruct (jget target ms); [by eexists|done].
Qed.

(** A kind and its registry row, with a relation to itself. *)
Definition thread : LogicalModel := {|
  lm_kind := lit "core.thread"; lm_fields := [(lit "key", lit "text"); (lit "title", lit "text")];
  lm_required := [lit "title"; lit "key"]; lm_unique_indexes := [[lit "key"]]; lm_range_indexes := [];
  lm_relationships := [(lit "parent", lit "core.thread")]; lm_mutation_policy := None;
  lm_key_family := Some (lit "Thread"); lm_owner := None |}.
Definition thread_row : RegistryKind := {| rk_kind := lit "core.thread"; rk_storage_class := lit "core"; rk_owner_scope := lit "global" |}.
Definition threads : list (str * Model) := match parse [thread] [thread_row] with Ok models => models | Err _ => [] end.

Lemma catalog_is_closed_witness :
  parse [thread] [thread_row] = Ok threads
  ∧ ∀ d, d ∈ [thread] → is_Some (jget (lm_kind d) threads).
Proof.
  assert (parse [thread] [thread_row] = Ok threads) as Hp by (vm_compute; reflexivity).
  split; [exact Hp|]. apply (catalog_is_closed [thread] [thread_row] threads Hp).
Defined.
