(* ===== verification/Queries.v ===== *)
(** Filters, ordering and pagination of the storage module ([aseman-storage/src/query.rs], [eval.rs]):
    evaluation over decoded records with the three truth values of SQL.

    Case folding ([str::to_lowercase]) is the standard library's Unicode table: the class
    [Lowercase]. *)

From S2P Require Import Prelude Text BTree Bytes Floats Json Capsule CapsuleCodec Envelope Sealed Records.

Open Scope Z_scope.

Class Lowercase := to_lowercase : str → str.

(** ** Queries *)

Inductive Case := Sensitive | Insensitive.

Inductive Cond :=
| Equals (v : Value)
| CNot (v : Value)
| In (vs : list Value)
| NotIn (vs : list Value)
| CLt (v : Value)
| CLte (v : Value)
| CGt (v : Value)
| CGte (v : Value)
| Contains (pattern : str) (case : Case)
| StartsWith (pattern : str) (case : Case)
| EndsWith (pattern : str) (case : Case)
| IsNull (null : bool).

Inductive Where :=
| Field (name : str) (cond : Cond)
| And (filters : list Where)
| Or (filters : list Where)
| Not (filter : Where).

(** [Where::eq] and [Where::all]. *)
Definition where_eq (name : str) (value : Value) : Where := Field name (Equals value).
Definition where_all (filters : list Where) : option Where :=
  match filters with
  | [] => None
  | [filter] => Some filter
  | _ => Some (And filters)
  end.

Inductive Direction := Asc | Desc.
Record Order := { or_field : str; or_direction : Direction }.

Record FindMany := {
  fm_filter : option Where;
  fm_order_by : list Order;
  fm_skip : u64;
  fm_take : option u64;
}.

Inductive Unique :=
| UId (id : Id)
| UKey (key : str)
| UFields (fields : Data).

(** Induction that reaches the filters of a conjunction or a disjunction. *)
Section where_rect.
Context (P : Where → Prop).
Hypothesis (Hfield : ∀ name cond, P (Field name cond)) (Hand : ∀ l, Forall P l → P (And l))
  (Hor : ∀ l, Forall P l → P (Or l)) (Hnot : ∀ f, P f → P (Not f)).
Fixpoint Where_induction (f : Where) : P f :=
  match f with
  | Field name cond => Hfield name cond
  | And l =>
      Hand l ((fix go l : Forall P l :=
        match l with [] => Forall_nil_2 P | f :: l => Forall_cons_2 P f l (Where_induction f) (go l) end) l)
  | Or l =>
      Hor l ((fix go l : Forall P l :=
        match l with [] => Forall_nil_2 P | f :: l => Forall_cons_2 P f l (Where_induction f) (go l) end) l)
  | Not f => Hnot f (Where_induction f)
  end.
End where_rect.

(** ** Comparison *)

(** [Ord] of byte strings. *)
Fixpoint bytes_cmp (l m : list byte) : comparison :=
  match l, m with
  | [], [] => Eq
  | [], _ :: _ => Lt
  | _ :: _, [] => Gt
  | a :: l, b :: m => match (a ?= b)%N with Eq => bytes_cmp l m | c => c end
  end.
Definition bool_cmp (a b : bool) : comparison :=
  match a, b with false, true => Lt | true, false => Gt | _, _ => Eq end.

Definition compare (l r : Value) : option comparison :=
  match l, r with
  | VBool a, VBool b => Some (bool_cmp a b)
  | VInt a, VInt b => Some (a ?= b)
  | VFloat a, VFloat b => f64_partial_cmp a b
  | VInt a, VFloat b => f64_partial_cmp (int_as_f64 a) b
  | VFloat a, VInt b => f64_partial_cmp a (int_as_f64 b)
  | VText a, VText b => Some (bytes_cmp (bytes a) (bytes b))
  | VBytes a, VBytes b => Some (bytes_cmp a b)
  | VId a, VId b => Some (bytes_cmp a b)
  | VJson a, VJson b => if bool_decide (a = b) then Some Eq else None
  | _, _ => None
  end.

Definition is_eq (c : comparison) : bool := match c with Eq => true | _ => false end.
Definition is_lt (c : comparison) : bool := match c with Lt => true | _ => false end.
Definition is_gt (c : comparison) : bool := match c with Gt => true | _ => false end.

(** ** Evaluation *)

Section eval.
Context `{Lowercase}.

Definition text_condition (value : Value) (pattern : str) (case : Case) (test : str → str → bool) : option bool :=
  match value with
  | VNull => None
  | VText text =>
      Some match case with
           | Sensitive => test text pattern
           | Insensitive => test (to_lowercase text) (to_lowercase pattern)
           end
  | _ => Some false
  end.

Definition condition (value : Value) (cond : Cond) : option bool :=
  match cond with
  | IsNull null => Some (Bool.eqb (is_null value) null)
  | Equals VNull => Some (is_null value)
  | CNot VNull => Some (negb (is_null value))
  | Equals expected => is_eq <$> compare value expected
  | CNot expected => (λ c, negb (is_eq c)) <$> compare value expected
  | In values =>
      if is_null value then None
      else Some (existsb (λ candidate, bool_decide (compare value candidate = Some Eq)) values)
  | NotIn values =>
      if is_null value then None
      else Some (negb (existsb (λ candidate, bool_decide (compare value candidate = Some Eq)) values))
  | CLt bound => is_lt <$> compare value bound
  | CLte bound => (λ c, negb (is_gt c)) <$> compare value bound
  | CGt bound => is_gt <$> compare value bound
  | CGte bound => (λ c, negb (is_lt c)) <$> compare value bound
  | Contains pattern case => text_condition value pattern case (λ text pattern, contains_str pattern text)
  | StartsWith pattern case => text_condition value pattern case (λ text pattern, is_some (strip_prefix pattern text))
  | EndsWith pattern case =>
      text_condition value pattern case (λ text pattern, is_some (strip_prefix (rev pattern) (rev text)))
  end.

(** The loops of [evaluate] over a conjunction and a disjunction, with the result so far. *)
Definition all_of (evaluate : Where → option bool) : list Where → option bool → option bool :=
  fix go filters result :=
    match filters with
    | [] => result
    | f :: filters =>
        match evaluate f with
        | Some false => Some false
        | None => go filters None
        | Some true => go filters result
        end
    end.
Definition any_of (evaluate : Where → option bool) : list Where → option bool → option bool :=
  fix go filters result :=
    match filters with
    | [] => result
    | f :: filters =>
        match evaluate f with
        | Some true => Some true
        | None => go filters None
        | Some false => go filters result
        end
    end.

Fixpoint evaluate (filter : Where) (row : Row) : option bool :=
  match filter with
  | Field name cond => condition (row_get row name) cond
  | And filters => all_of (λ f, evaluate f row) filters (Some true)
  | Or filters => any_of (λ f, evaluate f row) filters (Some false)
  | Not filter => negb <$> evaluate filter row
  end.

Definition matches (filter : Where) (row : Row) : bool := bool_decide (evaluate filter row = Some true).

End eval.

(** ** Ordering *)

Definition reverse (c : comparison) : comparison := CompOpp c.

Fixpoint order (l r : Row) (order_by : list Order) : comparison :=
  match order_by with
  | [] => bytes_cmp (row_id l) (row_id r)
  | o :: order_by =>
      let ascending :=
        match row_get l (or_field o), row_get r (or_field o) with
        | VNull, VNull => Eq
        | VNull, _ => Gt
        | _, VNull => Lt
        | a, b => default Eq (compare a b)
        end in
      let ordering := match or_direction o with Asc => ascending | Desc => reverse ascending end in
      match ordering with Eq => order l r order_by | c => c end
  end.

(** Every field or relation a filter names. *)
Fixpoint filter_fields (filter : Where) : list str :=
  match filter with
  | Field field _ => [field]
  | And filters | Or filters => concat (filter_fields <$> filters)
  | Not filter => filter_fields filter
  end.

(** ** What evaluation means: SQL's three truth values *)

(** Conjunction and disjunction of truth values, [None] the unknown one. *)
Definition and3 (a b : option bool) : option bool :=
  match a, b with
  | Some false, _ | _, Some false => Some false
  | Some true, Some true => Some true
  | _, _ => None
  end.
Definition or3 (a b : option bool) : option bool :=
  match a, b with
  | Some true, _ | _, Some true => Some true
  | Some false, Some false => Some false
  | _, _ => None
  end.

Section eval_laws.
Context `{Lowercase}.

Lemma all_of_spec (ev : Where → option bool) l acc :
  acc ≠ Some false → all_of ev l acc = foldr (λ f r, and3 (ev f) r) acc l.
Proof.
  revert acc. induction l as [|f l IH]; intros acc Ha; cbn; [done|].
  destruct (ev f) as [[]|]; [|done|]; rewrite IH by done.
  - destruct (foldr _ acc l) as [[]|]; done.
  - clear IH. assert (foldr (λ f r, and3 (ev f) r) None l = and3 None (foldr (λ f r, and3 (ev f) r) acc l)) as Hx; [|done].
    induction l as [|g l IH]; cbn; [by destruct acc as [[]|]|]. rewrite IH.
    destruct (ev g) as [[]|], (foldr _ acc l) as [[]|]; done.
Qed.
Lemma any_of_spec (ev : Where → option bool) l acc :
  acc ≠ Some true → any_of ev l acc = foldr (λ f r, or3 (ev f) r) acc l.
Proof.
  revert acc. induction l as [|f l IH]; intros acc Ha; cbn; [done|].
  destruct (ev f) as [[]|]; [done| |]; rewrite IH by done.
  - destruct (foldr _ acc l) as [[]|]; done.
  - clear IH. assert (foldr (λ f r, or3 (ev f) r) None l = or3 None (foldr (λ f r, or3 (ev f) r) acc l)) as Hx; [|done].
    induction l as [|g l IH]; cbn; [by destruct acc as [[]|]|]. rewrite IH.
    destruct (ev g) as [[]|], (foldr _ acc l) as [[]|]; done.
Qed.

(** The reference semantics: Kleene's connectives, without early exits. *)
Fixpoint truth (filter : Where) (row : Row) : option bool :=
  match filter with
  | Field name cond => condition (row_get row name) cond
  | And filters => foldr and3 (Some true) ((λ f, truth f row) <$> filters)
  | Or filters => foldr or3 (Some false) ((λ f, truth f row) <$> filters)
  | Not filter => negb <$> truth filter row
  end.

Lemma foldr_fmap {A B C} (f : A → B) (g : B → C → C) (c : C) l : foldr g c (f <$> l) = foldr (λ a, g (f a)) c l.
Proof. induction l; cbn; congruence. Qed.
Lemma foldr_ext_in {A C} (g h : A → C → C) (c : C) l : Forall (λ a, ∀ r, g a r = h a r) l → foldr g c l = foldr h c l.
Proof. induction 1 as [|a l Ha _ IH]; cbn; [done|]. by rewrite IH. Qed.

Lemma evaluate_truth filter row : evaluate filter row = truth filter row.
Proof.
  induction filter as [name cond|l IH|l IH|f IH] using Where_induction; cbn [evaluate truth].
  - done.
  - rewrite all_of_spec, foldr_fmap by done. apply foldr_ext_in. eapply Forall_impl; [exact IH|]. intros f Hf r. by rewrite Hf.
  - rewrite any_of_spec, foldr_fmap by done. apply foldr_ext_in. eapply Forall_impl; [exact IH|]. intros f Hf r. by rewrite Hf.
  - by rewrite IH.
Qed.

Lemma negb_and3 a b : negb <$> and3 a b = or3 (negb <$> a) (negb <$> b).
Proof. by destruct a as [[]|], b as [[]|]. Qed.

(** Filters have SQL's meaning.  The evaluator, which stops a conjunction at the first false and a
    disjunction at the first true, answers what Kleene's three-valued connectives answer over the
    whole filter, so a negated conjunction keeps exactly the rows that the disjunction of the
    negations keeps, unknowns included. *)
Theorem filters_are_sql filters filter row :
  evaluate filter row = truth filter row ∧
  evaluate (Not (And filters)) row = evaluate (Or (Not <$> filters)) row ∧
  matches (Not (And filters)) row = matches (Or (Not <$> filters)) row.
Proof.
  assert (evaluate (Not (And filters)) row = evaluate (Or (Not <$> filters)) row) as Hd.
  { rewrite !evaluate_truth. cbn [truth]. induction filters as [|f l IH]; [done|]. cbn [fmap list_fmap foldr truth].
    rewrite negb_and3. by rewrite <-IH. }
  split; [apply evaluate_truth|]. split; [done|]. unfold matches. by rewrite Hd.
Qed.

End eval_laws.

Lemma bytes_cmp_antisym l m : bytes_cmp l m = CompOpp (bytes_cmp m l).
Proof.
  revert m. induction l as [|a l IH]; intros [|b m]; cbn; try done.
  rewrite (N.compare_antisym b a). destruct (b ?= a)%N; cbn; auto.
Qed.
Lemma bytes_cmp_eq l m : bytes_cmp l m = Eq ↔ l = m.
Proof.
  revert m. induction l as [|a l IH]; intros [|b m]; cbn; try done.
  destruct (N.compare_spec a b) as [->|Hab|Hab]; [rewrite IH; naive_solver|split; [done|intros [= -> _]; lia]..].
Qed.

(** A float field may hold integers, and an integer is compared with a float after a cast that rounds
    above 2^53, with another integer exactly; so three rows can each come before the next in a
    circle, and sorting by the field has no right answer. *)
Definition weighed (id : byte) (v : Value) : Row := {|
  row_id := repeat id 16; row_revision := 1; row_created_at_micros := 0; row_updated_at_micros := 0;
  row_data := [(lit "weight", v)] |}.
Example order_cycles :
  let a := weighed 3 (VInt (2 ^ 53)) in
  let b := weighed 1 (VInt (2 ^ 53 + 1)) in
  let c := weighed 2 (VFloat (int_as_f64 (2 ^ 53))) in
  let by_weight := [{| or_field := lit "weight"; or_direction := Asc |}] in
  order a b by_weight = Lt ∧ order b c by_weight = Lt ∧ order c a by_weight = Lt.
Proof. vm_compute. done. Qed.
