(* ===== verification/Memory.v ===== *)
(** The in-memory storage provider ([aseman-storage/src/memory.rs]), the reference for the others: a
    store of sealed capsules, transactions that buffer their writes, and a commit that checks every
    write against the committed state and then applies all of them or none.

    The committed [BTreeMap] over pairs of a kind and an id is the map of kinds to the maps of ids,
    which lists the same pairs in the same order.  A transaction reads the committed state under its
    lock, so each operation is a function of the state it finds ([find] and [put] take the lock more
    than once and are taken here to find the same state each time); [commit] holds it throughout.
    The catalog of models is the parameter of [commit].  Messages leave out the id that they name. *)

From S2P Require Import Prelude Text BTree Bytes Floats Json Capsule CapsuleCodec Envelope Sealed Records Queries.

Open Scope Z_scope.

Definition DEFAULT_TAKE : u64 := 10000.

Inductive Mode := ReadWrite | ReadOnly.
#[export] Instance Mode_eq_dec : EqDecision Mode. Proof. solve_decision. Defined.

(** The capsules of one kind, by id, and of all kinds. *)
Notation Table := (list (Id * CapsuleEnvelope)).
Notation Capsules := (list (str * Table)).

Definition table (kind : str) (committed : Capsules) : Table := default [] (jget kind committed).
Definition lookup2 (kind : str) (id : Id) (committed : Capsules) : option CapsuleEnvelope := jget id (table kind committed).
Definition insert2 (kind : str) (capsule : CapsuleEnvelope) (committed : Capsules) : Capsules :=
  jinsert kind (jinsert (ce_id capsule) capsule (table kind committed)) committed.

(** A buffered write: the kind, the capsule, and the revision it expects. *)
Record Write := { wr_kind : str; wr_capsule : CapsuleEnvelope; wr_expected : option u64 }.

Record MemoryTransaction := { mt_writes : list Write; mt_mode : Mode }.

Definition begin (mode : Mode) : MemoryTransaction := {| mt_writes := []; mt_mode := mode |}.

(** ** Reading *)

Definition apply_write (kind : str) (view : Table) (w : Write) : Table :=
  if bool_decide (wr_kind w = kind) then jinsert (ce_id (wr_capsule w)) (wr_capsule w) view else view.

(** The committed capsules of a model with the transaction's writes applied. *)
Definition view (committed : Capsules) (self : MemoryTransaction) (model : Model) : Table :=
  foldl (apply_write (m_name model)) (table (m_name model) committed) (mt_writes self).

Section memory.
Context `{Sha256, Lowercase}.

Definition rows (committed : Capsules) (self : MemoryTransaction) (model : Model) (filter : option Where) : list Row :=
  omap (λ '(_, capsule),
    if ce_tombstone capsule then None
    else
      let row := decode model capsule in
      if is_none_or (λ filter, matches filter row) filter then Some row else None)
    (view committed self model).

(** The unique-index values a row claims; an index with a null value claims nothing. *)
Definition unique_claims (model : Model) (row : Row) : list (nat * list Value) :=
  omap (λ '(index, fields),
    let values := row_get row <$> fields in
    if existsb is_null values then None else Some (index, values))
    (zip (seq 0 (length (m_unique model))) (m_unique model)).

(** [PartialEq] of values: floats compare as floats. *)
Definition value_eqb (a b : Value) : bool :=
  match a, b with
  | VFloat a, VFloat b => f64_eq a b
  | _, _ => bool_decide (a = b)
  end.
Fixpoint values_eqb (l m : list Value) : bool :=
  match l, m with
  | [], [] => true
  | a :: l, b :: m => value_eqb a b && values_eqb l m
  | _, _ => false
  end.
Definition claim_eqb (a b : nat * list Value) : bool := bool_decide (a.1 = b.1) && values_eqb a.2 b.2.

Definition get (committed : Capsules) (self : MemoryTransaction) (model : Model) (id : Id) : option CapsuleEnvelope :=
  jget id (view committed self model).

(** [rows.sort_by]: a stable sort by [order], which ends in the id, so no two rows tie.  On the rows
    where [order] is no order ([Queries.order_cycles]) the standard library may also panic. *)
Definition row_le (order_by : list Order) (a b : Row) : Prop := order a b order_by ≠ Gt.
#[export] Instance row_le_dec order_by : RelDecision (row_le order_by).
Proof. intros a b. unfold row_le. destruct (order a b order_by); [left|left|right]; congruence. Defined.

Definition find_capsules (committed : Capsules) (self : MemoryTransaction) (model : Model) (query : FindMany) : list CapsuleEnvelope :=
  let sorted := merge_sort (row_le (fm_order_by query)) (rows committed self model (fm_filter query)) in
  let page := list.take (Z.to_nat (default DEFAULT_TAKE (fm_take query))) (drop (Z.to_nat (fm_skip query)) sorted) in
  omap (λ row, jget (row_id row) (view committed self model)) page.

Definition count (committed : Capsules) (self : MemoryTransaction) (model : Model) (filter : option Where) : u64 :=
  Z.of_nat (length (rows committed self model filter)).

(** ** Writing *)

(** A panic of [verify] is [None]. *)
Definition put (committed : Capsules) (self : MemoryTransaction) (model : Model) (capsule : CapsuleEnvelope)
    (expected_revision : option u64) : option (StorageResult MemoryTransaction) :=
  if bool_decide (mt_mode self = ReadOnly) then Some (Err (SInvalid (lit "read-only transaction")))
  else
    verified ← verify capsule;
    Some (let? _ := map_err (λ e, SInvalid (capsule_error_text e)) verified in
      let id := ce_id capsule in
      let current := ce_revision <$> jget id (view committed self model) in
      if bool_decide (current ≠ expected_revision) then Err (SConflict (m_name model ++ lit ": stale revision"))
      else
        let claims := unique_claims model (decode model capsule) in
        if negb (ce_tombstone capsule)
           && existsb (λ other, negb (bool_decide (row_id other = id))
                && existsb (λ claim, existsb (claim_eqb claim) claims) (unique_claims model other))
                (rows committed self model None)
        then Err (SConflict (m_name model ++ lit ": a unique index already holds these values"))
        else Ok {| mt_writes := mt_writes self ++ [{| wr_kind := m_name model; wr_capsule := capsule; wr_expected := expected_revision |}];
                   mt_mode := mt_mode self |}).

(** ** Committing *)

(** The first loop of [commit]: the revision of each record after the writes so far, and the first
    write that expects another one. *)
Fixpoint check_writes (committed : Capsules) (revisions : gmap (str * Id) u64) (writes : list Write) : StorageResult unit :=
  match writes with
  | [] => Ok tt
  | w :: writes =>
      let key := (wr_kind w, ce_id (wr_capsule w)) in
      let current :=
        match revisions !! key with
        | Some revision => Some revision
        | None => ce_revision <$> lookup2 key.1 key.2 committed
        end in
      if bool_decide (current ≠ wr_expected w)
      then Err (SConflict (wr_kind w ++ lit ": another transaction changed a record"))
      else check_writes committed (<[key := ce_revision (wr_capsule w)]> revisions) writes
  end.

Definition apply_writes (committed : Capsules) (writes : list Write) : Capsules :=
  foldl (λ next w, insert2 (wr_kind w) (wr_capsule w) next) committed writes.

(** The claims of one live capsule of a catalogued kind.  The code keeps them as the [Debug] text of
    the values, which tells different values apart (and also the zeros inside a document). *)
Definition capsule_claims (catalog : list (str * Model)) (kind : str) (capsule : CapsuleEnvelope) : list (str * nat * list Value) :=
  if ce_tombstone capsule then []
  else match jget kind catalog with
  | None => []
  | Some model => (λ '(index, values), (kind, index, values)) <$> unique_claims model (decode model capsule)
  end.
Definition store_claims (catalog : list (str * Model)) (committed : Capsules) : list (str * nat * list Value) :=
  committed ≫= λ '(kind, capsules), capsules ≫= λ '(_, capsule), capsule_claims catalog kind capsule.

(** The second loop of [commit]: no claim is made twice. *)
Fixpoint no_repeat {A} `{EqDecision A} (l : list A) : bool :=
  match l with [] => true | x :: l => negb (bool_decide (x ∈ l)) && no_repeat l end.

(** [commit] takes the writes in any case, and answers the committed state after it. *)
Definition commit (catalog : list (str * Model)) (committed : Capsules) (self : MemoryTransaction)
    : StorageResult unit * Capsules * MemoryTransaction :=
  let taken := {| mt_writes := []; mt_mode := mt_mode self |} in
  match check_writes committed ∅ (mt_writes self) with
  | Err e => (Err e, committed, taken)
  | Ok _ =>
      let next := apply_writes committed (mt_writes self) in
      if no_repeat (store_claims catalog next) then (Ok tt, next, taken)
      else (Err (SConflict (lit "a record collides on a unique index")), committed, taken)
  end.

Definition rollback (self : MemoryTransaction) : MemoryTransaction := {| mt_writes := []; mt_mode := mt_mode self |}.

(** ** Migration *)

(** [PartialEq] of capsule values and envelopes: floats compare as floats. *)
Fixpoint capsule_value_eqb (a b : CapsuleValue) : bool :=
  match a, b with
  | CNull, CNull => true
  | CBool a, CBool b => Bool.eqb a b
  | CInteger a, CInteger b => a =? b
  | CFloat a, CFloat b => f64_eq a b
  | CBytes a, CBytes b => bool_decide (a = b)
  | CText a, CText b => bool_decide (a = b)
  | CArray a, CArray b =>
      (fix go a b := match a, b with
         | [], [] => true
         | x :: a, y :: b => capsule_value_eqb x y && go a b
         | _, _ => false
         end) a b
  | CObject a, CObject b =>
      (fix go (a b : list (str * CapsuleValue)) := match a, b with
         | [], [] => true
         | (k, x) :: a, (l, y) :: b => bool_decide (k = l) && capsule_value_eqb x y && go a b
         | _, _ => false
         end) a b
  | _, _ => false
  end.
Definition envelope_eqb (a b : CapsuleEnvelope) : bool :=
  (ce_encoding_version a =? ce_encoding_version b) && bool_decide (ce_id a = ce_id b)
  && bool_decide (ce_kind a = ce_kind b) && bool_decide (ce_storage_class a = ce_storage_class b)
  && bool_decide (ce_owner_scope a = ce_owner_scope b) && (ce_schema_version a =? ce_schema_version b)
  && (ce_revision a =? ce_revision b) && (ce_created_at_micros a =? ce_created_at_micros b)
  && (ce_updated_at_micros a =? ce_updated_at_micros b)
  && bool_decide (ce_previous_integrity a = ce_previous_integrity b)
  && bool_decide (ce_integrity_hash a = ce_integrity_hash b) && Bool.eqb (ce_tombstone a) (ce_tombstone b)
  && bool_decide (ce_relationships a = ce_relationships b)
  && match ce_body a, ce_body b with
     | Some a, Some b => capsule_value_eqb a b
     | None, None => true
     | _, _ => false
     end.

(** The capsules of a model, tombstones included, in id order after [after]. *)
Definition export (committed : Capsules) (model : Model) (after : option Id) (limit : usize) : list CapsuleEnvelope :=
  list.take (Z.to_nat limit)
    (snd <$> filter (λ kv, is_none_or (λ after, is_gt (bytes_cmp kv.1 after)) after = true) (table (m_name model) committed)).

(** [import] stores capsules one by one; those before a refused one stay. *)

Fixpoint import (committed : Capsules) (model : Model) (capsules : list CapsuleEnvelope)
    : option (StorageResult unit * Capsules) :=
  match capsules with
  | [] => Some (Ok tt, committed)
  | capsule :: capsules =>
      verified ← verify capsule;
      match verified with
      | Err e => Some (Err (SInvalid (capsule_error_text e)), committed)
      | Ok _ =>
          match lookup2 (m_name model) (ce_id capsule) committed with
          | Some stored =>
              if envelope_eqb stored capsule then import committed model capsules
              else if ce_revision capsule <=? ce_revision stored
              then Some (Err (SConflict (m_name model ++ lit ": a record holds another revision")), committed)
              else import (insert2 (m_name model) capsule committed) model capsules
          | None => import (insert2 (m_name model) capsule committed) model capsules
          end
      end
  end.

End memory.
