(* ===== verification/Engine.v ===== *)
(** The transaction engine of the storage module ([aseman-storage/src/engine.rs], [provider.rs]): the
    record operations, built once over any provider.

    The provider's transaction is the class [CapsuleTransaction], in state-passing style, and what a
    provider promises of it is [ProviderSpec]; the engine's theorems are proved from the promises,
    and [Memory]'s provider keeps them ([Stores]).  Ids that the [uuid] crate generates and the clock
    are arguments.  A panic is [None]. *)

From S2P Require Import Prelude Text BTree Bytes Floats Json Capsule CapsuleCodec Envelope Sealed Records Queries Memory.

Open Scope Z_scope.

Definition PAGE : u64 := 1000.

(** ** The provider's transaction *)

Class CapsuleTransaction (T : Type) := {
  t_get : T → Model → Id → StorageResult (option CapsuleEnvelope);
  t_find : T → Model → FindMany → StorageResult (list CapsuleEnvelope);
  t_count : T → Model → option Where → StorageResult u64;
  t_put : T → Model → CapsuleEnvelope → option u64 → option (StorageResult T);
}.

(** [Id::for_key], by [derived_capsule_id] of [aseman-contracts/src/signals.rs]. *)
Definition derived_capsule_id `{Sha256} (family : str) (legacy_id : list byte) : Id :=
  list.take 16 (sha2 (lit "ASEMAN-LEGACY-CAPSULE-ID-V1" ++ [0%N]
    ++ be_bytes 8 (Z.to_N (len family)) ++ bytes family
    ++ be_bytes 8 (N.of_nat (length legacy_id)) ++ legacy_id)).
Definition for_key `{Sha256} (family key : str) : Id := derived_capsule_id family (bytes key).

(** How it ends: the answer, and what is left of the transaction and the store behind it. *)
Class TransactionEnd (T : Type) := {
  t_commit : T → StorageResult unit * T;
  t_rollback : T → StorageResult unit * T;
}.

Section engine.
Context `{Sha256} {T : Type} `{CapsuleTransaction T}.
Context (schema : list (str * Model)).

(** [Trx]: the provider's transaction, its mode, and whether it is finished. *)
Record Trx := { tx_inner : T; tx_mode : Mode; tx_finished : bool }.
Definition with_inner (trx : Trx) (inner : T) : Trx :=
  {| tx_inner := inner; tx_mode := tx_mode trx; tx_finished := tx_finished trx |}.

Definition model_of (name : str) : StorageResult Model :=
  ok_or (jget name schema) (SInvalid (lit "unknown model " ++ name)).

Definition writable (trx : Trx) (model : Model) : StorageResult unit :=
  if bool_decide (tx_mode trx = ReadOnly)
  then Err (model_invalid model (lit "a read-only transaction cannot write"))
  else Ok tt.

Definition check_filter (model : Model) (filter : option Where) : StorageResult unit :=
  match find (λ name, negb (bool_decide (name = lit "id")) && negb (model_has model name))
          (match filter with Some filter => filter_fields filter | None => [] end) with
  | Some unknown => Err (model_invalid model (lit "unknown field " ++ unknown))
  | None => Ok tt
  end.

Definition direct_id (model : Model) (by_ : Unique) : StorageResult (option Id) :=
  match by_ with
  | UId id => Ok (Some id)
  | UKey key =>
      let? family := ok_or (m_key_family model) (SInvalid (m_name model ++ lit " has no natural key")) in
      Ok (Some (for_key family key))
  | UFields _ => Ok None
  end.

Definition live (trx : Trx) (model : Model) (id : Id) : StorageResult (option Row) :=
  let? capsule := t_get (tx_inner trx) model id in
  match capsule with
  | Some capsule => if ce_tombstone capsule then Ok None else Ok (Some (decode model capsule))
  | None => Ok None
  end.

(** [index.sort()]: the names in order. *)
Definition sorted_names (index : list str) : list str := merge_sort str_le index.

Definition find_unique (trx : Trx) (model : str) (by_ : Unique) : StorageResult (option Row) :=
  let? model := model_of model in
  let? direct := direct_id model by_ in
  match direct with
  | Some id => live trx model id
  | None =>
      match by_ with
      | UFields fields =>
          let names := fields.*1 in
          if negb (existsb (λ index, bool_decide (sorted_names index = names)) (m_unique model))
          then Err (model_invalid model (lit "(" ++ join (lit ", ") names ++ lit ") is not a unique index"))
          else
            let filter := where_all ((λ '(name, value), where_eq name value) <$> fields) in
            let? found := t_find (tx_inner trx) model
              {| fm_filter := filter; fm_order_by := []; fm_skip := 0; fm_take := Some 1 |} in
            Ok (decode model <$> head found)
      | _ => Ok None
      end
  end.

Definition find_many (trx : Trx) (model : str) (query : FindMany) : StorageResult (list Row) :=
  let? model := model_of model in
  let? _ := check_filter model (fm_filter query) in
  match find (λ order, negb (model_has model (or_field order))) (fm_order_by query) with
  | Some order => Err (model_invalid model (lit "cannot order by unknown field " ++ or_field order))
  | None =>
      let? found := t_find (tx_inner trx) model query in
      Ok (decode model <$> found)
  end.

Definition find_first (trx : Trx) (model : str) (query : FindMany) : StorageResult (option Row) :=
  let query := {| fm_filter := fm_filter query; fm_order_by := fm_order_by query;
                  fm_skip := fm_skip query; fm_take := Some 1 |} in
  result_map head (find_many trx model query).

Definition count_records (trx : Trx) (model : str) (filter : option Where) : StorageResult u64 :=
  let? model := model_of model in
  let? _ := check_filter model filter in
  t_count (tx_inner trx) model filter.

Definition exists_ (trx : Trx) (model : str) (filter : Where) : StorageResult bool :=
  let? found := find_first trx model
    {| fm_filter := Some filter; fm_order_by := []; fm_skip := 0; fm_take := None |} in
  Ok (is_some found).

(** ** Writes

    A write answers its result and the transaction after it. *)

Definition seal_and_put (trx : Trx) (model : Model) (sealed : option (StorageResult CapsuleEnvelope)) (expected : option u64)
    : option (StorageResult (CapsuleEnvelope * Trx)) :=
  sealed ← sealed;
  match sealed with
  | Err e => Some (Err e)
  | Ok capsule =>
      put ← t_put (tx_inner trx) model capsule expected;
      Some (let? inner := put in Ok (capsule, with_inner trx inner))
  end.

Definition create (now_micros : i64) (generated : Id) (trx : Trx) (model : str) (data : Data)
    : option (StorageResult (Row * Trx)) :=
  match (let? model := model_of model in
         let? _ := writable trx model in
         let? _ := validate model data true in
         let? id := match m_key_family model with
                    | Some family =>
                        let? key := ok_or (jget (lit "key") data ≫= value_as_text)
                          (model_invalid model (lit "a keyed record needs `key`")) in
                        Ok (for_key family key)
                    | None => Ok generated
                    end in
         let? previous := t_get (tx_inner trx) model id in
         if is_some_and (λ previous, negb (ce_tombstone previous)) previous
         then Err (SConflict (m_name model ++ lit ": record exists"))
         else Ok (model, id, previous)) with
  | Err e => Some (Err e)
  | Ok (model, id, previous) =>
      written ← seal_and_put trx model (encode model id previous now_micros data) (ce_revision <$> previous);
      Some (let? (capsule, trx) := written in Ok (decode model capsule, trx))
  end.

(** The loop of [rewrite] that merges the given members into the record's. *)
Definition merge_data (current data : Data) : Data :=
  foldl (λ merged '(name, value), if is_null value then jremove name merged else jinsert name value merged) current data.

Definition rewrite (now_micros : i64) (trx : Trx) (model : str) (current : Row) (data : Data)
    : option (StorageResult (Row * Trx)) :=
  match (let? model := model_of model in
         let? _ := writable trx model in
         if m_append_only model then Err (SInvalid (m_name model ++ lit " is append-only"))
         else
           let? _ := validate model data false in
           match jget (lit "key") data, jget (lit "key") (row_data current) with
           | Some (VText new), Some (VText old) =>
               if bool_decide (new ≠ old) then Err (model_invalid model (lit "a record's key never changes")) else Ok model
           | _, _ => Ok model
           end) with
  | Err e => Some (Err e)
  | Ok model =>
      let merged := merge_data (row_data current) data in
      match (let? _ := validate model merged true in
             let? previous := t_get (tx_inner trx) model (row_id current) in
             ok_or previous (SNotFound (lit "the record"))) with
      | Err e => Some (Err e)
      | Ok previous =>
          written ← seal_and_put trx model (encode model (row_id current) (Some previous) now_micros merged) (Some (ce_revision previous));
          Some (let? (capsule, trx) := written in Ok (decode model capsule, trx))
      end
  end.

Definition update (now_micros : i64) (trx : Trx) (model : str) (by_ : Unique) (data : Data)
    : option (StorageResult (option Row * Trx)) :=
  match find_unique trx model by_ with
  | Err e => Some (Err e)
  | Ok None => Some (Ok (None, trx))
  | Ok (Some current) =>
      written ← rewrite now_micros trx model current data;
      Some (let? (row, trx) := written in Ok (Some row, trx))
  end.

(** [entry(name).or_insert(value)]. *)
Definition or_insert (name : str) (value : Value) (data : Data) : Data :=
  if contains_key data name then data else jinsert name value data.

Definition upsert (now_micros : i64) (generated : Id) (trx : Trx) (model : str) (by_ : Unique) (create_ update_ : Data)
    : option (StorageResult (Row * Trx)) :=
  match find_unique trx model by_ with
  | Err e => Some (Err e)
  | Ok (Some current) => rewrite now_micros trx model current update_
  | Ok None =>
      match by_ with
      | UFields fields =>
          create now_micros generated trx model (foldl (λ data '(name, value), or_insert name value data) create_ fields)
      | UKey key => create now_micros generated trx model (or_insert (lit "key") (VText key) create_)
      | UId _ => Some (Err (SInvalid (lit "upsert by id cannot create: ids are assigned by the model")))
      end
  end.

Definition delete (now_micros : i64) (trx : Trx) (model : str) (by_ : Unique)
    : option (StorageResult (option Row * Trx)) :=
  match find_unique trx model by_ with
  | Err e => Some (Err e)
  | Ok None => Some (Ok (None, trx))
  | Ok (Some current) =>
      match (let? model := model_of model in
             let? _ := writable trx model in
             if m_append_only model then Err (SInvalid (m_name model ++ lit " is append-only"))
             else
               let? previous := t_get (tx_inner trx) model (row_id current) in
               let? previous := ok_or previous (SNotFound (lit "the record")) in
               Ok (model, previous)) with
      | Err e => Some (Err e)
      | Ok (model, previous) =>
          written ← seal_and_put trx model (tombstone model previous now_micros) (Some (ce_revision previous));
          Some (let? (_, trx) := written in Ok (Some current, trx))
      end
  end.

(** The walk behind the [*_many] writes; [pages] bounds the turns of the loop. *)
Fixpoint all_rows (pages : nat) (trx : Trx) (model : str) (filter : option Where) (rows : list Row) : option (StorageResult (list Row)) :=
  match pages with
  | O => None
  | S pages =>
      match find_many trx model {| fm_filter := filter; fm_order_by := []; fm_skip := Z.of_nat (length rows); fm_take := Some PAGE |} with
      | Err e => Some (Err e)
      | Ok page =>
          if Z.of_nat (length page) <? PAGE then Some (Ok (rows ++ page))
          else all_rows pages trx model filter (rows ++ page)
      end
  end.

Fixpoint rewrite_each (now_micros : i64) (trx : Trx) (model : str) (rows : list Row) (data : Data) : option (StorageResult Trx) :=
  match rows with
  | [] => Some (Ok trx)
  | row :: rows =>
      written ← rewrite now_micros trx model row data;
      match written with Err e => Some (Err e) | Ok (_, trx) => rewrite_each now_micros trx model rows data end
  end.
Definition update_many (pages : nat) (now_micros : i64) (trx : Trx) (model : str) (filter : option Where) (data : Data)
    : option (StorageResult (u64 * Trx)) :=
  rows ← all_rows pages trx model filter [];
  match rows with
  | Err e => Some (Err e)
  | Ok rows =>
      written ← rewrite_each now_micros trx model rows data;
      Some (let? trx := written in Ok (Z.of_nat (length rows), trx))
  end.

Fixpoint delete_each (now_micros : i64) (trx : Trx) (model : str) (rows : list Row) : option (StorageResult Trx) :=
  match rows with
  | [] => Some (Ok trx)
  | row :: rows =>
      written ← delete now_micros trx model (UId (row_id row));
      match written with Err e => Some (Err e) | Ok (_, trx) => delete_each now_micros trx model rows end
  end.
Definition delete_many (pages : nat) (now_micros : i64) (trx : Trx) (model : str) (filter : option Where)
    : option (StorageResult (u64 * Trx)) :=
  rows ← all_rows pages trx model filter [];
  match rows with
  | Err e => Some (Err e)
  | Ok rows =>
      written ← delete_each now_micros trx model rows;
      Some (let? trx := written in Ok (Z.of_nat (length rows), trx))
  end.

(** [Trx::put_capsule]. *)
Definition put_capsule (trx : Trx) (capsule : CapsuleEnvelope) (expected : option u64) : option (StorageResult Trx) :=
  match (let? model := model_of (ce_kind capsule) in
         let? _ := writable trx model in
         let? _ := if ce_tombstone capsule then Ok tt else validate model (row_data (decode model capsule)) true in
         Ok model) with
  | Err e => Some (Err e)
  | Ok model =>
      put ← t_put (tx_inner trx) model capsule expected;
      Some (let? inner := put in Ok (with_inner trx inner))
  end.

(** The capsules themselves, tombstones included, for repositories that keep revisions. *)
Definition capsule_ (trx : Trx) (model : str) (id : Id) : StorageResult (option CapsuleEnvelope) :=
  let? model := model_of model in t_get (tx_inner trx) model id.
Definition capsules (trx : Trx) (model : str) (query : FindMany) : StorageResult (list CapsuleEnvelope) :=
  let? model := model_of model in
  let? _ := check_filter model (fm_filter query) in
  t_find (tx_inner trx) model query.

(** ** The life of a transaction

    [begin_] takes what the provider's [begin] answers.  Only [commit_], [rollback_] and [drop_]
    look at [finished]; the operations above do not. *)

Definition begin_ (inner : StorageResult T) (mode : Mode) : StorageResult Trx :=
  result_map (λ inner, {| tx_inner := inner; tx_mode := mode; tx_finished := false |}) inner.

Definition finish (trx : Trx) (inner : T) : Trx := {| tx_inner := inner; tx_mode := tx_mode trx; tx_finished := true |}.

Definition commit_ `{TransactionEnd T} (trx : Trx) : StorageResult unit * Trx :=
  if tx_finished trx then (Err (SInvalid (lit "the transaction is already finished")), trx)
  else let '(answer, inner) := t_commit (tx_inner trx) in (answer, finish trx inner).

Definition rollback_ `{TransactionEnd T} (trx : Trx) : StorageResult unit * Trx :=
  if tx_finished trx then (Ok tt, trx)
  else let '(answer, inner) := t_rollback (tx_inner trx) in (answer, finish trx inner).

Definition drop_ `{TransactionEnd T} (trx : Trx) : Trx :=
  if tx_finished trx then trx else with_inner trx (t_rollback (tx_inner trx)).2.

End engine.

(** ** What a provider promises

    [t_view] is what a transaction sees of a record, tombstones included; [t_rows] the live capsules
    that match a filter, in order. *)

Class ProviderSpec (T : Type) `{Sha256, Lowercase, CapsuleTransaction T} := {
  t_ok : T → Prop;
  t_view : T → str → Id → option CapsuleEnvelope;
  t_rows : T → Model → option Where → list Order → list CapsuleEnvelope;
  t_bound : nat;
  view_ok t k id c : t_ok t → t_view t k id = Some c → ce_id c = id ∧ verify c = Some (Ok tt) ∧ in_u64 (ce_revision c);
  spec_get t model id : t_ok t → t_get t model id = Ok (t_view t (m_name model) id);
  spec_rows t model filter order c : t_ok t →
    c ∈ t_rows t model filter order ↔
    t_view t (m_name model) (ce_id c) = Some c ∧ ce_tombstone c = false
    ∧ is_none_or (λ f, matches f (decode model c)) filter = true;
  spec_find t model query : t_ok t →
    t_find t model query =
    Ok (list.take (match fm_take query with Some n => Z.to_nat n | None => t_bound end)
          (drop (Z.to_nat (fm_skip query)) (t_rows t model (fm_filter query) (fm_order_by query))));
  spec_count t model filter : t_ok t → t_count t model filter = Ok (Z.of_nat (length (t_rows t model filter [])));
  spec_put t model c expected t' : t_ok t → in_u64 (ce_revision c) → t_put t model c expected = Some (Ok t') →
    t_ok t' ∧ ce_revision <$> t_view t (m_name model) (ce_id c) = expected ∧ verify c = Some (Ok tt)
    ∧ ∀ k id, t_view t' k id = if decide (k = m_name model ∧ id = ce_id c) then Some c else t_view t k id;
  spec_put_stale t model c expected : t_ok t → verify c = Some (Ok tt) →
    ce_revision <$> t_view t (m_name model) (ce_id c) ≠ expected → ∃ e, t_put t model c expected = Some (Err e);
}.
