(* ===== verification/MemoryLaws.v ===== *)
(** The in-memory provider keeps the promises that the engine relies on, its commit is atomic and
    optimistic, and its unique indexes hold. *)

From S2P Require Import Prelude Text BTree Bytes Floats Json Capsule CapsuleCodec Envelope Sealed Records Queries Memory Engine.

Open Scope Z_scope.

(** ** The provider as the engine sees it *)

Section provider.
Context `{Sha256Laws, Lowercase}.

#[export] Instance memory_transaction : CapsuleTransaction (Capsules * MemoryTransaction) := {
  t_get t model id := Ok (get t.1 t.2 model id);
  t_find t model query := Ok (find_capsules t.1 t.2 model query);
  t_count t model filter := Ok (count t.1 t.2 model filter);
  t_put t model capsule expected := result_map (pair t.1) <$> put t.1 t.2 model capsule expected;
}.

#[export] Instance memory_end (catalog : list (str * Model)) : TransactionEnd (Capsules * MemoryTransaction) := {
  t_commit t := let '(answer, committed, self) := commit catalog t.1 t.2 in (answer, (committed, self));
  t_rollback t := (Ok tt, (t.1, rollback t.2));
}.

(** ** Tables *)

(** A capsule that is stored under an id has that id, and is verified. *)
Definition capsule_ok (c : CapsuleEnvelope) : Prop := verify c = Some (Ok tt) ∧ in_u64 (ce_revision c).
Definition table_ok (t : Table) : Prop := ordered t ∧ ∀ id c, (id, c) ∈ t → ce_id c = id ∧ capsule_ok c.
Definition store_ok (s : Capsules) : Prop := ordered s ∧ ∀ k, table_ok (table k s).
Definition writes_ok (l : list Write) : Prop := Forall (λ w, capsule_ok (wr_capsule w)) l.

Lemma table_ok_nil : table_ok [].
Proof. split; [constructor|]. by intros ? ? ?%elem_of_nil. Qed.
Lemma table_ok_insert c t : capsule_ok c → table_ok t → table_ok (jinsert (ce_id c) c t).
Proof.
  intros Hc [Ho Ht]. split; [by apply jinsert_ordered|]. intros id c' [[-> ->]|Hin]%jinsert_elem; [done|by apply Ht].
Qed.
Lemma view_table_ok s self model : store_ok s → writes_ok (mt_writes self) → table_ok (view s self model).
Proof.
  intros [_ Hs] Hw. unfold view. specialize (Hs (m_name model)). revert Hs. generalize (table (m_name model) s).
  induction Hw as [|w ws Hw _ IH]; intros t Ht; cbn [foldl]; [done|]. apply IH. unfold apply_write.
  case_bool_decide; [by apply table_ok_insert|done].
Qed.

(** A model of the given name; a view depends on nothing else. *)
Definition named (k : str) : Model := {|
  m_name := k; m_storage_class := []; m_owner_scope := ScopeGlobal; m_owner := None; m_key_family := None;
  m_fields := []; m_required := []; m_unique := []; m_range_indexes := []; m_relations := []; m_append_only := false |}.

Lemma rows_elem s self model filter row :
  store_ok s → writes_ok (mt_writes self) →
  row ∈ rows s self model filter ↔
  ∃ c, jget (ce_id c) (view s self model) = Some c ∧ ce_tombstone c = false ∧ row = decode model c
    ∧ is_none_or (λ f, matches f row) filter = true.
Proof.
  intros Hs Hw. destruct (view_table_ok s self model Hs Hw) as [Ho Ht]. unfold rows. rewrite list_elem_of_omap. split.
  - intros ([id c] & Hin & Hr). destruct (Ht _ _ Hin) as [<- _]. apply jget_elem in Hin; [|done]. exists c.
    destruct (ce_tombstone c); [done|]. destruct (is_none_or _ filter) eqn:Hf; [|done]. by injection Hr as <-.
  - intros (c & Hg & Htb & -> & Hf). exists (ce_id c, c). apply jget_elem in Hg; [|done]. split; [done|]. by rewrite Htb, Hf.
Qed.

(** The lookups of [find] succeed: each row is of a capsule of the view. *)
Lemma rows_found s self model filter row :
  store_ok s → writes_ok (mt_writes self) → row ∈ rows s self model filter →
  ∃ c, jget (row_id row) (view s self model) = Some c ∧ ce_tombstone c = false ∧ row = decode model c ∧ ce_id c = row_id row.
Proof. intros Hs Hw (c & Hg & Ht & -> & _)%rows_elem; [|done..]. by exists c. Qed.

Lemma omap_take_drop {A B} (f : A → option B) n k l :
  Forall (λ x, is_Some (f x)) l → omap f (list.take n (drop k l)) = list.take n (drop k (omap f l)) ∧ length (omap f l) = length l.
Proof.
  intros Hf. revert n k. induction Hf as [|x l [y Hy] _ IH]; intros n k; [by destruct n, k|].
  cbn [omap list_omap]. rewrite Hy. destruct k as [|k]; cbn [drop].
  - destruct n as [|n]; cbn [list.take]; [split; [done|]; cbn; by destruct (IH 0%nat 0%nat) as [_ ->]|].
    cbn [omap list_omap length]. rewrite Hy. destruct (IH n 0%nat) as [E1 E2]. rewrite !drop_0 in E1. rewrite E1, E2. done.
  - destruct (IH n k) as [E1 E2]. cbn [length]. by rewrite E1, E2.
Qed.

Definition found (s : Capsules) (self : MemoryTransaction) (model : Model) (filter : option Where) (order_by : list Order) : list CapsuleEnvelope :=
  omap (λ row, jget (row_id row) (view s self model)) (merge_sort (row_le order_by) (rows s self model filter)).

Lemma sorted_found s self model filter order_by :
  store_ok s → writes_ok (mt_writes self) →
  Forall (λ row, is_Some (jget (row_id row) (view s self model))) (merge_sort (row_le order_by) (rows s self model filter)).
Proof.
  intros Hs Hw. rewrite merge_sort_Permutation. apply Forall_forall. intros row Hr.
  destruct (rows_found _ _ _ _ _ Hs Hw Hr) as (c & -> & _). by eexists.
Qed.

Lemma found_elem s self model filter order_by c :
  store_ok s → writes_ok (mt_writes self) →
  c ∈ found s self model filter order_by ↔
  jget (ce_id c) (view s self model) = Some c ∧ ce_tombstone c = false ∧ is_none_or (λ f, matches f (decode model c)) filter = true.
Proof.
  intros Hs Hw. unfold found. rewrite list_elem_of_omap. split.
  - intros (row & Hin & Hg). rewrite merge_sort_Permutation in Hin. apply rows_elem in Hin as (c' & Hc & Ht & -> & Hf); [|done..].
    cbn [decode row_id] in Hg. rewrite Hc in Hg. injection Hg as <-. done.
  - intros (Hg & Ht & Hf). exists (decode model c). rewrite merge_sort_Permutation. split; [|done].
    apply rows_elem; [done..|]. by exists c.
Qed.

Lemma put_inv s self model c expected self' :
  put s self model c expected = Some (Ok self') →
  verify c = Some (Ok tt) ∧ ce_revision <$> jget (ce_id c) (view s self model) = expected
  ∧ self' = {| mt_writes := mt_writes self ++ [{| wr_kind := m_name model; wr_capsule := c; wr_expected := expected |}];
               mt_mode := mt_mode self |}.
Proof.
  unfold put. case_bool_decide; [done|]. destruct (verify c) as [[[]|]|]; [|done..]. cbn [mbind option_bind map_err].
  case_bool_decide as Hne; [done|]. destruct (_ && _); [done|]. intros [= <-]. by split.
Qed.

#[export] Instance memory_spec : ProviderSpec (Capsules * MemoryTransaction).
Proof.
  refine {|
    t_ok := λ t, store_ok t.1 ∧ writes_ok (mt_writes t.2);
    t_view := λ t k id, jget id (foldl (apply_write k) (table k t.1) (mt_writes t.2));
    t_rows := λ t model filter order_by, found t.1 t.2 model filter order_by;
    t_bound := Z.to_nat DEFAULT_TAKE |}.
  - intros [s self] k id c [Hs Hw] Hg.
    destruct (view_table_ok s self (named k) Hs Hw) as [Ho Ht]. change (jget id (view s self (named k)) = Some c) in Hg.
    apply jget_elem in Hg; [|done]. destruct (Ht _ _ Hg) as [? [??]]. done.
  - done.
  - intros [s self] model filter order_by c [Hs Hw]. by apply found_elem.
  - intros [s self] model [filter order_by skip take_] [Hs Hw].
    cbn [t_find memory_transaction fst snd fm_filter fm_order_by fm_skip fm_take].
    unfold find_capsules. cbn [fm_filter fm_order_by fm_skip fm_take].
    destruct (omap_take_drop (λ row, jget (row_id row) (view s self model)) (Z.to_nat (default DEFAULT_TAKE take_)) (Z.to_nat skip)
      (merge_sort (row_le order_by) (rows s self model filter))) as [-> _]; [by apply sorted_found|]. by destruct take_.
  - intros [s self] model filter [Hs Hw]. cbn [t_count memory_transaction fst snd]. unfold count, found.
    destruct (omap_take_drop (λ row, jget (row_id row) (view s self model)) 0 0 (merge_sort (row_le []) (rows s self model filter)))
      as [_ ->]; [by apply sorted_found|]. by rewrite (Permutation_length (merge_sort_Permutation _ _)).
  - intros [s self] model c expected [s' self'] [Hs Hw] Hu Hp. cbn [t_put memory_transaction fst snd] in Hp.
    destruct (put s self model c expected) as [[self1|]|] eqn:Ep; [|done..]. cbn in Hp. injection Hp as <- <-.
    apply put_inv in Ep as (Hv & He & ->). cbn [fst snd mt_writes].
    split; [split; [done|]; by apply Forall_app; split; [|apply Forall_singleton]|]. split; [done|]. split; [done|].
    intros k id. rewrite foldl_app. cbn [foldl]. unfold apply_write at 1. cbn [wr_kind wr_capsule].
    case_bool_decide as Hk; [subst k|].
    + rewrite jget_jinsert. case_bool_decide as Hid; [by rewrite decide_True|by rewrite decide_False by naive_solver].
    + by rewrite decide_False by naive_solver.
  - intros [s self] model c expected [Hs Hw] Hv Hne. cbn [t_put memory_transaction fst snd]. unfold put.
    case_bool_decide; [by eexists|]. rewrite Hv. cbn [mbind option_bind map_err].
    rewrite bool_decide_eq_true_2 by done. by eexists.
Defined.

(** ** Committing *)

Definition rev_of (s : Capsules) (k : str) (id : Id) : option u64 := ce_revision <$> lookup2 k id s.

Lemma lookup2_insert2 k id k' c s :
  lookup2 k id (insert2 k' c s) = if decide (k = k' ∧ id = ce_id c) then Some c else lookup2 k id s.
Proof.
  unfold lookup2, insert2. set (t := jinsert (ce_id c) c (table k' s)). unfold table. rewrite jget_jinsert.
  case_bool_decide as Hk; [subst k'|].
  - cbn [default]. subst t. unfold Datatypes.id. rewrite jget_jinsert. case_bool_decide as Hid; [by rewrite decide_True|by rewrite decide_False by naive_solver].
  - by rewrite decide_False by naive_solver.
Qed.

Lemma store_ok_insert k c s : capsule_ok c → store_ok s → store_ok (insert2 k c s).
Proof.
  intros Hc [Ho Ht]. split; [by apply jinsert_ordered|]. intros k'. unfold insert2.
  set (t := jinsert (ce_id c) c (table k s)). unfold table. rewrite jget_jinsert.
  case_bool_decide; [subst; by apply table_ok_insert|apply Ht].
Qed.
Lemma store_ok_apply s ws : writes_ok ws → store_ok s → store_ok (apply_writes s ws).
Proof.
  intros Hw. revert s. induction Hw as [|w ws Hw _ IH]; intros s Hs; cbn [apply_writes foldl]; [done|].
  apply IH. by apply store_ok_insert.
Qed.

(** Applying the writes one by one, each to a record at the revision it expects. *)
Fixpoint in_turn (s : Capsules) (ws : list Write) : Prop :=
  match ws with
  | [] => True
  | w :: ws => rev_of s (wr_kind w) (ce_id (wr_capsule w)) = wr_expected w ∧ in_turn (insert2 (wr_kind w) (wr_capsule w) s) ws
  end.

(** The first loop of [commit] accepts exactly the writes that can be applied in turn. *)
Lemma check_writes_in_turn s ws : check_writes s ∅ ws = Ok tt ↔ in_turn s ws.
Proof.
  enough (∀ next revisions, (∀ key, match revisions !! key with Some r => Some r | None => rev_of s key.1 key.2 end = rev_of next key.1 key.2) →
            check_writes s revisions ws = Ok tt ↔ in_turn next ws) as Hgen by (apply Hgen; intros; by rewrite lookup_empty).
  induction ws as [|w ws IH]; intros next revisions Hr; cbn [check_writes in_turn]; [done|].
  specialize (Hr (wr_kind w, ce_id (wr_capsule w))) as Hw. cbn [fst snd] in *. unfold rev_of at 1 in Hw. rewrite Hw.
  case_bool_decide as Hne; [split; [done|naive_solver]|]. rewrite (IH (insert2 (wr_kind w) (wr_capsule w) next)); [naive_solver|].
  intros [k id]. cbn [fst snd]. unfold rev_of at 2. rewrite lookup2_insert2. case_decide as Hd.
  - destruct Hd as [-> ->]. by rewrite lookup_insert_eq.
  - rewrite lookup_insert_ne by (intros [= <- <-]; by apply Hd). apply (Hr (k, id)).
Qed.

(** A write that continues what it replaces. *)
Definition continues (w : Write) : Prop :=
  capsule_ok (wr_capsule w)
  ∧ ce_revision (wr_capsule w) = match wr_expected w with Some r => r + 1 | None => 1 end.

Definition rank (s : Capsules) (k : str) (id : Id) : Z := default 0 (rev_of s k id).

Lemma in_turn_rank s ws k id :
  Forall continues ws → in_turn s ws →
  rank s k id ≤ rank (apply_writes s ws) k id
  ∧ (rank s k id = rank (apply_writes s ws) k id → lookup2 k id (apply_writes s ws) = lookup2 k id s).
Proof.
  intros Hc. revert s. induction Hc as [|w ws [Hok Hw] _ IH]; intros s; cbn [in_turn apply_writes foldl]; [done|].
  intros [He Hin]. destruct (IH _ Hin) as [I1 I2]. fold (apply_writes (insert2 (wr_kind w) (wr_capsule w) s) ws) in *.
  assert (rank (insert2 (wr_kind w) (wr_capsule w) s) k id
    = if decide (k = wr_kind w ∧ id = ce_id (wr_capsule w)) then rank s k id + 1 else rank s k id) as Hr.
  { unfold rank, rev_of. rewrite lookup2_insert2. case_decide as Hd; [|done]. destruct Hd as [-> ->].
    unfold rev_of in He. cbn [fmap option_fmap option_map default]. rewrite Hw, He. by destruct (wr_expected w). }
  rewrite Hr in I1, I2. case_decide as Hd; [split; [lia|intros; lia]|].
  split; [done|]. intros E. rewrite I2 by done. rewrite lookup2_insert2. by rewrite decide_False.
Qed.

(** What the store holds after the writes is what the transaction saw with them. *)
Lemma lookup2_apply_writes s ws k id : lookup2 k id (apply_writes s ws) = jget id (foldl (apply_write k) (table k s) ws).
Proof.
  revert s. induction ws as [|w ws IH]; intros s; cbn [apply_writes foldl]; [done|].
  fold (apply_writes (insert2 (wr_kind w) (wr_capsule w) s) ws). rewrite IH. f_equal. f_equal.
  unfold insert2, apply_write. set (t := jinsert _ _ (table (wr_kind w) s)). unfold table at 1. rewrite jget_jinsert.
  case_bool_decide as Hk.
  - subst k. by rewrite bool_decide_eq_true_2.
  - by rewrite bool_decide_eq_false_2.
Qed.

(** ** Unique indexes *)

Lemma no_repeat_NoDup {A} `{EqDecision A} (l : list A) : no_repeat l = true ↔ NoDup l.
Proof.
  induction l as [|x l IH]; cbn [no_repeat]; [split; [constructor|done]|].
  rewrite andb_true_iff, negb_true_iff, bool_decide_eq_false, IH, NoDup_cons. done.
Qed.
Lemma NoDup_bind_inj {A B} (f : A → list B) l a b x :
  NoDup (l ≫= f) → a ∈ l → b ∈ l → x ∈ f a → x ∈ f b → a = b.
Proof.
  induction l as [|c l IH]; cbn; [by intros _ ?%elem_of_nil|].
  intros (_ & Hdis & Hnd)%NoDup_app Ha Hb Hxa Hxb.
  assert (∀ d, d ∈ l → x ∈ f d → x ∈ l ≫= f) as Hin by (intros d ??; apply list_elem_of_bind; eauto).
  apply elem_of_cons in Ha as [->|Ha], Hb as [->|Hb]; [done|exfalso; by eapply Hdis; eauto..|by apply IH].
Qed.

(** No two live records of a catalogued model hold the same values of a unique index. *)
Definition unique_ok (catalog : list (str * Model)) (s : Capsules) : Prop :=
  ∀ k model id1 id2 c1 c2 claim, jget k catalog = Some model →
    lookup2 k id1 s = Some c1 → lookup2 k id2 s = Some c2 → ce_tombstone c1 = false → ce_tombstone c2 = false →
    claim ∈ unique_claims model (decode model c1) → claim ∈ unique_claims model (decode model c2) → id1 = id2.

Lemma NoDup_unique_ok catalog s : store_ok s → NoDup (store_claims catalog s) → unique_ok catalog s.
Proof.
  intros [Ho Ht] Hnd k model id1 id2 c1 c2 [index values] Hk L1 L2 T1 T2 C1 C2.
  destruct (jget k s) as [t|] eqn:Eg; [|unfold lookup2, table in L1; by rewrite Eg in L1].
  assert (ordered t ∧ jget id1 t = Some c1 ∧ jget id2 t = Some c2) as (Hot & G1 & G2).
  { specialize (Ht k). unfold lookup2, table in *. rewrite Eg in *. split; [apply Ht|done]. }
  apply jget_elem in Eg; [|done]. apply jget_elem in G1, G2; [|done..].
  assert (NoDup (t ≫= λ '(_, capsule), capsule_claims catalog k capsule)) as Hnt.
  { clear -Hnd Eg. unfold store_claims in Hnd. induction s as [|[k0 t0] s IH]; [by apply elem_of_nil in Eg|].
    cbn in Hnd. apply NoDup_app in Hnd as (H1 & _ & H2). apply elem_of_cons in Eg as [[= -> ->]|Eg]; [done|by apply IH]. }
  assert ((id1, c1) = (id2, c2)) as [= ->]; [|done].
  eapply (NoDup_bind_inj _ t (id1, c1) (id2, c2) (k, index, values)); [done..| |]; unfold capsule_claims;
    rewrite ?T1, ?T2, Hk; apply list_elem_of_fmap; by exists (index, values).
Qed.

(** ** The store under concurrent transactions *)

Inductive store_step (catalog : list (str * Model)) : relation (Capsules * gmap nat MemoryTransaction) :=
| step_begin s ts i mode :
    ts !! i = None → store_step catalog (s, ts) (s, <[i := begin mode]> ts)
| step_put s ts i t t' model c expected :
    ts !! i = Some t → put s t model c expected = Some (Ok t') →
    in_u64 (ce_revision c) → ce_revision c = match expected with Some r => r + 1 | None => 1 end →
    store_step catalog (s, ts) (s, <[i := t']> ts)
| step_commit s ts i t r s' t' :
    ts !! i = Some t → commit catalog s t = (r, s', t') → store_step catalog (s, ts) (s', <[i := t']> ts)
| step_rollback s ts i t :
    ts !! i = Some t → store_step catalog (s, ts) (s, <[i := rollback t]> ts).

(** What holds in every state: the store is well formed and its unique indexes hold, and every open
    transaction's writes continue what they replace. *)
Definition store_inv (catalog : list (str * Model)) (x : Capsules * gmap nat MemoryTransaction) : Prop :=
  store_ok x.1 ∧ unique_ok catalog x.1 ∧ ∀ i t, x.2 !! i = Some t → Forall continues (mt_writes t).

Lemma continues_ok ws : Forall continues ws → writes_ok ws.
Proof. intros. eapply Forall_impl; [done|]. by intros w [? _]. Qed.

Lemma commit_inv catalog s t r s' t' :
  commit catalog s t = (r, s', t') →
  mt_writes t' = [] ∧
  ((r = Ok tt ∧ in_turn s (mt_writes t) ∧ s' = apply_writes s (mt_writes t) ∧ NoDup (store_claims catalog s'))
   ∨ (∃ m, r = Err (SConflict m) ∧ s' = s
      ∧ (¬ in_turn s (mt_writes t) ∨ ¬ NoDup (store_claims catalog (apply_writes s (mt_writes t)))))).
Proof.
  unfold commit. destruct (check_writes s ∅ (mt_writes t)) as [[]|e] eqn:Hc.
  - apply check_writes_in_turn in Hc. destruct (no_repeat _) eqn:Hn; intros [= <- <- <-]; (split; [done|]).
    + left. by apply no_repeat_NoDup in Hn.
    + right. eexists. split; [done|]. split; [done|]. right. rewrite <-no_repeat_NoDup. by rewrite Hn.
  - intros [= <- <- <-]. split; [done|]. right. assert (∃ m, e = SConflict m) as [m ->].
    { revert Hc. generalize (∅ : gmap (str * Id) u64). induction (mt_writes t) as [|w ws IH]; intros R; cbn [check_writes]; [done|].
      case_bool_decide; [intros [= <-]; by eexists|apply IH]. }
    exists m. split; [done|]. split; [done|]. left. rewrite <-check_writes_in_turn, Hc. done.
Qed.

Lemma store_step_inv catalog x y : store_inv catalog x → store_step catalog x y → store_inv catalog y.
Proof.
  intros (Hs & Hu & Ht) Hstep. destruct Hstep as [s ts i mode Hi|s ts i t t' model c expected Hi Hp Hr He|s ts i t r s' t' Hi Hc|s ts i t Hi];
    cbn [fst snd] in *; unfold store_inv; cbn [fst snd].
  - split; [done|]. split; [done|]. intros j t. destruct (decide (i = j)) as [->|Hne].
    + rewrite lookup_insert_eq. intros [= <-]. constructor.
    + rewrite lookup_insert_ne by done. apply Ht.
  - split; [done|]. split; [done|]. intros j u. destruct (decide (i = j)) as [->|Hne].
    + rewrite lookup_insert_eq. intros [= <-]. apply put_inv in Hp as (Hv & _ & ->). cbn [mt_writes].
      apply Forall_app. split; [by apply (Ht j)|]. by apply Forall_singleton.
    + rewrite lookup_insert_ne by done. apply Ht.
  - apply commit_inv in Hc as [Hw Hc].
    assert (∀ j u, <[i:=t']> ts !! j = Some u → Forall continues (mt_writes u)) as Hts.
    { intros j u. destruct (decide (i = j)) as [->|Hne].
      - rewrite lookup_insert_eq. intros [= <-]. rewrite Hw. constructor.
      - rewrite lookup_insert_ne by done. apply Ht. }
    destruct Hc as [(_ & Hin & -> & Hnd)|(m & _ & -> & _)]; [|done].
    assert (store_ok (apply_writes s (mt_writes t))) as Hs' by (apply store_ok_apply; [by apply continues_ok, (Ht i)|done]).
    split; [done|]. split; [by apply NoDup_unique_ok|done].
  - split; [done|]. split; [done|]. intros j u. destruct (decide (i = j)) as [->|Hne].
    + rewrite lookup_insert_eq. intros [= <-]. constructor.
    + rewrite lookup_insert_ne by done. apply Ht.
Qed.

Lemma store_step_rank catalog x y k id :
  store_inv catalog x → store_step catalog x y →
  rank x.1 k id ≤ rank y.1 k id ∧ (rank x.1 k id = rank y.1 k id → lookup2 k id y.1 = lookup2 k id x.1).
Proof.
  intros (Hs & _ & Ht) Hstep. destruct Hstep as [| |s ts i t r s' t' Hi Hc|]; cbn [fst snd] in *; [done|done| |done].
  apply commit_inv in Hc as [_ [(_ & Hin & -> & _)|(m & _ & -> & _)]]; [|done].
  apply in_turn_rank; [by apply (Ht i)|done].
Qed.

Lemma store_rtc_rank catalog x y k id :
  store_inv catalog x → rtc (store_step catalog) x y →
  store_inv catalog y ∧ rank x.1 k id ≤ rank y.1 k id ∧ (rank x.1 k id = rank y.1 k id → lookup2 k id y.1 = lookup2 k id x.1).
Proof.
  intros Hx Hr. induction Hr as [x|x z y Hxz _ IH]; [done|].
  destruct (store_step_rank _ _ _ k id Hx Hxz) as [R1 L1]. destruct (IH (store_step_inv _ _ _ Hx Hxz)) as (Hy & R2 & L2).
  split; [done|]. split; [lia|]. intros E. rewrite L2, L1 by lia. done.
Qed.

Lemma empty_inv catalog : store_inv catalog ([], ∅).
Proof.
  split; [split; [constructor|intros k; apply table_ok_nil]|]. split; [|intros i t; cbn [snd]; by rewrite lookup_empty].
  intros k model id1 id2 c1 c2 claim _ L1. unfold lookup2, table in L1. done.
Qed.

Lemma in_turn_first s pre w post :
  in_turn s (pre ++ w :: post) →
  (∀ v, v ∈ pre → wr_kind v ≠ wr_kind w ∨ ce_id (wr_capsule v) ≠ ce_id (wr_capsule w)) →
  rev_of s (wr_kind w) (ce_id (wr_capsule w)) = wr_expected w.
Proof.
  revert s. induction pre as [|v pre IH]; intros s; cbn [app in_turn]; [by intros [? _]|].
  intros [_ Hin] Hpre. rewrite <-(IH _ Hin) by (intros; apply Hpre; by right).
  unfold rev_of. rewrite lookup2_insert2, decide_False; [done|].
  destruct (Hpre v ltac:(left)); naive_solver.
Qed.

(** ** The properties of the store *)

(** C23. Commit is all or nothing, and optimistic.  A commit succeeds exactly when every buffered
    write finds its record at the revision it expects, the writes before it included, and no live
    record of the resulting state holds another's unique values; then every write is applied, in
    order, and whoever reads next sees of every record what the transaction saw.  Otherwise it answers a conflict and the store is as it was.  Either way the transaction
    is left without writes. *)
Theorem commit_is_atomic catalog s t r s' t' :
  commit catalog s t = (r, s', t') →
  mt_writes t' = [] ∧
  (r = Ok tt ↔ in_turn s (mt_writes t) ∧ NoDup (store_claims catalog (apply_writes s (mt_writes t)))) ∧
  (r = Ok tt → s' = apply_writes s (mt_writes t) ∧ ∀ mode model id, get s' (begin mode) model id = get s t model id) ∧
  (r ≠ Ok tt → s' = s ∧ ∃ m, r = Err (SConflict m)).
Proof.
  intros [Hw [(-> & Hin & -> & Hnd)|(m & -> & -> & Hno)]]%commit_inv; (split; [done|]).
  - split; [done|]. split; [|done]. intros _. split; [done|]. intros mode model id. apply lookup2_apply_writes.
  - split; [split; [done|intros [??]; naive_solver]|]. split; [done|]. intros _. split; [done|]. by exists m.
Qed.

(** C25. The store is consistent however transactions interleave.  In every state that concurrent
    transactions reach from the empty store by beginning, writing capsules of the next revision of
    what they expect (as the engine does), committing and rolling back, every stored capsule verifies and is kept under its own id, and no two live records of a
    catalogued model hold the same values of a unique index. *)
Theorem concurrent_store_is_consistent catalog s ts :
  rtc (store_step catalog) ([], ∅) (s, ts) →
  (∀ k id c, lookup2 k id s = Some c → ce_id c = id ∧ verify c = Some (Ok tt)) ∧ unique_ok catalog s.
Proof.
  intros Hr. destruct (store_rtc_rank _ _ _ [] [] (empty_inv catalog) Hr) as ((Hs & Hu & _) & _).
  split; [|done]. intros k id c Hl. destruct Hs as [_ Ht]. destruct (Ht k) as [Ho Hk].
  apply jget_elem in Hl; [|done]. destruct (Hk _ _ Hl) as [? [? _]]. done.
Qed.

(** C18. A commit decided on what it read.  A transaction reads a record in one state, or finds it
    absent; others begin, write, commit and roll back in between.  If its write of that record
    expects the revision it read and its commit succeeds, the record is at the commit exactly what
    was read: nobody changed it in between, so no update is lost and the decision stands. *)
Theorem commit_saw_what_it_read catalog s1 ts1 s2 ts2 i t pre w post s3 t' :
  rtc (store_step catalog) ([], ∅) (s1, ts1) → rtc (store_step catalog) (s1, ts1) (s2, ts2) →
  ts2 !! i = Some t → mt_writes t = pre ++ w :: post →
  (∀ v, v ∈ pre → wr_kind v ≠ wr_kind w ∨ ce_id (wr_capsule v) ≠ ce_id (wr_capsule w)) →
  wr_expected w = ce_revision <$> lookup2 (wr_kind w) (ce_id (wr_capsule w)) s1 →
  commit catalog s2 t = (Ok tt, s3, t') →
  lookup2 (wr_kind w) (ce_id (wr_capsule w)) s2 = lookup2 (wr_kind w) (ce_id (wr_capsule w)) s1
  ∧ s3 = apply_writes s2 (mt_writes t).
Proof.
  intros Hr1 Hr2 Hi Hw Hpre He Hc. set (k := wr_kind w) in *. set (id := ce_id (wr_capsule w)) in *.
  destruct (store_rtc_rank _ _ _ k id (empty_inv catalog) Hr1) as (Hinv & _).
  destruct (store_rtc_rank _ _ _ k id Hinv Hr2) as (_ & _ & Hsame). cbn [fst] in Hsame.
  apply commit_inv in Hc as [_ [(_ & Hin & -> & _)|(m & ? & _)]]; [|done]. split; [|done].
  rewrite Hw in Hin. apply in_turn_first in Hin; [|done]. change (rev_of s2 k id = wr_expected w) in Hin. rewrite He in Hin.
  destruct (lookup2 k id s1) as [c|] eqn:El.
  - apply Hsame. unfold rank. rewrite Hin. unfold rev_of. by rewrite El.
  - unfold rev_of in Hin. by destruct (lookup2 k id s2).
Qed.

End provider.

(** ** Notes

    A model with a required, unique text and a counter, and the store and transactions around it.
    The hash and the case mapping of the instances are constant and the identity. *)

Module Notes.
Export Fixture.

#[export] Instance plain_lowercase : Lowercase := λ s, s.

Definition note : Model := {|
  m_name := lit "core.note"; m_storage_class := lit "core"; m_owner_scope := ScopeGlobal; m_owner := None;
  m_key_family := None; m_fields := [(lit "body", FText); (lit "count", FInteger)]; m_required := [lit "body"];
  m_unique := [[lit "body"]]; m_range_indexes := []; m_relations := []; m_append_only := false |}.
Definition catalog : list (str * Model) := [(lit "core.note", note)].

Definition first_id : Id := repeat 1%N 16.
Definition second_id : Id := repeat 2%N 16.
Definition note_data (body : str) (count : Z) : Data := [(lit "body", VText body); (lit "count", VInt count)].

(** What [encode] seals, and a write of it. *)
Definition sealed_note (id : Id) (previous : option CapsuleEnvelope) (body : str) (count : Z) : CapsuleEnvelope :=
  match encode note id previous 5 (note_data body count) with Some (Ok c) => c | _ => sealed end.
Definition note_write (previous : option CapsuleEnvelope) (c : CapsuleEnvelope) : Write :=
  {| wr_kind := lit "core.note"; wr_capsule := c; wr_expected := ce_revision <$> previous |}.

Definition first_note : CapsuleEnvelope := sealed_note first_id None (lit "a") 1.
Definition second_note : CapsuleEnvelope := sealed_note second_id None (lit "b") 1.
Definition changed_note : CapsuleEnvelope := sealed_note first_id (Some first_note) (lit "a") 2.

Definition writing (ws : list Write) : MemoryTransaction := {| mt_writes := ws; mt_mode := ReadWrite |}.
Definition one_note : Capsules := apply_writes [] [note_write None first_note].
Definition two_notes : Capsules := apply_writes one_note [note_write None second_note].

Lemma put_first : put [] (begin ReadWrite) note first_note None = Some (Ok (writing [note_write None first_note])).
Proof. vm_compute. reflexivity. Qed.
Lemma put_second : put one_note (begin ReadWrite) note second_note None = Some (Ok (writing [note_write None second_note])).
Proof. vm_compute. reflexivity. Qed.
Lemma put_changed :
  put one_note (begin ReadWrite) note changed_note (Some 1) = Some (Ok (writing [note_write (Some first_note) changed_note])).
Proof. vm_compute. reflexivity. Qed.
Lemma commit_first : commit catalog [] (writing [note_write None first_note]) = (Ok tt, one_note, begin ReadWrite).
Proof. vm_compute. reflexivity. Qed.
Lemma commit_second : commit catalog one_note (writing [note_write None second_note]) = (Ok tt, two_notes, begin ReadWrite).
Proof. vm_compute. reflexivity. Qed.

(** One transaction stores a note; another reads it and prepares a change, and a third stores a
    second note in between. *)
Definition at_read : gmap nat MemoryTransaction := {[0%nat := begin ReadWrite]}.
Definition changing : MemoryTransaction := writing [note_write (Some first_note) changed_note].
Definition at_commit : gmap nat MemoryTransaction :=
  <[2%nat := begin ReadWrite]> (<[2%nat := writing [note_write None second_note]]>
    (<[2%nat := begin ReadWrite]> (<[1%nat := changing]> (<[1%nat := begin ReadWrite]> at_read)))).
Definition changed_notes : Capsules := apply_writes two_notes [note_write (Some first_note) changed_note].

Lemma first_revision : ce_revision first_note = 1.
Proof. vm_compute. reflexivity. Qed.
Lemma second_revision : ce_revision second_note = 1.
Proof. vm_compute. reflexivity. Qed.
Lemma changed_revision : ce_revision changed_note = 2.
Proof. vm_compute. reflexivity. Qed.

Lemma reads : rtc (store_step catalog) ([], ∅) (one_note, at_read).
Proof.
  eapply rtc_l; [by apply (step_begin _ _ _ 0 ReadWrite)|].
  eapply rtc_l; [eapply (step_put _ _ _ 0 _ _ note first_note None); [apply lookup_insert_eq|apply put_first|by rewrite first_revision..]|].
  eapply rtc_l; [by eapply (step_commit _ _ _ 0); [apply lookup_insert_eq|apply commit_first]|].
  unfold at_read. rewrite !insert_insert_eq. constructor.
Qed.
Lemma rtc_trans {A} {R : relation A} {x y z} : rtc R x y → rtc R y z → rtc R x z.
Proof. apply transitivity. Qed.
Lemma commits : rtc (store_step catalog) (one_note, at_read) (two_notes, at_commit).
Proof.
  eapply rtc_l; [by apply (step_begin _ _ _ 1 ReadWrite)|].
  eapply rtc_l; [eapply (step_put _ _ _ 1 _ _ note changed_note (Some 1)); [apply lookup_insert_eq|apply put_changed|by rewrite changed_revision..]|].
  eapply rtc_l; [by apply (step_begin _ _ _ 2 ReadWrite)|].
  eapply rtc_l; [eapply (step_put _ _ _ 2 _ _ note second_note None); [apply lookup_insert_eq|apply put_second|by rewrite second_revision..]|].
  eapply rtc_l; [by eapply (step_commit _ _ _ 2); [apply lookup_insert_eq|apply commit_second]|].
  constructor.
Qed.
Lemma commit_changed : commit catalog two_notes changing = (Ok tt, changed_notes, begin ReadWrite).
Proof. vm_compute. reflexivity. Qed.

Lemma commit_is_atomic_witness :
  changed_notes ≠ two_notes ∧
  ((Ok tt : StorageResult unit) = Ok tt ↔ in_turn two_notes (mt_writes changing) ∧ NoDup (store_claims catalog (apply_writes two_notes (mt_writes changing)))).
Proof.
  split; [by vm_compute|]. apply (commit_is_atomic catalog two_notes changing (Ok tt) changed_notes (begin ReadWrite) commit_changed).
Defined.

Lemma concurrent_store_is_consistent_witness :
  lookup2 (lit "core.note") first_id two_notes = Some first_note ∧ unique_ok catalog two_notes.
Proof.
  split; [vm_compute; reflexivity|].
  apply (concurrent_store_is_consistent catalog two_notes at_commit (rtc_trans reads commits)).
Defined.

Lemma commit_saw_what_it_read_witness :
  lookup2 (lit "core.note") first_id two_notes = lookup2 (lit "core.note") first_id one_note
  ∧ changed_notes = apply_writes two_notes (mt_writes changing).
Proof.
  apply (commit_saw_what_it_read catalog one_note at_read two_notes at_commit 1 changing
    [] (note_write (Some first_note) changed_note) [] changed_notes (begin ReadWrite) reads commits).
  - unfold at_commit. rewrite !lookup_insert_ne by done. apply lookup_insert_eq.
  - reflexivity.
  - intros v Hv. by apply elem_of_nil in Hv.
  - vm_compute. reflexivity.
  - apply commit_changed.
Defined.
End Notes.
