(* ===== verification/Stores.v ===== *)
(** What the engine's operations do, from the provider's promises alone: the live records form a
    table, each operation changes one entry of it as a map operation would, and every write continues
    the history of its record. *)

From S2P Require Import Prelude Text BTree Bytes Floats Json Capsule CapsuleCodec Envelope Sealed Records Queries Memory Engine MemoryLaws.

Open Scope Z_scope.

Section stores.
Context `{Sha256Laws, Lowercase} {T : Type} `{CapsuleTransaction T, !ProviderSpec T}.
Context (schema : list (str * Model)).

(** The live record of an id. *)
Definition record_of (t : T) (model : Model) (id : Id) : option Row :=
  match t_view t (m_name model) id with
  | Some c => if ce_tombstone c then None else Some (decode model c)
  | None => None
  end.

(** The write of one record: a sealed capsule that continues what was there, and nothing else. *)
Record wrote (trx trx' : Trx) (model : Model) (id : Id) (c : CapsuleEnvelope) : Prop := {
  wr_ok : t_ok (tx_inner trx');
  wr_rest : tx_mode trx' = tx_mode trx ∧ tx_finished trx' = tx_finished trx;
  wr_verified : verify c = Some (Ok tt);
  wr_id : ce_id c = id;
  wr_view : ∀ k i, t_view (tx_inner trx') k i = if decide (k = m_name model ∧ i = id) then Some c else t_view (tx_inner trx) k i;
  wr_chain : match t_view (tx_inner trx) (m_name model) id with
             | Some previous =>
                 ce_previous_integrity c = Some (ce_integrity_hash previous) ∧ ce_revision c = ce_revision previous + 1
             | None => ce_revision c = 1
             end;
}.

Lemma live_record trx model id : t_ok (tx_inner trx) → live trx model id = Ok (record_of (tx_inner trx) model id).
Proof.
  intros Hok. unfold live, record_of. rewrite spec_get by done. cbn.
  destruct (t_view _ _ _) as [c|]; [|done]. by destruct (ce_tombstone c).
Qed.

(** After a write, the record is what was written and the others are as they were. *)
Lemma wrote_record trx trx' model id c model' id' :
  wrote trx trx' model id c →
  record_of (tx_inner trx') model' id' =
  if decide (m_name model' = m_name model ∧ id' = id)
  then (if ce_tombstone c then None else Some (decode model' c))
  else record_of (tx_inner trx) model' id'.
Proof. intros W. unfold record_of. rewrite (wr_view _ _ _ _ _ W). by case_decide. Qed.

Lemma revision_next p : verify p = Some (Ok tt) → in_u64 (ce_revision p) → wrap_u64 (ce_revision p + 1) = ce_revision p + 1 ∧ in_u64 (ce_revision p + 1).
Proof. intros Hv%verified_i64 Hu. split; [apply wrap_u64_id|]; ilia. Qed.

Lemma encode_write trx model id previous now data expected c trx' :
  t_ok (tx_inner trx) → t_view (tx_inner trx) (m_name model) id = previous →
  seal_and_put trx model (encode model id previous now data) expected = Some (Ok (c, trx')) →
  encode model id previous now data = Some (Ok c) ∧ ce_tombstone c = false ∧ wrote trx trx' model id c.
Proof.
  intros Hok Hp. unfold seal_and_put. destruct (encode model id previous now data) as [[c'|]|] eqn:He; [|done..]. cbn [mbind option_bind].
  destruct (t_put _ _ _ _) as [[inner|]|] eqn:Hput; [|done..]. intros [= <- <-].
  pose proof He as Hc. unfold encode in Hc. destruct (encode_members model data [] []) as [[body rels]|]; [|done].
  destruct (storage_class model); [|done]. apply seal_for_inv in Hc as (_ & Hc & Hv).
  assert (ce_id c' = id ∧ ce_tombstone c' = false ∧ ce_previous_integrity c' = ce_integrity_hash <$> previous
    ∧ ce_revision c' = match previous with Some p => wrap_u64 (ce_revision p + 1) | None => 1 end) as (Hid & Ht & Hpi & Hr)
    by (rewrite Hc; done).
  assert (match previous with Some p => wrap_u64 (ce_revision p + 1) = ce_revision p + 1 ∧ in_u64 (ce_revision p + 1) | None => True end) as Hn.
  { destruct previous as [p|]; [|done]. apply view_ok in Hp as (_ & ? & ?); [|done]. by apply revision_next. }
  apply spec_put in Hput as (Hok' & _ & _ & Hview); [|done|rewrite Hr; destruct previous; [by destruct Hn as [-> ?]|done]].
  rewrite Hid in Hview. split; [done|]. split; [done|]. constructor; try done. rewrite Hp. destruct previous as [p|]; [|done].
  rewrite Hr, Hpi. split; [done|]. by apply Hn.
Qed.

Lemma tombstone_write trx model previous now expected c trx' :
  t_ok (tx_inner trx) → t_view (tx_inner trx) (m_name model) (ce_id previous) = Some previous →
  seal_and_put trx model (tombstone model previous now) expected = Some (Ok (c, trx')) →
  ce_tombstone c = true ∧ wrote trx trx' model (ce_id previous) c.
Proof.
  intros Hok Hp. unfold seal_and_put. destruct (tombstone model previous now) as [[c'|]|] eqn:He; [|done..]. cbn [mbind option_bind].
  destruct (t_put _ _ _ _) as [[inner|]|] eqn:Hput; [|done..]. intros [= <- <-].
  apply seal_for_inv in He as (_ & Hc & Hv).
  assert (ce_id c' = ce_id previous ∧ ce_tombstone c' = true ∧ ce_previous_integrity c' = Some (ce_integrity_hash previous)
    ∧ ce_revision c' = wrap_u64 (ce_revision previous + 1)) as (Hid & Ht & Hpi & Hr) by (rewrite Hc; done).
  pose proof (view_ok _ _ _ _ Hok Hp) as (_ & Hvp & Hu). destruct (revision_next previous Hvp Hu) as [Hn Hn'].
  apply spec_put in Hput as (Hok' & _ & _ & Hview); [|done|by rewrite Hr, Hn].
  rewrite Hid in Hview. split; [done|]. constructor; try done. rewrite Hp, Hr, Hpi. done.
Qed.

(** ** Creating *)

(** Creating adds exactly one record.  A create that succeeds was in a transaction that may write,
    on a validated record; the record was not there, its id is derived from the key of a keyed model
    and generated otherwise, and afterwards it is there with the fields that were given and no
    others, under the first revision or, after a deletion, the one that follows the tombstone.  No
    other record of any model changes. *)
Theorem create_adds_one_record now generated trx name model data row trx' :
  t_ok (tx_inner trx) → model_of schema name = Ok model → data_ok data →
  create schema now generated trx name data = Some (Ok (row, trx')) →
  ∃ c, wrote trx trx' model (row_id row) c ∧ tx_mode trx = ReadWrite
    ∧ validate model data true = Ok tt
    ∧ row_id row = match m_key_family model with
                   | Some family => default [] (for_key family <$> (jget (lit "key") data ≫= value_as_text))
                   | None => generated
                   end
    ∧ record_of (tx_inner trx) model (row_id row) = None
    ∧ record_of (tx_inner trx') model (row_id row) = Some row
    ∧ row_data row = kept data ∧ row_revision row = ce_revision c
    ∧ ∀ model' id', m_name model' ≠ m_name model ∨ id' ≠ row_id row →
        record_of (tx_inner trx') model' id' = record_of (tx_inner trx) model' id'.
Proof.
  intros Hok Hm Hd. unfold create. rewrite Hm. destruct (writable trx model) as [[]|] eqn:Hw; [|done].
  destruct (validate model data true) as [[]|] eqn:Hval; [|done].
  destruct (match m_key_family model with Some _ => _ | None => _ end) as [id|] eqn:Hid; [|done].
  rewrite spec_get by done. destruct (is_some_and _ _) eqn:Hlive; [done|]. cbn [mbind option_bind].
  destruct (seal_and_put _ _ _ _) as [[[c trx1]|]|] eqn:Hs; [|done..]. intros [= <- <-].
  apply encode_write in Hs as (He & Ht & W); [|done|done].
  pose proof (record_decode_encode _ _ _ _ _ _ _ Hd Hval He) as Hdec. rewrite Hdec. cbn [row_id row_data row_revision].
  exists c. split; [done|]. split; [unfold writable in Hw; by case_bool_decide; destruct (tx_mode trx)|]. split; [done|].
  split; [destruct (m_key_family model); [destruct (jget (lit "key") data ≫= value_as_text); [|done]|]; cbn in *; congruence|].
  split; [unfold record_of; destruct (t_view _ _ _) as [p|]; [|done]; cbn in Hlive; by destruct (ce_tombstone p)|].
  split; [rewrite (wrote_record _ _ _ _ _ _ _ W), decide_True, Ht by done; by rewrite Hdec|].
  split; [done|]. split; [by apply (f_equal row_revision) in Hdec|].
  intros model' id' Hne. rewrite (wrote_record _ _ _ _ _ _ _ W), decide_False; [done|]. naive_solver.
Qed.

(** ** Finding *)

Lemma record_id t model id row : t_ok t → record_of t model id = Some row → row_id row = id.
Proof.
  intros Hok. unfold record_of. destruct (t_view t (m_name model) id) as [c|] eqn:E; [|done].
  destruct (ce_tombstone c); [done|]. intros [= <-]. by apply view_ok in E as [<- _].
Qed.

(** What a selector says of the record it names. *)
Definition selects (model : Model) (by_ : Unique) (row : Row) : Prop :=
  match by_ with
  | UId id => row_id row = id
  | UKey key => ∃ family, m_key_family model = Some family ∧ row_id row = for_key family key
  | UFields fields =>
      (∃ index, index ∈ m_unique model ∧ sorted_names index = fields.*1)
      ∧ ∀ name value, (name, value) ∈ fields → condition (row_get row name) (Equals value) = Some true
  end.

Lemma where_all_matches fields row :
  is_none_or (λ f, matches f row) (where_all ((λ '(name, value), where_eq name value) <$> fields)) = true →
  ∀ name value, (name, value) ∈ fields → condition (row_get row name) (Equals value) = Some true.
Proof.
  destruct fields as [|[n1 v1] [|[n2 v2] fields]]; cbn [fmap list_fmap where_all is_none_or]; unfold matches;
    rewrite ?bool_decide_eq_true, ?evaluate_truth.
  - by intros _ ? ? ?%elem_of_nil.
  - cbn. intros Hm name value Hin. apply list_elem_of_singleton in Hin as [= -> ->]. done.
  - cbn [truth]. rewrite foldr_fmap. intros Hm name value Hin.
    assert (∀ l, foldr (λ f, and3 (truth f row)) (Some true) l = Some true → ∀ f, f ∈ l → truth f row = Some true) as Hall.
    { clear. induction l as [|g l IH]; cbn; [by intros _ f ?%elem_of_nil|]. intros Ha f.
      destruct (truth g row) as [[]|] eqn:Eg, (foldr _ _ l) as [[]|] eqn:El; try done.
      intros [->|Hf]%elem_of_cons; [done|]. by apply IH. }
    apply (Hall _ Hm (where_eq name value)).
    change (where_eq n1 v1 :: where_eq n2 v2 :: _) with ((λ '(name, value), where_eq name value) <$> (n1, v1) :: (n2, v2) :: fields).
    apply list_elem_of_fmap. by exists (name, value).
Qed.

(** A record that [find_unique] answers is live and is one that the selector names. *)
Lemma find_unique_inv trx name by_ row :
  t_ok (tx_inner trx) → find_unique schema trx name by_ = Ok (Some row) →
  ∃ model, model_of schema name = Ok model ∧ record_of (tx_inner trx) model (row_id row) = Some row ∧ selects model by_ row.
Proof.
  intros Hok. unfold find_unique. destruct (model_of schema name) as [model|]; [|done].
  destruct (direct_id model by_) as [direct|] eqn:Ed; [|done]. intros Hf. exists model. split; [done|].
  destruct direct as [id|].
  - rewrite live_record in Hf by done. apply Ok_inj in Hf. pose proof (record_id _ _ _ _ Hok Hf) as Hid.
    rewrite Hid. split; [done|]. destruct by_ as [id'|key|fields]; cbn in Ed.
    + apply Ok_inj in Ed as [= ->]. done.
    + destruct (m_key_family model) as [family|] eqn:Ef; [|done]. cbn in Ed. apply Ok_inj in Ed as [= <-]. by exists family.
    + done.
  - destruct by_ as [id'|key|fields]; [done|by destruct (m_key_family model)|].
    destruct (negb _) eqn:Hix; [done|]. rewrite spec_find in Hf by done. cbn [fm_take fm_skip fm_filter fm_order_by] in Hf.
    apply Ok_inj in Hf. change (Z.to_nat 1) with 1%nat in Hf. rewrite drop_0 in Hf.
    destruct (t_rows _ _ _ _) as [|c cs] eqn:Er; [done|]. cbn in Hf. injection Hf as <-.
    assert (c ∈ t_rows (tx_inner trx) model (where_all ((λ '(name, value), where_eq name value) <$> fields)) []) as Hc
      by (rewrite Er; left).
    apply spec_rows in Hc as (Hv & Ht & Hm); [|done]. cbn [decode row_id].
    split; [unfold record_of; by rewrite Hv, Ht|]. split.
    + apply negb_false_iff in Hix. apply existsb_spec in Hix as (index & Hin & Hi%bool_decide_eq_true). by exists index.
    + by apply where_all_matches.
Qed.

(** ** Changing and deleting *)

Lemma merge_data_get current data field : ordered data →
  default VNull (jget field (merge_data current data)) = default (default VNull (jget field current)) (jget field data).
Proof.
  intros Hnd%ordered_NoDup. revert current. induction data as [|[k v] data IH]; intros current; [done|].
  apply NoDup_cons in Hnd as [Hni Hnd]. cbn [merge_data foldl].
  change (foldl _ _ data) with (merge_data (if is_null v then jremove k current else jinsert k v current) data).
  rewrite IH, jget_cons by done. case_bool_decide as Hk.
  - subst k. replace (jget field data) with (@None Value); [|symmetry; by apply jget_None]. cbn [default].
    destruct v; cbn [is_null]; rewrite ?jget_jremove, ?jget_jinsert, bool_decide_eq_true_2; done.
  - destruct (jget field data); [done|]. cbn [default]. f_equal.
    destruct (is_null v); rewrite ?jget_jremove, ?jget_jinsert, bool_decide_eq_false_2; done.
Qed.
Lemma kept_default data field : ordered data → default VNull (jget field (kept data)) = default VNull (jget field data).
Proof. intros Ho. rewrite kept_get by done. by destruct (jget field data) as [[]|]. Qed.
Lemma validate_required model row field :
  validate model (row_data row) true = Ok tt → field ∈ m_required model → is_null (row_get row field) = false.
Proof.
  unfold validate, row_get. destruct (try_each _ _) as [[]|]; [|done].
  destruct (find _ _) eqn:Hf; [done|]. intros _ Hin.
  pose proof (proj1 (find_None _ _) Hf) as Hall. specialize (Hall field Hin). cbn in Hall.
  destruct (jget field (row_data row)); [exact Hall|done].
Qed.

(** C35. An update changes the record that the selector names, and only its given fields.  A successful
    update answers nothing exactly when the selector names no record, and then changes nothing.
    Otherwise, for merged fields that are within the limits of a capsule value, the model is not append-only, the record keeps its id and its key, its revision
    advances by one over a chained capsule, each field is as given, or as it was where none is given
    (a null removes it: the record holds no nulls), every required field is still there, and no other
    record of any model changes. *)
Theorem update_merges_one_record now trx name by_ data answer trx' :
  t_ok (tx_inner trx) → ordered data →
  (∀ current, find_unique schema trx name by_ = Ok (Some current) → data_ok (merge_data (row_data current) data)) →
  update schema now trx name by_ data = Some (Ok (answer, trx')) →
  match answer with
  | None => find_unique schema trx name by_ = Ok None ∧ trx' = trx
  | Some row =>
      ∃ model current c, model_of schema name = Ok model ∧ find_unique schema trx name by_ = Ok (Some current)
      ∧ selects model by_ current ∧ m_append_only model = false ∧ wrote trx trx' model (row_id current) c
      ∧ row_id row = row_id current ∧ row_revision row = row_revision current + 1
      ∧ (∀ field, row_get row field = default (row_get current field) (jget field data))
      ∧ ordered (row_data row) ∧ Forall (λ kv, is_null kv.2 = false) (row_data row)
      ∧ (∀ field, field ∈ m_required model → is_null (row_get row field) = false)
      ∧ record_of (tx_inner trx') model (row_id current) = Some row
      ∧ (∀ old new, jget (lit "key") (row_data current) = Some (VText old) → jget (lit "key") data = Some (VText new) → new = old)
      ∧ ∀ model' id', m_name model' ≠ m_name model ∨ id' ≠ row_id current →
          record_of (tx_inner trx') model' id' = record_of (tx_inner trx) model' id'
  end.
Proof.
  intros Hok Ho Hd. unfold update. destruct (find_unique schema trx name by_) as [[current|]|] eqn:Hf; [|by intros [= <- <-]|done].
  specialize (Hd current eq_refl). destruct (find_unique_inv _ _ _ _ Hok Hf) as (model & Hm & Hrec & Hsel).
  unfold rewrite. rewrite Hm. destruct (writable trx model); [|done]. destruct (m_append_only model) eqn:Ha; [done|].
  destruct (validate model data false); [|done].
  destruct (match jget (lit "key") data with Some _ => _ | None => _ end) as [model'|] eqn:Hk; [|done].
  assert (model' = model ∧ ∀ old new, jget (lit "key") (row_data current) = Some (VText old) →
    jget (lit "key") data = Some (VText new) → new = old) as [-> Hkey].
  { destruct (jget (lit "key") data) as [[]|], (jget (lit "key") (row_data current)) as [[]|]; simplify_eq; try done.
    case_bool_decide; simplify_eq. split; [done|]. intros ? ? [= <-] [= <-]. done. }
  destruct (validate model (merge_data (row_data current) data) true) as [[]|] eqn:Hval; [|done].
  rewrite spec_get by done. unfold record_of in Hrec.
  destruct (t_view (tx_inner trx) (m_name model) (row_id current)) as [previous|] eqn:Hp; [|done].
  destruct (ce_tombstone previous); [done|]. injection Hrec as Hcur. cbn [ok_or mbind option_bind].
  destruct (seal_and_put _ _ _ _) as [[[c trx1]|]|] eqn:Hs; [|done..]. intros [= <- <-].
  apply encode_write in Hs as (He & Ht & W); [|done|done].
  pose proof (record_decode_encode _ _ _ _ _ _ _ Hd Hval He) as Hdec.
  pose proof (view_ok _ _ _ _ Hok Hp) as (_ & Hvp & Hu). destruct (revision_next previous Hvp Hu) as [Hn _].
  exists model, current, c. split; [done|]. split; [done|]. split; [done|]. split; [done|]. split; [done|].
  split; [by rewrite Hdec|]. split; [rewrite Hdec; cbn; rewrite Hn; by rewrite <-Hcur|].
  assert (∀ field, row_get (decode model c) field = row_get {| row_id := []; row_revision := 0; row_created_at_micros := 0;
    row_updated_at_micros := 0; row_data := merge_data (row_data current) data |} field) as Hget.
  { intros field. rewrite Hdec. unfold row_get. cbn [row_data]. by rewrite kept_default by apply Hd. }
  split; [intros field; rewrite Hget; unfold row_get; cbn [row_data]; by apply merge_data_get|].
  split; [rewrite Hdec; by apply ordered_filter, Hd|].
  split; [rewrite Hdec; apply Forall_forall; by intros kv [? _]%list_elem_of_filter|].
  split; [intros field Hreq; rewrite Hget; by eapply validate_required|].
  split; [by rewrite (wrote_record _ _ _ _ _ _ _ W), decide_True, Ht by done|].
  split; [done|].
  intros model' id' Hne. rewrite (wrote_record _ _ _ _ _ _ _ W), decide_False; [done|]. naive_solver.
Qed.

(** A delete removes the record that the selector names, and only it.  A successful delete
    answers nothing exactly when the selector names no record, and then changes nothing; otherwise
    it answers the record as it was, the model is not append-only, the record is gone behind a
    tombstone that continues its history, and no other record of any model changes. *)
Theorem delete_removes_one_record now trx name by_ answer trx' :
  t_ok (tx_inner trx) → delete schema now trx name by_ = Some (Ok (answer, trx')) →
  match answer with
  | None => find_unique schema trx name by_ = Ok None ∧ trx' = trx
  | Some row =>
      ∃ model c, model_of schema name = Ok model ∧ find_unique schema trx name by_ = Ok (Some row)
      ∧ selects model by_ row ∧ m_append_only model = false
      ∧ ce_tombstone c = true ∧ wrote trx trx' model (row_id row) c
      ∧ record_of (tx_inner trx) model (row_id row) = Some row
      ∧ record_of (tx_inner trx') model (row_id row) = None
      ∧ ∀ model' id', m_name model' ≠ m_name model ∨ id' ≠ row_id row →
          record_of (tx_inner trx') model' id' = record_of (tx_inner trx) model' id'
  end.
Proof.
  intros Hok. unfold delete. destruct (find_unique schema trx name by_) as [[current|]|] eqn:Hf; [|by intros [= <- <-]|done].
  destruct (find_unique_inv _ _ _ _ Hok Hf) as (model & Hm & Hrec & Hsel). rewrite Hm.
  destruct (writable trx model); [|done]. destruct (m_append_only model) eqn:Ha; [done|].
  rewrite spec_get by done. pose proof Hrec as Hr. unfold record_of in Hr.
  destruct (t_view (tx_inner trx) (m_name model) (row_id current)) as [previous|] eqn:Hp; [|done].
  pose proof (view_ok _ _ _ _ Hok Hp) as (Hid & _ & _). cbn [ok_or].
  destruct (seal_and_put _ _ _ _) as [[[c trx1]|]|] eqn:Hs; [|done..]. intros [= <- <-].
  apply tombstone_write in Hs as (Ht & W); [|done|by rewrite Hid]. rewrite Hid in W.
  exists model, c. split; [done|]. split; [done|]. split; [done|]. split; [done|]. split; [done|]. split; [done|].
  split; [done|]. split; [by rewrite (wrote_record _ _ _ _ _ _ _ W), decide_True, Ht by done|].
  intros model' id' Hne. rewrite (wrote_record _ _ _ _ _ _ _ W), decide_False; [done|]. naive_solver.
Qed.

(** ** Writes that are refused *)

(** No write reaches the provider from a read-only transaction, and no change reaches an
    append-only model: creating in a read-only transaction, and updating or deleting a record there
    or in an append-only model, answers an error, whatever the record and the data. *)
Theorem refused_writes now generated trx name model by_ create_data update_data current :
  model_of schema name = Ok model → find_unique schema trx name by_ = Ok (Some current) →
  tx_mode trx = ReadOnly ∨ m_append_only model = true →
  (tx_mode trx = ReadOnly → ∃ e, create schema now generated trx name create_data = Some (Err e))
  ∧ (∃ e, update schema now trx name by_ update_data = Some (Err e))
  ∧ (∃ e, upsert schema now generated trx name by_ create_data update_data = Some (Err e))
  ∧ (∃ e, delete schema now trx name by_ = Some (Err e)).
Proof.
  intros Hm Hf Hr. unfold create, update, upsert, delete, rewrite. rewrite Hm, Hf. unfold writable. split.
  - intros ->. rewrite bool_decide_eq_true_2 by done. by eexists.
  - case_bool_decide as Ho; [repeat split; by eexists|]. destruct Hr as [|Ha]; [done|].
    rewrite Ha. repeat split; by eexists.
Qed.

(** Every write that an operation makes continues the history of its record. *)
Lemma wrote_history trx trx' model id c h :
  wrote trx trx' model id c →
  match t_view (tx_inner trx) (m_name model) id with
  | Some previous => linked (previous :: h) → linked (c :: previous :: h)
  | None => linked [c]
  end.
Proof.
  intros [_ _ Hv _ _ Hc]. destruct (t_view _ _ _) as [p|].
  - destruct Hc as [Hp Hr]. intros Hl. by split.
  - by split.
Qed.

(** ** Walking a table *)

Definition matching (t : T) (model : Model) (filter : option Where) : list CapsuleEnvelope := t_rows t model filter [].

Lemma all_rows_pages pages trx name model filter done_ :
  t_ok (tx_inner trx) → model_of schema name = Ok model → check_filter model filter = Ok tt →
  (done_ ≤ length (matching (tx_inner trx) model filter))%nat →
  (length (matching (tx_inner trx) model filter) < done_ + pages * Z.to_nat PAGE)%nat →
  all_rows schema pages trx name filter (decode model <$> list.take done_ (matching (tx_inner trx) model filter))
  = Some (Ok (decode model <$> matching (tx_inner trx) model filter)).
Proof.
  intros Hok Hm Hc. set (all := matching (tx_inner trx) model filter).
  revert done_. induction pages as [|pages IH]; intros n Hn Hl; [lia|]. cbn [all_rows].
  assert (length (decode model <$> list.take n all) = n) as Hlen by (rewrite length_fmap, length_take; lia).
  rewrite Hlen. unfold find_many. rewrite Hm. cbn [fm_filter fm_order_by]. rewrite Hc. cbn [find List.find].
  rewrite spec_find by done. cbn [fm_take fm_skip fm_filter fm_order_by]. rewrite Nat2Z.id.
  change (t_rows (tx_inner trx) model filter []) with all. rewrite length_fmap, length_take, length_drop.
  rewrite <-fmap_app, take_take_drop. destruct (Z.ltb_spec (Z.of_nat (Z.to_nat PAGE `min` (length all - n))) PAGE).
  - rewrite take_ge; [done|]. unfold PAGE in *. lia.
  - rewrite IH; [done| |]; unfold PAGE in *; lia.
Qed.

(** The walk ends, with every match, within one page more than the matches fill. *)
Lemma all_rows_total trx name model filter :
  t_ok (tx_inner trx) → model_of schema name = Ok model → check_filter model filter = Ok tt →
  all_rows schema (S (length (matching (tx_inner trx) model filter))) trx name filter []
  = Some (Ok (decode model <$> matching (tx_inner trx) model filter)).
Proof.
  intros Hok Hm Hc. rewrite <-(all_rows_pages (S (length (matching (tx_inner trx) model filter))) trx name model filter 0 Hok Hm Hc).
  - done.
  - lia.
  - unfold PAGE. nia.
Qed.

Lemma delete_by_id now trx name model id answer trx' :
  t_ok (tx_inner trx) → model_of schema name = Ok model → delete schema now trx name (UId id) = Some (Ok (answer, trx')) →
  t_ok (tx_inner trx') ∧ ∀ model' id', record_of (tx_inner trx') model' id' =
    if decide (m_name model' = m_name model ∧ id' = id) then None else record_of (tx_inner trx) model' id'.
Proof.
  intros Hok Hm. unfold delete, find_unique. rewrite Hm. cbn [direct_id]. rewrite live_record by done.
  destruct (record_of (tx_inner trx) model id) as [row|] eqn:Hr.
  - pose proof (record_id _ _ _ _ Hok Hr) as Hid. destruct (writable trx model); [|done]. destruct (m_append_only model); [done|].
    rewrite spec_get, Hid by done. pose proof Hr as Hr'. unfold record_of in Hr'.
    destruct (t_view (tx_inner trx) (m_name model) id) as [previous|] eqn:Hp; [|done].
    pose proof (view_ok _ _ _ _ Hok Hp) as (Hpid & _ & _). cbn [ok_or].
    destruct (seal_and_put _ _ _ _) as [[[c trx1]|]|] eqn:Hs; [|done..]. intros [= <- <-].
    apply tombstone_write in Hs as (Ht & W); [|done|by rewrite Hpid]. rewrite Hpid in W. split; [apply W|].
    intros model' id'. rewrite (wrote_record _ _ _ _ _ _ _ W), Ht. done.
  - intros [= <- <-]. split; [done|]. intros model' id'. case_decide as Hd; [|done]. destruct Hd as [Hn ->].
    unfold record_of in *. rewrite Hn. destruct (t_view _ _ id) as [c|]; [|done]. by destruct (ce_tombstone c).
Qed.

Lemma delete_each_clears now trx name model rows trx' :
  t_ok (tx_inner trx) → model_of schema name = Ok model → delete_each schema now trx name rows = Some (Ok trx') →
  t_ok (tx_inner trx') ∧ ∀ model' id', record_of (tx_inner trx') model' id' =
    if decide (m_name model' = m_name model ∧ id' ∈ row_id <$> rows) then None else record_of (tx_inner trx) model' id'.
Proof.
  intros Hok Hm. revert trx Hok. induction rows as [|row rows IH]; intros trx Hok; cbn [delete_each].
  - intros [= <-]. split; [done|]. intros model' id'. rewrite decide_False; [done|]. by intros [_ ?%elem_of_nil].
  - destruct (delete schema now trx name (UId (row_id row))) as [[[a trx1]|]|] eqn:Hd; [|done..]. cbn [mbind option_bind].
    destruct (delete_by_id _ _ _ _ _ _ _ Hok Hm Hd) as [Hok1 G1]. intros He. destruct (IH trx1 Hok1 He) as [Hok2 G2].
    split; [done|]. intros model' id'. rewrite G2, G1. cbn [fmap list_fmap].
    destruct (decide (m_name model' = m_name model)) as [Hn|Hn]; [|by rewrite !decide_False by naive_solver].
    destruct (decide (id' ∈ row_id <$> rows)) as [Hi|Hi].
    + by rewrite !decide_True by (split; [done|]; (done || by right)).
    + rewrite (decide_False (P := _ ∧ id' ∈ row_id <$> rows)) by naive_solver.
      destruct (decide (id' = row_id row)) as [->|Hr].
      * by rewrite !decide_True by (split; [done|]; (done || by left)).
      * rewrite !decide_False; [done|set_solver|naive_solver].
Qed.

(** [delete_many] removes every match.  Its walk of the table ends, however many pages the
    matches fill, within one page more than that, with every match; when the deletes succeed it
    answers how many records matched, no live record of the model matches afterwards, and every
    other record of any model is as it was. *)
Theorem delete_many_clears now trx name model filter :
  t_ok (tx_inner trx) → model_of schema name = Ok model → check_filter model filter = Ok tt →
  all_rows schema (S (length (matching (tx_inner trx) model filter))) trx name filter []
  = Some (Ok (decode model <$> matching (tx_inner trx) model filter))
  ∧ ∀ n trx', delete_many schema (S (length (matching (tx_inner trx) model filter))) now trx name filter = Some (Ok (n, trx')) →
      n = Z.of_nat (length (matching (tx_inner trx) model filter))
      ∧ matching (tx_inner trx') model filter = []
      ∧ ∀ model' id', (m_name model' = m_name model → ∀ row, record_of (tx_inner trx) model id' = Some row →
                         is_none_or (λ f, matches f row) filter = false) →
          record_of (tx_inner trx') model' id' = record_of (tx_inner trx) model' id'.
Proof.
  intros Hok Hm Hc. split; [by apply all_rows_total|]. intros n trx'.
  unfold delete_many. rewrite (all_rows_total trx name model filter) by done. cbn [mbind option_bind].
  destruct (delete_each _ _ _ _ _) as [[trx1|]|] eqn:Hd; [|done..]. intros [= <- <-].
  destruct (delete_each_clears _ _ _ _ _ _ Hok Hm Hd) as [Hok1 G1].
  assert (∀ c, c ∈ matching (tx_inner trx) model filter ↔
    ∃ row, record_of (tx_inner trx) model (ce_id c) = Some row ∧ decode model c = row ∧ t_view (tx_inner trx) (m_name model) (ce_id c) = Some c
      ∧ is_none_or (λ f, matches f row) filter = true) as Hmatch.
  { intros c. unfold matching. rewrite spec_rows by done. unfold record_of. split.
    - intros (Hv & Ht & Hf). exists (decode model c). by rewrite Hv, Ht.
    - intros (row & Hr & <- & Hv & Hf). rewrite Hv in Hr. by destruct (ce_tombstone c). }
  split; [by rewrite length_fmap|]. split.
  - destruct (matching (tx_inner trx1) model filter) as [|c cs] eqn:Em; [done|exfalso].
    assert (c ∈ t_rows (tx_inner trx1) model filter []) as Hin by (unfold matching in Em; rewrite Em; left).
    apply spec_rows in Hin as (Hv & Ht & Hf); [|done]. specialize (G1 model (ce_id c)).
    unfold record_of at 1 in G1. rewrite Hv, Ht in G1. case_decide as Hdec; [done|]. apply Hdec. split; [done|].
    assert (∃ c0, t_view (tx_inner trx) (m_name model) (ce_id c) = Some c0 ∧ ce_tombstone c0 = false ∧ decode model c0 = decode model c) as (c0 & Hv0 & Ht0 & Hd0).
    { unfold record_of in G1. destruct (t_view _ _ _) as [c0|]; [|done]. exists c0. destruct (ce_tombstone c0); [done|]. split; [done|]. split; [done|]. congruence. }
    pose proof (view_ok _ _ _ _ Hok Hv0) as (Hi0 & _ & _). rewrite <-list_fmap_compose. apply list_elem_of_fmap. exists c0.
    split; [cbn; congruence|]. unfold matching. apply spec_rows; [done|]. rewrite Hi0, Hd0. done.
  - intros model' id' Hno. rewrite G1. case_decide as Hdec; [|done]. destruct Hdec as [Hn Hin]. exfalso.
    apply list_elem_of_fmap in Hin as (row & -> & Hin). apply list_elem_of_fmap in Hin as (c & -> & Hin).
    apply Hmatch in Hin as (row & Hr & <- & _ & Hf). specialize (Hno Hn _ Hr). congruence.
Qed.

End stores.

(** ** Notes in a transaction *)

Module NoteOperations.
Export Notes.

Notation note_trx := (@Trx (Capsules * MemoryTransaction)).
Definition core_note : str := lit "core.note".
Definition notes_trx (mode : Mode) : note_trx :=
  {| tx_inner := (two_notes, begin mode); tx_mode := mode; tx_finished := false |}.
Definition third_id : Id := repeat 3%N 16.
Definition third_data : Data := note_data (lit "c") 7.

Definition by_body : Unique := UFields [(lit "body", VText (lit "a"))].
Definition more : Data := [(lit "count", VInt 4)].
Definition small : option Where := Some (Field (lit "count") (CLt (VInt 5))).

(** The result of an operation that succeeds. *)
Definition row_of {A} (d : A) (r : option (StorageResult (A * note_trx))) : A :=
  match r with Some (Ok (row, _)) => row | _ => d end.
Definition trx_of {A} (r : option (StorageResult (A * note_trx))) : note_trx :=
  match r with Some (Ok (_, trx)) => trx | _ => notes_trx ReadOnly end.
Definition no_row : Row := {| row_id := []; row_revision := 0; row_created_at_micros := 0; row_updated_at_micros := 0; row_data := [] |}.

Definition created := create catalog 9 third_id (notes_trx ReadWrite) core_note third_data.
Definition updated := update catalog 9 (notes_trx ReadWrite) core_note by_body more.
Definition removed := delete catalog 9 (notes_trx ReadWrite) core_note by_body.
Definition cleared := delete_many catalog 3 9 (notes_trx ReadWrite) core_note small.

Lemma notes_ok mode : t_ok (tx_inner (notes_trx mode)).
Proof.
  destruct (store_rtc_rank catalog _ _ [] [] (empty_inv catalog) (rtc_trans reads commits)) as ((Hs & _ & _) & _).
  split; [exact Hs|constructor].
Qed.
Lemma note_known : model_of catalog core_note = Ok note.
Proof. vm_compute. reflexivity. Qed.
Lemma third_ok : data_ok third_data.
Proof. split; [by apply (bool_decide_unpack _)|]. repeat constructor; by apply (bool_decide_unpack _). Qed.
Lemma found_first mode : find_unique catalog (notes_trx mode) core_note by_body = Ok (Some (decode note first_note)).
Proof. destruct mode; vm_compute; reflexivity. Qed.

Lemma created_done : created = Some (Ok (row_of no_row created, trx_of created)).
Proof. vm_compute. reflexivity. Qed.
Lemma updated_done : updated = Some (Ok (row_of None updated, trx_of updated)).
Proof. vm_compute. reflexivity. Qed.
Lemma removed_done : removed = Some (Ok (row_of None removed, trx_of removed)).
Proof. vm_compute. reflexivity. Qed.
Lemma cleared_done : cleared = Some (Ok (2, trx_of cleared)).
Proof. vm_compute. reflexivity. Qed.

Lemma create_adds_one_record_witness :
  record_of (tx_inner (notes_trx ReadWrite)) note third_id = None
  ∧ row_data <$> record_of (tx_inner (trx_of created)) note third_id = Some third_data
  ∧ ∃ c, wrote (notes_trx ReadWrite) (trx_of created) note (row_id (row_of no_row created)) c.
Proof.
  split; [vm_compute; reflexivity|]. split; [vm_compute; reflexivity|].
  destruct (create_adds_one_record catalog 9 third_id (notes_trx ReadWrite) core_note note third_data _ _
    (notes_ok ReadWrite) note_known third_ok created_done) as (c & W & _).
  exists c. exact W.
Defined.

Lemma merged_ok current : find_unique catalog (notes_trx ReadWrite) core_note by_body = Ok (Some current) →
  data_ok (merge_data (row_data current) more).
Proof.
  rewrite found_first. intros [= <-]. change (data_ok (note_data (lit "a") 4)).
  split; [by apply (bool_decide_unpack _)|]. repeat constructor; by apply (bool_decide_unpack _).
Qed.

Lemma more_ordered : ordered more.
Proof. by apply (bool_decide_unpack _). Qed.
Lemma update_merges_one_record_witness :
  row_data <$> row_of None updated = Some (note_data (lit "a") 4)
  ∧ ∃ model current c, wrote (notes_trx ReadWrite) (trx_of updated) model (row_id current) c
      ∧ selects model by_body current.
Proof.
  split; [vm_compute; reflexivity|].
  pose proof (update_merges_one_record catalog 9 (notes_trx ReadWrite) core_note by_body more
    (row_of None updated) (trx_of updated) (notes_ok ReadWrite) more_ordered merged_ok updated_done) as Hu.
  destruct (row_of None updated) as [row|] eqn:Er; [|by vm_compute in Er].
  destruct Hu as (model & current & c & _ & _ & Hs & _ & W & _). exists model, current, c. split; [exact W|exact Hs].
Defined.

Lemma delete_removes_one_record_witness :
  row_of None removed = Some (decode note first_note)
  ∧ record_of (tx_inner (trx_of removed)) note first_id = None
  ∧ ∃ model row c, ce_tombstone c = true ∧ wrote (notes_trx ReadWrite) (trx_of removed) model (row_id row) c.
Proof.
  split; [vm_compute; reflexivity|]. split; [vm_compute; reflexivity|].
  pose proof (delete_removes_one_record catalog 9 (notes_trx ReadWrite) core_note by_body
    (row_of None removed) (trx_of removed) (notes_ok ReadWrite) removed_done) as Hd.
  destruct (row_of None removed) as [row|] eqn:Er; [|by vm_compute in Er].
  destruct Hd as (model & c & _ & _ & _ & _ & Ht & W & _). exists model, row, c. split; [exact Ht|exact W].
Defined.

Lemma refused_writes_witness :
  (∃ e, update catalog 9 (notes_trx ReadOnly) core_note by_body more = Some (Err e))
  ∧ (∃ e, delete catalog 9 (notes_trx ReadOnly) core_note by_body = Some (Err e)).
Proof.
  destruct (refused_writes catalog 9 third_id (notes_trx ReadOnly) core_note note by_body third_data more _
    note_known (found_first ReadOnly) (or_introl eq_refl)) as (_ & Hu & _ & Hd).
  split; [exact Hu|exact Hd].
Defined.

Lemma delete_many_clears_witness :
  length (matching (tx_inner (notes_trx ReadWrite)) note small) = 2%nat
  ∧ matching (tx_inner (trx_of cleared)) note small = [].
Proof.
  split; [vm_compute; reflexivity|].
  destruct (delete_many_clears catalog 9 (notes_trx ReadWrite) core_note note small
    (notes_ok ReadWrite) note_known eq_refl) as [_ Hc].
  apply (Hc 2 (trx_of cleared)). exact cleared_done.
Defined.

End NoteOperations.
