(* ===== verification/AutoCommit.v ===== *)
(** Services outside any action use storage one short transaction per call
    ([aseman-capsule/src/auto.rs]): used nonces, one-time challenges and the idempotency keys of
    public actions, through the generated client ([aseman-storage/src/client.rs], [typed.rs]).

    A call is a resumption: each [Step] is one access to the store of the in-memory provider, and
    other calls and transactions run between two of them.  The clock, and a fresh nonce where one is
    made, are arguments; a subject is given as its text.  A panic is [None]. *)

From S2P Require Import Prelude Text Ports BTree Bytes Floats Json Capsule CapsuleCodec Envelope Sealed Records Queries Memory Engine MemoryLaws.

Open Scope Z_scope.

(** ** The typed client *)

Class FromValue (A : Type) := from_value : Value → option A.
#[export] Instance from_text : FromValue str := value_as_text.
#[export] Instance from_int : FromValue Z := λ v, match v with VInt z => Some z | _ => None end.
#[export] Instance from_bool : FromValue bool := λ v, match v with VBool b => Some b | _ => None end.
(** [Vec<u8>] and [String] are both lists here, so bytes are read by name. *)
Definition from_bytes (v : Value) : option (list byte) := match v with VBytes l => Some l | _ => None end.

Definition lacks (model field : str) : StorageError :=
  SInvalid (model ++ lit ": stored record lacks required field " ++ field).
Definition required {A} `{FromValue A} (row : Row) (model field : str) : StorageResult A :=
  ok_or (from_value (row_get row field)) (lacks model field).
Definition required_bytes (row : Row) (model field : str) : StorageResult (list byte) :=
  ok_or (from_bytes (row_get row field)) (lacks model field).

Definition REPLAY_NONCE : str := lit "core.replay_nonce".
Definition IDENTITY_CHALLENGE : str := lit "core.identity_challenge".
Definition PUBLIC_IDEMPOTENCY : str := lit "core.public_idempotency".

Record ReplayNonce := { rn_key : str; rn_key_ref : str; rn_retain_until_millis : i64 }.
Definition ReplayNonce_data (c : ReplayNonce) : Data :=
  jinsert (lit "retain_until_millis") (VInt (rn_retain_until_millis c))
    (jinsert (lit "key_ref") (VText (rn_key_ref c)) (jinsert (lit "key") (VText (rn_key c)) [])).
Definition ReplayNonce_from_row (row : Row) : StorageResult ReplayNonce :=
  let? key := required row REPLAY_NONCE (lit "key") in
  let? key_ref := required row REPLAY_NONCE (lit "key_ref") in
  let? retain_until_millis := required row REPLAY_NONCE (lit "retain_until_millis") in
  Ok {| rn_key := key; rn_key_ref := key_ref; rn_retain_until_millis := retain_until_millis |}.

Record IdentityChallenge := { ic_key : str; ic_subject : str; ic_audience : str; ic_expires_at_millis : i64 }.
Definition IdentityChallenge_data (c : IdentityChallenge) : Data :=
  jinsert (lit "expires_at_millis") (VInt (ic_expires_at_millis c))
    (jinsert (lit "audience") (VText (ic_audience c))
      (jinsert (lit "subject") (VText (ic_subject c)) (jinsert (lit "key") (VText (ic_key c)) []))).
Definition IdentityChallenge_from_row (row : Row) : StorageResult IdentityChallenge :=
  let? key := required row IDENTITY_CHALLENGE (lit "key") in
  let? subject := required row IDENTITY_CHALLENGE (lit "subject") in
  let? audience := required row IDENTITY_CHALLENGE (lit "audience") in
  let? expires_at_millis := required row IDENTITY_CHALLENGE (lit "expires_at_millis") in
  Ok {| ic_key := key; ic_subject := subject; ic_audience := audience; ic_expires_at_millis := expires_at_millis |}.

Record PublicIdempotency := {
  pi_key : str; pi_subject : str; pi_request_key : str; pi_digest : list byte;
  pi_claimed_at_millis : i64; pi_response : option (list byte); pi_completed : bool }.
Definition PublicIdempotency_data (c : PublicIdempotency) : Data :=
  let data := jinsert (lit "claimed_at_millis") (VInt (pi_claimed_at_millis c))
    (jinsert (lit "digest") (VBytes (pi_digest c))
      (jinsert (lit "request_key") (VText (pi_request_key c))
        (jinsert (lit "subject") (VText (pi_subject c)) (jinsert (lit "key") (VText (pi_key c)) [])))) in
  let data := match pi_response c with Some value => jinsert (lit "response") (VBytes value) data | None => data end in
  jinsert (lit "completed") (VBool (pi_completed c)) data.
Definition PublicIdempotency_from_row (row : Row) : StorageResult PublicIdempotency :=
  let? key := required row PUBLIC_IDEMPOTENCY (lit "key") in
  let? subject := required row PUBLIC_IDEMPOTENCY (lit "subject") in
  let? request_key := required row PUBLIC_IDEMPOTENCY (lit "request_key") in
  let? digest := required_bytes row PUBLIC_IDEMPOTENCY (lit "digest") in
  let? claimed_at_millis := required row PUBLIC_IDEMPOTENCY (lit "claimed_at_millis") in
  let? completed := required row PUBLIC_IDEMPOTENCY (lit "completed") in
  Ok {| pi_key := key; pi_subject := subject; pi_request_key := request_key; pi_digest := digest;
        pi_claimed_at_millis := claimed_at_millis; pi_response := from_bytes (row_get row (lit "response"));
        pi_completed := completed |}.

(** [.map(from_row).transpose()]. *)
Definition transpose {A} (from_row : Row → StorageResult A) (row : option Row) : StorageResult (option A) :=
  match row with
  | None => Ok None
  | Some row => result_map Some (from_row row)
  end.

(** ** Calls *)

(** A call that answers, or accesses the store and goes on. *)
Inductive Call (A : Type) :=
| Answer (a : A)
| Step (access : Capsules → option (Capsules * Call A)).
Arguments Answer {A} _.
Arguments Step {A} _.

(** The call on its own, nothing in between; [fuel] bounds the accesses. *)
Fixpoint alone {A} (fuel : nat) (committed : Capsules) (call : Call A) : option (Capsules * A) :=
  match call with
  | Answer a => Some (committed, a)
  | Step access =>
      match fuel with
      | O => None
      | S fuel => '(committed, call) ← access committed; alone fuel committed call
      end
  end.

(** [port]: what a service sees of a storage error. *)
Definition storage_error_text (e : StorageError) : str :=
  match e with
  | SInvalid m => lit "invalid storage request: " ++ m
  | SConflict m => lit "storage conflict: " ++ m
  | SNotFound m => lit "not found: " ++ m
  | SUnsupported m => lit "unsupported by the storage provider: " ++ m
  | SUnavailable m => lit "storage unavailable: " ++ m
  end.
Definition port (e : StorageError) : PortError :=
  match e with
  | SConflict _ => PConflict
  | SNotFound _ => PNotFound
  | other => PFailed (storage_error_text other)
  end.

(** [hex]. *)
Definition hex (l : list byte) : str := hex_bytes l.

Definition MAX_CAS_ATTEMPTS : nat := 8.

Section auto.
Context `{Sha256Laws, Lowercase}.
Context (schema : list (str * Model)).

(** A transaction of the engine, apart from the store it finds at each access. *)
Notation MTrx := (@Trx (Capsules * MemoryTransaction)).
Definition at_store (committed : Capsules) (trx : MTrx) : MTrx := with_inner trx (committed, (tx_inner trx).2).
Definition opened (mode : Mode) : MTrx :=
  {| tx_inner := ([], begin mode); tx_mode := mode; tx_finished := false |}.

(** An operation of a transaction, in the store that it finds. *)
Definition reading {A B} (trx : MTrx) (operation : MTrx → StorageResult B) (k : StorageResult B → Call A) : Call A :=
  Step (λ committed, Some (committed, k (operation (at_store committed trx)))).
Definition writing {A B} (trx : MTrx) (operation : MTrx → option (StorageResult (B * MTrx)))
    (k : StorageResult (B * MTrx) → Call A) : Call A :=
  Step (λ committed, done ← operation (at_store committed trx); Some (committed, k done)).
Definition committing {A} (trx : MTrx) (k : StorageResult unit → Call A) : Call A :=
  Step (λ committed,
    let '(answer, trx) := @commit_ _ (memory_end schema) (at_store committed trx) in
    Some ((tx_inner trx).1, k answer)).

(** An operation of a transaction: it accesses the store and answers with the transaction after it. *)
Notation Operation A B := (MTrx → (StorageResult (B * MTrx) → Call A) → Call A).

(** [AutoCommit::run]: the transaction of an operation that fails is dropped. *)
Definition run {A B} (mode : Mode) (operation : Operation A B) (k : StorageResult B → Call A) : Call A :=
  operation (opened mode) (λ value,
    match value with
    | Err e => k (Err e)
    | Ok (v, trx) =>
        match mode with
        | ReadWrite => committing trx (λ answer, k (result_map (λ _, v) answer))
        | ReadOnly => k (Ok v)
        end
    end).

(** [AutoCommit::decide], with the [attempts] that are left. *)
Fixpoint decide_ {B} (attempts : nat) (operation : Operation (result B PortError) (result B PortError)) : Call (result B PortError) :=
  match attempts with
  | O => Answer (Err PConflict)
  | S attempts =>
      operation (opened ReadWrite) (λ done,
        match done with
        | Err (SConflict _) => decide_ attempts operation
        | Err e => Answer (Err (port e))
        | Ok (Err refusal, _) => Answer (Err refusal)
        | Ok (Ok v, trx) =>
            committing trx (λ answer,
              match answer with
              | Ok _ => Answer (Ok v)
              | Err (SConflict _) => decide_ attempts operation
              | Err e => Answer (Err (port e))
              end)
        end)
  end.

(** The typed operations that a service uses. *)
Definition typed {B C} (from_row : B → StorageResult C) (done : option (StorageResult (B * MTrx))) : option (StorageResult (C * MTrx)) :=
  (λ done, let? (row, trx) := done in let? value := from_row row in Ok (value, trx)) <$> done.
Definition find_typed {A B} (name : str) (from_row : Row → StorageResult B) (key : str) (trx : MTrx)
    (k : StorageResult (option B) → Call A) : Call A :=
  reading trx (λ trx, let? found := find_unique schema trx name (UKey key) in transpose from_row found) k.

(** ** Nonces *)

Definition nonce_key (key_id : str) (nonce : list byte) : str := key_id ++ lit "|" ++ hex nonce.

Definition record_nonce (now_micros : i64) (key_id : str) (nonce : list byte) (retain_until_millis now_millis : i64)
    : Call (result bool PortError) :=
  let key := nonce_key key_id nonce in
  run ReadWrite (λ trx answer,
    find_typed REPLAY_NONCE ReplayNonce_from_row key trx (λ found,
      match found with
      | Err e => answer (Err e)
      | Ok stored =>
          if is_some_and (λ stored, now_millis <? rn_retain_until_millis stored) stored then answer (Ok (false, trx))
          else
            writing trx (λ trx, typed ReplayNonce_from_row (upsert schema now_micros [] trx REPLAY_NONCE (UKey key)
                (ReplayNonce_data {| rn_key := key; rn_key_ref := key_id; rn_retain_until_millis := retain_until_millis |})
                [(lit "retain_until_millis", VInt retain_until_millis)]))
              (λ done, answer (let? (_, trx) := done in Ok (true, trx)))
      end))
    (λ recorded, Answer (match recorded with Err (SConflict _) => Ok false | Err e => Err (port e) | Ok b => Ok b end)).

(** [AutoCommit::purge_expired_nonces]; [pages] bounds the walks. *)
Definition purge_expired_nonces (pages : nat) (now_micros now_millis : i64) : Call (result u64 PortError) :=
  run ReadWrite (λ trx answer,
    writing trx (λ trx, delete_many schema pages now_micros trx REPLAY_NONCE
        (Some (Field (lit "retain_until_millis") (CLte (VInt now_millis))))) (λ done,
      match done with
      | Err e => answer (Err e)
      | Ok (nonces, trx) =>
          writing trx (λ trx, delete_many schema pages now_micros trx IDENTITY_CHALLENGE
              (Some (Field (lit "expires_at_millis") (CLte (VInt now_millis)))))
            (λ done, answer (let? (challenges, trx) := done in Ok (wrap_u64 (nonces + challenges), trx)))
      end))
    (λ purged, Answer (map_err port purged)).

(** ** Challenges *)

Definition issue (now_micros : i64) (nonce : list byte) (subject audience : str) (expires_at_millis : i64)
    : Call (result (list byte) PortError) :=
  run ReadWrite (λ trx, writing trx (λ trx, typed IdentityChallenge_from_row (create schema now_micros [] trx IDENTITY_CHALLENGE
      (IdentityChallenge_data {| ic_key := hex nonce; ic_subject := subject; ic_audience := audience;
                                 ic_expires_at_millis := expires_at_millis |}))))
    (λ created, Answer (map_err port (result_map (λ _, nonce) created))).

Definition consume (now_micros : i64) (nonce : list byte) (subject audience : str) (now_millis : i64)
    : Call (result bool PortError) :=
  let key := hex nonce in
  run ReadWrite (λ trx answer,
    find_typed IDENTITY_CHALLENGE IdentityChallenge_from_row key trx (λ found,
      match found with
      | Err e => answer (Err e)
      | Ok None => answer (Ok (false, trx))
      | Ok (Some challenge) =>
          if bool_decide (ic_subject challenge ≠ subject) || bool_decide (ic_audience challenge ≠ audience)
             || (ic_expires_at_millis challenge <=? now_millis)
          then answer (Ok (false, trx))
          else
            writing trx (λ trx, typed (transpose IdentityChallenge_from_row) (delete schema now_micros trx IDENTITY_CHALLENGE (UKey key)))
              (λ done, answer (let? (_, trx) := done in Ok (true, trx)))
      end))
    (λ consumed, Answer (map_err port consumed)).

(** ** Idempotency keys *)

Inductive PublicActionClaim := Claimed | InProgress | Completed (response : list byte) | Mismatch.

Definition claim_key (subject key : str) : str := subject ++ [31%N] ++ key.

(** The second half of [claim]: the claim that is there already. *)
Definition classify (digest : list byte) (stored : StorageResult PublicIdempotency) : result PublicActionClaim PortError :=
  let? stored := map_err port stored in
  if bool_decide (pi_digest stored ≠ digest) then Ok Mismatch
  else if pi_completed stored then Ok (Completed (default [] (pi_response stored)))
  else Ok InProgress.

(** [claim] after its create: an existing claim is classified, never claimed again. *)
Definition claim_done (record : str) (digest : list byte) (created : StorageResult PublicIdempotency) : Call (result PublicActionClaim PortError) :=
  match created with
  | Ok _ => Answer (Ok Claimed)
  | Err (SConflict _) =>
      run ReadOnly (λ trx answer,
        find_typed PUBLIC_IDEMPOTENCY PublicIdempotency_from_row record trx (λ found,
          answer (let? found := found in
                  let? stored := ok_or found (SNotFound (PUBLIC_IDEMPOTENCY ++ lit " " ++ record)) in
                  Ok (stored, trx))))
        (λ stored, Answer (classify digest stored))
  | Err e => Answer (Err (port e))
  end.

Definition claim (now_micros now_millis : i64) (subject key : str) (digest : list byte) : Call (result PublicActionClaim PortError) :=
  let record := claim_key subject key in
  run ReadWrite (λ trx, writing trx (λ trx, typed PublicIdempotency_from_row (create schema now_micros [] trx PUBLIC_IDEMPOTENCY
      (PublicIdempotency_data {| pi_key := record; pi_subject := subject; pi_request_key := key; pi_digest := digest;
                                 pi_claimed_at_millis := now_millis; pi_response := None; pi_completed := false |}))))
    (claim_done record digest).

Definition complete (now_micros : i64) (subject key : str) (response : list byte) : Call (result unit PortError) :=
  run ReadWrite (λ trx, writing trx (λ trx, typed (transpose PublicIdempotency_from_row)
      (update schema now_micros trx PUBLIC_IDEMPOTENCY (UKey (claim_key subject key))
        (jinsert (lit "completed") (VBool true) (jinsert (lit "response") (VBytes response) [])))))
    (λ updated, Answer (let? updated := map_err port updated in let? _ := ok_or updated PNotFound in Ok tt)).

Definition release (now_micros : i64) (subject key : str) : Call (result unit PortError) :=
  run ReadWrite (λ trx answer,
    find_typed PUBLIC_IDEMPOTENCY PublicIdempotency_from_row (claim_key subject key) trx (λ found,
      match found with
      | Err e => answer (Err e)
      | Ok found =>
          if is_some_and (λ claim, negb (pi_completed claim)) found then
            writing trx (λ trx, typed (transpose PublicIdempotency_from_row)
                (delete schema now_micros trx PUBLIC_IDEMPOTENCY (UKey (claim_key subject key))))
              (λ done, answer (let? (_, trx) := done in Ok (tt, trx)))
          else answer (Ok (tt, trx))
      end))
    (λ released, Answer (map_err port released)).

End auto.

(** ** Calls together *)

(** Calls take turns: [turns] says whose access is next. *)
Fixpoint interleave {A} (turns : list nat) (committed : Capsules) (calls : list (Call A)) : option (Capsules * list (Call A)) :=
  match turns with
  | [] => Some (committed, calls)
  | i :: turns =>
      call ← calls !! i;
      match call with
      | Answer _ => interleave turns committed calls
      | Step access => '(committed, call) ← access committed; interleave turns committed (<[i := call]> calls)
      end
  end.

(** ** The catalog's entries of the three kinds ([contracts/capsule/kinds/]) *)

Definition keyed (name family : str) (fields : list (str * FieldType)) (required : list str) (range : list (list str)) : Model := {|
  m_name := name; m_storage_class := lit "core"; m_owner_scope := ScopeGlobal; m_owner := None; m_key_family := Some family;
  m_fields := fields; m_required := required; m_unique := [[lit "key"]]; m_range_indexes := range; m_relations := [];
  m_append_only := false |}.

Definition replay_nonce : Model := keyed REPLAY_NONCE (lit "ReplayNonce")
  [(lit "key", FText); (lit "key_ref", FText); (lit "retain_until_millis", FInteger)]
  [lit "key"; lit "key_ref"; lit "retain_until_millis"] [[lit "retain_until_millis"]].
Definition identity_challenge : Model := keyed IDENTITY_CHALLENGE (lit "IdentityChallenge")
  [(lit "audience", FText); (lit "expires_at_millis", FInteger); (lit "key", FText); (lit "subject", FText)]
  [lit "audience"; lit "expires_at_millis"; lit "key"; lit "subject"] [[lit "expires_at_millis"]].
Definition public_idempotency : Model := keyed PUBLIC_IDEMPOTENCY (lit "PublicIdempotency")
  [(lit "claimed_at_millis", FInteger); (lit "completed", FBool); (lit "digest", FBytes); (lit "key", FText);
   (lit "request_key", FText); (lit "response", FBytes); (lit "subject", FText)]
  [lit "claimed_at_millis"; lit "completed"; lit "digest"; lit "key"; lit "request_key"; lit "subject"] [].
(** ** A recorded nonce is refused until it expires *)

Section nonces.
Context `{Sha256Laws, Lowercase}.
Context (schema : list (str * Model)) (Hnonce : jget REPLAY_NONCE schema = Some replay_nonce).

(** A field that [encode] is given is the one that [decode] answers. *)
Lemma encoded_int model id previous now data c k z :
  ordered data → jget k data = Some (VInt z) → jget k (m_fields model) = Some FInteger → m_relations model = [] →
  encode model id previous now data = Some (Ok c) → row_get (decode model c) k = VInt z.
Proof.
  intros Ho Hk Hf Hrel He. unfold encode in He. destruct (encode_members model data [] []) as [[body rels]|] eqn:Em; [|done].
  destruct (storage_class model); [|done]. apply seal_for_inv in He as (_ & -> & _).
  pose proof (encode_members_body _ _ [] _ _ _ k (ordered_NoDup _ Ho) (λ _ _, eq_refl) Em) as Hb.
  assert (ordered body) as Hob by (eapply encode_members_ordered; [|exact Em]; constructor).
  unfold row_get, decode. cbn [with_integrity ce_body ce_relationships row_data].
  assert (∀ d l, decode_relations model d l = d) as -> by (intros d l; revert d; unfold decode_relations; rewrite Hrel; induction l; cbn; auto).
  rewrite decode_fields_get, Hb, Hk, Hf by by apply ordered_NoDup. unfold stored_field. by rewrite Hrel.
Qed.

Notation nonce_id key := (for_key (lit "ReplayNonce") key).

(** What a first write buffers. *)
Lemma encode_put s trx model id previous now data expected c trx' :
  tx_inner trx = (s, begin ReadWrite) →
  seal_and_put trx model (encode model id previous now data) expected = Some (Ok (c, trx')) →
  encode model id previous now data = Some (Ok c) ∧ ce_id c = id ∧ ce_tombstone c = false ∧ tx_finished trx' = tx_finished trx
  ∧ mt_writes (tx_inner trx').2 = [{| wr_kind := m_name model; wr_capsule := c; wr_expected := expected |}].
Proof.
  intros Hi. unfold seal_and_put. destruct (encode model id previous now data) as [[c1|]|] eqn:He; [|done..]. cbn [mbind option_bind].
  destruct (t_put _ _ _ _) as [[inner|]|] eqn:Hp; [|done..]. intros [= -> <-]. split; [done|].
  rewrite Hi in Hp. cbn [t_put memory_transaction fst snd] in Hp.
  destruct (put _ _ _ _ _) as [[self|]|] eqn:Hput; [|done..]. cbn in Hp. injection Hp as <-.
  apply put_inv in Hput as (_ & _ & ->). unfold encode in He.
  destruct (encode_members model data [] []) as [[body rels]|]; [|done].
  destruct (storage_class model); [|done]. apply seal_for_inv in He as (_ & -> & _). done.
Qed.

(** The transaction buffers one write, of a live nonce with this key and retention, which is [row]. *)
Definition buffers (key : str) (retain : i64) (trx : @Trx (Capsules * MemoryTransaction)) (row : Row) : Prop :=
  ∃ w, mt_writes (tx_inner trx).2 = [w] ∧ wr_kind w = REPLAY_NONCE ∧ ce_id (wr_capsule w) = nonce_id key
    ∧ ce_tombstone (wr_capsule w) = false ∧ row = decode replay_nonce (wr_capsule w)
    ∧ row_get row (lit "retain_until_millis") = VInt retain.

Lemma encode_buffers s trx previous now data expected c trx' key retain :
  tx_inner trx = (s, begin ReadWrite) → ordered data → jget (lit "retain_until_millis") data = Some (VInt retain) →
  seal_and_put trx replay_nonce (encode replay_nonce (nonce_id key) previous now data) expected = Some (Ok (c, trx')) →
  tx_finished trx' = tx_finished trx ∧ buffers key retain trx' (decode replay_nonce c).
Proof.
  intros Hi Ho Hk Hp. apply (encode_put s) in Hp as (He & Hid & Ht & Hf & Hw); [|done].
  split; [done|]. eexists. split; [exact Hw|]. repeat (split; [done|]). by eapply encoded_int.
Qed.

Notation nonce_data key key_ref retain :=
  (ReplayNonce_data {| rn_key := key; rn_key_ref := key_ref; rn_retain_until_millis := retain |}).

Lemma create_nonce s trx now key key_ref retain row trx' :
  tx_inner trx = (s, begin ReadWrite) →
  create schema now [] trx REPLAY_NONCE (nonce_data key key_ref retain) = Some (Ok (row, trx')) →
  tx_finished trx' = tx_finished trx ∧ buffers key retain trx' row.
Proof.
  intros Hi. unfold create, model_of. rewrite Hnonce. cbn [ok_or]. destruct (writable trx replay_nonce); [|done].
  destruct (validate _ _ true); [|done]. change (m_key_family replay_nonce) with (Some (lit "ReplayNonce")).
  change (jget (lit "key") (nonce_data key key_ref retain)) with (Some (VText key)). cbn [mbind option_bind value_as_text ok_or].
  destruct (t_get _ _ _) as [previous|]; [|done]. destruct (is_some_and _ _); [done|].
  destruct (seal_and_put _ _ _ _) as [[[c trx1]|]|] eqn:Hp; [|done..]. cbn [mbind option_bind]. intros [= <- <-].
  eapply encode_buffers; [done| | |exact Hp]; [|done]. repeat apply jinsert_ordered. constructor.
Qed.

Lemma rewrite_nonce s trx now key retain p row trx' :
  tx_inner trx = (s, begin ReadWrite) → ce_id p = nonce_id key →
  rewrite schema now trx REPLAY_NONCE (decode replay_nonce p) [(lit "retain_until_millis", VInt retain)] = Some (Ok (row, trx')) →
  tx_finished trx' = tx_finished trx ∧ buffers key retain trx' row.
Proof.
  intros Hi Hid. unfold rewrite, model_of. rewrite Hnonce. cbn [ok_or]. destruct (writable trx replay_nonce); [|done].
  change (m_append_only replay_nonce) with false. cbn iota. destruct (validate _ _ false); [|done].
  change (jget (lit "key") [(lit "retain_until_millis", VInt retain)]) with (@None Value). cbn iota.
  destruct (validate _ _ true); [|done]. destruct (t_get _ _ _) as [previous|]; [|done]. destruct previous as [previous|]; [|done].
  cbn [ok_or]. change (row_id (decode replay_nonce p)) with (ce_id p). rewrite Hid.
  destruct (seal_and_put _ _ _ _) as [[[c trx1]|]|] eqn:Hp; [|done..]. cbn [mbind option_bind]. intros [= <- <-].
  eapply encode_buffers; [done| | |exact Hp]; unfold merge_data; cbn [foldl is_null].
  - apply jinsert_ordered. unfold decode. cbn [row_data]. apply decode_relations_ordered.
    destruct (ce_body p) as [[]|]; try constructor. apply decode_fields_ordered.
  - by rewrite jget_jinsert, bool_decide_eq_true_2.
Qed.

(** The upsert of a nonce creates it or moves its retention. *)
Lemma upsert_nonce s trx now key key_ref retain row trx' :
  store_ok s → tx_inner trx = (s, begin ReadWrite) →
  upsert schema now [] trx REPLAY_NONCE (UKey key) (nonce_data key key_ref retain)
    [(lit "retain_until_millis", VInt retain)] = Some (Ok (row, trx')) →
  tx_finished trx' = tx_finished trx ∧ buffers key retain trx' row.
Proof.
  intros Hs Hi. unfold upsert. destruct (find_unique schema trx REPLAY_NONCE (UKey key)) as [[current|]|] eqn:Hf; [| |done].
  - unfold find_unique, model_of in Hf. rewrite Hnonce in Hf. cbn [ok_or direct_id] in Hf. unfold live in Hf. rewrite Hi in Hf.
    cbn [t_get memory_transaction fst snd m_key_family replay_nonce keyed ok_or] in Hf.
    destruct (get s (begin ReadWrite) replay_nonce (nonce_id key)) as [p|] eqn:Hg; [|done].
    destruct (ce_tombstone p); [done|]. apply Ok_inj in Hf as [= <-]. apply (rewrite_nonce s); [done|].
    destruct Hs as [_ Ht]. destruct (Ht REPLAY_NONCE) as [Ho Hin]. unfold get, view in Hg. cbn [mt_writes begin foldl] in Hg.
    apply jget_elem in Hg; [|done]. by apply Hin in Hg as [? _].
  - change (or_insert (lit "key") (VText key) (nonce_data key key_ref retain)) with (nonce_data key key_ref retain). by apply (create_nonce s).
Qed.

(** What [find_unique] answers of a nonce in a store. *)
Definition stored_nonce (s : Capsules) (key : str) : StorageResult (option ReplayNonce) :=
  match lookup2 REPLAY_NONCE (nonce_id key) s with
  | Some c => if ce_tombstone c then Ok None else result_map Some (ReplayNonce_from_row (decode replay_nonce c))
  | None => Ok None
  end.
Lemma find_nonce s key mode :
  (let? found := find_unique schema (at_store s (opened mode)) REPLAY_NONCE (UKey key) in transpose ReplayNonce_from_row found)
  = stored_nonce s key.
Proof.
  unfold find_unique, model_of, stored_nonce. rewrite Hnonce. cbn [ok_or direct_id m_key_family replay_nonce keyed]. unfold live.
  cbn [t_get memory_transaction at_store opened with_inner tx_inner fst snd]. unfold get, view. cbn [mt_writes begin foldl m_name replay_nonce keyed].
  fold (lookup2 REPLAY_NONCE (nonce_id key) s). destruct (lookup2 _ _ s) as [c|]; [|done]. by destruct (ce_tombstone c).
Qed.

(** A transaction without writes commits in a store whose unique indexes hold. *)
Lemma commit_nothing s : NoDup (store_claims schema s) → commit schema s (begin ReadWrite) = (Ok tt, s, begin ReadWrite).
Proof. intros Hnd. unfold commit. cbn. by rewrite (proj2 (no_repeat_NoDup _) Hnd). Qed.

(** A nonce is accepted once until it expires.  A call that accepts a nonce found no record of it
    that is still retained, and leaves one; and every later call with that nonce, at a time before
    the retention that the first one asked for, refuses it and changes nothing, whatever other calls
    did in between, as long as they left the record of the nonce alone. *)
Theorem recorded_nonce_refused s s' now_micros key_id nonce retain now :
  store_ok s → alone 3 s (record_nonce schema now_micros key_id nonce retain now) = Some (s', Ok true) →
  (∀ stored, stored_nonce s (nonce_key key_id nonce) = Ok (Some stored) → rn_retain_until_millis stored ≤ now)
  ∧ ∀ s'' now_micros' retain' now', now' < retain →
      lookup2 REPLAY_NONCE (nonce_id (nonce_key key_id nonce)) s'' = lookup2 REPLAY_NONCE (nonce_id (nonce_key key_id nonce)) s' →
      NoDup (store_claims schema s'') →
      alone 3 s'' (record_nonce schema now_micros' key_id nonce retain' now') = Some (s'', Ok false).
Proof.
  intros Hs. unfold record_nonce, run, find_typed, reading, writing, committing. cbn [alone mbind option_bind]. rewrite find_nonce. set (key := nonce_key key_id nonce) in *.
  destruct (stored_nonce s key) as [stored|e] eqn:Est; [|by destruct e]. destruct (is_some_and _ stored) eqn:Hlive.
  { cbn [alone mbind option_bind]. destruct (@commit_ _ (memory_end schema) _) as [[[]|e] trx]; cbn; [done|]. by destruct e. }
  cbn [alone mbind option_bind]. destruct (upsert _ _ _ _ _ _ _ _) as [[[row trx]|e]|] eqn:Hu; [| |done]; cbn [typed fmap option_fmap option_map mbind option_bind]; [|by destruct e].
  apply (upsert_nonce s) in Hu as (Hf & w & Hw & Hk & Hid & Ht & -> & Hret); [|done|done].
  destruct (ReplayNonce_from_row (decode replay_nonce (wr_capsule w))) as [rn|e] eqn:Hrn; [|by destruct e].
  cbn [alone mbind option_bind]. unfold commit_. cbn [at_store with_inner tx_finished tx_inner t_commit memory_end fst snd] in *. rewrite Hf.
  destruct (commit schema s (tx_inner trx).2) as [[r s1] t1] eqn:Hcom. apply commit_inv in Hcom as [_ [(-> & _ & -> & _)|(m & -> & _)]]; [|done].
  cbn [finish tx_inner fst result_map alone]. intros [= <-]. rewrite Hw. split.
  - intros rn' [= ->]. cbn in Hlive. by apply Z.ltb_ge in Hlive.
  - intros s'' nm' retain' now' Hlt Hsame Hnd. cbn [apply_writes foldl] in Hsame. rewrite lookup2_insert2, Hk, Hid, decide_True in Hsame by done.
    rewrite find_nonce. unfold stored_nonce at 1. rewrite Hsame, Ht, Hrn. cbn [result_map is_some_and].
    assert (rn_retain_until_millis rn = retain) as ->.
    { unfold ReplayNonce_from_row, required in Hrn. rewrite Hret in Hrn. destruct (ok_or _ _); [|done]. destruct (ok_or _ _); [|done]. by apply Ok_inj in Hrn as <-. }
    rewrite (proj2 (Z.ltb_lt _ _) Hlt). cbn [alone mbind option_bind]. unfold commit_.
    cbn [at_store opened with_inner tx_finished tx_inner t_commit memory_end fst snd]. by rewrite commit_nothing.
Qed.

End nonces.

(** ** Claims exclude each other *)

Section claims.
Context `{Sha256Laws, Lowercase}.
Context (schema : list (str * Model)) (model : Model) (family : str).
Context (Hmodel : jget PUBLIC_IDEMPOTENCY schema = Some model).
Context (Hname : m_name model = PUBLIC_IDEMPOTENCY) (Hfamily : m_key_family model = Some family).
Context (subject key : str).

Notation id := (for_key family (claim_key subject key)).
Notation ClaimCall := (Call (result PublicActionClaim PortError)).

(** The key is claimed in the store. *)
Definition live_claim (s : Capsules) : Prop := ∃ c, lookup2 PUBLIC_IDEMPOTENCY id s = Some c ∧ ce_tombstone c = false.
(** A transaction that does not delete the claim. *)
Definition spares (t : MemoryTransaction) : Prop :=
  Forall (λ w, wr_kind w = PUBLIC_IDEMPOTENCY → ce_id (wr_capsule w) = id → ce_tombstone (wr_capsule w) = false) (mt_writes t).

(** Claims of the key, and any other transactions that do not delete it, step by step. *)
Inductive service_step : relation (Capsules * gmap nat MemoryTransaction * list ClaimCall) :=
| service_call s ts calls i access s' c' :
    calls !! i = Some (Step access) → access s = Some (s', c') →
    service_step (s, ts, calls) (s', ts, <[i := c']> calls)
| service_other s ts calls s' ts' :
    store_step schema (s, ts) (s', ts') → (∀ i t, ts' !! i = Some t → spares t) →
    service_step (s, ts, calls) (s', ts', calls).

(** A call that will not answer [Claimed], and where a call of [claim] can be. *)
Inductive refused : ClaimCall → Prop :=
| refused_answer a : a ≠ Ok Claimed → refused (Answer a)
| refused_look {B} trx (operation : _ → StorageResult B) k : (∀ r, refused (k r)) → refused (reading trx operation k).
Inductive claim_at (s : Capsules) : ClaimCall → Prop :=
| at_start now_micros now_millis digest : claim_at s (claim schema now_micros now_millis subject key digest)
| at_commit trx w k :
    tx_finished trx = false → mt_writes (tx_inner trx).2 = [w] → continues w →
    wr_kind w = PUBLIC_IDEMPOTENCY → ce_id (wr_capsule w) = id → ce_tombstone (wr_capsule w) = false →
    default 0 (wr_expected w) ≤ rank s PUBLIC_IDEMPOTENCY id →
    (default 0 (wr_expected w) = rank s PUBLIC_IDEMPOTENCY id → ¬ live_claim s) →
    (∀ e, refused (k (Err e))) → k (Ok tt) = Answer (Ok Claimed) →
    claim_at s (committing schema trx k)
| at_end c : refused c → claim_at s c
| at_claimed : live_claim s → claim_at s (Answer (Ok Claimed)).

(** What the others do to a call: nothing, as long as the record only moves on. *)
Lemma claim_at_mono s s' c :
  rank s PUBLIC_IDEMPOTENCY id ≤ rank s' PUBLIC_IDEMPOTENCY id →
  (rank s PUBLIC_IDEMPOTENCY id = rank s' PUBLIC_IDEMPOTENCY id → lookup2 PUBLIC_IDEMPOTENCY id s' = lookup2 PUBLIC_IDEMPOTENCY id s) →
  (live_claim s → live_claim s') → claim_at s c → claim_at s' c.
Proof.
  intros Hr Hl Hlive Hc. destruct Hc as [|trx w k Hf Hw Hcont Hk Hid Ht Hle Hno He Ho| |].
  - constructor.
  - eapply at_commit; try done; [lia|]. intros E (c & Hc & Hct). rewrite Hl in Hc by lia. apply Hno; [lia|]. by exists c.
  - by apply at_end.
  - apply at_claimed. auto.
Qed.

Lemma classify_refused digest stored : classify digest stored ≠ Ok Claimed.
Proof. unfold classify. destruct stored as [p|e]; cbn; [|by destruct e]. case_bool_decide; [done|]. by destruct (pi_completed p). Qed.
Lemma claim_refused record digest e : refused (claim_done schema record digest (Err e)).
Proof.
  destruct e; try by apply refused_answer. cbn [claim_done]. unfold run, find_typed. apply refused_look. intros r.
  destruct (let? found := r in _) as [[v trx]|e]; apply refused_answer, classify_refused.
Qed.

(** What [create] buffers when it succeeds at a key that the store [s] holds. *)
Lemma create_claim s trx data row trx' now key_ :
  store_ok s → jget (lit "key") data = Some (VText key_) → tx_inner trx = (s, begin ReadWrite) →
  create schema now [] trx PUBLIC_IDEMPOTENCY data = Some (Ok (row, trx')) →
  tx_finished trx' = tx_finished trx ∧
  ∃ w, mt_writes (tx_inner trx').2 = [w] ∧ continues w ∧ wr_kind w = PUBLIC_IDEMPOTENCY
    ∧ ce_id (wr_capsule w) = for_key family key_ ∧ ce_tombstone (wr_capsule w) = false
    ∧ wr_expected w = rev_of s PUBLIC_IDEMPOTENCY (for_key family key_)
    ∧ ∀ c, lookup2 PUBLIC_IDEMPOTENCY (for_key family key_) s = Some c → ce_tombstone c = true.
Proof.
  intros Hs Hk Hi. unfold create, model_of. rewrite Hmodel. cbn [ok_or]. destruct (writable trx model); [|done].
  destruct (validate model data true); [|done]. rewrite Hfamily, Hk. cbn [mbind option_bind value_as_text ok_or].
  rewrite Hi. cbn [t_get memory_transaction fst snd]. unfold get, view. cbn [mt_writes begin foldl]. rewrite Hname.
  fold (lookup2 PUBLIC_IDEMPOTENCY (for_key family key_) s).
  destruct (is_some_and _ _) eqn:Hlive; [done|]. unfold seal_and_put.
  destruct (encode _ _ _ _ _) as [[c|]|] eqn:He; [|done..]. cbn [mbind option_bind].
  destruct (t_put _ _ _ _) as [[inner|]|] eqn:Hp; [|done..]. intros [= <- <-]. split; [done|].
  rewrite Hi in Hp. cbn [t_put memory_transaction fst snd] in Hp.
  destruct (put _ _ _ _ _) as [[self|]|] eqn:Hput; [|done..]. cbn in Hp. injection Hp as <-.
  apply put_inv in Hput as (Hv & Hexp & ->). cbn [tx_inner with_inner snd mt_writes begin app].
  unfold encode in He. destruct (encode_members model data [] []) as [[body rels]|]; [|done].
  destruct (storage_class model); [|done]. apply seal_for_inv in He as (_ & Hc & _).
  set (previous := lookup2 PUBLIC_IDEMPOTENCY (for_key family key_) s) in *.
  assert (ce_id c = for_key family key_ ∧ ce_tombstone c = false
    ∧ ce_revision c = match previous with Some p => wrap_u64 (ce_revision p + 1) | None => 1 end) as (Hid & Ht & Hr) by (rewrite Hc; done).
  eexists. split; [done|]. cbn [wr_kind wr_capsule wr_expected]. split; [|split; [done|]; split; [done|]; split; [done|]; split; [done|]].
  - assert (match previous with Some p => wrap_u64 (ce_revision p + 1) = ce_revision p + 1 ∧ in_u64 (ce_revision p + 1) | None => True end) as Hn.
    { subst previous. destruct (lookup2 _ _ s) as [p|] eqn:El; [|done]. destruct Hs as [_ Ht']. destruct (Ht' PUBLIC_IDEMPOTENCY) as [Ho Hin].
      apply jget_elem in El; [|done]. destruct (Hin _ _ El) as [_ [Hvp Hu]]. apply verified_i64 in Hvp. split; [apply wrap_u64_id|]; ilia. }
    split; [split; [done|]|]; cbn [wr_capsule wr_expected]; rewrite Hr; destruct previous; cbn; [by destruct Hn as [-> ?]|done|by destruct Hn as [-> ?]|done].
  - intros p Hpre. rewrite Hpre in Hlive. cbn in Hlive. by destruct (ce_tombstone p).
Qed.

Lemma refused_step access s s' c' : refused (Step access) → access s = Some (s', c') → s' = s ∧ refused c'.
Proof.
  remember (Step access) as c eqn:E. intros Hr. destruct Hr as [|B trx operation k Hk]; [done|].
  injection E as <-. intros [= <- <-]. by split.
Qed.

Lemma refused_ne c : refused c → c ≠ Answer (Ok Claimed).
Proof. intros R ->. by inversion R. Qed.

(** One access of a claim: it leaves the store alone, or its commit makes the key claimed. *)
Lemma claim_step s access s' c' :
  store_ok s → claim_at s (Step access) → access s = Some (s', c') →
  (s' = s ∧ claim_at s c' ∧ c' ≠ Answer (Ok Claimed))
  ∨ (¬ live_claim s ∧ live_claim s' ∧ c' = Answer (Ok Claimed)
     ∧ ∃ w, continues w ∧ in_turn s [w] ∧ s' = apply_writes s [w] ∧ NoDup (store_claims schema s')).
Proof.
  intros Hs Hc Ha. remember (Step access) as c eqn:E. destruct Hc as [now_micros now_millis digest|trx w k Hf Hw Hcont Hk Hid Ht Hle Hno He Ho|c Hr|]; [| | |done].
  - left. injection E as <-. destruct (create _ _ _ _ _ _) as [[[row trx]|e]|] eqn:Hcr; [| |done]; cbn in Ha; injection Ha as <- <-.
    + apply (create_claim s _ _ _ _ _ (claim_key subject key)) in Hcr as (Hf & w & Hw & Hcont & Hk & Hid & Ht & Hexp & Hold); [|done|by vm_compute|done].
      split; [done|]. destruct (PublicIdempotency_from_row row) as [v|e]; cbn.
      * split; [|done]. eapply at_commit; [done|done|done|done|done|done| | | |]; [| |intros e; apply claim_refused|done]; rewrite Hexp; unfold rank; [done|].
        intros _ (c & Hc & Hct). by rewrite (Hold c Hc) in Hct.
      * split; [apply at_end|apply refused_ne]; apply claim_refused.
    + split; [done|]. split; [apply at_end|apply refused_ne]; apply claim_refused.
  - injection E as <-. unfold commit_ in Ha. cbn [at_store with_inner tx_finished tx_inner t_commit memory_end fst snd] in Ha. rewrite Hf in Ha.
    destruct (commit schema s (tx_inner trx).2) as [[r s1] t1] eqn:Hcom. cbn in Ha. injection Ha as <- <-.
    apply commit_inv in Hcom as [_ [(-> & Hin & -> & Hnd)|(m & -> & -> & _)]].
    + right. rewrite Hw in *. pose proof Hin as [Hrev _]. rewrite Hk, Hid in Hrev.
      split; [apply Hno; unfold rank; by rewrite Hrev|]. split; [|split; [done|]; exists w; done].
      exists (wr_capsule w). split; [|done]. cbn [apply_writes foldl]. rewrite lookup2_insert2. by rewrite Hk, Hid, decide_True.
    + left. split; [done|]. split; [apply at_end|apply refused_ne]; apply He.
  - subst c. apply (refused_step _ s s' c' Hr) in Ha as [-> Hr']. left. split; [done|]. by split; [apply at_end|apply refused_ne].
Qed.

Lemma spares_live s t : spares t → live_claim s → live_claim (apply_writes s (mt_writes t)).
Proof.
  unfold spares. generalize (mt_writes t). intros ws Hws. revert s.
  induction Hws as [|w ws Hw _ IH]; intros s Hl; cbn [apply_writes foldl]; [done|]. apply IH.
  destruct Hl as (c & Hc & Ht). unfold live_claim. rewrite lookup2_insert2. case_decide as Hd; [|by exists c].
  destruct Hd as [Hk Hi]. exists (wr_capsule w). split; [done|]. by apply Hw.
Qed.
Lemma store_step_live s ts s' ts' :
  store_step schema (s, ts) (s', ts') → (∀ i t, ts !! i = Some t → spares t) → live_claim s → live_claim s'.
Proof.
  intros Hstep Hsp Hl. inversion Hstep as [| |? ? i t r ? t' Hi Hc|]; subst; try done.
  apply commit_inv in Hc as [_ [(_ & _ & -> & _)|(m & _ & -> & _)]]; [|done]. apply spares_live; [by apply (Hsp i)|done].
Qed.

Record service_inv (s : Capsules) (ts : gmap nat MemoryTransaction) (calls : list ClaimCall) : Prop := {
  si_store : store_inv schema (s, ts);
  si_spares : ∀ i t, ts !! i = Some t → spares t;
  si_calls : ∀ i c, calls !! i = Some c → claim_at s c;
  si_once : ∀ i j, calls !! i = Some (Answer (Ok Claimed)) → calls !! j = Some (Answer (Ok Claimed)) → i = j;
}.

Lemma claimed_live s ts calls i : service_inv s ts calls → calls !! i = Some (Answer (Ok Claimed)) → live_claim s.
Proof.
  intros I Hi. apply (si_calls _ _ _ I) in Hi. remember (Answer (Ok Claimed)) as c eqn:E. destruct Hi as [| |c Hr|Hl]; [done|done| |done].
  subst c. by inversion Hr.
Qed.

Lemma service_call_inv s ts calls i access s' c' :
  service_inv s ts calls → calls !! i = Some (Step access) → access s = Some (s', c') → service_inv s' ts (<[i := c']> calls).
Proof.
  intros I Hi Ha. pose proof I as [Hst Hsp Hcalls Honce]. pose proof Hst as (Hs & _ & Hts). cbn [fst snd] in Hs, Hts.
  destruct (claim_step _ _ _ _ Hs (Hcalls _ _ Hi) Ha) as [(-> & Hc' & Hne)|(Hno & Hl & -> & w & Hcont & Hin & -> & Hnd)].
  - constructor; [done|done| |].
    + intros j c [(<- & <- & _)|[_ Hj]]%list_lookup_insert_Some; [done|]. by apply (Hcalls j).
    + intros j k [(<- & Hj & _)|[_ Hj]]%list_lookup_insert_Some [(<- & Hk & _)|[_ Hk]]%list_lookup_insert_Some; [done|done|done|].
      by apply Honce.
  - assert (Forall continues [w]) as Hall by by apply Forall_singleton.
    assert (store_ok (apply_writes s [w])) as Hs' by (apply store_ok_apply; [by apply continues_ok|done]).
    destruct (in_turn_rank s [w] PUBLIC_IDEMPOTENCY id Hall Hin) as [R1 R2].
    constructor; [split; [done|]; split; [by apply NoDup_unique_ok|done]|done| |].
    + intros j c [(<- & <- & _)|[_ Hj]]%list_lookup_insert_Some; [by apply at_claimed|].
      eapply claim_at_mono; [done|done| |by apply (Hcalls j)]. done.
    + assert (∀ j, calls !! j ≠ Some (Answer (Ok Claimed))) as Hnone by (intros j Hj; by apply Hno, (claimed_live _ _ _ _ I Hj)).
      intros j k [(<- & _ & _)|[_ Hj]]%list_lookup_insert_Some [(<- & _ & _)|[_ Hk]]%list_lookup_insert_Some; [done|..]; exfalso; by eapply Hnone.
Qed.

Lemma service_step_inv x y : service_step x y → service_inv x.1.1 x.1.2 x.2 → service_inv y.1.1 y.1.2 y.2.
Proof.
  intros Hstep. destruct Hstep as [s ts calls i access s' c' Hi Ha|s ts calls s' ts' Hstep Hsp]; cbn [fst snd]; intros I.
  - by eapply service_call_inv.
  - destruct (store_step_rank schema _ _ PUBLIC_IDEMPOTENCY id (si_store _ _ _ I) Hstep) as [R1 R2]. cbn [fst] in R1, R2.
    constructor; [by eapply store_step_inv; [apply I|]|done| |apply I].
    intros i c Hi. eapply claim_at_mono; [done|done| |by eapply si_calls]. eapply store_step_live; [done|apply I].
Qed.

Lemma service_rtc_inv x y : rtc service_step x y → service_inv x.1.1 x.1.2 x.2 → service_inv y.1.1 y.1.2 y.2.
Proof. intros Hrun. induction Hrun as [x|x z y Hxz _ IH]; [done|]. intros I. by apply IH, (service_step_inv x). Qed.

(** C21. At most one claim of an idempotency key wins.  However the calls that claim one key of one
    subject interleave with each other and with any other transactions on the store, as long as
    nobody deletes the claim, at most one of them answers that the caller owns the key: the others
    see the claim when they create, or their commit conflicts. *)
Theorem claims_exclude s0 ts0 calls0 s ts calls :
  rtc (store_step schema) ([], ∅) (s0, ts0) → (∀ i t, ts0 !! i = Some t → spares t) →
  Forall (λ c, ∃ now_micros now_millis digest, c = claim schema now_micros now_millis subject key digest) calls0 →
  rtc service_step (s0, ts0, calls0) (s, ts, calls) →
  ∀ i j, calls !! i = Some (Answer (Ok Claimed)) → calls !! j = Some (Answer (Ok Claimed)) → i = j.
Proof.
  intros Hr Hsp Hcalls Hrun. destruct (store_rtc_rank _ _ _ [] [] (empty_inv schema) Hr) as (Hinv & _ & _).
  assert (service_inv s0 ts0 calls0) as I0.
  { rewrite Forall_forall in Hcalls. constructor; [done|done| |].
    - intros i c Hi%list_elem_of_lookup_2. destruct (Hcalls c Hi) as (m & n & d & ->). constructor.
    - intros i j Hi%list_elem_of_lookup_2. by destruct (Hcalls _ Hi) as (m & n & d & ?). }
  apply (si_once _ _ _ (service_rtc_inv _ _ Hrun I0)).
Qed.

End claims.

(** The catalog's entries of the three kinds ([contracts/capsule/kinds/]). *)
Module Kinds.
Export Notes.

Definition kinds : list (str * Model) :=
  [(IDENTITY_CHALLENGE, identity_challenge); (PUBLIC_IDEMPOTENCY, public_idempotency); (REPLAY_NONCE, replay_nonce)].

Example kinds_valid : Forall (λ kv, model_validate kv.2 = Ok tt) kinds.
Proof. vm_compute. repeat constructor. Qed.

(** What a sequence of calls answers, each on its own. *)
Definition nonce_at (retain_until now : i64) := record_nonce kinds 5 (lit "k") [1%N] retain_until now.
Definition challenge : list byte := repeat 7%N 32.
Definition consuming (audience : str) := consume kinds 5 challenge (lit "user:1") audience 0.
Definition claiming (digest : byte) := claim kinds 5 5 (lit "s") (lit "k") (repeat digest 32).

Definition answers {A} (calls : list (Call A)) (committed : Capsules) : option (Capsules * list A) :=
  foldl (λ acc call, '(committed, l) ← acc; '(committed, a) ← alone 4 committed call; Some (committed, l ++ [a]))
    (Some (committed, [])) calls.
Definition after {A} (r : option (Capsules * A)) : Capsules := match r with Some (s, _) => s | None => [] end.

(** The service's own test, call by call: a nonce is used again only once it expired. *)
Example nonces_on_their_own :
  snd <$> answers [nonce_at 100 10; nonce_at 100 50; nonce_at 300 150] [] = Some [Ok true; Ok false; Ok true].
Proof. vm_compute. reflexivity. Qed.
Definition issued : Capsules := after (alone 4 [] (issue kinds 5 challenge (lit "user:1") (lit "aud") i64_max)).
Example challenges_on_their_own :
  snd <$> answers [consuming (lit "other"); consuming (lit "aud"); consuming (lit "aud")] issued = Some [Ok false; Ok true; Ok false].
Proof. vm_compute. reflexivity. Qed.
Definition claimed : Capsules := after (alone 4 [] (claiming 7)).
Definition completed : Capsules := after (alone 4 claimed (complete kinds 5 (lit "s") (lit "k") [9%N])).
Example claims_on_their_own :
  snd <$> answers [claiming 7; claiming 7; claiming 8] [] = Some [Ok Claimed; Ok InProgress; Ok Mismatch]
  ∧ snd <$> answers [claiming 7] completed = Some [Ok (Completed [9%N])]
  ∧ snd <$> answers [claiming 7] (after (alone 4 claimed (release kinds 5 (lit "s") (lit "k")))) = Some [Ok Claimed]
  ∧ snd <$> answers [claiming 7] (after (alone 4 completed (release kinds 5 (lit "s") (lit "k")))) = Some [Ok (Completed [9%N])].
Proof. vm_compute. done. Qed.

(** Two claims of one key that run into each other: both create, one commits, the other conflicts
    and finds the first. *)
Definition racing : list (Call (result PublicActionClaim PortError)) := [claiming 7; claiming 7].
Definition raced : option (Capsules * list (Call (result PublicActionClaim PortError))) :=
  interleave [0; 1; 1; 0; 0]%nat [] racing.

Lemma interleaved turns s ts calls s' calls' :
  interleave turns s calls = Some (s', calls') →
  rtc (service_step kinds (lit "PublicIdempotency") (lit "s") (lit "k")) (s, ts, calls) (s', ts, calls').
Proof.
  revert s calls. induction turns as [|i turns IH]; intros s calls; cbn [interleave].
  - intros [= <- <-]. constructor.
  - destruct (calls !! i) as [[a|access]|] eqn:Hi; [by apply IH| |done]. cbn [mbind option_bind].
    destruct (access s) as [[s1 c1]|] eqn:Ha; [|done]. intros Hrun.
    eapply rtc_l; [by eapply service_call|]. by apply IH.
Qed.

Definition answered {A} (c : Call A) : option A := match c with Answer a => Some a | Step _ => None end.
Definition outcome {A} (r : option (Capsules * list (Call A))) : option (list (option A)) := fmap (M := option) (λ r, answered <$> r.2) r.

(** The promises of the ports are about one call after another.  Two first uses of a nonce, when one
    runs between the other's look and its upsert, are both accepted: the upsert looks again, finds
    the nonce that was just recorded, and rewrites it. *)
Example nonce_accepted_twice :
  outcome (interleave [0; 1; 1; 1; 0; 0]%nat [] [nonce_at 100 10; nonce_at 100 10])
  = Some [Some (Ok true); Some (Ok true)].
Proof. vm_compute. reflexivity. Qed.
(** A challenge is consumed twice the same way: the delete that finds nothing is not a refusal. *)
Example challenge_consumed_twice :
  outcome (interleave [0; 1; 1; 1; 0; 0]%nat issued [consuming (lit "aud"); consuming (lit "aud")])
  = Some [Some (Ok true); Some (Ok true)].
Proof. vm_compute. reflexivity. Qed.
(** A claim that completes between the look and the delete of a release is forgotten, and the key can
    be claimed again. *)
Example completed_claim_released :
  outcome (interleave [0; 1; 1; 0; 0]%nat claimed
    [release kinds 5 (lit "s") (lit "k"); complete kinds 5 (lit "s") (lit "k") [9%N]]) = Some [Some (Ok tt); Some (Ok tt)]
  ∧ snd <$> answers [claiming 7] (after (interleave [0; 1; 1; 0; 0]%nat claimed
      [release kinds 5 (lit "s") (lit "k"); complete kinds 5 (lit "s") (lit "k") [9%N]])) = Some [Ok Claimed].
Proof. vm_compute. done. Qed.

Definition race_store : Capsules := match raced with Some (s, _) => s | None => [] end.
Definition race_calls : list (Call (result PublicActionClaim PortError)) := match raced with Some (_, l) => l | None => [] end.
Lemma raced_done : interleave [0; 1; 1; 0; 0]%nat [] racing = Some (race_store, race_calls).
Proof. reflexivity. Qed.

Lemma claims_exclude_witness :
  answered <$> race_calls = [Some (Ok InProgress); Some (Ok Claimed)]
  ∧ ∀ i j, race_calls !! i = Some (Answer (Ok Claimed)) → race_calls !! j = Some (Answer (Ok Claimed)) → i = j.
Proof.
  split; [vm_compute; reflexivity|].
  apply (claims_exclude kinds public_idempotency (lit "PublicIdempotency") eq_refl eq_refl eq_refl (lit "s") (lit "k")
    [] ∅ racing race_store ∅ race_calls).
  - constructor.
  - intros i t Hi. by rewrite lookup_empty in Hi.
  - repeat constructor; exists 5, 5, (repeat 7%N 32); reflexivity.
  - apply (interleaved [0; 1; 1; 0; 0]%nat), raced_done.
Defined.

Definition recorded : Capsules := after (alone 3 [] (nonce_at 100 10)).
Lemma recorded_done : alone 3 [] (nonce_at 100 10) = Some (recorded, Ok true).
Proof. vm_compute. reflexivity. Qed.
Lemma recorded_nonce_refused_witness :
  alone 3 [] (nonce_at 100 10) = Some (recorded, Ok true) ∧ alone 3 recorded (nonce_at 400 99) = Some (recorded, Ok false).
Proof.
  split; [exact recorded_done|].
  destruct (recorded_nonce_refused kinds eq_refl [] recorded 5 (lit "k") [1%N] 100 10
    (proj1 (empty_inv kinds)) recorded_done) as [_ Hlater].
  apply (Hlater recorded 5 400 99); [reflexivity|reflexivity|]. apply no_repeat_NoDup. vm_compute. reflexivity.
Defined.

End Kinds.
