(* ===== verification/LeaseStorage.v ===== *)
(** The coordination adapter ([aseman-capsule/src/coordination.rs]) on the in-memory provider, access
    by access.  [Leases] takes a transaction of the adapter as one step, which is what its
    documentation promises; here each access to the store is a step of its own, and the examples at
    the end show where two calls that run into each other leave that promise.

    The clock's reading is an argument, the same for every attempt of a call. *)

From S2P Require Import Prelude Text Ports Coordination Leases BTree Bytes Floats Json Capsule CapsuleCodec Envelope Sealed Records Queries Memory Engine MemoryLaws AutoCommit.

Open Scope Z_scope.

(** ** The client's rows *)

Definition COORDINATION_LEASE : str := lit "core.coordination_lease".
Definition COORDINATION_FENCE : str := lit "core.coordination_fence".

Record CoordinationLease := { cr_key : str; cr_row : CoordinationLeaseRow }.
Definition CoordinationLease_data (c : CoordinationLease) : Data :=
  jinsert (lit "expires_at_millis") (VInt (cl_expires_at_millis (cr_row c)))
    (jinsert (lit "acquired_at_millis") (VInt (cl_acquired_at_millis (cr_row c)))
      (jinsert (lit "token") (VInt (cl_token (cr_row c)))
        (jinsert (lit "instance") (VText (cl_instance (cr_row c))) (jinsert (lit "key") (VText (cr_key c)) [])))).
Definition CoordinationLease_from_row (row : Row) : StorageResult CoordinationLease :=
  let? key := required row COORDINATION_LEASE (lit "key") in
  let? instance := required row COORDINATION_LEASE (lit "instance") in
  let? token := required row COORDINATION_LEASE (lit "token") in
  let? acquired_at_millis := required row COORDINATION_LEASE (lit "acquired_at_millis") in
  let? expires_at_millis := required row COORDINATION_LEASE (lit "expires_at_millis") in
  Ok {| cr_key := key;
        cr_row := {| cl_instance := instance; cl_token := token; cl_acquired_at_millis := acquired_at_millis;
                     cl_expires_at_millis := expires_at_millis |} |}.

Record CoordinationFence := { cf_key : str; cf_token : i64 }.
Definition CoordinationFence_data (c : CoordinationFence) : Data :=
  jinsert (lit "token") (VInt (cf_token c)) (jinsert (lit "key") (VText (cf_key c)) []).
Definition CoordinationFence_from_row (row : Row) : StorageResult CoordinationFence :=
  let? key := required row COORDINATION_FENCE (lit "key") in
  let? token := required row COORDINATION_FENCE (lit "token") in
  Ok {| cf_key := key; cf_token := token |}.

(** The catalog's entries of the two kinds. *)
Definition coordination_lease : Model := keyed COORDINATION_LEASE (lit "CoordinationLease")
  [(lit "acquired_at_millis", FInteger); (lit "expires_at_millis", FInteger); (lit "instance", FText); (lit "key", FText);
   (lit "token", FInteger)]
  [lit "key"; lit "instance"; lit "token"; lit "acquired_at_millis"; lit "expires_at_millis"] [].
Definition coordination_fence : Model := keyed COORDINATION_FENCE (lit "CoordinationFence")
  [(lit "key", FText); (lit "token", FInteger)] [lit "key"; lit "token"] [].

Section adapter.
Context `{Sha256Laws, Lowercase}.
Context (schema : list (str * Model)).

(** What a closure of [decide] does: [?] on a storage error, [return Ok(Err(..))] on a refusal. *)
Notation Trx_ := (@Trx (Capsules * MemoryTransaction)).
Definition update_lease {A} (now_micros : i64) (trx : Trx_) (key : str) (data : Data)
    (k : StorageResult (option CoordinationLease * Trx_) → Call A) : Call A :=
  writing trx (λ trx, typed (AutoCommit.transpose CoordinationLease_from_row)
    (update schema now_micros trx COORDINATION_LEASE (UKey key) data)) k.

Definition acquire_call (now_micros : i64) (clock : PortResult i64) (name : LeaseName) (instance : str) (ttl_millis : i64)
    : Call (PortResult Acquisition) :=
  let key := LeaseName_as_str name in
  decide_ schema MAX_CAS_ATTEMPTS (λ trx answer,
    match clock with
    | Err error => answer (Ok (Err error, trx))
    | Ok now =>
        find_typed schema COORDINATION_LEASE CoordinationLease_from_row key trx (λ found,
          match found with
          | Err e => answer (Err e)
          | Ok current =>
              match Leases.transpose ((λ row, lease name (cr_row row)) <$> current) with
              | Err error => answer (Ok (Err error, trx))
              | Ok current_lease =>
                  match plan_acquisition name current_lease instance now ttl_millis with
                  | Err error => answer (Ok (Err (PortError_failed (CoordinationError_text error)), trx))
                  | Ok (AcqHeld holder expires) => answer (Ok (Ok (AcqHeld holder expires), trx))
                  | Ok (AcqGranted granted) =>
                      match stored (lease_token granted) with
                      | Err error => answer (Ok (Err error, trx))
                      | Ok token =>
                          match current with
                          | Some _ =>
                              update_lease now_micros trx key
                                (jinsert (lit "expires_at_millis") (VInt (lease_expires_at_millis granted))
                                  (jinsert (lit "acquired_at_millis") (VInt (lease_acquired_at_millis granted))
                                    (jinsert (lit "token") (VInt token)
                                      (jinsert (lit "instance") (VText (lease_instance granted)) []))))
                                (λ done, answer (let? (_, trx) := done in Ok (Ok (AcqGranted granted), trx)))
                          | None =>
                              writing trx (λ trx, typed CoordinationLease_from_row
                                  (create schema now_micros [] trx COORDINATION_LEASE (CoordinationLease_data
                                    {| cr_key := key;
                                       cr_row := {| cl_instance := lease_instance granted; cl_token := token;
                                                    cl_acquired_at_millis := lease_acquired_at_millis granted;
                                                    cl_expires_at_millis := lease_expires_at_millis granted |} |})))
                                (λ done, answer (let? (_, trx) := done in Ok (Ok (AcqGranted granted), trx)))
                          end
                      end
                  end
              end
          end)
    end).

Definition renew_call (now_micros : i64) (clock : PortResult i64) (held : Lease) (ttl_millis : i64)
    : Call (PortResult (option Lease)) :=
  let key := LeaseName_as_str (lease_name held) in
  if ttl_millis <=? 0 then Answer (Err (PDenied (lit "a lease time to live is positive")))
  else match stored (lease_token held) with
  | Err error => Answer (Err error)
  | Ok held_token =>
      decide_ schema MAX_CAS_ATTEMPTS (λ trx answer,
        match clock with
        | Err error => answer (Ok (Err error, trx))
        | Ok now =>
            find_typed schema COORDINATION_LEASE CoordinationLease_from_row key trx (λ found,
              match found with
              | Err e => answer (Err e)
              | Ok None => answer (Ok (Ok None, trx))
              | Ok (Some row) =>
                  if negb (bool_decide (cl_instance (cr_row row) = lease_instance held))
                     || negb (cl_token (cr_row row) =? held_token) || (cl_expires_at_millis (cr_row row) <=? now)
                  then answer (Ok (Ok None, trx))
                  else
                    update_lease now_micros trx key [(lit "expires_at_millis", VInt (wrap_i64 (now + ttl_millis)))]
                      (λ done, answer (let? (renewed, trx) := done in
                         Ok (Leases.transpose ((λ row, lease (lease_name held) (cr_row row)) <$> renewed), trx)))
              end)
        end)
  end.

Definition release_call (now_micros : i64) (clock : PortResult i64) (held : Lease) : Call (PortResult unit) :=
  let key := LeaseName_as_str (lease_name held) in
  match stored (lease_token held) with
  | Err error => Answer (Err error)
  | Ok held_token =>
      decide_ schema MAX_CAS_ATTEMPTS (λ trx answer,
        match clock with
        | Err error => answer (Ok (Err error, trx))
        | Ok now =>
            find_typed schema COORDINATION_LEASE CoordinationLease_from_row key trx (λ found,
              match found with
              | Err e => answer (Err e)
              | Ok (Some row) =>
                  if bool_decide (cl_instance (cr_row row) = lease_instance held) && (cl_token (cr_row row) =? held_token)
                  then
                    update_lease now_micros trx key
                      [(lit "expires_at_millis", VInt (Z.max (cl_acquired_at_millis (cr_row row)) now))]
                      (λ done, answer (let? (_, trx) := done in Ok (Ok tt, trx)))
                  else answer (Ok (Ok tt, trx))
              | Ok None => answer (Ok (Ok tt, trx))
              end)
        end)
  end.

Definition accept_call (now_micros : i64) (name : LeaseName) (accepted : FencingToken) : Call (PortResult unit) :=
  let key := LeaseName_as_str name in
  match stored accepted with
  | Err error => Answer (Err error)
  | Ok accepted =>
      decide_ schema MAX_CAS_ATTEMPTS (λ trx answer,
        find_typed schema COORDINATION_FENCE CoordinationFence_from_row key trx (λ found,
          match found with
          | Err e => answer (Err e)
          | Ok (Some row) =>
              if accepted <? cf_token row then answer (Ok (Err PConflict, trx))
              else
                writing trx (λ trx, typed (AutoCommit.transpose CoordinationFence_from_row)
                    (update schema now_micros trx COORDINATION_FENCE (UKey key) [(lit "token", VInt accepted)]))
                  (λ done, answer (let? (_, trx) := done in Ok (Ok tt, trx)))
          | Ok None =>
              writing trx (λ trx, typed CoordinationFence_from_row
                  (create schema now_micros [] trx COORDINATION_FENCE
                    (CoordinationFence_data {| cf_key := key; cf_token := accepted |})))
                (λ done, answer (let? (_, trx) := done in Ok (Ok tt, trx)))
          end))
  end.

End adapter.

(** ** Calls on their own, and into each other *)

Module LeaseCalls.
Export Kinds.

Definition kinds : list (str * Model) :=
  [(COORDINATION_FENCE, coordination_fence); (COORDINATION_LEASE, coordination_lease)].
Example lease_kinds_valid : Forall (λ kv, model_validate kv.2 = Ok tt) kinds.
Proof. vm_compute. repeat constructor. Qed.

Definition sweeper : LeaseName := MkLeaseName (lit "sweeper").
Definition acquiring (instance : str) (now : i64) := acquire_call kinds 5 (Ok now) sweeper instance 100.
Definition lease_of (instance : str) (token at_ : Z) : Lease :=
  {| lease_name := sweeper; lease_instance := instance; lease_token := MkFencingToken token;
     lease_acquired_at_millis := at_; lease_expires_at_millis := at_ + 100 |}.

(** One after the other: a held lease is not taken, an expired one is, with a larger token. *)
Example leases_on_their_own :
  snd <$> answers [acquiring (lit "a") 10; acquiring (lit "b") 50; acquiring (lit "b") 110] []
  = Some [Ok (AcqGranted (lease_of (lit "a") 1 10)); Ok (AcqHeld (lit "a") 110); Ok (AcqGranted (lease_of (lit "b") 2 110))].
Proof. vm_compute. reflexivity. Qed.

(** The first acquisition of a name is decided by the create, which conflicts. *)
Example first_lease_is_exclusive :
  outcome (interleave [0; 1; 1; 1; 0; 0; 0]%nat [] [acquiring (lit "a") 10; acquiring (lit "b") 10])
  = Some [Some (Ok (AcqHeld (lit "b") 110)); Some (Ok (AcqGranted (lease_of (lit "b") 1 10)))].
Proof. vm_compute. reflexivity. Qed.

(** Two acquisitions of an expired lease, when one runs between the other's look and its update, are
    both granted, with the same token: the update looks again, so its commit expects the revision
    that the other one wrote. *)
Definition expired : Capsules := after (alone 8 [] (acquiring (lit "z") 10)).
Example lease_granted_twice :
  outcome (interleave [0; 1; 1; 1; 0; 0]%nat expired [acquiring (lit "a") 200; acquiring (lit "b") 200])
  = Some [Some (Ok (AcqGranted (lease_of (lit "a") 2 200))); Some (Ok (AcqGranted (lease_of (lit "b") 2 200)))].
Proof. vm_compute. reflexivity. Qed.

(** The fence moves back the same way: a write with token 3 is accepted between the look and the
    update of one with token 2, and the fence accepts token 2 again. *)
Definition accepting (token : u64) := accept_call kinds 5 sweeper (MkFencingToken token).
Definition fenced : Capsules := after (alone 8 [] (accepting 1)).
Example fences_on_their_own :
  snd <$> answers [accepting 3; accepting 2; accepting 3] fenced = Some [Ok tt; Err PConflict; Ok tt].
Proof. vm_compute. reflexivity. Qed.
Example fence_moves_back :
  outcome (interleave [0; 1; 1; 1; 0; 0]%nat fenced [accepting 2; accepting 3]) = Some [Some (Ok tt); Some (Ok tt)]
  ∧ snd <$> answers [accepting 2] (after (interleave [0; 1; 1; 1; 0; 0]%nat fenced [accepting 2; accepting 3])) = Some [Ok tt].
Proof. vm_compute. done. Qed.

End LeaseCalls.
