(* ===== verification/StorageAdapter.v ===== *)
(** Repositories that keep capsule revisions themselves: the storage transaction as a [CapsuleStore]
    ([aseman-capsule/src/storage_adapter.rs]), and the same store one transaction per call
    ([aseman-capsule/src/auto.rs]). *)

From S2P Require Import Prelude Text Ports BTree Bytes Floats Json Capsule CapsuleCodec Envelope CapsuleQuery Sealed Records Queries Memory Engine MemoryLaws AutoCommit.

Open Scope Z_scope.

Inductive CapsuleStoreError := StoreConflict | StoreFailed (message : str).
Notation CapsuleStoreResult A := (result A CapsuleStoreError).

Definition store_error (e : StorageError) : CapsuleStoreError :=
  match e with
  | SConflict _ => StoreConflict
  | other => StoreFailed (storage_error_text other)
  end.

(** ** Queries as filters *)

(** [value]: a compared value as a record value of the field. *)
Definition compared_value (model : Model) (field : str) (value : CapsuleValue) : Value :=
  let plain := record_value (match jget field (m_fields model) with Some field_type => field_type | None => FText end) value in
  if contains_key (m_relations model) field || bool_decide (field = lit "id") then
    match value with
    | CBytes l => if bool_decide (length l = 16%nat) then VId l else plain
    | _ => plain
    end
  else plain.

(** [filter]. *)
Fixpoint predicate_filter (model : Model) (predicate : QueryPredicate) : Where :=
  match predicate with
  | PCompare field operator value =>
      let compared := compared_value model field value in
      Field field
        match operator with
        | Equal => Equals compared
        | NotEqual => CNot compared
        | LessThan => CLt compared
        | LessOrEqual => CLte compared
        | GreaterThan => CGt compared
        | GreaterOrEqual => CGte compared
        end
  | PAnd predicates => And (predicate_filter model <$> predicates)
  | POr predicates => Or (predicate_filter model <$> predicates)
  | PNot predicate => Not (predicate_filter model predicate)
  | PRelationshipExists relationship => Field relationship (IsNull false)
  end.

Definition sort_order (sort : QuerySort) : Order :=
  {| or_field := qs_field sort; or_direction := match qs_direction sort with Ascending => Asc | Descending => Desc end |}.

Section adapter.
Context `{Sha256Laws, Lowercase}.
Context (schema : list (str * Model)).
Notation MTrx := (@Trx (Capsules * MemoryTransaction)).

(** ** A transaction as a store *)

Definition store_get (trx : MTrx) (kind : str) (id : Id) : CapsuleStoreResult (option CapsuleEnvelope) :=
  map_err store_error (capsule_ schema trx kind id).

Definition store_put (trx : MTrx) (capsule : CapsuleEnvelope) (expected_revision : option u64) : option (CapsuleStoreResult MTrx) :=
  map_err store_error <$> put_capsule schema trx capsule expected_revision.

Fixpoint store_put_all (trx : MTrx) (writes : list (CapsuleEnvelope * option u64)) : option (CapsuleStoreResult MTrx) :=
  match writes with
  | [] => Some (Ok trx)
  | (capsule, expected) :: writes =>
      written ← store_put trx capsule expected;
      match written with Err e => Some (Err e) | Ok trx => store_put_all trx writes end
  end.

Definition store_query (trx : MTrx) (query : CapsuleQuery) : CapsuleStoreResult (list CapsuleEnvelope) :=
  if negb (is_empty (q_aggregates query)) || negb (is_empty (q_traversals query)) || is_some (q_cursor query)
  then Err (StoreFailed (lit "unsupported storage capability: aggregates, traversal, and cursors"))
  else
    let? model := map_err store_error (model_of schema (q_kind query)) in
    map_err store_error (capsules schema trx (q_kind query)
      {| fm_filter := predicate_filter model <$> q_predicate query; fm_order_by := sort_order <$> q_sort query;
         fm_skip := 0; fm_take := Some (q_limit query) |}).

(** ** One transaction per call *)

Definition auto_get (kind : str) (id : Id) : Call (CapsuleStoreResult (option CapsuleEnvelope)) :=
  Step (λ committed, Some (committed, Answer (store_get (at_store committed (opened ReadOnly)) kind id))).

Definition auto_put_all (writes : list (CapsuleEnvelope * option u64)) : Call (CapsuleStoreResult unit) :=
  Step (λ committed,
    written ← store_put_all (at_store committed (opened ReadWrite)) writes;
    Some (committed,
      match written with
      | Err e => Answer (Err e)
      | Ok trx => committing schema trx (λ answer, Answer (map_err store_error answer))
      end)).

Definition auto_put (capsule : CapsuleEnvelope) (expected_revision : option u64) : Call (CapsuleStoreResult unit) :=
  auto_put_all [(capsule, expected_revision)].

Definition auto_query (query : CapsuleQuery) : Call (CapsuleStoreResult (list CapsuleEnvelope)) :=
  Step (λ committed, Some (committed, Answer (store_query (at_store committed (opened ReadOnly)) query))).

(** ** All of a batch or none of it *)

Definition batch_writes (writes : list (CapsuleEnvelope * option u64)) : list Write :=
  (λ '(capsule, expected), {| wr_kind := ce_kind capsule; wr_capsule := capsule; wr_expected := expected |}) <$> writes.

Lemma model_of_name name model :
  (∀ k m, jget k schema = Some m → m_name m = k) → model_of schema name = Ok model → m_name model = name.
Proof. unfold model_of. intros Hs. destruct (jget name schema) eqn:E; [|done]. intros H2%Ok_inj. subst. by apply Hs. Qed.

Lemma store_put_all_writes trx writes trx' :
  (∀ k m, jget k schema = Some m → m_name m = k) → store_put_all trx writes = Some (Ok trx') →
  tx_finished trx' = tx_finished trx ∧ mt_writes (tx_inner trx').2 = mt_writes (tx_inner trx).2 ++ batch_writes writes.
Proof.
  intros Hs. revert trx. induction writes as [|[c e] writes IH]; intros trx; cbn [store_put_all batch_writes fmap list_fmap].
  - intros [= <-]. by rewrite app_nil_r.
  - unfold store_put, put_capsule. destruct (model_of schema (ce_kind c)) as [model|] eqn:Hm; [|done].
    apply (model_of_name _ _ Hs) in Hm. destruct (writable trx model); [|done].
    destruct (if ce_tombstone c then _ else _); [|done]. destruct (t_put _ _ _ _) as [[inner|]|] eqn:Hp; [|done..].
    cbn [mbind option_bind fmap option_fmap option_map map_err]. intros Hrest. destruct (IH _ Hrest) as [Hf Hw]. split; [done|].
    rewrite Hw. cbn [with_inner tx_inner]. cbn [t_put memory_transaction] in Hp.
    destruct (put _ _ _ _ _) as [[self|]|] eqn:Hput; [|done..]. cbn in Hp. injection Hp as <-.
    apply put_inv in Hput as (_ & _ & ->). cbn [snd mt_writes]. rewrite <-app_assoc. by rewrite Hm.
Qed.

(** [put_all] of a call on its own stores the whole batch, in order, or leaves the store alone. *)
Lemma put_all_all_or_nothing s writes s' r :
  (∀ k m, jget k schema = Some m → m_name m = k) →
  alone 2 s (auto_put_all writes) = Some (s', r) →
  match r with Ok _ => s' = apply_writes s (batch_writes writes) | Err _ => s' = s end.
Proof.
  intros Hs. unfold auto_put_all. cbn [alone mbind option_bind].
  destruct (store_put_all _ writes) as [[trx|e]|] eqn:Hw; [| |done]; cbn [mbind option_bind]; [|by intros [= <- <-]].
  apply store_put_all_writes in Hw as [Hf Hw]; [|done]. unfold committing. cbn [alone mbind option_bind]. unfold commit_.
  cbn [at_store opened with_inner tx_finished tx_inner t_commit memory_end fst snd] in *. rewrite Hf.
  destruct (commit schema s (tx_inner trx).2) as [[answer s1] t1] eqn:Hc. cbn [finish tx_inner fst alone map_err].
  apply commit_inv in Hc as [_ [(-> & _ & -> & _)|(m & -> & -> & _)]]; intros [= <- <-]; [|done]. by rewrite Hw.
Qed.

(** ** Filters on the id *)

Lemma decoded_names model c k :
  contains_key (m_fields model) k = false → contains_key (m_relations model) k = false → row_get (decode model c) k = VNull.
Proof.
  unfold contains_key. intros Hf Hr. unfold row_get, decode. cbn [row_data].
  set (data := match ce_body c with Some (CObject body) => _ | _ => _ end).
  assert (jget k data = None) as Hd.
  { subst data. destruct (ce_body c) as [[]|]; try done. unfold decode_fields. clear Hr.
    assert (∀ acc, jget k acc = None → jget k (foldl (λ data '(name, value),
      match jget name (m_fields model) with Some field_type => jinsert name (record_value field_type value) data | None => data end) acc values) = None) as Hg.
    { induction values as [|[n v] values IH]; intros acc Ha; cbn [foldl]; [done|]. apply IH.
      destruct (jget n (m_fields model)) eqn:En; [|done]. rewrite jget_jinsert, bool_decide_eq_false_2; [done|]. intros ->. by rewrite En in Hf. }
    by apply Hg. }
  assert (∀ l d, jget k d = None → jget k (decode_relations model d l) = None) as ->; [|done|done].
  { clear -Hr. induction l as [|r l IH]; intros d Hd; cbn; [done|]. apply IH. unfold contains_key.
    destruct (jget (rl_name r) (m_relations model)) eqn:En; cbn [is_some]; [|done].
    rewrite jget_jinsert, bool_decide_eq_false_2; [done|]. intros ->. by rewrite En in Hr. }
Qed.

(** The engine accepts a filter on [id], and the client has a handle for it, but a row keeps its id
    apart from its fields: such a filter matches no record. *)
Lemma id_filter_matches_nothing model c id :
  contains_key (m_fields model) (lit "id") = false → contains_key (m_relations model) (lit "id") = false →
  check_filter model (Some (where_eq (lit "id") (VId id))) = Ok tt
  ∧ matches (where_eq (lit "id") (VId id)) (decode model c) = false.
Proof.
  intros Hf Hr. split; [reflexivity|]. unfold matches, where_eq. cbn [evaluate]. by rewrite decoded_names.
Qed.

End adapter.
