(* ===== verification/ConsensusLog.v ===== *)
(** The consensus logs of the in-memory provider ([aseman-storage/src/memory.rs], [MemoryLogs] and
    [MemoryLog]; the port is [aseman-ports/src/consensus_log.rs]): one ordered byte key/value space
    per log.

    A log is shared by everyone who opened it, so logs are kept in a heap and a handle is a place in
    it; opening a log afresh gives the name a new place, and those who opened it before keep the old
    one.  Locks are never poisoned here, so the operations do not fail; a panic is [None]. *)

From S2P Require Import Prelude Text BTree.

Open Scope Z_scope.

Notation Log := (list (list N * list N)).

Inductive ConsensusLogWrite :=
| Put (key value : list N)
| Delete (key : list N)
| DeleteRange (start end_ : list N).

(** ** One log *)

Definition log_get (log : Log) (key : list N) : option (list N) := jget key log.

(** [key.starts_with(prefix)]. *)
Fixpoint starts (prefix key : list N) : bool :=
  match prefix, key with
  | [], _ => true
  | a :: prefix, b :: key => (a =? b)%N && starts prefix key
  | _, [] => false
  end.

Fixpoint take_while {A} (f : A → bool) (l : list A) : list A :=
  match l with [] => [] | x :: l => if f x then x :: take_while f l else [] end.

(** [range(start..)] and [range(start..end)], which panics when [start] is above [end]. *)
Definition range_from (start : list N) (log : Log) : Log := filter (λ kv, str_leb start kv.1 = true) log.
Definition range (start end_ : list N) (log : Log) : option Log :=
  if negb (str_leb start end_) then None
  else Some (filter (λ kv, str_leb start kv.1 = true ∧ str_leb end_ kv.1 = false) log).

Definition scan_prefix (log : Log) (prefix : list N) : Log :=
  take_while (λ kv, starts prefix kv.1) (range_from prefix log).

Definition apply_log_write (log : Log) (write : ConsensusLogWrite) : option Log :=
  match write with
  | Put key value => Some (jinsert key value log)
  | Delete key => Some (jremove key log)
  | DeleteRange start end_ =>
      doomed ← range start end_ log;
      Some (foldl (λ log key, jremove key log) log doomed.*1)
  end.

(** The loop of [write]: the log as it is left, and whether the batch went through.  A panic leaves
    what was applied before it. *)
Fixpoint log_write (log : Log) (batch : list ConsensusLogWrite) : Log * bool :=
  match batch with
  | [] => (log, true)
  | write :: batch =>
      match apply_log_write log write with
      | Some log => log_write log batch
      | None => (log, false)
      end
  end.

(** ** The logs of a provider *)

Record MemoryLogs := { ml_names : list (str * nat); ml_heap : list Log }.

Definition logs_open (self : MemoryLogs) (name : str) (fresh : bool) : nat * MemoryLogs :=
  let names := if fresh then jremove name (ml_names self) else ml_names self in
  match jget name names with
  | Some place => (place, {| ml_names := names; ml_heap := ml_heap self |})
  | None =>
      let place := length (ml_heap self) in
      (place, {| ml_names := jinsert name place names; ml_heap := ml_heap self ++ [[]] |})
  end.

(** [names], sorted. *)
Definition logs_names (self : MemoryLogs) : list str := merge_sort str_le (ml_names self).*1.

(** ** A log is an ordered map *)

Lemma starts_le prefix key : starts prefix key = true → str_leb prefix key = true.
Proof.
  revert key. induction prefix as [|a p IH]; intros [|b k]; cbn; try done.
  rewrite andb_true_iff, orb_true_iff, andb_true_iff. intros [-> Hs]. right. auto.
Qed.
(** The keys with a prefix are next to each other. *)
Lemma starts_gap prefix k1 k2 :
  str_leb prefix k1 = true → starts prefix k1 = false → str_leb k1 k2 = true → starts prefix k2 = false.
Proof.
  revert k1 k2. induction prefix as [|a p IH]; intros [|b k1] [|c k2]; cbn; try done.
  rewrite !orb_true_iff, !andb_true_iff, !andb_false_iff, !N.ltb_lt, !N.eqb_eq, !N.eqb_neq.
  intros [H1|[-> H1]] Hs [H2|[-> H2]]; [left; lia|left; lia|left; lia|].
  destruct Hs as [?|Hs]; [done|]. right. eauto.
Qed.

Lemma ordered_cons_le {V} k (v : V) (m : list (str * V)) k' v' : ordered ((k, v) :: m) → (k', v') ∈ m → str_leb k k' = true.
Proof.
  unfold ordered. cbn [fmap list_fmap fst]. intros Ho Hin. inversion Ho as [|? ? _ Hf]; subst. rewrite Forall_forall in Hf.
  apply (Hf k'). apply list_elem_of_fmap. by exists (k', v').
Qed.

Lemma scan_is_filter log prefix : ordered log → scan_prefix log prefix = filter (λ kv, starts prefix kv.1 = true) log.
Proof.
  unfold scan_prefix, range_from. induction log as [|[k v] log IH]; intros Ho; [done|].
  assert (ordered log) as Ho' by (unfold ordered in *; cbn in Ho; by inversion Ho). specialize (IH Ho').
  rewrite !filter_cons. cbn [fst]. destruct (decide (str_leb prefix k = true)) as [Hl|Hl].
  - cbn [take_while fst]. destruct (starts prefix k) eqn:Es; [by rewrite IH|]. cbn.
    symmetry. apply elem_of_nil_inv. intros [k' v'] [Hs Hin]%list_elem_of_filter. cbn in Hs.
    pose proof (starts_gap prefix k k' Hl Es (ordered_cons_le _ _ _ _ _ Ho Hin)). congruence.
  - rewrite IH. destruct (decide (starts prefix k = true)) as [Hs%starts_le|]; [done|done].
Qed.

(** What one write does to a key. *)
Definition effect (write : ConsensusLogWrite) (key : list N) (before : option (list N)) : option (list N) :=
  match write with
  | Put k value => if bool_decide (key = k) then Some value else before
  | Delete k => if bool_decide (key = k) then None else before
  | DeleteRange start end_ => if str_leb start key && negb (str_leb end_ key) then None else before
  end.
(** A batch that the in-memory log takes: no range is reversed. *)
Definition proper_range (write : ConsensusLogWrite) : Prop :=
  match write with DeleteRange start end_ => str_leb start end_ = true | _ => True end.

Lemma remove_all (log : Log) keys k :
  jget k (foldl (λ log key, jremove key log) log keys) = if bool_decide (k ∈ keys) then None else jget k log.
Proof.
  revert log. induction keys as [|k0 keys IH]; intros log; cbn [foldl]; [by rewrite bool_decide_eq_false_2 by (by intros ?%elem_of_nil)|].
  rewrite IH, jget_jremove. destruct (bool_decide_reflect (k ∈ keys)) as [Hin|Hin].
  - by rewrite bool_decide_eq_true_2 by by right.
  - destruct (bool_decide_reflect (k = k0)) as [->|Hne]; [by rewrite bool_decide_eq_true_2 by by left|].
    rewrite bool_decide_eq_false_2; [done|]. by intros [?|?]%elem_of_cons.
Qed.
Lemma remove_all_ordered (log : Log) keys : ordered log → ordered (foldl (λ log key, jremove key log) log keys).
Proof. revert log. induction keys as [|k keys IH]; intros log Ho; cbn [foldl]; [done|]. by apply IH, jremove_ordered. Qed.

Lemma apply_log_write_spec log write : ordered log → proper_range write →
  ∃ log', apply_log_write log write = Some log' ∧ ordered log' ∧ ∀ k, log_get log' k = effect write k (log_get log k).
Proof.
  intros Ho Hp. unfold log_get. destruct write as [key value|key|start end_]; cbn [apply_log_write effect].
  - eexists. split; [done|]. split; [by apply jinsert_ordered|]. intros k. apply jget_jinsert.
  - eexists. split; [done|]. split; [by apply jremove_ordered|]. intros k. apply jget_jremove.
  - cbn in Hp. unfold range. rewrite Hp. cbn [negb mbind option_bind]. eexists. split; [done|]. split; [by apply remove_all_ordered|].
    intros k. rewrite remove_all. destruct (jget k log) as [v|] eqn:Ek; [|by repeat case_match].
    apply jget_elem in Ek; [|done]. destruct (str_leb start k && negb (str_leb end_ k)) eqn:Er.
    + rewrite bool_decide_eq_true_2; [done|]. apply andb_true_iff in Er as [E1 E2%negb_true_iff].
      apply list_elem_of_fmap. exists (k, v). split; [done|]. by apply list_elem_of_filter.
    + rewrite bool_decide_eq_false_2; [done|]. intros ([k' v'] & -> & Hin)%list_elem_of_fmap.
      apply list_elem_of_filter in Hin as [[E1 E2] _]. cbn in *. by rewrite E1, E2 in Er.
Qed.

(** A consensus log is an ordered map.  A batch without reversed ranges goes through, and every
    key then holds what the writes, in order, leave of it; the log stays in ascending key order, and
    a scan answers exactly the pairs whose key starts with the prefix, in that order, although it
    stops at the first key after the prefix that lacks it. *)
Theorem log_is_ordered_map log batch prefix :
  ordered log → Forall proper_range batch →
  ∃ log', log_write log batch = (log', true) ∧ ordered log'
    ∧ (∀ k, log_get log' k = foldl (λ before write, effect write k before) (log_get log k) batch)
    ∧ scan_prefix log' prefix = filter (λ kv, starts prefix kv.1 = true) log'.
Proof.
  intros Ho Hb. revert log Ho. induction Hb as [|write batch Hw _ IH]; intros log Ho; cbn [log_write foldl].
  - exists log. split; [done|]. split; [done|]. split; [done|]. by apply scan_is_filter.
  - destruct (apply_log_write_spec log write Ho Hw) as (log1 & -> & Ho1 & Hk). destruct (IH log1 Ho1) as (log' & Hl & Ho' & Hg & Hs).
    exists log'. split; [done|]. split; [done|]. split; [|done]. intros k. by rewrite Hg, Hk.
Qed.

Lemma log_is_ordered_map_witness :
  ∃ log', log_write [] [Put [1; 2]%N [7]%N; Put [1]%N [8]%N; Put [2]%N [9]%N; Delete [2]%N] = (log', true)
    ∧ scan_prefix log' [1]%N = filter (λ kv, starts [1]%N kv.1 = true) log'.
Proof.
  destruct (log_is_ordered_map [] [Put [1; 2]%N [7]%N; Put [1]%N [8]%N; Put [2]%N [9]%N; Delete [2]%N] [1]%N) as (log' & Hl & _ & _ & Hs).
  - constructor.
  - repeat constructor.
  - exists log'. split; [exact Hl|exact Hs].
Defined.

(** A reversed range makes the batch panic after the writes before it were applied. *)
Example reversed_range_splits_batch :
  log_write [] [Put [1]%N [7]%N; DeleteRange [2]%N [1]%N; Put [3]%N [9]%N] = ([([1], [7])]%N, false).
Proof. reflexivity. Qed.
(** Opening afresh forgets what the name held. *)
Example fresh_open_forgets :
  let '(first, logs) := logs_open {| ml_names := []; ml_heap := [] |} (lit "main") false in
  let '(second, logs) := logs_open logs (lit "main") true in
  first ≠ second ∧ logs_names logs = [lit "main"].
Proof. vm_compute. done. Qed.
