(* ===== verification/FinanceLedger.v ===== *)
(** The finance ledger: the port of [crates/aseman-ports/src/finance_ledger.rs] and its adapter on
    storage, [crates/aseman-capsule/src/finance.rs] with the token locks of
    [crates/aseman-capsule/src/token_lock.rs].

    A [World] is what one state action sees through its transaction: the document rows, the shared
    namespace documents, the token locks, the wallet counters, the markers and the journal
    participants of the ledger, and beside them the creature balances, user names, stores, programs
    and memberships the other finance ports read, the clock, and the supply of fresh identifiers.
    A read answers a [PortResult]; a write answers the next world or the port's error.  Faults of
    the storage provider itself are not part of the model: they abort the transaction.

    [tx] is the transaction monad of a state action: an action either answers with the world it
    leaves, or fails, and then its writes are discarded ([run_action],
    [apps/aseman-node/src/state/core_storage.rs]). *)

From S2P Require Import Prelude Text Core Ports BTree Json.

Open Scope Z_scope.

(** ** Vocabulary *)

Inductive FinanceDoc :=
| DHold | DPool | DPoolReservation | DLiveDebit | DProjectBudget | DJournal | DPayout
| DBillingCatalog | DBillingQuote | DBillingCurrent | DBillingNodes | DMarket | DCreature.
#[export] Instance FinanceDoc_eq_dec : EqDecision FinanceDoc.
Proof. solve_decision. Defined.

Definition FinanceDoc_index (d : FinanceDoc) : nat :=
  match d with
  | DHold => 0 | DPool => 1 | DPoolReservation => 2 | DLiveDebit => 3 | DProjectBudget => 4
  | DJournal => 5 | DPayout => 6 | DBillingCatalog => 7 | DBillingQuote => 8
  | DBillingCurrent => 9 | DBillingNodes => 10 | DMarket => 11 | DCreature => 12
  end.
#[export] Instance FinanceDoc_index_inj : Inj (=) (=) FinanceDoc_index.
Proof. intros [] []; done. Qed.
#[export] Instance FinanceDoc_countable : Countable FinanceDoc.
Proof.
  refine (inj_countable' FinanceDoc_index
    (λ n, nth n [DHold; DPool; DPoolReservation; DLiveDebit; DProjectBudget; DJournal; DPayout;
                 DBillingCatalog; DBillingQuote; DBillingCurrent; DBillingNodes; DMarket]
            DCreature) _).
  by intros [].
Defined.

Inductive WalletCounter := Held | Debt | Withdrawable | PayoutHeld | Earned | Spent.
#[export] Instance WalletCounter_eq_dec : EqDecision WalletCounter.
Proof. solve_decision. Defined.

Inductive FinanceMarker :=
| MHoldRequest (payer key : str)
| MRun (authority run_id : str)
| MSettlement (authority settlement_id : str)
| MRelease (caller release_id : str)
| MPayoutRequest (user request_id : str)
| MPayoutResolution (resolution_id : str)
| MPoolOpen (payer key : str)
| MPoolRefresh (payer refresh_id : str)
| MPoolClose (pool_id : str)
| MPoolSettlement (authority settlement_id : str)
| MPoolDebit (authority debit_id : str)
| MPaymentAdjustment (key : str)
| MMintApplied (key : str).

Definition doc_path (family : FinanceDoc) : str :=
  match family with
  | DHold => lit "hold" | DPool => lit "pool" | DPoolReservation => lit "reservation"
  | DLiveDebit => lit "debit" | DProjectBudget => lit "budget" | DJournal => lit "entry"
  | DPayout => lit "payout" | DBillingCatalog => lit "catalog" | DBillingQuote => lit "quote"
  | DBillingCurrent => lit "current" | DBillingNodes => lit "nodes" | DMarket => lit "market"
  | DCreature => lit "lockedTokens"
  end.

(** ** What is outside the repository

    Random identifiers, the digest, the JSON reader and writer, the URL parser, and the iteration
    order of a [HashMap]. *)

Record Url := {
  url_scheme : str;
  url_host : option str;
  url_username : str;
  url_password : option str;
  url_path : str;
  url_query : option str;
  url_fragment : option str;
}.

Class Platform := {
  (** The text of the [n]-th random UUID. *)
  uuid_v4 : nat → str;
  sha256 : list N → list N;
  to_vec : value → list N;
  from_str : str → option value;
  url_parse : str → option Url;
  hash_iter : gmap str i64 → list (str * i64);
}.

(** ** The rows of the ledger *)

(** The queried columns of a document row, derived from the document on every write. *)
Inductive columns :=
| HoldColumns (payer_ref : str) (created_millis : i64)
| PoolColumns (payer_ref : option str)
| ReservationColumns (pool_ref : option str)
| JournalColumns (entry_kind : str) (hold_ref payer_ref : option str) (created_millis : i64)
| PayoutColumns (user_ref : str) (created_millis : i64)
| PlainColumns.

Record row := { row_document : Map; row_columns : columns }.

Record FinanceAccount := {
  fa_held : option i64;
  fa_debt : option i64;
  fa_withdrawable : option i64;
  fa_payout_held : option i64;
  fa_earned : option i64;
  fa_spent : option i64;
  fa_pool_ref : option str;
}.

Record LockRow := { lock_owner_ref : str; lock_lock_ref : str; lock_document : Map }.

Record ParticipantRow := {
  jp_journal_ref : str;
  jp_participant_ref : str;
  jp_created_millis : i64;
}.

Record World := {
  w_rows : gmap (FinanceDoc * str) row;
  w_namespaces : gmap str Map;
  w_locks : gmap str LockRow;
  w_accounts : gmap str FinanceAccount;
  w_markers : gmap str str;
  w_participants : list ParticipantRow;
  w_balances : gmap str i64;
  w_usernames : gmap str str;
  w_emails : gmap str str;
  w_stores : gset str;
  w_metadata : gmap (str * str) str;
  w_members : gset (str * str);
  w_programs : gset str;
  w_now : i64;
  w_next : nat;
}.

Definition set_rows w x := {| w_rows := x; w_namespaces := w_namespaces w; w_locks := w_locks w;
  w_accounts := w_accounts w; w_markers := w_markers w; w_participants := w_participants w;
  w_balances := w_balances w; w_usernames := w_usernames w; w_emails := w_emails w;
  w_stores := w_stores w; w_metadata := w_metadata w; w_members := w_members w;
  w_programs := w_programs w; w_now := w_now w; w_next := w_next w |}.
Definition set_namespaces w x := {| w_rows := w_rows w; w_namespaces := x; w_locks := w_locks w;
  w_accounts := w_accounts w; w_markers := w_markers w; w_participants := w_participants w;
  w_balances := w_balances w; w_usernames := w_usernames w; w_emails := w_emails w;
  w_stores := w_stores w; w_metadata := w_metadata w; w_members := w_members w;
  w_programs := w_programs w; w_now := w_now w; w_next := w_next w |}.
Definition set_locks w x := {| w_rows := w_rows w; w_namespaces := w_namespaces w; w_locks := x;
  w_accounts := w_accounts w; w_markers := w_markers w; w_participants := w_participants w;
  w_balances := w_balances w; w_usernames := w_usernames w; w_emails := w_emails w;
  w_stores := w_stores w; w_metadata := w_metadata w; w_members := w_members w;
  w_programs := w_programs w; w_now := w_now w; w_next := w_next w |}.
Definition set_accounts w x := {| w_rows := w_rows w; w_namespaces := w_namespaces w;
  w_locks := w_locks w; w_accounts := x; w_markers := w_markers w;
  w_participants := w_participants w; w_balances := w_balances w; w_usernames := w_usernames w;
  w_emails := w_emails w; w_stores := w_stores w; w_metadata := w_metadata w;
  w_members := w_members w; w_programs := w_programs w; w_now := w_now w; w_next := w_next w |}.
Definition set_markers w x := {| w_rows := w_rows w; w_namespaces := w_namespaces w;
  w_locks := w_locks w; w_accounts := w_accounts w; w_markers := x;
  w_participants := w_participants w; w_balances := w_balances w; w_usernames := w_usernames w;
  w_emails := w_emails w; w_stores := w_stores w; w_metadata := w_metadata w;
  w_members := w_members w; w_programs := w_programs w; w_now := w_now w; w_next := w_next w |}.
Definition set_participants w x := {| w_rows := w_rows w; w_namespaces := w_namespaces w;
  w_locks := w_locks w; w_accounts := w_accounts w; w_markers := w_markers w;
  w_participants := x; w_balances := w_balances w; w_usernames := w_usernames w;
  w_emails := w_emails w; w_stores := w_stores w; w_metadata := w_metadata w;
  w_members := w_members w; w_programs := w_programs w; w_now := w_now w; w_next := w_next w |}.
Definition set_balances w x := {| w_rows := w_rows w; w_namespaces := w_namespaces w;
  w_locks := w_locks w; w_accounts := w_accounts w; w_markers := w_markers w;
  w_participants := w_participants w; w_balances := x; w_usernames := w_usernames w;
  w_emails := w_emails w; w_stores := w_stores w; w_metadata := w_metadata w;
  w_members := w_members w; w_programs := w_programs w; w_now := w_now w; w_next := w_next w |}.
Definition set_next w x := {| w_rows := w_rows w; w_namespaces := w_namespaces w;
  w_locks := w_locks w; w_accounts := w_accounts w; w_markers := w_markers w;
  w_participants := w_participants w; w_balances := w_balances w; w_usernames := w_usernames w;
  w_emails := w_emails w; w_stores := w_stores w; w_metadata := w_metadata w;
  w_members := w_members w; w_programs := w_programs w; w_now := w_now w; w_next := x |}.
Definition set_now w x := {| w_rows := w_rows w; w_namespaces := w_namespaces w;
  w_locks := w_locks w; w_accounts := w_accounts w; w_markers := w_markers w;
  w_participants := w_participants w; w_balances := w_balances w; w_usernames := w_usernames w;
  w_emails := w_emails w; w_stores := w_stores w; w_metadata := w_metadata w;
  w_members := w_members w; w_programs := w_programs w; w_now := x; w_next := w_next w |}.

(** ** Helpers of the adapter *)

(** The nonempty text member of a document. *)
Definition doc_text (document : Map) (field : str) : option str :=
  match jget field document ≫= as_str with
  | Some s => if is_empty s then None else Some s
  | None => None
  end.

Definition millis (document : Map) : i64 :=
  default 0 (jget (lit "createdAt") document ≫= value_as_i64).

Definition as_finance_object (v : value) : PortResult Map :=
  match v with
  | Object m => Ok m
  | _ => Err (PFailed (lit "a finance document must be a JSON object"))
  end.

(** Where a shared document lives: its namespace key and path. *)
Definition shared (family : FinanceDoc) (id : str) : option (str * str) :=
  match family with
  | DBillingCurrent => Some (lit "billing", lit "current")
  | DBillingNodes => Some (lit "billing", lit "nodes")
  | DMarket => Some (lit "market", id)
  | _ => None
  end.

Definition LOCKED_TOKENS : str := lit "lockedTokens".

(** The lock a [Json::Creature] path names. *)
Definition lock_of (path : str) : PortResult str :=
  ok_or
    (match strip_prefix LOCKED_TOKENS path ≫= strip_prefix (lit ".") with
     | Some lock =>
         if negb (is_empty lock) && negb (contains_char (chr ".") lock) then Some lock else None
     | None => None
     end)
    (PFailed (lit "a creature finance document is a token lock")).

Definition account_value (account : FinanceAccount) (kind : WalletCounter) : option i64 :=
  match kind with
  | Held => fa_held account
  | Debt => fa_debt account
  | Withdrawable => fa_withdrawable account
  | PayoutHeld => fa_payout_held account
  | Earned => fa_earned account
  | Spent => fa_spent account
  end.

Definition marker_key (marker : FinanceMarker) : str :=
  match marker with
  | MHoldRequest payer key => lit "FinanceHoldRequest::" ++ payer ++ lit "::" ++ key
  | MRun authority run_id => lit "FinanceRun::" ++ authority ++ lit "::" ++ run_id
  | MSettlement authority settlement_id =>
      lit "FinanceSettlement::" ++ authority ++ lit "::" ++ settlement_id
  | MRelease caller release_id => lit "FinanceRelease::" ++ caller ++ lit "::" ++ release_id
  | MPayoutRequest user request_id =>
      lit "FinancePayoutRequest::" ++ user ++ lit "::" ++ request_id
  | MPayoutResolution resolution_id => lit "FinancePayoutResolution::" ++ resolution_id
  | MPoolOpen payer key => lit "FinancePoolOpen::" ++ payer ++ lit "::" ++ key
  | MPoolRefresh payer refresh_id =>
      lit "FinancePoolRefresh::" ++ payer ++ lit "::" ++ refresh_id
  | MPoolClose pool_id => lit "FinancePoolClose::" ++ pool_id
  | MPoolSettlement authority settlement_id =>
      lit "FinancePoolSettlement::" ++ authority ++ lit "::" ++ settlement_id
  | MPoolDebit authority debit_id =>
      lit "FinancePoolDebit::" ++ authority ++ lit "::" ++ debit_id
  | MPaymentAdjustment key => lit "PaymentAdjustment::" ++ key
  | MMintApplied key => lit "MintApplied::" ++ key
  end.

(** ** Documents *)

(** The stored document of an id-scoped family. *)
Definition document (w : World) (family : FinanceDoc) (id : str) : option Map :=
  match family with
  | DBillingCurrent | DBillingNodes | DMarket | DCreature => None
  | _ => row_document <$> w_rows w !! (family, id)
  end.

(** The columns [store] derives from the document. *)
Definition columns_of (family : FinanceDoc) (document : Map) : columns :=
  match family with
  | DHold => HoldColumns (default [] (doc_text document (lit "payerUserId"))) (millis document)
  | DPool => PoolColumns (doc_text document (lit "payerUserId"))
  | DPoolReservation => ReservationColumns (doc_text document (lit "poolId"))
  | DJournal =>
      JournalColumns (default [] (doc_text document (lit "kind")))
        (doc_text document (lit "holdId")) (doc_text document (lit "payerUserId"))
        (millis document)
  | DPayout => PayoutColumns (default [] (doc_text document (lit "userId"))) (millis document)
  | _ => PlainColumns
  end.

(** Store the whole document of an id-scoped family, with its derived columns. *)
Definition store (w : World) (family : FinanceDoc) (id : str) (document : Map)
    : PortResult World :=
  match family with
  | DBillingCurrent | DBillingNodes | DMarket | DCreature =>
      Err (PFailed (lit "a shared document has a path"))
  | _ =>
      Ok (set_rows w (<[(family, id) := {| row_document := document;
                                           row_columns := columns_of family document |}]>
                        (w_rows w)))
  end.

Definition namespace (w : World) (key : str) : Map := default [] (w_namespaces w !! key).
Definition put_namespace (w : World) (key : str) (document : Map) : World :=
  set_namespaces w (<[key := document]> (w_namespaces w)).

(** ** Token locks *)

Definition lock_key (owner lock_id : str) : str := owner ++ lit "::" ++ lock_id.

Definition lock (w : World) (owner lock_id : str) : option Map :=
  lock_document <$> w_locks w !! lock_key owner lock_id.

Definition put_lock (w : World) (owner lock_id : str) (document : Map) (merge : bool) : World :=
  let next := merge_objects (if merge then default [] (lock w owner lock_id) else []) document in
  set_locks w
    (<[lock_key owner lock_id :=
         match w_locks w !! lock_key owner lock_id with
         | Some current => {| lock_owner_ref := lock_owner_ref current;
                              lock_lock_ref := lock_lock_ref current; lock_document := next |}
         | None => {| lock_owner_ref := owner; lock_lock_ref := lock_id; lock_document := next |}
         end]> (w_locks w)).

Definition delete_lock (w : World) (owner lock_id : str) : World :=
  set_locks w (delete (lock_key owner lock_id) (w_locks w)).

(** ** The port: documents *)

Definition get_doc (w : World) (family : FinanceDoc) (id path : str) : PortResult Map :=
  if bool_decide (family = DCreature) then
    let? lock_id := lock_of path in ok_or (lock w id lock_id) PNotFound
  else
    match shared family id with
    | Some (key, path) => ok_or (jget path (namespace w key) ≫= as_object) PNotFound
    | None => ok_or (document w family id) PNotFound
    end.

Definition put_doc (family : FinanceDoc) (id path : str) (v : value) (merge : bool) (w : World)
    : PortResult World :=
  let? incoming := as_finance_object v in
  if bool_decide (family = DCreature) then
    let? lock_id := lock_of path in Ok (put_lock w id lock_id incoming merge)
  else
    match shared family id with
    | Some (key, path) =>
        let next :=
          match merge, jget path (namespace w key) with
          | true, Some (Object existing) => merge_objects existing incoming
          | _, _ => incoming
          end in
        Ok (put_namespace w key (jinsert path (Object next) (namespace w key)))
    | None =>
        store w family id
          (match merge, document w family id with
           | true, Some existing => merge_objects existing incoming
           | _, _ => incoming
           end)
    end.

(** The ids of every document of a family, in key order. *)
Definition doc_ids (w : World) (family : FinanceDoc) : list str :=
  match family with
  | DBillingCurrent | DBillingNodes | DMarket | DCreature => []
  | _ => merge_sort str_le
           (omap (λ kv : FinanceDoc * str * row,
                    if bool_decide (kv.1.1 = family) then Some kv.1.2 else None)
                 (map_to_list (w_rows w)))
  end.

(** ** The port: wallet counters *)

Definition no_account : FinanceAccount :=
  {| fa_held := None; fa_debt := None; fa_withdrawable := None; fa_payout_held := None;
     fa_earned := None; fa_spent := None; fa_pool_ref := None |}.

Definition set_account_value (account : FinanceAccount) (kind : WalletCounter) (amount : i64)
    : FinanceAccount :=
  let put k old := if bool_decide (k = kind) then Some amount else old in
  {| fa_held := put Held (fa_held account); fa_debt := put Debt (fa_debt account);
     fa_withdrawable := put Withdrawable (fa_withdrawable account);
     fa_payout_held := put PayoutHeld (fa_payout_held account);
     fa_earned := put Earned (fa_earned account); fa_spent := put Spent (fa_spent account);
     fa_pool_ref := fa_pool_ref account |}.

(** [put_account_field]: an upsert of one field of the user's account. *)
Definition put_account (w : World) (user : str) (f : FinanceAccount → FinanceAccount) : World :=
  set_accounts w (<[user := f (default no_account (w_accounts w !! user))]> (w_accounts w)).

(** The stored value of a counter, zero when there is none. *)
Definition stored_counter (w : World) (kind : WalletCounter) (user : str) : i64 :=
  default 0 (w_accounts w !! user ≫= λ account, account_value account kind).

Definition counter (w : World) (kind : WalletCounter) (user : str) : PortResult i64 :=
  let value := stored_counter w kind user in
  if value <? 0 then Err (PFailed (lit "invalid finance counter")) else Ok value.

Definition set_counter (kind : WalletCounter) (user : str) (amount : i64) (w : World)
    : PortResult World :=
  if amount <? 0 then Err (PDenied (lit "finance counter underflow"))
  else Ok (put_account w user (λ account, set_account_value account kind amount)).

Definition add_counter (kind : WalletCounter) (user : str) (amount : i64) (w : World)
    : PortResult (i64 * World) :=
  if amount <? 0 then Err (PDenied (lit "finance counter amount must be nonnegative"))
  else
    let? current := counter w kind user in
    let? next := ok_or (checked_add_i64 current amount)
                   (PFailed (lit "finance counter overflow")) in
    let? w := set_counter kind user next w in
    Ok (next, w).

(** Rows in the order of a text key. *)
Definition text_key_le {V} (p q : str * V) : Prop := str_le p.1 q.1.
#[export] Instance text_key_le_dec {V} : RelDecision (@text_key_le V).
Proof. intros p q. unfold text_key_le. apply _. Defined.

(** Every stored counter of a kind, with its stored text, in key order. *)
Definition counter_links (w : World) (kind : WalletCounter) : list (str * str) :=
  merge_sort text_key_le
    (omap (λ kv : str * FinanceAccount,
             (λ amount, (kv.1, show amount)) <$> account_value kv.2 kind)
          (map_to_list (w_accounts w))).

(** ** The port: markers, listings and pools *)

Definition marker (w : World) (m : FinanceMarker) : str :=
  default [] (w_markers w !! marker_key m).
Definition put_marker (m : FinanceMarker) (v : str) (w : World) : World :=
  set_markers w (<[marker_key m := v]> (w_markers w)).

(** Newest first: by creation time, then by key, both descending. *)
Definition newer (p q : str * i64) : Prop :=
  q.2 < p.2 ∨ (p.2 = q.2 ∧ str_le q.1 p.1).
#[export] Instance newer_dec : RelDecision newer.
Proof. intros p q. unfold newer. apply _. Defined.

Definition newest_keys (rows : list (str * i64)) (limit : usize) : list str :=
  take (Z.to_nat limit) (merge_sort newer rows).*1.

Definition hold_ids_by_payer (w : World) (user : str) (limit : usize) : list str :=
  newest_keys
    (omap (λ kv : FinanceDoc * str * row,
             match kv.1.1, row_columns kv.2 with
             | DHold, HoldColumns payer created =>
                 if bool_decide (payer = user) then Some (kv.1.2, created) else None
             | _, _ => None
             end) (map_to_list (w_rows w)))
    limit.

Definition payout_ids_by_user (w : World) (user : str) (limit : usize) : list str :=
  newest_keys
    (omap (λ kv : FinanceDoc * str * row,
             match kv.1.1, row_columns kv.2 with
             | DPayout, PayoutColumns owner created =>
                 if bool_decide (owner = user) then Some (kv.1.2, created) else None
             | _, _ => None
             end) (map_to_list (w_rows w)))
    limit.

Definition journal_ids_by_user (w : World) (user : str) (limit : usize) : list str :=
  newest_keys
    (omap (λ p, if bool_decide (jp_participant_ref p = user)
                then Some (jp_journal_ref p, jp_created_millis p) else None)
          (w_participants w))
    limit.

Definition pool_of_user (w : World) (user : str) : str :=
  default [] (w_accounts w !! user ≫= fa_pool_ref).
Definition put_pool_of_user (user pool_id : str) (w : World) : World :=
  put_account w user (λ account,
    {| fa_held := fa_held account; fa_debt := fa_debt account;
       fa_withdrawable := fa_withdrawable account; fa_payout_held := fa_payout_held account;
       fa_earned := fa_earned account; fa_spent := fa_spent account;
       fa_pool_ref := Some pool_id |}).

Definition email_to_id (w : World) (email : str) : str := default [] (w_emails w !! email).

(** ** The port: identifiers and the journal *)

Section ledger.
Context `{Platform}.

(** A fresh identifier: two random UUIDs. *)
Definition id_at (n : nat) : str :=
  uuid_v4 n ++ lit "-" ++ uuid_v4 (S n).
Definition gen_id (w : World) : str * World := (id_at (w_next w), set_next w (2 + w_next w)%nat).

(** Index the entry under each participant once, skipping empty ids. *)
Fixpoint index_participants (journal_id : str) (now : i64) (seen : list str)
    (participants : list str) : list ParticipantRow :=
  match participants with
  | [] => []
  | p :: ps =>
      if is_empty p || bool_decide (p ∈ seen) then index_participants journal_id now seen ps
      else {| jp_journal_ref := journal_id; jp_participant_ref := p; jp_created_millis := now |}
             :: index_participants journal_id now (p :: seen) ps
  end.

Definition write_journal (kind hold_id payer_id : str) (payload : value) (participants : list str)
    (now : i64) (w : World) : PortResult (str * World) :=
  let '(journal_id, w) := gen_id w in
  let entry := jobject [(lit "journalId", jtext journal_id); (lit "kind", jtext kind);
                        (lit "holdId", jtext hold_id); (lit "payerUserId", jtext payer_id);
                        (lit "createdAt", jint now); (lit "payload", payload)] in
  let? w := store w DJournal journal_id entry in
  Ok (journal_id,
      set_participants w (w_participants w ++ index_participants journal_id now [] participants)).

End ledger.

(** What the code relies on: a [HashMap] is iterated in some order of its members, random UUIDs do
    not repeat, and the hyphenated text of one has 36 characters. *)
Class PlatformLaws `{Platform} : Prop := {
  hash_iter_perm m : hash_iter m ≡ₚ map_to_list m;
  uuid_v4_inj n m : uuid_v4 n = uuid_v4 m → n = m;
  uuid_v4_length n : length (uuid_v4 n) = 36%nat;
}.

Lemma id_at_inj `{PlatformLaws} n m : id_at n = id_at m → n = m.
Proof.
  unfold id_at. intros [He _]%app_inj_1; [by apply uuid_v4_inj|by rewrite !uuid_v4_length].
Qed.
Lemma lock_key_inj `{PlatformLaws} o1 o2 n m : lock_key o1 (id_at n) = lock_key o2 (id_at m) → n = m.
Proof.
  unfold lock_key. rewrite !(app_assoc _ (lit "::")). intros [_ He]%app_inj_2; [by apply id_at_inj|].
  unfold id_at. by rewrite !length_app, !uuid_v4_length.
Qed.

(** A platform for the examples: counted identifiers, and maps iterated in key order. *)
Definition sample_platform : Platform := {|
  uuid_v4 n := (48 + N.of_nat n)%N :: repeat 48%N 35;
  sha256 l := take 32 (l ++ repeat 0%N 32);
  to_vec _ := [];
  from_str _ := None;
  url_parse _ := None;
  hash_iter m := map_to_list m;
|}.
Lemma sample_laws : @PlatformLaws sample_platform.
Proof.
  split; cbn [uuid_v4 hash_iter sample_platform].
  - done.
  - intros n m [= ?]. lia.
  - done.
Qed.

(** ** The other ports *)

Definition balance (w : World) (creature_id : str) : PortResult i64 :=
  ok_or (w_balances w !! creature_id) PNotFound.
Definition set_balance (creature_id : str) (amount : i64) (w : World) : PortResult World :=
  match w_balances w !! creature_id with
  | Some _ => Ok (set_balances w (<[creature_id := amount]> (w_balances w)))
  | None => Err PNotFound
  end.
Definition creature_id_by_username (w : World) (username : str) : option str :=
  w_usernames w !! username.
Definition is_member (w : World) (store_id user_id : str) : bool :=
  bool_decide ((store_id, user_id) ∈ w_members w).

(** ** Transactions *)

Inductive ApplicationError :=
| WorkloadNotFound
| Denied (message : str)
| Port (error : PortError)
| Domain (error : DomainError).

Definition tx (A : Type) : Type := World → result (A * World) ApplicationError.

Definition ret {A} (a : A) : tx A := λ w, Ok (a, w).
Definition throw {A} (e : ApplicationError) : tx A := λ w, Err e.
Definition tx_bind {A B} (m : tx A) (f : A → tx B) : tx B :=
  λ w, match m w with Ok (a, w) => f a w | Err e => Err e end.

Declare Scope tx_scope.
Delimit Scope tx_scope with tx.
Notation "'let!' x ':=' m 'in' k" := (tx_bind m (λ x, k))
  (at level 200, x pattern, m at level 100, k at level 200, right associativity) : tx_scope.
Notation "m ';;' k" := (tx_bind m (λ _, k)) (at level 100, k at level 200, right associativity)
  : tx_scope.

(** A read, a write and a value of the ports, with [?]. *)
Definition reading {A} (f : World → PortResult A) : tx A :=
  λ w, match f w with Ok a => Ok (a, w) | Err e => Err (Port e) end.
Definition asks {A} (f : World → A) : tx A := λ w, Ok (f w, w).
Definition writing (f : World → PortResult World) : tx unit :=
  λ w, match f w with Ok w => Ok (tt, w) | Err e => Err (Port e) end.
Definition updates (f : World → World) : tx unit := λ w, Ok (tt, f w).
Definition stepping {A} (f : World → PortResult (A * World)) : tx A :=
  λ w, match f w with Ok aw => Ok aw | Err e => Err (Port e) end.
Definition lift {A} (r : result A ApplicationError) : tx A :=
  λ w, match r with Ok a => Ok (a, w) | Err e => Err e end.

(** [for x in l { acc = body(acc, x)?; }]. *)
Fixpoint each {A B} (body : B → A → tx B) (acc : B) (l : list A) : tx B :=
  match l with
  | [] => ret acc
  | x :: l => tx_bind (body acc x) (λ acc, each body acc l)
  end.

(** [run_action]: the action commits when it succeeds and rolls back when it refuses. *)
Definition run_action {A} (action : tx A) (w : World) : result A ApplicationError * World :=
  match action w with
  | Ok (a, w') => (Ok a, w')
  | Err e => (Err e, w)
  end.
