(* ===== verification/Consensus.v ===== *)
(** Ordering of financial records: the rules ([aseman-domain/src/consensus.rs]), the provider's port
    ([aseman-ports/src/consensus.rs]) and the finance use cases over it
    ([aseman-application/src/consensus.rs]).

    The provider is a class of operations over its state; the order that a node holds is the list of
    the finalizations it accepted, newest last.  SHA-256 is the parameter of [Envelope]. *)

From S2P Require Import Prelude Text Core Ports BTree Bytes Floats Json Capsule CapsuleCodec Envelope Records FinanceLedger.

Open Scope Z_scope.

(** ** The rules *)

Notation Epoch := u64.
Definition GENESIS : Epoch := 0.

Inductive ConsensusError :=
| EpochOverflow
| StaleCheckpoint
| RecordsInFlight (pending : u64)
| InvalidDigest
| EpochWentBackwards
| OutOfOrder.
#[export] Instance ConsensusError_eq_dec : EqDecision ConsensusError. Proof. solve_decision. Defined.

Definition epoch_next (self : Epoch) : result Epoch ConsensusError := ok_or (checked_add_u64 self 1) EpochOverflow.

Record Finalized := { fz_idempotency_key : str; fz_epoch : Epoch; fz_position : u64; fz_digest : str }.
Record Checkpoint := { ck_epoch : Epoch; ck_record_count : u64; ck_digest : str; ck_taken_at_millis : i64 }.

Definition is_sha256 (digest : str) : bool :=
  is_some_and (λ hex, (len hex =? 64) && forallb is_ascii_hexdigit (bytes hex)) (strip_prefix (lit "sha256:") digest).

Definition may_switch (checkpoint : Checkpoint) (outgoing_epoch : Epoch) (pending_records : u64) : result unit ConsensusError :=
  if negb (ck_epoch checkpoint =? outgoing_epoch) then Err StaleCheckpoint
  else if 0 <? pending_records then Err (RecordsInFlight pending_records)
  else if negb (is_sha256 (ck_digest checkpoint)) then Err InvalidDigest
  else Ok tt.

Definition accept_finalized (last : option Finalized) (received : Finalized) : result unit ConsensusError :=
  match last with
  | None => Ok tt
  | Some last =>
      if fz_epoch received <? fz_epoch last then Err EpochWentBackwards
      else if (fz_epoch received =? fz_epoch last) && (fz_position received <=? fz_position last) then Err OutOfOrder
      else Ok tt
  end.

Definition agrees (finalized : Finalized) (local_digest : str) : bool := bool_decide (fz_digest finalized = local_digest).

(** ** The port and the use cases *)

(** [ConsensusProvider], in state-passing style. *)
Class ConsensusProvider (P : Type) := {
  cp_submit : P → str → str → result unit PortError * P;
  cp_finalized_epoch : P → result Epoch PortError;
  cp_finalized_after : P → Epoch → usize → result (list Finalized) PortError;
  cp_pending : P → result u64 PortError;
  cp_checkpoint : P → i64 → result Checkpoint PortError;
  cp_adopt : P → Checkpoint → result unit PortError * P;
}.

Definition journal_idempotency_key (journal_id : str) : str := lit "journal:" ++ journal_id.
Definition journal_digest `{Sha256} (journal_id : str) : str :=
  lit "sha256:" ++ hex_bytes (sha2 (bytes (journal_idempotency_key journal_id))).

Record HandoverReadiness := { hr_pending : u64; hr_checkpoint : Checkpoint }.

Section finance.
Context `{Sha256} {P : Type} `{ConsensusProvider P}.

Definition submit_finance_record (p : P) (journal_id : str) : result unit ApplicationError * P :=
  let '(answer, p) := cp_submit p (journal_idempotency_key journal_id) (journal_digest journal_id) in (map_err Port answer, p).

Definition finance_finalized_epoch (p : P) : result Epoch ApplicationError := map_err Port (cp_finalized_epoch p).
Definition finance_checkpoint (p : P) (at_millis : i64) : result Checkpoint ApplicationError := map_err Port (cp_checkpoint p at_millis).

Definition check_handover_readiness (p : P) (at_millis : i64) : result HandoverReadiness ApplicationError :=
  let? pending := map_err Port (cp_pending p) in
  let? checkpoint := map_err Port (cp_checkpoint p at_millis) in
  Ok {| hr_pending := pending; hr_checkpoint := checkpoint |}.
(** [CheckHandoverReadiness::may_switch], whose error is the text of this one. *)
Definition readiness_may_switch (readiness : HandoverReadiness) (outgoing_epoch : Epoch) : result unit ConsensusError :=
  may_switch (hr_checkpoint readiness) outgoing_epoch (hr_pending readiness).

Definition adopt_consensus_checkpoint (p : P) (checkpoint : Checkpoint) : result unit ApplicationError * P :=
  let '(answer, p) := cp_adopt p checkpoint in
  (match answer with
   | Err PConflict => Err (Denied (lit "the consensus provider already has history; it cannot adopt a checkpoint"))
   | other => map_err Port other
   end, p).

End finance.

(** ** The order only extends *)

(** A node that takes finalizations as they come: those that are refused are left out. *)
Fixpoint take_finalized (order received : list Finalized) : list Finalized :=
  match received with
  | [] => order
  | f :: received =>
      match accept_finalized (last order) f with
      | Ok _ => take_finalized (order ++ [f]) received
      | Err _ => take_finalized order received
      end
  end.

(** The total order of finalizations: the epoch, then the position. *)
Definition before (a b : Finalized) : Prop :=
  fz_epoch a < fz_epoch b ∨ (fz_epoch a = fz_epoch b ∧ fz_position a < fz_position b).

Lemma before_trans a b c : before a b → before b c → before a c.
Proof. unfold before. lia. Qed.

Lemma accept_finalized_Ok order f :
  accept_finalized (last order) f = Ok tt ↔ ∀ l, last order = Some l → before l f.
Proof.
  unfold accept_finalized, before. destruct (last order) as [l|]; [|split; [done|by intros]].
  destruct (Z.ltb_spec (fz_epoch f) (fz_epoch l)); [split; [done|intros Hl; specialize (Hl l eq_refl); lia]|].
  destruct (Z.eqb_spec (fz_epoch f) (fz_epoch l)), (Z.leb_spec (fz_position f) (fz_position l)); cbn [andb];
    (split; [try done; intros _ l' [= <-]; lia|try done; intros Hl; specialize (Hl l eq_refl); lia]).
Qed.

Lemma sorted_snoc order f :
  StronglySorted before order → (∀ l, last order = Some l → before l f) → StronglySorted before (order ++ [f]).
Proof.
  intros Hs. induction Hs as [|a order Hs IH Hall]; intros Hl; cbn; [repeat constructor|].
  constructor.
  - apply IH. intros l Hlast. apply Hl. destruct order; [done|]. done.
  - apply Forall_app. split; [done|]. apply Forall_singleton. destruct (last order) as [l|] eqn:El.
    + apply (before_trans _ l); [|apply Hl; destruct order; [done|exact El]]. rewrite Forall_forall in Hall. apply Hall.
      by apply last_Some_elem_of.
    + apply last_None in El. subst order. by apply Hl.
Qed.

(** The order that a node acts on only ever extends, and is total.  Whatever finalizations arrive,
    in whatever order and however often, the ones that a node accepts stand in strictly increasing
    order of epoch and position, so no position of an epoch is filled twice; what it held before
    stays the beginning of what it holds after; and a finalization is accepted exactly when it comes
    after the last one, so one that is received again is refused. *)
Theorem finalized_order_extends order received :
  StronglySorted before order →
  StronglySorted before (take_finalized order received)
  ∧ order `prefix_of` take_finalized order received
  ∧ (∀ f, accept_finalized (last order) f = Ok tt ↔ ∀ a, a ∈ order → before a f)
  ∧ (∀ f, f ∈ take_finalized order received → ¬ is_Ok (accept_finalized (last (take_finalized order received)) f)).
Proof.
  intros Hs. assert (∀ order, StronglySorted before order → ∀ a l, a ∈ order → last order = Some l → a = l ∨ before a l) as Hlast.
  { clear. induction 1 as [|b order Hs IH Hall]; intros a l Ha Hl; [by apply elem_of_nil in Ha|].
    destruct order as [|c order]; [apply list_elem_of_singleton in Ha as ->; injection Hl as ->; by left|].
    apply elem_of_cons in Ha as [->|Ha]; [|by apply IH]. right. rewrite Forall_forall in Hall. apply Hall. by apply last_Some_elem_of. }
  assert (∀ order f, StronglySorted before order → accept_finalized (last order) f = Ok tt ↔ ∀ a, a ∈ order → before a f) as Hacc.
  { intros o f Ho. rewrite accept_finalized_Ok. split.
    - intros Hl a Ha. destruct (last o) as [l|] eqn:El; [|apply last_None in El; subst o; by apply elem_of_nil in Ha].
      destruct (Hlast o Ho a l Ha El) as [->|Hb]; [by apply Hl|]. eapply before_trans; [exact Hb|by apply Hl].
    - intros Ha l Hl. apply Ha. by apply last_Some_elem_of. }
  assert (StronglySorted before (take_finalized order received) ∧ order `prefix_of` take_finalized order received) as [Hs' Hp].
  { clear Hacc. revert order Hs. induction received as [|f received IH]; intros order Hs; cbn [take_finalized]; [done|].
    destruct (accept_finalized (last order) f) as [[]|e] eqn:Ha; [|by apply IH].
    destruct (IH (order ++ [f])) as [I1 I2]; [apply sorted_snoc; [done|]; by apply accept_finalized_Ok|].
    split; [done|]. etrans; [|exact I2]. by eexists. }
  split; [done|]. split; [done|]. split; [by intros f; apply Hacc|].
  intros f Hf [[] Hok]. pose proof (proj1 (Hacc _ f Hs') Hok f Hf) as Hb. unfold before in Hb. lia.
Qed.

(** Ordering is handed over exactly at a checkpoint of the outgoing epoch with nothing in flight. *)
Lemma may_switch_exact checkpoint epoch pending :
  0 ≤ pending →
  may_switch checkpoint epoch pending = Ok tt ↔
  ck_epoch checkpoint = epoch ∧ pending = 0 ∧ is_sha256 (ck_digest checkpoint) = true.
Proof.
  intros Hp. unfold may_switch. destruct (Z.eqb_spec (ck_epoch checkpoint) epoch); cbn [negb]; [|naive_solver].
  destruct (Z.ltb_spec 0 pending); [split; [done|lia]|]. destruct (is_sha256 _); cbn [negb]; [|naive_solver].
  split; [|done]. intros _. split; [done|]. split; [lia|done].
Qed.

Definition fz (epoch position : Z) : Finalized := {| fz_idempotency_key := []; fz_epoch := epoch; fz_position := position; fz_digest := [] |}.

Lemma finalized_order_extends_witness :
  StronglySorted before [fz 1 1; fz 1 2] ∧ take_finalized [fz 1 1; fz 1 2] [fz 1 2; fz 2 0; fz 1 9; fz 2 1] = [fz 1 1; fz 1 2; fz 2 0; fz 2 1]
  ∧ [fz 1 1; fz 1 2] `prefix_of` take_finalized [fz 1 1; fz 1 2] [fz 1 2; fz 2 0; fz 1 9; fz 2 1].
Proof.
  assert (StronglySorted before [fz 1 1; fz 1 2]) as Hs by (repeat constructor; unfold before; cbn; lia).
  split; [exact Hs|]. split; [reflexivity|].
  apply (finalized_order_extends [fz 1 1; fz 1 2] [fz 1 2; fz 2 0; fz 1 9; fz 2 1] Hs).
Defined.
