(* ===== verification/Meter.v ===== *)
(** The meter: [crates/aseman-application/src/meter.rs], with the usage, pricing and ledger ports of
    [crates/aseman-ports/src/finance.rs] on storage, [crates/aseman-capsule/src/metering.rs].

    A pass reads the cumulative counters of every workload, records the readings and the intervals
    between them, and settles the oldest pending intervals into the journal.  A transaction of the
    store is one step; rows are only ever created under unique keys.  The store may fail before or
    after the effect of any call, which is also what a crash between two calls leaves.  The theorems:
    every journal record is the exact price of one recorded interval and the accounts always add up to
    zero, no usage is measured twice and none is lost while the store answers, and a backlog of
    payable intervals is settled. *)

From S2P Require Import Prelude Text Core Finance Ports Vmm VmmStore.

Open Scope Z_scope.

(** ** The tables *)

(** A row of [core.journal_entry]. *)
Record EntryRow := { er_record_key : str; er_ordinal : i64; er_account : str; er_amount : i64 }.

(** Samples in the order of their creation, the other tables by key; a JSON column is kept as its
    value. *)
Record MeterDb := {
  md_samples : list (str * UsageSample);
  md_intervals : gmap str UsageInterval;
  md_lists : gmap str PriceList;
  md_journal : gmap str JournalRecord;
  md_entries : gmap str EntryRow;
}.
Definition set_samples (db : MeterDb) (samples : list (str * UsageSample)) : MeterDb :=
  {| md_samples := samples; md_intervals := md_intervals db; md_lists := md_lists db; md_journal := md_journal db; md_entries := md_entries db |}.
Definition set_intervals (db : MeterDb) (intervals : gmap str UsageInterval) : MeterDb :=
  {| md_samples := md_samples db; md_intervals := intervals; md_lists := md_lists db; md_journal := md_journal db; md_entries := md_entries db |}.
Definition set_lists (db : MeterDb) (lists : gmap str PriceList) : MeterDb :=
  {| md_samples := md_samples db; md_intervals := md_intervals db; md_lists := lists; md_journal := md_journal db; md_entries := md_entries db |}.
Definition set_journal (db : MeterDb) (journal : gmap str JournalRecord) (rows : gmap str EntryRow) : MeterDb :=
  {| md_samples := md_samples db; md_intervals := md_intervals db; md_lists := md_lists db; md_journal := journal; md_entries := rows |}.

(** Rows of a table in the order of a column, then of their key. *)
Definition column_le {V} (column : V → Z) (p q : str * V) : Prop :=
  column p.2 < column q.2 ∨ (column p.2 = column q.2 ∧ str_le p.1 q.1).
#[export] Instance column_le_dec {V} (column : V → Z) : RelDecision (column_le column).
Proof. intros p q. unfold column_le. apply _. Defined.
Definition rows_by {V} (column : V → Z) (table : gmap str V) : list (str * V) :=
  merge_sort (column_le column) (map_to_list table).

(** Intervals examined per page while looking for unsettled ones. *)
Definition PAGE : nat := 256.

Section store.
Context `{UuidText}.

Definition sample_key (workload : Uuid) (provider_sample_id : str) : str := uuid_text workload ++ lit "::" ++ provider_sample_id.

Definition StorageMetering_record_sample (sample : UsageSample) (db : MeterDb) : PortResult unit * MeterDb :=
  let key := sample_key (us_workload_id sample) (us_provider_sample_id sample) in
  if bool_decide (key ∈ (md_samples db).*1) then (Err PConflict, db)
  else (Ok tt, set_samples db (md_samples db ++ [(key, sample)])).

(** [order_by(collected_at_millis().desc())] and the first row: the newest, of several the first. *)
Definition newest (samples : list UsageSample) : option UsageSample :=
  foldl (λ best s, match best with
                   | None => Some s
                   | Some b => if us_collected_at_millis b <? us_collected_at_millis s then Some s else Some b
                   end) None samples.
Definition StorageMetering_previous_sample (workload : Uuid) (at_millis : i64) (db : MeterDb)
    : PortResult (option UsageSample) * MeterDb :=
  (Ok (newest (filter (λ s, us_workload_id s = workload ∧ us_collected_at_millis s < at_millis) (md_samples db).*2)), db).

Definition StorageMetering_record_interval (interval : UsageInterval) (db : MeterDb) : PortResult unit * MeterDb :=
  let key := settlement_key interval in
  match md_intervals db !! key with
  | Some _ => (Err PConflict, db)
  | None => (Ok tt, set_intervals db (<[key := interval]> (md_intervals db)))
  end.

(** The loop over the rows of a page: what was found, and whether the limit was reached. *)
Fixpoint scan_page (journal : gmap str JournalRecord) (limit : nat) (page : list (str * UsageInterval)) (found : list UsageInterval)
    : list UsageInterval * bool :=
  match page with
  | [] => (found, false)
  | (key, interval) :: page =>
      if is_none (journal !! key) then
        let found := found ++ [interval] in
        if bool_decide (length found = limit) then (found, true) else scan_page journal limit page found
      else scan_page journal limit page found
  end.
(** The loop over the pages, of at most [fuel] turns. *)
Fixpoint scan_pages (fuel : nat) (journal : gmap str JournalRecord) (limit : nat) (rows : list (str * UsageInterval)) (skip : nat)
    (found : list UsageInterval) : option (list UsageInterval) :=
  match fuel with
  | O => None
  | S fuel =>
      let page := take PAGE (drop skip rows) in
      let exhausted := bool_decide (length page < PAGE)%nat in
      let '(found, reached) := scan_page journal limit page found in
      if reached || exhausted then Some found else scan_pages fuel journal limit rows (skip + length page) found
  end.
(** Every turn that goes on skips a page, and there are no more pages than rows. *)
Definition StorageMetering_unsettled (limit : usize) (db : MeterDb) : PortResult (list UsageInterval) * MeterDb :=
  let rows := rows_by ui_interval_start_millis (md_intervals db) in
  (Ok (default [] (scan_pages (S (length rows)) (md_journal db) (Z.to_nat (Z.max limit 1)) rows 0 [])), db).

Definition StorageMetering_price_lists (db : MeterDb) : PortResult (list PriceList) * MeterDb :=
  (Ok (first_rows (rows_by pl_effective_from_millis (md_lists db))).*2, db).

(** [format!("{dimension:?}")] and the messages of [FinanceError]. *)
Definition Dimension_debug (d : Dimension) : str :=
  match d with
  | CpuMillis => lit "CpuMillis" | MemoryMibSeconds => lit "MemoryMibSeconds" | StorageMibSeconds => lit "StorageMibSeconds"
  | DiskReadBytes => lit "DiskReadBytes" | DiskWriteBytes => lit "DiskWriteBytes" | NetworkIngressBytes => lit "NetworkIngressBytes"
  | NetworkEgressBytes => lit "NetworkEgressBytes" | AcceleratorMillis => lit "AcceleratorMillis"
  end.
Definition FinanceError_text (e : FinanceError) : str :=
  match e with
  | Overflow => lit "the amount does not fit"
  | DifferentWorkloads => lit "two samples of different workloads are not an interval"
  | FinanceOutOfOrder => lit "a sample must be newer than the one before it"
  | UnpricedDimension d => lit "the price list does not price " ++ Dimension_debug d
  | Unbalanced => lit "a journal record's entries must sum to zero"
  | ZeroRate d => lit "the rate for " ++ Dimension_debug d ++ lit " is zero, which is a silent free ride"
  | UnbillableDimension d => Dimension_debug d ++ lit " may not be priced"
  | HoldClosed => lit "the hold is already captured or released"
  | CaptureExceedsHold => lit "a reservation is a ceiling: more cannot be captured than was held"
  end.

Definition StorageMetering_publish (list : PriceList) (db : MeterDb) : PortResult unit * MeterDb :=
  match PriceList_validate list with
  | Err (ZeroRate _ | UnbillableDimension _) => (Err (PDenied (lit "the price list is not chargeable")), db)
  | Err other => (Err (PFailed (FinanceError_text other)), db)
  | Ok _ =>
      match md_lists db !! pl_version list with
      | Some _ => (Err PConflict, db)
      | None => (Ok tt, set_lists db (<[pl_version list := list]> (md_lists db)))
      end
  end.

Definition entry_key (record_key : str) (ordinal : i64) : str := record_key ++ lit "::" ++ show ordinal.

(** The rows of a record's entries; [None] when a key is taken, which fails the transaction. *)
Fixpoint create_entries (record_key : str) (ordinal : i64) (entries : list Entry) (rows : gmap str EntryRow) : option (gmap str EntryRow) :=
  match entries with
  | [] => Some rows
  | entry :: entries =>
      let key := entry_key record_key ordinal in
      match rows !! key with
      | Some _ => None
      | None =>
          create_entries record_key (ordinal + 1) entries
            (<[key := {| er_record_key := record_key; er_ordinal := ordinal; er_account := e_account entry; er_amount := minor (e_amount entry) |}]> rows)
      end
  end.
Definition StorageMetering_commit (record : JournalRecord) (db : MeterDb) : PortResult unit * MeterDb :=
  if negb (balances record) then (Err (PDenied (lit "a journal record must balance")), db)
  else match md_journal db !! jr_idempotency_key record with
  | Some _ => (Ok tt, db)
  | None =>
      match create_entries (jr_idempotency_key record) 0 (jr_entries record) (md_entries db) with
      | None => (Err PConflict, db)
      | Some rows => (Ok tt, set_journal db (<[jr_idempotency_key record := record]> (md_journal db)) rows)
      end
  end.

Definition StorageMetering_record (idempotency_key : str) (db : MeterDb) : PortResult (option JournalRecord) :=
  Ok (md_journal db !! idempotency_key).

Definition account_rows (account : str) (db : MeterDb) : list (str * EntryRow) :=
  filter (λ row, er_account row.2 = account) (map_to_list (md_entries db)).
(** [Iterator::sum] on [i64] wraps in a release build. *)
Definition StorageMetering_balance (account : str) (db : MeterDb) : PortResult Minor :=
  Ok (MkMinor (wrap_i64 (sum_Z ((λ row, er_amount row.2) <$> first_rows (account_rows account db))))).

Definition StorageMetering_settlements (workload : Uuid) (limit : usize) (db : MeterDb) : PortResult (list JournalRecord) :=
  let keys := (first_rows (filter (λ row, ui_workload_id row.2 = workload) (map_to_list (md_intervals db)))).*1 in
  Ok (take (Z.to_nat (Z.max limit 1)) (filter (λ row, row.1 ∈ keys) (rows_by jr_at_millis (md_journal db)))).*2.

End store.

(** ** The pass *)

Record MeterReport := { workloads_seen : usize; samples_recorded : usize; intervals_recorded : usize; intervals_settled : usize }.
Definition MeterReport_default : MeterReport :=
  {| workloads_seen := 0; samples_recorded := 0; intervals_recorded := 0; intervals_settled := 0 |}.

(** The client of the virtual machine manager, which is not under our control: what it answers may
    change with every call. *)
Class VmmClient (V : Type) := {
  vm_workloads : WorkloadFilter → option str → usize → V → PortResult (Page WorkloadRecord) * V;
  vm_usage : Uuid → V → PortResult Usage * V;
  vm_workload : Uuid → V → PortResult (option WorkloadRecord) * V;
}.

(** How the store answers a call: as it should, with an error, or with an error although the
    transaction was committed. *)
Inductive Fault := Answers | FailsBefore (e : PortError) | FailsAfter (e : PortError).

Record Meter (V : Type) := MkMeter { mt_vmm : V; mt_db : MeterDb; mt_faults : list Fault; mt_report : MeterReport }.
Arguments MkMeter {V}. Arguments mt_vmm {V}. Arguments mt_db {V}. Arguments mt_faults {V}. Arguments mt_report {V}.

Definition pass (V A : Type) : Type := Meter V → PortResult A * Meter V.
#[export] Instance pass_ret {V} : MRet (pass V) := λ A a m, (Ok a, m).
#[export] Instance pass_bind {V} : MBind (pass V) := λ A B k p m,
  match p m with (Ok a, m) => k a m | (Err e, m) => (Err e, m) end.
Definition stop {V A} (e : PortError) : pass V A := λ m, (Err e, m).
(** The answer of a call as a value. *)
Definition answer {V A} (p : pass V A) : pass V (PortResult A) := λ m, let '(r, m) := p m in (Ok r, m).
Definition lift {V A} (r : PortResult A) : pass V A := λ m, (r, m).
Definition counting {V} (f : MeterReport → MeterReport) : pass V unit := λ m,
  (Ok tt, MkMeter (mt_vmm m) (mt_db m) (mt_faults m) (f (mt_report m))).

(** A call of the store. *)
Definition store {V A} (f : MeterDb → PortResult A * MeterDb) : pass V A := λ m,
  let m' := MkMeter (mt_vmm m) (mt_db m) (tail (mt_faults m)) (mt_report m) in
  match head (mt_faults m) with
  | Some (FailsBefore e) => (Err e, m')
  | Some (FailsAfter e) => (Err e, MkMeter (mt_vmm m) (f (mt_db m)).2 (tail (mt_faults m)) (mt_report m))
  | Some Answers | None =>
      let '(r, db) := f (mt_db m) in (r, MkMeter (mt_vmm m) db (tail (mt_faults m)) (mt_report m))
  end.
(** A call of the manager. *)
Definition manager {V A} (f : V → PortResult A * V) : pass V A := λ m,
  let '(r, v) := f (mt_vmm m) in (r, MkMeter v (mt_db m) (mt_faults m) (mt_report m)).

Definition count_seen (r : MeterReport) : MeterReport :=
  {| workloads_seen := workloads_seen r + 1; samples_recorded := samples_recorded r; intervals_recorded := intervals_recorded r; intervals_settled := intervals_settled r |}.
Definition count_sample (r : MeterReport) : MeterReport :=
  {| workloads_seen := workloads_seen r; samples_recorded := samples_recorded r + 1; intervals_recorded := intervals_recorded r; intervals_settled := intervals_settled r |}.
Definition count_interval (r : MeterReport) : MeterReport :=
  {| workloads_seen := workloads_seen r; samples_recorded := samples_recorded r; intervals_recorded := intervals_recorded r + 1; intervals_settled := intervals_settled r |}.
Definition count_settled (r : MeterReport) : MeterReport :=
  {| workloads_seen := workloads_seen r; samples_recorded := samples_recorded r; intervals_recorded := intervals_recorded r; intervals_settled := intervals_settled r + 1 |}.

Definition WorkloadFilter_default : WorkloadFilter :=
  {| wf_creature_id := None; wf_observed_state := None |}.

Section pass.
Context `{UuidText} {V : Type} `{VmmClient V} (revenue_account : str) (page_size settlement_batch : usize).

Definition usage_sample (workload : Uuid) (reading : Usage) : UsageSample :=
  {| us_workload_id := workload;
     us_provider_sample_id := lit "a501:" ++ show (usage_window_end_millis reading) ++ chr ":" :: show (usage_sequence reading);
     us_provider := lit "a501";
     us_collected_at_millis := usage_window_end_millis reading;
     us_cumulative := <[CpuMillis := usage_cpu_millis reading]>
                        (<[NetworkIngressBytes := usage_network_rx_bytes reading]> {[ NetworkEgressBytes := usage_network_tx_bytes reading ]}) |}.

Definition failing {A} (r : result A FinanceError) : pass V A := lift (map_err (λ e, PFailed (FinanceError_text e)) r).

(** What follows a sample that was recorded. *)
Definition collect_interval (previous : option UsageSample) (sample : UsageSample) : pass V unit :=
  match previous with
  | None => mret tt
  | Some previous =>
      interval ← failing (interval_between previous sample);
      r ← answer (store (StorageMetering_record_interval interval));
      match r with
      | Ok _ => counting count_interval
      | Err PConflict => mret tt
      | Err error => stop error
      end
  end.
(** The body of the loop over the workloads of a page. *)
Definition collect (workload : WorkloadRecord) : pass V unit :=
  counting count_seen;;
  reading ← manager (vm_usage (wr_id workload));
  let sample := usage_sample (wr_id workload) reading in
  previous ← store (StorageMetering_previous_sample (us_workload_id sample) (us_collected_at_millis sample));
  r ← answer (store (StorageMetering_record_sample sample));
  match r with
  | Ok _ => counting count_sample;; collect_interval previous sample
  | Err PConflict => mret tt
  | Err error => stop error
  end.
Fixpoint collect_page (workloads : list WorkloadRecord) : pass V unit :=
  match workloads with
  | [] => mret tt
  | workload :: workloads => collect workload;; collect_page workloads
  end.
(** The loop over the pages; [false] is running out of [fuel]. *)
Fixpoint collect_pages (fuel : nat) (cursor : option str) : pass V bool :=
  match fuel with
  | O => mret false
  | S fuel =>
      page ← manager (vm_workloads WorkloadFilter_default cursor (Z.max page_size 1));
      collect_page (page_items page);;
      match page_next_cursor page with
      | None => mret true
      | Some cursor => collect_pages fuel (Some cursor)
      end
  end.

Definition wallet_of (creature : Uuid) : str := lit "wallet:creature:" ++ uuid_text creature.

(** The body of the loop over the pending intervals: the record of one, and its commit. *)
Definition settlement_record (prices : list PriceList) (interval : UsageInterval) : pass V JournalRecord :=
  list ← lift (ok_or (price_list_at prices (ui_interval_start_millis interval)) (PFailed (lit "no price list covers the interval")));
  charge ← failing (price interval list);
  found ← manager (vm_workload (ui_workload_id interval));
  workload ← lift (ok_or found PNotFound);
  failing (settle charge (wallet_of (wl_creature_id (wr_labels workload))) revenue_account (ui_interval_end_millis interval)).
Definition settle_interval (prices : list PriceList) (interval : UsageInterval) : pass V unit :=
  record ← settlement_record prices interval;
  store (StorageMetering_commit record);;
  counting count_settled.
Fixpoint settle_intervals (prices : list PriceList) (intervals : list UsageInterval) : pass V unit :=
  match intervals with
  | [] => mret tt
  | interval :: intervals => settle_interval prices interval;; settle_intervals prices intervals
  end.
Definition settle_pending : pass V unit :=
  prices ← store StorageMetering_price_lists;
  intervals ← store (StorageMetering_unsettled (Z.max settlement_batch 1));
  settle_intervals prices intervals.

(** [RunMeterPass::execute], of at most [fuel] pages; [None] is running out of it. *)
Definition run_meter_pass (fuel : nat) (v : V) (db : MeterDb) (faults : list Fault) : option (PortResult MeterReport) * V * MeterDb :=
  match collect_pages fuel None (MkMeter v db faults MeterReport_default) with
  | (Err e, m) => (Some (Err e), mt_vmm m, mt_db m)
  | (Ok false, m) => (None, mt_vmm m, mt_db m)
  | (Ok true, m) =>
      match settle_pending m with
      | (Err e, m) => (Some (Err e), mt_vmm m, mt_db m)
      | (Ok _, m) => (Some (Ok (mt_report m)), mt_vmm m, mt_db m)
      end
  end.

(** Passes with any faults of the store and price lists published between them, while the manager
    changes as [evolves] allows; when [quiet] the store always answers. *)
Inductive meter_step (evolves : relation V) (quiet : bool) : relation (V * MeterDb) :=
| step_pass fuel faults v db :
    (quiet = true → Forall (λ f, f = Answers) faults) →
    meter_step evolves quiet (v, db) ((run_meter_pass fuel v db faults).1.2, (run_meter_pass fuel v db faults).2)
| step_publish list v db : meter_step evolves quiet (v, db) (v, (StorageMetering_publish list db).2)
| step_evolve v v' db : evolves v v' → meter_step evolves quiet (v, db) (v', db).

End pass.

Definition empty_store : MeterDb := {| md_samples := []; md_intervals := ∅; md_lists := ∅; md_journal := ∅; md_entries := ∅ |}.

(** ** Reasoning about passes *)

(** What a pass establishes from [P]: [Q] when it answers, [E] when it stops. *)
Section logic.
Context {V : Type}.
Implicit Types P : Meter V → Prop.

Definition triple {A} P (p : pass V A) (Q : A → Meter V → Prop) (E : PortError → Meter V → Prop) : Prop :=
  ∀ m, P m → match p m with (Ok a, m) => Q a m | (Err e, m) => E e m end.

Lemma triple_weaken {A} P P' (p : pass V A) Q Q' E :
  triple P p Q E → (∀ m, P' m → P m) → (∀ a m, Q a m → Q' a m) → triple P' p Q' E.
Proof. intros T HP HQ m Hm. specialize (T m (HP m Hm)). destruct (p m) as [[]]; auto. Qed.

Lemma triple_fail {A} P (p : pass V A) Q (E E' : PortError → Meter V → Prop) :
  triple P p Q E → (∀ e m, E e m → E' e m) → triple P p Q E'.
Proof. intros T HE m Hm. specialize (T m Hm). destruct (p m) as [[]]; auto. Qed.

Lemma triple_ret {A} P (a : A) (Q : A → Meter V → Prop) E : (∀ m, P m → Q a m) → triple P (mret a) Q E.
Proof. intros H m. apply H. Qed.

Lemma triple_bind {A B} P (p : pass V A) (k : A → pass V B) R Q E :
  triple P p R E → (∀ a, triple (R a) (k a) Q E) → triple P (p ≫= k) Q E.
Proof.
  intros T K m Hm. specialize (T m Hm). unfold mbind, pass_bind. destruct (p m) as [[a|e] m']; [by apply K|done].
Qed.

Lemma triple_stop {A} P e (Q : A → Meter V → Prop) E : (∀ m, P m → E e m) → triple P (stop e) Q E.
Proof. intros H m. apply H. Qed.

Lemma triple_lift {A} P (r : PortResult A) Q E :
  (∀ a m, r = Ok a → P m → Q a m) → (∀ e m, P m → E e m) → triple P (lift r) Q E.
Proof. intros HQ HE m Hm. unfold lift. destruct r; auto. Qed.

Lemma triple_answer {A} P (p : pass V A) (R : PortResult A → Meter V → Prop) E :
  triple P p (λ a, R (Ok a)) (λ e, R (Err e)) → triple P (answer p) R E.
Proof. intros T m Hm. specialize (T m Hm). unfold answer. by destruct (p m) as [[]]. Qed.

Lemma triple_counting P f (Q : unit → Meter V → Prop) E :
  (∀ m, P m → Q tt (MkMeter (mt_vmm m) (mt_db m) (mt_faults m) (f (mt_report m)))) → triple P (counting f) Q E.
Proof. intros H m Hm. by apply H. Qed.

Lemma triple_manager {A} P (f : V → PortResult A * V) Q E :
  (∀ m r v, P m → f (mt_vmm m) = (r, v) →
     match r with Ok a => Q a (MkMeter v (mt_db m) (mt_faults m) (mt_report m)) | Err e => E e (MkMeter v (mt_db m) (mt_faults m) (mt_report m)) end) →
  triple P (manager f) Q E.
Proof.
  intros H m Hm. unfold manager. destruct (f (mt_vmm m)) as [r v] eqn:F. specialize (H m r v Hm F). by destruct r.
Qed.

(** A call of the store: it answers, it fails with nothing done, or it fails with its effect done. *)
Lemma triple_store {A} P (f : MeterDb → PortResult A * MeterDb) Q E :
  (∀ m r db, P m → f (mt_db m) = (r, db) → let m' := MkMeter (mt_vmm m) db (tail (mt_faults m)) (mt_report m) in
     match r with Ok a => Q a m' | Err e => E e m' end) →
  (∀ m e, P m → head (mt_faults m) = Some (FailsBefore e) → E e (MkMeter (mt_vmm m) (mt_db m) (tail (mt_faults m)) (mt_report m))) →
  (∀ m e, P m → head (mt_faults m) = Some (FailsAfter e) → E e (MkMeter (mt_vmm m) (f (mt_db m)).2 (tail (mt_faults m)) (mt_report m))) →
  triple P (store f) Q E.
Proof.
  intros H1 H2 H3 m Hm. unfold store. destruct (head (mt_faults m)) as [[|e|e]|] eqn:F; [|by apply H2|by apply H3|];
  (destruct (f (mt_db m)) as [r db] eqn:Ef; specialize (H1 m r db Hm Ef); by destruct r).
Qed.

(** A pass whose effects keep [I], whatever it answers. *)
Definition keeps (I : Meter V → Prop) {A} (p : pass V A) : Prop := triple I p (λ _, I) (λ _, I).
End logic.

(** ** The books *)

Lemma settle_Ok charge wallet revenue t r :
  settle charge wallet revenue t = Ok r →
  r = {| jr_idempotency_key := ch_settlement_key charge; jr_at_millis := t;
         jr_entries := [ {| e_account := wallet; e_amount := MkMinor (- minor (ch_amount charge)) |};
                         {| e_account := revenue; e_amount := ch_amount charge |} ];
         jr_price_version := Some (ch_price_version charge) |} ∧ balances r = true.
Proof.
  unfold settle, checked_neg_i64. destruct (checked _ _ _) as [n|] eqn:N; [|done]. apply checked_Some in N as [-> _].
  cbn [ok_or]. by intros [-> ?]%balanced_or_Ok.
Qed.

Lemma price_key `{UuidText} interval list charge : price interval list = Ok charge →
  ch_settlement_key charge = settlement_key interval ∧ ch_price_version charge = pl_version list.
Proof. unfold price. destruct (price_loop _ _ _ _); [|done]. by intros [= <-]. Qed.

Lemma entry_key_inj k k' n n' : entry_key k n = entry_key k' n' → k = k' ∧ n = n'.
Proof.
  unfold entry_key. intros E. assert (reverse (show n) ++ chr ":" :: (chr ":" :: reverse k) = reverse (show n') ++ chr ":" :: (chr ":" :: reverse k')) as E'.
  { apply (f_equal reverse) in E. rewrite !reverse_app in E. rewrite <- !(assoc_L (++)) in E. exact E. }
  apply sep_inj in E' as [E1 [= E2]]; [|rewrite elem_of_reverse; apply show_no_colon..].
  apply (inj reverse) in E1, E2. by apply (inj show) in E1.
Qed.

(** ** The scan for unsettled intervals *)

Definition pending (journal : gmap str JournalRecord) (rows : list (str * UsageInterval)) : list UsageInterval :=
  (filter (λ row, journal !! row.1 = None) rows).*2.

Lemma pending_app journal rows rows' : pending journal (rows ++ rows') = pending journal rows ++ pending journal rows'.
Proof. unfold pending. by rewrite filter_app, fmap_app. Qed.

Lemma scan_page_spec journal limit page found :
  (length found < limit)%nat →
  scan_page journal limit page found =
    (take limit (found ++ pending journal page), bool_decide (limit ≤ length (found ++ pending journal page))%nat).
Proof.
  revert found. induction page as [|[key interval] page IH]; intros found Hl; cbn [scan_page].
  { unfold pending. cbn. rewrite app_nil_r, take_ge by lia. by rewrite bool_decide_eq_false_2 by lia. }
  unfold pending in *. rewrite filter_cons. cbn [fst]. destruct (journal !! key) eqn:J; cbn [is_none].
  - rewrite decide_False by done. by apply IH.
  - rewrite decide_True by done. csimpl. rewrite length_app. cbn [length]. case_bool_decide as E.
    + generalize (filter (λ row : str * UsageInterval, journal !! row.1 = None) page).*2. intros more.
      replace (found ++ interval :: more) with ((found ++ [interval]) ++ more) by (by rewrite <- (assoc_L (++))).
      assert (length (found ++ [interval]) = limit) as L by (rewrite length_app; cbn; lia).
      rewrite bool_decide_eq_true_2 by (rewrite (length_app (found ++ _)); lia). by rewrite take_app_le, take_ge by lia.
    + rewrite IH by (rewrite length_app; cbn; lia). by rewrite <- (assoc_L (++)).
Qed.

Lemma scan_pages_spec fuel journal limit rows skip found :
  (length found < limit)%nat → (length (drop skip rows) < fuel)%nat →
  scan_pages fuel journal limit rows skip found = Some (take limit (found ++ pending journal (drop skip rows))).
Proof.
  revert skip found. induction fuel as [|fuel IH]; intros skip found Hl Hf; [lia|]. cbn [scan_pages].
  rewrite scan_page_spec by done.
  pose proof (take_drop PAGE (drop skip rows)) as Split. set (page := take PAGE (drop skip rows)) in *.
  assert (pending journal (drop skip rows) = pending journal page ++ pending journal (drop PAGE (drop skip rows))) as ->
    by (by rewrite <- pending_app, Split).
  rewrite (assoc_L (++)). destruct (decide (limit ≤ length (found ++ pending journal page))%nat) as [Hr|Hr].
  { rewrite bool_decide_eq_true_2 by done. cbn [orb]. by rewrite (take_app_le (found ++ _)) by done. }
  rewrite bool_decide_eq_false_2 by done. cbn [orb]. rewrite take_ge by lia.
  case_bool_decide as He.
  - rewrite (drop_ge (drop skip rows)); [by rewrite app_nil_r, take_ge by lia|].
    unfold page in He. rewrite length_take in He. lia.
  - rewrite IH; [|lia|].
    + rewrite drop_drop. by replace (skip + length page)%nat with (skip + PAGE)%nat by (unfold page in *; rewrite length_take in *; lia).
    + unfold page in *. rewrite length_take, !length_drop in *. unfold PAGE in *. lia.
Qed.

Lemma unsettled_spec limit db :
  StorageMetering_unsettled limit db =
    (Ok (take (Z.to_nat (Z.max limit 1)) (pending (md_journal db) (rows_by ui_interval_start_millis (md_intervals db)))), db).
Proof. unfold StorageMetering_unsettled. rewrite scan_pages_spec; [done|cbn; lia|rewrite drop_0; lia]. Qed.

Lemma elem_of_rows_by {V} (column : V → Z) table k v : (k, v) ∈ rows_by column table ↔ table !! k = Some v.
Proof. unfold rows_by. by rewrite merge_sort_Permutation, elem_of_map_to_list. Qed.

Lemma elem_of_pending `{UuidText} db i :
  map_Forall (λ k i, settlement_key i = k) (md_intervals db) →
  i ∈ pending (md_journal db) (rows_by ui_interval_start_millis (md_intervals db)) ↔
  md_intervals db !! settlement_key i = Some i ∧ md_journal db !! settlement_key i = None.
Proof.
  intros K. unfold pending. rewrite list_elem_of_fmap. split.
  - intros ([k j] & -> & [Hj Hr]%list_elem_of_filter). apply elem_of_rows_by in Hr. cbn in *. by rewrite (K _ _ Hr).
  - intros [Hi Hj]. exists (settlement_key i, i). split; [done|]. apply list_elem_of_filter. by rewrite elem_of_rows_by.
Qed.

(** What all entries of an account add up to. *)
Definition account_total (account : str) (db : MeterDb) : Z :=
  msum (λ _ row, if bool_decide (er_account row = account) then er_amount row else 0) (md_entries db).

Lemma account_total_rows account db : account_total account db = sum_Z ((λ row, er_amount row.2) <$> account_rows account db).
Proof.
  unfold account_total, account_rows. rewrite msum_list. induction (map_to_list (md_entries db)) as [|[k row] rows IH]; [done|].
  rewrite filter_cons. unfold sum_Z in *. cbn [fmap list_fmap foldr fst snd].
  case_decide as E; [rewrite bool_decide_eq_true_2 by exact E|rewrite bool_decide_eq_false_2 by exact E]; cbn [fmap list_fmap foldr snd]; rewrite IH; lia.
Qed.


(** Beyond that it leaves entries out: the balance of an account that only earns falls behind. *)
Theorem balance_falls_behind account db :
  (DEFAULT_ROWS < length (account_rows account db))%nat → Forall (λ row, 0 < er_amount row.2) (account_rows account db) →
  sum_Z ((λ row, er_amount row.2) <$> first_rows (account_rows account db)) < account_total account db.
Proof.
  intros Hl Hp. rewrite account_total_rows. rewrite <- (take_drop DEFAULT_ROWS (account_rows account db)) at 2. rewrite fmap_app, sum_Z_app.
  fold (first_rows (account_rows account db)). enough (0 < sum_Z ((λ row, er_amount row.2) <$> drop DEFAULT_ROWS (account_rows account db))) by lia.
  apply (Forall_drop _ DEFAULT_ROWS) in Hp. destruct (drop DEFAULT_ROWS (account_rows account db)) as [|row rows] eqn:E.
  - apply (f_equal length) in E. rewrite length_drop in E. cbn in E. lia.
  - apply Forall_cons in Hp as [Hr Hrs]. cbn. enough (0 ≤ sum_Z ((λ row, er_amount row.2) <$> rows)) by (unfold sum_Z in *; lia).
    clear E Hr. induction Hrs as [|x l Hx _ IH]; [done|]. cbn. unfold sum_Z in *. lia.
Qed.

Section books.
Context `{UuidText} {V : Type} `{VmmClient V} (revenue_account : str) (page_size settlement_batch : usize).

(** A journal record is the price of one recorded interval, at a published list in force when the
    interval began, taken from the wallet of a creature. *)
Definition settled (db : MeterDb) (k : str) (r : JournalRecord) : Prop :=
  ∃ interval list charge creature,
    md_intervals db !! k = Some interval ∧ settlement_key interval = k ∧
    md_lists db !! pl_version list = Some list ∧ pl_effective_from_millis list ≤ ui_interval_start_millis interval ∧
    price interval list = Ok charge ∧
    settle charge (wallet_of creature) revenue_account (ui_interval_end_millis interval) = Ok r.

Record books (db : MeterDb) : Prop := {
  bk_intervals : map_Forall (λ k i, settlement_key i = k) (md_intervals db);
  bk_lists : map_Forall (λ k l, pl_version l = k) (md_lists db);
  bk_journal : map_Forall (settled db) (md_journal db);
  bk_rows key row : md_entries db !! key = Some row →
    is_Some (md_journal db !! er_record_key row) ∧ key = entry_key (er_record_key row) (er_ordinal row);
  bk_totals account : account_total account db = msum (λ _ r, effect account (jr_entries r)) (md_journal db);
  bk_zero : msum (λ _ row, er_amount row) (md_entries db) = 0;
}.

Lemma settled_mono db db' k r :
  md_intervals db ⊆ md_intervals db' → md_lists db ⊆ md_lists db' → settled db k r → settled db' k r.
Proof.
  intros Hi Hl (i & l & c & creature & A & B & C & D). exists i, l, c, creature.
  split_and!; [by eapply lookup_weaken|done|by eapply lookup_weaken|apply D..].
Qed.

Lemma books_grow db db' :
  books db → md_journal db' = md_journal db → md_entries db' = md_entries db →
  md_intervals db ⊆ md_intervals db' → md_lists db ⊆ md_lists db' →
  map_Forall (λ k i, settlement_key i = k) (md_intervals db') → map_Forall (λ k l, pl_version l = k) (md_lists db') →
  books db'.
Proof.
  intros [B1 B2 B3 B4 B5 B6] Ej Ee Hi Hl Ki Kl. constructor; unfold account_total in *; rewrite ?Ej, ?Ee; try done.
  intros k r Hr. eapply settled_mono; eauto.
Qed.

(** The rows that [create_entries] adds. *)
Lemma create_entries_spec k es n rows rows' :
  create_entries k n es rows = Some rows' →
  (∀ g : str → Z → Z, msum (λ _ row, g (er_account row) (er_amount row)) rows' =
     sum_Z ((λ e, g (e_account e) (minor (e_amount e))) <$> es) + msum (λ _ row, g (er_account row) (er_amount row)) rows) ∧
  (∀ key row, rows' !! key = Some row →
     rows !! key = Some row ∨ (er_record_key row = k ∧ key = entry_key k (er_ordinal row))).
Proof.
  revert n rows. induction es as [|e es IH]; intros n rows; cbn [create_entries].
  { intros [= <-]. split; [intros g; cbn; lia|auto]. }
  destruct (rows !! entry_key k n) eqn:R; [done|]. intros [S1 S2]%IH. split.
  - intros g. rewrite S1, msum_insert_new by done. csimpl. lia.
  - intros key row [Hrow|?]%S2; [|auto]. destruct (decide (key = entry_key k n)) as [->|].
    + rewrite lookup_insert_eq in Hrow. injection Hrow as <-. auto.
    + rewrite lookup_insert_ne in Hrow by done. auto.
Qed.

Lemma effect_sum account es :
  effect account es = sum_Z ((λ e, if bool_decide (e_account e = account) then minor (e_amount e) else 0) <$> es).
Proof.
  unfold effect, amounts. induction es as [|e es IH]; [done|]. rewrite filter_cons. csimpl. rewrite <- IH.
  destruct (decide (e_account e = account)); [rewrite bool_decide_eq_true_2 by done|rewrite bool_decide_eq_false_2 by done]; csimpl; lia.
Qed.

Lemma create_entries_free k es n rows :
  (∀ j, n ≤ j → rows !! entry_key k j = None) → is_Some (create_entries k n es rows).
Proof.
  revert n rows. induction es as [|e es IH]; intros n rows Hf; cbn [create_entries]; [eauto|].
  rewrite Hf by lia. apply IH. intros j Hj. rewrite lookup_insert_ne; [apply Hf; lia|]. intros [_ ?]%entry_key_inj. lia.
Qed.

Lemma commit_spec record db r db' :
  books db → balances record = true → StorageMetering_commit record db = (r, db') →
  r = Ok tt ∧ is_Some (md_journal db' !! jr_idempotency_key record) ∧ md_journal db ⊆ md_journal db' ∧
  md_samples db' = md_samples db ∧ md_intervals db' = md_intervals db ∧ md_lists db' = md_lists db ∧
  (settled db (jr_idempotency_key record) record → books db').
Proof.
  intros [B1 B2 B3 B4 B5 B6] Hb. unfold StorageMetering_commit. rewrite Hb. cbn [negb].
  destruct (md_journal db !! jr_idempotency_key record) eqn:J; [intros [= <- <-]; split_and!; eauto; by constructor|].
  destruct (create_entries_free (jr_idempotency_key record) (jr_entries record) 0 (md_entries db)) as [rows E].
  { intros j _. destruct (md_entries db !! _) eqn:R; [|done]. apply B4 in R as [[? R1] [R2 ?]%entry_key_inj]. congruence. }
  rewrite E. intros [= <- <-]. apply create_entries_spec in E as [S1 S2]. cbn [set_journal md_journal md_samples md_intervals md_lists].
  split_and!; [done|rewrite lookup_insert_eq; eauto|by apply insert_subseteq|done..|].
  intros Hs. constructor; cbn [set_journal md_journal md_intervals md_lists md_entries]; [done|done| | | |].
  - intros k x Hx. destruct (decide (k = jr_idempotency_key record)) as [->|];
      [rewrite lookup_insert_eq in Hx; by injection Hx as <-|rewrite lookup_insert_ne in Hx by done; by apply B3].
  - intros key row [[Hj Hk]%B4|[Hk ->]]%S2; [|rewrite Hk, lookup_insert_eq; eauto].
    split; [|done]. destruct Hj as [x Hx]. rewrite lookup_insert_ne; eauto. congruence.
  - intros account. rewrite msum_insert_new by done. rewrite <- B5. unfold account_total. cbn [set_journal md_entries].
    rewrite effect_sum. exact (S1 (λ a x, if bool_decide (a = account) then x else 0)).
  - rewrite (S1 (λ _ x, x)), B6. apply balances_sum in Hb. unfold amounts in Hb. lia.
Qed.

Definition booked (m : Meter V) : Prop := books (mt_db m).

Lemma record_sample_books sample db : books db → books (StorageMetering_record_sample sample db).2.
Proof.
  intros B. unfold StorageMetering_record_sample. case_bool_decide; [done|]. by apply (books_grow db); try apply B.
Qed.

Lemma record_interval_books interval db : books db → books (StorageMetering_record_interval interval db).2.
Proof.
  intros B. unfold StorageMetering_record_interval. destruct (md_intervals db !! _) eqn:E; [done|].
  apply (books_grow db); try done; [by apply insert_subseteq| |apply B].
  apply map_Forall_insert_2; [done|apply B].
Qed.

Lemma publish_books list db : books db → books (StorageMetering_publish list db).2.
Proof.
  intros B. unfold StorageMetering_publish. destruct (PriceList_validate list) as [|[]]; try done.
  destruct (md_lists db !! _) eqn:E; [done|]. apply (books_grow db); try done; [by apply insert_subseteq|apply B|].
  apply map_Forall_insert_2; [done|apply B].
Qed.

(** A call of the store that keeps the books. *)
Lemma store_keeps_books {A} (f : MeterDb → PortResult A * MeterDb) :
  (∀ db, books db → books (f db).2) → keeps (V := V) booked (store f).
Proof.
  intros Hf. apply triple_store; [|done|by intros m e Hm _; apply Hf].
  intros m r db Hm Ef. apply Hf in Hm. rewrite Ef in Hm. by destruct r.
Qed.

Lemma manager_keeps {A} (f : V → PortResult A * V) : keeps booked (manager f).
Proof. apply triple_manager. intros m [] v Hm _; exact Hm. Qed.

Lemma collect_keeps workload : keeps (V := V) booked (collect workload).
Proof.
  unfold collect. eapply triple_bind; [by apply (triple_counting _ _ (λ _, booked))|intros []].
  eapply triple_bind; [apply manager_keeps|intros reading]. eapply triple_bind; [by apply store_keeps_books|intros previous].
  eapply triple_bind; [apply (triple_answer _ _ (λ _, booked)), store_keeps_books, record_sample_books|intros r].
  destruct r as [|[]]; try (by apply triple_stop); [|by apply triple_ret].
  eapply triple_bind; [by apply (triple_counting _ _ (λ _, booked))|intros []].
  destruct previous as [previous|]; cbn [collect_interval]; [|by apply triple_ret].
  eapply triple_bind; [by apply (triple_lift _ _ (λ _, booked))|intros interval].
  eapply triple_bind; [apply (triple_answer _ _ (λ _, booked)), store_keeps_books, record_interval_books|intros r].
  destruct r as [|[]]; try (by apply triple_stop); [by apply triple_counting|by apply triple_ret].
Qed.

Lemma collect_page_keeps workloads : keeps (V := V) booked (collect_page workloads).
Proof.
  induction workloads as [|w workloads IH]; [by apply triple_ret|]. cbn [collect_page]. eapply triple_bind; [apply collect_keeps|done].
Qed.

Lemma collect_pages_keeps fuel cursor : keeps booked (collect_pages (V := V) page_size fuel cursor).
Proof.
  revert cursor. induction fuel as [|fuel IH]; intros cursor; [by apply triple_ret|]. cbn [collect_pages].
  eapply triple_bind; [apply manager_keeps|intros page]. eapply triple_bind; [apply collect_page_keeps|intros []].
  destruct (page_next_cursor page); [apply IH|by apply triple_ret].
Qed.

(** What the second half of a pass has read of the store. *)
Definition known (prices : list PriceList) (intervals : list UsageInterval) (m : Meter V) : Prop :=
  booked m ∧ Forall (λ l, md_lists (mt_db m) !! pl_version l = Some l) prices ∧
  Forall (λ i, md_intervals (mt_db m) !! settlement_key i = Some i) intervals.

(** The record of an interval settles it. *)
Lemma settlement_record_settles prices interval (P : Meter V → Prop) :
  (∀ m, P m → known prices [interval] m) → (∀ m v, P m → P (MkMeter v (mt_db m) (mt_faults m) (mt_report m))) →
  triple P (settlement_record revenue_account prices interval)
    (λ record m, P m ∧ balances record = true ∧ settled (mt_db m) (jr_idempotency_key record) record ∧
                 jr_idempotency_key record = settlement_key interval) (λ _, P).
Proof.
  intros HP Hv. unfold settlement_record.
  eapply (triple_bind _ _ _ (λ list m, P m ∧ price_list_at prices (ui_interval_start_millis interval) = Some list)).
  { apply triple_lift; [|done]. intros list m E Hm. split; [done|]. destruct (price_list_at prices _); cbn in E; congruence. }
  intros list. eapply (triple_bind _ _ _ (λ charge m, P m ∧ price_list_at prices (ui_interval_start_millis interval) = Some list ∧ price interval list = Ok charge)).
  { apply triple_lift; [|by intros e m []]. intros charge m E [? ?]. split_and!; [done|done|]. destruct (price interval list); cbn in E; congruence. }
  intros charge. set (R := λ m : Meter V, P m ∧ price_list_at prices (ui_interval_start_millis interval) = Some list ∧ price interval list = Ok charge).
  eapply (triple_bind _ _ _ (λ _, R)).
  { apply triple_manager. intros m r v (? & ? & ?) _. destruct r; [split_and!; auto|auto]. }
  intros found. eapply (triple_bind _ _ _ (λ _, R)); [by apply triple_lift; [|intros e m []]|].
  intros workload. apply triple_lift; [|by intros e m []]. intros record m E (Hm & El & Ep).
  destruct (settle charge _ _ _) as [r|] eqn:Es; [|done]. cbn in E. injection E as ->.
  destruct (settle_Ok _ _ _ _ _ Es) as [Er Hb]. destruct (price_key _ _ _ Ep) as [Ek _].
  assert (jr_idempotency_key record = settlement_key interval) as Ei by (by rewrite Er).
  split_and!; [done|done| |done]. rewrite Ei. destruct (HP m Hm) as (B & Hl & [Hi _]%Forall_cons).
  unfold price_list_at in El. pose proof (max_by_key_spec pl_effective_from_millis (filter (λ list, pl_effective_from_millis list <= ui_interval_start_millis interval) prices)) as M.
  rewrite El in M. destruct M as [[? Hin]%list_elem_of_filter _]. rewrite Forall_forall in Hl.
  exists interval, list, charge, (wl_creature_id (wr_labels workload)). split_and!; auto.
Qed.

Lemma settle_interval_keeps prices interval intervals :
  triple (known prices (interval :: intervals)) (settle_interval revenue_account prices interval)
    (λ _, known prices intervals) (λ _, booked).
Proof.
  unfold settle_interval. set (P := known prices (interval :: intervals)).
  assert (∀ m, P m → booked m) as PB by (by intros m []).
  assert (∀ m, P m → known prices [interval] m) as K.
  { intros m (? & ? & [? ?]%Forall_cons). split_and!; [done|done|by rewrite Forall_singleton]. }
  eapply triple_bind; [eapply triple_fail; [exact (settlement_record_settles prices interval P K (λ m v Hm, Hm))|by intros e m ?%PB]|].
  clear K. intros record. cbn beta. eapply (triple_bind _ _ _ (λ _, known prices intervals)); [|by intros _; apply triple_counting].
  assert (∀ m r db, P m ∧ balances record = true ∧ settled (mt_db m) (jr_idempotency_key record) record ∧ jr_idempotency_key record = settlement_key interval →
            StorageMetering_commit record (mt_db m) = (r, db) →
            r = Ok tt ∧ ∀ faults, known prices intervals (MkMeter (mt_vmm m) db faults (mt_report m))) as C.
  { intros m r db ((B & Hl & [_ Hi]%Forall_cons) & Hb & Hs & _) E. destruct (commit_spec _ _ _ _ B Hb E) as (-> & _ & _ & _ & Ei & El & Hbk).
    split; [done|]. intros faults. split_and!; cbn [mt_db]; [by apply Hbk|by rewrite El|by rewrite Ei]. }
  apply triple_store.
  - intros m r db Hm E. destruct (C m r db Hm E) as [-> K]. apply K.
  - intros m e [Hm _] _. by apply PB in Hm.
  - intros m e Hm _. destruct (StorageMetering_commit record (mt_db m)) as [r db] eqn:E. by destruct (C m r db Hm E) as [_ K]; apply K.
Qed.

Lemma settle_intervals_keeps prices intervals :
  triple (known prices intervals) (settle_intervals revenue_account prices intervals) (λ _, booked) (λ _, booked).
Proof.
  induction intervals as [|i intervals IH]; [by apply triple_ret; intros m []|]. cbn [settle_intervals].
  eapply triple_bind; [apply settle_interval_keeps|]. intros []. apply IH.
Qed.

Lemma price_lists_known m : booked m →
  Forall (λ l, md_lists (mt_db m) !! pl_version l = Some l) (first_rows (rows_by pl_effective_from_millis (md_lists (mt_db m)))).*2.
Proof.
  intros B. apply Forall_forall. intros l ([k l'] & -> & Hl)%list_elem_of_fmap. apply elem_of_first_rows, elem_of_rows_by in Hl. cbn.
  by rewrite (bk_lists _ B _ _ Hl).
Qed.

Lemma unsettled_known limit m : booked m →
  Forall (λ i, md_intervals (mt_db m) !! settlement_key i = Some i)
    (take limit (pending (md_journal (mt_db m)) (rows_by ui_interval_start_millis (md_intervals (mt_db m))))).
Proof. intros B. apply Forall_take, Forall_forall. intros i [? _]%elem_of_pending; [done|apply B]. Qed.

Lemma settle_pending_keeps : keeps booked (settle_pending revenue_account settlement_batch).
Proof.
  unfold settle_pending. eapply (triple_bind _ _ _ (λ prices, known prices [])).
  { apply triple_store; [|done|done]. intros m r db B [= <- <-]. split_and!; [done|exact (price_lists_known m B)|constructor]. }
  intros prices. eapply (triple_bind _ _ _ (known prices)); [|apply settle_intervals_keeps].
  apply triple_store; [|by intros m e []..|].
  - intros m r db (B & Hl & _). rewrite unsettled_spec. intros [= <- <-]. split_and!; [done|done|exact (unsettled_known _ m B)].
  - intros m e [B _] _. by rewrite unsettled_spec.
Qed.

Lemma pass_keeps fuel v db faults : books db → books (run_meter_pass revenue_account page_size settlement_batch fuel v db faults).2.
Proof.
  intros B. unfold run_meter_pass. pose proof (collect_pages_keeps fuel None (MkMeter v db faults MeterReport_default) B) as C.
  destruct (collect_pages _ fuel None _) as [[[]|] m]; [|done..].
  pose proof (settle_pending_keeps m C) as S. by destruct (settle_pending _ _ m) as [[] m'].
Qed.

Lemma meter_books_empty : books empty_store.
Proof. constructor; try done; intros; by rewrite ?msum_empty. Qed.

Lemma meter_keeps evolves quiet x y :
  rtc (meter_step revenue_account page_size settlement_batch evolves quiet) x y → books x.2 → books y.2.
Proof.
  intros R B. eapply (rtc_invariant _ (λ x, books x.2)); [|exact B|exact R]. clear.
  intros x y B S. destruct S; cbn [snd] in *; [by apply pass_keeps|by apply publish_books|done].
Qed.

End books.

(** ** Usage is measured once *)

(** The reading [u] may follow [l]: it is the same reading, or a later one of counters that did not
    go back. *)
Definition newer (s s' : UsageSample) : Prop :=
  us_collected_at_millis s < us_collected_at_millis s' ∧ ∀ d, counter d s ≤ counter d s'.
Definition follows (workload : Uuid) (l u : Usage) : Prop :=
  usage_sample workload l = usage_sample workload u ∨ newer (usage_sample workload l) (usage_sample workload u).
Definition counters_fit (u : Usage) : Prop :=
  in_u64 (usage_cpu_millis u) ∧ in_u64 (usage_network_rx_bytes u) ∧ in_u64 (usage_network_tx_bytes u).

(** A manager whose readings of [workload] follow one another: [last_reading] is the last it gave. *)
Class SteadyReadings (V : Type) `{VmmClient V} (workload : Uuid) := {
  last_reading : V → option Usage;
  steady_usage v r v' : vm_usage workload v = (r, v') →
    match r with
    | Ok u => counters_fit u ∧ last_reading v' = Some u ∧ ∀ l, last_reading v = Some l → follows workload l u
    | Err _ => last_reading v' = last_reading v
    end;
  steady_other id v r v' : id ≠ workload → vm_usage id v = (r, v') → last_reading v' = last_reading v;
  steady_workloads f cursor limit v r v' : vm_workloads f cursor limit v = (r, v') →
    last_reading v' = last_reading v ∧ ∀ page, r = Ok page → Forall (λ x, is_uuid (wr_id x)) (page_items page);
  steady_workload id v r v' : vm_workload id v = (r, v') → last_reading v' = last_reading v;
}.

(** The samples of a workload in the order they were recorded, the usage its intervals measure, and
    what its counter grew by. *)
Definition samples_of (workload : Uuid) (db : MeterDb) : list UsageSample :=
  filter (λ s, us_workload_id s = workload) (md_samples db).*2.
Definition measured (workload : Uuid) (d : Dimension) (db : MeterDb) : Z :=
  msum (λ _ i, if bool_decide (ui_workload_id i = workload) then default 0 (ui_deltas i !! d) else 0) (md_intervals db).
Definition growth (d : Dimension) (samples : list UsageSample) : Z :=
  match head samples, last samples with Some first, Some newest => counter d newest - counter d first | _, _ => 0 end.

Lemma growth_snoc d samples p s : last samples = Some p → growth d (samples ++ [s]) = growth d samples + (counter d s - counter d p).
Proof.
  intros L. unfold growth. rewrite last_snoc, L. destruct samples as [|x samples]; [done|]. cbn. lia.
Qed.

Lemma interval_between_Ok p s i : interval_between p s = Ok i →
  ui_workload_id i = us_workload_id s ∧ ui_interval_start_millis i = us_collected_at_millis p ∧
  ui_interval_end_millis i = us_collected_at_millis s ∧ ui_provider_sample_id i = us_provider_sample_id s.
Proof. unfold interval_between. destruct (negb _); [done|]. destruct (_ <=? _); [done|]. by intros [= <-]. Qed.

Lemma usage_sample_fits workload u : counters_fit u → wf_counts (us_cumulative (usage_sample workload u)).
Proof.
  intros (H1 & H2 & H3) d v. cbn. intros Hd. destruct (decide (d = CpuMillis)) as [->|]; [rewrite lookup_insert_eq in Hd; congruence|].
  rewrite lookup_insert_ne in Hd by done. destruct (decide (d = NetworkIngressBytes)) as [->|]; [rewrite lookup_insert_eq in Hd; congruence|].
  rewrite lookup_insert_ne in Hd by done. apply lookup_singleton_Some in Hd as [_ <-]. done.
Qed.

Lemma newer_trans s1 s2 s3 : newer s1 s2 → newer s2 s3 → newer s1 s3.
Proof. intros [A B] [C D]. split; [lia|]. intros d. specialize (B d). specialize (D d). lia. Qed.

(** Of samples in order the newest is the last. *)
Lemma newest_last samples : StronglySorted newer samples → newest samples = last samples.
Proof.
  induction samples as [|s samples IH] using rev_ind; [done|]. intros [S1 S2]%StronglySorted_snoc.
  unfold newest in *. rewrite foldl_app, last_snoc, IH by done. cbn [foldl]. destruct (last samples) as [x|] eqn:L; [|done].
  apply last_Some_elem_of in L. rewrite Forall_forall in S2. destruct (S2 x L) as [Hlt _]. by apply Z.ltb_lt in Hlt as ->.
Qed.

Section usage.
Context `{UuidTextLaws} {V : Type} `{VmmClient V} (workload : Uuid) `{!SteadyReadings V workload}.
Context (Hworkload : is_uuid workload).

(** The intervals of the workload lie between neighbouring samples, which are in order, and measure
    no more than the counters grew, exactly that much while no call fails. *)
Record metered (quiet : bool) (v : V) (db : MeterDb) : Prop := {
  me_keys : Forall (λ row, row.1 = sample_key (us_workload_id row.2) (us_provider_sample_id row.2)) (md_samples db);
  me_intervals k i : md_intervals db !! k = Some i → k = settlement_key i ∧ is_uuid (ui_workload_id i);
  me_sorted : StronglySorted newer (samples_of workload db);
  me_counts : Forall (λ s, wf_counts (us_cumulative s)) (samples_of workload db);
  me_last s : s ∈ samples_of workload db →
    ∃ l, last_reading v = Some l ∧ (s = usage_sample workload l ∨ newer s (usage_sample workload l));
  me_neighbours k i : md_intervals db !! k = Some i → ui_workload_id i = workload →
    ∃ j p s, samples_of workload db !! j = Some p ∧ samples_of workload db !! S j = Some s ∧ interval_between p s = Ok i;
  me_measured d : measured workload d db ≤ growth d (samples_of workload db);
  me_exact d : quiet = true → measured workload d db = growth d (samples_of workload db);
}.

Lemma metered_weaken quiet v db : metered quiet v db → metered false v db.
Proof. by intros []. Qed.

(** A reading, and any call that leaves the last reading. *)
Lemma metered_same quiet v v' db : last_reading v' = last_reading v → metered quiet v db → metered quiet v' db.
Proof. intros E []. constructor; try done. by rewrite E. Qed.

Lemma metered_reading quiet v v' u db :
  last_reading v' = Some u → (∀ l, last_reading v = Some l → follows workload l u) → metered quiet v db → metered quiet v' db.
Proof.
  intros E F []. constructor; try done. intros s Hs. exists u. split; [done|].
  destruct (me_last0 s Hs) as (l & El & Hl). destruct (F l El) as [Eq|N]; destruct Hl as [->|Hn].
  - by left.
  - right. by rewrite <- Eq.
  - by right.
  - right. by eapply newer_trans.
Qed.

(** Another workload's samples and intervals. *)
Lemma metered_other_sample quiet v db key s :
  us_workload_id s ≠ workload → key = sample_key (us_workload_id s) (us_provider_sample_id s) →
  metered quiet v db → metered quiet v (set_samples db (md_samples db ++ [(key, s)])).
Proof.
  intros Hne -> []. assert (samples_of workload (set_samples db (md_samples db ++ [(sample_key (us_workload_id s) (us_provider_sample_id s), s)])) = samples_of workload db) as E.
  { unfold samples_of. cbn [set_samples md_samples]. rewrite fmap_app, filter_app. cbn [fmap list_fmap snd].
    by rewrite filter_cons_False, filter_nil, app_nil_r by done. }
  constructor; rewrite ?E; try done. cbn. rewrite Forall_app, Forall_singleton. done.
Qed.

Lemma measured_insert d db i :
  md_intervals db !! settlement_key i = None →
  measured workload d (set_intervals db (<[settlement_key i := i]> (md_intervals db))) =
    measured workload d db + (if bool_decide (ui_workload_id i = workload) then default 0 (ui_deltas i !! d) else 0).
Proof. intros Hk. unfold measured. cbn. rewrite msum_insert_new by done. lia. Qed.

Lemma metered_other_interval quiet v db i :
  ui_workload_id i ≠ workload → is_uuid (ui_workload_id i) → md_intervals db !! settlement_key i = None →
  metered quiet v db → metered quiet v (set_intervals db (<[settlement_key i := i]> (md_intervals db))).
Proof.
  intros Hne Hu Hk []. assert (∀ d, measured workload d (set_intervals db (<[settlement_key i := i]> (md_intervals db))) = measured workload d db) as E.
  { intros d. rewrite measured_insert by done. rewrite bool_decide_eq_false_2 by done. lia. }
  constructor; try done; [| |intros d; rewrite E; auto..].
  - intros k j. cbn. rewrite lookup_insert_Some. intros [[<- <-]|[_ Hj]]; [done|by apply me_intervals0].
  - intros k j. cbn. rewrite lookup_insert_Some. intros [[<- <-]|[_ Hj]]; [done|by apply (me_neighbours0 k)].
Qed.

(** A new sample of the workload: it is the newest, and no interval ends at it. *)
Lemma metered_sample quiet v db u :
  let s := usage_sample workload u in let key := sample_key workload (us_provider_sample_id s) in
  last_reading v = Some u → counters_fit u → key ∉ (md_samples db).*1 → metered quiet v db →
  let db' := set_samples db (md_samples db ++ [(key, s)]) in
  metered false v db' ∧ samples_of workload db' = samples_of workload db ++ [s] ∧
  Forall (λ p, newer p s) (samples_of workload db) ∧
  (∀ i, ui_workload_id i = workload → ui_provider_sample_id i = us_provider_sample_id s → md_intervals db !! settlement_key i = None).
Proof.
  intros s key El Hfit Hkey M. pose proof M as [K I Srt C L N Me Ex].
  assert (∀ p, p ∈ samples_of workload db → us_provider_sample_id p ≠ us_provider_sample_id s) as Fresh.
  { intros p [Hw Hp]%list_elem_of_filter E. apply Hkey. apply list_elem_of_fmap in Hp as ([k p'] & -> & Hp). cbn in *.
    rewrite Forall_forall in K. specialize (K _ Hp). cbn in K. apply list_elem_of_fmap. exists (k, p'). split; [|done]. cbn.
    rewrite K, Hw, E. done. }
  assert (Forall (λ p, newer p s) (samples_of workload db)) as New.
  { apply Forall_forall. intros p Hp. destruct (L p Hp) as (l & El' & [->|Hn]); rewrite El in El'; injection El' as <-; [|done].
    by destruct (Fresh _ Hp). }
  assert (samples_of workload (set_samples db (md_samples db ++ [(key, s)])) = samples_of workload db ++ [s]) as E.
  { unfold samples_of. cbn [set_samples md_samples]. rewrite fmap_app, filter_app. cbn [fmap list_fmap snd].
    by rewrite filter_cons_True, filter_nil by done. }
  split_and!; [|done|done|].
  - constructor; rewrite ?E; try done; [cbn|..].
    + rewrite Forall_app, Forall_singleton. done.
    + by apply StronglySorted_snoc.
    + rewrite Forall_app, Forall_singleton. split; [done|by apply usage_sample_fits].
    + intros x [Hx| ->%list_elem_of_singleton]%elem_of_app; [by apply L|]. exists u. auto.
    + intros k i Hi Hw. destruct (N k i Hi Hw) as (j & p & q & Hp & Hq & ?). exists j, p, q.
      split_and!; [by apply lookup_app_l_Some..|done].
    + intros d. specialize (Me d). destruct (last (samples_of workload db)) as [p|] eqn:Lp.
      * rewrite (growth_snoc _ _ p) by done. apply last_Some_elem_of in Lp. rewrite Forall_forall in New. destruct (New p Lp) as [_ Hd].
        specialize (Hd d). unfold measured in *. cbn in *. lia.
      * apply last_None in Lp. rewrite Lp in Me |- *. assert (growth d ([] ++ [s]) = 0) as -> by (unfold growth; cbn; lia). exact Me.
  - intros i Hw Hid. destruct (md_intervals db !! settlement_key i) as [i'|] eqn:Hi; [|done]. exfalso.
    destruct (I _ _ Hi) as [Ek Hu]. apply settlement_key_identity in Ek as (E1 & _ & E3); [|by rewrite Hw|done].
    destruct (N _ _ Hi) as (j & p & q & Hp & Hq & B); [congruence|]. apply interval_between_Ok in B as (_ & _ & _ & B).
    apply list_elem_of_lookup_2 in Hq. apply (Fresh q Hq). congruence.
Qed.

(** The state between a sample and its interval: the samples before it and what they measure. *)
Record behind (quiet : bool) (v : V) (db : MeterDb) (earlier : list UsageSample) (s : UsageSample) : Prop := {
  be_metered : metered false v db;
  be_samples : samples_of workload db = earlier ++ [s];
  be_measured d : measured workload d db ≤ growth d earlier;
  be_exact d : quiet = true → measured workload d db = growth d earlier;
  be_fresh i : ui_workload_id i = workload → ui_provider_sample_id i = us_provider_sample_id s → md_intervals db !! settlement_key i = None;
}.

Lemma metered_first quiet v db s : behind quiet v db [] s → metered quiet v db.
Proof.
  intros [[K I Srt C L N Me Ex] Es Hm He _]. constructor; try done. intros d Hq. rewrite (He d Hq), Es. unfold growth. cbn. lia.
Qed.

Lemma behind_interval quiet v db earlier p s :
  behind quiet v db earlier s → last earlier = Some p →
  ∃ i, interval_between p s = Ok i ∧ md_intervals db !! settlement_key i = None ∧
       metered quiet v (set_intervals db (<[settlement_key i := i]> (md_intervals db))).
Proof.
  intros [[K I Srt C L N Me Ex] Es Hm He Hf] Hp. pose proof (last_Some_elem_of _ _ Hp) as Hin.
  pose proof Srt as New. rewrite Es in New. apply StronglySorted_snoc in New as [_ New]. rewrite Forall_forall in New.
  destruct (New p Hin) as [Hlt Hd]. clear New.
  assert (∀ x, x ∈ earlier ++ [s] → us_workload_id x = workload) as W by (intros x Hx; rewrite <- Es in Hx; by apply list_elem_of_filter in Hx as [? _]).
  assert (us_workload_id p = workload ∧ us_workload_id s = workload) as [Wp Ws] by (split; apply W; set_solver).
  assert (∃ i, interval_between p s = Ok i) as [i Ei].
  { unfold interval_between. rewrite Wp, Ws, bool_decide_eq_true_2 by done. cbn [negb]. apply Z.leb_gt in Hlt as ->. eauto. }
  destruct (interval_between_Ok _ _ _ Ei) as (Wi & _ & _ & Si). rewrite Ws in Wi.
  assert (∀ d, measured workload d (set_intervals db (<[settlement_key i := i]> (md_intervals db))) = measured workload d db + (counter d s - counter d p)) as Inc.
  { intros d. rewrite measured_insert by (by apply Hf). rewrite bool_decide_eq_true_2 by done. f_equal.
    rewrite Es, Forall_forall in C. apply (interval_delta d p s i); [apply C; set_solver..|done|apply Hd]. }
  exists i. split_and!; [done|by apply Hf|]. constructor; try done.
  - intros k j. cbn [set_intervals md_intervals]. rewrite lookup_insert_Some. intros [[<- <-]|[_ Hj]]; [split; [done|by rewrite Wi]|by apply I].
  - intros k j. cbn [set_intervals md_intervals]. rewrite lookup_insert_Some. intros [[<- <-]|[_ Hj]] Hw; [|by apply (N k)].
    change (samples_of workload (set_intervals _ _)) with (samples_of workload db). rewrite Es.
    rewrite last_lookup in Hp. pose proof (lookup_lt_Some _ _ _ Hp) as Hlen. exists (pred (length earlier)), p, s.
    split_and!; [by apply lookup_app_l_Some| |done]. replace (S (pred (length earlier))) with (length earlier) by lia.
    by apply list_lookup_middle.
  - intros d. rewrite Inc. change (samples_of workload (set_intervals _ _)) with (samples_of workload db).
    rewrite Es, (growth_snoc _ _ p) by done. specialize (Hm d). lia.
  - intros d Hq. rewrite Inc. change (samples_of workload (set_intervals _ _)) with (samples_of workload db).
    rewrite Es, (growth_snoc _ _ p) by done. specialize (He d Hq). lia.
Qed.

Context (quiet : bool).

(** Between the calls of a pass. *)
Definition answering (m : Meter V) : Prop := quiet = true → Forall (λ f, f = Answers) (mt_faults m).
Definition steady (m : Meter V) : Prop := metered quiet (mt_vmm m) (mt_db m) ∧ answering m.

Lemma unquiet m f : answering m → head (mt_faults m) = Some f → f ≠ Answers → quiet = false.
Proof.
  intros A Hh Hf. apply not_true_iff_false. intros Hq. specialize (A Hq). destruct A as [|g gs Hg]; [done|].
  cbn in Hh. by injection Hh as ->.
Qed.

(** A call of the store: when it fails, the store is not quiet. *)
Lemma steady_store {A} (P : Meter V → Prop) (f : MeterDb → PortResult A * MeterDb) Q E :
  (∀ m, P m → answering m) →
  (∀ m r db faults, P m → f (mt_db m) = (r, db) → answering (MkMeter (mt_vmm m) db faults (mt_report m)) →
     match r with Ok a => Q a (MkMeter (mt_vmm m) db faults (mt_report m)) | Err e => E e (MkMeter (mt_vmm m) db faults (mt_report m)) end) →
  (∀ m e faults, P m → quiet = false → E e (MkMeter (mt_vmm m) (mt_db m) faults (mt_report m))) →
  (∀ m e faults, P m → quiet = false → E e (MkMeter (mt_vmm m) (f (mt_db m)).2 faults (mt_report m))) →
  triple P (store f) Q E.
Proof.
  intros HP G1 G2 G3. apply triple_store.
  - intros m r db Hm Ef. apply G1; [done..|]. intros Hq. specialize (HP m Hm Hq). by destruct HP.
  - intros m e Hm Hh. apply G2; [done|]. by eapply (unquiet m); [apply HP|exact Hh|].
  - intros m e Hm Hh. apply G3; [done|]. by eapply (unquiet m); [apply HP|exact Hh|].
Qed.

Lemma steady_answering m : steady m → answering m.
Proof. by intros []. Qed.

Lemma not_quiet v db faults report : quiet = false → metered false v db → steady (MkMeter v db faults report).
Proof. intros Hq M. split; [by rewrite Hq|]. intros ?. congruence. Qed.

(** What follows a recorded sample, of another workload and of this one. *)
Lemma collect_interval_other previous s :
  us_workload_id s ≠ workload → is_uuid (us_workload_id s) → keeps steady (collect_interval (V := V) previous s).
Proof.
  intros Hne Hu. destruct previous as [p|]; cbn [collect_interval]; [|by apply triple_ret].
  eapply (triple_bind _ _ _ (λ i m, steady m ∧ ui_workload_id i ≠ workload ∧ is_uuid (ui_workload_id i))).
  { apply triple_lift; [|done]. intros i m E Hm. destruct (interval_between p s) as [i'|] eqn:Ei; [|done]. cbn in E.
    injection E as ->. apply interval_between_Ok in Ei as (-> & _). done. }
  intros i. eapply (triple_bind _ _ _ (λ _, steady)).
  { apply triple_answer.
    assert (∀ q v db, metered q v db → ui_workload_id i ≠ workload → is_uuid (ui_workload_id i) → metered q v (StorageMetering_record_interval i db).2) as R.
    { intros q v db M G1 G2. unfold StorageMetering_record_interval. destruct (md_intervals db !! _) eqn:E; [done|]. by apply metered_other_interval. }
    apply steady_store.
    - by intros m [[] _].
    - intros m r db faults ([M _] & G1 & G2) Ef A. apply (R _ _ _ M G1) in G2. rewrite Ef in G2. by destruct r.
    - intros m e faults ([M _] & _) Hq. apply not_quiet; [done|]. by eapply metered_weaken.
    - intros m e faults ([M _] & G1 & G2) Hq. apply not_quiet; [done|]. eapply metered_weaken. by apply R. }
  intros [|[]]; try (by apply triple_stop); [by apply triple_counting|by apply triple_ret].
Qed.

Lemma collect_interval_own earlier s :
  triple (λ m, behind quiet (mt_vmm m) (mt_db m) earlier s ∧ answering m) (collect_interval (V := V) (last earlier) s)
    (λ _, steady) (λ _, steady).
Proof.
  destruct (last earlier) as [p|] eqn:Lp; cbn [collect_interval].
  2: { apply last_None in Lp as ->. apply triple_ret. intros m [B A]. split; [by eapply metered_first|done]. }
  intros m0 [B0 A0]. destruct (behind_interval _ _ _ _ _ _ B0 Lp) as (i & Ei & _ & _). revert m0 B0 A0. 
  cut (triple (λ m, behind quiet (mt_vmm m) (mt_db m) earlier s ∧ answering m)
         (interval ← failing (interval_between p s); r ← answer (store (StorageMetering_record_interval interval));
          match r with Ok _ => counting count_interval | Err PConflict => mret tt | Err error => stop error end)
         (λ _, steady) (λ _, steady)); [intros T m0 B0 A0; by apply T|].
  rewrite Ei. unfold failing. cbn [map_err].
  eapply (triple_bind _ _ _ (λ i' m, i' = i ∧ behind quiet (mt_vmm m) (mt_db m) earlier s ∧ answering m)); [by intros m Hm|].
  intros i'. eapply (triple_bind _ _ _ (λ _, steady)).
  { apply triple_answer.
    assert (∀ m, behind quiet (mt_vmm m) (mt_db m) earlier s → (StorageMetering_record_interval i (mt_db m)).1 = Ok tt ∧
              metered quiet (mt_vmm m) (StorageMetering_record_interval i (mt_db m)).2) as R.
    { intros m B. destruct (behind_interval _ _ _ _ _ _ B Lp) as (i2 & Ei2 & Hn & M). rewrite Ei in Ei2. injection Ei2 as <-.
      unfold StorageMetering_record_interval. by rewrite Hn. }
    apply steady_store.
    - by intros m (_ & _ & A).
    - intros m r db faults (-> & B & _) Ef A. destruct (R m B) as [E1 E2]. rewrite Ef in E1, E2. cbn in E1, E2. subst r. by split.
    - intros m e faults (_ & B & _) Hq. apply not_quiet; [done|]. apply B.
    - intros m e faults (-> & B & _) Hq. apply not_quiet; [done|]. eapply metered_weaken. by apply R. }
  intros [|[]]; try (by apply triple_stop); [by apply triple_counting|by apply triple_ret].
Qed.

(** A pass so far, once it has the reading of a workload and the sample before it. *)
Definition read_at (id : Uuid) (u : Usage) (previous : option UsageSample) (m : Meter V) : Prop :=
  steady m ∧ (id = workload → last_reading (mt_vmm m) = Some u ∧ counters_fit u) ∧
  previous = newest (filter (λ s, us_workload_id s = id ∧ us_collected_at_millis s < us_collected_at_millis (usage_sample id u)) (md_samples (mt_db m)).*2).

(** The state after a sample was recorded. *)
Definition sampled (id : Uuid) (u : Usage) (previous : option UsageSample) (m : Meter V) : Prop :=
  answering m ∧
  ((id ≠ workload ∧ metered quiet (mt_vmm m) (mt_db m)) ∨
   (id = workload ∧ ∃ earlier, previous = last earlier ∧ behind quiet (mt_vmm m) (mt_db m) earlier (usage_sample id u))).

Lemma sample_recorded id u previous m db faults :
  read_at id u previous m → StorageMetering_record_sample (usage_sample id u) (mt_db m) = (Ok tt, db) →
  (answering (MkMeter (mt_vmm m) db faults (mt_report m)) → sampled id u previous (MkMeter (mt_vmm m) db faults (mt_report m))) ∧
  metered false (mt_vmm m) db.
Proof.
  intros ([M _] & Hu & Hp). unfold StorageMetering_record_sample. case_bool_decide as Hk; [done|]. intros [= <-].
  destruct (decide (id = workload)) as [->|Hne].
  - destruct Hu as [El Hfit]; [done|]. destruct (metered_sample quiet _ _ u El Hfit Hk M) as (M' & Es & New & Free).
    split; [|done]. intros A. split; [done|]. right. split; [done|]. exists (samples_of workload (mt_db m)). split.
    + rewrite Hp, <- newest_last by apply M. f_equal. unfold samples_of. apply filter_agree.
      intros s Hs. rewrite Forall_forall in New. split; [by intros []|]. intros Hw. split; [done|].
      apply New, list_elem_of_filter. done.
    + constructor; [done|done|apply M|apply M|done].
  - assert (metered quiet (mt_vmm m) (set_samples (mt_db m) (md_samples (mt_db m) ++ [(sample_key id (us_provider_sample_id (usage_sample id u)), usage_sample id u)]))) as M'
      by (by apply metered_other_sample).
    split; [|by eapply metered_weaken]. intros A. split; [done|]. by left.
Qed.

Lemma collect_steady x : is_uuid (wr_id x) → keeps steady (collect (V := V) x).
Proof.
  intros Hx. unfold collect. eapply triple_bind; [by apply (triple_counting _ _ (λ _, steady))|intros []].
  eapply (triple_bind _ _ _ (λ u m, steady m ∧ (wr_id x = workload → last_reading (mt_vmm m) = Some u ∧ counters_fit u))).
  { apply triple_manager. intros m r v [M A] E. destruct (decide (wr_id x = workload)) as [Ex|Hne].
    - rewrite Ex in *. apply steady_usage in E. destruct r as [u|e].
      + destruct E as (Hfit & El & F). split; [|done]. split; [by eapply metered_reading|done].
      + split; [by eapply metered_same|done].
    - apply steady_other in E; [|done]. assert (steady (MkMeter v (mt_db m) (mt_faults m) (mt_report m))) by (split; [by eapply metered_same|done]).
      by destruct r. }
  intros u. eapply (triple_bind _ _ _ (read_at (wr_id x) u)).
  { apply steady_store; [by intros m [[] _]| | |].
    - intros m r db faults ([M _] & Hu) [= <- <-] A. done.
    - intros m e faults ([M _] & _) Hq. apply not_quiet; [done|]. by eapply metered_weaken.
    - intros m e faults ([M _] & _) Hq. apply not_quiet; [done|]. by eapply metered_weaken. }
  intros previous. eapply (triple_bind _ _ _ (λ r, match r with Ok _ => sampled (wr_id x) u previous | Err _ => steady end)).
  { apply triple_answer, steady_store; [by intros m [[] _]| | |].
    - intros m r db faults Hm Ef A. destruct r as [[]|e]; [by eapply (sample_recorded _ _ _ m)|].
      unfold StorageMetering_record_sample in Ef. case_bool_decide; [|done]. injection Ef as <- <-. destruct Hm as [[M _] _]. done.
    - intros m e faults [[M _] _] Hq. apply not_quiet; [done|]. by eapply metered_weaken.
    - intros m e faults Hm Hq. apply not_quiet; [done|]. destruct (StorageMetering_record_sample _ (mt_db m)) as [[[]|e'] db] eqn:Ef; cbn [snd].
      + by eapply (sample_recorded _ _ _ m db faults).
      + unfold StorageMetering_record_sample in Ef. case_bool_decide; [|done]. injection Ef as <- <-. destruct Hm as [[M _] _]. by eapply metered_weaken. }
  intros [|[]]; try (by apply triple_stop); [|by apply triple_ret].
  eapply triple_bind; [by apply (triple_counting _ _ (λ _, sampled (wr_id x) u previous))|intros []].
  intros m [A [[Hne M]|[Ex (earlier & -> & B)]]].
  - by apply collect_interval_other.
  - by apply collect_interval_own.
Qed.

Lemma collect_page_steady workloads : Forall (λ x, is_uuid (wr_id x)) workloads → keeps steady (collect_page (V := V) workloads).
Proof.
  induction 1 as [|x workloads Hx _ IH]; [by apply triple_ret|]. cbn [collect_page]. eapply triple_bind; [by apply collect_steady|done].
Qed.

Context (revenue_account : str) (page_size settlement_batch : usize).

Lemma collect_pages_steady fuel cursor : keeps steady (collect_pages (V := V) page_size fuel cursor).
Proof.
  revert cursor. induction fuel as [|fuel IH]; intros cursor; [by apply triple_ret|]. cbn [collect_pages].
  eapply (triple_bind _ _ _ (λ page m, steady m ∧ Forall (λ x, is_uuid (wr_id x)) (page_items page))).
  { apply triple_manager. intros m r v [M A] E. apply steady_workloads in E as [E Hp].
    assert (steady (MkMeter v (mt_db m) (mt_faults m) (mt_report m))) by (split; [by eapply metered_same|done]).
    destruct r as [page|]; [|done]. split; [done|]. by apply Hp. }
  intros page. eapply (triple_bind _ _ _ (λ _, steady)).
  { intros m [Hm Hp]. by apply collect_page_steady. }
  intros []. destruct (page_next_cursor page); [apply IH|by apply triple_ret].
Qed.

(** A settlement leaves samples and intervals. *)
Lemma metered_store q v db db' :
  md_samples db' = md_samples db → md_intervals db' = md_intervals db → metered q v db → metered q v db'.
Proof. intros Es Ei []. constructor; unfold samples_of, measured in *; rewrite ?Es, ?Ei; done. Qed.

Lemma commit_leaves record db :
  md_samples (StorageMetering_commit record db).2 = md_samples db ∧ md_intervals (StorageMetering_commit record db).2 = md_intervals db.
Proof.
  unfold StorageMetering_commit. destruct (negb _); [done|]. destruct (md_journal db !! _); [done|]. by destruct (create_entries _ _ _ _).
Qed.

(** A call of the store that leaves samples and intervals. *)
Lemma store_steady {A} (f : MeterDb → PortResult A * MeterDb) :
  (∀ db, md_samples (f db).2 = md_samples db ∧ md_intervals (f db).2 = md_intervals db) → keeps steady (store f).
Proof.
  intros Hf. assert (∀ q v db, metered q v db → metered q v (f db).2) as M by (intros q v db; destruct (Hf db); by apply metered_store).
  apply steady_store; [by intros m []| | |].
  - intros m r db faults [Hm _] Ef A'. apply M in Hm. rewrite Ef in Hm. by destruct r.
  - intros m e faults [Hm _] Hq. apply not_quiet; [done|]. by eapply metered_weaken.
  - intros m e faults [Hm _] Hq. apply not_quiet; [done|]. eapply metered_weaken. by apply M.
Qed.

Lemma settle_interval_steady prices interval : keeps steady (settle_interval (V := V) revenue_account prices interval).
Proof.
  unfold settle_interval, settlement_record. eapply (triple_bind _ _ _ (λ _, steady)).
  - eapply triple_bind; [by apply (triple_lift _ _ (λ _, steady))|intros list].
    eapply triple_bind; [by apply (triple_lift _ _ (λ _, steady))|intros charge].
    eapply (triple_bind _ _ _ (λ _, steady)).
    { apply triple_manager. intros m r v [M A] E. apply steady_workload in E.
      assert (steady (MkMeter v (mt_db m) (mt_faults m) (mt_report m))) by (split; [by eapply metered_same|done]). by destruct r. }
    intros found. eapply triple_bind; [by apply (triple_lift _ _ (λ _, steady))|intros x]. by apply triple_lift.
  - intros record. eapply triple_bind; [apply store_steady, commit_leaves|]. intros []. by apply triple_counting.
Qed.

Lemma settle_pending_steady : keeps steady (settle_pending (V := V) revenue_account settlement_batch).
Proof.
  unfold settle_pending. eapply triple_bind; [by apply store_steady|intros prices].
  eapply triple_bind; [by apply store_steady|intros intervals]. cbn beta.
  induction intervals as [|i intervals IH]; [by apply triple_ret|]. cbn [settle_intervals].
  eapply triple_bind; [apply settle_interval_steady|done].
Qed.

Lemma pass_metered fuel v db faults :
  (quiet = true → Forall (λ f, f = Answers) faults) → metered quiet v db →
  let out := run_meter_pass revenue_account page_size settlement_batch fuel v db faults in metered quiet out.1.2 out.2.
Proof.
  intros A M. unfold run_meter_pass. pose proof (collect_pages_steady fuel None (MkMeter v db faults MeterReport_default) (conj M A)) as C.
  destruct (collect_pages _ fuel None _) as [[[]|] m]; [|by destruct C..].
  pose proof (settle_pending_steady m C) as S. by destruct (settle_pending _ _ m) as [[] m']; destruct S.
Qed.

Lemma metered_empty v : metered quiet v empty_store.
Proof.
  constructor; cbn [empty_store md_samples md_intervals]; [done| |apply SSorted_nil|constructor|by intros s ?%not_elem_of_nil| |..].
  1, 2: intros k i; by rewrite lookup_empty.
  all: intros d; intros; unfold measured; cbn [md_intervals empty_store]; by rewrite msum_empty.
Qed.

Lemma meter_measures evolves x y :
  (∀ v v', evolves v v' → last_reading v' = last_reading v) →
  rtc (meter_step revenue_account page_size settlement_batch evolves quiet) x y → metered quiet x.1 x.2 → metered quiet y.1 y.2.
Proof.
  intros He R M. eapply (rtc_invariant _ (λ x, metered quiet x.1 x.2)); [|exact M|exact R]. clear x y R M.
  intros x y M S. destruct S as [fuel faults v db A|list v db|v v' db E]; cbn [fst snd] in *.
  - by apply pass_metered.
  - eapply metered_store; [| |exact M]; unfold StorageMetering_publish; destruct (PriceList_validate list) as [|[]]; try done; by destruct (md_lists db !! _).
  - eapply metered_same; [by apply He|done].
Qed.

(** C12. No usage is charged twice.  While the readings of a workload follow one another and the
    manager evolves without changing the last one, any passes, with the store failing before or after
    any of its calls, leave intervals of the workload that do not overlap and that measure, in every
    dimension, at most what the counter grew by from its first recorded reading to its newest; and
    exactly that much when the store always answers, so that nothing is lost. *)
Theorem usage_measured_once (evolves : relation V) (v v' : V) (db : MeterDb) :
  (∀ v v', evolves v v' → last_reading v' = last_reading v) →
  rtc (meter_step revenue_account page_size settlement_batch evolves quiet) (v, empty_store) (v', db) →
  (∀ d, measured workload d db ≤ growth d (samples_of workload db)) ∧
  (∀ d, quiet = true → measured workload d db = growth d (samples_of workload db)) ∧
  (∀ k1 k2 i1 i2, md_intervals db !! k1 = Some i1 → md_intervals db !! k2 = Some i2 → k1 ≠ k2 →
     ui_workload_id i1 = workload → ui_workload_id i2 = workload →
     ui_interval_end_millis i1 ≤ ui_interval_start_millis i2 ∨ ui_interval_end_millis i2 ≤ ui_interval_start_millis i1).
Proof.
  intros He R. pose proof (meter_measures evolves _ _ He R (metered_empty v)) as [K I Srt C L N Me Ex]. cbn [fst snd] in *.
  split_and!; [done|done|].
  assert (∀ j1 j2 p1 s1 p2 s2, samples_of workload db !! j1 = Some p1 → samples_of workload db !! S j1 = Some s1 →
            samples_of workload db !! j2 = Some p2 → samples_of workload db !! S j2 = Some s2 → (j1 < j2)%nat →
            us_collected_at_millis s1 ≤ us_collected_at_millis p2) as Before.
  { intros j1 j2 p1 s1 p2 s2 P1 S1 P2 S2 Hlt. destruct (decide (S j1 = j2)) as [<-|]; [assert (s1 = p2) as -> by congruence; lia|].
    apply Z.lt_le_incl, (StronglySorted_lookup_lt _ _ _ _ _ _ Srt S1 P2). lia. }
  intros k1 k2 i1 i2 E1 E2 Hne W1 W2. destruct (N _ _ E1 W1) as (j1 & p1 & s1 & P1 & S1 & B1), (N _ _ E2 W2) as (j2 & p2 & s2 & P2 & S2 & B2).
  pose proof (interval_between_Ok _ _ _ B1) as (_ & -> & -> & _). pose proof (interval_between_Ok _ _ _ B2) as (_ & -> & -> & _).
  destruct (Nat.lt_trichotomy j1 j2) as [Hlt|[->|Hlt]]; [left; by eapply (Before j1 j2)| |right; by eapply (Before j2 j1)].
  exfalso. apply Hne. assert (i1 = i2) as -> by congruence. by destruct (I _ _ E1) as [-> _], (I _ _ E2) as [-> _].
Qed.
End usage.

(** ** The backlog is settled *)

Lemma price_loop_range prices deltas lines total r :
  0 ≤ minor total ≤ i64_max → price_loop prices deltas lines total = Ok r → 0 ≤ minor r.2 ≤ i64_max.
Proof.
  revert lines total. induction deltas as [|[d amount] deltas IH]; intros lines total Ht; cbn [price_loop]; [by intros [= <-]|].
  destruct (price_line prices d amount) as [[cost|]|] eqn:L; [|by apply IH|done].
  assert (0 < minor cost) as Hc.
  { unfold price_line in L. destruct (negb _); [done|]. destruct (_ =? _); [done|]. destruct (pl_rates prices !! d); [|done]. cbn in L.
    destruct (_ <$> checked_mul_u64 _ _); [|done]. cbn in L. destruct (MkMinor <$> i64_try_from _) as [c|]; [|done]. cbn in L.
    destruct (0 <? minor c) eqn:P; [|done]. injection L as <-. by apply Z.ltb_lt. }
  unfold Minor_checked_add, checked_add_i64. destruct (checked _ _ _) as [n|] eqn:N; [|done]. apply checked_Some in N as [-> N].
  cbn [fmap option_fmap option_map ok_or]. apply IH. cbn. lia.
Qed.

Lemma price_settles `{UuidText} i list charge wallet revenue t : price i list = Ok charge → ∃ r, settle charge wallet revenue t = Ok r.
Proof.
  unfold price. destruct (price_loop _ _ _ _) as [[lines total]|] eqn:P; [|done]. apply price_loop_range in P; [|cbn; ilia].
  intros [= <-]. rewrite settle_spec by (cbn in *; ilia). rewrite bool_decide_eq_false_2 by (cbn in *; ilia). eauto.
Qed.

Section backlog.
Context `{UuidText} {V : Type} `{VmmClient V} (revenue_account : str) (settlement_batch : usize).

Definition pending_of (db : MeterDb) : list UsageInterval :=
  pending (md_journal db) (rows_by ui_interval_start_millis (md_intervals db)).

(** The interval has a price. *)
Definition payable (prices : list PriceList) (i : UsageInterval) : Prop :=
  ∃ list charge, price_list_at prices (ui_interval_start_millis i) = Some list ∧ price i list = Ok charge.

(** The manager still knows every workload. *)
Context (knows : ∀ id v, ∃ (record : WorkloadRecord) v', vm_workload id v = (Ok (Some record), v')).

Lemma settle_interval_pays prices i m :
  known revenue_account prices [i] m → mt_faults m = [] → payable prices i →
  ∃ m', settle_interval revenue_account prices i m = (Ok tt, m') ∧ booked revenue_account m' ∧ mt_faults m' = [] ∧
    md_intervals (mt_db m') = md_intervals (mt_db m) ∧ md_lists (mt_db m') = md_lists (mt_db m) ∧
    (∀ k, md_journal (mt_db m') !! k = None ↔ md_journal (mt_db m) !! k = None ∧ k ≠ settlement_key i) ∧
    intervals_settled (mt_report m') = intervals_settled (mt_report m) + 1.
Proof.
  intros K F (list & charge & El & Ep). destruct (knows (ui_workload_id i) (mt_vmm m)) as (w & v' & Ew).
  destruct (price_settles i list charge (wallet_of (wl_creature_id (wr_labels w))) revenue_account (ui_interval_end_millis i) Ep) as [r Er].
  assert (settlement_record revenue_account prices i m = (Ok r, MkMeter v' (mt_db m) (mt_faults m) (mt_report m))) as Rec.
  { unfold settlement_record, mbind, pass_bind, failing, lift, manager. rewrite El. cbn [ok_or]. rewrite Ep. cbn [map_err]. rewrite Ew. cbn [ok_or].
    by rewrite Er. }
  pose proof (settlement_record_settles revenue_account prices i _ (λ m Hm, Hm) (λ m v Hm, Hm) m K) as Set_. rewrite Rec in Set_.
  destruct Set_ as ((B & _) & Hb & Hs & Hk). cbn [mt_db] in *. unfold settle_interval, mbind, pass_bind. rewrite Rec. unfold store. cbn [mt_faults mt_db mt_vmm mt_report].
  rewrite F. cbn [head tail hd_error]. destruct (StorageMetering_commit r (mt_db m)) as [a db] eqn:C.
  destruct (commit_spec revenue_account _ _ _ _ B Hb C) as (-> & _ & _ & _ & Ei & Eli & Hbk).
  eexists. split; [reflexivity|]. cbn [mt_db mt_faults mt_report]. split_and!; [by apply Hbk|done|done|done| |done].
  intros k. unfold StorageMetering_commit in C. rewrite Hb, Hk in C. cbn [negb] in C.
  destruct (md_journal (mt_db m) !! settlement_key i) eqn:J.
  - injection C as <-. split; [|by intros []]. intros Hn. split; [done|congruence].
  - destruct (create_entries _ _ _ _); [|done]. injection C as <-. cbn [set_journal md_journal]. rewrite lookup_insert_None. naive_solver.
Qed.

Lemma known_weaken prices l l' m : known revenue_account prices l m → l' ⊆ l → known (V := V) revenue_account prices l' m.
Proof. intros (B & Hl & Hi) Hs. split_and!; [done|done|]. rewrite Forall_forall in *. auto. Qed.

Lemma settle_intervals_pay prices l m :
  known revenue_account prices l m → mt_faults m = [] → Forall (payable prices) l →
  ∃ m', settle_intervals revenue_account prices l m = (Ok tt, m') ∧ booked revenue_account m' ∧ mt_faults m' = [] ∧
    md_intervals (mt_db m') = md_intervals (mt_db m) ∧ md_lists (mt_db m') = md_lists (mt_db m) ∧
    (∀ k, md_journal (mt_db m') !! k = None ↔ md_journal (mt_db m) !! k = None ∧ k ∉ settlement_key <$> l) ∧
    intervals_settled (mt_report m') = intervals_settled (mt_report m) + Z.of_nat (length l).
Proof.
  revert m. induction l as [|i l IH]; intros m K F P.
  { exists m. destruct K as (B & _). cbn. split_and!; [done..| |lia]. intros k. set_solver. }
  apply Forall_cons in P as [Pi Pl]. cbn [settle_intervals].
  destruct (settle_interval_pays prices i m) as (m1 & E1 & B1 & F1 & I1 & L1 & J1 & N1); [eapply known_weaken; [done|set_solver]|done|done|].
  destruct (IH m1) as (m2 & E2 & B2 & F2 & I2 & L2 & J2 & N2); [|done|done|].
  { destruct K as (_ & Hl & [_ Hi]%Forall_cons). split_and!; [done|by rewrite L1|by rewrite I1]. }
  exists m2. unfold mbind, pass_bind. rewrite E1, E2. split_and!; [done..|congruence|congruence| |cbn [length]; lia].
  intros k. rewrite J2, J1, fmap_cons, not_elem_of_cons. tauto.
Qed.

(** What is left after the first of the pending intervals are settled. *)
Lemma filter_settled {A} (M : list (str * A)) b : NoDup M.*1 → filter (λ x, x.1 ∉ take b M.*1) M = drop b M.
Proof.
  revert b. induction M as [|x M IH]; intros b Hn; [by destruct b|]. cbn in Hn. apply NoDup_cons in Hn as [Hx Hn]. destruct b as [|b].
  - cbn [drop take]. rewrite filter_cons_True by set_solver. f_equal. exact (IH 0%nat Hn).
  - cbn [drop take fmap list_fmap]. rewrite filter_cons_False by set_solver. rewrite <- IH by done. apply filter_agree.
    intros y Hy. rewrite not_elem_of_cons. split; [by intros []|]. intros ?. split; [|done]. intros E. apply Hx. rewrite <- E.
    apply list_elem_of_fmap. eauto.
Qed.

Lemma pending_drops (journal journal' : gmap str JournalRecord) rows b :
  NoDup rows.*1 → Forall (λ row, settlement_key row.2 = row.1) rows →
  (∀ k, journal' !! k = None ↔ journal !! k = None ∧ k ∉ settlement_key <$> take b (pending journal rows)) →
  pending journal' rows = drop b (pending journal rows).
Proof.
  intros Hn Hk J. unfold pending in *. set (M := filter (λ row, journal !! row.1 = None) rows) in *.
  assert (settlement_key <$> take b M.*2 = take b M.*1) as Ek.
  { rewrite fmap_take. f_equal. rewrite <- list_fmap_compose. apply Forall_fmap_ext_1. apply Forall_forall.
    intros row [_ Hr]%list_elem_of_filter. rewrite Forall_forall in Hk. by apply Hk. }
  rewrite <- fmap_drop. f_equal. rewrite <- filter_settled.
  - transitivity (filter (λ x : str * UsageInterval, x.1 ∉ take b M.*1) (filter (λ row, journal !! row.1 = None) rows)); [|done].
    rewrite list_filter_filter. apply filter_agree. intros row _. rewrite J, Ek. tauto.
  - eapply sublist_NoDup; [exact Hn|]. apply fmap_sublist, sublist_filter.
Qed.

Lemma pending_settled db db' b :
  books revenue_account db → md_intervals db' = md_intervals db →
  (∀ k, md_journal db' !! k = None ↔ md_journal db !! k = None ∧ k ∉ settlement_key <$> take b (pending_of db)) →
  pending_of db' = drop b (pending_of db).
Proof.
  intros B Ei J. unfold pending_of in *. rewrite Ei. apply pending_drops; [| |done].
  - unfold rows_by. rewrite merge_sort_Permutation. apply NoDup_fst_map_to_list.
  - apply Forall_forall. intros [k i] Hi%elem_of_rows_by. by apply B.
Qed.

(** Settlement passes one after another, while the store answers. *)
Fixpoint settle_rounds (n : nat) (m : Meter V) : PortResult unit * Meter V :=
  match n with
  | O => (Ok tt, m)
  | S n => match settle_pending revenue_account settlement_batch m with
           | (Ok _, m) => settle_rounds n m
           | (Err e, m) => (Err e, m)
           end
  end.

Definition prices_of (db : MeterDb) : list PriceList := (first_rows (rows_by pl_effective_from_millis (md_lists db))).*2.
Definition batch : nat := Z.to_nat (Z.max settlement_batch 1).

Lemma settle_pending_pays m :
  booked revenue_account m → mt_faults m = [] → Forall (payable (prices_of (mt_db m))) (pending_of (mt_db m)) →
  ∃ m', settle_pending revenue_account settlement_batch m = (Ok tt, m') ∧ booked revenue_account m' ∧ mt_faults m' = [] ∧
    md_lists (mt_db m') = md_lists (mt_db m) ∧ pending_of (mt_db m') = drop batch (pending_of (mt_db m)) ∧
    intervals_settled (mt_report m') = intervals_settled (mt_report m) + Z.of_nat (length (take batch (pending_of (mt_db m)))).
Proof.
  intros B F P. destruct (settle_intervals_pay (prices_of (mt_db m)) (take batch (pending_of (mt_db m))) m) as (m' & E & B' & F' & I' & L' & J' & N').
  - split_and!; [done|by apply (price_lists_known revenue_account)|by apply (unsettled_known revenue_account)].
  - done.
  - by apply Forall_take.
  - exists m'. split_and!; [|done|done|done|by apply pending_settled|done].
    destruct m as [v db faults report]. cbn [mt_faults mt_db] in *. subst faults.
    unfold settle_pending, mbind, pass_bind, store. cbn [mt_faults mt_db mt_vmm mt_report head tail hd_error].
    unfold StorageMetering_price_lists. cbn [mt_faults mt_db mt_vmm mt_report head tail hd_error]. rewrite unsettled_spec.
    replace (Z.max (Z.max settlement_batch 1) 1) with (Z.max settlement_batch 1) by lia. exact E.
Qed.

(** C37. The backlog is settled.  When every pending interval has a price, the manager knows the
    workloads and the store answers, each settlement succeeds and settles the oldest pending
    intervals, a batch of them: after [n] of them the pending intervals are what is left of the ones
    before without the first [n] batches, nothing at all once [n] batches cover them. *)
Theorem backlog_is_settled (evolves : relation V) (quiet : bool) (page_size : usize) (v0 : V) (m : Meter V) (n : nat) :
  rtc (meter_step revenue_account page_size settlement_batch evolves quiet) (v0, empty_store) (mt_vmm m, mt_db m) →
  mt_faults m = [] → Forall (payable (prices_of (mt_db m))) (pending_of (mt_db m)) →
  ∃ m', settle_rounds n m = (Ok tt, m') ∧ pending_of (mt_db m') = drop (n * batch) (pending_of (mt_db m)) ∧
    intervals_settled (mt_report m') = intervals_settled (mt_report m) + Z.of_nat (length (take (n * batch) (pending_of (mt_db m)))).
Proof.
  intros R F P. assert (booked revenue_account m) as B by exact (meter_keeps _ _ _ _ _ _ _ R (meter_books_empty _)).
  clear R. revert m F P B. induction n as [|n IH]; intros m F P B.
  { exists m. split_and!; [done|done|rewrite Nat.mul_0_l, take_0; cbn [length]; lia]. }
  cbn [settle_rounds]. destruct (settle_pending_pays m B F P) as (m1 & E1 & B1 & F1 & L1 & P1 & N1). rewrite E1.
  destruct (IH m1) as (m2 & E2 & P2 & N2); [done| |done|].
  - unfold prices_of in *. rewrite L1, P1. by apply Forall_drop.
  - exists m2. split_and!; [done|rewrite P2, P1, drop_drop; f_equal; lia|].
    rewrite N2, N1, P1, !length_take, length_drop. cbn [Nat.mul]. lia.
Qed.
End backlog.

(** ** At work *)

Module MeterUse.
Export HexUuid.
#[export] Existing Instance HexUuid.hex_uuid_text.
#[export] Existing Instance HexUuid.hex_uuid_laws.

(** Readings whose counter grows. *)
Definition reading_of (time sequence cpu : Z) : Usage :=
  {| usage_window_start_millis := 0; usage_window_end_millis := time; usage_sequence := sequence; usage_cpu_millis := cpu;
     usage_memory_peak_bytes := 0; usage_network_rx_bytes := 0; usage_network_tx_bytes := 0; usage_storage_bytes := 0; usage_invocations := 0 |}.
Definition nth_reading (n : nat) : Usage := reading_of (Z.of_nat n * 1000) (Z.of_nat n) (Z.min (Z.of_nat n * 5) 1000).
Definition one_page : PortResult (Page WorkloadRecord) := Ok {| page_items := [example_workload 7%N]; page_next_cursor := None |}.

Lemma counter_reading w d time sequence cpu :
  counter d (usage_sample w (reading_of time sequence cpu)) = if bool_decide (d = CpuMillis) then cpu else 0.
Proof. unfold counter. by destruct d. Qed.

(** A manager of one workload; the state counts the readings it gave. *)
Definition only_seven : VmmClient nat := {|
  vm_workloads _ _ _ n := (one_page, n);
  vm_usage id n := if bool_decide (id = 7%N) then (Ok (nth_reading n), S n) else (Err PNotFound, n);
  vm_workload id n := (Ok (Some (example_workload id)), n);
|}.

Lemma nth_follows n : follows 7%N (nth_reading n) (nth_reading (S n)).
Proof.
  right. split; [cbn; lia|]. intros d. unfold nth_reading. rewrite !counter_reading. case_bool_decide; lia.
Qed.

#[export] Program Instance only_seven_steady : @SteadyReadings nat only_seven 7%N :=
  @Build_SteadyReadings nat only_seven 7%N (λ n, match n with O => None | S n => Some (nth_reading n) end) _ _ _ _.
Next Obligation.
  intros v r v'. cbn. intros [= <- <-]. split_and!; [|done|].
  - unfold counters_fit. cbn. ilia.
  - intros l Hl. destruct v as [|n]; [done|]. injection Hl as <-. apply nth_follows.
Qed.
Next Obligation. intros id v r v' Hne. cbn. rewrite bool_decide_eq_false_2 by done. by intros [= <- <-]. Qed.
Next Obligation.
  intros f cursor limit v r v'. cbn. intros [= <- <-]. split; [done|]. intros page [= <-]. cbn. rewrite Forall_singleton. vm_compute. done.
Qed.
Next Obligation. intros id v r v'. cbn. by intros [= <- <-]. Qed.

Definition prices : PriceList := {| pl_version := lit "v1"; pl_effective_from_millis := 0; pl_rates := {[ CpuMillis := 2000000000 ]} |}.
Definition revenue : str := lit "revenue".
Definition published : MeterDb := (StorageMetering_publish prices empty_store).2.
Definition passed (faults : list Fault) (s : nat * MeterDb) : nat * MeterDb :=
  let out := @run_meter_pass _ nat only_seven revenue 10 10 2 s.1 s.2 faults in (out.1.2, out.2).
Definition twice : nat * MeterDb := passed [] (passed [] (0%nat, published)).

(** Two passes record two readings and the interval between them, and settle it. *)
Example two_passes :
  (measured 7%N CpuMillis twice.2, StorageMetering_balance revenue twice.2, StorageMetering_balance (wallet_of 1%N) twice.2, pending_of twice.2)
  = (5, Ok (MkMinor 10), Ok (MkMinor (-10)), []).
Proof. vm_compute. reflexivity. Qed.

Lemma twice_reached evolves quiet : rtc (@meter_step _ nat only_seven revenue 10 10 evolves quiet) (0%nat, empty_store) (twice.1, twice.2).
Proof.
  rewrite <- surjective_pairing.
  eapply rtc_l; [apply (step_publish _ _ _ _ _ prices)|]. eapply rtc_l; [apply (step_pass _ _ _ _ _ 2 []); by constructor|].
  eapply rtc_l; [apply (step_pass _ _ _ _ _ 2 []); by constructor|]. apply rtc_refl.
Qed.


Lemma usage_measured_once_witness :
  measured 7%N CpuMillis twice.2 = 5 ∧ growth CpuMillis (samples_of 7%N twice.2) = 5.
Proof.
  pose proof (@usage_measured_once _ _ nat only_seven 7%N only_seven_steady ltac:(vm_compute; done) true revenue 10 10 (λ _ _, False)
    0%nat twice.1 twice.2 ltac:(done) (twice_reached _ _)) as (_ & E & _).
  rewrite (E CpuMillis eq_refl). split; vm_compute; reflexivity.
Defined.

(** The second pass loses the store at its commit. *)
Definition unpaid : nat * MeterDb := passed [Answers; Answers; Answers; Answers; Answers; FailsBefore (PUnavailable [])] (passed [] (0%nat, published)).
Definition unpaid_interval : UsageInterval := default sample_interval (head (pending_of unpaid.2)).
Definition unpaid_charge : Charge :=
  match price unpaid_interval prices with Ok c => c | Err _ => {| ch_settlement_key := []; ch_workload_id := 0%N; ch_amount := MkMinor 0; ch_price_version := []; ch_lines := ∅ |} end.
Lemma unpaid_reached evolves : rtc (@meter_step _ nat only_seven revenue 10 10 evolves false) (0%nat, empty_store) (unpaid.1, unpaid.2).
Proof.
  rewrite <- surjective_pairing.
  eapply rtc_l; [apply (step_publish _ _ _ _ _ prices)|]. eapply rtc_l; [apply (step_pass _ _ _ _ _ 2 []); by constructor|].
  eapply rtc_l; [by apply (step_pass _ _ _ _ _ 2 [Answers; Answers; Answers; Answers; Answers; FailsBefore (PUnavailable [])])|]. apply rtc_refl.
Qed.

Lemma unpaid_pending : pending_of unpaid.2 = [unpaid_interval].
Proof. vm_compute. reflexivity. Qed.
Lemma unpaid_payable : Forall (payable (prices_of unpaid.2)) (pending_of unpaid.2).
Proof. rewrite unpaid_pending. apply Forall_singleton. exists prices, unpaid_charge. split; vm_compute; reflexivity. Qed.
Lemma seven_known id (v : nat) : ∃ (record : WorkloadRecord) v', @vm_workload nat only_seven id v = (Ok (Some record), v').
Proof. by exists (example_workload id), v. Qed.

Lemma backlog_is_settled_witness :
  pending_of unpaid.2 = [unpaid_interval] ∧
  ∃ m', @settle_rounds _ nat only_seven revenue 10 1 (MkMeter unpaid.1 unpaid.2 [] MeterReport_default) = (Ok tt, m') ∧
    pending_of (mt_db m') = drop (1 * batch 10) [unpaid_interval].
Proof.
  split; [exact unpaid_pending|].
  destruct (@backlog_is_settled _ nat only_seven revenue 10 seven_known (λ _ _, False) false 10 0%nat
    (MkMeter unpaid.1 unpaid.2 [] MeterReport_default) 1 (unpaid_reached _) eq_refl unpaid_payable) as (m' & R & P & _).
  exists m'. split; [exact R|]. exact (eq_trans P (f_equal (drop (1 * batch 10)) unpaid_pending)).
Defined.

(** A manager that gives the readings of a script, and knows the workloads of a list. *)
Definition scripted (workloads : list Uuid) : VmmClient (list (Uuid * Usage)) := {|
  vm_workloads _ _ _ v := (Ok {| page_items := example_workload <$> workloads; page_next_cursor := None |}, v);
  vm_usage id v := match v with (_, u) :: v => (Ok u, v) | [] => (Err PNotFound, []) end;
  vm_workload id v := (Ok (if bool_decide (id ∈ workloads) then Some (example_workload id) else None), v);
|}.
Definition scripted_pass (workloads : list Uuid) (faults : list Fault) (s : list (Uuid * Usage) * MeterDb) : option (PortResult MeterReport) * (list (Uuid * Usage) * MeterDb) :=
  let out := @run_meter_pass _ _ (scripted workloads) revenue 10 10 2 s.1 s.2 faults in (out.1.1, (out.1.2, out.2)).

(** A failure between a sample and its interval loses the usage between them: the next pass measures
    from the sample on. *)
Example failed_interval_is_lost :
  let db := (passed [] (passed [Answers; Answers; FailsBefore (PUnavailable [])] (passed [] (0%nat, published)))).2 in
  (measured 7%N CpuMillis db, growth CpuMillis (samples_of 7%N db)) = (5, 10).
Proof. vm_compute. reflexivity. Qed.

(** Two readings that end in the same millisecond are both measured from the one before them. *)
Example same_end_measured_twice :
  let pass s := (scripted_pass [7%N] [] s).2 in
  let db := (pass (pass (pass ([(7%N, reading_of 1000 1 5); (7%N, reading_of 2000 2 10); (7%N, reading_of 2000 3 12)], published)))).2 in
  (measured 7%N CpuMillis db, growth CpuMillis (samples_of 7%N db)) = (12, 7).
Proof. vm_compute. reflexivity. Qed.

(** An interval that cannot be priced stops the settlement of every interval after it. *)
Definition with_egress (u : Usage) : Usage :=
  {| usage_window_start_millis := 0; usage_window_end_millis := usage_window_end_millis u; usage_sequence := usage_sequence u;
     usage_cpu_millis := usage_cpu_millis u; usage_memory_peak_bytes := 0; usage_network_rx_bytes := 0; usage_network_tx_bytes := 9;
     usage_storage_bytes := 0; usage_invocations := 0 |}.
Example unpriced_interval_blocks :
  let script := [(7%N, reading_of 1000 1 0); (8%N, reading_of 1000 1 0); (7%N, with_egress (reading_of 2000 2 5)); (8%N, reading_of 2000 2 5)] in
  let first := (scripted_pass [7; 8]%N [] (script, published)).2 in
  let second := scripted_pass [7; 8]%N [] first in
  (second.1, length (pending_of second.2.2), size (md_journal second.2.2))
  = (Some (Err (PFailed (lit "the price list does not price NetworkEgressBytes"))), 2%nat, 0%nat).
Proof. vm_compute. reflexivity. Qed.
End MeterUse.
