(* ===== verification/Grants.v ===== *)
(** Capability use cases: the grant store's port ([aseman-ports/src/lib.rs], [GrantStore]), loading
    chains, authorizing with them, issuing, delegating and revoking
    ([aseman-application/src/capability.rs]), and the store ([aseman-capsule/src/capability.rs]).

    The port is a class in state-passing style and [GrantSpec] what it promises of the grants it
    holds; a call that fails may still have taken effect.  The theorems about authority are proved
    from the promises, over any sequence of use cases with any clocks.  Grants are kept as values
    where the store keeps their fields; [GrantRecords] has the fields. *)

From S2P Require Import FinanceLedger.
From S2P Require Import Prelude Text Core Identity Registry Capability Authority Ports.

Open Scope Z_scope.

(** ** The port *)

Class GrantStore (S : Type) := {
  gs_grant : Uuid → S → PortResult (option Grant);
  gs_grants_of : Subject → S → PortResult (list Grant);
  gs_children : Uuid → S → PortResult (list Grant);
  gs_put : Grant → S → PortResult unit * S;
  gs_revoke : Uuid → i64 → S → PortResult unit * S;
}.

(** An earlier recorded time is kept. *)
Definition revoked_at (at_millis : i64) (g : Grant) : Grant :=
  {| grant_id := grant_id g; grant_subject := grant_subject g; grant_issuer := grant_issuer g;
     grant_actions := grant_actions g; grant_resource := grant_resource g;
     grant_delegable_actions := grant_delegable_actions g; grant_max_depth := grant_max_depth g;
     grant_parent := grant_parent g; grant_not_before_millis := grant_not_before_millis g;
     grant_expires_at_millis := grant_expires_at_millis g;
     grant_revoked_at_millis :=
       match grant_revoked_at_millis g with
       | Some revoked => if revoked <=? at_millis then Some revoked else Some at_millis
       | None => Some at_millis
       end;
     grant_policy_version := grant_policy_version g |}.

Notation Grants := (gmap Uuid Grant).

Definition recorded (v : Grants) (g : Grant) (v' : Grants) : Prop := v !! grant_id g = None ∧ v' = <[grant_id g := g]> v.
Definition withdrawn (v : Grants) (id : Uuid) (at_millis : i64) (v' : Grants) : Prop :=
  ∃ g, v !! id = Some g ∧ v' = <[id := revoked_at at_millis g]> v.

(** What a store promises of the grants it holds. *)
Class GrantSpec (S : Type) `{GrantStore S} := {
  gs_view : S → Grants;
  spec_grant id s found : gs_grant id s = Ok found → found = gs_view s !! id;
  spec_grants_of subject s l g : gs_grants_of subject s = Ok l → g ∈ l → ∃ id, gs_view s !! id = Some g;
  spec_put g s r s' : gs_put g s = (r, s') →
    recorded (gs_view s) g (gs_view s') ∨ r ≠ Ok tt ∧ gs_view s' = gs_view s;
  spec_revoke id at_millis s r s' : gs_revoke id at_millis s = (r, s') →
    withdrawn (gs_view s) id at_millis (gs_view s') ∨ r ≠ Ok tt ∧ gs_view s' = gs_view s;
}.

(** ** The use cases *)

Definition MAX_CHAIN_LENGTH : nat := 16.
Definition MAX_REVOCATION_CLOSURE : Z := 10000.

Definition refused (message : str) : ApplicationError := Denied message.

Section use_cases.
Context {S : Type} `{GrantStore S}.

(** The loop of [chain_of]: the grant and its ancestors, at most [room] of them. *)
Fixpoint ancestors (room : nat) (grant : Grant) (s : S) : PortResult (option (list Grant)) :=
  match grant_parent grant with
  | None => Ok (Some [grant])
  | Some parent =>
      match room with
      | O => Ok None
      | Datatypes.S room =>
          let? found := gs_grant parent s in
          match found with
          | Some parent => result_map (fmap (cons grant)) (ancestors room parent s)
          | None => Ok None
          end
      end
  end.

(** A chain holds the grant itself, so it has room for one fewer. *)
Definition chain_of (grant : Grant) (s : S) : PortResult (option (list Grant)) := ancestors (MAX_CHAIN_LENGTH - 1) grant s.

(** The loop of [load_chains]. *)
Fixpoint chains_for (action : str) (grants : list Grant) (s : S) : PortResult (list (list Grant)) :=
  match grants with
  | [] => Ok []
  | grant :: grants =>
      if bool_decide (action ∈ grant_actions grant) then
        let? chain := chain_of grant s in
        let? chains := chains_for action grants s in
        Ok (match chain with Some chain => chain :: chains | None => chains end)
      else chains_for action grants s
  end.
Definition load_chains (subject : Subject) (action : str) (s : S) : PortResult (list (list Grant)) :=
  let? grants := gs_grants_of subject s in chains_for action grants s.

(** [Authorize::decide]. *)
Definition authorize (policy : PolicyRequest → PortResult PolicyDecision) (now : i64) (subject : option Subject)
    (action : str) (resource : ResourceRef) (facts : gset Condition) (s : S) : PortResult PolicyDecision :=
  let? grants := match subject with Some subject => load_chains subject action s | None => Ok [] end in
  policy {| pr_subject := subject; pr_action := action; pr_resource := resource; pr_facts := facts;
            pr_grants := grants; pr_at_millis := now |}.

(** The loop of [IssueGrant::execute] over the actions. *)
Fixpoint check_issued_actions (registry : ActionRegistry) (grant : Grant) (actions : list str) : result unit ApplicationError :=
  match actions with
  | [] => Ok tt
  | action :: actions =>
      let? registered := ok_or (registry_actions registry !! action) (refused (lit "unknown action")) in
      if negb (bool_decide (ra_resource registered = selector_kind (grant_resource grant)))
      then Err (refused (lit "the action does not apply to the resource"))
      else if negb (bool_decide (subject_kind (grant_subject grant) ∈ ra_subjects registered))
      then Err (refused (lit "the subject class may not hold the action"))
      else if bool_decide (action ∈ grant_delegable_actions grant) && negb (ra_delegable registered)
      then Err (refused (lit "the action is not delegable"))
      else check_issued_actions registry grant actions
  end.

(** [match self.grants.put(..) { Err(Conflict) => .., other => .. }]. *)
Definition put_refusal {A} (a : A) (r : PortResult unit) : result A ApplicationError :=
  match r with
  | Ok _ => Ok a
  | Err PConflict => Err (refused (lit "the grant already exists"))
  | Err other => Err (Port other)
  end.

Definition issue_grant (registry : ActionRegistry) (now : i64) (grant : Grant) (s : S) : result unit ApplicationError * S :=
  if is_some (grant_parent grant) then (Err (refused (lit "a root grant has no parent; delegate instead")), s)
  else if bool_decide (grant_actions grant = ∅) || negb (bool_decide (grant_delegable_actions grant ⊆ grant_actions grant))
  then (Err (refused (lit "delegable actions must be granted actions")), s)
  else match check_issued_actions registry grant (btree_iter (grant_actions grant)) with
  | Err e => (Err e, s)
  | Ok _ =>
      if is_some_and (λ expires, expires <=? now) (grant_expires_at_millis grant)
      then (Err (refused (lit "the grant has already expired")), s)
      else let '(r, s) := gs_put grant s in (put_refusal tt r, s)
  end.

(** [CapabilityError]'s [Display]. *)
Definition CapabilityError_text (e : CapabilityError) : str :=
  match e with
  | BrokenChain => lit "the grant chain is empty or broken"
  | NotLive => lit "a grant in the chain is not live"
  | Amplifies => lit "a grant in the chain widens its parent"
  | NotHolder => lit "the delegator does not hold the parent grant"
  | NothingDelegable => lit "nothing requested can be delegated"
  | ResourceOutside => lit "the requested resources are outside the parent grant"
  | DepthExhausted => lit "the parent grant allows no further delegation"
  | CapSubjectNotAllowed => lit "the subject class may not hold the action"
  | CapUnknownAction => lit "an action is not registered"
  end.

Definition delegate_grant (registry : ActionRegistry) (now : i64) (delegator : Subject) (parent : Uuid)
    (request : DelegationRequest) (policy_version : str) (s : S) : result Grant ApplicationError * S :=
  match (let? found := map_err Port (gs_grant parent s) in
         let? parent := ok_or found (refused (lit "unknown parent grant")) in
         let? chain := map_err Port (chain_of parent s) in
         let? chain := ok_or chain (refused (lit "the parent chain is broken")) in
         map_err (λ e, Denied (CapabilityError_text e)) (delegate registry chain delegator request policy_version now)) with
  | Err e => (Err e, s)
  | Ok child => let '(r, s) := gs_put child s in (put_refusal child r, s)
  end.

(** The [for] loop of [RevokeGrant::execute]: [None] is the return at the limit, with the closure so
    far. *)
Fixpoint close_children (closure pending : list Uuid) (children : list Grant) : list Uuid * option (list Uuid) :=
  match children with
  | [] => (closure, Some pending)
  | child :: children =>
      if MAX_REVOCATION_CLOSURE <=? Z.of_nat (length closure) then (closure, None)
      else if bool_decide (grant_id child ∈ closure) then close_children closure pending children
      else close_children (closure ++ [grant_id child]) (pending ++ [grant_id child]) children
  end.
(** The [while] loop; [fuel] bounds the turns, and [None] is running out of it. *)
Fixpoint close_revoked (fuel : nat) (closure pending : list Uuid) (s : S) : option (result (list Uuid) ApplicationError) :=
  match pending, fuel with
  | [], _ => Some (Ok closure)
  | _, O => None
  | next :: pending, Datatypes.S fuel =>
      match gs_children next s with
      | Err e => Some (Err (Port e))
      | Ok children =>
          match close_children closure pending children with
          | (closure, None) => Some (Ok closure)
          | (closure, Some pending) => close_revoked fuel closure pending s
          end
      end
  end.
(** Every turn takes one of the closure's grants, of which there are at most the limit. *)
Definition closure_turns : nat := Z.to_nat (MAX_REVOCATION_CLOSURE + 1).

Definition revoke_grant (now : i64) (id : Uuid) (s : S) : option (result (list Uuid) ApplicationError) * S :=
  let '(r, s) := gs_revoke id now s in
  match r with
  | Err PNotFound => (Some (Err (refused (lit "unknown grant"))), s)
  | Err other => (Some (Err (Port other)), s)
  | Ok _ => (close_revoked closure_turns [id] [id] s, s)
  end.

Definition grant_is_live (id : Uuid) (now_millis : i64) (s : S) : PortResult bool :=
  let? found := gs_grant id s in
  match found with
  | None => Ok false
  | Some grant =>
      let? chain := chain_of grant s in
      Ok (is_some_and (λ chain, is_ok (check_chain chain now_millis)) chain)
  end.

(** The use cases that change grants, in any order, with any clock and any request of the port's
    types. *)
Inductive grants_step (registry : ActionRegistry) : relation S :=
| step_issue now grant s : 0 ≤ grant_max_depth grant →
    grants_step registry s (issue_grant registry now grant s).2
| step_delegate now delegator parent request version s : 0 ≤ dr_max_depth request →
    grants_step registry s (delegate_grant registry now delegator parent request version s).2
| step_revoke now id s : grants_step registry s (revoke_grant now id s).2.

End use_cases.

(** ** What the store holds *)

(** The class of the holder may hold every action, and may pass on what it may delegate. *)
Definition entitled (registry : ActionRegistry) (g : Grant) : Prop :=
  ∀ a, a ∈ grant_actions g → ∃ r, registry_actions registry !! a = Some r ∧ ra_resource r = selector_kind (grant_resource g)
    ∧ subject_kind (grant_subject g) ∈ ra_subjects r ∧ (a ∈ grant_delegable_actions g → ra_delegable r = true).

(** Roots were issued, and every other grant attenuates a grant that is held. *)
Record lineage (registry : ActionRegistry) (v : Grants) (id : Uuid) (g : Grant) : Prop := {
  lin_id : grant_id g = id;
  lin_depth : 0 ≤ grant_max_depth g;
  lin_entitled : entitled registry g;
  lin_root : grant_parent g = None → root_ok g;
  lin_parent : ∀ p, grant_parent g = Some p → ∃ pg, v !! p = Some pg ∧ attenuated g pg;
}.
Definition held (registry : ActionRegistry) (v : Grants) : Prop := map_Forall (lineage registry v) v.

Lemma attenuated_revoked t c p : attenuated c p ↔ attenuated (revoked_at t c) p.
Proof. split; intros []; constructor; done. Qed.
Lemma attenuated_by_revoked t c p : attenuated c p → attenuated c (revoked_at t p).
Proof. intros []; constructor; done. Qed.

Lemma held_recorded registry v g v' :
  held registry v → recorded v g v' → lineage registry v (grant_id g) g → held registry v'.
Proof.
  intros Hv [Hn ->] Hg id x [[<- <-]|[_ Hx]]%lookup_insert_Some.
  - destruct Hg. constructor; try done. intros p Hp. destruct (lin_parent0 p Hp) as (pg & Hpg & Ha). exists pg.
    split; [|done]. rewrite lookup_insert_ne; [done|congruence].
  - destruct (Hv id x Hx). constructor; try done. intros p Hp. destruct (lin_parent0 p Hp) as (pg & Hpg & Ha). exists pg.
    split; [|done]. rewrite lookup_insert_ne; [done|congruence].
Qed.

Lemma held_withdrawn registry v id t v' : held registry v → withdrawn v id t v' → held registry v'.
Proof.
  intros Hv (g & Hg & ->).
  assert (∀ x gx, lineage registry v x gx → lineage registry (<[id := revoked_at t g]> v) x gx) as Hmono.
  { intros x gx []. constructor; try done. intros p Hp. destruct (lin_parent0 p Hp) as (pg & Hpg & Ha).
    destruct (decide (p = id)) as [->|Hne].
    - rewrite Hg in Hpg. injection Hpg as <-. exists (revoked_at t g). split; [apply lookup_insert_eq|by apply attenuated_by_revoked].
    - exists pg. by rewrite lookup_insert_ne. }
  intros x gx [[<- <-]|[_ Hx]]%lookup_insert_Some; [|by apply Hmono, Hv].
  destruct (Hmono _ _ (Hv _ _ Hg)). constructor; try done. intros p Hp. destruct (lin_parent0 p Hp) as (pg & Hpg & Ha).
  exists pg. split; [done|by apply attenuated_revoked].
Qed.

Lemma check_issued_entitled registry g actions :
  check_issued_actions registry g actions = Ok tt → ∀ a, a ∈ actions → ∃ r, registry_actions registry !! a = Some r
    ∧ ra_resource r = selector_kind (grant_resource g) ∧ subject_kind (grant_subject g) ∈ ra_subjects r
    ∧ (a ∈ grant_delegable_actions g → ra_delegable r = true).
Proof.
  induction actions as [|b actions IH]; [intros _ a ?%not_elem_of_nil; done|]. cbn [check_issued_actions].
  destruct (registry_actions registry !! b) as [r|] eqn:Hr; [|done]. cbn [ok_or].
  case_bool_decide as H1; [|done]. case_bool_decide as H2; [|done]. cbn [negb].
  destruct (bool_decide (b ∈ grant_delegable_actions g) && negb (ra_delegable r)) eqn:H3; [done|].
  intros Hok a [->|Ha]%elem_of_cons; [|by apply IH]. exists r. split_and!; try done. intros Hd.
  rewrite bool_decide_eq_true_2 in H3 by done. by apply negb_false_iff in H3.
Qed.

Section authority.
Context {S : Type} `{GrantSpec S}.
Context (registry : ActionRegistry).

Lemma issue_inv now g s r s' : issue_grant registry now g s = (r, s') →
  gs_view s' = gs_view s ∨ recorded (gs_view s) g (gs_view s') ∧ root_ok g ∧ entitled registry g.
Proof.
  unfold issue_grant. destruct (grant_parent g) eqn:Hp; cbn [is_some]; [intros [= <- <-]; by left|].
  destruct (bool_decide (grant_actions g = ∅)); [intros [= <- <-]; by left|]. cbn [orb].
  case_bool_decide as Hd; cbn [negb]; [|intros [= <- <-]; by left].
  destruct (check_issued_actions _ _ _) as [[]|] eqn:Hc; [|intros [= <- <-]; by left].
  destruct (is_some_and _ _); [intros [= <- <-]; by left|]. destruct (gs_put g s) as [r1 s1] eqn:Hput. intros [= <- <-].
  destruct (spec_put _ _ _ _ Hput) as [Hrec|[_ ->]]; [right|by left]. split; [done|]. split; [done|].
  intros a Ha. eapply check_issued_entitled; [exact Hc|]. by apply elem_of_btree_iter.
Qed.

(** A chain follows the stored grants from its first one up to a root. *)
Lemma ancestors_head room g s chain : ancestors room g s = Ok (Some chain) → head chain = Some g.
Proof.
  destruct room; cbn [ancestors]; (destruct (grant_parent g); [|by intros [= <-]]); [done|].
  destruct (gs_grant _ s) as [[q|]|]; [|done..]. destruct (ancestors room q s) as [[l|]|]; [|done..]. by intros [= <-].
Qed.
Lemma ancestors_stored room g s chain :
  held registry (gs_view s) → gs_view s !! grant_id g = Some g → ancestors room g s = Ok (Some chain) →
  (∀ c, c ∈ chain → gs_view s !! grant_id c = Some c)
  ∧ ∀ i c p, chain !! i = Some c → grant_parent c = Some p → ∃ pg, chain !! Datatypes.S i = Some pg ∧ grant_id pg = p.
Proof.
  intros Hv. revert g chain. induction room as [|room IH]; intros g chain Hg; cbn [ancestors];
    (destruct (grant_parent g) as [p|] eqn:Hp;
     [|intros [= <-]; split; [by intros c ->%list_elem_of_singleton|intros [|i] c p; [intros [= <-]; by rewrite Hp|done]]]); [done|].
  destruct (gs_grant p s) as [[q|]|] eqn:Hq; [|done..]. apply spec_grant in Hq. symmetry in Hq.
  pose proof (lin_id _ _ _ _ (Hv _ _ Hq)) as Hid.
  destruct (ancestors room q s) as [[l|]|] eqn:Hl; [|done..]. intros [= <-].
  destruct (IH q l) as [I1 I2]; [by rewrite Hid|done|]. split.
  - intros c [->|Hc]%elem_of_cons; [done|by apply I1].
  - intros [|i] c p'; cbn [lookup list_lookup]; [|by apply I2]. intros [= <-] Hp'. rewrite Hp in Hp'. injection Hp' as <-.
    exists q. split; [|done]. apply ancestors_head in Hl. by destruct l.
Qed.

Lemma delegate_depth chain delegator request version now child :
  (∀ parent, head chain = Some parent → 0 ≤ grant_max_depth parent) → 0 ≤ dr_max_depth request →
  delegate registry chain delegator request version now = Ok child → 0 ≤ grant_max_depth child.
Proof.
  intros Hp Hr. unfold delegate. destruct (check_chain _ _); [|done]. destruct (head chain) as [parent|]; [|done]. cbn [ok_or].
  specialize (Hp parent eq_refl). destruct (negb _); [done|]. destruct (Z.eqb_spec (grant_max_depth parent) 0); [done|].
  destruct (intersect _ _); [|done]. cbn [ok_or]. destruct (delegated_actions _ _ _ _ _); [|done].
  case_bool_decide; [done|]. intros [= <-]. cbn [grant_max_depth]. lia.
Qed.

Lemma delegate_grant_inv now delegator parent request version s r s' :
  held registry (gs_view s) → 0 ≤ dr_max_depth request →
  delegate_grant registry now delegator parent request version s = (r, s') →
  gs_view s' = gs_view s ∨ ∃ child, recorded (gs_view s) child (gs_view s') ∧ lineage registry (gs_view s) (grant_id child) child.
Proof.
  intros Hv Hd. unfold delegate_grant. destruct (gs_grant parent s) as [found|] eqn:Hf; [|intros [= <- <-]; by left].
  apply spec_grant in Hf. cbn [map_err]. destruct found as [pg|]; [|intros [= <- <-]; by left]. cbn [ok_or].
  symmetry in Hf. destruct (chain_of pg s) as [[chain|]|] eqn:Hch; [|intros [= <- <-]; by left..]. cbn [map_err ok_or].
  destruct (delegate _ _ _ _ _ _) as [child|] eqn:Hdel; [|intros [= <- <-]; by left]. cbn [map_err].
  destruct (gs_put child s) as [r1 s1] eqn:Hput. intros [= <- <-].
  destruct (spec_put _ _ _ _ Hput) as [Hrec|[_ ->]]; [right|by left]. exists child. split; [done|].
  assert (head chain = Some pg) as Hhead by by eapply ancestors_head.
  pose proof (Hv _ _ Hf) as Hpg. pose proof (lin_depth _ _ _ _ Hpg).
  pose proof Hdel as Hdel'. apply delegate_inv in Hdel as (_ & p & Hp & _ & Hsub & Hne & Hint & Hact & _ & Hatt).
  rewrite Hhead in Hp. injection Hp as <-. specialize (Hatt ltac:(lia)).
  assert (grant_parent child = Some (grant_id pg)) as Hpar by apply Hatt.
  constructor; [done| | | |].
  - eapply delegate_depth; [|done|exact Hdel']. intros q. rewrite Hhead. by intros [= <-].
  - intros a Ha. destruct (delegated_actions_spec _ _ _ _ _ _ Hact a Ha) as [?|(_ & r & Hr & Hdl & Hk & Hs)]; [set_solver|].
    exists r. split_and!; try done. by rewrite Hsub.
  - by rewrite Hpar.
  - intros q Hq. rewrite Hpar in Hq. injection Hq as <-. exists pg. by rewrite (lin_id _ _ _ _ Hpg).
Qed.

Lemma revoke_inv now id s r s' : revoke_grant now id s = (r, s') →
  withdrawn (gs_view s) id now (gs_view s') ∨ (∀ l, r ≠ Some (Ok l)) ∧ gs_view s' = gs_view s.
Proof.
  unfold revoke_grant. destruct (gs_revoke id now s) as [r1 s1] eqn:Hr. generalize (close_revoked closure_turns [id] [id] s1).
  intros closed. destruct (spec_revoke _ _ _ _ _ Hr) as [Hw|[Hne Hs]].
  - destruct r1 as [[]|[]]; intros [= <- <-]; by left.
  - destruct r1 as [[]|[]]; intros [= <- <-]; [done|right; done..].
Qed.

Lemma grants_step_held s s' : held registry (gs_view s) → grants_step registry s s' → held registry (gs_view s').
Proof.
  intros Hv Hstep. destruct Hstep as [now g s Hd|now del p rq ver s Hd|now id s].
  - destruct (issue_grant registry now g s) as [r s1] eqn:E. cbn [snd].
    apply issue_inv in E as [->|(Hrec & Hroot & Hent)]; [done|]. eapply held_recorded; [done..|].
    destruct Hroot as [Hp ?]. constructor; try done. intros q. by rewrite Hp.
  - destruct (delegate_grant _ _ _ _ _ _ s) as [r s1] eqn:E. cbn [snd].
    apply delegate_grant_inv in E as [->|(child & Hrec & Hl)]; [done| |done..]. by eapply held_recorded.
  - destruct (revoke_grant now id s) as [r s1] eqn:E. cbn [snd]. apply revoke_inv in E as [Hw|[_ ->]]; [|done]. by eapply held_withdrawn.
Qed.
Lemma grants_rtc_held s s' : rtc (grants_step registry) s s' → held registry (gs_view s) → held registry (gs_view s').
Proof. induction 1 as [|x y z Hxy _ IH]; [done|]. intros Hx. apply IH. by eapply grants_step_held. Qed.

(** ** Authority comes from live roots *)

Lemma chains_for_inv action grants s chains chain :
  chains_for action grants s = Ok chains → chain ∈ chains →
  ∃ g, g ∈ grants ∧ action ∈ grant_actions g ∧ chain_of g s = Ok (Some chain).
Proof.
  revert chains. induction grants as [|g grants IH]; intros chains; cbn [chains_for]; [by intros [= <-] ?%not_elem_of_nil|].
  case_bool_decide as Ha.
  - destruct (chain_of g s) as [found|] eqn:Hc; [|done]. destruct (chains_for action grants s) as [rest|]; [|done].
    intros [= <-] Hin. destruct found as [c|]; [apply elem_of_cons in Hin as [->|Hin]; [exists g; split; [by left|done]|]|];
      (destruct (IH rest eq_refl Hin) as (x & ? & ? & ?); exists x; split; [by right|done]).
  - intros Hr Hin. destruct (IH chains Hr Hin) as (x & ? & ? & ?). exists x. split; [by right|done].
Qed.

Lemma loaded_chain subject action s chains chain :
  held registry (gs_view s) → load_chains subject action s = Ok chains → chain ∈ chains →
  ∃ g, gs_view s !! grant_id g = Some g ∧ chain_of g s = Ok (Some chain).
Proof.
  intros Hv. unfold load_chains. destruct (gs_grants_of subject s) as [l|] eqn:Hl; [|done]. intros Hc Hin.
  destruct (chains_for_inv _ _ _ _ _ Hc Hin) as (g & Hg & _ & Hch). destruct (spec_grants_of _ _ _ _ Hl Hg) as [id Hid].
  exists g. by rewrite (lin_id _ _ _ _ (Hv _ _ Hid)).
Qed.

(** The decision of the built-in policy over the loaded chains. *)
Definition decides (version : str) (now : i64) (subject : Subject) (action : str) (resource : ResourceRef)
    (facts : gset Condition) (s : S) (d : PolicyDecision) : Prop :=
  authorize (λ request, Ok (evaluate registry request version)) now (Some subject) action resource facts s = Ok d.

Lemma decides_chain version now subject action resource facts s d :
  held registry (gs_view s) → decides version now subject action resource facts s d → pd_grant_chain d ≠ [] →
  ∃ chain g, pd_allowed d = true ∧ pd_grant_chain d = grant_id <$> chain ∧ gs_view s !! grant_id g = Some g
    ∧ chain_of g s = Ok (Some chain) ∧ chain_authorizes chain subject action (rr_kind resource) (rr_id resource) now = true.
Proof.
  intros Hv. unfold decides, authorize. destruct (load_chains subject action s) as [chains|] eqn:Hl; [|done]. intros [= <-].
  set (request := {| pr_subject := _ |}). unfold evaluate. destruct (registry_actions registry !! _) as [a|]; [|done].
  destruct (negb (bool_decide (rr_kind _ = _))); [done|]. destruct (bool_decide (Never ∈ _)); [done|].
  cbn [pr_subject request]. destruct (negb _); [done|].
  destruct (match_rule request subject (ra_rule a)) as [[c chain]|] eqn:Hm; [|done]. cbn [pd_grant_chain pd_allowed]. intros Hne.
  apply match_rule_Some in Hm as (_ & _ & [->|(_ & g & Hg & -> & Ha)]); [done|].
  destruct (loaded_chain _ _ _ _ _ Hv Hl Hg) as (x & Hx & Hc). exists g, x. split_and!; try done.
Qed.

Lemma chain_authorizes_inv chain subject action kind id now :
  chain_authorizes chain subject action kind id now = true →
  check_chain chain now = Ok tt ∧ ∃ leaf, head chain = Some leaf ∧ grant_subject leaf = subject
    ∧ action ∈ grant_actions leaf ∧ covers (grant_resource leaf) kind id = true.
Proof.
  unfold chain_authorizes. destruct (head chain) as [leaf|]; [|done]. cbn [is_some_and].
  intros [[[H1%bool_decide_eq_true H2%bool_decide_eq_true]%andb_true_iff H3]%andb_true_iff H4]%andb_true_iff.
  split; [by destruct (check_chain chain now) as [[]|]|]. by exists leaf.
Qed.

(** C6. Authority by grants comes from roots that were issued.  In every store that the use cases
    reach, in any order and with any clocks and failures, a decision that rests on a chain of grants
    rests on stored grants that are live: the first is held by the subject, each was issued by the
    holder of the next, each allows the action on the resource and may be held by its subject's
    class, and the last is a root. *)
Theorem grants_come_from_roots s0 s version now subject action resource facts d :
  gs_view s0 = ∅ → rtc (grants_step registry) s0 s →
  decides version now subject action resource facts s d → pd_grant_chain d ≠ [] →
  ∃ chain, pd_grant_chain d = grant_id <$> chain
    ∧ (∃ leaf, head chain = Some leaf ∧ grant_subject leaf = subject)
    ∧ (∃ root, last chain = Some root ∧ root_ok root)
    ∧ (∀ i c p, chain !! i = Some c → chain !! Datatypes.S i = Some p → grant_issuer c = grant_subject p)
    ∧ (∀ g, g ∈ chain → gs_view s !! grant_id g = Some g ∧ live_at g now = true ∧ action ∈ grant_actions g
         ∧ covers (grant_resource g) (rr_kind resource) (rr_id resource) = true ∧ entitled registry g).
Proof.
  intros Hempty Hr Hd Hne. assert (held registry (gs_view s)) as Hv.
  { eapply grants_rtc_held; [done|]. rewrite Hempty. apply map_Forall_empty. }
  destruct (decides_chain _ _ _ _ _ _ _ _ Hv Hd Hne) as (chain & g & _ & -> & Hg & Hch & Ha).
  apply chain_authorizes_inv in Ha as (Hc & leaf & Hhead & Hsub & Hact & Hcov).
  destruct (ancestors_stored _ _ _ _ Hv Hg Hch) as [Hst _].
  pose proof Hc as Hc'. apply check_chain_spec in Hc' as (Hroot & Hlive & Hlinks).
  exists chain. split; [done|]. split; [by exists leaf|]. split; [done|].
  split; [intros i c p Hi Hp; by eapply att_issuer, Hlinks|].
  intros x Hx. split; [by apply Hst|]. split; [by apply Hlive|].
  destruct (list_elem_of_lookup_1 _ _ Hx) as [k Hk]. assert (chain !! 0%nat = Some leaf) as H0' by by destruct chain.
  destruct (chain_nested chain now 0 k leaf x Hc H0' Hk) as [Na _ Nr _ _ _].
  split; [by apply Na|]. split; [by apply Nr|]. eapply lin_entitled, Hv, Hst, Hx.
Qed.

(** ** Revocation *)

Definition revoked_by (t : i64) (v : Grants) (id : Uuid) : Prop :=
  ∃ g r, v !! id = Some g ∧ grant_revoked_at_millis g = Some r ∧ r ≤ t.

Lemma revoked_at_time t g :
  ∃ r, grant_revoked_at_millis (revoked_at t g) = Some r ∧ r ≤ t ∧ ∀ r0, grant_revoked_at_millis g = Some r0 → r ≤ r0.
Proof.
  unfold revoked_at. cbn [grant_revoked_at_millis]. destruct (grant_revoked_at_millis g) as [r|]; [destruct (Z.leb_spec r t)|];
    eexists; (split; [done|]; split; [lia|]; intros r0 E; simplify_eq; lia).
Qed.

Lemma revoked_by_recorded t v id g v' : revoked_by t v id → recorded v g v' → revoked_by t v' id.
Proof. intros (x & r & Hx & Hr) [Hn ->]. exists x, r. split; [|done]. rewrite lookup_insert_ne; [done|congruence]. Qed.
Lemma revoked_by_withdrawn t v id x t' v' : revoked_by t v id → withdrawn v x t' v' → revoked_by t v' id.
Proof.
  intros (g & r & Hg & Hr & Hle) (y & Hy & ->). destruct (decide (x = id)) as [->|Hne].
  - rewrite Hg in Hy. injection Hy as <-. destruct (revoked_at_time t' g) as (r' & Hr' & _ & Hmin).
    exists (revoked_at t' g), r'. split; [apply lookup_insert_eq|]. split; [done|]. specialize (Hmin r Hr). lia.
  - exists g, r. by rewrite lookup_insert_ne.
Qed.
Lemma grants_step_revoked t id s s' :
  held registry (gs_view s) → grants_step registry s s' → revoked_by t (gs_view s) id → revoked_by t (gs_view s') id.
Proof.
  intros Hv Hstep Hrev. destruct Hstep as [now g s Hd|now del p rq ver s Hd|now x s].
  - destruct (issue_grant registry now g s) as [r s1] eqn:E. cbn [snd].
    apply issue_inv in E as [->|(Hrec & _)]; [done|]. by eapply revoked_by_recorded.
  - destruct (delegate_grant _ _ _ _ _ _ s) as [r s1] eqn:E. cbn [snd].
    apply delegate_grant_inv in E as [->|(child & Hrec & Hl)]; [done| |done..]. by eapply revoked_by_recorded.
  - destruct (revoke_grant now x s) as [r s1] eqn:E. cbn [snd]. apply revoke_inv in E as [Hw|[_ ->]]; [|done]. by eapply revoked_by_withdrawn.
Qed.

(** [x] is the grant [id] or was delegated from it, at any distance. *)
Definition descends (v : Grants) : relation Uuid := rtc (λ x p, ∃ g, v !! x = Some g ∧ grant_parent g = Some p).

Lemma chain_ancestors s g chain x id :
  held registry (gs_view s) → gs_view s !! grant_id g = Some g → chain_of g s = Ok (Some chain) →
  descends (gs_view s) x id → x ∈ grant_id <$> chain → id ∈ grant_id <$> chain.
Proof.
  intros Hv Hg Hch Hd. destruct (ancestors_stored _ _ _ _ Hv Hg Hch) as [Hst Hup].
  induction Hd as [x|x y z (gx & Hgx & Hp) _ IH]; [done|]. intros (c & -> & Hc)%list_elem_of_fmap. apply IH.
  rewrite (Hst c Hc) in Hgx. injection Hgx as <-. destruct (list_elem_of_lookup_1 _ _ Hc) as [i Hi].
  destruct (Hup i c y Hi Hp) as (pg & Hpg & <-). apply list_elem_of_fmap_2. by eapply list_elem_of_lookup_2.
Qed.

Lemma revoked_chain s g chain id t now :
  held registry (gs_view s) → gs_view s !! grant_id g = Some g → chain_of g s = Ok (Some chain) →
  revoked_by t (gs_view s) id → t ≤ now → id ∈ grant_id <$> chain → check_chain chain now ≠ Ok tt.
Proof.
  intros Hv Hg Hch (x & r & Hx & Hr & Hle) Hnow (c & -> & Hc)%list_elem_of_fmap Hok.
  destruct (ancestors_stored _ _ _ _ Hv Hg Hch) as [Hst _]. rewrite (Hst c Hc) in Hx. injection Hx as <-.
  apply check_chain_spec in Hok as (_ & Hlive & _). specialize (Hlive c Hc). unfold live_at in Hlive. rewrite Hr in Hlive.
  apply andb_true_iff in Hlive as [_ Hl]. cbn [is_none_or] in Hl. lia.
Qed.

(** C17. A revocation takes effect at once and for good.  After a grant was revoked at an instant, in
    every store that the use cases reach from there, at that instant and later: neither the grant
    nor any grant delegated from it, at any distance and whenever, is live, and no decision rests on
    one. *)
Theorem revocation_is_final s0 s t id closure s1 s2 :
  gs_view s0 = ∅ → rtc (grants_step registry) s0 s → revoke_grant t id s = (Some (Ok closure), s1) →
  rtc (grants_step registry) s1 s2 →
  ∀ x now, t ≤ now → descends (gs_view s2) x id →
    grant_is_live x now s2 ≠ Ok true
    ∧ ∀ version subject action resource facts d,
        decides version now subject action resource facts s2 d → x ∉ pd_grant_chain d.
Proof.
  intros Hempty Hr Hrev Hr2 x now Hnow Hd.
  assert (held registry (gs_view s)) as Hv by (eapply grants_rtc_held; [done|]; rewrite Hempty; apply map_Forall_empty).
  assert (held registry (gs_view s1) ∧ revoked_by t (gs_view s1) id) as [Hv1 R1].
  { apply revoke_inv in Hrev as [Hw|[Hno _]]; [|by destruct (Hno closure)]. split; [by eapply held_withdrawn|].
    destruct Hw as (g & Hg & ->). destruct (revoked_at_time t g) as (r & Hr' & Hle & _).
    exists (revoked_at t g), r. by rewrite lookup_insert_eq. }
  assert (held registry (gs_view s2) ∧ revoked_by t (gs_view s2) id) as [Hv2 R2].
  { clear -Hr2 Hv1 R1. induction Hr2 as [|a b c Hab _ IH]; [done|].
    apply IH; [by eapply grants_step_held|by eapply grants_step_revoked]. }
  split.
  - unfold grant_is_live. destruct (gs_grant x s2) as [found|] eqn:Hf; [|done]. apply spec_grant in Hf.
    destruct found as [g|]; [|done]. symmetry in Hf. pose proof (lin_id _ _ _ _ (Hv2 _ _ Hf)) as Hid.
    destruct (chain_of g s2) as [[chain|]|] eqn:Hch; [|done..]. cbn [is_some_and].
    assert (gs_view s2 !! grant_id g = Some g) as Hg by by rewrite Hid.
    assert (id ∈ grant_id <$> chain) as Hin.
    { eapply chain_ancestors; [done..|]. rewrite <-Hid. apply list_elem_of_fmap_2. apply ancestors_head in Hch.
      destruct chain; [done|]. injection Hch as ->. by left. }
    pose proof (revoked_chain _ _ _ _ _ _ Hv2 Hg Hch R2 Hnow Hin). by destruct (check_chain chain now) as [[]|].
  - intros version subject action resource facts d Hdec Hx.
    assert (pd_grant_chain d ≠ []) as Hne by (intros E; rewrite E in Hx; by apply elem_of_nil in Hx).
    destruct (decides_chain _ _ _ _ _ _ _ _ Hv2 Hdec Hne) as (chain & g & _ & E & Hg & Hch & Ha). rewrite E in Hx.
    apply chain_authorizes_inv in Ha as [Hc _]. revert Hc. eapply revoked_chain; [done..|]. by eapply chain_ancestors.
Qed.

End authority.

(** ** The store *)

(** The grants by id; a [failure] answers every call. *)
Record GrantDb := { gd_grants : Grants; gd_failure : option PortError }.

Definition MAX_QUERY_LIMIT : nat := Z.to_nat 10000.

(** [micros]: times are kept in microseconds. *)
Definition micros_fit (millis : i64) : bool := is_some (checked i64_min i64_max (millis * 1000)).
Definition overflows : PortError := PFailed (lit "grant time overflows microseconds").
Definition times_fit (g : Grant) : bool :=
  micros_fit (grant_not_before_millis g) && is_none_or micros_fit (grant_expires_at_millis g)
  && is_none_or micros_fit (grant_revoked_at_millis g).

(** [CapsuleGrantStore::query]: one page of matches, by id. *)
Definition query_grants (matching : Grant → bool) (db : GrantDb) : PortResult (list Grant) :=
  match gd_failure db with
  | Some error => Err error
  | None => Ok (take MAX_QUERY_LIMIT (filter (λ g, matching g = true) (merge_sort key_le (map_to_list (gd_grants db))).*2))
  end.

Definition CapsuleGrantStore_grant (id : Uuid) (db : GrantDb) : PortResult (option Grant) :=
  match gd_failure db with Some error => Err error | None => Ok (gd_grants db !! id) end.
Definition CapsuleGrantStore_grants_of (subject : Subject) : GrantDb → PortResult (list Grant) :=
  query_grants (λ g, bool_decide (grant_subject g = subject)).
Definition CapsuleGrantStore_children (parent : Uuid) : GrantDb → PortResult (list Grant) :=
  query_grants (λ g, bool_decide (grant_parent g = Some parent)).

Definition CapsuleGrantStore_put (g : Grant) (db : GrantDb) : PortResult unit * GrantDb :=
  if negb (times_fit g) then (Err overflows, db)
  else match gd_failure db with
  | Some error => (Err error, db)
  | None =>
      match gd_grants db !! grant_id g with
      | Some _ => (Err PConflict, db)
      | None => (Ok tt, {| gd_grants := <[grant_id g := g]> (gd_grants db); gd_failure := None |})
      end
  end.

(** The revision that [revoke] writes carries the revision it read, so a lost race is retried. *)
Definition CapsuleGrantStore_revoke (id : Uuid) (at_millis : i64) (db : GrantDb) : PortResult unit * GrantDb :=
  match gd_failure db with
  | Some error => (Err error, db)
  | None =>
      match gd_grants db !! id with
      | None => (Err PNotFound, db)
      | Some g =>
          if is_some_and (λ revoked, revoked <=? at_millis) (grant_revoked_at_millis g) then (Ok tt, db)
          else if negb (micros_fit at_millis) then (Err overflows, db)
          else (Ok tt, {| gd_grants := <[id := revoked_at at_millis g]> (gd_grants db); gd_failure := None |})
      end
  end.

#[export] Instance capsule_grants : GrantStore GrantDb := {|
  gs_grant := CapsuleGrantStore_grant;
  gs_grants_of := CapsuleGrantStore_grants_of;
  gs_children := CapsuleGrantStore_children;
  gs_put := CapsuleGrantStore_put;
  gs_revoke := CapsuleGrantStore_revoke;
|}.

Lemma revoked_at_earlier t g : is_some_and (λ revoked, revoked <=? t) (grant_revoked_at_millis g) = true → revoked_at t g = g.
Proof. destruct g as [? ? ? ? ? ? ? ? ? ? r ?]. unfold revoked_at. cbn. destruct r as [r|]; [cbn; by intros ->|done]. Qed.

Lemma query_grants_elem matching db l g :
  query_grants matching db = Ok l → g ∈ l → ∃ id, gd_grants db !! id = Some g ∧ matching g = true.
Proof.
  unfold query_grants. destruct (gd_failure db); [done|]. intros [= <-] Hg. apply elem_of_take in Hg as (i & Hi & _).
  apply list_elem_of_lookup_2, list_elem_of_filter in Hi as [Hm Hi]. apply list_elem_of_fmap in Hi as ([id x] & -> & Hi).
  rewrite merge_sort_Permutation in Hi. apply elem_of_map_to_list in Hi. by exists id.
Qed.

#[export] Program Instance capsule_grants_spec : GrantSpec GrantDb := {| gs_view := gd_grants |}.
Next Obligation. intros id db found. cbn. unfold CapsuleGrantStore_grant. destruct (gd_failure db); [done|]. by intros [= <-]. Qed.
Next Obligation. intros subject db l g Hl Hg. by destruct (query_grants_elem _ _ _ _ Hl Hg) as (id & Hid & _); exists id. Qed.
Next Obligation.
  intros g db r db'. cbn. unfold CapsuleGrantStore_put. destruct (negb _); [intros [= <- <-]; by right|].
  destruct (gd_failure db); [intros [= <- <-]; by right|].
  destruct (gd_grants db !! grant_id g) eqn:E; intros [= <- <-]; [by right|by left].
Qed.
Next Obligation.
  intros id t db r db'. cbn. unfold CapsuleGrantStore_revoke. destruct (gd_failure db); [intros [= <- <-]; by right|].
  destruct (gd_grants db !! id) as [g|] eqn:E; [|intros [= <- <-]; by right].
  destruct (is_some_and _ _) eqn:Hr; [|destruct (negb _)]; intros [= <- <-]; [left|by right|left; by exists g].
  exists g. split; [done|]. by rewrite revoked_at_earlier, insert_id.
Qed.

(** ** The closure that a revocation reports *)

Section closure.
Context (db : GrantDb) (Hfiled : map_Forall (λ id g, grant_id g = id) (gd_grants db)) (Hup : gd_failure db = None).
Context (Hsize : Z.of_nat (size (gd_grants db)) < MAX_REVOCATION_CLOSURE).

Lemma children_exact next : ∃ l, CapsuleGrantStore_children next db = Ok l
  ∧ ∀ x, x ∈ grant_id <$> l ↔ ∃ g, gd_grants db !! x = Some g ∧ grant_parent g = Some next.
Proof.
  unfold CapsuleGrantStore_children, query_grants. rewrite Hup. eexists. split; [done|]. intros x.
  rewrite take_ge.
  2:{ etrans; [apply length_filter|]. rewrite length_fmap, merge_sort_Permutation, length_map_to_list.
      unfold MAX_QUERY_LIMIT. unfold MAX_REVOCATION_CLOSURE in Hsize. lia. }
  rewrite list_elem_of_fmap. split.
  - intros (g & -> & [Hp Hg]%list_elem_of_filter). apply list_elem_of_fmap in Hg as ([id y] & -> & Hi).
    rewrite merge_sort_Permutation in Hi. apply elem_of_map_to_list in Hi. cbn [snd]. exists y.
    rewrite (Hfiled _ _ Hi). split; [done|]. by apply bool_decide_eq_true in Hp.
  - intros (g & Hg & Hp). exists g. split; [symmetry; by apply Hfiled|]. apply list_elem_of_filter.
    split; [by apply bool_decide_eq_true|]. apply list_elem_of_fmap. exists (x, g). split; [done|].
    rewrite merge_sort_Permutation. by apply elem_of_map_to_list.
Qed.

(** The grants that the closure may hold. *)
Notation ids := (dom (gd_grants db)).

Lemma closure_bound closure : NoDup closure → (∀ x, x ∈ closure → x ∈ ids) → (length closure ≤ size (gd_grants db))%nat.
Proof.
  intros Hnd Hin. rewrite <-size_dom, <-(size_list_to_set (C := gset Uuid) closure) by done.
  apply subseteq_size. intros x Hx%elem_of_list_to_set. by apply Hin.
Qed.

Lemma close_children_spec closure pending children :
  NoDup closure → (∀ x, x ∈ closure → x ∈ ids) → (∀ x, x ∈ grant_id <$> children → x ∈ ids) →
  ∃ new, close_children closure pending children = (closure ++ new, Some (pending ++ new)) ∧ NoDup (closure ++ new)
    ∧ (∀ x, x ∈ new → x ∈ grant_id <$> children) ∧ ∀ x, x ∈ grant_id <$> children → x ∈ closure ++ new.
Proof.
  revert closure pending. induction children as [|c children IH]; intros closure pending Hnd Hin Hch; cbn [close_children].
  - exists []. rewrite !app_nil_r. split_and!; [done..|]. by intros x ?%not_elem_of_nil.
  - pose proof (closure_bound _ Hnd Hin). destruct (Z.leb_spec MAX_REVOCATION_CLOSURE (Z.of_nat (length closure))); [lia|].
    cbn [fmap list_fmap] in Hch |- *. case_bool_decide as Hc.
    + destruct (IH closure pending) as (new & -> & Hn & Hs & Hall); [set_solver..|]. exists new. set_solver.
    + destruct (IH (closure ++ [grant_id c]) (pending ++ [grant_id c])) as (new & -> & Hn & Hs & Hall); [|set_solver..|].
      { apply NoDup_app. split_and!; [done|set_solver|apply NoDup_singleton]. }
      rewrite <-!app_assoc in *. exists ([grant_id c] ++ new). split_and!; [done|done|set_solver|set_solver].
Qed.

Definition offspring (x p : Uuid) : Prop := ∃ g, gd_grants db !! x = Some g ∧ grant_parent g = Some p.

Lemma close_revoked_spec fuel closure pending :
  NoDup closure → (∀ x, x ∈ closure → x ∈ ids) → (∀ x, x ∈ pending → x ∈ closure) →
  (∀ p x, p ∈ closure → p ∉ pending → offspring x p → x ∈ closure) →
  (length pending + (size (gd_grants db) - length closure) ≤ fuel)%nat →
  ∃ l, close_revoked fuel closure pending db = Some (Ok l) ∧ NoDup l ∧ (∀ x, x ∈ closure → x ∈ l)
    ∧ (∀ p x, p ∈ l → offspring x p → x ∈ l)
    ∧ ∀ D : Uuid → Prop, (∀ x, x ∈ closure → D x) → (∀ p x, D p → offspring x p → D x) → ∀ x, x ∈ l → D x.
Proof.
  revert closure pending. induction fuel as [|fuel IH]; intros closure pending Hnd Hin Hp Hcl Hf.
  - destruct pending; [|cbn in Hf; lia]. exists closure. split; [done|]. split; [done|]. split; [done|].
    split; [intros p x Hpc; apply Hcl; [done|apply not_elem_of_nil]|]. auto.
  - destruct pending as [|next pending]; cbn [close_revoked].
    { exists closure. split; [done|]. split; [done|]. split; [done|].
      split; [intros p x Hpc; apply Hcl; [done|apply not_elem_of_nil]|]. auto. }
    destruct (children_exact next) as (children & Hc & Hch). cbn [gs_children capsule_grants]. rewrite Hc.
    destruct (close_children_spec closure pending children) as (new & -> & Hn & Hs & Hall); [done|done| |].
    { intros x (g & Hg & _)%Hch. by apply elem_of_dom_2 in Hg. }
    assert (∀ x, x ∈ closure ++ new → x ∈ ids) as Hin'.
    { intros x [Hx|Hx]%elem_of_app; [by apply Hin|]. apply Hs, Hch in Hx as (g & Hg & _). by apply elem_of_dom_2 in Hg. }
    pose proof (closure_bound _ Hn Hin') as Hb. rewrite length_app in Hb.
    destruct (IH (closure ++ new) (pending ++ new)) as (l & Hl & Hnl & Hsub & Hcl' & Hleast); [done|done| | | |].
    + set_solver.
    + intros p x Hpc Hpp Hx. destruct (decide (p = next)) as [->|Hne]; [by apply Hall, Hch|].
      apply elem_of_app. left. apply (Hcl p); [|set_solver|done]. apply elem_of_app in Hpc as [?|?]; [done|]. set_solver.
    + rewrite !length_app. cbn [length] in Hf. lia.
    + exists l. split_and!; [done|done|set_solver|done|]. intros D HD HcD. apply Hleast; [|done].
      intros x [Hx|Hx]%elem_of_app; [by apply HD|]. apply Hs, Hch in Hx. eapply HcD; [apply HD, Hp; by left|exact Hx].
Qed.

End closure.

(** C33. Revoking reports exactly what must be evaluated again.  While fewer grants are held than the
    report's limit, revoking a grant that is held terminates, marks it, and reports each grant
    that descends from it once, itself included, and no other. *)
Theorem revocation_reports_descendants db now id g :
  map_Forall (λ id g, grant_id g = id) (gd_grants db) → gd_failure db = None →
  Z.of_nat (size (gd_grants db)) < MAX_REVOCATION_CLOSURE →
  gd_grants db !! id = Some g → micros_fit now = true →
  ∃ closure db', revoke_grant now id db = (Some (Ok closure), db') ∧ revoked_by now (gd_grants db') id
    ∧ NoDup closure ∧ ∀ x, x ∈ closure ↔ descends (gd_grants db') x id.
Proof.
  intros Hfiled Hup Hsize Hg Hfit. unfold revoke_grant. cbn [gs_revoke capsule_grants].
  destruct (CapsuleGrantStore_revoke id now db) as [r db'] eqn:Hr.
  assert (r = Ok tt ∧ gd_failure db' = None) as [-> Hup'].
  { unfold CapsuleGrantStore_revoke in Hr. rewrite Hup, Hg, Hfit in Hr. destruct (is_some_and _ _); cbn [negb] in Hr; injection Hr as <- <-; done. }
  destruct (@spec_revoke GrantDb capsule_grants capsule_grants_spec id now db (Ok tt) db' Hr) as [(g' & Hg' & E)|[? _]]; [|done]. cbn [gs_view capsule_grants_spec] in Hg', E.
  assert (map_Forall (λ id g, grant_id g = id) (gd_grants db')) as Hfiled'.
  { rewrite E. apply map_Forall_insert_2; [|done]. cbn. by apply Hfiled. }
  assert (size (gd_grants db') = size (gd_grants db)) as Hs.
  { rewrite E, map_size_insert, Hg'. done. }
  assert (id ∈ dom (gd_grants db')) as Hid by (rewrite E; apply elem_of_dom; rewrite lookup_insert_eq; by eexists).
  destruct (close_revoked_spec db' Hfiled' Hup' ltac:(lia) closure_turns [id] [id]) as (l & Hl & Hnd & Hin & Hcl & Hleast).
  - apply NoDup_singleton.
  - by intros x ->%list_elem_of_singleton.
  - done.
  - by intros p x Hp.
  - unfold closure_turns. rewrite Hs. cbn [length]. lia.
  - exists l, db'. split; [by rewrite Hl|]. split; [|split; [done|]].
    + destruct (revoked_at_time now g') as (t & Ht & Hle & _). exists (revoked_at now g'), t. by rewrite E, lookup_insert_eq.
    + intros x. split.
      * apply (Hleast (λ y, descends (gd_grants db') y id)); [intros y ->%list_elem_of_singleton; apply rtc_refl|]. intros p y Hp Hy. by eapply rtc_l.
      * intros Hd. induction Hd as [y|y p z Hyp _ IH]; [apply Hin; by left|]. eapply Hcl; [by apply IH|exact Hyp].
Qed.

(** ** At work *)

Module GrantUse.

Definition empty : GrantDb := {| gd_grants := ∅; gd_failure := None |}.
Definition user : Subject := {| subject_kind := User; subject_id := 7%N |}.
Definition workload : Subject := {| subject_kind := Workload; subject_id := 8%N |}.
Definition issued : GrantDb := (issue_grant example_registry 5 example_root empty).2.
Definition delegated : GrantDb := (delegate_grant example_registry 20 user 1%N example_request (lit "1") issued).2.
Definition revoked : GrantDb := (revoke_grant 30 1%N delegated).2.
Definition decision (now : i64) (db : GrantDb) : PolicyDecision :=
  match authorize (λ request, Ok (evaluate example_registry request (lit "1"))) now (Some workload) (lit "store.read")
          {| rr_kind := lit "store"; rr_id := lit "s1" |} ∅ db with
  | Ok d => d
  | Err _ => provider_error [] []
  end.

(** The workload reads through the user's grant until that is revoked. *)
Example decisions :
  (issue_grant example_registry 5 example_root empty).1 = Ok tt
  ∧ (delegate_grant example_registry 20 user 1%N example_request (lit "1") issued).1 = Ok example_child
  ∧ pd_grant_chain (decision 20 delegated) = [2%N; 1%N] ∧ pd_allowed (decision 20 revoked) = true
  ∧ (revoke_grant 30 1%N delegated).1 = Some (Ok [1%N; 2%N]) ∧ pd_allowed (decision 30 revoked) = false.
Proof. vm_compute. done. Qed.

Lemma delegated_reached : rtc (grants_step example_registry) empty delegated.
Proof.
  eapply rtc_l; [apply (step_issue example_registry 5 example_root empty); done|].
  eapply rtc_l; [apply (step_delegate example_registry 20 user 1%N example_request (lit "1")); done|]. apply rtc_refl.
Qed.

Lemma grants_come_from_roots_witness :
  ∃ chain, [2%N; 1%N] = grant_id <$> chain ∧ ∀ g, g ∈ chain → live_at g 20 = true ∧ lit "store.read" ∈ grant_actions g.
Proof.
  destruct (grants_come_from_roots example_registry empty delegated (lit "1") 20 workload (lit "store.read")
    {| rr_kind := lit "store"; rr_id := lit "s1" |} ∅ (decision 20 delegated)) as (chain & Hc & _ & _ & _ & Hall).
  - reflexivity.
  - exact delegated_reached.
  - vm_compute. reflexivity.
  - vm_compute. discriminate.
  - exists chain. split; [exact Hc|]. intros g Hg. destruct (Hall g Hg) as (_ & Hl & Ha & _). split; assumption.
Defined.

Lemma child_descends : descends (@gs_view GrantDb _ capsule_grants_spec revoked) 2%N 1%N.
Proof. eapply rtc_l; [|apply rtc_refl]. eexists. split; vm_compute; reflexivity. Qed.

Lemma revoked_done : revoke_grant 30 1%N delegated = (Some (Ok [1%N; 2%N]), revoked).
Proof. vm_compute. reflexivity. Qed.

Lemma revocation_is_final_witness : grant_is_live 2%N 30 revoked ≠ Ok true ∧ grant_is_live 2%N 29 revoked = Ok true.
Proof.
  split; [|vm_compute; reflexivity].
  exact (proj1 (@revocation_is_final GrantDb _ capsule_grants_spec example_registry empty delegated 30 1%N [1%N; 2%N] revoked revoked
    eq_refl delegated_reached revoked_done (rtc_refl _ _) 2%N 30 (Z.le_refl 30) child_descends)).
Defined.

Lemma delegated_filed : map_Forall (λ id g, grant_id g = id) (gd_grants delegated).
Proof. apply (bool_decide_unpack _). vm_compute. exact I. Qed.

Lemma revocation_reports_descendants_witness :
  ∃ closure db', revoke_grant 30 1%N delegated = (Some (Ok closure), db')
    ∧ ∀ x, x ∈ closure ↔ descends (gd_grants db') x 1%N.
Proof.
  destruct (revocation_reports_descendants delegated 30 1%N example_root) as (closure & db' & H1 & _ & _ & H2).
  - exact delegated_filed.
  - vm_compute. reflexivity.
  - vm_compute. reflexivity.
  - vm_compute. reflexivity.
  - vm_compute. reflexivity.
  - exists closure, db'. split; [exact H1|exact H2].
Defined.

End GrantUse.
