(* ===== verification/GrantRecords.v ===== *)
(** Grants as capsule bodies ([aseman-capsule/src/capability.rs]): the fields that a grant is stored
    as, reading them back, and the field that a revocation writes.  Times are kept in microseconds,
    identifiers as their sixteen bytes.  The [uuid] crate's text for a slice of another length is a
    parameter. *)

From S2P Require Import FinanceLedger.
From S2P Require Import Prelude Text Core Identity Registry Capability Authority Ports BTree Bytes Floats Capsule Envelope Grants.

Open Scope Z_scope.

Notation Fields := (list (str * CapsuleValue)).

Section records.
Context (slice_error : nat → str).

(** [support::text], [store::body]. *)
Definition text_field (fields : Fields) (field : str) : str :=
  match jget field fields with Some (CText value) => value | _ => [] end.
Definition capsule_body (capsule : CapsuleEnvelope) : option Fields :=
  match ce_body capsule with
  | Some (CObject fields) => if ce_tombstone capsule then None else Some fields
  | _ => None
  end.

Definition micros (millis : i64) : PortResult CapsuleValue :=
  ok_or (CInteger <$> checked i64_min i64_max (millis * 1000)) overflows.

Definition names (values : gset str) : CapsuleValue := CObject [(lit "names", CArray (CText <$> btree_iter values))].

Definition uuid_bytes (u : Uuid) : CapsuleValue := CBytes (be_bytes 16 u).

(** The loop over the optional times. *)
Definition insert_time (name : str) (value : option i64) (fields : Fields) : PortResult Fields :=
  match value with
  | Some value => let? value := micros value in Ok (jinsert name value fields)
  | None => Ok fields
  end.

Definition grant_fields (grant : Grant) : PortResult Fields :=
  let? not_before := micros (grant_not_before_millis grant) in
  let fields :=
    jinsert (lit "policy_version") (CText (grant_policy_version grant))
      (jinsert (lit "not_before_micros") not_before
        (jinsert (lit "max_depth") (CInteger (grant_max_depth grant))
          (jinsert (lit "delegable_actions") (names (grant_delegable_actions grant))
            (jinsert (lit "resource_kind") (CText (selector_kind (grant_resource grant)))
              (jinsert (lit "actions") (names (grant_actions grant))
                (jinsert (lit "issuer_id") (uuid_bytes (subject_id (grant_issuer grant)))
                  (jinsert (lit "issuer_kind") (CText (SubjectKind_as_str (subject_kind (grant_issuer grant))))
                    (jinsert (lit "subject_id") (uuid_bytes (subject_id (grant_subject grant)))
                      (jinsert (lit "subject_kind") (CText (SubjectKind_as_str (subject_kind (grant_subject grant)))) []))))))))) in
  let fields := match grant_resource grant with Exact _ id => jinsert (lit "resource_id") (CText id) fields | AnyOfKind _ => fields end in
  let fields := match grant_parent grant with Some parent => jinsert (lit "parent_id") (uuid_bytes parent) fields | None => fields end in
  let? fields := insert_time (lit "expires_at_micros") (grant_expires_at_millis grant) fields in
  insert_time (lit "revoked_at_micros") (grant_revoked_at_millis grant) fields.

(** [Uuid::from_slice]. *)
Definition uuid_from_slice (l : list byte) : PortResult Uuid :=
  if bool_decide (length l = 16%nat) then Ok (from_be l) else Err (PFailed (slice_error (length l))).

Definition uuid_field (fields : Fields) (name : str) : PortResult (option Uuid) :=
  match jget name fields with
  | None | Some CNull => Ok None
  | Some (CBytes l) => result_map Some (uuid_from_slice l)
  | Some _ => Err (PFailed (lit "grant " ++ name ++ lit " is not an identifier"))
  end.

Definition grant_party (fields : Fields) (prefix : str) : PortResult Subject :=
  let kind := text_field fields (prefix ++ lit "_kind") in
  let? kind := ok_or (find (λ candidate, bool_decide (SubjectKind_as_str candidate = kind)) SubjectKind_ALL)
                 (PFailed (lit "unknown subject kind " ++ kind)) in
  let? id := uuid_field fields (prefix ++ lit "_id") in
  let? id := ok_or id (PFailed (lit "grant has no " ++ prefix)) in
  Ok {| subject_kind := kind; subject_id := id |}.

(** The names of [name_set], collected. *)
Fixpoint collect_names (name : str) (values : list CapsuleValue) : PortResult (gset str) :=
  match values with
  | [] => Ok ∅
  | CText text :: values => let? rest := collect_names name values in Ok ({[text]} ∪ rest)
  | _ => Err (PFailed (lit "grant " ++ name ++ lit " holds a non-name"))
  end.
Definition name_set (fields : Fields) (name : str) : PortResult (gset str) :=
  match jget name fields with
  | Some (CObject document) =>
      match jget (lit "names") document with
      | Some (CArray values) => collect_names name values
      | _ => Err (PFailed (lit "grant has no " ++ name))
      end
  | _ => Err (PFailed (lit "grant has no " ++ name))
  end.

Definition millis_field (fields : Fields) (name : str) : PortResult (option i64) :=
  match jget name fields with
  | None | Some CNull => Ok None
  | Some (CInteger micros) => Ok (Some (Z.quot micros 1000))
  | Some _ => Err (PFailed (lit "grant " ++ name ++ lit " is not a time"))
  end.

Definition grant_record (capsule : CapsuleEnvelope) : PortResult Grant :=
  let? fields := ok_or (capsule_body capsule) PNotFound in
  let kind := text_field fields (lit "resource_kind") in
  let resource := match jget (lit "resource_id") fields with Some (CText id) => Exact kind id | _ => AnyOfKind kind end in
  let? subject := grant_party fields (lit "subject") in
  let? issuer := grant_party fields (lit "issuer") in
  let? actions := name_set fields (lit "actions") in
  let? delegable_actions := name_set fields (lit "delegable_actions") in
  let? max_depth := match jget (lit "max_depth") fields with
                    | Some (CInteger depth) => ok_or (checked 0 u32_max depth) (PFailed try_from_int_error)
                    | _ => Err (PFailed (lit "grant has no depth"))
                    end in
  let? parent := uuid_field fields (lit "parent_id") in
  let? not_before := millis_field fields (lit "not_before_micros") in
  let? not_before := ok_or not_before (PFailed (lit "grant has no start")) in
  let? expires := millis_field fields (lit "expires_at_micros") in
  let? revoked := millis_field fields (lit "revoked_at_micros") in
  Ok {| grant_id := from_be (ce_id capsule); grant_subject := subject; grant_issuer := issuer; grant_actions := actions;
        grant_resource := resource; grant_delegable_actions := delegable_actions; grant_max_depth := max_depth;
        grant_parent := parent; grant_not_before_millis := not_before; grant_expires_at_millis := expires;
        grant_revoked_at_millis := revoked; grant_policy_version := text_field fields (lit "policy_version") |}.

(** The body that [revoke] writes, where it writes one. *)
Definition revoke_fields (at_millis : i64) (stored : Fields) : PortResult Fields :=
  let? revoked := millis_field stored (lit "revoked_at_micros") in
  if is_some_and (λ revoked, revoked <=? at_millis) revoked then Ok stored
  else let? at_ := micros at_millis in Ok (jinsert (lit "revoked_at_micros") at_ stored).

(** ** Reading back what was written *)

Definition uuids_ok (g : Grant) : Prop :=
  is_uuid (grant_id g) ∧ is_uuid (subject_id (grant_subject g)) ∧ is_uuid (subject_id (grant_issuer g))
  ∧ (∀ p, grant_parent g = Some p → is_uuid p) ∧ in_u32 (grant_max_depth g).

Ltac look :=
  repeat (rewrite jget_jinsert; first [rewrite bool_decide_eq_true_2 by reflexivity | rewrite bool_decide_eq_false_2 by discriminate]).

Lemma uuid_read u : is_uuid u → uuid_from_slice (be_bytes 16 u) = Ok u.
Proof.
  intros Hu. unfold uuid_from_slice. rewrite length_be_bytes, bool_decide_eq_true_2 by done.
  by rewrite from_be_be_bytes_small.
Qed.
Lemma names_read s name : collect_names name (CText <$> btree_iter s) = Ok s.
Proof.
  assert (∀ l, collect_names name (CText <$> l) = Ok (list_to_set l)) as ->.
  { induction l as [|x l IH]; cbn [fmap list_fmap collect_names list_to_set]; [done|]. by rewrite IH. }
  f_equal. apply set_eq. intros x. by rewrite elem_of_list_to_set, elem_of_btree_iter.
Qed.
Lemma micros_read t v : micros t = Ok v → v = CInteger (t * 1000) ∧ micros_fit t = true.
Proof.
  unfold micros, micros_fit. destruct (checked _ _ _) as [z|] eqn:E; [|done]. apply checked_Some in E as [-> _]. by intros [= <-].
Qed.
Lemma micros_writes t : micros_fit t = true → micros t = Ok (CInteger (t * 1000)).
Proof. unfold micros, micros_fit. destruct (checked _ _ _) as [z|] eqn:E; [|done]. by apply checked_Some in E as [-> _]. Qed.

(** What the fields of a stored grant hold. *)
Definition time_value (t : i64) : CapsuleValue := CInteger (t * 1000).
Record stores (g : Grant) (f : Fields) : Prop := {
  st_subject_kind : jget (lit "subject_kind") f = Some (CText (SubjectKind_as_str (subject_kind (grant_subject g))));
  st_subject_id : jget (lit "subject_id") f = Some (uuid_bytes (subject_id (grant_subject g)));
  st_issuer_kind : jget (lit "issuer_kind") f = Some (CText (SubjectKind_as_str (subject_kind (grant_issuer g))));
  st_issuer_id : jget (lit "issuer_id") f = Some (uuid_bytes (subject_id (grant_issuer g)));
  st_actions : jget (lit "actions") f = Some (names (grant_actions g));
  st_resource_kind : jget (lit "resource_kind") f = Some (CText (selector_kind (grant_resource g)));
  st_resource_id : jget (lit "resource_id") f = match grant_resource g with Exact _ id => Some (CText id) | AnyOfKind _ => None end;
  st_delegable : jget (lit "delegable_actions") f = Some (names (grant_delegable_actions g));
  st_depth : jget (lit "max_depth") f = Some (CInteger (grant_max_depth g));
  st_parent : jget (lit "parent_id") f = uuid_bytes <$> grant_parent g;
  st_start : jget (lit "not_before_micros") f = Some (time_value (grant_not_before_millis g));
  st_expires : jget (lit "expires_at_micros") f = time_value <$> grant_expires_at_millis g;
  st_revoked : jget (lit "revoked_at_micros") f = time_value <$> grant_revoked_at_millis g;
  st_version : jget (lit "policy_version") f = Some (CText (grant_policy_version g));
}.

(** Writing one field leaves the others. *)
Lemma insert_time_get name value f f' k :
  insert_time name value f = Ok f' →
  jget k f' = if bool_decide (k = name) then match value with Some t => Some (time_value t) | None => jget k f end else jget k f.
Proof.
  unfold insert_time. destruct value as [t|]; [|intros [= <-]; by case_bool_decide].
  destruct (micros t) as [v|] eqn:Hm; [|done]. apply micros_read in Hm as [-> _]. intros [= <-]. apply jget_jinsert.
Qed.

Lemma grant_fields_stores g f : grant_fields g = Ok f → stores g f.
Proof.
  unfold grant_fields. destruct (micros _) as [v|] eqn:Hm; [|done]. apply micros_read in Hm as [-> _]. cbv zeta.
  set (base := jinsert (lit "policy_version") _ _).
  set (f1 := match grant_resource g with Exact _ id => _ | AnyOfKind _ => _ end).
  set (f2 := match grant_parent g with Some _ => _ | None => _ end).
  destruct (insert_time (lit "expires_at_micros") _ f2) as [f3|] eqn:H3; [|done]. intros H4.
  assert (∀ k, jget k f = if bool_decide (k = lit "revoked_at_micros") then time_value <$> grant_revoked_at_millis g
    else if bool_decide (k = lit "expires_at_micros") then time_value <$> grant_expires_at_millis g
    else if bool_decide (k = lit "parent_id") then uuid_bytes <$> grant_parent g
    else if bool_decide (k = lit "resource_id") then match grant_resource g with Exact _ id => Some (CText id) | AnyOfKind _ => None end
    else jget k base) as Hget.
  { assert (∀ k, jget k f1 = if bool_decide (k = lit "resource_id")
      then match grant_resource g with Exact _ id => Some (CText id) | AnyOfKind _ => None end else jget k base) as G1.
    { intros k. subst f1. destruct (grant_resource g); [apply jget_jinsert|]. case_bool_decide; [subst k; subst base; by look|done]. }
    assert (∀ k, jget k f2 = if bool_decide (k = lit "parent_id") then uuid_bytes <$> grant_parent g else jget k f1) as G2.
    { intros k. subst f2. destruct (grant_parent g); [apply jget_jinsert|]. case_bool_decide; [|done]. subst k. rewrite G1. subst base. by look. }
    intros k. rewrite (insert_time_get _ _ _ _ k H4), (insert_time_get _ _ _ _ k H3), G2, G1.
    repeat case_bool_decide; subst; try done; (destruct (grant_revoked_at_millis g)); (destruct (grant_expires_at_millis g)); try done; subst base; by look. }
  constructor; rewrite Hget; try reflexivity; subst base; by look.
Qed.

(** A live capsule with the grant's id and these fields is read as the grant. *)
Definition reads_as (f : Fields) (g : Grant) : Prop :=
  ∀ capsule, ce_id capsule = be_bytes 16 (grant_id g) → ce_tombstone capsule = false → ce_body capsule = Some (CObject f) →
    grant_record capsule = Ok g.

Lemma party_read f prefix s :
  jget (prefix ++ lit "_kind") f = Some (CText (SubjectKind_as_str (subject_kind s))) →
  jget (prefix ++ lit "_id") f = Some (uuid_bytes (subject_id s)) → is_uuid (subject_id s) → grant_party f prefix = Ok s.
Proof.
  intros Hk Hi Hu. unfold grant_party, text_field, uuid_field. rewrite Hk, find_kind. cbn [ok_or]. rewrite Hi.
  unfold uuid_bytes. rewrite uuid_read by done. cbn. by destruct s.
Qed.
Lemma name_set_read f k s : jget k f = Some (names s) → name_set f k = Ok s.
Proof. intros H. unfold name_set. rewrite H. exact (names_read s k). Qed.
Lemma millis_read f k o : jget k f = time_value <$> o → millis_field f k = Ok o.
Proof. intros H. unfold millis_field. rewrite H. destruct o as [t|]; [|done]. cbn. by rewrite Z.quot_mul. Qed.

Lemma stores_reads g f : uuids_ok g → stores g f → reads_as f g.
Proof.
  intros (Hid & Hs & Hi & Hp & Hd) [] capsule Hc Ht Hb. unfold grant_record, capsule_body. rewrite Hb, Ht. cbn [ok_or].
  rewrite (party_read f (lit "subject") (grant_subject g)), (party_read f (lit "issuer") (grant_issuer g)) by done.
  rewrite (name_set_read _ _ _ st_actions0), (name_set_read _ _ _ st_delegable0), st_depth0, checked_in by apply Hd. cbn [ok_or].
  assert (uuid_field f (lit "parent_id") = Ok (grant_parent g)) as ->.
  { unfold uuid_field. rewrite st_parent0. destruct (grant_parent g) as [p|]; [|done].
    cbn [fmap option_fmap option_map uuid_bytes]. by rewrite uuid_read by by apply Hp. }
  rewrite (millis_read f (lit "not_before_micros") (Some (grant_not_before_millis g))) by done. cbn [ok_or].
  rewrite (millis_read _ _ _ st_expires0), (millis_read _ _ _ st_revoked0). unfold text_field.
  rewrite st_resource_kind0, st_resource_id0, st_version0, Hc, from_be_be_bytes_small by done.
  destruct g as [? ? ? ? resource ? ? ? ? ? ? ?]; cbn. by destruct resource.
Qed.

Lemma revoke_fields_stores t g f f' : stores g f → revoke_fields t f = Ok f' → stores (revoked_at t g) f'.
Proof.
  intros Hst. unfold revoke_fields. rewrite (millis_read _ _ _ (st_revoked _ _ Hst)).
  destruct (is_some_and _ _) eqn:Hr; [intros [= <-]; by rewrite revoked_at_earlier|].
  destruct (micros t) as [v|] eqn:Hm; [|done]. apply micros_read in Hm as [-> _]. intros [= <-].
  destruct Hst. constructor; look; try done. unfold revoked_at. cbn [grant_revoked_at_millis].
  destruct (grant_revoked_at_millis g) as [r|]; [|done]. cbn in Hr. by rewrite Hr.
Qed.

(** The revocations that follow a grant's recording, one after the other. *)
Fixpoint revoke_all (times : list i64) (f : Fields) : PortResult Fields :=
  match times with
  | [] => Ok f
  | t :: times => let? f := revoke_fields t f in revoke_all times f
  end.

Lemma times_fit_fields g : times_fit g = true ↔ is_ok (grant_fields g) = true.
Proof.
  unfold times_fit, grant_fields. assert (∀ t, is_ok (micros t) = micros_fit t) as Hm.
  { intros t. unfold micros, micros_fit. by destruct (checked _ _ _). }
  assert (∀ name o f, is_ok (insert_time name o f) = is_none_or micros_fit o) as Hi.
  { intros name [t|] f; [|done]. unfold insert_time. cbn [is_none_or]. rewrite <-Hm. by destruct (micros t). }
  rewrite <-Hm. destruct (micros (grant_not_before_millis g)); [|done]. cbn [is_ok andb]. cbv zeta.
  match goal with |- context [insert_time (lit "expires_at_micros") _ ?f] => generalize f end. intros f2.
  rewrite <-(Hi (lit "expires_at_micros") (grant_expires_at_millis g) f2).
  destruct (insert_time (lit "expires_at_micros") _ f2) as [f|]; [|done]. cbn [is_ok andb]. by rewrite Hi.
Qed.

(** A grant is read back as it was recorded, and a revocation changes only its time.  A grant is
    stored unless one of its times leaves the range of microseconds; reading its capsule answers the
    grant itself, and after any revocations the grant with the earliest time of revocation, whatever
    the order they came in. *)
Theorem grants_read_back g :
  uuids_ok g →
  (times_fit g = true ↔ is_ok (grant_fields g) = true)
  ∧ ∀ f times f', grant_fields g = Ok f → revoke_all times f = Ok f' →
      reads_as f' (foldl (λ g t, revoked_at t g) g times)
      ∧ (∀ t, t ∈ times → ∃ r, grant_revoked_at_millis (foldl (λ g t, revoked_at t g) g times) = Some r ∧ r ≤ t).
Proof.
  intros Hu. split; [apply times_fit_fields|]. intros f times f' Hf%grant_fields_stores. revert g f Hu Hf.
  induction times as [|t times IH]; intros g f Hu Hf; cbn [revoke_all foldl].
  - intros [= <-]. split; [by apply stores_reads|]. by intros t ?%not_elem_of_nil.
  - destruct (revoke_fields t f) as [f1|] eqn:H1; [|done]. intros Hrest.
    destruct (IH (revoked_at t g) f1) as [Hr Ht]; [done|by eapply revoke_fields_stores|done|]. split; [done|].
    intros x [->|Hx]%elem_of_cons; [|by apply Ht].
    assert (∀ l g, (∃ r, grant_revoked_at_millis g = Some r ∧ r ≤ t) →
      ∃ r, grant_revoked_at_millis (foldl (λ g t, revoked_at t g) g l) = Some r ∧ r ≤ t) as Hkeep.
    { clear. induction l as [|y l IH]; intros g (r & Hr & Hle); cbn [foldl]; [by exists r|]. apply IH.
      destruct (revoked_at_time y g) as (r' & Hr' & _ & Hmin). exists r'. specialize (Hmin r Hr). split; [done|lia]. }
    apply Hkeep. destruct (revoked_at_time t g) as (r & Hr' & Hle & _). by exists r.
Qed.

End records.

Definition child_fields : Fields := match grant_fields example_child with Ok f => f | Err _ => [] end.
Definition revoked_fields : Fields := match revoke_all [40; 30; 50] child_fields with Ok f => f | Err _ => [] end.
Lemma child_written : grant_fields example_child = Ok child_fields.
Proof. vm_compute. reflexivity. Qed.
Lemma child_revoked : revoke_all [40; 30; 50] child_fields = Ok revoked_fields.
Proof. vm_compute. reflexivity. Qed.
Lemma child_uuids : uuids_ok example_child.
Proof.
  split; [vm_compute; reflexivity|]. split; [vm_compute; reflexivity|]. split; [vm_compute; reflexivity|].
  split; [intros p [= <-]; vm_compute; reflexivity|vm_compute; split; discriminate].
Qed.

Lemma grants_read_back_witness : reads_as (λ _, []) revoked_fields (revoked_at 50 (revoked_at 30 (revoked_at 40 example_child))).
Proof.
  exact (proj1 (proj2 (grants_read_back (λ _, []) example_child child_uuids) child_fields [40; 30; 50] revoked_fields
    child_written child_revoked)).
Defined.
