(* ===== verification/Authentication.v ===== *)
(** Identity use cases ([aseman-application/src/identity.rs]): authenticating a proof, rotating and
    revoking keys, challenges, enrolling a legacy identity and accepting an introduction, over the
    key directory, the replay guard and the challenge store ([aseman-ports/src/lib.rs],
    [aseman-capsule/src/identity.rs], [auto.rs]).

    The stores are one class in state-passing style, and [IdentitySpec] what they promise of the keys
    and the nonces they hold, one call after another; a call that fails may still have taken effect.
    Recording a nonce is a look and a write in the storage adapter, so that a proof authenticates once
    is proved for calls that record it one after another, with anything around them.  The cryptography
    ([IdentityVerifier]) is a parameter. *)

From S2P Require Import Prelude Text Core Identity Ports.

Open Scope Z_scope.

(** ** Ports *)

Class IdentityVerifier := {
  verify : SignedProof → IdentityKey → result unit AuthenticationError;
  body_digest : list u8 → list u8;
  describe_key : list u8 → result KeyDescription AuthenticationError;
  introduction_bytes : Introduction → list u8;
}.

Class IdentityStore (S : Type) := {
  kd_key : str → S → PortResult (option IdentityKey);
  kd_epochs : Subject → KeyPurpose → S → PortResult (list IdentityKey);
  kd_register : IdentityKey → S → PortResult unit * S;
  kd_retire : str → i64 → S → PortResult unit * S;
  kd_revoke : str → i64 → S → PortResult unit * S;
  rg_record_nonce : str → list u8 → i64 → i64 → S → PortResult bool * S;
  rg_purge : i64 → S → PortResult unit * S;
  cs_issue : Subject → str → i64 → S → PortResult Challenge * S;
  cs_consume : list u8 → Subject → str → i64 → S → PortResult bool * S;
}.

Notation Keys := (gmap str IdentityKey).
Notation Nonces := (gmap (str * list u8) i64).

(** A recorded time that is earlier is kept. *)
Definition earliest (recorded : option i64) (at_millis : i64) : option i64 :=
  match recorded with
  | Some recorded => if recorded <=? at_millis then Some recorded else Some at_millis
  | None => Some at_millis
  end.
Definition with_epoch (f : KeyEpoch → KeyEpoch) (k : IdentityKey) : IdentityKey :=
  {| ik_key_id := ik_key_id k; ik_public_key := ik_public_key k; ik_epoch := f (ik_epoch k) |}.
Definition retired_at (t : i64) : IdentityKey → IdentityKey := with_epoch (λ e,
  {| ke_subject := ke_subject e; ke_purpose := ke_purpose e; ke_epoch := ke_epoch e;
     ke_not_before_millis := ke_not_before_millis e; ke_expires_at_millis := ke_expires_at_millis e;
     ke_retired_at_millis := earliest (ke_retired_at_millis e) t; ke_revoked_at_millis := ke_revoked_at_millis e;
     ke_legacy := ke_legacy e |}).
Definition key_revoked_at (t : i64) : IdentityKey → IdentityKey := with_epoch (λ e,
  {| ke_subject := ke_subject e; ke_purpose := ke_purpose e; ke_epoch := ke_epoch e;
     ke_not_before_millis := ke_not_before_millis e; ke_expires_at_millis := ke_expires_at_millis e;
     ke_retired_at_millis := ke_retired_at_millis e; ke_revoked_at_millis := earliest (ke_revoked_at_millis e) t;
     ke_legacy := ke_legacy e |}).

Definition same_epoch (k k' : IdentityKey) : Prop :=
  ke_subject (ik_epoch k) = ke_subject (ik_epoch k') ∧ ke_purpose (ik_epoch k) = ke_purpose (ik_epoch k')
  ∧ ke_epoch (ik_epoch k) = ke_epoch (ik_epoch k').

Definition registers (keys : Keys) (k : IdentityKey) (keys' : Keys) : Prop :=
  keys !! ik_key_id k = None ∧ (∀ id k', keys !! id = Some k' → ¬ same_epoch k k') ∧ keys' = <[ik_key_id k := k]> keys.
Definition changes (keys : Keys) (id : str) (f : IdentityKey → IdentityKey) (keys' : Keys) : Prop :=
  ∃ k, keys !! id = Some k ∧ keys' = <[id := f k]> keys.
(** A nonce is recorded where none is, or only one that is no longer retained. *)
Definition records (nonces : Nonces) (key : str * list u8) (retain now : i64) (nonces' : Nonces) : Prop :=
  (∀ r, nonces !! key = Some r → r ≤ now) ∧ nonces' = <[key := retain]> nonces.

(** What the stores promise. *)
Class IdentitySpec (S : Type) `{IdentityStore S} := {
  keys_of : S → Keys;
  nonces_of : S → Nonces;
  spec_key id s found : kd_key id s = Ok found → found = keys_of s !! id;
  spec_epochs subject purpose s l k : kd_epochs subject purpose s = Ok l → k ∈ l →
    (∃ id, keys_of s !! id = Some k) ∧ ke_subject (ik_epoch k) = subject ∧ ke_purpose (ik_epoch k) = purpose;
  spec_register k s r s' : kd_register k s = (r, s') → nonces_of s' = nonces_of s
    ∧ (registers (keys_of s) k (keys_of s') ∨ r ≠ Ok tt ∧ keys_of s' = keys_of s);
  spec_retire id t s r s' : kd_retire id t s = (r, s') → nonces_of s' = nonces_of s
    ∧ (changes (keys_of s) id (retired_at t) (keys_of s') ∨ r ≠ Ok tt ∧ keys_of s' = keys_of s);
  spec_revoke_key id t s r s' : kd_revoke id t s = (r, s') → nonces_of s' = nonces_of s
    ∧ (changes (keys_of s) id (key_revoked_at t) (keys_of s') ∨ r ≠ Ok tt ∧ keys_of s' = keys_of s);
  spec_record id nonce retain now s r s' : rg_record_nonce id nonce retain now s = (r, s') → keys_of s' = keys_of s
    ∧ (r ≠ Ok false ∧ records (nonces_of s) (id, nonce) retain now (nonces_of s') ∨ r ≠ Ok true ∧ nonces_of s' = nonces_of s);
  spec_purge now s r s' : rg_purge now s = (r, s') → keys_of s' = keys_of s
    ∧ ∀ key t, nonces_of s !! key = Some t → now < t → nonces_of s' !! key = Some t;
  spec_issue subject audience expires s r s' : cs_issue subject audience expires s = (r, s') →
    keys_of s' = keys_of s ∧ nonces_of s' = nonces_of s;
  spec_consume nonce subject audience now s r s' : cs_consume nonce subject audience now s = (r, s') →
    keys_of s' = keys_of s ∧ nonces_of s' = nonces_of s;
}.

(** ** The use cases *)

Inductive IdentityFailure :=
| Rejected (error : AuthenticationError)
| Refused (message : str)
| Unavailable (error : PortError).

Record VerifierPolicy := { vp_audience : str; vp_freshness : FreshnessPolicy; vp_rotation : RotationPolicy }.

Record NewKey := { nk_public_key : list u8; nk_expires_at_millis : option i64 }.
Record LegacyIdentity := { li_subject : Subject; li_public_key : list u8 }.

Section use_cases.
Context `{IdentityVerifier} {S : Type} `{IdentityStore S}.

(** Steps 4 to 11 of [AuthenticateProof::execute]. *)
Definition check_proof (now : i64) (proof : SignedProof) (body : list u8) (policy : VerifierPolicy) (s : S)
    : result IdentityKey IdentityFailure :=
  let? found := map_err Unavailable (kd_key (proof_key_id proof) s) in
  let? key := ok_or found (Rejected UnknownKey) in
  if negb (bool_decide (ke_subject (ik_epoch key) = proof_subject proof)) then Err (Rejected KeySubjectMismatch)
  else if negb (ke_epoch (ik_epoch key) =? proof_key_epoch proof) then Err (Rejected EpochNotAccepted)
  else
    let? stored := map_err Unavailable (kd_epochs (proof_subject proof) (ke_purpose (ik_epoch key)) s) in
    let? _ := map_err Rejected (accept_epoch (ik_epoch <$> stored) (proof_key_epoch proof) (proof_context proof) now (vp_rotation policy)) in
    if negb (bool_decide (proof_audience proof = vp_audience policy)) then Err (Rejected AudienceMismatch)
    else
      let? _ := map_err Rejected (CredentialWindow_check (proof_window proof) now (vp_freshness policy)) in
      if negb (bool_decide (body_digest body = proof_body_digest proof)) then Err (Rejected BodyDigestMismatch)
      else let? _ := map_err Rejected (verify proof key) in Ok key.

Definition authenticate (now : i64) (proof : SignedProof) (body : list u8) (policy : VerifierPolicy) (s : S)
    : result Subject IdentityFailure * S :=
  match check_proof now proof body policy s with
  | Err e => (Err e, s)
  | Ok _ =>
      let retain_until := replay_retention_until (proof_window proof) (vp_freshness policy) in
      let '(recorded, s) := rg_record_nonce (proof_key_id proof) (proof_nonce proof) retain_until now s in
      (match recorded with
       | Err e => Err (Unavailable e)
       | Ok false => Err (Rejected Replayed)
       | Ok true => Ok (proof_subject proof)
       end, s)
  end.

Definition ed25519_only : IdentityFailure := Refused (lit "new identities use Ed25519 keys (ADR 0009)").

Definition canonical (key : NewKey) : result KeyDescription IdentityFailure :=
  let? description := map_err Rejected (describe_key (nk_public_key key)) in
  if kd_legacy description then Err ed25519_only else Ok description.

Definition epoch_record (description : KeyDescription) (key : NewKey) (subject : Subject) (purpose : KeyPurpose)
    (epoch : u32) (now : i64) : IdentityKey :=
  {| ik_key_id := kd_key_id description; ik_public_key := nk_public_key key;
     ik_epoch := {| ke_subject := subject; ke_purpose := purpose; ke_epoch := epoch; ke_not_before_millis := now;
                    ke_expires_at_millis := nk_expires_at_millis key; ke_retired_at_millis := None;
                    ke_revoked_at_millis := None; ke_legacy := kd_legacy description |} |}.

(** [register]: a key that is taken is a refusal. *)
Definition register (key : IdentityKey) (s : S) : result unit IdentityFailure * S :=
  let '(r, s) := kd_register key s in
  (match r with
   | Ok _ => Ok tt
   | Err PConflict => Err (Refused (lit "the key is already registered"))
   | Err other => Err (Unavailable other)
   end, s).

(** The loop of [RotateKey::execute] that retires. *)
Fixpoint retire_all (now : i64) (keys : list IdentityKey) (s : S) : result unit IdentityFailure * S :=
  match keys with
  | [] => (Ok tt, s)
  | key :: keys =>
      if is_none (ke_retired_at_millis (ik_epoch key)) then
        let '(r, s) := kd_retire (ik_key_id key) now s in
        match r with Ok _ => retire_all now keys s | Err e => (Err (Unavailable e), s) end
      else retire_all now keys s
  end.

(** [.max().map_or(1, |latest| latest.saturating_add(1))]. *)
Definition next_epoch (existing : list IdentityKey) : u32 :=
  match max_Z (ke_epoch ∘ ik_epoch <$> existing) with Some latest => saturating_add_u32 latest 1 | None => 1 end.

Definition rotate_key (now : i64) (subject : Subject) (purpose : KeyPurpose) (key : NewKey) (s : S)
    : result IdentityKey IdentityFailure * S :=
  match (let? description := canonical key in
         let? existing := map_err Unavailable (kd_epochs subject purpose s) in Ok (description, existing)) with
  | Err e => (Err e, s)
  | Ok (description, existing) =>
      let record := epoch_record description key subject purpose (next_epoch existing) now in
      let '(r, s) := register record s in
      match r with
      | Err e => (Err e, s)
      | Ok _ => let '(r, s) := retire_all now existing s in (result_map (λ _, record) r, s)
      end
  end.

Definition revoke_key (now : i64) (key_id : str) (s : S) : result unit IdentityFailure * S :=
  let '(r, s) := kd_revoke key_id now s in
  (match r with
   | Ok _ => Ok tt
   | Err PNotFound => Err (Refused (lit "unknown key"))
   | Err other => Err (Unavailable other)
   end, s).

Definition issue_challenge (now : i64) (subject : Subject) (audience : str) (lifetime_millis : i64) (s : S)
    : result Challenge IdentityFailure * S :=
  if negb ((1 <=? lifetime_millis) && (lifetime_millis <=? MAX_GUEST_CREDENTIAL_MILLIS))
  then (Err (Refused (lit "challenge lifetime out of range")), s)
  else let '(r, s) := cs_issue subject audience (saturating_add_i64 now lifetime_millis) s in (map_err Unavailable r, s).

(** What [EnrollCanonicalKey::execute] checks before it consumes the challenge; it answers the
    legacy key. *)
Definition check_enrollment (now : i64) (legacy : LegacyIdentity) (proof : SignedProof) (key : NewKey) (policy : VerifierPolicy)
    : result IdentityKey IdentityFailure :=
  let? description := map_err Rejected (describe_key (li_public_key legacy)) in
  if negb (kd_legacy description) then Err (Refused (lit "the identity has no legacy key"))
  else if negb (bool_decide (proof_context proof = CtxChallenge)) then Err (Rejected KeyPurposeMismatch)
  else if negb (bool_decide (proof_key_id proof = kd_key_id description)) then Err (Rejected UnknownKey)
  else if negb (bool_decide (proof_subject proof = li_subject legacy)) then Err (Rejected KeySubjectMismatch)
  else if negb (proof_key_epoch proof =? 0) then Err (Rejected EpochNotAccepted)
  else if negb (bool_decide (proof_audience proof = vp_audience policy)) then Err (Rejected AudienceMismatch)
  else
    let? _ := map_err Rejected (CredentialWindow_check (proof_window proof) now (vp_freshness policy)) in
    if negb (bool_decide (body_digest (nk_public_key key) = proof_body_digest proof)) then Err (Rejected BodyDigestMismatch)
    else
      let legacy_key :=
        {| ik_key_id := kd_key_id description; ik_public_key := li_public_key legacy;
           ik_epoch := {| ke_subject := li_subject legacy; ke_purpose := PurposeAuthentication; ke_epoch := 0;
                          ke_not_before_millis := now; ke_expires_at_millis := None; ke_retired_at_millis := Some now;
                          ke_revoked_at_millis := None; ke_legacy := true |} |} in
      let? _ := map_err Rejected (verify proof legacy_key) in Ok legacy_key.

(** The keys that an enrollment registers, once the challenge is consumed. *)
Definition enroll_keys (now : i64) (legacy : LegacyIdentity) (legacy_key : IdentityKey) (key : NewKey) (s : S)
    : result IdentityKey IdentityFailure * S :=
  match (let? description := canonical key in
         let? existing := map_err Unavailable (kd_epochs (li_subject legacy) PurposeAuthentication s) in
         Ok (description, existing)) with
  | Err e => (Err e, s)
  | Ok (description, existing) =>
      if existsb (λ stored, negb (ke_legacy (ik_epoch stored))) existing
      then (Err (Refused (lit "the identity already has a canonical key; rotate it instead")), s)
      else
        let '(r, s) := if is_empty existing then register legacy_key s else (Ok tt, s) in
        match r with
        | Err e => (Err e, s)
        | Ok _ =>
            let record := epoch_record description key (li_subject legacy) PurposeAuthentication 1 now in
            let '(r, s) := register record s in (result_map (λ _, record) r, s)
        end
  end.

Definition enroll_canonical_key (now : i64) (legacy : LegacyIdentity) (proof : SignedProof) (key : NewKey)
    (policy : VerifierPolicy) (s : S) : result IdentityKey IdentityFailure * S :=
  match check_enrollment now legacy proof key policy with
  | Err e => (Err e, s)
  | Ok legacy_key =>
      let '(consumed, s) := cs_consume (proof_nonce proof) (li_subject legacy) (proof_audience proof) now s in
      match consumed with
      | Err e => (Err (Unavailable e), s)
      | Ok false => (Err (Rejected Replayed), s)
      | Ok true => enroll_keys now legacy legacy_key key s
      end
  end.

(** The key of an introduced node. *)
Definition introduced_key (introduction : Introduction) (description : KeyDescription) : IdentityKey :=
  {| ik_key_id := kd_key_id description; ik_public_key := intro_public_key introduction;
     ik_epoch := {| ke_subject := intro_subject introduction; ke_purpose := PurposeDescriptor;
                    ke_epoch := intro_epoch introduction; ke_not_before_millis := intro_not_before_millis introduction;
                    ke_expires_at_millis := intro_expires_at_millis introduction; ke_retired_at_millis := None;
                    ke_revoked_at_millis := None; ke_legacy := false |} |}.

Definition accept_introduction (now : i64) (proof : SignedProof) (introduction : Introduction) (policy : VerifierPolicy) (s : S)
    : result Subject IdentityFailure * S :=
  if negb (bool_decide (proof_context proof = CtxIntroduction)) then (Err (Rejected KeyPurposeMismatch), s)
  else
    let '(r, s) := authenticate now proof (introduction_bytes introduction) policy s in
    match r with
    | Err e => (Err e, s)
    | Ok root =>
        if negb (bool_decide (subject_kind root = Node)) || negb (bool_decide (subject_kind (intro_subject introduction) = Node))
        then (Err (Refused (lit "introductions are between nodes")), s)
        else match describe_key (intro_public_key introduction) with
        | Err e => (Err (Rejected e), s)
        | Ok description =>
            if kd_legacy description then (Err ed25519_only, s)
            else
              let '(r, s) := register (introduced_key introduction description) s in (result_map (λ _, root) r, s)
        end
    end.

End use_cases.

(** ** What an accepted proof has shown *)

Section laws.
Context `{IdentityVerifier} {S : Type} `{IdentitySpec S}.

(** The state of the stores when a proof passes the checks. *)
Record proven (now : i64) (proof : SignedProof) (body : list u8) (policy : VerifierPolicy) (s : S) (key : IdentityKey) : Prop := {
  pv_key : keys_of s !! proof_key_id proof = Some key;
  pv_subject : ke_subject (ik_epoch key) = proof_subject proof;
  pv_epoch : ke_epoch (ik_epoch key) = proof_key_epoch proof;
  pv_accepted : ∃ stored, kd_epochs (proof_subject proof) (ke_purpose (ik_epoch key)) s = Ok stored
    ∧ accept_epoch (ik_epoch <$> stored) (proof_key_epoch proof) (proof_context proof) now (vp_rotation policy) = Ok tt;
  pv_audience : proof_audience proof = vp_audience policy;
  pv_fresh : CredentialWindow_check (proof_window proof) now (vp_freshness policy) = Ok tt;
  pv_digest : body_digest body = proof_body_digest proof;
  pv_signed : verify proof key = Ok tt;
}.

Lemma map_err_Ok {A E F} (f : E → F) (r : result A E) a : map_err f r = Ok a → r = Ok a.
Proof. destruct r; cbn; congruence. Qed.

Lemma check_proof_inv now proof body policy s key : check_proof now proof body policy s = Ok key → proven now proof body policy s key.
Proof.
  unfold check_proof. destruct (kd_key _ s) as [found|] eqn:Hk; [|done]. apply spec_key in Hk. cbn [map_err].
  destruct found as [k|]; [|done]. cbn [ok_or]. case_bool_decide as Hs; [|done]. cbn [negb].
  destruct (Z.eqb_spec (ke_epoch (ik_epoch k)) (proof_key_epoch proof)) as [He|]; [|done]. cbn [negb].
  destruct (kd_epochs _ _ s) as [stored|] eqn:Hep; [|done]. cbn [map_err].
  destruct (accept_epoch _ _ _ _ _) as [[]|] eqn:Ha; [|done]. cbn [map_err].
  case_bool_decide as Hau; [|done]. cbn [negb]. destruct (CredentialWindow_check _ _ _) as [[]|] eqn:Hw; [|done]. cbn [map_err].
  case_bool_decide as Hd; [|done]. cbn [negb]. destruct (verify proof k) as [[]|] eqn:Hv; [|done]. cbn [map_err]. intros [= <-].
  constructor; try done. by exists stored.
Qed.

Lemma fresh_retained w now p : CredentialWindow_check w now p = Ok tt → now < replay_retention_until w p.
Proof.
  unfold CredentialWindow_check, replay_retention_until. destruct (_ || _); [done|]. destruct (_ <? wrap_i64 _); [done|].
  destruct (_ <? cw_not_before_millis w); [done|]. destruct (Z.leb_spec (saturating_add_i64 (cw_expires_at_millis w) (max_clock_skew_millis p)) now); done.
Qed.

Lemma authenticate_inv now proof body policy s r s' : authenticate now proof body policy s = (r, s') →
  keys_of s' = keys_of s
  ∧ ((∃ key, proven now proof body policy s key ∧ (∀ e, r ≠ Err (Rejected e))
       ∧ records (nonces_of s) (proof_key_id proof, proof_nonce proof)
           (replay_retention_until (proof_window proof) (vp_freshness policy)) now (nonces_of s'))
     ∨ (∀ subject, r ≠ Ok subject) ∧ nonces_of s' = nonces_of s)
  ∧ (∀ subject, r = Ok subject → subject = proof_subject proof).
Proof.
  unfold authenticate. destruct (check_proof now proof body policy s) as [key|e] eqn:Hc.
  - apply check_proof_inv in Hc. destruct (rg_record_nonce _ _ _ _ s) as [recorded s1] eqn:Hr.
    apply spec_record in Hr as [Hk Hn]. intros [= <- <-]. split; [done|].
    destruct Hn as [[Hne Hrec]|[Hne Hs]]; (split; [|by destruct recorded as [[]|]; [intros ? [= <-]|..]]).
    + left. exists key. split; [done|]. split; [|done]. by destruct recorded as [[]|].
    + right. split; [|done]. by destruct recorded as [[]|].
  - intros [= <- <-]. split; [done|]. split; [by right|done].
Qed.

(** ** A proof authenticates once *)

Context (policy : VerifierPolicy).

(** The use cases of one verifier, at a clock that does not run backwards; [roots] says whether an
    administrator may register introduction keys. *)
Inductive identity_step (roots : bool) : relation (S * i64) :=
| step_authenticate s clock now proof body : clock ≤ now →
    identity_step roots (s, clock) ((authenticate now proof body policy s).2, now)
| step_rotate s clock now subject purpose key : clock ≤ now → (purpose = PurposeIntroduction → roots = true) →
    identity_step roots (s, clock) ((rotate_key now subject purpose key s).2, now)
| step_revoke_key s clock now key_id : clock ≤ now → identity_step roots (s, clock) ((revoke_key now key_id s).2, now)
| step_challenge s clock now subject audience lifetime : clock ≤ now →
    identity_step roots (s, clock) ((issue_challenge now subject audience lifetime s).2, now)
| step_enroll s clock now legacy proof key : clock ≤ now →
    identity_step roots (s, clock) ((enroll_canonical_key now legacy proof key policy s).2, now)
| step_introduce s clock now proof introduction : clock ≤ now →
    identity_step roots (s, clock) ((accept_introduction now proof introduction policy s).2, now)
| step_purge s clock now : clock ≤ now → identity_step roots (s, clock) ((rg_purge now s).2, now).

(** A use case changes nonces only by authenticating, and keys only as the directory allows. *)
Definition only_keys (s s' : S) : Prop := nonces_of s' = nonces_of s.

Lemma register_nonces k s : only_keys s (register k s).2.
Proof. unfold register. destruct (kd_register k s) as [r s1] eqn:E. by apply spec_register in E as [? _]. Qed.
Lemma retire_all_nonces now keys s : only_keys s (retire_all now keys s).2.
Proof.
  revert s. induction keys as [|k keys IH]; intros s; [done|]. cbn [retire_all]. destruct (is_none _); [|apply IH].
  destruct (kd_retire _ now s) as [[]] eqn:E; apply spec_retire in E as [Hn _]; [|done]. red. by rewrite IH.
Qed.
Lemma rotate_key_nonces now subject purpose key s : only_keys s (rotate_key now subject purpose key s).2.
Proof.
  unfold rotate_key. destruct (canonical key) as [d|]; [|done]. destruct (kd_epochs _ _ s) as [existing|]; [|done]. cbn [map_err].
  pose proof (register_nonces (epoch_record d key subject purpose (next_epoch existing) now) s) as Ha.
  destruct (register _ s) as [[]]; [|done]. cbn [snd] in Ha.
  pose proof (retire_all_nonces now existing s0) as Hb. destruct (retire_all now existing s0) as [r s2]. cbn [snd] in *. red. by rewrite Hb.
Qed.
Lemma enroll_nonces now legacy proof key s : only_keys s (enroll_canonical_key now legacy proof key policy s).2.
Proof.
  unfold enroll_canonical_key. destruct (check_enrollment _ _ _ _ _) as [k|]; [|done].
  destruct (cs_consume _ _ _ now s) as [consumed s1] eqn:Ec. apply spec_consume in Ec as [_ Hn].
  destruct consumed as [[]|]; [|done..]. unfold enroll_keys. destruct (canonical key) as [d|]; [|done].
  destruct (kd_epochs _ _ s1) as [existing|]; [|done]. cbn [map_err]. destruct (existsb _ existing); [done|].
  set (first := if is_empty existing then register k s1 else (Ok tt, s1)).
  assert (only_keys s1 first.2) as Ha by (subst first; destruct (is_empty existing); [apply register_nonces|done]).
  destruct first as [[]] eqn:Ef; [|red; cbn in *; by rewrite Ha]. cbn [snd] in Ha.
  match goal with |- context [register ?r ?t] => pose proof (register_nonces r t) as Hb; destruct (register r t) as [r2 s3] end.
  cbn [snd] in *. red. by rewrite Hb, Ha.
Qed.

Lemma introduce_inv now proof introduction s r s' : accept_introduction now proof introduction policy s = (r, s') →
  (keys_of s' = keys_of s ∧ nonces_of s' = nonces_of s)
  ∨ (∃ r1 s1, authenticate now proof (introduction_bytes introduction) policy s = (r1, s1) ∧ nonces_of s' = nonces_of s1
      ∧ (∀ root, r = Ok root → r1 = Ok root ∧ proof_context proof = CtxIntroduction ∧ subject_kind root = Node)
      ∧ (keys_of s' = keys_of s1 ∨ ∃ d, registers (keys_of s1) (introduced_key introduction d) (keys_of s'))).
Proof.
  unfold accept_introduction. case_bool_decide as Hctx; cbn [negb]; [|intros [= <- <-]; by left].
  destruct (authenticate now proof _ policy s) as [r1 s1] eqn:Ea. intros Hrest. right. exists r1, s1. split; [done|].
  destruct r1 as [root|]; [|injection Hrest as <- <-; split_and!; [done|done|by left]].
  case_bool_decide as Hk; cbn [negb orb] in Hrest; [|injection Hrest as <- <-; split_and!; [done|done|by left]].
  destruct (negb _); [injection Hrest as <- <-; split_and!; [done|done|by left]|].
  destruct (describe_key _) as [d|]; [|injection Hrest as <- <-; split_and!; [done|done|by left]].
  destruct (kd_legacy d); [injection Hrest as <- <-; split_and!; [done|done|by left]|].
  unfold register in Hrest. destruct (kd_register _ s1) as [r2 s2] eqn:Er. apply spec_register in Er as [Hn Hreg].
  injection Hrest as <- <-. split; [done|]. split; [|destruct Hreg as [Hreg|[_ ->]]; [right; by exists d|by left]].
  intros root'. destruct r2 as [[]|[]]; cbn [result_map]; [intros [= <-]|done..]. done.
Qed.

(** The nonce of a proof stays on record until the proof can no longer be fresh. *)
Definition retained (until : i64) (key : str * list u8) (x : S * i64) : Prop :=
  until ≤ x.2 ∨ ∃ r, nonces_of x.1 !! key = Some r ∧ until ≤ r.

Lemma retained_same until key s s' c c' : c ≤ c' → nonces_of s' = nonces_of s → retained until key (s, c) → retained until key (s', c').
Proof. unfold retained. cbn [fst snd]. intros Hc ->. intros [?|?]; [left; lia|by right]. Qed.
Lemma retained_records until key s s' c now key' retain :
  c ≤ now → records (nonces_of s) key' retain now (nonces_of s') → retained until key (s, c) → retained until key (s', now).
Proof.
  unfold retained. cbn [fst snd]. intros Hc [Hold ->] [?|(r & Hr & Hle)]; [left; lia|].
  destruct (decide (key' = key)) as [->|Hne]; [left; specialize (Hold r Hr); lia|right]. exists r. by rewrite lookup_insert_ne.
Qed.
Lemma authenticate_retained until key now proof body s c :
  c ≤ now → retained until key (s, c) → retained until key ((authenticate now proof body policy s).2, now).
Proof.
  intros Hc Hret. destruct (authenticate now proof body policy s) as [r s1] eqn:Ea.
  apply authenticate_inv in Ea as (_ & [(k & _ & _ & Hrec)|[_ Hs]] & _); [by eapply retained_records|by eapply retained_same].
Qed.

Lemma step_retained roots x y until key : identity_step roots x y → retained until key x → retained until key y.
Proof.
  intros Hstep Hret.
  destruct Hstep as [s c now proof body Hc|s c now sub pur k Hc _|s c now id Hc|s c now sub au lt Hc|s c now l proof k Hc|s c now proof intro Hc|s c now Hc].
  - by eapply authenticate_retained.
  - eapply retained_same; [done|apply rotate_key_nonces|done].
  - eapply retained_same; [done| |done]. unfold revoke_key. destruct (kd_revoke id now s) as [r s1] eqn:E.
    by apply spec_revoke_key in E as [? _].
  - eapply retained_same; [done| |done]. unfold issue_challenge. destruct (negb _); [done|].
    destruct (cs_issue _ _ _ s) as [r s1] eqn:E. by apply spec_issue in E as [_ ?].
  - eapply retained_same; [done|apply enroll_nonces|done].
  - destruct (accept_introduction now proof intro policy s) as [r s1] eqn:E.
    apply introduce_inv in E as [[_ Hs]|(r1 & s2 & Ea & Hs & _)]; [by eapply retained_same|].
    apply (retained_same until key s2 _ now); [lia|done|]. pose proof (authenticate_retained until key now proof (introduction_bytes intro) s c Hc Hret) as Ht.
    by rewrite Ea in Ht.
  - destruct (rg_purge now s) as [r s1] eqn:E. apply spec_purge in E as [_ Hkeep]. unfold retained in *. cbn [fst snd] in *.
    destruct Hret as [?|(t & Ht & Hle)]; [left; lia|]. destruct (decide (now < t)); [right; exists t; split; [by apply Hkeep|done]|left; lia].
Qed.

(** ** The key directory *)

(** What may happen to the directory: keys are registered and marked, never dropped or replaced. *)
Inductive key_change (roots : bool) (keys : Keys) : Keys → Prop :=
| change_register k keys' : (ke_purpose (ik_epoch k) = PurposeIntroduction → roots = true) →
    registers keys k keys' → key_change roots keys keys'
| change_retire id t keys' : changes keys id (retired_at t) keys' → key_change roots keys keys'
| change_revoke id t keys' : changes keys id (key_revoked_at t) keys' → key_change roots keys keys'.
Notation key_changes roots := (rtc (key_change roots)).

Lemma register_keys roots k s : (ke_purpose (ik_epoch k) = PurposeIntroduction → roots = true) →
  key_changes roots (keys_of s) (keys_of (register k s).2).
Proof.
  intros Hp. unfold register. destruct (kd_register k s) as [r s1] eqn:E. apply spec_register in E as [_ [Hr|[_ Hs]]]; cbn [snd].
  - by eapply rtc_once, change_register.
  - by rewrite Hs.
Qed.
Lemma retire_all_keys roots now l s : key_changes roots (keys_of s) (keys_of (retire_all now l s).2).
Proof.
  revert s. induction l as [|k l IH]; intros s; [done|]. cbn [retire_all]. destruct (is_none _); [|apply IH].
  destruct (kd_retire _ now s) as [r s1] eqn:E. apply spec_retire in E as [_ Hr].
  assert (key_changes roots (keys_of s) (keys_of s1)) as Hone.
  { destruct Hr as [Hr|[_ ->]]; [by eapply rtc_once, change_retire|done]. }
  destruct r; [|done]. by etrans; [|apply IH].
Qed.
Lemma rotate_keys roots now subject purpose key s : (purpose = PurposeIntroduction → roots = true) →
  key_changes roots (keys_of s) (keys_of (rotate_key now subject purpose key s).2).
Proof.
  intros Hp. unfold rotate_key. destruct (canonical key) as [d|]; [|done]. destruct (kd_epochs _ _ s) as [existing|]; [|done]. cbn [map_err].
  pose proof (register_keys roots (epoch_record d key subject purpose (next_epoch existing) now) s Hp) as Ha.
  destruct (register _ s) as [[] s1]; [|done]. pose proof (retire_all_keys roots now existing s1) as Hb.
  destruct (retire_all now existing s1) as [r s2]. cbn [snd] in *. by etrans.
Qed.
Lemma enroll_legacy now legacy proof key k : check_enrollment now legacy proof key policy = Ok k → ke_purpose (ik_epoch k) = PurposeAuthentication.
Proof.
  unfold check_enrollment. destruct (describe_key _) as [d|]; [|done]. cbn [map_err]. repeat (destruct (negb _); [done|]).
  destruct (CredentialWindow_check _ _ _); [|done]. cbn [map_err]. destruct (negb _); [done|].
  destruct (verify _ _); [|done]. by intros [= <-].
Qed.
Lemma enroll_keys_change roots now legacy proof key s :
  key_changes roots (keys_of s) (keys_of (enroll_canonical_key now legacy proof key policy s).2).
Proof.
  unfold enroll_canonical_key. destruct (check_enrollment _ _ _ _ _) as [k|] eqn:Hk; [|done]. apply enroll_legacy in Hk.
  destruct (cs_consume _ _ _ now s) as [consumed s1] eqn:Ec. apply spec_consume in Ec as [Hs _]. rewrite <-Hs.
  destruct consumed as [[]|]; [|done..]. unfold enroll_keys. destruct (canonical key) as [d|]; [|done].
  destruct (kd_epochs _ _ s1) as [existing|]; [|done]. cbn [map_err]. destruct (existsb _ existing); [done|].
  set (first := if is_empty existing then register k s1 else (Ok tt, s1)).
  assert (key_changes roots (keys_of s1) (keys_of first.2)) as Ha.
  { subst first. destruct (is_empty existing); [|done]. apply register_keys. by rewrite Hk. }
  destruct first as [[] s2]; [|done]. cbn [snd] in Ha.
  match goal with |- context [register ?r ?t] => pose proof (register_keys roots r t) as Hb; destruct (register r t) as [r2 s3] end.
  cbn [snd] in *. etrans; [exact Ha|by apply Hb].
Qed.

Lemma step_keys roots x y : identity_step roots x y → key_changes roots (keys_of x.1) (keys_of y.1).
Proof.
  intros Hstep.
  destruct Hstep as [s c now proof body Hc|s c now sub pur k Hc Hp|s c now id Hc|s c now sub au lt Hc|s c now l proof k Hc|s c now proof intro Hc|s c now Hc]; cbn [fst].
  - destruct (authenticate now proof body policy s) as [r s1] eqn:E. apply authenticate_inv in E as [Hs _]. cbn [snd]. by rewrite Hs.
  - by apply rotate_keys.
  - unfold revoke_key. destruct (kd_revoke id now s) as [r s1] eqn:E. cbn [snd].
    apply spec_revoke_key in E as [_ [Hr|[_ Hs]]]; [by eapply rtc_once, change_revoke|by rewrite Hs].
  - unfold issue_challenge. destruct (negb _); [done|]. destruct (cs_issue _ _ _ s) as [r s1] eqn:E. apply spec_issue in E as [Hs _].
    cbn [snd]. by rewrite Hs.
  - apply enroll_keys_change.
  - destruct (accept_introduction now proof intro policy s) as [r s1] eqn:E. cbn [snd].
    apply introduce_inv in E as [[Hs _]|(r1 & s2 & Ea & _ & _ & Hreg)]; [by rewrite Hs|].
    apply authenticate_inv in Ea as [Hs _]. rewrite Hs in Hreg. destruct Hreg as [->|[d Hreg]]; [done|].
    by apply rtc_once, (change_register roots _ (introduced_key intro d)).
  - destruct (rg_purge now s) as [r s1] eqn:E. apply spec_purge in E as [Hs _]. cbn [snd]. by rewrite Hs.
Qed.
Lemma run_keys roots x y : rtc (identity_step roots) x y → key_changes roots (keys_of x.1) (keys_of y.1).
Proof. induction 1 as [|x y z Hxy _ IH]; [done|]. etrans; [by apply step_keys|exact IH]. Qed.

(** Every key under its id, and one key per epoch of a subject's purpose. *)
Definition directory_ok (keys : Keys) : Prop :=
  ∀ id k, keys !! id = Some k → ik_key_id k = id ∧ ∀ id' k', keys !! id' = Some k' → same_epoch k k' → id' = id.

Lemma marked_ok keys keys' id f :
  (∀ k, ik_key_id (f k) = ik_key_id k ∧ same_epoch (f k) k) → changes keys id f keys' → directory_ok keys → directory_ok keys'.
Proof.
  intros Hf (k & Hk & ->) Hok x kx Hx.
  assert (∀ y ky, <[id := f k]> keys !! y = Some ky → ∃ ky', keys !! y = Some ky' ∧ ik_key_id ky = ik_key_id ky' ∧ same_epoch ky ky') as Hback.
  { intros y ky [[<- <-]|[_ Hy]]%lookup_insert_Some; [exists k; split; [done|apply Hf]|exists ky; by split_and!]. }
  destruct (Hback x kx Hx) as (kx' & Hx' & Hid & E1 & E2 & E3). destruct (Hok x kx' Hx') as [Hxi Hun]. split; [congruence|].
  intros y ky Hy (S1 & S2 & S3). destruct (Hback y ky Hy) as (ky' & Hy' & _ & F1 & F2 & F3).
  apply (Hun y ky' Hy'). unfold same_epoch. split_and!; congruence.
Qed.
Lemma change_ok roots keys keys' : key_change roots keys keys' → directory_ok keys → directory_ok keys'.
Proof.
  intros [k keys'' _ (Hn & Hu & ->)|id t keys'' Hc|id t keys'' Hc] Hok; [|by eapply (marked_ok _ _ id (retired_at t))|by eapply (marked_ok _ _ id (key_revoked_at t))].
  intros x kx [[<- <-]|[Hne Hx]]%lookup_insert_Some; (split; [done || by apply (Hok x kx)|]).
  - intros y ky [[<- _]|[_ Hy]]%lookup_insert_Some Hs; [done|by destruct (Hu y ky Hy)].
  - intros y ky [[<- <-]|[_ Hy]]%lookup_insert_Some Hs; [|by eapply (Hok x kx)].
    destruct (Hu x kx Hx). destruct Hs as (E1 & E2 & E3). by split_and!.
Qed.
Lemma changes_ok roots keys keys' : key_changes roots keys keys' → directory_ok keys → directory_ok keys'.
Proof. induction 1 as [|x y z Hxy _ IH]; [done|]. intros Hx. by eapply IH, change_ok. Qed.

(** Without an administrator no introduction key appears. *)
Lemma change_roots keys keys' id k : key_change false keys keys' → keys' !! id = Some k → ke_purpose (ik_epoch k) = PurposeIntroduction →
  ∃ k0, keys !! id = Some k0 ∧ same_epoch k k0.
Proof.
  intros [x keys'' Hp (_ & _ & ->)|x t keys'' (y & Hy & ->)|x t keys'' (y & Hy & ->)] Hk Hi;
    apply lookup_insert_Some in Hk as [[<- <-]|[_ Hk]]; try (exists k; by split_and!).
  - by specialize (Hp Hi).
  - exists y. by split_and!.
  - exists y. by split_and!.
Qed.
Lemma changes_roots keys keys' : key_changes false keys keys' → ∀ id k, keys' !! id = Some k →
  ke_purpose (ik_epoch k) = PurposeIntroduction → ∃ k0, keys !! id = Some k0 ∧ same_epoch k k0.
Proof.
  induction 1 as [x|x y z Hxy _ IH]; intros id k Hk Hp; [exists k; by split_and!|].
  destruct (IH id k Hk Hp) as (k1 & Hk1 & E1 & E2 & E3).
  destruct (change_roots _ _ id k1 Hxy Hk1 ltac:(congruence)) as (k0 & Hk0 & F1 & F2 & F3). exists k0. split; [done|].
  unfold same_epoch. split_and!; congruence.
Qed.

(** The epoch that is accepted is that of the key that the proof names. *)
Lemma proven_epoch now proof body s key :
  directory_ok (keys_of s) → in_u32 (proof_key_epoch proof) → proven now proof body policy s key →
  ∃ stored current, kd_epochs (proof_subject proof) (ke_purpose (ik_epoch key)) s = Ok stored
    ∧ epoch_accepted (ik_epoch <$> stored) (proof_key_epoch proof) (proof_context proof) now (vp_rotation policy) (ik_epoch key) current.
Proof.
  intros Hok Hu []. destruct pv_accepted0 as (stored & Hs & Ha). apply accept_epoch_inv in Ha as (e & current & He); [|done].
  exists stored, current. split; [done|]. destruct (ea_key _ _ _ _ _ _ _ He) as [Hin Heq].
  apply list_elem_of_fmap in Hin as (k & -> & Hk). destruct (spec_epochs _ _ _ _ _ Hs Hk) as ((id & Hid) & Hsub & Hpur).
  assert (id = proof_key_id proof) as ->; [|by rewrite pv_key0 in Hid; injection Hid as <-].
  apply (proj2 (Hok _ _ pv_key0) id k Hid). unfold same_epoch. split_and!; congruence.
Qed.

(** C32. What authentication establishes, and what it leaves alone.  With any directory that the use
    cases build, an accepted proof names a registered key of its subject whose epoch is started,
    unexpired, unrevoked, for that kind of signature, and current or in its overlap; it is for this
    audience, fresh, over this very body and signed by that key; and its nonce was free and is now on
    record.  A proof that is rejected changes nothing, so it does not use up a nonce. *)
Theorem proofs_are_checked roots s0 clock0 s clock now proof body r s' :
  keys_of s0 = ∅ → rtc (identity_step roots) (s0, clock0) (s, clock) → in_u32 (proof_key_epoch proof) →
  authenticate now proof body policy s = (r, s') →
  keys_of s' = keys_of s ∧
  match r with
  | Ok subject =>
      subject = proof_subject proof ∧ ∃ key stored current, proven now proof body policy s key
      ∧ epoch_accepted (ik_epoch <$> stored) (proof_key_epoch proof) (proof_context proof) now (vp_rotation policy) (ik_epoch key) current
      ∧ records (nonces_of s) (proof_key_id proof, proof_nonce proof)
          (replay_retention_until (proof_window proof) (vp_freshness policy)) now (nonces_of s')
  | Err (Unavailable _) => True
  | Err _ => nonces_of s' = nonces_of s
  end.
Proof.
  intros H0' Hrun Hu Ha.
  assert (directory_ok (keys_of s)) as Hok by (eapply changes_ok; [by apply (run_keys roots (s0, clock0) (s, clock))|]; cbn [fst]; rewrite H0'; done).
  pose proof Ha as Ha'. apply authenticate_inv in Ha as (Hk & Hcase & Hsub). split; [done|]. destruct r as [subject|e].
  - split; [by apply Hsub|]. destruct Hcase as [(key & Hp & _ & Hrec)|[Hno _]]; [|by destruct (Hno subject)].
    destruct (proven_epoch _ _ _ _ _ Hok Hu Hp) as (stored & current & _ & He). by exists key, stored, current.
  - destruct e; [destruct Hcase as [(_ & _ & Hno & _)|[_ ?]]; [by destruct (Hno error)|done]| |done].
    exfalso. unfold authenticate in Ha'. destruct (check_proof now proof body policy s) as [k|e] eqn:Ec.
    + destruct (rg_record_nonce _ _ _ _ s) as [[[]|] s1]; done.
    + injection Ha' as -> _. clear -Ec. unfold check_proof in Ec.
      destruct (kd_key _ s) as [[k|]|]; [|done..]. cbn [map_err ok_or] in Ec. do 2 (destruct (negb _); [done|]).
      destruct (kd_epochs _ _ s); [|done]. cbn [map_err] in Ec. destruct (accept_epoch _ _ _ _ _); [|done]. cbn [map_err] in Ec.
      destruct (negb _); [done|]. destruct (CredentialWindow_check _ _ _); [|done]. cbn [map_err] in Ec. destruct (negb _); [done|].
      destruct (verify proof k); done.
Qed.

(** C20. Only roots introduce, and introductions make no roots.  While no administrator registers an
    introduction key, an accepted introduction names as its signing key a node's introduction key
    that was in the directory at the start (one key to an id and an epoch), however many nodes were introduced since. *)
Theorem introduced_never_introduce s0 clock0 s clock now proof introduction root s' :
  directory_ok (keys_of s0) → rtc (identity_step false) (s0, clock0) (s, clock) → in_u32 (proof_key_epoch proof) →
  accept_introduction now proof introduction policy s = (Ok root, s') →
  ∃ key, keys_of s0 !! proof_key_id proof = Some key ∧ ke_purpose (ik_epoch key) = PurposeIntroduction
    ∧ ke_subject (ik_epoch key) = root ∧ subject_kind root = Node.
Proof.
  intros Hok0 Hrun Hu Hi. pose proof (run_keys _ _ _ Hrun) as Hch. cbn [fst] in Hch. pose proof (changes_ok _ _ _ Hch Hok0) as Hok.
  unfold accept_introduction in Hi. pose proof Hi as Hi'. case_bool_decide as Hctx; cbn [negb] in Hi; [|done].
  destruct (authenticate now proof (introduction_bytes introduction) policy s) as [r1 s1] eqn:Ea.
  destruct r1 as [root1|]; [|done]. case_bool_decide as Hnode; cbn [negb orb] in Hi; [|done].
  assert (root1 = root) as ->.
  { destruct (negb _); [done|]. destruct (describe_key _) as [d|]; [|done]. destruct (kd_legacy d); [done|].
    destruct (register _ s1) as [[]]; [|done]. by injection Hi. }
  pose proof Ea as Ea'. apply authenticate_inv in Ea as (_ & [(key & Hp & _ & _)|[Hno _]] & Hsub); [|by destruct (Hno root)].
  destruct (proven_epoch _ _ _ _ _ Hok Hu Hp) as (stored & current & _ & He).
  pose proof (ea_purpose _ _ _ _ _ _ _ He) as Hsign. rewrite Hctx in Hsign.
  assert (ke_purpose (ik_epoch key) = PurposeIntroduction) as Hpur by by destruct (ke_purpose (ik_epoch key)).
  destruct (changes_roots _ _ Hch _ _ (pv_key _ _ _ _ _ _ Hp) Hpur) as (k0 & Hk0 & E1 & E2 & _).
  exists k0. split; [done|]. split; [congruence|]. split; [|done]. rewrite <-E1, (pv_subject _ _ _ _ _ _ Hp). symmetry. by apply Hsub.
Qed.

(** What happens around the calls that record a nonce: a whole use case, or any change to the store at
    all, such as the accesses of calls that overlap, that leaves the entry of this nonce alone. *)
Definition around (roots : bool) (nonce : str * list u8) (x y : S * i64) : Prop :=
  identity_step roots x y ∨ x.2 ≤ y.2 ∧ nonces_of y.1 !! nonce = nonces_of x.1 !! nonce.

Lemma around_retained roots x y until nonce :
  rtc (around roots nonce) x y → retained until nonce x → retained until nonce y.
Proof.
  induction 1 as [|x y z [Hxy|[Hle Hsame]] _ IH]; [done|..]; intros Hx; apply IH.
  - by eapply step_retained.
  - destruct Hx as [?|Hx]; [left; lia|right]. by rewrite Hsame.
Qed.

(** C7. A proof authenticates once, when the calls that record its nonce follow one another.  After a
    proof was accepted, whatever else the verifier does (other proofs, rotations, revocations,
    enrollments, introductions, purges of old nonces, and calls that overlap with these, as long as they
    leave this nonce's entry alone), the same proof is not accepted again, with this or another body;
    and until its nonce expires no proof with its key and nonce is.  Two calls that record this very
    nonce and overlap are outside of this: the storage adapter looks and then writes, and can accept
    both ([AutoCommit.Kinds.nonce_accepted_twice]). *)
Theorem proof_accepted_once roots now proof body s subject s1 s2 clock now2 proof2 body2 subject2 s3 :
  authenticate now proof body policy s = (Ok subject, s1) →
  rtc (around roots (proof_key_id proof, proof_nonce proof)) (s1, now) (s2, clock) → clock ≤ now2 →
  proof_key_id proof2 = proof_key_id proof → proof_nonce proof2 = proof_nonce proof →
  proof2 = proof ∨ now2 < replay_retention_until (proof_window proof) (vp_freshness policy) →
  authenticate now2 proof2 body2 policy s2 ≠ (Ok subject2, s3).
Proof.
  intros Ha Hrun Hc Hk Hn Hcase Ha2. set (until := replay_retention_until (proof_window proof) (vp_freshness policy)) in *.
  apply authenticate_inv in Ha as (_ & [(key & _ & _ & [_ Hrec])|[Hno _]] & _); [|by destruct (Hno subject)].
  assert (retained until (proof_key_id proof, proof_nonce proof) (s2, clock)) as Hret.
  { eapply around_retained; [exact Hrun|]. right. exists until. cbn [fst]. split; [|lia]. rewrite Hrec. apply lookup_insert_eq. }
  apply authenticate_inv in Ha2 as (_ & [(key2 & Hp2 & _ & [Hold _])|[Hno _]] & _); [|by destruct (Hno subject2)].
  assert (now2 < until) as Hlt by (destruct Hcase as [->|?]; [by apply fresh_retained, Hp2|done]).
  destruct Hret as [Hle|(r & Hr & Hle)]; cbn [fst snd] in *; [lia|]. rewrite Hk, Hn in Hold. specialize (Hold r Hr). lia.
Qed.

End laws.

(** ** The stores *)

(** Keys by id, nonces by the key that signed them, challenges by nonce, what the random source gives
    and how often it was asked, and a [failure] that answers every call. *)
Record IdentityDb := {
  id_keys : Keys;
  id_nonces : Nonces;
  id_challenges : gmap (list u8) Challenge;
  id_random : nat → list u8;
  id_drawn : nat;
  id_failure : option PortError;
}.
Definition set_keys (db : IdentityDb) (keys : Keys) : IdentityDb :=
  {| id_keys := keys; id_nonces := id_nonces db; id_challenges := id_challenges db; id_random := id_random db; id_drawn := id_drawn db; id_failure := id_failure db |}.
Definition set_nonces (db : IdentityDb) (nonces : Nonces) : IdentityDb :=
  {| id_keys := id_keys db; id_nonces := nonces; id_challenges := id_challenges db; id_random := id_random db; id_drawn := id_drawn db; id_failure := id_failure db |}.
Definition set_challenges (db : IdentityDb) (challenges : gmap (list u8) Challenge) (drawn : nat) : IdentityDb :=
  {| id_keys := id_keys db; id_nonces := id_nonces db; id_challenges := challenges; id_random := id_random db; id_drawn := drawn; id_failure := id_failure db |}.

(** A call answers the store's failure, or what it does. *)
Definition reading {A} (db : IdentityDb) (a : A) : PortResult A :=
  match id_failure db with Some error => Err error | None => Ok a end.
Definition writing {A} (db : IdentityDb) (f : PortResult A * IdentityDb) : PortResult A * IdentityDb :=
  match id_failure db with Some error => (Err error, db) | None => f end.

Definition key_time_fits (millis : i64) : bool := is_some (checked i64_min i64_max (millis * 1000)).
Definition key_overflows : PortError := PFailed (lit "key time overflows microseconds").
Definition key_times_fit (e : KeyEpoch) : bool :=
  key_time_fits (ke_not_before_millis e) && is_none_or key_time_fits (ke_expires_at_millis e)
  && is_none_or key_time_fits (ke_retired_at_millis e) && is_none_or key_time_fits (ke_revoked_at_millis e).

(** Keys in epoch order. *)
Definition epoch_le (p q : IdentityKey) : Prop := ke_epoch (ik_epoch p) ≤ ke_epoch (ik_epoch q).
#[export] Instance epoch_le_dec : RelDecision epoch_le.
Proof. intros p q. unfold epoch_le. apply _. Defined.

Definition KEY_QUERY_LIMIT : nat := Z.to_nat 10000.

Definition same_epochb (k k' : IdentityKey) : bool :=
  bool_decide (ke_subject (ik_epoch k) = ke_subject (ik_epoch k')) && bool_decide (ke_purpose (ik_epoch k) = ke_purpose (ik_epoch k'))
  && (ke_epoch (ik_epoch k) =? ke_epoch (ik_epoch k')).

Definition CapsuleKeyDirectory_key (id : str) (db : IdentityDb) : PortResult (option IdentityKey) := reading db (id_keys db !! id).
Definition CapsuleKeyDirectory_epochs (subject : Subject) (purpose : KeyPurpose) (db : IdentityDb) : PortResult (list IdentityKey) :=
  reading db (merge_sort epoch_le (take KEY_QUERY_LIMIT
    (filter (λ k, ke_subject (ik_epoch k) = subject ∧ ke_purpose (ik_epoch k) = purpose) (map_to_list (id_keys db)).*2))).
Definition CapsuleKeyDirectory_register (k : IdentityKey) (db : IdentityDb) : PortResult unit * IdentityDb :=
  if negb (key_times_fit (ik_epoch k)) then (Err key_overflows, db)
  else writing db
    (if is_some (id_keys db !! ik_key_id k) || existsb (same_epochb k) (map_to_list (id_keys db)).*2 then (Err PConflict, db)
     else (Ok tt, set_keys db (<[ik_key_id k := k]> (id_keys db)))).

(** [keep_earliest], of the time that [recorded] reads and [f] sets. *)
Definition keep_earliest (recorded : KeyEpoch → option i64) (f : IdentityKey → IdentityKey) (id : str) (at_millis : i64)
    (db : IdentityDb) : PortResult unit * IdentityDb :=
  writing db
    match id_keys db !! id with
    | None => (Err PNotFound, db)
    | Some k =>
        if is_some_and (λ t, t <=? at_millis) (recorded (ik_epoch k)) then (Ok tt, db)
        else if negb (key_time_fits at_millis) then (Err key_overflows, db)
        else (Ok tt, set_keys db (<[id := f k]> (id_keys db)))
    end.
Definition CapsuleKeyDirectory_retire (id : str) (at_millis : i64) : IdentityDb → PortResult unit * IdentityDb :=
  keep_earliest ke_retired_at_millis (retired_at at_millis) id at_millis.
Definition CapsuleKeyDirectory_revoke (id : str) (at_millis : i64) : IdentityDb → PortResult unit * IdentityDb :=
  keep_earliest ke_revoked_at_millis (key_revoked_at at_millis) id at_millis.

Definition AutoCommit_record_nonce (id : str) (nonce : list u8) (retain_until now : i64) (db : IdentityDb) : PortResult bool * IdentityDb :=
  writing db
    (if is_some_and (λ stored, now <? stored) (id_nonces db !! (id, nonce)) then (Ok false, db)
     else (Ok true, set_nonces db (<[(id, nonce) := retain_until]> (id_nonces db)))).
Definition AutoCommit_purge (now : i64) (db : IdentityDb) : PortResult unit * IdentityDb :=
  writing db (Ok tt, set_challenges (set_nonces db (filter (λ kv, now < kv.2) (id_nonces db)))
    (filter (λ kv, now < chal_expires_at_millis kv.2) (id_challenges db)) (id_drawn db)).

Definition AutoCommit_issue (subject : Subject) (audience : str) (expires : i64) (db : IdentityDb) : PortResult Challenge * IdentityDb :=
  writing db
    (let nonce := id_random db (id_drawn db) in
     let drawn := S (id_drawn db) in
     let challenge := {| chal_nonce := nonce; chal_subject := subject; chal_audience := audience; chal_expires_at_millis := expires |} in
     if is_some (id_challenges db !! nonce) then (Err PConflict, set_challenges db (id_challenges db) drawn)
     else (Ok challenge, set_challenges db (<[nonce := challenge]> (id_challenges db)) drawn)).
Definition AutoCommit_consume (nonce : list u8) (subject : Subject) (audience : str) (now : i64) (db : IdentityDb)
    : PortResult bool * IdentityDb :=
  writing db
    match id_challenges db !! nonce with
    | None => (Ok false, db)
    | Some challenge =>
        if negb (bool_decide (chal_subject challenge = subject)) || negb (bool_decide (chal_audience challenge = audience))
           || (chal_expires_at_millis challenge <=? now)
        then (Ok false, db)
        else (Ok true, set_challenges db (delete nonce (id_challenges db)) (id_drawn db))
    end.

#[export] Instance identity_store : IdentityStore IdentityDb := {|
  kd_key := CapsuleKeyDirectory_key; kd_epochs := CapsuleKeyDirectory_epochs; kd_register := CapsuleKeyDirectory_register;
  kd_retire := CapsuleKeyDirectory_retire; kd_revoke := CapsuleKeyDirectory_revoke;
  rg_record_nonce := AutoCommit_record_nonce; rg_purge := AutoCommit_purge;
  cs_issue := AutoCommit_issue; cs_consume := AutoCommit_consume;
|}.

Lemma same_epochb_spec k k' : same_epochb k k' = true ↔ same_epoch k k'.
Proof. unfold same_epochb, same_epoch. rewrite !andb_true_iff, !bool_decide_eq_true, Z.eqb_eq. tauto. Qed.

Lemma keep_earliest_spec recorded f id t db r db' :
  (∀ k, is_some_and (λ x, x <=? t) (recorded (ik_epoch k)) = true → f k = k) →
  keep_earliest recorded f id t db = (r, db') →
  id_nonces db' = id_nonces db ∧ (changes (id_keys db) id f (id_keys db') ∨ r ≠ Ok tt ∧ id_keys db' = id_keys db).
Proof.
  intros Hf. unfold keep_earliest, writing. destruct (id_failure db); [intros [= <- <-]; split; [done|by right]|].
  destruct (id_keys db !! id) as [k|] eqn:Hk; [|intros [= <- <-]; split; [done|by right]].
  destruct (is_some_and _ _) eqn:He; [|destruct (negb _)]; intros [= <- <-]; (split; [done|]); [left|by right|left; by exists k].
  exists k. split; [done|]. by rewrite Hf, insert_id.
Qed.
Lemma kept_earliest t o : is_some_and (λ x, x <=? t) o = true → earliest o t = o.
Proof. destruct o as [x|]; [cbn; by intros ->|done]. Qed.

#[export] Program Instance identity_spec : IdentitySpec IdentityDb := {| keys_of := id_keys; nonces_of := id_nonces |}.
Next Obligation. intros id db found. cbn. unfold CapsuleKeyDirectory_key, reading. destruct (id_failure db); [done|]. by intros [= <-]. Qed.
Next Obligation.
  intros subject purpose db l k. cbn. unfold CapsuleKeyDirectory_epochs, reading. destruct (id_failure db); [done|]. intros [= <-] Hk.
  rewrite merge_sort_Permutation in Hk. apply elem_of_take in Hk as (i & Hi & _).
  apply list_elem_of_lookup_2, list_elem_of_filter in Hi as [Hm Hi]. apply list_elem_of_fmap in Hi as ([id x] & -> & Hi).
  apply elem_of_map_to_list in Hi. split; [by exists id|done].
Qed.
Next Obligation.
  intros k db r db'. cbn. unfold CapsuleKeyDirectory_register, writing. destruct (negb _); [intros [= <- <-]; split; [done|by right]|].
  destruct (id_failure db); [intros [= <- <-]; split; [done|by right]|].
  destruct (id_keys db !! ik_key_id k) eqn:Hk; cbn [is_some orb]; [intros [= <- <-]; split; [done|by right]|].
  destruct (existsb _ _) eqn:He; intros [= <- <-]; (split; [done|]); [by right|left]. split; [done|]. split; [|done].
  intros id k' Hk' Hs%same_epochb_spec. apply Bool.not_true_iff_false in He. apply He, existsb_spec. exists k'. split; [|done].
  apply list_elem_of_fmap. exists (id, k'). split; [done|]. by apply elem_of_map_to_list.
Qed.
Next Obligation.
  intros id t db r db'. cbn. apply keep_earliest_spec. intros [? ? []] He. unfold retired_at, with_epoch. cbn in *. by rewrite kept_earliest.
Qed.
Next Obligation.
  intros id t db r db'. cbn. apply keep_earliest_spec. intros [? ? []] He. unfold key_revoked_at, with_epoch. cbn in *. by rewrite kept_earliest.
Qed.
Next Obligation.
  intros id nonce retain now db r db'. cbn. unfold AutoCommit_record_nonce, writing.
  destruct (id_failure db); [intros [= <- <-]; split; [done|by right]|].
  destruct (is_some_and _ _) eqn:He; intros [= <- <-]; (split; [done|]); [by right|left]. split; [done|]. split; [|done].
  intros x Hx. rewrite Hx in He. cbn in He. lia.
Qed.
Next Obligation.
  intros now db r db'. cbn. unfold AutoCommit_purge, writing. destruct (id_failure db); intros [= <- <-]; [done|]. split; [done|].
  intros key t Ht Hlt. cbn. by apply map_lookup_filter_Some.
Qed.
Next Obligation.
  intros subject audience expires db r db'. cbn. unfold AutoCommit_issue, writing. destruct (id_failure db); [by intros [= <- <-]|].
  cbv zeta. destruct (is_some _); by intros [= <- <-].
Qed.
Next Obligation.
  intros nonce subject audience now db r db'. cbn. unfold AutoCommit_consume, writing. destruct (id_failure db); [by intros [= <- <-]|].
  destruct (id_challenges db !! nonce) as [c|]; [|by intros [= <- <-]]. destruct (_ || _); by intros [= <- <-].
Qed.

(** ** At work *)

Module ProofUse.

(** A verifier that accepts the signature [1], digests a body as its length, and reads a key as its
    legacy flag and its name. *)
#[export] Instance sample_verifier : IdentityVerifier := {|
  verify proof _ := if bool_decide (proof_signature proof = [1]) then Ok tt else Err BadSignature;
  body_digest body := [Z.of_nat (length body)];
  describe_key key := match key with
                      | [] => Err Malformed
                      | flag :: name => Ok {| kd_key_id := Z.to_N <$> name; kd_legacy := flag =? 1 |}
                      end;
  introduction_bytes i := [intro_epoch i];
|}.

Definition node (n : N) : Subject := {| subject_kind := Node; subject_id := n |}.
Definition sample_policy : VerifierPolicy :=
  {| vp_audience := lit "node:a"; vp_freshness := FreshnessPolicy_GUEST; vp_rotation := RotationPolicy_DEFAULT |}.
Definition sample_proof (context : SignatureContext) (key_id : str) (signer : Subject) (signature : list u8) : SignedProof :=
  {| proof_context := context; proof_algorithm := lit "ed25519"; proof_key_id := key_id; proof_key_epoch := 1; proof_subject := signer;
     proof_audience := lit "node:a";
     proof_window := {| cw_issued_at_millis := 1000; cw_not_before_millis := 1000; cw_expires_at_millis := 61000 |};
     proof_nonce := [7]; proof_request_id := lit "r"; proof_action := lit "guest.kv.get"; proof_resource := [];
     proof_body_digest := [1]; proof_signature := signature |}.

Definition empty : IdentityDb :=
  {| id_keys := ∅; id_nonces := ∅; id_challenges := ∅; id_random := λ n, [Z.of_nat n]; id_drawn := 0; id_failure := None |}.
Definition new_key (name : Z) : NewKey := {| nk_public_key := [0; name]; nk_expires_at_millis := None |}.
(** An administrator's root, and a node's key for requests. *)
Definition rooted : IdentityDb := (rotate_key 900 (node 1) PurposeIntroduction (new_key 65) empty).2.
Definition keyed : IdentityDb := (rotate_key 950 (node 2) PurposeAuthentication (new_key 66) rooted).2.

Definition request (signature : list u8) : SignedProof := sample_proof CtxRequest (lit "B") (node 2) signature.
Definition served (db : IdentityDb) (now : i64) (signature : list u8) : result Subject IdentityFailure * IdentityDb :=
  authenticate now (request signature) [0] sample_policy db.
Definition once : IdentityDb := (served keyed 2000 [1]).2.

Definition introduction_of (n : N) (name : Z) : Introduction :=
  {| intro_subject := node n; intro_public_key := [0; name]; intro_epoch := 1; intro_not_before_millis := 0; intro_expires_at_millis := None |}.
Definition introduce (db : IdentityDb) (key_id : str) (signer : Subject) : result Subject IdentityFailure * IdentityDb :=
  accept_introduction 2000 (sample_proof CtxIntroduction key_id signer [1]) (introduction_of 3 67) sample_policy db.

Example proofs_at_work :
  (served keyed 2000 [2]).1 = Err (Rejected BadSignature) ∧ (served keyed 2000 [1]).1 = Ok (node 2)
  ∧ (served once 2001 [1]).1 = Err (Rejected Replayed) ∧ (served once 91000 [1]).1 = Err (Rejected Expired)
  ∧ (introduce keyed (lit "A") (node 1)).1 = Ok (node 1) ∧ (introduce keyed (lit "B") (node 2)).1 = Err (Rejected KeyPurposeMismatch).
Proof. vm_compute. done. Qed.

Lemma keyed_reached : rtc (identity_step sample_policy true) (empty, 0) (keyed, 950).
Proof.
  eapply rtc_l; [by apply (step_rotate sample_policy true empty 0 900 (node 1) PurposeIntroduction (new_key 65))|].
  eapply rtc_l; [by apply (step_rotate sample_policy true rooted 900 950 (node 2) PurposeAuthentication (new_key 66))|]. apply rtc_refl.
Qed.
Lemma once_done : served keyed 2000 [1] = (Ok (node 2), once).
Proof. vm_compute. reflexivity. Qed.

Lemma proof_accepted_once_witness :
  served keyed 2000 [1] = (Ok (node 2), once) ∧ served once 2001 [1] ≠ (Ok (node 2), once).
Proof.
  split; [exact once_done|].
  exact (@proof_accepted_once _ IdentityDb _ identity_spec sample_policy true 2000 (request [1]) [0] keyed (node 2) once once 2000
    2001 (request [1]) [0] (node 2) once once_done (rtc_refl _ _) ltac:(lia) eq_refl eq_refl (or_introl eq_refl)).
Defined.

Lemma proofs_are_checked_witness :
  id_keys once = id_keys keyed ∧ node 2 = proof_subject (request [1])
  ∧ ∃ key, proven (S := IdentityDb) 2000 (request [1]) [0] sample_policy keyed key.
Proof.
  pose proof (@proofs_are_checked _ IdentityDb _ identity_spec sample_policy true empty 0 keyed 950 2000 (request [1]) [0] (Ok (node 2)) once
    eq_refl keyed_reached ltac:(vm_compute; split; discriminate) once_done) as (Hk & Hs & key & stored & current & Hp & _).
  split; [exact Hk|]. split; [exact Hs|]. exists key. exact Hp.
Defined.

Definition introduced : IdentityDb := (introduce keyed (lit "A") (node 1)).2.
Lemma introduced_done : introduce keyed (lit "A") (node 1) = (Ok (node 1), introduced).
Proof. vm_compute. reflexivity. Qed.
Lemma keyed_ok : directory_ok (@keys_of IdentityDb _ identity_spec keyed).
Proof.
  eapply (@changes_ok true); [exact (@run_keys _ IdentityDb _ identity_spec sample_policy true _ _ keyed_reached)|].
  intros id k Hk. cbn in Hk. by rewrite lookup_empty in Hk.
Qed.
Lemma introduced_never_introduce_witness :
  ∃ key, @keys_of IdentityDb _ identity_spec keyed !! lit "A" = Some key ∧ ke_purpose (ik_epoch key) = PurposeIntroduction.
Proof.
  destruct (@introduced_never_introduce _ IdentityDb _ identity_spec sample_policy keyed 950 keyed 950 2000
    (sample_proof CtxIntroduction (lit "A") (node 1) [1]) (introduction_of 3 67) (node 1) introduced
    keyed_ok (rtc_refl _ _) ltac:(vm_compute; split; discriminate) introduced_done) as (key & Hk & Hp & _).
  exists key. split; [exact Hk|exact Hp].
Defined.

End ProofUse.
