(* ===== verification/PublicAction.v ===== *)
(** The public action service ([aseman-application/src/public_action.rs]): authentication by session or
    proof, authorization, audit, execution, and durable idempotency of mutations, as one path.

    Each port is a class in state-passing style over its part of the world.  Serving a request is one
    function; a mutation is also a handler that makes one call at a time ([mutation_step]), so that
    any number of them interleave, fail with or without effect, and crash. *)

From S2P Require Import FinanceLedger.
From S2P Require Import Prelude Text Core Identity Registry Capability Authority Ports Grants Authentication.

Open Scope Z_scope.

(** ** Ports *)

Inductive ActionClaim := Claimed | InProgress | Completed (response : list u8) | Mismatch.

Record ActionCall := {
  call_subject : Subject;
  call_operation : str;
  call_action : str;
  call_body : list u8;
  call_request_id : str;
  call_idempotency_key : option str;
}.

Class SessionDirectory (D : Type) := session_subject : str → D → PortResult (option Subject).
Class DecisionAudit (A : Type) := audit_record : AuditRecord → A → PortResult u64 * A.
Class ActionIdempotency (C : Type) := {
  ai_claim : str → str → list u8 → C → PortResult ActionClaim * C;
  ai_complete : str → str → list u8 → C → PortResult unit * C;
  ai_release : str → str → C → PortResult unit * C;
}.
Class ActionExecutor (X : Type) := {
  ex_resolve : Subject → str → list u8 → X → PortResult (ResourceRef * gset Condition);
  ex_execute : ActionCall → X → PortResult (list u8) * X;
}.

(** What the idempotency store promises of its claims: a digest, and the response once completed.  A
    call that fails may have taken effect. *)
Notation Claims := (gmap (str * str) (list u8 * option (list u8))).
Class IdempotencySpec (C : Type) `{ActionIdempotency C} := {
  claims_of : C → Claims;
  spec_claim owner key digest c r c' : ai_claim owner key digest c = (r, c') →
    match r with
    | Ok Claimed => claims_of c !! (owner, key) = None ∧ claims_of c' = <[(owner, key) := (digest, None)]> (claims_of c)
    | Ok InProgress => claims_of c' = claims_of c
    | Ok (Completed response) => claims_of c !! (owner, key) = Some (digest, Some response) ∧ claims_of c' = claims_of c
    | Ok Mismatch => claims_of c' = claims_of c
    | Err _ => claims_of c' = claims_of c
        ∨ claims_of c !! (owner, key) = None ∧ claims_of c' = <[(owner, key) := (digest, None)]> (claims_of c)
    end;
  spec_complete owner key response c r c' : ai_complete owner key response c = (r, c') →
    claims_of c' = claims_of c
    ∨ ∃ row, claims_of c !! (owner, key) = Some row ∧ claims_of c' = <[(owner, key) := (row.1, Some response)]> (claims_of c);
  spec_release owner key c r c' : ai_release owner key c = (r, c') →
    claims_of c' = claims_of c
    ∨ ∃ digest, claims_of c !! (owner, key) = Some (digest, None) ∧ claims_of c' = delete (owner, key) (claims_of c);
}.

(** ** Serving a request *)

Inductive RequestAuthentication := Session (token : str) | ByProof (proof : SignedProof).

Record PublicActionRequest := {
  par_request_id : str;
  par_route : str;
  par_action : str;
  par_class : ActionClass;
  par_authentication : RequestAuthentication;
  par_idempotency_key : option str;
  par_body : list u8;
}.
Record PublicActionResponse := { resp_status : Z; resp_body : list u8 }.

Inductive PublicActionFailure :=
| ActionRejected (error : AuthenticationError)
| ActionRefused (message : str)
| ActionDenied (reason : str)
| IdempotencyInProgress
| IdempotencyMismatch
| ActionUnavailable (error : PortError).

Definition from_identity (failure : IdentityFailure) : PublicActionFailure :=
  match failure with
  | Rejected error => ActionRejected error
  | Refused message => ActionRefused message
  | Unavailable error => ActionUnavailable error
  end.

Definition call_of (request : PublicActionRequest) (subject : Subject) (idempotency_key : option str) : ActionCall :=
  {| call_subject := subject; call_operation := par_route request; call_action := par_action request; call_body := par_body request;
     call_request_id := par_request_id request; call_idempotency_key := idempotency_key |}.

Definition text_bytes (s : str) : list u8 := Z.of_N <$> bytes s.
(** [digest]: the request that a key is bound to. *)
Definition request_digest `{IdentityVerifier} (route action : str) (body : list u8) : list u8 :=
  body_digest (text_bytes route ++ [0] ++ text_bytes action ++ [0] ++ body).

Definition success (body : list u8) : PublicActionResponse := {| resp_status := 200; resp_body := body |}.
Definition idempotency_down : PublicActionFailure := ActionUnavailable (PUnavailable (lit "idempotency store")).

Section service.
Context `{UuidText, IdentityVerifier}.
Context {I D G A C X : Type} `{IdentityStore I, SessionDirectory D, GrantStore G, DecisionAudit A, ActionIdempotency C, ActionExecutor X}.
Context (policy : PolicyRequest → PortResult PolicyDecision) (verifier_policy : VerifierPolicy).

Record World := {
  aw_identity : I; aw_sessions : D; aw_grants : G; aw_audit : A; aw_claims : C; aw_effects : X }.
Definition with_identity (w : World) (s : I) : World :=
  {| aw_identity := s; aw_sessions := aw_sessions w; aw_grants := aw_grants w; aw_audit := aw_audit w; aw_claims := aw_claims w; aw_effects := aw_effects w |}.
Definition with_audit (w : World) (a : A) : World :=
  {| aw_identity := aw_identity w; aw_sessions := aw_sessions w; aw_grants := aw_grants w; aw_audit := a; aw_claims := aw_claims w; aw_effects := aw_effects w |}.
Definition with_claims (w : World) (c : C) : World :=
  {| aw_identity := aw_identity w; aw_sessions := aw_sessions w; aw_grants := aw_grants w; aw_audit := aw_audit w; aw_claims := c; aw_effects := aw_effects w |}.
Definition with_effects (w : World) (x : X) : World :=
  {| aw_identity := aw_identity w; aw_sessions := aw_sessions w; aw_grants := aw_grants w; aw_audit := aw_audit w; aw_claims := aw_claims w; aw_effects := x |}.

(** [authenticate]; [now] is the clock's reading. *)
Definition authenticate_request (now : i64) (request : PublicActionRequest) (w : World) : result Subject PublicActionFailure * World :=
  match par_authentication request with
  | Session token =>
      (let? found := map_err ActionUnavailable (session_subject token (aw_sessions w)) in
       ok_or found (ActionRefused (lit "unknown session")), w)
  | ByProof proof =>
      let '(r, s) := authenticate now proof (par_body request) verifier_policy (aw_identity w) in
      (let? subject := map_err from_identity r in
       if negb (bool_decide (proof_action proof = par_action request))
       then Err (ActionRefused (lit "the credential does not cover this action"))
       else Ok subject, with_identity w s)
  end.

Definition execute_mutation (request : PublicActionRequest) (subject : Subject) (key : str) (w : World)
    : result PublicActionResponse PublicActionFailure * World :=
  let owner := Subject_to_string subject in
  let digest := request_digest (par_route request) (par_action request) (par_body request) in
  let '(claim, c) := ai_claim owner key digest (aw_claims w) in
  let w := with_claims w c in
  match claim with
  | Err e => (Err (ActionUnavailable e), w)
  | Ok (Completed body) => (Ok (success body), w)
  | Ok InProgress => (Err IdempotencyInProgress, w)
  | Ok Mismatch => (Err IdempotencyMismatch, w)
  | Ok Claimed =>
      let '(done, x) := ex_execute (call_of request subject (Some key)) (aw_effects w) in
      let w := with_effects w x in
      match done with
      | Ok body =>
          let '(r, c) := ai_complete owner key body (aw_claims w) in
          (match r with Ok _ => Ok (success body) | Err _ => Err idempotency_down end, with_claims w c)
      | Err error =>
          let '(_, c) := ai_release owner key (aw_claims w) in
          (Err (ActionUnavailable error), with_claims w c)
      end
  end.

Definition condition_text (matched : option Condition) : str :=
  match matched with Some condition => Condition_as_str condition | None => lit "none" end.

Definition audit_of (request : PublicActionRequest) (subject : Subject) (resource : ResourceRef) (decision : PolicyDecision) (now : i64)
    : AuditRecord :=
  {| audit_actor := Subject_to_string subject; audit_action := par_action request;
     audit_target := rr_kind resource ++ lit ":" ++ rr_id resource;
     audit_decision := if pd_allowed decision then lit "allowed" else DecisionReason_code (pd_reason decision);
     audit_occurred_at_millis := now;
     audit_details := lit "route=" ++ par_route request ++ lit " request_id=" ++ par_request_id request
       ++ lit " matched=" ++ condition_text (pd_matched decision) ++ lit " registry_version=" ++ pd_registry_version decision
       ++ lit " policy_version=" ++ pd_policy_version decision |}.

(** The proof, where there is one, is for the resource. *)
Definition covers_resource (request : PublicActionRequest) (resource : ResourceRef) : bool :=
  match par_authentication request with
  | Session _ => true
  | ByProof proof => bool_decide (proof_resource proof = rr_id resource)
  end.

(** [execute]; [clock] gives the readings of the clock, in order. *)
Definition serve_public_action (clock : nat → i64) (request : PublicActionRequest) (w : World)
    : result PublicActionResponse PublicActionFailure * World :=
  let '(authenticated, w) := authenticate_request (clock 0%nat) request w in
  match authenticated with
  | Err e => (Err e, w)
  | Ok subject =>
      match ex_resolve subject (par_action request) (par_body request) (aw_effects w) with
      | Err e => (Err (ActionUnavailable e), w)
      | Ok (resource, facts) =>
          if negb (covers_resource request resource)
          then (Err (ActionRefused (lit "the credential does not cover this resource")), w)
          else match authorize policy (clock 1%nat) (Some subject) (par_action request) resource facts (aw_grants w) with
          | Err e => (Err (ActionUnavailable e), w)
          | Ok decision =>
              let '(recorded, a) := audit_record (audit_of request subject resource decision (clock 2%nat)) (aw_audit w) in
              let w := with_audit w a in
              match recorded with
              | Err e => (Err (ActionUnavailable e), w)
              | Ok _ =>
                  if negb (pd_allowed decision) then (Err (ActionDenied (DecisionReason_code (pd_reason decision))), w)
                  else if negb (bool_decide (par_class request = ClassRead)) then
                    match par_idempotency_key request with
                    | None => (Err (ActionRefused (lit "idempotency key required")), w)
                    | Some key => execute_mutation request subject key w
                    end
                  else
                    let '(done, x) := ex_execute (call_of request subject (par_idempotency_key request)) (aw_effects w) in
                    (result_map success (map_err ActionUnavailable done), with_effects w x)
              end
          end
      end
  end.

(** ** Only what is authenticated, allowed and audited takes effect *)

Record permitted (clock : nat → i64) (request : PublicActionRequest) (w w' : World) (subject : Subject) (call : ActionCall) : Prop := {
  pm_subject : match par_authentication request with
    | Session token => session_subject token (aw_sessions w) = Ok (Some subject)
    | ByProof proof => (authenticate (clock 0%nat) proof (par_body request) verifier_policy (aw_identity w)).1 = Ok subject
        ∧ proof_action proof = par_action request
    end;
  pm_decision : ∃ resource facts decision sequence,
    ex_resolve subject (par_action request) (par_body request) (aw_effects w) = Ok (resource, facts)
    ∧ covers_resource request resource = true
    ∧ authorize policy (clock 1%nat) (Some subject) (par_action request) resource facts (aw_grants w) = Ok decision
    ∧ pd_allowed decision = true
    ∧ audit_record (audit_of request subject resource decision (clock 2%nat)) (aw_audit w) = (Ok sequence, aw_audit w');
  pm_call : call_subject call = subject ∧ call_action call = par_action request ∧ call_body call = par_body request
    ∧ call_operation call = par_route request;
  pm_key : par_class request ≠ ClassRead → is_Some (call_idempotency_key call) ∧ call_idempotency_key call = par_idempotency_key request;
  pm_effect : aw_effects w' = (ex_execute call (aw_effects w)).2;
}.

Lemma authenticate_request_inv now request w r w' : authenticate_request now request w = (r, w') →
  aw_sessions w' = aw_sessions w ∧ aw_grants w' = aw_grants w ∧ aw_audit w' = aw_audit w ∧ aw_claims w' = aw_claims w
  ∧ aw_effects w' = aw_effects w ∧ ∀ subject, r = Ok subject →
    match par_authentication request with
    | Session token => session_subject token (aw_sessions w) = Ok (Some subject)
    | ByProof proof => (authenticate now proof (par_body request) verifier_policy (aw_identity w)).1 = Ok subject
        ∧ proof_action proof = par_action request
    end.
Proof.
  unfold authenticate_request. destruct (par_authentication request) as [token|proof].
  - intros [= <- <-]. split_and!; try done. intros subject. destruct (session_subject token _) as [[s|]|]; cbn; [by intros [= ->]|done..].
  - destruct (authenticate now proof _ _ _) as [r1 s1]. intros [= <- <-]. split_and!; try done. intros subject. cbn [fst].
    destruct r1 as [s|]; cbn [map_err]; [|done]. case_bool_decide; [|done]. by intros [= ->].
Qed.

(** C16. Nothing takes effect unpermitted.  Whatever a public request asks, with whatever failures of the
    ports: either no effect took place, or the caller was authenticated (by a live session, or by a
    proof over this body for this action and this resource), the policy allowed that subject the
    action on the resolved resource, the decision was on record before the effect, and the effect is
    that of the one call for this subject, action and body, under the idempotency key when the
    action is not a read. *)
Theorem effects_are_permitted clock request w r w' :
  serve_public_action clock request w = (r, w') →
  aw_effects w' = aw_effects w ∨ ∃ subject call, permitted clock request w w' subject call.
Proof.
  unfold serve_public_action. destruct (authenticate_request (clock 0%nat) request w) as [r1 w1] eqn:Ea.
  apply authenticate_request_inv in Ea as (E1 & E2 & E3 & E4 & E5 & Hsub).
  destruct r1 as [subject|]; [|intros [= <- <-]; by left]. specialize (Hsub subject eq_refl). rewrite E5.
  destruct (ex_resolve subject _ _ _) as [[resource facts]|] eqn:Er; [|intros [= <- <-]; by left].
  destruct (covers_resource request resource) eqn:Ec; [|intros [= <- <-]; by left]. cbn [negb]. rewrite E2.
  destruct (authorize _ _ _ _ _ _ _) as [decision|] eqn:Ed; [|intros [= <- <-]; by left]. rewrite E3.
  destruct (audit_record _ _) as [recorded a] eqn:Eu. destruct recorded as [sequence|]; [|intros [= <- <-]; by left].
  destruct (pd_allowed decision) eqn:Hal; [|intros [= <- <-]; by left]. cbn [negb].
  case_bool_decide as Hcl; cbn [negb].
  - cbn [aw_effects with_audit]. rewrite E5. destruct (ex_execute _ (aw_effects w)) as [done x] eqn:Ex. intros [= <- <-]. right.
    exists subject, (call_of request subject (par_idempotency_key request)). constructor; [done| |done|done|by cbn; rewrite Ex].
    exists resource, facts, decision, sequence. by split_and!.
  - destruct (par_idempotency_key request) as [key|] eqn:Hk; [|intros [= <- <-]; by left].
    unfold execute_mutation. cbn [aw_claims with_audit]. destruct (ai_claim _ key _ _) as [claim c]. destruct claim as [[]|]; try (intros [= <- <-]; by left).
    cbn [aw_effects with_claims with_audit]. rewrite E5. destruct (ex_execute _ (aw_effects w)) as [done x] eqn:Ex.
    assert (∀ w2, aw_effects w2 = x → aw_audit w2 = a → permitted clock request w w2 subject (call_of request subject (Some key))) as Hper.
    { intros w2 Hx Ha. constructor; [done| |done| |by rewrite Ex].
      - exists resource, facts, decision, sequence. rewrite Ha. by split_and!.
      - intros _. cbn. rewrite Hk. split; [by eexists|done]. }
    destruct done as [body|].
    + destruct (ai_complete _ key body _) as [r2 c2]. intros [= <- <-]. right. eexists _, _. by apply Hper.
    + destruct (ai_release _ key _) as [r2 c2]. intros [= <- <-]. right. eexists _, _. by apply Hper.
Qed.

End service.

(** ** Mutations, one call at a time *)

(** Where a mutation is: about to claim, to execute, to complete or to release, answered, or gone. *)
Inductive Mutation :=
| MClaim (request : PublicActionRequest) (subject : Subject) (key : str)
| MExecute (request : PublicActionRequest) (subject : Subject) (key : str)
| MComplete (owner : str * str) (body : list u8)
| MRelease (owner : str * str) (error : PortError)
| MDone (owner : str * str) (answer : result PublicActionResponse PublicActionFailure)
| MCrashed.

Section mutations.
Context `{UuidText, IdentityVerifier} {C X : Type} `{ActionIdempotency C, ActionExecutor X}.

Definition owner_of (subject : Subject) (key : str) : str * str := (Subject_to_string subject, key).

(** One call of [execute_mutation]; an execution that succeeds is answered beside the handler. *)
Definition mutation_step (h : Mutation) (c : C) (x : X) : Mutation * C * X * option ((str * str) * list u8) :=
  match h with
  | MClaim request subject key =>
      let owner := owner_of subject key in
      let '(claim, c) := ai_claim owner.1 owner.2 (request_digest (par_route request) (par_action request) (par_body request)) c in
      (match claim with
       | Err e => MDone owner (Err (ActionUnavailable e))
       | Ok (Completed body) => MDone owner (Ok (success body))
       | Ok InProgress => MDone owner (Err IdempotencyInProgress)
       | Ok Mismatch => MDone owner (Err IdempotencyMismatch)
       | Ok Claimed => MExecute request subject key
       end, c, x, None)
  | MExecute request subject key =>
      let owner := owner_of subject key in
      let '(done, x) := ex_execute (call_of request subject (Some key)) x in
      match done with
      | Ok body => (MComplete owner body, c, x, Some (owner, body))
      | Err error => (MRelease owner error, c, x, None)
      end
  | MComplete owner body =>
      let '(r, c) := ai_complete owner.1 owner.2 body c in
      (MDone owner (match r with Ok _ => Ok (success body) | Err _ => Err idempotency_down end), c, x, None)
  | MRelease owner error =>
      let '(_, c) := ai_release owner.1 owner.2 c in (MDone owner (Err (ActionUnavailable error)), c, x, None)
  | MDone _ _ | MCrashed => (h, c, x, None)
  end.

(** Three calls answer. *)
Definition finish_mutation (h : Mutation) (c : C) (x : X) : Mutation * C * X :=
  let '(h, c, x, _) := mutation_step h c x in
  let '(h, c, x, _) := mutation_step h c x in
  let '(h, c, x, _) := mutation_step h c x in (h, c, x).

(** A handler on its own is [execute_mutation]. *)
Lemma mutation_alone {I D G A} (request : PublicActionRequest) (subject : Subject) (key : str)
    (w : @World I D G A C X) :
  let '(h, c, x) := finish_mutation (MClaim request subject key) (aw_claims w) (aw_effects w) in
  let '(answer, w') := execute_mutation request subject key w in
  h = MDone (owner_of subject key) answer ∧ aw_claims w' = c ∧ aw_effects w' = x.
Proof.
  unfold finish_mutation, execute_mutation. cbn [mutation_step owner_of fst snd].
  destruct (ai_claim _ key _ (aw_claims w)) as [[[]|] c1]; cbn [mutation_step]; try done.
  destruct (ex_execute _ (aw_effects w)) as [[body|error] x1] eqn:Ex; cbn [aw_effects with_claims]; rewrite Ex; cbn [mutation_step owner_of fst snd aw_claims with_effects with_claims].
  - by destruct (ai_complete _ key body c1) as [r2 c2].
  - by destruct (ai_release _ key c1) as [r2 c2].
Qed.

(** Mutations arrive, make their calls in any order, and crash between two of them; whatever else the
    executor serves may change its world.  The log holds the executions that succeeded. *)
Notation State := (C * X * list ((str * str) * list u8) * list Mutation)%type.
Inductive mutations_step : relation State :=
| mutation_arrives c x log hs request subject key :
    mutations_step (c, x, log, hs) (c, x, log, hs ++ [MClaim request subject key])
| mutation_calls c x log hs i h h' c' x' done :
    hs !! i = Some h → mutation_step h c x = (h', c', x', done) →
    mutations_step (c, x, log, hs) (c', x', log ++ from_option (λ d, [d]) [] done, <[i := h']> hs)
| mutation_crashes c x log hs i : mutations_step (c, x, log, hs) (c, x, log, <[i := MCrashed]> hs)
| mutation_others c x x' log hs : mutations_step (c, x, log, hs) (c, x', log, hs).

(** The handler owns the claim of its key. *)
Definition holds (h : Mutation) (p : str * str) : Prop :=
  match h with
  | MExecute _ subject key => owner_of subject key = p
  | MComplete owner _ | MRelease owner _ => owner = p
  | _ => False
  end.

End mutations.

(** ** A mutation runs once *)

(** The executions under one key. *)
Definition bodies (p : str * str) (log : list ((str * str) * list u8)) : list (list u8) := (filter (λ e, e.1 = p) log).*2.

Lemma bodies_app p log log' : bodies p (log ++ log') = bodies p log ++ bodies p log'.
Proof. unfold bodies. by rewrite filter_app, fmap_app. Qed.
Lemma bodies_one p q b : bodies p [(q, b)] = if decide (q = p) then [b] else [].
Proof.
  unfold bodies. case_decide; [by rewrite filter_cons_True|by rewrite filter_cons_False].
Qed.

Section once.
Context `{UuidText}.

(** The claim of a key fits the executions under it. *)
Definition row_ok (row : option (list u8 * option (list u8))) (l : list (list u8)) : Prop :=
  match row, l with
  | None, [] | Some (_, None), [] | Some (_, None), [_] => True
  | Some (_, Some body), [body'] => body = body'
  | _, _ => False
  end.

(** The claim of a key, the executions under it and the handlers that are about it. *)
Record once_at (p : str * str) (row : option (list u8 * option (list u8))) (l : list (list u8)) (hs : list Mutation) : Prop := {
  oa_row : row_ok row l;
  oa_holder i h : hs !! i = Some h → holds h p →
    (∃ digest, row = Some (digest, None)) ∧ match h with MComplete _ body => l = [body] | _ => l = [] end;
  oa_one i j h h' : hs !! i = Some h → hs !! j = Some h' → holds h p → holds h' p → i = j;
  oa_answer i response : hs !! i = Some (MDone p (Ok response)) → resp_body response ∈ l;
}.

(** A handler that neither holds the key nor answers under it leaves everything as it is. *)
Lemma once_at_other p row l hs i h' :
  once_at p row l hs → ¬ holds h' p → (∀ response, h' ≠ MDone p (Ok response)) → once_at p row l (<[i := h']> hs).
Proof.
  intros [O1 O2 O3 O4] Hh Ha. constructor; [done|..].
  - intros j x [(<- & <- & _)|[_ Hj]]%list_lookup_insert_Some Hx; [done|by eapply O2].
  - intros j k x y [(<- & <- & _)|[_ Hj]]%list_lookup_insert_Some [(<- & <- & _)|[_ Hk]]%list_lookup_insert_Some Hx Hy; try done. by eapply O3.
  - intros j response [(<- & -> & _)|[_ Hj]]%list_lookup_insert_Some; [by destruct (Ha response)|by eapply O4].
Qed.
Lemma once_at_arrival p row l hs h : once_at p row l hs → ¬ holds h p → (∀ response, h ≠ MDone p (Ok response)) → once_at p row l (hs ++ [h]).
Proof.
  intros [O1 O2 O3 O4] Hh Ha.
  assert (∀ j x, (hs ++ [h]) !! j = Some x → hs !! j = Some x ∨ x = h) as Hback.
  { intros j x [Hj|(_ & Hj)]%lookup_app_Some; [by left|]. right. by apply list_lookup_singleton_Some in Hj as [_ ->]. }
  constructor; [done|..].
  - intros j x [Hj| ->]%Hback Hx; [by eapply O2|done].
  - intros j k x y [Hj| ->]%Hback [Hk| ->]%Hback Hx Hy; try done. by eapply O3.
  - intros j response [Hj|E]%Hback; [by eapply O4|by destruct (Ha response)].
Qed.
(** The one handler of a key moves on. *)
Lemma once_at_mine p row l hs row' l' i h' :
  once_at p row l hs → (∀ j x, i ≠ j → hs !! j = Some x → ¬ holds x p) → (∀ body, body ∈ l → body ∈ l') →
  row_ok row' l' →
  (holds h' p → (∃ digest, row' = Some (digest, None)) ∧ match h' with MComplete _ body => l' = [body] | _ => l' = [] end) →
  (∀ response, h' = MDone p (Ok response) → resp_body response ∈ l') → once_at p row' l' (<[i := h']> hs).
Proof.
  intros [O1 O2 O3 O4] Hno Hl Hrow Hh Ha. constructor; [done|..].
  - intros j x [(<- & <- & _)|[Hne Hj]]%list_lookup_insert_Some Hx; [by apply Hh|]. by destruct (Hno j x).
  - intros j k x y [(<- & <- & _)|[Hne Hj]]%list_lookup_insert_Some [(<- & <- & _)|[Hne' Hk]]%list_lookup_insert_Some Hx Hy; try done;
      [by destruct (Hno k y)|by destruct (Hno j x)|by destruct (Hno j x)].
  - intros j response [(<- & -> & _)|[_ Hj]]%list_lookup_insert_Some; [by apply Ha|]. eapply Hl, O4, Hj.
Qed.
Lemma once_at_free p l hs j x : once_at p None l hs → hs !! j = Some x → ¬ holds x p.
Proof. intros O Hj Hx. by destruct (oa_holder _ _ _ _ O j x Hj Hx) as [[d ?] _]. Qed.

End once.

Section mutation_safety.
Context `{UuidText, IdentityVerifier} {C X : Type} `{IdempotencySpec C, ActionExecutor X}.
Notation State := (C * X * list ((str * str) * list u8) * list Mutation)%type.

(** The handler that moves neither holds the key nor answers under it. *)
Ltac idle := apply once_at_other; [assumption|first [assumption | intros []]|intros ? [=]].

Definition runs_once (s : State) : Prop :=
  let '(c, x, log, hs) := s in ∀ p, once_at p (claims_of c !! p) (bodies p log) hs.

Lemma claim_once p c x log hs i request subject key h' c' x' done :
  once_at p (claims_of c !! p) (bodies p log) hs → hs !! i = Some (MClaim request subject key) → mutation_step (MClaim request subject key) c x = (h', c', x', done) →
  once_at p (claims_of c' !! p) (bodies p (log ++ from_option (λ d, [d]) [] done)) (<[i := h']> hs).
Proof.
  intros R Hi Hstep. rewrite bodies_app. cbn [mutation_step] in Hstep.
  destruct (ai_claim _ _ _ c) as [claim c1] eqn:Ec. apply spec_claim in Ec. cbn [owner_of fst snd] in Ec.
  injection Hstep as <- <- <- <-. cbn [from_option]. rewrite app_nil_r.
  destruct (decide (owner_of subject key = p)) as [Hp|Hp].
  + destruct claim as [[| |response|]|e].
    * destruct Ec as [Hn ->]. unfold owner_of in Hp. subst p. rewrite lookup_insert_eq. rewrite Hn in R.
      pose proof (oa_row _ _ _ _ R) as Hrow. destruct (bodies _ log) eqn:Hb; [|done].
      eapply once_at_mine; [exact R|intros j y _; by eapply once_at_free|done|done| |done]. intros _. split; [by eexists|done].
    * rewrite Ec. idle.
    * destruct Ec as [Hrow ->]. unfold owner_of in Hp. subst p. rewrite Hrow in R |- *.
      pose proof (oa_row _ _ _ _ R) as Hr. destruct (bodies _ log) as [|b [|]] eqn:Hb; [done| |done]. cbn in Hr. subst b.
      eapply once_at_mine; [exact R| |done|done|done|intros r [= <-]; cbn; by left].
      intros j y _ Hj Hy. by destruct (oa_holder _ _ _ _ R j y Hj Hy) as [[d ?] _].
    * rewrite Ec. idle.
    * destruct Ec as [->|[Hn ->]]; [idle|]. unfold owner_of in Hp. subst p. rewrite lookup_insert_eq. rewrite Hn in R.
      pose proof (oa_row _ _ _ _ R) as Hrow. destruct (bodies _ log) eqn:Hb; [|done].
      eapply once_at_mine; [exact R|intros j y _; by eapply once_at_free|done..].
  + assert (claims_of c1 !! p = claims_of c !! p) as ->.
    { destruct claim as [[| |response|]|e]; [destruct Ec as [_ ->]|by rewrite Ec|by destruct Ec as [_ ->]|by rewrite Ec|destruct Ec as [->|[_ ->]]; [done|]];
        (rewrite lookup_insert_ne; [done|exact Hp]). }
    destruct claim as [[| |response|]|e]; (apply once_at_other; [exact R|first [exact Hp|intros []]|]);
      [intros ? [=]|intros ? [=]|intros r E; injection E as E _; by destruct (Hp E)|intros ? [=]|intros ? [=]].
Qed.
Lemma execute_once p c x log hs i request subject key h' c' x' done :
  once_at p (claims_of c !! p) (bodies p log) hs → hs !! i = Some (MExecute request subject key) → mutation_step (MExecute request subject key) c x = (h', c', x', done) →
  once_at p (claims_of c' !! p) (bodies p (log ++ from_option (λ d, [d]) [] done)) (<[i := h']> hs).
Proof.
  intros R Hi Hstep. rewrite bodies_app. cbn [mutation_step] in Hstep.
  destruct (ex_execute _ x) as [[body|error] x1]; injection Hstep as <- <- <- <-; cbn [from_option].
  + rewrite bodies_one. case_decide as Hp.
    * destruct (oa_holder _ _ _ _ R i _ Hi Hp) as [[d Hrow] Hl]. rewrite Hrow, Hl in *. cbn [app].
      eapply once_at_mine; [exact R| |by intros b ?%not_elem_of_nil|done| |done].
      -- intros j y Hne Hj Hy. apply Hne. by eapply (oa_one _ _ _ _ R).
      -- intros _. split; [by eexists|done].
    * rewrite app_nil_r. idle.
  + rewrite app_nil_r. destruct (decide (owner_of subject key = p)) as [Hp|Hp]; [|idle].
    destruct (oa_holder _ _ _ _ R i _ Hi Hp) as [[d Hrow] Hl]. rewrite Hrow, Hl in *.
    eapply once_at_mine; [exact R| |done|done| |done].
    * intros j y Hne Hj Hy. apply Hne. by eapply (oa_one _ _ _ _ R).
    * intros _. split; [by eexists|done].
Qed.
Lemma complete_once p c x log hs i owner body h' c' x' done :
  once_at p (claims_of c !! p) (bodies p log) hs → hs !! i = Some (MComplete owner body) → mutation_step (MComplete owner body) c x = (h', c', x', done) →
  once_at p (claims_of c' !! p) (bodies p (log ++ from_option (λ d, [d]) [] done)) (<[i := h']> hs).
Proof.
  intros R Hi Hstep. rewrite bodies_app. cbn [mutation_step] in Hstep.
  destruct (ai_complete _ _ body c) as [r c1] eqn:Ec. apply spec_complete in Ec. injection Hstep as <- <- <- <-. cbn [from_option]. rewrite app_nil_r.
  destruct owner as [o k]. cbn [fst snd] in Ec. destruct (decide ((o, k) = p)) as [Hp|Hp].
  + subst p. destruct (oa_holder _ _ _ _ R i _ Hi eq_refl) as [[d Hrow] Hl].
    assert (∃ q, claims_of c1 !! (o, k) = Some (d, q) ∧ (q = None ∨ q = Some body)) as (q & -> & Hq).
    { destruct Ec as [->|(row & Hr & ->)]; [exists None; by split; [|left]|]. rewrite Hrow in Hr. injection Hr as <-.
      rewrite lookup_insert_eq. exists (Some body). by split; [|right]. }
    rewrite Hl in R |- *. eapply once_at_mine; [exact R| |done|by destruct Hq as [->| ->]|done|].
    * intros j y Hne Hj Hy. apply Hne. by eapply (oa_one _ _ _ _ R).
    * intros response. destruct r; [intros [= <-]; cbn; by left|done].
  + assert (claims_of c1 !! p = claims_of c !! p) as ->.
    { destruct Ec as [->|(row & Hr & ->)]; [done|]. by rewrite lookup_insert_ne. }
    apply once_at_other; [exact R|intros []|]. intros response E. injection E as E _. by destruct (Hp E).
Qed.
Lemma release_once p c x log hs i owner error h' c' x' done :
  once_at p (claims_of c !! p) (bodies p log) hs → hs !! i = Some (MRelease owner error) → mutation_step (MRelease owner error) c x = (h', c', x', done) →
  once_at p (claims_of c' !! p) (bodies p (log ++ from_option (λ d, [d]) [] done)) (<[i := h']> hs).
Proof.
  intros R Hi Hstep. rewrite bodies_app. cbn [mutation_step] in Hstep.
  destruct (ai_release _ _ c) as [r c1] eqn:Ec. apply spec_release in Ec. injection Hstep as <- <- <- <-. cbn [from_option]. rewrite app_nil_r.
  destruct owner as [o k]. cbn [fst snd] in Ec. destruct (decide ((o, k) = p)) as [Hp|Hp].
  + subst p. destruct (oa_holder _ _ _ _ R i _ Hi eq_refl) as [[d Hrow] Hl]. rewrite Hl in *.
    eapply once_at_mine; [exact R| |done| |done|done].
    * intros j y Hne Hj Hy. apply Hne. by eapply (oa_one _ _ _ _ R).
    * destruct Ec as [->|(d' & _ & ->)]; [by rewrite Hrow|by rewrite lookup_delete_eq].
  + assert (claims_of c1 !! p = claims_of c !! p) as ->.
    { destruct Ec as [->|(d' & _ & ->)]; [done|]. by rewrite lookup_delete_ne. }
    idle.
Qed.

Lemma call_runs_once c x log hs i h h' c' x' done :
  runs_once (c, x, log, hs) → hs !! i = Some h → mutation_step h c x = (h', c', x', done) →
  runs_once (c', x', log ++ from_option (λ d, [d]) [] done, <[i := h']> hs).
Proof.
  intros R Hi Hstep p. specialize (R p).
  destruct h; [by eapply claim_once|by eapply execute_once|by eapply complete_once|by eapply release_once|..];
    (cbn [mutation_step] in Hstep; injection Hstep as <- <- <- <-; cbn [from_option]; rewrite app_nil_r; by rewrite list_insert_id).
Qed.

Lemma step_runs_once s s' : mutations_step s s' → runs_once s → runs_once s'.
Proof.
  intros [c x log hs request subject key|c x log hs i h h' c' x' done Hi Hs|c x log hs i|c x x' log hs] R.
  - intros p. apply once_at_arrival; [apply R|intros []|intros ? [=]].
  - by eapply call_runs_once.
  - intros p. specialize (R p). idle.
  - exact R.
Qed.

(** C5. A mutation runs once under its key.  Whatever mutations arrive and however their calls
    interleave, fail with or without effect, and crash: under one subject's idempotency key at most
    one execution ever succeeds, and everyone who is answered a response under that key is answered
    the response of that execution. *)
Theorem mutations_run_once (c0 : C) (x0 : X) c x log hs :
  claims_of c0 = ∅ → rtc mutations_step (c0, x0, [], []) (c, x, log, hs) →
  ∀ p, (length (bodies p log) ≤ 1)%nat
    ∧ ∀ i response, hs !! i = Some (MDone p (Ok response)) → bodies p log = [resp_body response].
Proof.
  intros Hc Hrun p. assert (runs_once (c, x, log, hs)) as R.
  { assert (∀ s s', rtc mutations_step s s' → runs_once s → runs_once s') as Hall.
    { induction 1 as [|a b d Hab _ IH]; [done|]. intros Ha. by eapply IH, step_runs_once. }
    eapply Hall; [exact Hrun|]. intros q. rewrite Hc, lookup_empty. constructor; by try apply not_elem_of_nil. }
  specialize (R p). pose proof (oa_row _ _ _ _ R) as Hrow.
  assert (bodies p log = [] ∨ ∃ b, bodies p log = [b]) as Hb.
  { destruct (claims_of c !! p) as [[d [b|]]|], (bodies p log) as [|b' [|]]; try done; [right|left|right|left]; try done; by eexists. }
  split; [destruct Hb as [->|[b ->]]; cbn; lia|]. intros i response Hi. pose proof (oa_answer _ _ _ _ R i response Hi) as Hin.
  destruct Hb as [E|[b E]]; rewrite E in Hin |- *; [by apply not_elem_of_nil in Hin|]. apply list_elem_of_singleton in Hin. by subst.
Qed.

End mutation_safety.

(** ** The store of claims *)

(** One row per subject and key ([aseman-capsule/src/auto.rs]), a call of the store at a time. *)
Record ClaimDb := { cm_claims : Claims; cm_failure : option PortError }.

Definition claims_claim (owner key : str) (digest : list u8) (db : ClaimDb) : PortResult ActionClaim * ClaimDb :=
  match cm_failure db with
  | Some error => (Err error, db)
  | None =>
      match cm_claims db !! (owner, key) with
      | None => (Ok Claimed, {| cm_claims := <[(owner, key) := (digest, None)]> (cm_claims db); cm_failure := None |})
      | Some (stored, response) =>
          (Ok (if negb (bool_decide (stored = digest)) then Mismatch
               else match response with Some response => Completed response | None => InProgress end), db)
      end
  end.
Definition claims_complete (owner key : str) (response : list u8) (db : ClaimDb) : PortResult unit * ClaimDb :=
  match cm_failure db with
  | Some error => (Err error, db)
  | None =>
      match cm_claims db !! (owner, key) with
      | None => (Err PNotFound, db)
      | Some (digest, _) => (Ok tt, {| cm_claims := <[(owner, key) := (digest, Some response)]> (cm_claims db); cm_failure := None |})
      end
  end.
Definition claims_release (owner key : str) (db : ClaimDb) : PortResult unit * ClaimDb :=
  match cm_failure db with
  | Some error => (Err error, db)
  | None =>
      match cm_claims db !! (owner, key) with
      | Some (_, None) => (Ok tt, {| cm_claims := delete (owner, key) (cm_claims db); cm_failure := None |})
      | _ => (Ok tt, db)
      end
  end.

#[export] Instance claim_store : ActionIdempotency ClaimDb :=
  {| ai_claim := claims_claim; ai_complete := claims_complete; ai_release := claims_release |}.
#[export] Program Instance claim_spec : IdempotencySpec ClaimDb := {| claims_of := cm_claims |}.
Next Obligation.
  intros owner key digest db r db'. cbn. unfold claims_claim. destruct (cm_failure db); [intros [= <- <-]; by left|].
  destruct (cm_claims db !! (owner, key)) as [[stored response]|] eqn:E; [|by intros [= <- <-]]. intros [= <- <-].
  case_bool_decide as Hd; cbn [negb]; [subst stored|done]. by destruct response.
Qed.
Next Obligation.
  intros owner key response db r db'. cbn. unfold claims_complete. destruct (cm_failure db); [intros [= <- <-]; by left|].
  destruct (cm_claims db !! (owner, key)) as [[digest old]|] eqn:E; intros [= <- <-]; [right; by exists (digest, old)|by left].
Qed.
Next Obligation.
  intros owner key db r db'. cbn. unfold claims_release. destruct (cm_failure db); [intros [= <- <-]; by left|].
  destruct (cm_claims db !! (owner, key)) as [[digest [old|]]|] eqn:E; intros [= <- <-]; [by left|right; by exists digest|by left].
Qed.

(** ** At work *)

Module ActionUse.
Export ProofUse HexUuid.
#[export] Existing Instance HexUuid.hex_uuid_text.

(** An executor that keeps the bodies it ran, and refuses an empty one. *)
#[export] Instance sample_executor : ActionExecutor (list (list u8)) := {|
  ex_resolve _ _ _ _ := Ok ({| rr_kind := lit "store"; rr_id := lit "s1" |}, ∅);
  ex_execute call x := match call_body call with [] => (Err (PDenied []), x) | body => (Ok [Z.of_nat (length x)], x ++ [body]) end;
|}.
#[export] Instance sample_sessions : SessionDirectory (gmap str Subject) := λ token d, Ok (d !! token).
#[export] Instance sample_audit : DecisionAudit (list AuditRecord) := λ record a, (Ok (Z.of_nat (length a) + 1), a ++ [record]).

Definition no_claims : ClaimDb := {| cm_claims := ∅; cm_failure := None |}.
Definition ask (class : ActionClass) (key : option str) : PublicActionRequest :=
  {| par_request_id := lit "r1"; par_route := lit "stores.read"; par_action := lit "store.read"; par_class := class;
     par_authentication := Session (lit "t"); par_idempotency_key := key; par_body := [5] |}.

(** Mutations take turns; a turn past the end is an arrival. *)
Fixpoint taking_turns (turns : list nat) (request : PublicActionRequest) (subject : Subject) (key : str)
    (s : ClaimDb * list (list u8) * list ((str * str) * list u8) * list Mutation) :=
  match turns with
  | [] => s
  | i :: turns =>
      let '(c, x, log, hs) := s in
      taking_turns turns request subject key
        match hs !! i with
        | None => (c, x, log, hs ++ [MClaim request subject key])
        | Some h =>
            let '(h', c', x', done) := mutation_step h c x in (c', x', log ++ from_option (λ d, [d]) [] done, <[i := h']> hs)
        end
  end.
Lemma turns_reach turns request subject key s : rtc mutations_step s (taking_turns turns request subject key s).
Proof.
  revert s. induction turns as [|i turns IH]; intros [[[c x] log] hs]; [apply rtc_refl|]. cbn [taking_turns].
  eapply rtc_l; [|apply IH]. destruct (hs !! i) as [h|] eqn:Hi; [|apply mutation_arrives].
  destruct (mutation_step h c x) as [[[h' c'] x'] done] eqn:Hs. by eapply mutation_calls.
Qed.

(** The second finds the first in progress, the third its response. *)
Definition three : list nat := [0; 1; 0; 1; 0; 0; 2; 2]%nat.
Definition after_three := taking_turns three (ask ClassWrite None) (node 2) (lit "k") (no_claims, [], [], []).
Definition key_two : str * str := owner_of (node 2) (lit "k").
Example three_mutations :
  after_three.2 = [MDone key_two (Ok (success [0])); MDone key_two (Err IdempotencyInProgress); MDone key_two (Ok (success [0]))]
  ∧ after_three.1.1.2 = [[5]].
Proof. vm_compute. done. Qed.

Lemma after_three_reached : rtc mutations_step (no_claims, [], [], []) (after_three.1.1.1, after_three.1.1.2, after_three.1.2, after_three.2).
Proof. exact (turns_reach three (ask ClassWrite None) (node 2) (lit "k") (no_claims, [], [], [])). Qed.

Lemma mutations_run_once_witness : bodies key_two after_three.1.2 = [[0]].
Proof.
  exact (proj2 (@mutations_run_once _ _ ClaimDb _ _ claim_spec _ no_claims [] after_three.1.1.1 after_three.1.1.2 after_three.1.2 after_three.2
    eq_refl after_three_reached key_two) 2%nat (success [0]) ltac:(vm_compute; reflexivity)).
Defined.

Definition allow_all : PolicyRequest → PortResult PolicyDecision := λ request,
  Ok {| pd_allowed := is_some (pr_subject request); pd_reason := Allowed; pd_matched := Some Authenticated; pd_considered := [];
        pd_grant_chain := []; pd_registry_version := lit "1"; pd_policy_version := lit "1" |}.
Definition world : @World IdentityDb (gmap str Subject) GrantDb (list AuditRecord) ClaimDb (list (list u8)) :=
  {| aw_identity := keyed; aw_sessions := {[lit "t" := node 2]}; aw_grants := GrantUse.empty; aw_audit := []; aw_claims := no_claims; aw_effects := [] |}.
Definition answered := serve_public_action allow_all sample_policy (λ n, Z.of_nat n) (ask ClassWrite (Some (lit "k"))) world.
Lemma answered_done : serve_public_action allow_all sample_policy (λ n, Z.of_nat n) (ask ClassWrite (Some (lit "k"))) world = (answered.1, answered.2).
Proof. unfold answered. by destruct (serve_public_action _ _ _ _ _). Qed.

Lemma effects_are_permitted_witness :
  answered.1 = Ok (success [0]) ∧ aw_effects answered.2 = [[5]]
  ∧ ∃ subject call, permitted allow_all sample_policy (λ n, Z.of_nat n) (ask ClassWrite (Some (lit "k"))) world answered.2 subject call.
Proof.
  split; [vm_compute; reflexivity|]. split; [vm_compute; reflexivity|].
  destruct (effects_are_permitted allow_all sample_policy (λ n, Z.of_nat n) (ask ClassWrite (Some (lit "k"))) world answered.1 answered.2
    answered_done) as [E|H].
  - vm_compute in E. discriminate E.
  - exact H.
Defined.

End ActionUse.
