(* ===== verification/GuestData.v ===== *)
(** Guest data on the node's own storage: [crates/aseman-capsule/src/guest_kv.rs], with the record
    layout of JSON documents from [crates/aseman-contracts/src/documents.rs].

    One table holds the pairs of every creature, under keys that begin with the creature.  A call is
    one transaction.  The theorem: creatures do not notice each other.  Whatever the creatures of a
    node do, in any order, each gets the answers and ends with the pairs it would have had with a
    database of its own. *)

From S2P Require Import Prelude Text Core BTree Json Values Ports Records AutoCommit.

Open Scope Z_scope.

(** [serde_json::from_str] and [Value::to_string]. *)
Class JsonText := { json_from_str : str → option value; json_to_string : value → str }.

(** ** The records of a document *)

Section documents.
Context `{JsonText} (merge : bool) (stored : str → option Map).

(** [index_json_into]; the members of an object are in key order. *)
Fixpoint index_json_into (object : value) (path : str) : list (str * str) :=
  match object with
  | Object members =>
      let merged := merge_objects (if merge then default [] (stored path) else []) members in
      (path, json_to_string (Object merged)) ::
        (fix children (members : Map) : list (str * str) :=
           match members with
           | [] => []
           | (member, child) :: members =>
               let at_child := path ++ lit "." ++ member in
               match child with
               | Null => []
               | Object _ => index_json_into child at_child
               | leaf => [(at_child, json_to_string leaf)]
               end ++ children members
           end) members
  | _ => []
  end.
Definition json_index_writes (path : str) (object : Map) : list (str * str) := index_json_into (Object object) path.
End documents.

(** ** The pairs of one creature *)

Record GuestPair := { gp_owner_ref : str; gp_namespace : str; gp_name : str; gp_value : str }.
Notation Table := (gmap str GuestPair).
Definition with_value (row : GuestPair) (value : str) : GuestPair :=
  {| gp_owner_ref := gp_owner_ref row; gp_namespace := gp_namespace row; gp_name := gp_name row; gp_value := value |}.

(** [order_by(name().asc())]. *)
Definition name_le (p q : str * GuestPair) : Prop := str_le (gp_name p.2) (gp_name q.2).
#[export] Instance name_le_dec : RelDecision name_le.
Proof. intros p q. unfold name_le. apply _. Defined.

Section pairs.
Context `{JsonText} (owner : str).

Definition pair_key (namespace : LegacyKvNamespace) (name : str) : str :=
  owner ++ lit "::" ++ LegacyKvNamespace_as_str namespace ++ lit "::" ++ name.

Definition pairs_get (namespace : LegacyKvNamespace) (name : str) (t : Table) : option str := gp_value <$> t !! pair_key namespace name.

Definition pairs_put (namespace : LegacyKvNamespace) (name value : str) (t : Table) : Table :=
  let key := pair_key namespace name in
  <[key := match t !! key with
           | Some row => with_value row value
           | None => {| gp_owner_ref := owner; gp_namespace := LegacyKvNamespace_as_str namespace; gp_name := name; gp_value := value |}
           end]> t.

Definition pairs_delete (namespace : LegacyKvNamespace) (name : str) (t : Table) : bool * Table :=
  (is_some (t !! pair_key namespace name), delete (pair_key namespace name) t).

Definition listed (namespace : LegacyKvNamespace) (prefix : str) (row : str * GuestPair) : Prop :=
  gp_owner_ref row.2 = owner ∧ gp_namespace row.2 = LegacyKvNamespace_as_str namespace ∧ prefix `prefix_of` gp_name row.2.
#[export] Instance listed_dec namespace prefix row : Decision (listed namespace prefix row).
Proof. unfold listed. apply _. Defined.
Definition pairs_list (namespace : LegacyKvNamespace) (prefix : str) (limit : option u32) (t : Table) : list (str * str) :=
  let rows := merge_sort name_le (filter (listed namespace prefix) (map_to_list t)) in
  (λ row, (gp_name row.2, gp_value row.2)) <$> match limit with Some limit => take (Z.to_nat limit) rows | None => first_rows rows end.

Definition object_of (text : str) : option Map := match json_from_str text with Some (Object object) => Some object | _ => None end.
Definition pairs_document (record : str) (t : Table) : option Map := pairs_get NsJson record t ≫= object_of.

(** What the names of a document begin with, and its record at a path. *)
Definition document_prefix (key : str) : str := key ++ lit "::".
Definition document_record (key path : str) : str := key ++ lit "::" ++ path.

(** [Pairs::execute]. *)
Definition put_json (key path : str) (object : Map) (merge : bool) (t : Table) : Table :=
  let snapshot := omap (λ pair, (pair.1,.) <$> object_of pair.2) (pairs_list NsJson (document_record key path) None t) in
  let recorded record := jget (document_record key record) snapshot in
  foldl (λ t write, pairs_put NsJson (document_record key write.1) write.2 t) t (json_index_writes merge recorded path object).
Definition delete_json (key path : str) (t : Table) : Table :=
  let '(exact, below) :=
    if is_empty path then ([], document_prefix key)
    else ([document_record key path], document_record key path ++ lit ".") in
  let records := (pairs_list NsJson below None t).*1 ++ exact in
  foldl (λ t record, (pairs_delete NsJson record t).2) t records.

Definition pairs_execute (operation : GuestKvOperation) (t : Table) : StorageResult GuestKvOutcome * Table :=
  match operation with
  | KvGet namespace key => (Ok (KvValue (pairs_get namespace key t)), t)
  | KvPut namespace key value => (Ok KvWritten, pairs_put namespace key value t)
  | KvDelete namespace key => let '(existed, t) := pairs_delete namespace key t in (Ok (KvDeleted existed), t)
  | KvList namespace prefix limit => (Ok (KvListed (pairs_list namespace prefix (Some limit) t)), t)
  | KvPutJson key path data merge =>
      match object_of data with
      | None => (Err (SInvalid (lit "putJson expects an object at the root")), t)
      | Some object => (Ok KvWritten, put_json key path object merge t)
      end
  | KvGetJson key path =>
      (Ok (KvDocument (match pairs_document (document_record key path) t with
                       | Some object => json_to_string (Object object)
                       | None => lit "{}"
                       end)), t)
  | KvDeleteJson key path => (Ok (KvDeleted true), delete_json key path t)
  | KvListJson prefix limit => (Ok (KvKeys (pairs_list NsJson prefix (Some limit) t).*1), t)
  end.
End pairs.

Section service.
Context `{UuidText, JsonText}.

(** The error translation of [execute_for]. *)
Definition guest_error (e : StorageError) : PortError :=
  match e with SConflict _ => PConflict | other => PFailed (storage_error_text other) end.

Definition execute_for (creature : Uuid) (operation : GuestKvOperation) (t : Table) : PortResult GuestKvOutcome * Table :=
  if negb (GuestKvOperation_is_valid operation) then (Err (PFailed (lit "the operation exceeds the guest limits")), t)
  else match pairs_execute (uuid_text creature) operation t with
  | (Ok outcome, t) => (Ok outcome, t)
  | (Err e, _) => (Err (guest_error e), t)
  end.

(** [GuestKv::execute]: the pairs are those of the creature that the binding names. *)
Definition StorageGuestKv_execute (binding : CreatureDatabaseBinding) : GuestKvOperation → Table → PortResult GuestKvOutcome * Table :=
  execute_for (binding_creature_id binding).

(** Any creatures' operations, one after another, with the answer to each. *)
Fixpoint run_guests (operations : list (Uuid * GuestKvOperation)) (t : Table) : list (Uuid * PortResult GuestKvOutcome) * Table :=
  match operations with
  | [] => ([], t)
  | (creature, operation) :: operations =>
      let '(answer, t) := execute_for creature operation t in
      let '(answers, t) := run_guests operations t in ((creature, answer) :: answers, t)
  end.
End service.

(** ** Isolation *)

(** The key of a row is made of its columns, of which the owner holds no colon. *)
Definition tidy (t : Table) : Prop := map_Forall (λ key row,
  chr ":" ∉ gp_owner_ref row ∧ ∃ namespace, gp_namespace row = LegacyKvNamespace_as_str namespace ∧ key = pair_key (gp_owner_ref row) namespace (gp_name row)) t.
Definition pairs_of (owner : str) (t : Table) : Table := filter (λ row, gp_owner_ref row.2 = owner) t.

Section isolation.
Context `{JsonText}.
Implicit Types (t : Table) (owner : str).

Lemma pair_key_inj owner owner' namespace namespace' name name' :
  chr ":" ∉ owner → chr ":" ∉ owner' → pair_key owner namespace name = pair_key owner' namespace' name' →
  owner = owner' ∧ namespace = namespace' ∧ name = name'.
Proof.
  intros Ho Ho'. unfold pair_key. cbn [lit]. intros E. apply (sep_inj (chr ":") owner _ owner') in E as [<- E]; [|done..].
  injection E as E. split; [done|].
  apply (sep_inj (chr ":") (LegacyKvNamespace_as_str namespace) _ (LegacyKvNamespace_as_str namespace')) in E as [En E].
  - injection E as E. split; [by destruct namespace, namespace'|done].
  - destruct namespace; vm_compute; set_solver.
  - destruct namespace'; vm_compute; set_solver.
Qed.

Lemma pairs_of_key owner namespace name t :
  tidy t → chr ":" ∉ owner → t !! pair_key owner namespace name = pairs_of owner t !! pair_key owner namespace name.
Proof.
  intros T Ho. unfold pairs_of. symmetry. destruct (t !! pair_key owner namespace name) as [row|] eqn:E.
  - apply map_lookup_filter_Some. split; [done|]. cbn. destruct (T _ _ E) as [Hr (ns & _ & Ek)]. by apply pair_key_inj in Ek as [<- _].
  - apply map_lookup_filter_None. by left.
Qed.

Lemma tidy_pairs owner t : tidy t → tidy (pairs_of owner t).
Proof. intros T k row [Hr _]%map_lookup_filter_Some. by apply T. Qed.

Lemma pairs_of_idem owner t : pairs_of owner (pairs_of owner t) = pairs_of owner t.
Proof. unfold pairs_of. rewrite map_filter_filter. apply map_filter_ext. naive_solver. Qed.

(** Writing a pair. *)
Lemma put_tidy owner namespace name value t : tidy t → chr ":" ∉ owner → tidy (pairs_put owner namespace name value t).
Proof.
  intros T Ho. unfold pairs_put. apply map_Forall_insert_2; [|done].
  destruct (t !! pair_key owner namespace name) as [row|] eqn:E; [by apply (T _ _ E)|]. split; [done|]. by exists namespace.
Qed.

Lemma put_mine owner namespace name value t : tidy t → chr ":" ∉ owner →
  pairs_of owner (pairs_put owner namespace name value t) = pairs_put owner namespace name value (pairs_of owner t).
Proof.
  intros T Ho. unfold pairs_put. rewrite <- (pairs_of_key owner namespace name t) by done. unfold pairs_of. apply map_filter_insert_True.
  destruct (t !! pair_key owner namespace name) as [row|] eqn:E; [|done]. cbn.
  destruct (T _ _ E) as [Hr (ns & _ & Ek)]. by apply pair_key_inj in Ek as [<- _].
Qed.

Lemma put_others owner other namespace name value t : tidy t → chr ":" ∉ owner → other ≠ owner →
  pairs_of other (pairs_put owner namespace name value t) = pairs_of other t.
Proof.
  intros T Ho Hne. unfold pairs_put, pairs_of. destruct (t !! pair_key owner namespace name) as [row|] eqn:E.
  - destruct (T _ _ E) as [Hr (ns & _ & Ek)]. apply pair_key_inj in Ek as [Eo _]; [|done..].
    apply map_filter_insert_not'; cbn; [congruence|]. intros y Hy. rewrite E in Hy. injection Hy as <-. cbn. congruence.
  - apply map_filter_insert_not'; cbn; [congruence|]. intros y Hy. congruence.
Qed.

(** Deleting a pair. *)
Lemma delete_mine owner namespace name t : tidy t → chr ":" ∉ owner →
  pairs_delete owner namespace name (pairs_of owner t) =
    ((pairs_delete owner namespace name t).1, pairs_of owner (pairs_delete owner namespace name t).2).
Proof.
  intros T Ho. unfold pairs_delete. rewrite <- pairs_of_key by done. f_equal. cbn. unfold pairs_of. by rewrite map_filter_delete.
Qed.

Lemma delete_others owner other namespace name t : tidy t → chr ":" ∉ owner → other ≠ owner →
  pairs_of other (pairs_delete owner namespace name t).2 = pairs_of other t.
Proof.
  intros T Ho Hne. unfold pairs_delete, pairs_of. cbn. rewrite map_filter_delete. apply delete_id.
  apply map_lookup_filter_None. destruct (t !! pair_key owner namespace name) as [row|] eqn:E; [right|by left].
  intros row' [= <-]. cbn. destruct (T _ _ E) as [Hr (ns & _ & Ek)]. apply pair_key_inj in Ek as [Eo _]; [|done..]. congruence.
Qed.

Lemma delete_tidy owner namespace name t : tidy t → tidy (pairs_delete owner namespace name t).2.
Proof. intros T. by apply map_Forall_delete. Qed.

(** Listing pairs: names of one creature and namespace are distinct, so the order is determined. *)
Lemma name_le_trans : Transitive name_le.
Proof. intros p q r. unfold name_le, str_le. apply str_leb_trans. Qed.
Lemma name_le_total : Total name_le.
Proof. intros p q. unfold name_le, str_le. destruct (str_leb (gp_name p.2) (gp_name q.2)) eqn:E; [by left|right]. by apply str_leb_total. Qed.

Lemma list_mine owner namespace prefix limit t : tidy t → chr ":" ∉ owner →
  pairs_list owner namespace prefix limit t = pairs_list owner namespace prefix limit (pairs_of owner t).
Proof.
  intros T Ho. unfold pairs_list.
  assert (merge_sort name_le (filter (listed owner namespace prefix) (map_to_list t)) =
          merge_sort name_le (filter (listed owner namespace prefix) (map_to_list (pairs_of owner t)))) as ->; [|done].
  pose proof name_le_trans. pose proof name_le_total.
  assert (filter (listed owner namespace prefix) (map_to_list t) ≡ₚ filter (listed owner namespace prefix) (map_to_list (pairs_of owner t))) as P.
  { apply NoDup_Permutation; [apply NoDup_filter, NoDup_map_to_list..|]. intros [k row].
    rewrite !list_elem_of_filter, !elem_of_map_to_list. unfold pairs_of. rewrite map_lookup_filter_Some. unfold listed. cbn. tauto. }
  apply (Sorted_unique_strong name_le); [|apply Sorted_merge_sort; apply _..|by rewrite !merge_sort_Permutation].
  intros [k1 r1] [k2 r2]. rewrite !merge_sort_Permutation, <- P, !list_elem_of_filter, !elem_of_map_to_list.
  unfold listed, name_le, str_le. cbn. intros [(O1 & N1 & _) E1] [(O2 & N2 & _) E2] L1 L2.
  pose proof (str_leb_antisym _ _ L1 L2) as En. destruct (T _ _ E1) as [_ (ns1 & M1 & K1)], (T _ _ E2) as [_ (ns2 & M2 & K2)].
  assert (ns1 = ns2) as <- by (rewrite N1 in M1; rewrite N2 in M2; rewrite M1 in M2; by destruct ns1, ns2).
  assert (k1 = k2) as <- by (rewrite K1, K2, O1, O2, En; done). congruence.
Qed.

(** A change of the table that only concerns the pairs of [owner]. *)
Definition local (owner : str) (f : Table → Table) : Prop := ∀ t, tidy t →
  tidy (f t) ∧ pairs_of owner (f t) = f (pairs_of owner t) ∧ ∀ other, other ≠ owner → pairs_of other (f t) = pairs_of other t.

Lemma put_local owner namespace name value : chr ":" ∉ owner → local owner (pairs_put owner namespace name value).
Proof. intros Ho t T. split_and!; [by apply put_tidy|by apply put_mine|intros; by apply put_others]. Qed.

Lemma delete_local owner namespace name : chr ":" ∉ owner → local owner (λ t, (pairs_delete owner namespace name t).2).
Proof.
  intros Ho t T. split_and!; [by apply delete_tidy| |intros; by apply delete_others]. by rewrite delete_mine.
Qed.

Lemma foldl_local {A} owner (f : Table → A → Table) l : (∀ a, local owner (λ t, f t a)) → local owner (λ t, foldl f t l).
Proof.
  intros Hf. induction l as [|a l IH]; intros t T; cbn [foldl]; [done|]. destruct (Hf a t T) as (T1 & M1 & O1).
  destruct (IH _ T1) as (T2 & M2 & O2). split_and!; [done|by rewrite M2, M1|]. intros other Hne. by rewrite O2, O1.
Qed.

Lemma execute_mine owner operation t : chr ":" ∉ owner → tidy t →
  let '(r, t') := pairs_execute owner operation t in
  pairs_execute owner operation (pairs_of owner t) = (r, pairs_of owner t') ∧ tidy t' ∧
  ∀ other, other ≠ owner → pairs_of other t' = pairs_of other t.
Proof.
  intros Ho T. destruct operation as [ns key|ns key value|ns key|ns prefix limit|key path data merge|key path|key path|prefix limit]; cbn [pairs_execute].
  - unfold pairs_get. by rewrite <- pairs_of_key.
  - destruct (put_local owner ns key value Ho t T) as (? & M & ?). by rewrite M.
  - rewrite delete_mine by done. destruct (delete_local owner ns key Ho t T) as (T' & _ & O).
    destruct (pairs_delete owner ns key t) as [existed t'] eqn:E. done.
  - by rewrite <- list_mine.
  - destruct (object_of data) as [object|]; [|done]. unfold put_json. rewrite <- list_mine by done.
    match goal with |- context [foldl ?f t ?l] => destruct (foldl_local owner f l (λ w, put_local owner _ _ _ Ho) t T) as (T' & M & O) end.
    by rewrite <- M.
  - unfold pairs_document, pairs_get. by rewrite <- pairs_of_key.
  - unfold delete_json. destruct (if is_empty path then _ else _) as [exact below]. rewrite <- list_mine by done.
    match goal with |- context [foldl ?f t ?l] => destruct (foldl_local owner f l (λ r, delete_local owner _ _ Ho) t T) as (T' & M & O) end.
    by rewrite <- M.
  - by rewrite <- list_mine.
Qed.
End isolation.

Section guests.
Context `{UuidTextLaws, JsonText}.

Lemma execute_for_mine creature operation t : tidy t →
  let '(r, t') := execute_for creature operation t in
  execute_for creature operation (pairs_of (uuid_text creature) t) = (r, pairs_of (uuid_text creature) t') ∧ tidy t' ∧
  ∀ other, other ≠ uuid_text creature → pairs_of other t' = pairs_of other t.
Proof.
  intros T. unfold execute_for. destruct (negb _); [done|].
  pose proof (execute_mine (uuid_text creature) operation t (uuid_text_no_colon _) T) as E.
  destruct (pairs_execute _ operation t) as [[r|e] t']; destruct E as (-> & ? & ?); done.
Qed.

Lemma run_guests_alone creature operations t :
  is_uuid creature → Forall (λ o, is_uuid o.1) operations → tidy t →
  let '(answers, t') := run_guests operations t in
  run_guests (filter (λ o, o.1 = creature) operations) (pairs_of (uuid_text creature) t) =
    (filter (λ a, a.1 = creature) answers, pairs_of (uuid_text creature) t') ∧ tidy t'.
Proof.
  intros Hc. revert t. induction operations as [|[c operation] operations IH]; intros t Hu T; [done|].
  apply Forall_cons in Hu as [Hu Hus]. cbn [run_guests]. pose proof (execute_for_mine c operation t T) as E.
  destruct (execute_for c operation t) as [answer t1]. destruct E as (E & T1 & O). specialize (IH t1 Hus T1).
  destruct (run_guests operations t1) as [answers t2]. destruct IH as [IH T2]. split; [|done].
  rewrite !filter_cons. cbn [fst]. destruct (decide (c = creature)) as [->|Hne].
  - cbn [run_guests]. by rewrite E, IH.
  - rewrite <- (O (uuid_text creature)); [exact IH|]. intros Et. apply uuid_text_inj in Et; [|done..]. cbn in *. congruence.
Qed.

(** C8. Guests do not notice each other.  Let any creatures of a node run any operations, in any
    order, over the one table of guest pairs.  The answers a creature gets, and the pairs it ends
    with, are those it would have had with a database of its own that only it uses. *)
Theorem guests_are_isolated (creature : Uuid) (operations : list (Uuid * GuestKvOperation)) :
  is_uuid creature → Forall (λ o, is_uuid o.1) operations →
  let '(answers, t) := run_guests operations ∅ in
  let '(alone, own) := run_guests (filter (λ o, o.1 = creature) operations) ∅ in
  filter (λ a, a.1 = creature) answers = alone ∧ pairs_of (uuid_text creature) t = own.
Proof.
  intros Hc Hu. assert (tidy ∅) as T by apply map_Forall_empty. pose proof (run_guests_alone creature operations ∅ Hc Hu T) as R.
  destruct (run_guests operations ∅) as [answers t]. destruct R as [R _].
  assert (pairs_of (uuid_text creature) (∅ : Table) = ∅) as E by apply map_filter_empty. rewrite E in R. by rewrite R.
Qed.
End guests.

(** ** At work *)

Module GuestUse.
Export HexUuid.
#[export] Existing Instance HexUuid.hex_uuid_text.
#[export] Existing Instance HexUuid.hex_uuid_laws.

(** JSON with one document. *)
#[export] Instance one_document : JsonText := {|
  json_from_str text := if bool_decide (text = lit "{n:1}") then Some (Object [(lit "n", Number (PosInt 1))]) else None;
  json_to_string v := match v with Object _ => lit "{n:1}" | _ => lit "1" end;
|}.

(** Two creatures that use the same names. *)
Definition both : list (Uuid * GuestKvOperation) :=
  [(1%N, KvPut NsDbOp (lit "a") (lit "x")); (2%N, KvPut NsDbOp (lit "a") (lit "y")); (2%N, KvDelete NsDbOp (lit "a"));
   (2%N, KvPutJson (lit "k") (lit "d") (lit "{n:1}") true); (1%N, KvListJson (lit "") 10); (1%N, KvGet NsDbOp (lit "a"));
   (2%N, KvListJson (lit "k::") 10); (2%N, KvGetJson (lit "k") (lit "d")); (2%N, KvDeleteJson (lit "k") (lit ""));
   (2%N, KvListJson (lit "") 10)].

Example both_answers : (run_guests both ∅).1 =
  [(1%N, Ok KvWritten); (2%N, Ok KvWritten); (2%N, Ok (KvDeleted true)); (2%N, Ok KvWritten); (1%N, Ok (KvKeys []));
   (1%N, Ok (KvValue (Some (lit "x")))); (2%N, Ok (KvKeys [lit "k::d"; lit "k::d.n"])); (2%N, Ok (KvDocument (lit "{n:1}")));
   (2%N, Ok (KvDeleted true)); (2%N, Ok (KvKeys []))].
Proof. vm_compute. reflexivity. Qed.

Lemma both_uuids : Forall (λ o, is_uuid o.1) both.
Proof. unfold both. repeat (apply Forall_cons; split; [vm_compute; reflexivity|]). constructor. Qed.

Lemma guests_are_isolated_witness :
  let '(answers, t) := run_guests both ∅ in
  let '(alone, own) := run_guests (filter (λ o, o.1 = 1%N) both) ∅ in
  filter (λ a, a.1 = 1%N) answers = alone ∧ pairs_of (uuid_text 1%N) t = own.
Proof.
  exact (guests_are_isolated 1%N both eq_refl both_uuids).
Defined.
End GuestUse.
