(* ===== verification/Workloads.v ===== *)
(** Desired workloads and guest database bindings: the repository of
    [crates/aseman-capsule/src/workload.rs] and the use case [SetDesiredWorkloadState] of
    [crates/aseman-application/src/lib.rs].

    A call of the repository is one transaction, as the revisions make it: it reads, and writes only
    over what it read; a write that loses every attempt is a call that failed with a conflict.  A row
    keeps the texts and integers of its fields, and no row is deleted here, so none is a tombstone.
    The theorem: while any number of requests change desired states at once, call by call, the
    generations of a workload only go up, every change was allowed, and no generation is commanded
    twice. *)

From S2P Require Import Prelude Text Core Identity Registry Capability Authority Ports FinanceLedger Vmm VmmService Grants.

Open Scope Z_scope.

(** ** The repository *)

(** The fields and relations of a [core.workload] and of a [core.guest_database_binding]. *)
Record WorkloadRow := {
  wo_creature : Uuid; wo_program : Uuid; wo_name : str; wo_runtime : str; wo_state : str; wo_generation : i64 }.
Record BindingRow := {
  br_provider_id : str; br_database_name : str; br_role_name : str; br_generation : i64;
  br_schema_catalog_revision : i64; br_status : str }.

(** The rows by id, the live programs with the creature they relate to, and a [failure] that answers
    every call. *)
Record WorkloadsDb := {
  wd_workloads : gmap Uuid WorkloadRow;
  wd_programs : gmap Uuid Uuid;
  wd_bindings : gmap Uuid BindingRow;
  wd_failure : option PortError;
}.
Definition set_workloads (db : WorkloadsDb) (rows : gmap Uuid WorkloadRow) : WorkloadsDb :=
  {| wd_workloads := rows; wd_programs := wd_programs db; wd_bindings := wd_bindings db; wd_failure := wd_failure db |}.
Definition set_bindings (db : WorkloadsDb) (rows : gmap Uuid BindingRow) : WorkloadsDb :=
  {| wd_workloads := wd_workloads db; wd_programs := wd_programs db; wd_bindings := rows; wd_failure := wd_failure db |}.

Definition state_name (state : DesiredWorkloadState) : str :=
  match state with DStopped => lit "stopped" | DRunning => lit "running" | DPaused => lit "paused" | DDeleted => lit "deleted" end.
Definition state_of (name : str) : PortResult DesiredWorkloadState :=
  if bool_decide (name = lit "stopped") then Ok DStopped
  else if bool_decide (name = lit "running") then Ok DRunning
  else if bool_decide (name = lit "paused") then Ok DPaused
  else if bool_decide (name = lit "deleted") then Ok DDeleted
  else Err (PFailed (lit "unknown workload state " ++ name)).
Definition status_name (status : BindingStatus) : str :=
  match status with BindingDisabled => lit "disabled" | BindingActive => lit "active" end.

(** The messages of [DomainError]. *)
Definition DomainError_text (e : DomainError) : str :=
  match e with
  | GenerationOverflow => lit "generation overflow"
  | InvalidGeneration => lit "generations start at 1"
  | InvalidBindingField field => lit "invalid creature database binding field: " ++ field
  | InvalidMoneyScale scale => lit "money scale " ++ show scale ++ lit " exceeds 18"
  | MoneyScaleMismatch => lit "money scales do not match"
  | MoneyOverflow => lit "money arithmetic overflow"
  end.

(** [integer]: a stored number as a [u64]. *)
Definition stored_u64 (value : i64) : PortResult u64 :=
  if 0 <=? value then Ok value else Err (PFailed try_from_int_error).
Definition stored_generation (value : i64) : PortResult Generation :=
  let? value := stored_u64 value in map_err (λ e, PFailed (DomainError_text e)) (Generation_from_stored value).
(** [i64::try_from(generation.get())]. *)
Definition generation_i64 (g : Generation) : PortResult i64 :=
  ok_or (i64_try_from (Generation_get g)) (PFailed try_from_int_error).

(** The program of a workload is live and belongs to its creature. *)
Definition check_program (db : WorkloadsDb) (program creature : Uuid) : PortResult unit :=
  let? owner := ok_or (wd_programs db !! program) (PFailed (lit "the workload's program does not exist")) in
  if negb (bool_decide (owner = creature)) then Err (PFailed (lit "the workload's program belongs to another creature")) else Ok tt.

Definition on_store {A} (db : WorkloadsDb) (call : PortResult A) : PortResult A :=
  match wd_failure db with Some error => Err error | None => call end.

(** The unique index is on the program and the name. *)
Definition name_taken (db : WorkloadsDb) (program : Uuid) (name : str) : bool :=
  existsb (λ row, bool_decide (wo_program row.2 = program) && bool_decide (wo_name row.2 = name)) (map_to_list (wd_workloads db)).

Definition create_desired (workload : DesiredWorkload) (db : WorkloadsDb) : PortResult unit * WorkloadsDb :=
  match on_store db (let? _ := check_program db (dw_program_id workload) (dw_creature_id workload) in generation_i64 (dw_generation workload)) with
  | Err e => (Err e, db)
  | Ok generation =>
      if is_some (wd_workloads db !! dw_id workload) || name_taken db (dw_program_id workload) (dw_name workload) then (Err PConflict, db)
      else (Ok tt, set_workloads db (<[dw_id workload :=
              {| wo_creature := dw_creature_id workload; wo_program := dw_program_id workload; wo_name := dw_name workload;
                 wo_runtime := dw_runtime workload; wo_state := state_name (dw_state workload); wo_generation := generation |}]> (wd_workloads db)))
  end.

Definition get_desired (id : Uuid) (db : WorkloadsDb) : PortResult (option DesiredWorkload) :=
  on_store db
    match wd_workloads db !! id with
    | None => Ok None
    | Some row =>
        let? _ := check_program db (wo_program row) (wo_creature row) in
        let? generation := stored_generation (wo_generation row) in
        let? state := state_of (wo_state row) in
        Ok (Some {| dw_id := id; dw_creature_id := wo_creature row; dw_program_id := wo_program row; dw_name := wo_name row;
                    dw_runtime := wo_runtime row; dw_generation := generation; dw_state := state |})
    end.

(** The revision that is read is the one that is replaced, so a lost race is retried. *)
Definition put_desired (workload : DesiredWorkload) (expected : Generation) (db : WorkloadsDb) : PortResult unit * WorkloadsDb :=
  match on_store db
    (let? row := ok_or (wd_workloads db !! dw_id workload) PNotFound in
     let? current := stored_u64 (wo_generation row) in
     if negb (current =? Generation_get expected) then Err PConflict
     else
       let? generation := generation_i64 (dw_generation workload) in
       Ok {| wo_creature := wo_creature row; wo_program := wo_program row; wo_name := wo_name row; wo_runtime := wo_runtime row;
             wo_state := state_name (dw_state workload); wo_generation := generation |}) with
  | Err e => (Err e, db)
  | Ok row => (Ok tt, set_workloads db (<[dw_id workload := row]> (wd_workloads db)))
  end.

Definition binding_for (creature : Uuid) (db : WorkloadsDb) : PortResult (option CreatureDatabaseBinding) :=
  on_store db
    match wd_bindings db !! creature with
    | None => Ok None
    | Some row =>
        let? binding := map_err (λ e, PFailed (DomainError_text e))
          (CreatureDatabaseBinding_new creature (br_provider_id row) (br_database_name row) (br_role_name row)) in
        let? generation := stored_generation (br_generation row) in
        let? status := if bool_decide (br_status row = lit "active") then Ok BindingActive
                       else if bool_decide (br_status row = lit "disabled") then Ok BindingDisabled
                       else Err (PFailed (lit "unknown binding status " ++ br_status row)) in
        Ok (Some {| binding_creature_id := binding_creature_id binding; binding_provider_id := binding_provider_id binding;
                    binding_database := binding_database binding; binding_role := binding_role binding;
                    binding_generation := generation; binding_status := status |})
    end.

(** [record_binding]; the catalog revision belongs to the provider and is kept. *)
Definition record_binding (binding : CreatureDatabaseBinding) (db : WorkloadsDb) : PortResult unit * WorkloadsDb :=
  let fields revision :=
    let? generation := generation_i64 (binding_generation binding) in
    Ok {| br_provider_id := binding_provider_id binding; br_database_name := binding_database binding; br_role_name := binding_role binding;
          br_generation := generation; br_schema_catalog_revision := revision; br_status := status_name (binding_status binding) |} in
  match on_store db
    match wd_bindings db !! binding_creature_id binding with
    | Some row =>
        let? stored := stored_u64 (br_generation row) in
        if Generation_get (binding_generation binding) <? stored then Err PConflict else fields (br_schema_catalog_revision row)
    | None => fields 0
    end with
  | Err e => (Err e, db)
  | Ok row => (Ok tt, set_bindings db (<[binding_creature_id binding := row]> (wd_bindings db)))
  end.

(** ** Changing the desired state *)

Definition action_of (state : DesiredWorkloadState) : str :=
  match state with
  | DRunning => lit "workload.start" | DStopped => lit "workload.stop" | DPaused => lit "workload.pause" | DDeleted => lit "workload.delete"
  end.
Definition command_of (current state : DesiredWorkloadState) : LifecycleCommand :=
  match current, state with
  | DPaused, DRunning => CmdResume
  | _, DRunning => CmdStart
  | _, DStopped => CmdStop
  | _, DPaused => CmdPause
  | _, DDeleted => CmdDelete
  end.

(** The manager's side of a command. *)
Class VmmCommands (M : Type) := vm_command : Uuid → LifecycleCommand → Generation → str → M → PortResult OperationRecord * M.

Record DesireRequest := { de_actor : Subject; de_workload : Uuid; de_state : DesiredWorkloadState; de_established : gset Condition }.

Section desire.
Context `{UuidText} {G M : Type} `{GrantStore G, VmmCommands M} (policy : PolicyRequest → PortResult PolicyDecision).

Definition facts_of (request : DesireRequest) (workload : DesiredWorkload) : gset Condition :=
  if bool_decide (de_actor request = {| subject_kind := Creature; subject_id := dw_creature_id workload |})
  then {[Owner]} ∪ de_established request else de_established request.

(** What the request decides on the workload it read: the record to put, and the command. *)
Definition plan_change (now : i64) (request : DesireRequest) (workload : DesiredWorkload) (grants : G)
    : result (DesiredWorkload * LifecycleCommand) ApplicationError :=
  let? decision := map_err Port (authorize policy now (Some (de_actor request)) (action_of (de_state request))
    {| rr_kind := lit "workload"; rr_id := uuid_text (de_workload request) |} (facts_of request workload) grants) in
  if negb (pd_allowed decision) then Err (Denied (DecisionReason_code (pd_reason decision)))
  else
    let? generation := map_err Domain (Generation_next (dw_generation workload)) in
    Ok ({| dw_id := dw_id workload; dw_creature_id := dw_creature_id workload; dw_program_id := dw_program_id workload;
           dw_name := dw_name workload; dw_runtime := dw_runtime workload; dw_generation := generation; dw_state := de_state request |},
        command_of (dw_state workload) (de_state request)).

Definition command_key (id : Uuid) (generation : Generation) : str :=
  lit "desired-" ++ uuid_text id ++ chr "-" :: show (Generation_get generation).

Definition set_desired_state (now : i64) (request : DesireRequest) (grants : G) (db : WorkloadsDb) (vmm : M)
    : result u64 ApplicationError * WorkloadsDb * M :=
  match (let? found := map_err Port (get_desired (de_workload request) db) in
         let? workload := ok_or found WorkloadNotFound in
         let? planned := plan_change now request workload grants in Ok (workload, planned)) with
  | Err e => (Err e, db, vmm)
  | Ok (workload, (changed, command)) =>
      let '(r, db) := put_desired changed (dw_generation workload) db in
      match r with
      | Err e => (Err (Port e), db, vmm)
      | Ok _ =>
          let '(r, vmm) := vm_command (de_workload request) command (dw_generation changed)
            (command_key (de_workload request) (dw_generation changed)) vmm in
          (match r with Ok _ => Ok (Generation_get (dw_generation changed)) | Err e => Err (Port e) end, db, vmm)
      end
  end.

(** ** Requests, one call at a time *)

(** Where a request is: about to read the workload, to ask for a decision, to put the record, to send
    the command, or answered. *)
Inductive Desire :=
| DesireRead (request : DesireRequest)
| DesireDecide (request : DesireRequest) (workload : DesiredWorkload)
| DesirePut (request : DesireRequest) (workload changed : DesiredWorkload) (command : LifecycleCommand)
| DesireCommand (id : Uuid) (command : LifecycleCommand) (generation : Generation)
| DesireDone (answer : result u64 ApplicationError).

(** A change of a desired state that was recorded, and who asked for it. *)
Record Change := { cg_workload : Uuid; cg_generation : Generation; cg_state : DesiredWorkloadState; cg_actor : Subject }.
Notation Sent := (Uuid * LifecycleCommand * Generation)%type.

(** The next call of a request, with the change it records or the command it sends. *)
Definition desire_step (now : i64) (grants : G) (h : Desire) (db : WorkloadsDb) (vmm : M)
    : Desire * WorkloadsDb * M * list Change * list Sent :=
  match h with
  | DesireRead request =>
      (match get_desired (de_workload request) db with
       | Err e => DesireDone (Err (Port e))
       | Ok None => DesireDone (Err WorkloadNotFound)
       | Ok (Some workload) => DesireDecide request workload
       end, db, vmm, [], [])
  | DesireDecide request workload =>
      (match plan_change now request workload grants with
       | Err e => DesireDone (Err e)
       | Ok (changed, command) => DesirePut request workload changed command
       end, db, vmm, [], [])
  | DesirePut request workload changed command =>
      match put_desired changed (dw_generation workload) db with
      | (Err e, db) => (DesireDone (Err (Port e)), db, vmm, [], [])
      | (Ok _, db) =>
          (DesireCommand (de_workload request) command (dw_generation changed), db, vmm,
           [{| cg_workload := dw_id changed; cg_generation := dw_generation changed; cg_state := dw_state changed; cg_actor := de_actor request |}], [])
      end
  | DesireCommand id command generation =>
      let '(r, vmm) := vm_command id command generation (command_key id generation) vmm in
      (DesireDone (match r with Ok _ => Ok (Generation_get generation) | Err e => Err (Port e) end), db, vmm, [], [(id, command, generation)])
  | DesireDone _ => (h, db, vmm, [], [])
  end.

(** Four calls answer. *)
Fixpoint finish_desire (turns : nat) (now : i64) (grants : G) (h : Desire) (db : WorkloadsDb) (vmm : M) : Desire * WorkloadsDb * M :=
  match turns with
  | O => (h, db, vmm)
  | S turns => let '(h, db, vmm, _, _) := desire_step now grants h db vmm in finish_desire turns now grants h db vmm
  end.

(** A request on its own is [set_desired_state]. *)
Lemma desire_alone now request grants db vmm :
  finish_desire 4 now grants (DesireRead request) db vmm =
    let '(r, db, vmm) := set_desired_state now request grants db vmm in (DesireDone r, db, vmm).
Proof.
  unfold set_desired_state. cbn [finish_desire desire_step].
  destruct (get_desired (de_workload request) db) as [[workload|]|]; cbn [map_err ok_or]; [|done..].
  cbn [desire_step]. destruct (plan_change now request workload grants) as [[changed command]|]; cbn [map_err]; [|done].
  cbn [desire_step]. destruct (put_desired changed (dw_generation workload) db) as [[[]|e] db1]; [|done].
  cbn [desire_step]. by destruct (vm_command _ _ _ _ vmm) as [[] vmm1].
Qed.

(** The repository, the manager, what was recorded and sent, and the requests under way. *)
Record DesireWorld := MkDesires {
  dv_db : WorkloadsDb; dv_vmm : M; dv_changes : list Change; dv_commands : list Sent; dv_handlers : list Desire }.

(** Requests arrive, make their calls in any order with any grants and clock, and crash; workloads are
    created, and the programs, bindings and failures of the store and the manager change as they like. *)
Inductive desires_step : relation DesireWorld :=
| desire_arrives db vmm cs sent hs request :
    desires_step (MkDesires db vmm cs sent hs) (MkDesires db vmm cs sent (hs ++ [DesireRead request]))
| desire_turns db vmm cs sent hs1 h hs2 now grants h' db' vmm' cs' sent' :
    desire_step now grants h db vmm = (h', db', vmm', cs', sent') →
    desires_step (MkDesires db vmm cs sent (hs1 ++ h :: hs2)) (MkDesires db' vmm' (cs ++ cs') (sent ++ sent') (hs1 ++ h' :: hs2))
| desire_crashes db vmm cs sent hs1 h hs2 :
    desires_step (MkDesires db vmm cs sent (hs1 ++ h :: hs2)) (MkDesires db vmm cs sent (hs1 ++ hs2))
| workload_created db vmm cs sent hs workload :
    desires_step (MkDesires db vmm cs sent hs) (MkDesires (create_desired workload db).2 vmm cs sent hs)
| store_changes db db' vmm vmm' cs sent hs : wd_workloads db' = wd_workloads db →
    desires_step (MkDesires db vmm cs sent hs) (MkDesires db' vmm' cs sent hs).

(** ** Generations are sequenced *)

(** The policy allowed the actor the action of the state on the workload. *)
Definition allowed (c : Change) : Prop := ∃ now facts (grants : G) decision,
  authorize policy now (Some (cg_actor c)) (action_of (cg_state c)) {| rr_kind := lit "workload"; rr_id := uuid_text (cg_workload c) |} facts grants = Ok decision
  ∧ pd_allowed decision = true.

Definition changes_of (id : Uuid) (cs : list Change) : list Change := filter (λ c, cg_workload c = id) cs.
Definition generations (cs : list Change) : list Z := (λ c, Generation_get (cg_generation c)) <$> cs.
Definition to_send (h : Desire) : option Sent :=
  match h with DesireCommand id command generation => Some (id, command, generation) | _ => None end.
Definition sent_key (s : Sent) : Uuid * Generation := (s.1.1, s.2).

(** What a request knows at its stage. *)
Definition desire_ok (h : Desire) : Prop :=
  match h with
  | DesireDecide request workload => dw_id workload = de_workload request
  | DesirePut request workload changed command =>
      dw_id changed = de_workload request
      ∧ Generation_get (dw_generation changed) = Generation_get (dw_generation workload) + 1
      ∧ (∃ current, command = command_of current (dw_state changed))
      ∧ allowed {| cg_workload := dw_id changed; cg_generation := dw_generation changed; cg_state := dw_state changed; cg_actor := de_actor request |}
  | _ => True
  end.

(** The record of a workload is at its last change. *)
Definition stored_at (db : WorkloadsDb) (c : Change) (row : WorkloadRow) : Prop :=
  wd_workloads db !! cg_workload c = Some row ∧ wo_generation row = Generation_get (cg_generation c) ∧ wo_state row = state_name (cg_state c).

Record sequenced (db : WorkloadsDb) (cs : list Change) (sent : list Sent) (hs : list Desire) : Prop := {
  sq_sorted id : StronglySorted Z.lt (generations (changes_of id cs));
  sq_below c : c ∈ cs → ∃ row, wd_workloads db !! cg_workload c = Some row ∧ Generation_get (cg_generation c) ≤ wo_generation row;
  sq_last id c : last (changes_of id cs) = Some c → ∃ row, stored_at db c row;
  sq_once : NoDup (sent_key <$> (sent ++ omap to_send hs));
  sq_sent id command g : (id, command, g) ∈ sent ++ omap to_send hs →
    ∃ c current, c ∈ cs ∧ cg_workload c = id ∧ cg_generation c = g ∧ command = command_of current (cg_state c);
  sq_allowed : Forall allowed cs;
  sq_handlers : Forall desire_ok hs;
}.

Lemma plan_change_ok now request workload grants changed command :
  plan_change now request workload grants = Ok (changed, command) → dw_id workload = de_workload request →
  desire_ok (DesirePut request workload changed command).
Proof.
  unfold plan_change. destruct (authorize _ _ _ _ _ _ grants) as [decision|] eqn:Ea; [|done]. cbn [map_err].
  destruct (pd_allowed decision) eqn:Hal; [|done]. cbn [negb]. unfold Generation_next. 
  destruct (checked_add_u64 _ _) as [g|] eqn:Eg; [|done]. apply checked_Some in Eg as [-> _]. cbn [map_err ok_or fmap option_fmap option_map].
  intros [= <- <-] Hid. cbn. split_and!; [done|done|by eexists|]. rewrite <- Hid in Ea. by exists now, (facts_of request workload), grants, decision.
Qed.

(** Steps that record and send nothing. *)
Lemma sequenced_hold db cs sent hs hs' : omap to_send hs' `sublist_of` omap to_send hs → Forall desire_ok hs' →
  sequenced db cs sent hs → sequenced db cs sent hs'.
Proof.
  intros Hs Hok []. constructor; try done.
  - eapply sublist_NoDup; [exact sq_once0|]. by apply fmap_sublist, sublist_app.
  - intros id command g Hin. apply sq_sent0. rewrite elem_of_app in *. destruct Hin as [|Hin]; [by left|right].
    by eapply sublist_subseteq.
Qed.

Lemma sequenced_turn db cs sent hs1 h h' hs2 : to_send h = None → to_send h' = None → desire_ok h' →
  sequenced db cs sent (hs1 ++ h :: hs2) → sequenced db cs sent (hs1 ++ h' :: hs2).
Proof.
  intros E E' Hok Sq. apply (sequenced_hold _ _ _ (hs1 ++ h :: hs2)); [| |done].
  - rewrite !omap_app. cbn [omap list_omap]. by rewrite E, E'.
  - pose proof (sq_handlers _ _ _ _ Sq) as Hs. rewrite Forall_app, Forall_cons in *. naive_solver.
Qed.

(** A command that is sent. *)
Lemma sequenced_send db cs sent hs1 id command g answer hs2 :
  sequenced db cs sent (hs1 ++ DesireCommand id command g :: hs2) →
  sequenced db cs (sent ++ [(id, command, g)]) (hs1 ++ DesireDone answer :: hs2).
Proof.
  intros [S1 S2 S3 S4 S5 S6 S7].
  assert ((sent ++ [(id, command, g)]) ++ omap to_send (hs1 ++ DesireDone answer :: hs2) ≡ₚ
          sent ++ omap to_send (hs1 ++ DesireCommand id command g :: hs2)) as Perm.
  { rewrite !omap_app. cbn [omap list_omap to_send]. rewrite <- (assoc_L (++)). apply Permutation_app_head. cbn. apply Permutation_middle. }
  constructor; try done.
  - by rewrite Perm.
  - intros i k n. rewrite Perm. apply S5.
  - rewrite Forall_app, Forall_cons in *. naive_solver.
Qed.

(** Steps that leave the rows of the workloads, or add one. *)
Lemma sequenced_store db db' cs sent hs : wd_workloads db ⊆ wd_workloads db' → sequenced db cs sent hs → sequenced db' cs sent hs.
Proof.
  intros Hd []. constructor; try done.
  - intros c Hc. destruct (sq_below0 c Hc) as (row & Hr & ?). exists row. split; [by eapply lookup_weaken|done].
  - intros id c Hc. destruct (sq_last0 id c Hc) as (row & Hr & ?). exists row. split; [by eapply lookup_weaken|done].
Qed.

Lemma create_desired_grows workload db : wd_workloads db ⊆ wd_workloads (create_desired workload db).2.
Proof.
  unfold create_desired. destruct (on_store db _); [|done]. destruct (is_some _) eqn:E; [done|]. destruct (name_taken _ _ _); [done|].
  cbn. apply insert_subseteq. by destruct (wd_workloads db !! _).
Qed.

Lemma put_desired_Ok workload expected db db' : put_desired workload expected db = (Ok tt, db') →
  ∃ row row', wd_workloads db !! dw_id workload = Some row ∧ wo_generation row = Generation_get expected ∧
    wo_generation row' = Generation_get (dw_generation workload) ∧ wo_state row' = state_name (dw_state workload) ∧
    wd_workloads db' = <[dw_id workload := row']> (wd_workloads db).
Proof.
  unfold put_desired, on_store. destruct (wd_failure db); [done|]. destruct (wd_workloads db !! dw_id workload) as [row|] eqn:E; [|done]. cbn [ok_or].
  unfold stored_u64. destruct (0 <=? wo_generation row); [|done]. destruct (Z.eqb_spec (wo_generation row) (Generation_get expected)) as [Eg|]; [|done]. cbn [negb].
  unfold generation_i64, i64_try_from. destruct (checked _ _ _) as [g|] eqn:Eg'; [|done]. apply checked_Some in Eg' as [-> _]. cbn [ok_or].
  intros [= <-]. refine (ex_intro _ row (ex_intro _ _ (conj eq_refl (conj Eg (conj _ (conj _ eq_refl)))))); done.
Qed.

Lemma changes_of_snoc id cs c : changes_of id (cs ++ [c]) = if bool_decide (cg_workload c = id) then changes_of id cs ++ [c] else changes_of id cs.
Proof.
  unfold changes_of. rewrite filter_app. case_bool_decide; [by rewrite filter_cons_True|by rewrite filter_cons_False, filter_nil, app_nil_r].
Qed.

(** A recorded change. *)
Lemma sequenced_put db db' cs sent hs1 hs2 c command current row row' :
  wd_workloads db !! cg_workload c = Some row → Generation_get (cg_generation c) = wo_generation row + 1 →
  wo_generation row' = Generation_get (cg_generation c) → wo_state row' = state_name (cg_state c) →
  wd_workloads db' = <[cg_workload c := row']> (wd_workloads db) → allowed c → command = command_of current (cg_state c) →
  sequenced db cs sent (hs1 ++ hs2) → sequenced db' (cs ++ [c]) sent (hs1 ++ DesireCommand (cg_workload c) command (cg_generation c) :: hs2).
Proof.
  intros Hr Hg Hg' Hs Hdb Ha Hc [S1 S2 S3 S4 S5 S6 S7].
  assert (∀ x, x ∈ cs → cg_workload x = cg_workload c → Generation_get (cg_generation x) < Generation_get (cg_generation c)) as New.
  { intros x Hx Ex. destruct (S2 x Hx) as (r & Hr' & Hle). rewrite Ex, Hr in Hr'. injection Hr' as <-. lia. }
  assert (sent ++ omap to_send (hs1 ++ DesireCommand (cg_workload c) command (cg_generation c) :: hs2) ≡ₚ
          (cg_workload c, command, cg_generation c) :: sent ++ omap to_send (hs1 ++ hs2)) as Perm.
  { rewrite !omap_app. cbn [omap list_omap to_send]. rewrite !(assoc_L (++)). symmetry. apply Permutation_middle. }
  constructor.
  - intros id. rewrite changes_of_snoc. case_bool_decide as E; [|done]. unfold generations. rewrite fmap_app. cbn.
    apply StronglySorted_snoc. split; [apply S1|]. apply Forall_fmap, Forall_forall. intros x [Ex Hx]%list_elem_of_filter. apply New; [done|congruence].
  - intros x [Hx| ->%list_elem_of_singleton]%elem_of_app; rewrite Hdb.
    + destruct (S2 x Hx) as (r & Hr' & Hle). destruct (decide (cg_workload x = cg_workload c)) as [E|]; [|rewrite lookup_insert_ne by done; eauto].
      exists row'. rewrite E, lookup_insert_eq. split; [done|]. pose proof (New x Hx E). lia.
    + exists row'. rewrite lookup_insert_eq. split; [done|lia].
  - intros id x. rewrite changes_of_snoc. unfold stored_at. rewrite Hdb. case_bool_decide as E.
    + rewrite last_snoc. intros [= <-]. exists row'. by rewrite lookup_insert_eq.
    + intros Hx. destruct (S3 id x Hx) as (r & Hr' & ?). exists r. split; [|done]. rewrite lookup_insert_ne; [done|].
      apply last_Some_elem_of, list_elem_of_filter in Hx as [? _]. congruence.
  - rewrite Perm. cbn. apply NoDup_cons. split; [|done]. intros ([[id k] g] & [= E1 E2] & Hin)%list_elem_of_fmap. cbn in *. subst id g.
    destruct (S5 _ _ _ Hin) as (x & cur & Hx & Ex & Eg & _). pose proof (New x Hx Ex) as Hlt. rewrite Eg in Hlt. lia.
  - intros id k g. rewrite Perm. intros [[= -> -> ->]|Hin]%elem_of_cons.
    + exists c, current. split; [set_solver|done].
    + destruct (S5 _ _ _ Hin) as (x & cur & Hx & ?). exists x, cur. split; [set_solver|done].
  - rewrite Forall_app, Forall_singleton. done.
  - rewrite Forall_app, Forall_cons in *. naive_solver.
Qed.

Lemma sequenced_step w w' : desires_step w w' →
  sequenced (dv_db w) (dv_changes w) (dv_commands w) (dv_handlers w) →
  sequenced (dv_db w') (dv_changes w') (dv_commands w') (dv_handlers w').
Proof.
  intros St Sq. destruct St as [db vmm cs sent hs request|db vmm cs sent hs1 h hs2 now grants h' db' vmm' cs' sent' E|db vmm cs sent hs1 h hs2|db vmm cs sent hs workload|db db' vmm vmm' cs sent hs Hd];
    cbn [dv_db dv_changes dv_commands dv_handlers] in *.
  - eapply sequenced_hold; [| |exact Sq]; [rewrite omap_app; cbn; by rewrite app_nil_r|].
    rewrite Forall_app, Forall_singleton. split; [apply Sq|done].
  - assert (desire_ok h) as Hh by (pose proof (sq_handlers _ _ _ _ Sq) as Hs; rewrite Forall_app, Forall_cons in Hs; apply Hs).
    destruct h as [request|request workload|request workload changed command|id command g|answer]; cbn [desire_step] in E.
    + injection E as <- <- <- <- <-. rewrite !app_nil_r. eapply sequenced_turn; [| | |exact Sq]; [done|..].
      * by destruct (get_desired _ db) as [[]|].
      * destruct (get_desired (de_workload request) db) as [[workload|]|] eqn:Eg; [|done..]. unfold get_desired, on_store in Eg.
        destruct (wd_failure db); [done|]. destruct (wd_workloads db !! _); [|done]. destruct (check_program _ _ _); [|done].
        destruct (stored_generation _); [|done]. destruct (state_of _); [|done]. by injection Eg as <-.
    + injection E as <- <- <- <- <-. rewrite !app_nil_r. eapply sequenced_turn; [| | |exact Sq]; [done|..].
      * by destruct (plan_change _ _ _ _) as [[]|].
      * destruct (plan_change now request workload grants) as [[changed command]|] eqn:Ep; [|done]. by eapply plan_change_ok.
    + destruct (put_desired changed (dw_generation workload) db) as [[[]|e] db1] eqn:Ep; injection E as <- <- <- <- <-; rewrite !app_nil_r.
      * destruct Hh as (Hid & Hg & [current Hc] & Ha). rewrite <- Hid. destruct (put_desired_Ok _ _ _ _ Ep) as (row & row' & R1 & R2 & R3 & R4 & R5).
        eapply (sequenced_put db db1 _ _ _ _ {| cg_workload := dw_id changed; cg_generation := dw_generation changed; cg_state := dw_state changed; cg_actor := de_actor request |} command current row row'); cbn; try done; [lia|].
        eapply sequenced_hold; [| |exact Sq]; [by rewrite !omap_app|]. pose proof (sq_handlers _ _ _ _ Sq) as Hs. rewrite Forall_app, Forall_cons in Hs. rewrite Forall_app. naive_solver.
      * assert (db1 = db) as -> by (unfold put_desired in Ep; destruct (on_store db _); by injection Ep). by eapply sequenced_turn; [| | |exact Sq].
    + destruct (vm_command id command g _ vmm) as [r vmm1]. injection E as <- <- <- <- <-. rewrite app_nil_r. by apply sequenced_send.
    + injection E as <- <- <- <- <-. by rewrite !app_nil_r.
  - eapply sequenced_hold; [| |exact Sq].
    + rewrite !omap_app. apply sublist_app; [done|]. cbn. destruct (to_send h); [by apply sublist_cons|done].
    + pose proof (sq_handlers _ _ _ _ Sq) as Hs. rewrite Forall_app, Forall_cons in *. naive_solver.
  - eapply sequenced_store; [apply create_desired_grows|done].
  - eapply sequenced_store; [|done]. by rewrite Hd.
Qed.

(** C14. The desired states of a workload are sequenced.  While any number of requests change desired
    states at once, their calls interleaved in any order, crashing between them, with any grants and
    failures: the generations recorded for a workload go strictly up and its record is at the last of
    them, every recorded change was allowed to its actor by the policy, and every command that was sent
    belongs to a recorded change of that generation, of which there is one, so that no generation is
    commanded twice. *)
Theorem desired_states_are_sequenced (db : WorkloadsDb) (vmm : M) (w : DesireWorld) :
  rtc desires_step (MkDesires db vmm [] [] []) w →
  (∀ id, StronglySorted Z.lt (generations (changes_of id (dv_changes w)))) ∧
  (∀ id c, last (changes_of id (dv_changes w)) = Some c → ∃ row, stored_at (dv_db w) c row) ∧
  (∀ c, c ∈ dv_changes w → allowed c) ∧
  NoDup (sent_key <$> dv_commands w) ∧
  (∀ id command g, (id, command, g) ∈ dv_commands w →
     ∃ c current, c ∈ dv_changes w ∧ cg_workload c = id ∧ cg_generation c = g ∧ command = command_of current (cg_state c)).
Proof.
  intros R. assert (sequenced (dv_db w) (dv_changes w) (dv_commands w) (dv_handlers w)) as [S1 S2 S3 S4 S5 S6 S7].
  { eapply (rtc_invariant _ (λ w, sequenced (dv_db w) (dv_changes w) (dv_commands w) (dv_handlers w))); [|  |exact R].
    - intros x y Hx Hs. by eapply sequenced_step.
    - constructor; cbn; try done; try (by intros * ?%not_elem_of_nil); constructor. }
  split_and!; [done|done|by apply Forall_forall| |].
  - rewrite fmap_app in S4. by apply NoDup_app in S4 as [? _].
  - intros id command g Hin. apply S5. set_solver.
Qed.
End desire.

(** ** At work *)

Module DesireUse.
Export HexUuid.
#[export] Existing Instance HexUuid.hex_uuid_text.

(** A manager that keeps the keys of its commands, and a policy that allows. *)
Definition operation_of (id : Uuid) (generation : Generation) : OperationRecord :=
  {| op_owner := lit "node"; op_id := id; op_workload_id := Some id; op_kind := KStart; op_state := OpPending; op_generation := Some generation;
     op_request := None; op_created_at_millis := 0; op_updated_at_millis := 0; op_deadline_millis := None; op_result := None; op_error := None |}.
#[export] Instance command_log : VmmCommands (list str) := λ id _ generation key log, (Ok (operation_of id generation), log ++ [key]).
Definition allowing : PolicyRequest → PortResult PolicyDecision := λ _,
  Ok {| pd_allowed := true; pd_reason := Allowed; pd_matched := None; pd_considered := []; pd_grant_chain := []; pd_registry_version := []; pd_policy_version := [] |}.

Definition row (state : str) : WorkloadRow :=
  {| wo_creature := 1%N; wo_program := 2%N; wo_name := lit "main/main"; wo_runtime := lit "wasm"; wo_state := state; wo_generation := 4 |}.
Definition repository (state : str) : WorkloadsDb :=
  {| wd_workloads := {[ 7%N := row state ]}; wd_programs := {[ 2%N := 1%N ]}; wd_bindings := ∅; wd_failure := None |}.
Definition ask (state : DesiredWorkloadState) : DesireRequest :=
  {| de_actor := {| subject_kind := Creature; subject_id := 1%N |}; de_workload := 7%N; de_state := state; de_established := ∅ |}.

(** A turn of the request that came first, or of the one after it. *)
Definition turn (second : bool) (w : @DesireWorld (list str)) : @DesireWorld (list str) :=
  let call h := desire_step allowing 10 GrantUse.empty h (dv_db w) (dv_vmm w) in
  if second then
    match dv_handlers w with
    | h1 :: h :: hs =>
        let '(h', db, vmm, cs, sent) := call h in MkDesires db vmm (dv_changes w ++ cs) (dv_commands w ++ sent) (h1 :: h' :: hs)
    | _ => w
    end
  else
    match dv_handlers w with
    | h :: hs => let '(h', db, vmm, cs, sent) := call h in MkDesires db vmm (dv_changes w ++ cs) (dv_commands w ++ sent) (h' :: hs)
    | [] => w
    end.
Definition arrive (state : DesiredWorkloadState) (w : @DesireWorld (list str)) : @DesireWorld (list str) :=
  MkDesires (dv_db w) (dv_vmm w) (dv_changes w) (dv_commands w) (dv_handlers w ++ [DesireRead (ask state)]).

Lemma turn_step second w : rtc (desires_step (G := GrantDb) allowing) w (turn second w).
Proof.
  destruct w as [db vmm cs sent [|h1 hs]]; [by destruct second|]. unfold turn. cbn [dv_handlers dv_db dv_vmm dv_changes dv_commands]. destruct second.
  - destruct hs as [|h hs]; [done|]. destruct (desire_step _ _ _ h db vmm) as [[[[h' db'] vmm'] cs'] sent'] eqn:E.
    apply rtc_once. exact (desire_turns allowing db vmm cs sent [h1] h hs 10 GrantUse.empty h' db' vmm' cs' sent' E).
  - destruct (desire_step _ _ _ h1 db vmm) as [[[[h' db'] vmm'] cs'] sent'] eqn:E.
    apply rtc_once. exact (desire_turns allowing db vmm cs sent [] h1 hs 10 GrantUse.empty h' db' vmm' cs' sent' E).
Qed.
Lemma arrive_step state w : rtc (desires_step (G := GrantDb) allowing) w (arrive state w).
Proof. destruct w as [db vmm cs sent hs]. apply rtc_once, desire_arrives. Qed.

Lemma turns_step turns w : rtc (desires_step (G := GrantDb) allowing) w (foldl (λ w second, turn second w) w turns).
Proof. revert w. induction turns as [|s turns IH]; intros w; [done|]. cbn [foldl]. etrans; [apply turn_step|apply IH]. Qed.

(** Two requests that both read generation 4: one is recorded and commanded, the other is refused. *)
Definition race : @DesireWorld (list str) :=
  foldl (λ w second, turn second w) (arrive DStopped (arrive DRunning (MkDesires (repository (lit "paused")) [] [] [] [])))
    [false; true; true; false; false; true; false; true].

Example race_outcome :
  (dv_commands race, dv_handlers race) =
  ([(7%N, CmdResume, MkGeneration 5)], [DesireDone (Ok 5); DesireDone (Err (Port PConflict))]).
Proof. vm_compute. reflexivity. Qed.

Lemma race_reached : rtc (desires_step (G := GrantDb) allowing) (MkDesires (repository (lit "paused")) [] [] [] []) race.
Proof.
  unfold race. etrans; [apply (arrive_step DRunning)|]. etrans; [apply (arrive_step DStopped)|]. apply turns_step.
Qed.

Lemma desired_states_are_sequenced_witness :
  NoDup (sent_key <$> dv_commands race) ∧ StronglySorted Z.lt (generations (changes_of 7%N (dv_changes race))).
Proof.
  destruct (desired_states_are_sequenced (G := GrantDb) allowing (repository (lit "paused")) [] race race_reached) as (S1 & _ & _ & S4 & _).
  split; [exact S4|exact (S1 7%N)].
Defined.

(** The use case does not look at the state it replaces: a deleted workload is recorded as running. *)
Example deleted_workload_revives :
  let '(answer, db, _) := set_desired_state allowing 10 (ask DRunning) GrantUse.empty (repository (lit "deleted")) [] in
  (answer, wo_state <$> wd_workloads db !! 7%N) = (Ok 5, Some (lit "running")).
Proof. vm_compute. reflexivity. Qed.
End DesireUse.
