(* ===== verification/Guest.v ===== *)
(** Guests: the gateway of [crates/aseman-application/src/guest.rs], the host calls and the
    provisioning of [crates/aseman-application/src/guest_call.rs], with the ports of
    [crates/aseman-ports/src/guest.rs].

    A guest is known by the proof its workload signed; its creature, program and database are looked
    up in the records of the node.  The theorems: a guest request reaches the pairs of the creature
    of the workload that signed it and of no other, and only after every check; and a host call acts
    as the workload that signed it. *)

From S2P Require Import FinanceLedger.
From S2P Require Import Prelude Text Core Identity Registry Capability Authority Ports Values Json Vmm VmmService Grants Authentication PublicAction GuestData Workloads.

Open Scope Z_scope.

(** ** Ports *)

Record GuestCaller := { gc_workload : DesiredWorkload; gc_creature_ref : str; gc_program_ref : str }.

(** The entity and the instance that the name of the workload encodes. *)
Definition entity_and_instance (caller : GuestCaller) : str * str :=
  default (dw_name (gc_workload caller), lit "main") (split_once (chr "/") (dw_name (gc_workload caller))).

(** [GuestHostCalls], and the legacy identifiers of a workload ([LegacyWorkloadRefs]). *)
Class GuestHostCalls (X : Type) := {
  hc_call : GuestCaller → str → str → X → PortResult str * X;
  hc_artifact : GuestCaller → str → X → PortResult (list u8) * X;
}.
Class LegacyWorkloadRefs := legacy_refs : DesiredWorkload → PortResult (str * str).
(** [VmmClient::create]. *)
Class VmmCreation (M : Type) := vm_create : NewWorkload → str → M → PortResult OperationRecord * M.

Inductive GuestRequest := GuestHostCall (op input : str) | GuestArtifact (digest : str).
Definition guest_resource (self : GuestRequest) : str := match self with GuestHostCall op _ => op | GuestArtifact digest => digest end.

(** [spec.bootstrap.credential = Some(..)]. *)
Definition with_credential (spec : WorkloadSpec) (credential : WriteOnlyCredential) : WorkloadSpec :=
  {| spec_runtime := spec_runtime spec; spec_artifact := spec_artifact spec; spec_entry := spec_entry spec; spec_resources := spec_resources spec;
     spec_network := spec_network spec; spec_environment := spec_environment spec;
     spec_bootstrap := {| boot_guest_api_url := boot_guest_api_url (spec_bootstrap spec); boot_credential := Some credential |} |}.

Section guest.
Context `{UuidText, JsonText, IdentityVerifier} {I G : Type} `{IdentityStore I, GrantStore G}.

(** ** The gateway *)

(** Everything [GuestGateway::execute] checks: the binding the operation runs on. *)
Definition admit_guest_request (policy : PolicyRequest → PortResult PolicyDecision) (now : i64) (workload : Subject) (signed_action : str)
    (operation : GuestKvOperation) (db : WorkloadsDb) (grants : G) : result CreatureDatabaseBinding IdentityFailure :=
  if negb (bool_decide (subject_kind workload = Workload)) then Err (Refused (lit "only workloads use the guest API"))
  else if negb (bool_decide (signed_action = GUEST_DATA_ACTION)) then Err (Refused (lit "the credential does not cover this operation"))
  else if negb (GuestKvOperation_is_valid operation) then Err (Refused (lit "the operation exceeds the guest limits"))
  else
    let? found := map_err Unavailable (get_desired (subject_id workload) db) in
    let? placement := ok_or found (Refused (lit "unknown workload")) in
    if bool_decide (dw_state placement = DDeleted) then Err (Refused (lit "the workload is deleted"))
    else
      let? found := map_err Unavailable (binding_for (dw_creature_id placement) db) in
      let? binding := match found with
        | Some binding => match binding_status binding with BindingActive => Ok binding | BindingDisabled => Err (Refused (lit "the creature's guest database is not active")) end
        | None => Err (Refused (lit "the creature's guest database is not active"))
        end in
      let? decision := map_err Unavailable (authorize policy now (Some workload) GUEST_DATA_ACTION
        {| rr_kind := lit "guest_data"; rr_id := uuid_text (dw_creature_id placement) |} {[SameCreature]} grants) in
      if negb (pd_allowed decision) then Err (Refused (lit "the policy denies guest data access"))
      else Ok binding.

Definition guest_gateway (policy : PolicyRequest → PortResult PolicyDecision) (now : i64) (workload : Subject) (signed_action : str)
    (operation : GuestKvOperation) (db : WorkloadsDb) (grants : G) (t : gmap str GuestPair) : result GuestKvOutcome IdentityFailure * gmap str GuestPair :=
  match admit_guest_request policy now workload signed_action operation db grants with
  | Err e => (Err e, t)
  | Ok binding => let '(r, t) := StorageGuestKv_execute binding operation t in (map_err Unavailable r, t)
  end.

(** [ServeSignedGuestRequest::execute]; the clock is read by the proof and by the decision. *)
Definition serve_signed_guest (policy : PolicyRequest → PortResult PolicyDecision) (clock : nat → i64) (proof : SignedProof) (body : list u8)
    (operation : GuestKvOperation) (verifier : VerifierPolicy) (s : I) (db : WorkloadsDb) (grants : G) (t : gmap str GuestPair)
    : result GuestKvOutcome IdentityFailure * I * gmap str GuestPair :=
  let '(r, s) := authenticate (clock 0%nat) proof body verifier s in
  match r with
  | Err e => (Err e, s, t)
  | Ok workload =>
      if negb (bool_decide (subject_kind workload = Workload)) then (Err (Rejected KeySubjectMismatch), s, t)
      else
        let '(r, t) := guest_gateway policy (clock 1%nat) workload (proof_action proof) operation db grants t in (r, s, t)
  end.

(** ** Host calls *)

Definition serve_guest_call `{LegacyWorkloadRefs} {X : Type} `{GuestHostCalls X} (now : i64) (proof : SignedProof) (body : list u8)
    (request : GuestRequest) (action : str) (verifier : VerifierPolicy) (s : I) (db : WorkloadsDb) (x : X)
    : result (list u8) IdentityFailure * I * X :=
  let '(r, s) := authenticate now proof body verifier s in
  match (let? subject := r in
         if negb (bool_decide (subject_kind subject = Workload)) then Err (Refused (lit "only workloads use the guest API"))
         else if negb (bool_decide (proof_action proof = action)) || negb (bool_decide (proof_resource proof = guest_resource request))
         then Err (Refused (lit "the credential does not cover this operation"))
         else
           let? found := map_err Unavailable (get_desired (subject_id subject) db) in
           let? workload := ok_or found (Refused (lit "unknown workload")) in
           if bool_decide (dw_state workload = DDeleted) then Err (Refused (lit "the workload is deleted"))
           else
             let? refs := map_err Unavailable (legacy_refs workload) in
             Ok {| gc_workload := workload; gc_creature_ref := refs.1; gc_program_ref := refs.2 |}) with
  | Err e => (Err e, s, x)
  | Ok caller =>
      match request with
      | GuestHostCall op input => let '(r, x) := hc_call caller op input x in (map_err Unavailable (result_map text_bytes r), s, x)
      | GuestArtifact digest => let '(r, x) := hc_artifact caller digest x in (map_err Unavailable r, s, x)
      end
  end.

(** ** Provisioning *)

(** [ProvisionWorkload::execute]: the record, a fresh key epoch, and the creation under a key that names
    the workload. *)
Definition provision_workload {M : Type} `{VmmCreation M} (now : i64) (workload : DesiredWorkload) (labels : WorkloadLabels) (spec : WorkloadSpec)
    (public_key : list u8) (credential_for_epoch : u32 → PortResult WriteOnlyCredential) (s : I) (db : WorkloadsDb) (vmm : M)
    : result OperationRecord IdentityFailure * I * WorkloadsDb * M :=
  let '(r, db) := create_desired workload db in
  match r with
  | Ok _ | Err PConflict =>
      let '(r, s) := rotate_key now {| subject_kind := Workload; subject_id := dw_id workload |} PurposeAuthentication
        {| nk_public_key := public_key; nk_expires_at_millis := None |} s in
      match (let? registered := r in map_err Unavailable (credential_for_epoch (ke_epoch (ik_epoch registered)))) with
      | Err e => (Err e, s, db, vmm)
      | Ok credential =>
          let '(r, vmm) := vm_create
            {| nw_id := dw_id workload; nw_labels := labels; nw_spec := with_credential spec credential;
               nw_desired := {| ds_state := dw_state workload; ds_generation := dw_generation workload |} |}
            (lit "create-" ++ uuid_text (dw_id workload)) vmm in
          (map_err Unavailable r, s, db, vmm)
      end
  | Err e => (Err (Unavailable e), s, db, vmm)
  end.
End guest.

(** ** Guests stay at home *)

Section home.
Context `{UuidTextLaws, JsonText, IdentityVerifier} {I G : Type} `{IdentitySpec I, GrantStore G}.

(** What has been established before an operation touches a pair. *)
Record admitted (policy : PolicyRequest → PortResult PolicyDecision) (now : i64) (workload : Subject) (signed_action : str)
    (operation : GuestKvOperation) (db : WorkloadsDb) (grants : G) (placement : DesiredWorkload) : Prop := {
  ad_kind : subject_kind workload = Workload;
  ad_action : signed_action = GUEST_DATA_ACTION;
  ad_valid : GuestKvOperation_is_valid operation = true;
  ad_placement : get_desired (subject_id workload) db = Ok (Some placement);
  ad_live : dw_state placement ≠ DDeleted;
  ad_binding : ∃ binding, binding_for (dw_creature_id placement) db = Ok (Some binding) ∧ binding_status binding = BindingActive;
  ad_allowed : ∃ decision, authorize policy now (Some workload) GUEST_DATA_ACTION
    {| rr_kind := lit "guest_data"; rr_id := uuid_text (dw_creature_id placement) |} {[SameCreature]} grants = Ok decision ∧ pd_allowed decision = true;
}.

Lemma binding_for_creature creature db binding : binding_for creature db = Ok (Some binding) → binding_creature_id binding = creature.
Proof.
  unfold binding_for, on_store. destruct (wd_failure db); [done|]. destruct (wd_bindings db !! creature) as [row|]; [|done].
  unfold CreatureDatabaseBinding_new. destruct (binding_fields_check _); [|done]. cbn [map_err]. destruct (stored_generation _); [|done].
  destruct (if bool_decide (br_status row = _) then _ else _); [|done]. by intros [= <-].
Qed.

Lemma admit_guest_inv policy now workload signed_action operation db grants binding :
  admit_guest_request policy now workload signed_action operation db grants = Ok binding →
  ∃ placement, admitted policy now workload signed_action operation db grants placement ∧ binding_creature_id binding = dw_creature_id placement.
Proof.
  unfold admit_guest_request. case_bool_decide as Hk; [|done]. cbn [negb]. case_bool_decide as Ha; [|done]. cbn [negb].
  destruct (GuestKvOperation_is_valid operation) eqn:Hv; [|done]. cbn [negb].
  destruct (get_desired (subject_id workload) db) as [[placement|]|] eqn:Hp; [|done..]. cbn [map_err ok_or].
  case_bool_decide as Hd; [done|]. destruct (binding_for (dw_creature_id placement) db) as [[found|]|] eqn:Hb; [|done..]. cbn [map_err].
  destruct (binding_status found) eqn:Hs; [done|]. destruct (authorize _ _ _ _ _ _ grants) as [decision|] eqn:Hau; [|done]. cbn [map_err].
  destruct (pd_allowed decision) eqn:Hal; [|done]. cbn [negb]. intros [= <-]. exists placement. split; [|by eapply binding_for_creature].
  constructor; eauto.
Qed.

(** C9. A guest stays at home.  Whatever a signed guest request asks, either no pair changes and it gets
    no outcome (once its proof was checked, its nonce is used up), or its proof was checked over this body, the signer is a workload that the node knows
    and has not deleted, signed for guest data access and allowed it by the policy, the database of
    its creature is active, and the answer and the effect are those of the operation on the pairs of
    that creature, which are as if the creature had a table of its own; the pairs of every other
    creature stay as they are. *)
Theorem guests_stay_home policy clock proof body operation verifier (s s' : I) db (grants : G) t t' r :
  tidy t → serve_signed_guest policy clock proof body operation verifier s db grants t = (r, s', t') →
  (t' = t ∧ ∀ outcome, r ≠ Ok outcome) ∨
  ∃ key placement answer, let owner := uuid_text (dw_creature_id placement) in
    proven (clock 0%nat) proof body verifier s key ∧
    admitted policy (clock 1%nat) (proof_subject proof) (proof_action proof) operation db grants placement ∧
    execute_for (dw_creature_id placement) operation (pairs_of owner t) = (answer, pairs_of owner t') ∧
    r = map_err Unavailable answer ∧ (∀ other, other ≠ owner → pairs_of other t' = pairs_of other t).
Proof.
  intros T. unfold serve_signed_guest. destruct (authenticate (clock 0%nat) proof body verifier s) as [r1 s1] eqn:Ea.
  apply authenticate_inv in Ea as (_ & Hp & Hsub). destruct r1 as [subject|e]; [|intros [= <- <- <-]; by left].
  rewrite (Hsub subject eq_refl) in *. destruct Hp as [(key & Hkey & _)|[Hno _]]; [|by destruct (Hno (proof_subject proof))].
  case_bool_decide; cbn [negb]; [|intros [= <- <- <-]; by left]. unfold guest_gateway.
  destruct (admit_guest_request _ _ _ _ _ _ _) as [binding|e] eqn:Hg; [|intros [= <- <- <-]; by left].
  apply admit_guest_inv in Hg as (placement & Had & Hc). unfold StorageGuestKv_execute. rewrite Hc.
  pose proof (execute_for_mine (dw_creature_id placement) operation t T) as E.
  destruct (execute_for (dw_creature_id placement) operation t) as [answer t1]. destruct E as (E & _ & O). intros [= <- <- <-].
  right. by exists key, placement, answer.
Qed.

(** A host call acts as the workload that signed it: either no call is made, or the proof covers this
    operation and the caller is the record of its signer, and the effect is that of the one call. *)
Theorem guest_calls_act_as_signer `{LegacyWorkloadRefs} {X : Type} `{GuestHostCalls X} now proof body request action verifier (s s' : I) db (x x' : X) r :
  serve_guest_call now proof body request action verifier s db x = (r, s', x') →
  (x' = x ∧ ∀ bytes, r ≠ Ok bytes) ∨
  ∃ key caller, proven now proof body verifier s key ∧ subject_kind (proof_subject proof) = Workload ∧
    proof_action proof = action ∧ proof_resource proof = guest_resource request ∧
    get_desired (subject_id (proof_subject proof)) db = Ok (Some (gc_workload caller)) ∧ dw_state (gc_workload caller) ≠ DDeleted ∧
    legacy_refs (gc_workload caller) = Ok (gc_creature_ref caller, gc_program_ref caller) ∧
    x' = match request with GuestHostCall op input => (hc_call caller op input x).2 | GuestArtifact digest => (hc_artifact caller digest x).2 end.
Proof.
  unfold serve_guest_call. destruct (authenticate now proof body verifier s) as [r1 s1] eqn:Ea.
  apply authenticate_inv in Ea as (_ & Hp & Hsub). destruct r1 as [subject|e]; [|intros [= <- <- <-]; by left].
  rewrite (Hsub subject eq_refl) in *. destruct Hp as [(key & Hkey & _)|[Hno _]]; [|by destruct (Hno (proof_subject proof))].
  case_bool_decide as Hk; cbn [negb]; [|intros [= <- <- <-]; by left]. case_bool_decide as Ha; cbn [negb orb]; [|intros [= <- <- <-]; by left].
  case_bool_decide as Hr; cbn [negb]; [|intros [= <- <- <-]; by left].
  destruct (get_desired _ db) as [[workload|]|] eqn:Hg; cbn [map_err ok_or]; [|intros [= <- <- <-]; by left..].
  case_bool_decide as Hd; [intros [= <- <- <-]; by left|]. destruct (legacy_refs workload) as [[creature program]|] eqn:Hl; cbn [map_err]; [|intros [= <- <- <-]; by left].
  intros E. right. exists key, {| gc_workload := workload; gc_creature_ref := creature; gc_program_ref := program |}.
  split_and!; try done. destruct request as [op input|digest].
  - destruct (hc_call _ op input x) as [r2 x2]. by injection E.
  - destruct (hc_artifact _ digest x) as [r2 x2]. by injection E.
Qed.
End home.

(** A workload that signs a write to the database of its creature. *)
Module HomeUse.
Export GuestUse.
#[export] Existing Instance ProofUse.sample_verifier.

Definition signer : Subject := {| subject_kind := Workload; subject_id := 7%N |}.
Definition keyed : IdentityDb := (rotate_key 950 signer PurposeAuthentication (ProofUse.new_key 66) ProofUse.empty).2.
Definition placed (status : str) : WorkloadsDb :=
  {| wd_workloads := {[ 7%N := DesireUse.row (lit "running") ]}; wd_programs := {[ 2%N := 1%N ]};
     wd_bindings := {[ 1%N := {| br_provider_id := lit "postgres"; br_database_name := lit "guest_1"; br_role_name := lit "guest_1_role"; br_generation := 1;
                                 br_schema_catalog_revision := 0; br_status := status |} ]};
     wd_failure := None |}.
Definition request (action : str) (signature : list u8) : SignedProof :=
  {| proof_context := CtxRequest; proof_algorithm := lit "ed25519"; proof_key_id := lit "B"; proof_key_epoch := 1; proof_subject := signer;
     proof_audience := lit "node:a";
     proof_window := {| cw_issued_at_millis := 1000; cw_not_before_millis := 1000; cw_expires_at_millis := 61000 |};
     proof_nonce := [7]; proof_request_id := lit "r"; proof_action := action; proof_resource := [];
     proof_body_digest := [1]; proof_signature := signature |}.
(** The pairs before the request: another creature already uses the name. *)
Definition others : gmap str GuestPair := (run_guests [(2%N, KvPut NsDbOp (lit "a") (lit "y"))] ∅).2.
Definition write : GuestKvOperation := KvPut NsDbOp (lit "a") (lit "x").
Definition serve_write (status action : str) (signature : list u8) : result GuestKvOutcome IdentityFailure * IdentityDb * gmap str GuestPair :=
  serve_signed_guest DesireUse.allowing (λ n, 2000 + Z.of_nat n) (request action signature) [0] write ProofUse.sample_policy keyed (placed status)
    GrantUse.empty others.
Definition read_back (creature : Uuid) (t : gmap str GuestPair) : PortResult GuestKvOutcome :=
  (execute_for creature (KvGet NsDbOp (lit "a")) t).1.

Example requests_at_work :
  let '(r, _, t) := serve_write (lit "active") GUEST_DATA_ACTION [1] in
  r = Ok KvWritten ∧ read_back 1%N t = Ok (KvValue (Some (lit "x"))) ∧ read_back 2%N t = Ok (KvValue (Some (lit "y")))
  ∧ (serve_write (lit "disabled") GUEST_DATA_ACTION [1]).1.1 = Err (Refused (lit "the creature's guest database is not active"))
  ∧ (serve_write (lit "active") (lit "store.read") [1]).1.1 = Err (Refused (lit "the credential does not cover this operation"))
  ∧ (serve_write (lit "active") GUEST_DATA_ACTION [2]).1.1 = Err (Rejected BadSignature).
Proof. vm_compute. done. Qed.

Lemma others_tidy : tidy others.
Proof.
  pose proof (execute_for_mine 2%N (KvPut NsDbOp (lit "a") (lit "y")) ∅ (map_Forall_empty _)) as E. revert E. unfold others. cbn [run_guests].
  destruct (execute_for _ _ ∅) as [answer t]. intros (_ & T & _). exact T.
Qed.

Definition served : IdentityDb * gmap str GuestPair := let '(_, s, t) := serve_write (lit "active") GUEST_DATA_ACTION [1] in (s, t).
Lemma served_done : serve_write (lit "active") GUEST_DATA_ACTION [1] = (Ok KvWritten, served.1, served.2).
Proof. vm_compute. reflexivity. Qed.

Lemma guests_stay_home_witness :
  tidy others ∧ serve_write (lit "active") GUEST_DATA_ACTION [1] = (Ok KvWritten, served.1, served.2)
  ∧ ∃ placement, get_desired 7%N (placed (lit "active")) = Ok (Some placement)
    ∧ ∀ other, other ≠ uuid_text (dw_creature_id placement) → pairs_of other served.2 = pairs_of other others.
Proof.
  split; [exact others_tidy|]. split; [exact served_done|].
  destruct (guests_stay_home DesireUse.allowing (λ n, 2000 + Z.of_nat n) (request GUEST_DATA_ACTION [1]) [0] write ProofUse.sample_policy keyed served.1
    (placed (lit "active")) GrantUse.empty others served.2 (Ok KvWritten) others_tidy served_done)
    as [[_ Hno]|(key & placement & answer & _ & Had & _ & _ & Hother)]; [destruct (Hno KvWritten eq_refl)|].
  exists placement. split; [exact (ad_placement _ _ _ _ _ _ _ _ Had)|exact Hother].
Defined.
End HomeUse.
