(* ===== verification/FinanceHelpers.v ===== *)
(** The shared helpers and the wire inputs of the finance use cases,
    [crates/aseman-application/src/finance/mod.rs]: identifier checks, wallet counters, document
    accessors, project budgets, the account snapshot and the market documents.

    Each helper is a transaction of [FinanceLedger]; [denied] is the client-visible refusal.  Where
    the code reads a document with [unwrap_or_default], the model reads the document or takes the
    empty one. *)

From S2P Require Import Prelude Text Core Ports BTree Json FinanceLedger.

Open Scope Z_scope.
Open Scope tx_scope.

Definition denied {A} (message : str) : tx A := throw (Denied message).

(** [value.ok_or_else(|| denied(message))?]. *)
Definition or_denied {A} (o : option A) (message : str) : tx A :=
  match o with Some a => ret a | None => denied message end.

Definition LEGACY_ROOT : str := lit "1@global".
Definition FINANCE_HOLD_MAX_TTL_MS : i64 := 24 * 60 * 60 * 1000.
Definition FINANCE_MAX_BENEFICIARIES : usize := 64.
Definition FEDERATED_FINANCE_MAX_RECORD_BYTES : usize := 256 * 1024.

(** ** Checks *)

Definition valid_finance_id (value : str) : bool :=
  negb (is_empty value) && (len value <=? 128)
  && forallb (λ b, is_ascii_alphanumeric b || bool_decide (b ∈ lit "-_.@")) (bytes value).

Definition valid_finance_hash (value : str) : bool :=
  (len value =? 64) && forallb is_ascii_hexdigit (bytes value).

Definition is_ascii_control (b : N) : bool := ((b <? 32) || (b =? 127))%N.
(** [u8::is_ascii_whitespace]. *)
Definition is_ascii_whitespace (b : N) : bool := bool_decide (b ∈ [9; 10; 12; 13; 32]%N).
(** [char::is_control]: the [Cc] category. *)
Definition is_control (c : char) : bool := ((c <? 32) || ((127 <=? c) && (c <=? 159)))%N.

(** The digits of [hex::encode]. *)
Definition hex_digit (d : N) : N := if (d <? 10)%N then (48 + d)%N else (87 + d)%N.
Definition hex_encode (bs : list N) : str := bs ≫= λ b, [hex_digit (b / 16); hex_digit (b mod 16)]%N.

(** [str::to_ascii_lowercase]. *)
Definition to_ascii_lowercase (s : str) : str :=
  (λ c, if ((65 <=? c) && (c <=? 90))%N then (c + 32)%N else c) <$> s.

Definition as_i64 (raw : value) : option i64 :=
  match raw with
  | Number n =>
      match number_as_i64 n with
      | Some z => Some z
      | None => Some (number_f64_as_i64 n)
      end
  | _ => None
  end.

(** [map.get(field).and_then(Value::as_str)]. *)
Definition field_str (m : Map) (field : str) : option str := jget field m ≫= as_str.
(** [map.get(field).and_then(Value::as_str).unwrap_or("")]. *)
Definition text_or_empty (m : Map) (field : str) : str := default [] (field_str m field).
(** [map.get(field).and_then(Value::as_i64)]. *)
Definition field_i64 (m : Map) (field : str) : option i64 := jget field m ≫= value_as_i64.
(** [as_i64(map.get(field).unwrap_or(&Value::Null))]. *)
Definition amount_field (m : Map) (field : str) : option i64 := as_i64 (default Null (jget field m)).

(** [finance_map_add]: the totals after the addition, or [None] when it is refused. *)
Definition finance_map_add (totals : gmap str i64) (key : str) (amount : i64)
    : option (gmap str i64) :=
  if is_empty key || (amount <? 0) then None
  else
    match checked_add_i64 (default 0 (totals !! key)) amount with
    | Some next => Some (<[key := next]> totals)
    | None => None
    end.

Definition withdrawable_debit_portion (balance withdrawable amount : i64) : i64 :=
  saturating_sub_i64 amount (saturating_sub_i64 balance withdrawable).

(** ** Ports *)

Record Account := { acc_id : str; acc_balance : i64 }.

(** The creature's balance account, or [None] when the creature is absent. *)
Definition account (creature_id : str) : tx (option Account) := λ w,
  match balance w creature_id with
  | Ok b => Ok (Some {| acc_id := creature_id; acc_balance := b |}, w)
  | Err PNotFound => Ok (None, w)
  | Err e => Err (Port e)
  end.

Definition store_account (id : str) (amount : i64) : tx unit := writing (set_balance id amount).

Definition is_project_member (user_id store_id : str) : tx bool :=
  asks (λ w, is_member w store_id user_id).

Definition finance_counter (kind : WalletCounter) (user : str) : tx i64 :=
  reading (λ w, counter w kind user).
Definition set_finance_counter (kind : WalletCounter) (user : str) (amount : i64) : tx unit :=
  writing (set_counter kind user amount).
Definition add_finance_counter (kind : WalletCounter) (user : str) (amount : i64) : tx i64 :=
  stepping (add_counter kind user amount).

Definition read_marker (m : FinanceMarker) : tx str := asks (λ w, marker w m).
Definition write_marker (m : FinanceMarker) (v : str) : tx unit := updates (put_marker m v).
Definition now_millis : tx i64 := asks w_now.

(** [get_doc(..).map_err(NotFound => denied(message))?]. *)
Definition doc_or_denied (family : FinanceDoc) (id path message : str) : tx Map := λ w,
  match get_doc w family id path with
  | Ok m => Ok (m, w)
  | Err PNotFound => Err (Denied message)
  | Err e => Err (Port e)
  end.
(** [get_doc(..).ok()], and with the empty document for an absent one. *)
Definition doc_ok (family : FinanceDoc) (id path : str) : tx (option Map) :=
  asks (λ w, match get_doc w family id path with Ok m => Some m | Err _ => None end).
Definition doc_or_empty (family : FinanceDoc) (id path : str) : tx Map :=
  asks (λ w, match get_doc w family id path with Ok m => m | Err _ => [] end).
Definition write_doc (family : FinanceDoc) (id path : str) (v : value) (merge : bool) : tx unit :=
  writing (put_doc family id path v merge).

Definition get_finance_hold (hold_id : str) : tx Map :=
  doc_or_denied DHold hold_id (lit "hold") (lit "hold not found").
Definition put_finance_hold (hold_id : str) (hold : Map) : tx unit :=
  write_doc DHold hold_id (lit "hold") (Object hold) false.
Definition get_finance_pool (pool_id : str) : tx Map :=
  doc_or_denied DPool pool_id (lit "pool") (lit "pool not found").
Definition put_finance_pool (pool_id : str) (pool : Map) : tx unit :=
  write_doc DPool pool_id (lit "pool") (Object pool) false.
Definition get_finance_pool_reservation (run_id : str) : tx Map :=
  doc_or_denied DPoolReservation run_id (lit "reservation") (lit "run reservation not found").
Definition put_finance_pool_reservation (run_id : str) (reservation : Map) : tx unit :=
  write_doc DPoolReservation run_id (lit "reservation") (Object reservation) false.
Definition put_finance_live_debit (run_id : str) (record : Map) : tx unit :=
  write_doc DLiveDebit run_id (lit "debit") (Object record) false.
Definition get_finance_payout (payout_id : str) : tx Map :=
  doc_or_denied DPayout payout_id (lit "payout") (lit "payout not found").
Definition put_finance_payout (payout_id : str) (payout : Map) : tx unit :=
  write_doc DPayout payout_id (lit "payout") (Object payout) false.

(** ** Project budgets *)

Definition finance_nonnegative_field (m : Map) (field : str) : tx i64 :=
  match jget field m with
  | None => ret 0
  | Some v =>
      let! amount := or_denied (as_i64 v) (lit "invalid project budget field: " ++ field) in
      if amount <? 0 then denied (lit "invalid project budget field: " ++ field) else ret amount
  end.

Section helpers.
Context `{Platform}.

Definition store_metadata_object (store_id path : str) : tx (option Map) :=
  asks (λ w, w_metadata w !! (store_id, path) ≫= λ text, from_str text ≫= as_object).

(** [ledger.gen_id()]. *)
Definition fresh_id : tx str := λ w, Ok (gen_id w).

Definition finance_hash (v : value) : str := hex_encode (sha256 (to_vec v)).

Definition valid_finance_origin (value : str) : bool :=
  valid_finance_id value
  || (negb (is_empty value || (2048 <? len value)
            || existsb (λ b, is_ascii_control b || is_ascii_whitespace b) (bytes value))
      && match url_parse value with
         | None => false
         | Some origin =>
             bool_decide (url_scheme origin ∈ [lit "http"; lit "https"; lit "ws"; lit "wss"])
             && is_some (url_host origin) && is_empty (url_username origin)
             && is_none (url_password origin)
             && bool_decide (url_path origin ∈ [lit ""; lit "/"])
             && is_none (url_query origin) && is_none (url_fragment origin)
         end).

Definition write_finance_journal (kind hold_id payer_id : str) (payload : value)
    (participants : list str) (now : i64) : tx str :=
  stepping (write_journal kind hold_id payer_id payload participants now).

Definition reserve_project_budget (project_id : str) (amount now : i64) : tx unit :=
  if is_empty project_id then ret tt
  else
    let! exists_ := asks (λ w, bool_decide (project_id ∈ w_stores w)) in
    if negb exists_ then denied (lit "project not found")
    else
      let! found := store_metadata_object project_id (lit "metadata") in
      let metadata := default [] found in
      let! configured_budget := finance_nonnegative_field metadata (lit "budgetMinor") in
      let! metadata_spent := finance_nonnegative_field metadata (lit "spentMinor") in
      let! state := doc_or_empty DProjectBudget project_id (lit "budget") in
      let! ledger_spent := finance_nonnegative_field state (lit "spentMinor") in
      let spent := Z.max ledger_spent metadata_spent in
      let! reserved := finance_nonnegative_field state (lit "reservedMinor") in
      let! committed :=
        or_denied (checked_add_i64 spent reserved ≫= λ v, checked_add_i64 v amount)
          (lit "project budget overflow") in
      if (0 <? configured_budget) && (configured_budget <? committed) then
        denied (lit "project budget exceeded")
      else
        let! next_reserved := or_denied (checked_add_i64 reserved amount)
                                (lit "project reservation overflow") in
        let state := jinsert (lit "projectId") (jtext project_id) state in
        let state := jinsert (lit "budgetMinor") (jint configured_budget) state in
        let state := jinsert (lit "spentMinor") (jint spent) state in
        let state := jinsert (lit "reservedMinor") (jint next_reserved) state in
        let state := jinsert (lit "updatedAt") (jint now) state in
        write_doc DProjectBudget project_id (lit "budget") (Object state) false.

Definition finalize_project_budget (project_id : str) (reserved_amount spent_amount now : i64)
    : tx unit :=
  if is_empty project_id then ret tt
  else
    let! state := doc_or_denied DProjectBudget project_id (lit "budget")
                    (lit "project budget reservation not found") in
    let! reserved := finance_nonnegative_field state (lit "reservedMinor") in
    let! spent := finance_nonnegative_field state (lit "spentMinor") in
    let! remaining := or_denied (checked_sub_i64 reserved reserved_amount)
                        (lit "project budget reservation underflow") in
    let! total_spent := or_denied (checked_add_i64 spent spent_amount)
                          (lit "project spend overflow") in
    let state := jinsert (lit "reservedMinor") (jint remaining) state in
    let state := jinsert (lit "spentMinor") (jint total_spent) state in
    let state := jinsert (lit "updatedAt") (jint now) state in
    write_doc DProjectBudget project_id (lit "budget") (Object state) false.

(** ** Account snapshot *)

(** [keys.sort(); keys.reverse(); keys.into_iter().take(limit)]. *)
Definition newest_ids (limit : usize) (keys : list str) : list str :=
  take (Z.to_nat limit) (reverse (merge_sort str_le keys)).

(** The documents of a family under [ids] that can be read. *)
Definition readable (family : FinanceDoc) (path : str) (w : World) (ids : list str) : list Map :=
  omap (λ id, match get_doc w family id path with Ok m => Some m | Err _ => None end) ids.

Definition finance_payout_records (user_id : str) (limit : usize) : tx (list value) :=
  asks (λ w, Object <$> readable DPayout (lit "payout") w
                          (newest_ids limit (payout_ids_by_user w user_id limit))).

Definition is_active_hold (hold : Map) : bool :=
  let status := text_or_empty hold (lit "status") in
  bool_decide (status = lit "open") || bool_decide (status = lit "running").

Definition open_pool_of (user_id : str) : tx value :=
  asks (λ w,
    let pool_id := pool_of_user w user_id in
    if is_empty pool_id then Null
    else match get_doc w DPool pool_id (lit "pool") with
         | Ok p => if bool_decide (field_str p (lit "status") = Some (lit "open"))
                   then Object p else Null
         | Err _ => Null
         end).

Definition financial_account_snapshot (user_id : str) (limit : usize) : tx value :=
  let! creature := account user_id in
  match creature with
  | None => denied (lit "financial account not found")
  | Some creature =>
      let! transactions := asks (λ w, Object <$> readable DJournal (lit "entry") w
        (newest_ids limit (journal_ids_by_user w user_id limit))) in
      let! active_holds := asks (λ w, Object <$> filter (λ h, is_active_hold h = true)
        (readable DHold (lit "hold") w (newest_ids 100 (hold_ids_by_payer w user_id 100)))) in
      let! pool := open_pool_of user_id in
      let! held := finance_counter Held user_id in
      let! debt := finance_counter Debt user_id in
      let! withdrawable := finance_counter Withdrawable user_id in
      let! payout_held := finance_counter PayoutHeld user_id in
      let! earned := finance_counter Earned user_id in
      let! spent := finance_counter Spent user_id in
      let! payouts := finance_payout_records user_id limit in
      ret (Object (jobject [
        (lit "userId", jtext user_id); (lit "availableMinor", jint (acc_balance creature));
        (lit "heldMinor", jint held); (lit "debtMinor", jint debt);
        (lit "withdrawableMinor", jint withdrawable); (lit "payoutHeldMinor", jint payout_held);
        (lit "earnedMinor", jint earned); (lit "spentMinor", jint spent);
        (lit "activeHolds", Array active_holds); (lit "pool", pool);
        (lit "transactions", Array transactions); (lit "payouts", Array payouts)]))
  end.

(** ** Market documents *)

Definition federated_finance_object (v : value) (label : str) : tx Map :=
  let! obj := or_denied (as_object v) (label ++ lit " must be an object") in
  if FEDERATED_FINANCE_MAX_RECORD_BYTES <? Z.of_nat (length (to_vec (Object obj)))
  then denied (label ++ lit " is too large") else ret obj.

Fixpoint federated_finance_safe_numbers (v : value) : bool :=
  match v with
  | Null | Bool _ | String_ _ => true
  | Number n =>
      match number_as_i64 n with
      | Some z => (0 <=? z) && (z <=? 9007199254740991)
      | None => false
      end
  | Array values => forallb federated_finance_safe_numbers values
  | Object members => forallb (λ kv, federated_finance_safe_numbers kv.2) members
  end.

Definition federated_finance_market_bucket (kind : str) : option str :=
  if bool_decide (kind = lit "agent") then Some (lit "agents")
  else if bool_decide (kind = lit "tool") then Some (lit "tools")
  else if bool_decide (kind = lit "frontend") then Some (lit "frontends")
  else None.

Definition billing_nodes : tx Map := doc_or_empty DBillingNodes (lit "") (lit "nodes").
Definition put_billing_nodes (nodes : value) : tx unit :=
  write_doc DBillingNodes (lit "") (lit "nodes") nodes true.
Definition market_doc (bucket : str) : tx Map := doc_or_empty DMarket bucket bucket.
Definition put_market_doc (bucket : str) (entries : value) : tx unit :=
  write_doc DMarket bucket bucket entries true.
Definition billing_current : tx Map := doc_or_empty DBillingCurrent (lit "") (lit "current").
Definition billing_catalog (version : str) : tx (option Map) :=
  doc_ok DBillingCatalog version (lit "catalog").
Definition put_billing_catalog (version : str) (catalog : value) : tx unit :=
  write_doc DBillingCatalog version (lit "catalog") catalog false.
Definition billing_quote (quote_id : str) : tx Map :=
  doc_or_denied DBillingQuote quote_id (lit "quote") (lit "billing quote not found").
Definition put_billing_quote (quote_id : str) (quote : value) : tx unit :=
  write_doc DBillingQuote quote_id (lit "quote") quote false.

End helpers.

(** ** Wire inputs *)

Record ReviewFinanceResourceInput := {
  rf_resource_id : str; rf_kind : str; rf_status : str; rf_reason : str }.
Record RetireFinanceResourceInput := { rt_resource_id : str; rt_kind : str }.
Record HoldBeneficiaryInput := { hb_user_id : str; hb_role : str; hb_max_amount : i64 }.
Record CreateHoldInput := {
  ch_quote_id : str; ch_pricing_version : str; ch_max_amount : i64;
  ch_settlement_authority : str; ch_meter_program_id : str; ch_expires_at : i64;
  ch_idempotency_key : str; ch_context_hash : str; ch_beneficiary_plan_hash : str;
  ch_beneficiaries : list HoldBeneficiaryInput }.
Record StartHoldInput := {
  sh_hold_id : str; sh_payer_user_id : str; sh_quote_id : str; sh_run_id : str }.
Record SettlementLineInput := {
  sl_user_id : str; sl_role : str; sl_amount : i64; sl_source_ref : str }.
Record SettleHoldInput := {
  th_hold_id : str; th_payer_user_id : str; th_quote_id : str; th_settlement_id : str;
  th_usage_hash : str; th_lines : list SettlementLineInput }.
Record ReleaseHoldInput := {
  rh_hold_id : str; rh_payer_user_id : str; rh_release_id : str; rh_reason : str }.
Record GetHoldInput := { gh_hold_id : str; gh_payer_user_id : str }.
Record GetFinancialAccountInput := { ga_user_id : str; ga_limit : i64 }.
Record RequestPayoutInput := { rp_request_id : str; rp_amount : i64; rp_destination_ref : str }.
Record ResolvePayoutInput := {
  vp_payout_id : str; vp_resolution_id : str; vp_status : str; vp_provider_reference : str;
  vp_reason : str }.
Record ListPayoutsInput := { lp_user_id : str; lp_limit : i64 }.
Record OpenPoolInput := {
  op_max_amount : i64; op_settlement_authority : str; op_meter_program_id : str;
  op_expires_at : i64; op_idempotency_key : str }.
Record RefreshPoolInput := {
  fp_pool_id : str; fp_refresh_id : str; fp_amount : i64; fp_expires_at : i64 }.
Record ClosePoolInput := { cp_pool_id : str; cp_close_id : str; cp_reason : str }.
Record ReservePoolInput := {
  vr_pool_id : str; vr_payer_user_id : str; vr_quote_id : str; vr_run_id : str;
  vr_max_amount : i64 }.
Record SettlePoolInput := {
  tp_pool_id : str; tp_payer_user_id : str; tp_quote_id : str; tp_run_id : str;
  tp_settlement_id : str; tp_usage_hash : str; tp_lines : list SettlementLineInput }.
Record ReleasePoolInput := {
  ep_pool_id : str; ep_payer_user_id : str; ep_run_id : str; ep_release_id : str;
  ep_reason : str }.
Record DebitPoolInput := {
  dp_pool_id : str; dp_payer_user_id : str; dp_quote_id : str; dp_run_id : str;
  dp_debit_id : str; dp_usage_hash : str; dp_lines : list SettlementLineInput }.
Record PaymentAdjustmentInput := {
  pa_user_id : str; pa_amount : i64; pa_kind : str; pa_reference : str;
  pa_idempotency_key : str; pa_metadata : value }.
Record TransferInput := { tr_amount : i64; tr_to_username : str }.
Record MintInput := { mt_to_user_email : str; mt_amount : i64; mt_idempotency_key : str }.

(** [serde_json::to_value] of the inputs the code serializes. *)
Definition HoldBeneficiaryInput_value (b : HoldBeneficiaryInput) : value :=
  Object (jobject [(lit "userId", jtext (hb_user_id b)); (lit "role", jtext (hb_role b));
                   (lit "maxAmount", jint (hb_max_amount b))]).
Definition CreateHoldInput_value (i : CreateHoldInput) : value :=
  Object (jobject [
    (lit "quoteId", jtext (ch_quote_id i)); (lit "pricingVersion", jtext (ch_pricing_version i));
    (lit "maxAmount", jint (ch_max_amount i));
    (lit "settlementAuthority", jtext (ch_settlement_authority i));
    (lit "meterProgramId", jtext (ch_meter_program_id i));
    (lit "expiresAt", jint (ch_expires_at i));
    (lit "idempotencyKey", jtext (ch_idempotency_key i));
    (lit "contextHash", jtext (ch_context_hash i));
    (lit "beneficiaryPlanHash", jtext (ch_beneficiary_plan_hash i));
    (lit "beneficiaries", Array (HoldBeneficiaryInput_value <$> ch_beneficiaries i))]).
Definition SettlementLineInput_value (l : SettlementLineInput) : value :=
  Object (jobject [(lit "userId", jtext (sl_user_id l)); (lit "role", jtext (sl_role l));
                   (lit "amount", jint (sl_amount l));
                   (lit "sourceRef", jtext (sl_source_ref l))]).
Definition RequestPayoutInput_value (i : RequestPayoutInput) : value :=
  Object (jobject [(lit "requestId", jtext (rp_request_id i)); (lit "amount", jint (rp_amount i));
                   (lit "destinationRef", jtext (rp_destination_ref i))]).
Definition ResolvePayoutInput_value (i : ResolvePayoutInput) : value :=
  Object (jobject [
    (lit "payoutId", jtext (vp_payout_id i)); (lit "resolutionId", jtext (vp_resolution_id i));
    (lit "status", jtext (vp_status i));
    (lit "providerReference", jtext (vp_provider_reference i));
    (lit "reason", jtext (vp_reason i))]).
Definition PaymentAdjustmentInput_value (i : PaymentAdjustmentInput) : value :=
  Object (jobject [
    (lit "userId", jtext (pa_user_id i)); (lit "amount", jint (pa_amount i));
    (lit "kind", jtext (pa_kind i)); (lit "reference", jtext (pa_reference i));
    (lit "idempotencyKey", jtext (pa_idempotency_key i)); (lit "metadata", pa_metadata i)]).

(** One entry of a journal payload. *)
Definition entry (account : str) (amount : i64) : value :=
  Object (jobject [(lit "account", jtext account); (lit "amount", jint amount)]).
(** [wallet:{user}:{part}]. *)
Definition wallet (user part : str) : str := lit "wallet:" ++ user ++ lit ":" ++ part.

(** ** Successful transactions

    What a successful transaction did, one lemma per construct; [tx_inv] applies them along a
    whole action. *)

Lemma bind_Ok {A B} (m : tx A) (f : A → tx B) w r :
  tx_bind m f w = Ok r → ∃ a w1, m w = Ok (a, w1) ∧ f a w1 = Ok r.
Proof. unfold tx_bind. destruct (m w) as [[a w1]|]; [|done]. eauto. Qed.

Lemma ret_Ok {A} (a : A) w b w' : ret a w = Ok (b, w') → b = a ∧ w' = w.
Proof. unfold ret. by intros [= <- <-]. Qed.

Lemma denied_Ok {A} s w (r : A * World) : denied s w = Ok r → False.
Proof. done. Qed.

Lemma or_denied_Ok {A} (o : option A) s w a w' :
  or_denied o s w = Ok (a, w') → o = Some a ∧ w' = w.
Proof. unfold or_denied. destruct o; [|done]. by intros [-> ->]%ret_Ok. Qed.

Lemma asks_Ok {A} (f : World → A) w a w' : asks f w = Ok (a, w') → a = f w ∧ w' = w.
Proof. unfold asks. by intros [= <- <-]. Qed.

Lemma updates_Ok (f : World → World) w u w' : updates f w = Ok (u, w') → w' = f w.
Proof. unfold updates. by intros [= _ <-]. Qed.

(** The balance of a creature, and the world after it was replaced. *)
Definition bal (w : World) (id : str) : option i64 := w_balances w !! id.
Definition put_balance (w : World) (id : str) (b : i64) : World :=
  set_balances w (<[id := b]> (w_balances w)).

Lemma account_Ok id w a w' :
  account id w = Ok (a, w') →
  w' = w ∧ a = (λ b, {| acc_id := id; acc_balance := b |}) <$> bal w id.
Proof.
  unfold account, balance, bal. destruct (w_balances w !! id); cbn; by intros [= <- <-].
Qed.

Lemma store_account_Ok id b w u w' :
  store_account id b w = Ok (u, w') →
  is_Some (bal w id) ∧ w' = put_balance w id b.
Proof.
  unfold store_account, writing, set_balance, bal.
  destruct (w_balances w !! id) eqn:E; [|done]. intros [= _ <-]. eauto.
Qed.

Lemma finance_counter_Ok kind user w a w' :
  finance_counter kind user w = Ok (a, w') →
  w' = w ∧ a = stored_counter w kind user ∧ 0 ≤ a.
Proof.
  unfold finance_counter, reading, counter. destruct (Z.ltb_spec (stored_counter w kind user) 0);
    [done|]. intros [= <- <-]. auto.
Qed.

Lemma set_finance_counter_Ok kind user n w u w' :
  set_finance_counter kind user n w = Ok (u, w') →
  0 ≤ n ∧ w' = put_account w user (λ a, set_account_value a kind n).
Proof.
  unfold set_finance_counter, writing, set_counter. destruct (Z.ltb_spec n 0); [done|].
  by intros [= _ <-].
Qed.

Lemma add_finance_counter_Ok kind user n w a w' :
  add_finance_counter kind user n w = Ok (a, w') →
  0 ≤ n ∧ 0 ≤ stored_counter w kind user ∧ a = stored_counter w kind user + n ∧ a ≤ i64_max ∧
  w' = put_account w user (λ acc, set_account_value acc kind a).
Proof.
  unfold add_finance_counter, stepping, add_counter, counter.
  destruct (Z.ltb_spec n 0); [done|].
  destruct (Z.ltb_spec (stored_counter w kind user) 0); [done|].
  unfold checked_add_i64. destruct (checked _ _ _) as [x|] eqn:E; [|done]. cbn.
  apply checked_Some in E as [-> ?]. unfold set_counter.
  destruct (Z.ltb_spec (stored_counter w kind user + n) 0); [done|].
  intros [= <- <-]. split_and!; try done; lia.
Qed.

Lemma doc_or_denied_Ok family id path s w m w' :
  doc_or_denied family id path s w = Ok (m, w') → w' = w ∧ get_doc w family id path = Ok m.
Proof. unfold doc_or_denied. destruct (get_doc _ _ _ _) as [|[]]; try done. by intros [= <- <-]. Qed.

(** An id-scoped family keeps its documents in rows. *)
Definition in_rows (family : FinanceDoc) : bool :=
  match family with DBillingCurrent | DBillingNodes | DMarket | DCreature => false | _ => true end.

Lemma get_doc_row w family id path :
  in_rows family = true →
  get_doc w family id path = ok_or (row_document <$> w_rows w !! (family, id)) PNotFound.
Proof. unfold get_doc. destruct family; done. Qed.

Lemma get_doc_row_Ok w family id path m :
  in_rows family = true → get_doc w family id path = Ok m →
  row_document <$> w_rows w !! (family, id) = Some m.
Proof. intros Hf. rewrite get_doc_row by done. destruct (_ <$> _); by intros [=->]. Qed.

(** The rows after a document of an id-scoped family was replaced. *)
Definition put_row (w : World) (family : FinanceDoc) (id : str) (m : Map) : World :=
  set_rows w (<[(family, id) := {| row_document := m; row_columns := columns_of family m |}]>
                (w_rows w)).

Lemma write_doc_Ok family id path m w u w' :
  in_rows family = true → write_doc family id path (Object m) false w = Ok (u, w') →
  w' = put_row w family id m.
Proof.
  unfold write_doc, writing, put_doc. destruct family; try done; intros _ [= _ <-]; done.
Qed.

Lemma write_marker_Ok m v w u w' : write_marker m v w = Ok (u, w') → w' = put_marker m v w.
Proof. apply updates_Ok. Qed.

Lemma each_Ok {A B} (P : B → World → Prop) (body : B → A → tx B) l acc w r w' :
  (∀ acc x w r w', x ∈ l → P acc w → body acc x w = Ok (r, w') → P r w') →
  P acc w → each body acc l w = Ok (r, w') → P r w'.
Proof.
  revert acc w. induction l as [|x l IH]; cbn [each]; intros acc w Hb Hp H.
  - apply ret_Ok in H as [-> ->]. done.
  - apply bind_Ok in H as (a & w1 & H1 & H2). eapply IH; [|by eapply Hb; [left|..]|done].
    intros. eapply Hb; eauto. by right.
Qed.

Lemma finance_nonnegative_field_Ok m field w a w' :
  finance_nonnegative_field m field w = Ok (a, w') →
  w' = w ∧ a = default 0 (amount_field m field) ∧ 0 ≤ a.
Proof.
  unfold finance_nonnegative_field, amount_field. destruct (jget field m) as [v|]; cbn.
  - intros (b & w1 & [Hb ->]%or_denied_Ok & H)%bind_Ok. rewrite Hb. cbv beta in H.
    destruct (Z.ltb_spec b 0); [by apply denied_Ok in H|].
    by apply ret_Ok in H as [-> ->].
  - by intros [-> ->]%ret_Ok.
Qed.

Lemma fresh_id_Ok `{Platform} w a w' :
  fresh_id w = Ok (a, w') → a = id_at (w_next w) ∧ w' = set_next w (2 + w_next w)%nat.
Proof. unfold fresh_id, gen_id. by intros [= <- <-]. Qed.

Lemma journal_Ok `{Platform} kind hold payer payload parts now w j w' :
  write_finance_journal kind hold payer payload parts now w = Ok (j, w') →
  ∃ m rows, j = id_at (w_next w) ∧
    w' = set_participants (put_row (set_next w (2 + w_next w)%nat) DJournal j m) rows.
Proof.
  unfold write_finance_journal, stepping, write_journal, gen_id, store. cbv zeta beta.
  cbv match. intros [= <- <-]. eexists _, _. split; reflexivity.
Qed.

(** One step of reading a successful transaction off its hypothesis. *)
Ltac tx_step H :=
  match type of H with
  | tx_bind _ _ _ = Ok _ =>
      let a := fresh "a" in let w := fresh "w" in let Hm := fresh "Hm" in
      apply bind_Ok in H as (a & w & Hm & H); cbv beta zeta in Hm, H; repeat tx_step Hm
  | _ => tx_atom H
  end
with tx_atom H :=
  lazymatch type of H with
  | ret _ _ = Ok _ => apply ret_Ok in H as [? ?]; subst
  | denied _ _ = Ok _ => by apply denied_Ok in H
  | or_denied _ _ _ = Ok _ => apply or_denied_Ok in H as [? ?]; subst
  | asks _ _ = Ok _ => apply asks_Ok in H as [? ?]; subst
  | now_millis _ = Ok _ => apply asks_Ok in H as [? ?]; subst
  | read_marker _ _ = Ok _ => apply asks_Ok in H as [? ?]; subst
  | doc_ok _ _ _ _ = Ok _ => apply asks_Ok in H as [? ?]; subst
  | doc_or_empty _ _ _ _ = Ok _ => apply asks_Ok in H as [? ?]; subst
  | store_metadata_object _ _ _ = Ok _ => apply asks_Ok in H as [? ?]; subst
  | is_project_member _ _ _ = Ok _ => apply asks_Ok in H as [? ?]; subst
  | finance_nonnegative_field _ _ _ = Ok _ =>
      apply finance_nonnegative_field_Ok in H as (? & ? & ?); subst
  | write_doc _ _ _ (Object _) false _ = Ok _ => apply write_doc_Ok in H; [subst|done]
  | updates _ _ = Ok _ => apply updates_Ok in H; subst
  | account _ _ = Ok _ => apply account_Ok in H as [? ?]; subst
  | store_account _ _ _ = Ok _ => apply store_account_Ok in H as [? ?]; subst
  | finance_counter _ _ _ = Ok _ => apply finance_counter_Ok in H as (? & ? & ?); subst
  | set_finance_counter _ _ _ _ = Ok _ => apply set_finance_counter_Ok in H as [? ?]; subst
  | add_finance_counter _ _ _ _ = Ok _ =>
      apply add_finance_counter_Ok in H as (? & ? & ? & ? & ?); subst
  | doc_or_denied _ _ _ _ _ = Ok _ => apply doc_or_denied_Ok in H as [? ?]; subst
  | get_finance_hold _ _ = Ok _ => apply doc_or_denied_Ok in H as [? ?]; subst
  | get_finance_pool _ _ = Ok _ => apply doc_or_denied_Ok in H as [? ?]; subst
  | get_finance_pool_reservation _ _ = Ok _ => apply doc_or_denied_Ok in H as [? ?]; subst
  | get_finance_payout _ _ = Ok _ => apply doc_or_denied_Ok in H as [? ?]; subst
  | billing_quote _ _ = Ok _ => apply doc_or_denied_Ok in H as [? ?]; subst
  | put_finance_hold _ _ _ = Ok _ => apply write_doc_Ok in H; [subst|done]
  | put_finance_pool _ _ _ = Ok _ => apply write_doc_Ok in H; [subst|done]
  | put_finance_pool_reservation _ _ _ = Ok _ => apply write_doc_Ok in H; [subst|done]
  | put_finance_live_debit _ _ _ = Ok _ => apply write_doc_Ok in H; [subst|done]
  | put_finance_payout _ _ _ = Ok _ => apply write_doc_Ok in H; [subst|done]
  | fresh_id _ = Ok _ => apply fresh_id_Ok in H as [? ?]; subst
  | write_marker _ _ _ = Ok _ => apply write_marker_Ok in H; subst
  | write_finance_journal _ _ _ _ _ _ _ = Ok _ =>
      let m := fresh "m" in let r := fresh "rows" in apply journal_Ok in H as (m & r & ? & ?); subst
  | (if ?b then _ else _) _ = Ok _ =>
      let E := fresh "G" in destruct b eqn:E; [try by apply denied_Ok in H|try by apply denied_Ok in H]
  | (match ?x with _ => _ end) _ = Ok _ =>
      let E := fresh "G" in destruct x eqn:E; try by apply denied_Ok in H
  end.
Ltac tx_inv H := cbv beta zeta in H; repeat tx_step H.
