(* ===== verification/FinanceHolds.v ===== *)
(** Holds, [crates/aseman-application/src/finance/actions.rs]: a payer authorizes an amount
    ([create_hold]), the settlement authority starts the run ([start_hold]) and settles it against
    the beneficiaries' caps ([settle_hold]), or the hold is released ([release_hold]).

    The loop that credits the beneficiaries is the same text in [settle_hold], [settle_pool] and
    [debit_pool]; its body is [credit_beneficiary], with the refusal of an absent beneficiary as an
    argument.  The loop over the settlement lines is shared by [settle_hold] and [settle_pool]
    ([settlement_line]). *)

From S2P Require Import Prelude Text Core Ports BTree Json FinanceLedger FinanceHelpers.

Open Scope Z_scope.
Open Scope tx_scope.

(** The key of a beneficiary role, ["{user}|{role}"]. *)
Definition cap_key (user role : str) : str := user ++ lit "|" ++ role.

Definition already_applied (name : str) (v : value) : value :=
  Object (jobject [(lit "applied", Bool false); (lit "alreadyApplied", Bool true); (name, v)]).

(** ** Caps and settlement lines *)

(** The caps of a beneficiary list as the settlement reads it from a document. *)
Fixpoint document_caps (message : str) (items : list value) (caps : gmap str i64)
    : tx (gmap str i64) :=
  match items with
  | [] => ret caps
  | item :: items =>
      let user_id := default [] (member (lit "userId") item ≫= as_str) in
      let role := default [] (member (lit "role") item ≫= as_str) in
      let cap := default 0 (as_i64 (default Null (member (lit "maxAmount") item))) in
      if is_empty user_id || is_empty role || (cap <=? 0) then denied message
      else document_caps message items (<[cap_key user_id role := cap]> caps)
  end.

Record line_rules := {
  lr_invalid : str;
  lr_payer : option (str * str);
  lr_unauthorized : str;
}.

Record line_totals := {
  lt_actual : i64;
  lt_allocated : gmap str i64;
  lt_credits : gmap str i64;
}.

Definition no_lines : line_totals := {| lt_actual := 0; lt_allocated := ∅; lt_credits := ∅ |}.

(** [totals.entry(key).or_insert(0)] and the checked addition to it. *)
Definition entry_add (totals : gmap str i64) (key : str) (amount : i64) : option i64 :=
  checked_add_i64 (default 0 (totals !! key)) amount.

Definition line_invalid (line : SettlementLineInput) : bool :=
  (sl_amount line <=? 0) || negb (valid_finance_id (sl_user_id line))
  || negb (valid_finance_id (sl_role line)) || (256 <? len (sl_source_ref line)).

Definition settlement_line (rules : line_rules) (caps : gmap str i64) (totals : line_totals)
    (line : SettlementLineInput) : tx line_totals :=
  if line_invalid line then denied (lr_invalid rules)
  else
    match lr_payer rules with
    | Some (payer, message) => if bool_decide (sl_user_id line = payer) then denied message
                               else ret tt
    | None => ret tt
    end ;;
    let key := cap_key (sl_user_id line) (sl_role line) in
    let! cap := or_denied (caps !! key) (lr_unauthorized rules) in
    let! actual := or_denied (checked_add_i64 (lt_actual totals) (sl_amount line))
                     (lit "settlement amount overflow") in
    let! role_total := or_denied (entry_add (lt_allocated totals) key (sl_amount line))
                         (lit "beneficiary role amount overflow") in
    if cap <? role_total then denied (lit "settlement exceeds beneficiary role cap")
    else
      let! credited := or_denied (entry_add (lt_credits totals) (sl_user_id line) (sl_amount line))
                         (lit "beneficiary amount overflow") in
      ret {| lt_actual := actual; lt_allocated := <[key := role_total]> (lt_allocated totals);
             lt_credits := <[sl_user_id line := credited]> (lt_credits totals) |}.

(** Credit one beneficiary: its earnings grow, its debt is repaid first, and the rest becomes
    available and withdrawable.  Answers the wallet credit and the debt repaid. *)
Definition credit_beneficiary (not_found : str) (user_id : str) (amount : i64) : tx (i64 * i64) :=
  add_finance_counter Earned user_id amount ;;
  let! receiver := account user_id in
  match receiver with
  | None => denied not_found
  | Some receiver =>
      let! debt := finance_counter Debt user_id in
      let debt_repaid := Z.min debt amount in
      let! wallet_credit := or_denied (checked_sub_i64 amount debt_repaid)
                              (lit "beneficiary credit underflow") in
      let! new_balance := or_denied (checked_add_i64 (acc_balance receiver) wallet_credit)
                            (lit "beneficiary balance overflow") in
      let! current := finance_counter Withdrawable user_id in
      let! withdrawable := or_denied (checked_add_i64 current wallet_credit)
                             (lit "withdrawable earnings overflow") in
      set_finance_counter Debt user_id (wrap_i64 (debt - debt_repaid)) ;;
      set_finance_counter Withdrawable user_id withdrawable ;;
      store_account user_id new_balance ;;
      ret (wallet_credit, debt_repaid)
  end.

Section holds.
Context `{Platform}.

(** ** create_hold *)

Definition finance_beneficiary_plan_hash (beneficiaries : list HoldBeneficiaryInput) : str :=
  hex_encode (sha256 (beneficiaries ≫= λ b,
    bytes (hb_user_id b) ++ [0%N] ++ bytes (hb_role b) ++ [0%N] ++ bytes (show (hb_max_amount b))
    ++ [10%N])).

Record plan := { pl_total : i64; pl_caps : gmap str i64; pl_participants : list str }.

Definition plan_beneficiary (payer_id : str) (p : plan) (b : HoldBeneficiaryInput) : tx plan :=
  if negb (valid_finance_id (hb_user_id b)) || negb (valid_finance_id (hb_role b))
     || (hb_max_amount b <=? 0)
  then denied (lit "invalid beneficiary")
  else if bool_decide (hb_user_id b = payer_id)
  then denied (lit "payer cannot be a hold beneficiary")
  else
    let key := cap_key (hb_user_id b) (hb_role b) in
    if is_some (pl_caps p !! key) then denied (lit "duplicate beneficiary role")
    else
      let! receiver := account (hb_user_id b) in
      if is_none receiver then denied (lit "beneficiary not found")
      else
        let! total := or_denied (checked_add_i64 (pl_total p) (hb_max_amount b))
                        (lit "beneficiary cap overflow") in
        ret {| pl_total := total; pl_caps := <[key := hb_max_amount b]> (pl_caps p);
               pl_participants := pl_participants p ++ [hb_user_id b] |}.

(** The checks of the request itself. *)
Definition create_hold_checks (input : CreateHoldInput) (now : i64) : tx unit :=
  if negb (valid_finance_id (ch_quote_id input))
     || negb (valid_finance_id (ch_pricing_version input))
     || negb (valid_finance_id (ch_idempotency_key input))
     || negb (valid_finance_id (ch_settlement_authority input))
     || negb (valid_finance_id (ch_meter_program_id input))
  then denied (lit "invalid quote, pricing, meter, authority, or idempotency identifier")
  else if negb (valid_finance_hash (ch_context_hash input))
          || negb (valid_finance_hash (ch_beneficiary_plan_hash input))
  then denied (lit "contextHash and beneficiaryPlanHash must be sha256 hex")
  else if ch_max_amount input <=? 0 then denied (lit "maxAmount must be greater than zero")
  else
    let! late :=
      if ch_expires_at input <=? now then ret true
      else
        let! last := or_denied (checked_add_i64 now FINANCE_HOLD_MAX_TTL_MS)
                       (lit "hold expiry overflow") in
        ret (last <? ch_expires_at input) in
    if late then denied (lit "expiresAt must be in the future and within 24 hours")
    else if is_empty (ch_beneficiaries input)
            || (FINANCE_MAX_BENEFICIARIES <? Z.of_nat (length (ch_beneficiaries input)))
    then denied (lit "beneficiaries must contain between 1 and 64 entries")
    else ret tt.

(** The checks against the published quote; answers its project. *)
Definition create_hold_quote (payer_id : str) (input : CreateHoldInput) (now : i64) : tx str :=
  let! quote := billing_quote (ch_quote_id input) in
  if negb (bool_decide (field_str quote (lit "payerUserId") = Some payer_id))
  then denied (lit "billing quote payer mismatch")
  else
    let quote_expires_at := default 0 (amount_field quote (lit "expiresAt")) in
    if (quote_expires_at <=? 0) || (quote_expires_at <? now)
    then denied (lit "billing quote expired")
    else if negb (bool_decide (jget (lit "holdRequest") quote = Some (CreateHoldInput_value input)))
    then denied (lit "hold request does not match server quote")
    else
      let project_id := text_or_empty quote (lit "projectId") in
      let! member_ := if is_empty project_id then ret true
                      else is_project_member payer_id project_id in
      if negb member_ then denied (lit "payer is not a project member")
      else
        let! authority := account (ch_settlement_authority input) in
        if is_none authority then denied (lit "settlement authority not found")
        else
          let! program := asks (λ w, bool_decide (ch_meter_program_id input ∈ w_programs w)) in
          if negb program then denied (lit "meter program not found")
          else if negb (bool_decide (finance_beneficiary_plan_hash (ch_beneficiaries input)
                                     = to_ascii_lowercase (ch_beneficiary_plan_hash input)))
          then denied (lit "beneficiary plan hash mismatch")
          else ret project_id.

(** The document of a new hold. *)
Definition new_hold (hold_id payer_id project_id request_hash : str) (input : CreateHoldInput)
    (withdrawable_amount now : i64) : Map :=
  jobject [
    (lit "version", jint 2); (lit "holdId", jtext hold_id); (lit "payerUserId", jtext payer_id);
    (lit "quoteId", jtext (ch_quote_id input));
    (lit "pricingVersion", jtext (ch_pricing_version input));
    (lit "maxAmount", jint (ch_max_amount input));
    (lit "remainingAmount", jint (ch_max_amount input));
    (lit "withdrawableAmount", jint withdrawable_amount);
    (lit "meterProgramId", jtext (ch_meter_program_id input));
    (lit "settlementAuthority", jtext (ch_settlement_authority input));
    (lit "expiresAt", jint (ch_expires_at input)); (lit "projectId", jtext project_id);
    (lit "contextHash", jtext (ch_context_hash input));
    (lit "beneficiaryPlanHash", jtext (to_ascii_lowercase (ch_beneficiary_plan_hash input)));
    (lit "beneficiaries", Array (HoldBeneficiaryInput_value <$> ch_beneficiaries input));
    (lit "requestHash", jtext request_hash); (lit "status", jtext (lit "open"));
    (lit "createdAt", jint now)].

(** The authorization of a new request: the balance falls, the held counter and the project
    reservation rise, and the hold is stored. *)
Definition authorize_hold (payer_id : str) (input : CreateHoldInput) (project_id request_hash : str)
    (now : i64) : tx value :=
  let! p := each (plan_beneficiary payer_id)
              {| pl_total := 0; pl_caps := ∅;
                 pl_participants := [payer_id; ch_settlement_authority input] |}
              (ch_beneficiaries input) in
  if negb (pl_total p =? ch_max_amount input)
  then denied (lit "beneficiary caps must equal maxAmount")
  else
    let! payer := account payer_id in
    match payer with
    | None => denied (lit "payer creature not found")
    | Some payer =>
        let! debt := finance_counter Debt payer_id in
        if 0 <? debt then denied (lit "wallet has outstanding payment debt")
        else
          let! withdrawable := finance_counter Withdrawable payer_id in
          if acc_balance payer <? withdrawable
          then denied (lit "withdrawable balance exceeds available balance")
          else
            let nonwithdrawable := wrap_i64 (acc_balance payer - withdrawable) in
            let withdrawable_amount := saturating_sub_i64 (ch_max_amount input) nonwithdrawable in
            let! new_balance := or_denied (checked_sub_i64 (acc_balance payer) (ch_max_amount input))
              (lit "insufficient available balance to authorize this run (funds may be held by another active run)") in
            let! new_withdrawable := or_denied (checked_sub_i64 withdrawable withdrawable_amount)
              (lit "could not authorize this run against the current balance (concurrent authorization in progress) " ++ [8212%N] ++ lit " please retry") in
            set_finance_counter Withdrawable payer_id new_withdrawable ;;
            let! current_held := finance_counter Held payer_id in
            let! held := or_denied (checked_add_i64 current_held (ch_max_amount input))
                           (lit "held balance overflow") in
            reserve_project_budget project_id (ch_max_amount input) now ;;
            let! hold_id := fresh_id in
            let hold := new_hold hold_id payer_id project_id request_hash input
                          withdrawable_amount now in
            store_account payer_id new_balance ;;
            set_finance_counter Held payer_id held ;;
            put_finance_hold hold_id hold ;;
            write_marker (MHoldRequest payer_id (ch_idempotency_key input))
              (hold_id ++ lit "|" ++ request_hash) ;;
            put_finance_hold hold_id hold ;;
            let! journal_id :=
              write_finance_journal (lit "hold.created") hold_id payer_id
                (Object (jobject [
                  (lit "entries", Array [
                     entry (wallet payer_id (lit "available")) (wrap_i64 (- ch_max_amount input));
                     entry (wallet payer_id (lit "held")) (ch_max_amount input)]);
                  (lit "quoteId", jtext (ch_quote_id input));
                  (lit "pricingVersion", jtext (ch_pricing_version input));
                  (lit "projectId", jtext project_id)]))
                (pl_participants p) now in
            ret (Object (jobject [(lit "applied", Bool true); (lit "hold", Object hold);
                                  (lit "journalId", jtext journal_id)]))
    end.

Definition create_hold (payer_id : str) (input : CreateHoldInput) : tx value :=
  let! now := now_millis in
  create_hold_checks input now ;;
  let! project_id := create_hold_quote payer_id input now in
  let request_hash := finance_hash (CreateHoldInput_value input) in
  let! previous := read_marker (MHoldRequest payer_id (ch_idempotency_key input)) in
  if negb (is_empty previous) then
    match split_once (chr "|") previous with
    | None => denied (lit "invalid hold idempotency record")
    | Some (hold_id, previous_hash) =>
        if negb (bool_decide (previous_hash = request_hash))
        then denied (lit "idempotency key already used with different request")
        else
          let! hold := get_finance_hold hold_id in
          ret (already_applied (lit "hold") (Object hold))
    end
  else authorize_hold payer_id input project_id request_hash now.

(** ** start_hold *)

Definition start_hold (authority_id : str) (input : StartHoldInput) : tx value :=
  let! now := now_millis in
  if negb (valid_finance_id (sh_hold_id input)) || negb (valid_finance_id (sh_payer_user_id input))
     || negb (valid_finance_id (sh_quote_id input)) || negb (valid_finance_id (sh_run_id input))
  then denied (lit "invalid run authorization")
  else
    let! previous_hold_id := read_marker (MRun authority_id (sh_run_id input)) in
    if negb (is_empty previous_hold_id) then
      if negb (bool_decide (previous_hold_id = sh_hold_id input))
      then denied (lit "run id already used for another hold")
      else
        let! hold := get_finance_hold (sh_hold_id input) in
        ret (already_applied (lit "hold") (Object hold))
    else
      let! hold := get_finance_hold (sh_hold_id input) in
      if negb (bool_decide (field_str hold (lit "status") = Some (lit "open")))
      then denied (lit "hold is not open")
      else if negb (bool_decide (field_str hold (lit "payerUserId") = Some (sh_payer_user_id input)))
      then denied (lit "payer does not match hold")
      else if negb (bool_decide (field_str hold (lit "quoteId") = Some (sh_quote_id input)))
      then denied (lit "quote does not match hold")
      else if negb (bool_decide (field_str hold (lit "settlementAuthority") = Some authority_id))
      then denied (lit "caller is not the settlement authority")
      else
        let expires_at := default 0 (amount_field hold (lit "expiresAt")) in
        if (expires_at <=? 0) || (expires_at <? now) then denied (lit "hold expired")
        else
          let hold := jinsert (lit "status") (jtext (lit "running")) hold in
          let hold := jinsert (lit "runId") (jtext (sh_run_id input)) hold in
          let hold := jinsert (lit "startedAt") (jint now) hold in
          put_finance_hold (sh_hold_id input) hold ;;
          write_marker (MRun authority_id (sh_run_id input)) (sh_hold_id input) ;;
          let! journal_id :=
            write_finance_journal (lit "hold.started") (sh_hold_id input) (sh_payer_user_id input)
              (Object (jobject [(lit "entries", Array []);
                                (lit "quoteId", jtext (sh_quote_id input));
                                (lit "runId", jtext (sh_run_id input))]))
              [sh_payer_user_id input; authority_id] now in
          ret (Object (jobject [(lit "applied", Bool true); (lit "hold", Object hold);
                                (lit "journalId", jtext journal_id)])).

(** ** settle_hold *)

(** The checks of a settlement against its hold; answers the hold's amount. *)
Definition settle_hold_checks (authority_id : str) (input : SettleHoldInput) (hold : Map) (now : i64)
    : tx i64 :=
  if negb (bool_decide (field_str hold (lit "status") = Some (lit "running")))
  then denied (lit "hold is not running")
  else if negb (bool_decide (field_str hold (lit "payerUserId") = Some (th_payer_user_id input)))
  then denied (lit "payer does not match hold")
  else if negb (bool_decide (field_str hold (lit "quoteId") = Some (th_quote_id input)))
  then denied (lit "quote does not match hold")
  else if negb (bool_decide (field_str hold (lit "runId") = Some (th_settlement_id input)))
  then denied (lit "settlement does not match authorized run")
  else if negb (bool_decide (field_str hold (lit "settlementAuthority") = Some authority_id))
  then denied (lit "caller is not the settlement authority")
  else
    let expires_at := default 0 (amount_field hold (lit "expiresAt")) in
    if (expires_at <=? 0) || (expires_at <? now) then denied (lit "hold expired")
    else
      let max_amount := default 0 (amount_field hold (lit "maxAmount")) in
      if max_amount <=? 0 then denied (lit "invalid hold amount") else ret max_amount.

Definition hold_line_rules : line_rules :=
  {| lr_invalid := lit "invalid settlement line"; lr_payer := None;
     lr_unauthorized := lit "settlement beneficiary role not authorized by hold" |}.

Record credited := {
  cr_participants : list str;
  cr_wallet_credits : gmap str i64;
  cr_debt_repays : gmap str i64;
}.

Definition credit_step (not_found : str) (c : credited) (ua : str * i64) : tx credited :=
  let! (wallet_credit, debt_repaid) := credit_beneficiary not_found ua.1 ua.2 in
  ret {| cr_participants := cr_participants c ++ [ua.1];
         cr_wallet_credits := <[ua.1 := wallet_credit]> (cr_wallet_credits c);
         cr_debt_repays := <[ua.1 := debt_repaid]> (cr_debt_repays c) |}.

(** Give the unspent part of a hold back to the payer. *)
Definition refund_payer (payer_id : str) (hold : Map) (refund_amount max_amount : i64)
    : tx (i64 * i64) :=
  let! payer := account payer_id in
  match payer with
  | None => denied (lit "payer creature not found")
  | Some payer =>
      let! new_balance := or_denied (checked_add_i64 (acc_balance payer) refund_amount)
                            (lit "payer balance overflow") in
      let held_withdrawable := default 0 (amount_field hold (lit "withdrawableAmount")) in
      let withdrawable_refund := Z.min refund_amount held_withdrawable in
      let! withdrawable_spent := or_denied (checked_sub_i64 held_withdrawable withdrawable_refund)
                                   (lit "withdrawable settlement underflow") in
      let! current := finance_counter Withdrawable payer_id in
      let! payer_withdrawable := or_denied (checked_add_i64 current withdrawable_refund)
                                   (lit "withdrawable refund overflow") in
      set_finance_counter Withdrawable payer_id payer_withdrawable ;;
      store_account payer_id new_balance ;;
      let! current_held := finance_counter Held payer_id in
      let! held := or_denied (checked_sub_i64 current_held max_amount)
                     (lit "held balance underflow") in
      set_finance_counter Held payer_id held ;;
      ret (withdrawable_refund, withdrawable_spent)
  end.

(** The settled document. *)
Definition settled_hold (hold : Map) (input : SettleHoldInput)
    (actual_amount refund_amount withdrawable_refund withdrawable_spent now : i64) : Map :=
  let hold := jinsert (lit "status") (jtext (lit "settled")) hold in
  let hold := jinsert (lit "remainingAmount") (jint 0) hold in
  let hold := jinsert (lit "actualAmount") (jint actual_amount) hold in
  let hold := jinsert (lit "refundedAmount") (jint refund_amount) hold in
  let hold := jinsert (lit "withdrawableRefundedAmount") (jint withdrawable_refund) hold in
  let hold := jinsert (lit "withdrawableSpentAmount") (jint withdrawable_spent) hold in
  let hold := jinsert (lit "settlementId") (jtext (th_settlement_id input)) hold in
  let hold := jinsert (lit "usageHash") (jtext (th_usage_hash input)) hold in
  let hold := jinsert (lit "settlementLines")
                (Array (SettlementLineInput_value <$> th_lines input)) hold in
  jinsert (lit "finalizedAt") (jint now) hold.

(** The journal entries of a settlement: the hold, the refund, and each beneficiary. *)
Definition settlement_entries (payer_id : str) (max_amount refund_amount : i64)
    (credits : list (str * i64)) (c : credited) : list value :=
  [entry (wallet payer_id (lit "held")) (wrap_i64 (- max_amount));
   entry (wallet payer_id (lit "available")) refund_amount]
  ++ (credits ≫= λ '(user_id, gross_amount),
        let wallet_credit := default 0 (cr_wallet_credits c !! user_id) in
        let debt_repaid := default 0 (cr_debt_repays c !! user_id) in
        Object (jobject [(lit "account", jtext (wallet user_id (lit "available")));
                         (lit "amount", jint wallet_credit);
                         (lit "grossAmount", jint gross_amount)])
        :: (if 0 <? debt_repaid
            then [entry (wallet user_id (lit "debt")) (wrap_i64 (- debt_repaid))] else [])).

(** What a settlement does once its checks have passed. *)
Definition apply_settlement (authority_id : str) (input : SettleHoldInput) (hold : Map)
    (max_amount : i64) (totals : line_totals) (now : i64) : tx value :=
  let! refund_amount := or_denied (checked_sub_i64 max_amount (lt_actual totals))
                          (lit "refund underflow") in
  finalize_project_budget (text_or_empty hold (lit "projectId")) max_amount (lt_actual totals) now ;;
  add_finance_counter Spent (th_payer_user_id input) (lt_actual totals) ;;
  let credits := hash_iter (lt_credits totals) in
  let! c := each (credit_step (lit "settlement beneficiary not found"))
              {| cr_participants := [th_payer_user_id input; authority_id];
                 cr_wallet_credits := ∅; cr_debt_repays := ∅ |} credits in
  let! (withdrawable_refund, withdrawable_spent) :=
    refund_payer (th_payer_user_id input) hold refund_amount max_amount in
  let hold := settled_hold hold input (lt_actual totals) refund_amount withdrawable_refund
                withdrawable_spent now in
  put_finance_hold (th_hold_id input) hold ;;
  write_marker (MSettlement authority_id (th_settlement_id input)) (th_hold_id input) ;;
  let! journal_id :=
    write_finance_journal (lit "hold.settled") (th_hold_id input) (th_payer_user_id input)
      (Object (jobject [
        (lit "entries", Array (settlement_entries (th_payer_user_id input) max_amount refund_amount
                                 credits c));
        (lit "quoteId", jtext (th_quote_id input));
        (lit "settlementId", jtext (th_settlement_id input));
        (lit "usageHash", jtext (th_usage_hash input));
        (lit "actualAmount", jint (lt_actual totals)); (lit "refundedAmount", jint refund_amount);
        (lit "settlementLines", Array (SettlementLineInput_value <$> th_lines input))]))
      (cr_participants c) now in
  ret (Object (jobject [(lit "applied", Bool true); (lit "hold", Object hold);
                        (lit "journalId", jtext journal_id)])).

Definition settle_hold (authority_id : str) (input : SettleHoldInput) : tx value :=
  let! now := now_millis in
  if negb (valid_finance_id (th_hold_id input)) || negb (valid_finance_id (th_payer_user_id input))
     || negb (valid_finance_id (th_quote_id input))
     || negb (valid_finance_id (th_settlement_id input))
     || negb (valid_finance_hash (th_usage_hash input))
  then denied (lit "invalid settlement identifiers or usageHash")
  else
    let! previous_hold_id := read_marker (MSettlement authority_id (th_settlement_id input)) in
    if negb (is_empty previous_hold_id) then
      if negb (bool_decide (previous_hold_id = th_hold_id input))
      then denied (lit "settlement id already used for another hold")
      else
        let! hold := get_finance_hold (th_hold_id input) in
        ret (already_applied (lit "hold") (Object hold))
    else
      let! hold := get_finance_hold (th_hold_id input) in
      let! max_amount := settle_hold_checks authority_id input hold now in
      let! beneficiaries := or_denied (jget (lit "beneficiaries") hold ≫= as_array)
                              (lit "hold beneficiaries missing") in
      let! caps := document_caps (lit "invalid hold beneficiary") beneficiaries ∅ in
      let! totals := each (settlement_line hold_line_rules caps) no_lines (th_lines input) in
      if max_amount <? lt_actual totals then denied (lit "settlement exceeds hold")
      else apply_settlement authority_id input hold max_amount totals now.

(** ** release_hold *)

Definition released_hold (hold : Map) (input : ReleaseHoldInput) (status : str)
    (max_amount withdrawable_refund now : i64) : Map :=
  let hold := jinsert (lit "status") (jtext status) hold in
  let hold := jinsert (lit "remainingAmount") (jint 0) hold in
  let hold := jinsert (lit "refundedAmount") (jint max_amount) hold in
  let hold := jinsert (lit "withdrawableRefundedAmount") (jint withdrawable_refund) hold in
  let hold := jinsert (lit "releaseId") (jtext (rh_release_id input)) hold in
  let hold := jinsert (lit "releaseReason") (jtext (rh_reason input)) hold in
  jinsert (lit "finalizedAt") (jint now) hold.

(** The checks of a release against its hold; answers the hold's amount. *)
Definition release_hold_checks (caller_id : str) (input : ReleaseHoldInput) (hold : Map) (now : i64)
    : tx i64 :=
  let active_status := text_or_empty hold (lit "status") in
  if negb (is_active_hold hold) then denied (lit "hold is not active")
  else if negb (bool_decide (field_str hold (lit "payerUserId") = Some (rh_payer_user_id input)))
  then denied (lit "payer does not match hold")
  else
    let authority := text_or_empty hold (lit "settlementAuthority") in
    let expires_at := default 0 (amount_field hold (lit "expiresAt")) in
    let is_payer := bool_decide (caller_id = rh_payer_user_id input) in
    let payer_open_release := is_payer && bool_decide (active_status = lit "open") in
    let payer_expired_release := is_payer && (expires_at <=? now) in
    if negb (bool_decide (caller_id = authority)) && negb payer_open_release
       && negb payer_expired_release
    then denied (lit "only the authority may release an active hold")
    else
      let max_amount := default 0 (amount_field hold (lit "maxAmount")) in
      if max_amount <=? 0 then denied (lit "invalid hold amount") else ret max_amount.

Definition release_hold (caller_id : str) (input : ReleaseHoldInput) : tx value :=
  let! now := now_millis in
  if negb (valid_finance_id (rh_hold_id input)) || negb (valid_finance_id (rh_payer_user_id input))
     || negb (valid_finance_id (rh_release_id input)) || (256 <? len (rh_reason input))
  then denied (lit "invalid release request")
  else
    let! previous_hold_id := read_marker (MRelease caller_id (rh_release_id input)) in
    if negb (is_empty previous_hold_id) then
      if negb (bool_decide (previous_hold_id = rh_hold_id input))
      then denied (lit "release id already used for another hold")
      else
        let! hold := get_finance_hold (rh_hold_id input) in
        ret (already_applied (lit "hold") (Object hold))
    else
      let! hold := get_finance_hold (rh_hold_id input) in
      let! max_amount := release_hold_checks caller_id input hold now in
      finalize_project_budget (text_or_empty hold (lit "projectId")) max_amount 0 now ;;
      let! payer := account (rh_payer_user_id input) in
      match payer with
      | None => denied (lit "payer creature not found")
      | Some payer =>
          let! new_balance := or_denied (checked_add_i64 (acc_balance payer) max_amount)
                                (lit "payer balance overflow") in
          let withdrawable_refund := default 0 (amount_field hold (lit "withdrawableAmount")) in
          let! current := finance_counter Withdrawable (rh_payer_user_id input) in
          let! withdrawable := or_denied (checked_add_i64 current withdrawable_refund)
                                 (lit "withdrawable refund overflow") in
          set_finance_counter Withdrawable (rh_payer_user_id input) withdrawable ;;
          store_account (rh_payer_user_id input) new_balance ;;
          let! current_held := finance_counter Held (rh_payer_user_id input) in
          let! held := or_denied (checked_sub_i64 current_held max_amount)
                         (lit "held balance underflow") in
          set_finance_counter Held (rh_payer_user_id input) held ;;
          let expires_at := default 0 (amount_field hold (lit "expiresAt")) in
          let status := if expires_at <=? now then lit "expired" else lit "released" in
          let authority := text_or_empty hold (lit "settlementAuthority") in
          let hold := released_hold hold input status max_amount withdrawable_refund now in
          put_finance_hold (rh_hold_id input) hold ;;
          write_marker (MRelease caller_id (rh_release_id input)) (rh_hold_id input) ;;
          let! journal_id :=
            write_finance_journal (lit "hold.released") (rh_hold_id input) (rh_payer_user_id input)
              (Object (jobject [
                (lit "entries", Array [
                   entry (wallet (rh_payer_user_id input) (lit "held")) (wrap_i64 (- max_amount));
                   entry (wallet (rh_payer_user_id input) (lit "available")) max_amount]);
                (lit "status", jtext status); (lit "reason", jtext (rh_reason input))]))
              [rh_payer_user_id input; authority] now in
          ret (Object (jobject [(lit "applied", Bool true); (lit "hold", Object hold);
                                (lit "journalId", jtext journal_id)]))
      end.

(** ** get_hold *)

Definition get_hold (caller_id : str) (input : GetHoldInput) : tx value :=
  if negb (valid_finance_id (gh_hold_id input)) then denied (lit "invalid hold id")
  else
    let! hold := get_finance_hold (gh_hold_id input) in
    let payer_id := text_or_empty hold (lit "payerUserId") in
    if negb (is_empty (gh_payer_user_id input))
       && negb (bool_decide (gh_payer_user_id input = payer_id))
    then denied (lit "payer does not match hold")
    else
      let authority := text_or_empty hold (lit "settlementAuthority") in
      let is_beneficiary :=
        match jget (lit "beneficiaries") hold ≫= as_array with
        | Some items =>
            existsb (λ item, bool_decide (member (lit "userId") item ≫= as_str = Some caller_id))
              items
        | None => false
        end in
      if negb (bool_decide (caller_id = payer_id)) && negb (bool_decide (caller_id = authority))
         && negb is_beneficiary
      then denied (lit "access denied")
      else ret (Object (jobject [(lit "hold", Object hold)])).

End holds.
