(* ===== verification/FinancePools.v ===== *)
(** Prepaid pools, [crates/aseman-application/src/finance/actions.rs]: a payer moves available
    balance into a pool ([open_pool], [refresh_pool]), the settlement authority reserves slices of
    it for runs and settles or releases them ([reserve_pool], [settle_pool], [release_pool]) or
    debits it live ([debit_pool]), and what remains is refunded when the pool closes
    ([close_pool]). *)

From S2P Require Import Prelude Text Core Ports BTree Json FinanceLedger FinanceHelpers.
From S2P Require Import FinanceHolds.

Open Scope Z_scope.
Open Scope tx_scope.

(** [as_i64(pool.get(field).unwrap_or(&Value::Null)).unwrap_or(0)]. *)
Definition amount_or_zero (m : Map) (field : str) : i64 := default 0 (amount_field m field).

(** Draw [amount] from the payer's balance into the held counter, as opening and refreshing a pool
    do; answers the part drawn from the withdrawable balance. *)
Definition fund_pool (payer_id : str) (amount : i64) (insufficient : str) : tx i64 :=
  let! payer := account payer_id in
  match payer with
  | None => denied (lit "payer creature not found")
  | Some payer =>
      let! withdrawable := finance_counter Withdrawable payer_id in
      if acc_balance payer <? withdrawable
      then denied (lit "withdrawable balance exceeds available balance")
      else
        let portion := withdrawable_debit_portion (acc_balance payer) withdrawable amount in
        let! new_balance := or_denied (checked_sub_i64 (acc_balance payer) amount) insufficient in
        let! new_withdrawable := or_denied (checked_sub_i64 withdrawable portion)
                                   (lit "withdrawable composition underflow") in
        set_finance_counter Withdrawable payer_id new_withdrawable ;;
        store_account payer_id new_balance ;;
        let! current_held := finance_counter Held payer_id in
        let! held := or_denied (checked_add_i64 current_held amount)
                       (lit "held balance overflow") in
        set_finance_counter Held payer_id held ;;
        ret portion
  end.

Section pools.
Context `{Platform}.

(** ** open_pool *)

Definition new_pool (pool_id payer_id : str) (input : OpenPoolInput)
    (withdrawable_amount now : i64) : Map :=
  jobject [
    (lit "version", jint 1); (lit "poolId", jtext pool_id); (lit "payerUserId", jtext payer_id);
    (lit "maxAmount", jint (op_max_amount input)); (lit "remaining", jint (op_max_amount input));
    (lit "reserved", jint 0); (lit "spent", jint 0); (lit "refunded", jint 0);
    (lit "withdrawableAmount", jint withdrawable_amount);
    (lit "settlementAuthority", jtext (op_settlement_authority input));
    (lit "meterProgramId", jtext (op_meter_program_id input)); (lit "status", jtext (lit "open"));
    (lit "expiresAt", jint (op_expires_at input));
    (lit "idempotencyKey", jtext (op_idempotency_key input));
    (lit "createdAt", jint now); (lit "updatedAt", jint now)].

Definition open_pool (payer_id : str) (input : OpenPoolInput) : tx value :=
  let! now := now_millis in
  if negb (valid_finance_id (op_settlement_authority input))
     || negb (valid_finance_id (op_meter_program_id input))
     || negb (valid_finance_id (op_idempotency_key input))
  then denied (lit "invalid authority, meter, or idempotency identifier")
  else if op_max_amount input <=? 0 then denied (lit "maxAmount must be greater than zero")
  else if op_expires_at input <=? now then denied (lit "pool expiry must be in the future")
  else
    let! existing := read_marker (MPoolOpen payer_id (op_idempotency_key input)) in
    if negb (is_empty existing) then
      let! pool := get_finance_pool existing in
      ret (already_applied (lit "pool") (Object pool))
    else
      let! debt := finance_counter Debt payer_id in
      if 0 <? debt then denied (lit "wallet has outstanding payment debt")
      else
        let! withdrawable_amount := fund_pool payer_id (op_max_amount input)
                                      (lit "insufficient available balance to open this pool") in
        let! pool_id := fresh_id in
        let pool := new_pool pool_id payer_id input withdrawable_amount now in
        put_finance_pool pool_id pool ;;
        write_marker (MPoolOpen payer_id (op_idempotency_key input)) pool_id ;;
        updates (put_pool_of_user payer_id pool_id) ;;
        let! journal_id :=
          write_finance_journal (lit "pool.opened") pool_id payer_id
            (Object (jobject [(lit "maxAmount", jint (op_max_amount input));
                              (lit "withdrawableAmount", jint withdrawable_amount)]))
            [payer_id; op_settlement_authority input] now in
        ret (Object (jobject [(lit "applied", Bool true); (lit "pool", Object pool);
                              (lit "journalId", jtext journal_id)])).

(** ** refresh_pool *)

Definition refresh_pool (payer_id : str) (input : RefreshPoolInput) : tx value :=
  let! now := now_millis in
  if negb (valid_finance_id (fp_pool_id input)) || negb (valid_finance_id (fp_refresh_id input))
  then denied (lit "invalid pool or refresh identifier")
  else if fp_amount input <=? 0 then denied (lit "refresh amount must be greater than zero")
  else
    let! existing := read_marker (MPoolRefresh payer_id (fp_refresh_id input)) in
    if negb (is_empty existing) then
      let! pool := get_finance_pool (fp_pool_id input) in
      ret (already_applied (lit "pool") (Object pool))
    else
      let! debt := finance_counter Debt payer_id in
      if 0 <? debt then denied (lit "wallet has outstanding payment debt")
      else
        let! pool := get_finance_pool (fp_pool_id input) in
        if negb (bool_decide (field_str pool (lit "payerUserId") = Some payer_id))
        then denied (lit "pool does not belong to caller")
        else if negb (bool_decide (field_str pool (lit "status") = Some (lit "open")))
        then denied (lit "pool is not open")
        else
          let! withdrawable_add := fund_pool payer_id (fp_amount input)
            (lit "insufficient available balance to refresh this pool") in
          let! max_amount := or_denied
            (checked_add_i64 (amount_or_zero pool (lit "maxAmount")) (fp_amount input))
            (lit "pool maxAmount overflow") in
          let! remaining := or_denied
            (checked_add_i64 (amount_or_zero pool (lit "remaining")) (fp_amount input))
            (lit "pool remaining overflow") in
          let! pool_withdrawable := or_denied
            (checked_add_i64 (amount_or_zero pool (lit "withdrawableAmount")) withdrawable_add)
            (lit "pool withdrawable overflow") in
          let pool := if now <? fp_expires_at input
                      then jinsert (lit "expiresAt") (jint (fp_expires_at input)) pool else pool in
          let pool := jinsert (lit "maxAmount") (jint max_amount) pool in
          let pool := jinsert (lit "remaining") (jint remaining) pool in
          let pool := jinsert (lit "withdrawableAmount") (jint pool_withdrawable) pool in
          let pool := jinsert (lit "updatedAt") (jint now) pool in
          put_finance_pool (fp_pool_id input) pool ;;
          write_marker (MPoolRefresh payer_id (fp_refresh_id input)) (fp_pool_id input) ;;
          let authority := text_or_empty pool (lit "settlementAuthority") in
          let! journal_id :=
            write_finance_journal (lit "pool.refreshed") (fp_pool_id input) payer_id
              (Object (jobject [(lit "amount", jint (fp_amount input));
                                (lit "maxAmount", jint max_amount)]))
              [payer_id; authority] now in
          ret (Object (jobject [(lit "applied", Bool true); (lit "pool", Object pool);
                                (lit "journalId", jtext journal_id)])).

(** ** close_pool *)

(** The refund of a closing pool. *)
Definition refund_pool (payer_id : str) (remaining withdrawable_refund : i64) : tx unit :=
  let! payer := account payer_id in
  match payer with
  | None => denied (lit "payer creature not found")
  | Some payer =>
      let! new_balance := or_denied (checked_add_i64 (acc_balance payer) remaining)
                            (lit "payer balance overflow") in
      let! current := finance_counter Withdrawable payer_id in
      let! withdrawable := or_denied (checked_add_i64 current withdrawable_refund)
                             (lit "withdrawable refund overflow") in
      set_finance_counter Withdrawable payer_id withdrawable ;;
      store_account payer_id new_balance ;;
      let! current_held := finance_counter Held payer_id in
      let! held := or_denied (checked_sub_i64 current_held remaining)
                     (lit "held balance underflow") in
      set_finance_counter Held payer_id held
  end.

Definition closed_pool (pool : Map) (input : ClosePoolInput) (refunded now : i64) : Map :=
  let pool := jinsert (lit "status") (jtext (lit "closed")) pool in
  let pool := jinsert (lit "refunded") (jint refunded) pool in
  let pool := jinsert (lit "remaining") (jint 0) pool in
  let pool := jinsert (lit "closeId") (jtext (cp_close_id input)) pool in
  let pool := jinsert (lit "closeReason") (jtext (cp_reason input)) pool in
  jinsert (lit "updatedAt") (jint now) pool.

Definition close_pool (caller_id : str) (input : ClosePoolInput) : tx value :=
  let! now := now_millis in
  if negb (valid_finance_id (cp_pool_id input)) || negb (valid_finance_id (cp_close_id input))
  then denied (lit "invalid pool or close identifier")
  else
    let! pool := get_finance_pool (cp_pool_id input) in
    let payer_id := text_or_empty pool (lit "payerUserId") in
    let authority := text_or_empty pool (lit "settlementAuthority") in
    if negb (bool_decide (caller_id = payer_id)) && negb (bool_decide (caller_id = authority))
    then denied (lit "caller may not close this pool")
    else
      let status := text_or_empty pool (lit "status") in
      if bool_decide (status = lit "closed") then
        let! closed := read_marker (MPoolClose (cp_pool_id input)) in
        if bool_decide (closed = cp_close_id input)
        then ret (already_applied (lit "pool") (Object pool))
        else denied (lit "pool is already closed")
      else if negb (bool_decide (status = lit "open")) then denied (lit "pool is not open")
      else if negb (amount_or_zero pool (lit "reserved") =? 0)
      then denied (lit "pool has in-flight run reservations; cannot close yet")
      else
        let remaining := amount_or_zero pool (lit "remaining") in
        let withdrawable_refund :=
          Z.min remaining (amount_or_zero pool (lit "withdrawableAmount")) in
        (if 0 <? remaining then refund_pool payer_id remaining withdrawable_refund else ret tt) ;;
        let! refunded := or_denied
          (checked_add_i64 (amount_or_zero pool (lit "refunded")) remaining)
          (lit "pool refunded overflow") in
        let pool := closed_pool pool input refunded now in
        put_finance_pool (cp_pool_id input) pool ;;
        write_marker (MPoolClose (cp_pool_id input)) (cp_close_id input) ;;
        let! journal_id :=
          write_finance_journal (lit "pool.closed") (cp_pool_id input) payer_id
            (Object (jobject [(lit "refunded", jint remaining);
                              (lit "withdrawableRefunded", jint withdrawable_refund)]))
            [payer_id; authority] now in
        ret (Object (jobject [(lit "applied", Bool true); (lit "pool", Object pool);
                              (lit "journalId", jtext journal_id)])).

(** ** reserve_pool *)

Definition new_reservation (input : ReservePoolInput) (now : i64) : Map :=
  jobject [
    (lit "runId", jtext (vr_run_id input)); (lit "poolId", jtext (vr_pool_id input));
    (lit "payerUserId", jtext (vr_payer_user_id input)); (lit "quoteId", jtext (vr_quote_id input));
    (lit "amount", jint (vr_max_amount input)); (lit "status", jtext (lit "reserved"));
    (lit "createdAt", jint now)].

Definition reserve_pool (authority_id : str) (input : ReservePoolInput) : tx value :=
  let! now := now_millis in
  if negb (valid_finance_id (vr_pool_id input)) || negb (valid_finance_id (vr_payer_user_id input))
     || negb (valid_finance_id (vr_quote_id input)) || negb (valid_finance_id (vr_run_id input))
  then denied (lit "invalid pool, payer, quote, or run identifier")
  else if vr_max_amount input <=? 0
  then denied (lit "reservation amount must be greater than zero")
  else
    let! existing := doc_ok DPoolReservation (vr_run_id input) (lit "reservation") in
    match existing with
    | Some existing =>
        if bool_decide (field_str existing (lit "poolId") = Some (vr_pool_id input))
        then ret (already_applied (lit "reservation") (Object existing))
        else denied (lit "run already reserved against another pool")
    | None =>
        let! pool := get_finance_pool (vr_pool_id input) in
        if negb (bool_decide (field_str pool (lit "settlementAuthority") = Some authority_id))
        then denied (lit "caller is not this pool's settlement authority")
        else if negb (bool_decide (field_str pool (lit "payerUserId")
                                   = Some (vr_payer_user_id input)))
        then denied (lit "payer does not match pool")
        else if negb (bool_decide (field_str pool (lit "status") = Some (lit "open")))
        then denied (lit "pool is not open")
        else
          let expires_at := amount_or_zero pool (lit "expiresAt") in
          if (expires_at <=? 0) || (expires_at <? now) then denied (lit "pool expired")
          else
            let! quote := billing_quote (vr_quote_id input) in
            if negb (bool_decide (field_str quote (lit "payerUserId")
                                  = Some (vr_payer_user_id input)))
            then denied (lit "quote payer does not match reservation")
            else if negb (bool_decide (field_str quote (lit "requestId") = Some (vr_run_id input)))
            then denied (lit "quote is not bound to this run")
            else if negb (bool_decide (amount_field quote (lit "maxAmount")
                                       = Some (vr_max_amount input)))
            then denied (lit "reservation amount does not match the quote")
            else
              let remaining := amount_or_zero pool (lit "remaining") in
              if remaining <? vr_max_amount input
              then denied (lit "pool has insufficient remaining balance for this run")
              else
                let! reserved := or_denied
                  (checked_add_i64 (amount_or_zero pool (lit "reserved")) (vr_max_amount input))
                  (lit "pool reserved overflow") in
                let pool := jinsert (lit "remaining")
                              (jint (wrap_i64 (remaining - vr_max_amount input))) pool in
                let pool := jinsert (lit "reserved") (jint reserved) pool in
                let pool := jinsert (lit "updatedAt") (jint now) pool in
                put_finance_pool (vr_pool_id input) pool ;;
                let reservation := new_reservation input now in
                put_finance_pool_reservation (vr_run_id input) reservation ;;
                let! journal_id :=
                  write_finance_journal (lit "pool.reserved") (vr_pool_id input)
                    (vr_payer_user_id input)
                    (Object (jobject [(lit "runId", jtext (vr_run_id input));
                                      (lit "amount", jint (vr_max_amount input))]))
                    [vr_payer_user_id input; authority_id] now in
                ret (Object (jobject [(lit "applied", Bool true);
                                      (lit "reservation", Object reservation);
                                      (lit "journalId", jtext journal_id)]))
    end.

(** ** settle_pool *)

Definition pool_line_rules (payer_id : str) : line_rules :=
  {| lr_invalid := lit "invalid settlement line";
     lr_payer := Some (payer_id, lit "payer cannot be a settlement beneficiary");
     lr_unauthorized := lit "settlement beneficiary role not authorized by quote" |}.

(** Credit each beneficiary, collecting the participants. *)
Definition credit_participant (not_found : str) (participants : list str) (ua : str * i64)
    : tx (list str) :=
  credit_beneficiary not_found ua.1 ua.2 ;; ret (participants ++ [ua.1]).

(** The payer's counters after [amount] of held balance was spent. *)
Definition spend_held (payer_id : str) (amount : i64) : tx unit :=
  let! current := finance_counter Held payer_id in
  let! held := or_denied (checked_sub_i64 current amount) (lit "held balance underflow") in
  set_finance_counter Held payer_id held ;;
  add_finance_counter Spent payer_id amount ;;
  ret tt.

Definition settled_reservation (reservation : Map) (input : SettlePoolInput)
    (actual_amount now : i64) : Map :=
  let r := jinsert (lit "status") (jtext (lit "settled")) reservation in
  let r := jinsert (lit "settlementId") (jtext (tp_settlement_id input)) r in
  let r := jinsert (lit "actualAmount") (jint actual_amount) r in
  let r := jinsert (lit "usageHash") (jtext (tp_usage_hash input)) r in
  let r := jinsert (lit "settlementLines") (Array (SettlementLineInput_value <$> tp_lines input)) r in
  jinsert (lit "settledAt") (jint now) r.

(** What a pool settlement does once its checks have passed. *)
Definition apply_pool_settlement (authority_id : str) (input : SettlePoolInput)
    (pool reservation : Map) (slice : i64) (totals : line_totals) (now : i64) : tx value :=
  let actual_amount := lt_actual totals in
  let! participants := each (credit_participant (lit "settlement beneficiary not found"))
    [tp_payer_user_id input; authority_id] (hash_iter (lt_credits totals)) in
  let! refund_to_pool := or_denied (checked_sub_i64 slice actual_amount)
                           (lit "reservation refund underflow") in
  (if 0 <? actual_amount then spend_held (tp_payer_user_id input) actual_amount else ret tt) ;;
  let! remaining := or_denied
    (checked_add_i64 (amount_or_zero pool (lit "remaining")) refund_to_pool)
    (lit "pool remaining overflow") in
  let! reserved := or_denied (checked_sub_i64 (amount_or_zero pool (lit "reserved")) slice)
                     (lit "pool reserved underflow") in
  let! spent := or_denied (checked_add_i64 (amount_or_zero pool (lit "spent")) actual_amount)
                  (lit "pool spent overflow") in
  let pool := jinsert (lit "remaining") (jint remaining) pool in
  let pool := jinsert (lit "reserved") (jint reserved) pool in
  let pool := jinsert (lit "spent") (jint spent) pool in
  let pool := jinsert (lit "updatedAt") (jint now) pool in
  put_finance_pool (tp_pool_id input) pool ;;
  put_finance_pool_reservation (tp_run_id input)
    (settled_reservation reservation input actual_amount now) ;;
  write_marker (MPoolSettlement authority_id (tp_settlement_id input)) (tp_run_id input) ;;
  let! journal_id :=
    write_finance_journal (lit "pool.settled") (tp_pool_id input) (tp_payer_user_id input)
      (Object (jobject [(lit "runId", jtext (tp_run_id input)); (lit "actual", jint actual_amount);
                        (lit "refundedToPool", jint refund_to_pool)]))
      participants now in
  ret (Object (jobject [(lit "applied", Bool true); (lit "actualAmount", jint actual_amount);
                        (lit "refundedToPool", jint refund_to_pool);
                        (lit "journalId", jtext journal_id)])).

Definition settle_pool (authority_id : str) (input : SettlePoolInput) : tx value :=
  let! now := now_millis in
  if negb (valid_finance_id (tp_pool_id input)) || negb (valid_finance_id (tp_payer_user_id input))
     || negb (valid_finance_id (tp_quote_id input)) || negb (valid_finance_id (tp_run_id input))
     || negb (valid_finance_id (tp_settlement_id input))
     || negb (valid_finance_hash (tp_usage_hash input))
  then denied (lit "invalid settlement identifiers or usageHash")
  else
    let! settled := read_marker (MPoolSettlement authority_id (tp_settlement_id input)) in
    if negb (is_empty settled) then
      let! pool := get_finance_pool (tp_pool_id input) in
      ret (already_applied (lit "pool") (Object pool))
    else
      let! reservation := get_finance_pool_reservation (tp_run_id input) in
      if negb (bool_decide (field_str reservation (lit "status") = Some (lit "reserved")))
      then denied (lit "run reservation is not open for settlement")
      else if negb (bool_decide (field_str reservation (lit "poolId") = Some (tp_pool_id input)))
              || negb (bool_decide (field_str reservation (lit "payerUserId")
                                    = Some (tp_payer_user_id input)))
              || negb (bool_decide (field_str reservation (lit "quoteId")
                                    = Some (tp_quote_id input)))
      then denied (lit "settlement does not match the run reservation")
      else
        let slice := amount_or_zero reservation (lit "amount") in
        if slice <=? 0 then denied (lit "invalid reservation amount")
        else
          let! pool := get_finance_pool (tp_pool_id input) in
          if negb (bool_decide (field_str pool (lit "settlementAuthority") = Some authority_id))
          then denied (lit "caller is not this pool's settlement authority")
          else if negb (bool_decide (field_str pool (lit "status") = Some (lit "open")))
          then denied (lit "pool is not open")
          else
            let! quote := billing_quote (tp_quote_id input) in
            if negb (bool_decide (field_str quote (lit "payerUserId")
                                  = Some (tp_payer_user_id input)))
            then denied (lit "quote payer does not match settlement")
            else
              let! beneficiaries := or_denied (jget (lit "beneficiaries") quote ≫= as_array)
                                      (lit "quote beneficiaries missing") in
              let! caps := document_caps (lit "invalid quote beneficiary") beneficiaries ∅ in
              let! totals := each (settlement_line (pool_line_rules (tp_payer_user_id input)) caps)
                               no_lines (tp_lines input) in
              if slice <? lt_actual totals
              then denied (lit "settlement exceeds the run reservation")
              else apply_pool_settlement authority_id input pool reservation slice totals now.

(** ** release_pool *)

Definition released_reservation (reservation : Map) (input : ReleasePoolInput) (now : i64) : Map :=
  let r := jinsert (lit "status") (jtext (lit "released")) reservation in
  let r := jinsert (lit "releaseId") (jtext (ep_release_id input)) r in
  let r := jinsert (lit "releaseReason") (jtext (ep_reason input)) r in
  jinsert (lit "releasedAt") (jint now) r.

Definition release_pool (caller_id : str) (input : ReleasePoolInput) : tx value :=
  let! now := now_millis in
  if negb (valid_finance_id (ep_pool_id input)) || negb (valid_finance_id (ep_payer_user_id input))
     || negb (valid_finance_id (ep_run_id input)) || negb (valid_finance_id (ep_release_id input))
  then denied (lit "invalid pool, payer, run, or release identifier")
  else
    let! reservation := get_finance_pool_reservation (ep_run_id input) in
    let status := text_or_empty reservation (lit "status") in
    if bool_decide (status = lit "released")
       && bool_decide (field_str reservation (lit "releaseId") = Some (ep_release_id input))
    then ret (already_applied (lit "reservation") (Object reservation))
    else if negb (bool_decide (status = lit "reserved"))
    then denied (lit "run reservation is not open for release")
    else if negb (bool_decide (field_str reservation (lit "poolId") = Some (ep_pool_id input)))
            || negb (bool_decide (field_str reservation (lit "payerUserId")
                                  = Some (ep_payer_user_id input)))
    then denied (lit "release does not match the run reservation")
    else
      let slice := amount_or_zero reservation (lit "amount") in
      let! pool := get_finance_pool (ep_pool_id input) in
      let authority := text_or_empty pool (lit "settlementAuthority") in
      let expires_at := amount_or_zero pool (lit "expiresAt") in
      let payer_recovery := bool_decide (caller_id = ep_payer_user_id input) && (0 <? expires_at)
                            && (expires_at <? now) in
      if negb (bool_decide (caller_id = authority)) && negb payer_recovery
      then denied (lit "caller may not release this reservation")
      else
        let! remaining := or_denied
          (checked_add_i64 (amount_or_zero pool (lit "remaining")) slice)
          (lit "pool remaining overflow") in
        let! reserved := or_denied (checked_sub_i64 (amount_or_zero pool (lit "reserved")) slice)
                           (lit "pool reserved underflow") in
        let pool := jinsert (lit "remaining") (jint remaining) pool in
        let pool := jinsert (lit "reserved") (jint reserved) pool in
        let pool := jinsert (lit "updatedAt") (jint now) pool in
        put_finance_pool (ep_pool_id input) pool ;;
        put_finance_pool_reservation (ep_run_id input) (released_reservation reservation input now) ;;
        let! journal_id :=
          write_finance_journal (lit "pool.released") (ep_pool_id input) (ep_payer_user_id input)
            (Object (jobject [(lit "runId", jtext (ep_run_id input)); (lit "amount", jint slice)]))
            [ep_payer_user_id input; authority] now in
        ret (Object (jobject [(lit "applied", Bool true); (lit "amount", jint slice);
                              (lit "journalId", jtext journal_id)])).

(** ** debit_pool *)

(** The roles the quote authorizes. *)
Fixpoint authorized_roles (items : list value) (authorized : gset str) : tx (gset str) :=
  match items with
  | [] => ret authorized
  | item :: items =>
      let user_id := default [] (member (lit "userId") item ≫= as_str) in
      let role := default [] (member (lit "role") item ≫= as_str) in
      if is_empty user_id || is_empty role then denied (lit "invalid quote beneficiary")
      else authorized_roles items ({[cap_key user_id role]} ∪ authorized)
  end.

Record debit_totals := {
  dt_delta : i64;
  dt_credits : gmap str i64;
  dt_user_credits : gmap str i64;
}.

Definition debit_line (payer_id : str) (authorized : gset str) (t : debit_totals)
    (line : SettlementLineInput) : tx debit_totals :=
  if line_invalid line then denied (lit "invalid debit line")
  else if bool_decide (sl_user_id line = payer_id)
  then denied (lit "payer cannot be a debit beneficiary")
  else
    let key := cap_key (sl_user_id line) (sl_role line) in
    if negb (bool_decide (key ∈ authorized))
    then denied (lit "debit beneficiary role not authorized by quote")
    else
      let! delta := or_denied (checked_add_i64 (dt_delta t) (sl_amount line))
                      (lit "debit amount overflow") in
      let! credited := or_denied (entry_add (dt_credits t) key (sl_amount line))
                         (lit "beneficiary amount overflow") in
      let! user_credited := or_denied (entry_add (dt_user_credits t) (sl_user_id line)
                                         (sl_amount line))
                              (lit "beneficiary amount overflow") in
      ret {| dt_delta := delta; dt_credits := <[key := credited]> (dt_credits t);
             dt_user_credits := <[sl_user_id line := user_credited]> (dt_user_credits t) |}.

(** The run's credits after this debit's. *)
Definition record_credit (credits : Map) (ka : str * i64) : tx Map :=
  let! prior := or_denied (checked_add_i64 (amount_or_zero credits ka.1) ka.2)
                  (lit "run credit overflow") in
  ret (jinsert ka.1 (jint prior) credits).

Definition debit_participant (participants : list str) (ua : str * i64) : tx (list str) :=
  if is_empty ua.1 then denied (lit "invalid credit beneficiary")
  else credit_participant (lit "debit beneficiary not found") participants ua.

(** The run's record of live debits. *)
Definition record_debit (input : DebitPoolInput) (t : debit_totals) (now : i64) : tx unit :=
  let! record := doc_or_empty DLiveDebit (dp_run_id input) (lit "debit") in
  let record :=
    if is_empty record then
      let r := jinsert (lit "runId") (jtext (dp_run_id input)) record in
      let r := jinsert (lit "poolId") (jtext (dp_pool_id input)) r in
      let r := jinsert (lit "payerUserId") (jtext (dp_payer_user_id input)) r in
      let r := jinsert (lit "quoteId") (jtext (dp_quote_id input)) r in
      jinsert (lit "createdAt") (jint now) r
    else record in
  let! charged_total := or_denied
    (checked_add_i64 (amount_or_zero record (lit "chargedTotal")) (dt_delta t))
    (lit "run charged total overflow") in
  let record := jinsert (lit "chargedTotal") (jint charged_total) record in
  let! record_credits := each record_credit
    (default [] (jget (lit "credits") record ≫= as_object)) (hash_iter (dt_credits t)) in
  let record := jinsert (lit "credits") (Object record_credits) record in
  let record := jinsert (lit "lastDebitId") (jtext (dp_debit_id input)) record in
  let record := jinsert (lit "lastUsageHash") (jtext (dp_usage_hash input)) record in
  let record := jinsert (lit "updatedAt") (jint now) record in
  put_finance_live_debit (dp_run_id input) record.

(** What a debit does once its checks have passed. *)
Definition apply_debit (authority_id : str) (input : DebitPoolInput) (pool : Map) (t : debit_totals)
    (remaining now : i64) : tx value :=
  let! participants := each debit_participant [dp_payer_user_id input; authority_id]
                         (hash_iter (dt_user_credits t)) in
  spend_held (dp_payer_user_id input) (dt_delta t) ;;
  let! new_remaining := or_denied (checked_sub_i64 remaining (dt_delta t))
                          (lit "pool remaining underflow") in
  let! spent := or_denied (checked_add_i64 (amount_or_zero pool (lit "spent")) (dt_delta t))
                  (lit "pool spent overflow") in
  let pool := jinsert (lit "remaining") (jint new_remaining) pool in
  let pool := jinsert (lit "spent") (jint spent) pool in
  let pool := jinsert (lit "updatedAt") (jint now) pool in
  put_finance_pool (dp_pool_id input) pool ;;
  record_debit input t now ;;
  write_marker (MPoolDebit authority_id (dp_debit_id input)) (dp_run_id input) ;;
  let! journal_id :=
    write_finance_journal (lit "pool.debited") (dp_pool_id input) (dp_payer_user_id input)
      (Object (jobject [(lit "runId", jtext (dp_run_id input)); (lit "amount", jint (dt_delta t));
                        (lit "remaining", jint new_remaining)]))
      participants now in
  ret (Object (jobject [(lit "applied", Bool true); (lit "charged", jint (dt_delta t));
                        (lit "remaining", jint new_remaining);
                        (lit "journalId", jtext journal_id)])).

Definition debit_pool (authority_id : str) (input : DebitPoolInput) : tx value :=
  let! now := now_millis in
  if negb (valid_finance_id (dp_pool_id input)) || negb (valid_finance_id (dp_payer_user_id input))
     || negb (valid_finance_id (dp_quote_id input)) || negb (valid_finance_id (dp_run_id input))
     || negb (valid_finance_id (dp_debit_id input))
     || negb (valid_finance_hash (dp_usage_hash input))
  then denied (lit "invalid debit identifiers or usageHash")
  else
    let! debited := read_marker (MPoolDebit authority_id (dp_debit_id input)) in
    if negb (is_empty debited) then
      let! pool := get_finance_pool (dp_pool_id input) in
      ret (already_applied (lit "remaining") (jint (amount_or_zero pool (lit "remaining"))))
    else
      let! pool := get_finance_pool (dp_pool_id input) in
      if negb (bool_decide (field_str pool (lit "settlementAuthority") = Some authority_id))
      then denied (lit "caller is not this pool's settlement authority")
      else if negb (bool_decide (field_str pool (lit "payerUserId") = Some (dp_payer_user_id input)))
      then denied (lit "payer does not match pool")
      else if negb (bool_decide (field_str pool (lit "status") = Some (lit "open")))
      then denied (lit "pool is not open")
      else
        let expires_at := amount_or_zero pool (lit "expiresAt") in
        if (expires_at <=? 0) || (expires_at <? now) then denied (lit "pool expired")
        else
          let! quote := billing_quote (dp_quote_id input) in
          if negb (bool_decide (field_str quote (lit "payerUserId") = Some (dp_payer_user_id input)))
          then denied (lit "quote payer does not match debit")
          else
            let! beneficiaries := or_denied (jget (lit "beneficiaries") quote ≫= as_array)
                                    (lit "quote beneficiaries missing") in
            let! authorized := authorized_roles beneficiaries ∅ in
            let! t := each (debit_line (dp_payer_user_id input) authorized)
                        {| dt_delta := 0; dt_credits := ∅; dt_user_credits := ∅ |}
                        (dp_lines input) in
            if dt_delta t <=? 0 then denied (lit "debit must charge a positive amount")
            else
              let remaining := amount_or_zero pool (lit "remaining") in
              if remaining <? dt_delta t then
                ret (Object (jobject [(lit "applied", Bool false); (lit "exhausted", Bool true);
                                      (lit "remaining", jint remaining); (lit "charged", jint 0)]))
              else apply_debit authority_id input pool t remaining now.

End pools.
