(* ===== verification/FinanceWallets.v ===== *)
(** Wallets: the account view, payouts, payment adjustments, transfers and mints of
    [crates/aseman-application/src/finance/actions.rs], and the token locks of
    [apps/aseman-node/src/actions/finance.rs].

    The lock operations report [anyhow] messages; they are the [Denied] texts here.  Checking the
    payer's signature is a parameter of [consume_lock]. *)

From S2P Require Import Prelude Text Core Ports BTree Json FinanceLedger FinanceHelpers.
From S2P Require Import FinanceHolds.

Open Scope Z_scope.
Open Scope tx_scope.

(** Stable descending sort by an [i64] key, as [sort_by(|a, b| key(b).cmp(&key(a)))]. *)
Fixpoint insert_desc {A} (key : A → i64) (x : A) (l : list A) : list A :=
  match l with
  | [] => [x]
  | y :: l' => if key y <=? key x then x :: l else y :: insert_desc key x l'
  end.
Definition sort_desc {A} (key : A → i64) (l : list A) : list A := foldr (insert_desc key) [] l.

Section wallets.
Context `{Platform}.

(** ** get_financial_account *)

Definition get_financial_account (caller_id : str) (input : GetFinancialAccountInput) : tx value :=
  let user_id := if is_empty (ga_user_id input) then caller_id else ga_user_id input in
  if negb (valid_finance_id user_id) then denied (lit "invalid financial account id")
  else if negb (bool_decide (user_id = caller_id)) && negb (bool_decide (caller_id = LEGACY_ROOT))
  then denied (lit "access denied")
  else financial_account_snapshot user_id
         (if ga_limit input <=? 0 then 50 else Z.min (ga_limit input) 100).

(** ** request_payout *)

Definition new_payout (payout_id user_id destination request_hash : str) (input : RequestPayoutInput)
    (now : i64) : Map :=
  jobject [
    (lit "payoutId", jtext payout_id); (lit "requestId", jtext (rp_request_id input));
    (lit "userId", jtext user_id); (lit "amount", jint (rp_amount input));
    (lit "destinationRef", jtext destination); (lit "status", jtext (lit "pending"));
    (lit "createdAt", jint now); (lit "requestHash", jtext request_hash)].

Definition request_payout (user_id : str) (input : RequestPayoutInput) : tx value :=
  let destination := trim (rp_destination_ref input) in
  if negb (valid_finance_id (rp_request_id input)) || (rp_amount input <=? 0)
     || is_empty destination || (256 <? len destination) || existsb is_control destination
  then denied (lit "invalid payout request")
  else
    let request_hash := finance_hash (RequestPayoutInput_value input) in
    let! previous := read_marker (MPayoutRequest user_id (rp_request_id input)) in
    if negb (is_empty previous) then
      match split_once (chr "|") previous with
      | None => denied (lit "invalid payout idempotency record")
      | Some (payout_id, previous_hash) =>
          if negb (bool_decide (previous_hash = request_hash))
          then denied (lit "requestId already used with different payout data")
          else
            let! payout := get_finance_payout payout_id in
            ret (already_applied (lit "payout") (Object payout))
      end
    else
      let! debt := finance_counter Debt user_id in
      if 0 <? debt then denied (lit "wallet has outstanding payment debt")
      else
        let! creature := account user_id in
        match creature with
        | None => denied (lit "financial account not found")
        | Some creature =>
            let! withdrawable := finance_counter Withdrawable user_id in
            if (withdrawable <? rp_amount input) || (acc_balance creature <? rp_amount input)
            then denied (lit "withdrawable earnings are not enough")
            else
              let! new_balance := or_denied (checked_sub_i64 (acc_balance creature) (rp_amount input))
                                    (lit "wallet payout underflow") in
              let! next_withdrawable := or_denied (checked_sub_i64 withdrawable (rp_amount input))
                                          (lit "withdrawable payout underflow") in
              let! current := finance_counter PayoutHeld user_id in
              let! payout_held := or_denied (checked_add_i64 current (rp_amount input))
                                    (lit "payout held overflow") in
              let! now := now_millis in
              let! payout_id := fresh_id in
              let payout := new_payout payout_id user_id destination request_hash input now in
              store_account user_id new_balance ;;
              set_finance_counter Withdrawable user_id next_withdrawable ;;
              set_finance_counter PayoutHeld user_id payout_held ;;
              put_finance_payout payout_id payout ;;
              write_marker (MPayoutRequest user_id (rp_request_id input))
                (payout_id ++ lit "|" ++ request_hash) ;;
              let! journal_id :=
                write_finance_journal (lit "payout.requested") (lit "") user_id
                  (Object (jobject [
                    (lit "entries", Array [
                       entry (wallet user_id (lit "available")) (wrap_i64 (- rp_amount input));
                       entry (wallet user_id (lit "payout_held")) (rp_amount input)]);
                    (lit "payoutId", jtext payout_id); (lit "destinationRef", jtext destination)]))
                  [user_id] now in
              ret (Object (jobject [(lit "applied", Bool true); (lit "payout", Object payout);
                                    (lit "journalId", jtext journal_id)]))
        end.

(** ** resolve_payout *)

Definition resolved_payout (payout : Map) (input : ResolvePayoutInput) (now : i64) : Map :=
  let p := jinsert (lit "status") (jtext (vp_status input)) payout in
  let p := jinsert (lit "providerReference") (jtext (vp_provider_reference input)) p in
  let p := jinsert (lit "reason") (jtext (vp_reason input)) p in
  let p := jinsert (lit "resolutionId") (jtext (vp_resolution_id input)) p in
  jinsert (lit "resolvedAt") (jint now) p.

(** A rejected payout returns to the owner's withdrawable balance. *)
Definition return_payout (user_id : str) (amount : i64) : tx unit :=
  let! creature := account user_id in
  match creature with
  | None => denied (lit "payout owner not found")
  | Some creature =>
      let! new_balance := or_denied (checked_add_i64 (acc_balance creature) amount)
                            (lit "payout refund overflow") in
      let! current := finance_counter Withdrawable user_id in
      let! withdrawable := or_denied (checked_add_i64 current amount)
                             (lit "withdrawable payout refund overflow") in
      store_account user_id new_balance ;;
      set_finance_counter Withdrawable user_id withdrawable
  end.

Definition resolve_payout (caller : str) (input : ResolvePayoutInput) : tx value :=
  if negb (bool_decide (caller = LEGACY_ROOT)) then denied (lit "access denied")
  else if negb (valid_finance_id (vp_payout_id input))
          || negb (valid_finance_id (vp_resolution_id input))
          || (negb (bool_decide (vp_status input = lit "paid"))
              && negb (bool_decide (vp_status input = lit "rejected")))
          || (256 <? len (vp_provider_reference input))
          || existsb is_control (vp_provider_reference input)
          || (256 <? len (vp_reason input)) || existsb is_control (vp_reason input)
          || (bool_decide (vp_status input = lit "paid")
              && is_empty (trim (vp_provider_reference input)))
  then denied (lit "invalid payout resolution")
  else
    let request_hash := finance_hash (ResolvePayoutInput_value input) in
    let! previous := read_marker (MPayoutResolution (vp_resolution_id input)) in
    if negb (is_empty previous) then
      match split_once (chr "|") previous with
      | None => denied (lit "invalid payout resolution idempotency record")
      | Some (payout_id, previous_hash) =>
          if negb (bool_decide (payout_id = vp_payout_id input))
             || negb (bool_decide (previous_hash = request_hash))
          then denied (lit "resolutionId already used with different payout data")
          else
            let! payout := get_finance_payout payout_id in
            ret (already_applied (lit "payout") (Object payout))
      end
    else
      let! payout := get_finance_payout (vp_payout_id input) in
      if negb (bool_decide (field_str payout (lit "status") = Some (lit "pending")))
      then denied (lit "payout is not pending")
      else
        let user_id := text_or_empty payout (lit "userId") in
        let amount := default 0 (amount_field payout (lit "amount")) in
        if is_empty user_id || (amount <=? 0) then denied (lit "invalid payout record")
        else
          let! current := finance_counter PayoutHeld user_id in
          let! payout_held := or_denied (checked_sub_i64 current amount)
                                (lit "payout held underflow") in
          set_finance_counter PayoutHeld user_id payout_held ;;
          let! other :=
            if bool_decide (vp_status input = lit "rejected") then
              return_payout user_id amount ;;
              ret (entry (wallet user_id (lit "available")) amount)
            else ret (entry (lit "external:payouts") amount) in
          let! now := now_millis in
          let payout := resolved_payout payout input now in
          put_finance_payout (vp_payout_id input) payout ;;
          write_marker (MPayoutResolution (vp_resolution_id input))
            (vp_payout_id input ++ lit "|" ++ request_hash) ;;
          let! journal_id :=
            write_finance_journal (lit "payout." ++ vp_status input) (lit "") user_id
              (Object (jobject [
                (lit "entries", Array [
                   entry (wallet user_id (lit "payout_held")) (wrap_i64 (- amount)); other]);
                (lit "payoutId", jtext (vp_payout_id input));
                (lit "providerReference", jtext (vp_provider_reference input));
                (lit "reason", jtext (vp_reason input))]))
              [user_id; caller] now in
          ret (Object (jobject [(lit "applied", Bool true); (lit "payout", Object payout);
                                (lit "journalId", jtext journal_id)])).

(** ** list_payouts *)

Definition payout_created (payout : Map) : i64 := default 0 (amount_field payout (lit "createdAt")).

Definition list_payouts (caller : str) (input : ListPayoutsInput) : tx value :=
  let limit := if lp_limit input <=? 0 then 50 else Z.min (lp_limit input) 200 in
  let answer payouts := ret (Object (jobject [(lit "payouts", Array payouts)])) in
  if is_empty (lp_user_id input) then
    if negb (bool_decide (caller = LEGACY_ROOT)) then
      let! payouts := finance_payout_records caller limit in answer payouts
    else
      let! payouts := asks (λ w, readable DPayout (lit "payout") w (doc_ids w DPayout)) in
      answer (Object <$> take (Z.to_nat limit) (sort_desc payout_created payouts))
  else if negb (bool_decide (lp_user_id input = caller)) && negb (bool_decide (caller = LEGACY_ROOT))
  then denied (lit "access denied")
  else
    let! payouts := finance_payout_records (lp_user_id input) limit in answer payouts.

(** ** payment_adjustment *)

Definition adjustment_kinds : list str :=
  [lit "refund"; lit "chargeback"; lit "dispute"; lit "manual_debit"; lit "manual_credit"].

(** The counters and the new balance of an adjustment; answers the new balance with the wallet and
    debt deltas of the journal. *)
Definition adjust_wallet (user_id : str) (balance amount old_debt old_withdrawable : i64)
    : tx (i64 * i64 * i64) :=
  if amount <? 0 then
    let! reversal := or_denied (checked i64_min i64_max (Z.abs amount))
                       (lit "payment adjustment overflow") in
    let available_debit := Z.min balance reversal in
    let! debt_added := or_denied (checked_sub_i64 reversal available_debit)
                         (lit "payment adjustment underflow") in
    let! new_balance := or_denied (checked_sub_i64 balance available_debit)
                          (lit "wallet adjustment underflow") in
    set_finance_counter Withdrawable user_id (Z.min old_withdrawable new_balance) ;;
    let! new_debt := or_denied (checked_add_i64 old_debt debt_added)
                       (lit "wallet debt overflow") in
    set_finance_counter Debt user_id new_debt ;;
    ret (new_balance, wrap_i64 (- available_debit), debt_added)
  else
    let debt_repaid := Z.min old_debt amount in
    let! wallet_credit := or_denied (checked_sub_i64 amount debt_repaid)
                            (lit "payment adjustment underflow") in
    let! new_balance := or_denied (checked_add_i64 balance wallet_credit)
                          (lit "wallet balance overflow") in
    set_finance_counter Debt user_id (wrap_i64 (old_debt - debt_repaid)) ;;
    ret (new_balance, wallet_credit, wrap_i64 (- debt_repaid)).

Definition payment_adjustment (caller : str) (input : PaymentAdjustmentInput) : tx value :=
  if negb (bool_decide (caller = LEGACY_ROOT)) then denied (lit "access denied")
  else if negb (valid_finance_id (pa_user_id input)) || negb (valid_finance_id (pa_kind input))
          || negb (valid_finance_id (pa_idempotency_key input)) || is_empty (pa_reference input)
          || (256 <? len (pa_reference input)) || (pa_amount input =? 0)
  then denied (lit "invalid payment adjustment")
  else if negb (bool_decide (pa_kind input ∈ adjustment_kinds))
          || ((0 <? pa_amount input) && negb (bool_decide (pa_kind input = lit "manual_credit")))
  then denied (lit "unsupported payment adjustment kind")
  else if 4096 <? Z.of_nat (length (to_vec (pa_metadata input)))
  then denied (lit "payment adjustment metadata is too large")
  else
    let request_hash := finance_hash (PaymentAdjustmentInput_value input) in
    let! previous := read_marker (MPaymentAdjustment (pa_idempotency_key input)) in
    if negb (is_empty previous) then
      match split_once (chr "|") previous with
      | None => denied (lit "invalid payment adjustment idempotency record")
      | Some (previous_hash, journal_id) =>
          if negb (bool_decide (previous_hash = request_hash))
          then denied (lit "idempotency key already used with different adjustment")
          else
            let! snapshot := financial_account_snapshot (pa_user_id input) 20 in
            ret (Object (jobject [(lit "applied", Bool false); (lit "alreadyApplied", Bool true);
                                  (lit "journalId", jtext journal_id); (lit "account", snapshot)]))
      end
    else
      let! creature := account (pa_user_id input) in
      match creature with
      | None => denied (lit "payment adjustment target not found")
      | Some creature =>
          let! old_debt := finance_counter Debt (pa_user_id input) in
          let! old_withdrawable := finance_counter Withdrawable (pa_user_id input) in
          if acc_balance creature <? old_withdrawable
          then denied (lit "withdrawable balance exceeds available balance")
          else
            let! (new_balance, wallet_delta, debt_delta) :=
              adjust_wallet (pa_user_id input) (acc_balance creature) (pa_amount input) old_debt
                old_withdrawable in
            store_account (pa_user_id input) new_balance ;;
            let! now := now_millis in
            let! journal_id :=
              write_finance_journal (lit "payment." ++ pa_kind input) (lit "") (pa_user_id input)
                (Object (jobject [
                  (lit "entries", Array [
                     entry (wallet (pa_user_id input) (lit "available")) wallet_delta;
                     entry (wallet (pa_user_id input) (lit "debt")) debt_delta;
                     entry (lit "external:payments") (wrap_i64 (- pa_amount input))]);
                  (lit "adjustmentAmount", jint (pa_amount input));
                  (lit "kind", jtext (pa_kind input)); (lit "reference", jtext (pa_reference input));
                  (lit "metadata", pa_metadata input)]))
                [pa_user_id input; caller] now in
            write_marker (MPaymentAdjustment (pa_idempotency_key input))
              (request_hash ++ lit "|" ++ journal_id) ;;
            let! snapshot := financial_account_snapshot (pa_user_id input) 20 in
            ret (Object (jobject [(lit "applied", Bool true); (lit "journalId", jtext journal_id);
                                  (lit "account", snapshot)]))
      end.

(** ** transfer *)

Definition transfer (from_id : str) (input : TransferInput) : tx value :=
  if tr_amount input <=? 0 then denied (lit "amount must be greater than zero")
  else
    let! from := account from_id in
    match from with
    | None => denied (lit "sender creature not found")
    | Some from =>
        if acc_balance from <? tr_amount input then denied (lit "your balance is not enough")
        else
          let! target := asks (λ w, creature_id_by_username w (tr_to_username input)) in
          match target with
          | None => denied (lit "target creature not found")
          | Some to_id =>
              if bool_decide (to_id = acc_id from)
              then denied (lit "cannot transfer to the same wallet")
              else
                let! to := account to_id in
                match to with
                | None => denied (lit "target creature not found")
                | Some to =>
                    let! from_withdrawable := finance_counter Withdrawable (acc_id from) in
                    if acc_balance from <? from_withdrawable
                    then denied (lit "withdrawable balance exceeds available balance")
                    else
                      let nonwithdrawable := wrap_i64 (acc_balance from - from_withdrawable) in
                      let sent_withdrawable :=
                        saturating_sub_i64 (tr_amount input) nonwithdrawable in
                      let! from_balance :=
                        or_denied (checked_sub_i64 (acc_balance from) (tr_amount input))
                          (lit "sender balance underflow") in
                      let! new_from_withdrawable :=
                        or_denied (checked_sub_i64 from_withdrawable sent_withdrawable)
                          (lit "sender withdrawable underflow") in
                      set_finance_counter Withdrawable (acc_id from) new_from_withdrawable ;;
                      let! debt := finance_counter Debt (acc_id to) in
                      let debt_repaid := Z.min debt (tr_amount input) in
                      let wallet_credit := wrap_i64 (tr_amount input - debt_repaid) in
                      let sent_nonwithdrawable := wrap_i64 (tr_amount input - sent_withdrawable) in
                      let withdrawable_used_for_debt :=
                        saturating_sub_i64 debt_repaid sent_nonwithdrawable in
                      let! received_withdrawable :=
                        or_denied (checked_sub_i64 sent_withdrawable withdrawable_used_for_debt)
                          (lit "target withdrawable underflow") in
                      let! to_balance := or_denied (checked_add_i64 (acc_balance to) wallet_credit)
                                           (lit "target balance overflow") in
                      let! current := finance_counter Withdrawable (acc_id to) in
                      let! to_withdrawable := or_denied (checked_add_i64 current received_withdrawable)
                                                (lit "target withdrawable overflow") in
                      set_finance_counter Debt (acc_id to) (wrap_i64 (debt - debt_repaid)) ;;
                      set_finance_counter Withdrawable (acc_id to) to_withdrawable ;;
                      store_account (acc_id from) from_balance ;;
                      store_account (acc_id to) to_balance ;;
                      let! now := now_millis in
                      let! journal_id :=
                        write_finance_journal (lit "wallet.transfer") (lit "") (acc_id from)
                          (Object (jobject [
                            (lit "entries", Array [
                               entry (wallet (acc_id from) (lit "available"))
                                 (wrap_i64 (- tr_amount input));
                               entry (wallet (acc_id to) (lit "available")) wallet_credit;
                               entry (wallet (acc_id to) (lit "debt")) (wrap_i64 (- debt_repaid))]);
                            (lit "amount", jint (tr_amount input));
                            (lit "withdrawableAmount", jint sent_withdrawable);
                            (lit "debtRepaid", jint debt_repaid)]))
                          [acc_id from; acc_id to] now in
                      ret (Object (jobject [
                        (lit "amount", jint (tr_amount input)); (lit "toUserId", jtext (acc_id to));
                        (lit "debtRepaid", jint debt_repaid);
                        (lit "journalId", jtext journal_id)]))
                end
          end
    end.

(** ** mint *)

Definition mint (caller : str) (input : MintInput) : tx value :=
  if negb (bool_decide (caller = LEGACY_ROOT)) then denied (lit "access denied")
  else if mt_amount input <=? 0 then denied (lit "amount must be greater than zero")
  else
    let key := trim (mt_idempotency_key input) in
    let! applied := if is_empty key then ret [] else read_marker (MMintApplied key) in
    if negb (is_empty applied) then
      ret (Object (jobject [(lit "applied", Bool false); (lit "alreadyApplied", Bool true);
                            (lit "previous", jtext applied)]))
    else
      let! to_user_id := asks (λ w, email_to_id w (mt_to_user_email input)) in
      if is_empty to_user_id then denied (lit "target user not found")
      else
        let! creature := account to_user_id in
        match creature with
        | None => denied (lit "target user not found")
        | Some creature =>
            let! debt := finance_counter Debt (acc_id creature) in
            let debt_repaid := Z.min debt (mt_amount input) in
            let! wallet_credit := or_denied (checked_sub_i64 (mt_amount input) debt_repaid)
                                    (lit "mint credit underflow") in
            let! new_balance := or_denied (checked_add_i64 (acc_balance creature) wallet_credit)
                                  (lit "balance overflow") in
            store_account (acc_id creature) new_balance ;;
            set_finance_counter Debt (acc_id creature) (wrap_i64 (debt - debt_repaid)) ;;
            let target_id := acc_id creature in
            let! now := now_millis in
            let! journal_id :=
              write_finance_journal (lit "payment.credited") (lit "") target_id
                (Object (jobject [
                  (lit "entries", Array [
                     entry (lit "external:payments") (wrap_i64 (- mt_amount input));
                     entry (wallet target_id (lit "available")) wallet_credit;
                     entry (wallet target_id (lit "debt")) (wrap_i64 (- debt_repaid))]);
                  (lit "grossAmount", jint (mt_amount input));
                  (lit "walletCredit", jint wallet_credit); (lit "debtRepaid", jint debt_repaid);
                  (lit "paymentReference", jtext (mt_idempotency_key input))]))
                [target_id; caller] now in
            (if is_empty key then ret tt
             else write_marker (MMintApplied key)
                    (target_id ++ lit ":" ++ show (mt_amount input) ++ lit ":" ++ journal_id)) ;;
            ret (Object (jobject [
              (lit "applied", Bool true); (lit "balance", jint new_balance);
              (lit "walletCredit", jint wallet_credit); (lit "debtRepaid", jint debt_repaid);
              (lit "debt", jint (wrap_i64 (debt - debt_repaid)));
              (lit "journalId", jtext journal_id)]))
        end.

(** ** Token locks *)

Record LockTokenStepInput := { ls_amount : i64; ls_unlock_at : i64 }.
Record LockTokenInput := {
  lk_amount : i64; lk_typ : str; lk_target : str; lk_unlock_at : i64;
  lk_steps : list LockTokenStepInput }.
Record ConsumeLockInput := {
  cl_typ : str; cl_user_id : str; cl_lock_id : str; cl_signature : str; cl_amount : i64;
  cl_step : option i64 }.

Definition account_or_empty (creature_id : str) : tx Account :=
  let! found := account creature_id in
  ret (default {| acc_id := creature_id; acc_balance := 0 |} found).

Definition lock_step (amount unlock_at : i64) : value :=
  Object (jobject [(lit "amount", jint amount); (lit "unlockAt", jint unlock_at);
                   (lit "consumed", Bool false)]).

(** The checked steps of a schedule, [i] counting them. *)
Fixpoint lock_steps (i : nat) (steps : list LockTokenStepInput) : tx (list value) :=
  match steps with
  | [] => ret []
  | s :: steps =>
      if ls_amount s <=? 0
      then denied (lit "step " ++ show (Z.of_nat i) ++ lit " amount must be greater than zero")
      else if ls_unlock_at s <=? 0
      then denied (lit "step " ++ show (Z.of_nat i)
                   ++ lit " unlockAt must be a unix timestamp in milliseconds")
      else let! rest := lock_steps (S i) steps in
           ret (lock_step (ls_amount s) (ls_unlock_at s) :: rest)
  end.

(** [try_fold] with [checked_add] over the steps' amounts. *)
Fixpoint lock_total (steps : list value) (total : i64) : option i64 :=
  match steps with
  | [] => Some total
  | s :: steps =>
      match checked_add_i64 total (default 0 (member (lit "amount") s ≫= value_as_i64)) with
      | Some total => lock_total steps total
      | None => None
      end
  end.

Definition lock_token (user_id : str) (input : LockTokenInput) : tx value :=
  let! user := account_or_empty user_id in
  let! steps :=
    if is_empty (lk_steps input) then
      if lk_amount input <=? 0 then denied (lit "amount must be greater than zero")
      else if lk_unlock_at input <=? 0
      then denied (lit "unlockAt must be a unix timestamp in milliseconds")
      else ret [lock_step (lk_amount input) (lk_unlock_at input)]
    else lock_steps 0 (lk_steps input) in
  let! total_amount := or_denied (lock_total steps 0) (lit "lock amount overflow") in
  if acc_balance user <? total_amount then denied (lit "your balance is not enough")
  else if negb (bool_decide (lk_typ input = lit "pay")) then denied (lit "unknown lock type")
  else
    let! target := account (lk_target input) in
    if is_none target then denied (lit "target user not acceptable")
    else
      let! new_balance := or_denied (checked_sub_i64 (acc_balance user) total_amount)
                            (lit "balance underflow") in
      store_account (acc_id user) new_balance ;;
      let! lock_id := fresh_id in
      updates (λ w, put_lock w user_id lock_id
        (jobject [(lit "type", jtext (lit "pay")); (lit "amount", jint total_amount);
                  (lit "remainingAmount", jint total_amount);
                  (lit "userId", jtext (lk_target input)); (lit "steps", Array steps)]) true) ;;
      ret (Object (jobject [(lit "tokenId", jtext lock_id)])).

Record lock_scan := {
  sc_steps : list Map;
  sc_amounts : list i64;
  sc_unlocks : list i64;
  sc_index : i64;
}.

Definition step_consumed (step : Map) : bool :=
  default false (jget (lit "consumed") step ≫= as_bool).

(** One step of the scan: it is checked, and an unpinned index picks the first step that can be
    consumed for the amount. *)
Definition scan_step (now amount : i64) (sc : lock_scan) (raw : value) : tx lock_scan :=
  let! step := or_denied (as_object raw) (lit "invalid lock step") in
  let step_amount := default 0 (jget (lit "amount") step ≫= as_i64) in
  if step_amount <=? 0 then denied (lit "invalid lock step amount")
  else
    let unlock_at := default 0 (jget (lit "unlockAt") step ≫= as_i64) in
    if unlock_at <=? 0 then denied (lit "invalid lock step unlockAt")
    else
      ret {| sc_steps := sc_steps sc ++ [step]; sc_amounts := sc_amounts sc ++ [step_amount];
             sc_unlocks := sc_unlocks sc ++ [unlock_at];
             sc_index := if (sc_index sc =? -1) && negb (step_consumed step) && (unlock_at <=? now)
                            && (step_amount =? amount)
                         then Z.of_nat (length (sc_steps sc)) else sc_index sc |}.

(** The amounts of the steps that are still open. *)
Fixpoint open_amount (steps : list Map) (amounts : list i64) (remaining : i64) : option i64 :=
  match steps, amounts with
  | s :: steps, a :: amounts =>
      if step_consumed s then open_amount steps amounts remaining
      else match checked_add_i64 remaining a with
           | Some remaining => open_amount steps amounts remaining
           | None => None
           end
  | _, _ => Some remaining
  end.

Definition consume_lock (auth_with_signature : str → list N → str → bool) (caller_id : str)
    (input : ConsumeLockInput) : tx value :=
  let! receiver := account_or_empty caller_id in
  if negb (bool_decide (cl_typ input = lit "pay")) then denied (lit "unknown lock type")
  else
    let! payer := account (cl_user_id input) in
    if is_none payer then denied (lit "payer user not found")
    else
      let! sender := account_or_empty (cl_user_id input) in
      let! payment := asks (λ w, lock w (acc_id sender) (cl_lock_id input)) in
      let! payment := or_denied payment (lit "lock not found") in
      let! steps_raw :=
        match jget (lit "steps") payment with
        | Some (Array steps) => if is_empty steps then denied (lit "lock does not include steps")
                                else ret steps
        | _ => denied (lit "lock does not include steps")
        end in
      let! now := now_millis in
      let! sc := each (scan_step now (cl_amount input))
                   {| sc_steps := []; sc_amounts := []; sc_unlocks := [];
                      sc_index := default (-1) (cl_step input) |} steps_raw in
      if (sc_index sc <? 0) || (Z.of_nat (length (sc_steps sc)) <=? sc_index sc)
      then denied (lit "lock step not found")
      else
        let index := Z.to_nat (sc_index sc) in
        let step := nth index (sc_steps sc) [] in
        let unlock_at := nth index (sc_unlocks sc) 0 in
        let amount := nth index (sc_amounts sc) 0 in
        if now <? unlock_at then denied (lit "lock step is not consumable yet")
        else if step_consumed step then denied (lit "lock step already consumed")
        else if negb (cl_amount input =? amount) then denied (lit "amount of payment not matched")
        else
          let signed := cl_lock_id input ++ lit ":" ++ show (Z.of_nat index) ++ lit ":"
                        ++ show unlock_at ++ lit ":" ++ show amount ++ lit ":" ++ acc_id receiver in
          if negb (auth_with_signature (cl_user_id input) (bytes signed) (cl_signature input))
          then denied (lit "signature not verified")
          else if negb (bool_decide (field_str payment (lit "type") = Some (lit "pay")))
          then denied (lit "type is not payment")
          else if negb (bool_decide (field_str payment (lit "userId") = Some (acc_id receiver)))
          then denied (lit "you are not target")
          else
            let step := jinsert (lit "consumedAt") (jint now)
                          (jinsert (lit "consumed") (Bool true) step) in
            let steps := <[index := step]> (sc_steps sc) in
            let! new_balance := or_denied (checked_add_i64 (acc_balance receiver) (cl_amount input))
                                  (lit "receiver balance overflow") in
            store_account (acc_id receiver) new_balance ;;
            let! remaining := or_denied (open_amount steps (sc_amounts sc) 0)
                                (lit "remaining lock amount overflow") in
            (if remaining =? 0
             then updates (λ w, delete_lock w (acc_id sender) (cl_lock_id input))
             else
               let total := default 0 (jget (lit "amount") payment ≫= as_i64) in
               if total <=? 0 then denied (lit "invalid lock total amount")
               else
                 let payment := jinsert (lit "steps") (Array (Object <$> steps)) payment in
                 let payment := jinsert (lit "remainingAmount") (jint remaining) payment in
                 let payment := jinsert (lit "consumedAmount")
                                  (jint (wrap_i64 (total - remaining))) payment in
                 updates (λ w, put_lock w (acc_id sender) (cl_lock_id input) payment true)) ;;
            ret (Object (jobject [(lit "success", Bool true);
                                  (lit "step", jint (Z.of_nat index));
                                  (lit "remainingAmount", jint remaining)])).

End wallets.
