(* ===== verification/FinanceMarket.v ===== *)
(** The finance catalog and market, [crates/aseman-application/src/finance/actions.rs]: pricing
    catalogs, execution nodes, resources with their review, and quotes.

    The nodes and the market buckets are shared documents that a write merges into. *)

From S2P Require Import Prelude Text Core Ports BTree Json FinanceLedger FinanceHelpers.

Open Scope Z_scope.
Open Scope tx_scope.

(** [a.get(x) != b.get(y)] on optional members and texts. *)
Definition differs {A} `{EqDecision A} (a b : option A) : bool := negb (bool_decide (a = b)).

Section market.
Context `{Platform}.

(** ** publish_finance_catalog *)

Definition catalog_integers : list str :=
  [lit "tokenScale"; lit "defaultInputPerMillionMinor"; lit "defaultOutputPerMillionMinor";
   lit "sandboxPerMinuteMinor"; lit "minChargeMinor"; lit "platformCommissionBps";
   lit "authorizationSafetyBps"; lit "quoteTtlMs"; lit "holdTtlMs"].
Definition catalog_accounts : list str :=
  [lit "settlementAuthority"; lit "platformAccountId"; lit "providerClearingAccountId";
   lit "nodeOwnerAccountId"].

Definition catalog_integer (catalog : Map) (_ : unit) (key : str) : tx unit :=
  if is_none (field_i64 catalog key)
  then denied (lit "invalid finance catalog integer: " ++ key) else ret tt.

Definition catalog_account (catalog : Map) (_ : unit) (key : str) : tx unit :=
  let id := text_or_empty catalog key in
  let! absent :=
    if negb (valid_finance_id id) then ret true
    else let! found := account id in ret (is_none found) in
  if absent then denied (lit "invalid finance catalog account: " ++ key) else ret tt.

Definition publish_finance_catalog (caller : str) (input : value) : tx value :=
  if negb (bool_decide (caller = LEGACY_ROOT)) then denied (lit "global platform owner required")
  else
    let! catalog := federated_finance_object input (lit "finance catalog") in
    let version := text_or_empty catalog (lit "version") in
    if negb (valid_finance_id version) || negb (federated_finance_safe_numbers (Object catalog))
    then denied (lit "invalid finance catalog")
    else
      each (catalog_integer catalog) tt catalog_integers ;;
      let int key := default 0 (field_i64 catalog key) in
      if (int (lit "tokenScale") <=? 0) || (int (lit "sandboxPerMinuteMinor") <=? 0)
      then denied (lit "tokenScale and sandbox rate must be positive")
      else if (10000 <? int (lit "platformCommissionBps"))
              || negb ((10000 <=? int (lit "authorizationSafetyBps"))
                       && (int (lit "authorizationSafetyBps") <=? 100000))
              || (int (lit "holdTtlMs") <? int (lit "quoteTtlMs"))
              || (FINANCE_HOLD_MAX_TTL_MS <? int (lit "holdTtlMs"))
      then denied (lit "invalid finance catalog policy")
      else
        each (catalog_account catalog) tt catalog_accounts ;;
        let catalog_hash := finance_hash (Object catalog) in
        let! existing := billing_catalog version in
        let existing := default [] existing in
        let already_published := negb (is_empty existing) in
        if already_published && negb (bool_decide (Object existing = Object catalog))
        then denied (lit "pricing version is immutable")
        else
          put_billing_catalog version (Object catalog) ;;
          write_doc DBillingCurrent (lit "") (lit "current")
            (Object (jobject [(lit "version", jtext version);
                              (lit "catalogHash", jtext catalog_hash)])) false ;;
          ret (Object (jobject [(lit "ok", Bool true); (lit "catalog", Object catalog);
                                (lit "catalogHash", jtext catalog_hash);
                                (lit "alreadyPublished", Bool already_published)])).

(** ** Nodes *)

Definition register_finance_node (caller : str) (input : value) : tx value :=
  let! node := federated_finance_object input (lit "finance node") in
  let text key := text_or_empty node key in
  let rate := default 0 (field_i64 node (lit "sandboxPerMinuteMinor")) in
  let! refused :=
    if negb (bool_decide (caller = text (lit "nodeOwnerAccountId")))
       || negb (bool_decide (text (lit "settlementAuthority") = caller))
       || negb (valid_finance_id caller)
       || negb (valid_finance_origin (text (lit "originId")))
       || negb (valid_finance_id (text (lit "meterProgramId")))
       || negb (valid_finance_id (text (lit "talentMeterProgramId")))
       || negb (valid_finance_id (text (lit "meterCreatureId")))
       || negb (valid_finance_id (text (lit "meterEntityId")))
       || negb (valid_finance_id (text (lit "talentMeterCreatureId")))
       || negb (valid_finance_id (text (lit "talentMeterEntityId")))
       || negb (valid_finance_hash (text (lit "revision")))
       || (rate <=? 0) || (9007199254740991 <? rate)
    then ret true
    else let! found := account caller in ret (is_none found) in
  if refused then denied (lit "invalid host-attested finance node registration")
  else
    let! now := now_millis in
    let node := jinsert (lit "status") (jtext (lit "active")) node in
    let node := jinsert (lit "updatedAt") (jint now) node in
    put_billing_nodes (Object (jobject [(caller, Object node)])) ;;
    ret (Object (jobject [(lit "ok", Bool true); (lit "node", Object node)])).

Definition retire_finance_node (caller : str) (node_owner_account_id : str) : tx value :=
  if negb (bool_decide (node_owner_account_id = caller)) || negb (valid_finance_id caller)
  then denied (lit "node owner mismatch")
  else
    let! nodes := billing_nodes in
    let! node := or_denied (jget caller nodes ≫= as_object) (lit "finance node not found") in
    let! now := now_millis in
    let node := jinsert (lit "status") (jtext (lit "retired")) node in
    let node := jinsert (lit "updatedAt") (jint now) node in
    let node := jinsert (lit "revision")
      (jtext (finance_hash (Object (jobject [
         (lit "prior", default Null (jget (lit "revision") node));
         (lit "status", jtext (lit "retired")); (lit "updatedAt", jint now)])))) node in
    put_billing_nodes (Object (jobject [(caller, Object node)])) ;;
    ret (Object (jobject [(lit "ok", Bool true); (lit "node", Object node)])).

(** ** Resources *)

(** The binding a resource must share with its node. *)
Definition resource_matches_node (resource node : Map) : bool :=
  bool_decide (field_str node (lit "status") = Some (lit "active"))
  && negb (differs (field_str resource (lit "hostOriginId")) (field_str node (lit "originId")))
  && negb (differs (field_str resource (lit "billingMeterProgramId"))
             (field_str node (lit "meterProgramId")))
  && negb (differs (field_str resource (lit "billingMeterCreatureId"))
             (field_str node (lit "meterCreatureId")))
  && negb (differs (field_str resource (lit "billingMeterEntityId"))
             (field_str node (lit "meterEntityId")))
  && negb (differs (field_str resource (lit "nodeRegistrationRevision"))
             (field_str node (lit "revision")))
  && negb (differs (field_i64 resource (lit "nodeSandboxPerMinuteMinor"))
             (field_i64 node (lit "sandboxPerMinuteMinor"))).

Definition reviewed (status : option str) : option str :=
  match status with
  | Some s => if bool_decide (s = lit "approved") || bool_decide (s = lit "denied")
              then Some s else None
  | None => None
  end.

(** The status a registration stores: a decision that was already made is kept. *)
Definition registered_status (caller : str) (resource : Map) (existing : option Map) : str :=
  let requested :=
    default (lit "pending")
      (match reviewed (field_str resource (lit "status")) with
       | Some s => if bool_decide (caller = LEGACY_ROOT) then Some s else None
       | None => None
       end) in
  default requested (reviewed (existing ≫= λ row, field_str row (lit "status"))).

Definition register_finance_resource (caller : str) (input : value) : tx value :=
  let! resource := federated_finance_object input (lit "finance resource") in
  let resource_id := text_or_empty resource (lit "programId") in
  let kind := text_or_empty resource (lit "kind") in
  let owner := text_or_empty resource (lit "owner") in
  let host_owner := text_or_empty resource (lit "hostNodeOwnerAccountId") in
  let! bucket := or_denied (federated_finance_market_bucket kind)
                   (lit "invalid finance resource kind") in
  let pricing := default Null (jget (lit "pricing") resource) in
  let! refused :=
    if negb (bool_decide (caller = host_owner)) || negb (valid_finance_id resource_id)
       || negb (valid_finance_id owner)
    then ret true
    else
      let! found := account owner in
      ret (is_none found || negb (federated_finance_safe_numbers pricing)) in
  if refused then denied (lit "invalid host-attested finance resource")
  else
    let! nodes := billing_nodes in
    let! node := or_denied (jget host_owner nodes ≫= as_object)
                   (lit "finance execution node not registered") in
    if negb (resource_matches_node resource node)
    then denied (lit "resource does not match its active finance node")
    else
      let! entries := market_doc bucket in
      let existing := jget resource_id entries ≫= as_object in
      if is_some_and (λ row, differs (field_str row (lit "hostNodeOwnerAccountId"))
                               (Some host_owner)) existing
      then denied (lit "resource migration requires a new program id")
      else
        let! now := now_millis in
        let resource := jinsert (lit "status")
                          (jtext (registered_status caller resource existing)) resource in
        let resource := jinsert (lit "federated") (Bool true) resource in
        let resource := jinsert (lit "registeredAt") (jint now) resource in
        put_market_doc bucket (Object (jobject [(resource_id, Object resource)])) ;;
        ret (Object (jobject [(lit "ok", Bool true); (lit "resource", Object resource)])).

Definition review_finance_resource (caller : str) (input : ReviewFinanceResourceInput) : tx value :=
  if negb (bool_decide (caller = LEGACY_ROOT)) || is_none (reviewed (Some (rf_status input)))
  then denied (lit "global finance reviewer required")
  else
    let! bucket := or_denied (federated_finance_market_bucket (rf_kind input))
                     (lit "invalid finance resource kind") in
    let! entries := market_doc bucket in
    let! resource := or_denied (jget (rf_resource_id input) entries ≫= as_object)
                       (lit "finance resource not found") in
    let! now := now_millis in
    let resource := jinsert (lit "status") (jtext (rf_status input)) resource in
    let resource := jinsert (lit "reviewedBy") (jtext caller) resource in
    let resource := jinsert (lit "reviewedAt") (jint now) resource in
    let resource := if is_empty (rf_reason input) then resource
                    else jinsert (lit "reason") (jtext (rf_reason input)) resource in
    put_market_doc bucket (Object (jobject [(rf_resource_id input, Object resource)])) ;;
    ret (Object (jobject [(lit "ok", Bool true); (lit "resource", Object resource)])).

Definition retire_finance_resource (caller : str) (input : RetireFinanceResourceInput) : tx value :=
  let! bucket := or_denied (federated_finance_market_bucket (rt_kind input))
                   (lit "invalid finance resource kind") in
  let! entries := market_doc bucket in
  let! resource := or_denied (jget (rt_resource_id input) entries ≫= as_object)
                     (lit "finance resource not found") in
  let host_owner := text_or_empty resource (lit "hostNodeOwnerAccountId") in
  if negb (bool_decide (caller = host_owner)) && negb (bool_decide (caller = LEGACY_ROOT))
  then denied (lit "resource host or global reviewer required")
  else
    put_market_doc bucket (Object (jobject [(rt_resource_id input, Null)])) ;;
    ret (Object (jobject [(lit "ok", Bool true);
                          (lit "resourceId", jtext (rt_resource_id input))])).

(** ** publish_finance_quote *)

(** The members of an execution row against the resource, and of the resource against the node, as
    pairs of field names. *)
Definition execution_binding : list (str * str) :=
  [(lit "nodeOwnerAccountId", lit "hostNodeOwnerAccountId"); (lit "hostOriginId", lit "hostOriginId");
   (lit "meterProgramId", lit "billingMeterProgramId");
   (lit "meterCreatureId", lit "billingMeterCreatureId");
   (lit "meterEntityId", lit "billingMeterEntityId");
   (lit "nodeRegistrationRevision", lit "nodeRegistrationRevision");
   (lit "sandboxPerMinuteMinor", lit "nodeSandboxPerMinuteMinor")].
Definition node_binding : list (str * str) :=
  [(lit "hostOriginId", lit "originId"); (lit "billingMeterProgramId", lit "meterProgramId");
   (lit "billingMeterCreatureId", lit "meterCreatureId");
   (lit "billingMeterEntityId", lit "meterEntityId");
   (lit "nodeRegistrationRevision", lit "revision");
   (lit "nodeSandboxPerMinuteMinor", lit "sandboxPerMinuteMinor")].
Definition bound (pairs : list (str * str)) (a b : Map) : bool :=
  forallb (λ p, negb (differs (jget p.1 a) (jget p.2 b))) pairs.

Definition validate_federated_quote_resource (execution : Map) : tx unit :=
  let resource_id := text_or_empty execution (lit "resourceId") in
  let kind := text_or_empty execution (lit "kind") in
  let! bucket := or_denied (federated_finance_market_bucket kind)
                   (lit "invalid quote execution resource kind") in
  if negb (valid_finance_id resource_id) then denied (lit "invalid quote execution resource id")
  else
    let! entries := market_doc bucket in
    let! resource := or_denied (jget resource_id entries ≫= as_object)
                       (lit "quoted resource is not globally registered") in
    if negb (bool_decide (field_str resource (lit "status") = Some (lit "approved")))
    then denied (lit "quoted resource is not globally approved")
    else
      let node_owner := text_or_empty resource (lit "hostNodeOwnerAccountId") in
      let! nodes := billing_nodes in
      let! node := or_denied (jget node_owner nodes ≫= as_object)
                     (lit "quoted resource node is not registered") in
      if negb (bool_decide (field_str node (lit "status") = Some (lit "active")))
         || negb (bound execution_binding execution resource)
         || negb (bound node_binding resource node)
         || differs (jget (lit "settlementAuthority") execution)
              (jget (lit "settlementAuthority") node)
      then denied (lit "quote execution does not match the active global resource binding")
      else ret tt.

(** The loop over the execution resources: the first is the coordinator. *)
Definition quote_resource (quote_kind coordinator_id : str) (st : nat * gset str) (raw : value)
    : tx (nat * gset str) :=
  let! row := or_denied (as_object raw) (lit "invalid quote execution resource") in
  validate_federated_quote_resource row ;;
  let resource_id := text_or_empty row (lit "resourceId") in
  if bool_decide (resource_id ∈ st.2) then denied (lit "duplicate quote execution resource")
  else if bool_decide (st.1 = 0%nat)
          && (differs (field_str row (lit "kind")) (Some quote_kind)
              || negb (bool_decide (resource_id = coordinator_id)))
  then denied (lit "quote coordinator resource mismatch")
  else ret (S st.1, {[resource_id]} ∪ st.2).

Definition quote_beneficiary (cap_total : i64) (raw : value) : tx i64 :=
  let! row := or_denied (as_object raw) (lit "invalid quote beneficiary") in
  let user_id := text_or_empty row (lit "userId") in
  let amount := default 0 (field_i64 row (lit "maxAmount")) in
  let! refused :=
    if negb (valid_finance_id user_id) || (amount <=? 0) then ret true
    else let! found := account user_id in ret (is_none found) in
  if refused then denied (lit "invalid quote beneficiary")
  else or_denied (checked_add_i64 cap_total amount) (lit "quote beneficiary overflow").

(** The checks of a quote's resources. *)
Definition quote_resources (quote execution : Map) (quote_kind authority meter : str) : tx unit :=
  let! resources := or_denied (jget (lit "resources") execution ≫= as_array)
                      (lit "quote execution resources missing") in
  if bool_decide (quote_kind = lit "talent") then
    if negb (is_empty resources)
    then denied (lit "talent quote cannot contain execution resources") else ret tt
  else if is_empty resources || (9 <? Z.of_nat (length resources))
  then denied (lit "invalid quote execution resource count")
  else
    each (quote_resource quote_kind (text_or_empty quote (lit "resourceId"))) (0%nat, ∅) resources ;;
    let coordinator := default [] (head resources ≫= as_object) in
    if differs (field_str coordinator (lit "settlementAuthority")) (Some authority)
       || differs (field_str coordinator (lit "meterProgramId")) (Some meter)
       || differs (field_str coordinator (lit "meterCreatureId"))
            (Some (text_or_empty execution (lit "meterCreatureId")))
       || differs (field_str coordinator (lit "meterEntityId"))
            (Some (text_or_empty execution (lit "meterEntityId")))
    then denied (lit "quote coordinator execution mismatch")
    else ret tt.

(** Whether the quote is refused by the conditions on its own members, its issuer and its
    coordinator. *)
Definition quote_refused (caller : str) (quote hold execution : Map) : tx bool :=
  let quote_id := text_or_empty quote (lit "quoteId") in
  let payer := text_or_empty quote (lit "payerUserId") in
  let max_amount := default 0 (field_i64 quote (lit "maxAmount")) in
  let quote_kind := text_or_empty quote (lit "kind") in
  let authority := text_or_empty execution (lit "settlementAuthority") in
  let meter := text_or_empty execution (lit "meterProgramId") in
  let pricing_version := text_or_empty quote (lit "pricingVersion") in
  let talent := bool_decide (quote_kind = lit "talent") in
  let! active_catalog := billing_current in
  let! catalog := if is_empty pricing_version then ret None else billing_catalog pricing_version in
  let! nodes := billing_nodes in
  let issuer_node := jget caller nodes ≫= as_object in
  let coordinator_node := jget authority nodes ≫= as_object in
  let node_field field := coordinator_node ≫= λ node, jget field node ≫= as_str in
  let expected_meter := node_field (if talent then lit "talentMeterProgramId"
                                    else lit "meterProgramId") in
  if negb (valid_finance_id quote_id) || negb (valid_finance_id payer)
     || negb (bool_decide (quote_kind ∈ [lit "agent"; lit "tool"; lit "talent"]))
     || differs (field_str active_catalog (lit "version")) (Some pricing_version)
     || is_empty (default [] catalog) || (max_amount <=? 0)
     || (talent && negb (bool_decide (authority = caller)))
     || differs (issuer_node ≫= λ node, jget (lit "status") node ≫= as_str) (Some (lit "active"))
     || differs (node_field (lit "status")) (Some (lit "active"))
     || differs expected_meter (Some meter)
     || (negb talent
         && (differs (node_field (lit "meterCreatureId"))
               (Some (text_or_empty execution (lit "meterCreatureId")))
             || differs (node_field (lit "meterEntityId"))
                  (Some (text_or_empty execution (lit "meterEntityId")))))
     || differs (field_str hold (lit "quoteId")) (Some quote_id)
     || differs (field_i64 hold (lit "maxAmount")) (Some max_amount)
     || differs (field_str hold (lit "settlementAuthority")) (Some authority)
     || differs (field_str hold (lit "meterProgramId")) (Some meter)
  then ret true
  else
    let! payer_account := account payer in
    if is_none payer_account then ret true
    else
      let! caller_account := account caller in
      ret (is_none caller_account || negb (federated_finance_safe_numbers (Object quote))).

Definition publish_finance_quote (caller : str) (input : value) : tx value :=
  let! quote := federated_finance_object input (lit "finance quote") in
  let! hold := or_denied (jget (lit "holdRequest") quote ≫= as_object)
                 (lit "quote holdRequest missing") in
  let! execution := or_denied (jget (lit "executionPlan") quote ≫= as_object)
                      (lit "quote executionPlan missing") in
  let! refused := quote_refused caller quote hold execution in
  if refused then denied (lit "invalid immutable finance quote")
  else
    quote_resources quote execution (text_or_empty quote (lit "kind"))
      (text_or_empty execution (lit "settlementAuthority"))
      (text_or_empty execution (lit "meterProgramId")) ;;
    let! beneficiaries := or_denied (jget (lit "beneficiaries") hold ≫= as_array)
                            (lit "quote beneficiaries missing") in
    if is_empty beneficiaries || (FINANCE_MAX_BENEFICIARIES <? Z.of_nat (length beneficiaries))
    then denied (lit "invalid quote beneficiary count")
    else
      let! cap_total := each quote_beneficiary 0 beneficiaries in
      if negb (cap_total =? default 0 (field_i64 quote (lit "maxAmount")))
      then denied (lit "quote caps do not equal maxAmount")
      else
        let quote_id := text_or_empty quote (lit "quoteId") in
        let! found := doc_ok DBillingQuote quote_id (lit "quote") in
        let existing := default [] found in
        if negb (is_empty existing) then
          let comparable := jremove (lit "publishedAt")
                              (jremove (lit "quoteIssuerNodeOwnerId") existing) in
          if negb (bool_decide (comparable = quote)) then denied (lit "quote id is immutable")
          else ret (Object (jobject [(lit "ok", Bool true); (lit "alreadyPublished", Bool true);
                                     (lit "quote", Object existing)]))
        else
          let! now := now_millis in
          let quote := jinsert (lit "quoteIssuerNodeOwnerId") (jtext caller) quote in
          let quote := jinsert (lit "publishedAt") (jint now) quote in
          put_billing_quote quote_id (Object quote) ;;
          ret (Object (jobject [(lit "ok", Bool true); (lit "quote", Object quote)])).

End market.
