(* ===== verification/FinanceBooks.v ===== *)
(** The books of the finance family: what an action may change, and that it never makes or loses
    money.

    The wealth of a world is what every wallet owns: the available balances, the held and
    payout-held counters, the open steps of the token locks, less the debts.  [money_conserved]
    shows that no action changes it except by the amount that action moves across the boundary of
    the system (a mint, a payment adjustment, a paid payout). *)

From S2P Require Import Prelude Text Core Ports BTree Json FinanceLedger FinanceHelpers.
From S2P Require Import FinanceHolds FinancePools FinanceWallets FinanceMarket.

Open Scope Z_scope.
Open Scope tx_scope.

(** ** Counters after a write *)

Lemma account_value_set a k k' n :
  account_value (set_account_value a k n) k' =
  if bool_decide (k' = k) then Some n else account_value a k'.
Proof. destruct k, k'; reflexivity. Qed.

Lemma stored_counter_put w u k n k' u' :
  stored_counter (put_account w u (λ a, set_account_value a k n)) k' u' =
  if bool_decide (u' = u ∧ k' = k) then n else stored_counter w k' u'.
Proof.
  unfold stored_counter, put_account. cbn [w_accounts set_accounts].
  destruct (decide (u' = u)) as [->|Hu].
  - rewrite lookup_insert_eq. cbn. rewrite account_value_set.
    destruct (decide (k' = k)) as [->|Hk].
    + rewrite !bool_decide_eq_true_2 by done. done.
    + rewrite !bool_decide_eq_false_2 by naive_solver.
      destruct (w_accounts w !! u); [done|]. cbn. by destruct k'.
  - rewrite lookup_insert_ne by done. by rewrite bool_decide_eq_false_2 by naive_solver.
Qed.

Lemma stored_counter_put_eq w u k n :
  stored_counter (put_account w u (λ a, set_account_value a k n)) k u = n.
Proof. rewrite stored_counter_put. by rewrite bool_decide_eq_true_2. Qed.

Lemma stored_counter_put_kind w u k n k' u' :
  k' ≠ k → stored_counter (put_account w u (λ a, set_account_value a k n)) k' u'
           = stored_counter w k' u'.
Proof. intros. rewrite stored_counter_put. rewrite bool_decide_eq_false_2; naive_solver. Qed.

Lemma stored_counter_put_user w u k n k' u' :
  u' ≠ u → stored_counter (put_account w u (λ a, set_account_value a k n)) k' u'
           = stored_counter w k' u'.
Proof. intros. rewrite stored_counter_put. rewrite bool_decide_eq_false_2; naive_solver. Qed.

Lemma stored_counter_pool w u p k u' :
  stored_counter (put_pool_of_user u p w) k u' = stored_counter w k u'.
Proof.
  unfold stored_counter, put_pool_of_user, put_account. cbn [w_accounts set_accounts].
  destruct (decide (u' = u)) as [->|Hu].
  - rewrite lookup_insert_eq. destruct (w_accounts w !! u), k; done.
  - by rewrite lookup_insert_ne by done.
Qed.

(** ** Wealth *)

(** The amounts of the open steps of a lock. *)
Definition open_step (v : value) : Z :=
  match v with
  | Object step => if step_consumed step then 0
                   else default 0 (jget (lit "amount") step ≫= as_i64)
  | _ => 0
  end.
Definition locked (document : Map) : Z :=
  match jget (lit "steps") document with
  | Some (Array steps) => sum_Z (open_step <$> steps)
  | _ => 0
  end.

(** What a counter adds to the wealth of its wallet. *)
Definition weight (k : WalletCounter) : Z :=
  match k with Held | PayoutHeld => 1 | Debt => -1 | Withdrawable | Earned | Spent => 0 end.

Definition account_wealth (a : FinanceAccount) : Z :=
  default 0 (fa_held a) + default 0 (fa_payout_held a) - default 0 (fa_debt a).

Definition wealth (w : World) : Z :=
  msum (λ _ b, b) (w_balances w) + msum (λ _ a, account_wealth a) (w_accounts w)
  + msum (λ _ l, locked (lock_document l)) (w_locks w).

Lemma wealth_counter w u k n :
  wealth (put_account w u (λ a, set_account_value a k n)) =
  wealth w + weight k * (n - stored_counter w k u).
Proof.
  unfold wealth, put_account. cbn [w_accounts w_balances w_locks set_accounts].
  rewrite msum_insert. unfold mterm, stored_counter.
  unfold account_wealth. destruct (w_accounts w !! u) as [a|], k; cbn -[Z.mul Z.add Z.sub];
    repeat (case_bool_decide; try done); cbn -[Z.mul Z.add Z.sub]; lia.
Qed.

Lemma wealth_balance w id b b0 :
  bal w id = Some b0 → wealth (put_balance w id b) = wealth w - b0 + b.
Proof.
  unfold bal. intros Hb. unfold wealth, put_balance. cbn [w_accounts w_balances w_locks set_balances].
  rewrite msum_insert. unfold mterm. rewrite Hb. lia.
Qed.

Lemma wealth_pool w u p : wealth (put_pool_of_user u p w) = wealth w.
Proof.
  unfold wealth, put_pool_of_user, put_account. cbn [w_accounts w_balances w_locks set_accounts].
  rewrite msum_insert. unfold mterm. destruct (w_accounts w !! u); cbn; unfold account_wealth; cbn;
    lia.
Qed.

Lemma wealth_row w d id m : wealth (put_row w d id m) = wealth w.
Proof. done. Qed.
Lemma wealth_marker m v w : wealth (put_marker m v w) = wealth w.
Proof. done. Qed.
Lemma wealth_participants w x : wealth (set_participants w x) = wealth w.
Proof. done. Qed.
Lemma wealth_next w x : wealth (set_next w x) = wealth w.
Proof. done. Qed.
Lemma wealth_namespace w k m : wealth (put_namespace w k m) = wealth w.
Proof. done. Qed.

Lemma stored_counter_row w d id m k u : stored_counter (put_row w d id m) k u = stored_counter w k u.
Proof. done. Qed.
Lemma stored_counter_marker m v w k u : stored_counter (put_marker m v w) k u = stored_counter w k u.
Proof. done. Qed.
Lemma stored_counter_next w x k u : stored_counter (set_next w x) k u = stored_counter w k u.
Proof. done. Qed.
Lemma stored_counter_participants w x k u :
  stored_counter (set_participants w x) k u = stored_counter w k u.
Proof. done. Qed.
Lemma stored_counter_balance w id b k u :
  stored_counter (put_balance w id b) k u = stored_counter w k u.
Proof. done. Qed.

Lemma bal_put_account w u f id : bal (put_account w u f) id = bal w id.
Proof. done. Qed.
Lemma bal_put_row w d i m id : bal (put_row w d i m) id = bal w id.
Proof. done. Qed.
Lemma bal_put_marker m v w id : bal (put_marker m v w) id = bal w id.
Proof. done. Qed.
Lemma bal_set_next w x id : bal (set_next w x) id = bal w id.
Proof. done. Qed.
Lemma bal_set_participants w x id : bal (set_participants w x) id = bal w id.
Proof. done. Qed.
Lemma bal_pool w u p id : bal (put_pool_of_user u p w) id = bal w id.
Proof. done. Qed.
Lemma bal_put_balance w id b : bal (put_balance w id b) id = Some b.
Proof. apply lookup_insert_eq. Qed.
Lemma bal_put_balance_ne w id id' b : id' ≠ id → bal (put_balance w id b) id' = bal w id'.
Proof. intros. by apply lookup_insert_ne. Qed.

Lemma next_put_account w u f : w_next (put_account w u f) = w_next w.
Proof. done. Qed.
Lemma next_put_balance w id b : w_next (put_balance w id b) = w_next w.
Proof. done. Qed.
Lemma next_put_row w d id m : w_next (put_row w d id m) = w_next w.
Proof. done. Qed.
Lemma next_put_marker m v w : w_next (put_marker m v w) = w_next w.
Proof. done. Qed.
Lemma next_set_next w n : w_next (set_next w n) = n.
Proof. done. Qed.
Lemma next_pool u p w : w_next (put_pool_of_user u p w) = w_next w.
Proof. done. Qed.

Create HintDb fin.
#[export] Hint Rewrite wealth_counter wealth_pool wealth_row wealth_marker wealth_participants
  wealth_next wealth_namespace stored_counter_pool stored_counter_row stored_counter_marker
  stored_counter_next stored_counter_participants stored_counter_balance stored_counter_put_eq
  bal_put_account bal_put_row bal_put_marker bal_set_next bal_set_participants bal_pool
  bal_put_balance next_put_account next_put_balance next_put_row next_put_marker next_set_next
  next_pool : fin.
#[export] Hint Rewrite stored_counter_put_kind using done : fin.
#[export] Hint Rewrite stored_counter_put_user bal_put_balance_ne using congruence : fin.

(** ** Types: balances and counters are [i64]s *)

Record typed (w : World) : Prop := {
  typed_balance id b : bal w id = Some b → in_i64 b;
  typed_counter k u : in_i64 (stored_counter w k u);
}.

Lemma typed_put_counter w u k n :
  typed w → in_i64 n → typed (put_account w u (λ a, set_account_value a k n)).
Proof.
  intros [Hb Hc] Hn. split; [done|]. intros k' u'. rewrite stored_counter_put.
  by case_bool_decide.
Qed.
Lemma typed_put_balance w id b : typed w → in_i64 b → typed (put_balance w id b).
Proof.
  intros [Hb Hc] Hn. split; [|done]. intros id' b'.
  destruct (decide (id' = id)) as [->|]; autorewrite with fin; [by intros [= <-]|]. apply Hb.
Qed.
Lemma typed_put_row w d id m : typed w → typed (put_row w d id m).
Proof. intros [Hb Hc]. by split. Qed.
Lemma typed_put_marker m v w : typed w → typed (put_marker m v w).
Proof. intros [Hb Hc]. by split. Qed.
Lemma typed_set_next w x : typed w → typed (set_next w x).
Proof. intros [Hb Hc]. by split. Qed.
Lemma typed_set_participants w x : typed w → typed (set_participants w x).
Proof. intros [Hb Hc]. by split. Qed.
Lemma typed_pool w u p : typed w → typed (put_pool_of_user u p w).
Proof. intros [Hb Hc]. split; [done|]. intros k' u'. by rewrite stored_counter_pool. Qed.
Lemma typed_put_lock w o i d mg : typed w → typed (put_lock w o i d mg).
Proof. intros [Hb Hc]. by split. Qed.
Lemma typed_delete_lock w o i : typed w → typed (delete_lock w o i).
Proof. intros [Hb Hc]. by split. Qed.
Lemma typed_put_namespace w k m : typed w → typed (put_namespace w k m).
Proof. intros [Hb Hc]. by split. Qed.

Create HintDb typed.
#[export] Hint Resolve typed_put_counter typed_put_balance typed_put_row typed_put_marker
  typed_set_next typed_set_participants typed_pool typed_put_lock typed_delete_lock
  typed_put_namespace : typed.

(** ** Fields of an updated document *)

Lemma as_i64_jint z : in_i64 z → as_i64 (jint z) = Some z.
Proof.
  intros Hz. unfold as_i64, jint, number_as_i64.
  destruct (Z.leb_spec 0 z); [|done]. destruct (Z.leb_spec z i64_max); [done|ilia].
Qed.

Lemma field_str_jinsert m k v f :
  field_str (jinsert k v m) f = if bool_decide (f = k) then as_str v else field_str m f.
Proof. unfold field_str. rewrite jget_jinsert. by case_bool_decide. Qed.
Lemma text_or_empty_jinsert m k v f :
  text_or_empty (jinsert k v m) f =
  if bool_decide (f = k) then default [] (as_str v) else text_or_empty m f.
Proof. unfold text_or_empty. rewrite field_str_jinsert. by case_bool_decide. Qed.
Lemma amount_field_jinsert m k v f :
  amount_field (jinsert k v m) f = if bool_decide (f = k) then as_i64 v else amount_field m f.
Proof. unfold amount_field. rewrite jget_jinsert. by case_bool_decide. Qed.

Lemma amount_or_zero_jinsert m k v f :
  amount_or_zero (jinsert k v m) f =
  if bool_decide (f = k) then default 0 (as_i64 v) else amount_or_zero m f.
Proof. unfold amount_or_zero. rewrite amount_field_jinsert. by case_bool_decide. Qed.

(** Decide the comparisons of literal field names, and read the fields off a document that was
    built or edited with them. *)
Ltac literal_keys :=
  repeat match goal with
  | |- context [bool_decide (lit ?a = lit ?b)] =>
      let r := eval vm_compute in (bool_decide (lit a = lit b)) in
      replace (bool_decide (lit a = lit b)) with r by (vm_compute; reflexivity)
  | |- context [bool_decide (Some (lit ?a) = Some (lit ?b))] =>
      let r := eval vm_compute in (bool_decide (Some (lit a) = Some (lit b))) in
      replace (bool_decide (Some (lit a) = Some (lit b))) with r by (vm_compute; reflexivity)
  end; cbn [andb orb negb].
Ltac jfields :=
  unfold jobject; cbn [foldl fst snd];
  repeat (first [ rewrite field_str_jinsert | rewrite text_or_empty_jinsert
                | rewrite amount_field_jinsert | rewrite amount_or_zero_jinsert
                | rewrite jget_jinsert ]; literal_keys; cbv match);
  repeat change (as_str (jtext ?s)) with (Some s);
  rewrite ?as_i64_jint by ilia; cbn [from_option id]; literal_keys.

(** ** The books

    What the reconciliation reconstructs from the documents: the held counter of a payer from its
    active holds and open pools, the payout-held counter from the pending payouts, and the reserved
    amount of a pool from its open reservations. *)

Definition has_status (m : Map) (s : str) : bool := bool_decide (field_str m (lit "status") = Some s).

Definition held_term (u : str) (d : FinanceDoc) (m : Map) : Z :=
  match d with
  | DHold => if bool_decide (field_str m (lit "payerUserId") = Some u)
                && (has_status m (lit "open") || has_status m (lit "running"))
             then default 0 (amount_field m (lit "maxAmount")) else 0
  | DPool => if bool_decide (field_str m (lit "payerUserId") = Some u) && has_status m (lit "open")
             then amount_or_zero m (lit "remaining") + amount_or_zero m (lit "reserved") else 0
  | _ => 0
  end.
Definition payout_term (u : str) (d : FinanceDoc) (m : Map) : Z :=
  match d with
  | DPayout => if bool_decide (field_str m (lit "userId") = Some u) && has_status m (lit "pending")
               then default 0 (amount_field m (lit "amount")) else 0
  | _ => 0
  end.
Definition reserved_term (pool : str) (d : FinanceDoc) (m : Map) : Z :=
  match d with
  | DPoolReservation =>
      if bool_decide (field_str m (lit "poolId") = Some pool) && has_status m (lit "reserved")
      then amount_or_zero m (lit "amount") else 0
  | _ => 0
  end.

(** A sum over every stored document. *)
Definition doc_sum (f : FinanceDoc → Map → Z) (w : World) : Z :=
  msum (λ k r, f k.1 (row_document r)) (w_rows w).

Definition doc_at (w : World) (d : FinanceDoc) (id : str) : option Map :=
  row_document <$> w_rows w !! (d, id).

Definition opt_term (f : Map → Z) (o : option Map) : Z :=
  match o with Some m => f m | None => 0 end.

Lemma doc_sum_put_row f w d id m :
  doc_sum f (put_row w d id m) = doc_sum f w - opt_term (f d) (doc_at w d id) + f d m.
Proof.
  unfold doc_sum, put_row, doc_at. cbn [w_rows set_rows]. rewrite msum_insert. unfold mterm.
  destruct (w_rows w !! (d, id)); cbn; lia.
Qed.

Lemma doc_at_put_row w d id m d' id' :
  doc_at (put_row w d id m) d' id' =
  if bool_decide (d' = d ∧ id' = id) then Some m else doc_at w d' id'.
Proof.
  unfold doc_at, put_row. cbn [w_rows set_rows].
  destruct (decide (d' = d ∧ id' = id)) as [[-> ->]|Hne].
  - rewrite lookup_insert_eq. by rewrite bool_decide_eq_true_2.
  - rewrite lookup_insert_ne by naive_solver. by rewrite bool_decide_eq_false_2.
Qed.
Lemma doc_at_put_row_eq w d id m : doc_at (put_row w d id m) d id = Some m.
Proof. rewrite doc_at_put_row. by rewrite bool_decide_eq_true_2. Qed.
Lemma doc_at_put_row_family w d id m d' id' :
  d' ≠ d → doc_at (put_row w d id m) d' id' = doc_at w d' id'.
Proof. intros. rewrite doc_at_put_row. rewrite bool_decide_eq_false_2; naive_solver. Qed.
Lemma doc_at_put_account w u f d id : doc_at (put_account w u f) d id = doc_at w d id.
Proof. done. Qed.
Lemma doc_at_put_balance w i b d id : doc_at (put_balance w i b) d id = doc_at w d id.
Proof. done. Qed.
Lemma doc_at_put_marker m v w d id : doc_at (put_marker m v w) d id = doc_at w d id.
Proof. done. Qed.
Lemma doc_at_set_next w x d id : doc_at (set_next w x) d id = doc_at w d id.
Proof. done. Qed.
Lemma doc_at_set_participants w x d id : doc_at (set_participants w x) d id = doc_at w d id.
Proof. done. Qed.
Lemma doc_at_pool u p w d id : doc_at (put_pool_of_user u p w) d id = doc_at w d id.
Proof. done. Qed.
Lemma doc_sum_put_account f w u g : doc_sum f (put_account w u g) = doc_sum f w.
Proof. done. Qed.
Lemma doc_sum_put_balance f w i b : doc_sum f (put_balance w i b) = doc_sum f w.
Proof. done. Qed.
Lemma doc_sum_put_marker f m v w : doc_sum f (put_marker m v w) = doc_sum f w.
Proof. done. Qed.
Lemma doc_sum_set_next f w x : doc_sum f (set_next w x) = doc_sum f w.
Proof. done. Qed.
Lemma doc_sum_set_participants f w x : doc_sum f (set_participants w x) = doc_sum f w.
Proof. done. Qed.
Lemma doc_sum_pool f u p w : doc_sum f (put_pool_of_user u p w) = doc_sum f w.
Proof. done. Qed.

#[export] Hint Rewrite doc_sum_put_row doc_sum_put_account doc_sum_put_balance doc_sum_put_marker
  doc_sum_set_next doc_sum_set_participants doc_sum_pool doc_at_put_row_eq doc_at_put_account
  doc_at_put_balance doc_at_put_marker doc_at_set_next doc_at_set_participants doc_at_pool : fin.
#[export] Hint Rewrite doc_at_put_row_family using done : fin.

(** What each kind of document must say. *)
Definition nonneg_field (m : Map) (f : str) (z : Z) : Prop :=
  amount_field m f = Some z ∧ 0 ≤ z ≤ i64_max.

Record hold_ok (m : Map) : Prop := {
  ho_payer : ∃ p, field_str m (lit "payerUserId") = Some p ∧ p ≠ [];
  ho_max : ∃ a, amount_field m (lit "maxAmount") = Some a ∧ 0 < a ≤ i64_max;
  ho_status :
    (field_str m (lit "status") ∈ [Some (lit "open"); Some (lit "running")] ∧
     amount_field m (lit "remainingAmount") = amount_field m (lit "maxAmount"))
    ∨ (field_str m (lit "status") = Some (lit "settled") ∧
       amount_field m (lit "remainingAmount") = Some 0 ∧
       ∃ a r, nonneg_field m (lit "actualAmount") a ∧ nonneg_field m (lit "refundedAmount") r ∧
              amount_field m (lit "maxAmount") = Some (a + r))
    ∨ (field_str m (lit "status") ∈ [Some (lit "released"); Some (lit "expired")] ∧
       amount_field m (lit "remainingAmount") = Some 0 ∧
       amount_field m (lit "refundedAmount") = amount_field m (lit "maxAmount"));
}.

Record pool_ok (m : Map) : Prop := {
  po_payer : ∃ p, field_str m (lit "payerUserId") = Some p ∧ p ≠ [];
  po_amounts : ∃ remaining reserved spent refunded,
    nonneg_field m (lit "remaining") remaining ∧ nonneg_field m (lit "reserved") reserved ∧
    nonneg_field m (lit "spent") spent ∧ nonneg_field m (lit "refunded") refunded ∧
    nonneg_field m (lit "maxAmount") (remaining + reserved + spent + refunded);
  po_status : field_str m (lit "status") = Some (lit "open")
    ∨ (field_str m (lit "status") = Some (lit "closed") ∧
       amount_field m (lit "remaining") = Some 0 ∧ amount_field m (lit "reserved") = Some 0);
}.

Record reservation_ok (m : Map) : Prop := {
  ro_payer : ∃ p, field_str m (lit "payerUserId") = Some p ∧ p ≠ [];
  ro_pool : ∃ p, field_str m (lit "poolId") = Some p ∧ p ≠ [];
  ro_amount : ∃ a, amount_field m (lit "amount") = Some a ∧ 0 < a ≤ i64_max;
  ro_status : field_str m (lit "status")
    ∈ [Some (lit "reserved"); Some (lit "settled"); Some (lit "released")];
}.

Definition payout_ok (m : Map) : Prop :=
  field_str m (lit "status") = Some (lit "pending") →
  (∃ u, field_str m (lit "userId") = Some u ∧ u ≠ []) ∧
  ∃ a, amount_field m (lit "amount") = Some a ∧ 0 < a ≤ i64_max.

Definition doc_ok_at (d : FinanceDoc) (m : Map) : Prop :=
  match d with
  | DHold => hold_ok m
  | DPool => pool_ok m
  | DPoolReservation => reservation_ok m
  | DPayout => payout_ok m
  | _ => True
  end.

(** The families whose identifiers the ledger generates. *)
Definition generated (d : FinanceDoc) : Prop := d ∈ [DHold; DPool; DPayout; DJournal].

(** A token lock is filed under a generated identifier, and its document is ordered. *)
Definition lock_known `{Platform} (w : World) (key : str) (l : LockRow) : Prop :=
  (∃ owner n, (n < w_next w)%nat ∧ key = lock_key owner (id_at n)) ∧ ordered (lock_document l).
Lemma lock_known_next `{Platform} w w' key l :
  (w_next w ≤ w_next w')%nat → lock_known w key l → lock_known w' key l.
Proof. intros Hn [(o & n & Hlt & ->) Hd]. split; [exists o, n; split; [lia|done]|done]. Qed.

(** The books of a world, up to what its counters are ahead of its documents: between the writes
    of one action [held], [payouts] and [reserved] are not zero. *)
Record books_off `{Platform} (held payouts reserved : str → Z) (w : World) : Prop := {
  bk_ids : bal w [] = None;
  bk_docs d id m : doc_at w d id = Some m → doc_ok_at d m;
  bk_fresh d id : generated d → is_Some (doc_at w d id) → ∃ n, (n < w_next w)%nat ∧ id = id_at n;
  bk_refs run m : doc_at w DPoolReservation run = Some m →
    ∃ p pool, field_str m (lit "poolId") = Some p ∧ doc_at w DPool p = Some pool ∧
              field_str m (lit "payerUserId") = field_str pool (lit "payerUserId");
  bk_held u : stored_counter w Held u = doc_sum (held_term u) w + held u;
  bk_payout_held u : stored_counter w PayoutHeld u = doc_sum (payout_term u) w + payouts u;
  bk_reserved id m : doc_at w DPool id = Some m →
    amount_or_zero m (lit "reserved") = doc_sum (reserved_term id) w + reserved id;
  bk_locks key l : w_locks w !! key = Some l → lock_known w key l;
}.
Definition none : str → Z := λ _, 0.
Definition books `{Platform} : World → Prop := books_off none none none.

(** The balance an account view read. *)
Lemma account_view w id a :
  (λ b, {| acc_id := id; acc_balance := b |}) <$> bal w id = Some a →
  acc_id a = id ∧ bal w id = Some (acc_balance a).
Proof. destruct (bal w id); [|done]. by intros [= <-]. Qed.

(** Simplify the wealth of the world an action left, one write at a time. *)
Ltac unchecked :=
  repeat match goal with
  | G : checked_add_i64 _ _ = Some _ |- _ => apply checked_Some in G as [? ?]; subst
  | G : checked_sub_i64 _ _ = Some _ |- _ => apply checked_Some in G as [? ?]; subst
  | G : _ <$> bal _ _ = Some _ |- _ => apply account_view in G as [? ?]
  end.

Ltac wealthy :=
  intros;
  autorewrite with fin in *;
  repeat (erewrite wealth_balance by (autorewrite with fin; eassumption); autorewrite with fin);
  cbn [weight] in *; try lia.

(** ** How documents evolve

    What a later version of a stored document may differ in.  A journal entry never changes, a
    published catalog or quote neither; the others follow their lifecycles. *)

Definition keeps (fields : list str) (old new : Map) : Prop := ∀ f, f ∈ fields → jget f new = jget f old.

Record hold_next (old new : Map) : Prop := {
  hn_keeps : keeps [lit "payerUserId"; lit "maxAmount"; lit "quoteId"; lit "pricingVersion";
                    lit "settlementAuthority"; lit "meterProgramId"; lit "projectId";
                    lit "beneficiaries"; lit "expiresAt"; lit "withdrawableAmount"] old new;
  hn_status :
    (has_status old (lit "open") = true ∧ has_status new (lit "running") = true)
    ∨ (has_status old (lit "running") = true ∧ has_status new (lit "settled") = true)
    ∨ ((has_status old (lit "open") = true ∨ has_status old (lit "running") = true) ∧
       (has_status new (lit "released") = true ∨ has_status new (lit "expired") = true));
}.

(** A pool may be topped up, which raises its ceiling; nothing lowers it, or takes back what was spent
    or refunded. *)
Record pool_next (old new : Map) : Prop := {
  pn_keeps : keeps [lit "payerUserId"; lit "settlementAuthority"; lit "meterProgramId"] old new;
  pn_status : has_status old (lit "open") = true ∧
              (has_status new (lit "open") = true ∨ has_status new (lit "closed") = true);
  pn_spent : amount_or_zero old (lit "spent") ≤ amount_or_zero new (lit "spent");
  pn_refunded : amount_or_zero old (lit "refunded") ≤ amount_or_zero new (lit "refunded");
  pn_ceiling : amount_or_zero old (lit "maxAmount") ≤ amount_or_zero new (lit "maxAmount");
}.

Record reservation_next (old new : Map) : Prop := {
  rn_keeps : keeps [lit "poolId"; lit "payerUserId"; lit "quoteId"; lit "amount"] old new;
  rn_status : has_status old (lit "reserved") = true ∧
              (has_status new (lit "settled") = true ∨ has_status new (lit "released") = true);
}.

Record payout_next (old new : Map) : Prop := {
  yn_keeps : keeps [lit "userId"; lit "amount"; lit "destinationRef"; lit "requestId"] old new;
  yn_status : has_status old (lit "pending") = true ∧
              (has_status new (lit "paid") = true ∨ has_status new (lit "rejected") = true);
}.

Definition evolves (d : FinanceDoc) (old new : Map) : Prop :=
  new = old ∨
  match d with
  | DHold => hold_next old new
  | DPool => pool_next old new
  | DPoolReservation => reservation_next old new
  | DPayout => payout_next old new
  | DJournal => False
  | DBillingCatalog | DBillingQuote => old = []
  | _ => True
  end.

Definition docs_evolve (w w' : World) : Prop :=
  ∀ d id old, doc_at w d id = Some old → ∃ new, doc_at w' d id = Some new ∧ evolves d old new.

Lemma evolve_refl w : docs_evolve w w.
Proof. intros d id old Hd. exists old. split; [done|by left]. Qed.
Lemma evolve_docs w w1 w2 :
  (∀ d id, doc_at w2 d id = doc_at w1 d id) → docs_evolve w w1 → docs_evolve w w2.
Proof. intros He Hw d id old Hd. rewrite He. by apply Hw. Qed.
Lemma evolve_put_row w w1 d id m :
  (∀ old, doc_at w d id = Some old → evolves d old m) → docs_evolve w w1 →
  docs_evolve w (put_row w1 d id m).
Proof.
  intros Hm Hw d' id' old Hd. rewrite doc_at_put_row. case_bool_decide as Hp; [|by apply Hw].
  destruct Hp as [-> ->]. eauto.
Qed.

(** ** Idempotency markers

    A marker that was set stays as it is: an action sets its marker only when it found none.  (The
    marker of a closing pool is written without being read; the pool's status is what decides.) *)

Definition pool_close_key (k : str) : bool := is_some (strip_prefix (lit "FinancePoolClose::") k).
Definition markers_kept (w w' : World) : Prop :=
  ∀ k v, w_markers w !! k = Some v → v ≠ [] → pool_close_key k = false → w_markers w' !! k = Some v.

Lemma kept_refl w : markers_kept w w.
Proof. by intros k v. Qed.
Lemma kept_trans w1 w2 w3 : markers_kept w1 w2 → markers_kept w2 w3 → markers_kept w1 w3.
Proof. intros H12 H23 k v Hk Hv Hc. by apply H23; [apply H12|..]. Qed.
Lemma kept_same w w1 w2 : w_markers w2 = w_markers w1 → markers_kept w w1 → markers_kept w w2.
Proof. unfold markers_kept. by intros ->. Qed.
Lemma kept_marker w w1 m v :
  is_empty (marker w m) = true → markers_kept w w1 → markers_kept w (put_marker m v w1).
Proof.
  intros Hm Hw k u Hk Hu Hc. cbn [put_marker w_markers set_markers].
  destruct (decide (marker_key m = k)) as [<-|Hne].
  - exfalso. unfold marker in Hm. rewrite Hk in Hm. by destruct u.
  - rewrite lookup_insert_ne by done. by apply Hw.
Qed.
Lemma kept_close w w1 id v : markers_kept w w1 → markers_kept w (put_marker (MPoolClose id) v w1).
Proof.
  intros Hw k u Hk Hu Hc. cbn [put_marker w_markers set_markers].
  rewrite lookup_insert_ne; [by apply Hw|]. intros <-. revert Hc. unfold pool_close_key, marker_key.
  by rewrite (proj2 (strip_prefix_Some _ _ id) eq_refl).
Qed.

Section kept.
Context (w w1 : World).
Lemma kept_participants x : markers_kept w w1 → markers_kept w (set_participants w1 x).
Proof. by apply kept_same. Qed.
Lemma kept_next x : markers_kept w w1 → markers_kept w (set_next w1 x).
Proof. by apply kept_same. Qed.
Lemma kept_row d id m : markers_kept w w1 → markers_kept w (put_row w1 d id m).
Proof. by apply kept_same. Qed.
Lemma kept_account u f : markers_kept w w1 → markers_kept w (put_account w1 u f).
Proof. by apply kept_same. Qed.
Lemma kept_balance u b : markers_kept w w1 → markers_kept w (put_balance w1 u b).
Proof. by apply kept_same. Qed.
Lemma kept_pool_of_user u p : markers_kept w w1 → markers_kept w (put_pool_of_user u p w1).
Proof. by apply kept_same. Qed.
Lemma kept_put_lock o i d mg : markers_kept w w1 → markers_kept w (put_lock w1 o i d mg).
Proof. by apply kept_same. Qed.
Lemma kept_delete_lock o i : markers_kept w w1 → markers_kept w (delete_lock w1 o i).
Proof. by apply kept_same. Qed.
Lemma kept_namespace k m : markers_kept w w1 → markers_kept w (put_namespace w1 k m).
Proof. by apply kept_same. Qed.
End kept.
Ltac kept_step :=
  lazymatch goal with
  | |- markers_kept ?w ?w => apply kept_refl
  | |- markers_kept _ (put_marker (MPoolClose _) _ _) => apply kept_close
  | |- markers_kept _ (put_marker _ _ _) => apply kept_marker; [first [assumption | by apply negb_false_iff]|]
  | |- markers_kept _ (set_participants _ _) => apply kept_participants
  | |- markers_kept _ (set_next _ _) => apply kept_next
  | |- markers_kept _ (put_row _ _ _ _) => apply kept_row
  | |- markers_kept _ (put_account _ _ _) => apply kept_account
  | |- markers_kept _ (put_balance _ _ _) => apply kept_balance
  | |- markers_kept _ (put_pool_of_user _ _ _) => apply kept_pool_of_user
  | |- markers_kept _ (put_lock _ _ _ _ _) => apply kept_put_lock
  | |- markers_kept _ (delete_lock _ _ _) => apply kept_delete_lock
  | |- markers_kept _ (put_namespace _ _ _) => apply kept_namespace
  | G : w_markers ?w2 = w_markers ?w1 |- markers_kept _ ?w2 => apply (kept_same _ w1 w2 G)
  end.
Ltac kept := repeat kept_step.

(** An action's effect on types, wealth, books, documents and markers: [δ] is the money it moved across the
    boundary of the system. *)
Definition sound_step `{Platform} (δ : Z) (w w' : World) : Prop :=
  typed w' ∧ (books w → wealth w' = wealth w + δ) ∧ (books w → books w') ∧ (books w → docs_evolve w w')
  ∧ markers_kept w w'.

(** Which of the rows written along [H] the document at a key is. *)
Ltac doc_cases H :=
  autorewrite with fin in H;
  repeat (rewrite doc_at_put_row in H;
          match type of H with
          | (if bool_decide ?P then _ else _) = _ =>
              let Hp := fresh "P" in
              destruct (decide P) as [Hp|Hp];
              [rewrite (bool_decide_eq_true_2 P Hp) in H; destruct Hp; simplify_eq
              |rewrite (bool_decide_eq_false_2 P Hp) in H; autorewrite with fin in H]
          end).

Lemma fresh_none `{PlatformLaws} h p r w d n :
  books_off h p r w → generated d → (w_next w ≤ n)%nat → doc_at w d (id_at n) = None.
Proof.
  intros Hb Hg Hn. destruct (doc_at w d (id_at n)) as [m|] eqn:E; [|done].
  destruct (bk_fresh _ _ _ _ Hb d (id_at n)) as (k & Hk & He%id_at_inj); [done|by rewrite E|]. lia.
Qed.

(** Writes that touch no document of the books and neither of their counters. *)
Lemma books_counter `{Platform} h p r w u k n :
  k ≠ Held → k ≠ PayoutHeld → books_off h p r w → books_off h p r (put_account w u (λ a, set_account_value a k n)).
Proof.
  intros Hh Hp [H1 H2 H3 H4 H5 H6 H7 H8]. split; try done.
  - intros u'. autorewrite with fin. rewrite ?stored_counter_put_kind by congruence. apply H5.
  - intros u'. autorewrite with fin. rewrite ?stored_counter_put_kind by congruence. apply H6.
Qed.
Lemma books_balance `{Platform} h p r w id b : is_Some (bal w id) → books_off h p r w → books_off h p r (put_balance w id b).
Proof.
  intros [c Hc] [H1 H2 H3 H4 H5 H6 H7 H8]. split; try done.
  rewrite bal_put_balance_ne; [done|]. intros <-. congruence.
Qed.
Lemma books_marker `{Platform} h p r m v w : books_off h p r w → books_off h p r (put_marker m v w).
Proof. intros [H1 H2 H3 H4 H5 H6 H7 H8]. by split. Qed.
Lemma books_participants `{Platform} h p r w x : books_off h p r w → books_off h p r (set_participants w x).
Proof. intros [H1 H2 H3 H4 H5 H6 H7 H8]. by split. Qed.
Lemma books_next `{Platform} h p r w n : (w_next w ≤ n)%nat → books_off h p r w → books_off h p r (set_next w n).
Proof.
  intros Hn [H1 H2 H3 H4 H5 H6 H7 H8]. split; try done.
  - intros d id Hg Hd. destruct (H3 d id Hg Hd) as (k & Hk & ->). exists k. split; [cbn; lia|done].
  - intros key l Hl. eapply lock_known_next; [|by apply H8]. done.
Qed.
Lemma books_locks `{Platform} h p r w x :
  (∀ key l, x !! key = Some l → lock_known w key l) →
  books_off h p r w → books_off h p r (set_locks w x).
Proof. intros Hx [H1 H2 H3 H4 H5 H6 H7 H8]. by split. Qed.
Lemma books_pool_of_user `{Platform} h p r w u q : books_off h p r w → books_off h p r (put_pool_of_user u q w).
Proof.
  intros [H1 H2 H3 H4 H5 H6 H7 H8]. split; try done; intros u'; rewrite stored_counter_pool; auto.
Qed.
Lemma books_namespace `{Platform} h p r w k m : books_off h p r w → books_off h p r (put_namespace w k m).
Proof. intros [H1 H2 H3 H4 H5 H6 H7 H8]. by split. Qed.

(** A row outside the books: any family but holds, pools, reservations and payouts, and a journal
    entry under a generated identifier. *)
Definition outside (d : FinanceDoc) : bool :=
  match d with DHold | DPool | DPoolReservation | DPayout | DJournal => false | _ => true end.
Lemma books_row_outside `{Platform} h p r w d id m : outside d = true → books_off h p r w → books_off h p r (put_row w d id m).
Proof.
  intros Ho [H1 H2 H3 H4 H5 H6 H7 H8]. split; try done.
  - intros d' id' m' Hd. doc_cases Hd; [by destruct d|eauto].
  - intros d' id' Hg [m' Hd]. doc_cases Hd.
    + subst. unfold generated in Hg. destruct d; try done; set_solver.
    + eapply H3; [done|]. by rewrite Hd.
  - intros run m' Hd. doc_cases Hd.
    destruct (H4 _ _ Hd) as (q & pool & Hp & Hpool & Hpay). exists q, pool. split_and!; try done.
    rewrite doc_at_put_row_family; [done|by intros <-].
  - intros u. autorewrite with fin. rewrite (H5 u).
    destruct (doc_at w d id), d; cbn; try lia; done.
  - intros u. autorewrite with fin. rewrite (H6 u).
    destruct (doc_at w d id), d; cbn; try lia; done.
  - intros q pool Hd. doc_cases Hd. autorewrite with fin. rewrite (H7 _ _ Hd).
    destruct (doc_at w d id), d; cbn; try lia; done.
Qed.
Lemma books_journal `{PlatformLaws} h p r w n m :
  (w_next w ≤ n)%nat → books_off h p r w →
  books_off h p r (put_row (set_next w (2 + n)%nat) DJournal (id_at n) m).
Proof.
  intros Hn Hw. pose proof (fresh_none _ _ _ w DJournal n Hw ltac:(unfold generated; set_solver) Hn) as Hf.
  destruct Hw as [H1 H2 H3 H4 H5 H6 H7 H8]. split; try done.
  - intros d' id' m' Hd. doc_cases Hd; [done|eauto].
  - intros d' id' Hg [m' Hd]. doc_cases Hd; [subst; exists n; split; [cbn; lia|done]|].
    destruct (H3 d' id' Hg) as (k & Hk & ->); [by rewrite Hd|]. exists k. split; [cbn; lia|done].
  - intros run m' Hd. doc_cases Hd.
    destruct (H4 _ _ Hd) as (q & pool & Hp & Hpool & Hpay). exists q, pool. by autorewrite with fin.
  - intros u. autorewrite with fin. rewrite (H5 u), Hf. cbn. lia.
  - intros u. autorewrite with fin. rewrite (H6 u), Hf. cbn. lia.
  - intros q pool Hd. doc_cases Hd. autorewrite with fin. rewrite (H7 _ _ Hd), Hf. cbn. lia.
  - intros key l Hl. eapply lock_known_next; [|by apply H8]. cbn. lia.
Qed.

(** The writes that move the books, and by how much each leaves them off. *)
Lemma books_ext `{Platform} h p r h' p' r' w :
  (∀ u, h u = h' u) → (∀ u, p u = p' u) → (∀ u, r u = r' u) →
  books_off h p r w → books_off h' p' r' w.
Proof.
  intros Eh Ep Er [H1 H2 H3 H4 H5 H6 H7 H8]. split; try done; intros; rewrite <- ?Eh, <- ?Ep, <- ?Er;
    eauto.
Qed.

Lemma books_final `{Platform} h p r w :
  books_off h p r w → (∀ u, h u = 0) → (∀ u, p u = 0) → (∀ u, r u = 0) → books w.
Proof. intros Hw Hh Hp Hr. eapply books_ext; [..|exact Hw]; done. Qed.

Definition at_ (u : str) (z : Z) : str → Z := λ x, if bool_decide (x = u) then z else 0.
Definition plus (f g : str → Z) : str → Z := λ x, f x + g x.

Lemma books_held `{Platform} h p r w u n :
  books_off h p r w →
  books_off (plus h (at_ u (n - stored_counter w Held u))) p r
    (put_account w u (λ a, set_account_value a Held n)).
Proof.
  intros [H1 H2 H3 H4 H5 H6 H7 H8]. split; try done; intros u'; autorewrite with fin; [|apply H6].
  rewrite stored_counter_put. unfold plus, at_. rewrite (H5 u').
  destruct (decide (u' = u)) as [->|].
  - rewrite !bool_decide_eq_true_2 by done. rewrite (H5 u). lia.
  - rewrite !bool_decide_eq_false_2 by naive_solver. lia.
Qed.

Lemma books_payout_held `{Platform} h p r w u n :
  books_off h p r w →
  books_off h (plus p (at_ u (n - stored_counter w PayoutHeld u))) r
    (put_account w u (λ a, set_account_value a PayoutHeld n)).
Proof.
  intros [H1 H2 H3 H4 H5 H6 H7 H8]. split; try done; intros u'; autorewrite with fin; [apply H5|].
  rewrite stored_counter_put. unfold plus, at_. rewrite (H6 u').
  destruct (decide (u' = u)) as [->|].
  - rewrite !bool_decide_eq_true_2 by done. rewrite (H6 u). lia.
  - rewrite !bool_decide_eq_false_2 by naive_solver. lia.
Qed.

(** A document is new under a generated identifier, or replaces one. *)
Definition known_id `{Platform} (w : World) (d : FinanceDoc) (id : str) : Prop :=
  is_Some (doc_at w d id) ∨ ∃ n, (n < w_next w)%nat ∧ id = id_at n.

Lemma known_id_bound `{Platform} h p r w d id :
  books_off h p r w → generated d → known_id w d id → ∃ n, (n < w_next w)%nat ∧ id = id_at n.
Proof. intros Hw Hg [Hs|Hn]; [by eapply bk_fresh|done]. Qed.

(** What a new document of a family adds to a sum, beside the one it replaces. *)
Definition diff (f : str → FinanceDoc → Map → Z) (w : World) (d : FinanceDoc) (id : str) (m : Map)
    : str → Z := λ u, opt_term (f u d) (doc_at w d id) - f u d m.

Lemma books_hold `{Platform} h p r w id m :
  hold_ok m → known_id w DHold id → books_off h p r w →
  books_off (plus h (diff held_term w DHold id m)) p r (put_row w DHold id m).
Proof.
  intros Hm Hk Hw. pose proof (known_id_bound _ _ _ _ DHold _ Hw ltac:(unfold generated; set_solver) Hk)
    as Hid.
  destruct Hw as [H1 H2 H3 H4 H5 H6 H7 H8]. split; try done.
  - intros d' id' m' Hd. doc_cases Hd; [done|eauto].
  - intros d' id' Hg [m' Hd]. doc_cases Hd; [by subst|]. apply (H3 d' id' Hg). by rewrite Hd.
  - intros run m' Hd. doc_cases Hd.
    destruct (H4 _ _ Hd) as (q & pool & Hp & Hpool & Hpay). exists q, pool. by autorewrite with fin.
  - intros u. autorewrite with fin. rewrite (H5 u). unfold plus, diff. lia.
  - intros u. autorewrite with fin. rewrite (H6 u). destruct (doc_at w DHold id); cbn; lia.
  - intros q pool Hd. doc_cases Hd. autorewrite with fin. rewrite (H7 _ _ Hd).
    destruct (doc_at w DHold id); cbn; lia.
Qed.

Lemma books_payout `{Platform} h p r w id m :
  payout_ok m → known_id w DPayout id → books_off h p r w →
  books_off h (plus p (diff payout_term w DPayout id m)) r (put_row w DPayout id m).
Proof.
  intros Hm Hk Hw.
  pose proof (known_id_bound _ _ _ _ DPayout _ Hw ltac:(unfold generated; set_solver) Hk) as Hid.
  destruct Hw as [H1 H2 H3 H4 H5 H6 H7 H8]. split; try done.
  - intros d' id' m' Hd. doc_cases Hd; [done|eauto].
  - intros d' id' Hg [m' Hd]. doc_cases Hd; [by subst|]. apply (H3 d' id' Hg). by rewrite Hd.
  - intros run m' Hd. doc_cases Hd.
    destruct (H4 _ _ Hd) as (q & pool & Hp & Hpool & Hpay). exists q, pool. by autorewrite with fin.
  - intros u. autorewrite with fin. rewrite (H5 u). destruct (doc_at w DPayout id); cbn; lia.
  - intros u. autorewrite with fin. rewrite (H6 u). unfold plus, diff. lia.
  - intros q pool Hd. doc_cases Hd. autorewrite with fin. rewrite (H7 _ _ Hd).
    destruct (doc_at w DPayout id); cbn; lia.
Qed.

(** No reservation names a pool that does not exist. *)
Lemma no_pool_no_reservations `{Platform} h p r w id :
  books_off h p r w → doc_at w DPool id = None → doc_sum (reserved_term id) w = 0.
Proof.
  intros Hw Hn. unfold doc_sum. apply msum_zero. intros [d run] row Hrow. cbn.
  destruct d; try done. unfold reserved_term.
  destruct (bk_refs _ _ _ _ Hw run (row_document row)) as (q & pool & Hq & Hpool & _);
    [by unfold doc_at; rewrite Hrow|].
  rewrite Hq. rewrite (bool_decide_eq_false_2 (Some q = Some id)); [done|]. congruence.
Qed.

Lemma books_pool `{Platform} h p r w id m :
  pool_ok m → known_id w DPool id →
  (∀ old, doc_at w DPool id = Some old →
          field_str m (lit "payerUserId") = field_str old (lit "payerUserId")) →
  books_off h p r w →
  books_off (plus h (diff held_term w DPool id m)) p
    (plus r (at_ id (amount_or_zero m (lit "reserved")
                     - opt_term (λ m, amount_or_zero m (lit "reserved")) (doc_at w DPool id)
                     - (if doc_at w DPool id then 0 else r id))))
    (put_row w DPool id m).
Proof.
  intros Hm Hk Hsame Hw.
  pose proof (known_id_bound _ _ _ _ DPool _ Hw ltac:(unfold generated; set_solver) Hk) as Hid.
  pose proof (no_pool_no_reservations _ _ _ _ id Hw) as Hno.
  destruct Hw as [H1 H2 H3 H4 H5 H6 H7 H8]. split; try done.
  - intros d' id' m' Hd. doc_cases Hd; [done|eauto].
  - intros d' id' Hg [m' Hd]. doc_cases Hd; [by subst|]. apply (H3 d' id' Hg). by rewrite Hd.
  - intros run m' Hd. doc_cases Hd.
    destruct (H4 _ _ Hd) as (q & pool & Hp & Hpool & Hpay). exists q. rewrite doc_at_put_row.
    case_bool_decide as Hq; [|eauto]. destruct Hq as [_ ->]. exists m. split_and!; [done|done|].
    by rewrite (Hsame _ Hpool).
  - intros u. autorewrite with fin. rewrite (H5 u). unfold plus, diff. lia.
  - intros u. autorewrite with fin. rewrite (H6 u). destruct (doc_at w DPool id); cbn; lia.
  - intros q pool Hd. autorewrite with fin.
    replace (opt_term _ _) with 0 by (by destruct (doc_at w DPool id)).
    cbn [reserved_term]. unfold plus, at_. rewrite doc_at_put_row in Hd.
    destruct (decide (q = id)) as [->|Hq].
    + rewrite bool_decide_eq_true_2 in Hd by done. simplify_eq.
      rewrite bool_decide_eq_true_2 by done.
      destruct (doc_at w DPool id) as [old|] eqn:E; cbn.
      * rewrite (H7 _ _ E). lia.
      * rewrite Hno by done. lia.
    + rewrite bool_decide_eq_false_2 in Hd by naive_solver.
      rewrite bool_decide_eq_false_2 by done. rewrite (H7 _ _ Hd). lia.
Qed.

Lemma books_reservation `{Platform} h p r w run m q pool :
  reservation_ok m → field_str m (lit "poolId") = Some q → doc_at w DPool q = Some pool →
  field_str m (lit "payerUserId") = field_str pool (lit "payerUserId") → books_off h p r w →
  books_off h p (plus r (diff reserved_term w DPoolReservation run m))
    (put_row w DPoolReservation run m).
Proof.
  intros Hm Hq Hpool Hpay [H1 H2 H3 H4 H5 H6 H7 H8]. split; try done.
  - intros d' id' m' Hd. doc_cases Hd; [done|eauto].
  - intros d' id' Hg [m' Hd]. doc_cases Hd; [subst; unfold generated in Hg; set_solver|].
    apply (H3 d' id' Hg). by rewrite Hd.
  - intros run' m' Hd. doc_cases Hd.
    + exists q, pool. by autorewrite with fin.
    + destruct (H4 _ _ Hd) as (q' & pool' & Hp & Hpool' & Hpay'). exists q', pool'.
      by autorewrite with fin.
  - intros u. autorewrite with fin. rewrite (H5 u). destruct (doc_at w DPoolReservation run); cbn; lia.
  - intros u. autorewrite with fin. rewrite (H6 u). destruct (doc_at w DPoolReservation run); cbn; lia.
  - intros q' pool' Hd. doc_cases Hd. autorewrite with fin. rewrite (H7 _ _ Hd). unfold plus, diff. lia.
Qed.

(** Walk the writes of an action, leaving how far off each put the books. *)
Ltac walk_step :=
  lazymatch goal with
  | |- books_off _ _ _ (set_participants _ _) => apply books_participants
  | |- books_off _ _ _ (put_row (set_next _ _) DJournal _ _) => apply books_journal; [cbn; lia|]
  | |- books_off _ _ _ (put_marker _ _ _) => apply books_marker
  | |- books_off _ _ _ (put_pool_of_user _ _ _) => apply books_pool_of_user
  | |- books_off _ _ _ (put_namespace _ _ _) => apply books_namespace
  | |- books_off _ _ _ (set_next _ _) => apply books_next; [cbn; lia|]
  | |- books_off _ _ _ (put_row _ DProjectBudget _ _) => apply books_row_outside; [done|]
  | |- books_off _ _ _ (put_row _ DLiveDebit _ _) => apply books_row_outside; [done|]
  | |- books_off _ _ _ (put_row _ DBillingCatalog _ _) => apply books_row_outside; [done|]
  | |- books_off _ _ _ (put_row _ DBillingQuote _ _) => apply books_row_outside; [done|]
  | |- books_off _ _ _ (put_account _ _ (λ a, set_account_value a Held _)) => eapply books_held
  | |- books_off _ _ _ (put_account _ _ (λ a, set_account_value a PayoutHeld _)) =>
      eapply books_payout_held
  | |- books_off _ _ _ (put_account _ _ (λ a, set_account_value a _ _)) =>
      apply books_counter; [done|done|]
  | |- books_off _ _ _ (put_balance _ _ _) =>
      apply books_balance; [autorewrite with fin; solve [eauto]|]
  end.
Ltac walk_books := try unfold books; repeat walk_step.

Ltac typing :=
  repeat lazymatch goal with
  | |- typed (put_account _ _ (λ a, set_account_value a _ _)) => apply typed_put_counter
  | |- typed (put_balance _ _ _) => apply typed_put_balance
  | |- typed (put_row _ _ _ _) => apply typed_put_row
  | |- typed (put_marker _ _ _) => apply typed_put_marker
  | |- typed (set_next _ _) => apply typed_set_next
  | |- typed (set_participants _ _) => apply typed_set_participants
  | |- typed (put_pool_of_user _ _ _) => apply typed_pool
  | |- typed (put_lock _ _ _ _ _) => apply typed_put_lock
  | |- typed (delete_lock _ _ _) => apply typed_delete_lock
  | |- typed (put_namespace _ _ _) => apply typed_put_namespace
  end; try done; try ilia.

(** The differences of the offsets, pointwise. *)
Ltac offsets :=
  intros; unfold plus, none, at_, diff; autorewrite with fin; cbn [opt_term].

Lemma sound_refl `{Platform} w : typed w → sound_step 0 w w.
Proof. intros Hw. split_and!; [done|lia|done|intros _; apply evolve_refl|apply kept_refl]. Qed.

Lemma nonempty_id `{Platform} h p r w id b : books_off h p r w → bal w id = Some b → id ≠ [].
Proof. intros Hw Hb ->. pose proof (bk_ids _ _ _ _ Hw). congruence. Qed.

(** A document the action read or wrote is known, and so is one under a fresh identifier. *)
Ltac known :=
  first
    [ left; autorewrite with fin; first [by eexists | by eapply mk_is_Some]
    | right; eexists; autorewrite with fin; split; [|reflexivity]; cbn; lia ].

(** A world without finance records has balanced books. *)
Lemma books_empty `{Platform} w :
  w_rows w = ∅ → w_locks w = ∅ → w_accounts w = ∅ → bal w [] = None → books w.
Proof.
  intros Hr Hl Ha Hb. assert (∀ d id, doc_at w d id = None) as Hd by (intros; unfold doc_at; by rewrite Hr).
  assert (∀ f, doc_sum f w = 0) as Hs by (intros; unfold doc_sum; by rewrite Hr, msum_empty).
  assert (∀ k u, stored_counter w k u = 0) as Hc by (intros; unfold stored_counter; by rewrite Ha).
  split.
  - done.
  - intros *. by rewrite Hd.
  - intros d id _ [m Hm]. congruence.
  - intros *. by rewrite Hd.
  - intros u. by rewrite Hs, Hc.
  - intros u. by rewrite Hs, Hc.
  - intros *. by rewrite Hd.
  - intros key l. by rewrite Hl.
Qed.

(** Walk the writes of an action back to the world it started from, leaving what each row it wrote
    replaces.  A journal entry replaces nothing. *)
Lemma evolve_journal `{PlatformLaws} w w1 n m :
  books w → (w_next w ≤ n)%nat → docs_evolve w w1 → docs_evolve w (put_row w1 DJournal (id_at n) m).
Proof.
  intros Hb Hn Hw. apply evolve_put_row; [|done]. intros old.
  by rewrite (fresh_none _ _ _ w DJournal n Hb ltac:(unfold generated; set_solver) Hn).
Qed.
Section evolve.
Context (w w1 : World).
Lemma evolve_participants x : docs_evolve w w1 → docs_evolve w (set_participants w1 x).
Proof. by apply evolve_docs. Qed.
Lemma evolve_next x : docs_evolve w w1 → docs_evolve w (set_next w1 x).
Proof. by apply evolve_docs. Qed.
Lemma evolve_marker m v : docs_evolve w w1 → docs_evolve w (put_marker m v w1).
Proof. by apply evolve_docs. Qed.
Lemma evolve_account u f : docs_evolve w w1 → docs_evolve w (put_account w1 u f).
Proof. by apply evolve_docs. Qed.
Lemma evolve_balance u b : docs_evolve w w1 → docs_evolve w (put_balance w1 u b).
Proof. by apply evolve_docs. Qed.
Lemma evolve_pool_of_user u p : docs_evolve w w1 → docs_evolve w (put_pool_of_user u p w1).
Proof. by apply evolve_docs. Qed.
Lemma evolve_put_lock o i d mg : docs_evolve w w1 → docs_evolve w (put_lock w1 o i d mg).
Proof. by apply evolve_docs. Qed.
Lemma evolve_delete_lock o i : docs_evolve w w1 → docs_evolve w (delete_lock w1 o i).
Proof. by apply evolve_docs. Qed.
Lemma evolve_namespace k m : docs_evolve w w1 → docs_evolve w (put_namespace w1 k m).
Proof. by apply evolve_docs. Qed.
End evolve.
Ltac evolve_step Hb :=
  lazymatch goal with
  | |- docs_evolve ?w ?w => apply evolve_refl
  | |- docs_evolve _ (put_row ?w1 DJournal _ _) => apply (evolve_journal _ _ _ _ Hb); [cbn; lia|]
  | |- docs_evolve _ (put_row _ _ _ _) => apply evolve_put_row
  | |- docs_evolve _ (set_participants _ _) => apply evolve_participants
  | |- docs_evolve _ (set_next _ _) => apply evolve_next
  | |- docs_evolve _ (put_marker _ _ _) => apply evolve_marker
  | |- docs_evolve _ (put_account _ _ _) => apply evolve_account
  | |- docs_evolve _ (put_balance _ _ _) => apply evolve_balance
  | |- docs_evolve _ (put_pool_of_user _ _ _) => apply evolve_pool_of_user
  | |- docs_evolve _ (put_lock _ _ _ _ _) => apply evolve_put_lock
  | |- docs_evolve _ (delete_lock _ _ _) => apply evolve_delete_lock
  | |- docs_evolve _ (put_namespace _ _ _) => apply evolve_namespace
  end.
(** A row under a generated identifier replaces nothing either. *)
Ltac replaces_nothing Hb :=
  let old := fresh "old" in
  intros old;
  lazymatch goal with
  | |- doc_at ?w ?d (id_at ?n) = Some _ → _ =>
      rewrite (fresh_none _ _ _ w d n Hb); [done|unfold generated; set_solver|cbn; lia]
  end.
Ltac evolve :=
  let Hb := fresh "Hb" in intros Hb; repeat evolve_step Hb;
  try replaces_nothing Hb; try (intros ? _; by right).

(** The status of a document, read off an edit or known. *)
Ltac status_is := first [reflexivity | by apply bool_decide_eq_true_2].

(** The fields of an edited document that were not edited. *)
Ltac keeping :=
  let f := fresh "f" in let Hf := fresh "Hf" in
  intros f Hf; repeat (apply elem_of_cons in Hf as [->|Hf]; [by jfields|]); by apply not_elem_of_nil in Hf.
