(* ===== verification/FinanceSteps.v ===== *)
(** What each finance action does to the books: one lemma per action, from the code of the action
    to [sound_step], the typing, the wealth and the books of the world it leaves. *)

From S2P Require Import Prelude Text Core Ports BTree Json FinanceLedger FinanceHelpers.
From S2P Require Import FinanceHolds FinancePools FinanceWallets FinanceMarket FinanceBooks.

Open Scope Z_scope.
Open Scope tx_scope.

(** The documents an action read. *)
Lemma get_doc_at w d id path m : in_rows d = true → get_doc w d id path = Ok m → doc_at w d id = Some m.
Proof. apply get_doc_row_Ok. Qed.
Ltac read_docs :=
  repeat match goal with
  | G : get_doc _ _ _ _ = Ok _ |- _ =>
      let Hd := fresh "Hdoc" in apply get_doc_at in G as Hd; [|done]; clear G
  end.

(** Two literals that differ. *)
Ltac clash :=
  match goal with
  | H : ?a = ?b |- _ => exfalso; revert H; vm_compute; discriminate
  end.

(** A hold that is active has its whole amount left. *)
Lemma hold_active m :
  hold_ok m → field_str m (lit "status") ∈ [Some (lit "open"); Some (lit "running")] →
  amount_field m (lit "remainingAmount") = amount_field m (lit "maxAmount").
Proof.
  intros [_ _ [[_ ?]|[[Hs _]|[Hs _]]]]; [done| |]; intros Ha; exfalso.
  - rewrite Hs in Ha. apply list_elem_of_In in Ha as [Ha|[Ha|[]]]; clash.
  - apply list_elem_of_In in Hs as [Hs|[Hs|[]]], Ha as [Ha|[Ha|[]]]; rewrite <- Hs in Ha; clash.
Qed.

Section books.
Context `{PlatformLaws}.

(** A project budget operation writes at most the budget's own row. *)
Lemma reserve_project_budget_Ok project amount now w u w' :
  reserve_project_budget project amount now w = Ok (u, w') →
  w' = w ∨ ∃ m, w' = put_row w DProjectBudget project m.
Proof. unfold reserve_project_budget. intros Hr. tx_inv Hr; eauto. Qed.

Lemma finalize_project_budget_Ok project r s now w u w' :
  finalize_project_budget project r s now w = Ok (u, w') →
  w' = w ∨ ∃ m, w' = put_row w DProjectBudget project m.
Proof. unfold finalize_project_budget. intros Hr. tx_inv Hr; eauto. Qed.

(** What an operation on documents outside the books leaves alone: every document of a family that
    is not [loose]. *)
Record quiet (loose : FinanceDoc → bool) (w w' : World) : Prop := {
  qu_typed : typed w → typed w';
  qu_wealth : wealth w' = wealth w;
  qu_counter k u : stored_counter w' k u = stored_counter w k u;
  qu_bal id : bal w' id = bal w id;
  qu_next : w_next w' = w_next w;
  qu_markers : w_markers w' = w_markers w;
  qu_doc d id : loose d = false → doc_at w' d id = doc_at w d id;
  qu_some d id : is_Some (doc_at w d id) → is_Some (doc_at w' d id);
  qu_books h p r : books_off h p r w → books_off h p r w';
}.
Lemma quiet_refl loose w : quiet loose w w.
Proof. by split. Qed.
Lemma quiet_outside loose w d id m :
  outside d = true → loose d = true → quiet loose w (put_row w d id m).
Proof.
  intros Ho Hl. split; try done; [by apply typed_put_row| | |].
  - intros d' id' Hd. apply doc_at_put_row_family. congruence.
  - intros d' id' Hd. rewrite doc_at_put_row. by case_bool_decide.
  - intros h p r. by apply books_row_outside.
Qed.

(** Budgets and live debits may change freely. *)
Definition totals_doc (d : FinanceDoc) : bool :=
  match d with DProjectBudget | DLiveDebit => true | _ => false end.
Lemma reserve_quiet project amount now w u w' :
  reserve_project_budget project amount now w = Ok (u, w') → quiet totals_doc w w'.
Proof. intros [->|[m ->]]%reserve_project_budget_Ok; [apply quiet_refl|by apply quiet_outside]. Qed.
Lemma finalize_quiet project r s now w u w' :
  finalize_project_budget project r s now w = Ok (u, w') → quiet totals_doc w w'.
Proof. intros [->|[m ->]]%finalize_project_budget_Ok; [apply quiet_refl|by apply quiet_outside]. Qed.
Lemma evolve_quiet w w1 w2 : quiet totals_doc w1 w2 → docs_evolve w w1 → docs_evolve w w2.
Proof.
  intros Hq Hw d id old Hd. destruct (Hw _ _ _ Hd) as (new & Hn & He).
  destruct (totals_doc d) eqn:Ed.
  - destruct (qu_some _ _ _ Hq d id) as [new' Hn']; [eauto|]. exists new'. split; [done|].
    right. by destruct d.
  - exists new. by rewrite (qu_doc _ _ _ Hq).
Qed.

Lemma plan_Ok payer p l w p' w' :
  each (plan_beneficiary payer) p l w = Ok (p', w') → w' = w.
Proof.
  intros H1. refine (each_Ok (λ _ w0, w0 = w) _ _ _ _ _ _ _ eq_refl H1).
  intros q x w0 r w1 _ -> H2. unfold plan_beneficiary in H2. tx_inv H2. done.
Qed.

(** ** Totals of the lines *)

(** The totals that a line loop has collected: their sum is the amount, and each is positive. *)
Definition totals_of (credits : gmap str i64) (amount : i64) : Prop :=
  msum (λ _ a, a) credits = amount ∧ map_Forall (λ _ a, 0 < a ≤ i64_max) credits.

Lemma totals_of_add credits amount key a next :
  0 < a → totals_of credits amount → entry_add credits key a = Some next →
  totals_of (<[key := next]> credits) (amount + a).
Proof.
  intros Ha [Hsum Hall]. unfold entry_add. intros [-> Hr]%checked_Some. split.
  - rewrite msum_insert. unfold mterm. destruct (credits !! key); cbn; lia.
  - apply map_Forall_insert_2; [|done]. destruct (credits !! key) as [c|] eqn:E; cbn in *; [|lia].
    apply Hall in E. cbn in E. lia.
Qed.

Lemma totals_of_hash credits amount :
  totals_of credits amount →
  sum_Z (snd <$> hash_iter credits) = amount ∧
  Forall (λ ua, 0 < ua.2 ≤ i64_max) (hash_iter credits).
Proof.
  intros [Hsum Hall]. split.
  - rewrite msum_list in Hsum. rewrite <- Hsum. apply sum_Z_perm.
    by rewrite (hash_iter_perm credits).
  - apply Forall_forall. intros [u a] Hin.
    rewrite (hash_iter_perm credits), elem_of_map_to_list in Hin. by apply Hall in Hin.
Qed.

Lemma settlement_lines_Ok rules caps lines w t w' :
  each (settlement_line rules caps) no_lines lines w = Ok (t, w') →
  w' = w ∧ totals_of (lt_credits t) (lt_actual t) ∧ 0 ≤ lt_actual t.
Proof.
  intros H1.
  refine (each_Ok (λ t w0, w0 = w ∧ totals_of (lt_credits t) (lt_actual t) ∧ 0 ≤ lt_actual t)
            _ _ _ _ _ _ _ _ H1); [|split_and!; [done|by split|done]].
  intros acc x w0 r w1 _ (-> & Ht & Hpos) H2. unfold settlement_line, line_invalid in H2. tx_inv H2.
  all: assert (0 < sl_amount x) by (unbool; lia); unchecked.
  all: cbn; split_and!; [done|by eapply totals_of_add|lia].
Qed.

Lemma debit_lines_Ok payer auth lines w t w' :
  each (debit_line payer auth) {| dt_delta := 0; dt_credits := ∅; dt_user_credits := ∅ |} lines w
    = Ok (t, w') →
  w' = w ∧ totals_of (dt_user_credits t) (dt_delta t) ∧ totals_of (dt_credits t) (dt_delta t).
Proof.
  intros H1.
  refine (each_Ok (λ t w0, w0 = w ∧ totals_of (dt_user_credits t) (dt_delta t) ∧
                           totals_of (dt_credits t) (dt_delta t)) _ _ _ _ _ _ _ _ H1);
    [|split_and!; by split].
  intros acc x w0 r w1 _ (-> & Ht & Hc) H2. unfold debit_line, line_invalid in H2. tx_inv H2.
  assert (0 < sl_amount x) by (unbool; lia). unchecked. cbn.
  split_and!; [done|by eapply totals_of_add|by eapply totals_of_add].
Qed.

(** ** Crediting the beneficiaries *)

(** Nothing but the earnings, debt, withdrawable balance and available balance of wallets. *)
Record only_wallets (w w' : World) : Prop := {
  ow_rows : w_rows w' = w_rows w;
  ow_locks : w_locks w' = w_locks w;
  ow_markers : w_markers w' = w_markers w;
  ow_next : w_next w' = w_next w;
  ow_now : w_now w' = w_now w;
  ow_counters k u : k ∈ [Held; PayoutHeld; Spent] → stored_counter w' k u = stored_counter w k u;
  ow_ids id : bal w id = None → bal w' id = None;
}.

Lemma only_wallets_refl w : only_wallets w w.
Proof. by split. Qed.
Lemma only_wallets_trans w1 w2 w3 :
  only_wallets w1 w2 → only_wallets w2 w3 → only_wallets w1 w3.
Proof.
  intros [] []. split; try congruence; [|auto]. intros k u Hk. rewrite ow_counters1, ow_counters0; auto.
Qed.
Lemma books_only_wallets h p r w w' : only_wallets w w' → books_off h p r w → books_off h p r w'.
Proof.
  intros [Hrows Hlocks _ Hnext _ Hc Hid] [H1 H2 H3 H4 H5 H6 H7 H8].
  assert (∀ d id, doc_at w' d id = doc_at w d id) as Hd by (intros; unfold doc_at; by rewrite Hrows).
  assert (∀ f, doc_sum f w' = doc_sum f w) as Hs by (intros; unfold doc_sum; by rewrite Hrows).
  split; intros *; rewrite ?Hd, ?Hs, ?Hnext; eauto.
  - intros Hm. destruct (H4 _ _ Hm) as (q & pool & ? & ? & ?). exists q, pool. by rewrite Hd.
  - rewrite Hc by set_solver. auto.
  - rewrite Hc by set_solver. auto.
  - rewrite Hlocks. intros Hl. eapply lock_known_next; [|by apply H8]. lia.
Qed.

Lemma credit_beneficiary_Ok msg u a w r w' :
  typed w → credit_beneficiary msg u a w = Ok (r, w') →
  typed w' ∧ only_wallets w w' ∧ wealth w' = wealth w + a.
Proof.
  intros Hw. unfold credit_beneficiary. intros Hr. tx_inv Hr. unchecked. autorewrite with fin in *.
  pose proof (typed_counter _ Hw Debt u) as Hd.
  assert (wrap_i64 (stored_counter w Debt u - Z.min (stored_counter w Debt u) a)
          = stored_counter w Debt u - Z.min (stored_counter w Debt u) a) as Hwrap
    by (apply wrap_i64_id; ilia).
  split_and!.
  - eauto 10 with typed.
    repeat (apply typed_put_counter || apply typed_put_balance); try done; ilia.
  - split; try done.
    + intros k' u' Hk. destruct k'; autorewrite with fin; try done; set_solver.
    + intros id Hn. destruct (decide (id = u)) as [->|]; autorewrite with fin; congruence.
  - rewrite Hwrap. wealthy.
Qed.

(** A loop whose body credits one wallet credits the sum. *)
Lemma credits_Ok {B} (body : B → str * i64 → tx B) l acc w r w' :
  (∀ acc ua w r w', typed w → body acc ua w = Ok (r, w') →
     typed w' ∧ only_wallets w w' ∧ wealth w' = wealth w + ua.2) →
  typed w → each body acc l w = Ok (r, w') →
  typed w' ∧ only_wallets w w' ∧ wealth w' = wealth w + sum_Z (snd <$> l).
Proof.
  intros Hb. revert acc w. induction l as [|ua l IH]; intros acc w Hw H1; cbn [each] in H1.
  - apply ret_Ok in H1 as [-> ->]. split_and!; [done|apply only_wallets_refl|cbn; lia].
  - apply bind_Ok in H1 as (a & w1 & H1 & H2). apply Hb in H1 as (Hw1 & Ho1 & He1); [|done].
    apply IH in H2 as (Hw2 & Ho2 & He2); [|done].
    split_and!; [done|by eapply only_wallets_trans|].
    change (sum_Z (snd <$> ua :: l)) with (ua.2 + sum_Z (snd <$> l)). lia.
Qed.

Lemma credit_step_Ok msg c ua w r w' :
  typed w → credit_step msg c ua w = Ok (r, w') →
  typed w' ∧ only_wallets w w' ∧ wealth w' = wealth w + ua.2.
Proof.
  intros Hw H1. unfold credit_step in H1. apply bind_Ok in H1 as ([x y] & w1 & H1 & H2).
  apply ret_Ok in H2 as [-> ->]. by eapply credit_beneficiary_Ok.
Qed.

Lemma credit_participant_Ok msg c ua w r w' :
  typed w → credit_participant msg c ua w = Ok (r, w') →
  typed w' ∧ only_wallets w w' ∧ wealth w' = wealth w + ua.2.
Proof.
  intros Hw H1. unfold credit_participant in H1. apply bind_Ok in H1 as (x & w1 & H1 & H2).
  apply ret_Ok in H2 as [-> ->]. by eapply credit_beneficiary_Ok.
Qed.

Lemma debit_participant_Ok c ua w r w' :
  typed w → debit_participant c ua w = Ok (r, w') →
  typed w' ∧ only_wallets w w' ∧ wealth w' = wealth w + ua.2.
Proof.
  intros Hw. unfold debit_participant. destruct (is_empty ua.1); [by intros ?%denied_Ok|].
  by apply credit_participant_Ok.
Qed.

(** The payer's side of a settlement: what is held goes back as the refund. *)
Lemma refund_payer_Ok payer hold refund max_amount w r w' :
  typed w → refund_payer payer hold refund max_amount w = Ok (r, w') →
  typed w' ∧ wealth w' = wealth w + refund - max_amount ∧ is_Some (bal w payer) ∧
  w_markers w' = w_markers w ∧
  (∀ d id, doc_at w' d id = doc_at w d id) ∧ w_next w' = w_next w ∧
  (∀ h p r, books_off h p r w → books_off (plus h (at_ payer (- max_amount))) p r w').
Proof.
  intros Hw. unfold refund_payer. intros Hr. tx_inv Hr. unchecked. autorewrite with fin in *.
  split_and!; try done; [typing|wealthy|].
  - intros h p r Hb. eapply books_ext; [| | |walk_books; exact Hb]; try done.
    intros u. offsets. case_bool_decide; lia.
Qed.

(** ** The documents of a hold *)

Lemma held_new_hold u id payer project hash input wa now :
  in_i64 (ch_max_amount input) →
  held_term u DHold (new_hold id payer project hash input wa now) = at_ payer (ch_max_amount input) u.
Proof.
  intros Hm. unfold held_term, has_status, new_hold. jfields. unfold at_.
  destruct (decide (u = payer)) as [->|Hu].
  - by rewrite !bool_decide_eq_true_2 by done.
  - by rewrite !bool_decide_eq_false_2 by congruence.
Qed.

Lemma hold_ok_new_hold id payer project hash input wa now :
  payer ≠ [] → 0 < ch_max_amount input ≤ i64_max →
  hold_ok (new_hold id payer project hash input wa now).
Proof.
  intros Hp Hm. assert (in_i64 (ch_max_amount input)) by ilia.
  split; unfold new_hold; jfields.
  - eauto.
  - eauto.
  - left. split; [left|done].
Qed.

(** Whether a hold is active, and what it then contributes. *)
Lemma held_term_active u m payer :
  field_str m (lit "payerUserId") = Some payer →
  field_str m (lit "status") ∈ [Some (lit "open"); Some (lit "running")] →
  held_term u DHold m = at_ payer (default 0 (amount_field m (lit "maxAmount"))) u.
Proof.
  intros Hp Hs. unfold held_term, has_status, at_. rewrite Hp.
  replace (_ || _) with true; [rewrite andb_true_r|].
  - destruct (decide (u = payer)) as [->|]; [by rewrite !bool_decide_eq_true_2|].
    by rewrite !bool_decide_eq_false_2 by congruence.
  - apply list_elem_of_In in Hs as [<-|[<-|[]]]; by literal_keys.
Qed.
Lemma held_term_final u m :
  field_str m (lit "status") ∈ [Some (lit "settled"); Some (lit "released"); Some (lit "expired")] →
  held_term u DHold m = 0.
Proof.
  intros Hs. unfold held_term, has_status.
  replace (_ || _) with false; [by rewrite andb_false_r|].
  apply list_elem_of_In in Hs as [<-|[<-|[<-|[]]]]; by literal_keys.
Qed.

Lemma authorize_hold_step payer input project hash now w v w' :
  0 < ch_max_amount input → typed w →
  is_empty (marker w (MHoldRequest payer (ch_idempotency_key input))) = true →
  authorize_hold payer input project hash now w = Ok (v, w') → sound_step 0 w w'.
Proof.
  intros Hpos Hw Hmark. unfold authorize_hold. intros Hr. tx_inv Hr. apply plan_Ok in Hm as ->. unchecked.
  autorewrite with fin in *.
  assert (0 < ch_max_amount input ≤ i64_max) as Hmax by ilia.
  assert (in_i64 (ch_max_amount input)) by ilia.
  apply reserve_project_budget_Ok in Hm0 as [-> | [m' ->]]; split_and!;
    [typing|wealthy| |evolve|kept|typing|wealthy| |evolve|kept]; autorewrite with fin in *.
  all: intros Hb;
    assert (∀ id wa, hold_ok (new_hold id payer project hash input wa now)) as Hok
      by (intros; apply hold_ok_new_hold; [by eapply nonempty_id|done]);
    eapply books_final;
    [walk_books; eapply books_hold; [done|known|];
     walk_books; eapply books_hold; [done|known|]; walk_books; exact Hb|..]; offsets.
  all: rewrite ?(fresh_none _ _ _ w DHold (w_next w) Hb ltac:(by constructor) ltac:(lia));
    cbn [opt_term]; rewrite ?held_new_hold by done; unfold at_; try case_bool_decide; lia.
Qed.

Lemma create_hold_checks_Ok input now w u w' :
  create_hold_checks input now w = Ok (u, w') → w' = w ∧ 0 < ch_max_amount input.
Proof.
  unfold create_hold_checks. intros Hr. tx_inv Hr.
  all: match goal with G : (ch_max_amount _ <=? 0) = false |- _ => apply Z.leb_gt in G end; done.
Qed.
Lemma create_hold_quote_Ok payer input now w project w' :
  create_hold_quote payer input now w = Ok (project, w') → w' = w.
Proof. unfold create_hold_quote. intros Hr. tx_inv Hr; done. Qed.

Lemma create_hold_step payer input w v w' :
  typed w → create_hold payer input w = Ok (v, w') → sound_step 0 w w'.
Proof.
  intros Hw. unfold create_hold. intros Hr. tx_inv Hr;
    apply create_hold_checks_Ok in Hm as [-> Hpos]; apply create_hold_quote_Ok in Hm0 as ->.
  - by apply sound_refl.
  - eapply authorize_hold_step; try done. by apply negb_false_iff.
Qed.

(** Replace a hold, when the held counters are off by what the replacement changes. *)
Lemma books_replace_hold h w id m old :
  doc_at w DHold id = Some old → hold_ok m → books_off h none none w →
  (∀ u, h u + held_term u DHold old - held_term u DHold m = 0) →
  books (put_row w DHold id m).
Proof.
  intros Hd Hm Hb Hh.
  eapply books_ext; [| | |eapply books_hold; [done|left; by rewrite Hd|done]]; try done.
  intros u. offsets. rewrite Hd. cbn [opt_term]. unfold none. specialize (Hh u). lia.
Qed.

Lemma start_hold_step authority input w v w' :
  typed w → start_hold authority input w = Ok (v, w') → sound_step 0 w w'.
Proof.
  intros Hw. unfold start_hold. intros Hr. tx_inv Hr; [by apply sound_refl|].
  read_docs. unbool. split_and!; [typing|wealthy| |evolve|kept].
  2: intros old ?; simplify_eq; right; split;
       [keeping|left; unfold has_status; jfields; by rewrite G1, !bool_decide_eq_true_2].
  intros Hb. pose proof (bk_docs _ _ _ _ Hb _ _ _ Hdoc) as Hok. walk_books.
  eapply books_replace_hold; [exact Hdoc| |exact Hb|].
  - pose proof (hold_active _ Hok ltac:(rewrite G1; by left)) as Ha. destruct Hok as [Hp Hmax _].
    split; jfields; [done|done|]. left. split; [by right; left|done].
  - intros u. rewrite !(held_term_active _ _ (sh_payer_user_id input)).
    + jfields. unfold none. lia.
    + by jfields.
    + jfields. by right; left.
    + done.
    + rewrite G1. by left.
Qed.

(** The documents a settlement and a release leave. *)
Lemma hold_ok_settled hold input actual refund wr ws now :
  hold_ok hold → in_i64 actual → 0 ≤ actual → 0 ≤ refund ≤ i64_max →
  amount_field hold (lit "maxAmount") = Some (actual + refund) →
  hold_ok (settled_hold hold input actual refund wr ws now).
Proof.
  intros [Hp Hmax _] Ha Ha0 Hr He. unfold settled_hold. split; jfields; [done|done|].
  right; left. split_and!; [done|done|]. exists actual, refund. unfold nonneg_field. jfields.
  split_and!; try done; ilia.
Qed.
Lemma held_term_settled u hold input actual refund wr ws now :
  held_term u DHold (settled_hold hold input actual refund wr ws now) = 0.
Proof. apply held_term_final. unfold settled_hold. jfields. by left. Qed.

Lemma hold_ok_released hold input status amount wr now :
  hold_ok hold → status ∈ [lit "released"; lit "expired"] → 
  amount_field hold (lit "maxAmount") = Some amount → in_i64 amount →
  hold_ok (released_hold hold input status amount wr now).
Proof.
  intros [Hp Hmax _] Hs He Hi. unfold released_hold. split; jfields; [done|done|].
  right; right. split_and!; [|done|by rewrite He].
  apply list_elem_of_In in Hs as [<-|[<-|[]]]; set_solver.
Qed.
Lemma held_term_released u hold input status amount wr now :
  status ∈ [lit "released"; lit "expired"] →
  held_term u DHold (released_hold hold input status amount wr now) = 0.
Proof.
  intros Hs. apply held_term_final. unfold released_hold. jfields.
  apply list_elem_of_In in Hs as [<-|[<-|[]]]; set_solver.
Qed.

(** The amount a check answered is the hold's. *)
Lemma default_amount m f a : 0 < default 0 (amount_field m f) → a = default 0 (amount_field m f) →
  amount_field m f = Some a.
Proof. intros Hp ->. destruct (amount_field m f); [done|cbn in Hp; lia]. Qed.

Lemma settle_hold_checks_Ok authority input hold now w a w' :
  settle_hold_checks authority input hold now w = Ok (a, w') →
  w' = w ∧ field_str hold (lit "status") = Some (lit "running") ∧
  field_str hold (lit "payerUserId") = Some (th_payer_user_id input) ∧
  field_str hold (lit "quoteId") = Some (th_quote_id input) ∧
  field_str hold (lit "runId") = Some (th_settlement_id input) ∧
  field_str hold (lit "settlementAuthority") = Some authority ∧
  now ≤ default 0 (amount_field hold (lit "expiresAt")) ∧
  amount_field hold (lit "maxAmount") = Some a ∧ 0 < a.
Proof.
  unfold settle_hold_checks. intros Hr. tx_inv Hr. unbool.
  split_and!; try done; try lia. by apply default_amount.
Qed.

Lemma document_caps_Ok msg items caps w r w' :
  document_caps msg items caps w = Ok (r, w') → w' = w.
Proof.
  revert caps. induction items as [|item items IH]; intros caps Hr; cbn [document_caps] in Hr.
  - by apply ret_Ok in Hr as [_ ->].
  - tx_inv Hr. by eapply IH.
Qed.

Lemma release_hold_checks_Ok caller input hold now w a w' :
  release_hold_checks caller input hold now w = Ok (a, w') →
  w' = w ∧ is_active_hold hold = true ∧
  field_str hold (lit "payerUserId") = Some (rh_payer_user_id input) ∧
  amount_field hold (lit "maxAmount") = Some a ∧ 0 < a.
Proof.
  unfold release_hold_checks. intros Hr. tx_inv Hr. unbool.
  split_and!; try done; try lia. by apply default_amount.
Qed.

Lemma apply_settlement_step authority input hold max_amount totals now w v w' :
  typed w → is_empty (marker w (MSettlement authority (th_settlement_id input))) = true →
  doc_at w DHold (th_hold_id input) = Some hold →
  field_str hold (lit "status") = Some (lit "running") →
  field_str hold (lit "payerUserId") = Some (th_payer_user_id input) →
  amount_field hold (lit "maxAmount") = Some max_amount →
  totals_of (lt_credits totals) (lt_actual totals) → 0 ≤ lt_actual totals ≤ max_amount →
  apply_settlement authority input hold max_amount totals now w = Ok (v, w') → sound_step 0 w w'.
Proof.
  intros Hw Hunused Hdoc Hst Hpay Hmax Ht Hle. unfold apply_settlement. intros Hr. tx_inv Hr. unchecked.
  apply finalize_quiet in Hm as Hq; pose proof Hq as [Qt Qw Qc _ Qn Qm Qd _ Qb]. rewrite !Qc in *.
  pose proof (totals_of_hash _ _ Ht) as [Hsum _].
  apply (credits_Ok _ _ _ _ _ _ (credit_step_Ok _)) in Hm0 as (Tc & Oc & Wc); [|typing; auto].
  apply refund_payer_Ok in Hm1 as (Tr & Wr & _ & Mr & Dr & Nr & Br); [|done].
  assert (doc_at w2 DHold (th_hold_id input) = Some hold) as Hd2.
  { rewrite Dr. unfold doc_at in *. rewrite (ow_rows _ _ Oc), <- Hdoc.
    exact (Qd DHold (th_hold_id input) eq_refl). }
  assert (w_next w2 = w_next w) as Hnext by (rewrite Nr, (ow_next _ _ Oc); exact Qn).
  assert (w_markers w2 = w_markers w) as Hmark by (rewrite Mr, (ow_markers _ _ Oc); exact Qm).
  split_and!; [typing|intros; autorewrite with fin in *; cbn [weight] in *; lia| |evolve|kept].
  2: { intros old ?. simplify_eq. right. split; unfold settled_hold; [keeping|].
       right; left. unfold has_status. jfields. by rewrite Hst, !bool_decide_eq_true_2. }
  2: { apply (evolve_docs _ w0); [intros; rewrite Dr; unfold doc_at; by rewrite (ow_rows _ _ Oc)|].
       eapply evolve_quiet; [done|apply evolve_refl]. }
  intros Hb. walk_books.
  eapply books_replace_hold; [exact Hd2| |apply Br; eapply books_only_wallets; [done|];
    walk_books; by apply Qb|].
  - apply hold_ok_settled; try done; [|ilia|ilia|].
    + eapply (bk_docs _ _ _ _ Hb DHold), Hdoc.
    + rewrite Hmax. f_equal. lia.
  - intros u. rewrite held_term_settled, (held_term_active _ _ (th_payer_user_id input)); [|done|].
    + offsets. rewrite Hmax. cbn. case_bool_decide; lia.
    + rewrite Hst. by right; left.
Qed.

Lemma settle_hold_step authority input w v w' :
  typed w → settle_hold authority input w = Ok (v, w') → sound_step 0 w w'.
Proof.
  intros Hw. unfold settle_hold. intros Hr. tx_inv Hr; [by apply sound_refl|]. read_docs.
  apply settle_hold_checks_Ok in Hm as (-> & Hst & Hpay & _ & _ & _ & _ & Hmax & _).
  apply document_caps_Ok in Hm0 as ->. apply settlement_lines_Ok in Hm1 as (-> & Ht & Hpos).
  unbool. by eapply apply_settlement_step.
Qed.

Lemma active_status hold :
  is_active_hold hold = true →
  field_str hold (lit "status") ∈ [Some (lit "open"); Some (lit "running")].
Proof.
  unfold is_active_hold, text_or_empty. intros Ha. unbool.
  destruct (field_str hold (lit "status")) as [s|]; cbn in Ha; [|destruct Ha; clash].
  destruct Ha as [-> | ->]; set_solver.
Qed.

Lemma release_hold_step caller input w v w' :
  typed w → release_hold caller input w = Ok (v, w') → sound_step 0 w w'.
Proof.
  intros Hw. unfold release_hold. intros Hr. tx_inv Hr; [by apply sound_refl|]; read_docs.
  apply release_hold_checks_Ok in Hm as (-> & Hst%active_status & Hpay & Hmax & Hpos).
  apply finalize_quiet in Hm0 as Hq; pose proof Hq as [Qt Qw Qc _ Qn Qm Qd _ Qb]; unchecked. autorewrite with fin in *.
  split_and!; [typing; auto|wealthy| |evolve|kept].
  2: { intros old ?. simplify_eq. right. split; unfold released_hold; [keeping|].
       right; right. unfold has_status. jfields. split.
       - apply list_elem_of_In in Hst as [Hs|[Hs|[]]]; rewrite <- Hs; [left|right]; by apply bool_decide_eq_true_2.
       - destruct (_ <=? _); [right|left]; by apply bool_decide_eq_true_2. }
  2: eapply evolve_quiet; [done|apply evolve_refl].
  intros Hb. walk_books.
  set (status := if _ <=? _ then _ else _).
  assert (status ∈ [lit "released"; lit "expired"]) as Hstatus
    by (unfold status; destruct (_ <=? _); set_solver).
  eapply books_replace_hold.
  - autorewrite with fin. by rewrite Qd.
  - pose proof (bk_docs _ _ _ _ Hb DHold _ _ Hdoc) as Hok. apply hold_ok_released; try done.
    destruct (ho_max _ Hok) as (a' & ? & ?). simplify_eq. ilia.
  - walk_books. by apply Qb.
  - intros u. rewrite held_term_released, (held_term_active _ _ (rh_payer_user_id input)) by done.
    offsets. rewrite Hmax. cbn. case_bool_decide; lia.
Qed.
End books.
