(* ===== verification/FinancePoolSteps.v ===== *)
(** What each pool action does to the books: from the code of the action to [sound_step]. *)

From S2P Require Import Prelude Text Core Ports BTree Json FinanceLedger FinanceHelpers.
From S2P Require Import FinanceHolds FinancePools FinanceWallets FinanceMarket FinanceBooks.
From S2P Require Import FinanceSteps.

Open Scope Z_scope.
Open Scope tx_scope.

(** The amounts of a sound pool. *)
Lemma pool_amounts m :
  pool_ok m →
  0 ≤ amount_or_zero m (lit "remaining") ∧ 0 ≤ amount_or_zero m (lit "reserved") ∧
  0 ≤ amount_or_zero m (lit "spent") ∧ 0 ≤ amount_or_zero m (lit "refunded") ∧
  amount_or_zero m (lit "maxAmount")
  = amount_or_zero m (lit "remaining") + amount_or_zero m (lit "reserved")
    + amount_or_zero m (lit "spent") + amount_or_zero m (lit "refunded") ∧
  amount_or_zero m (lit "maxAmount") ≤ i64_max.
Proof.
  intros [_ (a & b & c & d & [Ha ?] & [Hb ?] & [Hc ?] & [Hd ?] & [He ?]) _].
  unfold amount_or_zero. rewrite Ha, Hb, Hc, Hd, He. cbn. lia.
Qed.

(** A pool document whose amounts were replaced. *)
Lemma pool_ok_amounts m m' :
  pool_ok m →
  field_str m' (lit "payerUserId") = field_str m (lit "payerUserId") →
  field_str m' (lit "status") = Some (lit "open") →
  (∀ f, f ∈ [lit "remaining"; lit "reserved"; lit "spent"; lit "refunded"; lit "maxAmount"] →
        is_Some (amount_field m' f)) →
  0 ≤ amount_or_zero m' (lit "remaining") → 0 ≤ amount_or_zero m' (lit "reserved") →
  0 ≤ amount_or_zero m' (lit "spent") → 0 ≤ amount_or_zero m' (lit "refunded") →
  amount_or_zero m' (lit "maxAmount")
  = amount_or_zero m' (lit "remaining") + amount_or_zero m' (lit "reserved")
    + amount_or_zero m' (lit "spent") + amount_or_zero m' (lit "refunded") →
  amount_or_zero m' (lit "maxAmount") ≤ i64_max →
  pool_ok m'.
Proof.
  intros [Hp _ _] Hpay Hst Hsome. unfold amount_or_zero, nonneg_field. intros.
  destruct (Hsome (lit "remaining")) as [a Ha]; [set_solver|].
  destruct (Hsome (lit "reserved")) as [b Hb]; [set_solver|].
  destruct (Hsome (lit "spent")) as [c Hc]; [set_solver|].
  destruct (Hsome (lit "refunded")) as [d Hd]; [set_solver|].
  destruct (Hsome (lit "maxAmount")) as [e He]; [set_solver|].
  rewrite Ha, Hb, Hc, Hd, He in *. cbn in *. subst e. split; [by rewrite Hpay| |by left].
  exists a, b, c, d. unfold nonneg_field. split_and!; try done; lia.
Qed.

Lemma held_term_pool u m payer :
  field_str m (lit "payerUserId") = Some payer → field_str m (lit "status") = Some (lit "open") →
  held_term u DPool m
  = at_ payer (amount_or_zero m (lit "remaining") + amount_or_zero m (lit "reserved")) u.
Proof.
  intros Hp Hs. unfold held_term, has_status, at_. rewrite Hp, Hs. literal_keys.
  rewrite andb_true_r. destruct (decide (u = payer)) as [->|].
  - by rewrite !bool_decide_eq_true_2.
  - by rewrite !bool_decide_eq_false_2 by congruence.
Qed.
Lemma held_term_closed u m :
  field_str m (lit "status") = Some (lit "closed") → held_term u DPool m = 0.
Proof. intros Hs. unfold held_term, has_status. rewrite Hs. literal_keys. by rewrite andb_false_r. Qed.

(** A reservation in the books is part of what its pool reserves. *)
Lemma reserved_part `{Platform} h p r w run m q :
  books_off h p r w → doc_at w DPoolReservation run = Some m →
  field_str m (lit "poolId") = Some q → field_str m (lit "status") = Some (lit "reserved") →
  amount_or_zero m (lit "amount") ≤ doc_sum (reserved_term q) w.
Proof.
  intros Hb Hd Hq Hs. unfold doc_at in Hd.
  destruct (w_rows w !! (DPoolReservation, run)) as [row|] eqn:E; [|done]. cbn in Hd. simplify_eq.
  pose proof (msum_delete (λ k r, reserved_term q k.1 (row_document r)) (w_rows w)
                (DPoolReservation, run)) as Hdel.
  unfold mterm in Hdel. rewrite E in Hdel. cbn [fst reserved_term] in Hdel.
  unfold has_status in Hdel. rewrite Hq, Hs in Hdel. rewrite !bool_decide_eq_true_2 in Hdel by done.
  cbn [andb] in Hdel. unfold doc_sum.
  enough (0 ≤ msum (λ k r, reserved_term q k.1 (row_document r))
                (delete (DPoolReservation, run) (w_rows w))) by lia.
  apply msum_nonneg. intros [d id] row' Hrow. destruct d; cbn [fst reserved_term]; try lia.
  apply lookup_delete_Some in Hrow as [_ Hrow].
  destruct (bk_docs _ _ _ _ Hb DPoolReservation id (row_document row')) as [_ _ (a & Ha & ?) _];
    [by unfold doc_at; rewrite Hrow|].
  unfold amount_or_zero. rewrite Ha. destruct (_ && _); cbn; lia.
Qed.

Section books.
Context `{PlatformLaws}.

(** Replace a pool: the held counters catch up, and the reserved amount moves. *)
Lemma books_replace_pool h r r' w id m old :
  doc_at w DPool id = Some old → pool_ok m →
  field_str m (lit "payerUserId") = field_str old (lit "payerUserId") →
  books_off h none r w →
  (∀ u, h u + held_term u DPool old - held_term u DPool m = 0) →
  (∀ q, r' q = r q + at_ id (amount_or_zero m (lit "reserved") - amount_or_zero old (lit "reserved")) q) →
  books_off none none r' (put_row w DPool id m).
Proof.
  intros Hd Hm Hpay Hb Hh Hr.
  eapply books_ext; [| | |eapply books_pool; [done|left; by rewrite Hd| |done]]; try done.
  - intros u. offsets. rewrite Hd. cbn [opt_term]. specialize (Hh u). lia.
  - intros q. rewrite Hr. offsets. rewrite Hd. cbn [opt_term]. case_bool_decide; lia.
  - intros old' ?. congruence.
Qed.

Lemma books_replace_reservation r w run m q pool :
  reservation_ok m → field_str m (lit "poolId") = Some q → doc_at w DPool q = Some pool →
  field_str m (lit "payerUserId") = field_str pool (lit "payerUserId") →
  books_off none none r w →
  (∀ u, r u + opt_term (reserved_term u DPoolReservation) (doc_at w DPoolReservation run)
        - reserved_term u DPoolReservation m = 0) →
  books (put_row w DPoolReservation run m).
Proof.
  intros Hm Hq Hp Hpay Hb Hr. eapply books_ext; [| | |by eapply books_reservation]; try done.
  intros u. offsets. specialize (Hr u). lia.
Qed.

(** Funding a pool moves balance into the held counter. *)
Lemma fund_pool_Ok payer amount msg w r w' :
  typed w → fund_pool payer amount msg w = Ok (r, w') →
  typed w' ∧ wealth w' = wealth w ∧ amount ≤ i64_max ∧ is_Some (bal w payer) ∧
  w_next w' = w_next w ∧ w_markers w' = w_markers w ∧
  (∀ d id, doc_at w' d id = doc_at w d id) ∧
  (∀ h p r, books_off h p r w → books_off (plus h (at_ payer amount)) p r w').
Proof.
  intros Hw. unfold fund_pool. intros Hr. tx_inv Hr. unchecked. autorewrite with fin in *.
  split_and!; try done; [typing|wealthy|lia|].
  intros h p r Hb. eapply books_ext; [| | |walk_books; exact Hb]; try done.
  intros u. offsets. case_bool_decide; lia.
Qed.

Lemma pool_ok_new_pool id payer input wa now :
  payer ≠ [] → 0 < op_max_amount input ≤ i64_max → pool_ok (new_pool id payer input wa now).
Proof.
  intros Hp Hm. split; unfold nonneg_field, new_pool; jfields; [eauto| |by left].
  exists (op_max_amount input), 0, 0, 0. split_and!; try done; try lia. f_equal. lia.
Qed.

Lemma open_pool_step payer input w v w' :
  typed w → open_pool payer input w = Ok (v, w') → sound_step 0 w w'.
Proof.
  intros Hw. unfold open_pool. intros Hr. tx_inv Hr; [by apply sound_refl|].
  apply fund_pool_Ok in Hm as (Tf & Wf & Hle & [b Hbal] & Nf & Mf & Df & Bf); [|done].
  split_and!; [typing|wealthy| |evolve|kept].
  2: by apply (evolve_docs _ w), evolve_refl.
  intros Hb.
  assert (0 < op_max_amount input ≤ i64_max) as Hmax by (unbool; lia).
  assert (in_i64 (op_max_amount input)) by ilia.
  assert (doc_at w DPool (id_at (w_next w)) = None) as Hnone
    by (eapply fresh_none; [done|unfold generated; set_solver|lia]).
  eapply books_final; [walk_books; eapply books_pool; [|known| |walk_books; apply Bf, Hb]|..];
    offsets; rewrite ?Df, ?Nf, ?Hnone; try done.
  - apply pool_ok_new_pool; [by eapply nonempty_id|done].
  - autorewrite with fin in *. rewrite Df, Nf in *. congruence.
  - cbn [opt_term]. rewrite (held_term_pool _ _ payer); unfold new_pool; jfields; try done.
    unfold at_. cbn. case_bool_decide; lia.
  - cbn [opt_term]. unfold new_pool. jfields. cbn. case_bool_decide; lia.
Qed.

(** An edit of an open pool, as a later version of it. *)
Ltac pool_next_edit :=
  let old := fresh "old" in
  intros old ?; simplify_eq; right; split;
  [ keeping
  | unfold has_status; jfields; split; [status_is|left; status_is]
  | jfields; lia | jfields; lia | jfields; lia ].

(** An edit of an open pool keeps the document sound. *)
Lemma pool_fields m f :
  pool_ok m → f ∈ [lit "remaining"; lit "reserved"; lit "spent"; lit "refunded"; lit "maxAmount"] →
  is_Some (amount_field m f).
Proof.
  intros [_ (a & b & c & d & [Ha _] & [Hb _] & [Hc _] & [Hd _] & [He _]) _] Hf.
  apply list_elem_of_In in Hf as [<-|[<-|[<-|[<-|[<-|[]]]]]]; eauto.
Qed.
Ltac pool_edit Hok :=
  eapply pool_ok_amounts;
  [ exact Hok | by jfields | by jfields
  | let f := fresh "f" in let Hf := fresh "Hf" in
    intros f Hf; pose proof (pool_fields _ f Hok Hf);
    apply list_elem_of_In in Hf as [<-|[<-|[<-|[<-|[<-|[]]]]]]; jfields; eauto
  | pose proof (pool_amounts _ Hok); jfields; ilia .. ].

Lemma books_edit_pool h r r' w id m old payer :
  doc_at w DPool id = Some old →
  field_str old (lit "payerUserId") = Some payer → field_str old (lit "status") = Some (lit "open") →
  field_str m (lit "payerUserId") = Some payer → field_str m (lit "status") = Some (lit "open") →
  pool_ok m → books_off h none r w →
  (∀ u, h u = at_ payer (amount_or_zero m (lit "remaining") + amount_or_zero m (lit "reserved")
                         - amount_or_zero old (lit "remaining") - amount_or_zero old (lit "reserved")) u) →
  (∀ q, r' q = r q + at_ id (amount_or_zero m (lit "reserved") - amount_or_zero old (lit "reserved")) q) →
  books_off none none r' (put_row w DPool id m).
Proof.
  intros Hd Hp Hs Hp' Hs' Hm Hb Hh Hr. eapply books_replace_pool; try done; [congruence|].
  intros u. rewrite Hh, !(held_term_pool u _ payer) by done. unfold at_. case_bool_decide; lia.
Qed.

Lemma refresh_pool_step payer input w v w' :
  typed w → refresh_pool payer input w = Ok (v, w') → sound_step 0 w w'.
Proof.
  intros Hw. unfold refresh_pool. intros Hr. tx_inv Hr; [by apply sound_refl|..]; read_docs; unbool;
    (apply fund_pool_Ok in Hm as (Tf & Wf & Hle & _ & Nf & Mf & Df & Bf); [|done]); unchecked;
    (split_and!; [typing|wealthy| |evolve|kept]);
    [| | by apply (evolve_docs _ w), evolve_refl].
  2: destruct (w_now w <? fp_expires_at input); pool_next_edit.
  intros Hb;
    pose proof (bk_docs _ _ _ _ Hb DPool _ _ Hdoc) as Hok; walk_books;
    destruct (w_now w <? fp_expires_at input);
    (eapply books_edit_pool; [by rewrite Df|exact G3|exact G4|by jfields|by jfields| |apply Bf, Hb|..]).
  all: try by pool_edit Hok.
  all: intros u; offsets; jfields; case_bool_decide; lia.
Qed.

Lemma refund_pool_Ok payer amount wr w u0 w' :
  typed w → refund_pool payer amount wr w = Ok (u0, w') →
  typed w' ∧ wealth w' = wealth w ∧ w_next w' = w_next w ∧ w_markers w' = w_markers w ∧
  (∀ d id, doc_at w' d id = doc_at w d id) ∧
  (∀ h p r, books_off h p r w → books_off (plus h (at_ payer (- amount))) p r w').
Proof.
  intros Hw. unfold refund_pool. intros Hr. tx_inv Hr. unchecked. autorewrite with fin in *.
  split_and!; try done; [typing|wealthy|].
  intros h p r Hb. eapply books_ext; [| | |walk_books; exact Hb]; try done.
  intros u. offsets. case_bool_decide; lia.
Qed.

(** A text field that is not empty is there. *)
Lemma text_or_empty_Some m f s : text_or_empty m f = s → s ≠ [] → field_str m f = Some s.
Proof. unfold text_or_empty. destruct (field_str m f); cbn; congruence. Qed.

Lemma pool_ok_closed pool input now :
  pool_ok pool → field_str pool (lit "status") = Some (lit "open") →
  amount_or_zero pool (lit "reserved") = 0 →
  pool_ok (closed_pool pool input
             (amount_or_zero pool (lit "refunded") + amount_or_zero pool (lit "remaining")) now).
Proof.
  intros Hok Hs Hr. pose proof (pool_amounts _ Hok).
  destruct Hok as [Hp (a & b & c & d & [Ha ?] & [Hb ?] & [Hc ?] & [Hd ?] & [He ?]) _].
  unfold amount_or_zero in *. rewrite Ha, Hb, Hc, Hd, He in *. cbn in *. subst b.
  split; unfold nonneg_field, closed_pool; jfields; [done| |right; split_and!; done].
  exists 0, 0, c, (d + a). rewrite Hb, Hc, He. split_and!; try done; try lia. f_equal. lia.
Qed.

Lemma books_close_pool h w id pool input now :
  doc_at w DPool id = Some pool → pool_ok pool →
  field_str pool (lit "status") = Some (lit "open") → amount_or_zero pool (lit "reserved") = 0 →
  books_off h none none w →
  (∀ u, h u = at_ (text_or_empty pool (lit "payerUserId")) (- amount_or_zero pool (lit "remaining")) u) →
  books (put_row w DPool id (closed_pool pool input
           (amount_or_zero pool (lit "refunded") + amount_or_zero pool (lit "remaining")) now)).
Proof.
  intros Hd Hok Hs Hres Hb Hh. pose proof (po_payer _ Hok) as [payer [Hp _]].
  unfold text_or_empty in Hh. rewrite Hp in Hh. cbn in Hh.
  eapply books_replace_pool; [exact Hd|by apply pool_ok_closed| |exact Hb| |].
  - unfold closed_pool. by jfields.
  - intros u. rewrite (held_term_closed u (closed_pool _ _ _ _)) by (unfold closed_pool; by jfields).
    rewrite Hh, (held_term_pool u _ payer), Hres by done. unfold at_. case_bool_decide; lia.
  - intros q. offsets. unfold closed_pool. jfields. case_bool_decide; lia.
Qed.

Lemma pool_next_closed w id pool input now :
  books w → doc_at w DPool id = Some pool → field_str pool (lit "status") = Some (lit "open") →
  ∀ old, doc_at w DPool id = Some old →
  evolves DPool old (closed_pool pool input
    (amount_or_zero pool (lit "refunded") + amount_or_zero pool (lit "remaining")) now).
Proof.
  intros Hb Hd Hs old ?. simplify_eq. pose proof (bk_docs _ _ _ _ Hb DPool _ _ Hd) as Hok.
  pose proof (pool_amounts _ Hok). right. split; unfold closed_pool.
  - keeping.
  - unfold has_status. jfields. split; [status_is|right; status_is].
  - jfields. lia.
  - jfields. lia.
  - jfields. lia.
Qed.

Lemma close_pool_step caller input w v w' :
  typed w → close_pool caller input w = Ok (v, w') → sound_step 0 w w'.
Proof.
  intros Hw. unfold close_pool. intros Hr. tx_inv Hr; [by apply sound_refl|..]; read_docs; unbool;
    unchecked.
  all: match goal with G : text_or_empty _ (lit "status") = lit "open" |- _ =>
         apply text_or_empty_Some in G; [|by vm_compute] end.
  - apply refund_pool_Ok in Hm as (Tf & Wf & Nf & Mf & Df & Bf); [|done].
    split_and!; [typing|wealthy| |evolve; [|by apply (evolve_docs _ w), evolve_refl]|kept].
    2: by apply (pool_next_closed _ _ _ _ _ Hb Hdoc).
    intros Hb. walk_books.
    eapply books_close_pool; [by rewrite Df|by apply (bk_docs _ _ _ _ Hb DPool _ _ Hdoc)|done|done
                             |apply Bf, Hb|done].
  - split_and!; [typing|wealthy| |evolve|kept].
    2: by apply (pool_next_closed _ _ _ _ _ Hb Hdoc).
    intros Hb. walk_books.
    pose proof (bk_docs _ _ _ _ Hb DPool _ _ Hdoc) as Hok. pose proof (pool_amounts _ Hok).
    eapply books_close_pool; [done..|]. intros u. offsets. case_bool_decide; lia.
Qed.

(** ** Reservations *)

Lemma reserved_term_open q m p :
  field_str m (lit "poolId") = Some p → field_str m (lit "status") = Some (lit "reserved") →
  reserved_term q DPoolReservation m = at_ p (amount_or_zero m (lit "amount")) q.
Proof.
  intros Hp Hs. unfold reserved_term, has_status, at_. rewrite Hp, Hs. literal_keys.
  rewrite andb_true_r. destruct (decide (q = p)) as [->|].
  - by rewrite !bool_decide_eq_true_2.
  - by rewrite !bool_decide_eq_false_2 by congruence.
Qed.
Lemma reserved_term_done q m :
  field_str m (lit "status") ∈ [Some (lit "settled"); Some (lit "released")] →
  reserved_term q DPoolReservation m = 0.
Proof.
  intros Hs. unfold reserved_term, has_status.
  replace (bool_decide (field_str m (lit "status") = _)) with false; [by rewrite andb_false_r|].
  apply list_elem_of_In in Hs as [<-|[<-|[]]]; by literal_keys.
Qed.

Lemma reservation_ok_new input now :
  valid_finance_id (vr_pool_id input) = true → valid_finance_id (vr_payer_user_id input) = true →
  0 < vr_max_amount input ≤ i64_max → reservation_ok (new_reservation input now).
Proof.
  intros Hq Hp Ha. split; unfold new_reservation; jfields.
  - eexists; split; [done|]. intros E. by rewrite E in Hp.
  - eexists; split; [done|]. intros E. by rewrite E in Hq.
  - eauto.
  - by left.
Qed.

Lemma doc_absent w d id path :
  in_rows d = true → match get_doc w d id path with Ok m => Some m | Err _ => None end = None →
  doc_at w d id = None.
Proof. intros Hd. rewrite get_doc_row by done. unfold doc_at. by destruct (_ <$> _). Qed.

Lemma reserve_pool_step authority input w v w' :
  typed w → reserve_pool authority input w = Ok (v, w') → sound_step 0 w w'.
Proof.
  intros Hw. unfold reserve_pool. intros Hr. tx_inv Hr; [by apply sound_refl|]; read_docs; unbool;
    unchecked. destruct G as [[[Hq Hp] _] _]. apply doc_absent in G1; [|done].
  split_and!; [typing|wealthy| |evolve|kept].
  2: { intros old. by rewrite G1. }
  2: pool_next_edit.
  intros Hb. walk_books.
  pose proof (bk_docs _ _ _ _ Hb DPool _ _ Hdoc0) as Hok. pose proof (pool_amounts _ Hok).
  assert (wrap_i64 (amount_or_zero a (lit "remaining") - vr_max_amount input)
          = amount_or_zero a (lit "remaining") - vr_max_amount input) as -> by (apply wrap_i64_id; ilia).
  eapply (books_replace_reservation (at_ (vr_pool_id input) (vr_max_amount input)));
    [by apply reservation_ok_new; try done; ilia|unfold new_reservation; by jfields|by autorewrite with fin
    |unfold new_reservation; jfields; congruence|..].
  - eapply books_edit_pool; [done|done|done|by jfields|by jfields|by pool_edit Hok|exact Hb|..];
      intros u; offsets; jfields; case_bool_decide; lia.
  - intros u. autorewrite with fin. rewrite G1. cbn [opt_term].
    rewrite (reserved_term_open _ _ (vr_pool_id input)); unfold new_reservation; jfields; try done. lia.
Qed.

(** Close a reservation: the pool's reserved amount has fallen by it. *)
Lemma books_close_reservation w q pool run m m' :
  doc_at w DPoolReservation run = Some m → doc_at w DPool q = Some pool →
  field_str m (lit "poolId") = Some q → field_str m (lit "status") = Some (lit "reserved") →
  reservation_ok m → field_str m (lit "payerUserId") = field_str pool (lit "payerUserId") →
  (∀ f, f ∈ [lit "poolId"; lit "payerUserId"] → field_str m' f = field_str m f) →
  amount_field m' (lit "amount") = amount_field m (lit "amount") →
  field_str m' (lit "status") ∈ [Some (lit "settled"); Some (lit "released")] →
  books_off none none (at_ q (- amount_or_zero m (lit "amount"))) w →
  books (put_row w DPoolReservation run m').
Proof.
  intros Hd Hpool Hq Hs Hok Hpay Hf Ha' Hs' Hb.
  pose proof (Hf (lit "poolId") ltac:(set_solver)) as Hfq.
  pose proof (Hf (lit "payerUserId") ltac:(set_solver)) as Hfp.
  eapply (books_replace_reservation (at_ q (- amount_or_zero m (lit "amount"))));
    [|by rewrite Hfq|done|congruence|exact Hb|].
  - destruct Hok as [H1 H2 H3 H4]. split; [by rewrite Hfp|by rewrite Hfq|by rewrite Ha'|].
    apply list_elem_of_In in Hs' as [<-|[<-|[]]]; set_solver.
  - intros u. rewrite Hd. cbn [opt_term].
    rewrite (reserved_term_open _ _ q), reserved_term_done by done. unfold at_. case_bool_decide; lia.
Qed.

(** A reservation's pool, in the books. *)
Lemma reservation_pool w run m q pool :
  books w → doc_at w DPoolReservation run = Some m → field_str m (lit "poolId") = Some q →
  doc_at w DPool q = Some pool → field_str m (lit "status") = Some (lit "reserved") →
  reservation_ok m ∧ pool_ok pool ∧ field_str m (lit "payerUserId") = field_str pool (lit "payerUserId")
  ∧ 0 < amount_or_zero m (lit "amount") ≤ amount_or_zero pool (lit "reserved")
  ∧ field_str pool (lit "status") = Some (lit "open").
Proof.
  intros Hb Hd Hq Hp Hs. pose proof (bk_docs _ _ _ _ Hb _ _ _ Hd) as Hm.
  pose proof (bk_docs _ _ _ _ Hb _ _ _ Hp) as Hok.
  destruct (bk_refs _ _ _ _ Hb _ _ Hd) as (q' & pool' & Hq' & Hp' & Hpay). simplify_eq.
  pose proof (reserved_part _ _ _ _ _ _ _ Hb Hd Hq Hs) as Hle.
  rewrite (bk_reserved _ _ _ _ Hb _ _ Hp). unfold none.
  destruct (ro_amount _ Hm) as (a & Ha & ?). unfold amount_or_zero in *. rewrite Ha in *. cbn in *.
  pose proof (bk_reserved _ _ _ _ Hb _ _ Hp) as Hres. unfold amount_or_zero, none in Hres.
  split_and!; try done; try lia. destruct (po_status _ Hok) as [?|(_ & _ & Hz)]; [done|].
  rewrite Hz in Hres. cbn in Hres. lia.
Qed.

Lemma release_pool_step caller input w v w' :
  typed w → release_pool caller input w = Ok (v, w') → sound_step 0 w w'.
Proof.
  intros Hw. unfold release_pool. intros Hr. tx_inv Hr; [by apply sound_refl|]; read_docs; unbool;
    unchecked.
  match goal with G : text_or_empty _ (lit "status") = lit "reserved" |- _ =>
    apply text_or_empty_Some in G as Hs; [|by vm_compute] end.
  destruct G2 as [Hq Hp].
  split_and!; [typing|wealthy| |evolve|kept].
  2: { intros old ?. simplify_eq. right. split; unfold released_reservation; [keeping|].
       unfold has_status. jfields. split; [status_is|right; status_is]. }
  2: { destruct (reservation_pool _ _ _ _ _ Hb Hdoc0 Hq Hdoc Hs) as (_ & _ & _ & _ & Ho). pool_next_edit. }
  intros Hb. walk_books.
  destruct (reservation_pool _ _ _ _ _ Hb Hdoc0 Hq Hdoc Hs) as (Hr & Hok & Hpay & Hle & Ho).
  pose proof (pool_amounts _ Hok). destruct (po_payer _ Hok) as [payer [Hpp _]].
  eapply (books_close_reservation _ (ep_pool_id input)); [by autorewrite with fin|by autorewrite with fin|done|done|done
    |jfields; congruence|..].
  - intros f Hf. unfold released_reservation. apply list_elem_of_In in Hf as [<-|[<-|[]]]; by jfields.
  - unfold released_reservation. by jfields.
  - unfold released_reservation. jfields. set_solver.
  - eapply books_edit_pool; [done|done|done|by jfields|by jfields|by pool_edit Hok|exact Hb|..];
      intros u; offsets; jfields; case_bool_decide; lia.
Qed.

(** ** Spending from a pool *)

Lemma spend_held_Ok payer amount w u0 w' :
  typed w → spend_held payer amount w = Ok (u0, w') →
  typed w' ∧ wealth w' = wealth w - amount ∧ w_next w' = w_next w ∧ w_markers w' = w_markers w ∧
  (∀ d id, doc_at w' d id = doc_at w d id) ∧
  (∀ h p r, books_off h p r w → books_off (plus h (at_ payer (- amount))) p r w').
Proof.
  intros Hw. unfold spend_held. intros Hr. tx_inv Hr. unchecked. autorewrite with fin in *.
  split_and!; try done; [typing|wealthy|].
  intros h p r Hb. eapply books_ext; [| | |walk_books; exact Hb]; try done.
  intros u. offsets. case_bool_decide; lia.
Qed.

Lemma maybe_spend_Ok payer amount w u0 w' :
  0 ≤ amount → typed w → (if 0 <? amount then spend_held payer amount else ret tt) w = Ok (u0, w') →
  typed w' ∧ wealth w' = wealth w - amount ∧ w_next w' = w_next w ∧ w_markers w' = w_markers w ∧
  (∀ d id, doc_at w' d id = doc_at w d id) ∧
  (∀ h p r, books_off h p r w → books_off (plus h (at_ payer (- amount))) p r w').
Proof.
  intros Ha Hw. destruct (Z.ltb_spec 0 amount); [by apply spend_held_Ok|]. intros [-> ->]%ret_Ok.
  split_and!; [done|lia|done|done|done|]. intros h p r. apply books_ext; try done.
  intros u. offsets. case_bool_decide; lia.
Qed.

Lemma doc_only_wallets w w' d id : only_wallets w w' → doc_at w' d id = doc_at w d id.
Proof. intros Ho. unfold doc_at. by rewrite (ow_rows _ _ Ho). Qed.

Lemma apply_pool_settlement_step authority input pool m slice totals now w v w' :
  typed w → is_empty (marker w (MPoolSettlement authority (tp_settlement_id input))) = true →
  doc_at w DPoolReservation (tp_run_id input) = Some m →
  doc_at w DPool (tp_pool_id input) = Some pool →
  field_str m (lit "poolId") = Some (tp_pool_id input) →
  field_str m (lit "payerUserId") = Some (tp_payer_user_id input) →
  field_str m (lit "status") = Some (lit "reserved") →
  slice = amount_or_zero m (lit "amount") →
  totals_of (lt_credits totals) (lt_actual totals) → 0 ≤ lt_actual totals ≤ slice →
  apply_pool_settlement authority input pool m slice totals now w = Ok (v, w') →
  sound_step 0 w w'.
Proof.
  intros Hw Hunused Hd Hpool Hq Hp Hs -> Ht Hle. unfold apply_pool_settlement. intros Hr.
  cbv beta zeta in Hr. repeat lazymatch type of Hr with
    | tx_bind (if 0 <? lt_actual totals then _ else _) _ _ = Ok _ =>
        apply bind_Ok in Hr as (x & w3 & Hspend & Hr); cbv beta zeta in Hr
    | _ => tx_step Hr end.
  unchecked. pose proof (totals_of_hash _ _ Ht) as [Hsum _].
  apply (credits_Ok _ _ _ _ _ _ (credit_participant_Ok _)) in Hm as (Tc & Oc & Wc); [|done].
  apply maybe_spend_Ok in Hspend as (Ts & Ws & Ns & Ms & Ds & Bs); [|lia|done].
  assert (∀ d id, doc_at w3 d id = doc_at w d id) as Hdocs
    by (intros; rewrite Ds; by apply doc_only_wallets).
  assert (w_next w3 = w_next w) as Hnext by (rewrite Ns; exact (ow_next _ _ Oc)).
  assert (w_markers w3 = w_markers w) as Hmark by (rewrite Ms; exact (ow_markers _ _ Oc)).
  split_and!; [typing|wealthy| |evolve|kept].
  2: { intros old ?. simplify_eq. right. split; unfold settled_reservation; [keeping|].
       unfold has_status. jfields. split; [status_is|left; status_is]. }
  2: { destruct (reservation_pool _ _ _ _ _ Hb Hd Hq Hpool Hs) as (_ & _ & _ & _ & Ho). pool_next_edit. }
  2: by apply (evolve_docs _ w), evolve_refl.
  intros Hb. walk_books.
  destruct (reservation_pool _ _ _ _ _ Hb Hd Hq Hpool Hs) as (Hr & Hok & Hpay & Hle' & Ho).
  pose proof (pool_amounts _ Hok).
  eapply (books_close_reservation _ (tp_pool_id input));
    [autorewrite with fin; by rewrite Hdocs|by autorewrite with fin|done|done|done
    |jfields; congruence|..].
  - intros f Hf. unfold settled_reservation. apply list_elem_of_In in Hf as [<-|[<-|[]]]; by jfields.
  - unfold settled_reservation. by jfields.
  - unfold settled_reservation. jfields. set_solver.
  - eapply books_edit_pool; [by rewrite Hdocs|by rewrite <- Hpay|done|jfields; congruence|by jfields
      |by pool_edit Hok|apply Bs, books_only_wallets with (1 := Oc), Hb|..];
      intros u; offsets; jfields; case_bool_decide; lia.
Qed.

Lemma settle_pool_step authority input w v w' :
  typed w → settle_pool authority input w = Ok (v, w') → sound_step 0 w w'.
Proof.
  intros Hw. unfold settle_pool. intros Hr. tx_inv Hr; [by apply sound_refl|]; read_docs; unbool.
  apply document_caps_Ok in Hm as ->. apply settlement_lines_Ok in Hm0 as (-> & Ht & Hpos).
  eapply apply_pool_settlement_step; try done; naive_solver.
Qed.

Lemma authorized_roles_Ok items auth w r w' :
  authorized_roles items auth w = Ok (r, w') → w' = w.
Proof.
  revert auth. induction items as [|item items IH]; intros auth Hr; cbn [authorized_roles] in Hr.
  - by apply ret_Ok in Hr as [_ ->].
  - tx_inv Hr. by eapply IH.
Qed.

Lemma record_credits_Ok c l w r w' : each record_credit c l w = Ok (r, w') → w' = w.
Proof.
  intros H1. refine (each_Ok (λ _ w0, w0 = w) _ _ _ _ _ _ _ eq_refl H1).
  intros q x w0 r0 w1 _ -> H2. unfold record_credit in H2. by tx_inv H2.
Qed.

Lemma record_debit_quiet input t now w u w' : record_debit input t now w = Ok (u, w') → quiet totals_doc w w'.
Proof.
  unfold record_debit. intros Hr. cbv beta zeta in Hr. tx_inv Hr.
  apply record_credits_Ok in Hm as ->. by apply quiet_outside.
Qed.

Lemma apply_debit_step authority input pool t now w v w' :
  typed w → is_empty (marker w (MPoolDebit authority (dp_debit_id input))) = true →
  doc_at w DPool (dp_pool_id input) = Some pool →
  field_str pool (lit "payerUserId") = Some (dp_payer_user_id input) →
  field_str pool (lit "status") = Some (lit "open") →
  totals_of (dt_user_credits t) (dt_delta t) →
  0 < dt_delta t ≤ amount_or_zero pool (lit "remaining") →
  apply_debit authority input pool t (amount_or_zero pool (lit "remaining")) now w = Ok (v, w') →
  sound_step 0 w w'.
Proof.
  intros Hw Hunused Hd Hp Hs Ht Hle. unfold apply_debit. intros Hr. tx_inv Hr. unchecked.
  pose proof (totals_of_hash _ _ Ht) as [Hsum _].
  apply (credits_Ok _ _ _ _ _ _ debit_participant_Ok) in Hm as (Tc & Oc & Wc); [|done].
  apply spend_held_Ok in Hm0 as (Ts & Ws & Ns & Ms & Ds & Bs); [|done].
  apply record_debit_quiet in Hm1 as Hq. pose proof Hq as [Qt Qw _ _ Qn Qm _ _ Qb].
  assert (w_next w1 = w_next w) as Hnext by (rewrite Ns; exact (ow_next _ _ Oc)).
  assert (w_markers w2 = w_markers w) as Hmark by (rewrite Qm; cbn; rewrite Ms; exact (ow_markers _ _ Oc)). autorewrite with fin in *.
  assert (doc_at w1 DPool (dp_pool_id input) = Some pool) as Hd1
    by (rewrite Ds, <- Hd; by apply doc_only_wallets).
  split_and!; [typing; apply Qt; typing|wealthy| |evolve|kept].
  2: { eapply evolve_quiet; [done|]. repeat evolve_step Hb; [pool_next_edit|].
       apply (evolve_docs _ w), evolve_refl. intros. rewrite Ds. by apply doc_only_wallets. }
  intros Hb. walk_books. apply Qb.
  pose proof (bk_docs _ _ _ _ Hb DPool _ _ Hd) as Hok. pose proof (pool_amounts _ Hok).
  eapply books_edit_pool; [exact Hd1|done|done|by jfields|by jfields|by pool_edit Hok
    |apply Bs, books_only_wallets with (1 := Oc), Hb|..];
    intros u; offsets; jfields; case_bool_decide; lia.
Qed.

Lemma debit_pool_step authority input w v w' :
  typed w → debit_pool authority input w = Ok (v, w') → sound_step 0 w w'.
Proof.
  intros Hw. unfold debit_pool. intros Hr. tx_inv Hr; [by apply sound_refl|..]; read_docs; unbool;
    apply authorized_roles_Ok in Hm as ->; apply debit_lines_Ok in Hm0 as (-> & Ht & _).
  - by apply sound_refl.
  - by eapply apply_debit_step.
Qed.
End books.
