(* ===== verification/FinanceWalletSteps.v ===== *)
(** What payouts, adjustments, transfers, mints and token locks do to the books: from the code of
    each action to [sound_step]. *)

From S2P Require Import Prelude Text Core Ports BTree Json FinanceLedger FinanceHelpers.
From S2P Require Import FinanceHolds FinancePools FinanceWallets FinanceMarket FinanceBooks.
From S2P Require Import FinanceSteps FinancePoolSteps.

Open Scope Z_scope.
Open Scope tx_scope.

(** The wallet an offset is at, and the others. *)
Ltac at_cases :=
  match goal with
  | |- context [bool_decide ?P] =>
      let HP := fresh "HP" in
      destruct (decide P) as [HP|HP];
      [rewrite !(bool_decide_eq_true_2 P HP) | rewrite !(bool_decide_eq_false_2 P HP)]
  end.

Lemma payout_term_pending u m owner :
  field_str m (lit "userId") = Some owner → field_str m (lit "status") = Some (lit "pending") →
  payout_term u DPayout m = at_ owner (default 0 (amount_field m (lit "amount"))) u.
Proof.
  intros Hp Hs. unfold payout_term, has_status, at_. rewrite Hp, Hs. literal_keys.
  rewrite andb_true_r. destruct (decide (u = owner)) as [->|].
  - by rewrite !bool_decide_eq_true_2.
  - by rewrite !bool_decide_eq_false_2 by congruence.
Qed.
Lemma payout_term_done u m :
  field_str m (lit "status") ∈ [Some (lit "paid"); Some (lit "rejected")] →
  payout_term u DPayout m = 0.
Proof.
  intros Hs. unfold payout_term, has_status.
  replace (bool_decide (field_str m (lit "status") = _)) with false; [by rewrite andb_false_r|].
  apply list_elem_of_In in Hs as [<-|[<-|[]]]; by literal_keys.
Qed.

(** A snapshot only reads. *)
Lemma snapshot_Ok user limit w v w' : financial_account_snapshot user limit w = Ok (v, w') → w' = w.
Proof. unfold financial_account_snapshot, open_pool_of, finance_payout_records. intros Hr. by tx_inv Hr. Qed.

Section books.
Context `{PlatformLaws}.

Lemma request_payout_step user input w v w' :
  typed w → request_payout user input w = Ok (v, w') → sound_step 0 w w'.
Proof.
  intros Hw. unfold request_payout. intros Hr. tx_inv Hr; [by apply sound_refl|]. unchecked.
  autorewrite with fin in *. split_and!; [typing|wealthy| |evolve|kept]. intros Hb.
  assert (0 < rp_amount input) as Hpos by (unbool; lia).
  assert (in_i64 (rp_amount input)) as Hin by ilia.
  assert (user ≠ []) as Hne by (by eapply nonempty_id).
  eapply books_final; [walk_books; eapply books_payout; [|known|walk_books; exact Hb]|..];
    offsets; try done.
  - unfold payout_ok, new_payout. jfields. intros _. split; [eauto|]. eexists; split; [done|ilia].
  - rewrite (fresh_none _ _ _ w DPayout (w_next w) Hb ltac:(unfold generated; set_solver) ltac:(lia)).
    cbn [opt_term]. rewrite (payout_term_pending _ _ user); unfold new_payout; jfields; try done.
    unfold at_. cbn. case_bool_decide; lia.
Qed.

(** What a resolution moves across the boundary of the system: a paid payout leaves it, unless the
    resolution was applied before. *)
Definition payout_flow (w : World) (input : ResolvePayoutInput) : Z :=
  if negb (is_empty (marker w (MPayoutResolution (vp_resolution_id input))))
     || bool_decide (vp_status input = lit "rejected") then 0
  else - opt_term (λ m, default 0 (amount_field m (lit "amount"))) (doc_at w DPayout (vp_payout_id input)).

(** Replace a pending payout by a resolved one. *)
Lemma books_resolve_payout p w id m input now owner amount :
  doc_at w DPayout id = Some m → field_str m (lit "status") = Some (lit "pending") →
  field_str m (lit "userId") = Some owner → default 0 (amount_field m (lit "amount")) = amount →
  vp_status input ∈ [lit "paid"; lit "rejected"] →
  books_off none p none w → (∀ u, p u = at_ owner (- amount) u) →
  books (put_row w DPayout id (resolved_payout m input now)).
Proof.
  intros Hd Hs Ho Ha Hst Hb Hp.
  assert (field_str (resolved_payout m input now) (lit "status") ∈ [Some (lit "paid"); Some (lit "rejected")])
    as Hnew.
  { unfold resolved_payout. jfields. apply list_elem_of_In in Hst as [<-|[<-|[]]]; set_solver. }
  eapply books_ext; [| | |eapply books_payout; [|left; by rewrite Hd|exact Hb]]; try done.
  - intros u. offsets. rewrite Hd. cbn [opt_term]. rewrite Hp, (payout_term_done _ (resolved_payout m input now)) by done.
    rewrite (payout_term_pending _ _ owner), Ha by done. unfold at_. case_bool_decide; lia.
  - intros Hpend. exfalso. rewrite Hpend in Hnew.
    apply list_elem_of_In in Hnew as [Hn|[Hn|[]]]; clash.
Qed.

Lemma payout_next_resolved w id m input now :
  doc_at w DPayout id = Some m → field_str m (lit "status") = Some (lit "pending") →
  vp_status input ∈ [lit "paid"; lit "rejected"] →
  ∀ old, doc_at w DPayout id = Some old → evolves DPayout old (resolved_payout m input now).
Proof.
  intros Hd Hs Hst old ?. simplify_eq. right. split; unfold resolved_payout; [keeping|].
  unfold has_status. jfields. split; [status_is|].
  apply list_elem_of_In in Hst as [<-|[<-|[]]]; [left|right]; status_is.
Qed.

Lemma return_payout_Ok user amount w u w' :
  typed w → return_payout user amount w = Ok (u, w') →
  typed w' ∧ wealth w' = wealth w + amount ∧ w_next w' = w_next w ∧ w_markers w' = w_markers w ∧
  (∀ d id, doc_at w' d id = doc_at w d id) ∧
  (∀ h p r, books_off h p r w → books_off h p r w').
Proof.
  intros Hw. unfold return_payout. intros Hr. tx_inv Hr. unchecked. autorewrite with fin in *.
  split_and!; try done; [typing|wealthy|]. intros h p r Hb. by walk_books.
Qed.

Lemma resolve_payout_step caller input w v w' :
  typed w → resolve_payout caller input w = Ok (v, w') → sound_step (payout_flow w input) w w'.
Proof.
  intros Hw. unfold resolve_payout. intros Hr. tx_inv Hr; read_docs; unfold payout_flow.
  { rewrite G1. by apply sound_refl. }
  all: rewrite G1, G4, ?Hdoc; cbn [orb opt_term]; unchecked; autorewrite with fin in *.
  all: assert (vp_status input ∈ [lit "paid"; lit "rejected"]) as Hst
         by (destruct (decide (vp_status input = lit "paid")) as [->|]; [set_solver|];
             destruct (decide (vp_status input = lit "rejected")) as [->|]; [set_solver|];
             exfalso; unbool; naive_solver).
  all: assert (field_str a (lit "userId") = Some (text_or_empty a (lit "userId"))) as Ho
         by (apply text_or_empty_Some; [done|]; intros E; rewrite E in G3; done).
  all: assert (field_str a (lit "status") = Some (lit "pending")) as Hs by (unbool; naive_solver).
  all: clear G G0 G2 G3 G4.
  - apply return_payout_Ok in Hm0 as (Tr & Wr & Nr & Mr & Dr & Br); [|typing].
    autorewrite with fin in Nr.
    split_and!; [typing|wealthy| |evolve; [|by apply (evolve_docs _ w), evolve_refl]|kept].
    2: by eapply payout_next_resolved.
    intros Hb. walk_books.
    eapply books_resolve_payout; [by rewrite Dr|done..|apply Br; walk_books; exact Hb|].
    intros u. offsets. at_cases; lia.
  - split_and!; [typing|wealthy| |evolve|kept]; [|by eapply payout_next_resolved]. intros Hb. walk_books.
    eapply books_resolve_payout; [done..|walk_books; exact Hb|].
    intros u. offsets. at_cases; lia.
Qed.

(** ** Adjustments, mints and transfers *)

Definition adjustment_flow (w : World) (input : PaymentAdjustmentInput) : Z :=
  if negb (is_empty (marker w (MPaymentAdjustment (pa_idempotency_key input)))) then 0
  else pa_amount input.

Lemma adjust_wallet_Ok user balance amount old_debt old_wd w r w' :
  typed w → stored_counter w Debt user = old_debt → 0 ≤ old_debt → 0 ≤ old_wd ≤ balance →
  in_i64 balance →
  adjust_wallet user balance amount old_debt old_wd w = Ok (r, w') →
  typed w' ∧ in_i64 r.1.1 ∧ wealth w' + r.1.1 = wealth w + balance + amount ∧
  (∀ id, bal w' id = bal w id) ∧ (∀ h p r, books_off h p r w → books_off h p r w') ∧
  w_next w' = w_next w ∧ w_markers w' = w_markers w ∧ (∀ d id, doc_at w' d id = doc_at w d id).
Proof.
  intros Hw <- Hd0 Hwd Hb. unfold adjust_wallet. intros Hr. tx_inv Hr; unchecked; unbool.
  all: try match goal with G : checked _ _ _ = Some _ |- _ => apply checked_Some in G as [-> ?] end.
  all: cbn [fst snd]; autorewrite with fin in *.
  all: pose proof (typed_counter _ Hw Debt user).
  2: assert (wrap_i64 (stored_counter w Debt user - stored_counter w Debt user `min` amount)
            = stored_counter w Debt user - stored_counter w Debt user `min` amount) as ->
       by (apply wrap_i64_id; ilia).
  all: cbn [weight]; split_and!; [typing|ilia|lia|done|intros h p r Hbk; by walk_books|done|done|done].
Qed.

Lemma payment_adjustment_step caller input w v w' :
  typed w → payment_adjustment caller input w = Ok (v, w') →
  sound_step (adjustment_flow w input) w w'.
Proof.
  intros Hw. unfold payment_adjustment. intros Hr. tx_inv Hr; unfold adjustment_flow.
  - rewrite G3. apply snapshot_Ok in Hm as ->. by apply sound_refl.
  - rewrite G3. apply snapshot_Ok in Hm0 as ->. unchecked. unbool.
    destruct (typed_balance _ Hw _ _ ltac:(eassumption)).
    apply adjust_wallet_Ok in Hm as (Ta & Hi & Wa & Ba & Bk & Na & Ma & Da); try done.
    cbn [fst] in *. split_and!; [typing| | |evolve; by apply (evolve_docs _ w), evolve_refl|kept].
    + intros _. autorewrite with fin. rewrite (wealth_balance _ _ _ (acc_balance a)); [lia|].
      by rewrite Ba.
    + intros Hb. walk_books. by apply Bk.
Qed.

Definition mint_flow (w : World) (input : MintInput) : Z :=
  if negb (is_empty (trim (mt_idempotency_key input)))
     && negb (is_empty (marker w (MMintApplied (trim (mt_idempotency_key input))))) then 0
  else mt_amount input.

Lemma mint_step caller input w v w' :
  typed w → mint caller input w = Ok (v, w') → sound_step (mint_flow w input) w w'.
Proof.
  intros Hw. unfold mint. intros Hr.
  tx_inv Hr; unfold mint_flow; rewrite G1; cbn [negb andb]; try done; rewrite ?G2.
  2: by apply sound_refl.
  all: unchecked; match goal with G : acc_id _ = _ |- _ => rewrite ?G in * end;
    autorewrite with fin in *; set (u := email_to_id w (mt_to_user_email input)) in *;
    pose proof (typed_counter _ Hw Debt u);
    assert (wrap_i64 (stored_counter w Debt u - stored_counter w Debt u `min` mt_amount input)
            = stored_counter w Debt u - stored_counter w Debt u `min` mt_amount input) as Hwrap
       by (apply wrap_i64_id; unbool; ilia);
    rewrite ?Hwrap in *.
  all: split_and!; [typing|wealthy|intros Hb; by walk_books|evolve|kept].
Qed.

Lemma transfer_step from input w v w' :
  typed w → transfer from input w = Ok (v, w') → sound_step 0 w w'.
Proof.
  intros Hw. unfold transfer. intros Hr. tx_inv Hr; unchecked; unbool.
  set (sent := saturating_sub_i64 (tr_amount input) _) in *; clearbody sent.
  repeat match goal with G : acc_id _ = _ |- _ => rewrite ?G in *; clear G end.
  autorewrite with fin in *.
  match goal with G : creature_id_by_username _ _ = Some ?l |- _ => rename l into to end.
  assert (in_i64 (acc_balance a)) by (by eapply typed_balance).
  set (used := saturating_sub_i64 _ _) in *; clearbody used. pose proof (typed_counter _ Hw Debt to).
  assert (wrap_i64 (stored_counter w Debt to - stored_counter w Debt to `min` tr_amount input)
          = stored_counter w Debt to - stored_counter w Debt to `min` tr_amount input) as Hw1
    by (apply wrap_i64_id; ilia).
  assert (wrap_i64 (tr_amount input - stored_counter w Debt to `min` tr_amount input)
          = tr_amount input - stored_counter w Debt to `min` tr_amount input) as Hw2
    by (apply wrap_i64_id; ilia).
  rewrite ?Hw1, ?Hw2 in *.
  split_and!; [typing|wealthy|intros Hb; by walk_books|evolve|kept].
Qed.

(** ** Token locks *)

(** The amounts of a schedule are [i64]s. *)
Definition lock_input_typed (input : LockTokenInput) : Prop :=
  in_i64 (lk_amount input) ∧ Forall (λ s, in_i64 (ls_amount s)) (lk_steps input).

Lemma open_step_lock_step a u : in_i64 a → open_step (lock_step a u) = a.
Proof.
  intros Ha. unfold open_step, lock_step, step_consumed. jfields.
  change (Some (Bool false) ≫= as_bool) with (Some false).
  change (Some (jint a) ≫= as_i64) with (as_i64 (jint a)). by rewrite as_i64_jint.
Qed.

Lemma lock_steps_Ok i steps w vs w' :
  Forall (λ s, in_i64 (ls_amount s)) steps → lock_steps i steps w = Ok (vs, w') →
  w' = w ∧ Forall (λ v, ∃ a u, in_i64 a ∧ v = lock_step a u) vs.
Proof.
  intros Hf. revert i vs w'. induction Hf as [|s steps Hs _ IH]; intros i vs w' Hr; cbn [lock_steps] in Hr.
  - apply ret_Ok in Hr as [-> ->]. done.
  - tx_inv Hr. apply IH in Hm as [-> Hvs]. split; [done|]. constructor; eauto.
Qed.

Lemma lock_total_Ok vs z t :
  Forall (λ v, ∃ a u, in_i64 a ∧ v = lock_step a u) vs → in_i64 z → lock_total vs z = Some t →
  t = z + sum_Z (open_step <$> vs) ∧ in_i64 t.
Proof.
  intros Hf. revert z. induction Hf as [|v vs (a & u & Ha & ->) _ IH]; intros z Hz; cbn [lock_total].
  - intros [= <-]. cbn. split; [lia|done].
  - assert (member (lit "amount") (lock_step a u) ≫= value_as_i64 = Some a) as ->.
    { unfold lock_step, member. jfields.
      change (Some (jint a) ≫= value_as_i64) with (value_as_i64 (jint a)). by apply value_as_i64_int. }
    cbn [from_option id]. destruct (checked_add_i64 z a) as [y|] eqn:Ey; [|done].
    apply checked_Some in Ey as [-> ?]. intros [-> ?]%IH; [|done]. split; [|done].
    change (sum_Z (open_step <$> lock_step a u :: vs))
      with (open_step (lock_step a u) + sum_Z (open_step <$> vs)). rewrite open_step_lock_step by done. lia.
Qed.

Lemma wealth_put_lock w o i d mg :
  ordered d → (∀ old, jget (lit "steps") d ≠ Some (Object old)) →
  is_Some (jget (lit "steps") d) →
  wealth (put_lock w o i d mg)
  = wealth w - opt_term locked (lock w o i) + locked d.
Proof.
  intros Hnd Hno [v Hv]. unfold wealth, put_lock, lock. cbn [w_accounts w_balances w_locks set_locks].
  rewrite msum_insert. unfold mterm.
  assert (∀ t, locked (merge_objects t d) = locked d) as Hl.
  { intros t. unfold locked. rewrite jget_merge_objects, Hv by (by apply ordered_NoDup).
    destruct v; try by destruct (jget (lit "steps") t) as [[]|].
    all: by exfalso; eapply Hno. }
  destruct (w_locks w !! lock_key o i) as [l|]; cbn [lock_document fmap option_fmap option_map opt_term];
    rewrite Hl; lia.
Qed.

(** Filing a lock under a generated identifier keeps the books. *)
Definition lock_filed (w : World) (o i : str) : Prop :=
  ∃ owner n, (n < w_next w)%nat ∧ lock_key o i = lock_key owner (id_at n).
Lemma books_put_lock h p r w o i d mg :
  lock_filed w o i → books_off h p r w → books_off h p r (put_lock w o i d mg).
Proof.
  intros Hn Hb. apply books_locks; [|done]. intros key l [[<- <-]|[_ Hl]]%lookup_insert_Some;
    [|by apply (bk_locks _ _ _ _ Hb)].
  split; [done|].
  destruct (w_locks w !! lock_key o i) eqn:E; cbn [lock_document]; apply merge_objects_ordered;
    destruct mg; try by constructor.
  - unfold lock. rewrite E. by apply (bk_locks _ _ _ _ Hb) in E as [_ ?].
  - unfold lock. rewrite E. by constructor.
Qed.
Lemma books_delete_lock h p r w o i : books_off h p r w → books_off h p r (delete_lock w o i).
Proof.
  intros Hb. apply books_locks; [|done]. intros key l [_ Hl]%lookup_delete_Some.
  by apply (bk_locks _ _ _ _ Hb).
Qed.
Lemma wealth_delete_lock w o i : wealth (delete_lock w o i) = wealth w - opt_term locked (lock w o i).
Proof.
  unfold wealth, delete_lock, lock. cbn [w_accounts w_balances w_locks set_locks].
  rewrite msum_delete. unfold mterm. destruct (w_locks w !! lock_key o i); cbn; lia.
Qed.
Lemma lock_found h p r w o i d :
  books_off h p r w → lock w o i = Some d → lock_filed w o i ∧ ordered d.
Proof.
  intros Hb. unfold lock. destruct (w_locks w !! lock_key o i) as [l|] eqn:E; [|done].
  intros [= <-]. by apply (bk_locks _ _ _ _ Hb) in E.
Qed.

(** No lock is filed under an identifier to come. *)
Lemma fresh_lock h p r w o n : books_off h p r w → (w_next w ≤ n)%nat → lock w o (id_at n) = None.
Proof.
  intros Hb Hn. unfold lock. destruct (w_locks w !! lock_key o (id_at n)) eqn:E; [|done].
  apply (bk_locks _ _ _ _ Hb) in E as [(o' & k & Hk & He%lock_key_inj) _]. lia.
Qed.

Lemma account_or_empty_Ok id w a w' :
  account_or_empty id w = Ok (a, w') → w' = w ∧ a = {| acc_id := id; acc_balance := default 0 (bal w id) |}.
Proof. unfold account_or_empty. intros Hr. tx_inv Hr. split; [done|]. by destruct (bal w id). Qed.

Lemma lock_token_step user input w v w' :
  lock_input_typed input → typed w → lock_token user input w = Ok (v, w') → sound_step 0 w w'.
Proof.
  intros [Ha Hs] Hw. unfold lock_token. intros Hr.
  apply bind_Ok in Hr as (acc & w1 & [-> ->]%account_or_empty_Ok & Hr).
  apply bind_Ok in Hr as (vs & w2 & Hvs & Hr).
  assert (w2 = w ∧ Forall (λ v, ∃ a u, in_i64 a ∧ v = lock_step a u) vs) as [-> Hf].
  { tx_inv Hvs; [|by eapply lock_steps_Ok]. split; [done|]. repeat constructor. eauto. }
  cbv beta zeta in Hr. tx_inv Hr. unchecked. autorewrite with fin in *. cbn [acc_id acc_balance] in *.
  destruct (lock_total_Ok vs 0 a Hf ltac:(done) ltac:(done)) as [-> Hin].
  match goal with G : is_Some (bal w user) |- _ => destruct G as [b Hbal] end.
  rewrite Hbal in *. cbn [from_option id] in *. split_and!; [| | |evolve|kept].
  - typing.
  - intros Hb. rewrite wealth_put_lock; [|apply jobject_ordered|by jfields|by jfields].
    change (lock _ user ?i) with (lock w user i). rewrite (fresh_lock _ _ _ _ _ _ Hb (le_n _)).
    autorewrite with fin. erewrite wealth_balance by done. unfold locked. jfields. cbn [opt_term]. lia.
  - intros Hb. apply books_put_lock; [exists user, (w_next w); split; [cbn; lia|done]|].
    walk_books. exact Hb.
Qed.

(** The amount of a step as the scan reads it. *)
Definition step_amount (st : Map) : Z := default 0 (jget (lit "amount") st ≫= as_i64).

Lemma scan_Ok now amount raw acc w sc w' :
  each (scan_step now amount) acc raw w = Ok (sc, w') →
  w' = w ∧ ∃ steps, raw = Object <$> steps ∧ sc_steps sc = sc_steps acc ++ steps ∧
    sc_amounts sc = sc_amounts acc ++ (step_amount <$> steps) ∧ Forall (λ st, 0 < step_amount st) steps.
Proof.
  revert acc. induction raw as [|v raw IH]; intros acc Hr; cbn [each] in Hr.
  - apply ret_Ok in Hr as [-> ->]. split; [done|]. exists []. by rewrite !app_nil_r.
  - apply bind_Ok in Hr as (acc1 & w1 & Hs & Hr). unfold scan_step in Hs. tx_inv Hs. unbool.
    apply IH in Hr as (-> & steps & -> & Hst & Ham & Hf). cbn [sc_steps sc_amounts] in *.
    split; [done|]. exists (a :: steps). destruct v; try done.
    match goal with G : as_object _ = Some _ |- _ => injection G as -> end.
    rewrite Hst, Ham. rewrite <- !app_assoc. split_and!; try done. by constructor.
Qed.

Lemma open_step_Object st : open_step (Object st) = if step_consumed st then 0 else step_amount st.
Proof. done. Qed.

(** The loop over the open steps adds what they lock. *)
Lemma open_amount_Ok steps amounts z r :
  length amounts = length steps →
  (∀ i st a, steps !! i = Some st → amounts !! i = Some a → step_consumed st = false → a = step_amount st) →
  open_amount steps amounts z = Some r → r = z + sum_Z (open_step <$> (Object <$> steps)).
Proof.
  revert amounts z. induction steps as [|st steps IH]; intros [|a amounts] z Hl Ha; cbn [open_amount];
    try done.
  - intros [= <-]. cbn. lia.
  - change (sum_Z (open_step <$> (Object <$> st :: steps)))
      with (open_step (Object st) + sum_Z (open_step <$> (Object <$> steps))).
    rewrite open_step_Object.
    assert (∀ z, open_amount steps amounts z = Some r →
                 r = z + sum_Z (open_step <$> (Object <$> steps))) as IH'.
    { intros z'. apply IH; [by injection Hl|]. intros i. apply (Ha (S i)). }
    destruct (step_consumed st) eqn:Ec; [intros ->%IH'; lia|].
    pose proof (Ha 0%nat st a eq_refl eq_refl Ec) as ->.
    destruct (checked_add_i64 z (step_amount st)) as [y|] eqn:Ey; [|done].
    apply checked_Some in Ey as [-> _]. intros ->%IH'. lia.
Qed.

Lemma sum_insert {A} (f : A → Z) (l : list A) i x y :
  l !! i = Some x → sum_Z (f <$> <[i := y]> l) = sum_Z (f <$> l) - f x + f y.
Proof.
  revert i. induction l as [|z l IH]; intros [|i]; try done.
  - cbn. intros [= ->]. lia.
  - intros Hi. change (f z + sum_Z (f <$> <[i := y]> l) = f z + sum_Z (f <$> l) - f x + f y).
    rewrite (IH i Hi). lia.
Qed.

(** The step that a consumption closes. *)
Definition closed_step (now : i64) (step : Map) : Map :=
  jinsert (lit "consumedAt") (jint now) (jinsert (lit "consumed") (Bool true) step).
Lemma closed_step_consumed now step : step_consumed (closed_step now step) = true.
Proof. unfold step_consumed, closed_step. by jfields. Qed.

(** Closing one open step takes its amount out of the lock. *)
Lemma close_step_Ok steps now i st r :
  steps !! i = Some st → step_consumed st = false →
  open_amount (<[i := closed_step now st]> steps) (step_amount <$> steps) 0 = Some r →
  r = sum_Z (open_step <$> (Object <$> <[i := closed_step now st]> steps)) ∧
  r = sum_Z (open_step <$> (Object <$> steps)) - step_amount st.
Proof.
  intros Hi Hc Ho. apply open_amount_Ok in Ho.
  - split; [lia|]. rewrite Ho. rewrite list_fmap_insert.
    rewrite (sum_insert _ _ _ (Object st)) by (by rewrite list_lookup_fmap, Hi).
    rewrite !open_step_Object, closed_step_consumed, Hc. lia.
  - by rewrite length_fmap, length_insert.
  - intros j s' a Hs Ha Hc'. rewrite list_lookup_fmap in Ha.
    destruct (decide (i = j)) as [<-|Hne].
    + rewrite list_lookup_insert_eq in Hs by (by eapply lookup_lt_Some).
      injection Hs as <-. by rewrite closed_step_consumed in Hc'.
    + rewrite list_lookup_insert_ne in Hs by done. rewrite Hs in Ha. by injection Ha.
Qed.

Lemma consume_lock_step auth caller input w v w' :
  typed w → consume_lock auth caller input w = Ok (v, w') → sound_step 0 w w'.
Proof.
  intros Hw. unfold consume_lock. intros Hr.
  apply bind_Ok in Hr as (acc & w1 & [-> ->]%account_or_empty_Ok & Hr).
  cbv beta zeta in Hr. tx_inv Hr.
  all: apply account_or_empty_Ok in Hm as [-> ->]; cbn [acc_id acc_balance] in *.
  all: apply scan_Ok in Hm0 as (-> & steps & -> & Hst & Ham & _); cbn [sc_steps sc_amounts app] in *.
  all: rewrite Hst, Ham in *; clear Hst Ham G7.
  all: apply checked_Some in H2 as [-> Hin]; destruct H3 as [b Hb0]; rewrite Hb0 in *.
  all: cbn [from_option id] in *; set (i := Z.to_nat (sc_index a1)) in *.
  all: assert (i < length steps)%nat as Hi by (unbool; lia).
  all: destruct (lookup_lt_is_Some_2 _ _ Hi) as [st Hsti].
  all: rewrite (nth_lookup_Some steps i _ st Hsti) in *.
  all: rewrite (nth_lookup_Some (step_amount <$> steps) i _ (step_amount st)) in *
         by (by rewrite list_lookup_fmap, Hsti).
  all: apply close_step_Ok in H4 as [Hr1 Hr2]; [|done..].
  all: assert (cl_amount input = step_amount st) as -> by (unbool; done); unbool.
  all: split_and!; [typing| | |evolve|kept].
  - intros _. rewrite wealth_delete_lock. change (lock (put_balance _ _ _)) with (lock w).
    rewrite H1, (wealth_balance _ _ _ b) by done. cbn [opt_term]. unfold locked. rewrite G1. lia.
  - intros Hb. apply books_delete_lock. walk_books. exact Hb.
  - intros Hb. destruct (lock_found _ _ _ _ _ _ _ Hb H1) as [_ Ho].
    rewrite wealth_put_lock; [|by repeat apply jinsert_ordered|by jfields|by jfields].
    change (lock (put_balance _ _ _)) with (lock w).
    rewrite H1, (wealth_balance _ _ _ b) by done. cbn [opt_term]. unfold locked. jfields. rewrite G1.
    fold (closed_step (w_now w) st). lia.
  - intros Hb. destruct (lock_found _ _ _ _ _ _ _ Hb H1) as [Hf _].
    apply books_put_lock; [done|]. walk_books. exact Hb.
Qed.
End books.
