(* ===== verification/FinanceAudit.v ===== *)
(** The reconciliation report ([reconcile_financial_system] in
    [aseman-application/src/finance/actions.rs]): it adds up the finance documents, compares the
    totals with the wallet counters and the pool and project documents, and lists what differs.

    Each loop of the use case is a definition: [audit_hold], [audit_pool], [audit_reservation],
    [audit_live_debit], [audit_pool_reserved], [audit_payout], [audit_withdrawable],
    [audit_project], and [compare_counter] for the comparisons of a counter with its expected
    totals. *)

From S2P Require Import Prelude Text Core Ports BTree Json FinanceLedger FinanceHelpers.
From S2P Require Import FinanceHolds FinancePools.

Open Scope Z_scope.
Open Scope tx_scope.

(** ** Numbers as text *)

(** [str::parse::<i64>]. *)
Definition digit_value (c : char) : option Z :=
  if is_ascii_digit c then Some (Z.of_N (c - 48)) else None.
Fixpoint digits_value (acc : Z) (s : str) : option Z :=
  match s with
  | [] => Some acc
  | c :: s => digit_value c ≫= λ d, digits_value (10 * acc + d) s
  end.
Definition parse_i64 (s : str) : option i64 :=
  let '(sign, digits) :=
    match s with
    | c :: s' => if bool_decide (c = chr "-") then (-1, s')
                 else if bool_decide (c = chr "+") then (1, s') else (1, s)
    | [] => (1, s)
    end in
  if is_empty digits then None
  else digits_value 0 digits ≫= λ n, checked i64_min i64_max (sign * n).

Lemma digit_value_pretty d :
  (d < 10)%N → digit_value (N_of_ascii (pretty_N_char d)) = Some (Z.of_N d).
Proof.
  intros Hd. destruct d as [|p]; [done|]. repeat (destruct p as [p|p|]; try done); lia.
Qed.

Lemma digits_value_String acc c s :
  digits_value acc (lit (String c s)) =
  digit_value (N_of_ascii c) ≫= λ d, digits_value (10 * acc + d) (lit s).
Proof. done. Qed.

Lemma digits_value_go x s :
  (0 < x)%N → digits_value 0 (lit (pretty_N_go x s)) = digits_value (Z.of_N x) (lit s).
Proof.
  revert s. induction (N.lt_wf_0 x) as [x _ IH]; intros s Hx. rewrite pretty_N_go_step by lia.
  assert (Z.of_N x = 10 * Z.of_N (x / 10) + Z.of_N (x mod 10)) as Hdm
    by (pose proof (N.div_mod' x 10); lia).
  pose proof (digit_value_pretty (x mod 10) (N.mod_lt x 10 ltac:(lia))) as Hd.
  destruct (decide (x / 10 = 0)%N) as [Hz|Hz].
  - rewrite Hz, pretty_N_go_0, digits_value_String, Hd. cbn [mbind option_bind]. f_equal. lia.
  - rewrite IH by (first [apply N.div_lt; lia|lia]). rewrite digits_value_String, Hd.
    cbn [mbind option_bind]. f_equal. lia.
Qed.

Lemma pretty_N_first x : (0 < x)%N → ∃ c s, lit (pretty_N_go x "") = c :: s ∧ is_ascii_digit c = true.
Proof.
  intros Hx. destruct (lit (pretty_N_go x "")) as [|c s] eqn:E.
  - pose proof (digits_value_go x "" Hx) as He. rewrite E in He. injection He. lia.
  - exists c, s. split; [done|].
    destruct (pretty_N_go_digits x "" c) as [H|H]; [rewrite E; left|done|by apply not_elem_of_nil in H].
Qed.

Lemma parse_i64_digits c s :
  is_ascii_digit c = true →
  parse_i64 (c :: s) = digits_value 0 (c :: s) ≫= λ n, checked i64_min i64_max (1 * n).
Proof.
  intros Hc. unfold parse_i64. by rewrite !bool_decide_eq_false_2 by (intros ->; done).
Qed.
Lemma parse_i64_minus c s :
  parse_i64 (chr "-" :: c :: s) = digits_value 0 (c :: s) ≫= λ n, checked i64_min i64_max (-1 * n).
Proof. done. Qed.

(** The text a counter is listed with reads back. *)
Lemma parse_i64_show z : in_i64 z → parse_i64 (show z) = Some z.
Proof.
  intros Hz. destruct z as [|p|p]; [done| |];
    destruct (pretty_N_first (Npos p)) as (c & s & E & Hc); try lia;
    pose proof (digits_value_go (Npos p) "" ltac:(lia)) as Hv; rewrite E in Hv.
  - change (show (Z.pos p)) with (lit (pretty_N_go (Npos p) "")). rewrite E, parse_i64_digits, Hv by done.
    apply checked_in. done.
  - change (show (Z.neg p)) with (chr "-" :: lit (pretty_N_go (Npos p) "")). rewrite E, parse_i64_minus, Hv.
    apply checked_in. done.
Qed.

(** ** The report in progress *)

Section audit.
Context `{Platform} (max_issues : nat).

Definition issue (code reference detail : str) : value :=
  Object (jobject [(lit "code", jtext code); (lit "reference", jtext reference);
                   (lit "detail", jtext detail)]).

(** The [report] closure: issues past the limit are dropped. *)
Definition report (code reference detail : str) (issues : list value) : list value :=
  if (length issues <? max_issues)%nat then issues ++ [issue code reference detail] else issues.

(** The variables the document loops share. *)
Record audit := {
  au_issues : list value;
  au_held : gmap str i64;
  au_project_reserved : gmap str i64;
  au_project_spent : gmap str i64;
  au_spent : gmap str i64;
  au_earned : gmap str i64;
  au_holds : i64;
  au_active_holds : i64;
}.
Definition audit_start : audit :=
  {| au_issues := []; au_held := ∅; au_project_reserved := ∅; au_project_spent := ∅;
     au_spent := ∅; au_earned := ∅; au_holds := 0; au_active_holds := 0 |}.

(** The total that [finance_map_add] adds to. *)
Inductive total := THeld | TProjectReserved | TProjectSpent | TSpent | TEarned.
Definition au_total (a : audit) (t : total) : gmap str i64 :=
  match t with
  | THeld => au_held a | TProjectReserved => au_project_reserved a
  | TProjectSpent => au_project_spent a | TSpent => au_spent a | TEarned => au_earned a
  end.
Definition put_total (a : audit) (t : total) (m : gmap str i64) : audit :=
  {| au_issues := au_issues a;
     au_held := match t with THeld => m | _ => au_held a end;
     au_project_reserved := match t with TProjectReserved => m | _ => au_project_reserved a end;
     au_project_spent := match t with TProjectSpent => m | _ => au_project_spent a end;
     au_spent := match t with TSpent => m | _ => au_spent a end;
     au_earned := match t with TEarned => m | _ => au_earned a end;
     au_holds := au_holds a; au_active_holds := au_active_holds a |}.
Definition put_issues (a : audit) (issues : list value) : audit :=
  {| au_issues := issues; au_held := au_held a; au_project_reserved := au_project_reserved a;
     au_project_spent := au_project_spent a; au_spent := au_spent a; au_earned := au_earned a;
     au_holds := au_holds a; au_active_holds := au_active_holds a |}.
Definition put_counts (a : audit) (holds active : i64) : audit :=
  {| au_issues := au_issues a; au_held := au_held a; au_project_reserved := au_project_reserved a;
     au_project_spent := au_project_spent a; au_spent := au_spent a; au_earned := au_earned a;
     au_holds := holds; au_active_holds := active |}.

Definition complain (code reference detail : str) (a : audit) : audit :=
  put_issues a (report code reference detail (au_issues a)).

(** [if !finance_map_add(&mut total, key, amount) { report(code, reference, detail) }]. *)
Definition tally (t : total) (key : str) (amount : i64) (code reference detail : str) (a : audit)
    : audit :=
  match finance_map_add (au_total a t) key amount with
  | Some m => put_total a t m
  | None => complain code reference detail a
  end.

(** An amount, or what the code takes an unreadable one for. *)
Definition amount_or (d : i64) (m : Map) (field : str) : i64 := default d (amount_field m field).

(** ** Holds *)

(** One settlement line, whose amount is added to what its beneficiary earned. *)
Definition audit_line (code reference detail : str) (st : audit * i64) (line : value)
    : audit * i64 :=
  let '(a, line_total) := st in
  let user_id := default [] (member (lit "userId") line ≫= as_str) in
  let amount := default (-1) (as_i64 (default Null (member (lit "amount") line))) in
  match (if amount <=? 0 then None else finance_map_add (au_earned a) user_id amount) with
  | None => (complain code reference detail a, line_total)
  | Some m => (put_total a TEarned m, default i64_max (checked_add_i64 line_total amount))
  end.
Definition settlement_lines (m : Map) : list value :=
  default [] (jget (lit "settlementLines") m ≫= as_array).

Definition audit_settled_hold (hold_id payer project : str) (hold : Map) (max_amount remaining : i64)
    (a : audit) : audit :=
  let actual := amount_or (-1) hold (lit "actualAmount") in
  let refunded := amount_or (-1) hold (lit "refundedAmount") in
  if negb (remaining =? 0) || (actual <? 0) || (refunded <? 0)
     || negb (bool_decide (checked_add_i64 actual refunded = Some max_amount))
  then complain (lit "hold.settlement_mismatch") hold_id
         (lit "actual=" ++ show actual ++ lit ", refunded=" ++ show refunded ++ lit ", max="
          ++ show max_amount ++ lit ", remaining=" ++ show remaining) a
  else
    let '(a, line_total) :=
      foldl (audit_line (lit "settlement.line_invalid") hold_id
               (lit "invalid beneficiary settlement line")) (a, 0) (settlement_lines hold) in
    let a := if line_total =? actual then a
             else complain (lit "settlement.lines_mismatch") hold_id
                    (lit "lines=" ++ show line_total ++ lit ", actual=" ++ show actual) a in
    let a := tally TSpent payer actual (lit "spent.overflow") payer
               (lit "expected spent counter overflow") a in
    if is_empty project then a
    else tally TProjectSpent project actual (lit "project.spent_overflow") project
           (lit "expected project spend overflow") a.

Definition audit_active_hold (hold_id payer project : str) (max_amount remaining : i64) (a : audit)
    : audit :=
  let a := put_counts a (au_holds a) (wrap_i64 (au_active_holds a + 1)) in
  let a := if remaining =? max_amount then a
           else complain (lit "hold.remaining_mismatch") hold_id
                  (lit "remaining=" ++ show remaining ++ lit ", max=" ++ show max_amount) a in
  let a := tally THeld payer max_amount (lit "held.overflow") payer
             (lit "expected held balance overflow") a in
  if is_empty project then a
  else tally TProjectReserved project max_amount (lit "project.reserved_overflow") project
         (lit "expected reservation overflow") a.

Definition audit_hold (w : World) (a : audit) (hold_id : str) : audit :=
  match get_doc w DHold hold_id (lit "hold") with
  | Err _ => complain (lit "hold.unreadable") hold_id (lit "hold JSON cannot be read") a
  | Ok hold =>
      let a := put_counts a (wrap_i64 (au_holds a + 1)) (au_active_holds a) in
      let payer := text_or_empty hold (lit "payerUserId") in
      let project := text_or_empty hold (lit "projectId") in
      let status := text_or_empty hold (lit "status") in
      let max_amount := amount_or (-1) hold (lit "maxAmount") in
      let remaining := amount_or (-1) hold (lit "remainingAmount") in
      if is_empty payer || (max_amount <=? 0)
      then complain (lit "hold.invalid") hold_id (lit "payer or maxAmount is invalid") a
      else if bool_decide (status ∈ [lit "open"; lit "running"])
      then audit_active_hold hold_id payer project max_amount remaining a
      else if bool_decide (status = lit "settled")
      then audit_settled_hold hold_id payer project hold max_amount remaining a
      else if bool_decide (status ∈ [lit "released"; lit "expired"])
      then
        let refunded := amount_or (-1) hold (lit "refundedAmount") in
        if negb (remaining =? 0) || negb (refunded =? max_amount)
        then complain (lit "hold.release_mismatch") hold_id
               (lit "refunded=" ++ show refunded ++ lit ", max=" ++ show max_amount
                ++ lit ", remaining=" ++ show remaining) a
        else a
      else complain (lit "hold.status_invalid") hold_id (lit "status=" ++ status) a
  end.

(** ** Pools, reservations and live debits *)

Definition audit_pool (w : World) (a : audit) (pool_id : str) : audit :=
  match get_doc w DPool pool_id (lit "pool") with
  | Err _ => complain (lit "pool.unreadable") pool_id (lit "pool JSON cannot be read") a
  | Ok pool =>
      let payer := text_or_empty pool (lit "payerUserId") in
      let status := text_or_empty pool (lit "status") in
      let max_amount := amount_or (-1) pool (lit "maxAmount") in
      let remaining := amount_or (-1) pool (lit "remaining") in
      let reserved := amount_or (-1) pool (lit "reserved") in
      let spent := amount_or (-1) pool (lit "spent") in
      let refunded := amount_or (-1) pool (lit "refunded") in
      if is_empty payer || (max_amount <? 0) || (remaining <? 0) || (reserved <? 0) || (spent <? 0)
         || (refunded <? 0)
      then complain (lit "pool.invalid") pool_id (lit "payer or pool amounts are invalid") a
      else
        let sum := checked_add_i64 remaining reserved ≫= λ v, checked_add_i64 v spent ≫= λ v,
                   checked_add_i64 v refunded in
        let a := if bool_decide (sum = Some max_amount) then a
                 else complain (lit "pool.balance_mismatch") pool_id
                        (lit "remaining=" ++ show remaining ++ lit ", reserved=" ++ show reserved
                         ++ lit ", spent=" ++ show spent ++ lit ", refunded=" ++ show refunded
                         ++ lit ", max=" ++ show max_amount) a in
        if bool_decide (status = lit "open")
        then tally THeld payer (saturating_add_i64 remaining reserved) (lit "held.overflow") payer
               (lit "expected held (pool) overflow") a
        else a
  end.

(** The reservations also build the expected reserved amount of each pool. *)
Definition audit_reservation (w : World) (st : audit * gmap str i64) (run_id : str)
    : audit * gmap str i64 :=
  let '(a, pool_reserved) := st in
  match get_doc w DPoolReservation run_id (lit "reservation") with
  | Err _ => (complain (lit "reservation.unreadable") run_id (lit "reservation JSON cannot be read") a,
              pool_reserved)
  | Ok reservation =>
      let payer := text_or_empty reservation (lit "payerUserId") in
      let pool_id := text_or_empty reservation (lit "poolId") in
      let status := text_or_empty reservation (lit "status") in
      let amount := amount_or (-1) reservation (lit "amount") in
      if is_empty payer || is_empty pool_id || (amount <? 0)
      then (complain (lit "reservation.invalid") run_id (lit "reservation fields are invalid") a,
            pool_reserved)
      else if bool_decide (status = lit "reserved") then
        match finance_map_add pool_reserved pool_id amount with
        | Some m => (a, m)
        | None => (complain (lit "reservation.overflow") pool_id
                     (lit "expected pool reserved overflow") a, pool_reserved)
        end
      else if bool_decide (status = lit "settled") then
        let actual := amount_or (-1) reservation (lit "actualAmount") in
        if actual <? 0
        then (complain (lit "reservation.settlement_invalid") run_id
                (lit "settled reservation missing actualAmount") a, pool_reserved)
        else
          let '(a, line_total) :=
            foldl (audit_line (lit "reservation.line_invalid") run_id
                     (lit "invalid pool settlement line")) (a, 0) (settlement_lines reservation) in
          let a := if line_total =? actual then a
                   else complain (lit "reservation.lines_mismatch") run_id
                          (lit "lines=" ++ show line_total ++ lit ", actual=" ++ show actual) a in
          (tally TSpent payer actual (lit "spent.overflow") payer
             (lit "expected spent (pool) overflow") a, pool_reserved)
      else if bool_decide (status = lit "released") then (a, pool_reserved)
      else (complain (lit "reservation.status_invalid") run_id (lit "status=" ++ status) a,
            pool_reserved)
  end.

(** [cap_key.split('|').next()]. *)
Definition first_part (cap_key : str) : str :=
  match split_once (chr "|") cap_key with Some (user_id, _) => user_id | None => cap_key end.

Definition audit_credit (run_id : str) (st : audit * i64) (credit : str * value) : audit * i64 :=
  let '(a, credit_total) := st in
  let user_id := first_part credit.1 in
  let amount := default (-1) (value_as_i64 credit.2) in
  match (if is_empty user_id || (amount <=? 0) then None
         else finance_map_add (au_earned a) user_id amount) with
  | None => (complain (lit "livedebit.credit_invalid") run_id (lit "invalid live debit credit") a,
             credit_total)
  | Some m => (put_total a TEarned m, default i64_max (checked_add_i64 credit_total amount))
  end.

Definition audit_live_debit (w : World) (a : audit) (run_id : str) : audit :=
  match get_doc w DLiveDebit run_id (lit "debit") with
  | Err _ => complain (lit "livedebit.unreadable") run_id (lit "live debit JSON cannot be read") a
  | Ok record =>
      let payer := text_or_empty record (lit "payerUserId") in
      let charged := amount_or (-1) record (lit "chargedTotal") in
      if is_empty payer || (charged <? 0)
      then complain (lit "livedebit.invalid") run_id (lit "live debit fields are invalid") a
      else
        let credits := default [] (jget (lit "credits") record ≫= as_object) in
        let '(a, credit_total) := foldl (audit_credit run_id) (a, 0) credits in
        let a := if credit_total =? charged then a
                 else complain (lit "livedebit.credit_mismatch") run_id
                        (lit "credits=" ++ show credit_total ++ lit ", charged=" ++ show charged) a in
        tally TSpent payer charged (lit "spent.overflow") payer
          (lit "expected spent (live debit) overflow") a
  end.

Definition stored_expected (stored expected : i64) : str :=
  lit "stored=" ++ show stored ++ lit ", expected=" ++ show expected.

Definition audit_pool_reserved (w : World) (pool_reserved : gmap str i64) (issues : list value)
    (pool_id : str) : list value :=
  match get_doc w DPool pool_id (lit "pool") with
  | Err _ => issues
  | Ok pool =>
      let stored := amount_or 0 pool (lit "reserved") in
      let expected := default 0 (pool_reserved !! pool_id) in
      if stored =? expected then issues
      else report (lit "pool.reserved_mismatch") pool_id (stored_expected stored expected) issues
  end.

(** ** Counters *)

(** One stored counter: it is read back from its text, and must not be negative. *)
Definition read_counter (code : str) (detail : str → str) (st : gmap str i64 * list value)
    (link : str * str) : gmap str i64 * list value :=
  let '(actual, issues) := st in
  match parse_i64 link.2 with
  | Some value => if 0 <=? value then (<[link.1 := value]> actual, issues)
                  else (actual, report code link.1 (detail link.2) issues)
  | None => (actual, report code link.1 (detail link.2) issues)
  end.

Definition compare_user (code : str) (expected actual : gmap str i64) (issues : list value)
    (user : str) : list value :=
  let expected_value := default 0 (expected !! user) in
  let actual_value := default 0 (actual !! user) in
  if actual_value =? expected_value then issues
  else report code user (stored_expected actual_value expected_value) issues.

(** The stored counters of a kind against the expected totals, over the users of either in order
    ([keys.chain(keys)], sorted and deduplicated). *)
Definition compare_counter (w : World) (kind : WalletCounter) (invalid_code mismatch_code : str)
    (detail : str → str) (expected : gmap str i64) (issues : list value) : list value :=
  let '(actual, issues) :=
    foldl (read_counter invalid_code detail) (∅, issues) (counter_links w kind) in
  foldl (compare_user mismatch_code expected actual) issues (btree_iter (dom expected ∪ dom actual)).

(** ** Payouts *)

Record payouts := { py_expected : gmap str i64; py_count : i64; py_pending : i64 }.

Definition audit_payout (w : World) (st : payouts * list value) (payout_id : str)
    : payouts * list value :=
  let '(p, issues) := st in
  match get_doc w DPayout payout_id (lit "payout") with
  | Err _ => (p, report (lit "payout.unreadable") payout_id (lit "payout JSON cannot be read") issues)
  | Ok payout =>
      let count := wrap_i64 (py_count p + 1) in
      if bool_decide (field_str payout (lit "status") = Some (lit "pending")) then
        let pending := wrap_i64 (py_pending p + 1) in
        let user_id := text_or_empty payout (lit "userId") in
        let amount := amount_or (-1) payout (lit "amount") in
        match (if amount <=? 0 then None else finance_map_add (py_expected p) user_id amount) with
        | Some m => ({| py_expected := m; py_count := count; py_pending := pending |}, issues)
        | None => ({| py_expected := py_expected p; py_count := count; py_pending := pending |},
                   report (lit "payout.invalid") payout_id
                     (lit "pending payout owner or amount is invalid") issues)
        end
      else ({| py_expected := py_expected p; py_count := count; py_pending := py_pending p |}, issues)
  end.

(** ** Withdrawable balances *)

Definition audit_withdrawable (w : World) (st : i64 * list value) (link : str * str)
    : i64 * list value :=
  let '(total, issues) := st in
  let withdrawable := default (-1) (parse_i64 link.2) in
  let available := bal w link.1 in
  let exceeds := match available with Some available => available <? withdrawable | None => true end in
  let issues :=
    if (withdrawable <? 0) || exceeds
    then report (lit "withdrawable.invalid") link.1
           (lit "withdrawable=" ++ show withdrawable ++ lit ", available=" ++ show (default 0 available))
           issues
    else issues in
  (if 0 <? withdrawable then saturating_add_i64 total withdrawable else total, issues).

(** ** Projects *)

Definition audit_project (w : World) (a : audit) (issues : list value) (project : str) : list value :=
  let state := match get_doc w DProjectBudget project (lit "budget") with Ok m => m | Err _ => [] end in
  let stored_reserved := amount_or 0 state (lit "reservedMinor") in
  let stored_spent := amount_or 0 state (lit "spentMinor") in
  let expected_reserved := default 0 (au_project_reserved a !! project) in
  let expected_spent := default 0 (au_project_spent a !! project) in
  let issues :=
    if stored_reserved =? expected_reserved then issues
    else report (lit "project.reserved_mismatch") project
           (stored_expected stored_reserved expected_reserved) issues in
  if stored_spent <? expected_spent
  then report (lit "project.spent_undercount") project
         (lit "stored=" ++ show stored_spent ++ lit ", minimum=" ++ show expected_spent) issues
  else issues.

(** ** The report *)

(** The loops over the documents, with the expected reserved amount of each pool. *)
Definition audit_documents (w : World) : audit * gmap str i64 :=
  let a := foldl (audit_hold w) audit_start (doc_ids w DHold) in
  let a := foldl (audit_pool w) a (doc_ids w DPool) in
  let '(a, pool_reserved) := foldl (audit_reservation w) (a, ∅) (doc_ids w DPoolReservation) in
  (foldl (audit_live_debit w) a (doc_ids w DLiveDebit), pool_reserved).

(** Pool reservations, and the held and payout-held counters. *)
Definition audit_balances (w : World) (a : audit) (pool_reserved : gmap str i64)
    : payouts * list value :=
  let issues := foldl (audit_pool_reserved w pool_reserved) (au_issues a) (doc_ids w DPool) in
  let issues := compare_counter w Held (lit "held.invalid") (lit "held.mismatch")
                  (λ raw, lit "stored=" ++ raw) (au_held a) issues in
  let '(p, issues) :=
    foldl (audit_payout w) ({| py_expected := ∅; py_count := 0; py_pending := 0 |}, issues)
          (doc_ids w DPayout) in
  (p, compare_counter w PayoutHeld (lit "payout.held_invalid") (lit "payout.held_mismatch")
        (λ _, lit "stored payout held amount is invalid") (py_expected p) issues).

(** Withdrawable balances, what was spent and earned, and the project budgets. *)
Definition audit_flows (w : World) (a : audit) (issues : list value) : list value :=
  let '(total_withdrawable, issues) :=
    foldl (audit_withdrawable w) (0, issues) (counter_links w Withdrawable) in
  let total_earned := foldl (λ acc kv, saturating_add_i64 acc kv.2) 0 (hash_iter (au_earned a)) in
  let issues :=
    if total_earned <? total_withdrawable
    then report (lit "withdrawable.unbacked_total") (lit "")
           (lit "withdrawable_total=" ++ show total_withdrawable ++ lit ", earned_total="
            ++ show total_earned) issues
    else issues in
  let invalid := λ _, lit "stored counter is invalid" in
  let issues := compare_counter w Spent (lit "spent.mismatch") (lit "spent.mismatch") invalid
                  (au_spent a) issues in
  let issues := compare_counter w Earned (lit "earned.mismatch") (lit "earned.mismatch") invalid
                  (au_earned a) issues in
  foldl (audit_project w a) issues
    (btree_iter (dom (au_project_reserved a) ∪ dom (au_project_spent a)
                 ∪ list_to_set (doc_ids w DProjectBudget))).

Definition reconciliation (w : World) : value :=
  let '(a, pool_reserved) := audit_documents w in
  let '(p, issues) := audit_balances w a pool_reserved in
  let issues := audit_flows w a issues in
  let issue_count := length issues in
  Object (jobject [
    (lit "healthy", Bool (bool_decide (issue_count = 0%nat)));
    (lit "checkedAt", jint (w_now w)); (lit "holdCount", jint (au_holds a));
    (lit "activeHoldCount", jint (au_active_holds a)); (lit "payoutCount", jint (py_count p));
    (lit "pendingPayoutCount", jint (py_pending p)); (lit "payerCount", jint (Z.of_nat (size (au_held a))));
    (lit "projectCount",
      jint (Z.of_nat (size (dom (au_project_reserved a) ∪ dom (au_project_spent a) : gset str))));
    (lit "issueCount", jint (Z.of_nat issue_count)); (lit "issues", Array issues)]).
End audit.

Record ReconcileFinancialSystemInput := { rc_max_issues : i64 }.

Definition issue_limit (input : ReconcileFinancialSystemInput) : nat :=
  if rc_max_issues input <=? 0 then 100%nat else Z.to_nat (Z.min (rc_max_issues input) 1000).

Definition reconcile_financial_system `{Platform} (caller : str)
    (input : ReconcileFinancialSystemInput) : tx value :=
  if negb (bool_decide (caller = LEGACY_ROOT)) then denied (lit "access denied")
  else asks (reconciliation (issue_limit input)).
