(* ===== verification/FinanceActions.v ===== *)
(** The finance actions a caller can perform, and what they keep: no action makes or loses money,
    every balance and counter stays an [i64], and the books that the reconciliation recomputes stay
    balanced.

    [action] lists the operations of [apps/aseman-node/src/actions/finance.rs] with the caller that
    performs them; [perform] is the use case each one runs, and [run_action] (FinanceLedger) the
    transaction it runs in. *)

From S2P Require Import Prelude Text Core Ports BTree Json FinanceLedger FinanceHelpers.
From S2P Require Import FinanceHolds FinancePools FinanceWallets FinanceMarket FinanceBooks.
From S2P Require Import FinanceSteps FinancePoolSteps FinanceWalletSteps FinanceAudit.

Open Scope Z_scope.
Open Scope tx_scope.

(** ** Transactions that only read *)

Definition read_only {A} (m : tx A) : Prop := ∀ w a w', m w = Ok (a, w') → w' = w.

Lemma each_read_only {A B} (body : B → A → tx B) l acc :
  (∀ acc x, read_only (body acc x)) → read_only (each body acc l).
Proof.
  intros Hb w r w' H1. refine (each_Ok (λ _ w0, w0 = w) body _ _ _ _ _ _ eq_refl H1).
  intros q x w0 r0 w1 _ -> H2. by eapply Hb.
Qed.

(** Read a transaction made of reads only off its hypothesis. *)
Ltac reads_only := intros ? ? ? ?Hr; tx_inv Hr; done.

Lemma federated_finance_object_reads `{Platform} v label : read_only (federated_finance_object v label).
Proof. unfold federated_finance_object. reads_only. Qed.
Lemma catalog_integer_reads m u k : read_only (catalog_integer m u k).
Proof. unfold catalog_integer. reads_only. Qed.
Lemma catalog_account_reads m u k : read_only (catalog_account m u k).
Proof. unfold catalog_account. reads_only. Qed.
Lemma quote_beneficiary_reads t v : read_only (quote_beneficiary t v).
Proof. unfold quote_beneficiary. reads_only. Qed.
Lemma validate_resource_reads m : read_only (validate_federated_quote_resource m).
Proof. unfold validate_federated_quote_resource, market_doc, billing_nodes. reads_only. Qed.
Lemma quote_resource_reads k c st v : read_only (quote_resource k c st v).
Proof.
  intros w a w' Hr. unfold quote_resource in Hr. tx_inv Hr; by apply validate_resource_reads in Hm.
Qed.
Lemma quote_resources_reads q e k a m : read_only (quote_resources q e k a m).
Proof.
  intros w r w' Hr. unfold quote_resources in Hr. tx_inv Hr; try done.
  all: apply each_read_only in Hm; [done|apply quote_resource_reads].
Qed.
Lemma quote_refused_reads c q h e : read_only (quote_refused c q h e).
Proof.
  intros w r w' Hr. unfold quote_refused, billing_current, billing_nodes, billing_catalog in Hr.
  tx_inv Hr; done.
Qed.

(** ** The market actions leave the books alone *)

Lemma quiet_namespace `{Platform} w k m : quiet outside w (put_namespace w k m).
Proof.
  split; try done; [apply typed_put_namespace|]. intros h p r. apply books_namespace.
Qed.
Lemma quiet_trans `{Platform} w1 w2 w3 : quiet outside w1 w2 → quiet outside w2 w3 → quiet outside w1 w3.
Proof.
  intros [A1 A2 A3 A4 A5 AM A6 A7 A8] [B1 B2 B3 B4 B5 BM B6 B7 B8].
  split; [auto|congruence| | |congruence|congruence| |auto|auto].
  - intros. by rewrite B3, A3.
  - intros. by rewrite B4, A4.
  - intros. by rewrite B6, A6.
Qed.
Lemma quiet_sound `{Platform} w w' :
  typed w → quiet outside w w' → docs_evolve w w' → sound_step 0 w w'.
Proof.
  intros Hw [Qt Qw _ _ _ Qm _ _ Qb] He. split_and!; [auto|intros _; lia|apply Qb|done|].
  by apply (kept_same _ w), kept_refl.
Qed.

(** What a market action may change: documents outside the books, and none that is published. *)
Definition market_step `{Platform} (w w' : World) : Prop := quiet outside w w' ∧ docs_evolve w w'.

Definition shared_family (d : FinanceDoc) : bool :=
  match d with DBillingCurrent | DBillingNodes | DMarket => true | _ => false end.

Lemma write_shared_Ok `{Platform} d id path v mg w u w' :
  shared_family d = true → write_doc d id path v mg w = Ok (u, w') → ∃ k m, w' = put_namespace w k m.
Proof.
  intros Hd. unfold write_doc, writing, put_doc. destruct (as_finance_object v) as [m|]; [|done].
  destruct d; try done; cbn; intros [= _ <-]; eauto.
Qed.

Lemma market_refl `{Platform} w : market_step w w.
Proof. split; [apply quiet_refl|apply evolve_refl]. Qed.
Lemma market_shared `{Platform} w w1 k m : market_step w w1 → market_step w (put_namespace w1 k m).
Proof.
  intros [Hq He]. split; [by eapply quiet_trans, quiet_namespace|by apply evolve_namespace].
Qed.
Lemma market_publish `{Platform} w d id m :
  outside d = true → (∀ old, doc_at w d id = Some old → evolves d old m) → market_step w (put_row w d id m).
Proof.
  intros Ho He. split; [by apply quiet_outside|]. apply evolve_put_row; [done|apply evolve_refl].
Qed.

(** The document a publication found, read as the empty one when there is none. *)
Lemma published_before w d id path old :
  in_rows d = true → doc_at w d id = Some old →
  default [] (match get_doc w d id path with Ok m => Some m | Err _ => None end) = old.
Proof. intros Hd Ho. rewrite get_doc_row by done. unfold doc_at in Ho. by rewrite Ho. Qed.
Lemma is_empty_nil {A} (l : list A) : is_empty l = true → l = [].
Proof. by destruct l. Qed.

Section market.
Context `{PlatformLaws}.

Ltac market :=
  repeat match goal with
  | G : federated_finance_object _ _ _ = Ok _ |- _ => apply federated_finance_object_reads in G as ->
  | G : quote_refused _ _ _ _ _ = Ok _ |- _ => apply quote_refused_reads in G as ->
  | G : quote_resources _ _ _ _ _ _ = Ok _ |- _ => apply quote_resources_reads in G as ->
  | G : each (catalog_integer _) _ _ _ = Ok _ |- _ =>
      apply each_read_only in G as ->; [|apply catalog_integer_reads]
  | G : each (catalog_account _) _ _ _ = Ok _ |- _ =>
      apply each_read_only in G as ->; [|apply catalog_account_reads]
  | G : each quote_beneficiary _ _ _ = Ok _ |- _ =>
      apply each_read_only in G as ->; [|apply quote_beneficiary_reads]
  | G : write_doc _ _ _ _ _ _ = Ok _ |- _ => apply write_shared_Ok in G as (? & ? & ->); [|done]
  end;
  try (apply market_shared); try apply market_refl.

Lemma publish_finance_catalog_step caller input w v w' :
  publish_finance_catalog caller input w = Ok (v, w') → market_step w w'.
Proof.
  unfold publish_finance_catalog, billing_catalog, put_billing_catalog. intros Hr. tx_inv Hr; market.
  apply market_publish; [done|]. intros old Ho.
  rewrite (published_before _ DBillingCatalog _ _ _ eq_refl Ho) in G3.
  destruct (is_empty old) eqn:E; [right; by apply is_empty_nil|left].
  cbn in G3. unbool. by injection G3.
Qed.
Lemma register_finance_node_step caller input w v w' :
  register_finance_node caller input w = Ok (v, w') → market_step w w'.
Proof. unfold register_finance_node, put_billing_nodes. intros Hr. tx_inv Hr; market. Qed.
Lemma retire_finance_node_step caller input w v w' :
  retire_finance_node caller input w = Ok (v, w') → market_step w w'.
Proof. unfold retire_finance_node, billing_nodes, put_billing_nodes. intros Hr. tx_inv Hr; market. Qed.
Lemma register_finance_resource_step caller input w v w' :
  register_finance_resource caller input w = Ok (v, w') → market_step w w'.
Proof.
  unfold register_finance_resource, billing_nodes, market_doc, put_market_doc. intros Hr.
  tx_inv Hr; market.
Qed.
Lemma review_finance_resource_step caller input w v w' :
  review_finance_resource caller input w = Ok (v, w') → market_step w w'.
Proof. unfold review_finance_resource, market_doc, put_market_doc. intros Hr. tx_inv Hr; market. Qed.
Lemma retire_finance_resource_step caller input w v w' :
  retire_finance_resource caller input w = Ok (v, w') → market_step w w'.
Proof. unfold retire_finance_resource, market_doc, put_market_doc. intros Hr. tx_inv Hr; market. Qed.
Lemma publish_finance_quote_step caller input w v w' :
  publish_finance_quote caller input w = Ok (v, w') → market_step w w'.
Proof.
  unfold publish_finance_quote, put_billing_quote. intros Hr. tx_inv Hr; market.
  apply market_publish; [done|]. intros old Ho.
  match goal with G : negb (is_empty _) = false |- _ =>
    rewrite (published_before _ DBillingQuote _ _ _ eq_refl Ho) in G; right; apply is_empty_nil;
    by apply negb_false_iff in G end.
Qed.

(** The views only read. *)
Lemma get_hold_reads caller input : read_only (get_hold caller input).
Proof. unfold get_hold. reads_only. Qed.
Lemma get_financial_account_reads caller input : read_only (get_financial_account caller input).
Proof.
  intros w v w' Hr. unfold get_financial_account in Hr. tx_inv Hr; by apply snapshot_Ok in Hr.
Qed.
Lemma list_payouts_reads caller input : read_only (list_payouts caller input).
Proof. unfold list_payouts, finance_payout_records. reads_only. Qed.
Lemma reconcile_reads caller input : read_only (reconcile_financial_system caller input).
Proof. unfold reconcile_financial_system. reads_only. Qed.
End market.

(** ** Actions *)

Inductive action :=
| ATransfer (input : TransferInput)
| AMint (input : MintInput)
| AGetFinancialAccount (input : GetFinancialAccountInput)
| APaymentAdjustment (input : PaymentAdjustmentInput)
| AReconcileFinancialSystem (input : ReconcileFinancialSystemInput)
| ACreateHold (input : CreateHoldInput)
| AGetHold (input : GetHoldInput)
| AStartHold (input : StartHoldInput)
| AReleaseHold (input : ReleaseHoldInput)
| ASettleHold (input : SettleHoldInput)
| AOpenPool (input : OpenPoolInput)
| AClosePool (input : ClosePoolInput)
| ADebitPool (input : DebitPoolInput)
| ARefreshPool (input : RefreshPoolInput)
| AReservePool (input : ReservePoolInput)
| AReleasePool (input : ReleasePoolInput)
| ASettlePool (input : SettlePoolInput)
| AListPayouts (input : ListPayoutsInput)
| ARequestPayout (input : RequestPayoutInput)
| AResolvePayout (input : ResolvePayoutInput)
| APublishFinanceCatalog (input : value)
| APublishFinanceQuote (input : value)
| ARegisterFinanceNode (input : value)
| ARetireFinanceNode (input : str)
| ARegisterFinanceResource (input : value)
| ARetireFinanceResource (input : RetireFinanceResourceInput)
| AReviewFinanceResource (input : ReviewFinanceResourceInput)
| ALockToken (input : LockTokenInput)
| AConsumeLock (input : ConsumeLockInput).

Section actions.
Context `{Platform} (auth_with_signature : str → list N → str → bool).

(** The use case of an operation, for the caller. *)
Definition perform (caller : str) (a : action) : tx value :=
  match a with
  | ATransfer i => transfer caller i
  | AMint i => mint caller i
  | AGetFinancialAccount i => get_financial_account caller i
  | APaymentAdjustment i => payment_adjustment caller i
  | AReconcileFinancialSystem i => reconcile_financial_system caller i
  | ACreateHold i => create_hold caller i
  | AGetHold i => get_hold caller i
  | AStartHold i => start_hold caller i
  | AReleaseHold i => release_hold caller i
  | ASettleHold i => settle_hold caller i
  | AOpenPool i => open_pool caller i
  | AClosePool i => close_pool caller i
  | ADebitPool i => debit_pool caller i
  | ARefreshPool i => refresh_pool caller i
  | AReservePool i => reserve_pool caller i
  | AReleasePool i => release_pool caller i
  | ASettlePool i => settle_pool caller i
  | AListPayouts i => list_payouts caller i
  | ARequestPayout i => request_payout caller i
  | AResolvePayout i => resolve_payout caller i
  | APublishFinanceCatalog i => publish_finance_catalog caller i
  | APublishFinanceQuote i => publish_finance_quote caller i
  | ARegisterFinanceNode i => register_finance_node caller i
  | ARetireFinanceNode i => retire_finance_node caller i
  | ARegisterFinanceResource i => register_finance_resource caller i
  | ARetireFinanceResource i => retire_finance_resource caller i
  | AReviewFinanceResource i => review_finance_resource caller i
  | ALockToken i => lock_token caller i
  | AConsumeLock i => consume_lock auth_with_signature caller i
  end.

(** What a successful action moves across the boundary of the system. *)
Definition external_flow (w : World) (a : action) : Z :=
  match a with
  | AMint i => mint_flow w i
  | APaymentAdjustment i => adjustment_flow w i
  | AResolvePayout i => payout_flow w i
  | _ => 0
  end.

(** The amounts of a lock schedule are [i64]s, as the type of the input says. *)
Definition action_typed (a : action) : Prop :=
  match a with ALockToken i => lock_input_typed i | _ => True end.

(** A request: the caller, what it asks for, and the time of the clock when it is served. *)
Record request := { rq_at : i64; rq_caller : str; rq_action : action }.

(** Serve a request in its transaction; the flow is that of an action that succeeded. *)
Definition serve (w : World) (rq : request) : World * Z :=
  let w := set_now w (rq_at rq) in
  match run_action (perform (rq_caller rq) (rq_action rq)) w with
  | (Ok _, w') => (w', external_flow w (rq_action rq))
  | (Err _, w') => (w', 0)
  end.

(** Serve requests in order, adding their flows. *)
Fixpoint serve_all (w : World) (rqs : list request) : World * Z :=
  match rqs with
  | [] => (w, 0)
  | rq :: rqs => let '(w1, f1) := serve w rq in let '(w2, f2) := serve_all w1 rqs in (w2, f1 + f2)
  end.
End actions.

Lemma perform_sound `{PlatformLaws} auth caller a w v w' :
  action_typed a → typed w → perform auth caller a w = Ok (v, w') →
  sound_step (external_flow w a) w w'.
Proof.
  intros Ha Hw. destruct a; cbn [perform external_flow]; intros Hr.
  1: by eapply transfer_step.
  1: by eapply mint_step.
  1: apply get_financial_account_reads in Hr as ->; by apply sound_refl.
  1: by eapply payment_adjustment_step.
  1: apply reconcile_reads in Hr as ->; by apply sound_refl.
  1: by eapply create_hold_step.
  1: apply get_hold_reads in Hr as ->; by apply sound_refl.
  1: by eapply start_hold_step.
  1: by eapply release_hold_step.
  1: by eapply settle_hold_step.
  1: by eapply open_pool_step.
  1: by eapply close_pool_step.
  1: by eapply debit_pool_step.
  1: by eapply refresh_pool_step.
  1: by eapply reserve_pool_step.
  1: by eapply release_pool_step.
  1: by eapply settle_pool_step.
  1: apply list_payouts_reads in Hr as ->; by apply sound_refl.
  1: by eapply request_payout_step.
  1: by eapply resolve_payout_step.
  1: apply publish_finance_catalog_step in Hr as []; by apply quiet_sound.
  1: apply publish_finance_quote_step in Hr as []; by apply quiet_sound.
  1: apply register_finance_node_step in Hr as []; by apply quiet_sound.
  1: apply retire_finance_node_step in Hr as []; by apply quiet_sound.
  1: apply register_finance_resource_step in Hr as []; by apply quiet_sound.
  1: apply retire_finance_resource_step in Hr as []; by apply quiet_sound.
  1: apply review_finance_resource_step in Hr as []; by apply quiet_sound.
  1: by eapply lock_token_step.
  1: by eapply consume_lock_step.
Qed.

Lemma quiet_now `{Platform} w t : quiet outside w (set_now w t).
Proof.
  split; try done.
  - intros [Hb Hc]. by split.
  - intros h p r [H1 H2 H3 H4 H5 H6 H7 H8]. by split.
Qed.

Lemma serve_sound `{PlatformLaws} auth w rq w' f :
  action_typed (rq_action rq) → typed w → serve auth w rq = (w', f) → sound_step f w w'.
Proof.
  intros Ha Hw. destruct (quiet_now w (rq_at rq)) as [Qt Qw _ _ _ Qm _ _ Qb].
  unfold serve, run_action. destruct (perform _ _ _ _) as [[v w1]|e] eqn:E; intros [= <- <-].
  - destruct (perform_sound _ _ _ _ _ _ Ha (Qt Hw) E) as (Tw & Ww & Bw & Ew & Mw).
    split_and!; [done| | | |exact Mw]; intros Hb%Qb.
    + rewrite Ww by done. lia.
    + by apply Bw.
    + by apply Ew.
  - split_and!; [auto|intros _; lia|apply Qb| |by apply (kept_same _ w), kept_refl].
    intros _. by apply (evolve_docs _ w), evolve_refl.
Qed.

(** ** Sequences of requests *)

(** The versions a document went through. *)
Definition docs_history (w w' : World) : Prop :=
  ∀ d id old, doc_at w d id = Some old → ∃ new, doc_at w' d id = Some new ∧ rtc (evolves d) old new.

Lemma serve_all_sound `{PlatformLaws} auth rqs w w' f :
  Forall (λ rq, action_typed (rq_action rq)) rqs → typed w → serve_all auth w rqs = (w', f) →
  typed w' ∧ markers_kept w w' ∧ (books w → wealth w' = wealth w + f ∧ books w' ∧ docs_history w w').
Proof.
  revert w f. induction rqs as [|rq rqs IH]; intros w f Hf Hw; cbn [serve_all].
  - intros [= <- <-]. split_and!; [done|apply kept_refl|]. intros Hb. split_and!; [lia|done|].
    intros d id old Hd. exists old. by split.
  - apply Forall_cons in Hf as [Hrq Hf]. destruct (serve auth w rq) as [w1 f1] eqn:E1.
    destruct (serve_all auth w1 rqs) as [w2 f2] eqn:E2. intros [= <- <-].
    destruct (serve_sound _ _ _ _ _ Hrq Hw E1) as (T1 & W1 & B1 & D1 & M1).
    destruct (IH _ _ Hf T1 E2) as (T2 & M2 & Rest). split_and!; [done|by eapply kept_trans|]. intros Hb.
    destruct (Rest (B1 Hb)) as (W2 & B2 & D2). split_and!; [rewrite W2, W1 by done; lia|done|].
    intros d id old Hd. destruct (D1 Hb _ _ _ Hd) as (m1 & H1 & E1').
    destruct (D2 _ _ _ H1) as (m2 & H2 & E2'). exists m2. split; [done|]. by eapply rtc_l.
Qed.

(** A document whose status is final is the same ever after. *)
Definition final_status (d : FinanceDoc) (m : Map) : bool :=
  match d with
  | DHold => has_status m (lit "settled") || has_status m (lit "released") || has_status m (lit "expired")
  | DPool => has_status m (lit "closed")
  | DPoolReservation => has_status m (lit "settled") || has_status m (lit "released")
  | DPayout => has_status m (lit "paid") || has_status m (lit "rejected")
  | DJournal => true
  | DBillingCatalog | DBillingQuote => negb (is_empty m)
  | _ => false
  end.

Lemma final_stays d old new : final_status d old = true → evolves d old new → new = old.
Proof.
  intros Hf [->|He]; [done|]. exfalso. unfold final_status, has_status in *.
  destruct d; try done; try (by subst).
  - destruct He as [_ Hs]. unfold has_status in Hs. unbool.
    destruct Hf as [[Hf|Hf]|Hf]; rewrite Hf in Hs; clear Hf;
      destruct Hs as [[Hs _]|[[Hs _]|[[Hs|Hs] _]]]; clash.
  - destruct He as [_ [Hs _] _ _]. unfold has_status in Hs. unbool. rewrite Hf in Hs. clash.
  - destruct He as [_ [Hs _]]. unfold has_status in Hs. unbool.
    destruct Hf as [Hf|Hf]; rewrite Hf in Hs; clear Hf; clash.
  - destruct He as [_ [Hs _]]. unfold has_status in Hs. unbool.
    destruct Hf as [Hf|Hf]; rewrite Hf in Hs; clear Hf; clash.
Qed.
Lemma final_history d old new : final_status d old = true → rtc (evolves d) old new → new = old.
Proof.
  intros Hf Hr. revert Hf. induction Hr as [|x y z Hxy _ IH]; [done|]. intros Hf.
  apply final_stays in Hxy as ->; [|done]. auto.
Qed.

(** ** The properties *)

Section properties.
Context `{PlatformLaws} (auth : str → list N → str → bool) (w : World) (rqs : list request).
Hypothesis requests_typed : Forall (λ rq, action_typed (rq_action rq)) rqs.
Hypothesis world_typed : typed w.

(** C2. Money is neither made nor lost.  Starting from balanced books, whatever requests are served, in whatever order and with
    whatever refusals, the wealth of the system (every available balance, held and payout-held
    counter and open lock step, less the debts) changes exactly by what the mints, payment
    adjustments and paid payouts that succeeded moved across its boundary. *)
Theorem money_conserved :
  books w → wealth (serve_all auth w rqs).1 = wealth w + (serve_all auth w rqs).2.
Proof.
  intros Hb. destruct (serve_all auth w rqs) as [w' f] eqn:E.
  by destruct (serve_all_sound _ _ _ _ _ requests_typed world_typed E) as [_ [_ [? _]]].
Qed.

(** C10. The stored totals are the ones the documents add up to.  Starting from balanced books, after any sequence of requests the
    held counter of a wallet is the sum of its active holds and open pools, its payout-held counter
    the sum of its pending payouts, and the reserved amount of a pool the sum of its open
    reservations; and every hold, pool, reservation and payout is well formed. *)
Theorem books_stay_balanced :
  books w →
  let w' := (serve_all auth w rqs).1 in
  (∀ u, stored_counter w' Held u = doc_sum (held_term u) w') ∧
  (∀ u, stored_counter w' PayoutHeld u = doc_sum (payout_term u) w') ∧
  (∀ id m, doc_at w' DPool id = Some m →
           amount_or_zero m (lit "reserved") = doc_sum (reserved_term id) w') ∧
  (∀ d id m, doc_at w' d id = Some m → doc_ok_at d m).
Proof.
  intros Hb. destruct (serve_all auth w rqs) as [w' f] eqn:E.
  destruct (serve_all_sound _ _ _ _ _ requests_typed world_typed E) as [_ [_ [_ [[H1 H2 H3 H4 H5 H6 H7 H8] _]]]];
    [done|].
  unfold none in *. cbn [fst]. split_and!; [| | |done].
  - intros u. rewrite H5. lia.
  - intros u. rewrite H6. lia.
  - intros id m Hm. rewrite (H7 _ _ Hm). lia.
Qed.

(** C27. Documents follow their lifecycles.  Starting from balanced books, no request removes a hold,
    pool, reservation, payout, journal entry, catalog or quote, and a later version of one is reached
    by lifecycle steps.  A hold goes from open to running to settled, or is released or expires, a
    reservation is settled or released, a payout is paid or rejected, and they keep their parties and
    amounts.  A pool closes; it keeps its payer, authority and meter, and its ceiling, which a refresh
    may raise, and what it has spent and refunded never fall.  A document in a final status, a journal
    entry, and a published catalog or quote never change. *)
Theorem documents_follow_lifecycle d id old :
  books w → doc_at w d id = Some old →
  ∃ new, doc_at (serve_all auth w rqs).1 d id = Some new ∧ rtc (evolves d) old new ∧
         (final_status d old = true → new = old).
Proof.
  intros Hb Hd. destruct (serve_all auth w rqs) as [w' f] eqn:E.
  destruct (serve_all_sound _ _ _ _ _ requests_typed world_typed E) as [_ [_ [_ [_ Hh]]]]; [done|].
  destruct (Hh _ _ _ Hd) as (new & Hn & Hr). exists new. split_and!; [done|done|].
  intros Hf. by eapply final_history.
Qed.
End properties.

(** ** Examples *)

(** Two wallets and no records. *)
Definition sample_world : World := {|
  w_rows := ∅; w_namespaces := ∅; w_locks := ∅; w_accounts := ∅; w_markers := ∅;
  w_participants := []; w_balances := {[lit "alice" := 1000; lit "bob" := 50]};
  w_usernames := {[lit "bob" := lit "bob"]}; w_emails := {[lit "bob@here" := lit "bob"]};
  w_stores := ∅; w_metadata := ∅; w_members := ∅; w_programs := ∅; w_now := 0; w_next := 0;
|}.
Definition sample_requests : list request := [
  {| rq_at := 10; rq_caller := lit "alice";
     rq_action := ATransfer {| tr_amount := 300; tr_to_username := lit "bob" |} |};
  {| rq_at := 11; rq_caller := lit "bob";
     rq_action := ATransfer {| tr_amount := 351; tr_to_username := lit "alice" |} |};
  {| rq_at := 20; rq_caller := lit "alice";
     rq_action := ALockToken {| lk_amount := 100; lk_typ := lit "pay"; lk_target := lit "bob";
                                lk_unlock_at := 30; lk_steps := [] |} |};
  {| rq_at := 30; rq_caller := LEGACY_ROOT;
     rq_action := AMint {| mt_to_user_email := lit "bob@here"; mt_amount := 70;
                           mt_idempotency_key := lit "m1" |} |}].
Definition sample_auth : str → list N → str → bool := λ _ _ _, true.

Lemma sample_typed : typed sample_world.
Proof.
  split; [|intros k u; by destruct k].
  intros id b. unfold bal, sample_world. cbn [w_balances].
  intros [[<- <-]|[_ [<- <-]%lookup_singleton_Some]]%lookup_insert_Some; done.
Qed.
Lemma sample_books : @books sample_platform sample_world.
Proof. by apply books_empty. Qed.
Lemma sample_requests_typed : Forall (λ rq, action_typed (rq_action rq)) sample_requests.
Proof. repeat constructor; done. Qed.

Lemma money_conserved_witness :
  let r := @serve_all sample_platform sample_auth sample_world sample_requests in
  wealth r.1 = wealth sample_world + r.2 ∧ r.2 = 70 ∧ bal r.1 (lit "alice") = Some 600.
Proof.
  split; [|by vm_compute]. apply (@money_conserved sample_platform sample_laws).
  - exact sample_requests_typed.
  - exact sample_typed.
  - exact sample_books.
Defined.

(** A pool is opened, and then closed. *)
Definition sample_open : request := {|
  rq_at := 10; rq_caller := lit "alice";
  rq_action := AOpenPool {| op_max_amount := 400; op_settlement_authority := lit "host";
                            op_meter_program_id := lit "meter"; op_expires_at := 1000;
                            op_idempotency_key := lit "k1" |} |}.
Definition sample_pool_id : str := @id_at sample_platform 0.
Definition sample_close : request := {|
  rq_at := 20; rq_caller := lit "alice";
  rq_action := AClosePool {| cp_pool_id := sample_pool_id; cp_close_id := lit "c1";
                             cp_reason := lit "" |} |}.
Definition pool_world : World := (@serve_all sample_platform sample_auth sample_world [sample_open]).1.

Lemma pool_world_sound : typed pool_world ∧ @books sample_platform pool_world.
Proof.
  unfold pool_world.
  destruct (@serve_all sample_platform sample_auth sample_world [sample_open]) as [w f] eqn:E.
  apply (@serve_all_sound sample_platform sample_laws) in E as (Ht & _ & Hb);
    [|by repeat constructor|exact sample_typed].
  split; [exact Ht|]. by destruct (Hb sample_books) as (_ & ? & _).
Qed.

Lemma books_stay_balanced_witness :
  stored_counter pool_world Held (lit "alice") = doc_sum (held_term (lit "alice")) pool_world ∧
  stored_counter pool_world Held (lit "alice") = 400.
Proof.
  split; [|by vm_compute].
  apply (@books_stay_balanced sample_platform sample_laws sample_auth sample_world [sample_open]).
  - by repeat constructor.
  - exact sample_typed.
  - exact sample_books.
Defined.

Lemma documents_follow_lifecycle_witness :
  ∃ old new, doc_at pool_world DPool sample_pool_id = Some old ∧
    doc_at (@serve_all sample_platform sample_auth pool_world [sample_close]).1 DPool sample_pool_id
      = Some new ∧
    rtc (evolves DPool) old new ∧ has_status old (lit "open") = true ∧ has_status new (lit "closed") = true.
Proof.
  destruct (doc_at pool_world DPool sample_pool_id) as [old|] eqn:Ho; [|vm_compute in Ho; discriminate].
  destruct (@documents_follow_lifecycle sample_platform sample_laws sample_auth pool_world
              [sample_close]) with (d := DPool) (id := sample_pool_id) (old := old)
    as (new & Hn & Hr & _).
  - by repeat constructor.
  - apply pool_world_sound.
  - apply pool_world_sound.
  - exact Ho.
  - exists old, new. split_and!; [done|exact Hn|exact Hr| |].
    + vm_compute in Ho. injection Ho as <-. by vm_compute.
    + vm_compute in Hn. injection Hn as <-. by vm_compute.
Defined.
