(* ===== verification/FinanceLines.v ===== *)
(** The loop over settlement lines, which settling a hold and settling a pool reservation share,
    against a reference in unbounded integers: which lines are accepted, what the totals are, and
    which line a refusal reports. *)

From S2P Require Import Prelude Text Core Ports BTree Json FinanceLedger FinanceHelpers.
From S2P Require Import FinanceHolds.

Open Scope Z_scope.
Open Scope tx_scope.

(** ** The reference *)

Definition line_key (l : SettlementLineInput) : str := cap_key (sl_user_id l) (sl_role l).

(** What the lines charge in all, and under one key. *)
Definition charged (lines : list SettlementLineInput) : Z := sum_Z (sl_amount <$> lines).
Definition charged_to (key : SettlementLineInput → str) (k : str) (lines : list SettlementLineInput) : Z :=
  sum_Z ((λ l, if bool_decide (key l = k) then sl_amount l else 0) <$> lines).

(** The charges by key. *)
Definition charges (key : SettlementLineInput → str) (lines : list SettlementLineInput) : gmap str Z :=
  foldl (λ m l, <[key l := default 0 (m !! key l) + sl_amount l]> m) ∅ lines.

Definition line_sums (lines : list SettlementLineInput) : line_totals :=
  {| lt_actual := charged lines; lt_allocated := charges line_key lines;
     lt_credits := charges sl_user_id lines |}.

(** The payer may not be credited, where the rules say so. *)
Definition pays_payer (rules : line_rules) (l : SettlementLineInput) : option str :=
  match lr_payer rules with
  | Some (payer, message) => if bool_decide (sl_user_id l = payer) then Some message else None
  | None => None
  end.

(** Why a line is refused after the lines before it were accepted. *)
Definition line_refusal (rules : line_rules) (caps : gmap str i64) (before : list SettlementLineInput)
    (l : SettlementLineInput) : option str :=
  if line_invalid l then Some (lr_invalid rules)
  else match pays_payer rules l with
  | Some message => Some message
  | None =>
      match caps !! line_key l with
      | None => Some (lr_unauthorized rules)
      | Some cap =>
          if i64_max <? charged before + sl_amount l then Some (lit "settlement amount overflow")
          else if cap <? charged_to line_key (line_key l) before + sl_amount l
          then Some (lit "settlement exceeds beneficiary role cap")
          else None
      end
  end.

(** The refusal of the first line that has one. *)
Fixpoint first_refusal (rules : line_rules) (caps : gmap str i64)
    (before lines : list SettlementLineInput) : option str :=
  match lines with
  | [] => None
  | l :: lines => match line_refusal rules caps before l with
                  | Some message => Some message
                  | None => first_refusal rules caps (before ++ [l]) lines
                  end
  end.

(** Which settlements are authorized, whatever the order of their lines. *)
Definition lines_authorized (rules : line_rules) (caps : gmap str i64)
    (lines : list SettlementLineInput) : Prop :=
  Forall (λ l, line_invalid l = false ∧ pays_payer rules l = None ∧
               ∃ cap, caps !! line_key l = Some cap ∧ charged_to line_key (line_key l) lines ≤ cap) lines
  ∧ charged lines ≤ i64_max.

(** ** Sums *)

Lemma charged_snoc lines l : charged (lines ++ [l]) = charged lines + sl_amount l.
Proof. unfold charged. rewrite fmap_app, sum_Z_app. cbn. lia. Qed.
Lemma charged_to_app key k xs ys :
  charged_to key k (xs ++ ys) = charged_to key k xs + charged_to key k ys.
Proof. unfold charged_to. by rewrite fmap_app, sum_Z_app. Qed.
Lemma charged_to_snoc key k lines l :
  charged_to key k (lines ++ [l]) = charged_to key k lines + (if bool_decide (key l = k) then sl_amount l else 0).
Proof. rewrite charged_to_app. unfold charged_to at 2. cbn. lia. Qed.
Lemma charges_snoc key lines l :
  charges key (lines ++ [l]) = <[key l := default 0 (charges key lines !! key l) + sl_amount l]> (charges key lines).
Proof. unfold charges. by rewrite foldl_app. Qed.
Lemma charges_lookup key k lines : default 0 (charges key lines !! k) = charged_to key k lines.
Proof.
  induction lines as [|l lines IH] using rev_ind; [done|]. rewrite charges_snoc, charged_to_snoc, <- IH.
  destruct (decide (key l = k)) as [<-|Hk].
  - rewrite lookup_insert_eq, bool_decide_eq_true_2 by done. done.
  - rewrite lookup_insert_ne, bool_decide_eq_false_2 by done. lia.
Qed.

Definition positive (lines : list SettlementLineInput) : Prop := Forall (λ l, 0 < sl_amount l) lines.
Lemma charged_to_bounds key k lines : positive lines → 0 ≤ charged_to key k lines ≤ charged lines.
Proof.
  induction 1 as [|l lines Hl _ IH]; [done|].
  change (charged (l :: lines)) with (sl_amount l + charged lines).
  change (charged_to key k (l :: lines))
    with ((if bool_decide (key l = k) then sl_amount l else 0) + charged_to key k lines).
  case_bool_decide; lia.
Qed.
Lemma line_positive l : line_invalid l = false → 0 < sl_amount l.
Proof. unfold line_invalid. intros. unbool. lia. Qed.

(** ** The loop is the reference *)

Lemma checked_add_ok x y : i64_min ≤ x + y ≤ i64_max → checked_add_i64 x y = Some (x + y).
Proof. intros. by apply checked_Some. Qed.

Lemma settlement_line_refines rules caps before l w :
  positive before → 0 ≤ charged before ≤ i64_max →
  settlement_line rules caps (line_sums before) l w =
  match line_refusal rules caps before l with
  | Some message => Err (Denied message)
  | None => Ok (line_sums (before ++ [l]), w)
  end.
Proof.
  intros Hp Hc. unfold settlement_line, line_refusal, pays_payer.
  destruct (line_invalid l) eqn:Ei; [done|]. pose proof (line_positive _ Ei) as Hpos.
  fold (line_key l). unfold tx_bind at 1.
  destruct (lr_payer rules) as [[payer message]|]; [destruct (bool_decide _); [done|]|].
  all: cbn [ret]; destruct (caps !! line_key l) as [cap|]; [|done].
  all: unfold or_denied at 1, tx_bind at 1; cbn [ret line_sums lt_actual lt_allocated lt_credits].
  all: destruct (Z.ltb_spec i64_max (charged before + sl_amount l)) as [Ho|Ho];
    [unfold checked_add_i64; rewrite (proj2 (checked_None _ _ _)) by lia; done|].
  all: pose proof (charged_to_bounds line_key (line_key l) before Hp).
  all: pose proof (charged_to_bounds sl_user_id (sl_user_id l) before Hp).
  all: rewrite checked_add_ok by ilia; unfold entry_add; rewrite !charges_lookup, !checked_add_ok by ilia.
  all: unfold tx_bind, or_denied, ret; cbv beta iota.
  all: destruct (cap <? _); [done|].
  all: by rewrite <- charged_snoc, <- charges_lookup, <- (charges_lookup sl_user_id), <- !charges_snoc.
Qed.

Lemma authorized_positive rules caps lines : lines_authorized rules caps lines → positive lines.
Proof. intros [Hf _]. eapply Forall_impl; [exact Hf|]. intros l (Hi & _). by apply line_positive. Qed.
Lemma charged_nonneg lines : positive lines → 0 ≤ charged lines.
Proof. intros Hp. pose proof (charged_to_bounds line_key [] lines Hp). lia. Qed.

(** The lines before a line of an authorized settlement are authorized. *)
Lemma authorized_prefix rules caps xs ys :
  lines_authorized rules caps (xs ++ ys) → lines_authorized rules caps xs.
Proof.
  intros Ha. pose proof (authorized_positive _ _ _ Ha) as [_ Hy]%Forall_app. destruct Ha as [Hf Hc].
  split.
  - apply Forall_app in Hf as [Hf _]. eapply Forall_impl; [exact Hf|].
    intros l (Hi & Hp & cap & Hcap & Hle). split_and!; [done..|]. exists cap. split; [done|].
    rewrite charged_to_app in Hle. pose proof (charged_to_bounds line_key (line_key l) ys Hy). lia.
  - unfold charged in *. rewrite fmap_app, sum_Z_app in Hc.
    pose proof (charged_nonneg ys Hy). unfold charged in *. lia.
Qed.

(** One more line keeps a settlement authorized exactly when it is not refused. *)
Lemma authorized_snoc rules caps before l :
  lines_authorized rules caps before →
  line_refusal rules caps before l = None ↔ lines_authorized rules caps (before ++ [l]).
Proof.
  intros Ha. pose proof (authorized_positive _ _ _ Ha) as Hp. destruct Ha as [Hf Hc].
  unfold line_refusal. split.
  - destruct (line_invalid l) eqn:Ei; [done|]. destruct (pays_payer rules l) eqn:Ey; [done|].
    destruct (caps !! line_key l) as [cap|] eqn:Ecap; [|done].
    destruct (Z.ltb_spec i64_max (charged before + sl_amount l)); [done|].
    destruct (Z.ltb_spec cap (charged_to line_key (line_key l) before + sl_amount l)); [done|]. intros _.
    split; [|rewrite charged_snoc; lia]. apply Forall_app. split; [|apply Forall_singleton].
    + eapply Forall_impl; [exact Hf|]. intros l' (? & ? & cap' & Hcap' & ?).
      split_and!; [done..|]. exists cap'. split; [done|]. rewrite charged_to_snoc.
      case_bool_decide as Hk; [|lia]. rewrite <- Hk in *. simplify_eq. lia.
    + split_and!; [done..|]. exists cap. split; [done|].
      rewrite charged_to_snoc, bool_decide_eq_true_2 by done. lia.
  - intros [[_ [(-> & -> & cap & -> & Hle) _]%Forall_cons]%Forall_app Hc'].
    rewrite charged_to_snoc, bool_decide_eq_true_2 in Hle by done. rewrite charged_snoc in Hc'.
    destruct (Z.ltb_spec i64_max (charged before + sl_amount l)); [lia|].
    destruct (Z.ltb_spec cap (charged_to line_key (line_key l) before + sl_amount l)); [lia|]. done.
Qed.

Lemma first_refusal_authorized rules caps before lines :
  lines_authorized rules caps before →
  first_refusal rules caps before lines = None ↔ lines_authorized rules caps (before ++ lines).
Proof.
  revert before. induction lines as [|l lines IH]; intros before Ha; cbn [first_refusal].
  - by rewrite app_nil_r.
  - pose proof (authorized_snoc rules caps before l Ha) as Hs.
    replace (before ++ l :: lines) with ((before ++ [l]) ++ lines) by (by rewrite <- app_assoc).
    destruct (line_refusal rules caps before l) as [m|].
    + split; [done|]. intros Hall%authorized_prefix%Hs. done.
    + apply IH. by apply Hs.
Qed.

Lemma loop_refines rules caps before lines w :
  lines_authorized rules caps before →
  each (settlement_line rules caps) (line_sums before) lines w =
  match first_refusal rules caps before lines with
  | Some message => Err (Denied message)
  | None => Ok (line_sums (before ++ lines), w)
  end.
Proof.
  revert before. induction lines as [|l lines IH]; intros before Ha; cbn [each first_refusal].
  - by rewrite app_nil_r.
  - pose proof (authorized_positive _ _ _ Ha) as Hp. unfold tx_bind.
    rewrite settlement_line_refines; [|done|pose proof (charged_nonneg _ Hp); destruct Ha; lia].
    pose proof (authorized_snoc rules caps before l Ha) as Hs.
    destruct (line_refusal rules caps before l) as [m|]; [done|].
    rewrite IH by (by apply Hs). by rewrite <- app_assoc.
Qed.

Lemma nothing_authorized rules caps : lines_authorized rules caps [].
Proof. split; [constructor|done]. Qed.

(** The first refusal is that of a line after authorized ones. *)
Lemma first_refusal_first rules caps before lines message :
  lines_authorized rules caps before →
  first_refusal rules caps before lines = Some message ↔
  ∃ mid l after, lines = mid ++ l :: after ∧ lines_authorized rules caps (before ++ mid) ∧
    line_refusal rules caps (before ++ mid) l = Some message.
Proof.
  revert before. induction lines as [|l lines IH]; intros before Ha; cbn [first_refusal].
  { split; [done|]. intros (mid & l & after & He & _). by destruct mid. }
  pose proof (authorized_snoc rules caps before l Ha) as Hs.
  assert (∀ mid, before ++ l :: mid = (before ++ [l]) ++ mid) as Hmid by (intros; by rewrite <- app_assoc).
  destruct (line_refusal rules caps before l) as [m|] eqn:Er.
  - split.
    + intros [= <-]. exists [], l, lines. by rewrite app_nil_r.
    + intros ([|x mid] & l' & after & He & Hm & Hr); injection He as <- ->.
      * rewrite app_nil_r in Hr. congruence.
      * rewrite Hmid in Hm. by apply authorized_prefix, Hs in Hm.
  - rewrite (IH (before ++ [l])) by (by apply Hs). split.
    + intros (mid & l' & after & -> & Hm & Hr). exists (l :: mid), l', after. by rewrite Hmid.
    + intros ([|x mid] & l' & after & He & Hm & Hr); injection He as <- ->.
      * rewrite app_nil_r in Hr. congruence.
      * exists mid, l', after. by rewrite <- Hmid.
Qed.

(** ** The properties *)

(** C29. The line loop of a settlement is equivalent to its specification in unbounded integers.  It
    accepts a list of lines exactly when every line is well formed, credits no excluded payer, has a
    role that is authorized, and no role is charged more than its cap nor the settlement more than
    fits; the order of the lines plays no part.  The totals it answers are then the sums of the
    lines, by role and by beneficiary, and it writes nothing. *)
Theorem settlement_lines_accepted rules caps lines w t w' :
  each (settlement_line rules caps) no_lines lines w = Ok (t, w') ↔
  lines_authorized rules caps lines ∧ t = line_sums lines ∧ w' = w.
Proof.
  change no_lines with (line_sums []). rewrite loop_refines by apply nothing_authorized.
  pose proof (first_refusal_authorized rules caps [] lines (nothing_authorized _ _)) as Hf.
  cbn [app] in *. destruct (first_refusal rules caps [] lines) as [m|].
  - split; [done|]. intros [Ha _]. by apply Hf in Ha.
  - split; [intros [= <- <-]; split_and!; try done; by apply Hf|]. by intros (_ & -> & ->).
Qed.

(** C39. A settlement that is refused for its lines reports the first line that breaks a rule.  The
    error is a denial with that line's message, where the rules are tried in the order invalid line,
    payer as beneficiary, role without authorization, overflow of the total, cap exceeded; the lines
    before it were all acceptable, and no other error comes out of the loop. *)
Theorem settlement_lines_refused rules caps lines w e :
  each (settlement_line rules caps) no_lines lines w = Err e ↔
  ∃ before l after message,
    lines = before ++ l :: after ∧ lines_authorized rules caps before ∧
    line_refusal rules caps before l = Some message ∧ e = Denied message.
Proof.
  change no_lines with (line_sums []). rewrite loop_refines by apply nothing_authorized.
  pose proof (first_refusal_first rules caps [] lines) as Hfirst. cbn [app] in Hfirst.
  destruct (first_refusal rules caps [] lines) as [m|]; split.
  - intros [= <-]. destruct (proj1 (Hfirst m (nothing_authorized _ _)) eq_refl) as (b & l & a & ? & ? & ?).
    by exists b, l, a, m.
  - intros (b & l & a & m' & ? & ? & ? & ->). f_equal. f_equal.
    assert (Some m = Some m') as [= ->]; [|done].
    apply Hfirst; [apply nothing_authorized|by exists b, l, a].
  - done.
  - intros (b & l & a & m' & ? & ? & ? & ->).
    assert (None = Some m') as [=]. apply Hfirst; [apply nothing_authorized|by exists b, l, a].
Qed.
