(* ===== verification/FinanceRetries.v ===== *)
(** Idempotency keys of the finance actions: a request that was applied under a key is not applied
    again under it, however often it is retried and whatever was served in between. *)

From S2P Require Import Prelude Text Core Ports BTree Json FinanceLedger FinanceHelpers.
From S2P Require Import FinanceHolds FinancePools FinanceWallets FinanceMarket FinanceBooks.
From S2P Require Import FinanceSteps FinancePoolSteps FinanceWalletSteps FinanceActions.

Open Scope Z_scope.
Open Scope tx_scope.

(** The marker under which an action records that it was applied. *)
Definition key_marker (caller : str) (a : action) : option FinanceMarker :=
  match a with
  | AMint i => let key := trim (mt_idempotency_key i) in
               if is_empty key then None else Some (MMintApplied key)
  | APaymentAdjustment i => Some (MPaymentAdjustment (pa_idempotency_key i))
  | ACreateHold i => Some (MHoldRequest caller (ch_idempotency_key i))
  | AStartHold i => Some (MRun caller (sh_run_id i))
  | AReleaseHold i => Some (MRelease caller (rh_release_id i))
  | ASettleHold i => Some (MSettlement caller (th_settlement_id i))
  | AOpenPool i => Some (MPoolOpen caller (op_idempotency_key i))
  | ADebitPool i => Some (MPoolDebit caller (dp_debit_id i))
  | ARefreshPool i => Some (MPoolRefresh caller (fp_refresh_id i))
  | ASettlePool i => Some (MPoolSettlement caller (tp_settlement_id i))
  | ARequestPayout i => Some (MPayoutRequest caller (rp_request_id i))
  | AResolvePayout i => Some (MPayoutResolution (vp_resolution_id i))
  | _ => None
  end.

(** The answer says that the request was applied now. *)
Definition answered_applied (v : value) : bool :=
  bool_decide (member (lit "applied") v = Some (Bool true)).

Lemma marker_put_marker w m v : marker (put_marker m v w) m = v.
Proof. unfold marker, put_marker. cbn [w_markers set_markers]. by rewrite lookup_insert_eq. Qed.

Lemma member_Object k m : member k (Object m) = jget k m.
Proof. done. Qed.

(** The answers of a replay say so. *)
Lemma answered_member k v m :
  k ≠ lit "applied" → answered_applied (Object (jinsert k v m)) = answered_applied (Object m).
Proof.
  intros Hk.  unfold answered_applied. rewrite !member_Object, jget_jinsert, (bool_decide_eq_false_2 (_ = k)); done.
Qed.
Lemma answered_false m : answered_applied (Object (jinsert (lit "applied") (Bool false) m)) = false.
Proof.
  unfold answered_applied. rewrite member_Object, jget_jinsert, (bool_decide_eq_true_2 (lit "applied" = lit "applied")) by done.
  by apply bool_decide_eq_false_2.
Qed.
Ltac not_applied :=
  unfold already_applied, jobject; cbn [foldl fst snd];
  rewrite ?answered_member by (vm_compute; discriminate); apply answered_false.

Lemma valid_id_nonempty id : valid_finance_id id = true → is_empty id = false.
Proof. by destruct id. Qed.

Section retries.
Context `{PlatformLaws} (auth : str → list N → str → bool).

(** Under a key that was used, an action changes nothing. *)
Ltac replay Hm Hr :=
  cbn [perform] in Hr; tx_inv Hr;
  try match goal with
      | G : negb (is_empty (marker _ _)) = false |- _ => rewrite Hm in G; discriminate
      end;
  try (split; [done|not_applied]).

Lemma replay_reads caller a m w v w' :
  key_marker caller a = Some m → is_empty (marker w m) = false →
  perform auth caller a w = Ok (v, w') → w' = w ∧ answered_applied v = false.
Proof.
  intros Hk Hm Hr. destruct a; try done; cbn [key_marker] in Hk.
  - destruct (is_empty (trim _)) eqn:E; [done|]. injection Hk as <-. unfold perform, mint in Hr.
    rewrite E in Hr. replay Hm Hr.
  - injection Hk as <-. unfold perform, payment_adjustment in Hr. replay Hm Hr.
    apply snapshot_Ok in Hm0 as ->. split; [done|not_applied].
  - injection Hk as <-. unfold perform, create_hold in Hr. tx_inv Hr;
      apply create_hold_checks_Ok in Hm0 as [-> _]; apply create_hold_quote_Ok in Hm1 as ->.
    + split; [done|not_applied].
    + by rewrite Hm in G.
  - injection Hk as <-. unfold perform, start_hold in Hr. replay Hm Hr.
  - injection Hk as <-. unfold perform, release_hold in Hr. replay Hm Hr.
  - injection Hk as <-. unfold perform, settle_hold in Hr. replay Hm Hr.
  - injection Hk as <-. unfold perform, open_pool in Hr. replay Hm Hr.
  - injection Hk as <-. unfold perform, debit_pool in Hr. replay Hm Hr.
  - injection Hk as <-. unfold perform, refresh_pool in Hr. replay Hm Hr.
  - injection Hk as <-. unfold perform, settle_pool in Hr. replay Hm Hr.
  - injection Hk as <-. unfold perform, request_payout in Hr. replay Hm Hr.
  - injection Hk as <-. unfold perform, resolve_payout in Hr. replay Hm Hr.
Qed.

(** ** An action that was applied leaves its marker *)

Lemma marker_participants w x k : marker (set_participants w x) k = marker w k.
Proof. done. Qed.
Lemma marker_put_row w d id m k : marker (put_row w d id m) k = marker w k.
Proof. done. Qed.
Lemma marker_set_next w n k : marker (set_next w n) k = marker w k.
Proof. done. Qed.
Lemma nonempty_app (s : str) c t : is_empty (s ++ (c :: t)) = false.
Proof. by destruct s. Qed.
Lemma nonempty_bar s t : is_empty (s ++ lit "|" ++ t) = false.
Proof. apply nonempty_app. Qed.
Lemma nonempty_id_at n : is_empty (id_at n) = false.
Proof.
  unfold id_at. pose proof (uuid_v4_length n) as Hl. by destruct (uuid_v4 n).
Qed.

Lemma marker_put_pool_of_user u p w k : marker (put_pool_of_user u p w) k = marker w k.
Proof. done. Qed.

(** The world of a fresh application: its marker, then its journal entry. *)
Ltac marked :=
  rewrite ?marker_participants, ?marker_put_row, ?marker_set_next, ?marker_put_pool_of_user,
    ?marker_put_row, ?marker_put_marker;
  first [apply nonempty_bar | apply nonempty_id_at | apply valid_id_nonempty; unbool; naive_solver].
Ltac replayed Hv :=
  try (exfalso; revert Hv; apply (proj2 (not_true_iff_false _)); not_applied).

Lemma applied_marks caller a m w v w' :
  key_marker caller a = Some m → perform auth caller a w = Ok (v, w') →
  answered_applied v = true → is_empty (marker w' m) = false.
Proof.
  intros Hk Hr Hv. destruct a; try done; cbn [key_marker] in Hk.
  - destruct (is_empty (trim _)) eqn:E; [done|]. injection Hk as <-. unfold perform, mint in Hr.
    rewrite E in Hr. tx_inv Hr; replayed Hv. rewrite marker_put_marker. apply nonempty_app.
  - injection Hk as <-. unfold perform, payment_adjustment in Hr. tx_inv Hr; replayed Hv.
    apply snapshot_Ok in Hm0 as ->. rewrite marker_put_marker. apply nonempty_bar.
  - injection Hk as <-. unfold perform, create_hold in Hr. tx_inv Hr; replayed Hv.
    unfold authorize_hold in Hr. tx_inv Hr. marked.
  - injection Hk as <-. unfold perform, start_hold in Hr. tx_inv Hr; replayed Hv. marked.
  - injection Hk as <-. unfold perform, release_hold in Hr. tx_inv Hr; replayed Hv. marked.
  - injection Hk as <-. unfold perform, settle_hold in Hr. tx_inv Hr; replayed Hv.
    unfold apply_settlement in Hr. tx_inv Hr. marked.
  - injection Hk as <-. unfold perform, open_pool in Hr. tx_inv Hr; replayed Hv. marked.
  - injection Hk as <-. unfold perform, debit_pool in Hr. tx_inv Hr; replayed Hv.
    unfold apply_debit in Hr. tx_inv Hr. marked.
  - injection Hk as <-. unfold perform, refresh_pool in Hr. tx_inv Hr; replayed Hv. all: marked.
  - injection Hk as <-. unfold perform, settle_pool in Hr. tx_inv Hr; replayed Hv.
    unfold apply_pool_settlement in Hr. tx_inv Hr; marked.
  - injection Hk as <-. unfold perform, request_payout in Hr. tx_inv Hr; replayed Hv. marked.
  - injection Hk as <-. unfold perform, resolve_payout in Hr. tx_inv Hr; replayed Hv. all: marked.
Qed.

(** The markers of the keys are not those of closed pools, which are rewritten by each close. *)
Lemma key_marker_kept caller a m : key_marker caller a = Some m → pool_close_key (marker_key m) = false.
Proof.
  destruct a; try done; cbn [key_marker]; [destruct (is_empty _); [done|]|..]; by intros [= <-].
Qed.

Lemma marker_kept w w' m :
  markers_kept w w' → pool_close_key (marker_key m) = false → is_empty (marker w m) = false →
  is_empty (marker w' m) = false.
Proof.
  intros Hw Hk. unfold marker. destruct (w_markers w !! marker_key m) as [v|] eqn:E; [|done].
  intros Hv. rewrite (Hw _ _ E); [done| |done]. by intros ->.
Qed.

(** What a request is answered. *)
Definition answer (w : World) (rq : request) : result value ApplicationError :=
  (run_action (perform auth (rq_caller rq) (rq_action rq)) (set_now w (rq_at rq))).1.

Lemma replay_serves w rq m :
  key_marker (rq_caller rq) (rq_action rq) = Some m → is_empty (marker w m) = false →
  (serve auth w rq).1 = set_now w (rq_at rq) ∧
  ∀ v, answer w rq = Ok v → answered_applied v = false.
Proof.
  intros Hk Hm. unfold serve, answer, run_action.
  destruct (perform _ _ _ _) as [[v w']|e] eqn:E; cbn [fst]; [|done].
  apply (replay_reads _ _ m) in E as [-> Hv]; [|done|done]. split; [done|]. by intros ? [= <-].
Qed.

(** C11. A request that was applied under a key is applied once.  When a mint, payment adjustment,
    hold, run, settlement, release, pool opening, debit, refresh, payout request or payout
    resolution was answered as applied, then after whatever requests are served next, every request
    that names the same key (the retry itself, or one with other amounts) changes nothing but the
    clock, and is refused or answered as already applied. *)
Theorem applied_once w rq m v rqs retry :
  action_typed (rq_action rq) → Forall (λ q, action_typed (rq_action q)) rqs → typed w →
  key_marker (rq_caller rq) (rq_action rq) = Some m →
  answer w rq = Ok v → answered_applied v = true →
  key_marker (rq_caller retry) (rq_action retry) = Some m →
  let w' := (serve_all auth w (rq :: rqs)).1 in
  (serve auth w' retry).1 = set_now w' (rq_at retry) ∧
  ∀ v', answer w' retry = Ok v' → answered_applied v' = false.
Proof.
  intros Ha Hf Hw Hk Hv Hap Hk' w'. apply (replay_serves _ _ m Hk').
  subst w'. cbn [serve_all]. destruct (serve auth w rq) as [w1 f1] eqn:E1.
  destruct (serve_all auth w1 rqs) as [w2 f2] eqn:E2. cbn [fst].
  apply (marker_kept w1); [|by eapply key_marker_kept|].
  - assert (typed w1) as T1 by (by eapply serve_sound in E1 as [? _]).
    by eapply serve_all_sound in E2 as (_ & ? & _).
  - unfold answer, serve, run_action in *.
    destruct (perform _ _ _ _) as [[v1 w3]|e] eqn:E; [|done].
    injection E1 as <- <-. injection Hv as ->. exact (applied_marks _ _ _ _ _ _ Hk E Hap).
Qed.
End retries.

(** Bob is credited by a mint; when the payment provider reports the payment again, after alice
    moved her money, nothing is minted. *)
Definition sample_mint (at_ amount : Z) : request := {|
  rq_at := at_; rq_caller := LEGACY_ROOT;
  rq_action := AMint {| mt_to_user_email := lit "bob@here"; mt_amount := amount;
                        mt_idempotency_key := lit "m1" |} |}.

Lemma applied_once_witness :
  let w' := (@serve_all sample_platform sample_auth sample_world
               (sample_mint 5 70 :: sample_requests)).1 in
  (@serve sample_platform sample_auth w' (sample_mint 90 1000)).1 = set_now w' 90 ∧
  bal w' (lit "bob") = Some 420.
Proof.
  split; [|by vm_compute].
  destruct (@answer sample_platform sample_auth sample_world (sample_mint 5 70)) as [v|] eqn:E;
    [|vm_compute in E; discriminate].
  apply (@applied_once sample_platform sample_laws sample_auth sample_world (sample_mint 5 70)
           (MMintApplied (lit "m1")) v sample_requests (sample_mint 90 1000)); try done.
  - exact sample_requests_typed.
  - exact sample_typed.
  - vm_compute in E. injection E as <-. by vm_compute.
Defined.
