(* ===== verification/FinanceReconciled.v ===== *)
(** The reconciliation report against the books: it reports no drift of balanced books, and a
    healthy report means that they are balanced. *)

From S2P Require Import Prelude Text Core Ports BTree Json FinanceLedger FinanceHelpers.
From S2P Require Import FinanceHolds FinancePools FinanceWallets FinanceMarket FinanceBooks.
From S2P Require Import FinanceAudit FinanceSteps FinancePoolSteps FinanceWalletSteps.
From S2P Require Import FinanceActions.

Open Scope Z_scope.

(** ** Sums over the ids of a family *)

Definition family_sum (f : FinanceDoc → Map → Z) (d : FinanceDoc) (w : World) (ids : list str) : Z :=
  sum_Z ((λ id, opt_term (f d) (doc_at w d id)) <$> ids).

Definition only (d : FinanceDoc) (f : FinanceDoc → Map → Z) : FinanceDoc → Map → Z :=
  λ d' m, if bool_decide (d' = d) then f d m else 0.

Lemma doc_ids_perm w d :
  in_rows d = true →
  doc_ids w d ≡ₚ omap (λ kv : FinanceDoc * str * row, if bool_decide (kv.1.1 = d) then Some kv.1.2 else None)
                   (map_to_list (w_rows w)).
Proof. intros Hd. destruct d; try done; apply merge_sort_Permutation. Qed.

Lemma elem_of_doc_ids w d id : in_rows d = true → id ∈ doc_ids w d ↔ is_Some (doc_at w d id).
Proof.
  intros Hd. rewrite doc_ids_perm, list_elem_of_omap by done. unfold doc_at. split.
  - intros ([[d' id'] r] & Hin%elem_of_map_to_list & Hk). cbn in Hk. case_bool_decide; [|done].
    simplify_eq. by rewrite Hin.
  - intros [m Hm]. apply fmap_Some in Hm as (r & Hr & ->). exists ((d, id), r).
    split; [by apply elem_of_map_to_list|]. cbn. by rewrite bool_decide_eq_true_2.
Qed.

Lemma doc_sum_only f d w : in_rows d = true → doc_sum (only d f) w = family_sum f d w (doc_ids w d).
Proof.
  intros Hd. unfold family_sum. rewrite (sum_Z_perm _ _ (fmap_Permutation _ _ _ (doc_ids_perm w d Hd))).
  unfold doc_sum. rewrite msum_list.
  assert (∀ kv, kv ∈ map_to_list (w_rows w) → w_rows w !! kv.1 = Some kv.2) as Hl
    by (intros [k r] ?%elem_of_map_to_list; done).
  induction (map_to_list (w_rows w)) as [|[[d' id] r] l IH]; [done|].
  assert (w_rows w !! (d', id) = Some r) as Hr by (apply (Hl (d', id, r)); left).
  cbn [fmap list_fmap omap list_omap fst snd sum_Z foldr]. fold (sum_Z ((λ kv, only d f kv.1.1 (row_document kv.2)) <$> l)).
  rewrite IH by (intros; apply Hl; by right). unfold only. cbn [fst snd].
  case_bool_decide; [|done]. subst. cbn [fmap list_fmap sum_Z foldr]. unfold doc_at.
  by rewrite Hr.
Qed.

Lemma doc_sum_ext f g w : (∀ d id m, doc_at w d id = Some m → f d m = g d m) → doc_sum f w = doc_sum g w.
Proof. intros He. apply msum_ext. intros [d id] r Hr. apply (He d id). unfold doc_at. by rewrite Hr. Qed.
Lemma doc_sum_add f g w : doc_sum (λ d m, f d m + g d m) w = doc_sum f w + doc_sum g w.
Proof.
  unfold doc_sum. rewrite !msum_list. induction (map_to_list (w_rows w)); cbn; [done|].
  unfold sum_Z in *. lia.
Qed.

Lemma held_sum u w :
  doc_sum (held_term u) w =
  family_sum (held_term u) DHold w (doc_ids w DHold) + family_sum (held_term u) DPool w (doc_ids w DPool).
Proof.
  rewrite <-!doc_sum_only by done. rewrite <-doc_sum_add. apply doc_sum_ext.
  intros d id m _. unfold only. destruct d; repeat case_bool_decide; done || lia.
Qed.
Lemma payout_sum u w :
  doc_sum (payout_term u) w = family_sum (payout_term u) DPayout w (doc_ids w DPayout).
Proof. rewrite <-doc_sum_only by done. apply doc_sum_ext. by intros [] id m _. Qed.
Lemma reserved_sum p w :
  doc_sum (reserved_term p) w =
  family_sum (reserved_term p) DPoolReservation w (doc_ids w DPoolReservation).
Proof. rewrite <-doc_sum_only by done. apply doc_sum_ext. by intros [] id m _. Qed.

(** A part of a sum of nonnegative terms. *)
Lemma family_sum_snoc f d w ids id :
  family_sum f d w (ids ++ [id]) = family_sum f d w ids + opt_term (f d) (doc_at w d id).
Proof. unfold family_sum. rewrite fmap_app, sum_Z_app. cbn. lia. Qed.
Lemma family_sum_nonneg f d w ids : (∀ id, 0 ≤ opt_term (f d) (doc_at w d id)) → 0 ≤ family_sum f d w ids.
Proof.
  intros Hf. unfold family_sum. induction ids as [|id ids IH]; cbn; [done|].
  specialize (Hf id). unfold sum_Z in IH. lia.
Qed.
Lemma family_sum_prefix f d w ids rest :
  (∀ id, 0 ≤ opt_term (f d) (doc_at w d id)) → family_sum f d w ids ≤ family_sum f d w (ids ++ rest).
Proof.
  intros Hf. pose proof (family_sum_nonneg f d w rest Hf). unfold family_sum in *.
  rewrite fmap_app, sum_Z_app. lia.
Qed.

(** ** Totals *)

Definition sums_to (m : gmap str i64) (f : str → Z) : Prop := ∀ u, default 0 (m !! u) = f u.

Lemma sums_to_empty f : (∀ u, f u = 0) → sums_to ∅ f.
Proof. intros Hf u. by rewrite lookup_empty, Hf. Qed.

Lemma finance_map_add_Some m key amount m' f :
  finance_map_add m key amount = Some m' → sums_to m f →
  key ≠ [] ∧ 0 ≤ amount ∧ sums_to m' (λ u, f u + if bool_decide (u = key) then amount else 0).
Proof.
  unfold finance_map_add. intros Ha Hm. destruct (is_empty key || (amount <? 0)) eqn:E; [done|].
  apply orb_false_iff in E as [Ek Ea%Z.ltb_ge]. split; [by intros ->|]. split; [done|].
  destruct (checked_add_i64 _ _) as [n|] eqn:Ec; [|done]. injection Ha as <-.
  apply checked_Some in Ec as [-> _]. intros u. case_bool_decide as Hu.
  - subst. rewrite lookup_insert_eq. cbn. rewrite <-(Hm key). done.
  - rewrite lookup_insert_ne by done. rewrite Hm. lia.
Qed.

Lemma finance_map_add_fits m key amount f :
  sums_to m f → key ≠ [] → 0 ≤ amount → 0 ≤ f key → f key + amount ≤ i64_max →
  is_Some (finance_map_add m key amount).
Proof.
  intros Hm Hk Ha Hf Hb. unfold finance_map_add. rewrite Hm.
  rewrite (proj2 (orb_false_iff _ _)) by (split; [by destruct key|by apply Z.ltb_ge]).
  unfold checked_add_i64. rewrite checked_in; [done|ilia].
Qed.

(** A loop that carries a total, read along its list. *)
Lemma foldl_prefix {A B} (P : list B → A → Prop) (step : A → B → A) ids a :
  P [] a →
  (∀ done id rest a, ids = done ++ id :: rest → P done a → P (done ++ [id]) (step a id)) →
  P ids (foldl step a ids).
Proof.
  intros H0 Hs. revert Hs. induction ids as [|id ids IH] using rev_ind; intros Hs; [done|].
  rewrite foldl_app. apply (Hs ids id []); [done|]. apply IH.
  intros done id' rest a' -> Hp. apply (Hs done id' (rest ++ [id])); [|done].
  by rewrite <-app_assoc.
Qed.

(** ** Texts and statuses *)

Lemma text_field m f p : text_or_empty m f = p → p ≠ [] → field_str m f = Some p.
Proof. unfold text_or_empty. destruct (field_str m f); cbn; naive_solver. Qed.
Lemma field_text m f p : field_str m f = Some p → text_or_empty m f = p.
Proof. unfold text_or_empty. by intros ->. Qed.

(** ** Issues *)

(** The issues that say that holds, pools, reservations or payouts do not add up. *)
Definition drift_codes : list str := [
  lit "hold.unreadable"; lit "hold.invalid"; lit "hold.remaining_mismatch"; lit "held.overflow";
  lit "hold.settlement_mismatch"; lit "hold.release_mismatch"; lit "hold.status_invalid";
  lit "pool.unreadable"; lit "pool.invalid"; lit "pool.balance_mismatch";
  lit "pool.reserved_mismatch"; lit "reservation.unreadable"; lit "reservation.invalid";
  lit "reservation.overflow"; lit "reservation.status_invalid"; lit "held.invalid";
  lit "held.mismatch"; lit "payout.unreadable"; lit "payout.invalid"; lit "payout.held_invalid";
  lit "payout.held_mismatch"].
Definition issue_code (v : value) : option str := member (lit "code") v ≫= as_str.
Definition drifts (v : value) : bool := bool_decide (issue_code v ∈ Some <$> drift_codes).
Definition clean (issues : list value) : Prop := Forall (λ v, drifts v = false) issues.

Section issues.
Context `{Platform} (max_issues : nat) (some_issue : (0 < max_issues)%nat).
Notation report := (report max_issues).
Notation complain := (complain max_issues).

Lemma issue_code_issue code reference detail : issue_code (issue code reference detail) = Some code.
Proof.
  unfold issue_code, issue, member, as_object, jobject. cbn [foldl fst snd mbind option_bind].
  by rewrite !jget_jinsert.
Qed.

Lemma clean_report code reference detail issues :
  code ∉ drift_codes → clean issues → clean (report code reference detail issues).
Proof.
  intros Hc Hi. unfold FinanceAudit.report. case_match; [|done]. apply Forall_app. split; [done|].
  apply Forall_singleton. unfold drifts. rewrite issue_code_issue. apply bool_decide_eq_false_2.
  intros (c & [= <-] & Hin)%list_elem_of_fmap. done.
Qed.
Lemma report_nonempty code reference detail issues : report code reference detail issues ≠ [].
Proof.
  unfold FinanceAudit.report. destruct issues; [|by case_match]. cbn [length].
  by rewrite (proj2 (Nat.ltb_lt 0 max_issues)).
Qed.

(** Steps that leave the held totals alone and report no drift. *)
Record beside (a a' : audit) : Prop := {
  bs_held : au_held a' = au_held a;
  bs_clean : clean (au_issues a) → clean (au_issues a');
  bs_silent : au_issues a' = [] → au_issues a = [];
}.
Lemma beside_refl a : beside a a.
Proof. done. Qed.
Lemma beside_trans a b c : beside a b → beside b c → beside a c.
Proof. intros [H1 H2 H3] [H4 H5 H6]. split; [congruence|auto|auto]. Qed.
Lemma beside_counts a b h n : beside a b → beside a (put_counts b h n).
Proof. by intros []. Qed.
Lemma beside_total a b t m : t ≠ THeld → beside a b → beside a (put_total b t m).
Proof. intros Ht []. by destruct t. Qed.
Lemma beside_complain a b code r d : code ∉ drift_codes → beside a b → beside a (complain code r d b).
Proof.
  intros Hc [H1 H2 H3]. split; [done|by intros ?; apply clean_report; auto|].
  by intros ?%report_nonempty.
Qed.
Lemma beside_tally a b t key amount code r d :
  t ≠ THeld → code ∉ drift_codes → beside a b → beside a (tally max_issues t key amount code r d b).
Proof.
  intros Ht Hc Hb. unfold tally. destruct (finance_map_add _ _ _).
  - by apply beside_total.
  - by apply beside_complain.
Qed.
Lemma beside_lines a b n code r d lines :
  code ∉ drift_codes → beside a b → beside a (foldl (audit_line max_issues code r d) (b, n) lines).1.
Proof.
  intros Hc. revert b n. induction lines as [|line lines IH]; intros b n Hb; [done|].
  cbn [foldl]. unfold audit_line at 2. case_match; apply IH.
  - by apply beside_total.
  - by apply beside_complain.
Qed.
Lemma beside_credits a b n run credits :
  beside a b → beside a (foldl (audit_credit max_issues run) (b, n) credits).1.
Proof.
  revert b n. induction credits as [|credit credits IH]; intros b n Hb; [done|].
  cbn [foldl]. unfold audit_credit at 2. case_match; apply IH.
  - by apply beside_total.
  - apply beside_complain; [|done]. apply (bool_decide_unpack _). by vm_compute.
Qed.

(** Close a [beside] goal along the steps of a loop body. *)
Ltac other_code := apply (bool_decide_unpack _); by vm_compute.
Ltac aside :=
  repeat match goal with
  | |- beside ?a ?a => apply beside_refl
  | |- beside _ (put_counts _ _ _) => apply beside_counts
  | |- beside _ (put_total _ _ _) => apply beside_total; [done|]
  | |- beside _ (FinanceAudit.complain _ _ _ _ _) => apply beside_complain; [other_code|]
  | |- beside _ (tally _ _ _ _ _ _ _ _) => apply beside_tally; [done|other_code|]
  | |- beside _ (if ?b then _ else _) => destruct b
  | H : foldl (audit_line _ _ _ _) (?b, ?n) ?l = (?c, _) |- beside _ ?c =>
      change c with (c, 0).1; replace c with (foldl (audit_line _ _ _ _) (b, n) l).1 by (by rewrite H);
      apply beside_lines; [other_code|]
  end.

(** The held totals after a tally. *)
Definition grown (f : str → Z) (key : str) (amount : Z) : str → Z :=
  λ u, f u + if bool_decide (u = key) then amount else 0.

Lemma tally_held_fits key amount code r d a f :
  sums_to (au_held a) f → key ≠ [] → 0 ≤ amount → 0 ≤ f key → f key + amount ≤ i64_max →
  let a' := tally max_issues THeld key amount code r d a in
  au_issues a' = au_issues a ∧ sums_to (au_held a') (grown f key amount).
Proof.
  intros Hm Hk Ha Hf Hb. unfold tally. cbn [au_total].
  destruct (finance_map_add_fits _ _ _ _ Hm Hk Ha Hf Hb) as [m E]. rewrite E. split; [done|].
  by eapply finance_map_add_Some in E as (_ & _ & ?).
Qed.
Lemma tally_held_silent key amount code r d a :
  au_issues (tally max_issues THeld key amount code r d a) = [] →
  au_issues a = [] ∧
  ∀ f, sums_to (au_held a) f → sums_to (au_held (tally max_issues THeld key amount code r d a)) (grown f key amount).
Proof.
  unfold tally. cbn [au_total]. destruct (finance_map_add _ _ _) as [m|] eqn:E.
  - intros Hi. split; [done|]. intros f Hf. by eapply finance_map_add_Some in E as (_ & _ & ?).
  - by intros ?%report_nonempty.
Qed.
Lemma sums_to_ext m f g : (∀ u, f u = g u) → sums_to m f → sums_to m g.
Proof. intros He Hm u. by rewrite <-He. Qed.

(** ** The loop over the holds *)

Lemma held_term_hold u m p :
  field_str m (lit "payerUserId") = Some p →
  held_term u DHold m =
  if bool_decide (u = p) && bool_decide (text_or_empty m (lit "status") ∈ [lit "open"; lit "running"])
  then default 0 (amount_field m (lit "maxAmount")) else 0.
Proof.
  intros Hp. unfold held_term, has_status, text_or_empty. rewrite Hp.
  assert (bool_decide (Some p = Some u) = bool_decide (u = p)) as -> by (apply bool_decide_ext; naive_solver).
  assert (bool_decide (default [] (field_str m (lit "status")) ∈ [lit "open"; lit "running"]) =
          bool_decide (field_str m (lit "status") = Some (lit "open"))
          || bool_decide (field_str m (lit "status") = Some (lit "running"))) as ->; [|done].
  rewrite <-bool_decide_or. apply bool_decide_ext. rewrite !elem_of_cons, elem_of_nil.
  destruct (field_str m (lit "status")); cbn [default from_option id]; split; try naive_solver.
  all: intros [H1|[H1|[]]]; discriminate.
Qed.

(** A step that touches the held totals no more than [aside] does. *)
Lemma beside_sums a a' f g :
  beside a a' → (∀ u, f u = g u) → clean (au_issues a) → sums_to (au_held a) f →
  clean (au_issues a') ∧ sums_to (au_held a') g.
Proof. intros [H1 H2 H3] He Hc Hs. split; [auto|]. rewrite H1. by eapply sums_to_ext. Qed.
Lemma beside_silent a a' f g :
  beside a a' → (∀ u, f u = g u) → au_issues a' = [] →
  au_issues a = [] ∧ (sums_to (au_held a) f → sums_to (au_held a') g).
Proof. intros [H1 H2 H3] He Hi. split; [auto|]. rewrite H1. by apply sums_to_ext. Qed.

Lemma get_doc_at_Ok w d id path m : in_rows d = true → doc_at w d id = Some m → get_doc w d id path = Ok m.
Proof. intros Hd Hm. rewrite get_doc_row by done. unfold doc_at in Hm. by rewrite Hm. Qed.

Lemma audit_settled_beside hold_id payer project hold max remaining a b :
  beside a b →
  (let actual := amount_or (-1) hold (lit "actualAmount") in
   let refunded := amount_or (-1) hold (lit "refundedAmount") in
   negb (remaining =? 0) || (actual <? 0) || (refunded <? 0)
     || negb (bool_decide (checked_add_i64 actual refunded = Some max)) = false) →
  beside a (audit_settled_hold max_issues hold_id payer project hold max remaining b).
Proof.
  intros Hb Hc. unfold audit_settled_hold. cbv zeta in *. rewrite Hc.
  destruct (foldl _ _ _) as [c n] eqn:E. apply (f_equal fst) in E. cbn [fst] in E.
  assert (beside a c) as Hac by (rewrite <-E; apply beside_lines; [other_code|done]).
  aside; done.
Qed.

Lemma audit_hold_fits w a hid m f :
  doc_at w DHold hid = Some m → hold_ok m → clean (au_issues a) → sums_to (au_held a) f →
  (∀ u, 0 ≤ f u) → (∀ u, f u + held_term u DHold m ≤ i64_max) →
  clean (au_issues (audit_hold max_issues w a hid)) ∧
  sums_to (au_held (audit_hold max_issues w a hid)) (λ u, f u + held_term u DHold m).
Proof.
  intros Hd [(p & Hp & Hpe) (x & Hx & Hxb) Hst] Hc Hs Hf Hb. unfold audit_hold.
  rewrite (get_doc_at_Ok w DHold hid (lit "hold") m eq_refl Hd). unfold amount_or. rewrite Hx, (field_text _ _ _ Hp).
  rewrite (proj2 (orb_false_iff _ _)) by (split; [by destruct p|by apply Z.leb_gt; cbn; lia]).
  cbn [default from_option id].
  assert (∀ u, held_term u DHold m =
    if bool_decide (u = p) && bool_decide (text_or_empty m (lit "status") ∈ [lit "open"; lit "running"])
    then x else 0) as Ht by (intros u; by rewrite (held_term_hold _ _ _ Hp), Hx).
  destruct Hst as [[Hst Hr]|[(Hst & Hr & y & r & [Hy Hyb] & [Hrf Hrb] & Hsum)|(Hst & Hr & Hrf)]].
  - assert (text_or_empty m (lit "status") ∈ [lit "open"; lit "running"]) as Hin.
    { unfold text_or_empty. set_unfold. destruct Hst as [->|[->|[]]]; cbn; tauto. }
    rewrite bool_decide_eq_true_2 in Ht |- * by done. unfold audit_active_hold.
    rewrite Hr, Hx. cbn [default from_option id]. rewrite Z.eqb_refl.
    assert (f p + x ≤ i64_max) as Hbp
      by (specialize (Hb p); rewrite Ht, bool_decide_eq_true_2 in Hb by done; exact Hb).
    match goal with |- context [tally _ THeld p x ?c ?r ?d ?b] =>
      destruct (tally_held_fits p x c r d b f Hs Hpe ltac:(lia) (Hf p) Hbp) as [Hi Hs'];
      set (b' := tally _ THeld p x c r d b) in * end.
    apply (beside_sums b' _ (grown f p x)); [aside| |rewrite Hi; exact Hc|exact Hs'].
    intros u. unfold grown. rewrite Ht. by case_bool_decide.
  - rewrite (field_text _ _ _ Hst) in Ht |- *. rewrite Hr. cbn [default from_option id].
    rewrite bool_decide_eq_false_2 in Ht |- * by (by set_unfold; intros [?|[?|[]]]).
    rewrite bool_decide_eq_true_2 by done.
    apply (beside_sums a _ f); [apply audit_settled_beside; [aside|]| |exact Hc|exact Hs].
    + cbv zeta. unfold amount_or. rewrite Hy, Hrf. cbn [default from_option id].
      rewrite Hx in Hsum. injection Hsum as ->. unfold checked_add_i64. rewrite checked_in by ilia.
      rewrite bool_decide_eq_true_2 by done.
      destruct (Z.ltb_spec y 0), (Z.ltb_spec r 0); try lia; done.
    + intros u. rewrite Ht, andb_false_r. lia.
  - assert (text_or_empty m (lit "status") ∈ [lit "released"; lit "expired"]) as Hin.
    { unfold text_or_empty. set_unfold. destruct Hst as [->|[->|[]]]; cbn; tauto. }
    assert (text_or_empty m (lit "status") ∉ [lit "open"; lit "running"] ∧
            text_or_empty m (lit "status") ≠ lit "settled") as [Hn1 Hn2].
    { set_unfold. destruct Hin as [->|[->|[]]]; split; try done; by intros [?|[?|[]]]. }
    rewrite bool_decide_eq_false_2 in Ht |- * by done. rewrite bool_decide_eq_false_2 by done.
    rewrite bool_decide_eq_true_2 by done. rewrite Hr, Hrf, Hx. cbn [default from_option id].
    rewrite !Z.eqb_refl. cbn [negb orb].
    apply (beside_sums a _ f); [aside| |exact Hc|exact Hs]. intros u. rewrite Ht, andb_false_r. lia.
Qed.

(** A step that reports leaves no empty list. *)
Ltac reported :=
  match goal with
  | Hi : au_issues (FinanceAudit.complain _ _ _ _ _) = [] |- _ => by apply report_nonempty in Hi
  end.

Lemma amount_or_Some m fld x : 0 ≤ amount_or (-1) m fld → amount_or (-1) m fld = x → amount_field m fld = Some x.
Proof. unfold amount_or. destruct (amount_field m fld); cbn; [by intros _ ->|lia]. Qed.

Lemma audit_hold_silent w a hid m f :
  doc_at w DHold hid = Some m → au_issues (audit_hold max_issues w a hid) = [] →
  au_issues a = [] ∧
  (sums_to (au_held a) f → sums_to (au_held (audit_hold max_issues w a hid)) (λ u, f u + held_term u DHold m)).
Proof.
  intros Hd. unfold audit_hold. rewrite (get_doc_at_Ok w DHold hid (lit "hold") m eq_refl Hd).
  destruct (is_empty _ || _) eqn:E; [intros; reported|]. apply orb_false_iff in E as [Ep Ex%Z.leb_gt].
  pose proof (text_field m (lit "payerUserId") _ eq_refl ltac:(intros He; by rewrite He in Ep)) as Hp.
  pose proof (held_term_hold) as Ht. specialize (λ u, Ht u m _ Hp). clear Ep.
  pose proof (amount_or_Some m (lit "maxAmount") _ ltac:(lia) eq_refl) as Hx.
  case_bool_decide as Hs1.
  - unfold audit_active_hold. destruct (Z.eqb_spec (amount_or (-1) m (lit "remainingAmount"))
      (amount_or (-1) m (lit "maxAmount"))) as [Hr|Hr].
    2: { match goal with |- context [tally _ THeld ?p ?x ?c ?r ?d ?b] =>
           set (b' := tally _ THeld p x c r d b) in * end.
         intros Hi. eapply (beside_silent b' _ f f) in Hi as [Hi _]; [|aside|done].
         apply tally_held_silent in Hi as [Hi _]. reported. }
    match goal with |- context [tally _ THeld ?p ?x ?c ?r ?d ?b] =>
      set (b' := tally _ THeld p x c r d b) in * end.
    intros Hi. eapply (beside_silent b' _ (grown f (text_or_empty m (lit "payerUserId"))
      (amount_or (-1) m (lit "maxAmount"))) (λ u, f u + held_term u DHold m)) in Hi as [Hi Hs]; [|aside|].
    + apply tally_held_silent in Hi as [Hi Hs']. split; [done|]. intros Hf. apply Hs, Hs'. exact Hf.
    + intros u. rewrite Ht, Hx. unfold grown. by case_bool_decide.
  - assert (∀ u, f u = f u + held_term u DHold m) as He by (intros u; rewrite Ht, andb_false_r; lia).
    case_bool_decide.
    + unfold audit_settled_hold. destruct (_ || _) eqn:E; [intros; reported|].
      destruct (foldl _ _ _) as [c n] eqn:Ef. apply (f_equal fst) in Ef. cbn [fst] in Ef.
      assert (beside a c) as Hac by (rewrite <-Ef; apply beside_lines; [other_code|aside]).
      apply beside_silent; [|done]. aside; done.
    + case_bool_decide; [|intros; reported]. case_match; [intros; reported|].
      apply beside_silent; [aside|done].
Qed.

(** ** The loop over the pools *)

Lemma pool_held_term u m p :
  field_str m (lit "payerUserId") = Some p →
  held_term u DPool m =
  if bool_decide (u = p) && bool_decide (text_or_empty m (lit "status") = lit "open")
  then amount_or_zero m (lit "remaining") + amount_or_zero m (lit "reserved") else 0.
Proof.
  intros Hp. unfold held_term, has_status, text_or_empty. rewrite Hp.
  assert (bool_decide (Some p = Some u) = bool_decide (u = p)) as -> by (apply bool_decide_ext; naive_solver).
  assert (bool_decide (default [] (field_str m (lit "status")) = lit "open") =
          bool_decide (field_str m (lit "status") = Some (lit "open"))) as ->; [|done].
  apply bool_decide_ext. destruct (field_str m (lit "status")); cbn [default from_option id]; naive_solver.
Qed.

Lemma audit_pool_fits w a hid m f :
  doc_at w DPool hid = Some m → pool_ok m → clean (au_issues a) → sums_to (au_held a) f →
  (∀ u, 0 ≤ f u) → (∀ u, f u + held_term u DPool m ≤ i64_max) →
  clean (au_issues (audit_pool max_issues w a hid)) ∧
  sums_to (au_held (audit_pool max_issues w a hid)) (λ u, f u + held_term u DPool m).
Proof.
  intros Hd [(p & Hp & Hpe) (x1 & x2 & x3 & x4 & [H1 B1] & [H2 B2] & [H3 B3] & [H4 B4] & [H5 B5]) _]
    Hc Hs Hf Hb. unfold audit_pool.
  rewrite (get_doc_at_Ok w DPool hid (lit "pool") m eq_refl Hd). unfold amount_or.
  pose proof (λ u, pool_held_term u m p Hp) as Ht. unfold amount_or_zero in Ht. rewrite H1, H2 in Ht.
  rewrite H1, H2, H3, H4, H5, (field_text _ _ _ Hp). cbn [default from_option id] in *.
  repeat match goal with |- context [?x <? 0] => rewrite (proj2 (Z.ltb_ge x 0)) by lia end.
  replace (is_empty p) with false by (by destruct p). cbn [orb].
  unfold checked_add_i64, saturating_add_i64. rewrite (checked_in _ _ (x1 + x2)) by ilia.
  cbn [mbind option_bind]. rewrite (checked_in _ _ (x1 + x2 + x3)) by ilia. cbn [mbind option_bind].
  rewrite (checked_in _ _ (x1 + x2 + x3 + x4)) by ilia.
  rewrite (bool_decide_eq_true_2 (Some _ = Some _)) by done. rewrite saturate_id by ilia.
  case_bool_decide.
  - assert (f p + (x1 + x2) ≤ i64_max) as Hbp
      by (specialize (Hb p); rewrite Ht, bool_decide_eq_true_2 in Hb by done; exact Hb).
    match goal with |- context [tally _ THeld ?k ?x ?c ?r ?d ?b] =>
      destruct (tally_held_fits k x c r d b f Hs Hpe ltac:(lia) (Hf p) Hbp) as [Hi Hs'] end.
    rewrite Hi. split; [done|]. eapply sums_to_ext; [|exact Hs'].
    intros u. unfold grown. rewrite Ht. by case_bool_decide.
  - split; [done|]. eapply sums_to_ext; [|exact Hs]. intros u. rewrite Ht, andb_false_r. lia.
Qed.

Lemma audit_pool_silent w a hid m f :
  doc_at w DPool hid = Some m → au_issues (audit_pool max_issues w a hid) = [] →
  au_issues a = [] ∧
  (sums_to (au_held a) f → sums_to (au_held (audit_pool max_issues w a hid)) (λ u, f u + held_term u DPool m)).
Proof.
  intros Hd. unfold audit_pool. rewrite (get_doc_at_Ok w DPool hid (lit "pool") m eq_refl Hd).
  destruct (_ || _) eqn:E; [intros; reported|].
  apply orb_false_iff in E as [[[[[Ep E1]%orb_false_iff E2]%orb_false_iff E3]%orb_false_iff _]%orb_false_iff _].
  apply Z.ltb_ge in E1, E2, E3.
  pose proof (text_field m (lit "payerUserId") _ eq_refl ltac:(intros He; by rewrite He in Ep)) as Hp.
  pose proof (λ u, pool_held_term u m _ Hp) as Ht. clear Ep. unfold amount_or_zero in Ht.
  rewrite (amount_or_Some m (lit "remaining") _ E2 eq_refl), (amount_or_Some m (lit "reserved") _ E3 eq_refl) in Ht.
  cbn [default from_option id] in Ht.
  destruct (bool_decide_reflect (text_or_empty m (lit "status") = lit "open")) as [Ho|Ho];
    match goal with |- context [bool_decide (?o = Some ?x)] =>
      destruct (bool_decide_reflect (o = Some x)) as [Hsum|Hsum] end; intros Hi.
  - destruct (checked_add_i64 _ _) as [v|] eqn:Ev in Hsum; [|done].
    apply checked_Some in Ev as [_ Bv]. unfold saturating_add_i64 in *. rewrite saturate_id in Hi |- * by ilia.
    apply tally_held_silent in Hi as [Hi Hs']. split; [done|]. intros Hf.
    eapply sums_to_ext; [|apply Hs', Hf]. intros u. unfold grown. by rewrite Ht, andb_true_r.
  - apply tally_held_silent in Hi as [Hi _]. reported.
  - split; [done|]. apply sums_to_ext. intros u. rewrite Ht, andb_false_r. lia.
  - reported.
Qed.

(** ** The loops over the reservations and the live debits *)

Lemma reserved_term_text q m p :
  field_str m (lit "poolId") = Some p →
  reserved_term q DPoolReservation m =
  if bool_decide (q = p) && bool_decide (text_or_empty m (lit "status") = lit "reserved")
  then amount_or_zero m (lit "amount") else 0.
Proof.
  intros Hp. unfold reserved_term, has_status, text_or_empty. rewrite Hp.
  assert (bool_decide (Some p = Some q) = bool_decide (q = p)) as -> by (apply bool_decide_ext; naive_solver).
  assert (bool_decide (default [] (field_str m (lit "status")) = lit "reserved") =
          bool_decide (field_str m (lit "status") = Some (lit "reserved"))) as ->; [|done].
  apply bool_decide_ext. destruct (field_str m (lit "status")); cbn [default from_option id]; naive_solver.
Qed.

Lemma audit_reservation_fits w a pr run m f :
  doc_at w DPoolReservation run = Some m → reservation_ok m → sums_to pr f → (∀ q, 0 ≤ f q) →
  (∀ q, f q + reserved_term q DPoolReservation m ≤ i64_max) →
  beside a (audit_reservation max_issues w (a, pr) run).1 ∧
  sums_to (audit_reservation max_issues w (a, pr) run).2 (λ q, f q + reserved_term q DPoolReservation m).
Proof.
  intros Hd [(u & Hu & Hue) (p & Hp & Hpe) (x & Hx & Hxb) Hst] Hs Hf Hb. unfold audit_reservation.
  rewrite (get_doc_at_Ok w DPoolReservation run (lit "reservation") m eq_refl Hd).
  pose proof (λ q, reserved_term_text q m p Hp) as Ht. unfold amount_or_zero in Ht. rewrite Hx in Ht.
  assert (amount_or (-1) m (lit "amount") = x) as -> by (unfold amount_or; by rewrite Hx).
  rewrite (field_text _ _ _ Hp), (field_text _ _ _ Hu).
  cbn [default from_option id] in *.
  replace (is_empty u) with false by (by destruct u). replace (is_empty p) with false by (by destruct p).
  rewrite (proj2 (Z.ltb_ge x 0)) by lia. cbn [orb].
  rewrite !elem_of_cons, elem_of_nil in Hst. destruct Hst as [Hst|[Hst|[Hst|[]]]];
    apply field_text in Hst; rewrite Hst in Ht |- *.
  - rewrite bool_decide_eq_true_2 in Ht |- * by done. destruct (finance_map_add_fits pr p x f) as [pr' E];
      [done|done|lia|done|specialize (Hb p); rewrite Ht, bool_decide_eq_true_2 in Hb by done; exact Hb|].
    rewrite E; cbn [fst snd]; split; [aside|]. eapply finance_map_add_Some in E as (_ & _ & E); [|exact Hs].
    eapply sums_to_ext; [|exact E]. intros q. by rewrite Ht, andb_true_r.
  - rewrite bool_decide_eq_false_2 in Ht |- * by done. rewrite bool_decide_eq_true_2 by done.
    assert (∀ q, f q = f q + reserved_term q DPoolReservation m) as He
      by (intros q; rewrite Ht, andb_false_r; lia).
    destruct (_ <? 0); [cbn [fst snd]; split; [aside|by eapply sums_to_ext]|].
    destruct (foldl _ _ _) as [c n] eqn:Ef. apply (f_equal fst) in Ef. cbn [fst] in Ef.
    assert (beside a c) as Hac by (rewrite <-Ef; apply beside_lines; [other_code|aside]).
    split; [cbn [fst]; aside; done|by eapply sums_to_ext].
  - rewrite bool_decide_eq_false_2 in Ht |- * by done. rewrite bool_decide_eq_false_2 by done.
    rewrite bool_decide_eq_true_2 by done; cbn [fst snd]; split; [aside|]. eapply sums_to_ext; [|exact Hs].
    intros q. rewrite Ht, andb_false_r. lia.
Qed.

Lemma audit_reservation_silent w a pr run m f :
  doc_at w DPoolReservation run = Some m →
  au_issues (audit_reservation max_issues w (a, pr) run).1 = [] →
  beside a (audit_reservation max_issues w (a, pr) run).1 ∧
  (sums_to pr f →
   sums_to (audit_reservation max_issues w (a, pr) run).2 (λ q, f q + reserved_term q DPoolReservation m)).
Proof.
  intros Hd. unfold audit_reservation.
  rewrite (get_doc_at_Ok w DPoolReservation run (lit "reservation") m eq_refl Hd).
  destruct (_ || _) eqn:E; [cbn [fst]; intros; reported|].
  apply orb_false_iff in E as [[Eu Ep]%orb_false_iff Ex%Z.ltb_ge].
  pose proof (text_field m (lit "poolId") _ eq_refl ltac:(intros He; by rewrite He in Ep)) as Hp.
  pose proof (λ q, reserved_term_text q m _ Hp) as Ht. clear Ep Eu. unfold amount_or_zero in Ht.
  rewrite (amount_or_Some m (lit "amount") _ Ex eq_refl) in Ht. cbn [default from_option id] in Ht.
  destruct (bool_decide_reflect (text_or_empty m (lit "status") = lit "reserved")) as [Ho|Ho].
  - destruct (finance_map_add _ _ _) as [pr'|] eqn:E; cbn [fst snd]; intros Hi; [|reported].
    split; [aside|]. intros Hs. eapply finance_map_add_Some in E as (_ & _ & E); [|exact Hs].
    eapply sums_to_ext; [|exact E]. intros q. by rewrite Ht, andb_true_r.
  - assert (∀ q, f q = f q + reserved_term q DPoolReservation m) as He
      by (intros q; rewrite Ht, andb_false_r; lia).
    destruct (bool_decide_reflect (text_or_empty m (lit "status") = lit "settled")).
    + destruct (_ <? 0); [cbn [fst]; intros; reported|].
      destruct (foldl _ _ _) as [c n] eqn:Ef. apply (f_equal fst) in Ef. cbn [fst snd] in Ef |- *.
      assert (beside a c) as Hac by (rewrite <-Ef; apply beside_lines; [other_code|aside]).
      intros _. split; [aside; done|by apply sums_to_ext].
    + case_match; cbn [fst snd]; intros Hi; [|reported]. split; [aside|by apply sums_to_ext].
Qed.

Lemma beside_live_debit w a b run : beside a b → beside a (audit_live_debit max_issues w b run).
Proof.
  intros Hb. unfold audit_live_debit. destruct (get_doc _ _ _ _) as [m|]; [|aside; done].
  destruct (_ || _); [aside; done|].
  destruct (foldl _ _ _) as [c n] eqn:Ef. apply (f_equal fst) in Ef. cbn [fst] in Ef.
  assert (beside a c) as Hac by (rewrite <-Ef; by apply beside_credits). aside; done.
Qed.
Lemma beside_live_debits w a b runs :
  beside a b → beside a (foldl (audit_live_debit max_issues w) b runs).
Proof.
  revert b. induction runs as [|run runs IH]; intros b Hb; [done|]. by apply IH, beside_live_debit.
Qed.

(** ** The loops over the counters *)

Lemma elem_of_counter_links w kind u raw :
  (u, raw) ∈ counter_links w kind ↔
  ∃ account v, w_accounts w !! u = Some account ∧ account_value account kind = Some v ∧ raw = show v.
Proof.
  unfold counter_links. rewrite merge_sort_Permutation, list_elem_of_omap. split.
  - intros ([u' account] & Hin%elem_of_map_to_list & Hv). cbn in Hv.
    apply fmap_Some in Hv as (v & Hv & [= -> ->]). eauto.
  - intros (account & v & Ha & Hv & ->). exists (u, account).
    split; [by apply elem_of_map_to_list|]. cbn. by rewrite Hv.
Qed.
Lemma link_value w kind u raw : (u, raw) ∈ counter_links w kind → raw = show (stored_counter w kind u).
Proof.
  intros (account & v & Ha & Hv & ->)%elem_of_counter_links. unfold stored_counter.
  rewrite Ha. cbn. by rewrite Hv.
Qed.
Lemma link_absent w kind u : u ∉ (counter_links w kind).*1 → stored_counter w kind u = 0.
Proof.
  intros Hu. unfold stored_counter. destruct (w_accounts w !! u) as [account|] eqn:Ha; [|done]. cbn.
  destruct (account_value account kind) as [v|] eqn:Hv; [|done]. destruct Hu.
  apply list_elem_of_fmap. exists (u, show v). split; [done|]. apply elem_of_counter_links. eauto.
Qed.

(** What was read so far. *)
Definition read_so_far (w : World) (kind : WalletCounter) (read : list (str * str))
    (actual : gmap str i64) : Prop :=
  ∀ u, (u ∈ read.*1 → actual !! u = Some (stored_counter w kind u)) ∧ (u ∉ read.*1 → actual !! u = None).

Lemma read_so_far_snoc w kind read actual link :
  read_so_far w kind read actual →
  read_so_far w kind (read ++ [link]) (<[link.1 := stored_counter w kind link.1]> actual).
Proof.
  intros Hr u. rewrite fmap_app. cbn. rewrite elem_of_app, list_elem_of_singleton.
  destruct (decide (u = link.1)) as [->|Hne].
  - rewrite lookup_insert_eq. naive_solver.
  - rewrite lookup_insert_ne by done. destruct (Hr u). naive_solver.
Qed.
Lemma read_all w kind actual :
  read_so_far w kind (counter_links w kind) actual → sums_to actual (stored_counter w kind).
Proof.
  intros Hr u. destruct (Hr u) as [H1 H2]. destruct (decide (u ∈ (counter_links w kind).*1)).
  - by rewrite H1.
  - rewrite H2 by done. by rewrite link_absent.
Qed.

Lemma read_counter_eq w kind code detail actual issues link :
  typed w → link ∈ counter_links w kind →
  read_counter max_issues code detail (actual, issues) link =
  if 0 <=? stored_counter w kind link.1 then (<[link.1 := stored_counter w kind link.1]> actual, issues)
  else (actual, report code link.1 (detail link.2) issues).
Proof.
  intros Ht Hl. destruct link as [u raw]. apply link_value in Hl as ->. unfold read_counter. cbn [fst snd].
  by rewrite parse_i64_show by apply Ht.
Qed.

Lemma counters_fit w kind code detail issues :
  typed w → (∀ u, 0 ≤ stored_counter w kind u) →
  ∃ actual, foldl (read_counter max_issues code detail) (∅, issues) (counter_links w kind) = (actual, issues)
            ∧ sums_to actual (stored_counter w kind).
Proof.
  intros Ht Hn. pose proof (foldl_prefix (λ read st, st.2 = issues ∧ read_so_far w kind read st.1)
    (read_counter max_issues code detail) (counter_links w kind) (∅, issues)) as Hp.
  destruct (foldl _ _ _) as [actual issues']. destruct Hp as [He Hr]; cbn [fst snd] in *.
  - split; [done|]. intros u. cbn. rewrite lookup_empty. split; [by intros ?%elem_of_nil|done].
  - intros read link rest [act iss] Hl [Hi Hr]. cbn [fst snd] in *. subst.
    rewrite (read_counter_eq w kind) by (first [done|rewrite Hl; set_solver]).
    rewrite (proj2 (Z.leb_le _ _)) by done. split; [done|by apply read_so_far_snoc].
  - subst. exists actual. split; [done|]. by apply read_all.
Qed.

Lemma counters_silent w kind code detail issues actual :
  typed w → foldl (read_counter max_issues code detail) (∅, issues) (counter_links w kind) = (actual, []) →
  issues = [] ∧ sums_to actual (stored_counter w kind).
Proof.
  intros Ht E. pose proof (foldl_prefix (λ read st, st.2 = [] → issues = [] ∧ read_so_far w kind read st.1)
    (read_counter max_issues code detail) (counter_links w kind) (∅, issues)) as Hp.
  rewrite E in Hp. destruct Hp as [He Hr]; [| |done|].
  - intros Hi. split; [done|]. intros u. cbn. rewrite lookup_empty. split; [by intros ?%elem_of_nil|done].
  - intros read link rest [act iss] Hl Hi. cbn [fst snd] in *.
    rewrite (read_counter_eq w kind) by (first [done|rewrite Hl; set_solver]).
    destruct (_ <=? _); cbn [fst snd]; [|by intros ?%report_nonempty]. intros Hs.
    destruct (Hi Hs). split; [done|by apply read_so_far_snoc].
  - split; [done|]. by apply read_all.
Qed.

Lemma compare_users_fit code expected actual issues users f :
  sums_to expected f → sums_to actual f →
  foldl (compare_user max_issues code expected actual) issues users = issues.
Proof.
  intros He Ha. induction users as [|u users IH]; [done|]. cbn [foldl]. unfold compare_user at 2.
  by rewrite He, Ha, Z.eqb_refl.
Qed.
Lemma compare_users_silent code expected actual issues users :
  foldl (compare_user max_issues code expected actual) issues users = [] →
  issues = [] ∧ ∀ u, u ∈ users → default 0 (actual !! u) = default 0 (expected !! u).
Proof.
  revert issues. induction users as [|u users IH]; intros issues Hi.
  - split; [done|]. by intros u ?%elem_of_nil.
  - apply IH in Hi as [Hi Hu]. unfold compare_user in Hi.
    destruct (Z.eqb_spec (default 0 (actual !! u)) (default 0 (expected !! u)));
      [|by apply report_nonempty in Hi].
    split; [done|]. intros u' [->|?]%elem_of_cons; auto.
Qed.

Lemma compare_counter_fits w kind c1 c2 detail expected issues :
  typed w → (∀ u, 0 ≤ stored_counter w kind u) → sums_to expected (stored_counter w kind) →
  compare_counter max_issues w kind c1 c2 detail expected issues = issues.
Proof.
  intros Ht Hn He. unfold compare_counter.
  destruct (counters_fit w kind c1 detail issues Ht Hn) as (actual & -> & Ha).
  by apply (compare_users_fit _ _ _ _ _ (stored_counter w kind)).
Qed.
Lemma compare_counter_silent w kind c1 c2 detail expected issues :
  typed w → compare_counter max_issues w kind c1 c2 detail expected issues = [] →
  issues = [] ∧ sums_to expected (stored_counter w kind).
Proof.
  intros Ht. unfold compare_counter. destruct (foldl _ _ _) as [actual issues'] eqn:E.
  intros (-> & Hu)%compare_users_silent. apply counters_silent in E as [-> Ha]; [|done].
  split; [done|]. intros u. rewrite <-(Ha u).
  destruct (decide (u ∈ dom expected ∪ dom actual)) as [Hin|Hin].
  - symmetry. apply Hu. by apply elem_of_btree_iter.
  - apply not_elem_of_union in Hin as [H1%not_elem_of_dom H2%not_elem_of_dom]. by rewrite H1, H2.
Qed.

(** ** The loops over the reserved amounts and the payouts *)

Lemma pool_reserved_fits w pr issues ids :
  (∀ p m, doc_at w DPool p = Some m → amount_or_zero m (lit "reserved") = default 0 (pr !! p)) →
  foldl (audit_pool_reserved max_issues w pr) issues ids = issues.
Proof.
  intros He. induction ids as [|p ids IH]; [done|]. cbn [foldl]. unfold audit_pool_reserved at 2.
  destruct (get_doc w DPool p (lit "pool")) as [m|] eqn:Ed; [|done].
  apply get_doc_at in Ed; [|done]. unfold amount_or. unfold amount_or_zero in He.
  by rewrite (He _ _ Ed), Z.eqb_refl.
Qed.
Lemma pool_reserved_silent w pr issues ids :
  foldl (audit_pool_reserved max_issues w pr) issues ids = [] →
  issues = [] ∧
  ∀ p m, p ∈ ids → doc_at w DPool p = Some m → amount_or_zero m (lit "reserved") = default 0 (pr !! p).
Proof.
  revert issues. induction ids as [|q ids IH]; intros issues Hi.
  - split; [done|]. by intros p m ?%elem_of_nil.
  - apply IH in Hi as [Hi Hr]. unfold audit_pool_reserved in Hi.
    destruct (get_doc w DPool q (lit "pool")) as [m|] eqn:Ed.
    + apply get_doc_at in Ed; [|done].
      destruct (Z.eqb_spec (amount_or 0 m (lit "reserved")) (default 0 (pr !! q)));
        [|by apply report_nonempty in Hi].
      split; [done|]. intros p m' [->|?]%elem_of_cons Hp; [by simplify_eq|eauto].
    + split; [done|]. intros p m [->|?]%elem_of_cons Hp; [|eauto].
      by rewrite (get_doc_at_Ok w DPool q (lit "pool") m eq_refl Hp) in Ed.
Qed.

Lemma audit_payout_fits w p issues pid m f :
  doc_at w DPayout pid = Some m → payout_ok m → sums_to (py_expected p) f → (∀ u, 0 ≤ f u) →
  (∀ u, f u + payout_term u DPayout m ≤ i64_max) →
  (audit_payout max_issues w (p, issues) pid).2 = issues ∧
  sums_to (py_expected (audit_payout max_issues w (p, issues) pid).1) (λ u, f u + payout_term u DPayout m).
Proof.
  intros Hd Hok Hs Hf Hb. unfold audit_payout.
  rewrite (get_doc_at_Ok w DPayout pid (lit "payout") m eq_refl Hd).
  unfold payout_term, has_status in *.
  destruct (bool_decide_reflect (field_str m (lit "status") = Some (lit "pending"))) as [Hp|Hp].
  - destruct (Hok Hp) as [(u & Hu & Hue) (x & Hx & Hxb)]. rewrite (field_text _ _ _ Hu). unfold amount_or.
    rewrite Hu, Hx in *. cbn [default from_option id] in *. rewrite (proj2 (Z.leb_gt x 0)) by lia.
    destruct (finance_map_add_fits (py_expected p) u x f) as [m' E]; [done|done|lia|done| |].
    { specialize (Hb u). rewrite bool_decide_eq_true_2 in Hb by done. exact Hb. }
    rewrite E. split; [done|]. eapply finance_map_add_Some in E as (_ & _ & E); [|exact Hs].
    eapply sums_to_ext; [|exact E]. intros v. rewrite andb_true_r.
    by rewrite (bool_decide_ext (Some u = Some v) (v = u)) by naive_solver.
  - split; [done|]. eapply sums_to_ext; [|exact Hs]. intros v. rewrite andb_false_r. lia.
Qed.
Lemma audit_payout_silent w p issues pid m f :
  doc_at w DPayout pid = Some m → (audit_payout max_issues w (p, issues) pid).2 = [] →
  issues = [] ∧
  (sums_to (py_expected p) f →
   sums_to (py_expected (audit_payout max_issues w (p, issues) pid).1) (λ u, f u + payout_term u DPayout m)).
Proof.
  intros Hd. unfold audit_payout. rewrite (get_doc_at_Ok w DPayout pid (lit "payout") m eq_refl Hd).
  unfold payout_term, has_status.
  destruct (bool_decide_reflect (field_str m (lit "status") = Some (lit "pending"))) as [Hp|Hp].
  - destruct (Z.leb_spec (amount_or (-1) m (lit "amount")) 0); [by intros ?%report_nonempty|].
    destruct (finance_map_add _ _ _) as [m'|] eqn:E; cbn [fst snd]; [|by intros ?%report_nonempty].
    intros ->. split; [done|]. intros Hs. eapply finance_map_add_Some in E as (Hu & _ & E); [|exact Hs].
    rewrite (text_field m (lit "userId") _ eq_refl Hu), (amount_or_Some m (lit "amount") _ ltac:(lia) eq_refl).
    eapply sums_to_ext; [|exact E]. intros v. rewrite andb_true_r. cbn [default from_option id].
    by rewrite (bool_decide_ext (Some (text_or_empty m (lit "userId")) = Some v)
                  (v = text_or_empty m (lit "userId"))) by naive_solver.
  - cbn [fst snd]. intros ->. split; [done|]. apply sums_to_ext. intros v. rewrite andb_false_r. lia.
Qed.

(** ** What the rest of the report adds *)

Definition apart (issues issues' : list value) : Prop :=
  (clean issues → clean issues') ∧ (issues' = [] → issues = []).
Lemma apart_refl issues : apart issues issues.
Proof. done. Qed.
Lemma apart_report issues issues' code r d :
  code ∉ drift_codes → apart issues issues' → apart issues (report code r d issues').
Proof. intros Hc [H1 H2]. split; [by intros ?; apply clean_report; auto|by intros ?%report_nonempty]. Qed.
Lemma apart_foldl {B} (step : list value → B → list value) l issues issues' :
  (∀ i i' x, apart i i' → apart i (step i' x)) → apart issues issues' → apart issues (foldl step issues' l).
Proof. intros Hs. revert issues'. induction l; intros issues' Hi; [done|]. cbn. auto. Qed.
Lemma apart_read (code : str) (detail : str → str) (links : list (str * str)) (actual : gmap str i64) issues issues' :
  code ∉ drift_codes → apart issues issues' →
  apart issues (foldl (read_counter max_issues code detail) (actual, issues') links).2.
Proof.
  intros Hc. revert actual issues'. induction links as [|link links IH]; intros actual issues' Hi; [done|].
  cbn [foldl]. unfold read_counter at 2.
  repeat case_match; apply IH; try done; by apply apart_report.
Qed.
Lemma apart_compare w kind code detail expected issues issues' :
  code ∉ drift_codes → apart issues issues' →
  apart issues (compare_counter max_issues w kind code code detail expected issues').
Proof.
  intros Hc Hi. unfold compare_counter. destruct (foldl _ _ _) as [actual i] eqn:E.
  apply (f_equal snd) in E. cbn in E. apply apart_foldl.
  - intros i1 i2 u H2. unfold compare_user. case_match; [done|]. by apply apart_report.
  - rewrite <-E. by apply apart_read.
Qed.
Lemma apart_withdrawable w l total issues issues' :
  apart issues issues' → apart issues (foldl (audit_withdrawable max_issues w) (total, issues') l).2.
Proof.
  revert total issues'. induction l as [|link l IH]; intros total issues' Hi; [done|].
  cbn [foldl]. unfold audit_withdrawable at 2. apply IH. case_match; [|done].
  apply apart_report; [other_code|done].
Qed.
Lemma apart_flows w a issues : apart issues (audit_flows max_issues w a issues).
Proof.
  unfold audit_flows. destruct (foldl (audit_withdrawable _ _) _ _) as [total i] eqn:E.
  apply (f_equal snd) in E. cbn [snd] in E.
  assert (apart issues i) as Hi by (rewrite <-E; by apply apart_withdrawable). clear E.
  apply apart_foldl.
  - intros i1 i2 u H2. unfold audit_project. repeat case_match; repeat (apply apart_report; [other_code|]); done.
  - apply apart_compare; [other_code|]. apply apart_compare; [other_code|].
    case_match; [|done]. apply apart_report; [other_code|done].
Qed.

(** ** Balanced books *)

Lemma in_family w d done key rest : in_rows d = true → doc_ids w d = done ++ key :: rest → is_Some (doc_at w d key).
Proof. intros Hd He. apply elem_of_doc_ids; [done|]. rewrite He. set_solver. Qed.

Section balanced.
Context (w : World) (Ht : typed w) (Hb : books w).

Lemma held_term_nonneg u d : d = DHold ∨ d = DPool → ∀ key, 0 ≤ opt_term (held_term u d) (doc_at w d key).
Proof.
  intros Hd key. destruct (doc_at w d key) as [m|] eqn:E; [|done].
  apply (bk_docs _ _ _ _ Hb) in E. cbn [opt_term]. destruct Hd as [-> | ->]; cbn [doc_ok_at] in E.
  - destruct E as [_ (x & Hx & ?) _]. unfold held_term. case_match; [|done]. rewrite Hx. cbn. lia.
  - destruct E as [_ (x1 & x2 & x3 & x4 & [H1 ?] & [H2 ?] & _) _]. unfold held_term, amount_or_zero.
    case_match; [|done]. rewrite H1, H2. cbn. lia.
Qed.
Lemma payout_term_nonneg u key : 0 ≤ opt_term (payout_term u DPayout) (doc_at w DPayout key).
Proof.
  destruct (doc_at w DPayout key) as [m|] eqn:E; [|done]. apply (bk_docs _ _ _ _ Hb) in E.
  cbn [opt_term doc_ok_at] in *. unfold payout_term, has_status. case_match eqn:Ec; [|done].
  apply andb_true_iff in Ec as [_ Ep%bool_decide_eq_true]. destruct (E Ep) as [_ (x & Hx & ?)].
  rewrite Hx. cbn. lia.
Qed.
Lemma reserved_term_nonneg q key : 0 ≤ opt_term (reserved_term q DPoolReservation) (doc_at w DPoolReservation key).
Proof.
  destruct (doc_at w DPoolReservation key) as [m|] eqn:E; [|done]. apply (bk_docs _ _ _ _ Hb) in E.
  destruct E as [_ _ (x & Hx & ?) _]. cbn [opt_term]. unfold reserved_term, amount_or_zero.
  case_match; [|done]. rewrite Hx. cbn. lia.
Qed.

Lemma held_balanced u :
  stored_counter w Held u =
  family_sum (held_term u) DHold w (doc_ids w DHold) + family_sum (held_term u) DPool w (doc_ids w DPool).
Proof. rewrite (bk_held _ _ _ _ Hb), held_sum. unfold none. lia. Qed.
Lemma payouts_balanced u :
  stored_counter w PayoutHeld u = family_sum (payout_term u) DPayout w (doc_ids w DPayout).
Proof. rewrite (bk_payout_held _ _ _ _ Hb), payout_sum. unfold none. lia. Qed.

Lemma reserved_bound q :
  family_sum (reserved_term q) DPoolReservation w (doc_ids w DPoolReservation) ≤ i64_max.
Proof.
  rewrite <-reserved_sum. destruct (doc_at w DPool q) as [m|] eqn:E.
  - pose proof (bk_reserved _ _ _ _ Hb q m E) as Hr. apply (bk_docs _ _ _ _ Hb) in E.
    destruct E as [_ (x1 & x2 & x3 & x4 & _ & [H2 ?] & _) _]. unfold amount_or_zero in Hr.
    rewrite H2 in Hr. unfold none in Hr. cbn in Hr. lia.
  - unfold doc_sum. rewrite msum_zero; [done|]. intros [d key] r Hr. cbn [fst].
    destruct d; try done. unfold reserved_term. case_match eqn:Ec; [|done].
    apply andb_true_iff in Ec as [Ec%bool_decide_eq_true _].
    destruct (bk_refs _ _ _ _ Hb key (row_document r)) as (p & pool & Hp & Hpool & _);
      [unfold doc_at; by rewrite Hr|]. congruence.
Qed.

(** The sum after one more document, within the sum of all. *)
Lemma family_sum_step f d done key rest m :
  (∀ k, 0 ≤ opt_term (f d) (doc_at w d k)) → doc_ids w d = done ++ key :: rest → doc_at w d key = Some m →
  0 ≤ family_sum f d w done ∧ family_sum f d w (done ++ [key]) = family_sum f d w done + f d m ∧
  family_sum f d w done + f d m ≤ family_sum f d w (doc_ids w d).
Proof.
  intros Hn He Hm. assert (family_sum f d w (done ++ [key]) = family_sum f d w done + f d m) as Hs
    by (rewrite family_sum_snoc, Hm; done).
  split_and!; [by apply family_sum_nonneg|done|]. rewrite <-Hs, He.
  change (done ++ key :: rest) with (done ++ [key] ++ rest). rewrite app_assoc.
  by apply family_sum_prefix.
Qed.

Lemma holds_fit :
  let a := foldl (audit_hold max_issues w) audit_start (doc_ids w DHold) in
  clean (au_issues a) ∧ sums_to (au_held a) (λ u, family_sum (held_term u) DHold w (doc_ids w DHold)).
Proof.
  apply (foldl_prefix (λ ids a, clean (au_issues a) ∧
    sums_to (au_held a) (λ u, family_sum (held_term u) DHold w ids))).
  - split; [by constructor|by apply sums_to_empty].
  - intros ids key rest a He [Hc Hs]. destruct (in_family w DHold ids key rest eq_refl He) as [m Hm].
    pose proof (λ u, family_sum_step (held_term u) DHold ids key rest m
                  (held_term_nonneg u DHold (or_introl eq_refl)) He Hm) as Hf.
    destruct (audit_hold_fits w a key m _ Hm (bk_docs _ _ _ _ Hb _ _ _ Hm) Hc Hs) as [Hc' Hs'].
    + intros u. apply Hf.
    + intros u. destruct (Hf u) as (_ & _ & Hle). pose proof (typed_counter _ Ht Held u) as [_ Hi].
      rewrite held_balanced in Hi.
      pose proof (family_sum_nonneg (held_term u) DPool w (doc_ids w DPool)
                    (held_term_nonneg u DPool (or_intror eq_refl))). lia.
    + split; [done|]. eapply sums_to_ext; [|exact Hs']. intros u. by destruct (Hf u) as (_ & -> & _).
Qed.

Lemma pools_fit a :
  clean (au_issues a) → sums_to (au_held a) (λ u, family_sum (held_term u) DHold w (doc_ids w DHold)) →
  let a' := foldl (audit_pool max_issues w) a (doc_ids w DPool) in
  clean (au_issues a') ∧ sums_to (au_held a') (stored_counter w Held).
Proof.
  intros Hc Hs. cbv zeta.
  assert (clean (au_issues (foldl (audit_pool max_issues w) a (doc_ids w DPool))) ∧
          sums_to (au_held (foldl (audit_pool max_issues w) a (doc_ids w DPool)))
            (λ u, family_sum (held_term u) DHold w (doc_ids w DHold)
                  + family_sum (held_term u) DPool w (doc_ids w DPool))) as [H1 H2].
  { apply (foldl_prefix (λ ids a, clean (au_issues a) ∧
      sums_to (au_held a) (λ u, family_sum (held_term u) DHold w (doc_ids w DHold)
                                + family_sum (held_term u) DPool w ids))).
    - split; [done|]. eapply sums_to_ext; [|exact Hs]. intros u. unfold family_sum. cbn. lia.
    - intros ids key rest b He [Hc' Hs']. destruct (in_family w DPool ids key rest eq_refl He) as [m Hm].
      pose proof (λ u, family_sum_step (held_term u) DPool ids key rest m
                    (held_term_nonneg u DPool (or_intror eq_refl)) He Hm) as Hf.
      pose proof (λ u, family_sum_nonneg (held_term u) DHold w (doc_ids w DHold)
                    (held_term_nonneg u DHold (or_introl eq_refl))) as Hh.
      destruct (audit_pool_fits w b key m _ Hm (bk_docs _ _ _ _ Hb _ _ _ Hm) Hc' Hs') as [Hc2 Hs2].
      + intros u. destruct (Hf u). specialize (Hh u). lia.
      + intros u. destruct (Hf u) as (_ & _ & Hle). pose proof (typed_counter _ Ht Held u) as [_ Hi].
        rewrite held_balanced in Hi. lia.
      + split; [done|]. eapply sums_to_ext; [|exact Hs2]. intros u. destruct (Hf u) as (_ & -> & _). lia. }
  split; [done|]. eapply sums_to_ext; [|exact H2]. intros u. by rewrite held_balanced.
Qed.

Lemma reservations_fit a :
  let st := foldl (audit_reservation max_issues w) (a, ∅) (doc_ids w DPoolReservation) in
  beside a st.1 ∧
  sums_to st.2 (λ q, family_sum (reserved_term q) DPoolReservation w (doc_ids w DPoolReservation)).
Proof.
  apply (foldl_prefix (λ ids st, beside a st.1 ∧
    sums_to st.2 (λ q, family_sum (reserved_term q) DPoolReservation w ids))).
  - split; [apply beside_refl|by apply sums_to_empty].
  - intros ids key rest [b pr] He [Hbs Hs]. cbn [fst snd] in Hbs, Hs.
    destruct (in_family w DPoolReservation ids key rest eq_refl He) as [m Hm].
    pose proof (λ q, family_sum_step (reserved_term q) DPoolReservation ids key rest m
                  (reserved_term_nonneg q) He Hm) as Hf.
    destruct (audit_reservation_fits w b pr key m _ Hm (bk_docs _ _ _ _ Hb _ _ _ Hm) Hs) as [Hb2 Hs2].
    + intros q. apply Hf.
    + intros q. destruct (Hf q) as (_ & _ & Hle). pose proof (reserved_bound q). lia.
    + split; [by eapply beside_trans|]. eapply sums_to_ext; [|exact Hs2].
      intros q. by destruct (Hf q) as (_ & -> & _).
Qed.

Lemma documents_fit :
  clean (au_issues (audit_documents max_issues w).1) ∧
  sums_to (au_held (audit_documents max_issues w).1) (stored_counter w Held) ∧
  sums_to (audit_documents max_issues w).2 (λ q, doc_sum (reserved_term q) w).
Proof.
  unfold audit_documents. destruct holds_fit as [Hc1 Hs1]. destruct (pools_fit _ Hc1 Hs1) as [Hc2 Hs2].
  set (a := foldl (audit_pool _ _) _ _) in *. clearbody a.
  destruct (reservations_fit a) as [Hb3 Hs3].
  destruct (foldl (audit_reservation _ _) _ _) as [b pr]. cbn [fst snd] in *.
  destruct (beside_live_debits w a b (doc_ids w DLiveDebit) Hb3) as [Hh Hc3 _].
  split_and!; [auto|by rewrite Hh|]. eapply sums_to_ext; [|exact Hs3]. intros q. by rewrite reserved_sum.
Qed.

Lemma payouts_fit issues :
  let st := foldl (audit_payout max_issues w)
              ({| py_expected := ∅; py_count := 0; py_pending := 0 |}, issues) (doc_ids w DPayout) in
  st.2 = issues ∧ sums_to (py_expected st.1) (stored_counter w PayoutHeld).
Proof.
  cbv zeta. set (start := ({| py_expected := ∅; py_count := 0; py_pending := 0 |}, issues)).
  assert ((foldl (audit_payout max_issues w) start (doc_ids w DPayout)).2 = issues ∧
    sums_to (py_expected (foldl (audit_payout max_issues w) start (doc_ids w DPayout)).1)
      (λ u, family_sum (payout_term u) DPayout w (doc_ids w DPayout))) as [H1 H2].
  { apply (foldl_prefix (λ ids st, st.2 = issues ∧
      sums_to (py_expected st.1) (λ u, family_sum (payout_term u) DPayout w ids))).
    - split; [done|by apply sums_to_empty].
    - intros ids key rest [p i] He [Hi Hs]. cbn [fst snd] in Hi, Hs. subst i.
      destruct (in_family w DPayout ids key rest eq_refl He) as [m Hm].
      pose proof (λ u, family_sum_step (payout_term u) DPayout ids key rest m
                    (payout_term_nonneg u) He Hm) as Hf.
      destruct (audit_payout_fits w p issues key m _ Hm (bk_docs _ _ _ _ Hb _ _ _ Hm) Hs) as [Hi2 Hs2].
      + intros u. apply Hf.
      + intros u. destruct (Hf u) as (_ & _ & Hle). pose proof (typed_counter _ Ht PayoutHeld u) as [_ Hi].
        rewrite payouts_balanced in Hi. lia.
      + split; [done|]. eapply sums_to_ext; [|exact Hs2]. intros u. by destruct (Hf u) as (_ & -> & _). }
  split; [done|]. eapply sums_to_ext; [|exact H2]. intros u. by rewrite payouts_balanced.
Qed.

(** The issues of a report on balanced books. *)
Lemma balanced_clean :
  let '(a, pr) := audit_documents max_issues w in
  let '(p, issues) := audit_balances max_issues w a pr in
  clean (audit_flows max_issues w a issues).
Proof.
  destruct documents_fit as (Hc & Hh & Hr). destruct (audit_documents max_issues w) as [a pr].
  cbn [fst snd] in *. unfold audit_balances.
  rewrite pool_reserved_fits by (intros q m Hm; rewrite Hr, (bk_reserved _ _ _ _ Hb _ _ Hm); unfold none; lia).
  rewrite compare_counter_fits; [|done| |done].
  2: { intros u. rewrite held_balanced.
       pose proof (family_sum_nonneg (held_term u) DHold w (doc_ids w DHold) (held_term_nonneg u DHold (or_introl eq_refl))).
       pose proof (family_sum_nonneg (held_term u) DPool w (doc_ids w DPool) (held_term_nonneg u DPool (or_intror eq_refl))).
       lia. }
  destruct (payouts_fit (au_issues a)) as [Hi Hs]. destruct (foldl _ _ _) as [p issues]. cbn [fst snd] in *.
  subst issues. rewrite compare_counter_fits; [|done| |done].
  - by apply apart_flows.
  - intros u. rewrite payouts_balanced. apply family_sum_nonneg, payout_term_nonneg.
Qed.
End balanced.

(** ** A report without issues *)

Section silent.
Context (w : World) (Ht : typed w).

Lemma holds_silent a :
  foldl (audit_hold max_issues w) audit_start (doc_ids w DHold) = a → au_issues a = [] →
  sums_to (au_held a) (λ u, family_sum (held_term u) DHold w (doc_ids w DHold)).
Proof.
  intros <-. apply (foldl_prefix (λ ids a, au_issues a = [] →
    sums_to (au_held a) (λ u, family_sum (held_term u) DHold w ids))).
  - intros _. by apply sums_to_empty.
  - intros ids key rest a He Hs Hi. destruct (in_family w DHold ids key rest eq_refl He) as [m Hm].
    eapply (audit_hold_silent w a key m (λ u, family_sum (held_term u) DHold w ids)) in Hi as [Hi Hs'];
      [|done]. eapply sums_to_ext; [|exact (Hs' (Hs Hi))]. intros u. by rewrite family_sum_snoc, Hm.
Qed.

Lemma pools_silent a b :
  foldl (audit_pool max_issues w) a (doc_ids w DPool) = b → au_issues b = [] →
  au_issues a = [] ∧
  (sums_to (au_held a) (λ u, family_sum (held_term u) DHold w (doc_ids w DHold)) →
   sums_to (au_held b) (λ u, doc_sum (held_term u) w)).
Proof.
  intros <-.
  assert (au_issues (foldl (audit_pool max_issues w) a (doc_ids w DPool)) = [] → au_issues a = [] ∧
    (sums_to (au_held a) (λ u, family_sum (held_term u) DHold w (doc_ids w DHold)) →
     sums_to (au_held (foldl (audit_pool max_issues w) a (doc_ids w DPool)))
       (λ u, family_sum (held_term u) DHold w (doc_ids w DHold)
             + family_sum (held_term u) DPool w (doc_ids w DPool)))) as Hall.
  { apply (foldl_prefix (λ ids c, au_issues c = [] → au_issues a = [] ∧
      (sums_to (au_held a) (λ u, family_sum (held_term u) DHold w (doc_ids w DHold)) →
       sums_to (au_held c) (λ u, family_sum (held_term u) DHold w (doc_ids w DHold)
                                 + family_sum (held_term u) DPool w ids)))).
    - intros Hi. split; [done|]. apply sums_to_ext. intros u. unfold family_sum. cbn. lia.
    - intros ids key rest c He Hs Hi. destruct (in_family w DPool ids key rest eq_refl He) as [m Hm].
      eapply (audit_pool_silent w c key m (λ u, family_sum (held_term u) DHold w (doc_ids w DHold)
        + family_sum (held_term u) DPool w ids)) in Hi as [Hi Hs']; [|done].
      destruct (Hs Hi) as [Ha Hs2]. split; [done|]. intros H0.
      eapply sums_to_ext; [|exact (Hs' (Hs2 H0))]. intros u. rewrite family_sum_snoc, Hm. cbn. lia. }
  intros Hi. destruct (Hall Hi) as [Ha Hs]. split; [done|]. intros H0.
  eapply sums_to_ext; [|exact (Hs H0)]. intros u. by rewrite held_sum.
Qed.

Lemma reservations_silent a b pr :
  foldl (audit_reservation max_issues w) (a, ∅) (doc_ids w DPoolReservation) = (b, pr) →
  au_issues b = [] → beside a b ∧ sums_to pr (λ q, doc_sum (reserved_term q) w).
Proof.
  intros E.
  assert (au_issues (foldl (audit_reservation max_issues w) (a, ∅) (doc_ids w DPoolReservation)).1 = [] →
    beside a (foldl (audit_reservation max_issues w) (a, ∅) (doc_ids w DPoolReservation)).1 ∧
    sums_to (foldl (audit_reservation max_issues w) (a, ∅) (doc_ids w DPoolReservation)).2
      (λ q, family_sum (reserved_term q) DPoolReservation w (doc_ids w DPoolReservation))) as Hall.
  { apply (foldl_prefix (λ ids st, au_issues st.1 = [] → beside a st.1 ∧
      sums_to st.2 (λ q, family_sum (reserved_term q) DPoolReservation w ids))).
    - intros _. split; [apply beside_refl|by apply sums_to_empty].
    - intros ids key rest [c pr'] He Hs Hi. cbn [fst snd] in Hs.
      destruct (in_family w DPoolReservation ids key rest eq_refl He) as [m Hm].
      eapply (audit_reservation_silent w c pr' key m
        (λ q, family_sum (reserved_term q) DPoolReservation w ids)) in Hi as Hstep; [|done].
      destruct Hstep as [Hb Hs']. destruct (Hs (bs_silent _ _ Hb Hi)) as [Ha Hs2].
      split; [by eapply beside_trans|]. eapply sums_to_ext; [|exact (Hs' Hs2)].
      intros q. by rewrite family_sum_snoc, Hm. }
  rewrite E in Hall. cbn [fst snd] in Hall. intros Hi. destruct (Hall Hi) as [Ha Hs]. split; [done|].
  eapply sums_to_ext; [|exact Hs]. intros q. by rewrite reserved_sum.
Qed.

Lemma documents_silent a pr :
  audit_documents max_issues w = (a, pr) → au_issues a = [] →
  sums_to (au_held a) (λ u, doc_sum (held_term u) w) ∧ sums_to pr (λ q, doc_sum (reserved_term q) w).
Proof.
  unfold audit_documents. set (h := foldl (audit_hold _ _) _ _). set (p := foldl (audit_pool _ _) h _).
  destruct (foldl (audit_reservation _ _) _ _) as [b pr'] eqn:Er. intros [<- <-]%pair_equal_spec Hi.
  destruct (beside_live_debits w b b (doc_ids w DLiveDebit) (beside_refl b)) as [Hh _ Hsil].
  destruct (reservations_silent _ _ _ Er (Hsil Hi)) as [Hb Hs].
  destruct (pools_silent h p eq_refl (bs_silent _ _ Hb (Hsil Hi))) as [Hi1 Hs1].
  split; [|done]. rewrite Hh, (bs_held _ _ Hb). by apply Hs1, holds_silent.
Qed.

Lemma payouts_silent issues p issues' :
  foldl (audit_payout max_issues w) ({| py_expected := ∅; py_count := 0; py_pending := 0 |}, issues)
    (doc_ids w DPayout) = (p, issues') →
  issues' = [] → issues = [] ∧ sums_to (py_expected p) (λ u, doc_sum (payout_term u) w).
Proof.
  intros E. set (start := ({| py_expected := ∅; py_count := 0; py_pending := 0 |}, issues)) in *.
  assert ((foldl (audit_payout max_issues w) start (doc_ids w DPayout)).2 = [] → issues = [] ∧
    sums_to (py_expected (foldl (audit_payout max_issues w) start (doc_ids w DPayout)).1)
      (λ u, family_sum (payout_term u) DPayout w (doc_ids w DPayout))) as Hall.
  { apply (foldl_prefix (λ ids st, st.2 = [] → issues = [] ∧
      sums_to (py_expected st.1) (λ u, family_sum (payout_term u) DPayout w ids))).
    - intros Hi. split; [done|by apply sums_to_empty].
    - intros ids key rest [q i] He Hs Hi. cbn [fst snd] in Hs.
      destruct (in_family w DPayout ids key rest eq_refl He) as [m Hm].
      eapply (audit_payout_silent w q i key m (λ u, family_sum (payout_term u) DPayout w ids))
        in Hi as [Hi Hs']; [|done]. destruct (Hs Hi) as [Ha Hs2]. split; [done|].
      eapply sums_to_ext; [|exact (Hs' Hs2)]. intros u. by rewrite family_sum_snoc, Hm. }
  rewrite E in Hall. cbn [fst snd] in Hall. intros Hi. destruct (Hall Hi) as [Ha Hs]. split; [done|].
  eapply sums_to_ext; [|exact Hs]. intros u. by rewrite payout_sum.
Qed.

Lemma silent_balanced :
  (let '(a, pr) := audit_documents max_issues w in
   let '(p, issues) := audit_balances max_issues w a pr in audit_flows max_issues w a issues) = [] →
  (∀ u, stored_counter w Held u = doc_sum (held_term u) w) ∧
  (∀ u, stored_counter w PayoutHeld u = doc_sum (payout_term u) w) ∧
  (∀ q m, doc_at w DPool q = Some m → amount_or_zero m (lit "reserved") = doc_sum (reserved_term q) w).
Proof.
  destruct (audit_documents max_issues w) as [a pr] eqn:Ed. unfold audit_balances.
  destruct (foldl (audit_payout _ _) _ _) as [p issues] eqn:Ep. intros Hi.
  apply apart_flows in Hi. apply compare_counter_silent in Hi as [Hi Hp]; [|done].
  apply (payouts_silent _ _ _ Ep) in Hi as [Hi Hps].
  apply compare_counter_silent in Hi as [Hi Hh]; [|done].
  apply pool_reserved_silent in Hi as [Hi Hr].
  destruct (documents_silent a pr Ed Hi) as [Hhs Hrs]. split_and!.
  - intros u. by rewrite <-Hh, <-(Hhs u).
  - intros u. by rewrite <-Hp, <-(Hps u).
  - intros q m Hm. rewrite <-(Hrs q). apply Hr; [|done]. by apply elem_of_doc_ids.
Qed.
End silent.
End issues.

(** ** What the report says *)

Lemma issue_limit_pos input : (0 < issue_limit input)%nat.
Proof. unfold issue_limit. case_match eqn:E; [lia|]. apply Z.leb_gt in E. lia. Qed.

Lemma reconcile_Ok `{Platform} caller input w report w' :
  reconcile_financial_system caller input w = Ok (report, w') ↔
  caller = LEGACY_ROOT ∧ w' = w ∧ report = reconciliation (issue_limit input) w.
Proof.
  unfold reconcile_financial_system. destruct (decide (caller = LEGACY_ROOT)) as [->|Hne].
  - rewrite bool_decide_eq_true_2 by done. cbn [negb]. unfold asks. naive_solver.
  - rewrite bool_decide_eq_false_2 by done. cbn [negb]. split; [by intros ?%denied_Ok|naive_solver].
Qed.

(** The issues and the verdict of a report. *)
Lemma reconciliation_members `{Platform} n w :
  let issues := (let '(a, pr) := audit_documents n w in
                 let '(p, issues) := audit_balances n w a pr in audit_flows n w a issues) in
  member (lit "issues") (reconciliation n w) = Some (Array issues) ∧
  member (lit "healthy") (reconciliation n w) = Some (Bool (bool_decide (length issues = 0%nat))).
Proof.
  cbv zeta. unfold reconciliation. destruct (audit_documents n w) as [a pr].
  destruct (audit_balances n w a pr) as [p issues]. generalize (audit_flows n w a issues) as l. intros l.
  unfold member, as_object, jobject. cbn [foldl fst snd mbind option_bind].
  rewrite !jget_jinsert. literal_keys. done.
Qed.

(** C28. The reconciliation raises no false alarm.  After any sequence of requests served from
    balanced books, the report that the platform owner asks for is produced, and none of its issues
    says that a hold, pool, reservation or payout is malformed, or that a held, payout-held or
    reserved amount differs from the documents. *)
Theorem reconciliation_finds_no_drift `{PlatformLaws} auth w rqs input :
  Forall (λ rq, action_typed (rq_action rq)) rqs → typed w → books w →
  let w' := (serve_all auth w rqs).1 in
  ∃ report issues,
    reconcile_financial_system LEGACY_ROOT input w' = Ok (report, w') ∧
    member (lit "issues") report = Some (Array issues) ∧
    ∀ v code, v ∈ issues → issue_code v = Some code → code ∉ drift_codes.
Proof.
  intros Hf Ht Hb. destruct (serve_all auth w rqs) as [w' f] eqn:E. cbn [fst].
  apply serve_all_sound in E as (Ht' & _ & Hr); [|done|done]. destruct (Hr Hb) as (_ & Hb' & _).
  pose proof (balanced_clean _ (issue_limit_pos input) w' Ht' Hb') as Hc.
  destruct (reconciliation_members (issue_limit input) w') as [Hi _].
  eexists _, _. split_and!; [by apply reconcile_Ok|exact Hi|].
  destruct (audit_documents _ w') as [a pr]. destruct (audit_balances _ w' a pr) as [p issues].
  intros v code Hv Hcode Hd. unfold clean in Hc. rewrite Forall_forall in Hc. apply Hc in Hv. unfold drifts in Hv.
  apply bool_decide_eq_false in Hv. rewrite Hcode in Hv. destruct Hv. by apply list_elem_of_fmap_2.
Qed.

(** A healthy report can be trusted.  When the reconciliation answers healthy, every held
    counter is the sum of the active holds and open pools of its wallet, every payout-held counter
    the sum of its pending payouts, and the reserved amount of every pool the sum of its open
    reservations, whatever wrote the records. *)
Theorem healthy_books_balance `{Platform} caller input w report w' :
  typed w → reconcile_financial_system caller input w = Ok (report, w') →
  member (lit "healthy") report = Some (Bool true) →
  (∀ u, stored_counter w Held u = doc_sum (held_term u) w) ∧
  (∀ u, stored_counter w PayoutHeld u = doc_sum (payout_term u) w) ∧
  (∀ id m, doc_at w DPool id = Some m →
           amount_or_zero m (lit "reserved") = doc_sum (reserved_term id) w).
Proof.
  intros Ht (_ & _ & ->)%reconcile_Ok. destruct (reconciliation_members (issue_limit input) w) as [_ ->].
  intros [= Hl%bool_decide_eq_true]. apply (silent_balanced _ (issue_limit_pos input) w Ht).
  by apply length_zero_iff_nil.
Qed.

(** ** Examples *)

Definition sample_audit : ReconcileFinancialSystemInput := {| rc_max_issues := 0 |}.

Lemma reconciliation_finds_no_drift_witness :
  ∃ report issues,
    @reconcile_financial_system sample_platform LEGACY_ROOT sample_audit pool_world = Ok (report, pool_world) ∧
    member (lit "issues") report = Some (Array issues) ∧
    ∀ v code, v ∈ issues → issue_code v = Some code → code ∉ drift_codes.
Proof.
  apply (@reconciliation_finds_no_drift sample_platform sample_laws sample_auth sample_world [sample_open]).
  - by repeat constructor.
  - exact sample_typed.
  - exact sample_books.
Defined.

Lemma healthy_books_balance_witness :
  stored_counter sample_world Held (lit "alice") = doc_sum (held_term (lit "alice")) sample_world ∧
  member (lit "healthy") (@reconciliation sample_platform 100 sample_world) = Some (Bool true).
Proof.
  split; [|by vm_compute].
  apply (@healthy_books_balance sample_platform LEGACY_ROOT sample_audit sample_world
           (@reconciliation sample_platform 100 sample_world) sample_world).
  - exact sample_typed.
  - by apply reconcile_Ok.
  - by vm_compute.
Defined.

(** Opening a pool makes money withdrawable that was never earned.  Alice holds 1000 and earned
    nothing; after she moves 400 into a pool her withdrawable counter is 600, and the report says
    that the withdrawable total is not backed by earnings. *)
Lemma open_pool_unbacked :
  stored_counter sample_world Withdrawable (lit "alice") = 0 ∧
  stored_counter pool_world Withdrawable (lit "alice") = 600 ∧
  ∃ v, member (lit "issues") (@reconciliation sample_platform 100 pool_world) = Some (Array [v]) ∧
       issue_code v = Some (lit "withdrawable.unbacked_total").
Proof.
  split_and!; [by vm_compute|by vm_compute|].
  destruct (member (lit "issues") (@reconciliation sample_platform 100 pool_world)) as [v|] eqn:E;
    vm_compute in E; [injection E as <-|discriminate].
  eexists _. split; [done|by vm_compute].
Qed.
